(* ===== verification/_CoqProject ===== *)
-Q . S2P
Prelude.v
IntMath.v
IntMathProps.v
IntBits.v
FiniteMap.v
Dict.v
DictProps.v
Text.v
TextProps.v
StringBuilder.v
IdentTable.v
StringDict.v
StringDictProps.v
DictVariants.v
SymbolTable.v
KnownSymbols.v
Lexer.v
LexNames.v
LexNumbers.v
LexStrings.v
LexerNext.v
LexerScan.v
LexerSafety.v
LexerWords.v
LexerRing.v
LexerNumerals.v
Opcode.v
ByteCode.v
CompiledBlock.v
Object.v
Expr.v
Closure.v
Machine.v
FnCall.v
Integer64.v
Integer64Props.v
Eval.v
EvalProps.v
CallProps.v
Compiler.v
CompileForms.v
CompilerTests.v
CompilerInvariant.v
CompilerProps.v
CompileRun.v
Reference.v
RunBlock.v
CompileSteps.v
CompileCorrect.v
CompileCore.v
CompileControl.v
CompileLoops.v
ProgramCorrect.v
PositionFree.v
ParseScope.v
ScopeProps.v
Parser.v
ParseForms.v
ParseLists.v
ParseBlocks.v
ParseExprs.v
ParserInvariant.v
ParserTests.v
ParserProps.v
ParserFeed.v
ParserLevels.v
ParserTrees.v
ParserRoundtrip.v
ParserText.v
TextProgram.v
