(* ===== verification/Prelude.v ===== *)
(** * The Smile parser, compiler and virtual machine: root of the development

    Smile (src/smilelib) is a Lisp-like language compiled to byte code for a
    stack machine.  This library models the lexer from text to tokens, the
    parser from tokens to expressions, the compiler from expressions to byte
    code, the virtual machine, the native methods of its integers and the hash
    tables underneath, function by function, and proves what their clients rely
    on.

    ** Parts of the program and files of the development

    Foundations.
    - [Prelude] (this file): machine integers, arrays, shared tactics.
    - [IntMath], [IntMathProps], [IntBits]: the arithmetic kernels of
      src/smiletypes/numeric/smileinteger64_base.generated.c (division, powers,
      roots, gcd, bit tricks), parameterised by the width as the template they
      are generated from, with their specifications at widths 32 and 64.
    - [FiniteMap]: the interface of a dictionary ([MapOps], [MapLaws]) and what
      follows from it: a sequence of operations refines the finite map.
    - [Dict], [DictProps]: the hash table of src/dict/int32dict.c and
      include/smile/dict: buckets, a heap of nodes, a free list, resizing; its
      invariant, and the instance of the interface.

    Texts and names.
    - [Text], [TextProps]: strings as bytes; equality, the UTF-8 decoder and
      encoder, integers printed and parsed (src/string).
    - [StringBuilder]: the growing texts of src/string/stringbuilder.c.
    - [IdentTable]: which code points names are made of
      (src/parsing/lexer/identtable.c).
    - [StringDict], [StringDictProps]: the hash tables keyed by texts
      (src/dict/stringdict.c), related to [Dict] by forgetting their cached
      hashes, which makes them an instance of the same interface.
    - [DictVariants]: the copies for other types (src/dict/int32int32dict.c,
      vardict.c, pointerset.c, stringintdict.c) and what they add.
    - [SymbolTable]: interned names (src/env/symboltable.c), a client of the
      dictionaries' interface.
    - [KnownSymbols]: the names registered at startup and the constants of the
      special ones (include/smile/env/knownsymbols.h, src/env/knownsymbols.c).

    The lexer (src/parsing/lexer and include/smile/parsing).
    - [Lexer]: tokens, the lexer's state with its ring of tokens, escape codes,
      creation, ungetting, positions (lexer.h, lexerinternal.h, tokenkind.c,
      lexerextra.c).
    - [LexNames], [LexNumbers], [LexStrings]: one definition per function of
      lexnames.c, lexpunct.c, lexloanword.c, lexnumbers.c and lexstrings.c.
    - [LexerNext]: [Lexer_Next] (lexer.c), whose gotos are rounds of a loop, and
      the tokens of a whole input.
    - [LexerScan], [LexerSafety]: a calculus of outcomes ([safe]) and with it
      memory safety, progress and termination on any input.
    - [LexerWords]: lexing as the inverse of writing; [LexerNumerals]: the values
      of integer literals; [LexerRing]: tokens put back.

    The virtual machine.
    - [Opcode]: the enumeration of include/smile/eval/opcode.h, with the stack
      effects its comments document ([Opcode_stackDelta]).
    - [ByteCode]: instructions, the operand union and growable segments of
      include/smile/eval/bytecode.h and src/eval/bytecode.c.
    - [Object]: the object representation of src/smiletypes: boxed and unboxed
      scalars, lists, user objects, functions, till continuations; boxing,
      truth, equality, properties, inheritance.
    - [Closure]: activation records, the operand stack, scoped and global
      variables of src/eval/closure.c and include/smile/eval/closure.h.
    - [Machine]: the registers of src/eval/eval.c over a store of closures and a
      heap, the tables a program consists of, the outcomes of an instruction.
    - [FnCall]: the calling conventions of src/eval/eval_fn_user.generated.c,
      src/eval/eval_fn_ext.generated.c and src/smiletypes/smilefunction.c.
    - [Integer64], [Integer64Props]: the methods of 64-bit integers and the
      table that registers them with their checks; a call from the machine
      reaches them through the conventions of [FnCall].
    - [Eval]: every instruction of [Eval_RunCore] (src/eval/eval.c), grouped as
      in the source, and the interpreter loop.
    - [EvalProps], [CallProps]: theorems on single instructions, and on calls,
      returns and till continuations.

    The parser (src/parsing/parser and include/smile/parsing).
    - [ParseScope]: messages, declarations and scopes (parsemessage.h,
      parsedecl.h, parsescope.h and the declaring part of parsescope.c).
    - [Parser]: its state, and tokens, lookahead, recovery and messages
      (parserhelpers.c, parsererrors.c), as a state monad.
    - [ParseForms], [ParseLists], [ParseBlocks], [ParseExprs]: one definition per
      function of parsercore.c, parsescope.c, parserdynstrings.c, parsequote.c,
      parsefunc.c, parsenew.c, parsetill.c, parseterm.c, parseassign.c and
      parseexpr.c, closed into the mutual recursion [parsers], and the entry
      points [Parser_Parse] and [Parser_ParseString].
    - [ParserTests]: the parser on the text of programs, well-formed and not.
    - [ScopeProps]: the laws of declaring and finding names.
    - [ParserInvariant], [ParserProps]: what every function of the parser keeps of
      the scopes, messages and settings.
    - [ParserFeed]: the parser on tokens that are known, lexed or put back, and the
      rules for its steps; [ParserLevels]: how a term passes the levels of the
      grammar; [ParserTrees]: expressions as tokens, and which can be read back;
      [ParserRoundtrip], [ParserText]: they are.

    The compiler.
    - [CompiledBlock]: trees of intermediate instructions, their stack
      accounting and the assembler [CompiledBlock_Finish] of
      src/eval/compiler/compiledblock.c, with a reference assembler.
    - [Expr]: expressions as the parser hands them over, source positions, the
      list accessors and the argument lists of functions
      ([UserFunctionInfo_ApplyArgs] of src/smiletypes/smilefunction.c).
    - [Compiler]: the compiler's state (scopes, function stack, growing tables
      of functions, objects, strings and till continuations) and the operations
      of src/eval/compiler.c on it, in a state monad.
    - [CompileForms]: one definition per function of src/eval/compiler/*.c, and
      [Compiler_CompileExpr] over them.
    - [CompilerTests]: the sources of small programs compiled to the byte code
      the repository's own tests expect.
    - [CompilerInvariant], [CompilerProps]: the well-formedness of the compiler's
      state and of the blocks, kept by every form; termination, assembly,
      scoping.
    - [CompileRun]: the instructions emitted for variables, run on the machine.

    The compiler against the machine.
    - [Reference]: a specification of the language: an interpreter of a core of
      it over values and environments, and the expressions of that core.
    - [RunBlock]: what it is to run a stretch of intermediate code on the
      machine, from an environment on the closure to an environment.
    - [CompileSteps], [CompileCorrect]: what compiling keeps of the state, and
      the correctness of one expression's code as a relation on the compiler's
      monad.
    - [CompileCore], [CompileControl], [CompileLoops]: each form of the core.
    - [ProgramCorrect]: all expressions, and whole programs.
    - [PositionFree]: positions in an expression do not change its meaning.
    - [TextProgram]: from the text of a program to its value, by all of the above.

    ** How state and operations correspond

    Pointers are indices: a closure is a position of [closures], a heap object
    a position of the heap, an instruction of a block the number it was
    allocated with, a compiler scope or function a position of the compiler's
    store.  C arrays are lists accessed by [zget] and [zset], which answer
    [None] outside the bounds; a component turns that into [Crash],
    [Undefined] or, in the compiler, an abort, so undefined behaviour of the C
    code is an outcome of the model, never a default value.  Exceptions are
    values ([Throw], [Exception]) carrying the kind of the error; compiler
    errors are messages carrying the format string without its arguments.
    The lexer's pointers are indices into the bytes of the input and their
    terminator; its outcomes tell a read outside the input ([ReadFault]) from a
    cell of a string builder read outside its array or before it was written
    ([BuilderFault]) and a loop that does not end ([OutOfFuel]).
    A scope of the parser points to its parent: the scopes it is in are a list,
    the innermost first.  A token is a slot of the lexer's ring, so that what the
    C code reads through an old token pointer is what the ring holds by then; the
    parser's outcomes ([Trouble]) tell the faults of the lexer, a NULL pointer, an
    index outside an array, a variable that was not set, a write into the shared
    empty list, a recursion cut short and the constructs left out.
    Fixed-width integers are wrapped where they are stored ([wrapU], [wrapS]);
    signed arithmetic wraps as the supported compilers do, shifts by the width
    or more are [Crash].  Code outside the model (external functions, module
    loading) is reached through [External] outcomes, and [external_return] and
    its companions say how the machine continues; what the objects need from
    the rest of the system is the class [ObjectEnv], what the compiler needs of
    it is the class [CompilerEnv].

    ** What the theorems show

    - Compiling: [CompileExpr_disciplined] (every expression compiles within
      its height, keeps the compiler's state well-formed and builds blocks of
      real instructions only), [CompileGlobal_assembles] (the byte code of each
      function of a program is the assembly of such a block), [scopes_nest],
      [ApplyArgs_shape].
    - Assembling: [Finish_assembles] (layout and branch targets equal a
      reference assembler), [Finish_in_bounds], [Flatten_preserves_code]
      (flattening makes no difference to the segment), [AppendChild_depth];
      [Emit_appends] for segments.
    - Compiler against machine: [LoadVariable_runs] and [StoreVariable_runs]:
      the instruction emitted for a variable, whatever functions and scopes lie
      between its use and its declaration, reaches exactly its slot.
      [program_correct]: a program of the core language, compiled by
      [Compiler_CompileGlobal], laid out by the assembler and run from
      [Eval_Run], ends with the value the reference interpreter gives it, and
      neither the variables nor the stack of its closure overflow.  The core has
      constants, variables, [$scope], assignments, [$progn], [$prog1], [$if],
      [$and], [$or], [$not] and the comparisons by identity in every nesting, and
      [$while] as a statement; it has no functions, calls or [$till], whose
      code [call_then_return] and [till_escape_restores] are about.  Loops whose
      value is wanted are left out because they fail: [while_value_overflows]
      runs one out of its stack.
    - The machine: [documented_stack_effect] and [documented_call_effect] tie
      the interpreter to the table in opcode.h; [call_then_return] and
      [till_escape_restores] are the control-transfer contracts;
      [fixed_scope_agrees] shows the optimised forms equal to the general ones.
    - Calls: each convention builds the callee's frame from the caller's stack
      ([Slow_Call_frame], [Optional_Call_frame], [Rest_Call_collects]), the
      unrolled ones are the general one ([fast_conventions_agree]),
      [PerformTypeChecks_spec].
    - Closures and objects: invariants ([closure_ops_wf]), set/get laws, boxing
      round trips.
    - Integers: [methods_are_type_safe] (every registered method but [random]
      is called with the arguments it is registered for, and none of those whose
      body is modelled can be driven to undefined behaviour, but for shift
      counts), and the mathematical meaning
      of the methods ([ring_operations_wrap], [divisions], [powers],
      [number_theory], [roots_and_logarithms], [word_queries], [reversals],
      [rotations]).
    - The lexer: [words_roundtrip] (what is written is read back, with its
      positions), [Lexer_Next_safe] and [tokenize_ends] (no input makes it read
      outside its bytes or run for ever, but for four equal signs in a row; the
      marks of equal signs can be read before they are written, behind a
      character of several bytes),
      [integer_literals_exact] and [integer_suffixes] (no overflow of a literal
      goes unnoticed, but for two values of the suffixes), [Unget_replays] (15
      tokens can be put back, as documented).
    - The parser: [parsing_keeps_scopes] (scopes nest, names stay declared,
      messages are never lost, whenever the parser returns), [Declare_law] (when a name may be
      declared, and what is found afterwards), [PreloadSpecials_constants] (the
      symbols the parser and the compiler switch on are those the table gives),
      [parser_roundtrip] (the text of a program in the syntax of lists is parsed to
      the tree it was written for; so the parser returns on these texts).
    - All together: [text_to_value]: the text of a program of the core language,
      lexed, parsed, compiled, assembled and run, gives its value.
    - Dictionaries: [Int32Dict_refines_map], [enumeration], [Clone_spec],
      [StringDict_refines_map].
    - Texts and names: [utf8_exact] (decoding is the exact inverse of encoding),
      [integer_text_roundtrip], [StringBuilder_appends] (appends are
      concatenation, always within the array),
      [SymbolTable_interns] (symbols and names correspond one to one).
    - Deviations: theorems that pin down where the code does not do what its
      documentation says: [Table_add_keeps], [CompileReturn_drops_value],
      [MathematiciansRemainder_exact], [MathematiciansModulus_exact],
      [rotations], and the lemmas [Cdr_reads_car], [Bool_drops_booleans],
      [Not_reads_stale_bits], [StpMember_leaves_result],
      [Checked_ignores_optional], [Combine_depth_underestimates],
      [Emit_on_empty_segment_diverges], [toBool_box], [while_value_overflows],
      [null_equals], [garbage_accepted], [TryAddValue_overwrites], and of the
      lexer the examples of [LexerNext], of the parser those of [ParserTests].

    ** Fuel

    [Eval_RunCore] counts instructions.  Walks up parents and bases use
    [closure_fuel] and [base_fuel], larger than the number of closures and
    heap cells, so running out means a cyclic chain, on which the C code does
    not return.  [Grow_fuel] bounds the doubling in [ByteCodeSegment_Grow], and
    [Emit_appends] proves it enough.  The compiler's fuel is the height of the
    expression ([CompileExpr_disciplined] proves it enough; a cyclic expression
    has no height, and the C code does not return on it).  The loops of
    [IntMath] are bounded by the width ([powers], [number_theory] and
    [roots_and_logarithms] prove that enough), the chains of [Dict] by the
    number of nodes ([Int32Dict_refines_map]), the loops of the lexer by the
    bytes that are left ([Lexer_Next_safe]: none of them runs out).  The fuel of
    the parser, [parsers], bounds the depth of the recursion and the rounds of
    each loop; on the text of a readable program the number of its tokens is enough
    ([parser_roundtrip]), and there is no bound for all texts, since the C code does
    not return on some ([scope_names_endless], [till_names_endless]).  The fuel of
    the reference interpreter bounds both the height of the expression and the
    rounds of its loops; [program_correct] speaks of expressions that have a
    value with some fuel, which are those whose loops end.

    ** Not modelled

    Of the parser, the user-defined syntax rules and [#include], which reads files:
    where the C code enters them the model answers [NotModelled]; and the text a
    message is formatted to.  The conversion of the digits of reals and floats to
    bits (a parameter of the lexer), the rest of the string library (searching, case
    conversion, formatting, code pages), module tables, the hash of texts (a
    parameter of the dictionaries), the other widths and kinds of numbers (bytes,
    16-bit, reals, floats), ranges and the platform layer.  Garbage collection
    is invisible.
    The theorems on the compiler do not exclude that it aborts on ill-formed
    special forms, or that the tables of a large program overflow; they say what
    holds when it returns. *)

From stdpp Require Export base list option gmap.
From Stdlib Require Export ZArith Lia Bool.
#[global] Open Scope Z_scope.

(** ** Machine integers

    A [w]-bit unsigned value is a [Z] in [0, 2^w); a [w]-bit signed value is a
    [Z] in [-2^(w-1), 2^(w-1)).  [wrapU]/[wrapS] are the conversions that C
    performs when a value is stored into such a field. *)

Definition wrapU (w z : Z) : Z := z mod 2 ^ w.
Definition wrapS (w z : Z) : Z := (z + 2 ^ (w - 1)) mod 2 ^ w - 2 ^ (w - 1).

Definition inU (w z : Z) : Prop := 0 <= z < 2 ^ w.
Definition inS (w z : Z) : Prop := - 2 ^ (w - 1) <= z < 2 ^ (w - 1).

Create HintDb smile.
Create Rewrite HintDb zlen.

Lemma pow2_pos (w : Z) : 0 <= w -> 0 < 2 ^ w.
Proof. intros. apply Z.pow_pos_nonneg; lia. Qed.

Lemma pow2_double (w : Z) : 0 < w -> 2 ^ w = 2 * 2 ^ (w - 1).
Proof. intros. rewrite <- Z.pow_succ_r by lia. f_equal; lia. Qed.

Lemma wrapU_range (w z : Z) : 0 <= w -> inU w (wrapU w z).
Proof. intros. apply Z.mod_pos_bound, pow2_pos; lia. Qed.

Lemma wrapU_id (w z : Z) : inU w z -> wrapU w z = z.
Proof. intros. apply Z.mod_small; assumption. Qed.

Lemma wrapS_range (w z : Z) : 0 < w -> inS w (wrapS w z).
Proof.
  intros. unfold inS, wrapS.
  pose proof (Z.mod_pos_bound (z + 2 ^ (w - 1)) (2 ^ w) (pow2_pos w ltac:(lia))).
  rewrite (pow2_double w) in * by lia. lia.
Qed.

Lemma wrapS_id (w z : Z) : 0 < w -> inS w z -> wrapS w z = z.
Proof.
  intros Hw Hz. unfold inS, wrapS in *.
  rewrite Z.mod_small; [lia|]. rewrite (pow2_double w) by lia. lia.
Qed.

Lemma inS_32_64 (z : Z) : inS 32 z -> inS 64 z.
Proof. unfold inS. change (64 - 1) with 63. change (32 - 1) with 31. lia. Qed.

(** Both conversions only look at the residue modulo [2^w]. *)
Lemma wrapS_mod (w a b : Z) : 0 <= w -> a mod 2 ^ w = b mod 2 ^ w -> wrapS w a = wrapS w b.
Proof.
  intros Hw H. unfold wrapS. f_equal.
  rewrite (Z.add_mod a), (Z.add_mod b), H; [done| |];
    pose proof (pow2_pos w Hw); lia.
Qed.

Lemma wrapS_wrapU (w z : Z) : 0 <= w -> wrapS w (wrapU w z) = wrapS w z.
Proof.
  intros. apply wrapS_mod; [done|]. unfold wrapU.
  apply Z.mod_mod. pose proof (pow2_pos w); lia.
Qed.

Lemma wrapU_wrapS (w z : Z) : 0 < w -> wrapU w (wrapS w z) = wrapU w z.
Proof.
  intros. unfold wrapU, wrapS. pose proof (pow2_pos w ltac:(lia)).
  rewrite Zminus_mod, Z.mod_mod, <- Zminus_mod by lia. f_equal; lia.
Qed.

Lemma wrapS_add_l (w a b : Z) : 0 < w -> wrapS w (wrapS w a + b) = wrapS w (a + b).
Proof.
  intros. apply wrapS_mod; [lia|]. pose proof (wrapU_wrapS w a H) as E. unfold wrapU in E.
  by rewrite Zplus_mod, E, <- Zplus_mod.
Qed.

Lemma wrapS_sub_r (w a b : Z) : 0 < w -> wrapS w (a - wrapS w b) = wrapS w (a - b).
Proof.
  intros. apply wrapS_mod; [lia|]. pose proof (wrapU_wrapS w b H) as E. unfold wrapU in E.
  by rewrite Zminus_mod, E, <- Zminus_mod.
Qed.

Lemma wrapS_opp (w a : Z) : 0 < w -> wrapS w (- wrapS w a) = wrapS w (- a).
Proof. intros. rewrite <- !Z.sub_0_l. by apply wrapS_sub_r. Qed.

Lemma wrapS_mul_l (w a b : Z) : 0 < w -> wrapS w (wrapS w a * b) = wrapS w (a * b).
Proof.
  intros. apply wrapS_mod; [lia|]. pose proof (wrapU_wrapS w a H) as E. unfold wrapU in E.
  by rewrite Zmult_mod, E, <- Zmult_mod.
Qed.

Lemma wrapS_mul_r (w a b : Z) : 0 < w -> wrapS w (a * wrapS w b) = wrapS w (a * b).
Proof. intros. rewrite !(Z.mul_comm a). by apply wrapS_mul_l. Qed.

#[export] Hint Resolve wrapU_range wrapS_range pow2_pos : smile.

(** ** Arrays indexed by [Z]

    C arrays are lists with accesses that answer [None] outside the bounds:
    every read or write of a component goes through these two. *)

Definition zget {A} (l : list A) (i : Z) : option A :=
  if i <? 0 then None else l !! Z.to_nat i.

Definition zset {A} (l : list A) (i : Z) (x : A) : option (list A) :=
  if (0 <=? i) && (i <? Z.of_nat (length l)) then Some (<[Z.to_nat i := x]> l) else None.

Definition zlen {A} (l : list A) : Z := Z.of_nat (length l).

Lemma zget_Some {A} (l : list A) i x : zget l i = Some x <-> 0 <= i /\ l !! Z.to_nat i = Some x.
Proof. unfold zget. destruct (Z.ltb_spec i 0); split; intros; naive_solver lia. Qed.

Lemma zget_is_Some {A} (l : list A) i : is_Some (zget l i) <-> 0 <= i < zlen l.
Proof.
  unfold zget, zlen. destruct (Z.ltb_spec i 0).
  - split; [intros [? ?]; done|lia].
  - rewrite lookup_lt_is_Some. lia.
Qed.

Lemma zget_None {A} (l : list A) i : zget l i = None <-> i < 0 \/ zlen l <= i.
Proof.
  pose proof (zget_is_Some l i) as H. rewrite <- not_eq_None_Some in H.
  destruct (zget l i) eqn:E; split; intros; try done.
  - assert (0 <= i < zlen l) by (apply H; done). lia.
  - destruct (decide (0 <= i < zlen l)) as [Hr|]; [|lia]. apply H in Hr; done.
Qed.

Lemma zget_app_l {A} (l k : list A) i : i < zlen l -> zget (l ++ k) i = zget l i.
Proof.
  unfold zget, zlen. intros. destruct (Z.ltb_spec i 0); [done|].
  apply lookup_app_l. lia.
Qed.

Lemma zget_app_r {A} (l k : list A) i : zlen l <= i -> zget (l ++ k) i = zget k (i - zlen l).
Proof.
  unfold zget, zlen. intros.
  destruct (Z.ltb_spec i 0), (Z.ltb_spec (i - Z.of_nat (length l)) 0); try lia.
  rewrite lookup_app_r by lia. f_equal; lia.
Qed.

Lemma zset_Some {A} (l l' : list A) i x :
  zset l i x = Some l' <-> 0 <= i < zlen l /\ l' = <[Z.to_nat i := x]> l.
Proof.
  unfold zset, zlen.
  destruct (Z.leb_spec 0 i), (Z.ltb_spec i (Z.of_nat (length l))); simpl;
    split; intros; naive_solver lia.
Qed.

Lemma zset_is_Some {A} (l : list A) i x : is_Some (zset l i x) <-> 0 <= i < zlen l.
Proof.
  split.
  - intros [l' H]. apply zset_Some in H. tauto.
  - intros. eexists. apply zset_Some. done.
Qed.

Lemma zset_length {A} (l l' : list A) i x : zset l i x = Some l' -> length l' = length l.
Proof. intros [_ ->]%zset_Some. apply length_insert. Qed.

Lemma zset_zlen {A} (l l' : list A) i x : zset l i x = Some l' -> zlen l' = zlen l.
Proof. intros H. unfold zlen. by rewrite (zset_length _ _ _ _ H). Qed.

Lemma zset_get_eq {A} (l l' : list A) i x : zset l i x = Some l' -> zget l' i = Some x.
Proof.
  intros [H ->]%zset_Some. unfold zlen in H. apply zget_Some. split; [lia|].
  apply list_lookup_insert_eq. lia.
Qed.

Lemma zset_get_ne {A} (l l' : list A) i j x :
  zset l i x = Some l' -> i <> j -> zget l' j = zget l j.
Proof.
  intros [H ->]%zset_Some Hne. unfold zget. destruct (Z.ltb_spec j 0); [done|].
  apply list_lookup_insert_ne. lia.
Qed.

Lemma zlen_app {A} (l k : list A) : zlen (l ++ k) = zlen l + zlen k.
Proof. unfold zlen. rewrite length_app. lia. Qed.

Lemma zlen_cons {A} (x : A) l : zlen (x :: l) = zlen l + 1.
Proof. unfold zlen. simpl. lia. Qed.

Lemma zlen_nil {A} : zlen (@nil A) = 0.
Proof. done. Qed.

Lemma zlen_nonneg {A} (l : list A) : 0 <= zlen l.
Proof. unfold zlen. lia. Qed.

#[export] Hint Rewrite @zlen_app @zlen_cons @zlen_nil : zlen.

(** ** Tactics *)

(** Split every [match]/[if] the goal is stuck on, closing the trivial cases. *)
Ltac cases_goal :=
  repeat (match goal with
          | |- context [match ?x with _ => _ end] => destruct x eqn:?; simpl in *
          | |- context [if ?x then _ else _] => destruct x eqn:?; simpl in *
          end; try done).

(** The same in a hypothesis. *)
Ltac cases_in H :=
  repeat (match type of H with
          | context [match ?x with _ => _ end] => destruct x eqn:?; simpl in H
          end; try done).

(** Turn boolean integer tests into propositions. *)
Ltac zbool :=
  repeat match goal with
         | H : (_ =? _) = true |- _ => apply Z.eqb_eq in H
         | H : (_ =? _) = false |- _ => apply Z.eqb_neq in H
         | H : (_ <? _) = true |- _ => apply Z.ltb_lt in H
         | H : (_ <? _) = false |- _ => apply Z.ltb_ge in H
         | H : (_ <=? _) = true |- _ => apply Z.leb_le in H
         | H : (_ <=? _) = false |- _ => apply Z.leb_gt in H
         | H : (_ >? _) = true |- _ => rewrite Z.gtb_lt in H
         | H : (_ >? _) = false |- _ => rewrite Z.gtb_ltb in H; apply Z.ltb_ge in H
         | H : (_ >=? _) = true |- _ => rewrite Z.geb_leb in H; apply Z.leb_le in H
         | H : (_ >=? _) = false |- _ => rewrite Z.geb_leb in H; apply Z.leb_gt in H
         | H : _ && _ = true |- _ => apply andb_prop in H; destruct H
         | H : _ || _ = false |- _ => apply orb_false_elim in H; destruct H
         | H : negb _ = true |- _ => apply negb_true_iff in H
         | H : negb _ = false |- _ => apply negb_false_iff in H
         end.
