(* ===== verification/IntMath.v ===== *)
(** * IntMath: the integer algorithms of the numeric kinds

    The inline helpers of
    [src/smiletypes/numeric/smileinteger64_base.generated.c], the copy of
    smileinteger_base.template for 64 bits.  The template's number of bits is
    the variable [numbits]: the theorems cover the 64-bit and the 32-bit copy.
    (The narrower copies compute in [int] after C's promotions and are not
    modelled.)  [Int_ z] and [UInt_ z] are the C conversions to the signed and
    the unsigned type of that width; overflow of signed arithmetic wraps, as it
    does on the supported compilers. *)

From S2P Require Import Prelude.

Section Template.
Context (numbits : Z).

Definition Int_ (z : Z) : Z := wrapS numbits z.
Definition UInt_ (z : Z) : Z := wrapU numbits z.
Definition IntMax : Z := 2 ^ (numbits - 1) - 1.
Definition IntMin : Z := - 2 ^ (numbits - 1).

(** ** Division

    The callers have tested the divisor. *)

Definition CDiv (dividend divisor : Z) : Z :=
  if dividend <? 0 then
    if divisor <? 0 then Int_ (UInt_ (Int_ (- dividend)) / UInt_ (Int_ (- divisor)))
    else Int_ (- Int_ (UInt_ (Int_ (- dividend)) / UInt_ divisor))
  else if divisor <? 0 then Int_ (- Int_ (UInt_ dividend / UInt_ (Int_ (- divisor))))
  else Int_ (UInt_ dividend / UInt_ divisor).

Definition MathematiciansDiv (dividend divisor : Z) : Z :=
  if dividend <? 0 then
    if divisor <? 0 then Int_ (UInt_ (Int_ (- dividend)) / UInt_ (Int_ (- divisor)))
    else
      let positiveQuotient := UInt_ (Int_ (- dividend)) / UInt_ divisor in
      let positiveRemainder := UInt_ (Int_ (- dividend)) mod UInt_ divisor in
      if positiveRemainder =? 0 then Int_ (- Int_ positiveQuotient)
      else Int_ (Int_ (- Int_ positiveQuotient) - 1)
  else if divisor <? 0 then
    let positiveQuotient := UInt_ dividend / UInt_ (Int_ (- divisor)) in
    let positiveRemainder := UInt_ dividend mod UInt_ (Int_ (- divisor)) in
    if positiveRemainder =? 0 then Int_ (- Int_ positiveQuotient)
    else Int_ (Int_ (- Int_ positiveQuotient) - 1)
  else Int_ (Z.quot dividend divisor).

(** The signed [%] is [Z.rem]. *)
Definition MathematiciansModulus (x y : Z) : Z :=
  if x <? 0 then
    if y <? 0 then Int_ (- Z.rem (Int_ (- x)) (Int_ (- y)))
    else
      let rem := Z.rem (Int_ (- x)) y in
      if negb (rem =? 0) then Int_ (y - rem) else 0
  else if y <? 0 then
    let rem := Z.rem x (Int_ (- y)) in
    if negb (rem =? 0) then Int_ (y + rem) else 0
  else Z.rem x y.

Definition MathematiciansRemainder (x y : Z) : Z :=
  if x <? 0 then
    if y <? 0 then
      let rem := Z.rem (Int_ (- x)) (Int_ (- y)) in
      if negb (rem =? 0) then Int_ (rem + y) else 0
    else Int_ (- Z.rem (Int_ (- x)) y)
  else if y <? 0 then Z.rem x (Int_ (- y))
  else
    let rem := Z.rem x y in
    if negb (rem =? 0) then Int_ (rem - y) else 0.

(** ** Powers and roots *)

(** The [while] loop; [None] when the fuel runs out before the exponent. *)
Fixpoint IntPower_loop (fuel : nat) (value exponent result : Z) : option Z :=
  if exponent >? 0 then
    match fuel with
    | O => None
    | S fuel =>
        let result := if negb (Z.land exponent 1 =? 0) then Int_ (result * value) else result in
        let exponent := Z.shiftr exponent 1 in
        let value := Int_ (value * value) in
        IntPower_loop fuel value exponent result
    end
  else Some result.

Definition IntPower (value exponent : Z) : option Z :=
  if exponent <? 0 then Some 0
  else IntPower_loop (Z.to_nat numbits) value exponent 1.

(** The [do] loop. *)
Fixpoint IntSqrt_loop (fuel : nat) (value root bit : Z) : option Z :=
  match fuel with
  | O => None
  | S fuel =>
      let trial := UInt_ (root + bit) in
      let '(value, root) :=
        if value >=? trial then (UInt_ (value - trial), UInt_ (trial + bit)) else (value, root) in
      let root := Z.shiftr root 1 in
      let bit := Z.shiftr bit 2 in
      if negb (bit =? 0) then IntSqrt_loop fuel value root bit else Some root
  end.

Definition IntSqrt (value : Z) : option Z :=
  let bit :=
    if numbits =? 64 then
      if value >=? 0x100000000 then Z.shiftl 1 62
      else if value >=? 0x10000 then Z.shiftl 1 30
      else Z.shiftl 1 14
    else if value >=? 0x10000 then Z.shiftl 1 30 else Z.shiftl 1 14 in
  IntSqrt_loop (Z.to_nat numbits) value 0 bit.

(** The body of [NextPow2] after the two tests: smear the bits of [uvalue - 1]. *)
Definition smear (uvalue k : Z) : Z := Z.lor uvalue (Z.shiftr uvalue k).

Definition RoundUpPow2 (uvalue : Z) : Z :=
  let uvalue := UInt_ (uvalue - 1) in
  let uvalue := smear uvalue 1 in
  let uvalue := smear uvalue 2 in
  let uvalue := smear uvalue 4 in
  let uvalue := if numbits >=? 16 then smear uvalue 8 else uvalue in
  let uvalue := if numbits >=? 32 then smear uvalue 16 else uvalue in
  let uvalue := if numbits >=? 64 then smear uvalue 32 else uvalue in
  UInt_ (uvalue + 1).

(** One comparison of [IntLg]: the pair is [uvalue] and [log]. *)
Definition lg_step (mask k : Z) (p : Z * Z) : Z * Z :=
  let '(uvalue, log) := p in
  if negb (Z.land uvalue mask =? 0) then (Z.shiftr uvalue k, UInt_ (log + k)) else p.

Definition Lg (uvalue : Z) : Z :=
  let p := (uvalue, 0) in
  let p := if numbits >=? 64 then lg_step 0xFFFFFFFF00000000 32 p else p in
  let p := if numbits >=? 32 then lg_step 0x00000000FFFF0000 16 p else p in
  let p := if numbits >=? 16 then lg_step 0x000000000000FF00 8 p else p in
  let p := lg_step 0x00000000000000F0 4 p in
  let p := lg_step 0x000000000000000C 2 p in
  let p := lg_step 0x0000000000000002 1 p in
  snd p.

(** ** Bit twiddling *)

Definition count_step (k mask value : Z) : Z :=
  UInt_ (Z.land (Z.shiftr value k) mask + Z.land value mask).

Definition CountBitsSet (value : Z) : Z :=
  if numbits =? 64 then
    let value := count_step 1 0x5555555555555555 value in
    let value := count_step 2 0x3333333333333333 value in
    let value := count_step 4 0x0F0F0F0F0F0F0F0F value in
    let value := count_step 8 0x00FF00FF00FF00FF value in
    let value := count_step 16 0x0000FFFF0000FFFF value in
    count_step 32 0x00000000FFFFFFFF value
  else
    let value := count_step 1 0x55555555 value in
    let value := count_step 2 0x33333333 value in
    let value := count_step 4 0x0F0F0F0F value in
    let value := count_step 8 0x00FF00FF value in
    count_step 16 0x0000FFFF value.

Definition reverse_step (k mask value : Z) : Z :=
  Z.lor (Z.land (Z.shiftr value k) mask) (UInt_ (Z.shiftl (Z.land value mask) k)).

(** The last step swaps the halves. *)
Definition reverse_halves (k value : Z) : Z := Z.lor (Z.shiftr value k) (UInt_ (Z.shiftl value k)).

Definition ComputeReverseBits (value : Z) : Z :=
  if numbits =? 64 then
    let value := reverse_step 1 0x5555555555555555 value in
    let value := reverse_step 2 0x3333333333333333 value in
    let value := reverse_step 4 0x0F0F0F0F0F0F0F0F value in
    let value := reverse_step 8 0x00FF00FF00FF00FF value in
    let value := reverse_step 16 0x0000FFFF0000FFFF value in
    reverse_halves 32 value
  else
    let value := reverse_step 1 0x55555555 value in
    let value := reverse_step 2 0x33333333 value in
    let value := reverse_step 4 0x0F0F0F0F value in
    let value := reverse_step 8 0x00FF00FF value in
    reverse_halves 16 value.

Definition zeros_step (mask k value c : Z) : Z :=
  if negb (Z.land value mask =? 0) then UInt_ (c - k) else c.

(** [~value] of the unsigned type. *)
Definition UNot (value : Z) : Z := UInt_ (Z.lnot value).

Definition ComputeCountOfRightZeros (value : Z) : Z :=
  let c := numbits in
  let value := Z.land value (UInt_ (UNot value + 1)) in
  let c := if negb (value =? 0) then UInt_ (c - 1) else c in
  if numbits =? 64 then
    let c := zeros_step 0x00000000FFFFFFFF 32 value c in
    let c := zeros_step 0x0000FFFF0000FFFF 16 value c in
    let c := zeros_step 0x00FF00FF00FF00FF 8 value c in
    let c := zeros_step 0x0F0F0F0F0F0F0F0F 4 value c in
    let c := zeros_step 0x3333333333333333 2 value c in
    zeros_step 0x5555555555555555 1 value c
  else
    let c := zeros_step 0x0000FFFF 16 value c in
    let c := zeros_step 0x00FF00FF 8 value c in
    let c := zeros_step 0x0F0F0F0F 4 value c in
    let c := zeros_step 0x33333333 2 value c in
    zeros_step 0x55555555 1 value c.

(** The body of [Parity]. *)
Definition fold_parity (k value : Z) : Z := Z.lxor value (Z.shiftr value k).

Definition ParityOf (value : Z) : Z :=
  let value := if numbits >=? 64 then fold_parity 32 value else value in
  let value := if numbits >=? 32 then fold_parity 16 value else value in
  let value := if numbits >=? 16 then fold_parity 8 value else value in
  let value := if numbits >=? 8 then fold_parity 4 value else value in
  let value := Z.land value 0xF in
  Z.land (Z.shiftr 0x6996 value) 1.

(** The body of [ReverseBytes]. *)
Definition move_right (value k mask : Z) : Z := Z.land (Z.shiftr value k) mask.
Definition move_left (value k mask : Z) : Z := Z.land (UInt_ (Z.shiftl value k)) mask.

Definition SwapBytes (value : Z) : Z :=
  if numbits =? 64 then
    Z.lor (Z.lor (Z.lor (Z.lor (Z.lor (Z.lor (Z.lor
      (move_right value 56 0x00000000000000FF)
      (move_right value 40 0x000000000000FF00))
      (move_right value 24 0x0000000000FF0000))
      (move_right value 8 0x00000000FF000000))
      (move_left value 8 0x000000FF00000000))
      (move_left value 24 0x0000FF0000000000))
      (move_left value 40 0x00FF000000000000))
      (move_left value 56 0xFF00000000000000)
  else
    Z.lor (Z.lor (Z.lor
      (move_right value 24 0x000000FF)
      (move_right value 8 0x0000FF00))
      (move_left value 8 0x00FF0000))
      (move_left value 24 0xFF000000).

(** ** Greatest common divisor *)

(** The three loops; each consumes fuel of its own. *)
Fixpoint Gcd_common (fuel : nat) (a b shift : Z) : option (Z * Z * Z) :=
  if Z.land (Z.lor a b) 1 =? 0 then
    match fuel with
    | O => None
    | S fuel => Gcd_common fuel (Z.shiftr a 1) (Z.shiftr b 1) (shift + 1)
    end
  else Some (a, b, shift).

Fixpoint Gcd_odd (fuel : nat) (a : Z) : option Z :=
  if Z.land a 1 =? 0 then
    match fuel with O => None | S fuel => Gcd_odd fuel (Z.shiftr a 1) end
  else Some a.

Fixpoint Gcd_loop (fuel : nat) (a b : Z) : option Z :=
  match fuel with
  | O => None
  | S fuel =>
      b ← Gcd_odd (Z.to_nat numbits) b;
      let '(a, b) := if a >? b then (b, a) else (a, b) in
      let b := UInt_ (b - a) in
      if negb (b =? 0) then Gcd_loop fuel a b else Some a
  end.

Definition CalculateBinaryGcd (a b : Z) : option Z :=
  '(a, b, shift) ← Gcd_common (Z.to_nat numbits) a b 0;
  a ← Gcd_odd (Z.to_nat numbits) a;
  a ← Gcd_loop (Z.to_nat (2 * numbits)) a b;
  Some (UInt_ (Z.shiftl a shift)).

End Template.
