(* ===== verification/IntMathProps.v ===== *)
(** * IntMathProps: the integer algorithms are correct

    Theorems on [IntMath]: division, powers and square roots against their
    mathematical definitions, with the boundary cases of the width; the
    bit-twiddling routines against bit-level specifications; the binary
    greatest common divisor, with termination. *)

From S2P Require Import Prelude IntMath.

#[local] Lemma land_1 (a : Z) : Z.land a 1 = a mod 2.
Proof. apply (Z.land_ones a 1). lia. Qed.

#[local] Lemma shiftr_1 (a : Z) : Z.shiftr a 1 = a / 2.
Proof. by rewrite Z.shiftr_div_pow2. Qed.

Section Division.
Context (w : Z) (Hw : 0 < w).

#[local] Lemma UInt_neg (x : Z) : inS w x -> x < 0 -> UInt_ w (Int_ w (- x)) = - x.
Proof.
  intros [Hx _] Hneg. unfold UInt_, Int_. rewrite wrapU_wrapS by done. apply wrapU_id.
  unfold inU. rewrite (pow2_double w) by done. pose proof (pow2_pos (w - 1)). lia.
Qed.

#[local] Lemma UInt_pos (x : Z) : inS w x -> 0 <= x -> UInt_ w x = x.
Proof.
  intros [_ Hx] Hpos. apply wrapU_id. unfold inU. rewrite (pow2_double w) by done. lia.
Qed.

(** A quotient and its remainder, negated the way the code does it. *)
#[local] Lemma neg_div (a b : Z) :
  0 < b ->
  (if a mod b =? 0 then Int_ w (- Int_ w (a / b)) else Int_ w (Int_ w (- Int_ w (a / b)) - 1))
  = wrapS w (- a / b).
Proof.
  intros Hb. unfold Int_. destruct (Z.eqb_spec (a mod b) 0) as [E|E].
  - rewrite wrapS_opp by done. f_equal. by rewrite Z.div_opp_l_z by lia.
  - rewrite wrapS_opp, <- Z.add_opp_r, wrapS_add_l by done. f_equal.
    rewrite Z.div_opp_l_nz by lia. lia.
Qed.

(** Division rounds towards negative infinity for all operands; the only
    quotient that does not fit, the smallest integer by -1, wraps. *)
Theorem MathematiciansDiv_floors (x y : Z) :
  inS w x -> inS w y -> y <> 0 -> MathematiciansDiv w x y = wrapS w (x / y).
Proof.
  intros Hx Hy Hy0. unfold MathematiciansDiv.
  destruct (Z.ltb_spec x 0), (Z.ltb_spec y 0).
  - rewrite !UInt_neg by done. by rewrite Z.div_opp_opp.
  - rewrite UInt_neg, UInt_pos, neg_div by (done || lia). by rewrite Z.opp_involutive.
  - rewrite UInt_neg, UInt_pos, neg_div by (done || lia).
    by rewrite Z.div_opp_opp by lia.
  - by rewrite Z.quot_div_nonneg by lia.
Qed.

(** [CDiv] rounds towards zero, as C's own division does. *)
Theorem CDiv_truncates (x y : Z) :
  inS w x -> inS w y -> y <> 0 -> CDiv w x y = wrapS w (Z.quot x y).
Proof.
  intros Hx Hy Hy0. unfold CDiv.
  destruct (Z.ltb_spec x 0), (Z.ltb_spec y 0).
  - rewrite !UInt_neg by done. rewrite <- Z.quot_opp_opp, Z.quot_div_nonneg by lia. done.
  - rewrite UInt_neg, UInt_pos by (done || lia). unfold Int_. rewrite wrapS_opp by done.
    rewrite <- Z.quot_div_nonneg, Z.quot_opp_l, Z.opp_involutive by lia. done.
  - rewrite UInt_neg, UInt_pos by (done || lia). unfold Int_. rewrite wrapS_opp by done.
    rewrite <- Z.quot_div_nonneg, Z.quot_opp_r, Z.opp_involutive by lia. done.
  - rewrite !UInt_pos by (done || lia). by rewrite Z.quot_div_nonneg by lia.
Qed.

#[local] Lemma Int_opp (x : Z) : inS w x -> x <> IntMin w -> Int_ w (- x) = - x.
Proof. unfold IntMin, inS, Int_. intros. apply wrapS_id; [done|]. unfold inS. lia. Qed.

#[local] Lemma Int_IntMin : Int_ w (- IntMin w) = IntMin w.
Proof.
  unfold Int_, IntMin, wrapS. rewrite Z.opp_involutive, Z.add_diag, <- pow2_double by done.
  rewrite Z.mod_same; [lia|]. pose proof (pow2_pos w). lia.
Qed.

#[local] Lemma IntMin_range : inS w (IntMin w).
Proof. unfold inS, IntMin. pose proof (pow2_pos (w - 1)). lia. Qed.

(** A remainder kept or moved by the divisor stays in range. *)
#[local] Lemma Int_between (a b : Z) : inS w a -> inS w b -> forall z, a <= z <= b -> Int_ w z = z.
Proof. unfold inS. intros ? ? z ?. apply wrapS_id; [done|]. unfold inS. lia. Qed.

#[local] Lemma zero_range : inS w 0.
Proof. unfold inS. pose proof (pow2_pos (w - 1)). lia. Qed.

(** The signed [%] does not see the sign of the divisor, so neither its
    overflowing negation. *)
#[local] Lemma rem_Int_opp (x y : Z) : inS w y -> Z.rem x (Int_ w (- y)) = Z.rem x y.
Proof.
  intros Hy. destruct (decide (y = IntMin w)) as [->|]; [by rewrite Int_IntMin|].
  rewrite Int_opp by done. apply Z.rem_opp_r'.
Qed.

#[local] Lemma rem_IntMin (y : Z) : y <> 0 -> Z.rem (IntMin w) y = - (2 ^ (w - 1) mod Z.abs y).
Proof.
  intros Hy. unfold IntMin. pose proof (pow2_pos (w - 1)). rewrite Z.rem_opp_l by done.
  f_equal. destruct (Z.abs_spec y) as [[? ->]|[? ->]].
  - apply Z.rem_mod_nonneg; lia.
  - rewrite <- Z.rem_opp_r by done. apply Z.rem_mod_nonneg; lia.
Qed.

#[local] Lemma Int_small (y z : Z) : inS w y -> Z.abs z < Z.abs y -> Int_ w z = z.
Proof. unfold inS. intros. apply wrapS_id; [done|]. unfold inS. lia. Qed.

#[local] Lemma rem_sign (x y : Z) : y <> 0 -> Z.rem x y = 0 \/ (0 <= Z.rem x y <-> 0 <= x).
Proof.
  intros Hy. destruct (Z.eq_dec (Z.rem x y) 0) as [|Hr]; [by left|right].
  pose proof (Z.rem_sign_nz x y Hy Hr). split; intros; destruct x, (Z.rem _ y); done.
Qed.

(** The modulus of nonzero operands of any sign, from the modulus of absolute values. *)
#[local] Lemma mod_rem (x y : Z) :
  y <> 0 -> x mod y = if (Z.rem x y =? 0) || Bool.eqb (x <? 0) (y <? 0) then Z.rem x y
                      else Z.rem x y + y.
Proof.
  intros Hy.
  pose proof (Z.rem_bound_abs x y Hy) as Ha.
  pose proof (rem_sign x y Hy) as Hs.
  symmetry. destruct (Z.eqb_spec (Z.rem x y) 0) as [E|E]; simpl.
  - rewrite E. symmetry. by apply Z.rem_mod_eq_0 in E.
  - pose proof (Z.quot_rem x y Hy) as Hq.
    destruct (Z.ltb_spec x 0), (Z.ltb_spec y 0); simpl.
    + apply Z.mod_unique with (Z.quot x y); lia.
    + apply Z.mod_unique with (Z.quot x y - 1); lia.
    + apply Z.mod_unique with (Z.quot x y - 1); lia.
    + apply Z.mod_unique with (Z.quot x y); lia.
Qed.

(** [MathematiciansModulus] is the modulus with the sign of the divisor for
    every dividend but the smallest integer, whose negation overflows: there
    the result has the wrong sign or the wrong residue. *)
Theorem MathematiciansModulus_exact (x y : Z) :
  inS w x -> inS w y -> y <> 0 ->
  MathematiciansModulus w x y =
    if x =? IntMin w then
      let r := 2 ^ (w - 1) mod Z.abs y in
      if y <? 0 then r else if r =? 0 then 0 else Int_ w (y + r)
    else x mod y.
Proof.
  intros Hx Hy Hy0. unfold MathematiciansModulus. rewrite !rem_Int_opp by done.
  pose proof (pow2_pos (w - 1)) as Hp.
  destruct (Z.eqb_spec x (IntMin w)) as [->|Hx0].
  - rewrite Int_IntMin, rem_IntMin by done.
    pose proof (Z.mod_pos_bound (2 ^ (w - 1)) (Z.abs y) ltac:(lia)).
    destruct (Z.ltb_spec (IntMin w) 0); [|unfold IntMin in *; lia].
    destruct (Z.ltb_spec y 0).
    + rewrite Z.opp_involutive. apply (Int_small y); [done|]. lia.
    + rewrite Z.sub_opp_r. destruct (Z.eqb_spec (2 ^ (w - 1) mod Z.abs y) 0) as [->|]; [done|].
      destruct (Z.eqb_spec (- (2 ^ (w - 1) mod Z.abs y)) 0); [lia|done].
  - pose proof (Z.rem_bound_abs x y Hy0). rewrite mod_rem by done.
    rewrite (Int_opp x), !Z.rem_opp_l by done.
    pose proof (rem_sign x y Hy0) as Hs.
    destruct (Z.ltb_spec x 0), (Z.ltb_spec y 0); simpl; rewrite ?orb_true_r, ?orb_false_r.
    + rewrite Z.opp_involutive. by apply (Int_small y).
    + destruct (Z.eqb_spec (Z.rem x y) 0) as [E|E]; [rewrite E|].
      * done.
      * destruct (Z.eqb_spec (- Z.rem x y) 0); [lia|]. simpl.
        rewrite Z.sub_opp_r, Z.add_comm. apply (Int_small y); [done|lia].
    + destruct (Z.eqb_spec (Z.rem x y) 0) as [E|E]; [done|]. simpl.
      rewrite Z.add_comm. apply (Int_small y); [done|lia].
    + done.
Qed.

(** [MathematiciansRemainder] is documented to have the sign of the
    dividend.  It does when the operands differ in sign or divide; when they
    have the same sign it subtracts the divisor from the remainder of the
    absolute values, which for positive operands is negative. *)
Theorem MathematiciansRemainder_exact (x y : Z) :
  inS w x -> inS w y -> y <> 0 -> x <> IntMin w ->
  MathematiciansRemainder w x y =
    if xorb (x <? 0) (y <? 0) || (Z.rem x y =? 0) then Z.rem x y
    else Z.abs x mod Z.abs y - Z.abs y.
Proof.
  intros Hx Hy Hy0 Hm. unfold MathematiciansRemainder. rewrite !rem_Int_opp by done.
  rewrite (Int_opp x), !Z.rem_opp_l by done.
  pose proof (Z.rem_bound_abs x y Hy0). pose proof (rem_sign x y Hy0) as Hs.
  destruct (Z.ltb_spec x 0), (Z.ltb_spec y 0); simpl.
  - destruct (Z.eqb_spec (Z.rem x y) 0) as [E|E]; [by rewrite E|].
    destruct (Z.eqb_spec (- Z.rem x y) 0); [lia|]. simpl.
    rewrite (Z.abs_neq x), (Z.abs_neq y), <- Z.rem_mod_nonneg by lia.
    rewrite Z.rem_opp_opp, Z.sub_opp_r by done. apply (Int_small y); [done|lia].
  - rewrite Z.opp_involutive. by apply (Int_small y).
  - done.
  - destruct (Z.eqb_spec (Z.rem x y) 0) as [E|E]; [done|]. simpl.
    rewrite (Z.abs_eq x), (Z.abs_eq y), <- Z.rem_mod_nonneg by lia.
    apply (Int_small y); [done|lia].
Qed.

(** ** Powers *)

#[local] Lemma wrapS_pow_mul (r v e : Z) :
  0 <= e -> wrapS w (r * wrapS w v ^ e) = wrapS w (r * v ^ e).
Proof.
  intros. apply wrapS_mod; [lia|]. pose proof (wrapU_wrapS w v Hw) as E. unfold wrapU in E.
  rewrite (Z.mul_mod r), (Z.mul_mod r (v ^ e)) by (pose proof (pow2_pos w); lia). f_equal. f_equal.
  by rewrite <- Z.mod_pow_l, E, Z.mod_pow_l.
Qed.

#[local] Lemma IntPower_loop_spec (fuel : nat) (v e r : Z) :
  0 <= e < 2 ^ Z.of_nat fuel -> inS w r ->
  IntPower_loop w fuel v e r = Some (wrapS w (r * v ^ e)).
Proof.
  revert v e r. induction fuel as [|fuel IH]; intros v e r He Hr; simpl; rewrite Z.gtb_ltb.
  - destruct (Z.ltb_spec 0 e); [simpl in He; lia|]. replace e with 0 by lia.
    rewrite Z.mul_1_r. by rewrite wrapS_id.
  - rewrite Nat2Z.inj_succ, Z.pow_succ_r in He by lia.
    destruct (Z.ltb_spec 0 e); [|replace e with 0 by lia; by rewrite Z.mul_1_r, wrapS_id].
    pose proof (Z.div_mod e 2 ltac:(lia)) as Hd. pose proof (Z.mod_pos_bound e 2 ltac:(lia)).
    rewrite land_1, shiftr_1, IH; [|lia|].
    + f_equal. rewrite wrapS_pow_mul by lia.
      assert (Hv : v ^ e = v ^ (2 * (e / 2)) * v ^ (e mod 2))
        by (rewrite <- Z.pow_add_r by lia; f_equal; lia).
      rewrite Hv, <- Z.pow_2_r, <- Z.pow_mul_r by lia.
      destruct (Z.eqb_spec (e mod 2) 0) as [->|E]; simpl; [f_equal; lia|].
      replace (e mod 2) with 1 by lia. unfold Int_. rewrite wrapS_mul_l by done. f_equal. lia.
    + destruct (negb _); [apply wrapS_range; lia|done].
Qed.

(** [IntPower] returns, for every exponent of the type, and yields the power
    modulo the width; negative exponents give 0. *)
Theorem IntPower_spec (value exponent : Z) :
  1 < w -> inS w exponent ->
  IntPower w value exponent
  = Some (if exponent <? 0 then 0 else wrapS w (value ^ exponent)).
Proof.
  intros H1 He. unfold IntPower. destruct (Z.ltb_spec exponent 0); [done|].
  rewrite IntPower_loop_spec, Z.mul_1_l; [done| |].
  - rewrite Z2Nat.id by lia. unfold inS in He. rewrite pow2_double by lia. lia.
  - unfold inS. pose proof (Z.pow_gt_1 2 (w - 1)). lia.
Qed.

End Division.

(** ** Square roots *)
Section Sqrt.
Context (w h : Z) (Hh : 0 < h) (Hwh : w = 2 * h).

(** One round of the loop when the root found so far is [r] and the bits from
    [k] down are still to be tried: [p] is [2 ^ k]. *)
#[local] Lemma sqrt_round (n r p : Z) :
  0 <= r -> 0 < p -> r * r <= n < (r + 2 * p) * (r + 2 * p) -> r + 2 * p <= 2 ^ h ->
  let r' := if n - r * r >=? 2 * r * p + p * p then r + p else r in
  UInt_ w (2 * r * p + p * p) = 2 * r * p + p * p
  /\ UInt_ w (2 * r * p + p * p + p * p) = 2 * (r + p) * p
  /\ 0 <= r' /\ r' * r' <= n < (r' + p) * (r' + p) /\ r' + p <= 2 ^ h /\ n < 2 ^ w.
Proof.
  intros Hr Hp Hn Hb r'.
  assert (Hpow : 2 ^ w = 2 ^ h * 2 ^ h) by (rewrite <- Z.pow_add_r by lia; f_equal; lia).
  assert (2 * (r + p) * p < 2 ^ w) by nia. assert (n < 2 ^ w) by nia.
  assert (0 <= r * p) by nia.
  unfold UInt_. rewrite !wrapU_id by (unfold inU; nia).
  split; [done|]. split; [ring|].
  subst r'. rewrite Z.geb_leb. destruct (Z.leb_spec (2 * r * p + p * p) (n - r * r)); nia.
Qed.

#[local] Lemma IntSqrt_loop_spec (k fuel : nat) (n r : Z) :
  (k < fuel)%nat -> 0 <= r ->
  r * r <= n < (r + 2 * 2 ^ Z.of_nat k) * (r + 2 * 2 ^ Z.of_nat k) ->
  r + 2 * 2 ^ Z.of_nat k <= 2 ^ h ->
  IntSqrt_loop w fuel (n - r * r) (2 * r * 2 ^ Z.of_nat k) (2 ^ Z.of_nat k * 2 ^ Z.of_nat k)
  = Some (Z.sqrt n).
Proof.
  revert fuel r. induction k as [|k IH]; intros [|fuel] r Hf Hr Hn Hb; try lia.
  - destruct (sqrt_round n r 1 Hr ltac:(lia) Hn Hb) as (E1 & E2 & Hr' & Hn' & Hb' & Hw').
    change (2 ^ Z.of_nat 0) with 1. cbn [IntSqrt_loop]. rewrite E1, E2. rewrite Z.geb_leb in *.
    destruct (Z.leb_spec (2 * r * 1 + 1 * 1) (n - r * r)); simpl; f_equal; rewrite shiftr_1.
    + rewrite Z.mul_1_r, Z.mul_comm, Z.div_mul by lia. symmetry. apply Z.sqrt_unique. lia.
    + rewrite Z.mul_1_r, Z.mul_comm, Z.div_mul by lia. symmetry. apply Z.sqrt_unique. lia.
  - set (p := 2 ^ Z.of_nat k) in *.
    assert (Hp : 0 < p) by (apply pow2_pos; lia).
    replace (2 ^ Z.of_nat (S k)) with (2 * p) in *
      by (unfold p; rewrite Nat2Z.inj_succ, Z.pow_succ_r by lia; done).
    destruct (sqrt_round n r (2 * p) Hr ltac:(lia) Hn Hb) as (E1 & E2 & Hr' & Hn' & Hb' & Hw').
    cbn [IntSqrt_loop]. rewrite E1, E2. rewrite Z.geb_leb in *.
    assert (Hbit : Z.shiftr (2 * p * (2 * p)) 2 = p * p).
    { rewrite Z.shiftr_div_pow2 by lia. replace (2 * p * (2 * p)) with (p * p * 2 ^ 2) by lia.
      by rewrite Z.div_mul. }
    assert (Hpp : negb (p * p =? 0) = true) by (apply negb_true_iff, Z.eqb_neq; nia).
    destruct (Z.leb_spec (2 * r * (2 * p) + 2 * p * (2 * p)) (n - r * r)) as [Hle|Hle];
      cbv beta iota zeta; rewrite Hbit, Hpp.
    + specialize (IH fuel (r + 2 * p) ltac:(lia) ltac:(lia) ltac:(lia) ltac:(lia)).
      rewrite <- IH. f_equal.
      * unfold UInt_. rewrite wrapU_id; [nia|]. unfold inU. nia.
      * rewrite shiftr_1. replace (2 * (r + 2 * p) * (2 * p)) with (2 * (r + 2 * p) * p * 2) by lia.
        by rewrite Z.div_mul.
    + specialize (IH fuel r ltac:(lia) ltac:(lia) ltac:(lia) ltac:(lia)).
      rewrite <- IH. f_equal.
      rewrite shiftr_1. replace (2 * r * (2 * p)) with (2 * r * p * 2) by lia.
      by rewrite Z.div_mul.
Qed.

End Sqrt.

(** The loop from the start, for a value of at most [2 * (k + 1)] bits. *)
#[local] Lemma IntSqrt_from (w : Z) (k : nat) (n : Z) :
  w = 32 \/ w = 64 -> Z.of_nat k < w / 2 -> 0 <= n < 2 ^ (2 * (Z.of_nat k + 1)) ->
  IntSqrt_loop w (Z.to_nat w) n 0 (Z.shiftl 1 (2 * Z.of_nat k)) = Some (Z.sqrt n).
Proof.
  intros Hw Hk Hn. rewrite Z.shiftl_mul_pow2, Z.mul_1_l by lia.
  pose proof (IntSqrt_loop_spec w (w / 2) ltac:(destruct Hw as [-> | ->]; lia)
    ltac:(destruct Hw as [-> | ->]; done) k (Z.to_nat w) n 0) as H.
  rewrite Z.mul_0_r, Z.mul_0_l, Z.sub_0_r, Z.add_0_l, <- Z.pow_succ_r in H by lia.
  rewrite <- Z.pow_add_r in H by lia. rewrite <- Z.pow_add_r in H by lia.
  replace (Z.of_nat k + Z.of_nat k) with (2 * Z.of_nat k) in H by lia.
  apply H; [|lia| |].
  - assert (w / 2 < w) by (destruct Hw as [-> | ->]; done). lia.
  - replace (Z.succ (Z.of_nat k) + Z.succ (Z.of_nat k)) with (2 * (Z.of_nat k + 1)) by lia. lia.
  - apply Z.pow_le_mono_r; [lia|]. destruct Hw as [-> | ->]; lia.
Qed.

(** [IntSqrt] returns, for every non-negative value of the type, and yields
    the integer square root. *)
Theorem IntSqrt_spec (w value : Z) :
  w = 32 \/ w = 64 -> 0 <= value < 2 ^ w -> IntSqrt w value = Some (Z.sqrt value).
Proof.
  intros Hw Hv. unfold IntSqrt. rewrite !Z.geb_leb.
  destruct Hw as [-> | ->]; simpl (_ =? 64); cbv iota.
  - destruct (Z.leb_spec 0x10000 value).
    + apply (IntSqrt_from 32 15); [lia|done|simpl; lia].
    + apply (IntSqrt_from 32 7); [lia|done|simpl; lia].
  - destruct (Z.leb_spec 0x100000000 value); [|destruct (Z.leb_spec 0x10000 value)].
    + apply (IntSqrt_from 64 31); [lia|done|simpl; lia].
    + apply (IntSqrt_from 64 15); [lia|done|simpl; lia].
    + apply (IntSqrt_from 64 7); [lia|done|simpl; lia].
Qed.

(** ** Greatest common divisor *)

#[local] Lemma gcd_odd_double (a b : Z) : a mod 2 = 1 -> Z.gcd a (2 * b) = Z.gcd a b.
Proof.
  intros Ha. apply Z.gcd_unique.
  - apply Z.gcd_nonneg.
  - apply Z.gcd_divide_l.
  - apply Z.divide_mul_r, Z.gcd_divide_r.
  - intros q Hqa Hqb. apply Z.gcd_greatest; [done|]. apply (Z.gauss q 2); [done|].
    pose proof (Z.gcd_divide_l q 2) as Hl. pose proof (Z.gcd_divide_r q 2) as Hr.
    pose proof (Z.gcd_nonneg q 2). apply Z.divide_pos_le in Hr as Hle; [|lia].
    assert (Z.gcd q 2 <> 0) by (intros E; apply Z.gcd_eq_0 in E; lia).
    assert (Z.gcd q 2 <> 2); [|lia]. intros E. rewrite E in Hl.
    pose proof (Z.divide_trans _ _ _ Hl Hqa) as H2. apply Z.mod_divide in H2; lia.
Qed.

#[local] Lemma gcd_odd_pow (a b k : Z) : 0 <= k -> a mod 2 = 1 -> Z.gcd a (b * 2 ^ k) = Z.gcd a b.
Proof.
  intros Hk Ha. revert b. apply (natlike_ind (fun k => forall b, Z.gcd a (b * 2 ^ k) = Z.gcd a b));
    [| |done].
  - intros b. by rewrite Z.mul_1_r.
  - intros j Hj IH b. rewrite Z.pow_succ_r by done.
    replace (b * (2 * 2 ^ j)) with (2 * (b * 2 ^ j)) by lia. by rewrite gcd_odd_double.
Qed.

#[local] Lemma halve (a : Z) : a mod 2 = 0 -> a = 2 * (a / 2).
Proof. intros. rewrite (Z.div_mod a 2) at 1 by lia. lia. Qed.

(** The inner loop divides by a power of two and ends at the odd part. *)
#[local] Lemma Gcd_odd_spec (fuel : nat) (a : Z) :
  0 < a < 2 ^ Z.of_nat fuel ->
  exists a' k, Gcd_odd fuel a = Some a' /\ a = a' * 2 ^ k /\ a' mod 2 = 1 /\ 0 < a'
    /\ 0 <= k /\ (a mod 2 = 0 -> 2 * a' <= a) /\ (a mod 2 = 1 -> k = 0).
Proof.
  revert a. induction fuel as [|fuel IH]; intros a Ha; [simpl in Ha; lia|].
  rewrite Nat2Z.inj_succ, Z.pow_succ_r in Ha by lia.
  simpl. rewrite land_1, shiftr_1. pose proof (Z.mod_pos_bound a 2 ltac:(lia)).
  destruct (Z.eqb_spec (a mod 2) 0) as [E|E].
  - pose proof (halve a E).
    destruct (IH (a / 2) ltac:(lia)) as (a' & k & E1 & E2 & E3 & E4 & Hk & _ & _).
    exists a', (Z.succ k). rewrite Z.pow_succ_r by done. pose proof (pow2_pos k Hk).
    split; [done|]. split; [lia|]. split; [done|]. split; [done|]. split; [lia|].
    split; [|lia]. intros _. nia.
  - exists a, 0. rewrite Z.mul_1_r. split; [done|]. lia.
Qed.

#[local] Lemma Gcd_common_spec (fuel : nat) (a b s : Z) :
  0 < a < 2 ^ Z.of_nat fuel -> 0 < b ->
  exists a' b' k, Gcd_common fuel a b s = Some (a', b', s + k)
    /\ a = a' * 2 ^ k /\ b = b' * 2 ^ k /\ 0 < a' /\ 0 < b' /\ 0 <= k
    /\ (a' mod 2 = 1 \/ b' mod 2 = 1).
Proof.
  revert a b s. induction fuel as [|fuel IH]; intros a b s Ha Hb; [simpl in Ha; lia|].
  rewrite Nat2Z.inj_succ, Z.pow_succ_r in Ha by lia. simpl.
  pose proof (Z.mod_pos_bound a 2 ltac:(lia)). pose proof (Z.mod_pos_bound b 2 ltac:(lia)).
  destruct (Z.eqb_spec (Z.land (Z.lor a b) 1) 0) as [E|E];
    rewrite Z.land_lor_distr_l, !land_1 in E; rewrite ?shiftr_1.
  - apply Z.lor_eq_0_iff in E as [Ea Eb]. pose proof (halve a Ea). pose proof (halve b Eb).
    destruct (IH (a / 2) (b / 2) (s + 1) ltac:(lia) ltac:(lia))
      as (a' & b' & k & E1 & E2 & E3 & ? & ? & ? & Ho).
    exists a', b', (Z.succ k). rewrite Z.pow_succ_r by done.
    replace (s + Z.succ k) with (s + 1 + k) by lia. split; [done|]. lia.
  - exists a, b, 0. rewrite Z.add_0_r, !Z.mul_1_r. do 6 (split; [done || lia|]).
    destruct (Z.eq_dec (a mod 2) 1) as [|Ha1]; [by left|]. destruct (Z.eq_dec (b mod 2) 1); [by right|].
    replace (a mod 2) with 0 in E by lia. replace (b mod 2) with 0 in E by lia. done.
Qed.

(** Each round at least halves the product of an odd and an even number. *)
#[local] Lemma Gcd_loop_spec (w : Z) (fuel : nat) (a b : Z) :
  0 < w -> 0 < a < 2 ^ w -> 0 < b < 2 ^ w -> a mod 2 = 1 ->
  (if b mod 2 =? 0 then a * b else 2 * (a * b)) < 2 ^ Z.of_nat fuel ->
  Gcd_loop w fuel a b = Some (Z.gcd a b).
Proof.
  intros Hw. revert a b. induction fuel as [|fuel IH]; intros a b Ha Hb Hodd Hf.
  - simpl in Hf. destruct (_ =? _); nia.
  - rewrite Nat2Z.inj_succ, Z.pow_succ_r in Hf by lia. cbn [Gcd_loop].
    destruct (Gcd_odd_spec (Z.to_nat w) b) as (b' & k & E & Eb & Hb' & Hp & Hk & Heven & Hnot);
      [rewrite Z2Nat.id by lia; lia|].
    assert (Hle : b' <= b) by (pose proof (pow2_pos k Hk); nia).
    rewrite E. cbn [option_bind mbind]. rewrite Z.gtb_ltb.
    assert (Hg : Z.gcd a b = Z.gcd a b') by (rewrite Eb; by apply gcd_odd_pow).
    assert (Hprod : a * b' < 2 ^ Z.of_nat fuel).
    { pose proof (Z.mod_pos_bound b 2 ltac:(lia)).
      destruct (Z.eqb_spec (b mod 2) 0) as [E0|E0]; [pose proof (Heven E0)|]; nia. }
    rewrite Hg. clear Hf Heven Hnot Hg E Eb.
    enough (Hstep : forall m M, 0 < m <= M -> M < 2 ^ w -> m mod 2 = 1 -> M mod 2 = 1 ->
      m * M < 2 ^ Z.of_nat fuel ->
      (if negb (UInt_ w (M - m) =? 0) then Gcd_loop w fuel m (UInt_ w (M - m)) else Some m)
      = Some (Z.gcd m M)).
    { destruct (Z.ltb_spec b' a).
      - rewrite Z.gcd_comm. apply Hstep; try done; lia.
      - apply Hstep; try done; lia. }
    intros m M Hm HM Hmo HMo Hmul. unfold UInt_. rewrite wrapU_id by (unfold inU; lia).
    assert (Hsub : Z.gcd m (M - m) = Z.gcd m M).
    { replace (M - m) with (M + (-1) * m) by lia. apply Z.gcd_add_mult_diag_r. }
    destruct (Z.eqb_spec (M - m) 0) as [E0|E0]; simpl.
    + replace M with m by lia. rewrite Z.gcd_diag, Z.abs_eq by lia. done.
    + rewrite IH; [by rewrite Hsub|lia|lia|done|].
      assert ((M - m) mod 2 = 0) as -> by (rewrite Zminus_mod, HMo, Hmo; done). simpl. nia.
Qed.

(** The binary algorithm returns on all positive arguments, within as many
    rounds as there are bits, and yields the greatest common divisor. *)
Theorem CalculateBinaryGcd_spec (w a b : Z) :
  1 < w -> 0 < a <= IntMax w -> 0 < b <= IntMax w -> CalculateBinaryGcd w a b = Some (Z.gcd a b).
Proof.
  unfold IntMax. intros Hw Ha Hb. unfold CalculateBinaryGcd.
  pose proof (pow2_double w ltac:(lia)) as Hpow.
  destruct (Gcd_common_spec (Z.to_nat w) a b 0) as (a1 & b1 & s & -> & Ea & Eb & Ha1 & Hb1 & Hs & Ho);
    [rewrite Z2Nat.id by lia; lia|lia|].
  pose proof (pow2_pos s Hs) as Hps.
  assert (a1 <= a) by nia. assert (b1 <= b) by nia. cbn [option_bind mbind].
  destruct (Gcd_odd_spec (Z.to_nat w) a1) as (a2 & k & -> & Ea1 & Ho2 & Ha2 & Hk & _ & Hk0);
    [rewrite Z2Nat.id by lia; lia|].
  assert (a2 <= a1) by (pose proof (pow2_pos k Hk); nia).
  cbn [option_bind mbind]. rewrite Gcd_loop_spec; [|lia..|done|].
  - cbn [option_bind mbind]. f_equal.
    assert (Hg : Z.gcd a b = Z.gcd a2 b1 * 2 ^ s).
    { rewrite Ea, Eb at 1. rewrite Z.gcd_mul_mono_r_nonneg by lia. f_equal.
      destruct Ho as [Ho|Ho].
      - rewrite Hk0, Z.mul_1_r in Ea1 by done. by rewrite Ea1.
      - rewrite Ea1, Z.gcd_comm, gcd_odd_pow by done. apply Z.gcd_comm. }
    rewrite Z.add_0_l, Z.shiftl_mul_pow2, <- Hg by done. apply wrapU_id. unfold inU.
    split; [apply Z.gcd_nonneg|]. pose proof (Z.gcd_divide_l a b) as Hd.
    apply Z.divide_pos_le in Hd; lia.
  - rewrite Z2Nat.id by lia.
    assert (Hsq : 2 ^ (2 * w) = (2 * 2 ^ (w - 1)) * (2 * 2 ^ (w - 1))).
    { rewrite <- Hpow, <- Z.pow_add_r by lia. f_equal. lia. }
    destruct (_ =? _); nia.
Qed.

(** ** Witnesses *)

Lemma MathematiciansModulus_exact_witness : MathematiciansModulus 64 (-7) 3 = 2.
Proof. apply (MathematiciansModulus_exact 64 eq_refl (-7) 3); unfold inS; lia. Defined.

Lemma MathematiciansRemainder_exact_witness : MathematiciansRemainder 64 7 3 = -2.
Proof. apply (MathematiciansRemainder_exact 64 eq_refl 7 3); unfold inS, IntMin; lia. Defined.
