(* ===== verification/IntBits.v ===== *)
(** * IntBits: the bit-twiddling routines are correct

    Theorems on the word-parallel routines of [IntMath] against bit-by-bit
    specifications: population count, parity, bit and byte reversal, counts of
    zeros, binary logarithm and rounding up to a power of two. *)

From S2P Require Import Prelude IntMath.

(** ** Splitting words *)

#[local] Lemma testbit_split (n a b i : Z) :
  0 <= n -> 0 <= a < 2 ^ n -> 0 <= i ->
  Z.testbit (a + b * 2 ^ n) i = if i <? n then Z.testbit a i else Z.testbit b (i - n).
Proof.
  intros Hn Ha Hi. destruct (Z.ltb_spec i n).
  - rewrite <- (Z.mod_pow2_bits_low _ n) by lia. rewrite Z.mod_add by lia.
    by rewrite Z.mod_small by lia.
  - rewrite <- (Z.sub_add n i) at 1. rewrite <- Z.shiftr_spec by lia.
    rewrite Z.shiftr_div_pow2, Z.div_add, Z.div_small by lia. done.
Qed.

#[local] Lemma land_split (n a b c d : Z) :
  0 <= n -> 0 <= a < 2 ^ n -> 0 <= c < 2 ^ n ->
  Z.land (a + b * 2 ^ n) (c + d * 2 ^ n) = Z.land a c + Z.land b d * 2 ^ n.
Proof.
  intros Hn Ha Hc. apply Z.bits_inj'. intros i Hi.
  assert (Hac : 0 <= Z.land a c < 2 ^ n).
  { split; [apply Z.land_nonneg; lia|].
    rewrite <- (Z.mod_small a (2 ^ n)), <- Z.land_ones by lia.
    rewrite <- Z.land_assoc, (Z.land_comm (Z.ones n)), Z.land_assoc, Z.land_ones by lia.
    apply Z.mod_pos_bound. lia. }
  rewrite Z.land_spec, !testbit_split by done. destruct (i <? n); by rewrite Z.land_spec.
Qed.

(** [n] digits in base [2 ^ k], lowest first, and their sum. *)
Fixpoint digit_sum (k : Z) (n : nat) (v : Z) : Z :=
  match n with O => 0 | S n => v mod 2 ^ k + digit_sum k n (v / 2 ^ k) end.

(** The number of bits set among the lowest [n]. *)
Definition popcount (n : nat) (v : Z) : Z := digit_sum 1 n v.

(** ** Population count *)

(** The masks: every other block of [k] bits, [n] times. *)
Fixpoint alternating (k : Z) (n : nat) : Z :=
  match n with O => 0 | S n => Z.ones k + alternating k n * 2 ^ (2 * k) end.

#[local] Lemma merge_blocks (k v : Z) (n : nat) :
  0 < k -> 0 <= v < 2 ^ (2 * k * Z.of_nat n) ->
  let s := Z.land (Z.shiftr v k) (alternating k n) + Z.land v (alternating k n) in
  0 <= s < 2 ^ (2 * k * Z.of_nat n) /\ digit_sum (2 * k) n s = digit_sum k (2 * n) v.
Proof.
  intros Hk. revert v. induction n as [|n IH]; intros v Hv; cbn zeta.
  { simpl alternating. rewrite !Z.land_0_r. simpl. rewrite Z.mul_0_r. lia. }
  assert (Hpk : 0 < 2 ^ k) by (apply pow2_pos; lia).
  assert (Hp2 : 2 ^ (2 * k) = 2 ^ k * 2 ^ k) by (rewrite <- Z.pow_add_r by lia; f_equal; lia).
  assert (Hpn : 2 ^ (2 * k * Z.of_nat (S n)) = 2 ^ (2 * k) * 2 ^ (2 * k * Z.of_nat n))
    by (rewrite <- Z.pow_add_r by lia; f_equal; lia).
  set (lo := v mod 2 ^ k). set (hi := (v / 2 ^ k) mod 2 ^ k). set (y := v / 2 ^ k / 2 ^ k).
  assert (Hlo : 0 <= lo < 2 ^ k) by (apply Z.mod_pos_bound; lia).
  assert (Hhi : 0 <= hi < 2 ^ k) by (apply Z.mod_pos_bound; lia).
  assert (Ev : v = lo + hi * 2 ^ k + y * 2 ^ (2 * k)).
  { unfold lo, hi, y. rewrite (Z.div_mod v (2 ^ k)) at 1 by lia.
    rewrite (Z.div_mod (v / 2 ^ k) (2 ^ k)) at 1 by lia. lia. }
  assert (Hy : 0 <= y < 2 ^ (2 * k * Z.of_nat n)) by nia.
  destruct (IH y Hy) as [Hs Hsum]. clear IH.
  set (s := Z.land (Z.shiftr y k) (alternating k n) + Z.land y (alternating k n)) in *.
  assert (Hones : 0 <= Z.ones k < 2 ^ (2 * k)) by (rewrite Z.ones_equiv; nia).
  assert (E1 : Z.land v (alternating k (S n)) = lo + Z.land y (alternating k n) * 2 ^ (2 * k)).
  { simpl alternating. rewrite Ev, land_split by nia. rewrite Z.land_ones by lia.
    rewrite Z.mod_add, Z.mod_small by lia. done. }
  assert (E2 : Z.land (Z.shiftr v k) (alternating k (S n))
               = hi + Z.land (Z.shiftr y k) (alternating k n) * 2 ^ (2 * k)).
  { simpl alternating. rewrite !Z.shiftr_div_pow2 by lia.
    assert (v / 2 ^ k = (hi + (y mod 2 ^ k) * 2 ^ k) + y / 2 ^ k * 2 ^ (2 * k)) as ->.
    { rewrite (Z.div_mod (v / 2 ^ k) (2 ^ k)) at 1 by lia. fold hi y.
      rewrite (Z.div_mod y (2 ^ k)) at 1 by lia. lia. }
    pose proof (Z.mod_pos_bound y (2 ^ k) Hpk). rewrite land_split by nia.
    rewrite Z.land_ones, Z.mod_add, (Z.mod_small hi) by lia. done. }
  rewrite E1, E2.
  replace (hi + Z.land (Z.shiftr y k) (alternating k n) * 2 ^ (2 * k) +
           (lo + Z.land y (alternating k n) * 2 ^ (2 * k))) with (lo + hi + s * 2 ^ (2 * k))
    by (unfold s; lia).
  assert (Hsm : 0 <= lo + hi < 2 ^ (2 * k)).
  { assert (2 <= 2 ^ k) by (change 2 with (2 ^ 1) at 1; apply Z.pow_le_mono_r; lia). nia. }
  split; [rewrite Hpn; nia|].
  replace (2 * S n)%nat with (S (S (2 * n))) by lia.
  cbn [digit_sum]. rewrite Z.mod_add, Z.div_add, Z.mod_small, Z.div_small by lia.
  fold lo hi y. rewrite Z.add_0_l, Hsum. lia.
Qed.

(** One step of [CountBitsSet]. *)
#[local] Lemma count_step_sum (w k mask v : Z) (n : nat) :
  0 < k -> w = 2 * k * Z.of_nat n -> mask = alternating k n -> inU w v ->
  inU w (count_step w k mask v)
  /\ digit_sum (2 * k) n (count_step w k mask v) = digit_sum k (2 * n) v.
Proof.
  intros Hk -> -> Hv. unfold inU in *. destruct (merge_blocks k v n Hk Hv) as [Hr Hs].
  unfold count_step, UInt_. rewrite wrapU_id by done. done.
Qed.

#[local] Lemma digit_sum_one (w v : Z) : inU w v -> digit_sum w 1 v = v.
Proof. intros H. simpl. rewrite Z.mod_small by done. lia. Qed.

(** The word-parallel [CountBitsSet] counts the bits. *)
Theorem CountBitsSet_spec (w v : Z) :
  w = 32 \/ w = 64 -> inU w v -> CountBitsSet w v = popcount (Z.to_nat w) v.
Proof.
  intros [-> | ->] Hv; unfold CountBitsSet, popcount; simpl (_ =? 64); cbv iota zeta.
  - destruct (count_step_sum 32 1 0x55555555 v 16) as [H1 E1]; [done..|].
    destruct (count_step_sum 32 2 0x33333333 _ 8 eq_refl eq_refl eq_refl H1) as [H2 E2].
    destruct (count_step_sum 32 4 0x0F0F0F0F _ 4 eq_refl eq_refl eq_refl H2) as [H3 E3].
    destruct (count_step_sum 32 8 0x00FF00FF _ 2 eq_refl eq_refl eq_refl H3) as [H4 E4].
    destruct (count_step_sum 32 16 0x0000FFFF _ 1 eq_refl eq_refl eq_refl H4) as [H5 E5].
    rewrite <- (digit_sum_one 32 (count_step _ _ _ _)) by done.
    etransitivity; [apply E5|]. etransitivity; [apply E4|]. etransitivity; [apply E3|].
    etransitivity; [apply E2|]. apply E1.
  - destruct (count_step_sum 64 1 0x5555555555555555 v 32) as [H1 E1]; [done..|].
    destruct (count_step_sum 64 2 0x3333333333333333 _ 16 eq_refl eq_refl eq_refl H1) as [H2 E2].
    destruct (count_step_sum 64 4 0x0F0F0F0F0F0F0F0F _ 8 eq_refl eq_refl eq_refl H2) as [H3 E3].
    destruct (count_step_sum 64 8 0x00FF00FF00FF00FF _ 4 eq_refl eq_refl eq_refl H3) as [H4 E4].
    destruct (count_step_sum 64 16 0x0000FFFF0000FFFF _ 2 eq_refl eq_refl eq_refl H4) as [H5 E5].
    destruct (count_step_sum 64 32 0x00000000FFFFFFFF _ 1 eq_refl eq_refl eq_refl H5) as [H6 E6].
    rewrite <- (digit_sum_one 64 (count_step _ _ _ _)) by done.
    etransitivity; [apply E6|]. etransitivity; [apply E5|]. etransitivity; [apply E4|].
    etransitivity; [apply E3|]. etransitivity; [apply E2|]. apply E1.
Qed.

(** ** Reversal *)

(** What a mask of blocks of [k] bits has to satisfy for a step to exchange
    neighbouring blocks: bit [i] of the result is bit [i xor k] of the word. *)
Definition exchanges (w k mask i : Z) : bool :=
  if Z.testbit mask i then (Z.lxor i k =? i + k) && (negb (k <=? i) || negb (Z.testbit mask (i - k)))
  else (k <=? i) && (Z.lxor i k =? i - k) && Z.testbit mask (i - k).

#[local] Lemma reverse_step_bit (w k mask v i : Z) :
  0 < k -> 0 <= i < w -> exchanges w k mask i = true ->
  Z.testbit (reverse_step w k mask v) i = Z.testbit v (Z.lxor i k).
Proof.
  intros Hk Hi He. unfold reverse_step, UInt_, wrapU, exchanges in *.
  rewrite Z.lor_spec, Z.land_spec, Z.shiftr_spec, Z.mod_pow2_bits_low, Z.shiftl_spec, Z.land_spec by lia.
  destruct (Z.testbit mask i).
  - apply andb_prop in He as [Hx Hm]. apply Z.eqb_eq in Hx as ->.
    rewrite andb_true_r. destruct (Z.leb_spec k i); simpl in Hm.
    + destruct (Z.testbit mask (i - k)); [done|]. by rewrite andb_false_r, orb_false_r.
    + rewrite (Z.testbit_neg_r v (i - k)) by lia. by rewrite orb_false_r.
  - apply andb_prop in He as [He ->]. apply andb_prop in He as [_ Hx]. apply Z.eqb_eq in Hx as ->.
    by rewrite andb_false_r, andb_true_r.
Qed.

#[local] Lemma reverse_halves_bit (w k v i : Z) :
  w = 2 * k -> inU w v -> 0 <= i < w ->
  Z.testbit (reverse_halves w k v) i = Z.testbit v (if i <? k then i + k else i - k).
Proof.
  intros -> Hv Hi. unfold reverse_halves, UInt_, wrapU.
  rewrite Z.lor_spec, Z.shiftr_spec, Z.mod_pow2_bits_low, Z.shiftl_spec by lia.
  destruct (Z.ltb_spec i k).
  - rewrite (Z.testbit_neg_r v (i - k)) by lia. by rewrite orb_false_r.
  - unfold inU in Hv. rewrite <- (Z.mod_small v (2 ^ (2 * k))) at 1 by done.
    by rewrite Z.mod_pow2_bits_high by lia.
Qed.

Lemma inU_bits (w v : Z) :
  0 <= w -> 0 <= v -> (forall i, w <= i -> Z.testbit v i = false) -> inU w v.
Proof.
  intros Hw Hv Hb. assert (v = v mod 2 ^ w) as ->; [|by apply wrapU_range].
  apply Z.bits_inj'. intros i Hi. destruct (Z.ltb_spec i w).
  - by rewrite Z.mod_pow2_bits_low.
  - rewrite Z.mod_pow2_bits_high by lia. by apply Hb.
Qed.

Lemma bits_inU (w v i : Z) : 0 <= w -> inU w v -> w <= i -> Z.testbit v i = false.
Proof.
  intros Hw Hv Hi. unfold inU in Hv. rewrite <- (Z.mod_small v (2 ^ w)) by done.
  apply Z.mod_pow2_bits_high. lia.
Qed.

Lemma lor_inU (w a b : Z) : 0 <= w -> inU w a -> inU w b -> inU w (Z.lor a b).
Proof.
  intros Hw Ha Hb. apply inU_bits; [done|apply Z.lor_nonneg; split; [apply Ha|apply Hb]|].
  intros i Hi. by rewrite Z.lor_spec, !(bits_inU w).
Qed.

#[local] Lemma reverse_step_range (w k mask v : Z) :
  0 <= w -> 0 <= k -> inU w v -> inU w (reverse_step w k mask v).
Proof.
  intros Hw Hk Hv. unfold reverse_step, UInt_. apply inU_bits; [done| |].
  - apply Z.lor_nonneg. split; [apply Z.land_nonneg; left; apply Z.shiftr_nonneg; apply Hv|].
    by apply wrapU_range.
  - intros i Hi. rewrite Z.lor_spec, Z.land_spec, Z.shiftr_spec by lia.
    rewrite (bits_inU w v), (bits_inU w (wrapU w _)) by (done || lia || by apply wrapU_range). done.
Qed.

#[local] Lemma reverse_halves_range (w k v : Z) :
  0 <= w -> 0 <= k -> inU w v -> inU w (reverse_halves w k v).
Proof.
  intros Hw Hk Hv. unfold reverse_halves, UInt_. apply inU_bits; [done| |].
  - apply Z.lor_nonneg. split; [apply Z.shiftr_nonneg, Hv|by apply wrapU_range].
  - intros i Hi. rewrite Z.lor_spec, Z.shiftr_spec by lia.
    rewrite (bits_inU w v), (bits_inU w (wrapU w _)) by (done || lia || by apply wrapU_range). done.
Qed.

(** Several steps, the last one first, and where they take bit [i] from. *)
#[local] Definition exchange_all (w : Z) (steps : list (Z * Z)) (v : Z) : Z :=
  foldr (fun '(k, mask) v => reverse_step w k mask v) v steps.

#[local] Fixpoint origin (w : Z) (steps : list (Z * Z)) (i : Z) : option Z :=
  match steps with
  | [] => Some i
  | (k, mask) :: steps =>
      if (0 <? k) && (0 <=? i) && (i <? w) && exchanges w k mask i
      then origin w steps (Z.lxor i k) else None
  end.

#[local] Lemma exchange_all_bit (w : Z) (steps : list (Z * Z)) (v i j : Z) :
  origin w steps i = Some j -> Z.testbit (exchange_all w steps v) i = Z.testbit v j.
Proof.
  revert i. induction steps as [|[k mask] steps IH]; intros i H; simpl in H; [by injection H as ->|].
  destruct ((0 <? k) && _ && _ && _) eqn:E; [|done].
  apply andb_prop in E as [E He]. zbool. simpl.
  rewrite reverse_step_bit by (done || lia). by apply IH.
Qed.

#[local] Lemma exchange_all_range (w : Z) (steps : list (Z * Z)) (v : Z) :
  0 <= w -> Forall (fun s => 0 <= fst s) steps -> inU w v -> inU w (exchange_all w steps v).
Proof. intros Hw Hs Hv. induction Hs as [|[k mask] steps]; [done|]. by apply reverse_step_range. Qed.

#[local] Lemma reverse_all (w k : Z) (steps : list (Z * Z)) (v i : Z) :
  0 <= w -> w = 2 * k -> inU w v -> 0 <= i < w -> Forall (fun s => 0 <= fst s) steps ->
  origin w steps (if i <? k then i + k else i - k) = Some (w - 1 - i) ->
  Z.testbit (reverse_halves w k (exchange_all w steps v)) i = Z.testbit v (w - 1 - i).
Proof.
  intros. rewrite reverse_halves_bit by (done || by apply exchange_all_range).
  by apply exchange_all_bit.
Qed.

#[local] Lemma forall_origins (n : nat) (f g : Z -> option Z) :
  forallb (fun i => bool_decide (f (Z.of_nat i) = g (Z.of_nat i))) (seq 0 n) = true ->
  forall i, 0 <= i < Z.of_nat n -> f i = g i.
Proof.
  intros H i Hi. rewrite forallb_forall in H. specialize (H (Z.to_nat i)).
  rewrite Z2Nat.id in H by lia. eapply bool_decide_eq_true_1, H, in_seq. lia.
Qed.

(** [ComputeReverseBits] reverses the bits of the word. *)
Theorem ComputeReverseBits_spec (w v i : Z) :
  w = 32 \/ w = 64 -> inU w v -> 0 <= i < w ->
  Z.testbit (ComputeReverseBits w v) i = Z.testbit v (w - 1 - i).
Proof.
  intros [-> | ->] Hv Hi.
  - apply (reverse_all 32 16 [(8, 0x00FF00FF); (4, 0x0F0F0F0F); (2, 0x33333333); (1, 0x55555555)]);
      [done..|by repeat constructor|].
    revert i Hi. by apply (forall_origins 32); vm_compute.
  - apply (reverse_all 64 32
      [(16, 0x0000FFFF0000FFFF); (8, 0x00FF00FF00FF00FF); (4, 0x0F0F0F0F0F0F0F0F);
       (2, 0x3333333333333333); (1, 0x5555555555555555)]);
      [done..|by repeat constructor|].
    revert i Hi. by apply (forall_origins 64); vm_compute.
Qed.

Lemma ComputeReverseBits_range (w v : Z) :
  w = 32 \/ w = 64 -> inU w v -> inU w (ComputeReverseBits w v).
Proof.
  intros [-> | ->] Hv; apply reverse_halves_range; try done;
    repeat (apply reverse_step_range; [done..|]); done.
Qed.

(** One byte lane of [SwapBytes]. *)
#[local] Lemma move_right_bit (v k mask i : Z) :
  0 <= i -> Z.testbit (move_right v k mask) i = Z.testbit v (i + k) && Z.testbit mask i.
Proof. intros. unfold move_right. by rewrite Z.land_spec, Z.shiftr_spec. Qed.

#[local] Lemma move_left_bit (w v k mask i : Z) :
  0 <= i < w -> Z.testbit (move_left w v k mask) i = Z.testbit v (i - k) && Z.testbit mask i.
Proof.
  intros. unfold move_left, UInt_, wrapU.
  by rewrite Z.land_spec, Z.mod_pow2_bits_low, Z.shiftl_spec by lia.
Qed.

(** [SwapBytes] reverses the bytes of the word: byte [q] of the result is byte
    [w / 8 - 1 - q] of the argument. *)
Theorem SwapBytes_spec (w v q r : Z) :
  w = 32 \/ w = 64 -> 0 <= q < w / 8 -> 0 <= r < 8 ->
  Z.testbit (SwapBytes w v) (8 * q + r) = Z.testbit v (8 * (w / 8 - 1 - q) + r).
Proof.
  intros Hw Hq Hr.
  assert (Hr8 : r = 0 \/ r = 1 \/ r = 2 \/ r = 3 \/ r = 4 \/ r = 5 \/ r = 6 \/ r = 7) by lia.
  destruct Hw as [-> | ->]; unfold SwapBytes; simpl (_ =? 64); cbv iota.
  - change (32 / 8) with 4 in *. assert (Hq4 : q = 0 \/ q = 1 \/ q = 2 \/ q = 3) by lia.
    rewrite !Z.lor_spec, !move_right_bit, !move_left_bit by lia.
    destruct Hq4 as [-> | [-> | [-> | ->]]];
      destruct Hr8 as [-> | [-> | [-> | [-> | [-> | [-> | [-> | ->]]]]]]]; simpl;
      by rewrite ?andb_false_r, ?andb_true_r, ?orb_false_r.
  - change (64 / 8) with 8 in *.
    assert (Hq8 : q = 0 \/ q = 1 \/ q = 2 \/ q = 3 \/ q = 4 \/ q = 5 \/ q = 6 \/ q = 7) by lia.
    rewrite !Z.lor_spec, !move_right_bit, !move_left_bit by lia.
    destruct Hq8 as [-> | [-> | [-> | [-> | [-> | [-> | [-> | ->]]]]]]];
      destruct Hr8 as [-> | [-> | [-> | [-> | [-> | [-> | [-> | ->]]]]]]]; simpl;
      by rewrite ?andb_false_r, ?andb_true_r, ?orb_false_r.
Qed.

(** Decide the template's [#if] tests. *)
#[local] Ltac reduce_widths :=
  repeat match goal with
         | |- context [?a >=? ?b] => let c := eval vm_compute in (a >=? b) in change (a >=? b) with c
         | |- context [?a =? 64] => let c := eval vm_compute in (a =? 64) in change (a =? 64) with c
         end; cbv iota zeta.

(** ** Parity *)

(** The parity of the lowest [n] bits. *)
#[local] Fixpoint xorbits (n : nat) (v : Z) : bool :=
  match n with O => false | S n => xorb (Z.odd v) (xorbits n (v / 2)) end.

#[local] Lemma popcount_parity (n : nat) (v : Z) : popcount n v mod 2 = Z.b2z (xorbits n v).
Proof.
  unfold popcount. revert v. induction n as [|n IH]; intros v; [done|]. cbn [digit_sum xorbits].
  change (2 ^ 1) with 2. rewrite Zplus_mod, IH, Z.mod_mod, (Zmod_odd v) by lia.
  destruct (Z.odd v), (xorbits n (v / 2)); done.
Qed.

#[local] Lemma xorbits_app (n m : nat) (v : Z) :
  xorbits (n + m) v = xorb (xorbits n v) (xorbits m (Z.shiftr v (Z.of_nat n))).
Proof.
  revert v. induction n as [|n IH]; intros v; [by rewrite Z.shiftr_0_r|].
  cbn [xorbits Nat.add]. rewrite IH, xorb_assoc. do 3 f_equal.
  rewrite !Z.shiftr_div_pow2, Nat2Z.inj_succ, Z.pow_succ_r by lia.
  rewrite Z.div_div by lia. done.
Qed.

#[local] Lemma xorbits_lxor (n : nat) (u v : Z) :
  xorbits n (Z.lxor u v) = xorb (xorbits n u) (xorbits n v).
Proof.
  revert u v. induction n as [|n IH]; intros u v; [done|]. cbn [xorbits].
  rewrite <- !Z.bit0_odd, Z.lxor_spec. change 2 with (2 ^ 1). rewrite <- !Z.shiftr_div_pow2 by lia.
  rewrite Z.shiftr_lxor, IH.
  by destruct (Z.testbit u 0), (Z.testbit v 0), (xorbits n (Z.shiftr u 1)), (xorbits n (Z.shiftr v 1)).
Qed.

#[local] Lemma fold_parity_xorbits (n : nat) (k v : Z) :
  k = Z.of_nat n -> xorbits n (fold_parity k v) = xorbits (n + n) v.
Proof. intros ->. unfold fold_parity. by rewrite xorbits_lxor, xorbits_app. Qed.

(** The table of the parities of 4 bits packed into one constant. *)
#[local] Lemma parity_table (v : Z) : Z.land (Z.shiftr 0x6996 (Z.land v 0xF)) 1 = Z.b2z (xorbits 4 v).
Proof.
  assert (E : xorbits 4 v = xorbits 4 (Z.land v 0xF)).
  { change 0xF with (Z.ones 4). rewrite Z.land_ones by lia. cbn [xorbits].
    rewrite <- !Z.bit0_odd. change 2 with (2 ^ 1).
    rewrite <- !Z.shiftr_div_pow2, !Z.shiftr_spec, !Z.mod_pow2_bits_low by lia. done. }
  rewrite E. change 0xF with (Z.ones 4). rewrite Z.land_ones by lia.
  pose proof (Z.mod_pos_bound v (2 ^ 4) ltac:(lia)) as H.
  set (x := v mod 2 ^ 4) in *. clearbody x. change (2 ^ 4) with 16 in H.
  assert (Hx : In x (map Z.of_nat (seq 0 16)))
    by (apply in_map_iff; exists (Z.to_nat x); split; [lia|apply in_seq; lia]).
  simpl in Hx. repeat destruct Hx as [<-|Hx]; done.
Qed.

(** [ParityOf] is the parity of the number of bits set. *)
Theorem ParityOf_spec (w v : Z) :
  w = 32 \/ w = 64 -> ParityOf w v = popcount (Z.to_nat w) v mod 2.
Proof.
  intros Hw. rewrite popcount_parity. unfold ParityOf. rewrite parity_table.
  destruct Hw as [-> | ->]; f_equal; reduce_widths.
  - rewrite (fold_parity_xorbits 4), (fold_parity_xorbits 8), (fold_parity_xorbits 16); done.
  - rewrite (fold_parity_xorbits 4), (fold_parity_xorbits 8), (fold_parity_xorbits 16),
      (fold_parity_xorbits 32); done.
Qed.

(** ** Counting zeros *)

#[local] Lemma land_double (a b : Z) : Z.land (2 * a) (2 * b) = 2 * Z.land a b.
Proof.
  rewrite !(Z.mul_comm 2). apply (land_split 1 0 a 0 b); lia.
Qed.

#[local] Lemma land_odd (a b : Z) : Z.land (2 * a + 1) (2 * b + 1) = 2 * Z.land a b + 1.
Proof.
  rewrite !(Z.mul_comm 2), !(Z.add_comm _ 1). apply (land_split 1 1 a 1 b); lia.
Qed.

(** [v & -v] is the lowest bit set. *)
#[local] Lemma lowest_bit (w : nat) (v : Z) :
  0 < v < 2 ^ Z.of_nat w ->
  exists t, 0 <= t < Z.of_nat w /\ Z.land v (- v) = 2 ^ t /\ v mod 2 ^ t = 0 /\ Z.testbit v t = true.
Proof.
  revert v. induction w as [|w IH]; intros v Hv; [simpl in Hv; lia|].
  rewrite Nat2Z.inj_succ, Z.pow_succ_r in Hv by lia.
  pose proof (Z.div_mod v 2 ltac:(lia)) as Hd. pose proof (Z.mod_pos_bound v 2 ltac:(lia)).
  destruct (Z.eq_dec (v mod 2) 0) as [E|E].
  - destruct (IH (v / 2) ltac:(lia)) as (t & Ht & Hl & Hm & Hb). exists (Z.succ t).
    replace v with (2 * (v / 2)) by lia. set (u := v / 2) in *.
    rewrite <- Z.mul_opp_r, land_double, Hl, Z.pow_succ_r, Z.mul_mod_distr_l by
      (try (pose proof (pow2_pos t)); lia).
    rewrite Z.testbit_even_succ by lia. repeat split; try done; lia.
  - exists 0. replace v with (2 * (v / 2) + 1) by lia. set (u := v / 2) in *.
    replace (- (2 * u + 1)) with (2 * Z.lnot u + 1) by (unfold Z.lnot; lia).
    rewrite land_odd, Z.land_lnot_diag, Z.mod_1_r, Z.testbit_odd_0. repeat split; lia.
Qed.

#[local] Lemma zeros_lowest (w v : Z) :
  0 < w -> inU w v -> Z.land v (UInt_ w (UNot w v + 1)) = Z.land v (- v).
Proof.
  intros Hw Hv. unfold UNot, UInt_. unfold wrapU at 1. unfold wrapU. rewrite Zplus_mod_idemp_l.
  replace (Z.lnot v + 1) with (- v) by (unfold Z.lnot; lia).
  rewrite <- Z.land_ones, (Z.land_comm (- v)), Z.land_assoc, Z.land_ones by lia.
  unfold inU in Hv. by rewrite Z.mod_small by lia.
Qed.

(** The searches of [ComputeCountOfRightZeros], from a word with at most one bit. *)
#[local] Definition lowest_index (w value : Z) : option Z :=
  Some (let c := w in
        let c := if negb (value =? 0) then UInt_ w (c - 1) else c in
        if w =? 64 then
          let c := zeros_step w 0x00000000FFFFFFFF 32 value c in
          let c := zeros_step w 0x0000FFFF0000FFFF 16 value c in
          let c := zeros_step w 0x00FF00FF00FF00FF 8 value c in
          let c := zeros_step w 0x0F0F0F0F0F0F0F0F 4 value c in
          let c := zeros_step w 0x3333333333333333 2 value c in
          zeros_step w 0x5555555555555555 1 value c
        else
          let c := zeros_step w 0x0000FFFF 16 value c in
          let c := zeros_step w 0x00FF00FF 8 value c in
          let c := zeros_step w 0x0F0F0F0F 4 value c in
          let c := zeros_step w 0x33333333 2 value c in
          zeros_step w 0x55555555 1 value c).

(** [ComputeCountOfRightZeros] is the index of the lowest bit set, and the
    width for zero. *)
Theorem ComputeCountOfRightZeros_spec (w v : Z) :
  w = 32 \/ w = 64 -> inU w v ->
  let c := ComputeCountOfRightZeros w v in
  if v =? 0 then c = w else 0 <= c < w /\ v mod 2 ^ c = 0 /\ Z.testbit v c = true.
Proof.
  intros Hw Hv c. subst c. unfold ComputeCountOfRightZeros.
  rewrite zeros_lowest by (done || lia).
  destruct (Z.eqb_spec v 0) as [->|Hv0]; [by destruct Hw as [-> | ->]|].
  destruct (lowest_bit (Z.to_nat w) v) as (t & Ht & -> & Hm & Hb);
    [rewrite Z2Nat.id by lia; unfold inU in Hv; lia|].
  rewrite Z2Nat.id in Ht by lia. clear Hv Hv0.
  assert (Hbits : forall t, 0 <= t < w -> lowest_index w (2 ^ t) = Some t).
  { destruct Hw as [-> | ->]; [apply (forall_origins 32)|apply (forall_origins 64)]; by vm_compute. }
  pose proof (Hbits t Ht) as E. injection E as ->. done.
Qed.

(** ** Logarithm and powers of two *)

#[local] Lemma land_high (k v : Z) :
  0 <= k -> 0 <= v < 2 ^ k * 2 ^ k ->
  Z.land v (Z.ones k * 2 ^ k) = v / 2 ^ k * 2 ^ k.
Proof.
  intros Hk Hv. pose proof (pow2_pos k Hk) as Hp.
  pose proof (Z.mod_pos_bound v (2 ^ k) Hp).
  pose proof (land_split k (v mod 2 ^ k) (v / 2 ^ k) 0 (Z.ones k)) as Hl.
  replace (v mod 2 ^ k + v / 2 ^ k * 2 ^ k) with v in Hl by (rewrite (Z.div_mod v (2 ^ k)) at 1; lia).
  rewrite Z.add_0_l in Hl. rewrite Hl by lia. rewrite Z.land_0_r, Z.land_ones, Z.add_0_l by lia.
  rewrite Z.mod_small; [done|]. split; [apply Z.div_pos|apply Z.div_lt_upper_bound]; lia.
Qed.

(** The range [2 ^ k] of the word left to search, and the logarithm found so far. *)
#[local] Definition searching (w L k : Z) (p : Z * Z) : Prop :=
  0 < fst p < 2 ^ k /\ 0 <= snd p /\ snd p + k <= w /\ snd p + Z.log2 (fst p) = L.

#[local] Lemma lg_step_spec (w L k mask : Z) (p : Z * Z) :
  0 < k -> 0 < w -> mask = Z.ones k * 2 ^ k -> searching w L (2 * k) p ->
  searching w L k (lg_step w mask k p).
Proof.
  unfold searching. intros Hk Hw -> (Hv & Hl & Hb & HL). destruct p as [v log]. simpl in *.
  pose proof (pow2_pos k ltac:(lia)) as Hp.
  replace (2 ^ (2 * k)) with (2 ^ k * 2 ^ k) in Hv by (rewrite <- Z.pow_add_r by lia; f_equal; lia).
  rewrite land_high by lia.
  destruct (Z.eqb_spec (v / 2 ^ k * 2 ^ k) 0) as [E|E]; simpl.
  - assert (v / 2 ^ k = 0) as E0 by nia. apply Z.div_small_iff in E0; lia.
  - unfold UInt_. rewrite wrapU_id by (unfold inU; pose proof (Z.pow_gt_lin_r 2 w); lia).
    assert (Hd : 0 < v / 2 ^ k) by (pose proof (Z.div_pos v (2 ^ k)); nia).
    rewrite Z.log2_shiftr, Z.shiftr_div_pow2 by lia.
    assert (k <= Z.log2 v) by (apply Z.log2_le_pow2; [lia|];
      destruct (Z.lt_ge_cases v (2 ^ k)); [rewrite Z.div_small in Hd; lia|done]).
    split; [split; [done|]; apply Z.div_lt_upper_bound; lia|]. lia.
Qed.

(** [Lg] is the binary logarithm of every positive word. *)
Theorem Lg_spec (w v : Z) : w = 32 \/ w = 64 -> 0 < v < 2 ^ w -> Lg w v = Z.log2 v.
Proof.
  intros Hw Hv. unfold Lg.
  assert (Hend : forall p, searching w (Z.log2 v) 1 p -> snd p = Z.log2 v).
  { intros [u l] (Hu & _ & _ & He). simpl in *. replace u with 1 in He by lia. simpl in He. lia. }
  assert (H : searching w (Z.log2 v) w (v, 0)) by (unfold searching; simpl; lia).
  apply Hend. destruct Hw as [-> | ->]; reduce_widths.
  - apply lg_step_spec, lg_step_spec, lg_step_spec, lg_step_spec, lg_step_spec; done.
  - apply lg_step_spec, lg_step_spec, lg_step_spec, lg_step_spec, lg_step_spec, lg_step_spec; done.
Qed.

#[local] Lemma smear_spec (L m k x : Z) :
  0 < k <= m ->
  (forall i, 0 <= i -> L - m < i -> Z.testbit x i = (i <=? L)) ->
  (forall i, 0 <= i -> L - (m + k) < i -> Z.testbit (smear x k) i = (i <=? L)).
Proof.
  intros Hk H i Hi Hlo. unfold smear. rewrite Z.lor_spec, Z.shiftr_spec by lia.
  rewrite (H (i + k)) by lia.
  destruct (Z.leb_spec i L) as [HL|HL].
  - destruct (decide (L - m < i)).
    + rewrite H by lia. by destruct (Z.leb_spec i L); [|lia].
    + destruct (Z.leb_spec (i + k) L); [apply orb_true_r|lia].
  - rewrite H by lia. destruct (Z.leb_spec i L), (Z.leb_spec (i + k) L); done || lia.
Qed.

(** The rounding of [next-pow2] yields the smallest power of two that is not
    below the argument, for every argument whose result fits the word. *)
Theorem RoundUpPow2_spec (w v : Z) :
  w = 32 \/ w = 64 -> 0 < v <= 2 ^ (w - 1) -> RoundUpPow2 w v = 2 ^ Z.log2_up v.
Proof.
  intros Hw Hv. unfold RoundUpPow2.
  assert (Hw2 : 2 ^ w = 2 * 2 ^ (w - 1)) by (apply pow2_double; lia).
  replace (UInt_ w (v - 1)) with (v - 1) by (symmetry; apply wrapU_id; unfold inU; lia).
  destruct (decide (v = 1)) as [->|Hv1]; [by destruct Hw as [-> | ->]|].
  set (L := Z.log2 (v - 1)).
  assert (HL : 0 <= L < w - 1).
  { split; [apply Z.log2_nonneg|]. apply Z.log2_lt_pow2; lia. }
  assert (H1 : forall i, 0 <= i -> L - 1 < i -> Z.testbit (v - 1) i = (i <=? L)).
  { intros i Hi Hlo. destruct (Z.leb_spec i L).
    - replace i with L by lia. apply Z.bit_log2. lia.
    - apply Z.bits_above_log2; lia. }
  assert (Hones : forall x, (forall i, 0 <= i -> L - w < i -> Z.testbit x i = (i <=? L)) ->
    UInt_ w (x + 1) = 2 ^ Z.log2_up v).
  { intros x Hx. assert (x = Z.ones (L + 1)) as ->.
    { apply Z.bits_inj'. intros i Hi. rewrite Hx by lia. rewrite Z.testbit_ones_nonneg by lia.
      destruct (Z.leb_spec i L), (Z.ltb_spec i (L + 1)); done || lia. }
    rewrite Z.ones_equiv, Z.add_comm, Z.add_pred_r by lia. unfold UInt_.
    replace (Z.log2_up v) with (L + 1) by (unfold L; rewrite Z.log2_up_eqn, <- Z.sub_1_r by lia; lia).
    rewrite wrapU_id; [lia|]. unfold inU. pose proof (pow2_pos (L + 1)).
    pose proof (Z.pow_lt_mono_r 2 (L + 1) w). lia. }
  apply Hones. clear Hones Hw2 HL.
  pose proof (smear_spec L 1 1 _ ltac:(lia) H1) as H2.
  pose proof (smear_spec L 2 2 _ ltac:(lia) H2) as H4.
  pose proof (smear_spec L 4 4 _ ltac:(lia) H4) as H8.
  pose proof (smear_spec L 8 8 _ ltac:(lia) H8) as H16.
  pose proof (smear_spec L 16 16 _ ltac:(lia) H16) as H32.
  destruct Hw as [-> | ->]; reduce_widths; [exact H32|].
  exact (smear_spec L 32 32 _ ltac:(lia) H32).
Qed.
