(* ===== verification/FiniteMap.v ===== *)
(** * FiniteMap: what a dictionary promises to its clients

    The operations of the dictionaries' headers as a class, and the laws an
    implementation owes its clients: each operation returns, answers what the
    finite map would answer, and leaves a state that represents the updated map.
    The client proved against the interface is an arbitrary sequence of
    operations. *)

From S2P Require Import Prelude.

(** Every operation answers [None] when the C code would leave its arrays. *)
Class MapOps (K V D : Type) := {
  NULL_value : V;
  ClearWithSize : Z -> option D;
  ContainsKey : D -> K -> option bool;
  GetValue : D -> K -> option V;
  TryGetValue : D -> K -> option (V * bool);
  Add : D -> K -> V -> option (D * bool);
  SetValue : D -> K -> V -> option (D * bool);
  ReplaceValue : D -> K -> V -> option (D * bool);
  Remove : D -> K -> option (D * bool);
  Count : D -> Z
}.

Class MapLaws (K V D : Type) `{Countable K} {O : MapOps K V D} := {
  represented : D -> gmap K V -> Prop;
  (** the number of entries up to which insertions are defined *)
  capacity : Z;
  clear_law (size : Z) : exists d, ClearWithSize size = Some d /\ represented d ∅;
  contains_law (d : D) (m : gmap K V) (k : K) :
    represented d m -> ContainsKey d k = Some (bool_decide (is_Some (m !! k)));
  get_law (d : D) (m : gmap K V) (k : K) :
    represented d m -> GetValue d k = Some (default NULL_value (m !! k));
  try_law (d : D) (m : gmap K V) (k : K) :
    represented d m ->
    TryGetValue d k = Some (default NULL_value (m !! k), bool_decide (is_Some (m !! k)));
  add_law (d : D) (m : gmap K V) (k : K) (v : V) :
    represented d m -> Z.of_nat (size m) < capacity ->
    exists d', Add d k v = Some (d', bool_decide (m !! k = None))
      /\ represented d' (if m !! k is Some _ then m else <[k := v]> m);
  set_law (d : D) (m : gmap K V) (k : K) (v : V) :
    represented d m -> Z.of_nat (size m) < capacity ->
    exists d', SetValue d k v = Some (d', bool_decide (is_Some (m !! k)))
      /\ represented d' (<[k := v]> m);
  replace_law (d : D) (m : gmap K V) (k : K) (v : V) :
    represented d m ->
    exists d', ReplaceValue d k v = Some (d', bool_decide (is_Some (m !! k)))
      /\ represented d' (if m !! k is Some _ then <[k := v]> m else m);
  remove_law (d : D) (m : gmap K V) (k : K) :
    represented d m ->
    exists d', Remove d k = Some (d', bool_decide (is_Some (m !! k))) /\ represented d' (delete k m);
  count_law (d : D) (m : gmap K V) : represented d m -> Count d = Z.of_nat (size m)
}.

Section Client.
Context {K V D : Type} `{Countable K} {O : MapOps K V D}.

Inductive MapOp :=
  | OpClear (size : Z) | OpContains (k : K) | OpGet (k : K) | OpTryGet (k : K)
  | OpAdd (k : K) (v : V) | OpSet (k : K) (v : V) | OpReplace (k : K) (v : V) | OpRemove (k : K)
  | OpCount.

Inductive Answer := ADone | ABool (b : bool) | AValue (v : V) | AFound (v : V) (b : bool) | ACount (n : Z).

(** One operation on the implementation, and on the map. *)
Definition run_op (d : D) (op : MapOp) : option (D * Answer) :=
  match op with
  | OpClear size => d ← ClearWithSize size; Some (d, ADone)
  | OpContains k => b ← ContainsKey d k; Some (d, ABool b)
  | OpGet k => v ← GetValue d k; Some (d, AValue v)
  | OpTryGet k => '(v, b) ← TryGetValue d k; Some (d, AFound v b)
  | OpAdd k v => '(d, b) ← Add d k v; Some (d, ABool b)
  | OpSet k v => '(d, b) ← SetValue d k v; Some (d, ABool b)
  | OpReplace k v => '(d, b) ← ReplaceValue d k v; Some (d, ABool b)
  | OpRemove k => '(d, b) ← Remove d k; Some (d, ABool b)
  | OpCount => Some (d, ACount (Count d))
  end.

Definition spec_op (m : gmap K V) (op : MapOp) : gmap K V * Answer :=
  match op with
  | OpClear _ => (∅, ADone)
  | OpContains k => (m, ABool (bool_decide (is_Some (m !! k))))
  | OpGet k => (m, AValue (default NULL_value (m !! k)))
  | OpTryGet k => (m, AFound (default NULL_value (m !! k)) (bool_decide (is_Some (m !! k))))
  | OpAdd k v => (if m !! k is Some _ then m else <[k := v]> m, ABool (bool_decide (m !! k = None)))
  | OpSet k v => (<[k := v]> m, ABool (bool_decide (is_Some (m !! k))))
  | OpReplace k v => (if m !! k is Some _ then <[k := v]> m else m, ABool (bool_decide (is_Some (m !! k))))
  | OpRemove k => (delete k m, ABool (bool_decide (is_Some (m !! k))))
  | OpCount => (m, ACount (Z.of_nat (size m)))
  end.

Fixpoint run_ops (d : D) (ops : list MapOp) : option (D * list Answer) :=
  match ops with
  | [] => Some (d, [])
  | op :: ops => '(d, a) ← run_op d op; '(d, l) ← run_ops d ops; Some (d, a :: l)
  end.

Fixpoint spec_ops (m : gmap K V) (ops : list MapOp) : gmap K V * list Answer :=
  match ops with
  | [] => (m, [])
  | op :: ops => let '(m, a) := spec_op m op in let '(m, l) := spec_ops m ops in (m, a :: l)
  end.

Context {L : MapLaws K V D}.

Lemma spec_op_size (m : gmap K V) (op : MapOp) : (size (spec_op m op).1 <= S (size m))%nat.
Proof.
  assert (Hi : forall k v, (size (<[k := v]> m) <= S (size m))%nat).
  { intros k v. destruct (m !! k) eqn:E.
    - rewrite map_size_insert_Some by done. lia.
    - rewrite map_size_insert_None by done. lia. }
  assert (Hd : forall k, (size (delete k m) <= size m)%nat).
  { intros k. rewrite map_size_delete. destruct (m !! k); simpl; lia. }
  destruct op as [| | | |k v|k v|k v|k|]; simpl; try lia; try apply Hi.
  - rewrite map_size_empty. lia.
  - destruct (m !! k); [lia|apply Hi].
  - destruct (m !! k); [apply Hi|lia].
  - specialize (Hd k). lia.
Qed.

Lemma run_op_refines (d : D) (m : gmap K V) (op : MapOp) :
  represented d m -> Z.of_nat (size m) < capacity ->
  exists d', run_op d op = Some (d', (spec_op m op).2) /\ represented d' (spec_op m op).1.
Proof.
  intros Hr Hc. destruct op as [s|k|k|k|k v|k v|k v|k|]; simpl.
  - destruct (clear_law s) as (d' & -> & Hr'). by exists d'.
  - rewrite (contains_law d m) by done. by exists d.
  - rewrite (get_law d m) by done. by exists d.
  - rewrite (try_law d m) by done. by exists d.
  - destruct (add_law d m k v Hr Hc) as (d' & -> & Hr'). by exists d'.
  - destruct (set_law d m k v Hr Hc) as (d' & -> & Hr'). by exists d'.
  - destruct (replace_law d m k v Hr) as (d' & -> & Hr'). by exists d'.
  - destruct (remove_law d m k Hr) as (d' & -> & Hr'). by exists d'.
  - rewrite (count_law d m) by done. by exists d.
Qed.

Lemma run_ops_refines (d : D) (m : gmap K V) (ops : list MapOp) :
  represented d m -> Z.of_nat (size m) + zlen ops <= capacity ->
  exists d', run_ops d ops = Some (d', (spec_ops m ops).2) /\ represented d' (spec_ops m ops).1.
Proof.
  revert d m. induction ops as [|op ops IH]; intros d m Hr Hc; [by exists d|].
  rewrite zlen_cons in Hc. pose proof (zlen_nonneg ops).
  destruct (run_op_refines d m op Hr) as (d1 & E1 & Hr1); [lia|].
  pose proof (spec_op_size m op) as Hs. simpl. rewrite E1. cbn [option_bind mbind].
  destruct (spec_op m op) as [m1 a]. simpl in *.
  destruct (IH d1 m1 Hr1) as (d' & E & Hr'); [lia|]. rewrite E.
  destruct (spec_ops m1 ops) as [m' l]. by exists d'.
Qed.

End Client.

#[global] Arguments MapOp : clear implicits.
#[global] Arguments Answer : clear implicits.
