(* ===== verification/Dict.v ===== *)
(** * Dict: the chained hash tables

    [src/dict/int32dict.c], [include/smile/dict/int32dict.h] and the search
    macro of [include/smile/dict/shared.h].  A dictionary is an array of
    buckets, each the head of a linked list through the nodes of a second array
    of the same size; unused nodes form the free list.  The other dictionaries
    (stringdict.c, stringintdict.c, vardict.c, int32int32dict.c) are copies of
    this code for other keys and values, so keys, values and the hash are
    parameters here: [Int32Dict] keys hash to themselves.

    An access outside an array and the allocation of an array of negative size
    are [None].  The values of the array a resize leaves behind are cleared by
    the code; the array is garbage then, and the model drops it. *)

From S2P Require Import Prelude IntMath.

(** [NextPowerOfTwo32] of [include/smile/bittwiddling.h]. *)
Definition NextPowerOfTwo32 (v : Z) : Z :=
  let v := UInt_ 32 (v - 1) in
  let v := smear v 1 in
  let v := smear v 2 in
  let v := smear v 4 in
  let v := smear v 8 in
  let v := smear v 16 in
  UInt_ 32 (v + 1).

Section Dict.
Context {K V : Type} `{EqDecision K} (hash : K -> Z) (zero_key : K) (NULL : V).

Record DictNode := mkNode { next : Z; key : K; value : V }.

Record DictInt := mkDict {
  buckets : list Z; heap : list DictNode; mask : Z; firstFree : Z; count : Z
}.

Definition set_next (n : Z) (node : DictNode) : DictNode := mkNode n (key node) (value node).

(** [newHeap[i].next = next; .key = 0; .value = NULL] *)
Definition free_node (n : Z) : DictNode := mkNode n zero_key NULL.

(** [hash & mask]: the bucket a key belongs to. *)
Definition bucketIndex (k : K) (mask : Z) : Z := Z.land (hash k) mask.

(** ** Searching *)

(** The [while] loop of [SMILE_DICT_SEARCH]: the index of the node of [k]. *)
Fixpoint search_loop (fuel : nat) (h : list DictNode) (nodeIndex : Z) (k : K) : option (option Z) :=
  if nodeIndex >=? 0 then
    match fuel with
    | O => None
    | S fuel =>
        node ← zget h nodeIndex;
        if decide (key node = k) then Some (Some nodeIndex) else search_loop fuel h (next node) k
    end
  else Some None.

Definition SMILE_DICT_SEARCH (d : DictInt) (k : K) : option (option Z) :=
  nodeIndex ← zget (buckets d) (bucketIndex k (mask d));
  search_loop (length (heap d)) (heap d) nodeIndex k.

(** ** Resizing *)

(** The nodes from [i] to the last one, [newLen - 1], linked into a list. *)
Fixpoint free_loop (fuel : nat) (h : list DictNode) (i newLen : Z) : option (list DictNode) :=
  if i <? newLen - 1 then
    match fuel with
    | O => None
    | S fuel => h ← zset h i (free_node (i + 1)); free_loop fuel h (i + 1) newLen
    end
  else zset h i (free_node (-1)).

(** The inner loop of the copy: the nodes of one old bucket, from [nodeIndex]. *)
Fixpoint copy_chain (fuel : nat) (oldHeap : list DictNode) (nodeIndex newMask : Z)
  (newBuckets : list Z) (newHeap : list DictNode) (i : Z)
  : option (list Z * list DictNode * Z) :=
  if nodeIndex >=? 0 then
    match fuel with
    | O => None
    | S fuel =>
        old ← zget oldHeap nodeIndex;
        let newBucketIndex := bucketIndex (key old) newMask in
        head ← zget newBuckets newBucketIndex;
        newHeap ← zset newHeap i (mkNode head (key old) (value old));
        newBuckets ← zset newBuckets newBucketIndex i;
        copy_chain fuel oldHeap (next old) newMask newBuckets newHeap (i + 1)
    end
  else Some (newBuckets, newHeap, i).

(** The outer loop, over the old buckets from the first of [oldBuckets] on. *)
Fixpoint copy_buckets (oldBuckets : list Z) (oldHeap : list DictNode) (newMask : Z)
  (newBuckets : list Z) (newHeap : list DictNode) (i : Z)
  : option (list Z * list DictNode * Z) :=
  match oldBuckets with
  | [] => Some (newBuckets, newHeap, i)
  | b :: oldBuckets =>
      '(newBuckets, newHeap, i) ←
        copy_chain (length oldHeap) oldHeap b newMask newBuckets newHeap i;
      copy_buckets oldBuckets oldHeap newMask newBuckets newHeap i
  end.

Definition Int32DictInt_Resize (d : DictInt) (newLen : Z) : option DictInt :=
  if newLen <=? 0 then None
  else
    let newBuckets := repeat (-1) (Z.to_nat newLen) in
    let newHeap := repeat (free_node 0) (Z.to_nat newLen) in
    let newMask := newLen - 1 in
    '(newBuckets, newHeap, i) ← copy_buckets (buckets d) (heap d) newMask newBuckets newHeap 0;
    newHeap' ← free_loop (Z.to_nat newLen) newHeap i newLen;
    Some (mkDict newBuckets newHeap' newMask (if i <? newLen then i else -1) (count d)).

Definition Int32DictInt_Append (d : DictInt) (k : K) (v : V) : option (DictInt * Z) :=
  d ← (if firstFree d <? 0 then Int32DictInt_Resize d (wrapS 32 ((mask d + 1) * 2)) else Some d);
  let nodeIndex := firstFree d in
  let bucket := bucketIndex k (mask d) in
  node ← zget (heap d) nodeIndex;
  head ← zget (buckets d) bucket;
  heap' ← zset (heap d) nodeIndex (mkNode head k v);
  buckets' ← zset (buckets d) bucket nodeIndex;
  Some (mkDict buckets' heap' (mask d) (next node) (count d + 1), nodeIndex).

(** ** The operations of the header *)

Definition Int32Dict_ClearWithSize (newSize : Z) : option DictInt :=
  let newSize := if newSize <? 0x10 then 0x10 else newSize in
  let newSize := if newSize >? 0x1000000 then 0x1000000 else newSize in
  let newSize := NextPowerOfTwo32 newSize in
  heap ← free_loop (Z.to_nat newSize) (repeat (free_node 0) (Z.to_nat newSize)) 0 newSize;
  Some (mkDict (repeat (-1) (Z.to_nat newSize)) heap (newSize - 1) 0 0).

Definition Int32Dict_CreateWithSize (newSize : Z) : option DictInt := Int32Dict_ClearWithSize newSize.
Definition Int32Dict_Create : option DictInt := Int32Dict_CreateWithSize 16.
Definition Int32Dict_Clear : option DictInt := Int32Dict_ClearWithSize 16.

Definition Int32Dict_ContainsKey (d : DictInt) (k : K) : option bool :=
  found ← SMILE_DICT_SEARCH d k;
  Some match found with Some _ => true | None => false end.

Definition Int32Dict_Add (d : DictInt) (k : K) (v : V) : option (DictInt * bool) :=
  found ← SMILE_DICT_SEARCH d k;
  match found with
  | Some _ => Some (d, false)
  | None => '(d, _) ← Int32DictInt_Append d k v; Some (d, true)
  end.

Definition Int32Dict_Count (d : DictInt) : Z := count d.

(** [Some] and the value, or [None] when the key is not found; the functions
    below turn that into NULL. *)
Definition find_value (d : DictInt) (k : K) : option (option V) :=
  found ← SMILE_DICT_SEARCH d k;
  match found with
  | Some nodeIndex => node ← zget (heap d) nodeIndex; Some (Some (value node))
  | None => Some None
  end.

Definition Int32Dict_GetValue (d : DictInt) (k : K) : option V :=
  found ← find_value d k;
  Some (default NULL found).

Definition Int32Dict_TryGetValue (d : DictInt) (k : K) : option (V * bool) :=
  found ← find_value d k;
  Some match found with Some v => (v, true) | None => (NULL, false) end.

(** [node->value = value] *)
Definition store_value (d : DictInt) (nodeIndex : Z) (v : V) : option DictInt :=
  node ← zget (heap d) nodeIndex;
  heap' ← zset (heap d) nodeIndex (mkNode (next node) (key node) v);
  Some (mkDict (buckets d) heap' (mask d) (firstFree d) (count d)).

Definition Int32Dict_ReplaceValue (d : DictInt) (k : K) (v : V) : option (DictInt * bool) :=
  found ← SMILE_DICT_SEARCH d k;
  match found with
  | Some nodeIndex => d ← store_value d nodeIndex v; Some (d, true)
  | None => Some (d, false)
  end.

Definition Int32Dict_SetValue (d : DictInt) (k : K) (v : V) : option (DictInt * bool) :=
  found ← SMILE_DICT_SEARCH d k;
  match found with
  | Some nodeIndex => d ← store_value d nodeIndex v; Some (d, true)
  | None => '(d, _) ← Int32DictInt_Append d k v; Some (d, false)
  end.

(** ** Removal *)

(** The body of the [if] when the key is found. *)
Definition remove_node (d : DictInt) (k : K) (prevIndex nodeIndex : Z) : option DictInt :=
  node ← zget (heap d) nodeIndex;
  '(heap', buckets') ←
    (if prevIndex >=? 0 then
       prev ← zget (heap d) prevIndex;
       h ← zset (heap d) prevIndex (set_next (next node) prev);
       Some (h, buckets d)
     else
       b ← zset (buckets d) (bucketIndex k (mask d)) (next node);
       Some (heap d, b));
  heap' ← zset heap' nodeIndex (free_node (firstFree d));
  let count' := count d - 1 in
  let d' := mkDict buckets' heap' (mask d) nodeIndex count' in
  if (count' <=? Z.shiftr (mask d + 1) 2) && (mask d + 1 >? 16)
  then Int32DictInt_Resize d' (Z.shiftr (mask d + 1) 1)
  else Some d'.

Fixpoint remove_loop (fuel : nat) (d : DictInt) (k : K) (prevIndex nodeIndex : Z)
  : option (DictInt * bool) :=
  if nodeIndex >=? 0 then
    match fuel with
    | O => None
    | S fuel =>
        node ← zget (heap d) nodeIndex;
        if decide (key node = k)
        then d ← remove_node d k prevIndex nodeIndex; Some (d, true)
        else remove_loop fuel d k nodeIndex (next node)
    end
  else Some (d, false).

Definition Int32Dict_Remove (d : DictInt) (k : K) : option (DictInt * bool) :=
  nodeIndex ← zget (buckets d) (bucketIndex k (mask d));
  remove_loop (length (heap d)) d k (-1) nodeIndex.

(** ** Enumeration *)

(** One bucket's nodes, written one after the other into an array with room for
    [room] more. *)
Fixpoint collect_chain (fuel : nat) (h : list DictNode) (nodeIndex room : Z)
  : option (list DictNode * Z) :=
  if nodeIndex >=? 0 then
    match fuel with
    | O => None
    | S fuel =>
        node ← zget h nodeIndex;
        if room <=? 0 then None
        else
          '(rest, room) ← collect_chain fuel h (next node) (room - 1);
          Some (node :: rest, room)
    end
  else Some ([], room).

Fixpoint collect_buckets (bs : list Z) (h : list DictNode) (room : Z) : option (list DictNode * Z) :=
  match bs with
  | [] => Some ([], room)
  | b :: bs =>
      '(nodes, room) ← collect_chain (length h) h b room;
      '(rest, room) ← collect_buckets bs h room;
      Some (nodes ++ rest, room)
  end.

(** The result arrays have [count] elements; those not written keep their zeros. *)
Definition collect (d : DictInt) : option (list DictNode) :=
  '(nodes, room) ← collect_buckets (buckets d) (heap d) (count d);
  Some (nodes ++ repeat (free_node 0) (Z.to_nat room)).

Definition Int32Dict_GetAll (d : DictInt) : option (list (K * V)) :=
  nodes ← collect d; Some (map (fun n => (key n, value n)) nodes).
Definition Int32Dict_GetKeys (d : DictInt) : option (list K) := nodes ← collect d; Some (map key nodes).
Definition Int32Dict_GetValues (d : DictInt) : option (list V) := nodes ← collect d; Some (map value nodes).

(** The first node of the first bucket that has one. *)
Fixpoint first_pair (bs : list Z) (h : list DictNode) : option (K * V) :=
  match bs with
  | [] => Some (zero_key, NULL)
  | b :: bs => if b >=? 0 then node ← zget h b; Some (key node, value node) else first_pair bs h
  end.

Definition Int32Dict_GetFirst (d : DictInt) : option (K * V) := first_pair (buckets d) (heap d).

(** ** Cloning *)

(** Copy one chain of nodes into a new array, passing each value through the cloner. *)
Fixpoint clone_chain (fuel : nat) (valueCloner : K -> V -> V) (oldHeap : list DictNode)
  (nodeIndex : Z) (newHeap : list DictNode) : option (list DictNode) :=
  if nodeIndex >=? 0 then
    match fuel with
    | O => None
    | S fuel =>
        old ← zget oldHeap nodeIndex;
        newHeap ← zset newHeap nodeIndex (mkNode (next old) (key old) (valueCloner (key old) (value old)));
        clone_chain fuel valueCloner oldHeap (next old) newHeap
    end
  else Some newHeap.

Fixpoint clone_buckets (valueCloner : K -> V -> V) (oldHeap : list DictNode) (bs : list Z)
  (newHeap : list DictNode) : option (list DictNode) :=
  match bs with
  | [] => Some newHeap
  | b :: bs =>
      newHeap ← clone_chain (length oldHeap) valueCloner oldHeap b newHeap;
      clone_buckets valueCloner oldHeap bs newHeap
  end.

(** Without a cloner the values are copied as they are. *)
Definition Int32Dict_Clone (d : DictInt) (valueCloner : option (K -> V -> V)) : option DictInt :=
  let cloner := default (fun _ v => v) valueCloner in
  newHeap ← clone_buckets cloner (heap d) (buckets d) (repeat (free_node 0) (Z.to_nat (mask d + 1)));
  newHeap ← clone_chain (length (heap d)) (fun _ v => v) (heap d) (firstFree d) newHeap;
  Some (mkDict (buckets d) newHeap (mask d) (firstFree d) (count d)).

End Dict.

#[global] Arguments DictNode : clear implicits.
#[global] Arguments DictInt : clear implicits.
