(* ===== verification/DictProps.v ===== *)
(** * DictProps: the hash tables are finite maps

    The invariant of a dictionary ([dict_wf]): the chains of the buckets and the
    free list partition the nodes, every key is in the chain of its hash, keys
    are unique, the size is a power of two.  [represents] relates a dictionary to
    the finite map of its entries; every operation of [Dict] refines the
    operation on maps, terminates and stays inside its arrays. *)

From S2P Require Import Prelude IntMath IntBits FiniteMap Dict.

Section DictProps.
Context {K V : Type} `{Countable K} (hash : K -> Z) (zero_key : K) (NULL : V).

Notation Dict := (DictInt K V).
Notation Node := (DictNode K V).

(** ** Chains *)

(** An entry: the index of its node, its key and its value. *)
Notation Entry := (Z * (K * V))%type.

Fixpoint chain (h : list Node) (i : Z) (l : list Entry) : Prop :=
  match l with
  | [] => i < 0
  | (j, (k, v)) :: l => i = j /\ exists nx, zget h j = Some (mkNode nx k v) /\ chain h nx l
  end.

Lemma chain_get (h : list Node) (i : Z) (l : list Entry) (e : Entry) :
  chain h i l -> e ∈ l -> exists nx, zget h e.1 = Some (mkNode nx e.2.1 e.2.2).
Proof.
  revert i. induction l as [|[j [k v]] l IH]; intros i Hc He; [by apply elem_of_nil in He|].
  destruct Hc as (_ & nx & Hj & Hc). apply elem_of_cons in He as [->|He]; [by exists nx|]. by eapply IH.
Qed.

(** Writing a node outside a chain keeps the chain. *)
Lemma chain_frame (h h' : list Node) (i j : Z) (n : Node) (l : list Entry) :
  zset h j n = Some h' -> j ∉ l.*1 -> chain h i l -> chain h' i l.
Proof.
  intros Hs. revert i. induction l as [|[i' [k v]] l IH]; intros i Hj Hc; [done|].
  rewrite fmap_cons in Hj. apply not_elem_of_cons in Hj as [Hne Hj].
  destruct Hc as (-> & nx & Hg & Hc). split; [done|]. exists nx.
  rewrite (zset_get_ne _ _ _ _ _ Hs) by done. eauto.
Qed.

(** Unlinking the node after [p]. *)
Lemma chain_unlink (h h' : list Node) (i p j nx : Z) (pe je : K * V) (np : Node) pre post :
  NoDup (pre ++ (p, pe) :: (j, je) :: post).*1 ->
  chain h i (pre ++ (p, pe) :: (j, je) :: post) ->
  zget h p = Some np -> zget h j = Some (mkNode nx je.1 je.2) ->
  zset h p (set_next nx np) = Some h' -> chain h' i (pre ++ (p, pe) :: post).
Proof.
  intros Hnd Hc Hp Hj Hs. revert i Hc Hnd. induction pre as [|[i' [k v]] pre IH]; intros i Hc Hnd.
  - destruct pe as [kp vp], je as [kj vj]. simpl in *.
    destruct Hc as (-> & nx1 & Hp' & -> & nx2 & Hj' & Hc). simplify_eq.
    split; [done|]. exists nx. split; [by eapply zset_get_eq|].
    eapply chain_frame; [done| |done]. apply NoDup_cons in Hnd as [Hnd _]. set_solver.
  - simpl in *. destruct Hc as (-> & nx1 & Hg & Hc). apply NoDup_cons in Hnd as [Hni Hnd].
    split; [done|]. exists nx1. split; [|by apply IH].
    rewrite (zset_get_ne _ _ _ _ _ Hs); [done|]. rewrite fmap_app in Hni. set_solver.
Qed.

(** Overwriting the value of a node. *)
Definition update_entry (j : Z) (v : V) (e : Entry) : Entry :=
  if decide (e.1 = j) then (e.1, (e.2.1, v)) else e.

Lemma chain_update (h h' : list Node) (i j : Z) (n : Node) (v : V) (l : list Entry) :
  zget h j = Some n -> zset h j (mkNode (next n) (key n) v) = Some h' ->
  chain h i l -> chain h' i (update_entry j v <$> l).
Proof.
  intros Hj Hs. revert i. induction l as [|[i' [k w]] l IH]; intros i Hc; [done|].
  destruct Hc as (-> & nx & Hg & Hc). unfold update_entry at 1. simpl.
  destruct (decide (i' = j)) as [->|Hne]; simpl; (split; [done|]); exists nx.
  - simplify_eq. split; [by eapply zset_get_eq|]. by apply IH.
  - rewrite (zset_get_ne _ _ _ _ _ Hs) by done. split; [done|]. by apply IH.
Qed.

Lemma key_in (l : list Entry) (e : Entry) : e ∈ l -> e.2.1 ∈ l.*2.*1.
Proof. intros He. by apply list_elem_of_fmap_2, list_elem_of_fmap_2. Qed.

Lemma search_loop_found (h : list Node) (fuel : nat) (i : Z) (l : list Entry) (e : Entry) :
  chain h i l -> (length l <= fuel)%nat -> NoDup l.*2.*1 -> e ∈ l ->
  search_loop fuel h i e.2.1 = Some (Some e.1).
Proof.
  revert i fuel. induction l as [|[j [k v]] l IH]; intros i fuel Hc Hf Hnd He;
    [by apply elem_of_nil in He|].
  destruct Hc as (-> & nx & Hg & Hc). destruct fuel as [|fuel]; [simpl in Hf; lia|].
  simpl. apply zget_Some in Hg as Hj. rewrite Z.geb_leb. destruct (Z.leb_spec 0 j); [|lia].
  rewrite Hg. simpl. simpl in Hnd. apply NoDup_cons in Hnd as [Hni Hnd].
  apply elem_of_cons in He as [->|He]; simpl; [by rewrite decide_True|].
  rewrite decide_False; [|intros ->; apply Hni; by apply key_in].
  apply IH; [done|simpl in Hf; lia|done|done].
Qed.

Lemma search_loop_missing (h : list Node) (fuel : nat) (i : Z) (l : list Entry) (k : K) :
  chain h i l -> (length l <= fuel)%nat -> k ∉ l.*2.*1 -> search_loop fuel h i k = Some None.
Proof.
  revert i fuel. induction l as [|[j [k' v]] l IH]; intros i fuel Hc Hf Hk.
  - simpl in Hc. destruct fuel; simpl; rewrite Z.geb_leb; (destruct (Z.leb_spec 0 i); [lia|done]).
  - destruct Hc as (-> & nx & Hg & Hc). destruct fuel as [|fuel]; [simpl in Hf; lia|].
    simpl. apply zget_Some in Hg as Hj. rewrite Z.geb_leb. destruct (Z.leb_spec 0 j); [|lia].
    rewrite Hg. simpl. simpl in Hk. apply not_elem_of_cons in Hk as [Hne Hk].
    rewrite decide_False by done. apply IH; [done|simpl in Hf; lia|done].
Qed.

(** ** The invariant *)

(** Chains of a whole table: [cs] are the chains of the buckets, in a table of
    [n] buckets, and hold exactly the keys that hash to them. *)
Record table (bs : list Z) (h : list Node) (n : Z) (cs : list (list Entry)) : Prop := {
  table_buckets : zlen bs = n;
  table_heap : zlen h = n;
  table_chains : Forall2 (chain h) bs cs;
  table_hash : forall b c e, cs !! b = Some c -> e ∈ c ->
    bucketIndex hash e.2.1 (n - 1) = Z.of_nat b
}.

Definition table_size (n : Z) : Prop := exists s, 4 <= s <= 30 /\ n = 2 ^ s.

Record dict_wf (d : Dict) (cs : list (list Entry)) (free : list Entry) : Prop := {
  wf_size : table_size (mask d + 1);
  wf_table : table (buckets d) (heap d) (mask d + 1) cs;
  wf_free : chain (heap d) (firstFree d) free;
  wf_nodes : (concat cs).*1 ++ free.*1 ≡ₚ seqZ 0 (mask d + 1);
  wf_count : count d = zlen (concat cs);
  wf_keys : NoDup (concat cs).*2.*1
}.

(** The dictionary holds exactly the pairs of the map. *)
Definition represents (d : Dict) (m : gmap K V) : Prop :=
  exists cs free, dict_wf d cs free /\ m = list_to_map (concat cs).*2.

Lemma table_size_pos (n : Z) : table_size n -> 16 <= n <= 2 ^ 30.
Proof.
  intros (s & Hs & ->). split.
  - change 16 with (2 ^ 4). apply Z.pow_le_mono_r; lia.
  - apply Z.pow_le_mono_r; lia.
Qed.

Lemma bucketIndex_range (k : K) (n : Z) : table_size n -> 0 <= bucketIndex hash k (n - 1) < n.
Proof.
  intros (s & Hs & ->). unfold bucketIndex. rewrite Z.sub_1_r, <- Z.ones_equiv, Z.land_ones by lia.
  apply Z.mod_pos_bound, pow2_pos. lia.
Qed.

Lemma concat_insert {A} (cs : list (list A)) (b : nat) (c c' : list A) :
  cs !! b = Some c -> exists rest, concat cs ≡ₚ c ++ rest /\ concat (<[b := c']> cs) ≡ₚ c' ++ rest.
Proof.
  intros Hb. exists (concat (take b cs) ++ concat (drop (S b) cs)).
  rewrite <- (take_drop_middle cs b c Hb) at 1.
  rewrite insert_take_drop by (by eapply lookup_lt_Some).
  rewrite !concat_app. simpl. split; rewrite !(assoc (++)); f_equiv; apply Permutation_app_comm.
Qed.

Lemma elem_of_concat {A} (cs : list (list A)) (b : nat) (c : list A) (x : A) :
  cs !! b = Some c -> x ∈ c -> x ∈ concat cs.
Proof. intros Hb Hx. apply list_elem_of_In, in_concat. exists c. split; apply list_elem_of_In; [by eapply list_elem_of_lookup_2|done]. Qed.

(** The bucket of a key. *)
Lemma table_bucket (bs : list Z) (h : list Node) (n : Z) cs (k : K) :
  table bs h n cs -> table_size n ->
  exists i c, zget bs (bucketIndex hash k (n - 1)) = Some i
    /\ cs !! Z.to_nat (bucketIndex hash k (n - 1)) = Some c /\ chain h i c.
Proof.
  intros Ht Hn. pose proof (bucketIndex_range k n Hn) as Hr.
  destruct (zget_is_Some bs (bucketIndex hash k (n - 1))) as [_ Hg].
  destruct Hg as [i Hi]; [by rewrite (table_buckets _ _ _ _ Ht)|].
  apply zget_Some in Hi as Hi'. destruct Hi' as [_ Hi'].
  destruct (Forall2_lookup_l _ _ _ _ _ (table_chains _ _ _ _ Ht) Hi') as (c & Hc & Hch).
  by exists i, c.
Qed.

(** An entry is in the chain of its bucket. *)
Lemma table_entry (bs : list Z) (h : list Node) (n : Z) cs (e : Entry) c :
  table bs h n cs -> table_size n -> e ∈ concat cs ->
  cs !! Z.to_nat (bucketIndex hash e.2.1 (n - 1)) = Some c -> e ∈ c.
Proof.
  intros Ht Hn He Hc. apply list_elem_of_In, in_concat in He as (c' & Hc' & He).
  apply list_elem_of_In in Hc', He. apply list_elem_of_lookup_1 in Hc' as [b Hb].
  rewrite (table_hash _ _ _ _ Ht b c' e Hb He), Nat2Z.id in Hc. congruence.
Qed.

(** ** Linking a node in front of a bucket *)

Lemma chains_frame (h h' : list Node) (bs : list Z) (cs : list (list Entry)) (j : Z) (n : Node) :
  zset h j n = Some h' -> j ∉ (concat cs).*1 -> Forall2 (chain h) bs cs -> Forall2 (chain h') bs cs.
Proof.
  intros Hs Hj Hf. apply Forall2_lookup. intros b. rewrite Forall2_lookup in Hf.
  specialize (Hf b). destruct (cs !! b) as [c|] eqn:Ec, (bs !! b); inversion Hf; subst; constructor.
  eapply chain_frame; [done| |done]. intros Hin. apply Hj.
  apply list_elem_of_fmap in Hin as (e & -> & He). apply list_elem_of_fmap_2.
  by eapply elem_of_concat.
Qed.

Lemma table_push (bs bs' : list Z) (h h' : list Node) (n head j : Z) cs (k : K) (v : V) :
  table bs h n cs -> table_size n -> j ∉ (concat cs).*1 ->
  zget bs (bucketIndex hash k (n - 1)) = Some head ->
  zset h j (mkNode head k v) = Some h' ->
  zset bs (bucketIndex hash k (n - 1)) j = Some bs' ->
  exists cs', table bs' h' n cs' /\ concat cs' ≡ₚ (j, (k, v)) :: concat cs.
Proof.
  intros Ht Hn Hj Hhead Hh Hb. set (b := bucketIndex hash k (n - 1)) in *.
  destruct (table_bucket _ _ _ _ k Ht Hn) as (i & c & Hi & Hc & Hch). fold b in Hi, Hc.
  simplify_eq. destruct (concat_insert cs (Z.to_nat b) c ((j, (k, v)) :: c) Hc) as (rest & E1 & E2).
  exists (<[Z.to_nat b := (j, (k, v)) :: c]> cs). split; [|by rewrite E2, E1].
  apply zset_Some in Hb as Hb'. destruct Hb' as [Hr ->].
  split.
  - unfold zlen. rewrite length_insert. apply (table_buckets _ _ _ _ Ht).
  - unfold zlen. rewrite (zset_length _ _ _ _ Hh). apply (table_heap _ _ _ _ Ht).
  - apply Forall2_insert; [by eapply chains_frame; [..|apply Ht]|].
    simpl. split; [done|]. exists head. split; [by eapply zset_get_eq|].
    eapply chain_frame; [done| |done]. intros Hin. apply Hj.
    apply list_elem_of_fmap in Hin as (e & -> & He). apply list_elem_of_fmap_2.
    by eapply elem_of_concat.
  - intros b' c' e Hb' He. apply list_lookup_insert_Some in Hb' as [(<- & <- & _)|(Hne & Hb')].
    + apply elem_of_cons in He as [->|He]; [by rewrite Z2Nat.id by lia|].
      by eapply (table_hash _ _ _ _ Ht).
    + by eapply (table_hash _ _ _ _ Ht).
Qed.

(** ** Lookup *)

Lemma represents_lookup (l : list Entry) (k : K) (v : V) :
  NoDup l.*2.*1 -> (list_to_map l.*2 : gmap K V) !! k = Some v <-> exists j, (j, (k, v)) ∈ l.
Proof.
  intros Hnd. rewrite <- elem_of_list_to_map by done. rewrite list_elem_of_fmap. split.
  - intros ([j e] & He & Hin). simpl in He. subst. by exists j.
  - intros [j Hin]. by exists (j, (k, v)).
Qed.

Lemma wf_length (d : Dict) cs free : dict_wf d cs free -> zlen (concat cs) + zlen free = mask d + 1.
Proof.
  intros Hwf. pose proof (table_size_pos _ (wf_size _ _ _ Hwf)).
  pose proof (Permutation_length (wf_nodes _ _ _ Hwf)) as Hl.
  rewrite length_app, !length_fmap, length_seqZ in Hl. unfold zlen. lia.
Qed.

Lemma concat_length {A} (cs : list (list A)) (b : nat) (c : list A) :
  cs !! b = Some c -> (length c <= length (concat cs))%nat.
Proof.
  intros Hb. destruct (concat_insert cs b c [] Hb) as (rest & E & _).
  rewrite E, length_app. lia.
Qed.

Lemma sublist_keys (cs : list (list Entry)) (b : nat) c :
  cs !! b = Some c -> NoDup (concat cs).*2.*1 -> NoDup c.*2.*1.
Proof.
  intros Hb Hnd. destruct (concat_insert cs b c [] Hb) as (rest & E & _).
  rewrite E, !fmap_app in Hnd. by apply NoDup_app in Hnd as [Hnd _].
Qed.

(** The search finds the node of a key exactly when the map has it. *)
Lemma search_spec (d : Dict) cs free (k : K) :
  dict_wf d cs free ->
  match (list_to_map (concat cs).*2 : gmap K V) !! k with
  | Some v => exists j, SMILE_DICT_SEARCH hash d k = Some (Some j) /\ (j, (k, v)) ∈ concat cs
  | None => SMILE_DICT_SEARCH hash d k = Some None
  end.
Proof.
  intros Hwf. pose proof (wf_keys _ _ _ Hwf) as Hnd. pose proof (wf_size _ _ _ Hwf) as Hn.
  destruct (table_bucket _ _ _ _ k (wf_table _ _ _ Hwf) Hn) as (i & c & Hi & Hc & Hch).
  rewrite Z.add_simpl_r in Hi, Hc.
  assert (Hlen : (length c <= length (heap d))%nat).
  { pose proof (concat_length _ _ _ Hc). pose proof (wf_length _ _ _ Hwf).
    pose proof (table_heap _ _ _ _ (wf_table _ _ _ Hwf)). unfold zlen in *. lia. }
  unfold SMILE_DICT_SEARCH. rewrite Hi. cbn [option_bind mbind].
  destruct (list_to_map _ !! k) as [v|] eqn:Ek.
  - apply represents_lookup in Ek as [j Hj]; [|done]. exists j. split; [|done].
    apply (search_loop_found (heap d) _ i c (j, (k, v))); [done..|by eapply sublist_keys|].
    eapply (table_entry _ _ _ _ (j, (k, v))); [apply Hwf|done|done|]. simpl. by rewrite Z.add_simpl_r.
  - apply (search_loop_missing _ _ _ c); [done..|]. intros Hin.
    apply not_elem_of_list_to_map in Ek. apply Ek.
    apply list_elem_of_fmap in Hin as (p & -> & Hp). apply list_elem_of_fmap in Hp as (e & -> & He).
    apply key_in. by eapply elem_of_concat.
Qed.

(** ** Building tables *)

Definition free_entries (i n : Z) : list Entry := (fun j => (j, (zero_key, NULL))) <$> seqZ i (n - i).

Lemma free_entries_indices (i n : Z) : (free_entries i n).*1 = seqZ i (n - i).
Proof. unfold free_entries. rewrite <- list_fmap_compose. by apply list_fmap_id. Qed.

Lemma free_loop_spec (fuel : nat) (h : list Node) (i n : Z) :
  0 <= i < n -> zlen h = n -> n - i <= Z.of_nat fuel ->
  exists h', free_loop zero_key NULL fuel h i n = Some h' /\ zlen h' = n
    /\ (forall j, j < i -> zget h' j = zget h j) /\ chain h' i (free_entries i n).
Proof.
  revert h i. induction fuel as [|fuel IH]; intros h i Hi Hl Hf; [lia|]. simpl.
  assert (Hset : forall x, exists h', zset h i x = Some h')
    by (intros x; destruct (zset_is_Some h i x) as [_ [h' Hh]]; [lia|by exists h']).
  unfold free_entries. rewrite seqZ_cons by lia. rewrite fmap_cons.
  replace (Z.pred (n - i)) with (n - Z.succ i) by lia.
  destruct (Z.ltb_spec i (n - 1)).
  - destruct (Hset (free_node zero_key NULL (i + 1))) as [h1 Hh1]. rewrite Hh1. cbn [option_bind mbind].
    destruct (IH h1 (i + 1)) as (h' & -> & Hl' & Hlow & Hch);
      [lia|by rewrite (zset_zlen _ _ _ _ Hh1)|lia|].
    exists h'. split; [done|]. split; [done|]. split.
    + intros j Hj. rewrite Hlow by lia. apply (zset_get_ne _ _ _ _ _ Hh1). lia.
    + split; [done|]. exists (i + 1). split; [|done].
      rewrite Hlow by lia. by apply (zset_get_eq _ _ _ _ Hh1).
  - destruct (Hset (free_node zero_key NULL (-1))) as [h1 Hh1]. exists h1. split; [done|].
    split; [by rewrite (zset_zlen _ _ _ _ Hh1)|]. split.
    + intros j Hj. apply (zset_get_ne _ _ _ _ _ Hh1). lia.
    + split; [done|]. exists (-1). split; [by apply (zset_get_eq _ _ _ _ Hh1)|].
      rewrite seqZ_nil by lia. simpl. lia.
Qed.

(** A chain only depends on the nodes it goes through. *)
Lemma chain_same (h h' : list Node) (i : Z) (l : list Entry) :
  (forall e, e ∈ l -> zget h' e.1 = zget h e.1) -> chain h i l -> chain h' i l.
Proof.
  revert i. induction l as [|[j [k v]] l IH]; intros i Hg Hc; [done|].
  destruct Hc as (-> & nx & Hj & Hc). split; [done|]. exists nx. split.
  - rewrite <- Hj. apply (Hg (j, (k, v))). apply elem_of_cons. by left.
  - apply IH; [|done]. intros e He. apply Hg. apply elem_of_cons. by right.
Qed.

Lemma table_empty (n : Z) (h : list Node) :
  0 <= n -> zlen h = n -> table (repeat (-1) (Z.to_nat n)) h n (repeat [] (Z.to_nat n)).
Proof.
  intros Hn Hl. split.
  - unfold zlen. rewrite repeat_length. lia.
  - done.
  - generalize (Z.to_nat n). intros k. induction k; constructor; [simpl; lia|done].
  - intros b c e Hb He. apply list_elem_of_lookup_2, list_elem_of_In, repeat_spec in Hb. subst c.
    by apply elem_of_nil in He.
Qed.

Lemma concat_repeat_nil {A} (n : nat) : concat (repeat (@nil A) n) = [].
Proof. induction n; done. Qed.

(** Copying one old chain into the new table; [i] nodes are used. *)
Lemma copy_chain_spec (fuel : nat) (oldHeap : list Node) (oi n : Z) (c : list Entry)
  (bs : list Z) (h : list Node) (i : Z) cs :
  chain oldHeap oi c -> (length c <= fuel)%nat -> table_size n ->
  table bs h n cs -> (concat cs).*1 ≡ₚ seqZ 0 i -> 0 <= i -> i + zlen c <= n ->
  exists bs' h' cs',
    copy_chain hash fuel oldHeap oi (n - 1) bs h i = Some (bs', h', i + zlen c)
    /\ table bs' h' n cs' /\ (concat cs').*1 ≡ₚ seqZ 0 (i + zlen c)
    /\ (concat cs').*2 ≡ₚ c.*2 ++ (concat cs).*2.
Proof.
  revert oi fuel bs h i cs. induction c as [|[j [k v]] c IH];
    intros oi fuel bs h i cs Hc Hf Hn Ht Hi Hi0 Hroom.
  - exists bs, h, cs. rewrite zlen_nil, Z.add_0_r. simpl in Hc.
    split; [|done]. destruct fuel; simpl; rewrite Z.geb_leb; (destruct (Z.leb_spec 0 oi); [lia|done]).
  - destruct Hc as (-> & nx & Hg & Hc). destruct fuel as [|fuel]; [simpl in Hf; lia|].
    rewrite zlen_cons in *. pose proof (zlen_nonneg c).
    destruct (table_bucket _ _ _ _ k Ht Hn) as (head & c0 & Hhead & _ & _).
    destruct (zset_is_Some h i (mkNode head k v)) as [_ [h1 Hh1]];
      [rewrite (table_heap _ _ _ _ Ht); lia|].
    destruct (zset_is_Some bs (bucketIndex hash k (n - 1)) i) as [_ [bs1 Hb1]];
      [apply zget_is_Some; by rewrite Hhead|].
    destruct (table_push bs bs1 h h1 n head i cs k v) as (cs1 & Ht1 & E1); try done.
    { rewrite Hi, elem_of_seqZ. lia. }
    destruct (IH nx fuel bs1 h1 (i + 1) cs1) as (bs' & h' & cs' & E & Ht' & Hi' & Hp); try done.
    + simpl in Hf. lia.
    + rewrite E1, fmap_cons, Hi. simpl.
      replace (i + 1) with (Z.of_nat (S (Z.to_nat i))) by lia. rewrite seqZ_S.
      replace (Z.of_nat (Z.to_nat i)) with i by lia. rewrite Z.add_0_l. by rewrite Permutation_cons_append.
    + lia.
    + lia.
    + exists bs', h', cs'. replace (i + (zlen c + 1)) with (i + 1 + zlen c) by lia.
      split; [|split; [done|]; split; [done|]].
      * simpl. apply zget_Some in Hg as Hj. rewrite Z.geb_leb. destruct (Z.leb_spec 0 j); [|lia].
        rewrite Hg. cbn [option_bind mbind key next value]. rewrite Hhead. cbn [option_bind mbind].
        rewrite Hh1. cbn [option_bind mbind]. rewrite Hb1. cbn [option_bind mbind]. done.
      * rewrite Hp, E1. simpl. by rewrite Permutation_middle.
Qed.

Lemma copy_buckets_spec (oldHeap : list Node) (n : Z) (obs : list Z) (ocs : list (list Entry))
  (bs : list Z) (h : list Node) (i : Z) cs :
  Forall2 (chain oldHeap) obs ocs -> Forall (fun c => (length c <= length oldHeap)%nat) ocs ->
  table_size n -> table bs h n cs -> (concat cs).*1 ≡ₚ seqZ 0 i -> 0 <= i ->
  i + zlen (concat ocs) <= n ->
  exists bs' h' cs',
    copy_buckets hash obs oldHeap (n - 1) bs h i = Some (bs', h', i + zlen (concat ocs))
    /\ table bs' h' n cs' /\ (concat cs').*1 ≡ₚ seqZ 0 (i + zlen (concat ocs))
    /\ (concat cs').*2 ≡ₚ (concat ocs).*2 ++ (concat cs).*2.
Proof.
  intros Hf. revert bs h i cs. induction Hf as [|ob oc obs ocs Hc Hf IH];
    intros bs h i cs Hlen Hn Ht Hi Hi0 Hroom.
  - exists bs, h, cs. simpl. rewrite zlen_nil, Z.add_0_r. done.
  - apply Forall_cons in Hlen as [Hl Hlen]. simpl in *. rewrite zlen_app in *.
    pose proof (zlen_nonneg (concat ocs)).
    destruct (copy_chain_spec (length oldHeap) oldHeap ob n oc bs h i cs)
      as (bs1 & h1 & cs1 & E1 & Ht1 & Hi1 & Hp1); try done; [lia|].
    rewrite E1. cbn [option_bind mbind]. pose proof (zlen_nonneg oc).
    destruct (IH bs1 h1 (i + zlen oc) cs1) as (bs' & h' & cs' & E & Ht' & Hi' & Hp'); try done; [lia..|].
    exists bs', h', cs'. rewrite Z.add_assoc. split; [done|]. split; [done|]. split; [done|].
    rewrite Hp', Hp1, fmap_app, !(assoc (++)). f_equiv. apply Permutation_app_comm.
Qed.

(** A table whose nodes below [i] are in use keeps its chains when the others are
    linked into the free list. *)
Lemma table_below (bs : list Z) (h h' : list Node) (n i : Z) cs :
  table bs h n cs -> (concat cs).*1 ≡ₚ seqZ 0 i -> zlen h' = n ->
  (forall j, j < i -> zget h' j = zget h j) -> table bs h' n cs.
Proof.
  intros Ht Hi Hl Hlow. split; [apply Ht|done| |apply Ht].
  pose proof (table_chains _ _ _ _ Ht) as Hf. apply Forall2_lookup. intros b.
  rewrite Forall2_lookup in Hf. specialize (Hf b).
  destruct (cs !! b) as [c|] eqn:Ec, (bs !! b); inversion Hf; subst; constructor.
  eapply chain_same; [|done]. intros e He. apply Hlow.
  assert (Hin : e.1 ∈ (concat cs).*1) by (apply list_elem_of_fmap_2; by eapply elem_of_concat).
  rewrite Hi, elem_of_seqZ in Hin. lia.
Qed.

Lemma Resize_spec (d : Dict) (n : Z) (cs : list (list Entry)) :
  Forall2 (chain (heap d)) (buckets d) cs ->
  Forall (fun c => (length c <= length (heap d))%nat) cs ->
  table_size n -> zlen (concat cs) < n -> count d = zlen (concat cs) -> NoDup (concat cs).*2.*1 ->
  exists d' cs' free',
    Int32DictInt_Resize hash zero_key NULL d n = Some d' /\ dict_wf d' cs' free'
    /\ mask d' + 1 = n /\ free' <> [] /\ (concat cs').*2 ≡ₚ (concat cs).*2.
Proof.
  intros Hch Hlen Hn Hroom Hcount Hnd. pose proof (table_size_pos n Hn) as Hpos.
  pose proof (zlen_nonneg (concat cs)). unfold Int32DictInt_Resize.
  destruct (Z.leb_spec n 0); [lia|].
  set (h0 := repeat (free_node zero_key NULL 0) (Z.to_nat n)).
  assert (Hl0 : zlen h0 = n) by (unfold h0, zlen; rewrite repeat_length; lia).
  pose proof (table_empty n h0 ltac:(lia) Hl0) as Ht0.
  destruct (copy_buckets_spec (heap d) n (buckets d) cs _ h0 0 _ Hch Hlen Hn Ht0)
    as (bs & h & cs' & E & Ht & Hi & Hp); [by rewrite concat_repeat_nil|lia|lia|].
  rewrite Z.add_0_l in E, Hi. rewrite E. cbn [option_bind mbind].
  rewrite concat_repeat_nil, app_nil_r in Hp.
  destruct (free_loop_spec (Z.to_nat n) h (zlen (concat cs)) n) as (h' & -> & Hl & Hlow & Hfree);
    [lia|apply Ht|lia|].
  cbn [option_bind mbind]. destruct (Z.ltb_spec (zlen (concat cs)) n); [|lia].
  do 3 eexists. split; [done|]. split; [|split; [simpl; lia|split; [|done]]].
  - split; simpl; rewrite ?Z.sub_add.
    + done.
    + eapply table_below; done.
    + exact Hfree.
    + rewrite Hi, free_entries_indices.
      replace n with (zlen (concat cs) + (n - zlen (concat cs))) at 2 by lia.
      by rewrite seqZ_app, Z.add_0_l by lia.
    + rewrite Hcount. unfold zlen. f_equal.
      rewrite <- (length_fmap snd (concat cs')), Hp. by rewrite length_fmap.
    + by rewrite Hp.
  - unfold free_entries. rewrite seqZ_cons by lia. done.
Qed.

Lemma wf_lengths (d : Dict) cs free :
  dict_wf d cs free -> Forall (fun c => (length c <= length (heap d))%nat) cs.
Proof.
  intros Hwf. apply Forall_lookup. intros b c Hb. pose proof (concat_length _ _ _ Hb).
  pose proof (wf_length _ _ _ Hwf). pose proof (table_heap _ _ _ _ (wf_table _ _ _ Hwf)).
  unfold zlen in *. lia.
Qed.

(** ** Insertion *)

(** With a node on the free list, appending links it in front of its bucket. *)
Lemma append_free (d : Dict) cs free (k : K) (v : V) :
  dict_wf d cs free -> free <> [] -> k ∉ (concat cs).*2.*1 ->
  exists d' cs' free' nodeIndex node head heap' buckets',
    zget (heap d) (firstFree d) = Some node
    /\ zget (buckets d) (bucketIndex hash k (mask d)) = Some head
    /\ zset (heap d) (firstFree d) (mkNode head k v) = Some heap'
    /\ zset (buckets d) (bucketIndex hash k (mask d)) (firstFree d) = Some buckets'
    /\ d' = mkDict buckets' heap' (mask d) (next node) (count d + 1) /\ nodeIndex = firstFree d
    /\ dict_wf d' cs' free' /\ (concat cs').*2 ≡ₚ (k, v) :: (concat cs).*2.
Proof.
  intros Hwf Hne Hk. pose proof (wf_free _ _ _ Hwf) as Hfree.
  destruct free as [|[j [k0 v0]] free]; [done|]. destruct Hfree as (<- & nx & Hj & Hfree).
  pose proof (wf_table _ _ _ Hwf) as Ht. pose proof (wf_size _ _ _ Hwf) as Hn.
  destruct (table_bucket _ _ _ _ k Ht Hn) as (head & c & Hhead & _ & _). rewrite Z.add_simpl_r in Hhead.
  destruct (zset_is_Some (heap d) (firstFree d) (mkNode head k v)) as [_ [h' Hh']];
    [apply zget_is_Some; by rewrite Hj|].
  destruct (zset_is_Some (buckets d) (bucketIndex hash k (mask d)) (firstFree d)) as [_ [bs' Hb']];
    [apply zget_is_Some; by rewrite Hhead|].
  pose proof (wf_nodes _ _ _ Hwf) as Hnodes.
  assert (Hnd : NoDup ((concat cs).*1 ++ (firstFree d :: free.*1)))
    by (rewrite Hnodes; apply NoDup_seqZ).
  apply NoDup_app in Hnd as (_ & Hdis & Hndf). apply NoDup_cons in Hndf as [Hnf _].
  destruct (table_push (buckets d) bs' (heap d) h' (mask d + 1) head (firstFree d) cs k v)
    as (cs' & Ht' & E); rewrite ?Z.add_simpl_r; try done.
  { intros Hin. apply (Hdis _ Hin). apply elem_of_cons. by left. }
  eexists _, cs', free, _, _, head, h', bs'. do 6 (split; [done|]).
  split; [|by rewrite E]. split; simpl.
  - done.
  - done.
  - by eapply chain_frame.
  - rewrite E. simpl. rewrite Permutation_middle. exact Hnodes.
  - rewrite (wf_count _ _ _ Hwf). unfold zlen. rewrite E. simpl. lia.
  - rewrite E. simpl. apply NoDup_cons. split; [done|]. apply Hwf.
Qed.

Lemma Append_spec (d : Dict) cs free (k : K) (v : V) :
  dict_wf d cs free -> k ∉ (concat cs).*2.*1 -> count d < 2 ^ 30 ->
  exists d' j cs' free', Int32DictInt_Append hash zero_key NULL d k v = Some (d', j)
    /\ dict_wf d' cs' free' /\ (concat cs').*2 ≡ₚ (k, v) :: (concat cs).*2.
Proof.
  intros Hwf Hk Hcap. unfold Int32DictInt_Append.
  assert (Hready : exists d1 cs1 free1,
    (if firstFree d <? 0 then Int32DictInt_Resize hash zero_key NULL d (wrapS 32 ((mask d + 1) * 2)) else Some d)
      = Some d1
    /\ dict_wf d1 cs1 free1 /\ free1 <> [] /\ (concat cs1).*2 ≡ₚ (concat cs).*2).
  { pose proof (wf_free _ _ _ Hwf) as Hfree. destruct (Z.ltb_spec (firstFree d) 0) as [Hneg|Hpos].
    - destruct free as [|[j [k0 v0]] free];
        [|destruct Hfree as (Hff & nx & Hj & _); apply zget_Some in Hj; lia].
      pose proof (wf_length _ _ _ Hwf) as Hlen. rewrite zlen_nil in Hlen.
      pose proof (wf_count _ _ _ Hwf) as Hc. destruct (wf_size _ _ _ Hwf) as (s & Hs & Hsz).
      assert (s < 30) by (destruct (Z.eq_dec s 30) as [->|]; lia).
      assert (Hsize : (mask d + 1) * 2 = 2 ^ (s + 1)) by (rewrite Z.pow_add_r, <- Hsz by lia; lia).
      assert (Hle : 2 ^ (s + 1) <= 2 ^ 30) by (apply Z.pow_le_mono_r; lia).
      rewrite Hsize, wrapS_id by (unfold inS; pose proof (pow2_pos (s + 1)); lia).
      destruct (Resize_spec d (2 ^ (s + 1)) cs) as (d1 & cs1 & free1 & E & Hwf1 & _ & Hne & Hp);
        [apply Hwf|by eapply wf_lengths|exists (s + 1); lia|pose proof (table_size_pos _ (wf_size _ _ _ Hwf)); lia|done|apply Hwf|].
      by exists d1, cs1, free1.
    - exists d, cs, free. split; [done|]. split; [done|]. split; [|done].
      intros ->. simpl in Hfree. lia. }
  destruct Hready as (d1 & cs1 & free1 & -> & Hwf1 & Hne & Hp). cbn [option_bind mbind].
  destruct (append_free d1 cs1 free1 k v Hwf1 Hne)
    as (d' & cs' & free' & j & node & head & h' & bs' & E1 & E2 & E3 & E4 & -> & -> & Hwf' & Hp').
  { by rewrite Hp. }
  rewrite E1. cbn [option_bind mbind]. rewrite E2. cbn [option_bind mbind].
  rewrite E3. cbn [option_bind mbind]. rewrite E4. cbn [option_bind mbind]. do 4 eexists. split; [done|]. split; [done|]. by rewrite Hp', Hp.
Qed.

(** ** Updates *)

Lemma update_indices (j : Z) (v : V) (l : list Entry) : (update_entry j v <$> l).*1 = l.*1.
Proof.
  rewrite <- list_fmap_compose. apply list_fmap_ext. intros i e _. simpl. unfold update_entry.
  by destruct (decide _).
Qed.

Lemma update_keys (j : Z) (v : V) (l : list Entry) : (update_entry j v <$> l).*2.*1 = l.*2.*1.
Proof.
  rewrite <- !list_fmap_compose. apply list_fmap_ext. intros i e _. simpl. unfold update_entry.
  by destruct (decide _).
Qed.

Lemma same_key (l : list Entry) (e e' : Entry) :
  NoDup l.*2.*1 -> e ∈ l -> e' ∈ l -> e.2.1 = e'.2.1 -> e = e'.
Proof.
  intros Hnd He He' Hk. rewrite <- list_fmap_compose in Hnd.
  apply list_elem_of_lookup in He as [i Hi]. apply list_elem_of_lookup in He' as [i' Hi'].
  assert (i = i'); [|by simplify_eq].
  eapply NoDup_lookup; [exact Hnd| |]; rewrite list_lookup_fmap, ?Hi, ?Hi'; simpl; [done|by rewrite Hk].
Qed.

Lemma same_index (l : list Entry) (e e' : Entry) :
  NoDup l.*1 -> e ∈ l -> e' ∈ l -> e.1 = e'.1 -> e = e'.
Proof.
  intros Hnd He He' Hk.
  apply list_elem_of_lookup in He as [i Hi]. apply list_elem_of_lookup in He' as [i' Hi'].
  assert (i = i'); [|by simplify_eq].
  eapply NoDup_lookup; [exact Hnd| |]; rewrite list_lookup_fmap, ?Hi, ?Hi'; simpl; [done|by rewrite Hk].
Qed.

Lemma update_map (l : list Entry) (j : Z) (k : K) (v v0 : V) :
  NoDup l.*1 -> NoDup l.*2.*1 -> (j, (k, v0)) ∈ l ->
  (list_to_map (update_entry j v <$> l).*2 : gmap K V) = <[k := v]> (list_to_map l.*2).
Proof.
  intros Hi Hk Hin. apply map_eq. intros k'. apply option_eq. intros v'.
  rewrite represents_lookup by (by rewrite update_keys). rewrite lookup_insert_Some. split.
  - intros [j' Hj']. apply list_elem_of_fmap in Hj' as ([i [k1 v1]] & E & Hin').
    unfold update_entry in E. simpl in E. destruct (decide (i = j)) as [->|Hne]; simplify_eq.
    + left. pose proof (same_index l _ _ Hi Hin Hin' eq_refl). by simplify_eq.
    + right. split; [|apply represents_lookup; eauto].
      intros ->. pose proof (same_key l _ _ Hk Hin Hin' eq_refl). by simplify_eq.
  - intros [[<- <-]|[Hne Hl]].
    + exists j. apply list_elem_of_fmap. exists (j, (k, v0)). split; [|done].
      unfold update_entry. simpl. by rewrite decide_True.
    + apply represents_lookup in Hl as [j' Hj']; [|done]. exists j'.
      apply list_elem_of_fmap. exists (j', (k', v')). split; [|done].
      unfold update_entry. simpl. rewrite decide_False; [done|]. intros ->.
      pose proof (same_index l _ _ Hi Hin Hj' eq_refl). by simplify_eq.
Qed.

Lemma wf_NoDup (d : Dict) cs free : dict_wf d cs free -> NoDup ((concat cs).*1 ++ free.*1).
Proof. intros Hwf. rewrite (wf_nodes _ _ _ Hwf). apply NoDup_seqZ. Qed.

Lemma wf_get (d : Dict) cs free (e : Entry) :
  dict_wf d cs free -> e ∈ concat cs -> exists nx, zget (heap d) e.1 = Some (mkNode nx e.2.1 e.2.2).
Proof.
  intros Hwf He. apply list_elem_of_In, in_concat in He as (c & Hc & He).
  apply list_elem_of_In in Hc, He. apply list_elem_of_lookup_1 in Hc as [b Hb].
  destruct (Forall2_lookup_r _ _ _ _ _ (table_chains _ _ _ _ (wf_table _ _ _ Hwf)) Hb) as (i & _ & Hch).
  by eapply chain_get.
Qed.

Lemma store_value_spec (d : Dict) cs free (j : Z) (k : K) (v v0 : V) :
  dict_wf d cs free -> (j, (k, v0)) ∈ concat cs ->
  exists d', store_value d j v = Some d' /\ represents d' (<[k := v]> (list_to_map (concat cs).*2)).
Proof.
  intros Hwf Hin. destruct (wf_get _ _ _ _ Hwf Hin) as [nx Hg]. simpl in Hg.
  pose proof (wf_NoDup _ _ _ Hwf) as Hnd. apply NoDup_app in Hnd as (Hnd & Hdis & _).
  unfold store_value. rewrite Hg. cbn [option_bind mbind next key].
  destruct (zset_is_Some (heap d) j (mkNode nx k v)) as [_ [h' Hh']];
    [apply zget_is_Some; by rewrite Hg|].
  rewrite Hh'. cbn [option_bind mbind]. eexists. split; [done|].
  set (cs' := (fun c : list Entry => update_entry j v <$> c) <$> cs). exists cs', free.
  assert (Hcat : concat cs' = update_entry j v <$> concat cs) by (symmetry; apply concat_map).
  split; [|by rewrite Hcat, (update_map _ j k v v0) by (done || apply Hwf)].
  pose proof (wf_table _ _ _ Hwf) as Ht. split; simpl; rewrite ?Hcat, ?update_indices, ?update_keys.
  - apply Hwf.
  - split; [apply Ht|rewrite (zset_zlen _ _ _ _ Hh'); apply Ht| |].
    + apply Forall2_fmap_r. eapply Forall2_impl; [apply Ht|]. intros i c Hc.
      by eapply (chain_update _ _ _ _ (mkNode nx k v0)).
    + intros b c e Hb He. unfold cs' in Hb. rewrite list_lookup_fmap in Hb.
      destruct (cs !! b) as [c0|] eqn:Ec; [|done]. simpl in Hb. injection Hb as <-.
      apply list_elem_of_fmap in He as (e0 & -> & He).
      replace (update_entry j v e0).2.1 with e0.2.1 by (unfold update_entry; by destruct (decide _)).
      by eapply (table_hash _ _ _ _ Ht).
  - eapply chain_frame; [done| |apply Hwf]. apply Hdis. by apply (list_elem_of_fmap_2 fst _ (j, (k, v0))).
  - apply Hwf.
  - rewrite (wf_count _ _ _ Hwf). unfold zlen. by rewrite length_fmap.
  - apply Hwf.
Qed.

Lemma represents_size (d : Dict) (m : gmap K V) : represents d m -> count d = Z.of_nat (size m).
Proof.
  intros (cs & free & Hwf & ->). rewrite (wf_count _ _ _ Hwf).
  rewrite <- length_map_to_list, map_to_list_to_map by apply Hwf. unfold zlen. by rewrite length_fmap.
Qed.

Lemma append_represents (d d' : Dict) (cs cs' : list (list Entry)) free' (k : K) (v : V) :
  dict_wf d' cs' free' -> (concat cs').*2 ≡ₚ (k, v) :: (concat cs).*2 ->
  represents d' (<[k := v]> (list_to_map (concat cs).*2)).
Proof.
  intros Hwf Hp. exists cs', free'. split; [done|].
  rewrite (list_to_map_proper _ _ (wf_keys _ _ _ Hwf) Hp). done.
Qed.

Lemma missing_key (l : list Entry) (k : K) : (list_to_map l.*2 : gmap K V) !! k = None -> k ∉ l.*2.*1.
Proof. apply not_elem_of_list_to_map. Qed.

Lemma SetValue_spec (d : Dict) (m : gmap K V) (k : K) (v : V) :
  represents d m -> Z.of_nat (size m) < 2 ^ 30 ->
  exists d', Int32Dict_SetValue hash zero_key NULL d k v = Some (d', bool_decide (is_Some (m !! k)))
    /\ represents d' (<[k := v]> m).
Proof.
  intros Hr Hcap. rewrite <- (represents_size _ _ Hr) in Hcap. destruct Hr as (cs & free & Hwf & ->).
  pose proof (search_spec d cs free k Hwf) as Hs. unfold Int32Dict_SetValue.
  destruct (list_to_map _ !! k) as [v0|] eqn:Ek.
  - destruct Hs as (j & -> & Hin). cbn [option_bind mbind].
    destruct (store_value_spec _ _ _ _ _ v _ Hwf Hin) as (d' & -> & Hr'). by exists d'.
  - rewrite Hs. cbn [option_bind mbind].
    destruct (Append_spec d cs free k v Hwf (missing_key _ _ Ek) Hcap) as (d' & j & cs' & free' & -> & Hwf' & Hp).
    exists d'. split; [done|]. by eapply append_represents.
Qed.

Lemma Add_spec (d : Dict) (m : gmap K V) (k : K) (v : V) :
  represents d m -> Z.of_nat (size m) < 2 ^ 30 ->
  exists d', Int32Dict_Add hash zero_key NULL d k v = Some (d', bool_decide (m !! k = None))
    /\ represents d' (if m !! k is Some _ then m else <[k := v]> m).
Proof.
  intros Hr Hcap. rewrite <- (represents_size _ _ Hr) in Hcap. pose proof Hr as (cs & free & Hwf & ->).
  pose proof (search_spec d cs free k Hwf) as Hs. unfold Int32Dict_Add.
  destruct (list_to_map _ !! k) as [v0|] eqn:Ek.
  - destruct Hs as (j & -> & Hin). by exists d.
  - rewrite Hs. cbn [option_bind mbind].
    destruct (Append_spec d cs free k v Hwf (missing_key _ _ Ek) Hcap) as (d' & j & cs' & free' & -> & Hwf' & Hp).
    exists d'. split; [done|]. by eapply append_represents.
Qed.

Lemma ReplaceValue_spec (d : Dict) (m : gmap K V) (k : K) (v : V) :
  represents d m ->
  exists d', Int32Dict_ReplaceValue hash d k v = Some (d', bool_decide (is_Some (m !! k)))
    /\ represents d' (if m !! k is Some _ then <[k := v]> m else m).
Proof.
  intros Hr. pose proof Hr as (cs & free & Hwf & ->).
  pose proof (search_spec d cs free k Hwf) as Hs. unfold Int32Dict_ReplaceValue.
  destruct (list_to_map _ !! k) as [v0|] eqn:Ek.
  - destruct Hs as (j & -> & Hin). cbn [option_bind mbind].
    destruct (store_value_spec _ _ _ _ _ v _ Hwf Hin) as (d' & -> & Hr'). by exists d'.
  - rewrite Hs. by exists d.
Qed.

(** ** Removal *)

(** Replacing one chain while writing a node of that chain. *)
Lemma chains_replace (h h' : list Node) (bs : list Z) (cs : list (list Entry)) (b : nat) (i j : Z) (n : Node) c c' :
  Forall2 (chain h) bs cs -> cs !! b = Some c -> NoDup (concat cs).*1 -> j ∈ c.*1 ->
  zset h j n = Some h' -> chain h' i c' -> Forall2 (chain h') (<[b := i]> bs) (<[b := c']> cs).
Proof.
  intros Hf Hb Hnd Hj Hs Hc. destruct (concat_insert cs b c [] Hb) as (rest & E1 & E2).
  rewrite <- (list_insert_insert_eq cs b c' []), <- (list_insert_insert_eq bs b i (-1)).
  apply Forall2_insert; [|done]. eapply chains_frame; [done| |apply Forall2_insert; [done|simpl; lia]].
  rewrite E1, fmap_app in Hnd. apply NoDup_app in Hnd as (_ & Hdis & _). rewrite E2. by apply Hdis.
Qed.

Lemma remove_loop_missing (fuel : nat) (d : Dict) (k : K) (prev i : Z) (l : list Entry) :
  chain (heap d) i l -> (length l <= fuel)%nat -> k ∉ l.*2.*1 ->
  remove_loop hash zero_key NULL fuel d k prev i = Some (d, false).
Proof.
  revert i prev fuel. induction l as [|[j [k' v]] l IH]; intros i prev fuel Hc Hf Hk.
  - simpl in Hc. destruct fuel; simpl; rewrite Z.geb_leb; (destruct (Z.leb_spec 0 i); [lia|done]).
  - destruct Hc as (-> & nx & Hg & Hc). destruct fuel as [|fuel]; [simpl in Hf; lia|].
    simpl. apply zget_Some in Hg as Hj. rewrite Z.geb_leb. destruct (Z.leb_spec 0 j); [|lia].
    rewrite Hg. simpl. simpl in Hk. apply not_elem_of_cons in Hk as [Hne Hk].
    rewrite decide_False by done. apply IH; [done|simpl in Hf; lia|done].
Qed.

(** The node before the one found. *)
Definition previous (prev : Z) (pre : list Entry) : Z := default prev (fst <$> last pre).

Lemma remove_loop_found (fuel : nat) (d : Dict) (prev i : Z) (pre post : list Entry) (e : Entry) :
  chain (heap d) i (pre ++ e :: post) -> (length (pre ++ e :: post) <= fuel)%nat -> e.2.1 ∉ pre.*2.*1 ->
  remove_loop hash zero_key NULL fuel d e.2.1 prev i
  = d' ← remove_node hash zero_key NULL d e.2.1 (previous prev pre) e.1; Some (d', true).
Proof.
  revert i prev fuel. induction pre as [|[j [k' v]] pre IH]; intros i prev fuel Hc Hf Hk.
  - destruct e as [j [k v]]. destruct Hc as (-> & nx & Hg & Hc).
    destruct fuel as [|fuel]; [simpl in Hf; lia|].
    simpl. apply zget_Some in Hg as Hj. rewrite Z.geb_leb. destruct (Z.leb_spec 0 j); [|lia].
    rewrite Hg. simpl. by rewrite decide_True.
  - destruct Hc as (-> & nx & Hg & Hc). destruct fuel as [|fuel]; [simpl in Hf; lia|].
    simpl. apply zget_Some in Hg as Hj. rewrite Z.geb_leb. destruct (Z.leb_spec 0 j); [|lia].
    rewrite Hg. simpl. simpl in Hk. apply not_elem_of_cons in Hk as [Hne Hk].
    rewrite decide_False by done. rewrite (IH nx j fuel); [|done|simpl in Hf; lia|done].
    unfold previous. rewrite last_cons. by destruct (last pre).
Qed.

(** Unlinking an entry from its chain, then putting its node on the free list. *)
Lemma unlink_spec (d : Dict) cs free (pre post : list Entry) (j : Z) (k : K) (v : V) (nx : Z) :
  dict_wf d cs free ->
  cs !! Z.to_nat (bucketIndex hash k (mask d)) = Some (pre ++ (j, (k, v)) :: post) ->
  zget (heap d) j = Some (mkNode nx k v) ->
  exists h' bs',
    (if previous (-1) pre >=? 0 then
       prev ← zget (heap d) (previous (-1) pre);
       h ← zset (heap d) (previous (-1) pre) (set_next nx prev);
       Some (h, buckets d)
     else
       b ← zset (buckets d) (bucketIndex hash k (mask d)) nx;
       Some (heap d, b)) = Some (h', bs')
    /\ zlen h' = zlen (heap d) /\ zlen bs' = zlen (buckets d) /\ chain h' (firstFree d) free
    /\ Forall2 (chain h') bs' (<[Z.to_nat (bucketIndex hash k (mask d)) := pre ++ post]> cs).
Proof.
  intros Hwf Hb Hg. pose proof (wf_table _ _ _ Hwf) as Ht.
  pose proof (table_chains _ _ _ _ Ht) as Hf. pose proof (wf_NoDup _ _ _ Hwf) as Hnd.
  apply NoDup_app in Hnd as (Hnd & Hdis & _).
  destruct (Forall2_lookup_r _ _ _ _ _ Hf Hb) as (i & Hi & Hch).
  pose proof (bucketIndex_range k _ (wf_size _ _ _ Hwf)) as Hr. rewrite Z.add_simpl_r in Hr.
  set (b := bucketIndex hash k (mask d)) in *.
  assert (Hcat : forall e, e ∈ pre ++ (j, (k, v)) :: post -> e.1 ∈ (concat cs).*1)
    by (intros e He; apply list_elem_of_fmap_2; by eapply elem_of_concat).
  destruct (decide (pre = [])) as [->|Hpre].
  - simpl. destruct (zset_is_Some (buckets d) b nx) as [_ [bs' Hbs']];
      [rewrite (table_buckets _ _ _ _ Ht); lia|].
    rewrite Hbs'. apply zset_Some in Hbs' as [_ ->]. simpl. do 2 eexists. split; [done|].
    split; [done|]. split; [unfold zlen; by rewrite length_insert|]. split; [apply Hwf|].
    apply Forall2_insert; [done|]. simpl in Hch. destruct Hch as (_ & nx' & Hg' & Hch).
    rewrite Hg in Hg'. by injection Hg' as <-.
  - destruct (exists_last Hpre) as (pre' & [p [kp vp]] & ->).
    unfold previous. rewrite last_snoc. simpl. rewrite <- app_assoc in Hch, Hcat. simpl in Hch, Hcat.
    assert (Hnp : exists np, zget (heap d) p = Some np).
    { destruct (chain_get _ _ _ (p, (kp, vp)) Hch) as [n Hn]; [set_solver|by eauto]. }
    destruct Hnp as [np Hnp]. apply zget_Some in Hnp as Hp0. rewrite Z.geb_leb.
    destruct (Z.leb_spec 0 p); [|lia]. rewrite Hnp. simpl.
    destruct (zset_is_Some (heap d) p (set_next nx np)) as [_ [h' Hh']];
      [apply zget_is_Some; by rewrite Hnp|].
    rewrite Hh'. simpl. do 2 eexists. split; [done|]. split; [by eapply zset_zlen|]. split; [done|].
    assert (Hndc : NoDup (pre' ++ (p, (kp, vp)) :: (j, (k, v)) :: post).*1).
    { destruct (concat_insert cs _ _ [] Hb) as (rest & E & _). rewrite E, fmap_app in Hnd.
      apply NoDup_app in Hnd as [Hnd _]. by rewrite <- app_assoc in Hnd. }
    split.
    + eapply chain_frame; [done| |apply Hwf]. apply Hdis, (Hcat (p, (kp, vp))). set_solver.
    + rewrite <- app_assoc. simpl. rewrite <- (list_insert_id (buckets d) _ _ Hi).
      eapply chains_replace; [exact Hf|exact Hb|done| |exact Hh'|].
      * rewrite <- app_assoc. simpl. rewrite fmap_app. simpl. set_solver.
      * by eapply (chain_unlink (heap d) h' i p j nx (kp, vp) (k, v) np).
Qed.

(** The dictionary after the node is on the free list, before it may shrink. *)
Lemma remove_unlinked (d : Dict) cs free (pre post : list Entry) (j : Z) (k : K) (v : V) :
  dict_wf d cs free ->
  cs !! Z.to_nat (bucketIndex hash k (mask d)) = Some (pre ++ (j, (k, v)) :: post) ->
  exists d' cs' free',
    dict_wf d' cs' free' /\ (concat cs).*2 ≡ₚ (k, v) :: (concat cs').*2
    /\ mask d' = mask d /\ count d' = count d - 1
    /\ remove_node hash zero_key NULL d k (previous (-1) pre) j
       = if (count d' <=? Z.shiftr (mask d + 1) 2) && (mask d + 1 >? 16)
         then Int32DictInt_Resize hash zero_key NULL d' (Z.shiftr (mask d + 1) 1) else Some d'.
Proof.
  intros Hwf Hb. set (b := Z.to_nat (bucketIndex hash k (mask d))) in *.
  pose proof (wf_table _ _ _ Hwf) as Ht.
  destruct (wf_get d cs free (j, (k, v)) Hwf) as [nx Hg];
    [eapply elem_of_concat; [exact Hb|set_solver]|]. simpl in Hg.
  destruct (unlink_spec d cs free pre post j k v nx Hwf Hb Hg) as (h1 & bs1 & E & Hl & Hlb & Hfree & Hch).
  destruct (concat_insert cs b _ (pre ++ post) Hb) as (rest & E1 & E2).
  set (cs' := <[b := pre ++ post]> cs) in *.
  assert (Hp : concat cs ≡ₚ (j, (k, v)) :: concat cs')
    by (rewrite E1, E2, <- (Permutation_middle pre post); done).
  pose proof (wf_NoDup _ _ _ Hwf) as Hnd. rewrite Hp in Hnd. simpl in Hnd.
  apply NoDup_cons in Hnd as [Hj Hnd]. rewrite not_elem_of_app in Hj. destruct Hj as [Hj Hjf].
  destruct (zset_is_Some h1 j (free_node zero_key NULL (firstFree d))) as [_ [h2 Hh2]];
    [rewrite Hl; apply zget_is_Some; by rewrite Hg|].
  exists (mkDict bs1 h2 (mask d) j (count d - 1)), cs', ((j, (zero_key, NULL)) :: free).
  split; [|split; [by rewrite Hp|split; [done|split; [done|]]]].
  - split; simpl.
    + apply Hwf.
    + split.
      * rewrite Hlb. apply Ht.
      * rewrite (zset_zlen _ _ _ _ Hh2), Hl. apply Ht.
      * by eapply chains_frame.
      * intros b' c e Hb' He. apply list_lookup_insert_Some in Hb' as [(<- & <- & _)|(Hne & Hb')].
        -- eapply (table_hash _ _ _ _ Ht); [exact Hb|]. set_solver.
        -- by eapply (table_hash _ _ _ _ Ht).
    + split; [done|]. exists (firstFree d). split; [by eapply zset_get_eq|]. by eapply chain_frame.
    + rewrite <- (wf_nodes _ _ _ Hwf), Hp. simpl. by rewrite Permutation_middle.
    + rewrite (wf_count _ _ _ Hwf). unfold zlen. rewrite Hp. simpl. lia.
    + pose proof (wf_keys _ _ _ Hwf) as Hk. rewrite Hp in Hk. simpl in Hk. by apply NoDup_cons in Hk as [_ Hk].
  - unfold remove_node. rewrite Hg. cbn [option_bind mbind next]. rewrite E. cbn [option_bind mbind].
    rewrite Hh2. done.
Qed.

Lemma remove_node_spec (d : Dict) cs free (pre post : list Entry) (j : Z) (k : K) (v : V) :
  dict_wf d cs free ->
  cs !! Z.to_nat (bucketIndex hash k (mask d)) = Some (pre ++ (j, (k, v)) :: post) ->
  exists d', remove_node hash zero_key NULL d k (previous (-1) pre) j = Some d'
    /\ represents d' (delete k (list_to_map (concat cs).*2)).
Proof.
  intros Hwf Hb.
  destruct (remove_unlinked _ _ _ _ _ _ _ _ Hwf Hb) as (d1 & cs1 & free1 & Hwf1 & Hp & Hm & Hc & ->).
  assert (Hmap : delete k (list_to_map (concat cs).*2) = (list_to_map (concat cs1).*2 : gmap K V)).
  { rewrite (list_to_map_proper _ _ (wf_keys _ _ _ Hwf) Hp). simpl. rewrite delete_insert_id; [done|].
    apply not_elem_of_list_to_map. pose proof (wf_keys _ _ _ Hwf) as Hk. rewrite Hp in Hk.
    by apply NoDup_cons in Hk as [Hk _]. }
  rewrite Hmap. destruct ((count d1 <=? _) && _) eqn:Et; [|exists d1; split; [done|by exists cs1, free1]].
  apply andb_prop in Et as [Et1 Et2]. apply Z.leb_le in Et1. rewrite Z.gtb_ltb in Et2.
  apply Z.ltb_lt in Et2. destruct (wf_size _ _ _ Hwf) as (s & Hs & Hsz). rewrite Hsz in *.
  assert (5 <= s) by (destruct (Z.eq_dec s 4) as [->|]; lia).
  rewrite !Z.shiftr_div_pow2 in * by lia.
  assert (Hhalf : 2 ^ s = 2 * 2 ^ (s - 1)) by (apply pow2_double; lia).
  assert (Hhalf2 : 2 ^ (s - 1) = 2 * 2 ^ (s - 1 - 1)) by (apply pow2_double; lia).
  change (2 ^ 1) with 2. change (2 ^ 2) with 4 in Et1.
  replace (2 ^ s / 2) with (2 ^ (s - 1)) by (rewrite Hhalf, Z.mul_comm, Z.div_mul; lia).
  replace (2 ^ s / 4) with (2 ^ (s - 1 - 1)) in Et1
    by (rewrite Hhalf, Hhalf2, Z.mul_assoc, Z.mul_comm, Z.div_mul; lia).
  pose proof (wf_count _ _ _ Hwf1). pose proof (pow2_pos (s - 1 - 1)).
  destruct (Resize_spec d1 (2 ^ (s - 1)) cs1) as (d' & cs' & free' & E & Hwf' & _ & _ & Hp');
    [apply Hwf1|by eapply wf_lengths|exists (s - 1); lia|lia|done|apply Hwf1|].
  exists d'. split; [done|]. exists cs', free'. split; [done|].
  symmetry. apply list_to_map_proper; [apply Hwf'|done].
Qed.

Lemma Remove_spec (d : Dict) (m : gmap K V) (k : K) :
  represents d m ->
  exists d', Int32Dict_Remove hash zero_key NULL d k = Some (d', bool_decide (is_Some (m !! k)))
    /\ represents d' (delete k m).
Proof.
  intros Hr. pose proof Hr as (cs & free & Hwf & ->).
  pose proof (wf_table _ _ _ Hwf) as Ht. pose proof (wf_size _ _ _ Hwf) as Hn.
  destruct (table_bucket _ _ _ _ k Ht Hn) as (i & c & Hi & Hc & Hch). rewrite Z.add_simpl_r in Hi, Hc.
  unfold Int32Dict_Remove. rewrite Hi. cbn [option_bind mbind].
  assert (Hlen : (length c <= length (heap d))%nat)
    by (pose proof (wf_lengths _ _ _ Hwf) as Hl; rewrite Forall_lookup in Hl; by eapply Hl).
  destruct (list_to_map _ !! k) as [v|] eqn:Ek.
  - apply represents_lookup in Ek as [j Hj]; [|apply Hwf].
    assert (Hin : (j, (k, v)) ∈ c).
    { eapply (table_entry _ _ _ _ (j, (k, v))); [exact Ht|done|done|]. simpl. by rewrite Z.add_simpl_r. }
    apply list_elem_of_split in Hin as (pre & post & ->).
    assert (Hk : k ∉ pre.*2.*1).
    { pose proof (sublist_keys _ _ _ Hc (wf_keys _ _ _ Hwf)) as Hnd. rewrite !fmap_app in Hnd.
      apply NoDup_app in Hnd as (_ & Hdis & _). intros Hin. apply (Hdis _ Hin). simpl. set_solver. }
    pose proof (remove_loop_found _ d (-1) i pre post (j, (k, v)) Hch Hlen Hk) as E. simpl in E.
    rewrite E.
    destruct (remove_node_spec _ _ _ _ _ _ _ _ Hwf Hc) as (d' & -> & Hr'). by exists d'.
  - rewrite (remove_loop_missing _ d k (-1) i c Hch Hlen).
    + exists d. split; [done|]. by rewrite delete_id.
    + intros Hin. apply not_elem_of_list_to_map in Ek. apply Ek.
      apply list_elem_of_fmap in Hin as (p & -> & Hp). apply list_elem_of_fmap in Hp as (e & -> & He).
      apply key_in. by eapply elem_of_concat.
Qed.

(** ** Creation and lookup *)

Lemma NextPowerOfTwo32_spec (v : Z) : 0 < v <= 2 ^ 31 -> NextPowerOfTwo32 v = 2 ^ Z.log2_up v.
Proof. intros Hv. apply (RoundUpPow2_spec 32); [by left|done]. Qed.

Lemma ClearWithSize_spec (newSize : Z) :
  exists d, Int32Dict_ClearWithSize zero_key NULL newSize = Some d /\ represents d ∅.
Proof.
  unfold Int32Dict_ClearWithSize.
  set (s1 := if newSize <? 0x10 then 0x10 else newSize).
  set (s2 := if s1 >? 0x1000000 then 0x1000000 else s1).
  assert (Hs : 16 <= s2 <= 2 ^ 24).
  { subst s2 s1. rewrite Z.gtb_ltb. destruct (Z.ltb_spec newSize 0x10).
    - simpl. lia.
    - destruct (Z.ltb_spec 0x1000000 newSize); lia. }
  clearbody s2. clear s1. rewrite NextPowerOfTwo32_spec by lia.
  assert (Hn : table_size (2 ^ Z.log2_up s2)).
  { exists (Z.log2_up s2). split; [|done]. split.
    - change 4 with (Z.log2_up 16). apply Z.log2_up_le_mono. lia.
    - transitivity (Z.log2_up (2 ^ 24)); [apply Z.log2_up_le_mono; lia|by vm_compute]. }
  set (n := 2 ^ Z.log2_up s2) in *. pose proof (table_size_pos n Hn) as Hpos.
  set (h0 := repeat (free_node zero_key NULL 0) (Z.to_nat n)).
  assert (Hl0 : zlen h0 = n) by (unfold h0, zlen; rewrite repeat_length; lia).
  destruct (free_loop_spec (Z.to_nat n) h0 0 n) as (h' & -> & Hl & _ & Hfree); [lia|done|lia|].
  cbn [option_bind mbind]. eexists. split; [done|].
  exists (repeat [] (Z.to_nat n)), (free_entries 0 n). rewrite concat_repeat_nil. split; [|done].
  split; simpl; rewrite ?Z.sub_add, ?concat_repeat_nil.
  - done.
  - apply table_empty; [lia|done].
  - exact Hfree.
  - rewrite free_entries_indices. simpl. by rewrite Z.sub_0_r.
  - done.
  - constructor.
Qed.

Lemma find_value_spec (d : Dict) (m : gmap K V) (k : K) :
  represents d m -> find_value hash d k = Some (m !! k).
Proof.
  intros (cs & free & Hwf & ->). pose proof (search_spec d cs free k Hwf) as Hs. unfold find_value.
  destruct (list_to_map _ !! k) as [v|].
  - destruct Hs as (j & -> & Hin). destruct (wf_get _ _ _ _ Hwf Hin) as [nx Hg]. simpl in Hg.
    cbn [option_bind mbind]. by rewrite Hg.
  - by rewrite Hs.
Qed.

Lemma ContainsKey_spec (d : Dict) (m : gmap K V) (k : K) :
  represents d m -> Int32Dict_ContainsKey hash d k = Some (bool_decide (is_Some (m !! k))).
Proof.
  intros (cs & free & Hwf & ->). pose proof (search_spec d cs free k Hwf) as Hs.
  unfold Int32Dict_ContainsKey. destruct (list_to_map _ !! k) as [v|].
  - by destruct Hs as (j & -> & _).
  - by rewrite Hs.
Qed.

(** ** Enumeration *)

#[local] Notation pair_of := (fun n : Node => (key n, value n)).

Lemma collect_chain_spec (fuel : nat) (h : list Node) (i room : Z) (l : list Entry) :
  chain h i l -> (length l <= fuel)%nat -> zlen l <= room ->
  exists nodes, collect_chain fuel h i room = Some (nodes, room - zlen l) /\ map pair_of nodes = l.*2.
Proof.
  revert i fuel room. induction l as [|[j [k v]] l IH]; intros i fuel room Hc Hf Hr.
  - exists []. simpl in Hc. rewrite zlen_nil, Z.sub_0_r.
    destruct fuel; simpl; rewrite Z.geb_leb; (destruct (Z.leb_spec 0 i); [lia|done]).
  - destruct Hc as (-> & nx & Hg & Hc). destruct fuel as [|fuel]; [simpl in Hf; lia|].
    rewrite zlen_cons in *. pose proof (zlen_nonneg l).
    destruct (IH nx fuel (room - 1) Hc) as (nodes & E & Hm); [simpl in Hf; lia|lia|].
    exists (mkNode nx k v :: nodes). simpl. apply zget_Some in Hg as Hj. rewrite Z.geb_leb.
    destruct (Z.leb_spec 0 j); [|lia]. rewrite Hg. simpl. destruct (Z.leb_spec room 0); [lia|].
    rewrite E. simpl. rewrite Hm. split; [do 2 f_equal; lia|done].
Qed.

Lemma collect_buckets_spec (h : list Node) (bs : list Z) (cs : list (list Entry)) (room : Z) :
  Forall2 (chain h) bs cs -> Forall (fun c => (length c <= length h)%nat) cs -> zlen (concat cs) <= room ->
  exists nodes, collect_buckets bs h room = Some (nodes, room - zlen (concat cs))
    /\ map pair_of nodes = (concat cs).*2.
Proof.
  intros Hf. revert room. induction Hf as [|b c bs cs Hc Hf IH]; intros room Hlen Hr.
  - exists []. simpl. by rewrite zlen_nil, Z.sub_0_r.
  - apply Forall_cons in Hlen as [Hl Hlen]. simpl in *. rewrite zlen_app in *.
    pose proof (zlen_nonneg (concat cs)). pose proof (zlen_nonneg c).
    destruct (collect_chain_spec (length h) h b room c Hc Hl) as (n1 & -> & Hn1); [lia|].
    destruct (IH (room - zlen c) Hlen) as (n2 & E & Hn2); [lia|]. cbn [option_bind mbind]. rewrite E.
    exists (n1 ++ n2). split; [simpl; do 2 f_equal; lia|]. by rewrite map_app, Hn1, Hn2, fmap_app.
Qed.

Lemma collect_spec (d : Dict) cs free :
  dict_wf d cs free ->
  exists nodes, collect zero_key NULL d = Some nodes /\ map pair_of nodes = (concat cs).*2.
Proof.
  intros Hwf. destruct (collect_buckets_spec (heap d) (buckets d) cs (count d)) as (nodes & E & Hm);
    [apply Hwf|by eapply wf_lengths|by rewrite (wf_count _ _ _ Hwf)|].
  exists nodes. split; [|done]. unfold collect. rewrite E. simpl.
  by rewrite (wf_count _ _ _ Hwf), Z.sub_diag, app_nil_r.
Qed.

Lemma first_pair_spec (h : list Node) (bs : list Z) (cs : list (list Entry)) :
  Forall2 (chain h) bs cs ->
  first_pair zero_key NULL bs h = Some match concat cs with e :: _ => e.2 | [] => (zero_key, NULL) end.
Proof.
  intros Hf. induction Hf as [|b c bs cs Hc Hf IH]; [done|]. simpl. rewrite Z.geb_leb.
  destruct c as [|[j [k v]] c]; simpl in Hc.
  - destruct (Z.leb_spec 0 b); [lia|done].
  - destruct Hc as (-> & nx & Hg & _). apply zget_Some in Hg as Hj. destruct (Z.leb_spec 0 j); [|lia].
    by rewrite Hg.
Qed.

(** The enumerations fill their arrays exactly with the entries of the map, each
    once and in one common order; the first entry is an entry, or zeros when
    the dictionary is empty. *)
Theorem enumeration (d : Dict) (m : gmap K V) :
  represents d m ->
  exists pairs, pairs ≡ₚ map_to_list m
    /\ Int32Dict_GetAll zero_key NULL d = Some pairs
    /\ Int32Dict_GetKeys zero_key NULL d = Some pairs.*1
    /\ Int32Dict_GetValues zero_key NULL d = Some pairs.*2
    /\ zlen pairs = Int32Dict_Count d
    /\ Int32Dict_GetFirst zero_key NULL d = Some (default (zero_key, NULL) (head pairs)).
Proof.
  intros (cs & free & Hwf & ->). exists (concat cs).*2.
  destruct (collect_spec d cs free Hwf) as (nodes & E & Hm).
  split; [by rewrite map_to_list_to_map by apply Hwf|].
  unfold Int32Dict_GetAll, Int32Dict_GetKeys, Int32Dict_GetValues, Int32Dict_GetFirst.
  rewrite E. cbn [option_bind mbind]. rewrite <- !Hm.
  split; [done|]. split; [symmetry; f_equal; apply map_map|].
  split; [symmetry; f_equal; apply map_map|].
  split; [rewrite Hm; unfold Int32Dict_Count; rewrite (wf_count _ _ _ Hwf); unfold zlen; by rewrite length_fmap|].
  rewrite Hm, (first_pair_spec _ _ cs) by apply Hwf. by destruct (concat cs).
Qed.

(** ** Cloning *)

(** The copy of an entry's node, its value passed through [f]. *)
Definition cloned (f : K -> V -> V) (h h' : list Node) (e : Entry) : Prop :=
  exists nx, zget h e.1 = Some (mkNode nx e.2.1 e.2.2)
    /\ zget h' e.1 = Some (mkNode nx e.2.1 (f e.2.1 e.2.2)).

Definition clone_entry (f : K -> V -> V) (e : Entry) : Entry := (e.1, (e.2.1, f e.2.1 e.2.2)).

Lemma chain_cloned (f : K -> V -> V) (h h' : list Node) (i : Z) (l : list Entry) :
  chain h i l -> Forall (cloned f h h') l -> chain h' i (clone_entry f <$> l).
Proof.
  revert i. induction l as [|[j [k v]] l IH]; intros i Hc Hf; [done|].
  destruct Hc as (-> & nx & Hg & Hc). apply Forall_cons in Hf as [(nx' & Hg1 & Hg2) Hf]. simpl in *.
  simplify_eq. split; [done|]. exists nx. split; [done|]. by apply IH.
Qed.

Lemma clone_chain_spec (fuel : nat) (f : K -> V -> V) (h h' : list Node) (i : Z) (l : list Entry) :
  chain h i l -> (length l <= fuel)%nat -> zlen h' = zlen h -> NoDup l.*1 ->
  exists h'', clone_chain fuel f h i h' = Some h'' /\ zlen h'' = zlen h /\ Forall (cloned f h h'') l
    /\ forall j, j ∉ l.*1 -> zget h'' j = zget h' j.
Proof.
  revert i fuel h'. induction l as [|[j [k v]] l IH]; intros i fuel h' Hc Hf Hl Hnd.
  - exists h'. simpl in Hc. split; [|by constructor].
    destruct fuel; simpl; rewrite Z.geb_leb; (destruct (Z.leb_spec 0 i); [lia|done]).
  - destruct Hc as (-> & nx & Hg & Hc). destruct fuel as [|fuel]; [simpl in Hf; lia|].
    simpl in Hnd. apply NoDup_cons in Hnd as [Hj Hnd].
    destruct (zset_is_Some h' j (mkNode nx k (f k v))) as [_ [h1 Hh1]];
      [rewrite Hl; apply zget_is_Some; by rewrite Hg|].
    destruct (IH nx fuel h1 Hc) as (h'' & E & Hl' & Hcl & Hout);
      [simpl in Hf; lia|by rewrite (zset_zlen _ _ _ _ Hh1)|done|].
    exists h''. split; [|split; [done|split]].
    + simpl. apply zget_Some in Hg as Hj0. rewrite Z.geb_leb. destruct (Z.leb_spec 0 j); [|lia].
      rewrite Hg. cbn [option_bind mbind next key value]. rewrite Hh1. done.
    + constructor; [|done]. exists nx. simpl. split; [done|].
      rewrite Hout by done. by eapply zset_get_eq.
    + intros i Hi. simpl in Hi. apply not_elem_of_cons in Hi as [Hne Hi]. rewrite Hout by done.
      apply (zset_get_ne _ _ _ _ _ Hh1). congruence.
Qed.

Lemma clone_buckets_spec (f : K -> V -> V) (h h' : list Node) (bs : list Z) (cs : list (list Entry)) :
  Forall2 (chain h) bs cs -> Forall (fun c => (length c <= length h)%nat) cs -> zlen h' = zlen h ->
  NoDup (concat cs).*1 ->
  exists h'', clone_buckets f h bs h' = Some h'' /\ zlen h'' = zlen h
    /\ Forall (cloned f h h'') (concat cs) /\ forall j, j ∉ (concat cs).*1 -> zget h'' j = zget h' j.
Proof.
  intros Hf. revert h'. induction Hf as [|b c bs cs Hc Hf IH]; intros h' Hlen Hl Hnd; [by exists h'|].
  apply Forall_cons in Hlen as [Hlc Hlen]. simpl in *. rewrite fmap_app in *.
  apply NoDup_app in Hnd as (Hnd1 & Hdis & Hnd2).
  destruct (clone_chain_spec (length h) f h h' b c Hc Hlc Hl Hnd1) as (h1 & -> & Hl1 & Hcl1 & Hout1).
  destruct (IH h1 Hlen Hl1 Hnd2) as (h'' & E & Hl2 & Hcl2 & Hout2). cbn [option_bind mbind].
  exists h''. split; [done|]. split; [done|]. split.
  - apply Forall_app. split; [|done]. rewrite Forall_forall in *. intros e He.
    destruct (Hcl1 e He) as (nx & Hg1 & Hg2). exists nx. split; [done|].
    rewrite Hout2; [done|]. apply Hdis. by apply list_elem_of_fmap_2.
  - intros j Hj. rewrite not_elem_of_app in Hj. destruct Hj. by rewrite Hout2, Hout1.
Qed.

Lemma clone_map (f : K -> V -> V) (l : list Entry) :
  NoDup l.*2.*1 ->
  (list_to_map (clone_entry f <$> l).*2 : gmap K V) = map_imap (fun k v => Some (f k v)) (list_to_map l.*2).
Proof.
  intros Hnd. apply map_eq. intros k. rewrite map_lookup_imap. induction l as [|[j [k' v]] l IH]; simpl.
  - by rewrite !lookup_empty.
  - simpl in Hnd. apply NoDup_cons in Hnd as [_ Hnd]. destruct (decide (k' = k)) as [->|Hne].
    + by rewrite !lookup_insert_eq.
    + rewrite !lookup_insert_ne by done. by apply IH.
Qed.

(** A clone is a dictionary of its own with the same keys, each value passed
    once through the cloner, or copied when there is none. *)
Theorem Clone_spec (d : Dict) (m : gmap K V) (valueCloner : option (K -> V -> V)) :
  represents d m ->
  exists d', Int32Dict_Clone zero_key NULL d valueCloner = Some d'
    /\ represents d' (map_imap (fun k v => Some (default (fun _ v => v) valueCloner k v)) m)
    /\ mask d' = mask d.
Proof.
  intros (cs & free & Hwf & ->). set (f := default (fun _ v => v) valueCloner).
  pose proof (wf_table _ _ _ Hwf) as Ht. pose proof (wf_NoDup _ _ _ Hwf) as Hnd.
  apply NoDup_app in Hnd as (Hnd & Hdis & Hndf). pose proof (table_heap _ _ _ _ Ht) as Hlh.
  pose proof (table_size_pos _ (wf_size _ _ _ Hwf)). pose proof (wf_length _ _ _ Hwf).
  unfold Int32Dict_Clone. fold f.
  destruct (clone_buckets_spec f (heap d) (repeat (free_node zero_key NULL 0) (Z.to_nat (mask d + 1)))
    (buckets d) cs) as (h1 & -> & Hl1 & Hcl & _);
    [apply Ht|by eapply wf_lengths|unfold zlen in *; rewrite repeat_length; lia|done|].
  cbn [option_bind mbind].
  destruct (clone_chain_spec (length (heap d)) (fun _ v => v) (heap d) h1 (firstFree d) free)
    as (h2 & -> & Hl2 & Hclf & Hout); [apply Hwf|pose proof (zlen_nonneg (concat cs)); unfold zlen in *; lia|done..|].
  cbn [option_bind mbind]. eexists. split; [done|]. split; [|done].
  set (cs' := (fun c : list Entry => clone_entry f <$> c) <$> cs).
  assert (Hcat : concat cs' = clone_entry f <$> concat cs) by (symmetry; apply concat_map).
  assert (Hidx : forall g (l : list Entry), (clone_entry g <$> l).*1 = l.*1)
    by (intros; by rewrite <- list_fmap_compose).
  assert (Hkeys : forall g (l : list Entry), (clone_entry g <$> l).*2.*1 = l.*2.*1)
    by (intros; by rewrite <- !list_fmap_compose).
  exists cs', (clone_entry (fun _ v => v) <$> free).
  split; [|by rewrite Hcat, clone_map by apply Hwf].
  split; simpl; rewrite ?Hcat, ?Hidx, ?Hkeys; try apply Hwf.
  - split; [apply Ht|by rewrite Hl2| |].
    + apply Forall2_fmap_r. pose proof (table_chains _ _ _ _ Ht) as Hf. apply Forall2_lookup. intros b.
      rewrite Forall2_lookup in Hf. specialize (Hf b).
      destruct (cs !! b) as [c|] eqn:Ec, (buckets d !! b); inversion Hf; subst; constructor.
      eapply chain_cloned; [done|]. rewrite Forall_forall in *. intros e He.
      assert (Hin : e ∈ concat cs) by (by eapply elem_of_concat).
      destruct (Hcl e Hin) as (nx & Hg1 & Hg2). exists nx. split; [done|].
      rewrite Hout; [done|]. apply Hdis. by apply list_elem_of_fmap_2.
    + intros b c e Hb He. unfold cs' in Hb. rewrite list_lookup_fmap in Hb.
      destruct (cs !! b) as [c0|] eqn:Ec; [|done]. simpl in Hb. injection Hb as <-.
      apply list_elem_of_fmap in He as (e0 & -> & He). simpl. by eapply (table_hash _ _ _ _ Ht).
  - eapply chain_cloned; [apply Hwf|done].
  - rewrite (wf_count _ _ _ Hwf). unfold zlen. by rewrite length_fmap.
Qed.

(** ** The interface *)

#[export] Instance Int32Dict_ops : MapOps K V Dict := {
  NULL_value := NULL;
  ClearWithSize := Int32Dict_ClearWithSize zero_key NULL;
  ContainsKey := Int32Dict_ContainsKey hash;
  GetValue := Int32Dict_GetValue hash NULL;
  TryGetValue := Int32Dict_TryGetValue hash NULL;
  Add := Int32Dict_Add hash zero_key NULL;
  SetValue := Int32Dict_SetValue hash zero_key NULL;
  ReplaceValue := Int32Dict_ReplaceValue hash;
  Remove := Int32Dict_Remove hash zero_key NULL;
  Count := Int32Dict_Count
}.

#[export] Program Instance Int32Dict_laws : MapLaws K V Dict := {
  represented := represents;
  capacity := 2 ^ 30
}.
Next Obligation. apply ClearWithSize_spec. Qed.
Next Obligation. intros. by apply ContainsKey_spec. Qed.
Next Obligation. intros. simpl. unfold Int32Dict_GetValue. by rewrite (find_value_spec d m). Qed.
Next Obligation.
  intros. simpl. unfold Int32Dict_TryGetValue. rewrite (find_value_spec d m) by done.
  by destruct (m !! k).
Qed.
Next Obligation. intros. by apply Add_spec. Qed.
Next Obligation. intros. by apply SetValue_spec. Qed.
Next Obligation. intros. by apply ReplaceValue_spec. Qed.
Next Obligation. intros. by apply Remove_spec. Qed.
Next Obligation. intros. by apply represents_size. Qed.

(** C10: the hash table refines the finite map: any sequence of operations on a new
    dictionary, interleaving insertions, replacements, removals and lookups
    with the resizes they cause, returns, stays inside the arrays, gives the
    answers of the map and ends in a table that represents it. *)
Theorem Int32Dict_refines_map (newSize : Z) (ops : list (MapOp K V)) :
  zlen ops <= 2 ^ 30 ->
  exists d d', Int32Dict_CreateWithSize zero_key NULL newSize = Some d
    /\ run_ops d ops = Some (d', (spec_ops ∅ ops).2) /\ represents d' (spec_ops ∅ ops).1.
Proof.
  intros Hl. destruct (ClearWithSize_spec newSize) as (d & E & Hr).
  destruct (run_ops_refines (L := Int32Dict_laws) d ∅ ops Hr) as (d' & Hrun & Hr'); [by rewrite map_size_empty|].
  by exists d, d'.
Qed.

End DictProps.

(** ** Witnesses *)
Section Witnesses.
#[local] Notation ops := [OpSet 3 30; OpAdd 19 31; OpAdd 3 32; OpRemove 3; OpTryGet 19; OpCount].

Lemma Int32Dict_refines_map_witness :
  exists d d', Int32Dict_CreateWithSize 0 (-1) 16 = Some d
    /\ run_ops (O := Int32Dict_ops (fun k => k) 0 (-1)) d ops
       = Some (d', [ABool false; ABool true; ABool false; ABool true; AFound 31 true; ACount 1])
    /\ represents (fun k => k) d' (<[19 := 31]> ∅).
Proof.
  destruct (Int32Dict_refines_map (fun k : Z => k) 0 (-1) 16 ops) as (d & d' & H1 & H2 & H3);
    [vm_compute; discriminate|].
  exists d, d'. split; [exact H1|]. split; [exact H2|].
  replace (<[19 := 31]> ∅) with (spec_ops (O := Int32Dict_ops (fun k => k) 0 (-1)) (∅ : gmap Z Z) ops).1;
    [exact H3|]. by vm_compute.
Defined.

(** A dictionary with one entry. *)
Lemma example_dict : exists d, represents (fun k : Z => k) d (<[3 := 30]> ∅ : gmap Z Z).
Proof.
  destruct (ClearWithSize_spec (fun k : Z => k) 0 (-1) 16) as (d & _ & Hr).
  destruct (SetValue_spec (fun k : Z => k) 0 (-1) d ∅ 3 30 Hr) as (d' & _ & Hr'); [done|]. by exists d'.
Qed.

Lemma enumeration_witness :
  exists d pairs, Int32Dict_GetAll 0 (-1) d = Some pairs /\ pairs ≡ₚ [(3, 30)]
    /\ Int32Dict_GetKeys 0 (-1) d = Some pairs.*1.
Proof.
  destruct example_dict as [d Hr].
  destruct (enumeration (fun k : Z => k) 0 (-1) d _ Hr) as (pairs & Hp & H1 & H2 & _).
  exists d, pairs. split; [exact H1|]. split; [|exact H2].
  rewrite Hp, insert_empty, map_to_list_singleton. reflexivity.
Defined.

Lemma Clone_spec_witness :
  exists d d', Int32Dict_Clone 0 (-1) d (Some (fun k v => k + v)) = Some d'
    /\ represents (fun k : Z => k) d' (<[3 := 33]> ∅).
Proof.
  destruct example_dict as [d Hr].
  destruct (Clone_spec (fun k : Z => k) 0 (-1) d _ (Some (fun k v => k + v)) Hr) as (d' & H1 & H2 & _).
  exists d, d'. split; [exact H1|].
  replace (<[3 := 33]> ∅) with (map_imap (fun k v : Z => Some (k + v)) (<[3 := 30]> ∅ : gmap Z Z));
    [exact H2|]. by vm_compute.
Defined.

End Witnesses.
