(* ===== verification/Text.v ===== *)
(** * Text: byte strings, UTF-8 and integers as text

    The parts of [src/string] the front end rests on: equality
    ([string_core.c]), UTF-8 ([string_unicode.c] and [StringBuilder_AppendUnicode]
    of [stringbuilder.c]), integers printed and parsed
    ([string_createfromint.c], [string_parse.c]) and C escapes
    ([string_extra.c]).

    A string is the list of its bytes; a string object carries a terminating
    zero after them ([String_GetBytes]), which C code may read.  A pointer into
    a text is an index, and reading outside the array is [None]. *)

From S2P Require Import Prelude.
From Stdlib Require Import String Ascii.
From Stdlib Require Strings.Byte.

(** ** Characters and literals

    ["a"%code] is the number of a character, ["abc"%bytes] a string of bytes. *)

Definition code_of_literal (l : list Byte.byte) : option Z :=
  match l with [b] => Some (Z.of_N (Byte.to_N b)) | _ => None end.
Definition literal_of_code (z : Z) : option (list Byte.byte) := None.

Declare Scope code_scope.
Delimit Scope code_scope with code.
String Notation Z code_of_literal literal_of_code : code_scope.

(** The double quote, which Rocq's literals cannot hold on its own. *)
Definition QUOTE : Z := 34.

Notation Str := (list Z).

Definition bytes (s : string) : Str := map (fun b => Z.of_N (Byte.to_N b)) (list_byte_of_string s).

Definition is_byte (c : Z) : Prop := inU 8 c.

(** [lo <= c && c <= hi] *)
Definition within (c lo hi : Z) : bool := (lo <=? c) && (c <=? hi).

Definition is_digit (c : Z) : bool := within c "0"%code "9"%code.
Definition is_lower (c : Z) : bool := within c "a"%code "z"%code.
Definition is_upper (c : Z) : bool := within c "A"%code "Z"%code.

Definition String_GetBytes (str : Str) : list Z := str ++ [0].

(** The bytes [text[start], ..., text[start + length - 1]]. *)
Definition substring {A} (text : list A) (start length : Z) : list A :=
  take (Z.to_nat length) (drop (Z.to_nat start) text).

(** ** Equality *)

(** [MemCmp(a, b, n) == 0] for texts of the same length. *)
Definition same_bytes (a b : Str) : bool := bool_decide (a = b).

Definition equal_bytes (a b : Str) : bool :=
  if negb (zlen a =? zlen b) then false
  else match a, b with
       | [], _ => true
       | [a0], b0 :: _ => a0 =? b0
       | [a0; a1], b0 :: b1 :: _ => (a0 =? b0) && (a1 =? b1)
       | [a0; a1; a2], b0 :: b1 :: b2 :: _ => (a0 =? b0) && (a1 =? b1) && (a2 =? b2)
       | [a0; a1; a2; a3], b0 :: b1 :: b2 :: b3 :: _ =>
           (a0 =? b0) && (a1 =? b1) && (a2 =? b2) && (a3 =? b3)
       | _, _ => same_bytes a b
       end.

(** The strings of the callers may be NULL; the same pointer is the same text. *)
Definition String_Equals (a b : option Str) : bool :=
  match a, b with
  | None, None => true
  | None, Some _ => true
  | Some _, None => false
  | Some a, Some b => equal_bytes a b
  end.

Definition String_EqualsInternal (a : option Str) (b : Str) : bool :=
  match a with None => false | Some a => equal_bytes a b end.

(** ** UTF-8 *)

(** [(c & 0xC0) != 0x80] *)
Definition not_continuation (c : Z) : bool := negb (Z.land c 0xC0 =? 0x80).

(** The code point at [start], and where the next one starts; -1 for an illegal
    one.  All arithmetic is on [Int32] and in range. *)
Definition String_ExtractUnicodeCharacterInternal (text : list Z) (start end_ : Z) : option (Z * Z) :=
  c1 ← zget text start;
  let p := start + 1 in
  if c1 <? 0x80 then Some (c1, p)
  else if c1 <? 0xC2 then Some (-1, p)
  else if c1 <? 0xE0 then
    if p >=? end_ then Some (-1, p)
    else
      c2 ← zget text p;
      if not_continuation c2 then Some (-1, p + 1)
      else Some (Z.shiftl c1 6 + c2 - 0x3080, p + 1)
  else if c1 <? 0xF0 then
    if p >=? end_ - 1 then Some (-1, end_)
    else
      c2 ← zget text p;
      c3 ← zget text (p + 1);
      if not_continuation c2 then Some (-1, p + 2)
      else if not_continuation c3 then Some (-1, p + 2)
      else if (c1 =? 0xE0) && (c2 <? 0xA0) then Some (-1, p + 2)
      else Some (Z.shiftl c1 12 + Z.shiftl c2 6 + c3 - 0xE2080, p + 2)
  else if c1 <? 0xF5 then
    if p >=? end_ - 2 then Some (-1, end_)
    else
      c2 ← zget text p;
      c3 ← zget text (p + 1);
      c4 ← zget text (p + 2);
      if not_continuation c2 then Some (-1, p + 3)
      else if not_continuation c3 then Some (-1, p + 3)
      else if not_continuation c4 then Some (-1, p + 3)
      else if (c1 =? 0xF0) && (c2 <? 0x90) then Some (-1, p + 3)
      else if (c1 =? 0xF4) && (c2 >=? 0x90) then Some (-1, p + 3)
      else Some (Z.shiftl c1 18 + Z.shiftl c2 12 + Z.shiftl c3 6 + c4 - 0x3C82080, p + 3)
  else Some (-1, p).

(** The bytes [StringBuilder_AppendUnicode] adds for [value], an unsigned word. *)
Definition unicode_bytes (value : Z) : list Z :=
  let three value :=
    [wrapU 8 (Z.lor (Z.shiftr value 12) 0xE0);
     wrapU 8 (Z.lor (Z.land (Z.shiftr value 6) 0x3F) 0x80);
     wrapU 8 (Z.lor (Z.land value 0x3F) 0x80)] in
  if value <? 0x80 then [wrapU 8 value]
  else if value <? 0x800 then
    [wrapU 8 (Z.lor (Z.shiftr value 6) 0xC0); wrapU 8 (Z.lor (Z.land value 0x3F) 0x80)]
  else if value <? 0x10000 then three value
  else if value <? 0x110000 then
    [wrapU 8 (Z.lor (Z.shiftr value 18) 0xF0);
     wrapU 8 (Z.lor (Z.land (Z.shiftr value 12) 0x3F) 0x80);
     wrapU 8 (Z.lor (Z.land (Z.shiftr value 6) 0x3F) 0x80);
     wrapU 8 (Z.lor (Z.land value 0x3F) 0x80)]
  else three 0xFFFD.

(** ** Integers *)

Definition BUFFER_SIZE : Z := 128.

Definition _digits : Str := bytes "0123456789ABCDEFGHIJKLMNOPQRSTUVWXYZ".

(** The loop fills the buffer from its end; [room] is what is left of it, and
    [digits] what has been written. *)
Fixpoint CreateFromInteger_loop (fuel : nat) (room value numericBase : Z) (digits : Str) : option Str :=
  if value =? 0 then Some digits
  else
    match fuel with
    | O => None
    | S fuel =>
        let digit := value mod numericBase in
        let value := value / numericBase in
        if room <=? 0 then None
        else
          d ← zget _digits digit;
          CreateFromInteger_loop fuel (room - 1) value numericBase (d :: digits)
    end.

Definition String_CreateFromIntegerInternal (value numericBase : Z) : option Str :=
  if value =? 0 then Some ["0"%code]
  else CreateFromInteger_loop 64 BUFFER_SIZE value numericBase [].

(** The outer [option] is undefined behaviour, the inner one is NULL. *)
Definition String_CreateFromInteger (value numericBase : Z) (includeSign : bool) : option (option Str) :=
  if (numericBase <? 2) || (numericBase >? 36) then Some None
  else
    let '(negative, value) := if value <? 0 then (true, wrapS 64 (- value)) else (false, value) in
    digits ← String_CreateFromIntegerInternal (wrapU 64 value) numericBase;
    if (negative || includeSign) && (zlen digits >=? BUFFER_SIZE) then None
    else Some (Some (if (negative : bool) then "-"%code :: digits
                     else if includeSign then "+"%code :: digits else digits)).

Definition String_CreateFromUnsignedInteger (value numericBase : Z) : option (option Str) :=
  if (numericBase <? 2) || (numericBase >? 36) then Some None
  else digits ← String_CreateFromIntegerInternal value numericBase; Some (Some digits).

(** The digit value of a character, 99 for none. *)
Definition digitValue (c : Z) : Z :=
  if is_digit c then c - "0"%code
  else if is_upper c then c - "A"%code + 10
  else if is_lower c then c - "a"%code + 10
  else 99.

(** The loop over the text from [i] on: it answers the index reached, the number
    of digits and the value.  A character that is no digit ends the loop after it
    has been stepped over. *)
Fixpoint ParseInteger_loop (text : list Z) (i numericBase value digits : Z) : Z * Z * Z :=
  match text with
  | [] => (i, digits, value)
  | c :: text =>
      if (c =? "'"%code) || (c =? QUOTE) || (c =? "_"%code)
      then ParseInteger_loop text (i + 1) numericBase value digits
      else
        let v := digitValue c in
        if v >=? numericBase then (i + 1, digits, value)
        else ParseInteger_loop text (i + 1) numericBase (wrapU 64 (wrapU 64 (value * numericBase) + v)) (digits + 1)
  end.

Definition ParseIntegerInternal (text : Str) (index numericBase : Z) : Z * Z * Z :=
  ParseInteger_loop (drop (Z.to_nat index) text) index numericBase 0 0.

(** [while (index < length && text[index] <= 32) index++;] *)
Fixpoint skip_spaces (text : list Z) (index : Z) : Z :=
  match text with
  | c :: text => if c <=? 32 then skip_spaces text (index + 1) else index
  | [] => index
  end.

Definition skip_from (str : Str) (index : Z) : Z := skip_spaces (drop (Z.to_nat index) str) index.

(** The result is stored in both cases; the flag says whether the text was a number. *)
Definition String_ParseInteger (str : Str) (numericBase : Z) : Z * bool :=
  if (numericBase <? 2) || (numericBase >? 36) || (zlen str =? 0) then (0, false)
  else
    let index := skip_from str 0 in
    let sign := zget str index in
    let '(neg, index) :=
      if bool_decide (sign = Some "+"%code) then (false, index + 1)
      else if bool_decide (sign = Some "-"%code) then (true, index + 1)
      else (false, index) in
    let '(index, digits, uvalue) := ParseIntegerInternal str index numericBase in
    let index := skip_from str index in
    if (digits =? 0) || negb (index =? zlen str) then (0, false)
    else (if (neg : bool) then wrapS 64 (- wrapS 64 uvalue) else wrapS 64 uvalue, true).
