(* ===== verification/TextProps.v ===== *)
(** * TextProps: UTF-8 and integers as text, correct

    The decoder is the exact inverse of the encoder ([utf8_exact]); every 64-bit
    integer printed in any base parses back ([integer_text_roundtrip]). *)

From Stdlib Require Import String.
From S2P Require Import Prelude Text.

(** ** Substrings *)

Lemma substring_get {A} (text : list A) (i n j : Z) (x : A) :
  0 <= i -> zget (substring text i n) j = Some x -> zget text (i + j) = Some x.
Proof.
  intros Hi [Hj H]%zget_Some. unfold substring in H. apply zget_Some. split; [lia|].
  apply lookup_take_Some in H as [H _]. rewrite lookup_drop in H.
  by replace (Z.to_nat (i + j)) with (Z.to_nat i + Z.to_nat j)%nat by lia.
Qed.

Lemma substring_cons {A} (text : list A) (i n : Z) (x : A) :
  0 <= i -> 0 < n -> zget text i = Some x -> substring text i n = x :: substring text (i + 1) (n - 1).
Proof.
  intros Hi Hn [_ H]%zget_Some. unfold substring.
  replace (Z.to_nat n) with (S (Z.to_nat (n - 1))) by lia.
  replace (Z.to_nat (i + 1)) with (S (Z.to_nat i)) by lia.
  by rewrite (drop_S _ _ _ H).
Qed.

Lemma substring_nil {A} (text : list A) (i : Z) : substring text i 0 = [].
Proof. done. Qed.

Lemma zget_byte (text : list Z) (i c : Z) : Forall is_byte text -> zget text i = Some c -> 0 <= c < 256.
Proof. intros H [_ Hc]%zget_Some. rewrite Forall_lookup in H. exact (H _ _ Hc). Qed.

(** ** Bits of bytes *)

Lemma lor_high (k x h : Z) : 0 <= k -> 0 <= x < 2 ^ k -> Z.lor x (h * 2 ^ k) = x + h * 2 ^ k.
Proof.
  intros Hk Hx. rewrite <- Z.lxor_lor, <- Z.add_nocarry_lxor; [done|..];
    apply Z.bits_inj'; intros n Hn; rewrite Z.land_spec, Z.bits_0; destruct (Z.ltb_spec n k).
  1, 3: by rewrite (Z.mul_pow2_bits_low h k n) by lia; rewrite andb_false_r.
  all: destruct (decide (x = 0)) as [->|]; [by rewrite Z.bits_0|];
    rewrite (Z.bits_above_log2 x n); [done|lia|];
    apply Z.lt_le_trans with k; [apply Z.log2_lt_pow2; lia|lia].
Qed.

(** A test of bytes is checked on all of them. *)
Lemma byte_case (f : Z -> bool) (c : Z) :
  forallb (fun n => f (Z.of_nat n)) (seq 0 256) = true -> 0 <= c < 256 -> f c = true.
Proof.
  intros H Hc. rewrite forallb_forall in H. specialize (H (Z.to_nat c)).
  rewrite Z2Nat.id in H by lia. apply H, in_seq. lia.
Qed.

Lemma not_continuation_spec (c : Z) : 0 <= c < 256 -> not_continuation c = negb (within c 0x80 0xBF).
Proof.
  intros Hc. apply Bool.eqb_prop.
  apply (byte_case (fun c => Bool.eqb (not_continuation c) (negb (within c 0x80 0xBF))) c); [by vm_compute|done].
Qed.

Lemma tail_byte (x : Z) : wrapU 8 (Z.lor (Z.land x 0x3F) 0x80) = x mod 64 + 128.
Proof.
  change 0x3F with (Z.ones 6). rewrite Z.land_ones by lia. change (2 ^ 6) with 64.
  pose proof (Z.mod_pos_bound x 64 ltac:(lia)).
  change 0x80 with (2 * 2 ^ 6). rewrite lor_high by lia. change (2 * 2 ^ 6) with 128.
  apply wrapU_id. unfold inU. change (2 ^ 8) with 256. lia.
Qed.

Lemma head_byte (k h x : Z) :
  0 <= k -> 0 <= x < 2 ^ k -> 0 <= h * 2 ^ k -> (h + 1) * 2 ^ k <= 256 ->
  wrapU 8 (Z.lor x (h * 2 ^ k)) = x + h * 2 ^ k.
Proof. intros. rewrite lor_high by lia. apply wrapU_id. unfold inU. change (2 ^ 8) with 256. lia. Qed.

(** ** UTF-8 *)

(** The encoding, by division. *)
Lemma unicode_bytes_arith (v : Z) : 0 <= v < 0x110000 ->
  unicode_bytes v =
    if v <? 0x80 then [v]
    else if v <? 0x800 then [v / 64 + 192; v mod 64 + 128]
    else if v <? 0x10000 then [v / 4096 + 224; (v / 64) mod 64 + 128; v mod 64 + 128]
    else [v / 262144 + 240; (v / 4096) mod 64 + 128; (v / 64) mod 64 + 128; v mod 64 + 128].
Proof.
  intros Hv. unfold unicode_bytes. rewrite !tail_byte, !Z.shiftr_div_pow2 by lia.
  change (2 ^ 6) with 64. change (2 ^ 12) with 4096. change (2 ^ 18) with 262144.
  destruct (Z.ltb_spec v 0x80) as [|H1].
  { rewrite wrapU_id; [done|]. unfold inU. change (2 ^ 8) with 256. lia. }
  destruct (Z.ltb_spec v 0x800) as [|H2].
  { f_equal. apply (head_byte 5 6); try lia. change (2 ^ 5) with 32. split; [apply Z.div_pos; lia|].
    apply Z.div_lt_upper_bound; lia. }
  destruct (Z.ltb_spec v 0x10000) as [|H3].
  { f_equal. apply (head_byte 4 14); try lia. change (2 ^ 4) with 16. split; [apply Z.div_pos; lia|].
    apply Z.div_lt_upper_bound; lia. }
  destruct (Z.ltb_spec v 0x110000) as [_|]; [|lia].
  f_equal. apply (head_byte 3 30); try lia. change (2 ^ 3) with 8. split; [apply Z.div_pos; lia|].
  apply Z.div_lt_upper_bound; lia.
Qed.

Lemma unicode_bytes_length (v : Z) : 0 < zlen (unicode_bytes v) <= 4.
Proof. unfold unicode_bytes. cases_goal; unfold zlen; simpl; lia. Qed.

Ltac byte_arith := unfold within; Z.div_mod_to_equations; lia.

Lemma is_continuation (c : Z) : 128 <= c < 192 -> not_continuation c = false.
Proof. intros Hc. rewrite not_continuation_spec by lia. unfold within. lia. Qed.

(** Resolve the tests of the decoder that the bounds in context decide. *)
Ltac decide_tests :=
  repeat match goal with
         | |- context [?a <? ?b] => destruct (Z.ltb_spec a b); [try (exfalso; byte_arith)|try (exfalso; byte_arith)]
         | |- context [?a >=? ?b] => rewrite (Z.geb_leb a b)
         | |- context [?a <=? ?b] => destruct (Z.leb_spec a b); [try (exfalso; byte_arith)|try (exfalso; byte_arith)]
         | |- context [not_continuation ?c] => rewrite (is_continuation c) by byte_arith
         | |- context [?a =? ?b] => destruct (Z.eqb_spec a b); [try (exfalso; byte_arith)|]
         end; cbn [andb].

(** Decoding what has been encoded. *)
Lemma Extract_unicode_bytes (text : list Z) (start end_ v : Z) :
  0 <= start -> 0 <= v < 0x110000 ->
  substring text start (zlen (unicode_bytes v)) = unicode_bytes v ->
  start + zlen (unicode_bytes v) <= end_ ->
  String_ExtractUnicodeCharacterInternal text start end_ = Some (v, start + zlen (unicode_bytes v)).
Proof.
  intros Hs Hv Hsub Hend.
  assert (Hget : forall j x, zget (unicode_bytes v) j = Some x -> zget text (start + j) = Some x).
  { intros j x Hj. apply (substring_get text start (zlen (unicode_bytes v))); [done|]. by rewrite Hsub. }
  clear Hsub. rewrite unicode_bytes_arith in * by done.
  unfold String_ExtractUnicodeCharacterInternal.
  pose proof (Hget 0) as H0. pose proof (Hget 1) as H1. pose proof (Hget 2) as H2. pose proof (Hget 3) as H3.
  clear Hget. rewrite Z.add_0_r in H0.
  destruct (Z.ltb_spec v 0x80); [|destruct (Z.ltb_spec v 0x800); [|destruct (Z.ltb_spec v 0x10000)]];
    rewrite ?zlen_cons, ?zlen_nil in *;
    rewrite (H0 _ eq_refl); cbn [option_bind mbind];
    try rewrite (H1 _ eq_refl); replace (start + 1 + 1) with (start + 2) by lia;
    try rewrite (H2 _ eq_refl); replace (start + 1 + 2) with (start + 3) by lia;
    try rewrite (H3 _ eq_refl); cbn [option_bind mbind]; clear H0 H1 H2 H3;
    rewrite ?Z.shiftl_mul_pow2 by lia; decide_tests; f_equal; f_equal; try byte_arith.
Qed.

Lemma not_continuation_inv (c : Z) : 0 <= c < 256 -> not_continuation c = false -> 128 <= c < 192.
Proof. intros Hc. rewrite not_continuation_spec by done. unfold within. lia. Qed.

(** The bytes of a code point, from the bytes read. *)
Lemma unicode_bytes_2 (c1 c2 : Z) : 0xC2 <= c1 < 0xE0 -> 128 <= c2 < 192 ->
  0 <= Z.shiftl c1 6 + c2 - 0x3080 < 0x110000
  /\ unicode_bytes (Z.shiftl c1 6 + c2 - 0x3080) = [c1; c2].
Proof.
  intros H1 H2. rewrite Z.shiftl_mul_pow2 by lia. change (2 ^ 6) with 64. split; [lia|].
  rewrite unicode_bytes_arith by lia. decide_tests. f_equal; [byte_arith|f_equal; byte_arith].
Qed.

Lemma unicode_bytes_3 (c1 c2 c3 : Z) :
  0xE0 <= c1 < 0xF0 -> 128 <= c2 < 192 -> 128 <= c3 < 192 -> (c1 = 0xE0 -> 0xA0 <= c2) ->
  0 <= Z.shiftl c1 12 + Z.shiftl c2 6 + c3 - 0xE2080 < 0x110000
  /\ unicode_bytes (Z.shiftl c1 12 + Z.shiftl c2 6 + c3 - 0xE2080) = [c1; c2; c3].
Proof.
  intros H1 H2 H3 H4. rewrite !Z.shiftl_mul_pow2 by lia. change (2 ^ 6) with 64. change (2 ^ 12) with 4096.
  split; [lia|]. rewrite unicode_bytes_arith by lia. decide_tests. repeat f_equal; byte_arith.
Qed.

Lemma unicode_bytes_4 (c1 c2 c3 c4 : Z) :
  0xF0 <= c1 < 0xF5 -> 128 <= c2 < 192 -> 128 <= c3 < 192 -> 128 <= c4 < 192 ->
  (c1 = 0xF0 -> 0x90 <= c2) -> (c1 = 0xF4 -> c2 < 0x90) ->
  0 <= Z.shiftl c1 18 + Z.shiftl c2 12 + Z.shiftl c3 6 + c4 - 0x3C82080 < 0x110000
  /\ unicode_bytes (Z.shiftl c1 18 + Z.shiftl c2 12 + Z.shiftl c3 6 + c4 - 0x3C82080) = [c1; c2; c3; c4].
Proof.
  intros H1 H2 H3 H4 H5 H6. rewrite !Z.shiftl_mul_pow2 by lia.
  change (2 ^ 6) with 64. change (2 ^ 12) with 4096. change (2 ^ 18) with 262144.
  split; [lia|]. rewrite unicode_bytes_arith by lia. decide_tests. repeat f_equal; byte_arith.
Qed.

(** What the decoder says about the bytes from [start] on. *)
Definition decoded (text : list Z) (start end_ code next : Z) : Prop :=
  start < next <= end_
  /\ (code = -1 \/ 0 <= code < 0x110000 /\ substring text start (next - start) = unicode_bytes code).

Lemma decoded_error text start end_ next : start < next <= end_ -> decoded text start end_ (-1) next.
Proof. intros H. split; [done|by left]. Qed.

(** The code point whose encoding lies at [start]. *)
Lemma decoded_code text start end_ code next l :
  0 <= start -> Forall2 (fun j c => zget text (start + Z.of_nat j) = Some c) (seq 0 (length l)) l ->
  0 <= code < 0x110000 /\ unicode_bytes code = l ->
  next = start + zlen l -> next <= end_ -> decoded text start end_ code next.
Proof.
  intros Hs Hl [Hc Hu] -> He. pose proof (unicode_bytes_length code) as Hlen. rewrite Hu in Hlen.
  split; [lia|]. right. split; [done|]. rewrite Hu. clear Hu Hlen.
  replace (start + zlen l - start) with (zlen l) by lia.
  assert (H : forall k start, 0 <= start ->
    Forall2 (fun j c => zget text (start + (Z.of_nat j - Z.of_nat k)) = Some c) (seq k (length l)) l ->
    substring text start (zlen l) = l).
  { clear. induction l as [|c l IH]; intros k start Hs Hl; [done|].
    simpl in Hl. apply Forall2_cons in Hl as [Hc Hl]. rewrite Z.sub_diag, Z.add_0_r in Hc.
    pose proof (zlen_nonneg l). rewrite zlen_cons, (substring_cons _ _ _ c), Z.add_simpl_r by (done || lia). f_equal.
    apply (IH (S k)); [lia|]. eapply Forall2_impl; [exact Hl|]. intros j x. simpl.
    by replace (start + 1 + (Z.of_nat j - Z.of_nat (S k))) with (start + (Z.of_nat j - Z.of_nat k)) by lia. }
  apply (H O); [done|]. eapply Forall2_impl; [exact Hl|]. intros j x. by rewrite Z.sub_0_r.
Qed.

Ltac no_code := do 2 eexists; split; [done|]; apply decoded_error; lia.

(** What the encoder writes is found at [start + 0], [start + 1], ... *)
Ltac bytes_at :=
  repeat (apply Forall2_cons_2; [cbn [Z.of_nat Pos.of_succ_nat Pos.succ]; (etrans; [|eassumption]); f_equal; lia|]);
  apply Forall2_nil_2.

Ltac one_code tac :=
  do 2 eexists; split; [done|]; eapply decoded_code; [lia| |tac| |];
  [bytes_at|rewrite ?zlen_cons, zlen_nil; lia|lia].

Lemma Extract_total (text : list Z) (start end_ : Z) :
  Forall is_byte text -> 0 <= start < end_ -> end_ <= zlen text ->
  exists code next, String_ExtractUnicodeCharacterInternal text start end_ = Some (code, next)
    /\ decoded text start end_ code next.
Proof.
  intros Hb Hs He.
  assert (Hget : forall i, 0 <= i < end_ -> exists c, zget text i = Some c /\ 0 <= c < 256).
  { intros i Hi. destruct (proj2 (zget_is_Some text i) ltac:(lia)) as [c Hc]. exists c. split; [done|].
    by eapply zget_byte. }
  unfold String_ExtractUnicodeCharacterInternal. rewrite !Z.geb_leb.
  destruct (Hget start ltac:(lia)) as (c1 & E1 & R1). rewrite E1. cbn [option_bind mbind].
  destruct (Z.ltb_spec c1 0x80).
  { one_code ltac:(split; [lia|]; rewrite unicode_bytes_arith by lia; by decide_tests). }
  destruct (Z.ltb_spec c1 0xC2); [no_code|].
  destruct (Z.ltb_spec c1 0xE0).
  { destruct (Z.leb_spec end_ (start + 1)); [no_code|].
    destruct (Hget (start + 1) ltac:(lia)) as (c2 & E2 & R2). rewrite E2. cbn [option_bind mbind].
    destruct (not_continuation c2) eqn:N2; [no_code|]. apply not_continuation_inv in N2; [|done].
    one_code ltac:(apply unicode_bytes_2; lia). }
  destruct (Z.ltb_spec c1 0xF0).
  { destruct (Z.leb_spec (end_ - 1) (start + 1)); [no_code|].
    destruct (Hget (start + 1) ltac:(lia)) as (c2 & E2 & R2).
    destruct (Hget (start + 1 + 1) ltac:(lia)) as (c3 & E3 & R3). rewrite E2, E3. cbn [option_bind mbind].
    destruct (not_continuation c2) eqn:N2; [no_code|]. apply not_continuation_inv in N2; [|done].
    destruct (not_continuation c3) eqn:N3; [no_code|]. apply not_continuation_inv in N3; [|done].
    destruct ((c1 =? 0xE0) && (c2 <? 0xA0)) eqn:Eo; [no_code|].
    one_code ltac:(apply unicode_bytes_3; lia). }
  destruct (Z.ltb_spec c1 0xF5); [|no_code].
  destruct (Z.leb_spec (end_ - 2) (start + 1)); [no_code|].
  destruct (Hget (start + 1) ltac:(lia)) as (c2 & E2 & R2).
  destruct (Hget (start + 1 + 1) ltac:(lia)) as (c3 & E3 & R3).
  destruct (Hget (start + 1 + 2) ltac:(lia)) as (c4 & E4 & R4). rewrite E2, E3, E4. cbn [option_bind mbind].
  destruct (not_continuation c2) eqn:N2; [no_code|]. apply not_continuation_inv in N2; [|done].
  destruct (not_continuation c3) eqn:N3; [no_code|]. apply not_continuation_inv in N3; [|done].
  destruct (not_continuation c4) eqn:N4; [no_code|]. apply not_continuation_inv in N4; [|done].
  rewrite Z.geb_leb.
  destruct ((c1 =? 0xF0) && (c2 <? 0x90)) eqn:Eo; [no_code|].
  destruct ((c1 =? 0xF4) && (0x90 <=? c2)) eqn:Eh; [no_code|].
  one_code ltac:(apply unicode_bytes_4; lia).
Qed.

Lemma decoded_next text start end_ code next : decoded text start end_ code next -> start < next <= end_.
Proof. by intros [? _]. Qed.

(** C20: the UTF-8 decoder is the exact inverse of the encoder: on every text it
    returns without reading past the end and moves on by at least one byte; it
    answers a code point exactly when the encoding of that code point lies
    at the position, and -1 when no encoding does. *)
Theorem utf8_exact (text : list Z) (start end_ : Z) :
  Forall is_byte text -> 0 <= start < end_ -> end_ <= zlen text ->
  exists code next, String_ExtractUnicodeCharacterInternal text start end_ = Some (code, next)
    /\ start < next <= end_
    /\ (forall v, 0 <= v < 0x110000 ->
          (code = v <-> substring text start (zlen (unicode_bytes v)) = unicode_bytes v
                        /\ start + zlen (unicode_bytes v) <= end_))
    /\ (code < 0 -> code = -1)
    /\ (0 <= code -> next = start + zlen (unicode_bytes code)).
Proof.
  intros Hb Hs He. destruct (Extract_total _ _ _ Hb Hs He) as (code & next & E & Hn & Hc).
  exists code, next. split; [exact E|]. split; [exact Hn|].
  assert (Hback : forall v, 0 <= v < 0x110000 -> substring text start (zlen (unicode_bytes v)) = unicode_bytes v ->
    start + zlen (unicode_bytes v) <= end_ -> code = v /\ next = start + zlen (unicode_bytes v)).
  { intros v Hv H1 H2. pose proof (Extract_unicode_bytes text start end_ v ltac:(lia) Hv H1 H2) as E'.
    rewrite E in E'. by injection E' as <- <-. }
  assert (Hfwd : 0 <= code -> next = start + zlen (unicode_bytes code)
    /\ substring text start (zlen (unicode_bytes code)) = unicode_bytes code).
  { intros H0. destruct Hc as [->|[Hr Hsub]]; [lia|].
    assert (Hz : zlen (unicode_bytes code) = next - start).
    { rewrite <- Hsub. unfold substring, zlen. rewrite length_take, length_drop. unfold zlen in *. lia. }
    rewrite Hz. split; [lia|done]. }
  split; [|split; [lia|by intros H0; apply Hfwd]].
  intros v Hv. split.
  - intros ->. destruct (Hfwd ltac:(lia)) as [Hx Hy]. split; [done|]. lia.
  - intros [H1 H2]. by apply Hback.
Qed.

(** ** Integers *)

Section Digits.
Context (b : Z) (Hb : 2 <= b <= 36).

(** A character that stands for a digit of base [b]. *)
Definition digit_of (c : Z) : Prop := 0 <= digitValue c < b /\ 32 < c /\ ("+"%code < c /\ c <> "-"%code).

(** The number a row of digits denotes, after the number [a]. *)
Definition number (a : Z) (l : Str) : Z := foldl (fun a c => a * b + digitValue c) a l.

Lemma number_app a l k : number a (l ++ k) = number (number a l) k.
Proof. apply foldl_app. Qed.

Lemma number_cons a c l : number a (c :: l) = number (a * b + digitValue c) l.
Proof. done. Qed.

Lemma number_shift a l : number a l = a * b ^ zlen l + number 0 l.
Proof.
  revert a. induction l as [|c l IH]; intros a.
  - simpl. change (zlen (@nil Z)) with 0. lia.
  - rewrite !number_cons, IH, (IH (0 * b + _)).
    rewrite zlen_cons, Z.pow_add_r, Z.pow_1_r by (unfold zlen; lia). lia.
Qed.

Lemma number_wrap w a l : 0 <= w -> wrapU w (number (wrapU w a) l) = wrapU w (number a l).
Proof.
  intros Hw. rewrite (number_shift (wrapU w a)), (number_shift a). unfold wrapU.
  by rewrite <- Zplus_mod_idemp_l, Zmult_mod_idemp_l, Zplus_mod_idemp_l.
Qed.

Lemma digit_char (d : Z) : 0 <= d < b ->
  exists c, zget _digits d = Some c /\ digitValue c = d /\ digit_of c.
Proof.
  intros Hd. destruct (zget _digits d) as [c|] eqn:E.
  - exists c. split; [done|].
    assert (H : digitValue c = d /\ 32 < c /\ "+"%code < c /\ c <> "-"%code).
    { pose proof (byte_case (fun d => match zget _digits d with
        | Some c => (digitValue c =? d) && (32 <? c) && ("+"%code <? c) && negb (c =? "-"%code)
        | None => 36 <=? d end) d ltac:(by vm_compute) ltac:(lia)) as H.
      cbv beta in H. rewrite E in H. zbool. lia. }
    unfold digit_of. destruct H as [-> H]. split; [done|]. by split.
  - apply zget_None in E. change (zlen _digits) with 36 in E. lia.
Qed.

(** The digits of a number, in front of those written already. *)
Lemma CreateFromInteger_loop_spec (fuel : nat) (room v : Z) (ds : Str) :
  0 <= v < 2 ^ Z.of_nat fuel -> Z.of_nat fuel <= room ->
  exists l, CreateFromInteger_loop fuel room v b ds = Some (l ++ ds) /\ Forall digit_of l
    /\ number 0 l = v /\ zlen l <= Z.of_nat fuel /\ (0 < v -> l <> []).
Proof.
  revert room v ds. induction fuel as [|fuel IH]; intros room v ds Hv Hr.
  - change (2 ^ Z.of_nat 0) with 1 in Hv. replace v with 0 by lia. by exists [].
  - rewrite Nat2Z.inj_succ, Z.pow_succ_r in Hv by lia. simpl.
    destruct (Z.eqb_spec v 0) as [->|Hne]; [by exists []|].
    destruct (Z.leb_spec room 0); [lia|].
    destruct (digit_char (v mod b) ltac:(apply Z.mod_pos_bound; lia)) as (c & -> & Hc & Hd). cbn [option_bind mbind].
    destruct (IH (room - 1) (v / b) (c :: ds)) as (l & -> & Hl & Hn & Hz & _); [|lia|].
    { split; [apply Z.div_pos; lia|]. apply Z.div_lt_upper_bound; nia. }
    exists (l ++ [c]). rewrite <- app_assoc. split; [done|].
    split; [by apply Forall_app; split; [|constructor]|].
    split; [rewrite number_app, Hn; simpl; rewrite Hc; pose proof (Z.div_mod v b); lia|].
    split; [autorewrite with zlen; lia|]. intros _ Hnil. by destruct l.
Qed.

Lemma CreateFromIntegerInternal_spec (v : Z) : 0 <= v < 2 ^ 64 ->
  exists l, String_CreateFromIntegerInternal v b = Some l /\ Forall digit_of l /\ number 0 l = v
    /\ 0 < zlen l <= 64.
Proof.
  intros Hv. unfold String_CreateFromIntegerInternal. destruct (Z.eqb_spec v 0) as [->|Hne].
  - exists ["0"%code]. split; [done|]. split; [|done].
    constructor; [|constructor]. split; [|done]. change (digitValue "0"%code) with 0. lia.
  - destruct (CreateFromInteger_loop_spec 64 BUFFER_SIZE v []) as (l & -> & Hl & Hn & Hz & Hnil); [done|done|].
    exists l. rewrite app_nil_r. split; [done|]. split; [done|]. split; [done|].
    specialize (Hnil ltac:(lia)). destruct l; [done|]. rewrite zlen_cons in *. pose proof (zlen_nonneg l). lia.
Qed.

(** Parsing digits up to the end of the text. *)
Lemma ParseInteger_loop_digits (l : Str) (i v n : Z) : Forall digit_of l -> 0 <= v < 2 ^ 64 ->
  ParseInteger_loop l i b v n = (i + zlen l, n + zlen l, wrapU 64 (number v l)).
Proof.
  revert i v n. induction l as [|c l IH]; intros i v n Hl Hv.
  - simpl. rewrite wrapU_id by exact Hv. by rewrite !Z.add_0_r.
  - apply Forall_cons in Hl as [(Hd & H32 & Hp & Hm) Hl]. cbn [ParseInteger_loop].
    assert (Hs : (c =? "'"%code) || (c =? QUOTE) || (c =? "_"%code) = false).
    { unfold digitValue in Hd. unfold QUOTE. repeat case_match; unfold is_digit, is_upper, is_lower, within in *; lia. }
    rewrite Hs, Z.geb_leb. destruct (Z.leb_spec b (digitValue c)); [lia|].
    rewrite IH; [|done|by apply wrapU_range]. autorewrite with zlen. f_equal; [f_equal; lia|].
    rewrite number_cons, <- (number_wrap _ (v * b + _)) by lia.
    f_equal. f_equal. unfold wrapU. by rewrite Zplus_mod_idemp_l.
Qed.
End Digits.

Lemma skip_from_end (str : Str) : skip_from str (zlen str) = zlen str.
Proof. unfold skip_from, zlen. by rewrite Nat2Z.id, drop_all. Qed.

Lemma skip_from_0 (c : Z) (str : Str) : 32 < c -> skip_from (c :: str) 0 = 0.
Proof. intros H. unfold skip_from. simpl. by destruct (Z.leb_spec c 32); [lia|]. Qed.

(** The parser on an optional sign and digits. *)
Lemma ParseInteger_digits (b : Z) (sign : Str) (l : Str) :
  2 <= b <= 36 -> Forall (digit_of b) l -> 0 < zlen l -> number b 0 l < 2 ^ 64 -> 0 <= number b 0 l ->
  sign = [] \/ sign = ["+"%code] \/ sign = ["-"%code] ->
  String_ParseInteger (sign ++ l) b
  = (if bool_decide (sign = ["-"%code]) then wrapS 64 (- wrapS 64 (number b 0 l)) else wrapS 64 (number b 0 l), true).
Proof.
  intros Hb Hl Hz Hn Hn0 Hsign.
  assert (Hrun : forall i, drop (Z.to_nat i) (sign ++ l) = l -> i + zlen l = zlen (sign ++ l) ->
    ParseIntegerInternal (sign ++ l) i b = (zlen (sign ++ l), zlen l, number b 0 l)).
  { intros i Hd Hi. unfold ParseIntegerInternal.
    rewrite Hd, ParseInteger_loop_digits by (done || lia). by rewrite Hi, wrapU_id. }
  unfold String_ParseInteger.
  assert (H0 : (b <? 2) || (b >? 36) || (zlen (sign ++ l) =? 0) = false).
  { rewrite zlen_app. pose proof (zlen_nonneg sign). rewrite Z.gtb_ltb. lia. }
  rewrite H0. destruct l as [|c l]; [done|]. pose proof Hl as [(Hd & H32 & Hp & Hm) _]%Forall_cons.
  destruct Hsign as [-> |[-> | ->]]; cbn [app]; rewrite skip_from_0 by lia;
    cbn [zget Z.ltb Z.compare lookup list_lookup Z.to_nat].
  - rewrite !(bool_decide_eq_false_2 (Some c = _)) by (intros [= ->]; lia).
    rewrite Hrun, skip_from_end by done. rewrite Z.eqb_refl. cbn [negb app].
    destruct (Z.eqb_spec (zlen (c :: l)) 0); [lia|done].
  - rewrite bool_decide_eq_true_2 by done. rewrite Hrun; [|done|unfold zlen; simpl; lia].
    rewrite skip_from_end, Z.eqb_refl. destruct (Z.eqb_spec (zlen (c :: l)) 0); [lia|].
    by rewrite bool_decide_eq_false_2.
  - rewrite bool_decide_eq_false_2, bool_decide_eq_true_2 by done. rewrite Hrun; [|done|unfold zlen; simpl; lia].
    rewrite skip_from_end, Z.eqb_refl. destruct (Z.eqb_spec (zlen (c :: l)) 0); [lia|].
    by rewrite bool_decide_eq_true_2.
Qed.

(** C21: every 64-bit integer, printed in any base from 2 to 36 with or without a
    plus sign, is printed within the buffer and parses back to itself; other bases
    give NULL and no number. *)
Theorem integer_text_roundtrip (v b : Z) (includeSign : bool) : inS 64 v ->
  (2 <= b <= 36 ->
   exists s, String_CreateFromInteger v b includeSign = Some (Some s) /\ String_ParseInteger s b = (v, true))
  /\ (~ (2 <= b <= 36) ->
   String_CreateFromInteger v b includeSign = Some None /\ forall s, String_ParseInteger s b = (0, false)).
Proof.
  intros Hv. unfold inS in Hv. change (64 - 1) with 63 in Hv. split; intros Hb; unfold String_CreateFromInteger.
  2: { assert (E : (b <? 2) || (b >? 36) = true) by (rewrite Z.gtb_ltb; lia). rewrite E.
       split; [done|]. intros s. unfold String_ParseInteger. by rewrite E. }
  assert (E : (b <? 2) || (b >? 36) = false) by (rewrite Z.gtb_ltb; lia). rewrite E.
  set (n := v <? 0).
  assert (Hu : exists u, (if n then (true, wrapS 64 (- v)) else (false, v)) = (n, u) /\ wrapU 64 u = Z.abs v
    /\ (if n then wrapS 64 (- wrapS 64 (wrapU 64 u)) else wrapS 64 (wrapU 64 u)) = v).
  { subst n. destruct (Z.ltb_spec v 0) as [Hneg|Hpos]; eexists; (split; [done|]).
    - rewrite wrapU_wrapS by lia. rewrite wrapU_id by (unfold inU; lia).
      rewrite wrapS_opp by lia. rewrite Z.opp_involutive. split; [lia|]. by apply wrapS_id.
    - rewrite wrapU_id by (unfold inU; lia). split; [lia|]. by apply wrapS_id. }
  destruct Hu as (u & -> & Hu & Hback). rewrite Hu in *.
  destruct (CreateFromIntegerInternal_spec b Hb (Z.abs v) ltac:(lia)) as (l & -> & Hl & Hnum & Hlen). cbn [option_bind mbind].
  assert (Hr : (n || includeSign) && (zlen l >=? BUFFER_SIZE) = false).
  { rewrite Z.geb_leb. destruct (Z.leb_spec BUFFER_SIZE (zlen l)); [unfold BUFFER_SIZE in *; lia|apply andb_false_r]. }
  rewrite Hr. eexists. split; [done|].
  pose proof (fun sign => ParseInteger_digits b sign l Hb Hl ltac:(lia) ltac:(lia) ltac:(lia)) as Hp.
  rewrite Hnum in Hp. clearbody n. destruct n.
  - etrans; [exact (Hp ["-"%code] ltac:(auto))|]. by rewrite bool_decide_eq_true_2, Hback.
  - destruct includeSign.
    + etrans; [exact (Hp ["+"%code] ltac:(auto))|]. by rewrite bool_decide_eq_false_2, Hback.
    + etrans; [exact (Hp [] ltac:(auto))|]. by rewrite bool_decide_eq_false_2, Hback.
Qed.

(** ** Deviations and examples *)

(** One character of any kind is swallowed at the end of a number. *)
Example garbage_accepted : String_ParseInteger (bytes "12!") 10 = (12, true).
Proof. reflexivity. Qed.

(** NULL equals every string. *)
Example null_equals : String_Equals None (Some (bytes "a")) = true /\ String_Equals (Some (bytes "a")) None = false.
Proof. done. Qed.

Lemma utf8_exact_witness : exists code next,
  String_ExtractUnicodeCharacterInternal [0xC3; 0xA9] 0 2 = Some (code, next) /\ code = 0xE9 /\ next = 2.
Proof.
  destruct (utf8_exact [0xC3; 0xA9] 0 2) as (code & next & E & _ & Hv & _ & Hn);
    [repeat constructor; done|lia|done|].
  exists code, next. split; [exact E|].
  assert (Hc : code = 0xE9) by (apply Hv; [lia|by split]).
  split; [exact Hc|]. rewrite Hc in Hn. exact (Hn ltac:(lia)).
Defined.

Lemma integer_text_roundtrip_witness :
  exists s, String_CreateFromInteger (-255) 16 false = Some (Some s) /\ String_ParseInteger s 16 = (-255, true).
Proof. destruct (integer_text_roundtrip (-255) 16 false ltac:(unfold inS; lia)) as [H _]. exact (H ltac:(lia)). Defined.
