(* ===== verification/StringBuilder.v ===== *)
(** * StringBuilder: growing texts

    [src/string/stringbuilder.c] and [include/smile/stringbuilder.h].  A builder
    is an array of bytes with room for [max] of them, [length] of which are the
    text so far; cells that have not been written are [None].  Reading or writing
    outside the array is undefined behaviour: [None]. *)

From S2P Require Import Prelude IntMath IntBits Text TextProps.

Record StringBuilderInt := mkStringBuilder { text : list (option Z); length_ : Z; max : Z }.

(** [NextPowerOfTwo] of [include/smile/bittwiddling.h] for a 64-bit [Int]. *)
Definition NextPowerOfTwo (v : Z) : Z :=
  let v := wrapS 64 (v - 1) in
  let v := smear v 1 in
  let v := smear v 2 in
  let v := smear v 4 in
  let v := smear v 8 in
  let v := smear v 16 in
  let v := smear v 32 in
  wrapS 64 (v + 1).

(** Write the cells [l] from [at_] on. *)
Definition write_cells (cells : list (option Z)) (at_ : Z) (l : list (option Z)) : option (list (option Z)) :=
  if (0 <=? at_) && (at_ + zlen l <=? zlen cells)
  then Some (take (Z.to_nat at_) cells ++ l ++ drop (Z.to_nat (at_ + zlen l)) cells)
  else None.

(** Read [n] cells from the start. *)
Definition read_cells (cells : list (option Z)) (n : Z) : option (list (option Z)) :=
  if n <=? zlen cells then Some (take (Z.to_nat n) cells) else None.

(** An array for a text of [len] bytes has one more, for the terminator. *)
Definition GC_MALLOC_TEXT (len : Z) : list (option Z) := replicate (Z.to_nat (len + 1)) None.

Definition StringBuilder_InitWithSize (initialSize : Z) : option StringBuilderInt :=
  let initialSize := if initialSize <? 256 then 256 else initialSize in
  let initialSize := NextPowerOfTwo initialSize in
  newText ← write_cells (GC_MALLOC_TEXT initialSize) 0 [Some 0];
  Some (mkStringBuilder newText 0 initialSize).

(** [INIT_INLINE_STRINGBUILDER], over the [size] bytes that
    [DECLARE_INLINE_STRINGBUILDER] has put in the function's frame. *)
Definition INIT_INLINE_STRINGBUILDER (size : Z) : option StringBuilderInt :=
  newText ← write_cells (replicate (Z.to_nat size) None) 0 [Some 0];
  Some (mkStringBuilder newText 0 size).

Definition StringBuilder_CreateFromBytes (bytes : Str) (start length : Z) : option StringBuilderInt :=
  let length := if length <? 0 then 0 else length in
  let initialSize := length + 1 in
  let initialSize := if initialSize <? 256 then 256 else initialSize in
  let initialSize := NextPowerOfTwo initialSize in
  newText ← write_cells (GC_MALLOC_TEXT initialSize) 0 (Some <$> substring bytes start length);
  newText ← write_cells newText length [Some 0];
  Some (mkStringBuilder newText length initialSize).

Definition StringBuilder_Grow (sb : StringBuilderInt) (length : Z) : option StringBuilderInt :=
  if length_ sb + length <? max sb then Some sb
  else
    let newMax := NextPowerOfTwo (length_ sb + length) in
    old ← read_cells (text sb) (length_ sb + 1);
    newText ← write_cells (GC_MALLOC_TEXT newMax) 0 old;
    Some (mkStringBuilder newText (length_ sb) newMax).

(** The bytes [l], copied behind the text and terminated. *)
Definition append_terminated (sb : StringBuilderInt) (l : list Z) : option StringBuilderInt :=
  sb ← StringBuilder_Grow sb (zlen l);
  newText ← write_cells (text sb) (length_ sb) (Some <$> l);
  newText ← write_cells newText (length_ sb + zlen l) [Some 0];
  Some (mkStringBuilder newText (length_ sb + zlen l) (max sb)).

(** The caller's text has the [length] bytes from [start] on. *)
Definition StringBuilder_Append (sb : StringBuilderInt) (bytes : Str) (start length : Z) : option StringBuilderInt :=
  if length <=? 0 then Some sb else append_terminated sb (substring bytes start length).

Definition StringBuilder_AppendByte (sb : StringBuilderInt) (ch : Z) : option StringBuilderInt :=
  append_terminated sb [ch].

Definition StringBuilder_AppendRepeat (sb : StringBuilderInt) (ch length : Z) : option StringBuilderInt :=
  if length <=? 0 then Some sb else append_terminated sb (replicate (Z.to_nat length) ch).

(** The bytes of a code point are not terminated. *)
Definition StringBuilder_AppendUnicode (sb : StringBuilderInt) (value : Z) : option StringBuilderInt :=
  let l := unicode_bytes value in
  sb ← (if length_ sb + zlen l >=? max sb then StringBuilder_Grow sb (zlen l) else Some sb);
  newText ← write_cells (text sb) (length_ sb) (Some <$> l);
  Some (mkStringBuilder newText (length_ sb + zlen l) (max sb)).

Definition StringBuilder_SetLength (sb : StringBuilderInt) (length : Z) : option StringBuilderInt :=
  if length <? length_ sb then
    newText ← write_cells (text sb) length [Some 0];
    Some (mkStringBuilder newText length (max sb))
  else if length >? length_ sb then StringBuilder_AppendRepeat sb 0 (length - length_ sb)
  else Some sb.

(** Reading a cell that has not been written is undefined, too. *)
Definition StringBuilder_ToString (sb : StringBuilderInt) : option Str :=
  cells ← read_cells (text sb) (length_ sb);
  mapM id cells.

Definition StringBuilder_At (sb : StringBuilderInt) (index : Z) : option Z :=
  cell ← zget (text sb) index; cell.

(** ** Properties *)

Lemma NextPowerOfTwo_spec (v : Z) : 0 < v <= 2 ^ 62 -> NextPowerOfTwo v = 2 ^ Z.log2_up v.
Proof.
  intros Hv. assert (H : wrapU 64 (NextPowerOfTwo v) = 2 ^ Z.log2_up v).
  { rewrite <- (RoundUpPow2_spec 64 v) by (auto || lia).
    unfold NextPowerOfTwo, RoundUpPow2. rewrite wrapU_wrapS by lia. simpl.
    unfold UInt_ at 1 2. rewrite (wrapS_id 64 (v - 1)), (wrapU_id 64 (v - 1)); [done|..]; unfold inU, inS; simpl; lia. }
  assert (Hr : 0 < 2 ^ Z.log2_up v <= 2 ^ 62).
  { split; [apply Z.pow_pos_nonneg; [lia|apply Z.log2_up_nonneg]|]. apply Z.pow_le_mono_r; [lia|].
    change 62 with (Z.log2_up (2 ^ 62)). apply Z.log2_up_le_mono. lia. }
  assert (Hs : NextPowerOfTwo v = wrapS 64 (NextPowerOfTwo v)).
  { unfold NextPowerOfTwo. symmetry. apply wrapS_id; [lia|]. by apply wrapS_range. }
  rewrite Hs, <- wrapS_wrapU, H by lia. apply wrapS_id; [lia|]. unfold inS. simpl. lia.
Qed.

(** A builder whose text is [s]: the array has a byte left behind it, and is at
    least as long as [max] says. *)
Record holds (sb : StringBuilderInt) (s : Str) : Prop := {
  h_length : length_ sb = zlen s;
  h_room : zlen s < zlen (text sb);
  h_max : max sb <= zlen (text sb);
  h_text : take (length s) (text sb) = Some <$> s
}.

Lemma zlen_fmap {A B} (f : A -> B) (l : list A) : zlen (f <$> l) = zlen l.
Proof. unfold zlen. by rewrite length_fmap. Qed.

Lemma zlen_blank {A} (n : Z) (x : A) : 0 <= n -> zlen (replicate (Z.to_nat n) x) = n.
Proof. intros. unfold zlen. rewrite length_replicate. lia. Qed.

Lemma zlen_MALLOC (n : Z) : 0 <= n -> zlen (GC_MALLOC_TEXT n) = n + 1.
Proof. intros. unfold GC_MALLOC_TEXT. by rewrite zlen_blank by lia. Qed.

Lemma write_cells_Some cells i l : 0 <= i -> i + zlen l <= zlen cells ->
  exists cells', write_cells cells i l = Some cells' /\ zlen cells' = zlen cells
    /\ take (Z.to_nat i + length l) cells' = take (Z.to_nat i) cells ++ l.
Proof.
  intros Hi Hl. unfold write_cells.
  destruct (Z.leb_spec 0 i), (Z.leb_spec (i + zlen l) (zlen cells)); try lia. simpl.
  eexists. split; [done|]. unfold zlen in *.
  assert (Hlen : length (take (Z.to_nat i) cells) = Z.to_nat i) by (rewrite length_take; lia). split.
  - rewrite !length_app, Hlen, length_drop. lia.
  - rewrite app_assoc. apply take_app_length'. rewrite length_app, Hlen. lia.
Qed.

Lemma log2_up_room (n : Z) : 0 < n -> n <= 2 ^ Z.log2_up n.
Proof. intros. destruct (decide (n = 1)) as [->|]; [done|]. apply Z.log2_up_spec. lia. Qed.

(** Growing makes room for [n] more bytes and the terminator. *)
Lemma Grow_holds sb s n : holds sb s -> 0 < n -> zlen s + n <= 2 ^ 62 ->
  exists sb', StringBuilder_Grow sb n = Some sb' /\ holds sb' s /\ zlen s + n < zlen (text sb').
Proof.
  intros [Hl Hr Hm Ht] Hn Hbig. unfold StringBuilder_Grow. rewrite Hl. pose proof (zlen_nonneg s).
  destruct (Z.ltb_spec (zlen s + n) (max sb)).
  { exists sb. split; [done|]. split; [by split|lia]. }
  unfold read_cells. destruct (Z.leb_spec (zlen s + 1) (zlen (text sb))); [|lia]. cbn [option_bind mbind].
  rewrite NextPowerOfTwo_spec by lia. pose proof (log2_up_room (zlen s + n) ltac:(lia)) as Hup.
  set (newMax := 2 ^ Z.log2_up (zlen s + n)) in *.
  assert (Hold : zlen (take (Z.to_nat (zlen s + 1)) (text sb)) = zlen s + 1).
  { unfold zlen in *. rewrite length_take. lia. }
  destruct (write_cells_Some (GC_MALLOC_TEXT newMax) 0 (take (Z.to_nat (zlen s + 1)) (text sb)))
    as (cells & -> & Hz & Htake); [lia|rewrite zlen_MALLOC, Hold; lia|]. cbn [option_bind mbind].
  rewrite zlen_MALLOC in Hz by lia. eexists. split; [done|]. split; [split; simpl; [done|lia|lia|]|simpl; lia].
  rewrite <- Ht. rewrite take_0 in Htake. cbn [app Z.to_nat Nat.add] in Htake.
  apply (f_equal (take (length s))) in Htake. rewrite !take_take in Htake.
  rewrite !Nat.min_l in Htake; [done|..]; unfold zlen in *; rewrite ?length_take; lia.
Qed.

(** Writing [l] behind the text. *)
Lemma write_holds sb s l : holds sb s -> zlen s + zlen l < zlen (text sb) ->
  exists cells, write_cells (text sb) (length_ sb) (Some <$> l) = Some cells /\ zlen cells = zlen (text sb)
    /\ holds (mkStringBuilder cells (length_ sb + zlen l) (max sb)) (s ++ l).
Proof.
  intros [Hl Hr Hm Ht] Hroom. pose proof (zlen_nonneg s).
  destruct (write_cells_Some (text sb) (length_ sb) (Some <$> l)) as (cells & E & Hz & Htake);
    [lia|rewrite zlen_fmap; lia|].
  exists cells. split; [done|]. split; [done|]. split; simpl; [by rewrite Hl, zlen_app|by rewrite zlen_app, Hz|by rewrite Hz|].
  rewrite Hl in Htake. unfold zlen in Htake. rewrite Nat2Z.id, length_fmap, Ht in Htake.
  by rewrite length_app, fmap_app.
Qed.

(** Writing a terminator behind a text or a part of it. *)
Lemma terminate_holds cells n m k s : holds (mkStringBuilder cells n m) s -> 0 <= k <= n ->
  exists cells', write_cells cells k [Some 0] = Some cells'
    /\ holds (mkStringBuilder cells' k m) (take (Z.to_nat k) s).
Proof.
  intros [Hl Hr Hm Ht] Hk; simpl in *.
  destruct (write_cells_Some cells k [Some 0]) as (cells' & E & Hz & Htake);
    [lia|change (zlen [Some 0]) with 1; lia|].
  assert (Hlen : length (take (Z.to_nat k) s) = Z.to_nat k) by (unfold zlen in *; rewrite length_take; lia).
  exists cells'. split; [done|]. split; simpl; [unfold zlen; lia|unfold zlen in *; lia|by rewrite Hz|].
  rewrite Hlen. apply (f_equal (take (Z.to_nat k))) in Htake. rewrite take_take, Nat.min_l in Htake by lia.
  rewrite Htake, take_app_le, take_take, Nat.min_id by (unfold zlen in *; rewrite length_take; lia).
  apply (f_equal (take (Z.to_nat k))) in Ht. rewrite take_take, Nat.min_l in Ht by (unfold zlen in *; lia).
  by rewrite Ht, <- fmap_take.
Qed.

Lemma StringBuilder_ToString_holds sb s : holds sb s -> StringBuilder_ToString sb = Some s.
Proof.
  intros [Hl Hr Hm Ht]. unfold StringBuilder_ToString, read_cells.
  destruct (Z.leb_spec (length_ sb) (zlen (text sb))); [|lia]. cbn [option_bind mbind].
  rewrite Hl. unfold zlen. rewrite Nat2Z.id, Ht. apply mapM_Some, Forall2_fmap_l.
  by apply Forall_Forall2_diag, Forall_true.
Qed.

Lemma append_terminated_holds sb s l : holds sb s -> l <> [] -> zlen s + zlen l <= 2 ^ 62 ->
  exists sb', append_terminated sb l = Some sb' /\ holds sb' (s ++ l).
Proof.
  intros H Hne Hbig. unfold append_terminated.
  assert (Hpos : 0 < zlen l) by (destruct l; [done|rewrite zlen_cons; pose proof (zlen_nonneg l); lia]).
  destruct (Grow_holds sb s (zlen l) H Hpos Hbig) as (sb1 & -> & H1 & Hroom). cbn [option_bind mbind].
  destruct (write_holds sb1 s l H1 Hroom) as (cells & -> & Hz & H2). cbn [option_bind mbind].
  pose proof (zlen_nonneg s). pose proof (h_length _ _ H2) as Hlen. simpl in Hlen.
  destruct (terminate_holds _ _ _ (length_ sb1 + zlen l) _ H2) as (cells' & -> & H3).
  { rewrite Hlen, zlen_app. lia. }
  eexists. split; [done|]. rewrite Hlen in *. unfold zlen in H3. by rewrite Nat2Z.id, firstn_all in H3.
Qed.

(** Bytes that are copied when there are any. *)
Lemma append_some_holds sb s k : holds sb s -> zlen s + zlen k <= 2 ^ 62 ->
  exists sb', (if zlen k <=? 0 then Some sb else append_terminated sb k) = Some sb' /\ holds sb' (s ++ k).
Proof.
  intros H Hbig. destruct (Z.leb_spec (zlen k) 0).
  - destruct k; [|rewrite zlen_cons in *; pose proof (zlen_nonneg k); lia]. exists sb. by rewrite app_nil_r.
  - apply (append_terminated_holds sb s k H); [intros ->; rewrite zlen_nil in *; lia|lia].
Qed.

Lemma AppendRepeat_holds sb s ch n : holds sb s -> zlen s + n <= 2 ^ 62 ->
  exists sb', StringBuilder_AppendRepeat sb ch n = Some sb' /\ holds sb' (s ++ replicate (Z.to_nat n) ch).
Proof.
  intros H Hbig. pose proof (zlen_nonneg s). unfold StringBuilder_AppendRepeat.
  destruct (Z.leb_spec n 0).
  - exists sb. replace (Z.to_nat n) with 0%nat by lia. simpl. by rewrite app_nil_r.
  - apply append_terminated_holds; [done| |by rewrite zlen_blank by lia].
    intros E. apply (f_equal length) in E. rewrite length_replicate in E. simpl in E. lia.
Qed.

(** A code point is copied. *)
Lemma AppendUnicode_holds sb s value : holds sb s -> zlen s + 4 <= 2 ^ 62 ->
  exists sb', StringBuilder_AppendUnicode sb value = Some sb' /\ holds sb' (s ++ unicode_bytes value).
Proof.
  intros H Hbig. pose proof (unicode_bytes_length value) as Hu. pose proof (zlen_nonneg s).
  unfold StringBuilder_AppendUnicode. rewrite (h_length _ _ H), Z.geb_leb.
  destruct (Z.leb_spec (max sb) (zlen s + zlen (unicode_bytes value))).
  - destruct (Grow_holds sb s (zlen (unicode_bytes value)) H ltac:(lia) ltac:(lia)) as (sb1 & -> & Hg & Hroom).
    cbn [option_bind mbind].
    destruct (write_holds sb1 s (unicode_bytes value) Hg Hroom) as (cells & -> & _ & Hw). by eexists.
  - cbn [option_bind mbind]. pose proof (h_max _ _ H).
    destruct (write_holds sb s (unicode_bytes value) H) as (cells & E & _ & Hw); [lia|].
    rewrite (h_length _ _ H) in *. rewrite E. by eexists.
Qed.

(** A shorter length cuts the text, a longer one fills it with zeros. *)
Lemma SetLength_holds sb s n : holds sb s -> 0 <= n <= 2 ^ 62 ->
  exists sb', StringBuilder_SetLength sb n = Some sb'
    /\ holds sb' (take (Z.to_nat n) s ++ replicate (Z.to_nat (n - zlen s)) 0).
Proof.
  intros H Hn. unfold StringBuilder_SetLength. pose proof (h_length _ _ H) as Hl. rewrite Hl, Z.gtb_ltb.
  destruct (Z.ltb_spec n (zlen s)).
  - destruct sb as [cells len m]. simpl in Hl. subst len.
    cbn [text max]. destruct (terminate_holds cells (zlen s) m n s H) as (cells' & -> & Hcut); [lia|]. eexists. split; [done|].
    replace (Z.to_nat (n - zlen s)) with 0%nat by lia. by rewrite app_nil_r.
  - rewrite take_ge by (unfold zlen in *; lia). destruct (Z.ltb_spec (zlen s) n).
    + apply AppendRepeat_holds; [done|lia].
    + exists sb. replace (Z.to_nat (n - zlen s)) with 0%nat by lia. simpl. by rewrite app_nil_r.
Qed.

Lemma At_holds sb s i : holds sb s -> (i < length s)%nat -> StringBuilder_At sb (Z.of_nat i) = s !! i.
Proof.
  intros H Hi. unfold StringBuilder_At, zget. destruct (Z.ltb_spec (Z.of_nat i) 0); [lia|]. rewrite Nat2Z.id.
  rewrite <- (lookup_take_lt (text sb) (length s)) by done. rewrite (h_text _ _ H), list_lookup_fmap. by destruct (s !! i).
Qed.

Lemma INIT_holds size : 0 < size -> exists sb, INIT_INLINE_STRINGBUILDER size = Some sb /\ holds sb [].
Proof.
  intros H. unfold INIT_INLINE_STRINGBUILDER.
  destruct (write_cells_Some (replicate (Z.to_nat size) None) 0 [Some 0]) as (cells & -> & Hz & _);
    [done|rewrite zlen_blank by lia; change (zlen [Some 0]) with 1; lia|]. cbn [option_bind mbind].
  rewrite zlen_blank in Hz by lia.
  eexists. split; [done|]. split; simpl; [done|rewrite zlen_nil; lia|lia|done].
Qed.

Lemma InitWithSize_holds n : n <= 2 ^ 62 -> exists sb, StringBuilder_InitWithSize n = Some sb /\ holds sb [].
Proof.
  intros Hn. unfold StringBuilder_InitWithSize. cbv zeta. set (k := if n <? 256 then 256 else n).
  assert (Hk : 256 <= k <= 2 ^ 62) by (unfold k; destruct (Z.ltb_spec n 256); lia). clearbody k.
  rewrite NextPowerOfTwo_spec by lia. pose proof (log2_up_room k ltac:(lia)).
  destruct (write_cells_Some (GC_MALLOC_TEXT (2 ^ Z.log2_up k)) 0 [Some 0]) as (cells & -> & Hz & _);
    [done|rewrite zlen_MALLOC by lia; change (zlen [Some 0]) with 1; lia|]. cbn [option_bind mbind].
  rewrite zlen_MALLOC in Hz by lia. eexists. split; [done|]. split; simpl; [done|rewrite zlen_nil; lia|lia|done].
Qed.

Lemma CreateFromBytes_holds l : zlen l < 2 ^ 62 ->
  exists sb, StringBuilder_CreateFromBytes l 0 (zlen l) = Some sb /\ holds sb l.
Proof.
  intros Hl. pose proof (zlen_nonneg l). unfold StringBuilder_CreateFromBytes. cbv zeta.
  destruct (Z.ltb_spec (zlen l) 0); [lia|].
  set (k := if zlen l + 1 <? 256 then 256 else zlen l + 1).
  assert (Hk : 0 < k <= 2 ^ 62 /\ zlen l + 1 <= k) by (unfold k; destruct (Z.ltb_spec (zlen l + 1) 256); lia). clearbody k.
  rewrite NextPowerOfTwo_spec by lia. pose proof (log2_up_room k ltac:(lia)).
  assert (Hs : substring l 0 (zlen l) = l).
  { unfold substring, zlen. rewrite Nat2Z.id. simpl. by rewrite drop_0, firstn_all. }
  rewrite Hs. destruct (write_cells_Some (GC_MALLOC_TEXT (2 ^ Z.log2_up k)) 0 (Some <$> l)) as (cells & -> & Hz & Ht);
    [done|rewrite zlen_MALLOC, zlen_fmap by lia; lia|]. cbn [option_bind mbind].
  rewrite zlen_MALLOC in Hz by lia. rewrite take_0, length_fmap in Ht. simpl in Ht.
  assert (Hh : holds (mkStringBuilder cells (zlen l) (2 ^ Z.log2_up k)) l) by (split; simpl; [done|lia|lia|done]).
  destruct (terminate_holds _ _ _ (zlen l) _ Hh) as (cells' & -> & H2); [lia|]. cbn [option_bind mbind].
  eexists. split; [done|]. unfold zlen in H2 at 2. by rewrite Nat2Z.id, firstn_all in H2.
Qed.

(** C33: a builder holding a text appends bytes, one byte, repeated bytes and code
    points to exactly that text, cuts it and fills it, always inside its array:
    no operation is undefined, whatever the length the array has to grow to, as
    the array a text grows into has a byte more than [max] says.  New builders,
    inline ones included, hold the text they are made with. *)
Theorem StringBuilder_appends (sb : StringBuilderInt) (s l : Str) (ch value n : Z) :
  holds sb s -> zlen s + zlen l + 4 <= 2 ^ 62 -> 0 <= n <= 2 ^ 62 ->
  StringBuilder_ToString sb = Some s
  /\ (exists sb', StringBuilder_Append sb l 0 (zlen l) = Some sb' /\ holds sb' (s ++ l))
  /\ (exists sb', StringBuilder_AppendByte sb ch = Some sb' /\ holds sb' (s ++ [ch]))
  /\ (exists sb', StringBuilder_AppendRepeat sb ch (zlen l) = Some sb' /\ holds sb' (s ++ replicate (length l) ch))
  /\ (exists sb', StringBuilder_AppendUnicode sb value = Some sb' /\ holds sb' (s ++ unicode_bytes value))
  /\ (exists sb', StringBuilder_SetLength sb n = Some sb'
        /\ holds sb' (take (Z.to_nat n) s ++ replicate (Z.to_nat (n - zlen s)) 0))
  /\ (exists sb', StringBuilder_CreateFromBytes l 0 (zlen l) = Some sb' /\ holds sb' l)
  /\ (exists sb', StringBuilder_InitWithSize n = Some sb' /\ holds sb' [])
  /\ (0 < n -> exists sb', INIT_INLINE_STRINGBUILDER n = Some sb' /\ holds sb' []).
Proof.
  intros H Hbig Hn. pose proof (zlen_nonneg s). pose proof (zlen_nonneg l).
  assert (Hsub : substring l 0 (zlen l) = l).
  { unfold substring, zlen. rewrite Nat2Z.id. simpl. by rewrite drop_0, firstn_all. }
  split; [by apply StringBuilder_ToString_holds|].
  split; [unfold StringBuilder_Append; rewrite Hsub; apply append_some_holds; [done|lia]|].
  split; [apply append_terminated_holds; [done|done|change (zlen [ch]) with 1; lia]|].
  split; [replace (length l) with (Z.to_nat (zlen l)) by (unfold zlen; lia); apply AppendRepeat_holds; [done|lia]|].
  split; [apply AppendUnicode_holds; [done|lia]|].
  split; [by apply SetLength_holds|].
  split; [apply CreateFromBytes_holds; lia|].
  split; [apply InitWithSize_holds; lia|apply INIT_holds].
Qed.

(** A name of 63 bytes in the lexer's buffer of 64, to which one more is
    appended: the new array has room for the terminator. *)
Definition example_builder : StringBuilderInt :=
  mkStringBuilder (replicate 63 (Some "a"%code) ++ [Some 0]) 63 64.

Lemma example_holds : holds example_builder (replicate 63 "a"%code).
Proof. by split. Qed.

Lemma StringBuilder_appends_witness :
  exists sb, StringBuilder_Append example_builder [1] 0 1 = Some sb /\ holds sb (replicate 63 "a"%code ++ [1])
    /\ max sb = 64 /\ zlen (text sb) = 65.
Proof.
  destruct (StringBuilder_appends example_builder (replicate 63 "a"%code) [1] 0 0xE9 10 example_holds
    ltac:(by vm_compute) ltac:(by vm_compute)) as (_ & (sb & E & Hh) & _).
  exists sb. split; [exact E|]. split; [exact Hh|]. vm_compute in E. injection E as <-. by vm_compute.
Defined.
