(* ===== verification/IdentTable.v ===== *)
(** * IdentTable: the letters and punctuation of names

    The tables of [src/parsing/lexer/identtable.c], row by row, and
    [SmileIdentifierKind] of [include/smile/parsing/identkind.h], which looks a
    code point up in them. *)

From S2P Require Import Prelude.

Definition IDENTKIND_STARTLETTER : Z := Z.shiftl 1 0.
Definition IDENTKIND_MIDDLELETTER : Z := Z.shiftl 1 1.
Definition IDENTKIND_PUNCTUATION : Z := Z.shiftl 1 2.

Definition IDENTKIND_CHARSET_MASK : Z := Z.shiftl 0xFFF 4.
Definition IDENTKIND_CHARSET_LATIN : Z := Z.shiftl 1 4.
Definition IDENTKIND_CHARSET_GREEK : Z := Z.shiftl 2 4.
Definition IDENTKIND_CHARSET_CYRILLIC : Z := Z.shiftl 3 4.
Definition IDENTKIND_CHARSET_ARMENIAN : Z := Z.shiftl 4 4.
Definition IDENTKIND_CHARSET_HEBREW : Z := Z.shiftl 5 4.

(** The source's abbreviations, with their disjunctions evaluated. *)
#[local] Notation o := 0 (only parsing).
#[local] Notation A := 1 (only parsing).
#[local] Notation M := 2 (only parsing).
#[local] Notation P := 4 (only parsing).
#[local] Notation E := 6 (only parsing).
#[local] Notation LA := 17 (only parsing).
#[local] Notation LM := 18 (only parsing).
#[local] Notation GrA := 33 (only parsing).
#[local] Notation CyA := 49 (only parsing).
#[local] Notation CyM := 50 (only parsing).
#[local] Notation ArA := 65 (only parsing).
#[local] Notation ArM := 66 (only parsing).
#[local] Notation HeA := 81 (only parsing).
#[local] Notation HeM := 82 (only parsing).

Definition _disallowed : list Z := [
  o; o; o; o; o; o; o; o; o; o; o; o; o; o; o; o;
  o; o; o; o; o; o; o; o; o; o; o; o; o; o; o; o;
  o; o; o; o; o; o; o; o; o; o; o; o; o; o; o; o;
  o; o; o; o; o; o; o; o; o; o; o; o; o; o; o; o;
  o; o; o; o; o; o; o; o; o; o; o; o; o; o; o; o;
  o; o; o; o; o; o; o; o; o; o; o; o; o; o; o; o;
  o; o; o; o; o; o; o; o; o; o; o; o; o; o; o; o;
  o; o; o; o; o; o; o; o; o; o; o; o; o; o; o; o;
  o; o; o; o; o; o; o; o; o; o; o; o; o; o; o; o;
  o; o; o; o; o; o; o; o; o; o; o; o; o; o; o; o;
  o; o; o; o; o; o; o; o; o; o; o; o; o; o; o; o;
  o; o; o; o; o; o; o; o; o; o; o; o; o; o; o; o;
  o; o; o; o; o; o; o; o; o; o; o; o; o; o; o; o;
  o; o; o; o; o; o; o; o; o; o; o; o; o; o; o; o;
  o; o; o; o; o; o; o; o; o; o; o; o; o; o; o; o;
  o; o; o; o; o; o; o; o; o; o; o; o; o; o; o; o].

Definition _identTable00 : list Z := [
  o; o; o; o; o; o; o; o; o; o; o; o; o; o; o; o;
  o; o; o; o; o; o; o; o; o; o; o; o; o; o; o; o;
  o; E; M; o; A; P; P; A; o; o; P; P; o; E; o; P;
  M; M; M; M; M; M; M; M; M; M; o; o; P; P; P; E;
  P; LA; LA; LA; LA; LA; LA; LA; LA; LA; LA; LA; LA; LA; LA; LA;
  LA; LA; LA; LA; LA; LA; LA; LA; LA; LA; LA; o; o; o; P; LA;
  o; LA; LA; LA; LA; LA; LA; LA; LA; LA; LA; LA; LA; LA; LA; LA;
  LA; LA; LA; LA; LA; LA; LA; LA; LA; LA; LA; o; o; o; P; o;
  o; o; o; o; o; o; o; o; o; o; o; o; o; o; o; o;
  o; o; o; o; o; o; o; o; o; o; o; o; o; o; o; o;
  o; A; A; A; A; A; o; A; o; A; LM; P; P; o; A; o;
  M; P; M; M; o; LA; LA; P; o; M; LM; P; o; o; o; A;
  LA; LA; LA; LA; LA; LA; LA; LA; LA; LA; LA; LA; LA; LA; LA; LA;
  LA; LA; LA; LA; LA; LA; LA; o; LA; LA; LA; LA; LA; LA; LA; LA;
  LA; LA; LA; LA; LA; LA; LA; LA; LA; LA; LA; LA; LA; LA; LA; LA;
  LA; LA; LA; LA; LA; LA; LA; o; LA; LA; LA; LA; LA; LA; LA; LA].

Definition _identTable01 : list Z := [
  LA; LA; LA; LA; LA; LA; LA; LA; LA; LA; LA; LA; LA; LA; LA; LA;
  LA; LA; LA; LA; LA; LA; LA; LA; LA; LA; LA; LA; LA; LA; LA; LA;
  LA; LA; LA; LA; LA; LA; LA; LA; LA; LA; LA; LA; LA; LA; LA; LA;
  LA; LA; o; o; LA; LA; LA; LA; LA; LA; LA; LA; LA; LA; LA; LA;
  LA; LA; LA; LA; LA; LA; LA; LA; LA; LA; LA; LA; LA; LA; LA; LA;
  LA; LA; LA; LA; LA; LA; LA; LA; LA; LA; LA; LA; LA; LA; LA; LA;
  LA; LA; LA; LA; LA; LA; LA; LA; LA; LA; LA; LA; LA; LA; LA; LA;
  LA; LA; LA; LA; LA; LA; LA; LA; LA; LA; LA; LA; LA; LA; LA; LA;
  LA; LA; LA; LA; LA; LA; LA; LA; LA; LA; LA; LA; LA; LA; LA; LA;
  LA; LA; LA; LA; LA; LA; LA; LA; LA; LA; LA; LA; LA; LA; LA; LA;
  LA; LA; LA; LA; LA; LA; LA; LA; LA; LA; LA; LA; LA; LA; LA; LA;
  LA; LA; LA; LA; LA; LA; LA; LA; LA; LA; LA; LA; LA; LA; LA; LA;
  o; o; o; o; o; o; o; o; o; o; o; o; o; LA; LA; LA;
  LA; LA; LA; LA; LA; LA; LA; LA; LA; LA; LA; LA; LA; LA; LA; LA;
  LA; LA; LA; LA; LA; LA; LA; LA; LA; LA; LA; LA; LA; LA; LA; LA;
  LA; o; o; o; LA; LA; LA; LA; LA; LA; LA; LA; LA; LA; LA; LA].

Definition _identTable02 : list Z := [
  LA; LA; LA; LA; LA; LA; LA; LA; LA; LA; LA; LA; LA; LA; LA; LA;
  LA; LA; LA; LA; LA; LA; LA; LA; LA; LA; LA; LA; LA; LA; LA; LA;
  LA; LA; LA; LA; LA; LA; LA; LA; LA; LA; LA; LA; LA; LA; LA; LA;
  LA; LA; o; o; LA; LA; LA; LA; LA; LA; LA; LA; LA; LA; LA; LA;
  LA; LA; LA; LA; LA; LA; LA; LA; LA; LA; LA; LA; LA; LA; LA; LA;
  LA; LA; LA; LA; LA; LA; LA; LA; LA; LA; LA; LA; LA; LA; LA; LA;
  LA; LA; LA; LA; LA; LA; LA; LA; LA; LA; LA; LA; LA; LA; LA; LA;
  LA; LA; LA; LA; LA; LA; LA; LA; LA; LA; LA; LA; LA; LA; LA; LA;
  LA; LA; LA; LA; LA; LA; LA; LA; LA; LA; LA; LA; LA; LA; LA; LA;
  LA; LA; LA; LA; LA; LA; LA; LA; LA; LA; LA; LA; LA; LA; LA; LA;
  LA; LA; LA; LA; LA; LA; LA; LA; LA; LA; LA; LA; LA; LA; LA; LA;
  o; o; o; o; o; o; o; o; o; o; o; o; o; o; o; o;
  o; o; o; o; o; o; o; o; o; o; o; o; o; o; o; o;
  o; o; o; o; o; o; o; o; o; o; o; o; o; o; o; o;
  o; o; o; o; o; o; o; o; o; o; o; o; o; o; o; o;
  o; o; o; o; o; o; o; o; o; o; o; o; o; o; o; o].

Definition _identTable03 : list Z := [
  E; E; E; E; E; E; E; E; E; E; E; E; E; E; E; E;
  E; E; E; E; E; E; E; E; E; E; E; E; E; E; E; E;
  E; E; E; E; E; E; E; E; E; E; E; E; E; E; E; E;
  E; E; E; E; E; E; E; E; E; E; E; E; E; E; E; E;
  E; E; E; E; E; E; E; E; E; E; E; E; E; E; E; E;
  E; E; E; E; E; E; E; E; E; E; E; E; E; E; E; E;
  E; E; E; E; E; E; E; E; E; E; E; E; E; E; E; E;
  GrA; GrA; GrA; GrA; o; o; GrA; GrA; GrA; o; o; o; GrA; GrA; o; GrA;
  o; o; o; o; o; o; GrA; o; GrA; GrA; GrA; o; GrA; o; GrA; GrA;
  GrA; GrA; GrA; GrA; GrA; GrA; GrA; GrA; GrA; GrA; GrA; GrA; GrA; GrA; GrA; GrA;
  GrA; GrA; GrA; GrA; GrA; GrA; GrA; GrA; GrA; GrA; GrA; GrA; GrA; GrA; GrA; GrA;
  GrA; GrA; GrA; GrA; GrA; GrA; GrA; GrA; GrA; GrA; GrA; GrA; GrA; GrA; GrA; GrA;
  GrA; GrA; GrA; GrA; GrA; GrA; GrA; GrA; GrA; GrA; GrA; GrA; GrA; GrA; GrA; GrA;
  GrA; GrA; GrA; GrA; GrA; GrA; GrA; GrA; GrA; GrA; GrA; GrA; GrA; GrA; GrA; GrA;
  GrA; GrA; GrA; GrA; GrA; GrA; GrA; GrA; GrA; GrA; GrA; GrA; GrA; GrA; GrA; GrA;
  GrA; GrA; GrA; GrA; GrA; GrA; GrA; GrA; GrA; GrA; GrA; GrA; GrA; GrA; GrA; GrA].

Definition _identTable04 : list Z := [
  CyA; CyA; CyA; CyA; CyA; CyA; CyA; CyA; CyA; CyA; CyA; CyA; CyA; CyA; CyA; CyA;
  CyA; CyA; CyA; CyA; CyA; CyA; CyA; CyA; CyA; CyA; CyA; CyA; CyA; CyA; CyA; CyA;
  CyA; CyA; CyA; CyA; CyA; CyA; CyA; CyA; CyA; CyA; CyA; CyA; CyA; CyA; CyA; CyA;
  CyA; CyA; CyA; CyA; CyA; CyA; CyA; CyA; CyA; CyA; CyA; CyA; CyA; CyA; CyA; CyA;
  CyA; CyA; CyA; CyA; CyA; CyA; CyA; CyA; CyA; CyA; CyA; CyA; CyA; CyA; CyA; CyA;
  CyA; CyA; CyA; CyA; CyA; CyA; CyA; CyA; CyA; CyA; CyA; CyA; CyA; CyA; CyA; CyA;
  CyA; CyA; CyA; CyA; CyA; CyA; CyA; CyA; CyA; CyA; CyA; CyA; CyA; CyA; CyA; CyA;
  CyA; CyA; CyA; CyA; CyA; CyA; CyA; CyA; CyA; CyA; CyA; CyA; CyA; CyA; CyA; CyA;
  CyA; CyA; CyM; CyM; CyM; CyM; CyM; CyM; CyM; CyM; CyA; CyA; CyA; CyA; CyA; CyA;
  CyA; CyA; CyA; CyA; CyA; CyA; CyA; CyA; CyA; CyA; CyA; CyA; CyA; CyA; CyA; CyA;
  CyA; CyA; CyA; CyA; CyA; CyA; CyA; CyA; CyA; CyA; CyA; CyA; CyA; CyA; CyA; CyA;
  CyA; CyA; CyA; CyA; CyA; CyA; CyA; CyA; CyA; CyA; CyA; CyA; CyA; CyA; CyA; CyA;
  CyA; CyA; CyA; CyA; CyA; CyA; CyA; CyA; CyA; CyA; CyA; CyA; CyA; CyA; CyA; CyA;
  CyA; CyA; CyA; CyA; CyA; CyA; CyA; CyA; CyA; CyA; CyA; CyA; CyA; CyA; CyA; CyA;
  CyA; CyA; CyA; CyA; CyA; CyA; CyA; CyA; CyA; CyA; CyA; CyA; CyA; CyA; CyA; CyA;
  CyA; CyA; CyA; CyA; CyA; CyA; CyA; CyA; CyA; CyA; CyA; CyA; CyA; CyA; CyA; CyA].

Definition _identTable05 : list Z := [
  CyA; CyA; CyA; CyA; CyA; CyA; CyA; CyA; CyA; CyA; CyA; CyA; CyA; CyA; CyA; CyA;
  CyA; CyA; CyA; CyA; CyA; CyA; CyA; CyA; CyA; CyA; CyA; CyA; CyA; CyA; CyA; CyA;
  CyA; CyA; CyA; CyA; CyA; CyA; CyA; CyA; CyA; CyA; CyA; CyA; CyA; CyA; CyA; CyA;
  o; ArA; ArA; ArA; ArA; ArA; ArA; ArA; ArA; ArA; ArA; ArA; ArA; ArA; ArA; ArA;
  ArA; ArA; ArA; ArA; ArA; ArA; ArA; ArA; ArA; ArA; ArA; ArA; ArA; ArA; ArA; ArA;
  ArA; ArA; ArA; ArA; ArA; ArA; ArA; o; o; o; o; o; o; o; o; o;
  ArA; ArA; ArA; ArA; ArA; ArA; ArA; ArA; ArA; ArA; ArA; ArA; ArA; ArA; ArA; ArA;
  ArA; ArA; ArA; ArA; ArA; ArA; ArA; ArA; ArA; ArA; ArA; ArA; ArA; ArA; ArA; ArA;
  ArA; ArA; ArA; ArA; ArA; ArA; ArA; ArA; o; o; ArM; o; o; ArA; ArA; ArA;
  o; HeM; HeM; HeM; HeM; HeM; HeM; HeM; HeM; HeM; HeM; HeM; HeM; HeM; HeM; HeM;
  HeM; HeM; HeM; HeM; HeM; HeM; HeM; HeM; HeM; HeM; HeM; HeM; HeM; HeM; HeM; HeM;
  HeM; HeM; HeM; HeM; HeM; HeM; HeM; HeM; HeM; HeM; HeM; HeM; HeM; HeM; o; HeM;
  o; HeM; HeM; o; HeM; HeM; o; HeM; o; o; o; o; o; o; o; o;
  HeA; HeA; HeA; HeA; HeA; HeA; HeA; HeA; HeA; HeA; HeA; HeA; HeA; HeA; HeA; HeA;
  HeA; HeA; HeA; HeA; HeA; HeA; HeA; HeA; HeA; HeA; HeA; o; o; o; o; o;
  o; o; o; o; o; o; o; o; o; o; o; o; o; o; o; o].

Definition _identTable1E : list Z := [
  LA; LA; LA; LA; LA; LA; LA; LA; LA; LA; LA; LA; LA; LA; LA; LA;
  LA; LA; LA; LA; LA; LA; LA; LA; LA; LA; LA; LA; LA; LA; LA; LA;
  LA; LA; LA; LA; LA; LA; LA; LA; LA; LA; LA; LA; LA; LA; LA; LA;
  LA; LA; LA; LA; LA; LA; LA; LA; LA; LA; LA; LA; LA; LA; LA; LA;
  LA; LA; LA; LA; LA; LA; LA; LA; LA; LA; LA; LA; LA; LA; LA; LA;
  LA; LA; LA; LA; LA; LA; LA; LA; LA; LA; LA; LA; LA; LA; LA; LA;
  LA; LA; LA; LA; LA; LA; LA; LA; LA; LA; LA; LA; LA; LA; LA; LA;
  LA; LA; LA; LA; LA; LA; LA; LA; LA; LA; LA; LA; LA; LA; LA; LA;
  LA; LA; LA; LA; LA; LA; LA; LA; LA; LA; LA; LA; LA; LA; LA; LA;
  LA; LA; LA; LA; LA; LA; LA; LA; LA; LA; LA; LA; LA; LA; LA; LA;
  LA; LA; LA; LA; LA; LA; LA; LA; LA; LA; LA; LA; LA; LA; LA; LA;
  LA; LA; LA; LA; LA; LA; LA; LA; LA; LA; LA; LA; LA; LA; LA; LA;
  LA; LA; LA; LA; LA; LA; LA; LA; LA; LA; LA; LA; LA; LA; LA; LA;
  LA; LA; LA; LA; LA; LA; LA; LA; LA; LA; LA; LA; LA; LA; LA; LA;
  LA; LA; LA; LA; LA; LA; LA; LA; LA; LA; LA; LA; LA; LA; LA; LA;
  LA; LA; LA; LA; LA; LA; LA; LA; LA; LA; LA; LA; LA; LA; LA; LA].

Definition _identTable20 : list Z := [
  o; o; o; o; o; o; o; o; o; o; o; o; o; o; o; o;
  o; o; o; o; o; o; o; o; o; o; o; o; o; o; o; o;
  M; M; o; o; o; o; o; o; o; o; o; o; o; o; o; o;
  M; M; o; o; o; o; o; o; o; o; o; P; o; P; o; o;
  o; P; P; o; o; o; o; o; o; o; o; A; o; o; o; o;
  P; P; o; o; o; P; o; o; o; o; o; o; P; o; o; o;
  o; o; o; o; o; o; o; o; o; o; o; o; o; o; o; o;
  o; o; o; o; o; o; o; o; o; o; o; o; o; o; o; o;
  o; o; o; o; o; o; o; o; o; o; o; o; o; o; o; o;
  o; o; o; o; o; o; o; o; o; o; o; o; o; o; o; o;
  A; A; A; A; A; A; A; A; A; A; A; A; A; A; A; A;
  A; A; A; A; A; A; A; A; A; A; A; A; A; A; o; o;
  o; o; o; o; o; o; o; o; o; o; o; o; o; o; o; o;
  E; E; E; E; E; E; E; E; E; E; E; E; E; E; E; E;
  E; E; E; E; E; E; E; E; E; E; E; E; E; E; E; E;
  E; o; o; o; o; o; o; o; o; o; o; o; o; o; o; o].

Definition _identTable21 : list Z := [
  o; o; o; o; o; o; o; o; o; o; o; o; o; o; o; o;
  o; o; o; o; o; o; o; o; o; o; o; o; o; o; o; o;
  o; o; o; o; o; o; o; o; o; o; o; o; o; o; o; o;
  o; o; o; o; o; o; o; o; o; o; o; o; o; o; o; o;
  o; o; o; o; o; o; o; o; o; o; o; o; o; o; o; o;
  o; o; o; o; o; o; o; o; o; o; o; o; o; o; o; o;
  o; o; o; o; o; o; o; o; o; o; o; o; o; o; o; o;
  o; o; o; o; o; o; o; o; o; o; o; o; o; o; o; o;
  o; o; o; o; o; o; o; o; o; o; o; o; o; o; o; o;
  P; P; P; P; P; P; P; P; P; P; P; P; P; P; P; P;
  P; P; P; P; P; P; P; P; P; P; P; P; P; P; P; P;
  P; P; P; P; P; P; P; P; P; P; P; P; P; P; P; P;
  P; P; P; P; P; P; P; P; P; P; P; P; P; P; P; P;
  P; P; P; P; P; P; P; P; P; P; P; P; P; P; P; P;
  P; P; P; P; P; P; P; P; P; P; P; P; P; P; P; P;
  P; P; P; P; P; P; P; P; P; P; P; P; P; P; P; P].

Definition _identTable22 : list Z := [
  P; o; A; P; P; A; P; P; P; P; o; P; P; o; o; P;
  P; P; o; P; P; o; o; o; P; o; P; P; P; P; A; A;
  A; A; A; o; o; o; o; P; P; P; P; P; o; o; P; P;
  P; P; P; P; P; P; o; o; P; o; P; P; P; P; P; P;
  P; P; P; P; P; P; P; P; P; P; P; P; P; P; P; P;
  P; P; P; P; o; o; P; P; P; P; P; P; P; P; P; P;
  P; P; P; P; P; P; P; P; P; P; o; o; P; P; P; P;
  P; P; P; P; P; P; P; P; P; P; P; P; P; P; P; P;
  P; P; P; P; P; P; P; P; P; P; P; P; P; P; P; P;
  P; P; P; P; P; P; P; P; P; P; P; P; P; P; P; P;
  P; P; P; P; P; P; P; P; P; P; P; P; P; P; P; P;
  P; P; P; P; P; P; P; P; P; P; P; P; P; P; P; P;
  P; P; P; P; P; o; o; P; P; P; P; P; P; P; P; P;
  P; P; P; P; P; o; P; P; o; o; P; P; P; P; P; P;
  P; P; P; P; P; P; P; P; P; P; P; P; P; P; o; o;
  o; o; P; P; P; P; P; P; P; P; P; P; P; P; P; P].

Definition SmileIdentifierTable : list (list Z) := [
  _identTable00; _identTable01; _identTable02; _identTable03; _identTable04; _identTable05; _disallowed; _disallowed;
  _disallowed; _disallowed; _disallowed; _disallowed; _disallowed; _disallowed; _disallowed; _disallowed;
  _disallowed; _disallowed; _disallowed; _disallowed; _disallowed; _disallowed; _disallowed; _disallowed;
  _disallowed; _disallowed; _disallowed; _disallowed; _disallowed; _disallowed; _identTable1E; _disallowed;
  _identTable20; _identTable21; _identTable22].

Definition SmileIdentifierTableLength : Z := 35.

(** The argument is an unsigned machine word: a negative code point is a huge one. *)
Definition SmileIdentifierKind (ch : Z) : option Z :=
  let ch := wrapU 64 ch in
  let codePage := Z.shiftr ch 8 in
  if codePage >=? SmileIdentifierTableLength then Some 0
  else page ← zget SmileIdentifierTable codePage; zget page (Z.land ch 0xFF).

(** [kind & flag] as a condition. *)
Definition has (kind flag : Z) : bool := negb (Z.land kind flag =? 0).

(** Every lookup is inside the tables. *)
Lemma table_shape : Forall (fun page => zlen page = 256) SmileIdentifierTable /\ zlen SmileIdentifierTable = 35.
Proof. split; [|done]. repeat (constructor; [by vm_compute|]). constructor. Qed.

Lemma SmileIdentifierKind_total (ch : Z) : exists k, SmileIdentifierKind ch = Some k.
Proof.
  unfold SmileIdentifierKind. pose proof (wrapU_range 64 ch ltac:(lia)) as Hr. set (c := wrapU 64 ch) in *. clearbody c.
  unfold inU in Hr. rewrite Z.geb_leb. destruct (Z.leb_spec SmileIdentifierTableLength (Z.shiftr c 8)) as [|Hlt]; [eauto|].
  destruct table_shape as [Hs Hl].
  assert (Hc : 0 <= Z.shiftr c 8) by (apply Z.shiftr_nonneg; lia).
  destruct (proj2 (zget_is_Some SmileIdentifierTable (Z.shiftr c 8))) as [page Hp]; [rewrite Hl; unfold SmileIdentifierTableLength in *; lia|].
  rewrite Hp. cbn [option_bind mbind].
  apply zget_Some in Hp as [_ Hp]. rewrite Forall_lookup in Hs. specialize (Hs _ _ Hp).
  apply (zget_is_Some page). rewrite Hs. change 0xFF with (Z.ones 8). rewrite Z.land_ones by lia.
  by apply Z.mod_pos_bound.
Qed.
