(* ===== verification/StringDict.v ===== *)
(** * StringDict: hash tables keyed by strings

    [src/dict/stringintdict.c] with its header, and [src/dict/stringdict.c], the
    same code for pointers as values: the type of the values is a parameter.
    They are built like [Dict], but every node keeps the hash of its key, the key
    of a free node is NULL, and indices are 64 bits wide.

    The hash of a string is a parameter: [Smile_Hash] of a process depends on the
    oracle it draws at startup. *)

From S2P Require Import Prelude IntMath Text.

(** [NextPowerOfTwo64] of [include/smile/bittwiddling.h]. *)
Definition NextPowerOfTwo64 (v : Z) : Z :=
  let v := UInt_ 64 (v - 1) in
  let v := smear v 1 in
  let v := smear v 2 in
  let v := smear v 4 in
  let v := smear v 8 in
  let v := smear v 16 in
  let v := smear v 32 in
  UInt_ 64 (v + 1).

Section StringDict.
Context {V : Type} (String_Hash : Str -> Z) (zero : V).

Record StringDictNode := mkStringNode { sn_next : Z; sn_key : option Str; sn_value : V; sn_keyHash : Z }.

Record StringDictInt := mkStringDict {
  sd_buckets : list Z; sd_heap : list StringDictNode; sd_mask : Z; sd_firstFree : Z; sd_count : Z
}.

Definition set_sn_next (n : Z) (node : StringDictNode) : StringDictNode :=
  mkStringNode n (sn_key node) (sn_value node) (sn_keyHash node).

Definition free_string_node (n : Z) : StringDictNode := mkStringNode n None zero 0.

(** [keyHash & mask]; the search and the append hold the hash in an [Int32]. *)
Definition string_bucket (keyHash mask : Z) : Z := Z.land keyHash mask.

(** ** Searching *)

Fixpoint string_search_loop (fuel : nat) (h : list StringDictNode) (nodeIndex : Z) (key : Str)
  : option (option Z) :=
  if nodeIndex >=? 0 then
    match fuel with
    | O => None
    | S fuel =>
        node ← zget h nodeIndex;
        if String_Equals (sn_key node) (Some key) then Some (Some nodeIndex)
        else string_search_loop fuel h (sn_next node) key
    end
  else Some None.

Definition STRING_DICT_SEARCH (d : StringDictInt) (key : Str) : option (option Z) :=
  let keyHash := wrapS 32 (String_Hash key) in
  nodeIndex ← zget (sd_buckets d) (string_bucket keyHash (sd_mask d));
  string_search_loop (length (sd_heap d)) (sd_heap d) nodeIndex key.

(** ** Resizing *)

Fixpoint string_free_loop (fuel : nat) (h : list StringDictNode) (i newLen : Z) : option (list StringDictNode) :=
  if i <? newLen - 1 then
    match fuel with
    | O => None
    | S fuel => h ← zset h i (free_string_node (i + 1)); string_free_loop fuel h (i + 1) newLen
    end
  else zset h i (free_string_node (-1)).

Fixpoint string_copy_chain (fuel : nat) (oldHeap : list StringDictNode) (nodeIndex newMask : Z)
  (newBuckets : list Z) (newHeap : list StringDictNode) (i : Z)
  : option (list Z * list StringDictNode * Z) :=
  if nodeIndex >=? 0 then
    match fuel with
    | O => None
    | S fuel =>
        old ← zget oldHeap nodeIndex;
        let newBucketIndex := string_bucket (sn_keyHash old) newMask in
        head ← zget newBuckets newBucketIndex;
        newHeap ← zset newHeap i (mkStringNode head (sn_key old) (sn_value old) (sn_keyHash old));
        newBuckets ← zset newBuckets newBucketIndex i;
        string_copy_chain fuel oldHeap (sn_next old) newMask newBuckets newHeap (i + 1)
    end
  else Some (newBuckets, newHeap, i).

Fixpoint string_copy_buckets (oldBuckets : list Z) (oldHeap : list StringDictNode) (newMask : Z)
  (newBuckets : list Z) (newHeap : list StringDictNode) (i : Z)
  : option (list Z * list StringDictNode * Z) :=
  match oldBuckets with
  | [] => Some (newBuckets, newHeap, i)
  | b :: oldBuckets =>
      '(newBuckets, newHeap, i) ←
        string_copy_chain (length oldHeap) oldHeap b newMask newBuckets newHeap i;
      string_copy_buckets oldBuckets oldHeap newMask newBuckets newHeap i
  end.

Definition StringDictInt_Resize (d : StringDictInt) (newLen : Z) : option StringDictInt :=
  if newLen <=? 0 then None
  else
    let newBuckets := repeat (-1) (Z.to_nat newLen) in
    let newHeap := repeat (free_string_node 0) (Z.to_nat newLen) in
    let newMask := newLen - 1 in
    '(newBuckets, newHeap, i) ← string_copy_buckets (sd_buckets d) (sd_heap d) newMask newBuckets newHeap 0;
    newHeap' ← string_free_loop (Z.to_nat newLen) newHeap i newLen;
    Some (mkStringDict newBuckets newHeap' newMask (if i <? newLen then i else -1) (sd_count d)).

(** The cached hash is unsigned. *)
Definition StringDictInt_Append (d : StringDictInt) (key : option Str) (keyHash : Z) (value : V)
  : option (StringDictInt * Z) :=
  match key with
  | None => Some (d, -1)
  | Some _ =>
      d ← (if sd_firstFree d <? 0 then StringDictInt_Resize d (wrapS 64 ((sd_mask d + 1) * 2)) else Some d);
      let nodeIndex := sd_firstFree d in
      let bucketIndex := string_bucket keyHash (sd_mask d) in
      node ← zget (sd_heap d) nodeIndex;
      head ← zget (sd_buckets d) bucketIndex;
      heap' ← zset (sd_heap d) nodeIndex (mkStringNode head key value (wrapU 32 keyHash));
      buckets' ← zset (sd_buckets d) bucketIndex nodeIndex;
      Some (mkStringDict buckets' heap' (sd_mask d) (sn_next node) (sd_count d + 1), nodeIndex)
  end.

(** ** The operations of the header

    The variants for C strings differ in where the text comes from only. *)

Definition StringDict_ClearWithSize (newSize : Z) : option StringDictInt :=
  let newSize := if newSize <? 0x10 then 0x10 else newSize in
  let newSize := if newSize >? 0x1000000 then 0x1000000 else newSize in
  let newSize := NextPowerOfTwo64 newSize in
  heap ← string_free_loop (Z.to_nat newSize) (repeat (free_string_node 0) (Z.to_nat newSize)) 0 newSize;
  Some (mkStringDict (repeat (-1) (Z.to_nat newSize)) heap (newSize - 1) 0 0).

Definition StringDict_CreateWithSize (newSize : Z) : option StringDictInt := StringDict_ClearWithSize newSize.
Definition StringDict_Create : option StringDictInt := StringDict_CreateWithSize 16.
Definition StringDict_Clear : option StringDictInt := StringDict_ClearWithSize 16.

Definition StringDict_ContainsKey (d : StringDictInt) (key : Str) : option bool :=
  found ← STRING_DICT_SEARCH d key;
  Some match found with Some _ => true | None => false end.

Definition StringDict_Add (d : StringDictInt) (key : Str) (value : V) : option (StringDictInt * bool) :=
  found ← STRING_DICT_SEARCH d key;
  match found with
  | Some _ => Some (d, false)
  | None =>
      '(d, _) ← StringDictInt_Append d (Some key) (wrapS 32 (String_Hash key)) value;
      Some (d, true)
  end.

Definition StringDict_Count (d : StringDictInt) : Z := sd_count d.

Definition string_find_value (d : StringDictInt) (key : Str) : option (option V) :=
  found ← STRING_DICT_SEARCH d key;
  match found with
  | Some nodeIndex => node ← zget (sd_heap d) nodeIndex; Some (Some (sn_value node))
  | None => Some None
  end.

Definition StringDict_GetValue (d : StringDictInt) (key : Str) : option V :=
  found ← string_find_value d key;
  Some (default zero found).

Definition StringDict_TryGetValue (d : StringDictInt) (key : Str) : option (V * bool) :=
  found ← string_find_value d key;
  Some match found with Some v => (v, true) | None => (zero, false) end.

Definition string_store_value (d : StringDictInt) (nodeIndex : Z) (value : V) : option StringDictInt :=
  node ← zget (sd_heap d) nodeIndex;
  heap' ← zset (sd_heap d) nodeIndex (mkStringNode (sn_next node) (sn_key node) value (sn_keyHash node));
  Some (mkStringDict (sd_buckets d) heap' (sd_mask d) (sd_firstFree d) (sd_count d)).

Definition StringDict_ReplaceValue (d : StringDictInt) (key : Str) (value : V) : option (StringDictInt * bool) :=
  found ← STRING_DICT_SEARCH d key;
  match found with
  | Some nodeIndex => d ← string_store_value d nodeIndex value; Some (d, true)
  | None => Some (d, false)
  end.

Definition StringDict_SetValue (d : StringDictInt) (key : Str) (value : V) : option (StringDictInt * bool) :=
  found ← STRING_DICT_SEARCH d key;
  match found with
  | Some nodeIndex => d ← string_store_value d nodeIndex value; Some (d, true)
  | None =>
      '(d, _) ← StringDictInt_Append d (Some key) (wrapS 32 (String_Hash key)) value;
      Some (d, false)
  end.

(** ** Removal *)

Definition string_remove_node (d : StringDictInt) (keyHash prevIndex nodeIndex : Z) : option StringDictInt :=
  node ← zget (sd_heap d) nodeIndex;
  '(heap', buckets') ←
    (if prevIndex >=? 0 then
       prev ← zget (sd_heap d) prevIndex;
       h ← zset (sd_heap d) prevIndex (set_sn_next (sn_next node) prev);
       Some (h, sd_buckets d)
     else
       b ← zset (sd_buckets d) (string_bucket keyHash (sd_mask d)) (sn_next node);
       Some (sd_heap d, b));
  heap' ← zset heap' nodeIndex (free_string_node (sd_firstFree d));
  let count' := sd_count d - 1 in
  let d' := mkStringDict buckets' heap' (sd_mask d) nodeIndex count' in
  if (count' <=? Z.shiftr (sd_mask d + 1) 2) && (sd_mask d + 1 >? 16)
  then StringDictInt_Resize d' (Z.shiftr (sd_mask d + 1) 1)
  else Some d'.

Fixpoint string_remove_loop (fuel : nat) (d : StringDictInt) (key : Str) (keyHash prevIndex nodeIndex : Z)
  : option (StringDictInt * bool) :=
  if nodeIndex >=? 0 then
    match fuel with
    | O => None
    | S fuel =>
        node ← zget (sd_heap d) nodeIndex;
        if String_Equals (sn_key node) (Some key)
        then d ← string_remove_node d keyHash prevIndex nodeIndex; Some (d, true)
        else string_remove_loop fuel d key keyHash nodeIndex (sn_next node)
    end
  else Some (d, false).

Definition StringDict_Remove (d : StringDictInt) (key : Str) : option (StringDictInt * bool) :=
  let keyHash := wrapU 32 (String_Hash key) in
  nodeIndex ← zget (sd_buckets d) (string_bucket keyHash (sd_mask d));
  string_remove_loop (length (sd_heap d)) d key keyHash (-1) nodeIndex.

(** ** Enumeration *)

Fixpoint string_collect_chain (fuel : nat) (h : list StringDictNode) (nodeIndex room : Z)
  : option (list StringDictNode * Z) :=
  if nodeIndex >=? 0 then
    match fuel with
    | O => None
    | S fuel =>
        node ← zget h nodeIndex;
        if room <=? 0 then None
        else
          '(rest, room) ← string_collect_chain fuel h (sn_next node) (room - 1);
          Some (node :: rest, room)
    end
  else Some ([], room).

Fixpoint string_collect_buckets (bs : list Z) (h : list StringDictNode) (room : Z)
  : option (list StringDictNode * Z) :=
  match bs with
  | [] => Some ([], room)
  | b :: bs =>
      '(nodes, room) ← string_collect_chain (length h) h b room;
      '(rest, room) ← string_collect_buckets bs h room;
      Some (nodes ++ rest, room)
  end.

Definition string_collect (d : StringDictInt) : option (list StringDictNode) :=
  '(nodes, room) ← string_collect_buckets (sd_buckets d) (sd_heap d) (sd_count d);
  Some (nodes ++ repeat (free_string_node 0) (Z.to_nat room)).

Definition StringDict_GetAll (d : StringDictInt) : option (list (option Str * V)) :=
  nodes ← string_collect d; Some (map (fun n => (sn_key n, sn_value n)) nodes).
Definition StringDict_GetKeys (d : StringDictInt) : option (list (option Str)) :=
  nodes ← string_collect d; Some (map sn_key nodes).
Definition StringDict_GetValues (d : StringDictInt) : option (list V) :=
  nodes ← string_collect d; Some (map sn_value nodes).
End StringDict.

#[global] Arguments StringDictNode : clear implicits.
#[global] Arguments StringDictInt : clear implicits.
