(* ===== verification/StringDictProps.v ===== *)
(** * StringDictProps: the string dictionaries are finite maps

    Forgetting the cached hashes turns a string dictionary into a dictionary of
    [Dict] whose keys are string pointers; as long as the cached hashes are those
    of the keys ([cached]) every operation commutes with forgetting, so the
    interface of [FiniteMap] is inherited from [DictProps]. *)

From Stdlib Require Import String.
From S2P Require Import Prelude IntMath IntBits FiniteMap Dict DictProps Text TextProps StringDict.

Section Forget.
Context {V : Type} (String_Hash : Str -> Z) (zero : V).

#[local] Notation SNode := (StringDictNode V).
#[local] Notation SDict := (StringDictInt V).

(** The hash of a string pointer, unsigned; that of NULL is what free nodes hold. *)
Definition pointer_hash (key : option Str) : Z :=
  match key with Some s => wrapU 32 (String_Hash s) | None => 0 end.

Definition forget_node (n : SNode) : DictNode (option Str) V := mkNode (sn_next n) (sn_key n) (sn_value n).

Definition forget_heap (h : list SNode) : list (DictNode (option Str) V) := map forget_node h.

Definition forget (d : SDict) : DictInt (option Str) V :=
  mkDict (sd_buckets d) (forget_heap (sd_heap d)) (sd_mask d) (sd_firstFree d) (sd_count d).

Definition node_cached (n : SNode) : Prop := sn_keyHash n = pointer_hash (sn_key n).
Definition cached (d : SDict) : Prop := Forall node_cached (sd_heap d).

(** ** Arrays of nodes *)

Lemma length_forget (h : list SNode) : length (forget_heap h) = length h.
Proof. apply length_map. Qed.

Lemma zget_forget (h : list SNode) i : zget (forget_heap h) i = forget_node <$> zget h i.
Proof. unfold zget. destruct (i <? 0); [done|]. apply (list_lookup_fmap forget_node). Qed.

Lemma zset_forget (h : list SNode) i n : zset (forget_heap h) i (forget_node n) = forget_heap <$> zset h i n.
Proof.
  unfold zset, zlen, forget_heap. rewrite length_map. destruct (_ && _); [|done]. simpl. f_equal. symmetry.
  apply (list_fmap_insert forget_node).
Qed.

Lemma zget_cached (h : list SNode) i n : Forall node_cached h -> zget h i = Some n -> node_cached n.
Proof. intros H [_ Hn]%zget_Some. rewrite Forall_lookup in H. by eapply H. Qed.

Lemma zset_cached (h h' : list SNode) i n :
  Forall node_cached h -> node_cached n -> zset h i n = Some h' -> Forall node_cached h'.
Proof. intros H Hn [_ ->]%zset_Some. by apply Forall_insert. Qed.

Lemma free_cached n : node_cached (free_string_node zero n).
Proof. reflexivity. Qed.

Lemma repeat_cached n m : Forall node_cached (repeat (free_string_node zero n) m).
Proof. induction m; by constructor. Qed.

Lemma repeat_forget n m :
  forget_heap (repeat (free_string_node zero n) m) = repeat (free_node None zero n) m.
Proof. induction m; simpl; by f_equal. Qed.

(** An option of a string structure against its forgotten form. *)
Ltac forget_step :=
  rewrite ?zget_forget, ?zset_forget;
  match goal with
  | |- context [zget ?l ?i] => destruct (zget l i) eqn:?; cbn [option_bind option_fmap option_map mbind fmap]; [|done]
  | |- context [zset ?l ?i ?x] => destruct (zset l i x) eqn:?; cbn [option_bind option_fmap option_map mbind fmap]; [|done]
  end.

(** ** Resizing *)

Lemma free_loop_forget fuel (h : list SNode) i n :
  forget_heap <$> string_free_loop zero fuel h i n = free_loop None zero fuel (forget_heap h) i n.
Proof.
  revert h i. induction fuel as [|fuel IH]; intros h i; simpl; destruct (i <? n - 1); try done.
  - change (free_node None zero (-1)) with (forget_node (free_string_node zero (-1))). by rewrite zset_forget.
  - change (free_node None zero (i + 1)) with (forget_node (free_string_node zero (i + 1))).
    forget_step. apply IH.
  - change (free_node None zero (-1)) with (forget_node (free_string_node zero (-1))). by rewrite zset_forget.
Qed.

Lemma free_loop_cached fuel (h h' : list SNode) i n :
  Forall node_cached h -> string_free_loop zero fuel h i n = Some h' -> Forall node_cached h'.
Proof.
  revert h i. induction fuel as [|fuel IH]; intros h i Hh; simpl; destruct (i <? n - 1); intros H; try done;
    try by (eapply zset_cached; [done|apply free_cached|done]).
  apply bind_Some in H as (h1 & H1 & H). eapply IH; [|done].
  eapply zset_cached; [done|apply free_cached|done].
Qed.

Definition forget_table (t : list Z * list SNode * Z) : list Z * list (DictNode (option Str) V) * Z :=
  let '(bs, h, i) := t in (bs, forget_heap h, i).

Lemma copy_chain_forget fuel (old : list SNode) oi newMask bs (h : list SNode) i :
  Forall node_cached old ->
  forget_table <$> string_copy_chain fuel old oi newMask bs h i
  = copy_chain pointer_hash fuel (forget_heap old) oi newMask bs (forget_heap h) i.
Proof.
  intros Hold. revert oi bs h i. induction fuel as [|fuel IH]; intros oi bs h i; simpl; destruct (oi >=? 0); try done.
  forget_step. pose proof (zget_cached _ _ _ Hold Heqo) as Hc. unfold node_cached in Hc.
  unfold bucketIndex, string_bucket. simpl. rewrite Hc. forget_step.
  match goal with |- context [zset (forget_heap h) i ?n] =>
    change n with (forget_node (mkStringNode z (sn_key s) (sn_value s) (pointer_hash (sn_key s)))) end.
  forget_step. forget_step. apply IH.
Qed.

Lemma copy_chain_cached fuel (old : list SNode) oi newMask bs (h : list SNode) i bs' h' i' :
  Forall node_cached old -> Forall node_cached h ->
  string_copy_chain fuel old oi newMask bs h i = Some (bs', h', i') -> Forall node_cached h'.
Proof.
  intros Hold. revert oi bs h i. induction fuel as [|fuel IH]; intros oi bs h i Hh; simpl;
    destruct (oi >=? 0); intros H; try done; try (by injection H as <- <- <-).
  apply bind_Some in H as (n & Hn & H). apply bind_Some in H as (z & Hz & H).
  apply bind_Some in H as (h1 & H1 & H). apply bind_Some in H as (bs1 & H2 & H).
  eapply IH; [|done]. eapply zset_cached; [done| |done]. exact (zget_cached _ _ _ Hold Hn).
Qed.

Lemma copy_buckets_forget obs (old : list SNode) newMask bs (h : list SNode) i :
  Forall node_cached old ->
  forget_table <$> string_copy_buckets obs old newMask bs h i
  = copy_buckets pointer_hash obs (forget_heap old) newMask bs (forget_heap h) i.
Proof.
  intros Hold. revert bs h i. induction obs as [|b obs IH]; intros bs h i; simpl; [done|].
  rewrite length_forget, <- copy_chain_forget by done.
  destruct (string_copy_chain _ _ _ _ _ _ _) as [[[bs1 h1] i1]|]; [|done]. apply IH.
Qed.

Lemma copy_buckets_cached obs (old : list SNode) newMask bs (h : list SNode) i bs' h' i' :
  Forall node_cached old -> Forall node_cached h ->
  string_copy_buckets obs old newMask bs h i = Some (bs', h', i') -> Forall node_cached h'.
Proof.
  intros Hold. revert bs h i. induction obs as [|b obs IH]; intros bs h i Hh; simpl; intros H.
  - by injection H as <- <- <-.
  - apply bind_Some in H as ([[bs1 h1] i1] & H1 & H). eapply IH; [|done].
    eapply copy_chain_cached; [exact Hold|exact Hh|exact H1].
Qed.

Lemma Resize_forget (d : SDict) n :
  cached d -> forget <$> StringDictInt_Resize zero d n = Int32DictInt_Resize pointer_hash None zero (forget d) n.
Proof.
  intros Hd. unfold StringDictInt_Resize, Int32DictInt_Resize. destruct (n <=? 0); [done|].
  cbv zeta. change (heap (forget d)) with (forget_heap (sd_heap d)).
  rewrite <- (repeat_forget 0), <- copy_buckets_forget by done. simpl.
  destruct (string_copy_buckets _ _ _ _ _ _) as [[[bs h] i]|]; [|done]. cbn [option_bind mbind fmap option_fmap option_map forget_table].
  rewrite <- free_loop_forget. by destruct (string_free_loop _ _ _ _ _).
Qed.

Lemma Resize_cached (d d' : SDict) n : cached d -> StringDictInt_Resize zero d n = Some d' -> cached d'.
Proof.
  intros Hd. unfold StringDictInt_Resize. destruct (n <=? 0); [done|]. intros H.
  apply bind_Some in H as ([[bs h] i] & H1 & H). apply bind_Some in H as (h' & H2 & [= <-]).
  eapply free_loop_cached; [|done]. eapply copy_buckets_cached; [done| |done]. apply repeat_cached.
Qed.

(** ** Insertion *)

(** The indices of the nodes of a well-formed table are 32-bit values. *)
Lemma land_hash (h mask : Z) : table_size (mask + 1) -> Z.land (wrapS 32 h) mask = Z.land (wrapU 32 h) mask.
Proof.
  intros (s & Hs & E). assert (mask = Z.ones s) as -> by (rewrite Z.ones_equiv; lia).
  rewrite <- (wrapU_wrapS 32 h) by lia. generalize (wrapS 32 h). intros z.
  rewrite !Z.land_ones by lia. unfold wrapU. symmetry. apply Z.mod_mod_divide.
  exists (2 ^ (32 - s)). rewrite <- Z.pow_add_r by lia. f_equal. lia.
Qed.

Definition forget_fst {B} (p : SDict * B) : DictInt (option Str) V * B := (forget p.1, p.2).

(** Making room doubles the table. *)
Definition string_room (d : SDict) : option SDict :=
  if sd_firstFree d <? 0 then StringDictInt_Resize zero d (wrapS 64 ((sd_mask d + 1) * 2)) else Some d.

Lemma Resize_mask (d d' : SDict) n : StringDictInt_Resize zero d n = Some d' -> sd_mask d' = n - 1.
Proof.
  unfold StringDictInt_Resize. destruct (n <=? 0); [done|]. intros H.
  apply bind_Some in H as ([[bs h] i] & _ & H). by apply bind_Some in H as (h' & _ & [= <-]).
Qed.

Lemma room_forget (d : SDict) :
  cached d -> table_size (sd_mask d + 1) -> (sd_firstFree d < 0 -> sd_mask d + 1 < 2 ^ 30) ->
  forget <$> string_room d
  = (if firstFree (forget d) <? 0
     then Int32DictInt_Resize pointer_hash None zero (forget d) (wrapS 32 ((mask (forget d) + 1) * 2))
     else Some (forget d)).
Proof.
  intros Hd Hs Hl. unfold string_room. simpl. destruct (Z.ltb_spec (sd_firstFree d) 0) as [Hneg|]; [|done].
  pose proof (table_size_pos _ Hs). rewrite <- Resize_forget by done.
  by rewrite !wrapS_id by (unfold inS; simpl; lia).
Qed.

Lemma room_size (d d' : SDict) :
  cached d -> table_size (sd_mask d + 1) -> (sd_firstFree d < 0 -> sd_mask d + 1 < 2 ^ 30) ->
  string_room d = Some d' -> cached d' /\ table_size (sd_mask d' + 1).
Proof.
  intros Hd Hs Hl. unfold string_room. destruct (Z.ltb_spec (sd_firstFree d) 0) as [Hneg|]; [|by intros [= <-]].
  intros H. split; [by eapply Resize_cached|]. rewrite (Resize_mask _ _ _ H), Z.sub_add.
  pose proof (table_size_pos _ Hs). rewrite wrapS_id by (unfold inS; simpl; lia).
  destruct Hs as (s & Hs & E). exists (s + 1). rewrite E in *. rewrite Z.pow_add_r by lia. split; [|lia].
  assert (2 ^ s < 2 ^ 30) as ?%Z.pow_lt_mono_r_iff by auto; lia.
Qed.

Lemma Append_forget (d : SDict) s v :
  cached d -> table_size (sd_mask d + 1) -> (sd_firstFree d < 0 -> sd_mask d + 1 < 2 ^ 30) ->
  forget_fst <$> StringDictInt_Append zero d (Some s) (wrapS 32 (String_Hash s)) v
  = Int32DictInt_Append pointer_hash None zero (forget d) (Some s) v.
Proof.
  intros Hd Hs Hl. unfold StringDictInt_Append, Int32DictInt_Append.
  rewrite <- room_forget by done. fold (string_room d).
  destruct (string_room d) as [d1|] eqn:E1; [|done]. cbn [option_bind mbind fmap option_fmap option_map].
  destruct (room_size _ _ Hd Hs Hl E1) as [_ Hs1]. unfold bucketIndex, string_bucket. simpl.
  rewrite land_hash, wrapU_wrapS by (done || lia).
  forget_step. forget_step.
  match goal with |- context [zset (forget_heap ?h) ?i ?n] =>
    change n with (forget_node (mkStringNode z (Some s) v (wrapU 32 (String_Hash s)))) end.
  forget_step. forget_step. done.
Qed.

Lemma Append_cached (d d' : SDict) s v j :
  cached d -> table_size (sd_mask d + 1) -> (sd_firstFree d < 0 -> sd_mask d + 1 < 2 ^ 30) ->
  StringDictInt_Append zero d (Some s) (wrapS 32 (String_Hash s)) v = Some (d', j) -> cached d'.
Proof.
  intros Hd Hs Hl. unfold StringDictInt_Append. fold (string_room d). intros H.
  apply bind_Some in H as (d1 & H1 & H). destruct (room_size _ _ Hd Hs Hl H1) as [Hd1 _].
  apply bind_Some in H as (n & _ & H). apply bind_Some in H as (hd & _ & H).
  apply bind_Some in H as (h' & Hh & H). apply bind_Some in H as (b' & _ & [= <- _]).
  eapply zset_cached; [exact Hd1| |exact Hh]. unfold node_cached. simpl. apply wrapU_wrapS. lia.
Qed.

(** ** Searching *)

Lemma equal_bytes_spec (a b : Str) : equal_bytes a b = bool_decide (a = b).
Proof.
  unfold equal_bytes. destruct (Z.eqb_spec (zlen a) (zlen b)) as [Hl|Hl];
    [|symmetry; apply bool_decide_eq_false; congruence].
  unfold zlen in Hl. apply Nat2Z.inj in Hl. simpl.
  destruct a as [|a0 [|a1 [|a2 [|a3 [|]]]]], b as [|b0 [|b1 [|b2 [|b3 [|]]]]]; try done; simpl;
    rewrite ?andb_true_r; apply eq_bool_prop_intro; rewrite ?bool_decide_spec, ?andb_True, ?Is_true_true, ?Z.eqb_eq;
    intuition congruence.
Qed.

#[local] Notation Entry := (Z * (option Str * V))%type.

(** No key in use is NULL. *)
Definition real_keys (l : list Entry) : Prop := Forall (fun e => is_Some e.2.1) l.

Lemma search_loop_forget fuel (h : list SNode) i (l : list Entry) s :
  chain (forget_heap h) i l -> real_keys l ->
  string_search_loop fuel h i s = search_loop fuel (forget_heap h) i (Some s).
Proof.
  revert i fuel. induction l as [|[j [k v]] l IH]; intros i fuel Hc Hk.
  - simpl in Hc. destruct fuel; simpl; rewrite Z.geb_leb; (destruct (Z.leb_spec 0 i); [lia|done]).
  - destruct Hc as (-> & nx & Hg & Hc). apply Forall_cons in Hk as [[k' Hk] Hks]. simpl in Hk. subst k.
    destruct fuel as [|fuel]; [done|]. simpl. destruct (j >=? 0); [|done]. rewrite Hg.
    rewrite zget_forget in Hg. destruct (zget h j) as [n|]; [|done]. injection Hg as E1 E2 E3.
    cbn [option_bind mbind]. rewrite E2, E1. simpl. rewrite equal_bytes_spec.
    destruct (decide (k' = s)) as [->|Hne].
    + rewrite bool_decide_eq_true_2, decide_True by done. done.
    + rewrite bool_decide_eq_false_2, decide_False by congruence. by apply IH.
Qed.

(** ** What a string dictionary represents *)

Definition string_represents (d : SDict) (m : gmap Str V) : Prop :=
  cached d /\ represents pointer_hash (forget d) (kmap Some m).

Lemma size_kmap_Some (m : gmap Str V) : size (kmap (M2 := gmap (option Str)) Some m) = size m.
Proof.
  induction m as [|s v m Hs IH] using map_ind; [by rewrite kmap_empty, !map_size_empty|].
  rewrite (kmap_insert Some), !map_size_insert_None, IH; [done|done|]. by rewrite (lookup_kmap Some).
Qed.

Lemma represents_real (d : SDict) m cs free :
  dict_wf pointer_hash (forget d) cs free -> kmap (M2 := gmap (option Str)) Some m = list_to_map (concat cs).*2 ->
  real_keys (concat cs).
Proof.
  intros Hwf E. apply Forall_forall. intros [j [k v]] He. simpl.
  assert (Hk : (list_to_map (concat cs).*2 : gmap (option Str) V) !! k = Some v)
    by (apply represents_lookup; [apply Hwf|eauto]).
  rewrite <- E in Hk. apply lookup_kmap_Some in Hk as (s & -> & _); [done|apply _].
Qed.

Lemma search_forget (d : SDict) m s :
  string_represents d m -> STRING_DICT_SEARCH String_Hash d s = SMILE_DICT_SEARCH pointer_hash (forget d) (Some s).
Proof.
  intros (Hd & cs & free & Hwf & E). pose proof (represents_real _ _ _ _ Hwf E) as Hk.
  pose proof (wf_size _ _ _ _ Hwf) as Hs. unfold STRING_DICT_SEARCH, SMILE_DICT_SEARCH, bucketIndex, string_bucket.
  destruct (table_bucket _ _ _ _ _ (Some s) (wf_table _ _ _ _ Hwf) Hs) as (i & c & Hi & Hc & Hch).
  unfold bucketIndex in Hi. rewrite Z.add_simpl_r in Hi. simpl in *. rewrite land_hash, Hi by done.
  cbn [option_bind mbind]. rewrite length_forget. apply (search_loop_forget _ _ _ c); [done|].
  apply Forall_forall. intros e He. unfold real_keys in Hk. rewrite Forall_forall in Hk.
  apply Hk. by eapply elem_of_concat.
Qed.

Lemma room_ok (d : SDict) m :
  string_represents d m -> Z.of_nat (size m) < 2 ^ 30 ->
  table_size (sd_mask d + 1) /\ (sd_firstFree d < 0 -> sd_mask d + 1 < 2 ^ 30).
Proof.
  intros [Hd Hr] Hm. pose proof (represents_size _ _ _ Hr) as Hsz. destruct Hr as (cs & free & Hwf & E).
  split; [exact (wf_size _ _ _ _ Hwf)|]. intros Hneg. pose proof (wf_free _ _ _ _ Hwf) as Hf.
  destruct free as [|[j [k v]] free]; [|destruct Hf as (Hff & nx & Hj & _); apply zget_Some in Hj; simpl in Hff; lia].
  pose proof (wf_length _ _ _ _ Hwf) as Hl. rewrite zlen_nil, <- (wf_count _ _ _ _ Hwf), Hsz in Hl.
  rewrite size_kmap_Some in Hl. simpl in Hl. lia.
Qed.

(** An operation of [Dict] on the forgotten table gives the operation on strings. *)
Lemma forget_result {B} (r : option (SDict * B)) (d' : DictInt (option Str) V) (b : B) m :
  forget_fst <$> r = Some (d', b) -> (forall d1 b1, r = Some (d1, b1) -> cached d1) ->
  represents pointer_hash d' (kmap Some m) -> exists d1, r = Some (d1, b) /\ string_represents d1 m.
Proof.
  intros E Hc Hr. destruct r as [[d1 b1]|]; [|done]. injection E as <- <-. exists d1.
  split; [done|]. split; [by eapply Hc|done].
Qed.

(** ** Updates *)

Lemma store_forget (d : SDict) j v : forget <$> string_store_value d j v = store_value (forget d) j v.
Proof.
  unfold string_store_value, store_value. simpl. forget_step.
  match goal with |- context [zset (forget_heap ?h) ?i ?n] =>
    change n with (forget_node (mkStringNode (sn_next s) (sn_key s) v (sn_keyHash s))) end.
  by forget_step.
Qed.

Lemma store_cached (d d' : SDict) j v : cached d -> string_store_value d j v = Some d' -> cached d'.
Proof.
  intros Hd H. unfold string_store_value in H. apply bind_Some in H as (n & Hn & H).
  apply bind_Some in H as (h & Hh & [= <-]). eapply zset_cached; [exact Hd| |exact Hh].
  exact (zget_cached _ _ _ Hd Hn).
Qed.

Lemma store_then {B} (d : SDict) j v (b : B) :
  forget_fst <$> (d ← string_store_value d j v; Some (d, b)) = (d ← store_value (forget d) j v; Some (d, b)).
Proof. rewrite <- store_forget. by destruct (string_store_value d j v). Qed.

Lemma append_then {B} (d : SDict) s v (b : B) m :
  string_represents d m -> Z.of_nat (size m) < 2 ^ 30 ->
  forget_fst <$> ('(d, _) ← StringDictInt_Append zero d (Some s) (wrapS 32 (String_Hash s)) v; Some (d, b))
  = ('(d, _) ← Int32DictInt_Append pointer_hash None zero (forget d) (Some s) v; Some (d, b)).
Proof.
  intros Hr Hm. destruct (room_ok _ _ Hr Hm). destruct Hr as [Hd _]. rewrite <- Append_forget by done.
  by destruct (StringDictInt_Append zero d (Some s) (wrapS 32 (String_Hash s)) v) as [[]|].
Qed.

Lemma store_then_cached {B} (d d' : SDict) j v (b b' : B) :
  cached d -> (d ← string_store_value d j v; Some (d, b)) = Some (d', b') -> cached d'.
Proof. intros Hd H. apply bind_Some in H as (d1 & H & [= <- <-]). by eapply store_cached. Qed.

Lemma append_then_cached {B} (d d' : SDict) s v (b b' : B) m :
  string_represents d m -> Z.of_nat (size m) < 2 ^ 30 ->
  ('(d, _) ← StringDictInt_Append zero d (Some s) (wrapS 32 (String_Hash s)) v; Some (d, b)) = Some (d', b') ->
  cached d'.
Proof.
  intros Hr Hm H. destruct (room_ok _ _ Hr Hm). destruct Hr as [Hd _].
  apply bind_Some in H as ([d1 j] & H & [= <- <-]). by eapply Append_cached.
Qed.

Lemma SetValue_forget (d : SDict) m s v :
  string_represents d m -> Z.of_nat (size m) < 2 ^ 30 ->
  exists d', StringDict_SetValue String_Hash zero d s v = Some (d', bool_decide (is_Some (m !! s)))
    /\ string_represents d' (<[s := v]> m).
Proof.
  intros Hr Hm.
  destruct (SetValue_spec pointer_hash None zero (forget d) (kmap Some m) (Some s) v (proj2 Hr))
    as (d' & E & Hr'); [by rewrite size_kmap_Some|].
  rewrite (lookup_kmap Some) in E. rewrite <- (kmap_insert Some) in Hr'.
  eapply forget_result; [|..|exact Hr'].
  - rewrite <- E. unfold StringDict_SetValue, Int32Dict_SetValue. rewrite (search_forget d m) by done.
    destruct (SMILE_DICT_SEARCH _ _ _) as [[j|]|]; [apply store_then|by eapply append_then|done].
  - intros d1 b. unfold StringDict_SetValue.
    destruct (STRING_DICT_SEARCH _ _ _) as [[j|]|]; [apply store_then_cached, Hr|by eapply append_then_cached|done].
Qed.

Lemma Add_forget (d : SDict) m s v :
  string_represents d m -> Z.of_nat (size m) < 2 ^ 30 ->
  exists d', StringDict_Add String_Hash zero d s v = Some (d', bool_decide (m !! s = None))
    /\ string_represents d' (if m !! s is Some _ then m else <[s := v]> m).
Proof.
  intros Hr Hm.
  destruct (Add_spec pointer_hash None zero (forget d) (kmap Some m) (Some s) v (proj2 Hr))
    as (d' & E & Hr'); [by rewrite size_kmap_Some|].
  rewrite !(lookup_kmap Some) in *.
  eapply forget_result; [| |by destruct (m !! s); rewrite ?(kmap_insert Some); exact Hr'].
  - rewrite <- E. unfold StringDict_Add, Int32Dict_Add. rewrite (search_forget d m) by done.
    destruct (SMILE_DICT_SEARCH _ _ _) as [[j|]|]; [done|by eapply append_then|done].
  - intros d1 b. unfold StringDict_Add.
    destruct (STRING_DICT_SEARCH _ _ _) as [[j|]|]; [intros [= <- _]; apply Hr|by eapply append_then_cached|done].
Qed.

Lemma ReplaceValue_forget (d : SDict) m s v :
  string_represents d m ->
  exists d', StringDict_ReplaceValue String_Hash d s v = Some (d', bool_decide (is_Some (m !! s)))
    /\ string_represents d' (if m !! s is Some _ then <[s := v]> m else m).
Proof.
  intros Hr.
  destruct (ReplaceValue_spec pointer_hash (forget d) (kmap Some m) (Some s) v (proj2 Hr)) as (d' & E & Hr').
  rewrite !(lookup_kmap Some) in *.
  eapply forget_result; [| |by destruct (m !! s); rewrite ?(kmap_insert Some); exact Hr'].
  - rewrite <- E. unfold StringDict_ReplaceValue, Int32Dict_ReplaceValue. rewrite (search_forget d m) by done.
    destruct (SMILE_DICT_SEARCH _ _ _) as [[j|]|]; [apply store_then|done|done].
  - intros d1 b. unfold StringDict_ReplaceValue.
    destruct (STRING_DICT_SEARCH _ _ _) as [[j|]|]; [apply store_then_cached, Hr|intros [= <- _]; apply Hr|done].
Qed.

(** ** Lookups *)

Lemma find_forget (d : SDict) m s : string_represents d m -> string_find_value String_Hash d s = Some (m !! s).
Proof.
  intros Hr. rewrite <- (lookup_kmap (M2 := gmap (option Str)) Some m s).
  rewrite <- (find_value_spec pointer_hash (forget d)) by apply Hr.
  unfold string_find_value, find_value. rewrite (search_forget d m) by done.
  destruct (SMILE_DICT_SEARCH _ _ _) as [[j|]|]; [|done|done]. cbn [option_bind mbind]. simpl. by forget_step.
Qed.

Lemma Contains_forget (d : SDict) m s :
  string_represents d m -> StringDict_ContainsKey String_Hash d s = Some (bool_decide (is_Some (m !! s))).
Proof.
  intros Hr. rewrite <- (lookup_kmap (M2 := gmap (option Str)) Some m s).
  rewrite <- (ContainsKey_spec pointer_hash (forget d)) by apply Hr.
  unfold StringDict_ContainsKey, Int32Dict_ContainsKey. by rewrite (search_forget d m).
Qed.

(** ** Removal *)

(** Unlinking the node [n] of the chain of [s] from the node before it. *)
Definition string_unlink (d : SDict) (s : Str) (prev : Z) (n : SNode) : option (list SNode * list Z) :=
  if prev >=? 0 then
    p ← zget (sd_heap d) prev; h ← zset (sd_heap d) prev (set_sn_next (sn_next n) p); Some (h, sd_buckets d)
  else
    b ← zset (sd_buckets d) (string_bucket (wrapU 32 (String_Hash s)) (sd_mask d)) (sn_next n);
    Some (sd_heap d, b).

Lemma unlink_forget (d : SDict) s prev n :
  (fun p => (forget_heap p.1, p.2)) <$> string_unlink d s prev n
  = (if prev >=? 0 then
       p ← zget (forget_heap (sd_heap d)) prev;
       h ← zset (forget_heap (sd_heap d)) prev (set_next (sn_next n) p);
       Some (h, sd_buckets d)
     else
       b ← zset (sd_buckets d) (bucketIndex pointer_hash (Some s) (sd_mask d)) (sn_next n);
       Some (forget_heap (sd_heap d), b)).
Proof.
  unfold string_unlink. destruct (prev >=? 0).
  - forget_step. change (set_next (sn_next n) (forget_node s0)) with (forget_node (set_sn_next (sn_next n) s0)).
    by forget_step.
  - change (bucketIndex pointer_hash (Some s) (sd_mask d)) with (string_bucket (wrapU 32 (String_Hash s)) (sd_mask d)).
    by forget_step.
Qed.

Lemma unlink_cached (d : SDict) s prev n h b :
  cached d -> string_unlink d s prev n = Some (h, b) -> Forall node_cached h.
Proof.
  intros Hd. unfold string_unlink. destruct (prev >=? 0); intros H.
  - apply bind_Some in H as (p & Hp & H). apply bind_Some in H as (h' & Hh & [= <- <-]).
    eapply zset_cached; [exact Hd| |exact Hh]. exact (zget_cached _ _ _ Hd Hp).
  - by apply bind_Some in H as (b' & _ & [= <- <-]).
Qed.

Lemma remove_node_forget (d : SDict) s prev j :
  cached d ->
  forget <$> string_remove_node zero d (wrapU 32 (String_Hash s)) prev j
  = remove_node pointer_hash None zero (forget d) (Some s) prev j.
Proof.
  intros Hd. unfold string_remove_node, remove_node. simpl. rewrite (zget_forget _ j).
  destruct (zget (sd_heap d) j) as [n|]; [|done]. cbn [option_bind mbind fmap option_fmap option_map].
  fold (string_unlink d s prev n). simpl. rewrite <- unlink_forget. destruct (string_unlink d s prev n) as [[h b]|] eqn:E; [|done].
  pose proof (unlink_cached _ _ _ _ _ _ Hd E) as Hh. cbn [option_bind mbind fmap option_fmap option_map fst snd].
  change (free_node None zero (sd_firstFree d)) with (forget_node (free_string_node zero (sd_firstFree d))).
  rewrite zset_forget. destruct (zset h j _) as [h'|] eqn:Eh; [|done].
  cbn [option_bind mbind fmap option_fmap option_map]. destruct (_ && _); [|done].
  rewrite Resize_forget; [done|]. eapply zset_cached; [exact Hh|apply free_cached|exact Eh].
Qed.

Lemma remove_node_cached (d d' : SDict) s prev j :
  cached d -> string_remove_node zero d (wrapU 32 (String_Hash s)) prev j = Some d' -> cached d'.
Proof.
  intros Hd H. unfold string_remove_node in H. apply bind_Some in H as (n & _ & H).
  fold (string_unlink d s prev n) in H. apply bind_Some in H as ([h b] & Hu & H).
  apply bind_Some in H as (h' & Hh & H).
  assert (Hc : Forall node_cached h') by (eapply zset_cached; [by eapply unlink_cached|apply free_cached|exact Hh]).
  destruct (_ && _); [|by injection H as <-]. eapply Resize_cached; [|exact H]. done.
Qed.

Lemma remove_loop_forget fuel (d : SDict) s prev i (l : list Entry) :
  cached d -> chain (forget_heap (sd_heap d)) i l -> real_keys l ->
  forget_fst <$> string_remove_loop zero fuel d s (wrapU 32 (String_Hash s)) prev i
  = remove_loop pointer_hash None zero fuel (forget d) (Some s) prev i.
Proof.
  intros Hd. revert i prev fuel. induction l as [|[j [k v]] l IH]; intros i prev fuel Hc Hk.
  - simpl in Hc. destruct fuel; simpl; rewrite Z.geb_leb; (destruct (Z.leb_spec 0 i); [lia|done]).
  - destruct Hc as (-> & nx & Hg & Hc). apply Forall_cons in Hk as [[k' Hk] Hks]. simpl in Hk. subst k.
    destruct fuel as [|fuel]; simpl; (destruct (j >=? 0); [|done]); [done|]. rewrite Hg.
    rewrite zget_forget in Hg. destruct (zget (sd_heap d) j) as [n|]; [|done]. injection Hg as E1 E2 E3.
    cbn [option_bind mbind]. rewrite E2, E1. simpl. rewrite equal_bytes_spec.
    destruct (decide (k' = s)) as [->|Hne].
    + rewrite bool_decide_eq_true_2, decide_True, <- remove_node_forget by done.
      by destruct (string_remove_node _ _ _ _ _).
    + rewrite bool_decide_eq_false_2, decide_False by congruence. by apply IH.
Qed.

Lemma remove_loop_cached fuel (d d' : SDict) s prev i b :
  cached d -> string_remove_loop zero fuel d s (wrapU 32 (String_Hash s)) prev i = Some (d', b) -> cached d'.
Proof.
  intros Hd. revert i prev. induction fuel as [|fuel IH]; intros i prev; simpl; destruct (i >=? 0);
    intros H; try done; try (by injection H as <- <-).
  apply bind_Some in H as (n & _ & H). destruct (String_Equals _ _); [|by eapply IH].
  apply bind_Some in H as (d1 & H & [= <- <-]). by eapply remove_node_cached.
Qed.

Lemma Remove_forget (d : SDict) m s :
  string_represents d m ->
  exists d', StringDict_Remove String_Hash zero d s = Some (d', bool_decide (is_Some (m !! s)))
    /\ string_represents d' (delete s m).
Proof.
  intros Hr. destruct (Remove_spec pointer_hash None zero (forget d) (kmap Some m) (Some s) (proj2 Hr)) as (d' & E & Hr').
  rewrite !(lookup_kmap Some), <- (kmap_delete Some) in *.
  eapply forget_result; [| |exact Hr'].
  - rewrite <- E. destruct Hr as (Hd & cs & free & Hwf & Em). pose proof (represents_real _ _ _ _ Hwf Em) as Hk.
    unfold StringDict_Remove, Int32Dict_Remove, string_bucket.
    destruct (table_bucket _ _ _ _ _ (Some s) (wf_table _ _ _ _ Hwf) (wf_size _ _ _ _ Hwf)) as (i & c & Hi & Hc & Hch).
    rewrite Z.add_simpl_r in Hi. rewrite Hi. unfold bucketIndex in Hi. simpl in Hi. rewrite Hi.
    cbn [option_bind mbind]. simpl. rewrite length_forget. apply (remove_loop_forget _ _ _ _ _ c); [done|done|].
    apply Forall_forall. intros e He. unfold real_keys in Hk. rewrite Forall_forall in Hk.
    apply Hk. by eapply elem_of_concat.
  - intros d1 b H. apply bind_Some in H as (i & _ & H). eapply remove_loop_cached; [apply Hr|exact H].
Qed.

(** ** Creation *)

Lemma NextPowerOfTwo64_spec (v : Z) : 0 < v <= 2 ^ 31 -> NextPowerOfTwo64 v = NextPowerOfTwo32 v.
Proof.
  intros Hv. rewrite NextPowerOfTwo32_spec by lia.
  rewrite <- (RoundUpPow2_spec 64 v); [unfold NextPowerOfTwo64, RoundUpPow2; reflexivity|by right|lia].
Qed.

#[local] Opaque NextPowerOfTwo64 NextPowerOfTwo32.

Lemma fresh_forget k d' :
  (heap ← free_loop None zero (Z.to_nat k) (repeat (free_node None zero 0) (Z.to_nat k)) 0 k;
   Some (mkDict (repeat (-1) (Z.to_nat k)) heap (k - 1) 0 0)) = Some d' ->
  represents pointer_hash d' (∅ : gmap (option Str) V) ->
  exists d, (heap ← string_free_loop zero (Z.to_nat k) (repeat (free_string_node zero 0) (Z.to_nat k)) 0 k;
             Some (mkStringDict (repeat (-1) (Z.to_nat k)) heap (k - 1) 0 0)) = Some d
    /\ string_represents d (∅ : gmap Str V).
Proof.
  intros E Hr. rewrite <- repeat_forget, <- free_loop_forget in E.
  destruct (string_free_loop _ _ _ _ _) as [h|] eqn:Eh; [|done]. injection E as <-.
  eexists. split; [done|]. split; [|by rewrite kmap_empty].
  eapply free_loop_cached; [|exact Eh]. apply repeat_cached.
Qed.

Lemma Clear_forget n :
  exists d, StringDict_ClearWithSize zero n = Some d /\ string_represents d (∅ : gmap Str V).
Proof.
  destruct (ClearWithSize_spec pointer_hash None zero n) as (d' & E & Hr).
  unfold Int32Dict_ClearWithSize in E. unfold StringDict_ClearWithSize. cbv zeta in *.
  rewrite NextPowerOfTwo64_spec; [by eapply fresh_forget|]. clear.
  rewrite !Z.gtb_ltb. destruct (Z.ltb_spec n 0x10); [simpl; lia|]. destruct (Z.ltb_spec 0x1000000 n); lia.
Qed.

#[local] Transparent NextPowerOfTwo64 NextPowerOfTwo32.

(** ** Enumeration *)

Lemma collect_chain_forget fuel (h : list SNode) i (room : Z) :
  (fun p => (map forget_node p.1, p.2)) <$> string_collect_chain fuel h i room
  = collect_chain fuel (forget_heap h) i room.
Proof.
  revert i room. induction fuel as [|fuel IH]; intros i room; simpl; destruct (i >=? 0); try done.
  rewrite zget_forget. destruct (zget h i) as [n|]; [|done]. cbn [option_bind mbind fmap option_fmap option_map].
  destruct (room <=? 0); [done|]. simpl. rewrite <- IH.
  by destruct (string_collect_chain _ _ _ _) as [[]|].
Qed.

Lemma collect_buckets_forget bs (h : list SNode) (room : Z) :
  (fun p => (map forget_node p.1, p.2)) <$> string_collect_buckets bs h room
  = collect_buckets bs (forget_heap h) room.
Proof.
  revert room. induction bs as [|b bs IH]; intros room; simpl; [done|].
  rewrite length_forget, <- collect_chain_forget.
  destruct (string_collect_chain _ _ _ _) as [[l1 r1]|]; [|done]. cbn [option_bind mbind fmap option_fmap option_map fst snd].
  rewrite <- IH. destruct (string_collect_buckets _ _ _) as [[l2 r2]|]; [|done]. simpl. by rewrite map_app.
Qed.

Lemma collect_forget (d : SDict) : map forget_node <$> string_collect zero d = collect None zero (forget d).
Proof.
  unfold string_collect, collect. simpl. rewrite <- collect_buckets_forget.
  destruct (string_collect_buckets _ _ _) as [[l r]|]; [|done]. simpl. rewrite map_app.
  do 3 f_equal. apply repeat_forget.
Qed.

Lemma GetAll_forget (d : SDict) m :
  string_represents d m ->
  exists pairs, pairs ≡ₚ map_to_list m
    /\ StringDict_GetAll zero d = Some (prod_map Some id <$> pairs)
    /\ StringDict_GetKeys zero d = Some (Some <$> pairs.*1) /\ StringDict_GetValues zero d = Some pairs.*2.
Proof.
  intros (Hd & cs & free & Hwf & E). destruct (collect_spec _ None zero _ _ _ Hwf) as (nodes & Ec & Hn).
  assert (Hp : (concat cs).*2 ≡ₚ prod_map Some id <$> map_to_list m).
  { rewrite <- (map_to_list_to_map (M := gmap (option Str))) by apply Hwf. rewrite <- E.
    apply NoDup_Permutation; [apply NoDup_map_to_list|apply (NoDup_fmap_2 _), NoDup_map_to_list|].
    intros [k v]. rewrite elem_of_map_to_list, (lookup_kmap_Some Some), list_elem_of_fmap. split.
    - intros (s & -> & Hs). exists (s, v). split; [done|]. by apply elem_of_map_to_list.
    - intros ([s v'] & [= -> ->] & Hs%elem_of_map_to_list). by exists s. }
  apply Permutation_map_inv in Hp as (pairs & Ep & Hpairs).
  exists pairs. split; [done|].
  rewrite <- collect_forget in Ec. destruct (string_collect zero d) as [l|] eqn:El; [|done]. injection Ec as <-.
  unfold StringDict_GetAll, StringDict_GetKeys, StringDict_GetValues. rewrite El. cbn [option_bind mbind].
  assert (Hl : map (fun n => (sn_key n, sn_value n)) l = prod_map Some id <$> pairs)
    by (change (prod_map Some id <$> pairs) with (map (prod_map Some (@id V)) pairs); rewrite <- Ep, <- Hn, map_map; done).
  assert (H1 : map sn_key l = map fst (map (fun n => (sn_key n, sn_value n)) l)) by (by rewrite map_map).
  assert (H2 : map sn_value l = map snd (map (fun n => (sn_key n, sn_value n)) l)) by (by rewrite map_map).
  rewrite H1, H2, Hl. split; [done|]. split; f_equal; rewrite <- !list_fmap_compose; done.
Qed.

(** ** The interface *)

#[export] Instance StringDict_ops : MapOps Str V SDict := {
  NULL_value := zero;
  ClearWithSize := StringDict_ClearWithSize zero;
  ContainsKey := StringDict_ContainsKey String_Hash;
  GetValue := StringDict_GetValue String_Hash zero;
  TryGetValue := StringDict_TryGetValue String_Hash zero;
  Add := StringDict_Add String_Hash zero;
  SetValue := StringDict_SetValue String_Hash zero;
  ReplaceValue := StringDict_ReplaceValue String_Hash;
  Remove := StringDict_Remove String_Hash zero;
  Count := StringDict_Count
}.

#[export] Program Instance StringDict_laws : MapLaws Str V SDict := {
  represented := string_represents;
  capacity := 2 ^ 30
}.
Next Obligation. apply Clear_forget. Qed.
Next Obligation. intros. by apply Contains_forget. Qed.
Next Obligation. intros. simpl. unfold StringDict_GetValue. by rewrite (find_forget d m). Qed.
Next Obligation.
  intros. simpl. unfold StringDict_TryGetValue. rewrite (find_forget d m) by done. by destruct (m !! k).
Qed.
Next Obligation. intros. by apply Add_forget. Qed.
Next Obligation. intros. by apply SetValue_forget. Qed.
Next Obligation. intros. by apply ReplaceValue_forget. Qed.
Next Obligation. intros. by apply Remove_forget. Qed.
Next Obligation.
  intros d m [Hd Hr]. simpl. unfold StringDict_Count. apply represents_size in Hr. by rewrite size_kmap_Some in Hr.
Qed.

(** C11: the string dictionaries refine the finite map from texts: whatever the hash
    function, any sequence of operations on a new dictionary returns, stays
    inside the arrays and gives the answers of the map, and the enumerations
    list exactly its entries. *)
Theorem StringDict_refines_map (newSize : Z) (ops : list (MapOp Str V)) :
  zlen ops <= 2 ^ 30 ->
  exists d d' pairs, StringDict_CreateWithSize zero newSize = Some d
    /\ run_ops d ops = Some (d', (spec_ops ∅ ops).2)
    /\ string_represents d' (spec_ops ∅ ops).1
    /\ StringDict_GetAll zero d' = Some (prod_map Some id <$> pairs)
    /\ pairs ≡ₚ map_to_list (spec_ops ∅ ops).1.
Proof.
  intros Hl. destruct (Clear_forget newSize) as (d & E & Hr).
  destruct (run_ops_refines (L := StringDict_laws) d ∅ ops Hr) as (d' & Hrun & Hr'); [by rewrite map_size_empty|].
  destruct (GetAll_forget _ _ Hr') as (pairs & Hp & Hall & _). by exists d, d', pairs.
Qed.

End Forget.

(** A hash function that collides on texts of one length. *)
Example length_hash_collides :
  (d ← StringDict_Create 0;
   '(d, _) ← StringDict_SetValue zlen 0 d (bytes "one") 1;
   '(d, _) ← StringDict_SetValue zlen 0 d (bytes "two") 2;
   '(d, r) ← StringDict_Remove zlen 0 d (bytes "one");
   v ← StringDict_GetValue zlen 0 d (bytes "two"); Some (r, v)) = Some (true, 2).
Proof. by vm_compute. Qed.

Section StringWitness.
#[local] Notation ops := [OpSet (bytes "one") 1; OpAdd (bytes "two") 2; OpRemove (bytes "one"); OpTryGet (bytes "two")].

Lemma StringDict_refines_map_witness :
  exists d d' pairs, StringDict_CreateWithSize 0 16 = Some d
    /\ run_ops (O := StringDict_ops zlen 0) d ops = Some (d', [ABool false; ABool true; ABool true; AFound 2 true])
    /\ StringDict_GetAll 0 d' = Some (prod_map Some id <$> pairs) /\ pairs ≡ₚ [(bytes "two", 2)].
Proof.
  destruct (StringDict_refines_map zlen 0 16 ops) as (d & d' & pairs & H1 & H2 & _ & H3 & H4);
    [vm_compute; discriminate|].
  exists d, d', pairs. split; [exact H1|]. split; [exact H2|]. split; [exact H3|].
  rewrite H4. by vm_compute.
Defined.
End StringWitness.
