(* ===== verification/DictVariants.v ===== *)
(** * DictVariants: the copies of the hash table for other keys and values

    [src/dict/int32int32dict.c], [src/dict/vardict.c], [src/dict/pointerset.c],
    [src/dict/stringintdict.c] and their headers repeat [src/dict/int32dict.c] and
    [src/dict/stringdict.c] with other types; each operation is the modelled one at
    those types, so the laws of [DictProps] and [StringDictProps] are theirs.  What
    a copy adds is defined here: [Int32Int32Dict_TryAddValue] and
    [VarDict_ForEach]. *)

From S2P Require Import Prelude IntMath FiniteMap Dict DictProps Text StringDict StringDictProps.

(** ** Integers by integers *)

#[local] Notation self := (fun key : Z => key).

Definition Int32Int32Dict : Type := DictInt Z Z.

Definition Int32Int32DictInt_Resize := Int32DictInt_Resize self 0 0.
Definition Int32Int32DictInt_Append := Int32DictInt_Append self 0 0.
Definition Int32Int32Dict_ClearWithSize := Int32Dict_ClearWithSize 0 0.
Definition Int32Int32Dict_CreateWithSize := Int32Dict_CreateWithSize 0 0.
Definition Int32Int32Dict_Create := Int32Dict_Create 0 0.
Definition Int32Int32Dict_Clear := Int32Dict_Clear 0 0.
Definition Int32Int32Dict_ContainsKey := Int32Dict_ContainsKey (V := Z) self.
Definition Int32Int32Dict_Add := Int32Dict_Add self 0 0.
Definition Int32Int32Dict_Count := Int32Dict_Count (K := Z) (V := Z).
Definition Int32Int32Dict_GetValue := Int32Dict_GetValue self 0.
Definition Int32Int32Dict_TryGetValue := Int32Dict_TryGetValue self 0.
Definition Int32Int32Dict_ReplaceValue := Int32Dict_ReplaceValue (V := Z) self.
Definition Int32Int32Dict_SetValue := Int32Dict_SetValue self 0 0.
Definition Int32Int32Dict_Remove := Int32Dict_Remove self 0 0.
Definition Int32Int32Dict_GetAll := Int32Dict_GetAll 0 0.
Definition Int32Int32Dict_GetKeys := Int32Dict_GetKeys 0 0.
Definition Int32Int32Dict_GetValues := Int32Dict_GetValues 0 0.

(** The dictionary, [*result], and whether the key is new. *)
Definition Int32Int32Dict_TryAddValue (d : Int32Int32Dict) (key value : Z) : option (Int32Int32Dict * Z * bool) :=
  found ← SMILE_DICT_SEARCH self d key;
  match found with
  | Some nodeIndex => d ← store_value d nodeIndex value; Some (d, value, false)
  | None => '(d, _) ← Int32Int32DictInt_Append d key value; Some (d, value, true)
  end.

(** The header promises that a key that exists keeps its value and that the value
    is the result; the code stores and returns the new one. *)
Lemma TryAddValue_overwrites (d : Int32Int32Dict) (m : gmap Z Z) (key value : Z) :
  represents self d m -> Z.of_nat (size m) < 2 ^ 30 ->
  exists d', Int32Int32Dict_TryAddValue d key value = Some (d', value, bool_decide (m !! key = None))
    /\ represents self d' (<[key := value]> m).
Proof.
  intros Hr Hsz. destruct (SetValue_spec self 0 0 d m key value Hr Hsz) as (d' & E & Hr').
  exists d'. split; [|done]. unfold Int32Int32Dict_TryAddValue, Int32Int32DictInt_Append.
  unfold Int32Dict_SetValue in E. destruct (SMILE_DICT_SEARCH self d key) as [[j|]|]; [| |done]; cbn [option_bind mbind] in *.
  - destruct (store_value d j value); [|done]. simpl in *. injection E as -> Eb. symmetry in Eb.
    apply bool_decide_eq_true in Eb as [w Hw]. by rewrite Hw.
  - destruct (Int32DictInt_Append self 0 0 d key value) as [[d1 i]|]; [|done]. simpl in *. injection E as -> Eb.
    symmetry in Eb. apply bool_decide_eq_false, eq_None_not_Some in Eb. by rewrite Eb.
Qed.

(** ** Symbols by what is known of a variable *)

Record VarEntry := mkVarEntry { vi_symbol : Z; vi_kind : Z; vi_offset : Z; vi_value : Z }.

(** What free nodes hold; the code writes NULL or the null object for the value,
    and never reads it. *)
Definition no_var : VarEntry := mkVarEntry 0 0 0 0.

Definition VarDict : Type := DictInt Z VarEntry.

Definition VarDictInt_Resize := Int32DictInt_Resize self 0 no_var.
Definition VarDictInt_Append := Int32DictInt_Append self 0 no_var.
Definition VarDict_ClearWithSize := Int32Dict_ClearWithSize 0 no_var.
Definition VarDict_CreateWithSize := Int32Dict_CreateWithSize 0 no_var.
Definition VarDict_Create := Int32Dict_Create 0 no_var.
Definition VarDict_Clear := Int32Dict_Clear 0 no_var.
Definition VarDict_ContainsKey := Int32Dict_ContainsKey (V := VarEntry) self.
Definition VarDict_Add := Int32Dict_Add self 0 no_var.
Definition VarDict_Count := Int32Dict_Count (K := Z) (V := VarEntry).
Definition VarDict_ReplaceValue := Int32Dict_ReplaceValue (V := VarEntry) self.
Definition VarDict_SetValue := Int32Dict_SetValue self 0 no_var.
Definition VarDict_Remove := Int32Dict_Remove self 0 no_var.
Definition VarDict_GetKeys := Int32Dict_GetKeys 0 no_var.
Definition VarDict_Clone (d : VarDict) : option VarDict := Int32Dict_Clone 0 no_var d None.

(** The lookup answers a pointer into the dictionary: the variable it points to. *)
Definition VarDict_GetValue (d : VarDict) (key : Z) : option (option VarEntry) := find_value self d key.

(** [func] may change what [param] points to, [s], and stops the iteration by
    answering false. *)
Fixpoint foreach_chain {S} (func : S -> VarEntry -> S * bool) (fuel : nat) (h : list (DictNode Z VarEntry))
  (nodeIndex : Z) (s : S) : option (S * bool) :=
  if nodeIndex >=? 0 then
    match fuel with
    | O => None
    | Datatypes.S fuel =>
        node ← zget h nodeIndex;
        let '(s, more) := func s (value node) in
        if more then foreach_chain func fuel h (next node) s else Some (s, false)
    end
  else Some (s, true).

Fixpoint foreach_buckets {S} (func : S -> VarEntry -> S * bool) (bs : list Z) (h : list (DictNode Z VarEntry)) (s : S)
  : option (S * bool) :=
  match bs with
  | [] => Some (s, true)
  | b :: bs =>
      '(s, more) ← foreach_chain func (length h) h b s;
      if (more : bool) then foreach_buckets func bs h s else Some (s, false)
  end.

Definition VarDict_ForEach {S} (d : VarDict) (func : S -> VarEntry -> S * bool) (param : S) : option (S * bool) :=
  foreach_buckets func (buckets d) (heap d) param.

(** The same over a list of variables. *)
Fixpoint foreach_list {S} (func : S -> VarEntry -> S * bool) (l : list VarEntry) (s : S) : S * bool :=
  match l with
  | [] => (s, true)
  | v :: l => let '(s, more) := func s v in if more then foreach_list func l s else (s, false)
  end.

Lemma foreach_list_app {S} (func : S -> VarEntry -> S * bool) l k s :
  foreach_list func (l ++ k) s
  = (let '(s, more) := foreach_list func l s in if more : bool then foreach_list func k s else (s, false)).
Proof.
  revert s. induction l as [|v l IH]; intros s; [done|]. simpl. destruct (func s v) as [s' []]; [apply IH|done].
Qed.

#[local] Notation values l := (map (fun e : Z * (Z * VarEntry) => e.2.2) l).

Lemma foreach_chain_spec {S} (func : S -> VarEntry -> S * bool) fuel h i l s :
  chain h i l -> (length l <= fuel)%nat -> foreach_chain func fuel h i s = Some (foreach_list func (values l) s).
Proof.
  revert fuel i s. induction l as [|[j [k v]] l IH]; intros fuel i s Hc Hf.
  - simpl in Hc. destruct fuel; simpl; rewrite Z.geb_leb; (destruct (Z.leb_spec 0 i); [lia|done]).
  - destruct Hc as (-> & nx & Hg & Hc). destruct fuel as [|fuel]; [simpl in Hf; lia|].
    simpl. apply zget_Some in Hg as Hj. rewrite Z.geb_leb. destruct (Z.leb_spec 0 j); [|lia].
    rewrite Hg. simpl. destruct (func s v) as [s' []]; [|done]. apply IH; [done|simpl in Hf; lia].
Qed.

(** The iteration is over the entries of the dictionary, in the order of the
    enumerations, each once, up to the first at which the function stops. *)
Lemma ForEach_visits {S} (d : VarDict) (m : gmap Z VarEntry) (func : S -> VarEntry -> S * bool) (param : S) :
  represents self d m ->
  exists vars, VarDict_ForEach d func param = Some (foreach_list func vars param)
    /\ vars ≡ₚ (map_to_list m).*2 /\ Int32Dict_GetValues 0 no_var d = Some vars.
Proof.
  intros (cs & free & Hwf & ->). exists (values (concat cs)).
  destruct (collect_spec _ 0 no_var _ _ _ Hwf) as (nodes & E & Hm).
  assert (Hv : values (concat cs) = (concat cs).*2.*2) by (symmetry; by rewrite <- list_fmap_compose).
  split; [|split].
  - unfold VarDict_ForEach. pose proof (table_chains _ _ _ _ _ (wf_table _ _ _ _ Hwf)) as Hf.
    pose proof (wf_lengths _ _ _ _ Hwf) as Hl. clear -Hf Hl. revert param Hl.
    induction Hf as [|b c bs cs Hc Hf IH]; intros s Hl; [done|]. apply Forall_cons in Hl as [Hlc Hl].
    simpl. rewrite (foreach_chain_spec _ _ _ _ c) by done. cbn [option_bind mbind].
    rewrite map_app, foreach_list_app. destruct (foreach_list func (values c) s) as [s' []]; [|done]. by apply IH.
  - rewrite Hv, map_to_list_to_map by apply Hwf. done.
  - unfold Int32Dict_GetValues. rewrite E. simpl. f_equal. rewrite Hv, <- Hm. symmetry. apply map_map.
Qed.

(** ** Sets of pointers

    The hash of a pointer is its value without the three bits of its alignment. *)

Definition PointerSet : Type := DictInt Z unit.

Definition pointer_bucket (key : Z) : Z := Z.shiftr key 3.

Definition PointerSetInt_Resize := Int32DictInt_Resize pointer_bucket 0 tt.
Definition PointerSetInt_Append (d : PointerSet) (key : Z) := Int32DictInt_Append pointer_bucket 0 tt d key tt.
Definition PointerSet_ClearWithSize := Int32Dict_ClearWithSize 0 tt.
Definition PointerSet_CreateWithSize := Int32Dict_CreateWithSize 0 tt.
Definition PointerSet_Create := Int32Dict_Create 0 tt.
Definition PointerSet_Clear := Int32Dict_Clear 0 tt.
Definition PointerSet_Contains := Int32Dict_ContainsKey (V := unit) pointer_bucket.
Definition PointerSet_Add (d : PointerSet) (key : Z) := Int32Dict_Add pointer_bucket 0 tt d key tt.
Definition PointerSet_Count := Int32Dict_Count (K := Z) (V := unit).
Definition PointerSet_Remove := Int32Dict_Remove pointer_bucket 0 tt.
Definition PointerSet_GetAll := Int32Dict_GetKeys 0 tt.
Definition PointerSet_GetFirst (d : PointerSet) : option Z := '(key, _) ← Int32Dict_GetFirst 0 tt d; Some key.

(** Texts by integers are [StringDict] at integers. *)

Section StringIntDict.
Context (String_Hash : Str -> Z).

Definition StringIntDict : Type := StringDictInt Z.
Definition StringIntDictInt_Resize := StringDictInt_Resize 0.
Definition StringIntDictInt_Append := StringDictInt_Append 0.
Definition StringIntDict_ClearWithSize := StringDict_ClearWithSize 0.
Definition StringIntDict_CreateWithSize := StringDict_CreateWithSize 0.
Definition StringIntDict_Create := StringDict_Create 0.
Definition StringIntDict_Clear := StringDict_Clear 0.
Definition StringIntDict_ContainsKey := StringDict_ContainsKey (V := Z) String_Hash.
Definition StringIntDict_Add := StringDict_Add String_Hash 0.
Definition StringIntDict_Count := StringDict_Count (V := Z).
Definition StringIntDict_GetValue := StringDict_GetValue String_Hash 0.
Definition StringIntDict_TryGetValue := StringDict_TryGetValue String_Hash 0.
Definition StringIntDict_ReplaceValue := StringDict_ReplaceValue (V := Z) String_Hash.
Definition StringIntDict_SetValue := StringDict_SetValue String_Hash 0.
Definition StringIntDict_Remove := StringDict_Remove String_Hash 0.
Definition StringIntDict_GetAll := StringDict_GetAll 0.
Definition StringIntDict_GetKeys := StringDict_GetKeys 0.
Definition StringIntDict_GetValues := StringDict_GetValues 0.
End StringIntDict.
