(* ===== verification/SymbolTable.v ===== *)
(** * SymbolTable: the interned names

    [src/env/symboltable.c] and [include/smile/env/symboltable.h].  A symbol is the
    position of its name in a growing array; a dictionary finds the symbol of a
    name.  The table is a client of the interface [MapOps] of [FiniteMap], and its
    theorems are proved against [MapLaws]; [StringDict] is the instance the code
    uses. *)

From Stdlib Require Import String.
From S2P Require Import Prelude IntMath FiniteMap Dict DictProps Text StringDict StringDictProps.

Section SymbolTable.
Context {D : Type} {O : MapOps Str Z D}.

Record SymbolTableInt := mkSymbolTable {
  symbolNames : list (option Str); symbolCount : Z; symbolMax : Z; symbolLookup : D
}.

(** Room for one more name: the array doubles. *)
Definition SymbolTable_room (table : SymbolTableInt) : option SymbolTableInt :=
  if symbolCount table >=? symbolMax table then
    let newMax := wrapS 64 (symbolMax table * 2) in
    if (newMax <? symbolCount table) || (zlen (symbolNames table) <? symbolCount table) then None
    else
      let newNames :=
        substring (symbolNames table) 0 (symbolCount table)
        ++ repeat None (Z.to_nat (newMax - symbolCount table)) in
      Some (mkSymbolTable newNames (symbolCount table) newMax (symbolLookup table))
  else Some table.

Definition SymbolTableInt_AddSymbol (table : SymbolTableInt) (name : Str) : option (SymbolTableInt * Z) :=
  table ← SymbolTable_room table;
  let symbol := wrapS 32 (symbolCount table) in
  names ← zset (symbolNames table) (symbolCount table) (Some name);
  '(lookup, _) ← Add (symbolLookup table) name symbol;
  Some (mkSymbolTable names (symbolCount table + 1) (symbolMax table) lookup, symbol).

Definition SymbolTable_Create : option SymbolTableInt :=
  lookup ← ClearWithSize 1024;
  Some (mkSymbolTable (Some [] :: repeat None 1023) 1 1024 lookup).

Definition SymbolTable_GetSymbol (table : SymbolTableInt) (name : Str) : option (SymbolTableInt * Z) :=
  v ← GetValue (symbolLookup table) name;
  let symbol := wrapS 32 v in
  if symbol =? 0 then SymbolTableInt_AddSymbol table name else Some (table, symbol).

Definition SymbolTable_GetSymbolNoCreate (table : SymbolTableInt) (name : Str) : option Z :=
  v ← GetValue (symbolLookup table) name; Some (wrapS 32 v).

Definition SymbolTable_GetName (table : SymbolTableInt) (symbol : Z) : option (option Str) :=
  if (symbol <=? 0) || (symbol >=? symbolCount table) then Some None
  else zget (symbolNames table) symbol.

(** The symbols of a list of names, interned one after the other. *)
Fixpoint GetSymbols (table : SymbolTableInt) (names : list Str) : option (SymbolTableInt * list Z) :=
  match names with
  | [] => Some (table, [])
  | name :: names =>
      '(table, symbol) ← SymbolTable_GetSymbol table name;
      '(table, symbols) ← GetSymbols table names;
      Some (table, symbol :: symbols)
  end.

(** ** The interned names *)

Context {L : MapLaws Str Z D} (zero_is_absent : NULL_value = 0) (large : 2 ^ 30 <= capacity).

(** The names in the order of their symbols, the first of which is 1. *)
Record interned (table : SymbolTableInt) (names : list Str) : Prop := {
  interned_unique : NoDup names;
  interned_names : symbolNames table
    = Some [] :: map Some names ++ repeat None (Z.to_nat (symbolMax table) - S (length names));
  interned_count : symbolCount table = zlen names + 1;
  interned_max : symbolCount table <= symbolMax table <= 1024 + 2 * zlen names;
  interned_lookup : exists m, represented (symbolLookup table) m /\ size m = length names
    /\ forall s i, m !! s = Some i <-> 0 < i /\ zget names (i - 1) = Some s
}.

Lemma Create_interned : exists table, SymbolTable_Create = Some table /\ interned table [].
Proof.
  unfold SymbolTable_Create. destruct (clear_law (MapLaws := L) 1024) as (d & -> & Hr). cbn [option_bind mbind].
  eexists. split; [done|]. split; simpl; [apply NoDup_nil_2|done|done|unfold zlen; simpl; lia|].
  exists ∅. split; [done|]. split; [apply map_size_empty|]. intros s i. rewrite lookup_empty.
  split; [done|]. intros [Hi Hg]. apply zget_Some in Hg as [_ Hg]. done.
Qed.

Lemma room_interned table names :
  interned table names -> zlen names < 2 ^ 30 - 1 ->
  exists table', SymbolTable_room table = Some table' /\ interned table' names
    /\ symbolCount table' < symbolMax table'.
Proof.
  intros Hi Hsz. pose proof (interned_max _ _ Hi) as Hmax. pose proof (interned_count _ _ Hi) as Hc.
  pose proof (zlen_nonneg names). unfold SymbolTable_room. rewrite Z.geb_leb.
  destruct (Z.leb_spec (symbolMax table) (symbolCount table)) as [Hfull|Hroom]; [|by exists table; repeat split; try apply Hi].
  assert (Hnames : symbolNames table = Some [] :: map Some names).
  { rewrite (interned_names _ _ Hi). unfold zlen in *.
    replace (_ - _)%nat with 0%nat by lia. by rewrite app_nil_r. }
  rewrite wrapS_id by (unfold inS; simpl; lia).
  destruct (Z.ltb_spec (symbolMax table * 2) (symbolCount table)); [lia|].
  assert (Hz : zlen (symbolNames table) = symbolCount table)
    by (rewrite Hnames, zlen_cons, Hc; unfold zlen; by rewrite length_map).
  destruct (Z.ltb_spec (zlen (symbolNames table)) (symbolCount table)); [lia|]. simpl.
  eexists. split; [done|]. split; [|simpl; lia].
  split; simpl; [apply Hi| |done|lia|apply Hi].
  unfold substring. simpl. rewrite drop_0, take_ge by (unfold zlen in *; lia). rewrite Hnames. simpl.
  do 3 f_equal. unfold zlen in *. lia.
Qed.

Lemma zget_snoc {A} (l : list A) x i y :
  zget (l ++ [x]) i = Some y <-> zget l i = Some y \/ i = zlen l /\ y = x.
Proof.
  rewrite !zget_Some. unfold zlen. rewrite lookup_app_Some, list_lookup_singleton_Some. split.
  - intros [Hi [H|(H & H1 & ->)]]; [by left|right]. split; [lia|done].
  - intros [[Hi H]|[-> ->]]; [by eauto|]. split; [lia|right]. rewrite Nat2Z.id. repeat split; lia.
Qed.

Lemma missing_name (m : gmap Str Z) names name :
  (forall s i, m !! s = Some i <-> 0 < i /\ zget names (i - 1) = Some s) -> name ∉ names -> m !! name = None.
Proof.
  intros Hm Hn. destruct (m !! name) as [i|] eqn:E; [|done]. apply Hm in E as [_ [_ E]%zget_Some].
  exfalso. by apply Hn, (list_elem_of_lookup_2 _ _ _ E).
Qed.

Lemma AddSymbol_interned table names name :
  interned table names -> name ∉ names -> zlen names < 2 ^ 30 - 1 ->
  exists table', SymbolTableInt_AddSymbol table name = Some (table', zlen names + 1)
    /\ interned table' (names ++ [name]).
Proof.
  intros Hi Hn Hsz. unfold SymbolTableInt_AddSymbol.
  destruct (room_interned _ _ Hi Hsz) as (t & -> & Ht & Hroom). clear Hi table. cbn [option_bind mbind].
  pose proof (interned_count _ _ Ht) as Hc. pose proof (interned_max _ _ Ht) as Hmax. pose proof (zlen_nonneg names).
  rewrite wrapS_id by (unfold inS; simpl; lia).
  destruct (interned_lookup _ _ Ht) as (m & Hr & Hsm & Hm).
  pose proof (missing_name _ _ _ Hm Hn) as Hk.
  assert (Hset : zset (symbolNames t) (symbolCount t) (Some name)
    = Some (Some [] :: map Some (names ++ [name]) ++ repeat None (Z.to_nat (symbolMax t) - S (S (length names))))).
  { rewrite (interned_names _ _ Ht). unfold zset, zlen in *.
    replace (Z.to_nat (symbolMax t) - S (length names))%nat with (S (Z.to_nat (symbolMax t) - S (S (length names)))) by lia.
    rewrite Hc. simpl. rewrite length_app, length_map. simpl. rewrite repeat_length.
    destruct (Z.leb_spec 0 (Z.of_nat (length names) + 1)); [|lia].
    destruct (Z.ltb_spec (Z.of_nat (length names) + 1) (Z.of_nat (S (length names + S (Z.to_nat (symbolMax t) - S (S (length names))))))); [|lia].
    simpl. replace (Z.to_nat (Z.of_nat (length names) + 1)) with (S (length names)) by lia. simpl.
    rewrite map_app, <- app_assoc. simpl. do 2 f_equal.
    replace (length names) with (length (map (@Some Str) names) + 0)%nat at 1 by (rewrite length_map; lia).
    by rewrite insert_app_r. }
  rewrite Hset. cbn [option_bind mbind].
  destruct (add_law (MapLaws := L) (symbolLookup t) m name (symbolCount t) Hr) as (d' & -> & Hr');
    [unfold zlen in *; lia|].
  rewrite Hk in Hr'. cbn [option_bind mbind]. rewrite Hc. eexists. split; [done|].
  split; simpl; rewrite ?zlen_app, ?zlen_cons, ?zlen_nil; [| |lia|lia|].
  - apply NoDup_app. split; [apply Ht|]. split; [set_solver|apply NoDup_singleton].
  - do 3 f_equal. rewrite length_app. simpl. lia.
  - exists (<[name := symbolCount t]> m). split; [done|].
    split; [rewrite map_size_insert_None by done; rewrite length_app; simpl; lia|].
    intros s i. rewrite zget_snoc, lookup_insert_Some, Hm, Hc. split.
    + intros [[<- <-]|[Hne [Hi Hg]]]; [split; [lia|right; split; [lia|done]]|split; [done|by left]].
    + intros [Hi [Hg|[Hi' ->]]]; [right|left; split; [done|lia]]. split; [|done].
      intros ->. apply zget_Some in Hg as [_ Hg]. by apply Hn, (list_elem_of_lookup_2 _ _ _ Hg).
Qed.

(** The symbol of a name among [names]. *)
Lemma interned_get table names name :
  interned table names -> zlen names < 2 ^ 30 ->
  exists v, GetValue (symbolLookup table) name = Some v /\ wrapS 32 v = v
    /\ (v = 0 /\ name ∉ names \/ 0 < v /\ zget names (v - 1) = Some name).
Proof.
  intros Hi Hsz. destruct (interned_lookup _ _ Hi) as (m & Hr & _ & Hm).
  rewrite (get_law _ m name Hr), zero_is_absent. destruct (m !! name) as [i|] eqn:E; simpl.
  - apply Hm in E as [Hi0 Hg]. exists i. split; [done|]. split; [|by right].
    assert (Hb : 0 <= i - 1 < zlen names) by (apply zget_is_Some; by rewrite Hg).
    apply wrapS_id; unfold inS; simpl; lia.
  - exists 0. split; [done|]. split; [done|]. left. split; [done|]. intros Hin.
    apply list_elem_of_lookup in Hin as [n Hn]. 
    assert (Hs : m !! name = Some (Z.of_nat n + 1)); [|by rewrite E in Hs].
    apply Hm. split; [lia|]. apply zget_Some. split; [lia|]. by replace (Z.to_nat _) with n by lia.
Qed.

Lemma interned_name table names i s :
  interned table names -> 0 < i -> zget names (i - 1) = Some s -> SymbolTable_GetName table i = Some (Some s).
Proof.
  intros Hi Hpos Hg. assert (Hb : 0 <= i - 1 < zlen names) by (apply zget_is_Some; by rewrite Hg).
  unfold SymbolTable_GetName. rewrite (interned_count _ _ Hi), Z.geb_leb.
  destruct (Z.leb_spec i 0), (Z.leb_spec (zlen names + 1) i); try lia. simpl.
  rewrite (interned_names _ _ Hi). apply zget_Some in Hg as [_ Hg]. apply zget_Some. split; [lia|].
  replace (Z.to_nat i) with (S (Z.to_nat (i - 1))) by lia. simpl.
  rewrite lookup_app_l by (rewrite length_map; by eapply lookup_lt_Some).
  rewrite list_lookup_fmap. by rewrite Hg.
Qed.

Lemma GetSymbol_interned table names name :
  interned table names -> zlen names < 2 ^ 30 - 1 ->
  exists table' symbol more, SymbolTable_GetSymbol table name = Some (table', symbol)
    /\ interned table' (names ++ more) /\ zlen more <= 1
    /\ 0 < symbol /\ zget (names ++ more) (symbol - 1) = Some name.
Proof.
  intros Hi Hsz. destruct (interned_get _ _ name Hi) as (v & E & Hw & Hv); [lia|].
  unfold SymbolTable_GetSymbol. rewrite E. cbn [option_bind mbind]. rewrite Hw.
  destruct Hv as [[-> Hn]|[Hpos Hg]].
  - destruct (AddSymbol_interned _ _ _ Hi Hn Hsz) as (t & -> & Ht). simpl.
    exists t, (zlen names + 1), [name]. pose proof (zlen_nonneg names).
    split; [done|]. split; [done|]. split; [done|]. split; [lia|]. apply zget_snoc. right. split; [lia|done].
  - destruct (Z.eqb_spec v 0); [lia|]. exists table, v, []. rewrite app_nil_r. by rewrite zlen_nil.
Qed.

Lemma zget_app_Some {A} (l k : list A) i x : zget l i = Some x -> zget (l ++ k) i = Some x.
Proof.
  intros H. rewrite zget_app_l; [done|]. apply (zget_is_Some l i). by rewrite H.
Qed.

Lemma GetSymbols_interned l : forall table names,
  interned table names -> zlen names + zlen l < 2 ^ 30 ->
  exists table' symbols more, GetSymbols table l = Some (table', symbols)
    /\ interned table' (names ++ more) /\ zlen more <= zlen l
    /\ Forall2 (fun name symbol => 0 < symbol /\ zget (names ++ more) (symbol - 1) = Some name) l symbols.
Proof.
  induction l as [|name l IH]; intros table names Hi Hsz.
  - exists table, [], []. rewrite app_nil_r. done.
  - rewrite zlen_cons in Hsz. pose proof (zlen_nonneg l).
    destruct (GetSymbol_interned _ _ name Hi) as (t1 & s & more & E & Ht1 & Hm & Hpos & Hg); [lia|].
    simpl. rewrite E. cbn [option_bind mbind].
    destruct (IH t1 (names ++ more) Ht1) as (t2 & ss & more2 & -> & Ht2 & Hm2 & Hf); [rewrite zlen_app; lia|].
    cbn [option_bind mbind]. exists t2, (s :: ss), (more ++ more2).
    rewrite zlen_app, zlen_cons, (app_assoc names). split; [done|]. split; [done|]. split; [lia|].
    constructor; [|done]. split; [done|]. by apply zget_app_Some.
Qed.

(** What is known of two names interned in one table. *)
Lemma same_symbol names i j (a b : Str) :
  NoDup names -> 0 < i -> 0 < j -> zget names (i - 1) = Some a -> zget names (j - 1) = Some b -> i = j <-> a = b.
Proof.
  intros Hnd Hi Hj [_ Ha]%zget_Some [_ Hb]%zget_Some. split; [intros ->; congruence|]. intros <-.
  pose proof (NoDup_lookup _ _ _ _ Hnd Ha Hb). lia.
Qed.

(** The law of the table, over any dictionary. *)
Lemma interning (l : list Str) :
  zlen l < 2 ^ 30 ->
  exists table0 table symbols, SymbolTable_Create = Some table0
    /\ GetSymbols table0 l = Some (table, symbols) /\ length symbols = length l
    /\ (forall i a s, l !! i = Some a -> symbols !! i = Some s ->
          0 < s /\ SymbolTable_GetName table s = Some (Some a)
          /\ SymbolTable_GetSymbolNoCreate table a = Some s)
    /\ forall i j a b s t, l !! i = Some a -> l !! j = Some b -> symbols !! i = Some s -> symbols !! j = Some t ->
         s = t <-> a = b.
Proof.
  intros Hl. destruct Create_interned as (t0 & E0 & H0).
  destruct (GetSymbols_interned l t0 [] H0) as (t & ss & names & E & Ht & Hm & Hf); [by rewrite zlen_nil|].
  rewrite app_nil_l in *. exists t0, t, ss. split; [done|]. split; [done|].
  split; [symmetry; by eapply Forall2_length|]. rewrite Forall2_lookup in Hf. split.
  - intros i a s Ha Hs. specialize (Hf i). rewrite Ha, Hs in Hf. inversion Hf as [? ? [Hpos Hg]|]; subst.
    split; [done|]. split; [by eapply interned_name|].
    destruct (interned_get _ _ a Ht) as (v & Ev & Hw & Hv); [lia|].
    unfold SymbolTable_GetSymbolNoCreate. rewrite Ev. simpl. rewrite Hw. f_equal.
    destruct Hv as [[-> Hn]|[Hv Hg']].
    + apply zget_Some in Hg as [_ Hg]. exfalso. by apply Hn, (list_elem_of_lookup_2 _ _ _ Hg).
    + by apply (same_symbol names v s a a (interned_unique _ _ Ht)).
  - intros i j a b s u Ha Hb Hs Hu. pose proof (Hf i) as Hi. specialize (Hf j).
    rewrite Ha, Hs in Hi. rewrite Hb, Hu in Hf. inversion Hi as [? ? [Hp1 Hg1]|]; subst.
    inversion Hf as [? ? [Hp2 Hg2]|]; subst. by eapply same_symbol; [apply Ht|..].
Qed.
End SymbolTable.

#[global] Arguments SymbolTableInt : clear implicits.

(** The lookup table of the code, without the checks for names that exist; only
    the initialisation of the known symbols uses it. *)
Definition SymbolTableInt_AddFast (String_Hash : Str -> Z) (table : SymbolTableInt (StringDictInt Z)) (name : Str)
  : option (SymbolTableInt (StringDictInt Z) * Z) :=
  let symbol := wrapS 32 (symbolCount table) in
  names ← zset (symbolNames table) (symbolCount table) (Some name);
  '(lookup, _) ← StringDictInt_Append 0 (symbolLookup table) (Some name) (wrapS 32 (String_Hash name)) symbol;
  Some (mkSymbolTable names (symbolCount table + 1) (symbolMax table) lookup, symbol).

(** ** The table of the code *)

Section Instance.
Context (String_Hash : Str -> Z).
#[local] Notation Dict := (StringDictInt Z).
#[local] Existing Instance StringDict_ops.
#[local] Instance symbol_lookup : MapOps Str Z Dict := StringDict_ops String_Hash 0.
#[local] Instance symbol_lookup_laws : MapLaws Str Z Dict := StringDict_laws String_Hash 0.

(** Where the checks would pass, the fast path adds the same symbol. *)
Lemma AddFast_agrees (table : SymbolTableInt Dict) (names : list Str) name :
  interned table names -> name ∉ names -> symbolCount table < symbolMax table ->
  SymbolTableInt_AddFast String_Hash table name = SymbolTableInt_AddSymbol table name.
Proof.
  intros Hi Hn Hroom. unfold SymbolTableInt_AddFast, SymbolTableInt_AddSymbol, SymbolTable_room.
  rewrite Z.geb_leb. destruct (Z.leb_spec (symbolMax table) (symbolCount table)); [lia|]. cbn [option_bind mbind].
  destruct (zset _ _ _); [|done]. cbn [option_bind mbind]. cbn [Add symbol_lookup StringDict_ops]. unfold StringDict_Add.
  destruct (interned_lookup _ _ Hi) as (m & Hr & _ & Hm).
  pose proof (Contains_forget String_Hash (symbolLookup table) m name Hr) as Hc.
  rewrite (missing_name _ _ _ Hm Hn) in Hc. unfold StringDict_ContainsKey in Hc.
  destruct (STRING_DICT_SEARCH String_Hash (symbolLookup table) name) as [[j|]|]; try done.
  cbn [option_bind mbind]. by destruct (StringDictInt_Append _ _ _ _ _) as [[]|].
Qed.

(** C12: interning is a bijection between the names seen and their symbols: for any
    hash function and any sequence of names, equal names get equal symbols and
    different names different ones, through every growth of the array of names
    and of the dictionary; every symbol leads back to its name, is found again
    without being created, and is not the invalid symbol zero. *)
Theorem SymbolTable_interns (l : list Str) :
  zlen l < 2 ^ 30 ->
  exists table0 table symbols, SymbolTable_Create = Some table0
    /\ GetSymbols table0 l = Some (table, symbols) /\ length symbols = length l
    /\ (forall i a s, l !! i = Some a -> symbols !! i = Some s ->
          0 < s /\ SymbolTable_GetName table s = Some (Some a)
          /\ SymbolTable_GetSymbolNoCreate table a = Some s)
    /\ forall i j a b s t, l !! i = Some a -> l !! j = Some b -> symbols !! i = Some s -> symbols !! j = Some t ->
         s = t <-> a = b.
Proof. by apply interning. Qed.
End Instance.

Lemma SymbolTable_interns_witness :
  exists table0 table s t, SymbolTable_Create (O := StringDict_ops zlen 0) = Some table0
    /\ GetSymbols (O := StringDict_ops zlen 0) table0 [bytes "x"; bytes "y"; bytes "x"] = Some (table, [s; t; s])
    /\ s <> t /\ SymbolTable_GetName table t = Some (Some (bytes "y")).
Proof.
  destruct (SymbolTable_interns zlen [bytes "x"; bytes "y"; bytes "x"]) as (t0 & t & ss & H0 & H & Hl & Hn & Hs);
    [vm_compute; reflexivity|].
  destruct ss as [|a [|b [|c [|]]]]; try discriminate Hl.
  pose proof (proj2 (Hs 0%nat 2%nat _ _ a c eq_refl eq_refl eq_refl eq_refl) eq_refl) as <-.
  exists t0, t, a, b. split; [exact H0|]. split; [exact H|]. split.
  - intros E. apply (Hs 0%nat 1%nat _ _ a b eq_refl eq_refl eq_refl eq_refl) in E. discriminate E.
  - exact (proj1 (proj2 (Hn 1%nat _ _ eq_refl eq_refl))).
Defined.
