(* ===== verification/KnownSymbols.v ===== *)
(** * KnownSymbols: the names the program knows

    [include/smile/env/knownsymbols.h] and [src/env/knownsymbols.c]: the constants of
    the special symbols, the names registered at startup in the order of their
    registration, and the preloading of the symbol table. *)

From Stdlib Require Import String.
From S2P Require Import Prelude IntMath FiniteMap Dict DictProps Text StringDict StringDictProps SymbolTable.

(** ** Special symbols: [SMILE_SPECIAL_SYMBOL_*] *)

Definition SYMBOL__SET : Z := 1.
Definition SYMBOL__OPSET : Z := 2.
Definition SYMBOL__INCLUDE : Z := 3.
Definition SYMBOL__IF : Z := 4.
Definition SYMBOL__WHILE : Z := 5.
Definition SYMBOL__TILL : Z := 6.
Definition SYMBOL__FN : Z := 7.
Definition SYMBOL__QUOTE : Z := 8.
Definition SYMBOL__SCOPE : Z := 9.
Definition SYMBOL__PROG1 : Z := 10.
Definition SYMBOL__PROGN : Z := 11.
Definition SYMBOL__RETURN : Z := 12.
Definition SYMBOL__CATCH : Z := 13.
Definition SYMBOL__NOT : Z := 14.
Definition SYMBOL__OR : Z := 15.
Definition SYMBOL__AND : Z := 16.
Definition SYMBOL__EQ : Z := 17.
Definition SYMBOL__NE : Z := 18.
Definition SYMBOL__NEW : Z := 19.
Definition SYMBOL__DOT : Z := 20.
Definition SYMBOL__INDEX : Z := 21.
Definition SYMBOL__IS : Z := 22.
Definition SYMBOL__TYPEOF : Z := 23.
Definition SYMBOL__BRK : Z := 24.
Definition SYMBOL_VAR : Z := 25.
Definition SYMBOL_CONST : Z := 26.
Definition SYMBOL_AUTO : Z := 27.
Definition SYMBOL_KEYWORD : Z := 28.
Definition SYMBOL_IF : Z := 29.
Definition SYMBOL_UNLESS : Z := 30.
Definition SYMBOL_THEN : Z := 31.
Definition SYMBOL_ELSE : Z := 32.
Definition SYMBOL_DO : Z := 33.
Definition SYMBOL_WHILE : Z := 34.
Definition SYMBOL_UNTIL : Z := 35.
Definition SYMBOL_TILL : Z := 36.
Definition SYMBOL_WHEN : Z := 37.
Definition SYMBOL_RETURN : Z := 38.
Definition SYMBOL_TRY : Z := 39.
Definition SYMBOL_CATCH : Z := 40.
Definition SYMBOL_NOT : Z := 41.
Definition SYMBOL_OR : Z := 42.
Definition SYMBOL_AND : Z := 43.
Definition SYMBOL_NEW : Z := 44.
Definition SYMBOL_IS : Z := 45.
Definition SYMBOL_TYPEOF : Z := 46.
Definition SYMBOL_SUPEREQ : Z := 47.
Definition SYMBOL_SUPERNE : Z := 48.
Definition SYMBOL_EQ : Z := 49.
Definition SYMBOL_NE : Z := 50.
Definition SYMBOL_LT : Z := 51.
Definition SYMBOL_GT : Z := 52.
Definition SYMBOL_LE : Z := 53.
Definition SYMBOL_GE : Z := 54.
Definition SYMBOL_PLUS : Z := 55.
Definition SYMBOL_MINUS : Z := 56.
Definition SYMBOL_STAR : Z := 57.
Definition SYMBOL_SLASH : Z := 58.
Definition SYMBOL_LEFTPARENTHESIS : Z := 59.
Definition SYMBOL_RIGHTPARENTHESIS : Z := 60.
Definition SYMBOL_LEFTBRACKET : Z := 61.
Definition SYMBOL_RIGHTBRACKET : Z := 62.
Definition SYMBOL_LEFTBRACE : Z := 63.
Definition SYMBOL_RIGHTBRACE : Z := 64.
Definition SYMBOL_COMMA : Z := 65.
Definition SYMBOL_SEMICOLON : Z := 66.
Definition SYMBOL_COLON : Z := 67.
Definition SYMBOL_QUESTIONMARK : Z := 68.
Definition SYMBOL_IMPLIES : Z := 69.
Definition SYMBOL_CARET : Z := 70.
Definition SYMBOL_ATSIGN : Z := 71.
Definition SYMBOL_SHL : Z := 72.
Definition SYMBOL_SHR : Z := 73.
Definition SYMBOL_SAL : Z := 74.
Definition SYMBOL_SAR : Z := 75.
Definition SYMBOL_ROL : Z := 76.
Definition SYMBOL_ROR : Z := 77.
Definition SYMBOL_STMT : Z := 78.
Definition SYMBOL_EXPR : Z := 79.
Definition SYMBOL_CMPEXPR : Z := 80.
Definition SYMBOL_ADDEXPR : Z := 81.
Definition SYMBOL_MULEXPR : Z := 82.
Definition SYMBOL_BINARYEXPR : Z := 83.
Definition SYMBOL_COLONEXPR : Z := 84.
Definition SYMBOL_RANGEEXPR : Z := 85.
Definition SYMBOL_PREFIXEXPR : Z := 86.
Definition SYMBOL_POSTFIXEXPR : Z := 87.
Definition SYMBOL_CONSEXPR : Z := 88.
Definition SYMBOL_DOTEXPR : Z := 89.
Definition SYMBOL_TERM : Z := 90.
Definition SYMBOL_NAME : Z := 91.
Definition SYMBOL_GET_MEMBER : Z := 92.
Definition SYMBOL_SET_MEMBER : Z := 93.
Definition SYMBOL_AS : Z := 94.

(** ** The names

    Each list is in the order in which its function registers them. *)

#[local] Open Scope string_scope.

(** The special symbols, each with the constant it has to get. *)
Definition special_symbols : list (string * Z) := [
  ("$set", SYMBOL__SET); ("$opset", SYMBOL__OPSET); ("$include", SYMBOL__INCLUDE); ("$if", SYMBOL__IF);
  ("$while", SYMBOL__WHILE); ("$till", SYMBOL__TILL); ("$fn", SYMBOL__FN); ("$quote", SYMBOL__QUOTE);
  ("$scope", SYMBOL__SCOPE); ("$prog1", SYMBOL__PROG1); ("$progn", SYMBOL__PROGN); ("$return", SYMBOL__RETURN);
  ("$catch", SYMBOL__CATCH); ("$not", SYMBOL__NOT); ("$or", SYMBOL__OR); ("$and", SYMBOL__AND);
  ("$eq", SYMBOL__EQ); ("$ne", SYMBOL__NE); ("$new", SYMBOL__NEW); ("$dot", SYMBOL__DOT);
  ("$index", SYMBOL__INDEX); ("$is", SYMBOL__IS); ("$typeof", SYMBOL__TYPEOF); ("$brk", SYMBOL__BRK);
  ("var", SYMBOL_VAR); ("const", SYMBOL_CONST); ("auto", SYMBOL_AUTO); ("keyword", SYMBOL_KEYWORD);
  ("if", SYMBOL_IF); ("unless", SYMBOL_UNLESS); ("then", SYMBOL_THEN); ("else", SYMBOL_ELSE);
  ("do", SYMBOL_DO); ("while", SYMBOL_WHILE); ("until", SYMBOL_UNTIL); ("till", SYMBOL_TILL);
  ("when", SYMBOL_WHEN); ("return", SYMBOL_RETURN); ("try", SYMBOL_TRY); ("catch", SYMBOL_CATCH);
  ("not", SYMBOL_NOT); ("or", SYMBOL_OR); ("and", SYMBOL_AND); ("new", SYMBOL_NEW); ("is", SYMBOL_IS);
  ("typeof", SYMBOL_TYPEOF); ("===", SYMBOL_SUPEREQ); ("!==", SYMBOL_SUPERNE); ("==", SYMBOL_EQ);
  ("!=", SYMBOL_NE); ("<", SYMBOL_LT); (">", SYMBOL_GT); ("<=", SYMBOL_LE); (">=", SYMBOL_GE);
  ("+", SYMBOL_PLUS); ("-", SYMBOL_MINUS); ("*", SYMBOL_STAR); ("/", SYMBOL_SLASH);
  ("(", SYMBOL_LEFTPARENTHESIS); (")", SYMBOL_RIGHTPARENTHESIS); ("[", SYMBOL_LEFTBRACKET);
  ("]", SYMBOL_RIGHTBRACKET); ("{", SYMBOL_LEFTBRACE); ("}", SYMBOL_RIGHTBRACE); (",", SYMBOL_COMMA);
  (";", SYMBOL_SEMICOLON); (":", SYMBOL_COLON); ("?", SYMBOL_QUESTIONMARK); ("=>", SYMBOL_IMPLIES);
  ("^", SYMBOL_CARET); ("@", SYMBOL_ATSIGN); ("<<<", SYMBOL_SHL); (">>>", SYMBOL_SHR); ("<<", SYMBOL_SAL);
  (">>", SYMBOL_SAR); ("<<+", SYMBOL_ROL); ("+>>", SYMBOL_ROR); ("STMT", SYMBOL_STMT); ("EXPR", SYMBOL_EXPR);
  ("CMPEXPR", SYMBOL_CMPEXPR); ("ADDEXPR", SYMBOL_ADDEXPR); ("MULEXPR", SYMBOL_MULEXPR);
  ("BINARYEXPR", SYMBOL_BINARYEXPR); ("COLONEXPR", SYMBOL_COLONEXPR); ("RANGEEXPR", SYMBOL_RANGEEXPR);
  ("PREFIXEXPR", SYMBOL_PREFIXEXPR); ("POSTFIXEXPR", SYMBOL_POSTFIXEXPR); ("CONSEXPR", SYMBOL_CONSEXPR);
  ("DOTEXPR", SYMBOL_DOTEXPR); ("TERM", SYMBOL_TERM); ("NAME", SYMBOL_NAME); ("get-member", SYMBOL_GET_MEMBER);
  ("set-member", SYMBOL_SET_MEMBER); ("as", SYMBOL_AS)
].

Definition typename_names : list Str :=
  map bytes [
  "Actor"; "Array"; "ArrayBase"; "Bool"; "BoolArray"; "Char"; "CharRange"; "Closure"; "Enumerable";
  "Exception"; "Facade"]
  ++ (bytes "Fa" ++ [0xC3; 0xA7] ++ bytes "ade")%list
  :: map bytes [
  "Fn"; "Handle"; "List"; "Map"; "MapBase"; "MathException"; "Null"; "Object"; "Program"; "Random"; "Range";
  "Regex"; "String"; "StringArray"; "StringMap"; "Symbol"; "SymbolArray"; "SymbolMap"; "Uni"; "UniRange";
  "UserObject"; "Number"; "NumericArray"; "NumericRange"; "NumericMap"; "Integer"; "IntegerBase";
  "IntegerArrayBase"; "IntegerRange"; "IntegerRangeBase"; "IntegerMap"; "IntegerMapBase"; "Byte"; "ByteArray";
  "ByteRange"; "ByteMap"; "Integer16"; "Integer16Array"; "Integer16Range"; "Integer16Map"; "Integer32";
  "Integer32Array"; "Integer32Range"; "Integer32Map"; "Integer64"; "Integer64Array"; "Integer64Range";
  "Integer64Map"; "Integer128"; "Integer128Array"; "Integer128Range"; "Integer128Map"; "Real"; "RealBase";
  "RealArrayBase"; "RealRange"; "RealRangeBase"; "RealMap"; "RealMapBase"; "Real32"; "Real32Array";
  "Real32Range"; "Real32Map"; "Real64"; "Real64Array"; "Real64Range"; "Real64Map"; "Real128"; "Real128Array";
  "Real128Range"; "Real128Map"; "Float"; "FloatBase"; "FloatArrayBase"; "FloatRange"; "FloatRangeBase";
  "FloatMap"; "FloatMapBase"; "Float32"; "Float32Array"; "Float32Range"; "Float32Map"; "Float64";
  "Float64Array"; "Float64Range"; "Float64Map"; "Float128"; "Float128Array"; "Float128Range"; "Float128Map"].

Definition general_names : list Str := map bytes [
  "a"; "abs"; "acos"; "add-c-slashes"; "alnum?"; "alpha?"; "apply"; "apply-method"; "arguments"; "asin";
  "assertions"; "assigned-name"; "atan"; "atan2"; "base"; "big-float"; "big-int"; "big-real"; "~"; "band";
  "bor"; "bxor"; "body"; "bool"; "byte"; "byte-array"; "byte-range"; "call"; "call-method"; "camelCase";
  "CamelCase"; "case-fold"; "case-insensitive"; "case-sensitive"; "category"; "ceil"; "char"; "chip"; "chop";
  "cident?"; "clip"; "clone"; "closure"; "cmp"; "code-at"; "code-length"; "column"; "combine"; "compare";
  "compare-i"; "compose"; "composed?"; "cons"; "contains"; "contains-i"; "context"; "control?"; "cos"; "count";
  "count64"; "count-left-ones"; "count-left-zeros"; "count-of"; "count-of-i"; "count-ones"; "count-right-ones";
  "count-right-zeros"; "count-zeros"; "crc32"; "create"; "create-child-closure"; "d"; "decompose"; "default";
  "diacritic?"; "digit?"; "div"; "divide-by-zero"; "does-not-understand"; "each"; "end"; "ends-with";
  "ends-with-i"; "escape"; "even?"; "eval"; "exit"; "extend-object"; "extend-where-new"; "exp"; "facade";
  "false"; "filename"; "filename-mode"; "first"; "floor"; "float32"; "float64-range"; "float64";
  "float64-range"; "float128"; "fold"; "fn"; "from-seed"; "get-object-security"; "get-property"; "handle-kind";
  "handle"; "hash"; "has-property"; "hex-string"; "hex-string-pretty"; "html-decode"; "html-encode";
  "hyphenize"; "id"; "in"; "include"; "index-of"; "index-of-i"; "int"; "int16"; "int32"; "int64"; "int-lg";
  "integer16"; "integer16-range"; "integer32"; "integer32-range"; "integer64"; "integer64-range"; "integer128";
  "last-index-of"; "last-index-of-i"; "latin1-to-utf8"; "left"; "length"; "letter"; "letter?";
  "letter-lowercase"; "letter-modifier"; "letter-other"; "letter-titlecase"; "letter-uppercase"; "lg"; "line";
  "list"; "load"; "log"; "log-domain"; "lower"; "lowercase"; "lowercase?"; "ln"; "join"; "keys"; "kind";
  "macro"; "map"; "mark"; "mark-enclosing"; "mark-non-spacing"; "mark-spacing-combining"; "match"; "matches?";
  "max"; "message"; "mid"; "min"; "mod"; "name"; "neg?"; "newline?"; "next-pow2"; "normalize-diacritics";
  "nonterminal"; "nth"; "nth-cell"; "null"; "number"; "number-decimal-digit"; "number-letter"; "number-other";
  "numeric?"; "octal?"; "of"; "of-size"; "offset"; "odd?"; "one?"; "options"; "other"; "other-control";
  "other-format"; "other-not-assigned"; "other-private-use"; "other-surrogate"; "parity"; "parse";
  "parse-and-eval"; "parse-decl"; "parse-message"; "pattern"; "pos?"; "post"; "pow2?"; "pre";
  "primary-category"; "primitive"; "printf"; "process-id"; "property-names"; "punct?"; "punctuation";
  "punctuation-close"; "punctuation-connector"; "punctuation-dash"; "punctuation-final-quote";
  "punctuation-initial-quote"; "punctuation-open"; "punctuation-other"; "range-to"; "raw-reverse";
  "read-append"; "read-only"; "read-write"; "read-write-append"; "real"; "real32"; "real32-range"; "real64";
  "real64-range"; "real128"; "reexport"; "rem"; "repeat"; "replace"; "replacement"; "resize"; "rest";
  "reverse"; "reverse-bits"; "reverse-bytes"; "right"; "rot-13"; "result"; "separator"; "separator-line";
  "separator-paragraph"; "separator-space"; "set-object-security"; "set-once"; "set-property"; "sign"; "sin";
  "space?"; "splice"; "split"; "sprintf"; "sqrt"; "sqrt-domain"; "start"; "starts-with"; "starts-with-i";
  "step"; "stepping"; "strip-c-slashes"; "string"; "studied?"; "study"; "substr"; "substring"; "symbol";
  "symbol-currency"; "symbol-math"; "symbol-modifier"; "symbol-other"; "syntax"; "tan"; "text"; "this";
  "this-closure"; "throw"; "title"; "titlecase"; "titlecase?"; "trim"; "trim-end"; "trim-start"; "true";
  "type"; "underscorize"; "uni"; "unknown"; "upper"; "uppercase"; "uppercase?"; "url-decode"; "url-encode";
  "url-query-encode"; "user-object"; "utf8-to-latin1"; "values"; "where"; "whitespace?"; "wildcard-matches?";
  "without"; "xdigit?"; "xor"; "zero?"
].

Definition error_names : list Str := map bytes [
  "compile-error"; "configuration-error"; "eval-error"; "exec-error"; "json-error"; "lexer-error";
  "load-error"; "native-method-error"; "object-security-error"; "post-condition-assertion";
  "pre-condition-assertion"; "property-error"; "syntax-error"; "system-exception"; "type-assertion";
  "user-exception"
].

#[local] Close Scope string_scope.

(** ** Preloading *)

Section Preload.
Context (String_Hash : Str -> Z).
#[local] Notation Dict := (StringDictInt Z).

(** No result when the table has no room, or when the symbol is not the expected
    one, which ends the process. *)
Definition AddSpecialSymbol (table : SymbolTableInt Dict) (name : Str) (expectedValue : Z) : option (SymbolTableInt Dict) :=
  '(table, actualValue) ← SymbolTableInt_AddFast String_Hash table name;
  if actualValue =? expectedValue then Some table else None.

Fixpoint AddSpecialSymbols (table : SymbolTableInt Dict) (symbols : list (string * Z)) : option (SymbolTableInt Dict) :=
  match symbols with
  | [] => Some table
  | (name, expectedValue) :: symbols =>
      table ← AddSpecialSymbol table (bytes name) expectedValue; AddSpecialSymbols table symbols
  end.

Definition KnownSymbolsInt_PreloadSpecials (table : SymbolTableInt Dict) : option (SymbolTableInt Dict) :=
  AddSpecialSymbols table special_symbols.

(** The table and the symbols of the names, which become the members of [KnownSymbols]. *)
Fixpoint Preload (table : SymbolTableInt Dict) (names : list Str) : option (SymbolTableInt Dict * list Z) :=
  match names with
  | [] => Some (table, [])
  | name :: names =>
      '(table, symbol) ← SymbolTableInt_AddFast String_Hash table name;
      '(table, symbols) ← Preload table names;
      Some (table, symbol :: symbols)
  end.

Definition KnownSymbols_PreloadSymbolTable (table : SymbolTableInt Dict) : option (SymbolTableInt Dict * list Z) :=
  if negb (symbolCount table =? 1) then None
  else if symbolMax table <? 1024 then None
  else
    table ← KnownSymbolsInt_PreloadSpecials table;
    Preload table (typename_names ++ general_names ++ error_names).

(** ** The special symbols are where the constants say *)

#[local] Existing Instance StringDict_ops.
#[local] Instance known_lookup : MapOps Str Z Dict := StringDict_ops String_Hash 0.
#[local] Instance known_lookup_laws : MapLaws Str Z Dict := StringDict_laws String_Hash 0.

Lemma large_dict : 2 ^ 30 <= capacity (MapLaws := known_lookup_laws).
Proof. vm_compute. discriminate. Qed.

(** Distinct names in a row, with the symbols that follow the names of the table. *)
Fixpoint in_order (n : Z) (names : list Str) (symbols : list (string * Z)) : Prop :=
  match symbols with
  | [] => True
  | (name, symbol) :: symbols =>
      bytes name ∉ names /\ symbol = n + 1 /\ in_order (n + 1) (names ++ [bytes name]) symbols
  end.

#[local] Instance in_order_dec n names symbols : Decision (in_order n names symbols).
Proof.
  revert n names. induction symbols as [|[name symbol] l IH]; intros n names; simpl; [apply _|].
  pose proof (IH (n + 1) (names ++ [bytes name])). apply _.
Defined.

Lemma special_in_order : in_order (zlen (@nil Str)) [] special_symbols.
Proof. apply (bool_decide_eq_true_1 (in_order (zlen (@nil Str)) [] special_symbols)). by vm_compute. Qed.

Lemma AddSpecialSymbols_interned symbols : forall (table : SymbolTableInt Dict) names,
  interned table names -> in_order (zlen names) names symbols -> symbolMax table = 1024 ->
  zlen names + zlen symbols < 1023 ->
  exists table', AddSpecialSymbols table symbols = Some table'
    /\ interned table' (names ++ map (bytes ∘ fst) symbols) /\ symbolMax table' = 1024.
Proof.
  induction symbols as [|[name symbol] symbols IH]; intros table names Hi Ho Hm Hz.
  - exists table. by rewrite app_nil_r.
  - destruct Ho as (Hn & -> & Ho). rewrite zlen_cons in Hz. pose proof (zlen_nonneg symbols).
    pose proof (interned_count _ _ Hi) as Hc. cbn [AddSpecialSymbols]. unfold AddSpecialSymbol.
    pose proof (AddFast_agrees String_Hash table names (bytes name) Hi Hn ltac:(lia)) as Efast.
    destruct (AddSymbol_interned (O := known_lookup) (L := known_lookup_laws) eq_refl large_dict table names (bytes name) Hi Hn ltac:(lia)) as (t & E & Ht).
    assert (Hmax : symbolMax t = 1024).
    { clear Efast. unfold SymbolTableInt_AddSymbol, SymbolTable_room in E. rewrite Z.geb_leb in E.
      destruct (Z.leb_spec (symbolMax table) (symbolCount table)); [lia|]. cbn [option_bind mbind] in E.
      destruct (zset _ _ _); [|done]. cbn [option_bind mbind] in E. destruct (Add _ _ _) as [[? ?]|]; [|done].
      cbn [option_bind mbind] in E. by injection E as <- _. }
    rewrite (eq_trans Efast E). cbn [option_bind mbind]. rewrite Z.eqb_refl. cbn [option_bind mbind].
    destruct (IH t (names ++ [bytes name]) Ht) as (t' & E' & Ht' & Hm').
    + by rewrite zlen_app.
    + done.
    + rewrite zlen_app. change (zlen [bytes name]) with 1. lia.
    + exists t'. split; [done|]. split; [|done]. by rewrite <- app_assoc in Ht'.
Qed.

(** The names of the special symbols, in the order of their constants. *)
Definition special_names : list Str := map (bytes ∘ fst) special_symbols.

Lemma created_max (table : SymbolTableInt Dict) : SymbolTable_Create = Some table -> symbolMax table = 1024.
Proof. unfold SymbolTable_Create. destruct (ClearWithSize 1024); [|done]. by intros [= <-]. Qed.

Lemma special_count : zlen special_symbols = 94 /\ zlen special_names = 94.
Proof. split; reflexivity. Qed.

Lemma special_position name symbol : (name, symbol) ∈ special_symbols ->
  0 < symbol /\ zget special_names (symbol - 1) = Some (bytes name).
Proof.
  revert name symbol.
  assert (H : Forall (fun p : string * Z => 0 < p.2 /\ zget special_names (p.2 - 1) = Some (bytes p.1)) special_symbols).
  { apply (bool_decide_eq_true_1 (Forall _ _)). by vm_compute. }
  intros name symbol Hin. rewrite list.Forall_forall in H. exact (H _ Hin).
Qed.

(** The special symbols get the constants the parser and the compiler switch on: for
    any hash function, registering them in the empty symbol table succeeds, none
    has an unexpected symbol, and the table then holds exactly their names, each
    leading to its constant and back. *)
Theorem PreloadSpecials_constants :
  exists table0 table, SymbolTable_Create = Some table0 /\ KnownSymbolsInt_PreloadSpecials table0 = Some table
    /\ interned table special_names
    /\ forall name symbol, (name, symbol) ∈ special_symbols ->
         SymbolTable_GetSymbolNoCreate table (bytes name) = Some symbol
         /\ SymbolTable_GetName table symbol = Some (Some (bytes name)).
Proof.
  destruct (Create_interned (O := known_lookup) (L := known_lookup_laws)) as (table0 & E0 & H0). exists table0.
  pose proof (created_max table0 E0) as Hm.
  destruct (AddSpecialSymbols_interned special_symbols table0 [] H0 special_in_order Hm) as (table & E & Hi & _);
    [rewrite zlen_nil, (proj1 special_count); lia|].
  exists table. split; [exact E0|]. split; [exact E|]. change ([] ++ map (bytes ∘ fst) special_symbols) with special_names in Hi.
  clear E E0 H0 Hm. split; [exact Hi|]. intros name symbol Hin.
  destruct (special_position name symbol Hin) as [Hpos Hg]. split.
  - unfold SymbolTable_GetSymbolNoCreate.
    destruct (interned_get (O := known_lookup) (L := known_lookup_laws) eq_refl table special_names (bytes name) Hi) as (v & Ev & Hw & Hv);
      [rewrite (proj2 special_count); lia|].
    rewrite Ev. cbn [option_bind mbind]. rewrite Hw. f_equal. destruct Hv as [[_ Hn]|[Hv Hgv]].
    + exfalso. apply Hn. apply zget_Some in Hg as [_ Hg]. by eapply list_elem_of_lookup_2.
    + apply zget_Some in Hg as [? Hg], Hgv as [? Hgv].
      pose proof (NoDup_lookup _ _ _ _ (interned_unique _ _ Hi) Hg Hgv). lia.
  - by apply (interned_name (O := known_lookup) (L := known_lookup_laws) table special_names).
Qed.
End Preload.

(** The table of a program that starts, were every name to hash to zero. *)
Definition preloaded : option (SymbolTableInt (StringDictInt Z) * list Z) :=
  table ← SymbolTable_Create (O := StringDict_ops (fun _ => 0) 0); KnownSymbols_PreloadSymbolTable (fun _ => 0) table.
