(* ===== verification/Lexer.v ===== *)
(** * Lexer: the state of the lexical analyzer

    [include/smile/parsing/lexer.h], [tokenkind.h] and [internal/lexerinternal.h],
    [src/parsing/lexer/tokenkind.c], [lexerextra.c] and the parts of [lexer.c] that
    are not the reading of a token.

    Pointers into the input are indices; the input is the bytes of a string with
    their terminator.  An operation that leaves the defined behaviour of C says how:
    a read outside the input ([ReadFault]), a string builder used outside its array
    or before its cell is written ([BuilderFault]), a symbol table that is full ([SymbolFault]).
    [OutOfFuel] is the outcome of a loop whose fuel does not suffice; the theorems
    of [LexerProps] show that there is none. *)

From Stdlib Require Import String.
From S2P Require Import Prelude IntMath FiniteMap Text StringBuilder IdentTable SymbolTable.

Inductive Fault := ReadFault | BuilderFault | SymbolFault | OutOfFuel.

Inductive Outcome (A : Type) := Done (a : A) | Wrong (why : Fault).
#[global] Arguments Done {A} a.
#[global] Arguments Wrong {A} why.

#[export] Instance Outcome_bind : MBind Outcome := fun A B f o =>
  match o with Done a => f a | Wrong why => Wrong why end.

Definition need {A} (why : Fault) (o : option A) : Outcome A :=
  match o with Some a => Done a | None => Wrong why end.

(** ** Tokens *)

Inductive TokenKind :=
  | TOKEN_ERROR | TOKEN_NONE | TOKEN_EOI
  | TOKEN_ALPHANAME | TOKEN_PUNCTNAME
  | TOKEN_CHAR | TOKEN_UNI | TOKEN_BYTE | TOKEN_INTEGER16 | TOKEN_INTEGER32 | TOKEN_INTEGER64 | TOKEN_INTEGER128
  | TOKEN_REAL32 | TOKEN_REAL64 | TOKEN_REAL128 | TOKEN_FLOAT32 | TOKEN_FLOAT64 | TOKEN_FLOAT128
  | TOKEN_RAWSTRING | TOKEN_DYNSTRING
  | TOKEN_LEFTBRACE | TOKEN_RIGHTBRACE | TOKEN_LEFTPARENTHESIS | TOKEN_RIGHTPARENTHESIS
  | TOKEN_LEFTBRACKET | TOKEN_RIGHTBRACKET
  | TOKEN_BAR | TOKEN_EQUAL | TOKEN_EQUALWITHOUTWHITESPACE | TOKEN_BACKTICK | TOKEN_DOUBLEHASH
  | TOKEN_DOT | TOKEN_DOTDOT | TOKEN_DOTDOTDOT | TOKEN_COLON | TOKEN_COMMA | TOKEN_SEMICOLON
  | TOKEN_AT | TOKEN_ATAT
  | TOKEN_LOANWORD_INCLUDE | TOKEN_LOANWORD_REGEX | TOKEN_LOANWORD_XML | TOKEN_LOANWORD_JSON
  | TOKEN_LOANWORD_BRK | TOKEN_LOANWORD_SYNTAX
  | TOKEN_KNOWNNAME | TOKEN_UNKNOWNALPHANAME | TOKEN_UNKNOWNPUNCTNAME.

#[export] Instance TokenKind_eq_dec : EqDecision TokenKind.
Proof. solve_decision. Defined.

Definition TokenKind_ToString (tokenKind : TokenKind) : Str :=
  bytes match tokenKind with
  | TOKEN_ERROR => "<error>" | TOKEN_NONE => "<none>" | TOKEN_EOI => "end-of-file"
  | TOKEN_ALPHANAME => "alpha name" | TOKEN_PUNCTNAME => "punct name"
  | TOKEN_CHAR => "char" | TOKEN_UNI => "uni" | TOKEN_BYTE => "byte"
  | TOKEN_INTEGER16 => "int16" | TOKEN_INTEGER32 => "int32" | TOKEN_INTEGER64 => "int64"
  | TOKEN_INTEGER128 => "int128"
  | TOKEN_REAL32 => "real32" | TOKEN_REAL64 => "real64" | TOKEN_REAL128 => "real128"
  | TOKEN_FLOAT32 => "float32" | TOKEN_FLOAT64 => "float64" | TOKEN_FLOAT128 => "float128"
  | TOKEN_RAWSTRING => "raw string" | TOKEN_DYNSTRING => "string"
  | TOKEN_LEFTBRACE => "{" | TOKEN_RIGHTBRACE => "}"
  | TOKEN_LEFTPARENTHESIS => "(" | TOKEN_RIGHTPARENTHESIS => ")"
  | TOKEN_LEFTBRACKET => "[" | TOKEN_RIGHTBRACKET => "]"
  | TOKEN_BAR => "|" | TOKEN_EQUAL => "=" | TOKEN_EQUALWITHOUTWHITESPACE => "=" | TOKEN_BACKTICK => "`"
  | TOKEN_DOUBLEHASH => "##" | TOKEN_DOT => "." | TOKEN_DOTDOT => ".." | TOKEN_DOTDOTDOT => "..."
  | TOKEN_COLON => ":" | TOKEN_COMMA => "," | TOKEN_SEMICOLON => ";"
  | TOKEN_AT => "@" | TOKEN_ATAT => "@@"
  | TOKEN_LOANWORD_INCLUDE => "#include" | TOKEN_LOANWORD_REGEX => "#/.../"
  | TOKEN_LOANWORD_XML => "#xml" | TOKEN_LOANWORD_JSON => "#json" | TOKEN_LOANWORD_BRK => "#brk"
  | TOKEN_LOANWORD_SYNTAX => "#syntax"
  | TOKEN_KNOWNNAME => "variable" | TOKEN_UNKNOWNALPHANAME => "alpha-operator"
  | TOKEN_UNKNOWNPUNCTNAME => "punct-operator"
  end.

(** Texts of tokens: NULL, a text, or a message as its format and arguments. *)
Inductive MessageArg := ArgInt (z : Z) | ArgText (s : Str).
Inductive TokenText := NoText | Text (s : Str) | Message (format : Str) (args : list MessageArg).

(** The member of the union written last. *)
Inductive TokenData :=
  | NoData | DataSymbol (z : Z) | DataByte (z : Z) | DataInt16 (z : Z) | DataInt32 (z : Z) | DataInt64 (z : Z)
  | DataReal32 (z : Z) | DataReal64 (z : Z) | DataReal128 (z : Z) | DataFloat32 (z : Z) | DataFloat64 (z : Z)
  | DataChar (z : Z) | DataUni (z : Z).

Record Position := mkPosition {
  pos_filename : option Str; pos_line : Z; pos_column : Z; pos_lineStart : Z; pos_length : Z
}.

Record Token := mkToken {
  kind : TokenKind; position : Position; isFirstContentOnLine : bool; hasEscapes : bool;
  token_text : TokenText; data : TokenData
}.

Definition no_token : Token := mkToken TOKEN_EOI (mkPosition None 0 0 0 0) false false NoText NoData.

Definition LexerPosition_Equals (a b : option Position) : bool :=
  match a, b with
  | None, None => true
  | None, Some _ => false
  | Some _, None => false
  | Some a, Some b =>
      (pos_line a =? pos_line b) && (pos_column a =? pos_column b) && (pos_lineStart a =? pos_lineStart b)
      && (pos_length a =? pos_length b) && String_Equals (pos_filename a) (pos_filename b)
  end.

(** ** Scanning *)

(** [while (src < end && p (src[0])) src++;] *)
Fixpoint scan_loop (fuel : nat) (p : Z -> bool) (input : list Z) (end_ src : Z) : Outcome Z :=
  if src <? end_ then
    match fuel with
    | O => Wrong OutOfFuel
    | S fuel =>
        ch ← need ReadFault (zget input src);
        if p ch then scan_loop fuel p input end_ (src + 1) else Done src
    end
  else Done src.

Definition scan (p : Z -> bool) (input : list Z) (end_ src : Z) : Outcome Z :=
  scan_loop (Z.to_nat (end_ - src)) p input end_ src.

(** [src < end && p (src[0])] *)
Definition peek (p : Z -> bool) (input : list Z) (end_ src : Z) : Outcome bool :=
  if src <? end_ then ch ← need ReadFault (zget input src); Done (p ch) else Done false.

(** ** Escape codes *)

Definition HexValue (ch : Z) : Z :=
  if is_digit ch then ch - "0"%code
  else if within ch "a"%code "f"%code then ch - "a"%code + 10
  else if within ch "A"%code "F"%code then ch - "A"%code + 10
  else -1.

(** The hexadecimal digits of [\u]: the index reached and the value. *)
Fixpoint escape_hex (fuel : nat) (input : list Z) (end_ src value : Z) : Outcome (Z * Z) :=
  if src <? end_ then
    match fuel with
    | O => Wrong OutOfFuel
    | S fuel =>
        ch ← need ReadFault (zget input src);
        if HexValue ch >=? 0
        then escape_hex fuel input end_ (src + 1) (Z.lor (wrapU 64 (Z.shiftl value 4)) (HexValue ch))
        else Done (src, value)
    end
  else Done (src, value).

(** An optional further digit of a decimal escape. *)
Definition escape_digit (input : list Z) (end_ src value : Z) : Outcome (Z * Z) :=
  digit ← peek is_digit input end_ src;
  if (digit : bool) then ch ← need ReadFault (zget input src); Done (src + 1, value * 10 + (ch - "0"%code))
  else Done (src, value).

(** The escape codes named by a letter. *)
Definition named_escape (ch : Z) : option Z :=
  if ch =? "a"%code then Some 0x07
  else if ch =? "b"%code then Some 0x08
  else if ch =? "t"%code then Some 0x09
  else if ch =? "n"%code then Some 0x0A
  else if ch =? "v"%code then Some 0x0B
  else if ch =? "f"%code then Some 0x0C
  else if ch =? "r"%code then Some 0x0D
  else if ch =? "e"%code then Some 0x1E
  else if (ch =? "'"%code) || (ch =? QUOTE) || (ch =? "\"%code) then Some ch
  else None.

(** [input] and the character decoded, -1 for none; the index does not move when
    there is no character or it is rejected by the last case. *)
Definition Lexer_DecodeEscapeCode (input : list Z) (src end_ : Z) (allowUnknowns : bool) : Outcome (Z * Z) :=
  if src >=? end_ then Done (src, -1)
  else
    ch ← need ReadFault (zget input src);
    let start := src in
    let src := src + 1 in
    match named_escape ch with
    | Some code => Done (src, code)
    | None =>
        if (ch =? "x"%code) || (ch =? "X"%code) then
          first ← peek (fun c => negb (HexValue c =? -1)) input end_ src;
          if negb first then Done (src, -1)
          else
            c1 ← need ReadFault (zget input src);
            let src := src + 1 in
            second ← peek (fun c => HexValue c >=? 0) input end_ src;
            if (second : bool) then
              c2 ← need ReadFault (zget input src);
              Done (src + 1, Z.lor (Z.shiftl (HexValue c1) 4) (HexValue c2))
            else Done (src, HexValue c1)
        else if (ch =? "u"%code) || (ch =? "U"%code) then
          first ← peek (fun c => negb (HexValue c =? -1)) input end_ src;
          if negb first then Done (src, -1)
          else
            c1 ← need ReadFault (zget input src);
            let src := src + 1 in
            '(src, value) ← escape_hex (Z.to_nat (end_ - src)) input end_ src (HexValue c1);
            semicolon ← peek (Z.eqb ";"%code) input end_ src;
            let src := if (semicolon : bool) then src + 1 else src in
            let value := Z.land value 0xFFFFFFFF in
            Done (src, if value <? 0x110000 then value else -1)
        else if is_digit ch then
          '(src, value) ← escape_digit input end_ src (ch - "0"%code);
          '(src, value) ← escape_digit input end_ src value;
          Done (src, if value <=? 255 then value else -1)
        else if negb allowUnknowns || (ch <? 32) then Done (start, -1)
        else if ch <? 128 then Done (src, ch)
        else
          '(value, src) ← need ReadFault (String_ExtractUnicodeCharacterInternal input src end_);
          Done (src, value)
    end.

(** ** The lexer *)

Section Lexer.
Context {D : Type} {Ops : MapOps Str Z D}.

Record Lexer := mkLexer {
  lx_input : list Z; lx_src : Z; lx_end : Z; lx_lineStart : Z;
  lx_filename : option Str; lx_line : Z;
  lx_tokenBuffer : list Token; lx_tokenIndex : Z; lx_ungetCount : Z; lx_tokenStart : Z;
  lx_symbolTable : option (SymbolTableInt D)
}.

Definition set_src (src : Z) (l : Lexer) : Lexer :=
  mkLexer (lx_input l) src (lx_end l) (lx_lineStart l) (lx_filename l) (lx_line l)
    (lx_tokenBuffer l) (lx_tokenIndex l) (lx_ungetCount l) (lx_tokenStart l) (lx_symbolTable l).

Definition set_line (line lineStart : Z) (l : Lexer) : Lexer :=
  mkLexer (lx_input l) (lx_src l) (lx_end l) lineStart (lx_filename l) line
    (lx_tokenBuffer l) (lx_tokenIndex l) (lx_ungetCount l) (lx_tokenStart l) (lx_symbolTable l).

(** [lexer->line++] where the start of the line is not recorded. *)
Definition next_line (l : Lexer) : Lexer := set_line (lx_line l + 1) (lx_lineStart l) l.

Definition set_ring (index unget : Z) (l : Lexer) : Lexer :=
  mkLexer (lx_input l) (lx_src l) (lx_end l) (lx_lineStart l) (lx_filename l) (lx_line l)
    (lx_tokenBuffer l) index unget (lx_tokenStart l) (lx_symbolTable l).

Definition set_tokenStart (start : Z) (l : Lexer) : Lexer :=
  mkLexer (lx_input l) (lx_src l) (lx_end l) (lx_lineStart l) (lx_filename l) (lx_line l)
    (lx_tokenBuffer l) (lx_tokenIndex l) (lx_ungetCount l) start (lx_symbolTable l).

Definition set_symbols (table : option (SymbolTableInt D)) (l : Lexer) : Lexer :=
  mkLexer (lx_input l) (lx_src l) (lx_end l) (lx_lineStart l) (lx_filename l) (lx_line l)
    (lx_tokenBuffer l) (lx_tokenIndex l) (lx_ungetCount l) (lx_tokenStart l) table.

(** The current token is [tokenBuffer + (tokenIndex & 15)], in a buffer of 16. *)
Definition ring_slot (index : Z) : nat := Z.to_nat (Z.land index 15).

Definition on_token (f : Token -> Token) (l : Lexer) : Lexer :=
  mkLexer (lx_input l) (lx_src l) (lx_end l) (lx_lineStart l) (lx_filename l) (lx_line l)
    (alter f (ring_slot (lx_tokenIndex l)) (lx_tokenBuffer l)) (lx_tokenIndex l) (lx_ungetCount l)
    (lx_tokenStart l) (lx_symbolTable l).

Definition Lexer_Token (l : Lexer) : Token := default no_token (lx_tokenBuffer l !! ring_slot (lx_tokenIndex l)).

Definition set_kind (k : TokenKind) (t : Token) : Token :=
  mkToken k (position t) (isFirstContentOnLine t) (hasEscapes t) (token_text t) (data t).
Definition set_text (s : TokenText) (t : Token) : Token :=
  mkToken (kind t) (position t) (isFirstContentOnLine t) (hasEscapes t) s (data t).
Definition set_data (d : TokenData) (t : Token) : Token :=
  mkToken (kind t) (position t) (isFirstContentOnLine t) (hasEscapes t) (token_text t) d.
Definition set_escapes (b : bool) (t : Token) : Token :=
  mkToken (kind t) (position t) (isFirstContentOnLine t) b (token_text t) (data t).
Definition set_length (n : Z) (t : Token) : Token :=
  let p := position t in
  mkToken (kind t) (mkPosition (pos_filename p) (pos_line p) (pos_column p) (pos_lineStart p) n)
    (isFirstContentOnLine t) (hasEscapes t) (token_text t) (data t).

Definition start_token (l : Lexer) (startPtr : Z) (isFirst : bool) (t : Token) : Token :=
  mkToken (kind t)
    (mkPosition (lx_filename l) (wrapS 32 (lx_line l)) (wrapS 32 (startPtr - lx_lineStart l))
       (wrapS 32 (lx_lineStart l)) (pos_length (position t)))
    isFirst false (token_text t) (data t).

Definition START_TOKEN (startPtr : Z) (isFirst : bool) (l : Lexer) : Lexer :=
  set_tokenStart startPtr (on_token (start_token l startPtr isFirst) l).

Definition END_TOKEN (src : Z) (k : TokenKind) (l : Lexer) : Lexer * TokenKind :=
  let l := set_src src l in
  (on_token (fun t => set_kind k (set_length (wrapS 32 (src - lx_tokenStart l)) t)) l, k).

Definition SIMPLE_TOKEN (startPtr src : Z) (k : TokenKind) (isFirst : bool) (l : Lexer) : Lexer * TokenKind :=
  END_TOKEN src k (START_TOKEN startPtr isFirst l).

(** An error token with a message. *)
Definition error_token (src : Z) (message : TokenText) (l : Lexer) : Lexer * TokenKind :=
  END_TOKEN src TOKEN_ERROR (on_token (set_text message) l).

Definition Lexer_Create (input : Str) (start length : Z) (filename : option Str) (firstLine firstColumn : Z)
  : option Lexer :=
  let inputLength := zlen input in
  if (start <? 0) || (length <? 0) || (start >? inputLength) || (length >? inputLength) || (start + length >? inputLength)
  then None
  else
    Some (mkLexer (String_GetBytes input) start (start + length) (start - (firstColumn - 1)) filename firstLine
            (replicate 16 no_token) 0 0 0 None).

Definition Lexer_SetSymbolTable (l : Lexer) (table : SymbolTableInt D) : Lexer := set_symbols (Some table) l.

Definition Lexer_Unget (l : Lexer) : Lexer := set_ring (lx_tokenIndex l - 1) (lx_ungetCount l + 1) l.

Definition Lexer_GetPosition (l : Lexer) : Position :=
  if lx_ungetCount l >? 0 then
    let p := position (default no_token (lx_tokenBuffer l !! ring_slot (lx_tokenIndex l + 1))) in
    mkPosition (pos_filename p) (pos_line p) (pos_column p) (pos_lineStart p) 0
  else
    mkPosition (lx_filename l) (wrapS 32 (lx_line l)) (wrapS 32 (lx_src l - lx_lineStart l))
      (wrapS 32 (lx_lineStart l)) 0.

(** The symbol of a name, 0 without a symbol table. *)
Definition intern (text : Str) (l : Lexer) : Outcome (Lexer * Z) :=
  match lx_symbolTable l with
  | None => Done (l, 0)
  | Some table =>
      '(table, symbol) ← need SymbolFault (SymbolTable_GetSymbol table text);
      Done (set_symbols (Some table) l, symbol)
  end.

End Lexer.

#[global] Arguments Lexer : clear implicits.
