(* ===== verification/LexNames.v ===== *)
(** * LexNames: names, punctuation, loanwords and comments

    [src/parsing/lexer/lexnames.c], [lexpunct.c] and [lexloanword.c], except
    [Lexer_ParseDot], which is in [LexNumbers].  The text of a name is collected in a
    string builder over a buffer of 64 bytes. *)

From Stdlib Require Import String.
From S2P Require Import Prelude IntMath FiniteMap Text StringBuilder IdentTable SymbolTable Lexer.

Definition IllegalNameMessage : TokenText :=
  Text (bytes "Names must not mix characters from different language families").

Definition UnterminatedCommentMessage : Str :=
  bytes "Comment that was started on line %d with a " ++ [QUOTE] ++ bytes "/*" ++ [QUOTE] ++ bytes " has no ending "
  ++ [QUOTE] ++ bytes "*/" ++ [QUOTE].

(** [Loanword "%S" ...] *)
Definition loanword_message (rest : string) : Str := bytes "Loanword " ++ [QUOTE] ++ bytes "%S" ++ [QUOTE] ++ bytes rest.
Definition UnknownLoanwordMessage : Str := loanword_message " is unknown.".
Definition UnsupportedLoanwordMessage : Str :=
  loanword_message " is unsupported in this version of the Smile interpreter.".
Definition IllegalLoanwordMessage : Str := loanword_message " must be followed by whitespace.".

(** ** Names *)

Definition is_letter (ch : Z) : bool := is_lower ch || is_upper ch.

(** The characters of a name that belong to no alphabet. *)
Definition is_name_extra (ch : Z) : bool :=
  is_digit ch || (ch =? "_"%code) || (ch =? "'"%code) || (ch =? QUOTE)
  || (ch =? "!"%code) || (ch =? "?"%code) || (ch =? "$"%code) || (ch =? "~"%code).

Definition IsValidRestartCharacter (input : list Z) (src end_ : Z) : Outcome bool :=
  ch ← need ReadFault (zget input src);
  if (ch =? "\"%code) || is_letter ch || (ch =? "_"%code) || (ch =? "$"%code) then Done true
  else if ch >=? 128 then
    '(code, _) ← need ReadFault (String_ExtractUnicodeCharacterInternal input src end_);
    identifierCharacterKind ← need ReadFault (SmileIdentifierKind code);
    Done (has identifierCharacterKind IDENTKIND_STARTLETTER)
  else Done false.

(** Append the bytes of the input from [start] up to [src], if there are any. *)
Definition flush (input : list Z) (start src : Z) (buf : StringBuilderInt) : Outcome StringBuilderInt :=
  if src >? start then need BuilderFault (StringBuilder_Append buf (drop (Z.to_nat start) input) 0 (src - start))
  else Done buf.

(** The code point of an escape as it is appended. *)
Definition escaped (code : Z) : Z := if code <? 0 then 0xFFFD else wrapU 32 code.

(** The bit of a character's alphabet. *)
Definition charset_bit (identifierCharacterKind : Z) : Z :=
  wrapU 64 (Z.shiftl 1 (Z.shiftr (Z.land identifierCharacterKind IDENTKIND_CHARSET_MASK) 4)).

Definition LATIN_BIT : Z := wrapU 64 (Z.shiftl 1 (Z.shiftr IDENTKIND_CHARSET_LATIN 4)).

Record NameState := mkName {
  n_src : Z; n_start : Z; n_buf : StringBuilderInt; n_charsets : Z; n_hasEscapes : bool
}.

(** From [readMoreName] until the name ends. *)
Fixpoint ParseName_loop (fuel : nat) (input : list Z) (end_ : Z) (s : NameState) : Outcome NameState :=
  let '(mkName src start namebuf charsets esc) := s in
  if src <? end_ then
    match fuel with
    | O => Wrong OutOfFuel
    | S fuel =>
        ch ← need ReadFault (zget input src);
        if ch =? "\"%code then
          namebuf ← flush input start src namebuf;
          '(src, code) ← Lexer_DecodeEscapeCode input (src + 1) end_ true;
          namebuf ← need BuilderFault (StringBuilder_AppendUnicode namebuf (escaped code));
          ParseName_loop fuel input end_ (mkName src src namebuf charsets true)
        else if is_letter ch then
          ParseName_loop fuel input end_ (mkName (src + 1) start namebuf (Z.lor charsets LATIN_BIT) esc)
        else if is_name_extra ch then
          ParseName_loop fuel input end_ (mkName (src + 1) start namebuf charsets esc)
        else if ch =? "-"%code then
          restart ← (if src + 1 <? end_ then IsValidRestartCharacter input (src + 1) end_ else Done false);
          if (restart : bool) then ParseName_loop fuel input end_ (mkName (src + 1) start namebuf charsets esc)
          else Done s
        else
          namebuf ← flush input start src namebuf;
          if ch >=? 128 then
            '(code, src) ← need ReadFault (String_ExtractUnicodeCharacterInternal input src end_);
            identifierCharacterKind ← need ReadFault (SmileIdentifierKind code);
            let charsets := Z.lor charsets (charset_bit identifierCharacterKind) in
            if has identifierCharacterKind (Z.lor IDENTKIND_MIDDLELETTER IDENTKIND_STARTLETTER) then
              namebuf ← need BuilderFault (StringBuilder_AppendUnicode namebuf (wrapU 32 code));
              ParseName_loop fuel input end_ (mkName src src namebuf charsets esc)
            else Done (mkName src src namebuf charsets esc)
          else Done (mkName src src namebuf charsets esc)
    end
  else Done s.

(** The index after the name, its text or NULL when it mixes alphabets, and
    whether it has escapes. *)
Definition ParseNameRaw (input : list Z) (src end_ : Z) : Outcome (Z * option Str * bool) :=
  namebuf ← need BuilderFault (INIT_INLINE_STRINGBUILDER 64);
  s ← ParseName_loop (Z.to_nat (end_ - src)) input end_ (mkName src src namebuf 0 false);
  namebuf ← flush input (n_start s) (n_src s) (n_buf s);
  let charsets := Z.land (n_charsets s) (wrapU 64 (Z.lnot 1)) in
  if negb (charsets =? 0) && negb (Z.land charsets (charsets - 1) =? 0) then Done (n_src s, None, n_hasEscapes s)
  else text ← need BuilderFault (StringBuilder_ToString namebuf); Done (n_src s, Some text, n_hasEscapes s).

(** ** Punctuation *)

Definition is_punctuation (ch : Z) : bool :=
  (ch =? "~"%code) || (ch =? "!"%code) || (ch =? "?"%code) || (ch =? "@"%code) || (ch =? "%"%code)
  || (ch =? "^"%code) || (ch =? "&"%code) || (ch =? "*"%code) || (ch =? "="%code) || (ch =? "+"%code)
  || (ch =? "<"%code) || (ch =? ">"%code) || (ch =? "/"%code) || (ch =? "-"%code).

Record PunctState := mkPunct {
  p_src : Z; p_start : Z; p_name : StringBuilderInt; p_escape : StringBuilderInt; p_hasEscapes : bool
}.

(** Append to both builders what has been scanned: its bytes, and a mark for each. *)
Definition flush_both (input : list Z) (start src : Z) (namebuf escapebuf : StringBuilderInt)
  : Outcome (StringBuilderInt * StringBuilderInt) :=
  namebuf ← flush input start src namebuf;
  escapebuf ← (if src >? start then need BuilderFault (StringBuilder_AppendRepeat escapebuf "a"%code (src - start))
               else Done escapebuf);
  Done (namebuf, escapebuf).

(** From [readMorePunctuation] until the name ends. *)
Fixpoint ParsePunctuation_loop (fuel : nat) (input : list Z) (end_ : Z) (s : PunctState) : Outcome PunctState :=
  let '(mkPunct src start namebuf escapebuf esc) := s in
  if src <? end_ then
    match fuel with
    | O => Wrong OutOfFuel
    | S fuel =>
        ch ← need ReadFault (zget input src);
        if ch =? "\"%code then
          '(namebuf, escapebuf) ← flush_both input start src namebuf escapebuf;
          '(src, code) ← Lexer_DecodeEscapeCode input (src + 1) end_ true;
          namebuf ← need BuilderFault (StringBuilder_AppendUnicode namebuf (escaped code));
          escapebuf ← need BuilderFault (StringBuilder_AppendByte escapebuf "\"%code);
          ParsePunctuation_loop fuel input end_ (mkPunct src src namebuf escapebuf true)
        else if is_punctuation ch then
          ParsePunctuation_loop fuel input end_ (mkPunct (src + 1) start namebuf escapebuf esc)
        else
          '(namebuf, escapebuf) ← flush_both input start src namebuf escapebuf;
          if ch >=? 128 then
            '(code, src) ← need ReadFault (String_ExtractUnicodeCharacterInternal input src end_);
            identifierCharacterKind ← need ReadFault (SmileIdentifierKind code);
            if has identifierCharacterKind (Z.lor IDENTKIND_MIDDLELETTER IDENTKIND_PUNCTUATION) then
              namebuf ← need BuilderFault (StringBuilder_AppendUnicode namebuf (wrapU 32 code));
              escapebuf ← need BuilderFault (StringBuilder_AppendByte escapebuf "a"%code);
              ParsePunctuation_loop fuel input end_ (mkPunct src src namebuf escapebuf esc)
            else Done (mkPunct src src namebuf escapebuf esc)
          else Done (mkPunct src src namebuf escapebuf esc)
    end
  else Done s.

(** The names recognised as a whole, before trailing equal signs are removed. *)
Definition whole_punctuation (name : Str) : option TokenKind :=
  if decide (name = bytes "@") then Some TOKEN_AT
  else if decide (name = bytes "@@") then Some TOKEN_ATAT
  else if decide (name = bytes "=") then Some TOKEN_EQUAL
  else if decide (name ∈ [bytes "=="; bytes "==="; bytes "!="; bytes "!=="; bytes "<="; bytes ">="])
       then Some TOKEN_PUNCTNAME
  else None.

(** Remove trailing equal signs that are not escaped: the length that is left, and
    the index. *)
Fixpoint strip_equals (nameLen : nat) (namebuf escapebuf : StringBuilderInt) (src : Z) : Outcome (Z * Z) :=
  match nameLen with
  | O => Done (0, src)
  | S n =>
      ch ← need BuilderFault (StringBuilder_At namebuf (Z.of_nat n));
      if ch =? "="%code then
        mark ← need BuilderFault (StringBuilder_At escapebuf (Z.of_nat n));
        if mark =? "\"%code then Done (Z.of_nat nameLen, src)
        else strip_equals n namebuf escapebuf (src - 1)
      else Done (Z.of_nat nameLen, src)
  end.

(** The index after the name, its text, its kind, and whether it has escapes. *)
Definition ParsePunctuationRaw (input : list Z) (src end_ : Z) : Outcome (Z * Str * TokenKind * bool) :=
  namebuf ← need BuilderFault (INIT_INLINE_STRINGBUILDER 64);
  escapebuf ← need BuilderFault (INIT_INLINE_STRINGBUILDER 64);
  s ← ParsePunctuation_loop (Z.to_nat (end_ - src)) input end_ (mkPunct src src namebuf escapebuf false);
  '(namebuf, escapebuf) ← flush_both input (p_start s) (p_src s) (p_name s) (p_escape s);
  name ← need BuilderFault (StringBuilder_ToString namebuf);
  match whole_punctuation name with
  | Some tokenKind => Done (p_src s, name, tokenKind, p_hasEscapes s)
  | None =>
      '(nameLen, src) ← strip_equals (length name) namebuf escapebuf (p_src s);
      namebuf ← need BuilderFault (StringBuilder_SetLength namebuf nameLen);
      escapebuf ← need BuilderFault (StringBuilder_SetLength escapebuf nameLen);
      text ← need BuilderFault (StringBuilder_ToString namebuf);
      Done (src, text, TOKEN_PUNCTNAME, p_hasEscapes s)
  end.

Section LexNames.
Context {D : Type} {Ops : MapOps Str Z D}.

#[local] Notation Lexer := (Lexer D).

(** Store what a name token carries. *)
Definition name_token (src : Z) (text : Str) (symbol : Z) (escapes : bool) (k : TokenKind) (l : Lexer) : Lexer * TokenKind :=
  END_TOKEN src k (on_token (fun t => set_escapes escapes (set_data (DataSymbol symbol) (set_text (Text text) t))) l).

Definition Lexer_ParseName (l : Lexer) (isFirst : bool) : Outcome (Lexer * TokenKind) :=
  let l := START_TOKEN (lx_src l) isFirst l in
  '(src, text, escapes) ← ParseNameRaw (lx_input l) (lx_src l) (lx_end l);
  let l := set_src src l in
  match text with
  | None => Done (error_token src IllegalNameMessage l)
  | Some text => '(l, symbol) ← intern text l; Done (name_token src text symbol escapes TOKEN_ALPHANAME l)
  end.

Definition Lexer_ParsePunctuation (l : Lexer) (isFirst : bool) : Outcome (Lexer * TokenKind) :=
  let l := START_TOKEN (lx_src l) isFirst l in
  '(src, text, tokenKind, escapes) ← ParsePunctuationRaw (lx_input l) (lx_src l) (lx_end l);
  '(l, symbol) ← intern text (set_src src l);
  Done (name_token src text symbol escapes tokenKind l).

(** ** Comments and what starts like them *)

Definition not_newline (ch : Z) : bool := negb (ch =? 10) && negb (ch =? 13).

(** The body of a comment: the index after it, or [None] when it does not end, and
    the number of lines it has. *)
Fixpoint comment_loop (fuel : nat) (input : list Z) (end_ src lines : Z) : Outcome (option Z * Z) :=
  if src >=? end_ then Done (None, lines)
  else
    match fuel with
    | O => Wrong OutOfFuel
    | S fuel =>
        ch ← need ReadFault (zget input src);
        let src := src + 1 in
        pair ← peek (Z.eqb (if ch =? 10 then 13 else 10)) input end_ src;
        let '(src, lines) :=
          if (ch =? 10) || (ch =? 13) then ((if (pair : bool) then src + 1 else src), lines + 1) else (src, lines) in
        slash ← peek (Z.eqb "/"%code) input end_ src;
        if (ch =? "*"%code) && slash then Done (Some (src + 1), lines)
        else comment_loop fuel input end_ src lines
    end.

(** The character after the slash is read without looking for the end. *)
Definition Lexer_ParseSlash (l : Lexer) (isFirst : bool) : Outcome (Lexer * TokenKind) :=
  let src := lx_src l in
  ch ← need ReadFault (zget (lx_input l) src);
  let src := src + 1 in
  if ch =? "/"%code then
    src ← scan not_newline (lx_input l) (lx_end l) src;
    Done (set_src src l, TOKEN_NONE)
  else if ch =? "*"%code then
    let startLine := lx_line l in
    '(closed, lines) ← comment_loop (Z.to_nat (lx_end l - src)) (lx_input l) (lx_end l) src 0;
    let l := set_line (lx_line l + lines) (lx_lineStart l) l in
    match closed with
    | Some src => Done (set_src src l, TOKEN_NONE)
    | None =>
        let src := Z.max src (lx_end l) in
        Done (error_token src (Message UnterminatedCommentMessage [ArgInt startLine]) (START_TOKEN (src - 1) isFirst l))
    end
  else Lexer_ParsePunctuation (set_src (src - 2) l) isFirst.

Definition Lexer_ParseHyphenOrEquals (l : Lexer) (initialChar : Z) (isFirst hasPrecedingWhitespace : bool)
  : Outcome (Lexer * TokenKind) :=
  src ← scan (Z.eqb initialChar) (lx_input l) (lx_end l) (lx_src l);
  let charCount := src - lx_src l in
  if charCount >=? 5 then Done (set_src src l, TOKEN_NONE)
  else
    '(l, tokenKind) ← Lexer_ParsePunctuation l isFirst;
    if bool_decide (tokenKind = TOKEN_EQUAL) && negb hasPrecedingWhitespace
    then Done (on_token (set_kind TOKEN_EQUALWITHOUTWHITESPACE) l, TOKEN_EQUALWITHOUTWHITESPACE)
    else Done (l, tokenKind).

(** ** Loanwords *)

(** The text of the current token. *)
Definition current_text (l : Lexer) : Str := match token_text (Lexer_Token l) with Text s => s | _ => [] end.

Definition String_PoundSign : Str := bytes "#".

(** The names after the pound sign, with what they are. *)
Definition named_loanword (l : Lexer) : Lexer * TokenKind :=
  let src := lx_src l in
  let name := current_text l in
  let unsupported := error_token src (Message UnsupportedLoanwordMessage [ArgText (String_PoundSign ++ name)]) l in
  if decide (name = bytes "json") then unsupported
  else if decide (name = bytes "html") then unsupported
  else if decide (name = bytes "xml") then unsupported
  else if decide (name = bytes "include") then END_TOKEN src TOKEN_LOANWORD_INCLUDE l
  else if decide (name = bytes "syntax") then END_TOKEN src TOKEN_LOANWORD_SYNTAX l
  else if decide (name = bytes "brk") then END_TOKEN src TOKEN_LOANWORD_BRK l
  else error_token src (Message UnknownLoanwordMessage [ArgText (String_PoundSign ++ name)]) l.

Definition Lexer_ParseLoanword (l : Lexer) (isFirst : bool) : Outcome (Lexer * TokenKind) :=
  let src := lx_src l in
  let l := START_TOKEN src isFirst l in
  let src := src + 1 in
  if src >=? lx_end l then Done (error_token src (Message UnknownLoanwordMessage [ArgText String_PoundSign]) l)
  else
    ch ← need ReadFault (zget (lx_input l) src);
    let src := src + 1 in
    if ch =? "#"%code then Done (END_TOKEN src TOKEN_DOUBLEHASH (set_src src l))
    else if ch =? "!"%code then
      src ← scan not_newline (lx_input l) (lx_end l) src; Done (set_src src l, TOKEN_NONE)
    else if ch =? "/"%code then
      Done (error_token src (Message UnsupportedLoanwordMessage [ArgText (bytes "#/")]) l)
    else if is_letter ch || (ch =? "_"%code) || (ch =? "$"%code) then
      '(l, tokenKind) ← Lexer_ParseName (set_src (src - 1) l) isFirst;
      if decide (tokenKind = TOKEN_ERROR) then Done (l, TOKEN_ERROR)
      else
        more ← peek (fun c => c >? " "%code) (lx_input l) (lx_end l) (lx_src l);
        if (more : bool) then
          Done (error_token (lx_src l) (Message IllegalLoanwordMessage [ArgText (String_PoundSign ++ current_text l)]) l)
        else Done (named_loanword l)
    else Done (error_token (src - 1) (Message UnknownLoanwordMessage [ArgText (String_PoundSign ++ [ch])]) l).
End LexNames.
