(* ===== verification/LexNumbers.v ===== *)
(** * LexNumbers: numeric literals

    [src/parsing/lexer/lexnumbers.c], and [Lexer_ParseDot] of [lexpunct.c].  Integers
    are unsigned 64-bit values; an integer followed by a dot is read again as a
    real.  Reals are converted by the vendored decimal library and floats by
    [strtod] of the C library: both are parameters ([RealParsers]). *)

From Stdlib Require Import String.
From S2P Require Import Prelude IntMath FiniteMap Text StringBuilder IdentTable SymbolTable Lexer LexNames.

(** Conversions of a text to the bits of a number; [None] when the library refuses it. *)
Class RealParsers := {
  Real32_TryParse : Str -> option Z;
  Real64_TryParse : Str -> option Z;
  Real128_TryParse : Str -> option Z;
  strtod : Str -> Z;
  (** the conversion of a 64-bit float to 32 bits *)
  float32_of : Z -> Z
}.

Definition quoted_message (before : string) : Str := bytes before ++ [QUOTE] ++ bytes "%S" ++ [QUOTE].
Definition IllegalNumericSuffixMessage : Str := quoted_message "Number has an illegal or unknown suffix ".
Definition TrailingGarbageAfterNumberMessage : Str := quoted_message "Number has illegal trailing text ".
Definition IllegalNumericSizeMessage : Str :=
  bytes "Number is too large for its %s type (did you use the wrong numeric suffix?)".
Definition IllegalDecimalIntegerMessage : TokenText := Text (bytes "Number not a valid decimal integer").
Definition IllegalOctalIntegerMessage : TokenText := Text (bytes "Number not a valid octal integer").
Definition IllegalHexadecimalIntegerMessage : TokenText := Text (bytes "Number not a valid hexadecimal integer").
Definition IllegalRealValueMessage : TokenText := Text (bytes "Number not a valid real or float value").

Definition IsAlphanumeric (ch : Z) : bool := is_letter ch || is_digit ch.

(** The separators between digits. *)
Definition is_separator (ch : Z) : bool := (ch =? "_"%code) || (ch =? "'"%code) || (ch =? QUOTE).

Definition is_octal (ch : Z) : bool := within ch "0"%code "7"%code.
Definition digit_or_separator (ch : Z) : bool := is_digit ch || is_separator ch.
Definition is_hex (ch : Z) : bool := is_digit ch || within ch "a"%code "f"%code || within ch "A"%code "F"%code.
Definition hex_or_separator (ch : Z) : bool := is_hex ch || is_separator ch.

(** [while (src < end && IsAlphanumeric (ch = src[0]))], appending. *)
Fixpoint suffix_loop (fuel : nat) (input : list Z) (end_ src : Z) (buf : StringBuilderInt)
  : Outcome (Z * StringBuilderInt) :=
  if src <? end_ then
    match fuel with
    | O => Wrong OutOfFuel
    | S fuel =>
        ch ← need ReadFault (zget input src);
        if IsAlphanumeric ch then
          buf ← need BuilderFault (StringBuilder_AppendByte buf ch);
          suffix_loop fuel input end_ (src + 1) buf
        else Done (src, buf)
    end
  else Done (src, buf).

(** The index after the suffix, and the suffix or NULL. *)
Definition CollectAlphanumericSuffix (input : list Z) (src end_ : Z) : Outcome (Z * option Str) :=
  found ← peek IsAlphanumeric input end_ src;
  if negb found then Done (src, None)
  else
    buf ← need BuilderFault (INIT_INLINE_STRINGBUILDER 16);
    '(src, buf) ← suffix_loop (Z.to_nat (end_ - src)) input end_ src buf;
    text ← need BuilderFault (StringBuilder_ToString buf);
    Done (src, Some text).

(** The index reached, the value, and whether there is one. *)
Fixpoint ParseDecimal_loop (fuel : nat) (input : list Z) (end_ start src value : Z) : Outcome (Z * Z * bool) :=
  if src <? end_ then
    match fuel with
    | O => Wrong OutOfFuel
    | S fuel =>
        ch ← need ReadFault (zget input src);
        if is_digit ch then
          let digit := ch - "0"%code in
          if value >? 0x1999999999999999 then
            src ← scan digit_or_separator input end_ src; Done (src, 0, false)
          else
            let value := wrapU 64 (value * 10) in
            if 0xFFFFFFFFFFFFFFFF - digit <? value then
              src ← scan digit_or_separator input end_ src; Done (src, 0, false)
            else ParseDecimal_loop fuel input end_ start (src + 1) (wrapU 64 (value + digit))
        else if is_separator ch then ParseDecimal_loop fuel input end_ start (src + 1) value
        else Done (src, value, src >? start)
    end
  else Done (src, value, src >? start).

Definition ParseDecimalInteger (input : list Z) (src end_ : Z) : Outcome (Z * Z * bool) :=
  ParseDecimal_loop (Z.to_nat (end_ - src)) input end_ src src 0.

Fixpoint ParseOctal_loop (fuel : nat) (input : list Z) (end_ start src value : Z) : Outcome (Z * Z * bool) :=
  if src <? end_ then
    match fuel with
    | O => Wrong OutOfFuel
    | S fuel =>
        ch ← need ReadFault (zget input src);
        if is_octal ch then
          let digit := ch - "0"%code in
          if value >? 0x1FFFFFFFFFFFFFFF then
            src ← scan digit_or_separator input end_ src; Done (src, 0, false)
          else
            let value := wrapU 64 (Z.shiftl value 3) in
            if 0xFFFFFFFFFFFFFFFF - digit <? value then
              src ← scan digit_or_separator input end_ src; Done (src, 0, false)
            else ParseOctal_loop fuel input end_ start (src + 1) (Z.lor value digit)
        else if is_separator ch then ParseOctal_loop fuel input end_ start (src + 1) value
        else if (ch =? "8"%code) || (ch =? "9"%code) then
          src ← scan digit_or_separator input end_ src; Done (src, 0, false)
        else Done (src, value, src >? start)
    end
  else Done (src, value, src >? start).

Definition ParseOctalInteger (input : list Z) (src end_ : Z) : Outcome (Z * Z * bool) :=
  ParseOctal_loop (Z.to_nat (end_ - src)) input end_ src src 0.

(** The digit that overflows has been stepped over. *)
Fixpoint ParseHexadecimal_loop (fuel : nat) (input : list Z) (end_ start src value : Z) : Outcome (Z * Z * bool) :=
  if src <? end_ then
    match fuel with
    | O => Wrong OutOfFuel
    | S fuel =>
        ch ← need ReadFault (zget input src);
        if is_hex ch then
          if value >? 0x0FFFFFFFFFFFFFFF then
            src ← scan hex_or_separator input end_ (src + 1); Done (src, 0, false)
          else
            ParseHexadecimal_loop fuel input end_ start (src + 1)
              (Z.lor (wrapU 64 (Z.shiftl value 4)) (HexValue ch))
        else if is_separator ch then ParseHexadecimal_loop fuel input end_ start (src + 1) value
        else Done (src, value, src >? start)
    end
  else Done (src, value, src >? start).

Definition ParseHexadecimalInteger (input : list Z) (src end_ : Z) : Outcome (Z * Z * bool) :=
  ParseHexadecimal_loop (Z.to_nat (end_ - src)) input end_ src src 0.

(** Digits of a real, with a separator allowed between two digits: the index
    after them, and the builder with the digits appended piece by piece. *)
Fixpoint real_digits (fuel : nat) (input : list Z) (end_ start src : Z) (buf : StringBuilderInt)
  : Outcome (Z * StringBuilderInt) :=
  digit ← peek is_digit input end_ src;
  if negb digit then buf ← flush input start src buf; Done (src, buf)
  else
    match fuel with
    | O => Wrong OutOfFuel
    | S fuel =>
        let src := src + 1 in
        separator ← (if src + 1 <? end_ then
                       ch ← need ReadFault (zget input src);
                       next ← need ReadFault (zget input (src + 1));
                       Done (is_separator ch && is_digit next)
                     else Done false);
        if (separator : bool) then
          buf ← flush input start src buf;
          real_digits fuel input end_ (src + 1) (src + 1) buf
        else real_digits fuel input end_ start src buf
    end.

(** A dot that is not part of a range. *)
Definition at_decimal_point (input : list Z) (src end_ : Z) : Outcome bool :=
  dot ← peek (Z.eqb "."%code) input end_ src;
  if negb dot then Done false
  else if src + 1 >=? end_ then Done true
  else ch ← need ReadFault (zget input (src + 1)); Done (negb (ch =? "."%code)).

Section LexNumbers.
Context {D : Type} {Ops : MapOps Str Z D} {Real : RealParsers}.

#[local] Notation Lexer := (Lexer D).

(** False when a letter follows the number; that letter is then read. *)
Definition EnsureEndOfNumber (l : Lexer) : Outcome (Lexer * bool) :=
  let src := lx_src l in
  if src <? lx_end l then
    ch ← need ReadFault (zget (lx_input l) src);
    '(code, src) ← (if ch <? 128 then Done (ch, src + 1)
                    else need ReadFault (String_ExtractUnicodeCharacterInternal (lx_input l) src (lx_end l)));
    if code =? "-"%code then Done (l, true)
    else
      identifierCharacterKind ← need ReadFault (SmileIdentifierKind code);
      if has identifierCharacterKind (Z.lor IDENTKIND_STARTLETTER IDENTKIND_MIDDLELETTER) then
        let message := Message TrailingGarbageAfterNumberMessage [ArgText (unicode_bytes (wrapU 32 code))] in
        Done (on_token (set_text message) (set_src src l), false)
      else Done (l, true)
  else Done (l, true).

(** Give the current token a kind only. *)
Definition as_kind (k : TokenKind) (l : Lexer) : Lexer * TokenKind := (on_token (set_kind k) l, k).

(** A value that fits its type, or an error. *)
Definition sized_value (fits : bool) (type : string) (k : TokenKind) (d : TokenData) (text : Str) (l : Lexer)
  : Lexer * TokenKind :=
  if fits then as_kind k (on_token (fun t => set_text (Text text) (set_data d t)) l)
  else as_kind TOKEN_ERROR (on_token (set_text (Message IllegalNumericSizeMessage [ArgText (bytes type)])) l).

Definition ProcessIntegerValue (l : Lexer) (value : Z) (text : Str) (suffix : option Str) : Lexer * TokenKind :=
  match default [] suffix with
  | [] => as_kind TOKEN_INTEGER64 (on_token (fun t => set_text (Text text) (set_data (DataInt64 (wrapS 64 value)) t)) l)
  | [ch] =>
      if (ch =? "s"%code) || (ch =? "S"%code) then
        sized_value (negb (value >? Z.shiftl 1 16)) "Integer16" TOKEN_INTEGER16 (DataInt16 (wrapS 16 (wrapU 16 value))) text l
      else if (ch =? "t"%code) || (ch =? "T"%code) then
        sized_value (negb (value >=? Z.shiftl 1 32)) "Integer32" TOKEN_INTEGER32 (DataInt32 (wrapS 32 (wrapU 32 value))) text l
      else if (ch =? "x"%code) || (ch =? "X"%code) then
        sized_value (negb (value >? 256)) "Byte" TOKEN_BYTE (DataByte (wrapU 8 (wrapU 32 value))) text l
      else as_kind TOKEN_ERROR (on_token (set_text (Message IllegalNumericSuffixMessage [ArgText [ch]])) l)
  | suffix => as_kind TOKEN_ERROR (on_token (set_text (Message IllegalNumericSuffixMessage [ArgText suffix])) l)
  end.

(** A real or float with its conversion, if there is one. *)
Definition real_token (src : Z) (value : option TokenData) (text : Str) (k : TokenKind) (l : Lexer) : Lexer * TokenKind :=
  match value with
  | Some d => END_TOKEN src k (on_token (fun t => set_text (Text text) (set_data d t)) l)
  | None => error_token src IllegalRealValueMessage l
  end.

(** The kinds of reals and floats by suffix. *)
Definition real_by_suffix (src : Z) (digits : Str) (suffix : Str) (l : Lexer) : Lexer * TokenKind :=
  let letter c d := (c =? d) || (c =? d - 32) in
  let badSuffix := error_token src (Message IllegalNumericSuffixMessage [ArgText suffix]) l in
  match suffix with
  | [] => real_token src (DataReal64 <$> Real64_TryParse digits) digits TOKEN_REAL64 l
  | [c] =>
      if letter c "f"%code then real_token src (Some (DataFloat64 (strtod digits))) digits TOKEN_FLOAT64 l
      else if letter c "l"%code then
        real_token src (DataReal128 <$> Real128_TryParse digits) (digits ++ suffix) TOKEN_REAL128 l
      else if letter c "t"%code then
        real_token src (DataReal32 <$> Real32_TryParse digits) (digits ++ suffix) TOKEN_REAL32 l
      else badSuffix
  | [c; d] =>
      if letter c "t"%code && letter d "f"%code
      then real_token src (Some (DataFloat32 (float32_of (strtod digits)))) digits TOKEN_FLOAT32 l
      else badSuffix
  | _ => badSuffix
  end.

(** The digits are terminated by a zero byte of their own, which stays in the text. *)
Definition Lexer_ParseReal (l : Lexer) (isFirst : bool) : Outcome (Lexer * TokenKind) :=
  let src := lx_src l in
  let '(input, end_) := (lx_input l, lx_end l) in
  buf ← need BuilderFault (INIT_INLINE_STRINGBUILDER 256);
  let l := START_TOKEN src isFirst l in
  '(src, buf) ← real_digits (Z.to_nat (end_ - src)) input end_ src src buf;
  dot ← peek (Z.eqb "."%code) input end_ src;
  '(src, buf) ← (if (dot : bool) then
                   buf ← need BuilderFault (StringBuilder_AppendByte buf "."%code);
                   real_digits (Z.to_nat (end_ - (src + 1))) input end_ (src + 1) (src + 1) buf
                 else Done (src, buf));
  buf ← need BuilderFault (StringBuilder_AppendByte buf 0);
  digitString ← need BuilderFault (StringBuilder_ToString buf);
  '(src, suffix) ← CollectAlphanumericSuffix input src end_;
  '(l, clean) ← EnsureEndOfNumber (set_src src l);
  Done (if (clean : bool) then real_by_suffix src digitString (default [] suffix) l
        else error_token src IllegalRealValueMessage l).

(** Finish an integer whose digits run from [start] up to [src]; [complain] sets the
    message when a letter follows. *)
Definition finish_integer (l : Lexer) (start src value : Z) (complain : Lexer -> Outcome Lexer)
  : Outcome (Lexer * TokenKind) :=
  let digitsEnd := src in
  '(src, suffix) ← CollectAlphanumericSuffix (lx_input l) src (lx_end l);
  '(l, clean) ← EnsureEndOfNumber (set_src src l);
  if (clean : bool) then
    let '(l, _) := END_TOKEN src TOKEN_INTEGER64 l in
    Done (ProcessIntegerValue l value (substring (lx_input l) start (digitsEnd - start)) suffix)
  else l ← complain l; Done (END_TOKEN src TOKEN_ERROR l).

(** The message names the character where the lexer stands. *)
Definition complain_suffix (l : Lexer) : Outcome Lexer :=
  ch ← need ReadFault (zget (lx_input l) (lx_src l));
  Done (on_token (set_text (Message IllegalNumericSuffixMessage [ArgText [ch]])) l).

(** A zero, an [x], and no hexadecimal digit: the byte zero. *)
Definition zero_byte (l : Lexer) (src ch : Z) : Outcome (Lexer * TokenKind) :=
  '(l, clean) ← EnsureEndOfNumber (set_src src l);
  if (clean : bool) then
    let '(l, _) := END_TOKEN src TOKEN_INTEGER64 l in Done (ProcessIntegerValue l 0 (bytes "0") (Some (bytes "x")))
  else Done (error_token src (Message IllegalNumericSuffixMessage [ArgText (bytes "x" ++ [ch])]) l).

(** The value of an integer that may turn out to be a real. *)
Definition integer_or_real (l : Lexer) (isFirst : bool) (start : Z) (parsed : Z * Z * bool) (illegal : TokenText)
  (complain : Lexer -> Outcome Lexer) : Outcome (Lexer * TokenKind) :=
  let '(src, value, ok) := parsed in
  let l := set_src src l in
  dot ← at_decimal_point (lx_input l) src (lx_end l);
  if negb ok && negb dot then Done (error_token src illegal l)
  else if (dot : bool) then Lexer_ParseReal (set_src start l) isFirst
  else finish_integer l start src value complain.

Definition Lexer_ParseZero (l : Lexer) (isFirst : bool) : Outcome (Lexer * TokenKind) :=
  let src := lx_src l in
  let '(input, end_) := (lx_input l, lx_end l) in
  let l := START_TOKEN (src - 1) isFirst l in
  let start := src - 1 in
  x ← peek (fun ch => (ch =? "x"%code) || (ch =? "X"%code)) input end_ src;
  if (x : bool) then
    let src := src + 1 in
    hex ← peek is_hex input end_ src;
    if negb hex then
      ch ← need ReadFault (zget input (if src <? end_ then src else src - 1));
      zero_byte l src ch
    else
      '(src, value, ok) ← ParseHexadecimalInteger input src end_;
      if (ok : bool) then finish_integer l start src value complain_suffix
      else Done (error_token (lx_src l + 1) IllegalHexadecimalIntegerMessage (set_src src l))
  else
    parsed ← ParseOctalInteger input start end_;
    integer_or_real l isFirst start parsed IllegalOctalIntegerMessage complain_suffix.

Definition Lexer_ParseDigit (l : Lexer) (isFirst : bool) : Outcome (Lexer * TokenKind) :=
  let start := lx_src l - 1 in
  let l := START_TOKEN start isFirst l in
  parsed ← ParseDecimalInteger (lx_input l) start (lx_end l);
  integer_or_real l isFirst start parsed IllegalDecimalIntegerMessage Done.

(** ** Dots *)

Definition Lexer_ParseDot (l : Lexer) (isFirst : bool) : Outcome (Lexer * TokenKind) :=
  let src := lx_src l in
  if src >=? lx_end l then Done (SIMPLE_TOKEN (src - 1) src TOKEN_DOT isFirst l)
  else
    ch ← need ReadFault (zget (lx_input l) src);
    if ch =? "."%code then
      let src := src + 1 in
      third ← peek (Z.eqb "."%code) (lx_input l) (lx_end l) src;
      Done (if (third : bool) then SIMPLE_TOKEN (src + 1 - 3) (src + 1) TOKEN_DOTDOTDOT isFirst l
            else SIMPLE_TOKEN (src - 2) src TOKEN_DOTDOT isFirst l)
    else if is_digit ch then Lexer_ParseReal (set_src (src - 1) l) isFirst
    else Done (SIMPLE_TOKEN (src - 1) src TOKEN_DOT isFirst l).
End LexNumbers.
