(* ===== verification/LexStrings.v ===== *)
(** * LexStrings: strings and characters

    [src/parsing/lexer/lexstrings.c]: strings delimited by any number of quotes or
    apostrophes, and single characters. *)

From Stdlib Require Import String.
From S2P Require Import Prelude IntMath FiniteMap Text StringBuilder IdentTable SymbolTable Lexer LexNames.

Definition UnterminatedRawStringMessage : Str :=
  bytes "Raw string that was started on line %d with a ' has no ending '".
Definition UnterminatedDynamicStringMessage : Str :=
  bytes "String that was started on line %d with a " ++ [QUOTE] ++ bytes " has no ending " ++ [QUOTE].
Definition UnterminatedCharMessage : Str := bytes "Character that was started on line %d has no ending '".

(** What a string's body is delimited by and may hold: the delimiter, how many of
    them close it, whether it may span lines, and whether a backslash hides the
    character after it. *)
Record Delimiter := mkDelimiter { d_char : Z; d_count : Z; d_multiline : bool; d_escapes : bool }.

(** From [retry] on: the index reached, the lines passed, and whether the string
    was closed. *)
Fixpoint string_loop (fuel : nat) (d : Delimiter) (input : list Z) (end_ src quoteCount lines : Z)
  : Outcome (Z * Z * bool) :=
  if src >=? end_ then Done (src, lines, false)
  else
    match fuel with
    | O => Wrong OutOfFuel
    | S fuel =>
        ch ← need ReadFault (zget input src);
        let src := src + 1 in
        if (ch =? 10) || (ch =? 13) then
          if negb (d_multiline d) then Done (src, lines, false)
          else
            pair ← peek (Z.eqb (if ch =? 10 then 13 else 10)) input end_ src;
            string_loop fuel d input end_ (if (pair : bool) then src + 1 else src) quoteCount (lines + 1)
        else if ch =? d_char d then
          if quoteCount + 1 =? d_count d then Done (src, lines, true)
          else string_loop fuel d input end_ src (quoteCount + 1) lines
        else if d_escapes d && (ch =? "\"%code) then
          string_loop fuel d input end_ (if src <? end_ then src + 1 else src) 0 lines
        else string_loop fuel d input end_ src 0 lines
    end.

Section LexStrings.
Context {D : Type} {Ops : MapOps Str Z D}.

#[local] Notation Lexer := (Lexer D).

(** The body of a string from [src] on, and the token it makes. *)
Definition string_body (l : Lexer) (d : Delimiter) (src : Z) (message : Str) (k : TokenKind) : Outcome (Lexer * TokenKind) :=
  buf ← need BuilderFault (INIT_INLINE_STRINGBUILDER 1024);
  let startLine := lx_line l in
  let start := src in
  '(src, lines, closed) ← string_loop (Z.to_nat (lx_end l - src)) d (lx_input l) (lx_end l) src 0 0;
  let l := set_line (lx_line l + lines) (lx_lineStart l) l in
  if (closed : bool) then
    let length := src - start - d_count d in
    buf ← (if length >? 0
           then need BuilderFault (StringBuilder_Append buf (drop (Z.to_nat start) (lx_input l)) 0 length)
           else Done buf);
    text ← need BuilderFault (StringBuilder_ToString buf);
    Done (END_TOKEN src k (on_token (set_text (Text text)) l))
  else Done (error_token src (Message message [ArgInt startLine]) l).

Definition Lexer_ParseDynamicString (l : Lexer) (isFirst : bool) : Outcome (Lexer * TokenKind) :=
  let src := lx_src l in
  let l := START_TOKEN (src - 1) isFirst l in
  src' ← scan (Z.eqb QUOTE) (lx_input l) (lx_end l) src;
  let initialQuotes := 1 + (src' - src) in
  if initialQuotes =? 2 then Done (END_TOKEN src' TOKEN_DYNSTRING (on_token (set_text (Text [])) l))
  else
    string_body l (mkDelimiter QUOTE initialQuotes (negb (initialQuotes =? 1)) true) src'
      UnterminatedDynamicStringMessage TOKEN_DYNSTRING.

Definition Lexer_ParseChar (l : Lexer) (isFirst : bool) : Outcome (Lexer * TokenKind) :=
  let src := lx_src l in
  let '(input, end_) := (lx_input l, lx_end l) in
  let l := START_TOKEN (src - 1) isFirst l in
  let unterminated src := error_token src (Message UnterminatedCharMessage [ArgInt (lx_line l)]) l in
  if src >=? end_ then Done (unterminated src)
  else
    ch ← need ReadFault (zget input src);
    let src := src + 1 in
    if negb (ch =? "\"%code) && (ch <=? 0x1F) then Done (unterminated src)
    else
      '(src, value, isUni) ←
        (if ch =? "\"%code then
           isUni ← peek (fun c => (c =? "u"%code) || (c =? "U"%code)) input end_ src;
           '(src, value) ← Lexer_DecodeEscapeCode input src end_ false;
           Done (src, value, isUni)
         else if ch >=? 0x80 then
           '(value, src) ← need ReadFault (String_ExtractUnicodeCharacterInternal input (src - 1) end_);
           Done (src, value, true)
         else Done (src, ch, false));
      closed ← peek (Z.eqb "'"%code) input end_ src;
      if negb closed || (value <? 0) || (value >? 0x110000) then Done (unterminated src)
      else
        let src := src + 1 in
        Done (if (isUni : bool) then END_TOKEN src TOKEN_UNI (on_token (set_data (DataUni (wrapU 32 value))) l)
              else END_TOKEN src TOKEN_CHAR (on_token (set_data (DataChar (wrapU 8 value))) l)).

Definition Lexer_ParseRawString (l : Lexer) (isFirst : bool) : Outcome (Lexer * TokenKind) :=
  let src := lx_src l in
  let l := START_TOKEN (src - 1) isFirst l in
  src' ← scan (Z.eqb "'"%code) (lx_input l) (lx_end l) src;
  let initialApostrophes := 1 + (src' - src) in
  if initialApostrophes =? 1 then Lexer_ParseChar l isFirst
  else
    string_body l (mkDelimiter "'"%code initialApostrophes (negb (initialApostrophes =? 2)) false) src'
      UnterminatedRawStringMessage TOKEN_RAWSTRING.
End LexStrings.
