(* ===== verification/LexerNext.v ===== *)
(** * LexerNext: reading tokens

    [Lexer_Next] and [Lexer_Peek] of [src/parsing/lexer/lexer.c] and [lexer.h], and the
    tokens of a whole input. *)

From Stdlib Require Import String.
From S2P Require Import Prelude IntMath FiniteMap Text StringBuilder IdentTable SymbolTable Lexer LexNames LexNumbers LexStrings.

Definition UnknownCharacterMessage : Str :=
  bytes "Unknown or invalid character (character code " ++ [QUOTE] ++ bytes "%C" ++ [QUOTE] ++ bytes ")".

(** Spaces and control characters, but for the newlines. *)
Definition is_blank (ch : Z) : bool := (ch <=? " "%code) && not_newline ch.

(** Punctuation that starts neither a comment nor a separator line. *)
Definition is_operator (ch : Z) : bool :=
  (ch =? "~"%code) || (ch =? "!"%code) || (ch =? "?"%code) || (ch =? "@"%code) || (ch =? "%"%code)
  || (ch =? "^"%code) || (ch =? "&"%code) || (ch =? "*"%code) || (ch =? "+"%code)
  || (ch =? "<"%code) || (ch =? ">"%code).

(** Tokens of a single character. *)
Definition single_token (ch : Z) : option TokenKind :=
  if ch =? "("%code then Some TOKEN_LEFTPARENTHESIS
  else if ch =? ")"%code then Some TOKEN_RIGHTPARENTHESIS
  else if ch =? "["%code then Some TOKEN_LEFTBRACKET
  else if ch =? "]"%code then Some TOKEN_RIGHTBRACKET
  else if ch =? "{"%code then Some TOKEN_LEFTBRACE
  else if ch =? "}"%code then Some TOKEN_RIGHTBRACE
  else if ch =? "|"%code then Some TOKEN_BAR
  else if ch =? ":"%code then Some TOKEN_COLON
  else if ch =? "`"%code then Some TOKEN_BACKTICK
  else if ch =? ","%code then Some TOKEN_COMMA
  else if ch =? ";"%code then Some TOKEN_SEMICOLON
  else None.

Section LexerNext.
Context {D : Type} {Ops : MapOps Str Z D} {Real : RealParsers}.

#[local] Notation Lexer := (Lexer D).

(** What one round of the loop does: a token, or another round from an index, after
    whitespace, on the same line or on a new one. *)
Inductive Round := Token_read (l : Lexer) (k : TokenKind) | Retry (l : Lexer) (src : Z) (newline : bool).

(** A comment is followed by a round from the lexer's own index. *)
Definition token_or_comment (r : Outcome (Lexer * TokenKind)) : Outcome Round :=
  '(l, k) ← r;
  if decide (k = TOKEN_NONE) then Done (Retry l (lx_src l) false) else Done (Token_read l k).

Definition token (r : Outcome (Lexer * TokenKind)) : Outcome Round := '(l, k) ← r; Done (Token_read l k).

(** A character outside ASCII, at [start]. *)
Definition unicode_round (l : Lexer) (start : Z) (isFirst : bool) : Outcome Round :=
  '(code, src) ← need ReadFault (String_ExtractUnicodeCharacterInternal (lx_input l) start (lx_end l));
  if code =? 0xFEFF then Done (Retry l src false)
  else
    identifierCharacterKind ← need ReadFault (SmileIdentifierKind code);
    if has identifierCharacterKind IDENTKIND_STARTLETTER then token (Lexer_ParseName (set_src start l) isFirst)
    else if has identifierCharacterKind IDENTKIND_PUNCTUATION then
      token (Lexer_ParsePunctuation (set_src start l) isFirst)
    else
      Done (let '(l, k) := error_token src (Message UnknownCharacterMessage [ArgInt code]) (START_TOKEN start isFirst l) in
            Token_read l k).

(** From [retryAtSrc], with something to read. *)
Definition next_round (l : Lexer) (src : Z) (isFirst hasPrecedingWhitespace : bool) : Outcome Round :=
  ch ← need ReadFault (zget (lx_input l) src);
  let start := src in
  let src := src + 1 in
  if is_blank ch then
    src ← scan is_blank (lx_input l) (lx_end l) src; Done (Retry l src false)
  else if (ch =? 10) || (ch =? 13) then
    pair ← peek (Z.eqb (if ch =? 10 then 13 else 10)) (lx_input l) (lx_end l) src;
    let src := if (pair : bool) then src + 1 else src in
    Done (Retry (set_line (lx_line l + 1) src l) src true)
  else if ch =? "/"%code then token_or_comment (Lexer_ParseSlash (set_src src l) isFirst)
  else if (ch =? "-"%code) || (ch =? "="%code) then
    token_or_comment (Lexer_ParseHyphenOrEquals (set_src start l) ch isFirst hasPrecedingWhitespace)
  else if is_operator ch then token (Lexer_ParsePunctuation (set_src start l) isFirst)
  else if ch =? "."%code then token (Lexer_ParseDot (set_src src l) isFirst)
  else
    match single_token ch with
    | Some k => Done (let '(l, k) := SIMPLE_TOKEN start src k isFirst l in Token_read l k)
    | None =>
        if ch =? "0"%code then token (Lexer_ParseZero (set_src src l) isFirst)
        else if is_digit ch then token (Lexer_ParseDigit (set_src src l) isFirst)
        else if is_letter ch || (ch =? "_"%code) || (ch =? "$"%code) || (ch =? "\"%code) then
          token (Lexer_ParseName (set_src start l) isFirst)
        else if ch =? QUOTE then token (Lexer_ParseDynamicString (set_src src l) isFirst)
        else if ch =? "'"%code then token (Lexer_ParseRawString (set_src src l) isFirst)
        else if ch =? "#"%code then token_or_comment (Lexer_ParseLoanword (set_src start l) isFirst)
        else unicode_round l start isFirst
    end.

(** The loop of the gotos. *)
Fixpoint next_loop (fuel : nat) (l : Lexer) (src : Z) (isFirst hasPrecedingWhitespace : bool)
  : Outcome (Lexer * TokenKind) :=
  if src >=? lx_end l then Done (SIMPLE_TOKEN src src TOKEN_EOI isFirst l)
  else
    match fuel with
    | O => Wrong OutOfFuel
    | S fuel =>
        r ← next_round l src isFirst hasPrecedingWhitespace;
        match r with
        | Token_read l k => Done (l, k)
        | Retry l src newline => next_loop fuel l src (isFirst || newline) true
        end
    end.

Definition Lexer_Next (l : Lexer) : Outcome (Lexer * TokenKind) :=
  if lx_ungetCount l >? 0 then
    let l := set_ring (lx_tokenIndex l + 1) (lx_ungetCount l - 1) l in
    Done (l, kind (Lexer_Token l))
  else
    let l := set_ring (lx_tokenIndex l + 1) (lx_ungetCount l) l in
    next_loop (Z.to_nat (lx_end l - lx_src l)) l (lx_src l) false false.

Definition Lexer_Peek (l : Lexer) : Outcome (Lexer * TokenKind) :=
  '(l, kind) ← Lexer_Next l;
  Done (Lexer_Unget l, kind).

(** The tokens up to the end of the input, which is the last. *)
Fixpoint tokenize (fuel : nat) (l : Lexer) : Outcome (Lexer * list Token) :=
  match fuel with
  | O => Wrong OutOfFuel
  | S fuel =>
      '(l, k) ← Lexer_Next l;
      if decide (k = TOKEN_EOI) then Done (l, [Lexer_Token l])
      else '(l', tokens) ← tokenize fuel l; Done (l', Lexer_Token l :: tokens)
  end.

(** A lexer over a whole text. *)
Definition lexer_of (text : Str) : Lexer :=
  mkLexer (String_GetBytes text) 0 (zlen text) 0 None 1 (replicate 16 no_token) 0 0 0 None.

End LexerNext.

(** ** Examples *)

Section Examples.
#[local] Instance no_reals : RealParsers := {
  Real32_TryParse := fun _ => Some 0; Real64_TryParse := fun _ => Some 0; Real128_TryParse := fun _ => Some 0;
  strtod := fun _ => 0; float32_of := fun z => z
}.
#[local] Instance no_dict : MapOps Str Z unit := {
  NULL_value := 0; ClearWithSize _ := None; ContainsKey _ _ := None; GetValue _ _ := None; TryGetValue _ _ := None;
  Add _ _ _ := None; SetValue _ _ _ := None; ReplaceValue _ _ _ := None; Remove _ _ := None; Count _ := 0
}.

Definition kinds (fuel : nat) (text : Str) : Outcome (list TokenKind) :=
  '(_, tokens) ← tokenize fuel (lexer_of (D := unit) text); Done (map kind tokens).
Definition texts (fuel : nat) (text : Str) : Outcome (list TokenText) :=
  '(_, tokens) ← tokenize fuel (lexer_of (D := unit) text); Done (map token_text tokens).
Definition datas (fuel : nat) (text : Str) : Outcome (list TokenData) :=
  '(_, tokens) ← tokenize fuel (lexer_of (D := unit) text); Done (map data tokens).

Example lex_sum :
  kinds 10 (bytes "x1 = [f 25x] + 1.5 // done")
  = Done [TOKEN_ALPHANAME; TOKEN_EQUAL; TOKEN_LEFTBRACKET; TOKEN_ALPHANAME; TOKEN_BYTE; TOKEN_RIGHTBRACKET;
          TOKEN_PUNCTNAME; TOKEN_REAL64; TOKEN_EOI].
Proof. by vm_compute. Qed.

Example lex_assign : kinds 10 (bytes "a+=0x1F") = Done [TOKEN_ALPHANAME; TOKEN_PUNCTNAME; TOKEN_EQUALWITHOUTWHITESPACE; TOKEN_INTEGER64; TOKEN_EOI].
Proof. by vm_compute. Qed.

(** A letter, then a relation sign, then a letter: the sign is lost. *)
Example sign_lost : texts 10 (bytes "x" ++ unicode_bytes 0x2264 ++ bytes "y") = Done [Text (bytes "x"); Text (bytes "y"); NoText].
Proof. by vm_compute. Qed.

(** Four equal signs are an empty name, read again and again. *)
Example four_equals : kinds 100 (bytes "====") = Wrong OutOfFuel.
Proof. by vm_compute. Qed.

(** The largest bytes and words accepted are one too large. *)
Example suffixes_overflow : datas 10 (bytes "256x 65536s") = Done [DataByte 0; DataInt16 0; NoData].
Proof. by vm_compute. Qed.

(** A name of 64 letters moves from its buffer to a text of the heap. *)
Example long_name : texts 10 (replicate 64 "a"%code) = Done [Text (replicate 64 "a"%code); NoText].
Proof. by vm_compute. Qed.

(** Behind the sign for "not equal", which is one character of three bytes, the
    mark of an equal sign was never written. *)
Example mark_unwritten : kinds 10 (bytes "~" ++ unicode_bytes 0x2260 ++ bytes "=") = Wrong BuilderFault.
Proof. by vm_compute. Qed.

(** The text of a real ends in a zero byte. *)
Example real_text : texts 10 (bytes "1.5") = Done [Text (bytes "1.5" ++ [0]); NoText].
Proof. by vm_compute. Qed.
End Examples.
