(* ===== verification/LexerScan.v ===== *)
(** * LexerScan: what the scanning routines of the lexer guarantee

    A calculus of outcomes ([safe]): the routine returns a result with a property,
    or, where [W] allows it, reads a part of a string builder that has not been
    written.  Never does it read outside the input, nor run out of fuel.  The
    lemmas here are about the routines that know the input but not the lexer. *)

From Stdlib Require Import String.
From S2P Require Import Prelude IntMath Text TextProps StringBuilder IdentTable Lexer LexNames LexNumbers LexStrings.

Definition safe_or (W : Prop) {A} (o : Outcome A) (Q : A -> Prop) : Prop :=
  match o with Done a => Q a | Wrong why => why = BuilderFault /\ W end.

Section Calculus.
Context {W : Prop}.
#[local] Notation safe := (safe_or W).

Lemma safe_bind {A B} (o : Outcome A) (f : A -> Outcome B) (P : A -> Prop) (Q : B -> Prop) :
  safe o P -> (forall a, P a -> safe (f a) Q) -> safe (o ≫= f) Q.
Proof. destruct o; simpl; auto. Qed.

Lemma safe_mono {A} (o : Outcome A) (P Q : A -> Prop) : safe o P -> (forall a, P a -> Q a) -> safe o Q.
Proof. destruct o; simpl; auto. Qed.

(** An operation of a builder that is defined. *)
Lemma safe_build {A} (o : option A) (Q : A -> Prop) : (exists a, o = Some a /\ Q a) -> safe (need BuilderFault o) Q.
Proof. by intros (a & -> & H). Qed.

Lemma safe_if {A} (b : bool) (x y : Outcome A) (Q : A -> Prop) :
  (b = true -> safe x Q) -> (b = false -> safe y Q) -> safe (if b then x else y) Q.
Proof. destruct b; auto. Qed.

Lemma safe_kind (code : Z) : safe (need ReadFault (SmileIdentifierKind code)) (fun _ => True).
Proof. by destruct (SmileIdentifierKind_total code) as [k ->]. Qed.
End Calculus.

(** Some character of the input may stand for more than one byte: it is outside
    ASCII, or it begins an escape. *)
Definition wide (input : list Z) : Prop :=
  exists i ch, zget input i = Some ch /\ (ch = "\"%code \/ 128 <= ch).

(** A builder of at most [n] bytes. *)
Definition upto (buf : StringBuilderInt) (n : Z) : Prop := exists t, holds buf t /\ zlen t <= n.

Section Scan.
Context {W : Prop} (input : list Z) (end_ : Z).
#[local] Notation safe := (safe_or W).
Context (input_bytes : Forall is_byte input) (input_end : 0 <= end_ < zlen input).

Lemma safe_read (i : Z) : 0 <= i <= end_ -> safe (need ReadFault (zget input i)) (fun ch => zget input i = Some ch /\ 0 <= ch < 256).
Proof.
  intros Hi. destruct (proj2 (zget_is_Some input i) ltac:(lia)) as [ch E]. rewrite E. simpl. split; [done|].
  by eapply zget_byte.
Qed.

Lemma safe_extract (i : Z) : 0 <= i < end_ ->
  safe (need ReadFault (String_ExtractUnicodeCharacterInternal input i end_))
    (fun r => i < r.2 <= end_ /\ (wrapU 32 r.1 = "="%code -> zget input i = Some "="%code)).
Proof.
  intros Hi. destruct (Extract_total input i end_ input_bytes Hi ltac:(lia)) as (code & next & E & Hn & Hd).
  rewrite E. simpl. split; [done|]. intros Hw. destruct Hd as [->|[Hc Hs]]; [done|].
  rewrite wrapU_id in Hw by (unfold inU; simpl; lia). subst code.
  destruct (proj2 (zget_is_Some input i) ltac:(lia)) as [ch Hch].
  rewrite (substring_cons _ _ _ ch) in Hs by (done || lia). simpl in Hs. by injection Hs as ->.
Qed.

Lemma safe_peek (p : Z -> bool) (i : Z) : 0 <= i ->
  safe (peek p input end_ i) (fun b => b = true -> i < end_ /\ exists ch, zget input i = Some ch /\ p ch = true).
Proof.
  intros Hi. unfold peek. destruct (Z.ltb_spec i end_); [|done].
  eapply safe_bind; [apply safe_read; lia|]. intros ch [E _]. simpl. eauto.
Qed.

(** The test is that of the character, where there is one. *)
Lemma safe_look (p : Z -> bool) (i : Z) : 0 <= i ->
  safe (peek p input end_ i) (fun b => (b = true -> i < end_ /\ exists ch, zget input i = Some ch /\ p ch = true)
    /\ forall ch, i < end_ -> zget input i = Some ch -> p ch = b).
Proof.
  intros Hi. unfold peek. destruct (Z.ltb_spec i end_); [|simpl; split; [done|lia]].
  eapply safe_bind; [apply safe_read; lia|]. intros ch [E _]. simpl. split; [eauto|]. intros c _ Ec. congruence.
Qed.

Lemma safe_scan_loop (p : Z -> bool) (fuel : nat) (i : Z) : 0 <= i -> end_ - i <= Z.of_nat fuel ->
  safe (scan_loop fuel p input end_ i) (fun r => i <= r <= Z.max i end_).
Proof.
  revert i. induction fuel as [|fuel IH]; intros i Hi Hf; simpl.
  - destruct (Z.ltb_spec i end_); [lia|simpl; lia].
  - destruct (Z.ltb_spec i end_); [|simpl; lia].
    eapply safe_bind; [apply safe_read; lia|]. intros ch _. apply safe_if; intros _; [|simpl; lia].
    eapply safe_mono; [apply IH; lia|]. simpl. lia.
Qed.

Lemma safe_scan (p : Z -> bool) (i : Z) : 0 <= i ->
  safe (scan p input end_ i) (fun r => i <= r <= Z.max i end_).
Proof. intros Hi. apply safe_scan_loop; lia. Qed.

(** ** Escape codes *)

Lemma safe_escape_hex (fuel : nat) (i value : Z) : 0 <= i <= end_ -> end_ - i <= Z.of_nat fuel ->
  safe (escape_hex fuel input end_ i value) (fun r => i <= r.1 <= end_).
Proof.
  revert i value. induction fuel as [|fuel IH]; intros i value Hi Hf; simpl.
  - destruct (Z.ltb_spec i end_); [lia|simpl; lia].
  - destruct (Z.ltb_spec i end_); [|simpl; lia].
    eapply safe_bind; [apply safe_read; lia|]. intros ch _. apply safe_if; intros _; [|simpl; lia].
    eapply safe_mono; [apply IH; lia|]. simpl. lia.
Qed.

Lemma safe_escape_digit (i value : Z) : 0 <= i <= end_ ->
  safe (escape_digit input end_ i value) (fun r => i <= r.1 <= end_).
Proof.
  intros Hi. unfold escape_digit. eapply safe_bind; [apply safe_peek; lia|]. intros b Hb.
  apply safe_if; intros E; [|simpl; lia]. destruct (Hb E) as [Hlt _].
  eapply safe_bind; [apply safe_read; lia|]. intros ch _. simpl. lia.
Qed.

(** At the end only the first byte is read. *)
Lemma safe_extract_end (i : Z) : 0 <= i <= end_ ->
  safe (need ReadFault (String_ExtractUnicodeCharacterInternal input i end_)) (fun r => i <= r.2 <= end_ + 1).
Proof.
  intros Hi. destruct (decide (i = end_)) as [->|].
  - unfold String_ExtractUnicodeCharacterInternal.
    destruct (proj2 (zget_is_Some input end_) ltac:(lia)) as [c E]. rewrite E. cbn [option_bind mbind].
    rewrite !Z.geb_leb. destruct (Z.leb_spec end_ (end_ + 1)), (Z.leb_spec (end_ - 1) (end_ + 1)),
      (Z.leb_spec (end_ - 2) (end_ + 1)); try lia.
    repeat case_match; simpl; lia.
  - eapply safe_mono; [apply safe_extract; lia|]. simpl. lia.
Qed.

(** An escape that does not move has no code.  A character outside ASCII is decoded
    from its second byte on, which may be the terminator. *)
Lemma safe_escape (i : Z) (allowUnknowns : bool) : 0 <= i <= end_ ->
  safe (Lexer_DecodeEscapeCode input i end_ allowUnknowns) (fun r => i <= r.1 <= end_ + 1 /\ (r.1 = i -> r.2 < 0)).
Proof.
  intros Hi. unfold Lexer_DecodeEscapeCode. rewrite Z.geb_leb. destruct (Z.leb_spec end_ i); [simpl; lia|].
  eapply safe_bind; [apply safe_read; lia|]. intros ch [E _]. cbv zeta.
  destruct (named_escape ch); [simpl; lia|].
  apply safe_if; intros _.
  { eapply safe_bind; [apply safe_peek; lia|]. intros b Hb. destruct b; [|simpl; lia]. destruct (Hb eq_refl) as [Hlt _]. simpl.
    eapply safe_bind; [apply safe_read; lia|]. intros c1 _.
    eapply safe_bind; [apply safe_peek; lia|]. intros b Hb'. destruct b; [|simpl; lia]. destruct (Hb' eq_refl) as [Hlt' _].
    eapply safe_bind; [apply safe_read; lia|]. intros c2 _. simpl. lia. }
  apply safe_if; intros _.
  { eapply safe_bind; [apply safe_peek; lia|]. intros b Hb. destruct b; [|simpl; lia]. destruct (Hb eq_refl) as [Hlt _]. simpl.
    eapply safe_bind; [apply safe_read; lia|]. intros c1 _.
    eapply safe_bind; [apply safe_escape_hex; lia|]. intros [src value] Hs. simpl in Hs.
    eapply safe_bind; [apply safe_peek; lia|]. intros b Hb'. destruct b; [destruct (Hb' eq_refl)|]; simpl; lia. }
  apply safe_if; intros _.
  { eapply safe_bind; [apply safe_escape_digit; lia|]. intros [src value] Hs. simpl in Hs.
    eapply safe_bind; [apply safe_escape_digit; lia|]. intros [src' value'] Hs'. simpl in *. lia. }
  apply safe_if; intros _; [simpl; lia|]. apply safe_if; intros _; [simpl; lia|].
  eapply safe_bind; [apply safe_extract_end; lia|]. intros [value src] Hs. simpl in *. lia.
Qed.

(** ** Builders *)

Context (input_small : zlen input < 2 ^ 59).

Lemma safe_INIT n : 0 < n -> safe (need BuilderFault (INIT_INLINE_STRINGBUILDER n)) (fun buf => holds buf []).
Proof. intros. by apply safe_build, INIT_holds. Qed.

Lemma safe_INIT_upto n : 0 < n -> safe (need BuilderFault (INIT_INLINE_STRINGBUILDER n)) (fun buf => upto buf 0).
Proof. intros. eapply safe_mono; [by apply safe_INIT|]. intros buf Hb. by exists []. Qed.

Lemma safe_append buf s l : holds buf s -> l <> [] -> zlen s + zlen l <= 2 ^ 62 ->
  safe (need BuilderFault (append_terminated buf l)) (fun buf' => holds buf' (s ++ l)).
Proof. intros. by apply safe_build, append_terminated_holds. Qed.

Lemma safe_byte buf s ch : holds buf s -> zlen s + 1 <= 2 ^ 62 ->
  safe (need BuilderFault (StringBuilder_AppendByte buf ch)) (fun buf' => holds buf' (s ++ [ch])).
Proof. intros. by apply safe_append. Qed.

Lemma safe_unicode buf s v : holds buf s -> zlen s + 4 <= 2 ^ 62 ->
  safe (need BuilderFault (StringBuilder_AppendUnicode buf v)) (fun buf' => holds buf' (s ++ unicode_bytes v)).
Proof. intros. by apply safe_build, AppendUnicode_holds. Qed.

Lemma safe_text buf s : holds buf s -> safe (need BuilderFault (StringBuilder_ToString buf)) (fun t => t = s).
Proof. intros H. by rewrite (StringBuilder_ToString_holds _ _ H). Qed.

Lemma safe_flush_holds (start src : Z) buf s : holds buf s -> 0 <= start <= src -> src <= zlen input ->
  zlen s + (src - start) <= 2 ^ 62 ->
  safe (flush input start src buf) (fun buf' => holds buf' (s ++ substring input start (src - start))).
Proof.
  intros H Hi Hs Hbig. unfold flush. rewrite Z.gtb_ltb. destruct (Z.ltb_spec start src).
  - unfold StringBuilder_Append. destruct (Z.leb_spec (src - start) 0); [lia|].
    replace (substring (drop (Z.to_nat start) input) 0 (src - start)) with (substring input start (src - start))
      by (unfold substring; simpl; by rewrite drop_0).
    assert (Hz : zlen (substring input start (src - start)) = src - start).
    { unfold substring, zlen in *. rewrite length_take, length_drop. lia. }
    apply safe_append; [done|intros E; rewrite E, zlen_nil in Hz; lia|lia].
  - replace (src - start) with 0 by lia. by rewrite substring_nil, app_nil_r.
Qed.

Lemma zlen_substring_le (l : list Z) i n : 0 <= n -> zlen (substring l i n) <= n.
Proof. intros. unfold substring, zlen. rewrite length_take. lia. Qed.

Lemma upto_flush (start src n : Z) buf : upto buf n -> 0 <= start <= src -> src <= zlen input ->
  n + (src - start) <= 2 ^ 62 -> safe (flush input start src buf) (fun b => upto b (n + (src - start))).
Proof.
  intros (t & Ht & Hn) Hi Hs Hbig. eapply safe_mono; [by apply (safe_flush_holds _ _ _ t); [| | |lia]|].
  intros b Hb. eexists. split; [exact Hb|]. rewrite zlen_app.
  pose proof (zlen_substring_le input start (src - start) ltac:(lia)). lia.
Qed.

Lemma upto_unicode buf n v : upto buf n -> n + 4 <= 2 ^ 62 ->
  safe (need BuilderFault (StringBuilder_AppendUnicode buf v)) (fun b => upto b (n + 4)).
Proof.
  intros (t & Ht & Hn) Hbig. eapply safe_mono; [by apply (safe_unicode _ t); [|lia]|].
  intros b Hb. eexists. split; [exact Hb|]. rewrite zlen_app. pose proof (unicode_bytes_length v). lia.
Qed.

Lemma upto_byte buf n ch : upto buf n -> n + 1 <= 2 ^ 62 ->
  safe (need BuilderFault (StringBuilder_AppendByte buf ch)) (fun b => upto b (n + 1)).
Proof.
  intros (t & Ht & Hn) Hbig. eapply safe_mono; [by apply (safe_byte _ t); [|lia]|].
  intros b Hb. eexists. split; [exact Hb|]. rewrite zlen_app. change (zlen [ch]) with 1. lia.
Qed.

Lemma upto_text buf n : upto buf n -> safe (need BuilderFault (StringBuilder_ToString buf)) (fun _ => True).
Proof. intros (t & Ht & _). eapply safe_mono; [by apply (safe_text _ t)|done]. Qed.

Lemma upto_mono buf n m : upto buf n -> n <= m -> upto buf m.
Proof. intros (t & Ht & Hn) Hm. exists t. split; [done|lia]. Qed.

(** ** Names *)

Lemma safe_restart (i : Z) : 0 <= i < end_ -> safe (IsValidRestartCharacter input i end_) (fun _ => True).
Proof.
  intros Hi. unfold IsValidRestartCharacter. eapply safe_bind; [apply safe_read; lia|]. intros ch _.
  apply safe_if; intros _; [done|]. apply safe_if; intros _; [|done].
  eapply safe_bind; [apply safe_extract; lia|]. intros [code next] _.
  eapply safe_bind; [apply safe_kind|]. done.
Qed.

(** The characters at which a name or punctuation goes on for sure. *)
Definition starts_name (ch : Z) : bool := (ch =? "\"%code) || is_letter ch || is_name_extra ch || (128 <=? ch).
Definition starts_punctuation (ch : Z) : bool := (ch =? "\"%code) || is_punctuation ch || (128 <=? ch).

(** What is known of the scan of a name that started at [src0]. *)
Record name_ok (src0 : Z) (s : NameState) : Prop := {
  no_upto : upto (n_buf s) (4 * (n_start s - src0));
  no_start : 0 <= src0 <= n_start s;
  no_src : n_start s <= n_src s <= end_ + 1
}.

Lemma safe_ParseName_loop (fuel : nat) (src0 : Z) (s : NameState) : name_ok src0 s -> end_ - n_src s <= Z.of_nat fuel ->
  safe (ParseName_loop fuel input end_ s) (fun r =>
    name_ok src0 r /\ n_src s <= n_src r
    /\ (n_src s < end_ -> (exists ch, zget input (n_src s) = Some ch /\ starts_name ch = true) -> n_src s < n_src r)).
Proof.
  revert s. induction fuel as [|fuel IH]; intros [src start namebuf charsets esc] Ho Hf; simpl in *.
  - destruct (Z.ltb_spec src end_); [lia|simpl; split; [done|lia]].
  - destruct (Z.ltb_spec src end_); [|simpl; split; [done|lia]].
    pose proof Ho as [Hb Hst Hsr]. simpl in *.
    assert (Hgo : forall s, name_ok src0 s -> src < n_src s ->
      safe (ParseName_loop fuel input end_ s) (fun r => name_ok src0 r /\ src < n_src r)).
    { intros s Hs Hlt. eapply safe_mono; [apply IH; [done|lia]|]. simpl. intros r (? & ? & _). split; [done|lia]. }
    assert (Hgo1 : forall charsets, safe (ParseName_loop fuel input end_ (mkName (src + 1) start namebuf charsets esc))
      (fun r => name_ok src0 r /\ src < n_src r)).
    { intros cs. apply Hgo; [split; simpl; done || lia|simpl; lia]. }
    eapply safe_bind; [apply safe_read; lia|]. intros ch [E _].
    assert (Hmore : forall o, safe o (fun r => name_ok src0 r /\ src < n_src r) ->
      safe o (fun r => name_ok src0 r /\ src <= n_src r
        /\ (src < end_ -> (exists ch, zget input src = Some ch /\ starts_name ch = true) -> src < n_src r))).
    { intros o Ho'. eapply safe_mono; [exact Ho'|]. simpl. intros r [? ?]. split; [done|lia]. }
    pose proof (upto_flush start src _ namebuf Hb ltac:(lia) ltac:(lia) ltac:(lia)) as Hflush.
    assert (Hnext : forall buf src' cs esc, upto buf (4 * (start - src0) + (src - start) + 4) -> src < src' <= end_ + 1 ->
      name_ok src0 (mkName src' src' buf cs esc)).
    { intros buf src' cs e Hu Hs. split; simpl; [eapply upto_mono; [exact Hu|lia]|lia|lia]. }
    destruct (Z.eqb_spec ch "\"%code) as [|N1].
    { apply Hmore. eapply safe_bind; [exact Hflush|]. intros buf Hb1.
      eapply safe_bind; [apply safe_escape; lia|]. intros [src' code] [Hs _]. simpl in Hs.
      eapply safe_bind; [apply (upto_unicode _ _ _ Hb1); lia|]. intros buf' Hb2. apply Hgo; [|simpl; lia].
      apply Hnext; [done|lia]. }
    destruct (is_letter ch) eqn:N2; [apply Hmore, Hgo1|].
    destruct (is_name_extra ch) eqn:N3; [apply Hmore, Hgo1|].
    assert (Hstop : ch < 128 -> ~ (exists ch, zget input src = Some ch /\ starts_name ch = true)).
    { intros Hch (c & Ec & Hc). rewrite E in Ec. injection Ec as <-.
      unfold starts_name in Hc. rewrite N2, N3 in Hc. destruct (Z.eqb_spec ch "\"%code); [done|]. simpl in Hc.
      destruct (Z.leb_spec 128 ch); [lia|done]. }
    destruct (Z.eqb_spec ch "-"%code) as [->|N4].
    { eapply (safe_bind _ _ (fun _ => True)).
      - destruct (Z.ltb_spec (src + 1) end_); [apply safe_restart; lia|done].
      - intros b _. apply safe_if; intros _; [apply Hmore, Hgo1|]. simpl. split; [done|]. split; [lia|].
        intros _ Hc. by apply Hstop in Hc. }
    eapply safe_bind; [exact Hflush|]. intros buf Hb1. rewrite Z.geb_leb.
    destruct (Z.leb_spec 128 ch).
    + apply Hmore. eapply safe_bind; [apply safe_extract; lia|]. intros [code src'] [Hs _]. simpl in Hs.
      eapply safe_bind; [apply safe_kind|]. intros k _. apply safe_if; intros _.
      * eapply safe_bind; [apply (upto_unicode _ _ _ Hb1); lia|]. intros buf' Hb2. apply Hgo; [|simpl; lia].
        apply Hnext; [done|lia].
      * simpl. split; [|lia]. apply Hnext; [|lia]. eapply upto_mono; [exact Hb1|lia].
    + simpl. split; [|split; [lia|intros _ Hc; by apply Hstop in Hc]].
      split; simpl; [eapply upto_mono; [exact Hb1|lia]|lia|lia].
Qed.

Lemma safe_ParseNameRaw (src : Z) (ch : Z) : 0 <= src < end_ -> zget input src = Some ch -> starts_name ch = true ->
  safe (ParseNameRaw input src end_) (fun r => src < r.1.1 <= end_ + 1).
Proof.
  intros Hi E Hch. unfold ParseNameRaw. eapply safe_bind; [by apply safe_INIT_upto|]. intros buf Hb.
  eapply safe_bind.
  { apply (safe_ParseName_loop _ src); [split; simpl; [by replace (4 * (src - src)) with 0 by lia|lia|lia]|simpl; lia]. }
  intros s ([Hu Hst Hsr] & Hs & Hp). simpl in *. specialize (Hp ltac:(lia) ltac:(eauto)).
  eapply safe_bind; [apply (upto_flush _ _ _ _ Hu); lia|]. intros buf' Hb'. apply safe_if; intros _; [simpl; lia|].
  eapply safe_bind; [by apply (upto_text _ _ Hb')|]. intros text _. simpl. lia.
Qed.

(** ** Punctuation *)

Lemma substring_snoc (start src ch : Z) : 0 <= start <= src -> zget input src = Some ch ->
  substring input start (src + 1 - start) = substring input start (src - start) ++ [ch].
Proof.
  intros Hs [Hn E]%zget_Some. unfold substring. replace (Z.to_nat (src + 1 - start)) with (S (Z.to_nat (src - start))) by lia.
  erewrite take_S_r; [done|]. rewrite lookup_drop. rewrite <- E. f_equal. lia.
Qed.

Definition four_equals (i : Z) : Prop := forall j, 0 <= j < 4 -> zget input (i + j) = Some "="%code.

(** The equal signs at the end of the text [t], collected from [src0] up to [src],
    are no more than the bytes read; if they are as many, the text is these
    equal signs. *)
Definition few_equals (src0 src : Z) (t : Str) : Prop := forall pre k,
  t = pre ++ replicate k "="%code ->
  Z.of_nat k <= src - src0
  /\ (Z.of_nat k = src - src0 -> pre = [] /\ forall j, src0 <= j < src -> zget input j = Some "="%code).

Lemma few_equals_start (src0 : Z) : few_equals src0 src0 [].
Proof.
  intros pre k E. symmetry in E. apply app_nil in E as [-> E]. destruct k; [|done]. split; [simpl; lia|].
  intros _. split; [done|]. intros j Hj. lia.
Qed.

Lemma replicate_last {A} (t : list A) x y pre k :
  t ++ [x] = pre ++ replicate (S k) y -> x = y /\ t = pre ++ replicate k y.
Proof.
  intros E. replace (S k) with (k + 1)%nat in E by lia. rewrite replicate_add, app_assoc in E.
  apply app_inj_tail in E as [-> ->]. done.
Qed.

Lemma few_equals_byte (src0 src : Z) t ch : src0 <= src -> few_equals src0 src t -> zget input src = Some ch ->
  few_equals src0 (src + 1) (t ++ [ch]).
Proof.
  intros Hs Hg E pre [|k] Et; [split; simpl; lia|]. apply replicate_last in Et as [-> Et].
  destruct (Hg pre k Et) as [Hk Hall]. split; [lia|]. intros Hk'. destruct (Hall ltac:(lia)) as [-> Hj].
  split; [done|]. intros j Hj'. destruct (decide (j = src)) as [->|]; [done|]. apply Hj. lia.
Qed.

Lemma few_equals_bytes (src0 src src' : Z) t : src0 <= src -> 0 <= src <= src' -> src' <= zlen input ->
  few_equals src0 src t -> few_equals src0 src' (t ++ substring input src (src' - src)).
Proof.
  intros Hs H Hz. remember (Z.to_nat (src' - src)) as n eqn:En. revert t src H Hs En.
  induction n as [|n IH]; intros t src H Hs En Hg.
  - replace src' with src by lia. by rewrite Z.sub_diag, substring_nil, app_nil_r.
  - destruct (proj2 (zget_is_Some input src) ltac:(lia)) as [ch E].
    rewrite (substring_cons _ _ _ ch), cons_middle, app_assoc by (done || lia).
    replace (src' - src - 1) with (src' - (src + 1)) by lia.
    apply IH; [lia|lia|lia|]. by apply few_equals_byte.
Qed.

(** The last byte of a code point's encoding. *)
Lemma unicode_bytes_last v : 0 <= v ->
  exists init c, unicode_bytes v = init ++ [c] /\ (128 <= c \/ init = [] /\ c = v).
Proof.
  intros Hv. unfold unicode_bytes. rewrite !tail_byte.
  assert (Hm : forall x, 128 <= x mod 64 + 128) by (intros x; pose proof (Z.mod_pos_bound x 64); lia).
  destruct (Z.ltb_spec v 0x80).
  { exists [], v. rewrite wrapU_id by (unfold inU; simpl; lia). auto. }
  repeat case_match; [eexists [_]|eexists [_; _]|eexists [_; _; _]|eexists [_; _]]; eexists;
    (split; [reflexivity|]); left; apply Hm.
Qed.

Lemma few_equals_unicode (src0 src src' v : Z) t : 0 <= v -> src0 <= src < src' ->
  (v = "="%code -> src + 1 < src') -> few_equals src0 src t ->
  few_equals src0 src' (t ++ unicode_bytes v).
Proof.
  intros Hv Hs He Hg pre [|k] Et; [split; simpl; lia|].
  destruct (unicode_bytes_last v Hv) as (init & c & E & Hc). rewrite E, app_assoc in Et.
  apply replicate_last in Et as [-> Et]. destruct Hc as [Hc|[-> <-]]; [done|].
  rewrite app_nil_r in Et. destruct (Hg pre k Et) as [Hk _]. specialize (He eq_refl). split; lia.
Qed.

Lemma few_equals_lost (src0 src src' : Z) t : src < src' -> few_equals src0 src t -> few_equals src0 src' t.
Proof. intros Hs Hg pre k Et. destruct (Hg pre k Et) as [Hk _]. split; lia. Qed.

(** There is a mark for each byte of the text, or fewer behind a wide character. *)
Definition marked (t e : Str) : Prop := zlen e <= zlen t /\ (zlen e = zlen t \/ wide input).

(** What is known of the scan of punctuation that started at [src0]. *)
Record punct_ok (src0 : Z) (s : PunctState) (t e : Str) : Prop := {
  po_holds : holds (p_name s) t;
  po_marks : holds (p_escape s) e;
  po_marked : marked t e;
  po_small : zlen t <= 4 * (p_start s - src0);
  po_start : src0 <= p_start s <= p_src s;
  po_src : p_src s <= end_ + 1;
  po_pending : p_start s = p_src s \/ p_src s <= end_;
  po_equals : few_equals src0 (p_src s) (t ++ substring input (p_start s) (p_src s - p_start s))
}.

(** A new element, from [src] up to [src'], after all before it has been flushed. *)
Lemma punct_ok_unicode (src0 src src' v : Z) t e buf escapebuf esc ch :
  holds buf (t ++ unicode_bytes v) -> holds escapebuf (e ++ [ch]) -> marked t e -> wide input -> 0 <= v -> src0 <= src < src' -> src' <= end_ + 1 ->
  (v = "="%code -> src + 1 < src') -> few_equals src0 src t -> zlen t <= 4 * (src - src0) ->
  punct_ok src0 (mkPunct src' src' buf escapebuf esc) (t ++ unicode_bytes v) (e ++ [ch]).
Proof.
  intros Hb Hm [Hmt _] Hw Hv Hs Hend He Hg Hz. pose proof (unicode_bytes_length v).
  split; simpl; [done|done| | |lia|lia|by left|].
  - split; [|by right]. rewrite !zlen_app. change (zlen [ch]) with 1. lia.
  - rewrite zlen_app. lia.
  - rewrite Z.sub_diag, substring_nil, app_nil_r. by eapply few_equals_unicode.
Qed.

Lemma escaped_small code : 0 <= escaped code /\ (escaped code = "="%code -> 0 <= code).
Proof.
  unfold escaped. pose proof (wrapU_range 32 code ltac:(lia)) as [Hr _]. destruct (Z.ltb_spec code 0); split; try lia.
Qed.

(** Both builders after [safe_flush_both]. *)
Definition flushed (start src : Z) (t e : Str) (r : StringBuilderInt * StringBuilderInt) : Prop :=
  exists e', holds r.1 (t ++ substring input start (src - start)) /\ holds r.2 e'
    /\ marked (t ++ substring input start (src - start)) e'.

Lemma safe_flush_both (start src : Z) buf escapebuf t e : holds buf t -> holds escapebuf e -> marked t e ->
  0 <= start <= src -> src <= zlen input -> zlen t + (src - start) <= 2 ^ 62 ->
  safe (flush_both input start src buf escapebuf) (flushed start src t e).
Proof.
  intros H He [Hm1 Hm2] Hi Hs Hbig. unfold flush_both. eapply safe_bind; [by apply safe_flush_holds|]. intros buf' Hb.
  assert (Hz : zlen (substring input start (src - start)) = src - start).
  { unfold substring, zlen in *. rewrite length_take, length_drop. lia. }
  eapply (safe_bind _ _ (fun b => holds b (e ++ replicate (Z.to_nat (src - start)) "a"%code))).
  { rewrite Z.gtb_ltb. destruct (Z.ltb_spec start src).
    - apply safe_build, AppendRepeat_holds; [done|lia].
    - replace (Z.to_nat (src - start)) with 0%nat by lia. simpl. by rewrite app_nil_r. }
  intros eb Heb. simpl. eexists. split; [exact Hb|]. split; [exact Heb|].
  unfold marked. rewrite !zlen_app, Hz, zlen_blank by lia. split; [lia|]. destruct Hm2; [left; lia|by right].
Qed.

Lemma safe_ParsePunctuation_loop (fuel : nat) (src0 : Z) (s : PunctState) t e : 0 <= src0 -> punct_ok src0 s t e ->
  end_ - p_src s <= Z.of_nat fuel ->
  safe (ParsePunctuation_loop fuel input end_ s) (fun r => (exists t' e', punct_ok src0 r t' e')
    /\ p_src s <= p_src r
    /\ (p_src s < end_ -> (exists ch, zget input (p_src s) = Some ch /\ starts_punctuation ch = true) -> p_src s < p_src r)).
Proof.
  intros H0. revert s t e. induction fuel as [|fuel IH]; intros [src start namebuf escapebuf esc] t e Ho Hf; simpl in *.
  - destruct (Z.ltb_spec src end_); [lia|simpl; split; [by eauto|lia]].
  - destruct (Z.ltb_spec src end_) as [Hlt|]; [|simpl; split; [by eauto|lia]].
    pose proof Ho as [Hb Hmk Hmd Hz Hst Hsr _ Hg]. simpl in *.
    assert (Hgo : forall s t e, punct_ok src0 s t e -> src < p_src s ->
      safe (ParsePunctuation_loop fuel input end_ s) (fun r => (exists t' e', punct_ok src0 r t' e') /\ src < p_src r)).
    { intros s t' e' Ho' Hs. eapply safe_mono; [eapply IH; [exact Ho'|lia]|]. simpl. intros r [? ?]. split; [done|lia]. }
    eapply safe_bind; [apply safe_read; lia|]. intros ch [E _].
    assert (Hmore : forall o, safe o (fun r => (exists t' e', punct_ok src0 r t' e') /\ src < p_src r) ->
      safe o (fun r => (exists t' e', punct_ok src0 r t' e') /\ src <= p_src r
        /\ (src < end_ -> (exists ch, zget input src = Some ch /\ starts_punctuation ch = true) -> src < p_src r))).
    { intros o Hs. eapply safe_mono; [exact Hs|]. intros r [? ?]. split; [done|lia]. }
    set (t1 := t ++ substring input start (src - start)) in *.
    assert (Hz1 : zlen t1 <= 4 * (src - src0)).
    { unfold t1. rewrite zlen_app. unfold substring, zlen in *. rewrite length_take. lia. }
    pose proof (safe_flush_both start src namebuf escapebuf t e Hb Hmk Hmd ltac:(lia) ltac:(lia) ltac:(lia)) as Hflush.
    assert (Hwide : ch = "\"%code \/ 128 <= ch -> wide input) by (intros; by exists src, ch).
    destruct (Z.eqb_spec ch "\"%code) as [|N1].
    { apply Hmore. eapply safe_bind; [exact Hflush|]. intros [buf eb] (e1 & Hb1 & He1 & Hm1). simpl in Hb1, He1. fold t1 in Hb1, Hm1. pose proof (proj1 Hm1).
      eapply safe_bind; [apply safe_escape; lia|]. intros [src' code] [Hs Hc]. simpl in Hs, Hc.
      eapply safe_bind; [by apply (safe_unicode _ t1); [|lia]|]. intros buf' Hb2.
      eapply safe_bind; [by apply (safe_byte _ e1); [|lia]|]. intros eb' He2.
      destruct (escaped_small code) as [Hn1 Hn2].
      eapply (Hgo _ (t1 ++ unicode_bytes (escaped code))); [|simpl; lia].
      eapply (punct_ok_unicode src0 src src'); [done|exact He2|done|by auto|done|lia|lia| |done|lia].
      intros He. apply Hn2 in He. lia. }
    destruct (is_punctuation ch) eqn:N2.
    { eapply Hmore, (Hgo _ t e); [|simpl; lia]. split; simpl; [done|done|done|done|lia|lia|lia|].
      rewrite (substring_snoc start src ch), app_assoc by (done || lia). by apply few_equals_byte; [lia|..]. }
    eapply safe_bind; [exact Hflush|]. intros [buf eb] (e1 & Hb1 & He1 & Hm1). simpl in Hb1, He1. fold t1 in Hb1, Hm1.
    pose proof (proj1 Hm1). rewrite Z.geb_leb.
    destruct (Z.leb_spec 128 ch) as [Hch|Hch].
    + apply Hmore. eapply safe_bind; [apply safe_extract; lia|]. intros [code src'] [Hs Hc]. simpl in Hs, Hc.
      eapply safe_bind; [apply safe_kind|]. intros k _. apply safe_if; intros _.
      * eapply safe_bind; [by apply (safe_unicode _ t1); [|lia]|]. intros buf' Hb2.
        eapply safe_bind; [by apply (safe_byte _ e1); [|lia]|]. intros eb' He2.
        eapply (Hgo _ (t1 ++ unicode_bytes (wrapU 32 code))); [|simpl; lia].
        eapply (punct_ok_unicode src0 src src'); [done|exact He2|done|by auto|by apply wrapU_range|lia|lia| |done|lia].
        intros He. rewrite (Hc He) in E. injection E as <-. lia.
      * simpl. split; [|lia]. exists t1, e1. split; simpl; [done|done|done|lia|lia|lia|by left|].
        rewrite Z.sub_diag, substring_nil, app_nil_r. eapply few_equals_lost; [|exact Hg]. lia.
    + simpl. split; [exists t1, e1; split; simpl; [done|done|done|lia|lia|lia|by left|by rewrite Z.sub_diag, substring_nil, app_nil_r]|]. split; [lia|]. intros _ (c & Ec & Hsp).
      rewrite E in Ec. injection Ec as <-. unfold starts_punctuation in Hsp. rewrite N2 in Hsp.
      destruct (Z.eqb_spec ch "\"%code), (Z.leb_spec 128 ch); simpl in Hsp; done || lia.
Qed.

(** Equal signs are removed from the end of the text and of the bytes read alike. *)
Lemma safe_strip buf escapebuf t e (m : nat) (src : Z) : (wide input -> W) ->
  holds buf t -> holds escapebuf e -> marked t e -> (m <= length t)%nat ->
  safe (strip_equals m buf escapebuf src) (fun r => exists k, (k <= m)%nat
    /\ r = (Z.of_nat (m - k), src - Z.of_nat k) /\ take m t = take (m - k) t ++ replicate k "="%code).
Proof.
  intros HW Hb He [_ Hmd]. revert src. induction m as [|m IH]; intros src Hm; simpl.
  - exists 0%nat. split; [done|]. split; [f_equal; simpl; lia|done].
  - rewrite (At_holds buf t m Hb) by lia. destruct (lookup_lt_is_Some_2 t m ltac:(lia)) as [ch E].
    assert (Hstop : exists k, (k <= S m)%nat /\ (Z.of_nat (S m), src) = (Z.of_nat (S m - k), src - Z.of_nat k)
      /\ take (S m) t = take (S m - k) t ++ replicate k "="%code).
    { exists 0%nat. rewrite app_nil_r. split; [lia|]. split; [f_equal; lia|done]. }
    rewrite E. simpl. destruct (Z.eqb_spec ch "="%code) as [->|]; [|exact Hstop].
    eapply (safe_bind _ _ (fun _ => True)).
    { destruct Hmd as [Hmd|Hw]; [|by destruct (StringBuilder_At _ _); simpl; auto].
      assert (Hlt : (m < length e)%nat) by (unfold zlen in Hmd; lia).
      rewrite (At_holds escapebuf e m He Hlt). by destruct (lookup_lt_is_Some_2 e m Hlt) as [mark ->]. }
    intros mark _. apply safe_if; intros _; [exact Hstop|].
    eapply safe_mono; [apply IH; lia|]. intros r (k & Hk & -> & Et). exists (S k).
    split; [lia|]. split; [f_equal; lia|]. rewrite (take_S_r _ _ _ E), Et, <- app_assoc. f_equal.
    by rewrite replicate_S_end.
Qed.

Lemma whole_equals k : whole_punctuation (replicate k "="%code) = None -> k <> 0%nat -> (4 <= k)%nat.
Proof. intros H Hk. destruct k as [|[|[|[|k]]]]; [done|by vm_compute in H..|lia]. Qed.

Lemma safe_ParsePunctuationRaw (src : Z) (ch : Z) : (wide input -> W) ->
  0 <= src < end_ -> zget input src = Some ch -> starts_punctuation ch = true ->
  safe (ParsePunctuationRaw input src end_) (fun r =>
    src <= r.1.1.1 <= end_ + 1 /\ (r.1.1.1 = src -> four_equals src) /\ r.1.2 <> TOKEN_NONE).
Proof.
  intros HW Hi E Hch. unfold ParsePunctuationRaw.
  eapply safe_bind; [by apply safe_INIT|]. intros buf0 Hb0. eapply safe_bind; [by apply safe_INIT|]. intros eb0 He0.
  eapply safe_bind.
  { apply (safe_ParsePunctuation_loop _ src _ [] []); [lia| |simpl; lia].
    split; simpl; [done|done|by split; [|left]|rewrite zlen_nil; lia|lia|lia|by left|].
    rewrite Z.sub_diag, substring_nil. apply few_equals_start. }
  intros s ((t & e & Ho) & Hs & Hp). simpl in Hs, Hp. destruct Ho as [Hb Hmk Hmd Hz Hst Hsr Hpend Hg].
  pose proof (Hp ltac:(lia) ltac:(eauto)) as Hlt.
  eapply safe_bind; [apply (safe_flush_both _ _ _ _ t e); [done|done|done|lia|lia|lia]|].
  intros [buf eb] (e1 & Hb1 & He1 & Hm1). simpl in Hb1, He1.
  assert (Hsmall : zlen (t ++ substring input (p_start s) (p_src s - p_start s)) <= 2 ^ 62).
  { rewrite zlen_app. pose proof (zlen_substring_le input (p_start s) (p_src s - p_start s) ltac:(lia)). lia. }
  set (name := t ++ _) in *. rewrite (StringBuilder_ToString_holds _ _ Hb1). cbn [need mbind Outcome_bind].
  destruct (whole_punctuation name) as [k|] eqn:Ew.
  { simpl. split; [lia|]. split; [lia|]. unfold whole_punctuation in Ew. by repeat case_decide; simplify_eq. }
  eapply safe_bind; [apply (safe_strip _ _ name e1); [done|done|done|done|lia]|]. intros r (k & Hk & -> & Et). rewrite firstn_all in Et.
  assert (Hn : 0 <= Z.of_nat (length name - k) <= 2 ^ 62) by (unfold zlen in Hsmall; lia).
  eapply safe_bind; [by apply safe_build, (SetLength_holds _ name)|]. intros buf' Hb'.
  eapply safe_bind; [by apply safe_build, (SetLength_holds _ e1)|]. intros eb' _.
  eapply safe_bind; [exact (safe_text _ _ Hb')|]. intros text _. simpl.
  destruct (Hg _ _ Et) as [Hk1 Hk2]. split; [lia|]. split; [|done]. intros Heq. destruct (Hk2 ltac:(lia)) as [Hpre Hall].
  rewrite Hpre, app_nil_l in Et. rewrite Et in Ew. apply whole_equals in Ew; [|lia].
  intros j Hj. apply Hall. lia.
Qed.

(** ** Comments *)

Lemma safe_comment_loop (fuel : nat) (src lines : Z) : 0 <= src -> end_ - src <= Z.of_nat fuel ->
  safe (comment_loop fuel input end_ src lines) (fun r => forall i, r.1 = Some i -> src < i <= end_).
Proof.
  revert src lines. induction fuel as [|fuel IH]; intros src lines Hi Hf; simpl; rewrite Z.geb_leb;
    destruct (Z.leb_spec end_ src); try done; [lia|].
  eapply safe_bind; [apply safe_read; lia|]. intros ch _.
  eapply safe_bind; [apply safe_peek; lia|]. intros pair Hpair.
  match goal with |- context [let '(_, _) := ?p in _] => set (q := p) end.
  assert (Hq : src < q.1). { unfold q. destruct ((ch =? 10) || (ch =? 13)), pair; simpl; lia. }
  clearbody q. destruct q as [src' lines']. simpl in Hq.
  eapply safe_bind; [apply safe_peek; lia|]. intros slash Hslash. apply safe_if; intros Hc.
  - apply andb_prop in Hc as [_ Hs]. destruct (Hslash Hs) as [Hlt _]. simpl. intros i [= <-]. lia.
  - eapply safe_mono; [apply IH; lia|]. simpl. intros r Hr i Er. specialize (Hr i Er). lia.
Qed.

(** ** Numbers *)

Lemma safe_suffix_loop (fuel : nat) (src n : Z) buf : 0 <= src <= end_ + 1 -> end_ - src <= Z.of_nat fuel ->
  upto buf n -> n + (end_ + 1 - src) <= 2 ^ 62 ->
  safe (suffix_loop fuel input end_ src buf) (fun r => src <= r.1 <= end_ + 1 /\ upto r.2 (n + (end_ + 1 - src))).
Proof.
  revert src n buf. induction fuel as [|fuel IH]; intros src n buf Hi Hf Hb Hn; simpl;
    (assert (Hstop : src <= src <= end_ + 1 /\ upto buf (n + (end_ + 1 - src)))
       by (split; [lia|eapply upto_mono; [exact Hb|lia]])).
  - destruct (Z.ltb_spec src end_); [lia|exact Hstop].
  - destruct (Z.ltb_spec src end_); [|exact Hstop].
    eapply safe_bind; [apply safe_read; lia|]. intros ch _. apply safe_if; intros _; [|exact Hstop].
    eapply safe_bind; [apply (upto_byte _ n); [done|lia]|]. intros buf' Hb'.
    eapply safe_mono; [apply (IH _ (n + 1)); [lia|lia|done|lia]|]. simpl. intros r [? Hu]. split; [lia|].
    eapply upto_mono; [exact Hu|lia].
Qed.

Lemma safe_suffix (src : Z) : 0 <= src <= end_ + 1 ->
  safe (CollectAlphanumericSuffix input src end_) (fun r => src <= r.1 <= end_ + 1).
Proof.
  intros Hi. unfold CollectAlphanumericSuffix. eapply safe_bind; [apply safe_peek; lia|]. intros found _.
  apply safe_if; intros _; [simpl; lia|]. eapply safe_bind; [by apply safe_INIT_upto|]. intros buf Hb.
  eapply safe_bind; [apply (safe_suffix_loop _ _ 0); [lia|lia|done|lia]|]. intros [src' buf'] [Hs Hu]. simpl in Hs, Hu.
  eapply safe_bind; [by apply (upto_text _ _ Hu)|]. intros text _. simpl. exact Hs.
Qed.

(** Digits from [src] on. *)
Definition read_within (src : Z) (r : Z * Z * bool) : Prop := src <= r.1.1 <= end_.

Lemma safe_scan_rest (p : Z -> bool) (src src' : Z) : 0 <= src <= src' -> src' <= end_ ->
  safe (i ← scan p input end_ src'; Done (i, 0, false)) (read_within src).
Proof.
  intros Hi He. eapply safe_bind; [apply safe_scan; lia|]. intros i Hs. unfold read_within. simpl in *. lia.
Qed.

Lemma safe_Decimal_loop (fuel : nat) (start src value : Z) : 0 <= src <= end_ -> end_ - src <= Z.of_nat fuel ->
  safe (ParseDecimal_loop fuel input end_ start src value) (read_within src).
Proof.
  unfold read_within. revert src value. induction fuel as [|fuel IH]; intros src value Hi Hf; simpl.
  - destruct (Z.ltb_spec src end_); [lia|simpl; lia].
  - destruct (Z.ltb_spec src end_); [|simpl; lia].
    assert (Hgo : forall value, safe (ParseDecimal_loop fuel input end_ start (src + 1) value) (read_within src)).
    { intros v. eapply safe_mono; [apply IH; lia|]. simpl. unfold read_within. lia. }
    eapply safe_bind; [apply safe_read; lia|]. intros ch _. apply safe_if; intros _.
    + apply safe_if; intros _; [apply safe_scan_rest; lia|].
      apply safe_if; intros _; [apply safe_scan_rest; lia|apply Hgo].
    + apply safe_if; intros _; [apply Hgo|simpl; lia].
Qed.

Lemma safe_Octal_loop (fuel : nat) (start src value : Z) : 0 <= src <= end_ -> end_ - src <= Z.of_nat fuel ->
  safe (ParseOctal_loop fuel input end_ start src value) (read_within src).
Proof.
  unfold read_within. revert src value. induction fuel as [|fuel IH]; intros src value Hi Hf; simpl.
  - destruct (Z.ltb_spec src end_); [lia|simpl; lia].
  - destruct (Z.ltb_spec src end_); [|simpl; lia].
    assert (Hgo : forall value, safe (ParseOctal_loop fuel input end_ start (src + 1) value) (read_within src)).
    { intros v. eapply safe_mono; [apply IH; lia|]. simpl. unfold read_within. lia. }
    eapply safe_bind; [apply safe_read; lia|]. intros ch _. apply safe_if; intros _.
    + apply safe_if; intros _; [apply safe_scan_rest; lia|].
      apply safe_if; intros _; [apply safe_scan_rest; lia|apply Hgo].
    + apply safe_if; intros _; [apply Hgo|]. apply safe_if; intros _; [apply safe_scan_rest; lia|simpl; lia].
Qed.

Lemma safe_Hexadecimal_loop (fuel : nat) (start src value : Z) : 0 <= src <= end_ -> end_ - src <= Z.of_nat fuel ->
  safe (ParseHexadecimal_loop fuel input end_ start src value) (read_within src).
Proof.
  unfold read_within. revert src value. induction fuel as [|fuel IH]; intros src value Hi Hf; simpl.
  - destruct (Z.ltb_spec src end_); [lia|simpl; lia].
  - destruct (Z.ltb_spec src end_); [|simpl; lia].
    assert (Hgo : forall value, safe (ParseHexadecimal_loop fuel input end_ start (src + 1) value) (read_within src)).
    { intros v. eapply safe_mono; [apply IH; lia|]. simpl. unfold read_within. lia. }
    eapply safe_bind; [apply safe_read; lia|]. intros ch _. apply safe_if; intros _.
    + apply safe_if; intros _; [apply safe_scan_rest; lia|apply Hgo].
    + apply safe_if; intros _; [apply Hgo|simpl; lia].
Qed.

(** A first digit is always taken. *)
Lemma safe_Decimal (src ch : Z) : 0 <= src < end_ -> zget input src = Some ch -> is_digit ch = true ->
  safe (ParseDecimalInteger input src end_) (read_within (src + 1)).
Proof.
  intros Hi E Hd. unfold ParseDecimalInteger. destruct (Z.to_nat (end_ - src)) as [|fuel] eqn:Ef; [lia|].
  cbn [ParseDecimal_loop]. destruct (Z.ltb_spec src end_); [|lia]. rewrite E. cbn [need mbind Outcome_bind]. rewrite Hd.
  unfold is_digit, within in Hd. zbool. change (wrapU 64 (0 * 10)) with 0.
  destruct (Z.ltb_spec (0xFFFFFFFFFFFFFFFF - (ch - "0"%code)) 0); [lia|]. cbn [Z.gtb Z.compare].
  apply safe_Decimal_loop; lia.
Qed.

Lemma safe_Octal_zero (src : Z) : 0 <= src < end_ -> zget input src = Some "0"%code ->
  safe (ParseOctalInteger input src end_) (read_within (src + 1)).
Proof.
  intros Hi E. unfold ParseOctalInteger. destruct (Z.to_nat (end_ - src)) as [|fuel] eqn:Ef; [lia|].
  cbn [ParseOctal_loop]. destruct (Z.ltb_spec src end_); [|lia]. rewrite E. cbn [need mbind Outcome_bind].
  apply safe_Octal_loop; lia.
Qed.

Lemma safe_Hexadecimal (src : Z) : 0 <= src <= end_ ->
  safe (ParseHexadecimalInteger input src end_) (read_within src).
Proof. intros Hi. apply safe_Hexadecimal_loop; lia. Qed.

Lemma safe_real_digits (fuel : nat) (start src n : Z) buf : 0 <= start <= src -> src <= end_ -> end_ - src <= Z.of_nat fuel ->
  upto buf n -> n + (end_ - start) <= 2 ^ 62 ->
  safe (real_digits fuel input end_ start src buf) (fun r => src <= r.1 <= end_
    /\ ((exists ch, zget input src = Some ch /\ is_digit ch = true) -> src < end_ -> src < r.1)
    /\ upto r.2 (n + (end_ - start))).
Proof.
  revert start src n buf. induction fuel as [|fuel IH]; intros start src n buf Hi He Hf Hu Hn;
    (eapply safe_bind; [apply safe_look; lia|]; intros digit Hd; simpl in Hd; apply safe_if; intros Hb;
     [eapply safe_bind; [apply (upto_flush _ _ _ _ Hu); lia|]; intros b Hub; simpl; split; [lia|];
      split; [|eapply upto_mono; [exact Hub|lia]]; intros (ch & E & Hch) Hlt;
      rewrite (proj2 Hd ch Hlt E) in Hch; subst; done|]);
    destruct digit; try done; destruct (proj1 Hd eq_refl) as [Hlt _]; [lia|].
  assert (Hgo : forall start' src' m buf, start <= start' <= src' -> src < src' <= end_ -> upto buf m ->
    m + (end_ - start') <= n + (end_ - start) ->
    safe (real_digits fuel input end_ start' src' buf)
    (fun r => src <= r.1 <= end_ /\ ((exists ch, zget input src = Some ch /\ is_digit ch = true) -> src < end_ -> src < r.1)
      /\ upto r.2 (n + (end_ - start)))).
  { intros st src' m b Hst Hs Hm Hle. eapply safe_mono; [apply (IH _ _ m); [lia|lia|lia|done|lia]|]. simpl.
    intros r (? & _ & Hr). split; [lia|]. split; [lia|]. eapply upto_mono; [exact Hr|lia]. }
  cbv zeta. eapply (safe_bind _ _ (fun b => b = true -> src + 1 + 1 < end_)).
  - destruct (Z.ltb_spec (src + 1 + 1) end_); [|done].
    eapply safe_bind; [apply safe_read; lia|]. intros ch _. eapply safe_bind; [apply safe_read; lia|]. intros nx _ _. done.
  - intros sep Hsep. apply safe_if; intros Es; [|by apply (Hgo _ _ n); [lia|lia| |lia]]. specialize (Hsep Es).
    eapply safe_bind; [apply (upto_flush _ _ _ _ Hu); lia|]. intros b Hub. by apply (Hgo _ _ (n + (src + 1 - start))); [lia|lia| |lia].
Qed.

Lemma safe_decimal_point (src : Z) : 0 <= src <= end_ ->
  safe (at_decimal_point input src end_) (fun b => b = true -> src < end_ /\ zget input src = Some "."%code).
Proof.
  intros Hi. unfold at_decimal_point. eapply safe_bind; [apply safe_peek; lia|]. intros dot Hdot.
  destruct dot; [|done]. destruct (Hdot eq_refl) as (Hlt & ch & E & Hch). cbn [negb]. apply Z.eqb_eq in Hch as <-.
  rewrite Z.geb_leb. destruct (Z.leb_spec end_ (src + 1)); [done|].
  eapply safe_bind; [apply safe_read; lia|]. done.
Qed.

(** ** Strings *)

Lemma safe_string_loop (fuel : nat) d (src quoteCount lines : Z) : 0 <= src <= end_ -> end_ - src <= Z.of_nat fuel ->
  safe (string_loop fuel d input end_ src quoteCount lines) (fun r => src <= r.1.1 <= end_).
Proof.
  revert src quoteCount lines. induction fuel as [|fuel IH]; intros src quoteCount lines Hi Hf; simpl; rewrite Z.geb_leb;
    destruct (Z.leb_spec end_ src); try (simpl; lia).
  assert (Hgo : forall src' q n, src < src' <= end_ ->
    safe (string_loop fuel d input end_ src' q n) (fun r => src <= r.1.1 <= end_)).
  { intros src' q n Hs. eapply safe_mono; [apply IH; lia|]. simpl. lia. }
  eapply safe_bind; [apply safe_read; lia|]. intros ch _. apply safe_if; intros _.
  { apply safe_if; intros _; [simpl; lia|]. eapply safe_bind; [apply safe_peek; lia|]. intros pair Hpair.
    apply Hgo. destruct pair; [destruct (Hpair eq_refl)|]; lia. }
  apply safe_if; intros _; [apply safe_if; intros _; [simpl; lia|apply Hgo; lia]|].
  apply safe_if; intros _; apply Hgo; [|lia]. destruct (Z.ltb_spec (src + 1) end_); lia.
Qed.

End Scan.
