(* ===== verification/LexerSafety.v ===== *)
(** * LexerSafety: the lexer on any input

    Whatever the input, the lexer reads inside it, its loops end, and each token
    moves on; the one exception is a name made of exactly four equal signs.
    Hence any input is a finite list of tokens. *)

From Stdlib Require Import String.
From S2P Require Import Prelude IntMath FiniteMap Text TextProps StringBuilder IdentTable StringDict StringDictProps SymbolTable Lexer LexNames LexNumbers LexStrings LexerNext LexerScan.

Section Safety.
Context {D : Type} {Ops : MapOps Str Z D} {Laws : MapLaws Str Z D} {Real : RealParsers}.
Context (zero_is_absent : NULL_value = 0) (large : 2 ^ 30 <= capacity).

#[local] Notation Lexer := (Lexer D).

Section Routines.
Context {W : Prop}.

#[local] Notation safe := (safe_or W).


Definition symbols_ok (l : Lexer) (names : list Str) : Prop :=
  match lx_symbolTable l with None => True | Some table => interned table names end.

(** A lexer that can read; [W] must allow for its wide characters. *)
Record ready (l : Lexer) (names : list Str) : Prop := {
  rd_bytes : Forall is_byte (lx_input l);
  rd_end : 0 <= lx_end l < zlen (lx_input l);
  rd_small : zlen (lx_input l) < 2 ^ 59;
  rd_wide : wide (lx_input l) -> W;
  rd_ring : length (lx_tokenBuffer l) = 16%nat;
  rd_symbols : symbols_ok l names;
  rd_names : zlen names < 2 ^ 30 - 1
}.

(** What reading a token does not change. *)
Record same (l l' : Lexer) : Prop := {
  sm_input : lx_input l' = lx_input l;
  sm_end : lx_end l' = lx_end l;
  sm_ring : length (lx_tokenBuffer l') = length (lx_tokenBuffer l);
  sm_index : lx_tokenIndex l' = lx_tokenIndex l;
  sm_unget : lx_ungetCount l' = lx_ungetCount l;
  sm_others : forall slot, slot <> ring_slot (lx_tokenIndex l) -> lx_tokenBuffer l' !! slot = lx_tokenBuffer l !! slot
}.

Lemma same_refl l : same l l.
Proof. by split. Qed.

Lemma same_trans l1 l2 l3 : same l1 l2 -> same l2 l3 -> same l1 l3.
Proof.
  intros [] [A1 A2 A3 A4 A5 A6]. split; try congruence. intros slot Hs. rewrite A6 by congruence. auto.
Qed.

Lemma ready_same l l' names : ready l names -> same l l' -> symbols_ok l' names -> ready l' names.
Proof. intros [] [] ?. split; congruence || (done || by rewrite sm_input0, ?sm_end0). Qed.

(** The lexer and the kind after a token that ends at [lo] or later. *)
Record parsed (l : Lexer) (names : list Str) (lo : Z) (r : Lexer * TokenKind) : Prop := {
  pd_same : same l r.1;
  pd_src : lo <= lx_src r.1 <= lx_end l + 1;
  pd_symbols : exists more, symbols_ok r.1 (names ++ more) /\ zlen more <= 1 /\ (r.2 = TOKEN_NONE -> more = []);
  pd_kind : r.2 <> TOKEN_NONE -> kind (Lexer_Token r.1) = r.2
}.

Lemma parsed_mono l names lo lo' r : parsed l names lo r -> lo' <= lo -> parsed l names lo' r.
Proof. intros [] ?. split; [done|lia|done|done]. Qed.

Lemma parsed_same l l' names lo r : same l l' -> parsed l' names lo r -> parsed l names lo r.
Proof. intros Hs [Hs' Hr Hm Hk]. split; [by eapply same_trans|by rewrite <- (sm_end _ _ Hs)|done|done]. Qed.

Lemma ring_slot_small i : (ring_slot i < 16)%nat.
Proof.
  unfold ring_slot. change 15 with (Z.ones 4). rewrite Z.land_ones by lia.
  pose proof (Z.mod_pos_bound i (2 ^ 4)). lia.
Qed.

Lemma Token_on_token f (l : Lexer) : length (lx_tokenBuffer l) = 16%nat -> Lexer_Token (on_token f l) = f (Lexer_Token l).
Proof.
  intros H. unfold Lexer_Token, on_token. simpl. rewrite list_lookup_alter_eq.
  pose proof (ring_slot_small (lx_tokenIndex l)).
  destruct (lookup_lt_is_Some_2 (lx_tokenBuffer l) (ring_slot (lx_tokenIndex l)) ltac:(lia)) as [t ->]. done.
Qed.

Lemma same_on_token f l0 l : same l0 l -> same l0 (on_token f l).
Proof.
  intros []. split; simpl; rewrite ?length_alter; try done.
  intros slot Hs. rewrite list_lookup_alter_ne by congruence. auto.
Qed.
Lemma same_set_src src l0 l : same l0 l -> same l0 (set_src src l).
Proof. intros []. split; done. Qed.
Lemma same_set_line line start l0 l : same l0 l -> same l0 (set_line line start l).
Proof. intros []. split; done. Qed.
Lemma same_set_symbols t l0 l : same l0 l -> same l0 (set_symbols t l).
Proof. intros []. split; done. Qed.
Lemma same_START src first l0 l : same l0 l -> same l0 (START_TOKEN src first l).
Proof. intros H. apply (same_on_token (start_token l src first)) in H. by destruct H. Qed.

Hint Resolve same_refl same_on_token same_set_src same_set_line same_set_symbols same_START : smile.

(** A token without a new name. *)
Lemma parsed_end l0 l names lo src k : ready l0 names -> same l0 l -> symbols_ok l names ->
  lo <= src <= lx_end l0 + 1 -> parsed l0 names lo (END_TOKEN src k l).
Proof.
  intros Hr Hs Hm Hsrc. split; unfold END_TOKEN; simpl.
  - auto with smile.
  - done.
  - exists []. rewrite app_nil_r, zlen_nil. split; [exact Hm|]. split; [lia|done].
  - intros _. rewrite Token_on_token; [done|]. simpl. rewrite (sm_ring _ _ Hs). apply Hr.
Qed.

Lemma parsed_error l0 l names lo src message : ready l0 names -> same l0 l -> symbols_ok l names ->
  lo <= src <= lx_end l0 + 1 -> parsed l0 names lo (error_token src message l).
Proof. intros Hr Hs Hm Hsrc. apply parsed_end; auto with smile. Qed.

(** A comment: no token, no name. *)
Lemma parsed_none l0 l names lo : same l0 l -> symbols_ok l names -> lo <= lx_src l <= lx_end l0 + 1 ->
  parsed l0 names lo (l, TOKEN_NONE).
Proof.
  intros Hs Hm Hsrc. split; [done|done| |done]. exists []. rewrite app_nil_r, zlen_nil. split; [done|]. split; [lia|done].
Qed.

(** There may be one more name. *)
Definition one_more (l : Lexer) (names : list Str) : Prop := exists more, symbols_ok l (names ++ more) /\ zlen more <= 1.

Lemma safe_intern l names text : ready l names ->
  safe (intern text l) (fun r => same l r.1 /\ lx_src r.1 = lx_src l
    /\ one_more r.1 names).
Proof.
  intros Hr. pose proof (rd_symbols _ _ Hr) as Hm. unfold intern, one_more, symbols_ok in *.
  destruct (lx_symbolTable l) as [table|] eqn:E.
  - destruct (GetSymbol_interned zero_is_absent large table names text Hm (rd_names _ _ Hr))
      as (table' & symbol & more & -> & Hi & Hz & _). simpl.
    split; [auto with smile|]. split; [done|]. exists more. done.
  - simpl. split; [done|]. split; [done|]. exists []. rewrite zlen_nil, E. done.
Qed.

Lemma parsed_end_more l0 l names lo src k : k <> TOKEN_NONE -> ready l0 names -> same l0 l -> one_more l names ->
  lo <= src <= lx_end l0 + 1 -> parsed l0 names lo (END_TOKEN src k l).
Proof.
  intros Hk Hr Hs (more & Hm & Hz) Hsrc. split; unfold END_TOKEN; simpl; [auto with smile|done|by exists more|].
  intros _. rewrite Token_on_token; [done|]. simpl. rewrite (sm_ring _ _ Hs). apply Hr.
Qed.

Lemma safe_ParseName l names isFirst ch : ready l names -> 0 <= lx_src l < lx_end l ->
  zget (lx_input l) (lx_src l) = Some ch -> starts_name ch = true ->
  safe (Lexer_ParseName l isFirst) (parsed l names (lx_src l + 1)).
Proof.
  intros Hr Hi E Hch. unfold Lexer_ParseName. set (l1 := START_TOKEN _ _ _).
  eapply safe_bind; [eapply (safe_ParseNameRaw (lx_input l1) (lx_end l1)); [apply Hr|apply Hr|apply Hr|exact Hi|exact E|exact Hch]|].
  intros [[src text] escapes] Hs. simpl in Hs. destruct text as [text|].
  - eapply safe_bind; [apply (safe_intern _ names)|].
    { apply (ready_same l); [done|unfold l1; auto with smile|apply Hr]. }
    intros [l2 symbol] (Hsame & Hsrc & Hm). simpl in *. apply parsed_end_more; [done|done| |done|lia].
    apply same_on_token. eapply same_trans; [|exact Hsame]. unfold l1. auto with smile.
  - apply parsed_error; [done|unfold l1; auto with smile|apply Hr|lia].
Qed.

(** Punctuation moves on, but for four equal signs. *)
Definition parsed_punctuation (l : Lexer) (names : list Str) (r : Lexer * TokenKind) : Prop :=
  parsed l names (lx_src l) r /\ (lx_src r.1 = lx_src l -> r.2 <> TOKEN_NONE /\ four_equals (lx_input l) (lx_src l)).

Lemma safe_ParsePunctuation l names isFirst ch : ready l names -> 0 <= lx_src l < lx_end l ->
  zget (lx_input l) (lx_src l) = Some ch -> starts_punctuation ch = true ->
  safe (Lexer_ParsePunctuation l isFirst) (parsed_punctuation l names).
Proof.
  intros Hr Hi E Hch. unfold Lexer_ParsePunctuation. set (l1 := START_TOKEN _ _ _).
  eapply safe_bind.
  { eapply (safe_ParsePunctuationRaw (lx_input l1) (lx_end l1)); [apply Hr|apply Hr|apply Hr|apply Hr|exact Hi|exact E|exact Hch]. }
  intros [[[src text] k] escapes] (Hs & Hfour & Hk). simpl in Hs, Hfour, Hk.
  eapply safe_bind; [apply (safe_intern _ names)|].
  { apply (ready_same l); [done|unfold l1; auto with smile|apply Hr]. }
  intros [l2 symbol] (Hsame & Hsrc & Hm). simpl in *. split; [|by auto].
  apply parsed_end_more; [done|done| |done|lia]. apply same_on_token. eapply same_trans; [|exact Hsame]. unfold l1. auto with smile.
Qed.

Lemma safe_ParseSlash l names isFirst : ready l names -> 1 <= lx_src l <= lx_end l ->
  zget (lx_input l) (lx_src l - 1) = Some "/"%code ->
  safe (Lexer_ParseSlash l isFirst) (parsed l names (lx_src l)).
Proof.
  intros Hr Hi E. unfold Lexer_ParseSlash. cbv zeta.
  eapply safe_bind; [apply (safe_read _ _ (rd_bytes _ _ Hr) (rd_end _ _ Hr)); lia|]. intros ch _.
  apply safe_if; intros _; [|apply safe_if; intros _].
  - eapply safe_bind; [apply (safe_scan _ _ (rd_bytes _ _ Hr) (rd_end _ _ Hr)); lia|]. intros src Hs. simpl in *.
    apply parsed_none; [auto with smile|apply Hr|simpl; lia].
  - eapply safe_bind; [apply (safe_comment_loop _ _ (rd_bytes _ _ Hr) (rd_end _ _ Hr)); lia|].
    intros [[src|] lines] Hs; simpl in Hs.
    + specialize (Hs src eq_refl). apply parsed_none; [auto with smile|apply Hr|simpl; lia].
    + apply parsed_error; [done|auto with smile|apply Hr|simpl; lia].
  - replace (lx_src l + 1 - 2) with (lx_src l - 1) by lia.
    eapply safe_mono; [eapply (safe_ParsePunctuation (set_src (lx_src l - 1) l) names);
      [by apply (ready_same l); [|auto with smile|apply Hr]|simpl; lia|exact E|done]|].
    intros r [Hp Hfour]. simpl in Hfour. apply (parsed_same l) in Hp; [|auto with smile].
    destruct Hp as [H1 H2 H3 H4]. split; [done| |done|done].
    destruct (decide (lx_src r.1 = lx_src l - 1)) as [Heq|]; [|simpl in H2; lia].
    destruct (Hfour Heq) as [_ H]. specialize (H 0 ltac:(lia)). by rewrite Z.add_0_r, E in H.
Qed.

Lemma safe_ParseHyphenOrEquals l names ch isFirst ws : ready l names -> 0 <= lx_src l < lx_end l ->
  zget (lx_input l) (lx_src l) = Some ch -> is_punctuation ch = true ->
  safe (Lexer_ParseHyphenOrEquals l ch isFirst ws) (parsed_punctuation l names).
Proof.
  intros Hr Hi E Hch. unfold Lexer_ParseHyphenOrEquals.
  eapply safe_bind; [apply (safe_scan _ _ (rd_bytes _ _ Hr) (rd_end _ _ Hr)); lia|]. intros src Hs. cbv zeta. simpl in Hs.
  rewrite Z.geb_leb. apply safe_if; intros Hc; zbool.
  - split; [apply parsed_none; [auto with smile|apply Hr|simpl; lia]|simpl; lia].
  - eapply safe_bind; [eapply (safe_ParsePunctuation l names); [done|done|exact E|]|].
    { unfold starts_punctuation. rewrite Hch. by rewrite orb_true_r. }
    intros [l' k] [[H1 H2 H3 H4] Hfour]. simpl in *. apply safe_if; intros _; [|by split].
    split; [|intros Heq; split; [done|by apply Hfour]]. split; simpl; [auto with smile|done| |].
    + destruct H3 as (more & Hm & Hz & _). exists more. done.
    + intros _. rewrite Token_on_token; [done|]. rewrite (sm_ring _ _ H1). apply Hr.
Qed.

Lemma parsed_named_loanword l0 l names lo : ready l0 names -> same l0 l ->
  one_more l names -> lo <= lx_src l <= lx_end l0 + 1 ->
  parsed l0 names lo (named_loanword l).
Proof.
  intros Hr Hs Hm Hsrc. unfold named_loanword, error_token.
  repeat case_decide; apply parsed_end_more; auto with smile.
Qed.

Lemma safe_ParseLoanword l names isFirst : ready l names -> 0 <= lx_src l < lx_end l ->
  safe (Lexer_ParseLoanword l isFirst) (parsed l names (lx_src l + 1)).
Proof.
  intros Hr Hi. unfold Lexer_ParseLoanword. set (l1 := START_TOKEN _ _ _). cbv zeta.
  assert (H1 : same l l1) by (unfold l1; auto with smile). assert (Hr1 : ready l1 names) by (by apply (ready_same l); [..|apply Hr]).
  change (lx_end l1) with (lx_end l). change (lx_input l1) with (lx_input l).
  rewrite Z.geb_leb. apply safe_if; intros Hc; zbool; [apply parsed_error; [done|done|apply Hr|lia]|].
  eapply safe_bind; [apply (safe_read _ _ (rd_bytes _ _ Hr) (rd_end _ _ Hr)); lia|]. intros ch [E Hch].
  apply safe_if; intros _; [apply parsed_end; [done|auto with smile|apply Hr|lia]|].
  apply safe_if; intros _.
  { eapply safe_bind; [apply (safe_scan _ _ (rd_bytes _ _ Hr) (rd_end _ _ Hr)); lia|]. intros src Hs. simpl in Hs.
    apply parsed_none; [auto with smile|apply Hr|simpl; lia]. }
  apply safe_if; intros _; [apply parsed_error; [done|done|apply Hr|lia]|].
  apply safe_if; intros Hl; [|apply parsed_error; [done|done|apply Hr|lia]].
  replace (lx_src l + 1 + 1 - 1) with (lx_src l + 1) by lia.
  eapply safe_bind; [eapply (safe_ParseName (set_src (lx_src l + 1) l1) names);
    [by apply (ready_same l1); [|auto with smile|apply Hr]|simpl; lia|exact E|]|].
  { unfold starts_name, is_name_extra. destruct (is_letter ch), (ch =? "_"%code), (ch =? "$"%code); simpl in *; rewrite ?orb_true_r; done. }
  intros [l2 k] Hp. apply (parsed_same l) in Hp; [|auto with smile]. simpl in Hp.
  destruct (decide (k = TOKEN_ERROR)) as [->|]; [eapply parsed_mono; [exact Hp|lia]|].
  destruct Hp as [H2 Hsrc (more & Hm & Hz & _) _]. simpl in *.
  eapply safe_bind; [rewrite (sm_input _ _ H2), (sm_end _ _ H2); apply (safe_peek _ _ (rd_bytes _ _ Hr) (rd_end _ _ Hr)); lia|].
  intros b _. apply safe_if; intros _; [|apply parsed_named_loanword; [done|done|by exists more|lia]].
  apply parsed_end_more; [done|done|auto with smile|by exists more|lia].
Qed.

(** ** Numbers *)

Lemma safe_EnsureEnd l names lo : ready l names -> 0 <= lx_src l <= lx_end l + 1 -> lo <= lx_src l ->
  safe (EnsureEndOfNumber l) (fun r => same l r.1 /\ lx_symbolTable r.1 = lx_symbolTable l
    /\ lo <= lx_src r.1 <= lx_end l + 1 /\ (r.2 = false -> lx_src r.1 <= lx_end l)).
Proof.
  intros Hr Hi Hlo. unfold EnsureEndOfNumber. cbv zeta.
  destruct (Z.ltb_spec (lx_src l) (lx_end l)); [|simpl; auto with smile lia].
  eapply safe_bind; [apply (safe_read _ _ (rd_bytes _ _ Hr) (rd_end _ _ Hr)); lia|]. intros ch _.
  eapply (safe_bind _ _ (fun r => lx_src l < r.2 <= lx_end l)).
  { apply safe_if; intros _; [simpl; lia|].
    eapply safe_mono; [apply (safe_extract _ _ (rd_bytes _ _ Hr) (rd_end _ _ Hr)); lia|]. simpl. lia. }
  intros [code src] Hs. simpl in Hs. apply safe_if; intros _; [simpl; auto with smile lia|].
  eapply safe_bind; [apply safe_kind|]. intros k _. apply safe_if; intros _; simpl; auto with smile lia.
Qed.

Lemma parsed_as_kind l0 l names lo k : ready l0 names -> same l0 l -> symbols_ok l names ->
  lo <= lx_src l <= lx_end l0 + 1 -> parsed l0 names lo (as_kind k l).
Proof.
  intros Hr Hs Hm Hsrc. split; unfold as_kind; simpl; [auto with smile|done| |].
  - exists []. rewrite app_nil_r, zlen_nil. split; [exact Hm|]. split; [lia|done].
  - intros _. rewrite Token_on_token; [done|]. rewrite (sm_ring _ _ Hs). apply Hr.
Qed.

Lemma parsed_integer l0 l names lo value text suffix : ready l0 names -> same l0 l -> symbols_ok l names ->
  lo <= lx_src l <= lx_end l0 + 1 -> parsed l0 names lo (ProcessIntegerValue l value text suffix).
Proof.
  intros Hr Hs Hm Hsrc. assert (H : forall f k, parsed l0 names lo (as_kind k (on_token f l))).
  { intros f k. apply parsed_as_kind; auto with smile. }
  unfold ProcessIntegerValue, sized_value. repeat case_match; apply H.
Qed.

Lemma parsed_real l0 l names lo src digits suffix : ready l0 names -> same l0 l -> symbols_ok l names ->
  lo <= src <= lx_end l0 + 1 -> parsed l0 names lo (real_by_suffix src digits suffix l).
Proof.
  intros Hr Hs Hm Hsrc. assert (H : forall f k, parsed l0 names lo (END_TOKEN src k (on_token f l))).
  { intros f k. apply parsed_end; auto with smile. }
  unfold real_by_suffix, real_token, error_token. repeat case_match; apply H.
Qed.

Lemma safe_ParseReal l names isFirst : ready l names -> 0 <= lx_src l < lx_end l ->
  (exists ch, zget (lx_input l) (lx_src l) = Some ch /\ (is_digit ch = true \/ ch = "."%code)) ->
  safe (Lexer_ParseReal l isFirst) (parsed l names (lx_src l + 1)).
Proof.
  intros Hr Hi (ch & E & Hch). unfold Lexer_ParseReal. cbv zeta.
  pose proof (rd_bytes _ _ Hr) as Hbytes. pose proof (rd_end _ _ Hr) as Hend.
  pose proof (rd_small _ _ Hr) as Hsmall.
  eapply safe_bind; [by apply safe_INIT_upto|]. intros buf Hb.
  eapply safe_bind; [apply (safe_real_digits _ _ Hbytes Hend _ _ _ 0); [lia|lia|lia|done|lia]|].
  intros [src buf'] (Hs & Hfirst & Hb'). simpl in Hs, Hfirst, Hb'.
  eapply safe_bind; [apply (safe_look _ _ Hbytes Hend); lia|]. intros dot [Hdot Hdot'].
  eapply (safe_bind _ _ (fun r => lx_src l < r.1 <= lx_end l /\ upto r.2 (2 ^ 61))).
  { destruct dot; [destruct (Hdot eq_refl) as [Hlt _]|].
    - eapply safe_bind; [apply (upto_byte _ _ _ Hb'); lia|]. intros b Hb2.
      eapply safe_mono; [eapply (safe_real_digits _ _ Hbytes Hend); [lia|lia|lia|exact Hb2|lia]|].
      simpl. intros r (? & _ & Hu). split; [lia|]. eapply upto_mono; [exact Hu|lia].
    - simpl. split; [|eapply upto_mono; [exact Hb'|lia]]. split; [|lia]. destruct Hch as [Hch| ->]; [apply Hfirst; [by eauto|lia]|].
      destruct (decide (src = lx_src l)) as [->|]; [|lia]. specialize (Hdot' _ ltac:(lia) E). done. }
  intros [src2 buf2] [Hs2 Hb2]. simpl in Hs2, Hb2.
  eapply safe_bind; [by apply (upto_byte _ _ _ Hb2)|]. intros buf3 Hb3.
  eapply safe_bind; [apply (upto_text _ _ Hb3)|]. intros text _.
  eapply safe_bind; [apply (safe_suffix _ _ Hbytes Hend Hsmall); lia|]. intros [src3 suffix] Hs3. simpl in Hs3.
  eapply safe_bind; [apply (safe_EnsureEnd _ names (lx_src l + 1)); [|simpl; lia|simpl; lia]|].
  { apply (ready_same l); [done|auto with smile|apply Hr]. }
  intros [l' clean] (Hsame & Hsym & Hsrc & _). simpl in *.
  assert (Hs' : same l l') by (eapply same_trans; [|exact Hsame]; auto with smile).
  assert (Hm : symbols_ok l' names) by (unfold symbols_ok; rewrite Hsym; apply Hr).
  destruct clean; [apply parsed_real|apply parsed_error]; done || lia.
Qed.

Lemma safe_finish_integer l0 l names lo start src value complain : ready l0 names -> same l0 l ->
  lx_symbolTable l = lx_symbolTable l0 -> 0 <= lo <= src -> src <= lx_end l0 ->
  (complain = Done \/ complain = complain_suffix) ->
  safe (finish_integer l start src value complain) (parsed l0 names lo).
Proof.
  intros Hr Hs Hsym Hlo Hsrc Hcomplain. unfold finish_integer. cbv zeta.
  assert (Hrl : ready l names) by (apply (ready_same l0); [done|done|unfold symbols_ok; rewrite Hsym; apply Hr]).
  pose proof (sm_end _ _ Hs) as He.
  eapply safe_bind; [apply (safe_suffix _ _ (rd_bytes _ _ Hrl) (rd_end _ _ Hrl) (rd_small _ _ Hrl)); lia|]. intros [src' suffix] Hs'. simpl in Hs'.
  eapply safe_bind; [apply (safe_EnsureEnd _ names src'); [|simpl; lia|simpl; lia]|].
  { apply (ready_same l); [done|auto with smile|apply Hrl]. }
  intros [l1 clean] (Hsame & Hsym1 & Hsrc1 & Hc). simpl in *.
  assert (H1 : same l0 l1). { eapply same_trans; [exact Hs|]. eapply same_trans; [|exact Hsame]. auto with smile. }
  assert (Hm1 : symbols_ok l1 names) by (unfold symbols_ok; rewrite Hsym1, Hsym; apply Hr).
  destruct clean.
  - simpl. apply parsed_integer; [done|auto with smile|done|simpl; lia].
  - specialize (Hc eq_refl). eapply (safe_bind _ _ (fun l2 => same l0 l2 /\ symbols_ok l2 names)).
    + destruct Hcomplain as [-> | ->]; [done|]. unfold complain_suffix.
      eapply safe_bind; [rewrite (sm_input _ _ H1); apply (safe_read _ _ (rd_bytes _ _ Hr) (rd_end _ _ Hr)); lia|].
      intros ch _. simpl. split; [auto with smile|done].
    + intros l2 [H2 Hm2]. simpl. apply parsed_end; [done|done|done|lia].
Qed.

Lemma safe_integer_or_real l0 l names start isFirst parsed_digits illegal complain : ready l0 names -> same l0 l ->
  lx_symbolTable l = lx_symbolTable l0 -> 0 <= start < lx_end l0 ->
  (exists ch, zget (lx_input l0) start = Some ch /\ is_digit ch = true) ->
  read_within (lx_end l0) (start + 1) parsed_digits -> (complain = Done \/ complain = complain_suffix) ->
  safe (integer_or_real l isFirst start parsed_digits illegal complain) (parsed l0 names (start + 1)).
Proof.
  intros Hr Hs Hsym Hi Hch Hd Hcomplain. unfold integer_or_real.
  destruct parsed_digits as [[src value] ok]. unfold read_within in Hd. simpl in Hd.
  pose proof (sm_end _ _ Hs) as He. pose proof (sm_input _ _ Hs) as Hin.
  assert (Hm : symbols_ok l names) by (unfold symbols_ok; rewrite Hsym; apply Hr).
  eapply safe_bind; [simpl; rewrite He, Hin; apply (safe_decimal_point _ _ (rd_bytes _ _ Hr) (rd_end _ _ Hr)); lia|].
  intros dot _. apply safe_if; intros _; [|apply safe_if; intros _].
  - apply parsed_error; [done|auto with smile|done|lia].
  - eapply safe_mono; [apply (safe_ParseReal _ names); [|simpl; lia|simpl; rewrite Hin; destruct Hch as (ch & E & Hch); eauto]|].
    { apply (ready_same l0); [done|auto with smile|done]. }
    intros r Hp. eapply parsed_same; [|exact Hp]. auto with smile.
  - apply safe_finish_integer; [done|auto with smile|done|lia|lia|done].
Qed.

Lemma safe_ParseDigit l names isFirst ch : ready l names -> 1 <= lx_src l <= lx_end l ->
  zget (lx_input l) (lx_src l - 1) = Some ch -> is_digit ch = true ->
  safe (Lexer_ParseDigit l isFirst) (parsed l names (lx_src l)).
Proof.
  intros Hr Hi E Hch. unfold Lexer_ParseDigit. cbv zeta.
  eapply safe_bind; [simpl; eapply (safe_Decimal _ _ (rd_bytes _ _ Hr) (rd_end _ _ Hr)); [lia|exact E|done]|].
  intros digits Hd. simpl in Hd. eapply safe_mono; [apply (safe_integer_or_real l _ names); [done|auto with smile|done|lia|eauto|exact Hd|by left]|].
  intros r. by replace (lx_src l - 1 + 1) with (lx_src l) by lia.
Qed.

Lemma safe_ParseZero l names isFirst : ready l names -> 1 <= lx_src l <= lx_end l ->
  zget (lx_input l) (lx_src l - 1) = Some "0"%code ->
  safe (Lexer_ParseZero l isFirst) (parsed l names (lx_src l)).
Proof.
  intros Hr Hi E. unfold Lexer_ParseZero. cbv zeta.
  pose proof (rd_bytes _ _ Hr) as Hbytes. pose proof (rd_end _ _ Hr) as Hend.
  assert (Hs1 : same l (START_TOKEN (lx_src l - 1) isFirst l)) by auto with smile.
  eapply safe_bind; [apply (safe_peek _ _ Hbytes Hend); lia|]. intros x Hx. destruct x; [destruct (Hx eq_refl) as [Hlt _]|].
  - eapply safe_bind; [apply (safe_peek _ _ Hbytes Hend); lia|]. intros hex Hhex. destruct hex; cbn [negb].
    + eapply safe_bind; [apply (safe_Hexadecimal _ _ Hbytes Hend); lia|]. intros [[src value] ok] Hd.
      unfold read_within in Hd. simpl in Hd. destruct ok; [|simpl; apply parsed_error; [done|auto with smile|apply Hr|simpl; lia]].
      apply safe_finish_integer; [done|done|done|lia|lia|by right].
    + eapply safe_bind; [apply (safe_read _ _ Hbytes Hend); destruct (Z.ltb_spec (lx_src l + 1) (lx_end l)); lia|].
      intros ch _. unfold zero_byte. eapply safe_bind; [apply (safe_EnsureEnd _ names (lx_src l)); [|simpl; lia|simpl; lia]|].
      { apply (ready_same l); [done|auto with smile|apply Hr]. }
      intros [l1 clean] (Hsame & Hsym & Hsrc & _). simpl in *.
      assert (H1 : same l l1) by (eapply same_trans; [|exact Hsame]; auto with smile).
      assert (Hm1 : symbols_ok l1 names) by (unfold symbols_ok; rewrite Hsym; apply Hr).
      destruct clean; simpl; [apply parsed_integer; [done|auto with smile|done|simpl; lia]|].
      apply parsed_error; [done|done|done|lia].
  - eapply safe_bind; [eapply (safe_Octal_zero _ _ Hbytes Hend); [lia|exact E]|].
    intros digits Hd. simpl in Hd.
    eapply safe_mono; [apply (safe_integer_or_real l _ names); [done|done|done|lia|eauto|exact Hd|by right]|].
    intros r. by replace (lx_src l - 1 + 1) with (lx_src l) by lia.
Qed.

Lemma parsed_simple l names lo startPtr src k isFirst : ready l names -> lo <= src <= lx_end l + 1 ->
  parsed l names lo (SIMPLE_TOKEN startPtr src k isFirst l).
Proof. intros Hr Hsrc. apply parsed_end; [done|auto with smile|apply Hr|done]. Qed.

Lemma safe_ParseDot l names isFirst : ready l names -> 1 <= lx_src l <= lx_end l ->
  zget (lx_input l) (lx_src l - 1) = Some "."%code ->
  safe (Lexer_ParseDot l isFirst) (parsed l names (lx_src l)).
Proof.
  intros Hr Hi E. unfold Lexer_ParseDot. cbv zeta.
  pose proof (rd_bytes _ _ Hr) as Hbytes. pose proof (rd_end _ _ Hr) as Hend.
  rewrite Z.geb_leb. apply safe_if; intros Hc; zbool; [apply parsed_simple; [done|lia]|].
  eapply safe_bind; [apply (safe_read _ _ Hbytes Hend); lia|]. intros ch _. apply safe_if; intros _.
  { eapply safe_bind; [apply (safe_peek _ _ Hbytes Hend); lia|]. intros b Hb. simpl.
    destruct b; [destruct (Hb eq_refl)|]; apply parsed_simple; done || lia. }
  apply safe_if; intros _; [|apply parsed_simple; [done|lia]].
  eapply safe_mono; [apply (safe_ParseReal _ names); [|simpl; lia|simpl; eauto]|].
  { apply (ready_same l); [done|auto with smile|apply Hr]. }
  intros r Hp. eapply parsed_same; [|eapply parsed_mono; [exact Hp|simpl; lia]]. auto with smile.
Qed.

(** ** Strings *)

Lemma safe_string_body l0 l names d src message k : ready l0 names -> same l0 l ->
  lx_symbolTable l = lx_symbolTable l0 -> 0 <= src <= lx_end l0 ->
  safe (string_body l d src message k) (parsed l0 names src).
Proof.
  intros Hr Hs Hsym Hi. unfold string_body. cbv zeta. rewrite (sm_input _ _ Hs), (sm_end _ _ Hs).
  assert (Hm : symbols_ok l names) by (unfold symbols_ok; rewrite Hsym; apply Hr).
  eapply safe_bind; [by apply safe_INIT|]. intros buf Hb.
  eapply safe_bind; [apply (safe_string_loop _ _ (rd_bytes _ _ Hr) (rd_end _ _ Hr)); lia|].
  intros [[src' lines] closed] Hsrc. simpl in Hsrc. destruct closed; [|apply parsed_error; [done|auto with smile|done|lia]].
  pose proof (rd_small _ _ Hr). pose proof (rd_end _ _ Hr).
  eapply (safe_bind _ _ (fun b => upto b (2 ^ 61))).
  { apply safe_if; intros Hlen; [|by exists []]. zbool. unfold StringBuilder_Append.
    destruct (Z.leb_spec (src' - src - d_count d) 0); [lia|]. apply safe_build.
    set (piece := substring _ _ _).
    assert (Hp : zlen piece <= zlen (lx_input l0)).
    { rewrite <- (sm_input _ _ Hs). unfold piece, substring, zlen. rewrite length_take, !length_drop. simpl. lia. }
    destruct (append_terminated_holds buf [] piece Hb) as (b & Eb & Hb2); [|rewrite zlen_nil; lia|].
    - intros Ep. apply (f_equal length) in Ep. revert Ep. unfold piece, substring. simpl.
      rewrite length_take, !length_drop, (sm_input _ _ Hs). unfold zlen in *. simpl. lia.
    - exists b. split; [exact Eb|]. exists piece. split; [done|]. simpl. lia. }
  intros buf' Hb'. eapply safe_bind; [apply (upto_text _ _ Hb')|]. intros text _. simpl. apply parsed_end; [done|auto with smile|done|lia].
Qed.

Lemma safe_ParseDynamicString l names isFirst : ready l names -> 1 <= lx_src l <= lx_end l ->
  safe (Lexer_ParseDynamicString l isFirst) (parsed l names (lx_src l)).
Proof.
  intros Hr Hi. unfold Lexer_ParseDynamicString. cbv zeta.
  eapply safe_bind; [apply (safe_scan _ _ (rd_bytes _ _ Hr) (rd_end _ _ Hr)); lia|]. intros src Hs. simpl in Hs.
  apply safe_if; intros _; [apply parsed_end; [done|auto with smile|apply Hr|lia]|].
  eapply safe_mono; [apply (safe_string_body l); [done|auto with smile|done|lia]|].
  intros r Hp. eapply parsed_mono; [exact Hp|lia].
Qed.

Lemma safe_ParseChar l names isFirst : ready l names -> 1 <= lx_src l <= lx_end l ->
  safe (Lexer_ParseChar l isFirst) (parsed l names (lx_src l)).
Proof.
  intros Hr Hi. unfold Lexer_ParseChar. cbv zeta. set (l1 := START_TOKEN _ _ _).
  pose proof (rd_bytes _ _ Hr) as Hbytes. pose proof (rd_end _ _ Hr) as Hend.
  assert (Hs1 : same l l1) by (unfold l1; auto with smile).
  assert (Herr : forall src m, lx_src l <= src <= lx_end l + 1 -> parsed l names (lx_src l) (error_token src m l1)).
  { intros src m Hs. apply parsed_error; [done|done|apply Hr|done]. }
  rewrite Z.geb_leb. apply safe_if; intros Hc; zbool; [apply Herr; lia|].
  eapply safe_bind; [apply (safe_read _ _ Hbytes Hend); lia|]. intros ch _. apply safe_if; intros _; [apply Herr; lia|].
  eapply (safe_bind _ _ (fun r => lx_src l <= r.1.1 <= lx_end l + 1)).
  { apply safe_if; intros _; [|apply safe_if; intros _; [|simpl; lia]].
    - eapply safe_bind; [apply (safe_peek _ _ Hbytes Hend); lia|]. intros uni _.
      eapply safe_bind; [apply (safe_escape _ _ Hbytes Hend); lia|]. intros [src value] [Hs _]. simpl in *. lia.
    - eapply safe_bind; [apply (safe_extract _ _ Hbytes Hend); lia|]. intros [value src] [Hs _]. simpl in *. lia. }
  intros [[src value] uni] Hs. simpl in Hs.
  eapply safe_bind; [apply (safe_peek _ _ Hbytes Hend); lia|]. intros closed Hclosed.
  apply safe_if; intros Hb; [apply Herr; lia|]. zbool. destruct closed; [|done]. destruct (Hclosed eq_refl) as [Hlt _].
  destruct uni; apply parsed_end; solve [done|auto with smile|apply Hr|lia].
Qed.

Lemma safe_ParseRawString l names isFirst : ready l names -> 1 <= lx_src l <= lx_end l ->
  safe (Lexer_ParseRawString l isFirst) (parsed l names (lx_src l)).
Proof.
  intros Hr Hi. unfold Lexer_ParseRawString. cbv zeta.
  eapply safe_bind; [apply (safe_scan _ _ (rd_bytes _ _ Hr) (rd_end _ _ Hr)); lia|]. intros src Hs. simpl in Hs.
  set (l1 := START_TOKEN _ _ _). assert (Hs1 : same l l1) by (unfold l1; auto with smile). apply safe_if; intros _.
  - eapply safe_mono; [apply (safe_ParseChar l1 names); [apply (ready_same l); [done|done|apply Hr]|simpl; lia]|].
    intros r Hp. by eapply parsed_same.
  - eapply safe_mono; [apply (safe_string_body l); [done|done|done|lia]|].
    intros r Hp. eapply parsed_mono; [exact Hp|lia].
Qed.

(** ** A round, and a token *)

(** A round of the loop from [start] on. *)
Definition round_ok (l : Lexer) (names : list Str) (start : Z) (r : Round) : Prop :=
  match r with
  | Token_read l' k => parsed l names start (l', k) /\ (lx_src l' = start -> four_equals (lx_input l) start)
  | Retry l' src _ => same l l' /\ symbols_ok l' names /\ start < src <= lx_end l + 1
  end.

Lemma token_ok l l1 names start o : same l l1 -> safe o (parsed l1 names (start + 1)) -> safe (token o) (round_ok l names start).
Proof.
  intros Hs Ho. unfold token. eapply safe_bind; [exact Ho|]. intros [l' k] Hp. simpl.
  apply (parsed_same l) in Hp; [|done]. pose proof (pd_src _ _ _ _ Hp) as Hsrc. simpl in Hsrc.
  split; [eapply parsed_mono; [exact Hp|lia]|lia].
Qed.

Lemma token_or_comment_ok l l1 names start o : same l l1 -> safe o (parsed l1 names (start + 1)) ->
  safe (token_or_comment o) (round_ok l names start).
Proof.
  intros Hs Ho. unfold token_or_comment. eapply safe_bind; [exact Ho|]. intros [l' k] Hp.
  apply (parsed_same l) in Hp; [|done]. pose proof Hp as [H1 Hsrc (more & Hm & _ & Hnone) _]. simpl in *.
  destruct (decide (k = TOKEN_NONE)) as [->|]; simpl.
  - rewrite (Hnone eq_refl), app_nil_r in Hm. split; [done|]. split; [done|lia].
  - split; [eapply parsed_mono; [exact Hp|lia]|lia].
Qed.

Lemma punctuation_ok l l1 names o : same l l1 -> safe o (parsed_punctuation l1 names) ->
  safe (token_or_comment o) (round_ok l names (lx_src l1)) /\ safe (token o) (round_ok l names (lx_src l1)).
Proof.
  intros Hs Ho. destruct o as [[l' k]|why]; [|done]. destruct Ho as [Hp Hfour]. simpl in *.
  apply (parsed_same l) in Hp; [|done]. rewrite (sm_input _ _ Hs) in Hfour.
  assert (Hok : round_ok l names (lx_src l1) (Token_read l' k)) by (split; [done|]; intros E; by apply Hfour).
  split; [|exact Hok]. destruct (decide (k = TOKEN_NONE)) as [->|]; [|exact Hok].
  destruct Hp as [H1 Hsrc (more & Hm & _ & Hnone) _]. simpl in *. rewrite (Hnone eq_refl), app_nil_r in Hm.
  split; [done|]. split; [done|]. split; [|lia].
  destruct (decide (lx_src l' = lx_src l1)) as [E|]; [|lia]. by destruct (Hfour E).
Qed.

(** At a character, the lexer [l] with its index moved. *)
Lemma ready_at l names src : ready l names -> ready (set_src src l) names.
Proof. intros Hr. apply (ready_same l); [done|auto with smile|apply Hr]. Qed.

Lemma safe_unicode_round l names start isFirst ch : ready l names -> 0 <= start < lx_end l ->
  zget (lx_input l) start = Some ch -> 127 <= ch ->
  safe (unicode_round l start isFirst) (round_ok l names start).
Proof.
  intros Hr Hi E Hch. unfold unicode_round. destruct (decide (ch = 127)) as [->|].
  { unfold String_ExtractUnicodeCharacterInternal. rewrite E. simpl.
    split; [apply parsed_error; [done|auto with smile|apply Hr|lia]|simpl; lia]. }
  assert (Hs : same l (set_src start l)) by auto with smile. pose proof (ready_at l names start Hr) as Hr'.
  eapply safe_bind; [apply (safe_extract _ _ (rd_bytes _ _ Hr) (rd_end _ _ Hr)); lia|]. intros [code src] [Hsrc _]. simpl in Hsrc.
  apply safe_if; intros _; [simpl; split; [done|]; split; [apply Hr|lia]|].
  assert (H128 : (128 <=? ch) = true) by lia.
  eapply safe_bind; [apply safe_kind|]. intros k _. apply safe_if; intros _; [|apply safe_if; intros _].
  - apply (token_ok l (set_src start l)); [done|]. eapply (safe_ParseName (set_src start l) names); [done|simpl; lia|exact E|].
    unfold starts_name. by rewrite H128, orb_true_r.
  - apply (punctuation_ok l (set_src start l)); [done|]. eapply (safe_ParsePunctuation (set_src start l) names); [done|simpl; lia|exact E|].
    unfold starts_punctuation. by rewrite H128, orb_true_r.
  - simpl. split; [apply parsed_error; [done|auto with smile|apply Hr|lia]|simpl; lia].
Qed.

(** The bytes that no other case takes. *)
Lemma rest_bytes ch : 0 <= ch < 256 -> is_blank ch = false -> (ch =? 10) || (ch =? 13) = false ->
  (ch =? "/"%code) = false -> (ch =? "-"%code) || (ch =? "="%code) = false -> is_operator ch = false ->
  (ch =? "."%code) = false -> single_token ch = None -> (ch =? "0"%code) = false -> is_digit ch = false ->
  is_letter ch || (ch =? "_"%code) || (ch =? "$"%code) || (ch =? "\"%code) = false -> (ch =? QUOTE) = false ->
  (ch =? "'"%code) = false -> (ch =? "#"%code) = false -> 127 <= ch.
Proof.
  intros Hch H1 H2 H3 H4 H5 H6 H7 H8 H9 H10 H11 H12 H13.
  pose proof (byte_case (fun ch => is_blank ch || ((ch =? 10) || (ch =? 13)) || (ch =? "/"%code)
    || ((ch =? "-"%code) || (ch =? "="%code)) || is_operator ch || (ch =? "."%code)
    || bool_decide (is_Some (single_token ch)) || (ch =? "0"%code) || is_digit ch
    || (is_letter ch || (ch =? "_"%code) || (ch =? "$"%code) || (ch =? "\"%code)) || (ch =? QUOTE)
    || (ch =? "'"%code) || (ch =? "#"%code) || (127 <=? ch)) ch ltac:(by vm_compute) Hch) as H.
  cbv beta in H. rewrite H1, H2, H3, H4, H5, H6, H7, H8, H9, H10, H11, H12, H13 in H. simpl in H. lia.
Qed.

Lemma safe_next_round l names start isFirst ws : ready l names -> 0 <= start < lx_end l ->
  safe (next_round l start isFirst ws) (round_ok l names start).
Proof.
  intros Hr Hi. unfold next_round. cbv zeta.
  pose proof (rd_bytes _ _ Hr) as Hbytes. pose proof (rd_end _ _ Hr) as Hend.
  eapply safe_bind; [apply (safe_read _ _ Hbytes Hend); lia|]. intros ch [E Hch].
  assert (Hs : forall src, same l (set_src src l)) by auto with smile. pose proof (fun src => ready_at l names src Hr) as Hat.
  assert (E1 : zget (lx_input l) (start + 1 - 1) = Some ch) by (by replace (start + 1 - 1) with start by lia).
  assert (Hretry : forall l' src nl, same l l' -> lx_symbolTable l' = lx_symbolTable l -> start < src <= lx_end l ->
    round_ok l names start (Retry l' src nl)).
  { intros l' src nl Hs' Hsym Hsrc. split; [done|]. split; [unfold symbols_ok; rewrite Hsym; apply Hr|lia]. }
  apply safe_if; intros Hblank.
  { eapply safe_bind; [apply (safe_scan _ _ Hbytes Hend); lia|]. intros src Hsrc. simpl in Hsrc. apply Hretry; [done|done|lia]. }
  apply safe_if; intros Hnl.
  { eapply safe_bind; [apply (safe_peek _ _ Hbytes Hend); lia|]. intros pair Hpair. apply Hretry; [auto with smile|done|].
    destruct pair; [destruct (Hpair eq_refl)|]; lia. }
  apply safe_if; intros E2; [apply Z.eqb_eq in E2 as ->|].
  { eapply token_or_comment_ok; [apply Hs|]. apply (safe_ParseSlash (set_src (start + 1) l) names); [done|simpl; lia|exact E1]. }
  apply safe_if; intros E3.
  { eapply (punctuation_ok l (set_src start l)); [apply Hs|].
    apply (safe_ParseHyphenOrEquals (set_src start l) names); [done|simpl; lia|exact E|].
    unfold is_punctuation. destruct (ch =? "-"%code), (ch =? "="%code); rewrite ?orb_true_r; done. }
  apply safe_if; intros E4.
  { eapply (punctuation_ok l (set_src start l)); [apply Hs|].
    eapply (safe_ParsePunctuation (set_src start l) names); [done|simpl; lia|exact E|]. unfold starts_punctuation.
    replace (is_punctuation ch) with true; [by rewrite orb_true_r|]. symmetry. unfold is_operator, is_punctuation in *.
    repeat (apply orb_prop in E4 as [E4|E4]); rewrite E4, ?orb_true_r; done. }
  apply safe_if; intros E5; [apply Z.eqb_eq in E5 as ->; eapply token_ok; [apply Hs|]; apply (safe_ParseDot (set_src (start + 1) l) names); [done|simpl; lia|exact E1]|].
  destruct (single_token ch) eqn:Esingle; [simpl; split; [apply parsed_simple; [done|lia]|simpl; lia]|].
  apply safe_if; intros E6; [apply Z.eqb_eq in E6 as ->; eapply token_ok; [apply Hs|]; apply (safe_ParseZero (set_src (start + 1) l) names); [done|simpl; lia|exact E1]|].
  apply safe_if; intros E7; [eapply token_ok; [apply Hs|]; eapply (safe_ParseDigit (set_src (start + 1) l) names); [done|simpl; lia|exact E1|done]|].
  apply safe_if; intros E8.
  { apply (token_ok l (set_src start l)); [apply Hs|]. eapply (safe_ParseName (set_src start l) names); [done|simpl; lia|exact E|].
    unfold starts_name, is_name_extra. destruct (is_letter ch), (ch =? "_"%code), (ch =? "$"%code), (ch =? "\"%code); rewrite ?orb_true_r; done. }
  apply safe_if; intros E9; [eapply token_ok; [apply Hs|]; apply (safe_ParseDynamicString (set_src (start + 1) l) names); [done|simpl; lia]|].
  apply safe_if; intros E10; [eapply token_ok; [apply Hs|]; apply (safe_ParseRawString (set_src (start + 1) l) names); [done|simpl; lia]|].
  apply safe_if; intros E11.
  { apply (token_or_comment_ok l (set_src start l)); [apply Hs|]. apply (safe_ParseLoanword (set_src start l) names); [done|simpl; lia]. }
  eapply safe_unicode_round; [done|done|exact E|by eapply rest_bytes].
Qed.

(** Rounds until a token. *)
Lemma safe_next_loop (fuel : nat) l names src isFirst ws : ready l names -> 0 <= src <= lx_end l + 1 ->
  lx_end l - src <= Z.of_nat fuel ->
  safe (next_loop fuel l src isFirst ws) (fun r => parsed l names src r
    /\ (r.2 = TOKEN_EOI \/ src < lx_src r.1 \/ exists i, four_equals (lx_input l) i)).
Proof.
  revert l src isFirst ws. induction fuel as [|fuel IH]; intros l src isFirst ws Hr Hi Hf; simpl; rewrite Z.geb_leb;
    destruct (Z.leb_spec (lx_end l) src); try (simpl; split; [apply parsed_simple; [done|lia]|by left]); [lia|].
  eapply safe_bind; [apply (safe_next_round l names src); [done|lia]|]. intros [l' k|l' src' nl]; simpl.
  - intros [Hp Hfour]. split; [done|]. pose proof (pd_src _ _ _ _ Hp) as Hsrc. simpl in Hsrc.
    destruct (decide (lx_src l' = src)); [eauto|right; left; lia].
  - intros (Hs & Hm & Hsrc). pose proof (sm_end _ _ Hs) as He.
    eapply safe_mono; [apply IH; [by apply (ready_same l)|lia|lia]|]. intros r [Hp Hfin].
    split; [eapply parsed_same; [exact Hs|]; eapply parsed_mono; [exact Hp|lia]|].
    rewrite (sm_input _ _ Hs) in Hfin. destruct Hfin as [?|[?|?]]; [by left|right; left; lia|by auto].
Qed.

(** The result of reading a token that was not put back. *)
Definition next_ok (l : Lexer) (names : list Str) (r : Lexer * TokenKind) : Prop :=
  same (set_ring (lx_tokenIndex l + 1) 0 l) r.1
  /\ lx_src l <= lx_src r.1 <= lx_end l + 1 /\ one_more r.1 names
  /\ (r.2 <> TOKEN_NONE -> kind (Lexer_Token r.1) = r.2)
  /\ (r.2 = TOKEN_EOI \/ lx_src l < lx_src r.1 \/ exists i, four_equals (lx_input l) i).

Lemma safe_Next l names : ready l names -> 0 <= lx_src l <= lx_end l + 1 -> lx_ungetCount l = 0 ->
  safe (Lexer_Next l) (next_ok l names).
Proof.
  intros Hr Hi Hu. unfold Lexer_Next. rewrite Hu. cbn [Z.gtb Z.compare]. set (l1 := set_ring _ _ l).
  assert (Hr1 : ready l1 names) by (destruct Hr; by split).
  eapply safe_mono; [apply (safe_next_loop _ l1 names); [done|simpl; lia|simpl; lia]|].
  intros r [[Hs Hsrc (more & Hm & Hz & _) Hk] Hfin].
  split; [done|]. split; [done|]. split; [by exists more|]. done.
Qed.

(** The lexer after a token is ready for the next one. *)
Lemma next_ready l names r : ready l names -> next_ok l names r -> zlen names + 1 < 2 ^ 30 - 1 ->
  lx_input r.1 = lx_input l /\ lx_end r.1 = lx_end l /\ lx_ungetCount r.1 = 0
  /\ exists more, ready r.1 (names ++ more) /\ zlen more <= 1.
Proof.
  intros Hr ([S1 S2 S3 S4 S5 S6] & _ & (more & Hm & Hmore) & _) Hz. simpl in *.
  split; [done|]. split; [done|]. split; [done|]. exists more. split; [|done].
  destruct Hr. split; rewrite ?S1, ?S2, ?S3, ?zlen_app; done || lia.
Qed.

(** Tokens up to the end. *)
Lemma safe_tokenize (fuel : nat) l names : ready l names -> 0 <= lx_src l <= lx_end l + 1 -> lx_ungetCount l = 0 ->
  (forall i, ~ four_equals (lx_input l) i) -> zlen names + (lx_end l + 1 - lx_src l) < 2 ^ 30 - 2 ->
  lx_end l + 1 - lx_src l < Z.of_nat fuel ->
  safe (tokenize fuel l) (fun r => exists ts t, r.2 = ts ++ [t] /\ kind t = TOKEN_EOI
    /\ zlen ts <= lx_end l + 1 - lx_src l).
Proof.
  revert l names. induction fuel as [|fuel IH]; intros l names Hr Hi Hu Hne Hz Hf; [lia|]. simpl.
  eapply safe_bind; [by apply (safe_Next l names)|].
  intros [l' k] Hok. pose proof (zlen_nonneg names).
  destruct (next_ready _ _ _ Hr Hok ltac:(lia)) as (Hin & He & Hu' & more & Hr' & Hmore).
  destruct Hok as (_ & Hsrc & _ & Hk & Hfin). simpl in *.
  destruct (decide (k = TOKEN_EOI)) as [->|].
  - simpl. exists [], (Lexer_Token l'). split; [done|]. split; [by apply Hk|]. rewrite zlen_nil. lia.
  - destruct Hfin as [?|[Hlt|[i Hi4]]]; [done| |by apply Hne in Hi4].
    eapply safe_bind; [apply (IH l' (names ++ more))|].
    + exact Hr'.
    + rewrite He. lia.
    + done.
    + by rewrite Hin.
    + rewrite He, zlen_app. lia.
    + rewrite He. lia.
    + intros [l2 tokens] H2. simpl in H2. destruct H2 as (ts & t & -> & Ht & Hts). simpl. exists (Lexer_Token l' :: ts), t.
      rewrite zlen_cons. rewrite He in Hts. split; [done|]. split; [done|lia].
Qed.

(** What [Lexer_Create] and [Lexer_SetSymbolTable] make is ready. *)
Lemma Create_ready text start length filename line column (l : Lexer) table names :
  Forall is_byte text -> (wide (String_GetBytes text) -> W) -> zlen text < 2 ^ 30 - 2 -> interned table names -> zlen names + zlen text < 2 ^ 30 - 2 ->
  Lexer_Create text start length filename line column = Some l ->
  ready (Lexer_SetSymbolTable l table) names /\ lx_src l = start /\ lx_end l = start + length /\ lx_ungetCount l = 0
  /\ 0 <= start /\ 0 <= length /\ start + length <= zlen text /\ lx_input l = text ++ [0].
Proof.
  intros Hb HW Hz Ht Hn H. unfold Lexer_Create in H. cbv zeta in H. rewrite !Z.gtb_ltb in H.
  destruct (_ || _) eqn:E in H; [done|]. zbool. injection H as <-. simpl.
  pose proof (zlen_nonneg text). pose proof (zlen_nonneg names).
  split; [|done || (repeat split; done || lia)]. split; simpl; unfold String_GetBytes; rewrite ?zlen_app; change (zlen [0]) with 1; try lia; try done.
  apply Forall_app. split; [done|]. apply Forall_singleton. unfold is_byte, inU. simpl. lia.
Qed.

End Routines.


End Safety.

Notation ready_any := (ready (W := True)).

(** ** Witnesses *)

#[local] Instance example_reals : RealParsers := {
  Real32_TryParse := fun _ => Some 0; Real64_TryParse := fun _ => Some 0; Real128_TryParse := fun _ => Some 0;
  strtod := fun _ => 0; float32_of := fun z => z
}.
#[local] Instance example_dict : MapOps Str Z (StringDictInt Z) := StringDict_ops zlen 0.
#[local] Instance example_laws : MapLaws Str Z (StringDictInt Z) := StringDict_laws zlen 0.

Definition example_text : Str := bytes "x1 + [f 12]".

Lemma example_bytes : Forall is_byte example_text.
Proof. unfold example_text, is_byte, inU. repeat (constructor; [by vm_compute|]). constructor. Qed.

Lemma example_equals i : ~ four_equals (String_GetBytes example_text) i.
Proof.
  intros H. specialize (H 0 ltac:(lia)). apply zget_Some in H as [_ H%list_elem_of_lookup_2].
  revert H. apply (bool_decide_unpack (_ ∉ _)). by vm_compute.
Qed.


