(* ===== verification/LexerWords.v ===== *)
(** * LexerWords: reading back what was written

    Names, decimal integers and single characters, separated by a space or a
    newline, are read back as the tokens they were written for. *)

From Stdlib Require Import String.
From S2P Require Import Prelude IntMath FiniteMap Text TextProps StringBuilder IdentTable StringDict StringDictProps SymbolTable Lexer LexNames LexNumbers LexStrings LexerNext LexerScan LexerSafety.

(** ** Texts inside the input *)

(** The text [s] lies at [p]. *)
Fixpoint spelled (input : list Z) (p : Z) (s : Str) : Prop :=
  match s with [] => True | c :: s => zget input p = Some c /\ spelled input (p + 1) s end.

Lemma spelled_app input p s1 s2 : spelled input p (s1 ++ s2) <-> spelled input p s1 /\ spelled input (p + zlen s1) s2.
Proof.
  revert p. induction s1 as [|c s1 IH]; intros p; simpl.
  - rewrite zlen_nil, Z.add_0_r. tauto.
  - rewrite IH, zlen_cons. replace (p + (zlen s1 + 1)) with (p + 1 + zlen s1) by lia. tauto.
Qed.

Lemma spelled_substring input p s : 0 <= p -> spelled input p s -> substring input p (zlen s) = s.
Proof.
  revert p. induction s as [|c s IH]; intros p Hp; simpl; [done|]. intros [E H]. pose proof (zlen_nonneg s).
  rewrite zlen_cons, (substring_cons _ _ _ c) by (done || lia). f_equal.
  replace (zlen s + 1 - 1) with (zlen s) by lia. apply IH; [lia|done].
Qed.

Lemma spelled_within pre s post : spelled (pre ++ s ++ post) (zlen pre) s.
Proof.
  revert pre. induction s as [|c s IH]; intros pre; simpl; [done|]. split.
  - by rewrite zget_app_r, Z.sub_diag by lia.
  - specialize (IH (pre ++ [c])). rewrite <- app_assoc in IH. simpl in IH.
    rewrite zlen_app in IH. exact IH.
Qed.

(** ** Names *)

(** The rest of a name: a hyphen is followed by a letter, an underscore or a dollar. *)
Fixpoint name_tail (s : Str) : bool :=
  match s with
  | [] => true
  | c :: s =>
      (is_letter c || is_name_extra c
       || (c =? "-"%code) && match s with d :: _ => is_letter d || (d =? "_"%code) || (d =? "$"%code) | [] => false end)
      && name_tail s
  end.

Definition valid_name (s : Str) : bool :=
  match s with [] => false | c :: _ => (is_letter c || (c =? "_"%code) || (c =? "$"%code)) && name_tail s end.

Lemma letter_spec c : is_letter c = true -> c < 128 /\ c <> "\"%code /\ c <> "-"%code.
Proof. unfold is_letter, is_lower, is_upper, within. intros H. lia. Qed.

Lemma extra_spec c : is_name_extra c = true -> c <> "\"%code /\ c <> "-"%code /\ is_letter c = false.
Proof. unfold is_name_extra, is_letter, is_lower, is_upper, is_digit, within, QUOTE. intros H. lia. Qed.

(** The alphabets a name of ASCII letters can have. *)
Definition latin_only (charsets : Z) : Prop := charsets = 0 \/ charsets = LATIN_BIT.

Lemma latin_lor charsets : latin_only charsets -> latin_only (Z.lor charsets LATIN_BIT).
Proof. intros [-> | ->]; right; reflexivity. Qed.

Lemma ParseName_loop_word (input : list Z) (end_ : Z) (s : Str) (stop : Z) :
  stop = 32 \/ stop = 10 -> forall fuel p start buf charsets esc,
  0 <= p -> p + zlen s < end_ -> Z.to_nat (end_ - p) = fuel -> latin_only charsets ->
  spelled input p (s ++ [stop]) -> name_tail s = true ->
  exists charsets', latin_only charsets'
    /\ ParseName_loop fuel input end_ (mkName p start buf charsets esc)
       = (buf ← flush input start (p + zlen s) buf; Done (mkName (p + zlen s) (p + zlen s) buf charsets' esc)).
Proof.
  intros Hstop. induction s as [|c s IH]; intros fuel p start buf charsets esc Hp He Hf Hc Hs Ht.
  - rewrite zlen_nil, Z.add_0_r in *. destruct fuel as [|fuel]; [lia|]. cbn [ParseName_loop]. destruct (Z.ltb_spec p end_); [|lia]. destruct Hs as [-> _]. cbn [need mbind Outcome_bind].
    exists charsets. split; [done|]. by destruct Hstop as [-> | ->].
  - rewrite zlen_cons in *. pose proof (zlen_nonneg s). destruct fuel as [|fuel]; [lia|]. cbn [ParseName_loop]. destruct Hs as [E Hs]. apply andb_prop in Ht as [Hch Ht].
    destruct (Z.ltb_spec p end_); [|lia]. rewrite E. cbn [need mbind Outcome_bind].
    assert (Hgo : forall charsets', latin_only charsets' -> exists charsets'', latin_only charsets''
      /\ ParseName_loop fuel input end_ (mkName (p + 1) start buf charsets' esc)
         = (buf ← flush input start (p + (zlen s + 1)) buf; Done (mkName (p + (zlen s + 1)) (p + (zlen s + 1)) buf charsets'' esc))).
    { intros cs Hcs. replace (p + (zlen s + 1)) with (p + 1 + zlen s) by lia. apply IH; solve [done|lia]. }
    apply orb_prop in Hch as [Hch|Hch]; [apply orb_prop in Hch as [Hch|Hch]|].
    + destruct (letter_spec c Hch) as (_ & H1 & _). rewrite Hch.
      destruct (Z.eqb_spec c "\"%code); [done|]. by apply Hgo, latin_lor.
    + destruct (extra_spec c Hch) as (H1 & _ & Hl). rewrite Hch, Hl.
      destruct (Z.eqb_spec c "\"%code); [done|]. by apply Hgo.
    + apply andb_prop in Hch as [->%Z.eqb_eq Hd]. destruct s as [|d s]; [done|]. rewrite zlen_cons in *.
      pose proof (zlen_nonneg s).
      change (Z.eqb "-"%code "\"%code) with false. change (is_letter "-"%code) with false. change (is_name_extra "-"%code) with false.
      change (Z.eqb "-"%code "-"%code) with true. cbn iota. destruct (Z.ltb_spec (p + 1) end_); [|lia].
      unfold IsValidRestartCharacter. destruct Hs as [Ed Hs]. rewrite Ed. cbn [need mbind Outcome_bind].
      replace ((d =? "\"%code) || is_letter d || (d =? "_"%code) || (d =? "$"%code)) with true
        by (symmetry; destruct (is_letter d), (d =? "_"%code), (d =? "$"%code); rewrite ?orb_true_r; done).
      cbn [Outcome_bind]. by apply Hgo.
Qed.

Lemma ParseNameRaw_word (input : list Z) (p end_ : Z) (s : Str) (stop : Z) :
  stop = 32 \/ stop = 10 -> 0 <= p -> p + zlen s < end_ -> spelled input p (s ++ [stop]) ->
  valid_name s = true -> zlen s < 64 -> ParseNameRaw input p end_ = Done (p + zlen s, Some s, false).
Proof.
  intros Hstop Hp He Hs Hv Hz. assert (Ht : name_tail s = true /\ 0 < zlen s).
  { destruct s as [|c s]; [done|]. rewrite zlen_cons. pose proof (zlen_nonneg s). apply andb_prop in Hv as [_ ?]. split; [done|lia]. }
  destruct Ht as [Ht Hpos]. unfold ParseNameRaw.
  destruct (INIT_holds 64 ltac:(lia)) as (buf & -> & Hb). cbn [need mbind Outcome_bind].
  destruct (ParseName_loop_word input end_ s stop Hstop _ p p buf 0 false Hp He eq_refl (or_introl eq_refl) Hs Ht)
    as (charsets & Hc & ->).
  assert (Hflush : exists buf', flush input p (p + zlen s) buf = Done buf' /\ holds buf' s).
  { unfold flush. rewrite Z.gtb_ltb. destruct (Z.ltb_spec p (p + zlen s)); [|lia].
    unfold StringBuilder_Append. destruct (Z.leb_spec (p + zlen s - p) 0); [lia|].
    assert (Hsub : substring (drop (Z.to_nat p) input) 0 (p + zlen s - p) = s).
    { apply spelled_app in Hs as [Hs _]. replace (p + zlen s - p) with (zlen s) by lia.
      rewrite <- (spelled_substring input p s Hp Hs) at 2. unfold substring. simpl. by rewrite drop_0. }
    rewrite Hsub. destruct (append_terminated_holds buf [] s Hb) as (buf' & -> & Hb');
      [by intros ->|rewrite zlen_nil; lia|]. by exists buf'. }
  destruct Hflush as (buf' & -> & Hb').
  cbn [need mbind Outcome_bind n_src n_start n_buf n_charsets n_hasEscapes].
  unfold flush. rewrite Z.gtb_ltb. destruct (Z.ltb_spec (p + zlen s) (p + zlen s)); [lia|]. cbn [mbind Outcome_bind].
  rewrite (StringBuilder_ToString_holds _ _ Hb'). destruct Hc as [-> | ->]; done.
Qed.

(** ** Numbers *)

Definition decimal (n : Z) : Str := default [] (default None (String_CreateFromUnsignedInteger n 10)).

Lemma first_digit fuel room v ds l : CreateFromInteger_loop fuel room v 10 ds = Some l -> 0 < v ->
  exists c k, l = c :: k /\ 0 < digitValue c.
Proof.
  revert room v ds. induction fuel as [|fuel IH]; intros room v ds H Hv; simpl in H; destruct (Z.eqb_spec v 0); try done; try lia.
  destruct (room <=? 0); [done|].
  destruct (digit_char 10 ltac:(lia) (v mod 10) ltac:(apply Z.mod_pos_bound; lia)) as (c & Ec & Hc & _).
  rewrite Ec in H. cbn [option_bind mbind] in H. destruct (decide (0 < v / 10)) as [Hd|Hd]; [by eapply IH|].
  pose proof (Z.div_mod v 10 ltac:(lia)). pose proof (Z.mod_pos_bound v 10 ltac:(lia)).
  assert (v / 10 = 0) as E0. { assert (0 <= v / 10) by (apply Z.div_pos; lia). lia. }
  rewrite E0 in H. exists c, ds. split; [|rewrite Hc; lia]. destruct fuel; simpl in H; congruence.
Qed.

Lemma digit_is c : digit_of 10 c -> is_digit c = true /\ digitValue c = c - "0"%code /\ 0 <= c - "0"%code <= 9.
Proof.
  intros [Hd _]. unfold digitValue in *. destruct (is_digit c) eqn:E.
  - unfold is_digit, within in E. split; [done|]. split; [done|lia].
  - repeat case_match; unfold is_upper, is_lower, within in *; lia.
Qed.

(** The digits of a number do not start with a zero, but for zero itself. *)
Lemma decimal_spec n : 0 <= n < 2 ^ 64 ->
  Forall (digit_of 10) (decimal n) /\ number 10 0 (decimal n) = n /\ 0 < zlen (decimal n) <= 64
  /\ (decimal n = ["0"%code] /\ n = 0 \/ exists c l, decimal n = c :: l /\ 0 < digitValue c).
Proof.
  intros Hn. unfold decimal, String_CreateFromUnsignedInteger. cbn [Z.ltb Z.gtb Z.compare orb].
  destruct (CreateFromIntegerInternal_spec 10 ltac:(lia) n Hn) as (l & E & Hl & Hnum & Hz).
  change ((10 <? 2) || (10 >? 36)) with false. cbn iota. rewrite E. cbn [option_bind mbind default].
  split; [done|]. split; [done|]. split; [done|].
  unfold String_CreateFromIntegerInternal in E. destruct (Z.eqb_spec n 0) as [->|].
  - injection E as <-. by left.
  - right. destruct (first_digit _ _ _ _ _ E ltac:(lia)) as (c & k & -> & Hc). by exists c, k.
Qed.

Lemma number_le a l : 0 <= a -> Forall (digit_of 10) l -> a <= number 10 a l.
Proof.
  intros Ha Hl. revert a Ha. induction Hl as [|c l [Hd _] Hl IH]; intros a Ha; [simpl; lia|].
  rewrite number_cons. etrans; [|apply IH; lia]. lia.
Qed.

Lemma ParseDecimal_word (input : list Z) (end_ start : Z) (l : Str) (stop : Z) :
  stop = 32 \/ stop = 10 -> forall fuel p a, p + zlen l < end_ -> Z.to_nat (end_ - p) = fuel ->
  spelled input p (l ++ [stop]) -> Forall (digit_of 10) l -> 0 <= a -> number 10 a l < 2 ^ 64 ->
  ParseDecimal_loop fuel input end_ start p a = Done (p + zlen l, number 10 a l, p + zlen l >? start).
Proof.
  intros Hstop. induction l as [|c l IH]; intros fuel p a He Hf Hs Hl Ha Hn.
  - rewrite zlen_nil, Z.add_0_r in *. destruct fuel as [|fuel]; [lia|]. cbn [ParseDecimal_loop].
    destruct (Z.ltb_spec p end_); [|lia]. destruct Hs as [-> _]. by destruct Hstop as [-> | ->].
  - rewrite zlen_cons in *. pose proof (zlen_nonneg l). destruct fuel as [|fuel]; [lia|]. cbn [ParseDecimal_loop].
    apply Forall_cons in Hl as [Hc Hl]. destruct Hs as [E Hs]. destruct (digit_is c Hc) as (Hd & Hv & Hr).
    destruct (Z.ltb_spec p end_); [|lia]. rewrite E. cbn [need mbind Outcome_bind]. rewrite Hd. cbv zeta.
    rewrite number_cons, Hv in Hn. pose proof (number_le (a * 10 + (c - "0"%code)) l ltac:(lia) Hl) as Hle.
    rewrite Z.gtb_ltb. destruct (Z.ltb_spec 0x1999999999999999 a); [lia|].
    rewrite (wrapU_id 64 (a * 10)) by (unfold inU; lia).
    destruct (Z.ltb_spec (0xFFFFFFFFFFFFFFFF - (c - "0"%code)) (a * 10)); [lia|].
    rewrite wrapU_id by (unfold inU; lia). rewrite number_cons, Hv.
    replace (p + (zlen l + 1)) with (p + 1 + zlen l) by lia. apply IH; solve [done|lia].
Qed.

(** ** Words and their tokens *)

Inductive lexeme := Name (s : Str) | Number (n : Z) | Mark (c : Z).

Definition spelling (w : lexeme) : Str := match w with Name s => s | Number n => decimal n | Mark c => [c] end.

Definition valid_word (w : lexeme) : Prop :=
  match w with
  | Name s => valid_name s = true /\ zlen s < 64
  | Number n => 0 <= n < 2 ^ 64
  | Mark c => is_Some (single_token c)
  end.

(** What the token of a word carries; [names] are the names of the symbol table. *)
Definition content (names : list Str) (w : lexeme) (t : Token) : Prop :=
  match w with
  | Name s => kind t = TOKEN_ALPHANAME /\ token_text t = Text s
      /\ exists symbol, data t = DataSymbol symbol /\ 0 < symbol /\ zget names (symbol - 1) = Some s
  | Number n => kind t = TOKEN_INTEGER64 /\ token_text t = Text (decimal n) /\ data t = DataInt64 (wrapS 64 n)
  | Mark c => Some (kind t) = single_token c
  end.

(** Where a token of [length] bytes at [p] is. *)
Definition placed (filename : option Str) (line lineStart p length : Z) (first : bool) (t : Token) : Prop :=
  position t = mkPosition filename (wrapS 32 line) (wrapS 32 (p - lineStart)) (wrapS 32 lineStart) (wrapS 32 length)
  /\ isFirstContentOnLine t = first /\ hasEscapes t = false.

(** The kind of a token that neither ends the input nor is a comment. *)
Definition solid (k : TokenKind) : Prop := k <> TOKEN_EOI /\ k <> TOKEN_NONE.

(** The bytes a word starts with decide the case that reads it. *)
Definition other_cases (c : Z) : bool :=
  is_blank c || ((c =? 10) || (c =? 13)) || (c =? "/"%code) || ((c =? "-"%code) || (c =? "="%code)) || is_operator c
  || (c =? "."%code).

Lemma name_case c : 0 <= c < 256 -> is_letter c || (c =? "_"%code) || (c =? "$"%code) = true ->
  other_cases c = false /\ single_token c = None /\ (c =? "0"%code) = false /\ is_digit c = false.
Proof.
  intros Hc H.
  pose proof (byte_case (fun c => implb (is_letter c || (c =? "_"%code) || (c =? "$"%code))
    (negb (other_cases c) && bool_decide (single_token c = None) && negb (c =? "0"%code) && negb (is_digit c)))
    c ltac:(by vm_compute) Hc) as Hall.
  cbv beta in Hall. rewrite H in Hall. cbn [implb] in Hall. zbool.
  apply bool_decide_eq_true_1 in H3. split_and?; [done|done|by apply Z.eqb_neq|done].
Qed.

Lemma digit_case c : 0 <= c < 256 -> is_digit c = true -> other_cases c = false /\ single_token c = None.
Proof.
  intros Hc H.
  pose proof (byte_case (fun c => implb (is_digit c) (negb (other_cases c) && bool_decide (single_token c = None)))
    c ltac:(by vm_compute) Hc) as Hall.
  cbv beta in Hall. rewrite H in Hall. cbn [implb] in Hall.
  zbool. split; [done|]. by eapply bool_decide_eq_true_1.
Qed.

Lemma mark_case c : 0 <= c < 256 -> is_Some (single_token c) -> other_cases c = false.
Proof.
  intros Hc H.
  pose proof (byte_case (fun c => implb (bool_decide (is_Some (single_token c))) (negb (other_cases c)))
    c ltac:(by vm_compute) Hc) as Hall.
  cbv beta in Hall. rewrite bool_decide_eq_true_2 in Hall by done. cbn [implb] in Hall. by zbool.
Qed.

(** Words with what follows each: a newline or a space. *)
Definition separator (newline : bool) : Z := if newline then 10 else 32.

Fixpoint spelled_words (ws : list (lexeme * bool)) : Str :=
  match ws with
  | [] => []
  | (w, newline) :: ws => spelling w ++ separator newline :: spelled_words ws
  end.

(** The tokens of the words written from [p] on, and of the end of the input. *)
Fixpoint lexed (names : list Str) (filename : option Str) (line lineStart p : Z) (first : bool)
    (ws : list (lexeme * bool)) (tokens : list Token) : Prop :=
  match ws, tokens with
  | [], [t] => kind t = TOKEN_EOI /\ placed filename line lineStart p 0 first t
  | (w, newline) :: ws, t :: tokens =>
      let p' := p + zlen (spelling w) + 1 in
      content names w t /\ placed filename line lineStart p (zlen (spelling w)) first t
      /\ lexed names filename (if newline then line + 1 else line) (if newline then p' else lineStart) p' newline ws tokens
  | _, _ => False
  end.

Lemma content_mono names more w t : content names w t -> content (names ++ more) w t.
Proof.
  destruct w; simpl; [|done|done]. intros (Hk & Ht & symbol & Hd & Hpos & Hg). split; [done|]. split; [done|].
  exists symbol. split; [done|]. split; [done|]. by apply zget_app_Some.
Qed.

(** Every word starts with a byte of its own case. *)
Lemma word_start (input : list Z) p w stop : Forall is_byte input -> valid_word w -> spelled input p (spelling w ++ [stop]) ->
  exists c, zget input p = Some c /\ other_cases c = false.
Proof.
  intros Hb Hw Hs. assert (Hbyte : forall c, zget input p = Some c -> 0 <= c < 256) by (intros c; by apply zget_byte).
  destruct w as [s|n|c]; simpl in Hw, Hs.
  - destruct Hw as [Hv _]. destruct s as [|c s]; [done|]. destruct Hs as [E _]. exists c. split; [done|].
    apply andb_prop in Hv as [Hc _]. by apply name_case; [apply Hbyte|].
  - destruct (decimal_spec n Hw) as (Hd & _ & Hz & _). destruct (decimal n) as [|c l]; [by destruct Hz|].
    destruct Hs as [E _]. exists c. split; [done|]. apply Forall_cons in Hd as [Hd _].
    apply digit_case; [by apply Hbyte|]. by apply digit_is.
  - destruct Hs as [E _]. exists c. split; [done|]. by apply mark_case; [apply Hbyte|].
Qed.

Section Words.
Context {D : Type} {Ops : MapOps Str Z D} {Laws : MapLaws Str Z D} {Real : RealParsers}.
Context (zero_is_absent : NULL_value = 0) (large : 2 ^ 30 <= capacity).

#[local] Notation Lexer := (Lexer D).

(** Past the cases that no word starts with. *)
Lemma next_round_word (l : Lexer) p first ws c : zget (lx_input l) p = Some c -> other_cases c = false ->
  next_round l p first ws =
    match single_token c with
    | Some k => Done (let '(l, k) := SIMPLE_TOKEN p (p + 1) k first l in Token_read l k)
    | None =>
        if c =? "0"%code then token (Lexer_ParseZero (set_src (p + 1) l) first)
        else if is_digit c then token (Lexer_ParseDigit (set_src (p + 1) l) first)
        else if is_letter c || (c =? "_"%code) || (c =? "$"%code) || (c =? "\"%code) then
          token (Lexer_ParseName (set_src p l) first)
        else if c =? QUOTE then token (Lexer_ParseDynamicString (set_src (p + 1) l) first)
        else if c =? "'"%code then token (Lexer_ParseRawString (set_src (p + 1) l) first)
        else if c =? "#"%code then token_or_comment (Lexer_ParseLoanword (set_src p l) first)
        else unicode_round l p first
    end.
Proof.
  intros E H. unfold other_cases in H. repeat (apply orb_false_elim in H as [H ?]).
  unfold next_round. rewrite E. cbn [need mbind Outcome_bind]. cbv zeta.
  repeat match goal with H : _ = false |- _ => rewrite H; clear H end. done.
Qed.

Lemma Token_START p first (l : Lexer) : length (lx_tokenBuffer l) = 16%nat ->
  Lexer_Token (START_TOKEN p first l) = start_token l p first (Lexer_Token l).
Proof. intros H. by apply (Token_on_token (start_token l p first)). Qed.

Lemma Token_END src k (l : Lexer) : length (lx_tokenBuffer l) = 16%nat ->
  Lexer_Token (END_TOKEN src k l).1 = set_kind k (set_length (wrapS 32 (src - lx_tokenStart l)) (Lexer_Token l)).
Proof. intros H. unfold END_TOKEN. cbn [fst]. by rewrite Token_on_token. Qed.

(** The lexer after a word. *)
Record word_read (l : Lexer) (names : list Str) (w : lexeme) (p : Z) (first : bool) (l' : Lexer) (names' : list Str) : Prop := {
  wr_same : same l l';
  wr_src : lx_src l' = p + zlen (spelling w);
  wr_lines : lx_line l' = lx_line l /\ lx_lineStart l' = lx_lineStart l /\ lx_filename l' = lx_filename l;
  wr_symbols : exists table, lx_symbolTable l' = Some table /\ interned table names';
  wr_names : exists more, names' = names ++ more /\ zlen more <= 1;
  wr_placed : placed (lx_filename l) (lx_line l) (lx_lineStart l) p (zlen (spelling w)) first (Lexer_Token l');
  wr_content : content names' w (Lexer_Token l')
}.

(** What the lexer has when a word is to be read at [p]. *)
Record at_word (l : Lexer) (names : list Str) (w : lexeme) (p stop : Z) : Prop := {
  aw_ready : ready_any l names;
  aw_table : exists table, lx_symbolTable l = Some table /\ interned table names;
  aw_range : 0 <= p /\ p + zlen (spelling w) < lx_end l;
  aw_spelled : spelled (lx_input l) p (spelling w ++ [stop]);
  aw_stop : stop = 32 \/ stop = 10
}.

Lemma mark_read l names c p stop first ws : at_word l names (Mark c) p stop -> valid_word (Mark c) ->
  exists l' k names', next_round l p first ws = Done (Token_read l' k) /\ solid k
    /\ word_read l names (Mark c) p first l' names'.
Proof.
  intros [Hr Ht Hrange [E _] Hstop] [k Hk]. pose proof (rd_ring _ _ Hr) as Hring. change (spelling (Mark c)) with [c] in *.
  rewrite (next_round_word l p first ws c E), Hk.
  2: { apply mark_case; [|by eexists]. eapply zget_byte; [apply Hr|exact E]. }
  exists (SIMPLE_TOKEN p (p + 1) k first l).1, k, names. unfold SIMPLE_TOKEN. split; [reflexivity|].
  split; [unfold single_token in Hk; by repeat case_match; simplify_eq|].
  assert (Hs : same l (END_TOKEN (p + 1) k (START_TOKEN p first l)).1).
  { unfold END_TOKEN. simpl. apply same_on_token, same_set_src, same_START, same_refl. }
  split; [exact Hs|done|done|exact Ht|by exists []; rewrite app_nil_r| |].
  - rewrite Token_END by (simpl; by rewrite length_alter). rewrite Token_START by done. split; [|done].
    simpl. do 2 f_equal. rewrite zlen_cons, zlen_nil. lia.
  - rewrite Token_END by (simpl; by rewrite length_alter). done.
Qed.

Lemma name_read l names s p stop first ws : at_word l names (Name s) p stop -> valid_word (Name s) ->
  exists l' k names', next_round l p first ws = Done (Token_read l' k) /\ solid k
    /\ word_read l names (Name s) p first l' names'.
Proof.
  intros [Hr (table & Et & Ht) Hrange Hs Hstop] [Hv Hz]. pose proof (rd_ring _ _ Hr) as Hring. simpl in Hrange, Hs.
  assert (Hc : exists c, zget (lx_input l) p = Some c /\ is_letter c || (c =? "_"%code) || (c =? "$"%code) = true).
  { destruct s as [|c s]; [done|]. destruct Hs as [E _]. exists c. split; [done|]. by apply andb_prop in Hv as [? _]. }
  destruct Hc as (c & E & Hc).
  destruct (name_case c) as (Ho & Hsingle & H0 & Hd); [eapply zget_byte; [apply Hr|exact E]|done|].
  rewrite (next_round_word l p first ws c E Ho), Hsingle, H0, Hd, Hc. cbn [orb]. unfold Lexer_ParseName. cbv zeta.
  change (lx_input (START_TOKEN _ _ _)) with (lx_input l). change (lx_end (START_TOKEN _ _ _)) with (lx_end l).
  change (lx_src (START_TOKEN _ _ _)) with p. change (lx_src (set_src p l)) with p.
  rewrite (ParseNameRaw_word _ _ _ s stop) by (done || lia). cbn [mbind Outcome_bind token].
  unfold intern. simpl (lx_symbolTable _). rewrite Et.
  destruct (GetSymbol_interned zero_is_absent large table names s Ht (rd_names _ _ Hr))
    as (table' & symbol & more & -> & Hi & Hmore & Hpos & Hget).
  set (l1 := set_symbols (Some table') (set_src (p + zlen s) (START_TOKEN p first (set_src p l)))).
  exists (name_token (p + zlen s) s symbol false TOKEN_ALPHANAME l1).1, TOKEN_ALPHANAME, (names ++ more).
  split; [reflexivity|]. split; [done|].
  assert (Hring1 : length (lx_tokenBuffer l1) = 16%nat) by (simpl; by rewrite length_alter).
  assert (Htok : Lexer_Token l1 = start_token (set_src p l) p first (Lexer_Token (set_src p l)))
    by (by apply Token_START).
  split; [|done|done|by exists table'|by exists more| |]; unfold name_token.
  - unfold END_TOKEN, l1. simpl. by repeat first [apply same_on_token|apply same_set_src|apply same_set_symbols|apply same_START].
  - rewrite Token_END by (simpl; by rewrite !length_alter). rewrite Token_on_token, Htok by done.
    split; [|done]. simpl. do 2 f_equal. lia.
  - rewrite Token_END by (simpl; by rewrite !length_alter). rewrite Token_on_token, Htok by done.
    split; [done|]. split; [done|]. by exists symbol.
Qed.

(** What follows the digits of a number is only looked at. *)
Lemma number_end (l : Lexer) p stop : zget (lx_input l) p = Some stop -> stop = 32 \/ stop = 10 -> p < lx_end l ->
  at_decimal_point (lx_input l) p (lx_end l) = Done false
  /\ CollectAlphanumericSuffix (lx_input l) p (lx_end l) = Done (p, None)
  /\ EnsureEndOfNumber (set_src p l) = Done (set_src p l, true).
Proof.
  intros E Hstop Hp. unfold at_decimal_point, CollectAlphanumericSuffix, EnsureEndOfNumber, peek.
  simpl (lx_src _). simpl (lx_end _). simpl (lx_input _). destruct (Z.ltb_spec p (lx_end l)); [|lia]. rewrite E.
  destruct Hstop as [-> | ->]; done.
Qed.

(** The token of a number whose digits are those from [p] on. *)
Lemma number_finish l names n p stop first start0 complain : at_word l names (Number n) p stop -> valid_word (Number n) ->
  exists l', integer_or_real (START_TOKEN p first (set_src start0 l)) first p (p + zlen (decimal n), n, true)
      IllegalDecimalIntegerMessage complain = Done (l', TOKEN_INTEGER64)
    /\ integer_or_real (START_TOKEN p first (set_src start0 l)) first p (p + zlen (decimal n), n, true)
      IllegalOctalIntegerMessage complain = Done (l', TOKEN_INTEGER64)
    /\ word_read l names (Number n) p first l' names.
Proof.
  intros [Hr (table & Et & Ht) [Hp Hrange] Hs Hstop] Hn. pose proof (rd_ring _ _ Hr) as Hring. simpl in Hrange, Hs.
  apply spelled_app in Hs as [Hs [Hst _]].
  set (l1 := START_TOKEN p first (set_src start0 l)).
  assert (Hring1 : length (lx_tokenBuffer l1) = 16%nat) by (simpl; by rewrite length_alter).
  assert (Htok : Lexer_Token l1 = start_token (set_src start0 l) p first (Lexer_Token (set_src start0 l)))
    by (by apply Token_START).
  destruct (number_end l1 (p + zlen (decimal n)) stop Hst Hstop Hrange) as (Hdot & Hsuffix & Hend).
  set (l2 := (END_TOKEN (p + zlen (decimal n)) TOKEN_INTEGER64 (set_src (p + zlen (decimal n)) l1)).1).
  exists (ProcessIntegerValue l2 n (decimal n) None).1.
  assert (Hread : forall illegal, integer_or_real l1 first p (p + zlen (decimal n), n, true) illegal complain
    = Done ((ProcessIntegerValue l2 n (decimal n) None).1, TOKEN_INTEGER64)).
  { intros illegal. unfold integer_or_real. simpl (lx_input (set_src _ _)). simpl (lx_end (set_src _ _)).
    change (lx_input l) with (lx_input l1). change (lx_end l) with (lx_end l1). rewrite Hdot. cbn [mbind Outcome_bind negb andb].
    unfold finish_integer. simpl (lx_input (set_src _ _)). simpl (lx_end (set_src _ _)).
    change (lx_input l) with (lx_input l1). change (lx_end l) with (lx_end l1). rewrite Hsuffix. cbn [mbind Outcome_bind].
    change (set_src (p + zlen (decimal n)) (set_src (p + zlen (decimal n)) l1)) with (set_src (p + zlen (decimal n)) l1).
    rewrite Hend. cbn [mbind Outcome_bind]. unfold END_TOKEN. cbv zeta.
    replace (p + zlen (decimal n) - p) with (zlen (decimal n)) by lia.
    match goal with |- context [substring ?i p _] => change i with (lx_input l) end.
    by rewrite (spelled_substring _ _ _ Hp Hs). }
  split; [apply Hread|]. split; [apply Hread|].
  assert (Hring2 : length (lx_tokenBuffer l2) = 16%nat) by (simpl; by rewrite !length_alter).
  assert (Htok2 : Lexer_Token l2 = set_kind TOKEN_INTEGER64 (set_length (wrapS 32 (zlen (decimal n))) (Lexer_Token l1))).
  { unfold l2. rewrite Token_END by done. do 3 f_equal. simpl. lia. }
  unfold ProcessIntegerValue, as_kind. cbn [default fst].
  split; [|done|done|by exists table|by exists []; rewrite app_nil_r| |].
  - unfold l2, END_TOKEN, l1. simpl. by repeat first [apply same_on_token|apply same_set_src|apply same_START].
  - rewrite !Token_on_token, Htok2, Htok by (simpl; rewrite ?length_alter; done). by split.
  - rewrite !Token_on_token, Htok2, Htok by (simpl; rewrite ?length_alter; done). done.
Qed.

Lemma number_read l names n p stop first ws : at_word l names (Number n) p stop -> valid_word (Number n) ->
  exists l' k names', next_round l p first ws = Done (Token_read l' k) /\ solid k
    /\ word_read l names (Number n) p first l' names'.
Proof.
  intros Ha Hn. pose proof Ha as [Hr _ [Hp Hrange] Hs Hstop]. simpl in Hrange, Hs.
  destruct (decimal_spec n Hn) as (Hdigits & Hnum & Hz & Hfirst).
  assert (Hc : exists c l0, decimal n = c :: l0 /\ zget (lx_input l) p = Some c /\ is_digit c = true
    /\ (c = "0"%code -> decimal n = ["0"%code] /\ n = 0)).
  { destruct (decimal n) as [|c l0] eqn:El; [by destruct Hz|]. exists c, l0. destruct Hs as [E _].
    apply Forall_cons in Hdigits as [Hd _]. destruct (digit_is c Hd) as (Hdc & Hv & _). split_and!; [done|done|done|].
    intros ->. destruct Hfirst as [?|(c & k & [= <- <-] & Hpos)]; [done|]. by rewrite Hv in Hpos. }
  destruct Hc as (c & l0 & El & E & Hd & Hzero).
  destruct (digit_case c) as (Ho & Hsingle); [eapply zget_byte; [apply Hr|exact E]|done|].
  rewrite (next_round_word l p first ws c E Ho), Hsingle, Hd.
  destruct (Z.eqb_spec c "0"%code) as [Hc0|Hne].
  - destruct (Hzero Hc0) as [E0 ->]. destruct (number_finish l names 0 p stop first (p + 1) complain_suffix Ha Hn) as (l' & _ & Hread & Hw).
    exists l', TOKEN_INTEGER64, names. split; [|by split]. unfold Lexer_ParseZero. cbv zeta.
    simpl (lx_src _). simpl (lx_input _). simpl (lx_end _). replace (p + 1 - 1) with p by lia.
    rewrite E0 in Hs, Hread, Hrange. change (zlen ["0"%code]) with 1 in *. destruct Hs as (Ez & Est & _).
    unfold peek. destruct (Z.ltb_spec (p + 1) (lx_end l)); [|lia]. rewrite Est. cbn [need mbind Outcome_bind].
    replace ((stop =? "x"%code) || (stop =? "X"%code)) with false by (by destruct Hstop as [-> | ->]).
    cbn iota. unfold ParseOctalInteger. destruct (Z.to_nat (lx_end l - p)) as [|[|fuel]] eqn:Ef; [lia|lia|].
    cbn [ParseOctal_loop]. destruct (Z.ltb_spec p (lx_end l)); [|lia]. rewrite Ez. cbn [need mbind Outcome_bind].
    change (is_octal "0"%code) with true. cbn iota.
    destruct (Z.ltb_spec (p + 1) (lx_end l)); [|lia]. rewrite Est. cbn [need mbind Outcome_bind].
    replace (is_octal stop) with false by (by destruct Hstop as [-> | ->]).
    replace (is_separator stop) with false by (by destruct Hstop as [-> | ->]).
    replace ((stop =? "8"%code) || (stop =? "9"%code)) with false by (by destruct Hstop as [-> | ->]).
    cbn iota. replace (p + 1 >? p) with true by (rewrite Z.gtb_ltb; lia).
    match goal with |- token (?o ≫= _) = _ => change o with (Done (p + 1, 0, true)) end. cbn [mbind Outcome_bind].
    rewrite Hread. done.
  - destruct (number_finish l names n p stop first (p + 1) Done Ha Hn) as (l' & Hread & _ & Hw).
    exists l', TOKEN_INTEGER64, names. split; [|by split]. unfold Lexer_ParseDigit. cbv zeta.
    simpl (lx_src _). simpl (lx_input _). simpl (lx_end _). replace (p + 1 - 1) with p by lia.
    unfold ParseDecimalInteger. rewrite (ParseDecimal_word _ _ p (decimal n) stop Hstop) by (try done; try lia; by rewrite Hnum; apply Hn).
    rewrite Hnum, Z.gtb_ltb. destruct (Z.ltb_spec p (p + zlen (decimal n))); [|lia]. cbn [mbind Outcome_bind].
    rewrite Hread. done.
Qed.
Lemma word_is_read l names w p stop first ws : at_word l names w p stop -> valid_word w ->
  exists l' k names', next_round l p first ws = Done (Token_read l' k) /\ solid k
    /\ word_read l names w p first l' names'.
Proof. destruct w; [by apply name_read|by apply number_read|by apply mark_read]. Qed.

(** A separator moves to the word behind it. *)
Lemma separator_round (l : Lexer) p newline first ws :
  zget (lx_input l) p = Some (separator newline) -> p + 1 <= lx_end l ->
  (p + 1 < lx_end l -> exists c, zget (lx_input l) (p + 1) = Some c /\ other_cases c = false) ->
  next_round l p first ws
  = Done (Retry (if newline then set_line (lx_line l + 1) (p + 1) l else l) (p + 1) newline).
Proof.
  intros E He Hnext. unfold next_round. rewrite E. cbn [need mbind Outcome_bind]. cbv zeta.
  assert (Hother : forall c, other_cases c = false -> is_blank c = false /\ (c =? 13) = false).
  { intros c H. unfold other_cases in H. by destruct (is_blank c), (c =? 10), (c =? 13). }
  destruct newline; cbn [separator].
  - change (is_blank 10) with false. change ((10 =? 10) || (10 =? 13)) with true. cbn iota. unfold peek.
    destruct (Z.ltb_spec (p + 1) (lx_end l)) as [Hlt|]; [|done].
    destruct (Hnext Hlt) as (c & -> & Hc). destruct (Hother c Hc) as [_ H]. cbn [need mbind Outcome_bind].
    change (if 10 =? 10 then 13 else 10) with 13. by rewrite (Z.eqb_sym 13 c), H.
  - change (is_blank 32) with true. cbn iota. unfold scan.
    destruct (Z.to_nat (lx_end l - (p + 1))) as [|fuel] eqn:Ef; cbn [scan_loop];
      destruct (Z.ltb_spec (p + 1) (lx_end l)) as [Hlt|]; try done; [lia|].
    destruct (Hnext Hlt) as (c & -> & Hc). destruct (Hother c Hc) as [H _]. cbn [need mbind Outcome_bind]. by rewrite H.
Qed.
(** The lexer behind a word, or at the start: a separator, or nothing, and words. *)
Definition behind (sep : option bool) : Str := match sep with Some newline => [separator newline] | None => [] end.

Record stands (l : Lexer) (names : list Str) (sep : option bool) (ws : list (lexeme * bool)) : Prop := {
  st_ready : ready_any l names;
  st_table : exists table, lx_symbolTable l = Some table /\ interned table names;
  st_unget : lx_ungetCount l = 0;
  st_src : 0 <= lx_src l;
  st_end : lx_src l + zlen (behind sep ++ spelled_words ws) = lx_end l;
  st_spelled : spelled (lx_input l) (lx_src l) (behind sep ++ spelled_words ws);
  st_valid : Forall (fun w => valid_word w.1) ws
}.

(** The lexer [l] moved over the separator. *)
Definition past (sep : option bool) (l : Lexer) : Lexer :=
  match sep with Some true => set_line (lx_line l + 1) (lx_src l + 1) l | _ => l end.

Lemma Next_past l names sep ws : stands l names sep ws ->
  let l1 := set_ring (lx_tokenIndex l + 1) 0 l in
  exists fuel spaces, Lexer_Next l = next_loop fuel (past sep l1) (lx_src l + zlen (behind sep)) (bool_decide (sep = Some true)) spaces
    /\ lx_end l - (lx_src l + zlen (behind sep)) <= Z.of_nat fuel.
Proof.
  intros [Hr Ht Hu Hsrc Hend Hs Hv]. cbv zeta. unfold Lexer_Next. rewrite Hu. cbn [Z.gtb Z.compare].
  set (l1 := set_ring (lx_tokenIndex l + 1) 0 l).
  change (lx_end (set_ring _ _ l)) with (lx_end l). change (lx_src (set_ring _ _ l)) with (lx_src l).
  change (Z.to_nat (lx_end l1 - lx_src l1)) with (Z.to_nat (lx_end l - lx_src l)).
  destruct sep as [newline|]; cbn [behind app] in *.
  - change (zlen [separator newline]) with 1. rewrite zlen_cons in Hend. pose proof (zlen_nonneg (spelled_words ws)).
    destruct (Z.to_nat (lx_end l - lx_src l)) as [|fuel] eqn:Ef; [lia|]. exists fuel, true. split; [|lia].
    cbn [next_loop]. simpl (lx_src l1). rewrite Z.geb_leb. simpl (lx_end l1). destruct (Z.leb_spec (lx_end l) (lx_src l)); [lia|].
    destruct Hs as [E Hs]. rewrite (separator_round l1 _ newline); [by destruct newline|exact E|simpl; lia|].
    simpl. intros Hlt. destruct ws as [|[w nl] ws]; simpl in Hs, Hend; [rewrite zlen_nil in Hend; lia|].
    apply Forall_cons in Hv as [Hw _]. apply (word_start _ _ w (separator nl)); [apply Hr|exact Hw|].
    rewrite cons_middle, app_assoc in Hs. by apply spelled_app in Hs as [Hs _].
  - rewrite zlen_nil, Z.add_0_r. eexists _, false. split; [reflexivity|]. lia.
Qed.

(** The end of the input, and a word. *)
Lemma Next_end l names sep : stands l names sep [] ->
  exists l', Lexer_Next l = Done (l', TOKEN_EOI) /\ (exists table, lx_symbolTable l' = Some table /\ interned table names)
    /\ kind (Lexer_Token l') = TOKEN_EOI
    /\ placed (lx_filename l) (lx_line (past sep l)) (lx_lineStart (past sep l)) (lx_src l + zlen (behind sep)) 0
         (bool_decide (sep = Some true)) (Lexer_Token l')
    /\ stands l' names None [].
Proof.
  intros Hst. destruct (Next_past _ _ _ _ Hst) as (fuel & spaces & -> & _).
  destruct Hst as [Hr Ht Hu Hsrc Hend _ _]. rewrite app_nil_r in Hend. set (p := lx_src l + zlen (behind sep)) in *.
  set (l1 := past sep (set_ring (lx_tokenIndex l + 1) 0 l)).
  assert (Hr1 : ready_any l1 names /\ lx_ungetCount l1 = 0).
  { unfold l1, past. destruct Hr. destruct sep as [[]|]; split; done. }
  assert (H1 : lx_end l1 = lx_end l /\ length (lx_tokenBuffer l1) = 16%nat /\ lx_symbolTable l1 = lx_symbolTable l
    /\ lx_filename l1 = lx_filename l /\ lx_line l1 = lx_line (past sep l) /\ lx_lineStart l1 = lx_lineStart (past sep l)).
  { unfold l1, past. pose proof (rd_ring _ _ Hr). destruct sep as [[]|]; done. }
  clearbody l1. destruct H1 as (He & Hring & Hsym & Hfile & Hline & Hstart).
  exists (SIMPLE_TOKEN p p TOKEN_EOI (bool_decide (sep = Some true)) l1).1. split.
  { destruct fuel; cbn [next_loop]; rewrite Z.geb_leb; (destruct (Z.leb_spec (lx_end l1) p); [done|lia]). }
  unfold SIMPLE_TOKEN. split; [simpl; by rewrite Hsym|].
  rewrite Token_END by (simpl; by rewrite length_alter). rewrite Token_START by done.
  split; [done|]. split; [split; [simpl; by rewrite Hfile, Hline, Hstart, Z.sub_diag|done]|].
  destruct Hr1 as [[] Hu1]. pose proof (zlen_nonneg (behind sep)).
  split; simpl; rewrite ?zlen_nil, ?Hsym; try done; try lia. by split; simpl; rewrite ?length_alter.
Qed.

Lemma Next_word l names sep w newline ws : stands l names sep ((w, newline) :: ws) ->
  exists l' k names', Lexer_Next l = Done (l', k) /\ solid k
    /\ content names' w (Lexer_Token l') /\ (exists more, names' = names ++ more /\ zlen more <= 1)
    /\ placed (lx_filename l) (lx_line (past sep l)) (lx_lineStart (past sep l)) (lx_src l + zlen (behind sep))
         (zlen (spelling w)) (bool_decide (sep = Some true)) (Lexer_Token l')
    /\ lx_src l' = lx_src l + zlen (behind sep) + zlen (spelling w)
    /\ lx_line l' = lx_line (past sep l) /\ lx_lineStart l' = lx_lineStart (past sep l) /\ lx_filename l' = lx_filename l
    /\ (zlen names' < 2 ^ 30 - 1 -> stands l' names' (Some newline) ws).
Proof.
  intros Hst. destruct (Next_past _ _ _ _ Hst) as (fuel & spaces & -> & Hfuel).
  destruct Hst as [Hr Ht Hu Hsrc Hend Hs Hv]. set (p := lx_src l + zlen (behind sep)) in *.
  set (l1 := past sep (set_ring (lx_tokenIndex l + 1) 0 l)).
  assert (H1 : ready_any l1 names /\ lx_input l1 = lx_input l /\ lx_end l1 = lx_end l /\ lx_ungetCount l1 = 0
    /\ lx_symbolTable l1 = lx_symbolTable l
    /\ lx_filename l1 = lx_filename l /\ lx_line l1 = lx_line (past sep l) /\ lx_lineStart l1 = lx_lineStart (past sep l)).
  { unfold l1, past. destruct Hr. destruct sep as [[]|]; split; done. }
  clearbody l1. destruct H1 as (Hr1 & Hin & He & Hu1 & Hsym & Hfile & Hline & Hstart).
  simpl in Hs. apply spelled_app in Hs as [_ Hs]. fold p in Hs. rewrite cons_middle, app_assoc in Hs.
  simpl in Hend. rewrite zlen_app, zlen_app, zlen_cons in Hend. fold p in Hend.
  apply Forall_cons in Hv as [Hw Hv]. pose proof (zlen_nonneg (spelled_words ws)). pose proof (zlen_nonneg (behind sep)).
  assert (Ha : at_word l1 names w p (separator newline)).
  { split; [done|by rewrite Hsym|unfold p in *; lia|rewrite Hin; by apply spelled_app in Hs as [Hs _]|by destruct newline; [right|left]]. }
  destruct (word_is_read l1 names w p _ (bool_decide (sep = Some true)) spaces Ha Hw) as (l' & k & names' & E & Hk & Hread).
  exists l', k, names'. pose proof (zlen_nonneg (spelling w)).
  destruct Hread as [[S1 S2 S3 S4 S5 _] Hsrc' (L1 & L2 & L3) Htab (more & Hnames & Hmore) Hplaced Hcontent].
  split.
  { destruct fuel as [|fuel]; [lia|]. cbn [next_loop]. rewrite Z.geb_leb. destruct (Z.leb_spec (lx_end l1) p); [lia|]. by rewrite E. }
  rewrite Hfile, Hline, Hstart in *.
  split; [done|]. split; [done|]. split; [by exists more|]. split; [done|]. split; [exact Hsrc'|]. split; [done|].
  split; [done|]. split; [done|]. intros Hz.
  assert (Hring' : length (lx_tokenBuffer l') = 16%nat) by (rewrite S3; apply Hr1).
  split; [|done|by rewrite S5|rewrite Hsrc'; unfold p; lia| |rewrite S1, Hin, Hsrc'|done].
  - destruct Htab as (table & Htab & Hi). destruct Hr1. split; rewrite ?S1, ?S2; try done. unfold symbols_ok. by rewrite Htab.
  - simpl. rewrite zlen_cons, S2, Hsrc'. lia.
  - rewrite <- app_assoc in Hs. by apply spelled_app in Hs as [_ Hs].
Qed.

Lemma words_lexed ws : forall l names sep fuel, stands l names sep ws -> (length ws < fuel)%nat ->
  zlen names + zlen ws < 2 ^ 30 - 1 ->
  exists l' tokens names', tokenize fuel l = Done (l', tokens)
    /\ (exists table, lx_symbolTable l' = Some table /\ interned table names')
    /\ (exists more, names' = names ++ more)
    /\ lexed names' (lx_filename l) (lx_line (past sep l)) (lx_lineStart (past sep l)) (lx_src l + zlen (behind sep))
         (bool_decide (sep = Some true)) ws tokens.
Proof.
  induction ws as [|[w newline] ws IH]; intros l names sep fuel Hst Hf Hz; (destruct fuel as [|fuel]; [simpl in Hf; lia|]);
    cbn [tokenize].
  - destruct (Next_end _ _ _ Hst) as (l' & -> & Ht & Hk & Hp & _). cbn [mbind Outcome_bind]. rewrite decide_True by done.
    exists l', [Lexer_Token l'], names. split; [done|]. split; [done|]. split; [by exists []; rewrite app_nil_r|]. by split.
  - rewrite zlen_cons in Hz. simpl in Hf. pose proof (zlen_nonneg ws).
    destruct (Next_word _ _ _ _ _ _ Hst)
      as (l1 & k & names1 & -> & Hk & Hc & (more & -> & Hmore) & Hp & Hsrc & Hl & Hls & Hfile & Hnext).
    cbn [mbind Outcome_bind]. rewrite decide_False by apply Hk. rewrite zlen_app in Hnext.
    destruct (IH l1 (names ++ more) (Some newline) fuel (Hnext ltac:(lia)) ltac:(lia)) as (l' & tokens & names' & -> & Ht & (more' & ->) & Hlex);
      [rewrite zlen_app; lia|].
    cbn [mbind Outcome_bind]. exists l', (Lexer_Token l1 :: tokens), ((names ++ more) ++ more').
    split; [done|]. split; [done|]. split; [by exists (more ++ more'); rewrite app_assoc|].
    cbn [lexed]. split; [by apply content_mono|]. split; [exact Hp|].
    rewrite Hfile, Hsrc in Hlex. destruct newline; simpl in Hlex; rewrite ?Hsrc, ?Hl, ?Hls in Hlex; exact Hlex.
Qed.
Lemma spelled_words_length ws : zlen ws <= zlen (spelled_words ws).
Proof.
  induction ws as [|[w newline] ws IH]; [done|]. simpl. rewrite zlen_cons, zlen_app, zlen_cons.
  pose proof (zlen_nonneg (spelling w)). lia.
Qed.

(** C13: what is written is read back: names of up to 63 bytes (letters, digits,
    the other ASCII characters of names and inner hyphens), the decimal digits of
    any unsigned 64-bit integer and single-character tokens, each followed by a
    space or a newline, anywhere in a text, are lexed into exactly one token each
    and then the end of the input.  Each token has the kind, the text and the symbol
    or value of its word, its line, column and length, and is the first of its line
    just if a newline precedes it. *)
Theorem words_roundtrip (pre post : Str) (ws : list (lexeme * bool)) filename line column table names :
  Forall is_byte (pre ++ spelled_words ws ++ post) -> Forall (fun w => valid_word w.1) ws ->
  interned table names -> zlen names + zlen (pre ++ spelled_words ws ++ post) < 2 ^ 30 - 2 ->
  exists l l' tokens table' more,
    Lexer_Create (pre ++ spelled_words ws ++ post) (zlen pre) (zlen (spelled_words ws)) filename line column = Some l
    /\ tokenize (S (length ws)) (Lexer_SetSymbolTable l table) = Done (l', tokens)
    /\ lx_symbolTable l' = Some table' /\ interned table' (names ++ more)
    /\ lexed (names ++ more) filename line (zlen pre - (column - 1)) (zlen pre) false ws tokens.
Proof.
  intros Hb Hv Ht Hz. set (text := pre ++ spelled_words ws ++ post) in *.
  assert (Hlen : zlen text = zlen pre + zlen (spelled_words ws) + zlen post) by (unfold text; rewrite !zlen_app; lia).
  pose proof (zlen_nonneg pre). pose proof (zlen_nonneg post). pose proof (zlen_nonneg names).
  pose proof (zlen_nonneg (spelled_words ws)). pose proof (spelled_words_length ws).
  destruct (Lexer_Create text (zlen pre) (zlen (spelled_words ws)) filename line column) as [l|] eqn:El.
  2: { unfold Lexer_Create in El. cbv zeta in El. rewrite !Z.gtb_ltb in El.
       destruct (_ || _) eqn:E in El; [|done]. repeat (apply orb_prop in E as [E|E]); zbool; lia. }
  destruct (Create_ready (W := True) _ _ _ _ _ _ _ table names Hb (fun _ => I) ltac:(lia) Ht Hz El) as (Hr & Hs & He & Hu & _ & _ & _ & Hin).
  destruct (words_lexed ws (Lexer_SetSymbolTable l table) names None (S (length ws)))
    as (l' & tokens & names' & Htok & (table' & Htab & Hi) & (more & ->) & Hlex); [|lia|lia|].
  - split; [done|by exists table|done|simpl; lia|simpl; lia| |done].
    simpl. rewrite Hs, Hin. unfold text. rewrite <- !app_assoc. apply spelled_within.
  - exists l, l', tokens, table', more. split; [done|]. split; [done|]. split; [done|]. split; [done|].
    simpl in Hlex. rewrite Hs, zlen_nil, Z.add_0_r in Hlex.
    unfold Lexer_Create in El. cbv zeta in El. destruct (_ || _) in El; [done|]. injection El as <-. exact Hlex.
Qed.
End Words.

(** ** Witnesses *)

#[local] Instance word_reals : RealParsers := {
  Real32_TryParse := fun _ => Some 0; Real64_TryParse := fun _ => Some 0; Real128_TryParse := fun _ => Some 0;
  strtod := fun _ => 0; float32_of := fun z => z
}.
#[local] Instance word_dict : MapOps Str Z (StringDictInt Z) := StringDict_ops zlen 0.
#[local] Instance word_laws : MapLaws Str Z (StringDictInt Z) := StringDict_laws zlen 0.

Definition example_words : list (lexeme * bool) :=
  [(Mark "["%code, false); (Name (bytes "foo-bar2"), false); (Number 90, false); (Mark "]"%code, true); (Name (bytes "x"), false)].

Example example_spelling : spelled_words example_words = bytes "[ foo-bar2 90 ]" ++ [10] ++ bytes "x ".
Proof. by vm_compute. Qed.

Lemma words_roundtrip_witness : exists table l l' tokens names,
  Lexer_Create (bytes "# " ++ spelled_words example_words ++ []) 2 18 None 7 1 = Some l
  /\ tokenize 6 (Lexer_SetSymbolTable l table) = Done (l', tokens)
  /\ lexed names None 7 2 2 false example_words tokens.
Proof.
  destruct (Create_interned (L := word_laws)) as (table & _ & Hi).
  destruct (words_roundtrip (Ops := word_dict) (Laws := word_laws) eq_refl ltac:(by vm_compute) (bytes "# ") [] example_words None 7 1 table [])
    as (l & l' & tokens & table' & more & Hl & Ht & _ & _ & Hlex).
  - vm_compute. repeat (constructor; [by split|]). constructor.
  - repeat (constructor; [vm_compute; by repeat (split || eexists)|]). constructor.
  - exact Hi.
  - by vm_compute.
  - exists table, l, l', tokens, ([] ++ more). split; [exact Hl|]. split; [exact Ht|exact Hlex].
Defined.
