(* ===== verification/LexerRing.v ===== *)
(** * LexerRing: tokens put back

    The lexer keeps the last 16 tokens in a ring; those put back are read again from
    there. *)

From Stdlib Require Import String.
From S2P Require Import Prelude IntMath FiniteMap Text TextProps StringBuilder IdentTable StringDict StringDictProps SymbolTable Lexer LexNames LexNumbers LexStrings LexerNext LexerScan LexerSafety.

Section Ring.
Context {D : Type} {Ops : MapOps Str Z D} {Laws : MapLaws Str Z D} {Real : RealParsers}.
Context (zero_is_absent : NULL_value = 0) (large : 2 ^ 30 <= capacity).

#[local] Notation Lexer := (Lexer D).

(** Read [n] tokens. *)
Fixpoint reads (n : nat) (l : Lexer) : Outcome (Lexer * list Token) :=
  match n with
  | O => Done (l, [])
  | S n => '(l, _) ← Lexer_Next l; '(l', tokens) ← reads n l; Done (l', Lexer_Token l :: tokens)
  end.

Lemma ring_slot_ne i j : 0 < i - j < 16 -> ring_slot i <> ring_slot j.
Proof.
  intros H. unfold ring_slot. change 15 with (Z.ones 4). rewrite !Z.land_ones by lia. change (2 ^ 4) with 16.
  pose proof (Z.mod_pos_bound i 16). pose proof (Z.mod_pos_bound j 16). pose proof (Z.div_mod i 16). pose proof (Z.div_mod j 16). lia.
Qed.

(** The last 16 of the tokens read are in the ring, the last one at the index. *)
Definition held (l : Lexer) (tokens : list Token) : Prop :=
  forall i t, tokens !! i = Some t -> zlen tokens - Z.of_nat i <= 16 ->
    lx_tokenBuffer l !! ring_slot (lx_tokenIndex l - (zlen tokens - 1 - Z.of_nat i)) = Some t.

Lemma held_next (l l' : Lexer) tokens : length (lx_tokenBuffer l) = 16%nat -> held l tokens ->
  same (set_ring (lx_tokenIndex l + 1) 0 l) l' -> held l' (tokens ++ [Lexer_Token l']).
Proof.
  intros Hring Hh [_ _ S3 S4 _ S6] i t Hi Hlast. simpl in *. rewrite zlen_app in *. change (zlen [_]) with 1 in *. rewrite S4.
  apply lookup_app_Some in Hi as [Hi|[Hi Ht]].
  - pose proof (lookup_lt_Some _ _ _ Hi). unfold zlen in *. rewrite S6 by (symmetry; apply ring_slot_ne; lia).
    rewrite <- (Hh i t Hi) by (unfold zlen; lia). unfold zlen. do 2 f_equal. lia.
  - apply list_lookup_singleton_Some in Ht as [Hi' <-]. unfold zlen in *.
    replace (lx_tokenIndex l + 1 - (Z.of_nat (length tokens) + 1 - 1 - Z.of_nat i)) with (lx_tokenIndex l') by lia.
    unfold Lexer_Token. pose proof (ring_slot_small (lx_tokenIndex l')).
    by destruct (lookup_lt_is_Some_2 (lx_tokenBuffer l') (ring_slot (lx_tokenIndex l')) ltac:(lia)) as [t ->].
Qed.

Lemma reads_held n : forall (l l' : Lexer) names before tokens,
  ready_any l names -> 0 <= lx_src l <= lx_end l + 1 -> lx_ungetCount l = 0 -> zlen names + Z.of_nat n < 2 ^ 30 - 1 ->
  held l before -> reads n l = Done (l', tokens) ->
  held l' (before ++ tokens) /\ lx_ungetCount l' = 0 /\ length tokens = n.
Proof.
  induction n as [|n IH]; intros l l' names before tokens Hr Hi Hu Hz Hh H; simpl in H.
  - injection H as <- <-. by rewrite app_nil_r.
  - pose proof (safe_Next zero_is_absent large l names Hr Hi Hu) as Hnext.
    destruct (Lexer_Next l) as [[l1 k]|]; [|done]. cbn [mbind Outcome_bind] in H. simpl in Hnext.
    pose proof (zlen_nonneg names).
    destruct (next_ready _ _ _ Hr Hnext ltac:(lia)) as (Hin & He & Hu1 & more & Hr1 & Hmore). simpl in *.
    destruct Hnext as (Hs & Hsrc & _). simpl in Hsrc, Hs.
    pose proof (held_next l l1 before (rd_ring _ _ Hr) Hh Hs) as Hh1.
    destruct (reads n l1) as [[l2 ts]|] eqn:E; [|done]. cbn [mbind Outcome_bind] in H. injection H as <- <-.
    destruct (IH l1 l2 _ (before ++ [Lexer_Token l1]) ts Hr1 ltac:(lia) Hu1 ltac:(rewrite zlen_app; lia) Hh1 E) as (Hh2 & Hu2 & Hn).
    rewrite <- app_assoc in Hh2. split; [exact Hh2|]. split; [done|]. simpl. by rewrite Hn.
Qed.

(** Sixteen places on is the same place. *)
Lemma ring_slot_round i : ring_slot (i - Z.of_nat 16) = ring_slot i.
Proof.
  unfold ring_slot. change 15 with (Z.ones 4). rewrite !Z.land_ones by lia. change (2 ^ 4) with 16.
  f_equal. replace (i - Z.of_nat 16) with (i + (-1) * 16) by lia. apply Z_mod_plus_full.
Qed.

Lemma iter_Unget j (l : Lexer) :
  Nat.iter j Lexer_Unget l = set_ring (lx_tokenIndex l - Z.of_nat j) (lx_ungetCount l + Z.of_nat j) l.
Proof.
  induction j as [|j IH]; simpl.
  - rewrite Z.sub_0_r, Z.add_0_r. by destruct l.
  - rewrite IH. unfold Lexer_Unget, set_ring. simpl. f_equal; lia.
Qed.

(** Reading the [j] tokens that were put back. *)
Lemma replay j : forall (l : Lexer) tokens, held l tokens -> Z.of_nat j <= 16 -> (j <= length tokens)%nat ->
  reads j (set_ring (lx_tokenIndex l - Z.of_nat j) (Z.of_nat j) l)
  = Done (set_ring (lx_tokenIndex l) 0 l, drop (length tokens - j) tokens).
Proof.
  induction j as [|j IH]; intros l tokens Hh Hj Hn.
  - simpl. by rewrite Z.sub_0_r, Nat.sub_0_r, drop_all.
  - cbn [reads]. unfold Lexer_Next. cbn [set_ring lx_ungetCount lx_tokenIndex].
    rewrite Z.gtb_ltb. destruct (Z.ltb_spec 0 (Z.of_nat (S j))); [|lia]. cbn [mbind Outcome_bind].
    match goal with |- context [reads j ?l1] =>
      replace l1 with (set_ring (lx_tokenIndex l - Z.of_nat j) (Z.of_nat j) l)
        by (unfold set_ring; simpl; f_equal; lia) end.
    rewrite (IH l tokens Hh ltac:(lia) ltac:(lia)). cbn [mbind Outcome_bind]. do 2 f_equal.
    destruct (lookup_lt_is_Some_2 tokens (length tokens - S j) ltac:(lia)) as [t Et].
    rewrite (drop_S tokens t _ Et). replace (S (length tokens - S j)) with (length tokens - j)%nat by lia. f_equal.
    unfold Lexer_Token. cbn [set_ring lx_tokenBuffer lx_tokenIndex].
    pose proof (Hh _ t Et) as H1. unfold zlen in H1. specialize (H1 ltac:(lia)).
    replace (lx_tokenIndex l - Z.of_nat j) with (lx_tokenIndex l - (Z.of_nat (length tokens) - 1 - Z.of_nat (length tokens - S j))) by lia.
    by rewrite H1.
Qed.

(** C17: up to fifteen tokens can be put back, as documented: after reading any
    number of tokens and [Lexer_Unget] called up to 15 times, the current token
    is the one read before those put back, and as many calls of [Lexer_Next] give
    the same tokens again, in order, and leave the lexer exactly as it was
    before.  A sixteenth call no longer keeps to this: the current token is then
    the last one read, which has been put back, as the ring has only 16 places. *)
Theorem Unget_replays (n j : nat) (l l' : Lexer) names tokens :
  ready_any l names -> 0 <= lx_src l <= lx_end l + 1 -> lx_ungetCount l = 0 -> zlen names + Z.of_nat n < 2 ^ 30 - 1 ->
  reads n l = Done (l', tokens) ->
  ((j <= n)%nat -> (j <= 15)%nat ->
     reads j (Nat.iter j Lexer_Unget l') = Done (l', drop (n - j) tokens)
     /\ ((j < n)%nat -> tokens !! (n - 1 - j)%nat = Some (Lexer_Token (Nat.iter j Lexer_Unget l'))))
  /\ Lexer_Token (Nat.iter 16 Lexer_Unget l') = Lexer_Token l'.
Proof.
  intros Hr Hi Hu Hz H.
  destruct (reads_held n l l' names [] tokens Hr Hi Hu Hz ltac:(intros ? ? [=]) H) as (Hh & Hu' & Hn). simpl in Hh.
  rewrite !iter_Unget, Hu', !Z.add_0_l. split.
  - intros Hj Hj15. split.
    + rewrite (replay j l' tokens Hh) by lia. rewrite Hn. f_equal. f_equal.
      unfold set_ring. rewrite <- Hu'. by destruct l'.
    + intros Hlt. destruct (lookup_lt_is_Some_2 tokens (n - 1 - j) ltac:(lia)) as [t Et]. rewrite Et.
      pose proof (Hh _ t Et) as Hslot. unfold zlen in Hslot. specialize (Hslot ltac:(lia)).
      unfold Lexer_Token. cbn [set_ring lx_tokenBuffer lx_tokenIndex].
      replace (lx_tokenIndex l' - Z.of_nat j)
        with (lx_tokenIndex l' - (Z.of_nat (length tokens) - 1 - Z.of_nat (n - 1 - j))) by lia.
      by rewrite Hslot.
  - unfold Lexer_Token. cbn [set_ring lx_tokenBuffer lx_tokenIndex]. by rewrite ring_slot_round.
Qed.
End Ring.

(** ** Witness *)

#[local] Instance ring_reals : RealParsers := {
  Real32_TryParse := fun _ => Some 0; Real64_TryParse := fun _ => Some 0; Real128_TryParse := fun _ => Some 0;
  strtod := fun _ => 0; float32_of := fun z => z
}.
#[local] Instance ring_dict : MapOps Str Z (StringDictInt Z) := StringDict_ops zlen 0.
#[local] Instance ring_laws : MapLaws Str Z (StringDictInt Z) := StringDict_laws zlen 0.

Definition letters : Str := bytes "a b c d e f g h i j k l m n o p q r s t".

Lemma letters_ready : ready_any (lexer_of (D := StringDictInt Z) letters) [].
Proof.
  split; simpl; [|by vm_compute|by vm_compute|done|done|done|by vm_compute].
  apply Forall_app. split; [|by apply Forall_singleton].
  vm_compute. repeat (constructor; [by split|]). constructor.
Qed.

Lemma letters_range : 0 <= lx_src (lexer_of (D := StringDictInt Z) letters) <= lx_end (lexer_of (D := StringDictInt Z) letters) + 1
  /\ zlen (@nil Str) + Z.of_nat 20 < 2 ^ 30 - 1 /\ 2 ^ 30 <= capacity (MapLaws := ring_laws) /\ (15 <= 20)%nat /\ (15 <= 15)%nat
  /\ (15 < 20)%nat.
Proof. split_and!; first [by vm_compute|lia]. Qed.

Lemma Unget_replays_witness : exists l' tokens,
  reads 20 (lexer_of (D := StringDictInt Z) letters) = Done (l', tokens)
  /\ reads 15 (Nat.iter 15 Lexer_Unget l') = Done (l', drop 5 tokens)
  /\ tokens !! 4%nat = Some (Lexer_Token (Nat.iter 15 Lexer_Unget l'))
  /\ Lexer_Token (Nat.iter 16 Lexer_Unget l') = Lexer_Token l'.
Proof.
  destruct (reads 20 (lexer_of (D := StringDictInt Z) letters)) as [[l' tokens]|] eqn:E; [|vm_compute in E; discriminate E].
  exists l', tokens. split; [reflexivity|].
  destruct letters_range as (H1 & H2 & H3 & H4 & H5 & H6).
  destruct (Unget_replays (Laws := ring_laws) eq_refl H3 20 15 _ l' [] tokens letters_ready H1 eq_refl H2 E) as [Hj H16].
  destruct (Hj H4 H5) as [Hreads Hcurrent]. split; [exact Hreads|]. split; [exact (Hcurrent H6)|exact H16].
Defined.
