(* ===== verification/LexerNumerals.v ===== *)
(** * LexerNumerals: the values of integer literals

    An integer literal in base 8, 10 or 16, with its separators, has exactly the
    value its digits denote if that fits 64 bits, and is refused otherwise; its
    suffix then decides the type it must fit. *)

From Stdlib Require Import String.
From S2P Require Import Prelude IntMath FiniteMap Text TextProps StringBuilder IdentTable SymbolTable Lexer LexNames LexNumbers LexerNext LexerScan LexerSafety LexerWords.

(** The text [s] lies at [p] and the scan of it by [more] ends behind it. *)
Definition ends_at (input : list Z) (end_ : Z) (more : Z -> bool) (p : Z) : Prop :=
  p = end_ \/ p < end_ /\ exists c, zget input p = Some c /\ more c = false.

Lemma scan_all (more : Z -> bool) input end_ s p : 0 <= p -> p + zlen s <= end_ -> spelled input p s ->
  Forall (fun c => more c = true) s -> ends_at input end_ more (p + zlen s) ->
  scan more input end_ p = Done (p + zlen s).
Proof.
  unfold scan. intros Hp He Hs Hm Hend. remember (Z.to_nat (end_ - p)) as fuel eqn:Ef.
  revert p fuel Hp He Hs Hend Ef. induction Hm as [|c s Hc Hm IH]; intros p fuel Hp He Hs Hend Ef.
  - rewrite zlen_nil, Z.add_0_r in *. destruct Hend as [->|(Hlt & c & E & Hc)].
    + destruct fuel; cbn [scan_loop]; destruct (Z.ltb_spec end_ end_); done || lia.
    + destruct fuel as [|fuel]; [lia|]. cbn [scan_loop]. destruct (Z.ltb_spec p end_); [|lia].
      rewrite E. cbn [need mbind Outcome_bind]. by rewrite Hc.
  - rewrite zlen_cons in *. pose proof (zlen_nonneg s). destruct fuel as [|fuel]; [lia|]. destruct Hs as [E Hs].
    cbn [scan_loop]. destruct (Z.ltb_spec p end_); [|lia]. rewrite E. cbn [need mbind Outcome_bind]. rewrite Hc.
    replace (p + (zlen s + 1)) with (p + 1 + zlen s) in * by lia. apply IH; solve [done|lia].
Qed.

(** The value of the digits among the characters of a literal. *)
Definition literal_value (b : Z) (digit : Z -> bool) (s : Str) : Z := number b 0 (List.filter digit s).

(** What the parsers answer for the literal [s] at [p]. *)
Definition literal_result (p : Z) (s : Str) (value : Z) : Z * Z * bool :=
  if value <? 2 ^ 64 then (p + zlen s, value, true) else (p + zlen s, 0, false).

(** A digit of base [b] moves a value past 64 bits or not. *)
Lemma number_step b a (digit : Z -> bool) s : 2 <= b -> 0 <= a -> (forall c, digit c = true -> 0 <= digitValue c) ->
  a <= number b a (List.filter digit s).
Proof.
  intros Hb Ha Hd. revert a Ha. induction s as [|c s IH]; intros a Ha; simpl; [lia|].
  destruct (digit c) eqn:E; [|by apply IH]. rewrite number_cons. specialize (Hd c E). etrans; [|apply IH]; nia.
Qed.

Lemma octal_value c : is_octal c = true -> digitValue c = c - "0"%code /\ 0 <= c - "0"%code < 8 /\ is_digit c = true.
Proof.
  unfold is_octal. intros H. assert (Hd : is_digit c = true) by (unfold is_digit, within in *; lia).
  unfold digitValue. rewrite Hd. unfold within in H. split; [done|]. split; [lia|done].
Qed.

Lemma decimal_value c : is_digit c = true -> digitValue c = c - "0"%code /\ 0 <= c - "0"%code < 10.
Proof. intros H. unfold digitValue. rewrite H. unfold is_digit, within in H. split; [done|lia]. Qed.

Lemma hex_value c : is_hex c = true -> digitValue c = HexValue c /\ 0 <= HexValue c < 16.
Proof.
  unfold is_hex, digitValue, HexValue, is_digit, is_upper, is_lower, within. intros H. repeat case_match; lia.
Qed.

Lemma separator_not_digit c : is_separator c = true -> is_digit c = false /\ is_octal c = false /\ is_hex c = false.
Proof. unfold is_separator, is_hex, is_digit, is_octal, within, QUOTE. intros H. lia. Qed.

Section Literals.
Context (input : list Z) (end_ : Z).

(** Overflow: the rest of the literal is skipped. *)
Lemma overflow_rest more s p : 0 <= p -> p + zlen s <= end_ -> spelled input p s ->
  Forall (fun c => more c = true) s -> ends_at input end_ more (p + zlen s) ->
  (src ← scan more input end_ p; Done (src, 0, false)) = Done (p + zlen s, 0, false).
Proof. intros. by rewrite (scan_all more input end_ s p). Qed.

Lemma Decimal_literal s : forall fuel p start a, Z.to_nat (end_ - p) = fuel -> 0 <= p -> p + zlen s <= end_ -> start < p + zlen s ->
  spelled input p s -> Forall (fun c => digit_or_separator c = true) s ->
  ends_at input end_ digit_or_separator (p + zlen s) -> 0 <= a < 2 ^ 64 ->
  ParseDecimal_loop fuel input end_ start p a = Done (literal_result p s (number 10 a (List.filter is_digit s))).
Proof.
  induction s as [|c s IH]; intros fuel p start a Hf Hp He Hstart Hs Hm Hend Ha.
  - rewrite zlen_nil, Z.add_0_r in *. simpl. unfold literal_result. rewrite zlen_nil, Z.add_0_r.
    destruct (Z.ltb_spec a (2 ^ 64)); [|lia].
    assert (Hgt : (p >? start) = true) by (rewrite Z.gtb_ltb; lia).
    destruct Hend as [->|(Hlt & c & E & Hc)].
    + destruct fuel; cbn [ParseDecimal_loop]; (destruct (Z.ltb_spec end_ end_); [lia|]); by rewrite Hgt.
    + destruct fuel as [|fuel]; [lia|]. cbn [ParseDecimal_loop]. destruct (Z.ltb_spec p end_); [|lia].
      rewrite E. cbn [need mbind Outcome_bind]. unfold digit_or_separator in Hc. apply orb_false_elim in Hc as [-> ->].
      by rewrite Hgt.
  - pose proof Hs as [E Hs']. pose proof Hm as Hm0. apply Forall_cons in Hm as [Hc Hm].
    assert (Hlen : p + zlen (c :: s) = p + 1 + zlen s) by (rewrite zlen_cons; lia). pose proof (zlen_nonneg s).
    assert (Hres : forall v, literal_result p (c :: s) v = literal_result (p + 1) s v) by (intros v; unfold literal_result; by rewrite Hlen).
    assert (Hskip : forall v, 2 ^ 64 <= v -> (src ← scan digit_or_separator input end_ p; Done (src, 0, false))
      = Done (literal_result p (c :: s) v)).
    { intros v Hv. rewrite (overflow_rest digit_or_separator (c :: s)) by done. unfold literal_result.
      by destruct (Z.ltb_spec v (2 ^ 64)); [lia|]. }
    destruct fuel as [|fuel]; [lia|]. cbn [ParseDecimal_loop]. destruct (Z.ltb_spec p end_); [|lia].
    rewrite E. cbn [need mbind Outcome_bind List.filter]. destruct (is_digit c) eqn:Ed.
    + destruct (decimal_value c Ed) as [Hv Hr]. cbv zeta. rewrite number_cons, Hv.
      pose proof (number_step 10 (a * 10 + (c - "0"%code)) is_digit s ltac:(lia) ltac:(lia)
        (fun c H => ltac:(destruct (decimal_value c H); lia))) as Hle.
      rewrite Z.gtb_ltb. destruct (Z.ltb_spec 0x1999999999999999 a); [apply Hskip; lia|].
      rewrite (wrapU_id 64 (a * 10)) by (unfold inU; lia).
      destruct (Z.ltb_spec (0xFFFFFFFFFFFFFFFF - (c - "0"%code)) (a * 10)); [apply Hskip; lia|].
      rewrite wrapU_id, Hres by (unfold inU; lia). apply IH; rewrite <- ?Hlen; solve [done|lia].
    + assert (Hsep : is_separator c = true) by (unfold digit_or_separator in Hc; by rewrite Ed in Hc).
      rewrite Hsep, Hres. apply IH; rewrite <- ?Hlen; solve [done|lia].
Qed.

Definition octal_or_separator (c : Z) : bool := is_octal c || is_separator c.

Lemma octal_in_literal s : Forall (fun c => octal_or_separator c = true) s -> Forall (fun c => digit_or_separator c = true) s.
Proof.
  intros H. eapply Forall_impl; [exact H|]. intros c Hc. unfold digit_or_separator. apply orb_prop in Hc as [Hc|Hc].
  - by destruct (octal_value c Hc) as (_ & _ & ->).
  - by rewrite Hc, orb_true_r.
Qed.

Lemma Octal_literal s : forall fuel p start a, Z.to_nat (end_ - p) = fuel -> 0 <= p -> p + zlen s <= end_ -> start < p + zlen s ->
  spelled input p s -> Forall (fun c => octal_or_separator c = true) s ->
  ends_at input end_ digit_or_separator (p + zlen s) -> 0 <= a < 2 ^ 64 ->
  ParseOctal_loop fuel input end_ start p a = Done (literal_result p s (number 8 a (List.filter is_octal s))).
Proof.
  induction s as [|c s IH]; intros fuel p start a Hf Hp He Hstart Hs Hm Hend Ha.
  - rewrite zlen_nil, Z.add_0_r in *. simpl. unfold literal_result. rewrite zlen_nil, Z.add_0_r.
    destruct (Z.ltb_spec a (2 ^ 64)); [|lia].
    assert (Hgt : (p >? start) = true) by (rewrite Z.gtb_ltb; lia).
    destruct Hend as [->|(Hlt & c & E & Hc)].
    + destruct fuel; cbn [ParseOctal_loop]; (destruct (Z.ltb_spec end_ end_); [lia|]); by rewrite Hgt.
    + destruct fuel as [|fuel]; [lia|]. cbn [ParseOctal_loop]. destruct (Z.ltb_spec p end_); [|lia].
      rewrite E. cbn [need mbind Outcome_bind]. unfold digit_or_separator in Hc. apply orb_false_elim in Hc as [Hd ->].
      assert (Ho : is_octal c = false /\ (c =? "8"%code) || (c =? "9"%code) = false)
        by (unfold is_octal, is_digit, within in *; lia).
      destruct Ho as [-> ->]. by rewrite Hgt.
  - pose proof Hs as [E Hs']. pose proof (octal_in_literal _ Hm) as Hm0. apply Forall_cons in Hm as [Hc Hm].
    assert (Hlen : p + zlen (c :: s) = p + 1 + zlen s) by (rewrite zlen_cons; lia). pose proof (zlen_nonneg s).
    assert (Hres : forall v, literal_result p (c :: s) v = literal_result (p + 1) s v) by (intros v; unfold literal_result; by rewrite Hlen).
    destruct fuel as [|fuel]; [lia|]. cbn [ParseOctal_loop]. destruct (Z.ltb_spec p end_); [|lia].
    rewrite E. cbn [need mbind Outcome_bind List.filter]. destruct (is_octal c) eqn:Ed.
    + destruct (octal_value c Ed) as (Hv & Hr & _). cbv zeta. rewrite number_cons, Hv.
      pose proof (number_step 8 (a * 8 + (c - "0"%code)) is_octal s ltac:(lia) ltac:(lia)
        (fun c H => ltac:(destruct (octal_value c H) as (? & ? & _); lia))) as Hle.
      rewrite Z.gtb_ltb. destruct (Z.ltb_spec 0x1FFFFFFFFFFFFFFF a).
      { rewrite (overflow_rest digit_or_separator (c :: s)) by done. unfold literal_result.
        destruct (Z.ltb_spec (number 8 (a * 8 + (c - "0"%code)) (List.filter is_octal s)) (2 ^ 64)); [lia|done]. }
      rewrite Z.shiftl_mul_pow2 by lia. change (2 ^ 3) with 8. rewrite (wrapU_id 64 (a * 8)) by (unfold inU; lia).
      destruct (Z.ltb_spec (0xFFFFFFFFFFFFFFFF - (c - "0"%code)) (a * 8)); [lia|].
      rewrite Z.lor_comm. change 8 with (2 ^ 3) at 1. rewrite (lor_high 3) by (simpl; lia). change (2 ^ 3) with 8.
      rewrite Hres, (Z.add_comm (c - _)). apply IH; rewrite <- ?Hlen; solve [done|lia].
    + assert (Hsep : is_separator c = true) by (unfold octal_or_separator in Hc; by rewrite Ed in Hc).
      rewrite Hsep, Hres. apply IH; rewrite <- ?Hlen; solve [done|lia].
Qed.

Lemma Hexadecimal_literal s : forall fuel p start a, Z.to_nat (end_ - p) = fuel -> 0 <= p -> p + zlen s <= end_ -> start < p + zlen s ->
  spelled input p s -> Forall (fun c => hex_or_separator c = true) s ->
  ends_at input end_ hex_or_separator (p + zlen s) -> 0 <= a < 2 ^ 64 ->
  ParseHexadecimal_loop fuel input end_ start p a = Done (literal_result p s (number 16 a (List.filter is_hex s))).
Proof.
  induction s as [|c s IH]; intros fuel p start a Hf Hp He Hstart Hs Hm Hend Ha.
  - rewrite zlen_nil, Z.add_0_r in *. simpl. unfold literal_result. rewrite zlen_nil, Z.add_0_r.
    destruct (Z.ltb_spec a (2 ^ 64)); [|lia].
    assert (Hgt : (p >? start) = true) by (rewrite Z.gtb_ltb; lia).
    destruct Hend as [->|(Hlt & c & E & Hc)].
    + destruct fuel; cbn [ParseHexadecimal_loop]; (destruct (Z.ltb_spec end_ end_); [lia|]); by rewrite Hgt.
    + destruct fuel as [|fuel]; [lia|]. cbn [ParseHexadecimal_loop]. destruct (Z.ltb_spec p end_); [|lia].
      rewrite E. cbn [need mbind Outcome_bind]. unfold hex_or_separator in Hc. apply orb_false_elim in Hc as [-> ->].
      by rewrite Hgt.
  - pose proof Hs as [E Hs']. pose proof Hm as Hm0. apply Forall_cons in Hm as [Hc Hm].
    assert (Hlen : p + zlen (c :: s) = p + 1 + zlen s) by (rewrite zlen_cons; lia). pose proof (zlen_nonneg s).
    assert (Hres : forall v, literal_result p (c :: s) v = literal_result (p + 1) s v) by (intros v; unfold literal_result; by rewrite Hlen).
    destruct fuel as [|fuel]; [lia|]. cbn [ParseHexadecimal_loop]. destruct (Z.ltb_spec p end_); [|lia].
    rewrite E. cbn [need mbind Outcome_bind List.filter]. destruct (is_hex c) eqn:Ed.
    + destruct (hex_value c Ed) as (Hv & Hr). cbv zeta. rewrite number_cons, Hv.
      pose proof (number_step 16 (a * 16 + HexValue c) is_hex s ltac:(lia) ltac:(lia)
        (fun c H => ltac:(destruct (hex_value c H); lia))) as Hle.
      rewrite Z.gtb_ltb. destruct (Z.ltb_spec 0x0FFFFFFFFFFFFFFF a).
      { rewrite (overflow_rest hex_or_separator s) by (rewrite <- ?Hlen; done || lia). rewrite Hres. unfold literal_result.
        destruct (Z.ltb_spec (number 16 (a * 16 + HexValue c) (List.filter is_hex s)) (2 ^ 64)); [lia|done]. }
      rewrite Z.shiftl_mul_pow2 by lia. change (2 ^ 4) with 16. rewrite (wrapU_id 64 (a * 16)) by (unfold inU; lia).
      rewrite Z.lor_comm. change 16 with (2 ^ 4) at 1. rewrite (lor_high 4) by (simpl; lia). change (2 ^ 4) with 16.
      rewrite Hres, (Z.add_comm (HexValue c)). apply IH; rewrite <- ?Hlen; solve [done|lia].
    + assert (Hsep : is_separator c = true) by (unfold hex_or_separator in Hc; by rewrite Ed in Hc).
      rewrite Hsep, Hres. apply IH; rewrite <- ?Hlen; solve [done|lia].
Qed.

(** C16: integer literals have their exact value or are refused: for any literal of
    decimal, octal or hexadecimal digits and separators, as long as it likes, the
    parser stops right behind it and answers the number its digits denote if that is
    below 2^64, and a failure if it is not; no overflow goes unnoticed. *)
Theorem integer_literals_exact (p : Z) (s : Str) :
  0 <= p -> p + zlen s <= end_ -> spelled input p s -> s <> [] ->
  (Forall (fun c => digit_or_separator c = true) s -> ends_at input end_ digit_or_separator (p + zlen s) ->
   ParseDecimalInteger input p end_ = Done (literal_result p s (literal_value 10 is_digit s)))
  /\ (Forall (fun c => octal_or_separator c = true) s -> ends_at input end_ digit_or_separator (p + zlen s) ->
   ParseOctalInteger input p end_ = Done (literal_result p s (literal_value 8 is_octal s)))
  /\ (Forall (fun c => hex_or_separator c = true) s -> ends_at input end_ hex_or_separator (p + zlen s) ->
   ParseHexadecimalInteger input p end_ = Done (literal_result p s (literal_value 16 is_hex s))).
Proof.
  intros Hp He Hs Hne. assert (Hpos : p < p + zlen s).
  { destruct s; [done|]. rewrite zlen_cons. pose proof (zlen_nonneg s). lia. }
  split; [|split]; intros Hm Hend.
  - by apply Decimal_literal.
  - by apply Octal_literal.
  - by apply Hexadecimal_literal.
Qed.
End Literals.

(** ** Suffixes *)

Section Suffixes.
Context {D : Type} {Ops : MapOps Str Z D}.

(** The integers that [x], [s] and [t] accept, and what they store. *)
Definition suffix_bound (c : Z) : option (Z * TokenKind * (Z -> TokenData)) :=
  if (c =? "x"%code) || (c =? "X"%code) then Some (257, TOKEN_BYTE, fun v => DataByte (wrapU 8 v))
  else if (c =? "s"%code) || (c =? "S"%code) then Some (65537, TOKEN_INTEGER16, fun v => DataInt16 (wrapS 16 v))
  else if (c =? "t"%code) || (c =? "T"%code) then Some (2 ^ 32, TOKEN_INTEGER32, fun v => DataInt32 (wrapS 32 v))
  else None.

(** C34: the suffix of an integer literal decides its type and bound: without one it is
    a 64-bit integer; [x], [s] and [t] make a byte, a 16-bit and a 32-bit integer of
    values below 257, 65537 and 2^32, in two's complement, and an error of
    anything larger; every other suffix is an error.  So 256 and 65536, which do not
    fit, are taken and become 0. *)
Theorem integer_suffixes (l : Lexer D) (value : Z) (text : Str) (suffix : Str) :
  length (lx_tokenBuffer l) = 16%nat -> 0 <= value < 2 ^ 64 ->
  let '(l', k) := ProcessIntegerValue l value text (Some suffix) in
  kind (Lexer_Token l') = k
  /\ match suffix with
     | [] => k = TOKEN_INTEGER64 /\ data (Lexer_Token l') = DataInt64 (wrapS 64 value) /\ token_text (Lexer_Token l') = Text text
     | [c] =>
         match suffix_bound c with
         | Some (bound, type, stored) =>
             if value <? bound
             then k = type /\ data (Lexer_Token l') = stored value /\ token_text (Lexer_Token l') = Text text
             else k = TOKEN_ERROR
         | None => k = TOKEN_ERROR
         end
     | _ => k = TOKEN_ERROR
     end.
Proof.
  intros Hring Hv.
  assert (Htok : forall f k, Lexer_Token (on_token (set_kind k) (on_token f l)) = set_kind k (f (Lexer_Token l))).
  { intros f k. rewrite !Token_on_token; [done|done|]. simpl. by rewrite length_alter. }
  assert (Hsized : forall fits type k d, let '(l', k') := sized_value fits type k d text l in
    kind (Lexer_Token l') = k'
    /\ if fits then k' = k /\ data (Lexer_Token l') = d /\ token_text (Lexer_Token l') = Text text else k' = TOKEN_ERROR).
  { intros fits type k d. unfold sized_value, as_kind. destruct fits; cbv beta iota; by rewrite Htok. }
  unfold ProcessIntegerValue. destruct suffix as [|c [|d suffix]]; cbn [default id]; unfold as_kind;
    [cbv beta iota; by rewrite Htok| |cbv beta iota; by rewrite Htok].
  unfold suffix_bound.
  assert (Hbound : forall b, negb (value >? b) = (value <? b + 1)) by (intros b; rewrite Z.gtb_ltb; lia).
  assert (Hge : forall b, negb (value >=? b) = (value <? b)) by (intros b; rewrite Z.geb_leb; lia).
  destruct ((c =? "s"%code) || (c =? "S"%code)) eqn:Es; [|destruct ((c =? "t"%code) || (c =? "T"%code)) eqn:Et;
    [|destruct ((c =? "x"%code) || (c =? "X"%code)) eqn:Ex]].
  - assert (Ex : (c =? "x"%code) || (c =? "X"%code) = false) by lia. rewrite Ex.
    change (Z.shiftl 1 16) with 65536. change 65537 with (65536 + 1).
    rewrite <- (wrapS_wrapU 16 value), <- (Hbound 65536) by lia. apply Hsized.
  - assert (Ex : (c =? "x"%code) || (c =? "X"%code) = false) by lia. rewrite Ex.
    change (Z.shiftl 1 32) with (2 ^ 32). rewrite <- (wrapS_wrapU 32 value), <- (Hge (2 ^ 32)) by lia. apply Hsized.
  - change 257 with (256 + 1). rewrite <- (Hbound 256). specialize (Hsized (negb (value >? 256)) "Byte"%string TOKEN_BYTE (DataByte (wrapU 8 (wrapU 32 value)))).
    replace (wrapU 8 value) with (wrapU 8 (wrapU 32 value)); [exact Hsized|].
    unfold wrapU. change (2 ^ 32) with (2 ^ 24 * 2 ^ 8). rewrite Z.mul_comm, Z.rem_mul_r by lia.
    by rewrite Z.mul_comm, Z_mod_plus_full, Z.mod_mod.
  - cbv beta iota. by rewrite Htok.
Qed.
End Suffixes.

(** ** Witnesses *)

Lemma too_large_decimal : let s := bytes "18446744073709551616" in let input := bytes "18446744073709551616 " in
  0 <= 0 /\ 0 + zlen s <= 21 /\ spelled input 0 s /\ s <> [] /\ Forall (fun c => digit_or_separator c = true) s
  /\ ends_at input 21 digit_or_separator (0 + zlen s).
Proof.
  split; [lia|]. split; [by vm_compute|]. split; [vm_compute; by repeat split|]. split; [done|].
  split; [vm_compute; by repeat constructor|]. right. split; [by vm_compute|]. exists 32. by vm_compute.
Qed.

Lemma integer_literals_exact_witness :
  ParseDecimalInteger (bytes "18446744073709551616 ") 0 21 = Done (20, 0, false).
Proof.
  destruct too_large_decimal as (H1 & H2 & H3 & H4 & H5 & H6).
  exact (proj1 (integer_literals_exact _ 21 0 _ H1 H2 H3 H4) H5 H6).
Defined.

Lemma integer_suffixes_witness :
  let l := lexer_of (D := unit) [] in
  (ProcessIntegerValue l 65536 (bytes "65536") (Some (bytes "s"))).2 = TOKEN_INTEGER16
  /\ (ProcessIntegerValue l 65537 (bytes "65537") (Some (bytes "s"))).2 = TOKEN_ERROR.
Proof.
  intros l. split.
  - exact (proj1 (proj2 (integer_suffixes l 65536 (bytes "65536") (bytes "s") eq_refl ltac:(by vm_compute)))).
  - exact (proj2 (integer_suffixes l 65537 (bytes "65537") (bytes "s") eq_refl ltac:(by vm_compute))).
Defined.
