(* ===== verification/Opcode.v ===== *)
(** * Opcode: the instruction set of the evaluator

    [include/smile/eval/opcode.h]: the 256 opcodes of the byte-code machine
    with their byte values, decoding, the arithmetic the compiler performs on
    enumerators ([Op_LdLoc0 + functionDepth], [Op_Met0 + length]), and the
    change of the temporary stack each opcode documents in its comment. *)

From S2P Require Import Prelude.

(** The enumeration, in the order of its byte values. *)
Inductive Opcode : Type :=
  | Op_Nop | Op_Dup1 | Op_Dup2 | Op_Dup | Op_04 | Op_Pop1 | Op_Pop2 | Op_Pop
  | Op_08 | Op_Rep1 | Op_Rep2 | Op_Rep | Op_0C | Op_0D | Op_0E | Op_Brk
  | Op_LdNull | Op_LdBool | Op_LdStr | Op_LdSym | Op_LdObj | Op_LdClos | Op_LdChar | Op_LdUni
  | Op_Ld8 | Op_Ld16 | Op_Ld32 | Op_Ld64 | Op_Ld128 | Op_1D | Op_1E | Op_1F
  | Op_20 | Op_LdR16 | Op_LdR32 | Op_LdR64 | Op_LdR128 | Op_25 | Op_26 | Op_27
  | Op_28 | Op_LdF16 | Op_LdF32 | Op_LdF64 | Op_LdF128 | Op_2D | Op_2E | Op_2F
  | Op_LdLoc | Op_StLoc | Op_StpLoc | Op_33 | Op_LdArg | Op_StArg | Op_StpArg | Op_37
  | Op_LdX | Op_StX | Op_StpX | Op_3B | Op_NullLoc0 | Op_NullArg0 | Op_NullX | Op_3F
  | Op_LdArg0 | Op_LdArg1 | Op_LdArg2 | Op_LdArg3 | Op_LdArg4 | Op_LdArg5 | Op_LdArg6 | Op_LdArg7
  | Op_LdLoc0 | Op_LdLoc1 | Op_LdLoc2 | Op_LdLoc3 | Op_LdLoc4 | Op_LdLoc5 | Op_LdLoc6 | Op_LdLoc7
  | Op_StArg0 | Op_StArg1 | Op_StArg2 | Op_StArg3 | Op_StArg4 | Op_StArg5 | Op_StArg6 | Op_StArg7
  | Op_StLoc0 | Op_StLoc1 | Op_StLoc2 | Op_StLoc3 | Op_StLoc4 | Op_StLoc5 | Op_StLoc6 | Op_StLoc7
  | Op_StpArg0 | Op_StpArg1 | Op_StpArg2 | Op_StpArg3 | Op_StpArg4 | Op_StpArg5 | Op_StpArg6 | Op_StpArg7
  | Op_StpLoc0 | Op_StpLoc1 | Op_StpLoc2 | Op_StpLoc3 | Op_StpLoc4 | Op_StpLoc5 | Op_StpLoc6 | Op_StpLoc7
  | Op_LdProp | Op_StProp | Op_StpProp | Op_73 | Op_LdMember | Op_StMember | Op_StpMember | Op_77
  | Op_78 | Op_79 | Op_7A | Op_7B | Op_7C | Op_7D | Op_7E | Op_LdInclude
  | Op_Cons | Op_Car | Op_Cdr | Op_83 | Op_84 | Op_85 | Op_86 | Op_87
  | Op_NewFn | Op_NewObj | Op_8A | Op_SuperEq | Op_SuperNe | Op_Not | Op_Is | Op_TypeOf
  | Op_Call0 | Op_Call1 | Op_Call2 | Op_Call3 | Op_Call4 | Op_Call5 | Op_Call6 | Op_Call7
  | Op_Met0 | Op_Met1 | Op_Met2 | Op_Met3 | Op_Met4 | Op_Met5 | Op_Met6 | Op_Met7
  | Op_TCall0 | Op_TCall1 | Op_TCall2 | Op_TCall3 | Op_TCall4 | Op_TCall5 | Op_TCall6 | Op_TCall7
  | Op_TMet0 | Op_TMet1 | Op_TMet2 | Op_TMet3 | Op_TMet4 | Op_TMet5 | Op_TMet6 | Op_TMet7
  | Op_Jmp | Op_Bt | Op_Bf | Op_B3 | Op_Met | Op_TMet | Op_Call | Op_TCall
  | Op_NewTill | Op_EndTill | Op_TillEsc | Op_Ret | Op_Try | Op_EndTry | Op_Auto | Op_EndAuto
  | Op_Add | Op_Sub | Op_Mul | Op_Div | Op_Mod | Op_Rem | Op_C6 | Op_RangeTo
  | Op_Eq | Op_Ne | Op_Lt | Op_Gt | Op_Le | Op_Ge | Op_Cmp | Op_Compare
  | Op_Each | Op_Map | Op_Where | Op_D3 | Op_Count | Op_Any | Op_Join | Op_D7
  | Op_UCount | Op_UAny | Op_UJoin | Op_Neg | Op_Bool | Op_Int | Op_String | Op_Hash
  | Op_NullQ | Op_ListQ | Op_E2 | Op_FnQ | Op_BoolQ | Op_IntQ | Op_StringQ | Op_SymbolQ
  | Op_LdA | Op_LdD | Op_EA | Op_EB | Op_LdStart | Op_LdEnd | Op_LdCount | Op_LdLength
  | Op_StateMachStart | Op_StateMachBody | Op_F2 | Op_F3 | Op_F4 | Op_F5 | Op_F6 | Op_F7
  | Op_Pseudo | Op_F9 | Op_FA | Op_FB | Op_FC | Op_EndBlock | Op_Label | Op_Block.

(** The byte value of each enumerator. *)
Definition Opcode_value (op : Opcode) : Z :=
  match op with
  | Op_Nop => 0 | Op_Dup1 => 1 | Op_Dup2 => 2 | Op_Dup => 3
  | Op_04 => 4 | Op_Pop1 => 5 | Op_Pop2 => 6 | Op_Pop => 7
  | Op_08 => 8 | Op_Rep1 => 9 | Op_Rep2 => 10 | Op_Rep => 11
  | Op_0C => 12 | Op_0D => 13 | Op_0E => 14 | Op_Brk => 15
  | Op_LdNull => 16 | Op_LdBool => 17 | Op_LdStr => 18 | Op_LdSym => 19
  | Op_LdObj => 20 | Op_LdClos => 21 | Op_LdChar => 22 | Op_LdUni => 23
  | Op_Ld8 => 24 | Op_Ld16 => 25 | Op_Ld32 => 26 | Op_Ld64 => 27
  | Op_Ld128 => 28 | Op_1D => 29 | Op_1E => 30 | Op_1F => 31
  | Op_20 => 32 | Op_LdR16 => 33 | Op_LdR32 => 34 | Op_LdR64 => 35
  | Op_LdR128 => 36 | Op_25 => 37 | Op_26 => 38 | Op_27 => 39
  | Op_28 => 40 | Op_LdF16 => 41 | Op_LdF32 => 42 | Op_LdF64 => 43
  | Op_LdF128 => 44 | Op_2D => 45 | Op_2E => 46 | Op_2F => 47
  | Op_LdLoc => 48 | Op_StLoc => 49 | Op_StpLoc => 50 | Op_33 => 51
  | Op_LdArg => 52 | Op_StArg => 53 | Op_StpArg => 54 | Op_37 => 55
  | Op_LdX => 56 | Op_StX => 57 | Op_StpX => 58 | Op_3B => 59
  | Op_NullLoc0 => 60 | Op_NullArg0 => 61 | Op_NullX => 62 | Op_3F => 63
  | Op_LdArg0 => 64 | Op_LdArg1 => 65 | Op_LdArg2 => 66 | Op_LdArg3 => 67
  | Op_LdArg4 => 68 | Op_LdArg5 => 69 | Op_LdArg6 => 70 | Op_LdArg7 => 71
  | Op_LdLoc0 => 72 | Op_LdLoc1 => 73 | Op_LdLoc2 => 74 | Op_LdLoc3 => 75
  | Op_LdLoc4 => 76 | Op_LdLoc5 => 77 | Op_LdLoc6 => 78 | Op_LdLoc7 => 79
  | Op_StArg0 => 80 | Op_StArg1 => 81 | Op_StArg2 => 82 | Op_StArg3 => 83
  | Op_StArg4 => 84 | Op_StArg5 => 85 | Op_StArg6 => 86 | Op_StArg7 => 87
  | Op_StLoc0 => 88 | Op_StLoc1 => 89 | Op_StLoc2 => 90 | Op_StLoc3 => 91
  | Op_StLoc4 => 92 | Op_StLoc5 => 93 | Op_StLoc6 => 94 | Op_StLoc7 => 95
  | Op_StpArg0 => 96 | Op_StpArg1 => 97 | Op_StpArg2 => 98 | Op_StpArg3 => 99
  | Op_StpArg4 => 100 | Op_StpArg5 => 101 | Op_StpArg6 => 102 | Op_StpArg7 => 103
  | Op_StpLoc0 => 104 | Op_StpLoc1 => 105 | Op_StpLoc2 => 106 | Op_StpLoc3 => 107
  | Op_StpLoc4 => 108 | Op_StpLoc5 => 109 | Op_StpLoc6 => 110 | Op_StpLoc7 => 111
  | Op_LdProp => 112 | Op_StProp => 113 | Op_StpProp => 114 | Op_73 => 115
  | Op_LdMember => 116 | Op_StMember => 117 | Op_StpMember => 118 | Op_77 => 119
  | Op_78 => 120 | Op_79 => 121 | Op_7A => 122 | Op_7B => 123
  | Op_7C => 124 | Op_7D => 125 | Op_7E => 126 | Op_LdInclude => 127
  | Op_Cons => 128 | Op_Car => 129 | Op_Cdr => 130 | Op_83 => 131
  | Op_84 => 132 | Op_85 => 133 | Op_86 => 134 | Op_87 => 135
  | Op_NewFn => 136 | Op_NewObj => 137 | Op_8A => 138 | Op_SuperEq => 139
  | Op_SuperNe => 140 | Op_Not => 141 | Op_Is => 142 | Op_TypeOf => 143
  | Op_Call0 => 144 | Op_Call1 => 145 | Op_Call2 => 146 | Op_Call3 => 147
  | Op_Call4 => 148 | Op_Call5 => 149 | Op_Call6 => 150 | Op_Call7 => 151
  | Op_Met0 => 152 | Op_Met1 => 153 | Op_Met2 => 154 | Op_Met3 => 155
  | Op_Met4 => 156 | Op_Met5 => 157 | Op_Met6 => 158 | Op_Met7 => 159
  | Op_TCall0 => 160 | Op_TCall1 => 161 | Op_TCall2 => 162 | Op_TCall3 => 163
  | Op_TCall4 => 164 | Op_TCall5 => 165 | Op_TCall6 => 166 | Op_TCall7 => 167
  | Op_TMet0 => 168 | Op_TMet1 => 169 | Op_TMet2 => 170 | Op_TMet3 => 171
  | Op_TMet4 => 172 | Op_TMet5 => 173 | Op_TMet6 => 174 | Op_TMet7 => 175
  | Op_Jmp => 176 | Op_Bt => 177 | Op_Bf => 178 | Op_B3 => 179
  | Op_Met => 180 | Op_TMet => 181 | Op_Call => 182 | Op_TCall => 183
  | Op_NewTill => 184 | Op_EndTill => 185 | Op_TillEsc => 186 | Op_Ret => 187
  | Op_Try => 188 | Op_EndTry => 189 | Op_Auto => 190 | Op_EndAuto => 191
  | Op_Add => 192 | Op_Sub => 193 | Op_Mul => 194 | Op_Div => 195
  | Op_Mod => 196 | Op_Rem => 197 | Op_C6 => 198 | Op_RangeTo => 199
  | Op_Eq => 200 | Op_Ne => 201 | Op_Lt => 202 | Op_Gt => 203
  | Op_Le => 204 | Op_Ge => 205 | Op_Cmp => 206 | Op_Compare => 207
  | Op_Each => 208 | Op_Map => 209 | Op_Where => 210 | Op_D3 => 211
  | Op_Count => 212 | Op_Any => 213 | Op_Join => 214 | Op_D7 => 215
  | Op_UCount => 216 | Op_UAny => 217 | Op_UJoin => 218 | Op_Neg => 219
  | Op_Bool => 220 | Op_Int => 221 | Op_String => 222 | Op_Hash => 223
  | Op_NullQ => 224 | Op_ListQ => 225 | Op_E2 => 226 | Op_FnQ => 227
  | Op_BoolQ => 228 | Op_IntQ => 229 | Op_StringQ => 230 | Op_SymbolQ => 231
  | Op_LdA => 232 | Op_LdD => 233 | Op_EA => 234 | Op_EB => 235
  | Op_LdStart => 236 | Op_LdEnd => 237 | Op_LdCount => 238 | Op_LdLength => 239
  | Op_StateMachStart => 240 | Op_StateMachBody => 241 | Op_F2 => 242 | Op_F3 => 243
  | Op_F4 => 244 | Op_F5 => 245 | Op_F6 => 246 | Op_F7 => 247
  | Op_Pseudo => 248 | Op_F9 => 249 | Op_FA => 250 | Op_FB => 251
  | Op_FC => 252 | Op_EndBlock => 253 | Op_Label => 254 | Op_Block => 255
  end.

(** All opcodes, indexed by their byte value. *)
Definition Opcode_all : list Opcode :=
  [ 
    Op_Nop; Op_Dup1; Op_Dup2; Op_Dup; Op_04; Op_Pop1; Op_Pop2; Op_Pop;
    Op_08; Op_Rep1; Op_Rep2; Op_Rep; Op_0C; Op_0D; Op_0E; Op_Brk;
    Op_LdNull; Op_LdBool; Op_LdStr; Op_LdSym; Op_LdObj; Op_LdClos; Op_LdChar; Op_LdUni;
    Op_Ld8; Op_Ld16; Op_Ld32; Op_Ld64; Op_Ld128; Op_1D; Op_1E; Op_1F;
    Op_20; Op_LdR16; Op_LdR32; Op_LdR64; Op_LdR128; Op_25; Op_26; Op_27;
    Op_28; Op_LdF16; Op_LdF32; Op_LdF64; Op_LdF128; Op_2D; Op_2E; Op_2F;
    Op_LdLoc; Op_StLoc; Op_StpLoc; Op_33; Op_LdArg; Op_StArg; Op_StpArg; Op_37;
    Op_LdX; Op_StX; Op_StpX; Op_3B; Op_NullLoc0; Op_NullArg0; Op_NullX; Op_3F;
    Op_LdArg0; Op_LdArg1; Op_LdArg2; Op_LdArg3; Op_LdArg4; Op_LdArg5; Op_LdArg6; Op_LdArg7;
    Op_LdLoc0; Op_LdLoc1; Op_LdLoc2; Op_LdLoc3; Op_LdLoc4; Op_LdLoc5; Op_LdLoc6; Op_LdLoc7;
    Op_StArg0; Op_StArg1; Op_StArg2; Op_StArg3; Op_StArg4; Op_StArg5; Op_StArg6; Op_StArg7;
    Op_StLoc0; Op_StLoc1; Op_StLoc2; Op_StLoc3; Op_StLoc4; Op_StLoc5; Op_StLoc6; Op_StLoc7;
    Op_StpArg0; Op_StpArg1; Op_StpArg2; Op_StpArg3; Op_StpArg4; Op_StpArg5; Op_StpArg6; Op_StpArg7;
    Op_StpLoc0; Op_StpLoc1; Op_StpLoc2; Op_StpLoc3; Op_StpLoc4; Op_StpLoc5; Op_StpLoc6; Op_StpLoc7;
    Op_LdProp; Op_StProp; Op_StpProp; Op_73; Op_LdMember; Op_StMember; Op_StpMember; Op_77;
    Op_78; Op_79; Op_7A; Op_7B; Op_7C; Op_7D; Op_7E; Op_LdInclude;
    Op_Cons; Op_Car; Op_Cdr; Op_83; Op_84; Op_85; Op_86; Op_87;
    Op_NewFn; Op_NewObj; Op_8A; Op_SuperEq; Op_SuperNe; Op_Not; Op_Is; Op_TypeOf;
    Op_Call0; Op_Call1; Op_Call2; Op_Call3; Op_Call4; Op_Call5; Op_Call6; Op_Call7;
    Op_Met0; Op_Met1; Op_Met2; Op_Met3; Op_Met4; Op_Met5; Op_Met6; Op_Met7;
    Op_TCall0; Op_TCall1; Op_TCall2; Op_TCall3; Op_TCall4; Op_TCall5; Op_TCall6; Op_TCall7;
    Op_TMet0; Op_TMet1; Op_TMet2; Op_TMet3; Op_TMet4; Op_TMet5; Op_TMet6; Op_TMet7;
    Op_Jmp; Op_Bt; Op_Bf; Op_B3; Op_Met; Op_TMet; Op_Call; Op_TCall;
    Op_NewTill; Op_EndTill; Op_TillEsc; Op_Ret; Op_Try; Op_EndTry; Op_Auto; Op_EndAuto;
    Op_Add; Op_Sub; Op_Mul; Op_Div; Op_Mod; Op_Rem; Op_C6; Op_RangeTo;
    Op_Eq; Op_Ne; Op_Lt; Op_Gt; Op_Le; Op_Ge; Op_Cmp; Op_Compare;
    Op_Each; Op_Map; Op_Where; Op_D3; Op_Count; Op_Any; Op_Join; Op_D7;
    Op_UCount; Op_UAny; Op_UJoin; Op_Neg; Op_Bool; Op_Int; Op_String; Op_Hash;
    Op_NullQ; Op_ListQ; Op_E2; Op_FnQ; Op_BoolQ; Op_IntQ; Op_StringQ; Op_SymbolQ;
    Op_LdA; Op_LdD; Op_EA; Op_EB; Op_LdStart; Op_LdEnd; Op_LdCount; Op_LdLength;
    Op_StateMachStart; Op_StateMachBody; Op_F2; Op_F3; Op_F4; Op_F5; Op_F6; Op_F7;
    Op_Pseudo; Op_F9; Op_FA; Op_FB; Op_FC; Op_EndBlock; Op_Label; Op_Block ].

Definition Opcode_ofByte (b : Z) : option Opcode := zget Opcode_all b.

(** Storing an [Int] in the 8-bit [opcode] field keeps its low byte; every
    byte is an opcode. *)
Definition Opcode_ofInt (n : Z) : Opcode := default Op_Nop (Opcode_ofByte (wrapU 8 n)).

(** [__opcode__ + n], as the compiler writes it, stored into an [opcode] field. *)
Definition Opcode_add (op : Opcode) (n : Z) : Opcode := Opcode_ofInt (Opcode_value op + n).

(** The documented net change of the stack: the first column of the comment of
    each enumerator, where [n] is the count the instruction carries.  [None]
    for the enumerators the header leaves undocumented. *)
Definition Opcode_stackDelta (op : Opcode) (n : Z) : option Z :=
  match op with
  | Op_Dup1 | Op_Dup2 | Op_Dup | Op_LdNull | Op_LdBool | Op_LdStr | Op_LdSym | Op_LdObj
  | Op_LdClos | Op_LdChar | Op_LdUni | Op_Ld8 | Op_Ld16 | Op_Ld32 | Op_Ld64 | Op_Ld128
  | Op_LdR16 | Op_LdR32 | Op_LdR64 | Op_LdR128 | Op_LdF16 | Op_LdF32 | Op_LdF64 | Op_LdF128
  | Op_LdLoc | Op_LdArg | Op_LdX | Op_LdArg0 | Op_LdArg1 | Op_LdArg2 | Op_LdArg3 | Op_LdArg4
  | Op_LdArg5 | Op_LdArg6 | Op_LdArg7 | Op_LdLoc0 | Op_LdLoc1 | Op_LdLoc2 | Op_LdLoc3 | Op_LdLoc4
  | Op_LdLoc5 | Op_LdLoc6 | Op_LdLoc7 | Op_LdInclude | Op_NewFn | Op_NewTill => Some 1
  | Op_Nop | Op_Brk | Op_StLoc | Op_StArg | Op_StX | Op_NullLoc0 | Op_NullArg0 | Op_NullX
  | Op_StArg0 | Op_StArg1 | Op_StArg2 | Op_StArg3 | Op_StArg4 | Op_StArg5 | Op_StArg6 | Op_StArg7
  | Op_StLoc0 | Op_StLoc1 | Op_StLoc2 | Op_StLoc3 | Op_StLoc4 | Op_StLoc5 | Op_StLoc6 | Op_StLoc7
  | Op_LdProp | Op_Car | Op_Cdr | Op_Not | Op_TypeOf | Op_Call0 | Op_Met0 | Op_TCall0
  | Op_TMet0 | Op_Jmp | Op_Ret | Op_Try | Op_EndTry | Op_Auto | Op_EndAuto | Op_UCount
  | Op_UAny | Op_UJoin | Op_Neg | Op_Bool | Op_Int | Op_String | Op_Hash | Op_NullQ
  | Op_ListQ | Op_FnQ | Op_BoolQ | Op_IntQ | Op_StringQ | Op_SymbolQ | Op_LdA | Op_LdD
  | Op_LdStart | Op_LdEnd | Op_LdCount | Op_LdLength | Op_StateMachStart | Op_StateMachBody | Op_Pseudo | Op_EndBlock
  | Op_Label | Op_Block => Some 0
  | Op_Pop1 | Op_Rep1 | Op_StpLoc | Op_StpArg | Op_StpX | Op_StpArg0 | Op_StpArg1 | Op_StpArg2
  | Op_StpArg3 | Op_StpArg4 | Op_StpArg5 | Op_StpArg6 | Op_StpArg7 | Op_StpLoc0 | Op_StpLoc1 | Op_StpLoc2
  | Op_StpLoc3 | Op_StpLoc4 | Op_StpLoc5 | Op_StpLoc6 | Op_StpLoc7 | Op_StProp | Op_LdMember | Op_Cons
  | Op_SuperEq | Op_SuperNe | Op_Is | Op_Call1 | Op_Met1 | Op_TCall1 | Op_TMet1 | Op_Bt
  | Op_Bf | Op_EndTill | Op_TillEsc | Op_Add | Op_Sub | Op_Mul | Op_Div | Op_Mod
  | Op_Rem | Op_RangeTo | Op_Eq | Op_Ne | Op_Lt | Op_Gt | Op_Le | Op_Ge
  | Op_Cmp | Op_Compare | Op_Each | Op_Map | Op_Where | Op_Count | Op_Any | Op_Join => Some (-1)
  | Op_Pop2 | Op_Rep2 | Op_StpProp | Op_StMember | Op_Call2 | Op_Met2 | Op_TCall2 | Op_TMet2 => Some (-2)
  | Op_StpMember | Op_Call3 | Op_Met3 | Op_TCall3 | Op_TMet3 => Some (-3)
  | Op_Call4 | Op_Met4 | Op_TCall4 | Op_TMet4 => Some (-4)
  | Op_Call5 | Op_Met5 | Op_TCall5 | Op_TMet5 => Some (-5)
  | Op_Call6 | Op_Met6 | Op_TCall6 | Op_TMet6 => Some (-6)
  | Op_Call7 | Op_Met7 | Op_TCall7 | Op_TMet7 => Some (-7)
  | Op_Met | Op_TMet => Some (- n + 1)
  | Op_Pop | Op_Rep | Op_Call | Op_TCall => Some (- n)
  | Op_NewObj => Some (- (2 * n))
  | _ => None
  end.

(** ** Lemmas *)

Lemma Opcode_ofByte_value (op : Opcode) : Opcode_ofByte (Opcode_value op) = Some op.
Proof. destruct op; reflexivity. Qed.

Lemma Opcode_value_range (op : Opcode) : inU 8 (Opcode_value op).
Proof. destruct op; unfold inU; simpl; lia. Qed.

#[global] Instance Opcode_value_inj : Inj (=) (=) Opcode_value.
Proof.
  intros o1 o2 H. apply (f_equal Opcode_ofByte) in H.
  rewrite !Opcode_ofByte_value in H. congruence.
Qed.

#[global] Instance Opcode_eq_dec : EqDecision Opcode.
Proof.
  refine (fun o1 o2 => cast_if (decide (Opcode_value o1 = Opcode_value o2))).
  - abstract (by apply Opcode_value_inj).
  - abstract (congruence).
Defined.

Lemma Opcode_ofInt_value (op : Opcode) : Opcode_ofInt (Opcode_value op) = op.
Proof.
  unfold Opcode_ofInt. rewrite wrapU_id by apply Opcode_value_range.
  by rewrite Opcode_ofByte_value.
Qed.

Lemma Opcode_value_ofInt (n : Z) : Opcode_value (Opcode_ofInt n) = wrapU 8 n.
Proof.
  unfold Opcode_ofInt. pose proof (wrapU_range 8 n ltac:(lia)) as H.
  set (b := wrapU 8 n) in *. clearbody b.
  assert (Hall : forallb (fun k => Opcode_value (default Op_Nop (Opcode_ofByte (Z.of_nat k)))
                                  =? Z.of_nat k) (seq 0 256) = true) by reflexivity.
  rewrite forallb_forall in Hall. specialize (Hall (Z.to_nat b)).
  unfold inU in H. change (2 ^ 8) with 256 in H.
  rewrite in_seq, Z2Nat.id in Hall by lia. apply Z.eqb_eq, Hall. lia.
Qed.
