(* ===== verification/ByteCode.v ===== *)
(** * ByteCode: instructions, operands and segments

    [include/smile/eval/bytecode.h] and [src/eval/bytecode.c]: the 16-byte
    instruction with its operand union, and the growable segment.  The target
    is the little-endian LP64 platform of
    [include/smile/platform/linux-gcc-x64/platform.h]. *)

From S2P Require Import Prelude Opcode.

(** ** The operand union [u]

    All members overlay the same 64 bits, kept here as an unsigned word: reads
    take the low bits of the member's width, writes replace only those bits. *)
Module Operand.

Definition word := Z.

(** Overwrite the low [w] bits of [u] with [v]. *)
Definition set_low (w : Z) (u v : word) : word := u - u mod 2 ^ w + v mod 2 ^ w.

Definition zero : word := 0.

Definition get_int64 (u : word) : Z := wrapS 64 u.
Definition get_index (u : word) : Z := wrapS 64 u.
Definition get_int32 (u : word) : Z := wrapS 32 u.
Definition get_symbol (u : word) : Z := wrapS 32 u.
Definition get_int16 (u : word) : Z := wrapS 16 u.
Definition get_byte (u : word) : Z := wrapU 8 u.
Definition get_ch (u : word) : Z := wrapU 8 u.
Definition get_uni (u : word) : Z := wrapU 32 u.
Definition get_boolean (u : word) : bool := negb (wrapU 8 u =? 0).
Definition get_bits32 (u : word) : Z := wrapU 32 u.
Definition get_bits64 (u : word) : Z := wrapU 64 u.
Definition get_i2_a (u : word) : Z := wrapS 32 u.
Definition get_i2_b (u : word) : Z := wrapS 32 (u / 2 ^ 32).

Definition set_index (u : word) (v : Z) : word := set_low 64 u v.
Definition set_int64 (u : word) (v : Z) : word := set_low 64 u v.
Definition set_int32 (u : word) (v : Z) : word := set_low 32 u v.
Definition set_symbol (u : word) (v : Z) : word := set_low 32 u v.
Definition set_int16 (u : word) (v : Z) : word := set_low 16 u v.
Definition set_byte (u : word) (v : Z) : word := set_low 8 u v.
Definition set_ch (u : word) (v : Z) : word := set_low 8 u v.
Definition set_uni (u : word) (v : Z) : word := set_low 32 u v.
Definition set_boolean (u : word) (b : bool) : word := set_low 8 u (if b then 1 else 0).
Definition set_bits32 (u : word) (v : Z) : word := set_low 32 u v.
Definition set_bits64 (u : word) (v : Z) : word := set_low 64 u v.
Definition set_i2_a (u : word) (v : Z) : word := set_low 32 u v.
Definition set_i2_b (u : word) (v : Z) : word := u mod 2 ^ 32 + (v mod 2 ^ 32) * 2 ^ 32.

Lemma set_low_mod (w : Z) (u v : word) : 0 <= w -> set_low w u v mod 2 ^ w = v mod 2 ^ w.
Proof.
  intros. unfold set_low. pose proof (pow2_pos w H).
  rewrite <- Zplus_mod_idemp_l, Zminus_mod_idemp_r, Z.sub_diag, Z.mod_0_l by lia.
  rewrite Z.add_0_l. apply Z.mod_mod; lia.
Qed.

(** Writing a member leaves the bits above it alone. *)
Lemma set_low_div (w : Z) (u v : word) : 0 <= w -> set_low w u v / 2 ^ w = u / 2 ^ w.
Proof.
  intros. unfold set_low. pose proof (pow2_pos w H).
  pose proof (Z.mod_pos_bound v (2 ^ w) H0).
  rewrite (Z.mod_eq u) by lia.
  replace (u - (u - 2 ^ w * (u / 2 ^ w)) + v mod 2 ^ w)
    with (v mod 2 ^ w + (u / 2 ^ w) * 2 ^ w) by lia.
  rewrite Z.div_add, Z.div_small by lia. lia.
Qed.

Lemma set_low_range (w n : Z) (u v : word) :
  0 <= w <= n -> inU n u -> inU n (set_low w u v).
Proof.
  intros Hw Hu. unfold inU in *. pose proof (pow2_pos w ltac:(lia)).
  assert (Hn : 2 ^ n = 2 ^ (n - w) * 2 ^ w) by (rewrite <- Z.pow_add_r by lia; f_equal; lia).
  pose proof (set_low_mod w u v ltac:(lia)) as Hm.
  pose proof (set_low_div w u v ltac:(lia)) as Hd.
  pose proof (Z.div_mod (set_low w u v) (2 ^ w) ltac:(lia)) as E.
  rewrite Hm, Hd in E. pose proof (Z.mod_pos_bound v (2 ^ w) ltac:(lia)).
  assert (0 <= u / 2 ^ w) by (apply Z.div_pos; lia).
  assert (u / 2 ^ w < 2 ^ (n - w)) by (apply Z.div_lt_upper_bound; lia).
  nia.
Qed.

Lemma get_set_signed (w : Z) (u v : word) :
  0 < w -> inS w v -> wrapS w (set_low w u v) = v.
Proof.
  intros. rewrite <- (wrapS_id w v) at 2 by done.
  apply wrapS_mod; [lia|]. apply set_low_mod; lia.
Qed.

Lemma get_set_unsigned (w : Z) (u v : word) :
  0 <= w -> inU w v -> wrapU w (set_low w u v) = v.
Proof. intros. unfold wrapU. rewrite set_low_mod by done. by apply wrapU_id. Qed.

Lemma get_set_index (u : word) (v : Z) : inS 64 v -> get_index (set_index u v) = v.
Proof. apply get_set_signed; lia. Qed.

Lemma get_set_symbol (u : word) (v : Z) : inS 32 v -> get_symbol (set_symbol u v) = v.
Proof. apply get_set_signed; lia. Qed.

Lemma get_set_boolean (u : word) (b : bool) : get_boolean (set_boolean u b) = b.
Proof.
  unfold get_boolean, set_boolean. rewrite get_set_unsigned; [by destruct b|lia|].
  unfold inU. destruct b; lia.
Qed.

Lemma get_set_i2 (a b : Z) :
  inS 32 a -> inS 32 b ->
  get_i2_a (set_i2_b (set_i2_a zero a) b) = a /\ get_i2_b (set_i2_b (set_i2_a zero a) b) = b.
Proof.
  intros Ha Hb. unfold get_i2_a, get_i2_b, set_i2_b, set_i2_a.
  set (x := set_low 32 zero a mod 2 ^ 32).
  assert (Hx : 0 <= x < 2 ^ 32) by (apply Z.mod_pos_bound; lia). split.
  - transitivity (wrapS 32 (set_low 32 zero a)); [|by apply get_set_signed].
    apply wrapS_mod; [lia|]. rewrite Z.mod_add by lia. apply Z.mod_mod; lia.
  - rewrite Z.div_add, (Z.div_small x) by lia. change (wrapS 32 (wrapU 32 b) = b).
    rewrite wrapS_wrapU by lia. by apply wrapS_id.
Qed.

(** An operand written through a 32-bit member of a zeroed union and read back
    as an [Int] is the value when it is not negative ([Op_NewObj], the local of
    a till continuation). *)
Lemma get_index_set_int32 (v : Z) : 0 <= v < 2 ^ 31 -> get_index (set_int32 zero v) = v.
Proof.
  intros. unfold get_index, set_int32, set_low, zero.
  rewrite Z.mod_0_l, (Z.mod_small v) by lia. apply wrapS_id; [lia|]. unfold inS.
  change (2 ^ (64 - 1)) with (2 ^ 63). lia.
Qed.

(** ... and the other way round ([Op_TillEsc]). *)
Lemma get_int32_set_index (v : Z) : inS 32 v -> get_int32 (set_index zero v) = v.
Proof.
  intros H. unfold get_int32, set_index, set_low, zero. rewrite Z.mod_0_l by lia.
  rewrite <- (wrapS_id 32 v) at 2 by (done || lia). apply wrapS_mod; [lia|].
  rewrite Z.sub_0_r, Z.add_0_l.
  change (2 ^ 64) with (2 ^ 32 * 2 ^ 32).
  rewrite Z.rem_mul_r, (Z.mul_comm (2 ^ 32) (_ mod _)), Z.mod_add by lia.
  apply Z.mod_mod; lia.
Qed.

End Operand.

(** ** Instructions and segments *)

Record ByteCode := mkByteCode {
  opcode : Opcode;
  sourceLocation : Z;
  u : Operand.word
}.

(** A slot of a fresh raw array (Op_Nop is 0x00). *)
Definition ByteCode_blank : ByteCode := mkByteCode Op_Nop 0 Operand.zero.

(** A segment: the array [byteCodes] has [maxByteCodes] slots, of which the
    first [numByteCodes] are in use.  [compiledTables] is the index of the
    tables the segment refers to. *)
Record ByteCodeSegment := mkSegment {
  compiledTables : nat;
  byteCodes : list ByteCode;
  numByteCodes : Z;
  maxByteCodes : Z
}.

Definition ByteCodeSegment_CreateWithSize (tables : nat) (size : Z) : ByteCodeSegment :=
  mkSegment tables (replicate (Z.to_nat size) ByteCode_blank) 0 (wrapS 32 size).

Definition INITIAL_SIZE : Z := 16.

Definition ByteCodeSegment_Create (tables : nat) : ByteCodeSegment :=
  ByteCodeSegment_CreateWithSize tables INITIAL_SIZE.

(** The doubling loop of [ByteCodeSegment_Grow]; [None] when the fuel runs out. *)
Fixpoint Grow_newMax (fuel : nat) (num count newMax : Z) : option Z :=
  match fuel with
  | O => None
  | S fuel =>
      if num + count * 2 >=? newMax then Grow_newMax fuel num count (newMax * 2)
      else Some newMax
  end.

Definition ByteCodeSegment_Grow (fuel : nat) (s : ByteCodeSegment) (count : Z)
  : option ByteCodeSegment :=
  newMax ← Grow_newMax fuel (numByteCodes s) count (maxByteCodes s);
  Some (mkSegment (compiledTables s)
          (take (Z.to_nat (numByteCodes s)) (byteCodes s)
             ++ replicate (Z.to_nat newMax - Z.to_nat (numByteCodes s)) ByteCode_blank)
          (numByteCodes s) (wrapS 32 newMax)).

Definition ByteCodeSegment_More (fuel : nat) (s : ByteCodeSegment) (count : Z)
  : option ByteCodeSegment :=
  if numByteCodes s + count >=? maxByteCodes s then ByteCodeSegment_Grow fuel s count
  else Some s.

(** Append one instruction; answers its offset. *)
Definition ByteCodeSegment_Emit (fuel : nat) (s : ByteCodeSegment) (op : Z) (location : Z)
  : option (Z * ByteCodeSegment) :=
  s ← ByteCodeSegment_More fuel s 1;
  codes ← zset (byteCodes s) (numByteCodes s)
            (mkByteCode (Opcode_ofInt op) (wrapS 32 location) Operand.zero);
  Some (numByteCodes s,
        mkSegment (compiledTables s) codes (numByteCodes s + 1) (maxByteCodes s)).

(** [CreateFromByteCodes] copies the array and may add a [Op_Ret]; it leaves
    [numByteCodes] at the zero that [CreateWithSize] put there. *)
Definition ByteCodeSegment_CreateFromByteCodes (tables : nat) (codes : list ByteCode)
  (withRet : bool) : ByteCodeSegment :=
  let s := ByteCodeSegment_CreateWithSize tables (zlen codes + (if withRet then 1 else 0)) in
  mkSegment tables
    (codes ++ (if withRet then [mkByteCode Op_Ret 0 Operand.zero] else []))
    (numByteCodes s) (maxByteCodes s).

(** The instructions of the segment. *)
Definition ByteCodeSegment_code (s : ByteCodeSegment) : list ByteCode :=
  take (Z.to_nat (numByteCodes s)) (byteCodes s).

(** The array is as long as the segment says, and in use up to [numByteCodes]. *)
Definition ByteCodeSegment_wf (s : ByteCodeSegment) : Prop :=
  zlen (byteCodes s) = maxByteCodes s /\ 0 <= numByteCodes s <= maxByteCodes s
  /\ maxByteCodes s < 2 ^ 31.

(** ** Growth *)

(** Enough fuel for the doubling loop. *)
Definition Grow_fuel (num count : Z) : nat := S (Z.to_nat (Z.log2_up (num + count * 2 + 1)) + 1).

Lemma Grow_newMax_None (fuel : nat) (num count : Z) :
  0 <= num -> 0 <= count -> Grow_newMax fuel num count 0 = None.
Proof.
  intros. induction fuel as [|fuel IH]; [done|]. simpl.
  rewrite Z.geb_leb. destruct (Z.leb_spec 0 (num + count * 2)); [done|lia].
Qed.

Lemma Grow_newMax_spec (fuel : nat) (num count m r : Z) :
  0 < m -> Grow_newMax fuel num count m = Some r ->
  m <= r /\ num + count * 2 < r /\ (r = m \/ r <= 2 * (num + count * 2)).
Proof.
  revert m. induction fuel as [|fuel IH]; intros m Hm H; [done|]. simpl in H.
  rewrite Z.geb_leb in H. destruct (Z.leb_spec m (num + count * 2)).
  - apply IH in H; lia.
  - injection H as <-. lia.
Qed.

Lemma Grow_newMax_total (fuel : nat) (num count m : Z) :
  0 < m -> num + count * 2 < m * 2 ^ (Z.of_nat fuel - 1) -> (0 < fuel)%nat ->
  exists r, Grow_newMax fuel num count m = Some r.
Proof.
  revert m. induction fuel as [|fuel IH]; intros m Hm Hb Hf; [lia|]. simpl.
  rewrite Z.geb_leb. destruct (Z.leb_spec m (num + count * 2)) as [Hle|]; [|eauto].
  destruct fuel as [|fuel].
  { exfalso. change (2 ^ (Z.of_nat 1 - 1)) with 1 in Hb. lia. }
  apply IH; [lia| |lia].
  replace (Z.of_nat (S (S fuel)) - 1) with (Z.succ (Z.of_nat (S fuel) - 1)) in Hb by lia.
  rewrite Z.pow_succ_r in Hb by lia. lia.
Qed.

Lemma Grow_fuel_enough (num count m : Z) :
  0 <= num -> 0 <= count -> 0 < m ->
  exists r, Grow_newMax (Grow_fuel num count) num count m = Some r.
Proof.
  intros. unfold Grow_fuel. set (N := num + count * 2).
  pose proof (Z.log2_up_nonneg (N + 1)).
  apply Grow_newMax_total; [done| |lia].
  fold N. destruct (decide (N + 1 <= 1)) as [|Hgt].
  - assert (N = 0) as -> by lia. apply Z.mul_pos_pos; [done|]. apply pow2_pos; lia.
  - pose proof (Z.log2_up_spec (N + 1) ltac:(lia)) as [_ Hup].
    assert (2 ^ Z.log2_up (N + 1) <= 2 ^ (Z.of_nat (S (Z.to_nat (Z.log2_up (N + 1)) + 1)) - 1))
      by (apply Z.pow_le_mono_r; lia).
    nia.
Qed.

Lemma inS32_intro (z : Z) : 0 <= z < 2 ^ 31 -> inS 32 z.
Proof. intros. unfold inS. change (32 - 1) with 31. lia. Qed.

Lemma zlen_take {A} (n : Z) (l : list A) : 0 <= n <= zlen l -> zlen (take (Z.to_nat n) l) = n.
Proof. unfold zlen. intros. rewrite length_take. lia. Qed.

Lemma zlen_replicate {A} (n : nat) (x : A) : zlen (replicate n x) = Z.of_nat n.
Proof. unfold zlen. by rewrite length_replicate. Qed.

Lemma Grow_wf (s : ByteCodeSegment) (count newMax : Z) (fuel : nat) :
  ByteCodeSegment_wf s -> 0 < maxByteCodes s -> 0 <= count ->
  2 * (numByteCodes s + count * 2) < 2 ^ 31 ->
  Grow_newMax fuel (numByteCodes s) count (maxByteCodes s) = Some newMax ->
  exists s', ByteCodeSegment_Grow fuel s count = Some s'
    /\ ByteCodeSegment_wf s' /\ maxByteCodes s' = newMax
    /\ numByteCodes s' = numByteCodes s /\ numByteCodes s + 2 * count < newMax
    /\ ByteCodeSegment_code s' = ByteCodeSegment_code s.
Proof.
  intros (Hlen & Hnum & Hmax) Hpos Hc Hb E.
  pose proof (Grow_newMax_spec _ _ _ _ _ Hpos E) as (H1 & H2 & H3).
  unfold ByteCodeSegment_Grow. rewrite E. eexists. split; [reflexivity|].
  assert (Hw : wrapS 32 newMax = newMax) by (apply wrapS_id, inS32_intro; lia).
  unfold ByteCodeSegment_wf, ByteCodeSegment_code. simpl. rewrite Hw.
  autorewrite with zlen. rewrite zlen_take, zlen_replicate by lia.
  repeat split; try lia.
  assert (E' : length (take (Z.to_nat (numByteCodes s)) (byteCodes s))
               = Z.to_nat (numByteCodes s)) by (rewrite length_take; unfold zlen in *; lia).
  rewrite <- E' at 1. by rewrite take_app_length.
Qed.

Lemma ByteCodeSegment_Create_wf (tables : nat) :
  ByteCodeSegment_wf (ByteCodeSegment_Create tables)
  /\ 0 < maxByteCodes (ByteCodeSegment_Create tables).
Proof. repeat split; vm_compute; intuition discriminate. Qed.

(** The room [More] guarantees: at least [count] free slots after [numByteCodes]. *)
Lemma More_room (s : ByteCodeSegment) (count : Z) :
  ByteCodeSegment_wf s -> 0 < maxByteCodes s -> 0 <= count ->
  2 * (numByteCodes s + count * 2) < 2 ^ 31 ->
  exists s', ByteCodeSegment_More (Grow_fuel (numByteCodes s) count) s count = Some s'
    /\ ByteCodeSegment_wf s' /\ numByteCodes s' = numByteCodes s
    /\ numByteCodes s + count < maxByteCodes s'
    /\ ByteCodeSegment_code s' = ByteCodeSegment_code s.
Proof.
  intros Hwf Hpos Hc Hb. unfold ByteCodeSegment_More. rewrite Z.geb_leb.
  destruct (Z.leb_spec (maxByteCodes s) (numByteCodes s + count)) as [|Hlt].
  - destruct (Grow_fuel_enough (numByteCodes s) count (maxByteCodes s)) as [r E];
      [destruct Hwf; lia..|].
    destruct (Grow_wf s count r _ Hwf Hpos Hc Hb E) as (s' & ? & ? & ? & ? & ? & ?).
    exists s'. split; [done|]. split; [done|]. split; [done|]. split; [lia|done].
  - exists s. split; [done|]. split; [done|]. split; [done|]. split; [lia|done].
Qed.

Lemma take_insert_snoc {A} (l : list A) (n : nat) (x : A) :
  (n < length l)%nat -> take (S n) (<[n := x]> l) = take n l ++ [x].
Proof.
  intros. rewrite (take_S_r _ _ x) by (by apply list_lookup_insert_eq).
  f_equal. by rewrite take_insert_ge.
Qed.

(** ** Properties *)

(** C32: on a well-formed segment that was created with at least one slot and is
    far enough from the largest 32-bit size, [ByteCodeSegment_Emit] returns (its
    doubling loop terminates), answers the old [numByteCodes] as the offset,
    keeps the segment well-formed, and appends exactly one instruction with a
    zeroed operand to the code.  The first condition is needed:
    [Emit_on_empty_segment_diverges] below. *)
Theorem Emit_appends (s : ByteCodeSegment) (op location : Z) :
  ByteCodeSegment_wf s -> 0 < maxByteCodes s -> 2 * (numByteCodes s + 2) < 2 ^ 31 ->
  exists s', ByteCodeSegment_Emit (Grow_fuel (numByteCodes s) 1) s op location
             = Some (numByteCodes s, s')
    /\ ByteCodeSegment_wf s'
    /\ ByteCodeSegment_code s'
       = ByteCodeSegment_code s ++ [mkByteCode (Opcode_ofInt op) (wrapS 32 location) 0].
Proof.
  intros Hwf Hpos Hb.
  destruct (More_room s 1 Hwf Hpos ltac:(lia) ltac:(lia)) as (s1 & E & Hwf1 & En & Hroom & Ec).
  unfold ByteCodeSegment_Emit. rewrite E. cbn [mbind option_bind].
  destruct Hwf1 as (Hl & Hn & Hm).
  unfold zset. fold (zlen (byteCodes s1)). rewrite Hl.
  destruct (Z.leb_spec 0 (numByteCodes s1)), (Z.ltb_spec (numByteCodes s1) (maxByteCodes s1)); try lia.
  simpl. rewrite En. eexists. split; [reflexivity|]. split.
  - unfold ByteCodeSegment_wf, zlen in *. simpl. rewrite length_insert. lia.
  - rewrite <- Ec. unfold ByteCodeSegment_code. simpl. rewrite En.
    replace (Z.to_nat (numByteCodes s + 1)) with (S (Z.to_nat (numByteCodes s))) by lia.
    apply take_insert_snoc. unfold zlen in *; lia.
Qed.

Lemma Emit_appends_witness :
  exists s', ByteCodeSegment_Emit (Grow_fuel 0 1) (ByteCodeSegment_Create 0) 16 7 = Some (0, s')
    /\ ByteCodeSegment_wf s'
    /\ ByteCodeSegment_code s' = [] ++ [mkByteCode (Opcode_ofInt 16) (wrapS 32 7) 0].
Proof.
  apply (Emit_appends (ByteCodeSegment_Create 0) 16 7).
  - apply ByteCodeSegment_Create_wf.
  - apply ByteCodeSegment_Create_wf.
  - reflexivity.
Defined.

(** A segment created with size 0 -- what [CompiledBlock_Finish] builds for
    a block without instructions -- can never be emitted to: the doubling loop
    of [ByteCodeSegment_Grow] starts at 0 and never leaves it, whatever the
    fuel. *)
Theorem Emit_on_empty_segment_diverges (tables fuel : nat) (op location : Z) :
  ByteCodeSegment_Emit fuel (ByteCodeSegment_CreateWithSize tables 0) op location = None.
Proof.
  unfold ByteCodeSegment_Emit, ByteCodeSegment_More, ByteCodeSegment_Grow. simpl.
  by rewrite Grow_newMax_None.
Qed.
