(* ===== verification/CompiledBlock.v ===== *)
(** * CompiledBlock: basic blocks and the assembler

    [include/smile/eval/compiledblock.h], [src/eval/compiler/compiledblock.c]:
    trees of intermediate instructions, their stack accounting, and
    [CompiledBlock_Finish], which lays a tree out as a byte-code segment.

    An instruction is identified by the number it was allocated with (its
    pointer); a branch names the instruction it goes to.  The doubly-linked
    list of a block is the list of its instructions here. *)

From S2P Require Import Prelude Opcode ByteCode.
Import Operand.

(** [Instr] is any instruction but [Op_Block]; [BlockInstr] is an [Op_Block]
    with its [p.childBlock].  [branchTarget] is [p.branchTarget] ([None] for
    NULL).  [flagEscape] and [flagError] are the bits of [blockFlags]. *)
Inductive IntermediateInstruction : Type :=
  | Instr (id : nat) (op : Opcode) (loc : Z) (opnd : word) (branchTarget : option nat) (addr : Z)
  | BlockInstr (id : nat) (loc : Z) (opnd : word) (childBlock : CompiledBlock) (addr : Z)
with CompiledBlock : Type :=
  | Block (instrs : list IntermediateInstruction) (numInstructions : Z)
          (maxStackDepth finalStackDelta : Z) (flagEscape flagError : bool).

Definition instr_id (i : IntermediateInstruction) : nat :=
  match i with Instr id _ _ _ _ _ => id | BlockInstr id _ _ _ _ => id end.
Definition instr_op (i : IntermediateInstruction) : Opcode :=
  match i with Instr _ op _ _ _ _ => op | BlockInstr _ _ _ _ _ => Op_Block end.
Definition instr_addr (i : IntermediateInstruction) : Z :=
  match i with Instr _ _ _ _ _ a => a | BlockInstr _ _ _ _ a => a end.

Definition instrs (b : CompiledBlock) := match b with Block l _ _ _ _ _ => l end.
Definition numInstructions (b : CompiledBlock) := match b with Block _ n _ _ _ _ => n end.
Definition maxStackDepth (b : CompiledBlock) := match b with Block _ _ m _ _ _ => m end.
Definition finalStackDelta (b : CompiledBlock) := match b with Block _ _ _ d _ _ => d end.
Definition flagEscape (b : CompiledBlock) := match b with Block _ _ _ _ e _ => e end.
Definition flagError (b : CompiledBlock) := match b with Block _ _ _ _ _ e => e end.

(** Field updates. *)
Definition set_instrs (l : list IntermediateInstruction) (b : CompiledBlock) :=
  match b with Block _ n m d e r => Block l n m d e r end.
Definition set_numInstructions (n : Z) (b : CompiledBlock) :=
  match b with Block l _ m d e r => Block l n m d e r end.
Definition set_maxStackDepth (m : Z) (b : CompiledBlock) :=
  match b with Block l n _ d e r => Block l n m d e r end.
Definition set_finalStackDelta (d : Z) (b : CompiledBlock) :=
  match b with Block l n m _ e r => Block l n m d e r end.
Definition set_flagEscape (e : bool) (b : CompiledBlock) :=
  match b with Block l n m d _ r => Block l n m d e r end.
Definition set_flagError (r : bool) (b : CompiledBlock) :=
  match b with Block l n m d e _ => Block l n m d e r end.

(** ** Construction *)

Definition IntermediateInstruction_Create (id : nat) (op : Opcode) : IntermediateInstruction :=
  Instr id op 0 zero None 0.

Definition CompiledBlock_Create : CompiledBlock := Block [] 0 0 0 false false.

Definition CompiledBlock_CreateError : CompiledBlock := set_flagError true CompiledBlock_Create.

(** Position of the instruction named [id]. *)
Fixpoint instr_find (id : nat) (l : list IntermediateInstruction) : option nat :=
  match l with
  | [] => None
  | i :: l => if Nat.eqb (instr_id i) id then Some O else S <$> instr_find id l
  end.

(** Attach after [insertAfterThis] (at the head for NULL). [None] when that
    instruction is not in the block, which the C code takes for granted. *)
Definition CompiledBlock_AttachInstruction (b : CompiledBlock) (insertAfterThis : option nat)
  (new : IntermediateInstruction) : option CompiledBlock :=
  k ← match insertAfterThis with
      | None => Some O
      | Some id => S <$> instr_find id (instrs b)
      end;
  Some (set_numInstructions (numInstructions b + 1)
          (set_instrs (take k (instrs b) ++ new :: drop k (instrs b)) b)).

(** The common case, [CompiledBlock_AttachInstruction(b, b->last, new)]. *)
Definition CompiledBlock_AttachLast (b : CompiledBlock) (new : IntermediateInstruction)
  : CompiledBlock :=
  set_numInstructions (numInstructions b + 1) (set_instrs (instrs b ++ [new]) b).

Definition CompiledBlock_DetachInstruction (b : CompiledBlock) (id : nat) : option CompiledBlock :=
  k ← instr_find id (instrs b);
  Some (set_numInstructions (numInstructions b - 1)
          (set_instrs (take k (instrs b) ++ drop (S k) (instrs b)) b)).

Definition CompiledBlock_Clear (b : CompiledBlock) : CompiledBlock :=
  match b with Block _ _ _ _ _ _ => Block [] 0 0 0 false false end.

(** The resulting block; the block flags are the ones [firstBlock] had. *)
Definition CompiledBlock_Combine (firstBlock secondBlock : CompiledBlock) : CompiledBlock :=
  match instrs secondBlock, instrs firstBlock with
  | [], _ => firstBlock
  | _, [] => secondBlock
  | _, _ =>
      Block (instrs firstBlock ++ instrs secondBlock)
            (numInstructions firstBlock + numInstructions secondBlock)
            (if maxStackDepth secondBlock >? maxStackDepth firstBlock
             then maxStackDepth secondBlock else maxStackDepth firstBlock)
            (finalStackDelta firstBlock + finalStackDelta secondBlock)
            (flagEscape firstBlock) (flagError firstBlock)
  end.

(** [CompiledBlock_AppendChild] with the fresh instruction's [id]; the second
    component tells whether an [Op_Block] instruction was created. *)
Definition CompiledBlock_AppendChild (parent : CompiledBlock) (id : nat) (child : CompiledBlock)
  : CompiledBlock * bool :=
  match instrs child with
  | [] => (parent, false)
  | _ =>
      let parent := CompiledBlock_AttachLast parent (BlockInstr id 0 zero child 0) in
      let parent :=
        if finalStackDelta parent + maxStackDepth child >? maxStackDepth parent
        then set_maxStackDepth (finalStackDelta parent + maxStackDepth child) parent
        else parent in
      let parent := set_finalStackDelta (finalStackDelta parent + finalStackDelta child) parent in
      (if flagError child then set_flagError true parent else parent, true)
  end.

(** [CompiledBlock_Emit] followed by the caller's stores into the operand [u]
    and the branch target of the new instruction [id]. *)
Definition CompiledBlock_Emit (b : CompiledBlock) (id : nat) (op : Opcode) (stackDelta : Z)
  (loc : Z) (opnd : word) (target : option nat) : CompiledBlock :=
  let b := CompiledBlock_AttachLast b (Instr id op (wrapU 32 loc) opnd target 0) in
  let b := set_finalStackDelta (finalStackDelta b + stackDelta) b in
  if finalStackDelta b >? maxStackDepth b then set_maxStackDepth (finalStackDelta b) b else b.

(** Replace every [Op_Block] by the instructions of its flattened child.  The
    instruction counts are left as they were, except that an empty child is
    detached. *)
Fixpoint CompiledBlock_Flatten (b : CompiledBlock) : CompiledBlock :=
  match b with
  | Block l n m d e r =>
      let fix go (l : list IntermediateInstruction) (n : Z) :=
        match l with
        | [] => ([], n)
        | Instr id op loc o t a :: l =>
            let '(l', n') := go l n in (Instr id op loc o t a :: l', n')
        | BlockInstr id loc o child a :: l =>
            let child' := CompiledBlock_Flatten child in
            match instrs child' with
            | [] => go l (n - 1)
            | cl => let '(l', n') := go l n in (cl ++ l', n')
            end
        end in
      let '(l', n') := go l n in Block l' n' m d e r
  end.

(** ** Layout *)

Definition isLabel (op : Opcode) : bool := match op with Op_Label => true | _ => false end.

Definition isPseudo (op : Opcode) : bool := Opcode_value Op_Pseudo <=? Opcode_value op.

(** Assign addresses from [start]; [instructionAddress] is a 24-bit field.
    Answers the updated block and the first address after it. *)
Fixpoint CompiledBlock_CalculateAddresses (b : CompiledBlock) (start : Z) (includePseudoOps : bool)
  : CompiledBlock * Z :=
  match b with
  | Block l n m d e r =>
      let fix go (l : list IntermediateInstruction) (start : Z) :=
        match l with
        | [] => ([], start)
        | Instr id op loc o t _ :: l =>
            let next := if negb (isPseudo op) || includePseudoOps then start + 1 else start in
            let '(l', last) := go l next in
            (Instr id op loc o t (wrapU 24 start) :: l', last)
        | BlockInstr id loc o child _ :: l =>
            let bump := if includePseudoOps then 1 else 0 in
            let '(child', next) :=
              CompiledBlock_CalculateAddresses child (start + bump) includePseudoOps in
            let '(l', last) := go l (next + bump) in
            (BlockInstr id loc o child' (wrapU 24 start) :: l', last)
        end in
      let '(l', last) := go l start in (Block l' n m d e r, last)
  end.

(** The [instructionAddress] fields of a tree, by instruction. *)
Fixpoint addresses (b : CompiledBlock) : list (nat * Z) :=
  match b with
  | Block l _ _ _ _ _ =>
      let fix go (l : list IntermediateInstruction) :=
        match l with
        | [] => []
        | Instr id _ _ _ _ a :: l => (id, a) :: go l
        | BlockInstr id _ _ child a :: l => (id, a) :: addresses child ++ go l
        end in go l
  end.

Definition isBranch (op : Opcode) : bool :=
  match op with Op_Jmp | Op_Bt | Op_Bf => true | _ => false end.

(** [branchTarget->instructionAddress]: an instruction that was never attached
    still has the address 0 it was created with. *)
Definition address_of (env : list (nat * Z)) (id : nat) : Z :=
  match list_find (fun p => fst p = id) env with
  | Some (_, (_, a)) => a
  | None => 0
  end.

(** Branch operands become relative addresses; [env] gives the address field
    of every instruction of the finished tree. *)
Fixpoint CompiledBlock_ResolveBranches (env : list (nat * Z)) (b : CompiledBlock) : CompiledBlock :=
  match b with
  | Block l n m d e r =>
      let fix go (l : list IntermediateInstruction) :=
        match l with
        | [] => []
        | Instr id op loc o t a :: l =>
            Instr id op loc
              (if isBranch op then
                 set_index o (match t with Some tgt => address_of env tgt - a | None => 0 end)
               else o) t a :: go l
        | BlockInstr id loc o child a :: l =>
            BlockInstr id loc o (CompiledBlock_ResolveBranches env child) a :: go l
        end in Block (go l) n m d e r
  end.

Fixpoint CompiledBlock_CountInstructions (b : CompiledBlock) (includePseudoOps : bool) : Z :=
  match b with
  | Block l _ _ _ _ _ =>
      let fix go (l : list IntermediateInstruction) :=
        match l with
        | [] => 0
        | Instr _ op _ _ _ _ :: l =>
            (if negb (isLabel op) || includePseudoOps then 1 else 0) + go l
        | BlockInstr _ _ _ child _ :: l =>
            let bump := if includePseudoOps then 1 else 0 in
            bump + CompiledBlock_CountInstructions child includePseudoOps + bump + go l
        end in go l
  end.

(** [segment->byteCodes[segment->numByteCodes++] = ...]; a write outside the
    array is [None]. *)
Definition segment_store (s : ByteCodeSegment) (op : Opcode) (loc : Z) (o : word)
  : option ByteCodeSegment :=
  codes ← zset (byteCodes s) (numByteCodes s) (mkByteCode op (wrapS 32 loc) o);
  Some (mkSegment (compiledTables s) codes (numByteCodes s + 1) (maxByteCodes s)).

Fixpoint CompiledBlock_AppendToByteCodeSegment (b : CompiledBlock) (s : ByteCodeSegment)
  (includePseudoOps : bool) : option ByteCodeSegment :=
  match b with
  | Block l _ _ _ _ _ =>
      let fix go (l : list IntermediateInstruction) (s : ByteCodeSegment) :=
        match l with
        | [] => Some s
        | Instr _ op loc o _ _ :: l =>
            s ← (if negb (isLabel op) || includePseudoOps
                 then segment_store s op loc o else Some s);
            go l s
        | BlockInstr _ loc o child _ :: l =>
            s ← (if includePseudoOps then segment_store s Op_Block loc o else Some s);
            s ← CompiledBlock_AppendToByteCodeSegment child s includePseudoOps;
            s ← (if includePseudoOps then segment_store s Op_EndBlock loc o else Some s);
            go l s
        end in go l s
  end.

(** [CompiledBlock_Finish], with the block as it is left behind. *)
Definition CompiledBlock_Finish (b : CompiledBlock) (tables : nat) (includePseudoOps : bool)
  : option (ByteCodeSegment * CompiledBlock) :=
  let num := CompiledBlock_CountInstructions b includePseudoOps in
  let segment := ByteCodeSegment_CreateWithSize tables num in
  let '(b, _) := CompiledBlock_CalculateAddresses b 0 includePseudoOps in
  let b := CompiledBlock_ResolveBranches (addresses b) b in
  segment ← CompiledBlock_AppendToByteCodeSegment b segment includePseudoOps;
  Some (segment, b).

(** ** The reference assembler

    What the layout functions are for: the code of a tree is the concatenation
    of the code of its parts, labels take no room, and a branch at address [pc]
    carries the distance to its label. *)

(** The instructions emitted for a tree, operands as they stand. *)
Fixpoint block_code (pseudo : bool) (b : CompiledBlock) : list ByteCode :=
  match b with
  | Block l _ _ _ _ _ =>
      let fix go (l : list IntermediateInstruction) :=
        match l with
        | [] => []
        | Instr _ op loc o _ _ :: l =>
            (if negb (isLabel op) || pseudo
             then [mkByteCode op (wrapS 32 loc) o] else []) ++ go l
        | BlockInstr _ loc o child _ :: l =>
            (if pseudo then [mkByteCode Op_Block (wrapS 32 loc) o] else [])
            ++ block_code pseudo child
            ++ (if pseudo then [mkByteCode Op_EndBlock (wrapS 32 loc) o] else []) ++ go l
        end in go l
  end.

(** Number of real instructions. *)
Definition block_size (b : CompiledBlock) : Z := CompiledBlock_CountInstructions b false.

(** The address of every instruction when the tree is laid out at [pc]; a
    label has the address of the next real instruction. *)
Fixpoint block_labels (pc : Z) (b : CompiledBlock) : list (nat * Z) :=
  match b with
  | Block l _ _ _ _ _ =>
      let fix go (l : list IntermediateInstruction) (pc : Z) :=
        match l with
        | [] => []
        | Instr id op _ _ _ _ :: l =>
            (id, pc) :: go l (if isLabel op then pc else pc + 1)
        | BlockInstr id _ _ child _ :: l =>
            (id, pc) :: block_labels pc child ++ go l (pc + block_size child)
        end in go l pc
  end.

(** The code of a tree at [pc], given the addresses of the labels. *)
Fixpoint assemble (lab : nat -> Z) (pc : Z) (b : CompiledBlock) : list ByteCode :=
  match b with
  | Block l _ _ _ _ _ =>
      let fix go (l : list IntermediateInstruction) (pc : Z) :=
        match l with
        | [] => []
        | Instr _ op loc o t _ :: l =>
            if isLabel op then go l pc
            else
              mkByteCode op (wrapS 32 loc)
                (if isBranch op then
                   set_index o (match t with Some tgt => lab tgt - pc | None => 0 end)
                 else o) :: go l (pc + 1)
        | BlockInstr _ _ _ child _ :: l =>
            assemble lab pc child ++ go l (pc + block_size child)
        end in go l pc
  end.

(** The only pseudo-instruction the compiler attaches directly is the label. *)
Fixpoint block_wf (b : CompiledBlock) : bool :=
  match b with
  | Block l _ _ _ _ _ =>
      let fix go (l : list IntermediateInstruction) :=
        match l with
        | [] => true
        | Instr _ op _ _ _ _ :: l => (negb (isPseudo op) || isLabel op) && go l
        | BlockInstr _ _ _ child _ :: l => block_wf child && go l
        end in go l
  end.

(** ** Induction over trees *)

Section block_ind.
Variable P : CompiledBlock -> Prop.
Variables (n m d : Z) (e r : bool).
Hypothesis Hany : forall l n' m' d' e' r', P (Block l n m d e r) -> P (Block l n' m' d' e' r').
Hypothesis Hnil : P (Block [] n m d e r).
Hypothesis Hinstr : forall id op loc o t a l,
  P (Block l n m d e r) -> P (Block (Instr id op loc o t a :: l) n m d e r).
Hypothesis Hblock : forall id loc o c a l,
  P c -> P (Block l n m d e r) -> P (Block (BlockInstr id loc o c a :: l) n m d e r).

Fixpoint block_ind' (b : CompiledBlock) : P b :=
  match b with
  | Block l n' m' d' e' r' =>
      Hany l n' m' d' e' r'
        ((fix go (l : list IntermediateInstruction) : P (Block l n m d e r) :=
           match l with
           | [] => Hnil
           | Instr id op loc o t a :: l => Hinstr id op loc o t a l (go l)
           | BlockInstr id loc o c a :: l => Hblock id loc o c a l (block_ind' c) (go l)
           end) l)
  end.
End block_ind.

(** Every property below ignores the stack accounting, so the induction can run
    on trees with arbitrary counters. *)
Ltac block_induction b :=
  induction b as [l ? ? ? ? ? IHany | | id op loc o t a l IH | id loc o c a l IHc IH]
    using (fun P => block_ind' P 0 0 0 false false).

(** Name the inner loops of the tree functions, for arithmetic on their results. *)
Ltac name_loops :=
  simpl in *;
  repeat match goal with
         | |- context [?f ?l] =>
             is_fix f; is_var l; let x := fresh "loop" in set (x := f l) in *; clearbody x
         end.

Lemma block_size_nonneg (pseudo : bool) (b : CompiledBlock) :
  0 <= CompiledBlock_CountInstructions b pseudo.
Proof.
  block_induction b; name_loops; try lia.
  - destruct (negb (isLabel op) || pseudo); lia.
  - destruct pseudo; lia.
Qed.

(** [CountInstructions] counts what is emitted, pseudo-instructions included or
    not. *)
Lemma Count_code (pseudo : bool) (b : CompiledBlock) :
  CompiledBlock_CountInstructions b pseudo = zlen (block_code pseudo b).
Proof.
  block_induction b; name_loops; try done; autorewrite with zlen.
  - destruct (negb (isLabel op) || pseudo); simpl; autorewrite with zlen; lia.
  - destruct pseudo; simpl; autorewrite with zlen; lia.
Qed.

Lemma assemble_size (lab : nat -> Z) (pc : Z) (b : CompiledBlock) :
  zlen (assemble lab pc b) = block_size b.
Proof.
  revert pc. unfold block_size. block_induction b; intros pc; simpl in *; auto.
  - destruct (isLabel op); simpl; autorewrite with zlen; rewrite IH; lia.
  - autorewrite with zlen. rewrite IHc, IH. unfold block_size. lia.
Qed.

(** ** Writing the segment *)

Lemma segment_store_spec (s : ByteCodeSegment) op loc o :
  0 <= numByteCodes s -> numByteCodes s < zlen (byteCodes s) ->
  exists s', segment_store s op loc o = Some s'
    /\ compiledTables s' = compiledTables s /\ maxByteCodes s' = maxByteCodes s
    /\ numByteCodes s' = numByteCodes s + 1 /\ zlen (byteCodes s') = zlen (byteCodes s)
    /\ ByteCodeSegment_code s' = ByteCodeSegment_code s ++ [mkByteCode op (wrapS 32 loc) o].
Proof.
  intros H1 H2. unfold segment_store, zset. fold (zlen (byteCodes s)).
  destruct (Z.leb_spec 0 (numByteCodes s)), (Z.ltb_spec (numByteCodes s) (zlen (byteCodes s)));
    try lia. simpl.
  eexists. split; [reflexivity|]. unfold zlen in *. simpl. rewrite length_insert.
  repeat split; try done. unfold ByteCodeSegment_code. simpl.
  replace (Z.to_nat (numByteCodes s + 1)) with (S (Z.to_nat (numByteCodes s))) by lia.
  apply take_insert_snoc. lia.
Qed.

(** The code a step appends, with the room it needs. *)
Definition appends (f : ByteCodeSegment -> option ByteCodeSegment) (code : list ByteCode) : Prop :=
  forall s, 0 <= numByteCodes s -> numByteCodes s + zlen code <= zlen (byteCodes s) ->
  exists s', f s = Some s'
    /\ compiledTables s' = compiledTables s /\ maxByteCodes s' = maxByteCodes s
    /\ numByteCodes s' = numByteCodes s + zlen code /\ zlen (byteCodes s') = zlen (byteCodes s)
    /\ ByteCodeSegment_code s' = ByteCodeSegment_code s ++ code.

Lemma appends_nil : appends Some [].
Proof. intros s H1 H2. exists s. rewrite zlen_nil, app_nil_r. repeat split; lia || done. Qed.

Lemma appends_store op loc o :
  appends (fun s => segment_store s op loc o) [mkByteCode op (wrapS 32 loc) o].
Proof.
  intros s H1 H2. change (zlen [_]) with 1 in *. apply segment_store_spec; lia.
Qed.

Lemma appends_bind f g c1 c2 :
  appends f c1 -> appends g c2 -> appends (fun s => s ← f s; g s) (c1 ++ c2).
Proof.
  intros Hf Hg s H1 H2. rewrite zlen_app in *. pose proof (zlen_nonneg c2).
  destruct (Hf s) as (s1 & E1 & T1 & M1 & N1 & L1 & C1); [lia..|].
  destruct (Hg s1) as (s2 & E2 & T2 & M2 & N2 & L2 & C2); [pose proof (zlen_nonneg c1); lia..|].
  exists s2. rewrite E1. simpl. rewrite E2. rewrite C2, C1, <- app_assoc.
  repeat split; congruence || lia.
Qed.

Lemma appends_if (c : bool) f code :
  appends f code -> appends (fun s => if c then f s else Some s) (if c then code else []).
Proof. intros. destruct c; [done|apply appends_nil]. Qed.

Lemma Append_appends (pseudo : bool) (b : CompiledBlock) :
  appends (fun s => CompiledBlock_AppendToByteCodeSegment b s pseudo) (block_code pseudo b).
Proof.
  block_induction b; simpl in *.
  - exact IHany.
  - apply appends_nil.
  - apply (appends_bind (fun s => if negb (isLabel op) || pseudo then segment_store s op loc o
                                 else Some s)); [|exact IH].
    apply (appends_if _ (fun s => segment_store s op loc o)), appends_store.
  - apply (appends_bind (fun s => if pseudo then segment_store s Op_Block loc o else Some s)).
    { apply (appends_if _ (fun s => segment_store s Op_Block loc o)), appends_store. }
    apply (appends_bind (fun s => CompiledBlock_AppendToByteCodeSegment c s pseudo)); [exact IHc|].
    apply (appends_bind (fun s => if pseudo then segment_store s Op_EndBlock loc o else Some s));
      [|exact IH].
    apply (appends_if _ (fun s => segment_store s Op_EndBlock loc o)), appends_store.
Qed.

(** ** Addresses *)

(** One step of the layout loop, for an instruction and for a child block. *)
Lemma CalculateAddresses_instr id op loc o t a l n m d e r start pseudo :
  exists l' last next,
    CompiledBlock_CalculateAddresses (Block l n m d e r)
      (if negb (isPseudo op) || pseudo then start + 1 else start) pseudo
      = (Block l' n m d e r, last)
    /\ next = (if negb (isPseudo op) || pseudo then start + 1 else start)
    /\ CompiledBlock_CalculateAddresses (Block (Instr id op loc o t a :: l) n m d e r) start pseudo
       = (Block (Instr id op loc o t (wrapU 24 start) :: l') n m d e r, last).
Proof.
  simpl. match goal with |- context [?f l ?x] => destruct (f l x) as [l' last] end.
  exists l', last. eexists. repeat split.
Qed.

Lemma CalculateAddresses_block id loc o c a l n m d e r start :
  exists l' last c' next,
    CompiledBlock_CalculateAddresses c (start + 0) false = (c', next)
    /\ CompiledBlock_CalculateAddresses (Block l n m d e r) (next + 0) false
       = (Block l' n m d e r, last)
    /\ CompiledBlock_CalculateAddresses (Block (BlockInstr id loc o c a :: l) n m d e r) start false
       = (Block (BlockInstr id loc o c' (wrapU 24 start) :: l') n m d e r, last).
Proof.
  simpl. destruct (CompiledBlock_CalculateAddresses c (start + 0) false) as [c' next] eqn:E.
  match goal with |- context [?f l (next + 0)] => destruct (f l (next + 0)) as [l' last] eqn:El end.
  exists l', last, c', next. rewrite El. repeat split.
Qed.

(** What [CalculateAddresses] does to a well-formed tree that fits the 24-bit
    address field: the address fields are the reference labels, the answer is
    the address after the block, and resolving the branches afterwards gives
    the reference code. *)
Definition laid_out (start : Z) (b : CompiledBlock) : Prop :=
  forall b' last, CompiledBlock_CalculateAddresses b start false = (b', last) ->
  last = start + block_size b
  /\ addresses b' = block_labels start b
  /\ (forall pseudo, CompiledBlock_CountInstructions b' pseudo
                     = CompiledBlock_CountInstructions b pseudo)
  /\ forall env, block_code false (CompiledBlock_ResolveBranches env b')
                 = assemble (address_of env) start b.

Lemma isLabel_pseudo (op : Opcode) : isLabel op = true -> isPseudo op = true.
Proof. by destruct op. Qed.

Lemma laid_out_any l n m d e r n' m' d' e' r' start :
  laid_out start (Block l n m d e r) -> laid_out start (Block l n' m' d' e' r').
Proof.
  unfold laid_out. simpl. intros H b' last E. cases_in E. injection E as <- <-.
  edestruct H as (? & ? & ? & ?); [reflexivity|]. auto.
Qed.

Lemma CalculateAddresses_laid_out (b : CompiledBlock) (start : Z) :
  block_wf b = true -> 0 <= start -> start + block_size b < 2 ^ 24 -> laid_out start b.
Proof.
  revert start. block_induction b; intros start Hwf Hs Hb.
  - exact (laid_out_any _ _ _ _ _ _ _ _ _ _ _ _ (IHany start Hwf Hs Hb)).
  - intros b' last [= <- <-]. unfold block_size. simpl. repeat split; done || lia.
  - intros b' last E.
    destruct (CalculateAddresses_instr id op loc o t a l 0 0 0 false false start false)
      as (l' & last' & next & E1 & Hnext & E2).
    rewrite E2 in E. injection E as <- <-.
    assert (Hwf' : block_wf (Block l 0 0 0 false false) = true)
      by (simpl in Hwf |- *; apply andb_prop in Hwf as [_ Hwf]; exact Hwf).
    assert (Hop : isPseudo op = isLabel op).
    { simpl in Hwf. apply andb_prop in Hwf as [Hwf _].
      destruct (isLabel op) eqn:El; [by apply isLabel_pseudo|].
      by destruct (isPseudo op). }
    assert (Hsz : block_size (Block (Instr id op loc o t a :: l) 0 0 0 false false)
             = (if isLabel op then 0 else 1) + block_size (Block l 0 0 0 false false)).
    { unfold block_size. simpl. by destruct (isLabel op). }
    pose proof (block_size_nonneg false (Block l 0 0 0 false false)) as Hnn.
    fold (block_size (Block l 0 0 0 false false)) in Hnn.
    rewrite Hop in E1. rewrite Hsz in Hb |- *.
    assert (Hwrap : wrapU 24 start = start).
    { apply wrapU_id. unfold inU. destruct (isLabel op); lia. }
    rewrite Hwrap.
    destruct (isLabel op) eqn:El; simpl in E1;
      (edestruct IH as (H1 & H2 & H3 & H4); [exact Hwf'| | |exact E1|]; [lia..|]).
    + split; [lia|]. split; [|split].
      * simpl in H2 |- *. rewrite El. by rewrite H2.
      * intros pseudo. specialize (H3 pseudo). simpl in H3 |- *. by rewrite H3.
      * intros env. specialize (H4 env). simpl in H4 |- *. rewrite El. simpl. exact H4.
    + split; [lia|]. split; [|split].
      * simpl in H2 |- *. rewrite El. by rewrite H2.
      * intros pseudo. specialize (H3 pseudo). simpl in H3 |- *. by rewrite H3.
      * intros env. specialize (H4 env). simpl in H4 |- *. rewrite El. simpl. by rewrite H4.
  - intros b' last E.
    destruct (CalculateAddresses_block id loc o c a l 0 0 0 false false start)
      as (l' & last' & c' & next & E1 & E2 & E3).
    rewrite E3 in E. injection E as <- <-.
    simpl in Hwf. apply andb_prop in Hwf as [Hwfc Hwfl].
    assert (Hsz : block_size (Block (BlockInstr id loc o c a :: l) 0 0 0 false false)
             = block_size c + block_size (Block l 0 0 0 false false)).
    { unfold block_size. simpl. lia. }
    pose proof (block_size_nonneg false c) as Hc.
    pose proof (block_size_nonneg false (Block l 0 0 0 false false)) as Hl.
    fold (block_size c) in Hc. fold (block_size (Block l 0 0 0 false false)) in Hl.
    rewrite Hsz in Hb |- *. rewrite Z.add_0_r in E1, E2.
    edestruct IHc as (C1 & C2 & C3 & C4); [exact Hwfc| | |exact E1|]; [lia..|]. subst next.
    edestruct IH as (H1 & H2 & H3 & H4); [exact Hwfl| | |exact E2|]; [lia..|].
    assert (Hwrap : wrapU 24 start = start) by (apply wrapU_id; unfold inU; lia).
    rewrite Hwrap. split; [lia|]. split; [|split].
    + simpl in H2 |- *. by rewrite C2, H2.
    + intros pseudo. specialize (H3 pseudo). simpl in H3 |- *. by rewrite C3, H3.
    + intros env. specialize (H4 env). simpl in H4 |- *. by rewrite C4, H4.
Qed.

(** Layout moves no instruction in or out, whatever the mode and the tree. *)
Lemma CalculateAddresses_Count (b : CompiledBlock) (start : Z) (pseudo p : bool) :
  CompiledBlock_CountInstructions (fst (CompiledBlock_CalculateAddresses b start pseudo)) p
  = CompiledBlock_CountInstructions b p.
Proof.
  revert start. block_induction b; intros start.
  - specialize (IHany start). simpl in *.
    by match goal with |- context [?f l start] => is_fix f; destruct (f l start) end.
  - done.
  - simpl. match goal with |- context [?f l ?x] => is_fix f; specialize (IH x); simpl in IH;
      destruct (f l x) as [l' last] end. simpl in *. by rewrite IH.
  - simpl. set (s1 := start + _). specialize (IHc s1).
    destruct (CompiledBlock_CalculateAddresses c s1 pseudo) as [c' next].
    match goal with |- context [?f l ?x] => is_fix f; specialize (IH x); simpl in IH;
      destruct (f l x) as [l' last] end. simpl in *. by rewrite IH, IHc.
Qed.

Lemma ResolveBranches_Count env (b : CompiledBlock) (p : bool) :
  CompiledBlock_CountInstructions (CompiledBlock_ResolveBranches env b) p
  = CompiledBlock_CountInstructions b p.
Proof.
  block_induction b; simpl in *; [done..| |]; by rewrite IH, ?IHc.
Qed.

Lemma Append_fresh (pseudo : bool) (b : CompiledBlock) (tables : nat) :
  exists seg,
    CompiledBlock_AppendToByteCodeSegment b
      (ByteCodeSegment_CreateWithSize tables (CompiledBlock_CountInstructions b pseudo)) pseudo
      = Some seg
    /\ compiledTables seg = tables
    /\ numByteCodes seg = CompiledBlock_CountInstructions b pseudo
    /\ zlen (byteCodes seg) = CompiledBlock_CountInstructions b pseudo
    /\ maxByteCodes seg = wrapS 32 (CompiledBlock_CountInstructions b pseudo)
    /\ ByteCodeSegment_code seg = block_code pseudo b.
Proof.
  pose proof (block_size_nonneg pseudo b) as Hnn.
  set (num := CompiledBlock_CountInstructions b pseudo) in *.
  destruct (Append_appends pseudo b (ByteCodeSegment_CreateWithSize tables num))
    as (seg & E & T & M & N & L & C); simpl in *.
  - done.
  - rewrite zlen_replicate, <- Count_code. fold num. lia.
  - rewrite zlen_replicate, <- ?Count_code in *. fold num in N.
    exists seg. split; [done|]. repeat split; try done; try lia.
Qed.

(** ** Flattening *)

Lemma Flatten_instr id op loc o t a l n m d e r :
  instrs (CompiledBlock_Flatten (Block (Instr id op loc o t a :: l) n m d e r))
  = Instr id op loc o t a :: instrs (CompiledBlock_Flatten (Block l n m d e r)).
Proof.
  simpl. by match goal with |- context [?f l n] => is_fix f; destruct (f l n) end.
Qed.

(** The counter is threaded through the loop but never looked at. *)
Lemma Flatten_any l n m d e r n' m' d' e' r' :
  instrs (CompiledBlock_Flatten (Block l n m d e r))
  = instrs (CompiledBlock_Flatten (Block l n' m' d' e' r')).
Proof.
  revert n n'. induction l as [|i l IH]; intros n n'; [done|].
  destruct i as [id op loc o t a|id loc o c a]; [by rewrite !Flatten_instr, (IH n n')|].
  simpl. destruct (instrs (CompiledBlock_Flatten c)) eqn:E.
  - exact (IH (n - 1) (n' - 1)).
  - specialize (IH n n'). simpl in IH.
    match goal with |- context [?f l n] => is_fix f; destruct (f l n), (f l n') end.
    simpl in *. congruence.
Qed.

Lemma Flatten_block id loc o c a l n m d e r :
  instrs (CompiledBlock_Flatten (Block (BlockInstr id loc o c a :: l) n m d e r))
  = instrs (CompiledBlock_Flatten c) ++ instrs (CompiledBlock_Flatten (Block l n m d e r)).
Proof.
  destruct (instrs (CompiledBlock_Flatten c)) eqn:E.
  - rewrite (Flatten_any l n m d e r (n - 1) m d e r). simpl. rewrite E. done.
  - simpl. rewrite E. by match goal with |- context [?f l n] => is_fix f; destruct (f l n) end.
Qed.

(** The tree of plain instructions [l], for stating what a list assembles to. *)
Definition leaves (l : list IntermediateInstruction) : CompiledBlock := Block l 0 0 0 false false.

Lemma assemble_leaves lab pc b : assemble lab pc b = assemble lab pc (leaves (instrs b)).
Proof. by destruct b. Qed.

Lemma block_size_leaves b : block_size b = block_size (leaves (instrs b)).
Proof. by destruct b. Qed.

Lemma block_size_instr id op loc o t a l :
  block_size (leaves (Instr id op loc o t a :: l))
  = (if isLabel op then 0 else 1) + block_size (leaves l).
Proof. unfold block_size. simpl. by destruct (isLabel op). Qed.

Lemma block_size_block id loc o c a l :
  block_size (leaves (BlockInstr id loc o c a :: l)) = block_size c + block_size (leaves l).
Proof. unfold block_size. simpl. lia. Qed.

Lemma block_size_app l k :
  block_size (leaves (l ++ k)) = block_size (leaves l) + block_size (leaves k).
Proof.
  induction l as [|[id op loc o t a|id loc o c a] l IH]; [done|..]; simpl app;
    rewrite ?block_size_instr, ?block_size_block, IH; lia.
Qed.

Lemma assemble_app lab pc l k :
  assemble lab pc (leaves (l ++ k))
  = assemble lab pc (leaves l) ++ assemble lab (pc + block_size (leaves l)) (leaves k).
Proof.
  revert pc. induction l as [|[id op loc o t a|id loc o c a] l IH]; intros pc; simpl app.
  - change (block_size (leaves [])) with 0. by rewrite Z.add_0_r.
  - rewrite block_size_instr.
    destruct (isLabel op) eqn:E; [|rewrite Z.add_assoc];
      unfold leaves in *; simpl in *; rewrite E, IH; done.
  - rewrite block_size_block, Z.add_assoc. unfold leaves in *. simpl in *.
    by rewrite IH, <- app_assoc.
Qed.

Definition is_plain (i : IntermediateInstruction) : bool :=
  match i with Instr _ _ _ _ _ _ => true | BlockInstr _ _ _ _ _ => false end.

(** ** Stack accounting

    The two counters of a block as a function of the deltas it was built from:
    the sum and the highest prefix sum (at least the starting maximum). *)

Definition max_of (m x : Z) : Z := if x >? m then x else m.

Definition depth_run (dm : Z * Z) (deltas : list Z) : Z * Z :=
  foldl (fun dm x => (fst dm + x, max_of (snd dm) (fst dm + x))) dm deltas.

Definition depth (b : CompiledBlock) : Z * Z := (finalStackDelta b, maxStackDepth b).

Lemma max_of_spec (m x : Z) : max_of m x = Z.max m x.
Proof. unfold max_of. rewrite Z.gtb_ltb. destruct (Z.ltb_spec m x); lia. Qed.

Lemma Emit_depth b id op stackDelta loc o t :
  depth (CompiledBlock_Emit b id op stackDelta loc o t) = depth_run (depth b) [stackDelta].
Proof.
  destruct b as [l n m d e r]. unfold CompiledBlock_Emit, depth. simpl. unfold max_of.
  by destruct (d + stackDelta >? m).
Qed.

(** Running from a shifted start is running from 0, shifted. *)
Lemma depth_run_shift (ds : list Z) (d m d0 m0 : Z) :
  depth_run (d0 + d, Z.max m0 (d0 + m)) ds
  = (d0 + fst (depth_run (d, m) ds), Z.max m0 (d0 + snd (depth_run (d, m) ds))).
Proof.
  revert d m. induction ds as [|x ds IH]; intros d m; [done|]. simpl.
  rewrite <- IH. do 2 f_equal; [lia|]. rewrite !max_of_spec. lia.
Qed.

Lemma depth_run_app dm ds1 ds2 : depth_run dm (ds1 ++ ds2) = depth_run (depth_run dm ds1) ds2.
Proof. apply foldl_app. Qed.

Lemma depth_run_ge (ds : list Z) (d m : Z) : m <= snd (depth_run (d, m) ds).
Proof.
  revert d m. induction ds as [|x ds IH]; intros d m; simpl; [lia|].
  etransitivity; [|apply IH]. rewrite max_of_spec. lia.
Qed.

Lemma depth_run_le (ds : list Z) (d m : Z) :
  d <= m -> fst (depth_run (d, m) ds) <= snd (depth_run (d, m) ds).
Proof.
  revert d m. induction ds as [|x ds IH]; intros d m H; simpl; [done|].
  apply IH. rewrite max_of_spec. lia.
Qed.

(** ** Properties *)

(** A tree that fits the address field is laid out as the reference assembly. *)
Lemma Finish_layout (b : CompiledBlock) (tables : nat) :
  block_wf b = true -> block_size b < 2 ^ 24 ->
  exists seg b', CompiledBlock_Finish b tables false = Some (seg, b')
    /\ ByteCodeSegment_code seg = assemble (address_of (block_labels 0 b)) 0 b
    /\ compiledTables seg = tables
    /\ numByteCodes seg = block_size b /\ maxByteCodes seg = block_size b
    /\ zlen (byteCodes seg) = block_size b.
Proof.
  intros Hwf Hb. unfold CompiledBlock_Finish.
  destruct (CompiledBlock_CalculateAddresses b 0 false) as [b1 last] eqn:E.
  assert (Hb' : 0 + block_size b < 2 ^ 24) by (rewrite Z.add_0_l; exact Hb).
  destruct (CalculateAddresses_laid_out b 0 Hwf (Z.le_refl 0) Hb' b1 last E)
    as (_ & Hlab & Hcount & Hcode).
  destruct (Append_fresh false (CompiledBlock_ResolveBranches (addresses b1) b1) tables)
    as (seg & ES & T & N & L & M & C).
  rewrite ResolveBranches_Count, Hcount in ES, N, L, M. rewrite ES. simpl.
  do 2 eexists. split; [reflexivity|].
  rewrite C, Hcode, Hlab. unfold block_size in *.
  pose proof (block_size_nonneg false b).
  repeat split; try done. rewrite M. apply wrapS_id; [lia|].
  apply inS32_intro. change (2 ^ 24) with 16777216 in Hb. lia.
Qed.

(** C4: [CompiledBlock_Finish] on a tree of real instructions, labels and
    blocks that fits the 24-bit address field succeeds and writes exactly the
    reference assembly of the tree: labels take no room, a branch carries the
    distance from itself to its label, and the segment is exactly full. *)
Theorem Finish_assembles (b : CompiledBlock) (tables : nat) :
  block_wf b = true -> block_size b < 2 ^ 24 ->
  exists seg b', CompiledBlock_Finish b tables false = Some (seg, b')
    /\ ByteCodeSegment_code seg = assemble (address_of (block_labels 0 b)) 0 b
    /\ compiledTables seg = tables
    /\ numByteCodes seg = block_size b /\ maxByteCodes seg = block_size b
    /\ zlen (byteCodes seg) = block_size b.
Proof. apply Finish_layout. Qed.

(** Counting and appending agree. *)
Lemma Finish_count (b : CompiledBlock) (tables : nat) (includePseudoOps : bool) :
  exists seg b', CompiledBlock_Finish b tables includePseudoOps = Some (seg, b')
    /\ numByteCodes seg = CompiledBlock_CountInstructions b includePseudoOps
    /\ zlen (byteCodes seg) = numByteCodes seg
    /\ zlen (ByteCodeSegment_code seg) = numByteCodes seg.
Proof.
  unfold CompiledBlock_Finish.
  destruct (CompiledBlock_CalculateAddresses b 0 includePseudoOps) as [b1 last] eqn:E.
  pose proof (CalculateAddresses_Count b 0 includePseudoOps includePseudoOps) as Hc.
  rewrite E in Hc. simpl in Hc.
  destruct (Append_fresh includePseudoOps (CompiledBlock_ResolveBranches (addresses b1) b1) tables)
    as (seg & ES & T & N & L & M & C).
  rewrite ResolveBranches_Count, Hc in *. rewrite ES. simpl.
  do 2 eexists. split; [reflexivity|]. split; [done|]. split; [lia|].
  rewrite C, <- Count_code, ResolveBranches_Count. lia.
Qed.

(** C30: [CompiledBlock_Finish] never writes outside the segment it allocated
    and never returns with slots unused, for every tree and in both modes: the
    counting pass and the appending pass agree. *)
Theorem Finish_in_bounds (b : CompiledBlock) (tables : nat) (includePseudoOps : bool) :
  exists seg b', CompiledBlock_Finish b tables includePseudoOps = Some (seg, b')
    /\ numByteCodes seg = CompiledBlock_CountInstructions b includePseudoOps
    /\ zlen (byteCodes seg) = numByteCodes seg
    /\ zlen (ByteCodeSegment_code seg) = numByteCodes seg.
Proof. apply Finish_count. Qed.

Lemma Flatten_assembles (b : CompiledBlock) (lab : nat -> Z) (pc : Z) :
  forallb is_plain (instrs (CompiledBlock_Flatten b)) = true
  /\ assemble lab pc (CompiledBlock_Flatten b) = assemble lab pc b
  /\ block_size (CompiledBlock_Flatten b) = block_size b.
Proof.
  rewrite assemble_leaves, block_size_leaves.
  revert pc. block_induction b; intros pc.
  - rewrite (Flatten_any l _ _ _ _ _ 0 0 0 false false). exact (IHany pc).
  - done.
  - rewrite Flatten_instr. simpl forallb. rewrite block_size_instr.
    fold (leaves l) in *. fold (leaves (Instr id op loc o t a :: l)). rewrite block_size_instr.
    destruct (IH (if isLabel op then pc else pc + 1)) as (H1 & H2 & H3).
    split; [done|]. split; [|lia]. unfold leaves in *. simpl in H2 |- *.
    destruct (isLabel op); by rewrite H2.
  - rewrite Flatten_block, forallb_app, assemble_app, block_size_app.
    fold (leaves l) in *. fold (leaves (BlockInstr id loc o c a :: l)).
    rewrite block_size_block.
    destruct (IHc pc) as (C1 & C2 & C3).
    destruct (IH (pc + block_size c)) as (H1 & H2 & H3).
    rewrite C1, H1, C2, C3. split; [done|]. split; [|lia]. rewrite H2. done.
Qed.

(** The instructions of a tree other than its block brackets, in order. *)
Fixpoint plain_instructions (b : CompiledBlock) : list IntermediateInstruction :=
  match b with
  | Block l _ _ _ _ _ =>
      flat_map (fun i => match i with
                         | Instr _ _ _ _ _ _ => [i]
                         | BlockInstr _ _ _ child _ => plain_instructions child
                         end) l
  end.

Lemma Flatten_keeps_instructions (b : CompiledBlock) :
  instrs (CompiledBlock_Flatten b) = plain_instructions b.
Proof.
  block_induction b.
  - rewrite (Flatten_any l _ _ _ _ _ 0 0 0 false false). exact IHany.
  - done.
  - by rewrite Flatten_instr, IH.
  - by rewrite Flatten_block, IHc, IH.
Qed.

(** The instructions that branch targets name, and those that stand for blocks. *)
Fixpoint branch_targets (b : CompiledBlock) : list nat :=
  match b with
  | Block l _ _ _ _ _ =>
      flat_map (fun i => match i with
                         | Instr _ _ _ _ t _ => option_list t
                         | BlockInstr _ _ _ child _ => branch_targets child
                         end) l
  end.

Fixpoint block_ids (b : CompiledBlock) : list nat :=
  match b with
  | Block l _ _ _ _ _ =>
      flat_map (fun i => match i with
                         | Instr _ _ _ _ _ _ => []
                         | BlockInstr id _ _ child _ => id :: block_ids child
                         end) l
  end.

(** The code depends on the addresses of the branch targets only. *)
Lemma assemble_ext (lab lab' : nat -> Z) (pc : Z) (b : CompiledBlock) :
  (forall t, In t (branch_targets b) -> lab t = lab' t) -> assemble lab pc b = assemble lab' pc b.
Proof.
  revert pc. block_induction b; intros pc Ht; simpl in *; auto.
  - destruct (isLabel op); [by apply IH; auto using in_or_app|].
    rewrite IH by auto using in_or_app. do 3 f_equal.
    destruct t as [t|]; [|done]. by rewrite (Ht t) by (by left).
  - rewrite IHc, IH by auto using in_or_app. done.
Qed.

Lemma address_of_filter (env : list (nat * Z)) (t : nat) :
  address_of env t = match filter (fun p => fst p = t) env with (_, a) :: _ => a | [] => 0 end.
Proof.
  unfold address_of. induction env as [|[id a] env IH]; [done|]. simpl.
  destruct (decide (id = t)) as [H|H].
  - by rewrite filter_cons_True.
  - rewrite filter_cons_False by done. rewrite <- IH.
    by destruct (list_find _ env) as [[? [? ?]]|].
Qed.

Lemma block_labels_leaves pc b : block_labels pc b = block_labels pc (leaves (instrs b)).
Proof. by destruct b. Qed.

Lemma block_labels_app pc l k :
  block_labels pc (leaves (l ++ k))
  = block_labels pc (leaves l) ++ block_labels (pc + block_size (leaves l)) (leaves k).
Proof.
  revert pc. induction l as [|[id op loc o t a|id loc o c a] l IH]; intros pc; simpl app.
  - change (block_size (leaves [])) with 0. by rewrite Z.add_0_r.
  - rewrite block_size_instr. unfold leaves in *. simpl in *. rewrite IH.
    destruct (isLabel op); [by rewrite Z.add_0_l|by rewrite Z.add_assoc].
  - rewrite block_size_block, Z.add_assoc. unfold leaves in *. simpl in *.
    by rewrite IH, <- app_assoc.
Qed.

(** Every instruction that is not a block keeps its address. *)
Lemma Flatten_labels (tgt : nat) (pc : Z) (b : CompiledBlock) :
  ~ In tgt (block_ids b) ->
  filter (fun p => fst p = tgt) (block_labels pc (CompiledBlock_Flatten b))
  = filter (fun p => fst p = tgt) (block_labels pc b).
Proof.
  rewrite block_labels_leaves. revert pc. block_induction b; intros pc Ht.
  - rewrite (Flatten_any l _ _ _ _ _ 0 0 0 false false). exact (IHany pc Ht).
  - done.
  - rewrite Flatten_instr. unfold leaves in *. simpl in *. by rewrite !filter_cons, IH.
  - rewrite Flatten_block, block_labels_app, filter_app. simpl in Ht.
    rewrite IHc by (intros H; apply Ht; auto using in_or_app).
    rewrite <- block_size_leaves.
    destruct (Flatten_assembles c (fun _ => 0) 0) as (_ & _ & ->).
    rewrite IH by (intros H; apply Ht; auto using in_or_app).
    simpl. by rewrite filter_cons_False, filter_app by (simpl; tauto).
Qed.

Lemma block_wf_app l k :
  block_wf (leaves (l ++ k)) = block_wf (leaves l) && block_wf (leaves k).
Proof.
  induction l as [|[id op loc o t a|id loc o c a] l IH]; [done|..];
    unfold leaves in *; simpl in *; by rewrite IH, andb_assoc.
Qed.

Lemma Flatten_wf (b : CompiledBlock) : block_wf (CompiledBlock_Flatten b) = block_wf b.
Proof.
  assert (Hl : forall b, block_wf b = block_wf (leaves (instrs b))) by (by intros []).
  rewrite Hl. block_induction b.
  - rewrite (Flatten_any l _ _ _ _ _ 0 0 0 false false). exact IHany.
  - done.
  - rewrite Flatten_instr. unfold leaves in *. simpl in *. by rewrite IH.
  - rewrite Flatten_block, block_wf_app, IHc, IH. done.
Qed.

(** A segment that is full is determined by its code. *)
Lemma full_segment_eq (n : Z) (tables : nat) (code : list ByteCode) (s1 s2 : ByteCodeSegment) :
  let full s := ByteCodeSegment_code s = code /\ compiledTables s = tables
    /\ numByteCodes s = n /\ maxByteCodes s = n /\ zlen (byteCodes s) = n in
  full s1 -> full s2 -> s1 = s2.
Proof.
  intros full. assert (H : forall s, full s -> s = mkSegment tables code n n).
  { intros [t l m k] (Hc & Ht & Hm & Hk & Hl). unfold ByteCodeSegment_code in Hc. simpl in *. subst.
    rewrite take_ge; [done|]. unfold zlen. lia. }
  intros H1 H2. by rewrite (H s1 H1), (H s2 H2).
Qed.

(** C31: [CompiledBlock_Flatten] leaves the instructions of the tree and of all
    its child blocks, labels included, in their order and without the blocks;
    and when no branch targets a block, flattening before
    [CompiledBlock_Finish] makes no difference to the segment it builds: every
    label keeps its address and every branch its distance. *)
Theorem Flatten_preserves_code (b : CompiledBlock) (tables : nat) :
  block_wf b = true -> block_size b < 2 ^ 24 ->
  (forall t, In t (branch_targets b) -> ~ In t (block_ids b)) ->
  instrs (CompiledBlock_Flatten b) = plain_instructions b
  /\ forallb is_plain (instrs (CompiledBlock_Flatten b)) = true
  /\ exists seg b1 b2, CompiledBlock_Finish b tables false = Some (seg, b1)
       /\ CompiledBlock_Finish (CompiledBlock_Flatten b) tables false = Some (seg, b2).
Proof.
  intros Hwf Hsize Ht. split; [apply Flatten_keeps_instructions|].
  set (f := CompiledBlock_Flatten b).
  destruct (Flatten_assembles b (address_of (block_labels 0 f)) 0) as (Hp & Ha & Hs).
  split; [exact Hp|]. fold f in Ha, Hs.
  destruct (Finish_layout b tables Hwf Hsize) as (s1 & b1 & F1 & L1).
  destruct (Finish_layout f tables) as (s2 & b2 & F2 & L2);
    [by unfold f; rewrite Flatten_wf|by rewrite Hs|].
  exists s1, b1, b2. split; [exact F1|]. rewrite F2. do 2 f_equal.
  rewrite Hs, Ha, (assemble_ext _ (address_of (block_labels 0 b))) in L2; [by eapply full_segment_eq|].
  intros t Hin. rewrite !address_of_filter. unfold f. by rewrite Flatten_labels by auto.
Qed.

Lemma Flatten_preserves_code_witness :
  let child := CompiledBlock_Emit
                 (CompiledBlock_Emit CompiledBlock_Create 1 Op_Bf (-1) 0 zero (Some 3%nat))
                 2 Op_LdNull 1 0 zero None in
  let parent := CompiledBlock_Emit
                  (fst (CompiledBlock_AppendChild CompiledBlock_Create 4 child))
                  3 Op_Label 0 0 zero None in
  instrs (CompiledBlock_Flatten parent) = plain_instructions parent
  /\ forallb is_plain (instrs (CompiledBlock_Flatten parent)) = true
  /\ exists seg b1 b2, CompiledBlock_Finish parent 0 false = Some (seg, b1)
       /\ CompiledBlock_Finish (CompiledBlock_Flatten parent) 0 false = Some (seg, b2).
Proof.
  intros child parent. apply (Flatten_preserves_code parent 0); [reflexivity|reflexivity|].
  intros t Ht Hb. simpl in Ht, Hb. lia.
Defined.

(** The stack accounting of blocks is exact for straight-line emission and
    for nesting: if the counters of the parent are those of running the deltas
    [ds1] and those of a non-empty child are those of running [ds2] from an
    empty stack, then after [CompiledBlock_AppendChild] they are those of
    running [ds1 ++ ds2], and an error in the child reaches the parent. *)
Theorem AppendChild_depth (parent child : CompiledBlock) (id : nat) (ds1 ds2 : list Z) :
  depth parent = depth_run (0, 0) ds1 -> depth child = depth_run (0, 0) ds2 ->
  0 < zlen (instrs child) ->
  let '(p, created) := CompiledBlock_AppendChild parent id child in
  created = true /\ depth p = depth_run (0, 0) (ds1 ++ ds2)
  /\ flagError p = flagError parent || flagError child.
Proof.
  intros Hp Hc Hn. unfold CompiledBlock_AppendChild.
  destruct child as [lc nc mc dc ec rc], parent as [l n m d e r].
  destruct lc as [|i lc]; [done|]. unfold depth in *. simpl in *.
  rewrite depth_run_app, <- Hp.
  pose proof (depth_run_ge ds1 0 0) as Hm0. rewrite <- Hp in Hm0. simpl in Hm0.
  pose proof (depth_run_shift ds2 0 0 d m) as Hs. rewrite <- Hc in Hs. simpl in Hs.
  pose proof (depth_run_le ds1 0 0 ltac:(lia)) as Hle. rewrite <- Hp in Hle. simpl in Hle.
  rewrite Z.add_0_r, Z.max_l in Hs by done.
  rewrite Hs. rewrite Z.gtb_ltb.
  destruct (Z.ltb_spec m (d + mc)), rc; simpl;
    rewrite ?orb_true_r, ?orb_false_r; repeat split; f_equal; lia.
Qed.

Lemma AppendChild_depth_witness :
  let child := CompiledBlock_Emit CompiledBlock_Create 1 Op_LdNull 1 0 zero None in
  let '(p, created) := CompiledBlock_AppendChild child 2 child in
  created = true /\ depth p = depth_run (0, 0) ([1] ++ [1])
  /\ flagError p = flagError child || flagError child.
Proof. apply AppendChild_depth; reflexivity. Defined.

(** [CompiledBlock_Combine] keeps the final delta exact but not the maximum
    depth its comment promises: the combined maximum falls below what running
    the second block after the first one needs exactly when the first block
    leaves values on the stack and the second one climbs above the first one's
    maximum from there. *)
Theorem Combine_depth_underestimates (b1 b2 : CompiledBlock) :
  instrs b1 <> [] -> instrs b2 <> [] ->
  let needed := Z.max (maxStackDepth b1) (finalStackDelta b1 + maxStackDepth b2) in
  finalStackDelta (CompiledBlock_Combine b1 b2) = finalStackDelta b1 + finalStackDelta b2
  /\ (maxStackDepth (CompiledBlock_Combine b1 b2) < needed
      <-> 0 < finalStackDelta b1 /\ maxStackDepth b1 < finalStackDelta b1 + maxStackDepth b2).
Proof.
  destruct b1 as [[|i1 l1] n1 m1 d1 e1 r1], b2 as [[|i2 l2] n2 m2 d2 e2 r2]; try done.
  intros _ _. simpl. split; [done|]. rewrite Z.gtb_ltb. destruct (Z.ltb_spec m1 m2); lia.
Qed.

Lemma Combine_depth_underestimates_witness :
  let b := CompiledBlock_Emit CompiledBlock_Create 1 Op_LdNull 1 0 zero None in
  finalStackDelta (CompiledBlock_Combine b b) = 1 + 1
  /\ (maxStackDepth (CompiledBlock_Combine b b) < 2 <-> 0 < 1 /\ 1 < 1 + 1).
Proof.
  intros b. apply (Combine_depth_underestimates b b); discriminate.
Defined.

Lemma Finish_assembles_witness :
  let b := CompiledBlock_Emit
             (CompiledBlock_Emit
               (CompiledBlock_Emit CompiledBlock_Create 1 Op_Bf (-1) 0 zero (Some 3%nat))
               2 Op_LdNull 1 0 zero None)
             3 Op_Label 0 0 zero None in
  exists seg b', CompiledBlock_Finish b 0 false = Some (seg, b')
    /\ ByteCodeSegment_code seg
       = [mkByteCode Op_Bf 0 (set_index zero 2); mkByteCode Op_LdNull 0 zero]
    /\ compiledTables seg = 0%nat
    /\ numByteCodes seg = 2 /\ maxByteCodes seg = 2 /\ zlen (byteCodes seg) = 2.
Proof. intros b. apply (Finish_assembles b 0); reflexivity. Defined.
