(* ===== verification/Object.v ===== *)
(** * Object: run-time objects, arguments and the virtual table

    [include/smile/smiletypes/smileobject.h], [kind.h], and the boxing, truth,
    equality and property functions of [src/smiletypes/]: null, lists, boxed and
    unboxed scalars, strings, user objects, functions, till continuations.

    A [SmileObject] is a pointer: one of the well-known objects, or a reference
    [Ref r] to cell [r] of the heap, so [===] on pointers is equality here and
    mutation through one reference is seen through all. *)

From S2P Require Import Prelude Opcode ByteCode.
Import Operand.

Notation Symbol := Z (only parsing).

(** The scalar types that travel unboxed, [SMILE_KIND_UNBOXED_*]; the boxed
    kind is the unboxed one plus 0x10. *)
Inductive ScalarKind :=
  | KByte | KInteger16 | KInteger32 | KInteger64 | KBool | KFloat32 | KFloat64
  | KSymbol | KReal32 | KReal64 | KChar | KUni.

#[export] Instance ScalarKind_eq_dec : EqDecision ScalarKind.
Proof. solve_decision. Defined.

Definition ScalarKind_value (k : ScalarKind) : Z :=
  match k with
  | KByte => 0x00 | KInteger16 => 0x01 | KInteger32 => 0x02 | KInteger64 => 0x03
  | KBool => 0x04 | KFloat32 => 0x06 | KFloat64 => 0x07 | KSymbol => 0x08
  | KReal32 => 0x0A | KReal64 => 0x0B | KChar => 0x0C | KUni => 0x0D
  end.

Definition SMILE_KIND_NULL : Z := 0x20.
Definition SMILE_KIND_LIST : Z := 0x21.
Definition SMILE_KIND_PRIMITIVE : Z := 0x22.
Definition SMILE_KIND_USEROBJECT : Z := 0x24.
Definition SMILE_KIND_STRING : Z := 0x25.
Definition SMILE_KIND_TILL_CONTINUATION : Z := 0x2A.
Definition SMILE_KIND_FUNCTION : Z := 0x2F.

(** [USER_ARG_*] of [smilefunction.h]. *)
Definition USER_ARG_NORMAL : Z := 0.
Definition USER_ARG_REST : Z := 1.
Definition USER_ARG_TYPECHECK : Z := 2.
Definition USER_ARG_OPTIONAL : Z := 4.

(** Pointers.  [NoObject] is C's NULL, [UnboxedInstance k] are the [SmileUnboxed*_Instance] singletons,
    [BooleanObj] the two entries of [Smile_KnownObjects.BooleanObjs]. *)
Inductive SmileObject :=
  | NoObject
  | NullObject
  | PrimitiveObject
  | UnboxedInstance (k : ScalarKind)
  | BooleanObj (b : bool)
  | Ref (r : nat).

#[export] Instance SmileObject_eq_dec : EqDecision SmileObject.
Proof. solve_decision. Defined.

(** [SmileArg]: a pointer and the 64 bits of unboxed data next to it. *)
Record SmileArg := mkArg { obj : SmileObject; unboxed : word }.

#[export] Instance SmileArg_eq_dec : EqDecision SmileArg.
Proof. solve_decision. Defined.

(** Heap cells.  [HUserObject] carries the two security bits that choose its
    [setProperty]; a function refers to its [UserFunctionInfo] and declaring
    closure by number; a till continuation is emptied by [Op_EndTill]. *)
Inductive HeapObject :=
  | HScalar (k : ScalarKind) (value : word)
  | HList (a d : SmileObject)
  | HString (text : list Z)
  | HUserObject (base : SmileObject) (name : Symbol) (writable appendable : bool)
      (dict : gmap Z SmileObject)
  | HUserFunction (userFunctionInfo : nat) (declaringClosure : nat)
  | HExternalFunction (externalFunctionInfo : nat)
  | HTill (closure : option nat) (segment : option nat) (stackTop : Z)
      (branchTargetAddresses : list Z) (numBranchTargetAddresses : Z)
  | HOther (kind : Z) (base : SmileObject).

Notation Heap := (list HeapObject) (only parsing).

Definition heap_alloc (h : Heap) (o : HeapObject) : Heap * SmileObject :=
  (h ++ [o], Ref (length h)).

(** The base objects of [Smile_KnownBases] this component refers to. *)
Inductive BaseName := BScalar (k : ScalarKind) | BList | BFn | BString.

(** The type names among [Smile_KnownSymbols]. *)
Inductive TypeName :=
  | T_byte | T_integer16 | T_integer32 | T_integer64 | T_bool | T_float32 | T_float64 | T_symbol
  | T_real32 | T_real64 | T_char | T_uni | T_null | T_list | T_primitive | T_user_object | T_string
  | T_till | T_handle | T_closure | T_facade | T_macro | T_fn | T_integer128 | T_big_int
  | T_float128 | T_big_float | T_real128 | T_big_real | T_byte_range | T_integer16_range
  | T_integer32_range | T_integer64_range | T_float32_range | T_float64_range | T_real32_range
  | T_real64_range | T_byte_array | T_syntax | T_nonterminal | T_parse_decl | T_parse_message
  | T_unknown.

(** What the objects depend on from the rest of the system: the symbols and
    base objects set up at start-up, the conversions of the decimal library
    ([Real32_IsZero], [Real64_IsZero]), the virtual table of the kinds not
    modelled here (ranges, handles, byte arrays, external functions' reflective
    properties), and the bits [junk] an [SmileArg] built by [SmileArg_From]
    happens to hold next to its pointer. *)
Class ObjectEnv := {
  sym_a : Symbol; sym_d : Symbol; sym_start : Symbol; sym_end : Symbol;
  sym_count : Symbol; sym_length : Symbol; sym_fn : Symbol;
  sym_arguments : Symbol; sym_body : Symbol;
  sym_property_error : Symbol; sym_object_security_error : Symbol;
  sym_eval_error : Symbol; sym_native_method_error : Symbol;
  sym_type : TypeName -> Symbol;
  KnownBases : BaseName -> SmileObject;
  Real_IsZero : ScalarKind -> word -> bool;
  ext_toBool : HeapObject -> bool;
  ext_compareEqual : Heap -> SmileObject -> SmileObject -> word -> bool;
  ext_getProperty : Heap -> SmileObject -> Symbol -> Heap * SmileObject;
  junk : word
}.

(** A call either finishes, throws an exception of the given kind, or does
    something the C code leaves undefined (a dangling pointer, an index outside
    an array, a recursion that never ends). *)
Inductive Result (A : Type) :=
  | Ok (x : A)
  | Throw (errorKind : Symbol)
  | Crash.
Arguments Ok {A}. Arguments Throw {A}. Arguments Crash {A}.

Definition Result_bind {A B} (m : Result A) (f : A -> Result B) : Result B :=
  match m with Ok x => f x | Throw k => Throw k | Crash => Crash end.

(** An access that C leaves undefined when it fails. *)
Definition orCrash {A} (m : option A) : Result A :=
  match m with Some x => Ok x | None => Crash end.

Declare Scope result_scope.
Delimit Scope result_scope with result.
Notation "'let*' x := m 'in' k" := (Result_bind m (fun x => k))
  (at level 200, x pattern, right associativity) : result_scope.
Notation "'let?' x := m 'in' k" := (Result_bind (orCrash m) (fun x => k))
  (at level 200, x pattern, right associativity) : result_scope.
#[global] Open Scope result_scope.

Lemma Result_bind_Ok {A B} (m : Result A) (f : A -> Result B) y :
  Result_bind m f = Ok y -> exists x, m = Ok x /\ f x = Ok y.
Proof. destruct m; [eauto|discriminate..]. Qed.

Section Object.
Context {E : ObjectEnv}.

Definition deref (h : Heap) (o : SmileObject) : option HeapObject :=
  match o with Ref r => h !! r | _ => None end.

(** [SMILE_KIND(obj)]; [None] for a dangling pointer. *)
Definition SMILE_KIND (h : Heap) (o : SmileObject) : option Z :=
  match o with
  | NoObject => None
  | NullObject => Some SMILE_KIND_NULL
  | PrimitiveObject => Some SMILE_KIND_PRIMITIVE
  | UnboxedInstance k => Some (ScalarKind_value k)
  | BooleanObj _ => Some (0x10 + ScalarKind_value KBool)
  | Ref r =>
      match h !! r with
      | Some (HScalar k _) => Some (0x10 + ScalarKind_value k)
      | Some (HList _ _) => Some SMILE_KIND_LIST
      | Some (HString _) => Some SMILE_KIND_STRING
      | Some (HUserObject _ _ _ _ _) => Some SMILE_KIND_USEROBJECT
      | Some (HUserFunction _ _) => Some SMILE_KIND_FUNCTION
      | Some (HExternalFunction _) => Some SMILE_KIND_FUNCTION
      | Some (HTill _ _ _ _ _) => Some SMILE_KIND_TILL_CONTINUATION
      | Some (HOther k _) => Some k
      | None => None
      end
  end.

(** ** Boxing *)

Definition SmileArg_From (o : SmileObject) : SmileArg := mkArg o junk.

(** The width of a scalar inside the union, and its store over old bits. *)
Definition scalar_width (k : ScalarKind) : Z :=
  match k with
  | KByte | KBool | KChar => 8
  | KInteger16 => 16
  | KInteger32 | KFloat32 | KSymbol | KReal32 | KUni => 32
  | KInteger64 | KFloat64 | KReal64 => 64
  end.

Definition scalar_bits (k : ScalarKind) (u : word) : word := wrapU (scalar_width k) u.

(** [SmileUnboxed*_From(value)]: a fresh argument whose other bits are not set. *)
Definition SmileUnboxed_From (k : ScalarKind) (value : word) : SmileArg :=
  mkArg (UnboxedInstance k) (set_low (scalar_width k) junk value).

(** [SmileArg_Box]: scalars are copied to the heap, booleans are shared (an index
    over 1 reads past [BooleanObjs]). *)
Definition SmileArg_Box (h : Heap) (arg : SmileArg) : Result (Heap * SmileObject) :=
  match obj arg with
  | UnboxedInstance KBool =>
      if get_byte (unboxed arg) =? 0 then Ok (h, BooleanObj false)
      else if get_byte (unboxed arg) =? 1 then Ok (h, BooleanObj true)
      else Crash
  | UnboxedInstance k => Ok (heap_alloc h (HScalar k (scalar_bits k (unboxed arg))))
  | NoObject => Crash
  | o => Ok (h, o)
  end.

(** [SmileArg_Unbox]: undefined on an already unboxed instance (the code aborts). *)
Definition SmileArg_Unbox (h : Heap) (o : SmileObject) : Result SmileArg :=
  match o with
  | NoObject | UnboxedInstance _ => Crash
  | BooleanObj b => Ok (SmileUnboxed_From KBool (if b then 1 else 0))
  | Ref r =>
      match h !! r with
      | Some (HScalar k v) => Ok (SmileUnboxed_From k v)
      | Some _ => Ok (SmileArg_From o)
      | None => Crash
      end
  | _ => Ok (SmileArg_From o)
  end.

(** ** Truth *)

(** IEEE zero tests: all bits but the sign are clear. *)
Definition float_isZero (w : Z) (u : word) : bool := u mod 2 ^ (w - 1) =? 0.

(** [toBool] of the [SmileUnboxed*] types. *)
Definition unboxed_toBool (k : ScalarKind) (u : word) : bool :=
  match k with
  | KByte | KInteger16 | KInteger32 | KInteger64 | KBool => negb (scalar_bits k u =? 0)
  | KFloat32 | KFloat64 => negb (float_isZero (scalar_width k) u)
  | KReal32 | KReal64 => negb (Real_IsZero k (scalar_bits k u))
  | KSymbol | KChar | KUni => true
  end.

(** [toBool] of the boxed types: the float and real versions test the unboxed
    data that came with the pointer, not the object's value. *)
Definition boxed_toBool (k : ScalarKind) (value : word) (u : word) : bool :=
  match k with
  | KByte | KInteger16 | KInteger32 | KInteger64 | KBool | KChar | KUni => negb (value =? 0)
  | KFloat32 | KFloat64 => negb (float_isZero (scalar_width k) u)
  | KReal32 | KReal64 => negb (Real_IsZero k (scalar_bits k u))
  | KSymbol => true
  end.

Definition toBool (h : Heap) (o : SmileObject) (u : word) : Result bool :=
  match o with
  | NoObject => Crash
  | NullObject => Ok false
  | PrimitiveObject => Ok false
  | UnboxedInstance k => Ok (unboxed_toBool k u)
  | BooleanObj b => Ok b
  | Ref r =>
      match h !! r with
      | Some (HScalar k v) => Ok (boxed_toBool k v u)
      | Some (HString s) => Ok (negb (zlen s =? 0))
      | Some (HOther k b) => Ok (ext_toBool (HOther k b))
      | Some _ => Ok true
      | None => Crash
      end
  end.

(** ** Equality *)

(** IEEE equality on the bits: no NaN, and the two zeros are equal. *)
Definition float_isNaN (w : Z) (u : word) : bool :=
  let mantissa := if w =? 32 then 23 else 52 in
  let expmax := if w =? 32 then 0xFF else 0x7FF in
  ((u mod 2 ^ (w - 1)) / 2 ^ mantissa =? expmax) && negb (u mod 2 ^ mantissa =? 0).
Definition float_eq (w : Z) (a b : word) : bool :=
  negb (float_isNaN w a) && negb (float_isNaN w b)
  && ((wrapU w a =? wrapU w b) || (float_isZero w a && float_isZero w b)).

Definition scalar_eq (k : ScalarKind) (a b : word) : bool :=
  match k with
  | KFloat32 | KFloat64 => float_eq (scalar_width k) a b
  | _ => scalar_bits k a =? scalar_bits k b
  end.

(** The scalar an object stands for, boxed or not. *)
Definition scalar_of (h : Heap) (o : SmileObject) (u : word) : option (ScalarKind * word) :=
  match o with
  | UnboxedInstance k => Some (k, u)
  | BooleanObj b => Some (KBool, if b then 1 else 0)
  | Ref r => match h !! r with Some (HScalar k v) => Some (k, v) | _ => None end
  | _ => None
  end.

Definition compareEqual (h : Heap) (self : SmileObject) (selfData : word)
  (other : SmileObject) (otherData : word) : Result bool :=
  match scalar_of h self selfData with
  | Some (k, a) =>
      let? _ := SMILE_KIND h other in
      match scalar_of h other otherData with
      | Some (k', b) => Ok (bool_decide (k = k') && scalar_eq k a b)
      | None => Ok false
      end
  | None =>
      match self with
      | NoObject => Crash
      | NullObject => let? kind := SMILE_KIND h other in Ok (kind =? SMILE_KIND_NULL)
      | Ref r =>
          match h !! r with
          | Some (HString s) =>
              let? _ := SMILE_KIND h other in
              Ok (match deref h other with Some (HString s') => bool_decide (s = s') | _ => false end)
          | Some (HOther _ _) => Ok (ext_compareEqual h self other otherData)
          | Some _ => Ok (bool_decide (self = other))
          | None => Crash
          end
      | _ => Ok (bool_decide (self = other))
      end
  end.

(** ** Properties *)

Definition base_of (h : Heap) (o : SmileObject) : option SmileObject :=
  match o with
  | NullObject => Some (KnownBases BList)
  | NoObject | PrimitiveObject => None
  | UnboxedInstance k => Some (KnownBases (BScalar k))
  | BooleanObj _ => Some (KnownBases (BScalar KBool))
  | Ref r =>
      match h !! r with
      | Some (HScalar k _) => Some (KnownBases (BScalar k))
      | Some (HList _ _) => Some (KnownBases BList)
      | Some (HString _) => Some (KnownBases BString)
      | Some (HUserObject b _ _ _ _) => Some b
      | Some (HUserFunction _ _) | Some (HExternalFunction _) => Some (KnownBases BFn)
      | Some (HTill _ _ _ _ _) => Some PrimitiveObject
      | Some (HOther _ b) => Some b
      | None => None
      end
  end.

(** The object's own answer to [getProperty], if it does not ask its base. *)
Definition own_property (h : Heap) (o : SmileObject) (name : Symbol)
  : option (Heap * SmileObject) :=
  match o with
  | PrimitiveObject => Some (h, NullObject)
  | Ref r =>
      match h !! r with
      | Some (HList a d) =>
          if name =? sym_a then Some (h, a) else if name =? sym_d then Some (h, d) else None
      | Some (HUserObject _ _ _ _ dict) => (fun v => (h, v)) <$> dict !! name
      | Some (HString s) =>
          if name =? sym_length
          then Some (heap_alloc h (HScalar KInteger64
                 (wrapU 64 (if zlen s <? 2 ^ 31 - 1 then zlen s else 2 ^ 31 - 1))))
          else None
      | Some (HUserFunction _ _) | Some (HExternalFunction _) =>
          if (name =? sym_arguments) || (name =? sym_body)
          then Some (ext_getProperty h o name) else None
      | Some (HOther _ _) => Some (ext_getProperty h o name)
      | _ => None
      end
  | _ => None
  end.

(** [getProperty], up the chain of bases; [fuel] bounds its length. *)
Fixpoint getProperty (fuel : nat) (h : Heap) (o : SmileObject) (name : Symbol)
  : Result (Heap * SmileObject) :=
  match own_property h o name with
  | Some r => Ok r
  | None =>
      match fuel with
      | O => Crash
      | S fuel =>
          let? base := base_of h o in
          getProperty fuel h base name
      end
  end.

Definition setProperty (h : Heap) (o : SmileObject) (name : Symbol) (value : SmileObject)
  : Result Heap :=
  match o with
  | Ref r =>
      match h !! r with
      | Some (HList a d) =>
          if name =? sym_a then Ok (<[r := HList value d]> h)
          else if name =? sym_d then Ok (<[r := HList a value]> h)
          else Throw sym_property_error
      | Some (HUserObject base nm writable appendable dict) =>
          let put dict := Ok (<[r := HUserObject base nm writable appendable dict]> h) in
          match writable, appendable with
          | false, false => Throw sym_property_error
          | true, false =>
              match dict !! name with
              | Some _ => put (<[name := value]> dict)
              | None => Throw sym_property_error
              end
          | false, true =>
              match dict !! name with
              | Some _ => Throw sym_property_error
              | None => if bool_decide (value = NullObject) then Ok h
                        else put (<[name := value]> dict)
              end
          | true, true =>
              if bool_decide (value = NullObject) then put (delete name dict)
              else put (<[name := value]> dict)
          end
      | Some (HUserFunction _ _) | Some (HExternalFunction _) => Throw sym_property_error
      | Some _ => Throw sym_object_security_error
      | None => Crash
      end
  | NoObject => Crash
  | _ => Throw sym_object_security_error
  end.

(** ** Construction *)

Definition SmileList_Cons (h : Heap) (a d : SmileObject) : Heap * SmileObject :=
  heap_alloc h (HList a d).

(** [SmileUserObject_CreateFromArgPairs]: the dictionary of the name/value pairs,
    the later of two equal names winning. *)
Fixpoint argPairs_dict (h : Heap) (dict : gmap Z SmileObject) (argPairs : list SmileArg)
  : Result (Heap * gmap Z SmileObject) :=
  match argPairs with
  | name :: value :: rest =>
      let* (h, v) := SmileArg_Box h value in
      argPairs_dict h (<[get_symbol (unboxed name) := v]> dict) rest
  | _ => Ok (h, dict)
  end.

Definition SmileUserObject_CreateFromArgPairs (h : Heap) (base : SmileObject) (name : Symbol)
  (argPairs : list SmileArg) : Result (Heap * SmileObject) :=
  let* (h, dict) := argPairs_dict h ∅ argPairs in
  Ok (heap_alloc h (HUserObject base name true true dict)).

(** [SmileObject_Is]: pointer equality up the chain of bases. *)
Fixpoint SmileObject_Is (fuel : nat) (h : Heap) (self possibleParentOrSelf : SmileObject)
  : Result bool :=
  if bool_decide (self = possibleParentOrSelf) then Ok true
  else if bool_decide (self = PrimitiveObject) then Ok false
  else match fuel with
       | O => Crash
       | S fuel =>
           let? base := base_of h self in
           SmileObject_Is fuel h base possibleParentOrSelf
       end.

(** [Is] of eval.c: unboxed scalars of one type compare by value, except [Char]
    and [Uni], for which the pointers decide; strings compare by content. *)
Definition Is (fuel : nat) (h : Heap) (descendant ancestor : SmileArg) : Result bool :=
  let? _ := SMILE_KIND h (obj descendant) in
  match obj descendant with
  | UnboxedInstance KChar | UnboxedInstance KUni =>
      SmileObject_Is fuel h (obj descendant) (obj ancestor)
  | UnboxedInstance k =>
      if bool_decide (obj ancestor = obj descendant)
      then Ok (scalar_eq k (unboxed descendant) (unboxed ancestor))
      else SmileObject_Is fuel h (obj descendant) (obj ancestor)
  | _ =>
      match deref h (obj descendant) with
      | Some (HString s) =>
          let? _ := SMILE_KIND h (obj ancestor) in
          match deref h (obj ancestor) with
          | Some (HString s') => Ok (bool_decide (s = s'))
          | _ => SmileObject_Is fuel h (obj descendant) (obj ancestor)
          end
      | _ => SmileObject_Is fuel h (obj descendant) (obj ancestor)
      end
  end.

Definition SmileKind_typeName (smileKind : Z) : TypeName :=
  match Z.land smileKind 0xFF with
  | 0x00 => T_byte | 0x01 => T_integer16 | 0x02 => T_integer32 | 0x03 => T_integer64
  | 0x04 => T_bool | 0x06 => T_float32 | 0x07 => T_float64 | 0x08 => T_symbol
  | 0x0A => T_real32 | 0x0B => T_real64 | 0x0C => T_char | 0x0D => T_uni
  | 0x10 => T_byte | 0x11 => T_integer16 | 0x12 => T_integer32 | 0x13 => T_integer64
  | 0x14 => T_bool | 0x16 => T_float32 | 0x17 => T_float64 | 0x18 => T_symbol
  | 0x1A => T_real32 | 0x1B => T_real64 | 0x1C => T_char | 0x1D => T_uni
  | 0x20 => T_null | 0x21 => T_list | 0x22 => T_primitive | 0x24 => T_user_object
  | 0x25 => T_string
  | 0x2A => T_till | 0x2B => T_handle | 0x2C => T_closure | 0x2D => T_facade
  | 0x2E => T_macro | 0x2F => T_fn
  | 0x30 => T_integer128 | 0x31 => T_big_int | 0x34 => T_float128 | 0x35 => T_big_float
  | 0x38 => T_real128 | 0x39 => T_big_real
  | 0x40 => T_byte_range | 0x41 => T_integer16_range | 0x42 => T_integer32_range
  | 0x43 => T_integer64_range | 0x46 => T_float32_range | 0x47 => T_float64_range
  | 0x4A => T_real32_range | 0x4B => T_real64_range
  | 0x50 => T_byte_array
  | 0xF0 => T_syntax | 0xF1 => T_nonterminal | 0xFE => T_parse_decl | 0xFF => T_parse_message
  | _ => T_unknown
  end.

Definition SmileKind_GetTypeOf (smileKind : Z) : Symbol := sym_type (SmileKind_typeName smileKind).

End Object.

(** ** Lemmas *)
Section ObjectLemmas.
Context {E : ObjectEnv}.

Lemma scalar_width_pos (k : ScalarKind) : 0 < scalar_width k.
Proof. destruct k; simpl; lia. Qed.
Hint Resolve scalar_width_pos : smile.

Lemma heap_alloc_lookup (h h' : Heap) c o :
  heap_alloc h c = (h', o) -> o = Ref (length h) /\ h' !! length h = Some c
  /\ forall r, (r < length h)%nat -> h' !! r = h !! r.
Proof.
  unfold heap_alloc. intros [= <- <-]. split; [done|]. split.
  - by rewrite lookup_app_r, Nat.sub_diag by lia.
  - intros. by apply lookup_app_l.
Qed.

Lemma scalar_bits_From (k : ScalarKind) (v : word) :
  scalar_bits k (unboxed (SmileUnboxed_From k v)) = scalar_bits k v.
Proof.
  unfold scalar_bits, SmileUnboxed_From, wrapU. simpl.
  apply set_low_mod. pose proof (scalar_width_pos k). lia.
Qed.

Lemma scalar_bits_idemp (k : ScalarKind) (v : word) :
  scalar_bits k (scalar_bits k v) = scalar_bits k v.
Proof.
  unfold scalar_bits, wrapU. apply Z.mod_mod.
  pose proof (pow2_pos (scalar_width k)). pose proof (scalar_width_pos k). lia.
Qed.

(** Everything the float predicates look at is in the low [w] bits. *)
Lemma mod_mod_low (w w' u : Z) : 0 <= w' <= w -> (u mod 2 ^ w) mod 2 ^ w' = u mod 2 ^ w'.
Proof.
  intros. replace w with (w' + (w - w')) by lia. rewrite Z.pow_add_r by lia.
  pose proof (pow2_pos w' ltac:(lia)). pose proof (pow2_pos (w - w') ltac:(lia)).
  rewrite Z.rem_mul_r, (Z.mul_comm (2 ^ w') (_ mod _)), Z.mod_add by lia.
  apply Z.mod_mod; lia.
Qed.

Lemma float_isZero_bits (k : ScalarKind) (u : word) :
  float_isZero (scalar_width k) (scalar_bits k u) = float_isZero (scalar_width k) u.
Proof.
  unfold float_isZero, scalar_bits, wrapU. rewrite mod_mod_low; [done|].
  pose proof (scalar_width_pos k). lia.
Qed.

Lemma float_isNaN_bits (k : ScalarKind) (u : word) :
  k = KFloat32 \/ k = KFloat64 ->
  float_isNaN (scalar_width k) (scalar_bits k u) = float_isNaN (scalar_width k) u.
Proof.
  intros [-> | ->]; unfold float_isNaN, scalar_bits, wrapU; simpl scalar_width; cbn [Z.eqb Pos.eqb];
    rewrite !mod_mod_low by lia; done.
Qed.

Lemma scalar_eq_sym (k : ScalarKind) (a b : word) : scalar_eq k a b = scalar_eq k b a.
Proof.
  assert (Hf : forall w, float_eq w a b = float_eq w b a).
  { intros w. unfold float_eq.
    rewrite (Z.eqb_sym (wrapU w a)), (andb_comm (float_isZero w a)).
    by destruct (float_isNaN w a), (float_isNaN w b). }
  unfold scalar_eq. destruct k; auto using Z.eqb_sym.
Qed.

(** A scalar that is not a NaN equals anything with the same bits. *)
Definition scalar_isNaN (k : ScalarKind) (u : word) : bool :=
  match k with KFloat32 | KFloat64 => float_isNaN (scalar_width k) u | _ => false end.

Lemma scalar_eq_bits (k : ScalarKind) (a : word) :
  scalar_isNaN k a = false -> scalar_eq k a (scalar_bits k a) = true.
Proof.
  intros H.
  assert (Hf : k = KFloat32 \/ k = KFloat64 ->
               float_eq (scalar_width k) a (scalar_bits k a) = true).
  { intros Hk. unfold float_eq. rewrite float_isNaN_bits by done.
    assert (float_isNaN (scalar_width k) a = false) as -> by (destruct Hk; subst; exact H).
    simpl. unfold scalar_bits. fold (scalar_bits k a).
    change (wrapU (scalar_width k) (scalar_bits k a)) with (scalar_bits k (scalar_bits k a)).
    rewrite scalar_bits_idemp. unfold scalar_bits. by rewrite Z.eqb_refl. }
  destruct k; simpl; try (apply Hf; auto); rewrite scalar_bits_idemp; apply Z.eqb_refl.
Qed.

Lemma scalar_of_box (h h' : Heap) (arg : SmileArg) (k : ScalarKind) o :
  obj arg = UnboxedInstance k -> SmileArg_Box h arg = Ok (h', o) ->
  scalar_of h' o 0 = Some (k, scalar_bits k (unboxed arg)).
Proof.
  intros Ho Hb. unfold SmileArg_Box in Hb. rewrite Ho in Hb.
  destruct k; cases_in Hb; injection Hb as <- <-; simpl;
    try (by rewrite lookup_app_r, Nat.sub_diag by lia); zbool;
    unfold get_byte in *; unfold scalar_bits; simpl; by f_equal; f_equal.
Qed.

Lemma box_kind (h h' : Heap) (arg : SmileArg) (k : ScalarKind) o :
  obj arg = UnboxedInstance k -> SmileArg_Box h arg = Ok (h', o) ->
  exists kind, SMILE_KIND h' o = Some kind.
Proof.
  intros Ho Hb. unfold SmileArg_Box in Hb. rewrite Ho in Hb.
  destruct k; cases_in Hb; injection Hb as <- <-; simpl; eauto;
    rewrite lookup_app_r, Nat.sub_diag by lia; simpl; eauto.
Qed.

(** The cells a comparison must know: anything but the kinds left to [ext_compareEqual]. *)
Definition modelled (h : Heap) (o : SmileObject) : Prop :=
  match o with
  | NoObject => False
  | Ref r => match h !! r with Some (HOther _ _) | None => False | _ => True end
  | _ => True
  end.

(** Equality of objects that are not scalars: strings by content, the rest by
    pointer. *)
Definition plain_eq (h : Heap) (a b : SmileObject) : bool :=
  match deref h a, deref h b with
  | Some (HString s), Some (HString s') => bool_decide (s = s')
  | _, _ => bool_decide (a = b)
  end.

Lemma plain_eq_sym (h : Heap) (a b : SmileObject) : plain_eq h a b = plain_eq h b a.
Proof.
  unfold plain_eq.
  destruct (deref h a) as [[]|], (deref h b) as [[]|]; apply bool_decide_ext; split; auto.
Qed.

Lemma null_kind (h : Heap) (o : SmileObject) :
  modelled h o ->
  exists kind, SMILE_KIND h o = Some kind
    /\ (kind =? SMILE_KIND_NULL) = bool_decide (o = NullObject).
Proof.
  intros Hm. destruct o as [| | |k|b|r]; simpl in *; try done; eauto; [by destruct k; eauto|].
  destruct (h !! r) as [[k v| | | | | | |]|]; try done; eauto. by destruct k; eauto.
Qed.

Lemma compareEqual_plain (h : Heap) (a b : SmileObject) (u v : word) :
  scalar_of h a u = None -> scalar_of h b v = None -> modelled h a -> modelled h b ->
  compareEqual h a u b v = Ok (plain_eq h a b).
Proof.
  intros Ea Eb Ha Hb. destruct (null_kind h b Hb) as (kind & Ek & Hk).
  unfold compareEqual. rewrite Ea, Ek. simpl. unfold plain_eq.
  destruct a as [| | |ka|ba|ra]; try done; simpl in *.
  - rewrite Hk. f_equal. apply bool_decide_ext. split; auto.
  - destruct (h !! ra) as [[]|] eqn:Er; try done; destruct (deref h b) as [[]|] eqn:Ed; try done;
      f_equal; rewrite bool_decide_eq_false_2; try done; intros <-; simpl in Ed; congruence.
Qed.

Lemma compareEqual_scalar_plain (h : Heap) (a b : SmileObject) (u v : word) k x :
  scalar_of h a u = Some (k, x) -> scalar_of h b v = None -> modelled h b ->
  compareEqual h a u b v = Ok false.
Proof.
  intros Ea Eb Hb. destruct (null_kind h b Hb) as (kind & Ek & _).
  unfold compareEqual. by rewrite Ea, Ek, Eb.
Qed.

Lemma compareEqual_plain_scalar (h : Heap) (a b : SmileObject) (u v : word) k x :
  scalar_of h a u = None -> scalar_of h b v = Some (k, x) -> modelled h a -> modelled h b ->
  compareEqual h a u b v = Ok false.
Proof.
  intros Ea Eb Ha Hb. destruct (null_kind h b Hb) as (kind & Ek & Hk).
  unfold compareEqual. rewrite Ea, Ek. simpl.
  assert (Hne : a <> b).
  { intros <-. destruct a as [| | | | |r]; simpl in *; try done.
    destruct (h !! r) as [[]|]; done. }
  destruct a as [| | |ka|ba|ra]; try done; simpl in *.
  - rewrite Hk. f_equal. apply bool_decide_eq_false_2. congruence.
  - by rewrite bool_decide_eq_false_2.
  - destruct (h !! ra) as [[]|] eqn:Er; try done; f_equal; try by apply bool_decide_eq_false_2.
    destruct b as [| | | | |rb]; simpl in *; try done.
    destruct (h !! rb) as [[]|]; done.
Qed.

End ObjectLemmas.
#[export] Hint Resolve scalar_width_pos : smile.

(** ** Properties *)
Section ObjectProps.
Context {E : ObjectEnv}.

(** [SmileArg_Box] then [SmileArg_Unbox] gives back an argument of the same
    scalar type with the same value bits, boxing changes no existing cell, and
    the box compares equal to the argument in both directions unless it is a
    NaN; a boolean byte over 1 is the only scalar boxing is undefined on. *)
Theorem box_unbox_roundtrip (h : Heap) (arg : SmileArg) (k : ScalarKind) :
  obj arg = UnboxedInstance k -> (k = KBool -> 0 <= get_byte (unboxed arg) <= 1) ->
  exists h' o, SmileArg_Box h arg = Ok (h', o)
    /\ (forall r, (r < length h)%nat -> h' !! r = h !! r)
    /\ (exists arg', SmileArg_Unbox h' o = Ok arg' /\ obj arg' = obj arg
        /\ scalar_bits k (unboxed arg') = scalar_bits k (unboxed arg))
    /\ (scalar_isNaN k (unboxed arg) = false ->
        compareEqual h' (obj arg) (unboxed arg) o 0 = Ok true
        /\ compareEqual h' o 0 (obj arg) (unboxed arg) = Ok true).
Proof.
  intros Ho Hbool.
  assert (exists h' o, SmileArg_Box h arg = Ok (h', o)) as (h' & o & Hb).
  { unfold SmileArg_Box. rewrite Ho. destruct k; eauto.
    destruct (Z.eqb_spec (get_byte (unboxed arg)) 0); eauto.
    destruct (Z.eqb_spec (get_byte (unboxed arg)) 1); eauto. specialize (Hbool eq_refl). lia. }
  exists h', o. split; [done|]. pose proof (scalar_of_box _ _ _ _ _ Ho Hb) as Hs.
  split; [|split].
  - unfold SmileArg_Box in Hb. rewrite Ho in Hb.
    destruct k; cases_in Hb; injection Hb as <- <-; intros; auto; by apply lookup_app_l.
  - destruct o as [| | |k'|b|r]; simpl in Hs |- *; try done.
    + unfold SmileArg_Box in Hb. rewrite Ho in Hb. by destruct k; cases_in Hb.
    + injection Hs as <- Hv. eexists. split; [reflexivity|]. split; [by rewrite Ho|].
      rewrite scalar_bits_From.
      exact (eq_trans (f_equal (scalar_bits KBool) Hv) (scalar_bits_idemp _ _)).
    + destruct (h' !! r) as [[]|]; try done. injection Hs as -> ->.
      eexists. split; [reflexivity|]. split; [by rewrite Ho|].
      rewrite scalar_bits_From. apply scalar_bits_idemp.
  - intros Hn. destruct (box_kind _ _ _ _ _ Ho Hb) as [kind Ek].
    unfold compareEqual. rewrite Hs, Ho, Ek. simpl.
    rewrite bool_decide_eq_true_2 by done. simpl. rewrite scalar_eq_bits by done.
    split; [done|]. by rewrite scalar_eq_sym, scalar_eq_bits.
Qed.

(** Equality is symmetric, as the virtual table's contract demands, on
    every pair of objects of the modelled kinds. *)
Theorem compareEqual_sym (h : Heap) (a b : SmileObject) (u v : word) :
  modelled h a -> modelled h b -> compareEqual h a u b v = compareEqual h b v a u.
Proof.
  intros Ha Hb.
  destruct (scalar_of h a u) as [[k x]|] eqn:Ea, (scalar_of h b v) as [[k' y]|] eqn:Eb.
  - unfold compareEqual. rewrite Ea, Eb.
    destruct (null_kind h a Ha) as (ka & -> & _), (null_kind h b Hb) as (kb & -> & _). simpl.
    repeat case_bool_decide; simplify_eq; simpl; try done. by rewrite scalar_eq_sym.
  - by rewrite (compareEqual_scalar_plain h a b u v k x), (compareEqual_plain_scalar h b a v u k x).
  - by rewrite (compareEqual_scalar_plain h b a v u k' y), (compareEqual_plain_scalar h a b u v k' y).
  - rewrite !compareEqual_plain by done. by rewrite plain_eq_sym.
Qed.

(** Truth survives boxing for the integer types, booleans and symbols, but
    not for characters: an unboxed zero [Char] or [Uni] is true and the same
    value boxed is false. *)
Theorem toBool_box (h h' : Heap) (arg : SmileArg) (k : ScalarKind) o (u : word) :
  obj arg = UnboxedInstance k -> SmileArg_Box h arg = Ok (h', o) ->
  k ∈ [KByte; KInteger16; KInteger32; KInteger64; KBool; KSymbol; KChar; KUni] ->
  (toBool h' o u = toBool h (obj arg) (unboxed arg)
   <-> ~ (k ∈ [KChar; KUni] /\ scalar_bits k (unboxed arg) = 0)).
Proof.
  intros Ho Hb Hk.
  assert (Ht : toBool h' o u = Ok (boxed_toBool k (scalar_bits k (unboxed arg)) u)).
  { unfold SmileArg_Box in Hb. rewrite Ho in Hb.
    destruct k; cases_in Hb; injection Hb as <- <-; simpl;
      try (by rewrite lookup_app_r, Nat.sub_diag by lia); zbool;
      unfold get_byte in *; unfold scalar_bits; simpl;
      match goal with H : wrapU 8 _ = _ |- _ => by rewrite H end. }
  rewrite Ht, Ho. simpl.
  destruct k; simpl; try (split; [set_solver|done]); try (exfalso; set_solver).
  all: set (z := scalar_bits _ _); destruct (Z.eqb_spec z 0); simpl.
  all: split; intros; try done; try set_solver.
Qed.

(** [setProperty] then [getProperty] on a fully writable user object: a
    non-null value is found again under its name and only there, storing Null
    uncovers what the base answers, and no other heap cell changes. *)
Theorem set_get_property (fuel : nat) (h : Heap) (r : nat) base nm dict (name : Symbol) value :
  h !! r = Some (HUserObject base nm true true dict) ->
  exists h', setProperty h (Ref r) name value = Ok h'
    /\ length h' = length h
    /\ (forall r', r' <> r -> h' !! r' = h !! r')
    /\ getProperty (S fuel) h' (Ref r) name
       = (if bool_decide (value = NullObject) then getProperty fuel h' base name
          else Ok (h', value))
    /\ h' !! r = Some (HUserObject base nm true true
                         (if bool_decide (value = NullObject) then delete name dict
                          else <[name := value]> dict)).
Proof.
  intros Hr. assert (Hlt : (r < length h)%nat) by (apply lookup_lt_is_Some; eauto).
  simpl. rewrite Hr. case_bool_decide as Hv; eexists; split; try reflexivity;
    (split; [apply length_insert|]); (split; [intros; by apply list_lookup_insert_ne|]);
    rewrite list_lookup_insert_eq by done; simpl.
  - rewrite lookup_delete_eq. by split.
  - rewrite lookup_insert_eq. by split.
Qed.

(** [typeof] does not depend on whether a value happens to be boxed: every
    scalar kind answers the same type name in both representations, whatever
    flags the kind carries above its low byte, and that name is never
    [unknown]. *)
Theorem GetTypeOf_box (k : ScalarKind) (flags : Z) :
  0 <= flags ->
  SmileKind_GetTypeOf (flags * 256 + (0x10 + ScalarKind_value k))
  = SmileKind_GetTypeOf (ScalarKind_value k)
  /\ SmileKind_typeName (ScalarKind_value k) <> T_unknown.
Proof.
  intros Hf. split; [|by destruct k]. unfold SmileKind_GetTypeOf, SmileKind_typeName. do 2 f_equal.
  change 0xFF with (Z.ones 8). rewrite !Z.land_ones by lia.
  rewrite Z.add_comm, Z_mod_plus_full. by destruct k.
Qed.

End ObjectProps.

(** ** Witnesses *)

(** A concrete environment, for evaluating the definitions. *)
Definition example_env : ObjectEnv := {|
  sym_a := 101; sym_d := 102; sym_start := 103; sym_end := 104;
  sym_count := 105; sym_length := 106; sym_fn := 107;
  sym_arguments := 108; sym_body := 109;
  sym_property_error := 110; sym_object_security_error := 111;
  sym_eval_error := 112; sym_native_method_error := 113;
  sym_type := fun t => match t with T_unknown => 200 | T_fn => 201 | _ => 202 end;
  KnownBases := fun _ => PrimitiveObject;
  Real_IsZero := fun _ u => u =? 0;
  ext_toBool := fun _ => true;
  ext_compareEqual := fun _ _ _ _ => false;
  ext_getProperty := fun h _ _ => (h, NullObject);
  junk := 0xABCDEF
|}.

Section Witnesses.
#[local] Existing Instance example_env.

Lemma box_unbox_roundtrip_witness :
  let arg := SmileUnboxed_From KInteger16 12 in
  exists h' o, SmileArg_Box [] arg = Ok (h', o)
    /\ (forall r, (r < 0)%nat -> h' !! r = ([] : Heap) !! r)
    /\ (exists arg', SmileArg_Unbox h' o = Ok arg' /\ obj arg' = obj arg
        /\ scalar_bits KInteger16 (unboxed arg') = scalar_bits KInteger16 (unboxed arg))
    /\ (scalar_isNaN KInteger16 (unboxed arg) = false ->
        compareEqual h' (obj arg) (unboxed arg) o 0 = Ok true
        /\ compareEqual h' o 0 (obj arg) (unboxed arg) = Ok true).
Proof. intros arg. apply (box_unbox_roundtrip [] arg KInteger16); [reflexivity|discriminate]. Defined.

Lemma compareEqual_sym_witness :
  compareEqual [HScalar KInteger64 5] (Ref 0) 0 (UnboxedInstance KInteger64) 5
  = compareEqual [HScalar KInteger64 5] (UnboxedInstance KInteger64) 5 (Ref 0) 0.
Proof. apply compareEqual_sym; exact I. Defined.

Lemma toBool_box_witness :
  toBool [HScalar KChar 0] (Ref 0) 0 = toBool [] (UnboxedInstance KChar) 0
  <-> ~ (KChar ∈ [KChar; KUni] /\ scalar_bits KChar 0 = 0).
Proof.
  apply (toBool_box [] [HScalar KChar 0] (mkArg (UnboxedInstance KChar) 0) KChar (Ref 0) 0);
    [reflexivity|reflexivity|set_solver].
Defined.

Lemma set_get_property_witness :
  let h := [HUserObject PrimitiveObject 0 true true ∅] in
  exists h', setProperty h (Ref 0) 7 (BooleanObj true) = Ok h'
    /\ length h' = length h
    /\ (forall r', r' <> O -> h' !! r' = h !! r')
    /\ getProperty 3 h' (Ref 0) 7 = Ok (h', BooleanObj true)
    /\ h' !! O = Some (HUserObject PrimitiveObject 0 true true (<[7 := BooleanObj true]> ∅)).
Proof.
  intros h.
  apply (set_get_property 2 h 0 PrimitiveObject 0 ∅ 7 (BooleanObj true)). reflexivity.
Defined.

Lemma GetTypeOf_box_witness :
  SmileKind_GetTypeOf (4 * 256 + 0x13) = SmileKind_GetTypeOf 0x03.
Proof. exact (proj1 (GetTypeOf_box KInteger64 4 ltac:(lia))). Defined.
End Witnesses.
