(* ===== verification/Expr.v ===== *)
(** * Expr: the expressions the compiler reads

    What [src/eval/compiler.c] and [src/eval/compiler/] see of the trees the
    parser hands them, the list helpers of [smiletypes/smilelist.h] and
    [smilelist.c], and the decoding of function arguments
    ([src/smiletypes/smilefunction.c]) and scope variables
    ([src/eval/compiler/compile_scope.c]).

    The compiler never mutates an expression and compares no two of them by
    pointer, so a tree is a value here; cyclic lists have no tree and are
    outside the model. *)

From S2P Require Import Prelude Opcode ByteCode Object.
From Stdlib Require Import String.
Import Operand.

(** [filename] is compared by pointer: the number of a string, [None] for NULL. *)
Record LexerPosition := mkPosition {
  pos_filename : option nat; pos_line : Z; pos_column : Z
}.

(** [SMILE_FLAG_WITHSOURCE] and the [position] that comes with it (which may be
    NULL). *)
Inductive Source :=
  | NoSource
  | WithSource (position : option LexerPosition).

(** [EUserData] stands for the kinds that evaluate to themselves (functions,
    handles, user objects, syntax rules, ...), [EUnsupported] for the kinds
    [Compiler_CompileExpr] aborts on.  Scalars carry their bits. *)
Inductive Expr :=
  | ENull
  | EBool (b : bool)
  | EString (text : list Z)
  | EPrimitive
  | EChar (ch : Z) | EUni (code : Z)
  | EByte (value : Z) | EInteger16 (value : Z) | EInteger32 (value : Z) | EInteger64 (value : Z)
  | EReal32 (bits : Z) | EReal64 (bits : Z) | EFloat32 (bits : Z) | EFloat64 (bits : Z)
  | ESymbol (symbol : Symbol)
  | EUserData (object : nat)
  | EUnsupported (kind : Z)
  | ECons (a d : Expr) (source : Source).

(** ** Lists *)

Definition isList (e : Expr) : bool := match e with ECons _ _ _ => true | _ => false end.
Definition isNull (e : Expr) : bool := match e with ENull => true | _ => false end.
Definition isSymbol (e : Expr) : bool := match e with ESymbol _ => true | _ => false end.

(** [list->a] and [list->d]: null is a list cell that refers to itself, and no
    other kind has these members. *)
Definition list_a (e : Expr) : option Expr :=
  match e with ECons a _ _ => Some a | ENull => Some ENull | _ => None end.
Definition list_d (e : Expr) : option Expr :=
  match e with ECons _ d _ => Some d | ENull => Some ENull | _ => None end.

(** [((SmileSymbol)obj)->symbol] *)
Definition the_symbol (e : Expr) : option Symbol :=
  match e with ESymbol s => Some s | _ => None end.

Definition LIST_REST (e : Expr) : option Expr :=
  d ← list_d e; Some (if isList d then d else ENull).
Definition LIST_FIRST (e : Expr) : option Expr := list_a e.
Definition LIST_SECOND (e : Expr) : option Expr := LIST_REST e ≫= LIST_FIRST.

(** Number of cells, and what ends the chain. *)
Fixpoint cells (e : Expr) : Z := match e with ECons _ d _ => 1 + cells d | _ => 0 end.
Fixpoint list_tail (e : Expr) : Expr := match e with ECons _ d _ => list_tail d | _ => e end.

Definition SmileList_Length (e : Expr) : Z := if isNull (list_tail e) then cells e else -1.

(** The hare of the cycle search starts by following the tail of the first
    cell's [d], which is no list cell when a single cell has an improper tail;
    on the finite chains of the model the search itself never answers -1. *)
Definition SmileList_SafeLength (e : Expr) : option Z :=
  match e with
  | ECons _ d _ => _ ← LIST_REST d; Some (cells e)
  | _ => Some 0
  end.

(** ** Known symbols *)

(** The members of [Smile_KnownSymbols] the compiler looks at, besides those of
    [ObjectEnv]. *)
Class CompilerEnv := {
  sym_true : Symbol; sym_false : Symbol; sym_null : Symbol; sym_not : Symbol;
  sym_get_member : Symbol; sym_auto : Symbol; sym_set_once : Symbol;
  sym_type_modifier : Symbol; sym_default : Symbol; sym_rest : Symbol
}.

(** ** Trees *)

(** An expression without the positions of its cells. *)
Fixpoint erase (e : Expr) : Expr :=
  match e with ECons a d _ => ECons (erase a) (erase d) NoSource | _ => e end.

Definition same_tree (e e' : Expr) : Prop := erase e' = erase e.

Section Expr.
Context {E : CompilerEnv}.

(** [Compiler_StripNots]: the expression below the outer [not]s, and whether
    there was an odd number of them. *)
Fixpoint Compiler_StripNots (e : Expr) : Expr * bool :=
  match e with
  | ECons (ESymbol s) (ECons x ENull _) _ =>
      if s =? sym_not then let '(x, n) := Compiler_StripNots x in (x, negb n) else (e, false)
  | _ => (e, false)
  end.

(** ** Function arguments *)

Record UserFunctionArg := mkUserFunctionArg {
  arg_name : Symbol; arg_flags : Z; arg_typeName : Symbol; arg_defaultValue : Expr
}.

(** The walk over the modifiers of an argument.  [inl] is the [errorMessage],
    a format string whose arguments are not filled in. *)
Fixpoint UserFunctionArg_Modifiers (arg : UserFunctionArg) (l : Expr) : string + UserFunctionArg :=
  match l with
  | ECons (ESymbol modifier) d _ =>
      if modifier =? sym_type_modifier then
        match d with
        | ECons (ESymbol t) d _ =>
            UserFunctionArg_Modifiers
              (mkUserFunctionArg (arg_name arg) (Z.lor (arg_flags arg) USER_ARG_TYPECHECK) t
                 (arg_defaultValue arg)) d
        | _ => inl "Argument 'type' modifier for '%S' must be followed by a name of a type."%string
        end
      else if modifier =? sym_default then
        match d with
        | ECons v d _ =>
            UserFunctionArg_Modifiers
              (mkUserFunctionArg (arg_name arg) (Z.lor (arg_flags arg) USER_ARG_OPTIONAL)
                 (arg_typeName arg) v) d
        | _ => inl "Argument 'default' modifier for '%S' must be followed by a default value."%string
        end
      else if modifier =? sym_rest then
        UserFunctionArg_Modifiers
          (mkUserFunctionArg (arg_name arg) (Z.lor (arg_flags arg) USER_ARG_REST)
             (arg_typeName arg) (arg_defaultValue arg)) d
      else inl "Argument modifier for '%S' must be 'type', 'default', or 'rest', not '%S'."%string
  | ECons _ _ _ =>
      inl "Argument modifier for '%S' must start with 'type', 'default', or 'rest'."%string
  | _ => inr arg
  end.

Definition UserFunctionArg_Init (obj : Expr) : string + UserFunctionArg :=
  match obj with
  | ESymbol s => inr (mkUserFunctionArg s USER_ARG_NORMAL 0 ENull)
  | ECons (ESymbol s) d _ =>
      UserFunctionArg_Modifiers (mkUserFunctionArg s USER_ARG_NORMAL 0 ENull) d
  | ECons _ _ _ => inl "Argument sub-list must start with a symbol."%string
  | _ => inl "Invalid argument form."%string
  end.

Definition flag (bits mask : Z) : bool := negb (Z.land bits mask =? 0).

(** The locals of [UserFunctionInfo_ApplyArgs]. *)
Record ArgState := mkArgState {
  as_args : list UserFunctionArg; as_flags : Z; as_minArgs : Z; as_maxArgs : Z;
  as_haveRest : bool; as_haveOptional : bool
}.

Definition Int16Max : Z := 32767.

(** One round of the loop over the arguments. *)
Definition ApplyArgs_step (st : ArgState) (a : Expr) : string + ArgState :=
  match UserFunctionArg_Init a with
  | inl message => inl message
  | inr arg =>
      let args := as_args st ++ [arg] in
      let flags := Z.lor (as_flags st) (arg_flags arg) in
      if as_haveRest st then
        inl "Function argument '%S' cannot appear after the 'rest...' argument."%string
      else if flag (arg_flags arg) USER_ARG_OPTIONAL then
        inr (mkArgState args flags (as_minArgs st) (as_maxArgs st + 1) (as_haveRest st) true)
      else if flag (arg_flags arg) USER_ARG_REST then
        inr (mkArgState args flags (as_minArgs st) Int16Max true (as_haveOptional st))
      else if as_haveOptional st then
        inl "Required function argument '%S' cannot appear after an optional argument."%string
      else
        inr (mkArgState args flags (as_minArgs st + 1) (as_minArgs st + 1) (as_haveRest st)
               (as_haveOptional st))
  end.

Fixpoint ApplyArgs_loop (st : ArgState) (argList : Expr) : string + ArgState :=
  match argList with
  | ECons a d _ =>
      match ApplyArgs_step st a with
      | inl message => inl message
      | inr st => ApplyArgs_loop st d
      end
  | _ => inr st
  end.

(** [UserFunctionInfo_ApplyArgs]: the fields it stores.  An improper list
    passes with [numArgs] -1 and no arguments. *)
Record ArgInfo := mkArgInfo {
  ai_args : list UserFunctionArg; ai_flags : Z; ai_numArgs : Z; ai_minArgs : Z; ai_maxArgs : Z
}.

Definition UserFunctionInfo_ApplyArgs (argList : Expr) : string + ArgInfo :=
  let numArgs := SmileList_Length argList in
  let start := mkArgState [] 0 0 0 false false in
  match (if numArgs <=? 0 then inr start else ApplyArgs_loop start argList) with
  | inl message => inl message
  | inr st =>
      inr (mkArgInfo (as_args st) (as_flags st) (wrapS 16 numArgs) (wrapS 16 (as_minArgs st))
             (wrapS 16 (as_maxArgs st)))
  end.

(** The arguments a loop up to [numArgs] visits. *)
Definition declared_args (info : ArgInfo) : list UserFunctionArg :=
  take (Z.to_nat (ai_numArgs info)) (ai_args info).

(** ** Scope variables *)

Definition PARSEDECL_UNDECLARED : Z := 0.
Definition PARSEDECL_PRIMITIVE : Z := 1.
Definition PARSEDECL_GLOBAL : Z := 2.
Definition PARSEDECL_ARGUMENT : Z := 3.
Definition PARSEDECL_VARIABLE : Z := 4.
Definition PARSEDECL_CONST : Z := 5.
Definition PARSEDECL_SETONCECONST : Z := 6.
Definition PARSEDECL_AUTO : Z := 7.
Definition PARSEDECL_SETONCEAUTO : Z := 8.
Definition PARSEDECL_KEYWORD : Z := 9.
Definition PARSEDECL_POSTCONDITION : Z := 10.
Definition PARSEDECL_TILL : Z := 11.
Definition PARSEDECL_INCLUDE : Z := 12.

Definition PARSESCOPE_OUTERMOST : Z := 0.
Definition PARSESCOPE_FUNCTION : Z := 1.
Definition PARSESCOPE_SCOPEDECL : Z := 2.
Definition PARSESCOPE_POSTCONDITION : Z := 3.
Definition PARSESCOPE_TILLDO : Z := 4.
Definition PARSESCOPE_SYNTAX : Z := 5.
Definition PARSESCOPE_EXPLICIT : Z := 6.

(** The modifiers of a declared variable; answers whether they are valid and
    the last [declKind] stored. *)
Fixpoint DecodeScopeVariable_Modifiers (declKind : Z) (l : Expr) : bool * Z :=
  match l with
  | ECons (ESymbol modifier) d _ =>
      if modifier =? sym_auto then DecodeScopeVariable_Modifiers PARSEDECL_SETONCEAUTO d
      else if modifier =? sym_set_once then DecodeScopeVariable_Modifiers PARSEDECL_SETONCECONST d
      else (false, declKind)
  | ECons _ _ _ => (false, declKind)
  | _ => (true, declKind)
  end.

(** [Compiler_DecodeScopeVariable]: whether [obj] is valid, and the stores
    through [symbol] ([None] when there was none) and [declKind].  The caller
    adds the message. *)
Definition Compiler_DecodeScopeVariable (obj : Expr) : bool * option Symbol * Z :=
  match obj with
  | ESymbol s => (true, Some s, PARSEDECL_VARIABLE)
  | ECons (ESymbol s) d _ =>
      let '(ok, declKind) := DecodeScopeVariable_Modifiers PARSEDECL_VARIABLE d in
      (ok, Some s, declKind)
  | _ => (false, None, PARSEDECL_VARIABLE)
  end.
End Expr.

(** Distinct symbols, to evaluate the compiler on examples. *)
Definition example_symbols : CompilerEnv :=
  {| sym_true := 121; sym_false := 122; sym_null := 123; sym_not := 41; sym_get_member := 92;
     sym_auto := 124; sym_set_once := 125; sym_type_modifier := 126; sym_default := 127;
     sym_rest := 128 |}.

(** ** Properties *)

(** The elements of a list, whatever ends it. *)
Fixpoint elements (e : Expr) : list Expr :=
  match e with ECons a d _ => a :: elements d | _ => [] end.

(** The three sorts of arguments; a default value makes an argument optional
    even if it is marked as collecting the rest. *)
Definition is_optional (arg : UserFunctionArg) : bool := flag (arg_flags arg) USER_ARG_OPTIONAL.
Definition is_rest (arg : UserFunctionArg) : bool :=
  negb (is_optional arg) && flag (arg_flags arg) USER_ARG_REST.
Definition is_required (arg : UserFunctionArg) : bool :=
  negb (is_optional arg) && negb (flag (arg_flags arg) USER_ARG_REST).

(** Required arguments, then optional ones, then at most one for the rest. *)
Definition arg_order (args required optional rest : list UserFunctionArg) : Prop :=
  args = required ++ optional ++ rest
  /\ Forall is_required required /\ Forall is_optional optional /\ Forall is_rest rest
  /\ zlen rest <= 1.

(** All the flags of the arguments. *)
Definition all_flags (args : list UserFunctionArg) : Z :=
  foldr (fun arg => Z.lor (arg_flags arg)) 0 args.

Definition max_args (args rest : list UserFunctionArg) : Z :=
  match rest with [] => zlen args | _ => Int16Max end.

Section ExprProps.
Context {E : CompilerEnv}.

(** What the loop over the arguments has found so far. *)
Definition ordered (st : ArgState) : Prop :=
  exists required optional rest,
    arg_order (as_args st) required optional rest
    /\ as_haveOptional st = bool_decide (optional <> [])
    /\ as_haveRest st = bool_decide (rest <> [])
    /\ as_minArgs st = zlen required /\ as_maxArgs st = max_args (as_args st) rest
    /\ as_flags st = all_flags (as_args st).

Lemma all_flags_snoc args arg : all_flags (args ++ [arg]) = Z.lor (all_flags args) (arg_flags arg).
Proof.
  induction args as [|a args IH]; simpl; [by rewrite Z.lor_0_r|]. by rewrite IH, Z.lor_assoc.
Qed.

Lemma ApplyArgs_step_ordered st a st' :
  ordered st -> ApplyArgs_step st a = inr st' ->
  ordered st' /\ exists arg, UserFunctionArg_Init a = inr arg /\ as_args st' = as_args st ++ [arg].
Proof.
  intros (req & opt & rest & (Ea & Hreq & Hopt & Hrest & Hlen) & Eo & Er & Emin & Emax & Ef) H.
  unfold ApplyArgs_step in H. destruct (UserFunctionArg_Init a) as [|arg] eqn:Ei; [done|].
  rewrite Er in H. case_bool_decide as Hr; [done|].
  subst rest.
  rewrite app_nil_r in Ea. simpl in Emax.
  assert (Hz : zlen (as_args st) = zlen req + zlen opt) by (rewrite Ea; by autorewrite with zlen).
  destruct (flag (arg_flags arg) USER_ARG_OPTIONAL) eqn:Fo;
    [|destruct (flag (arg_flags arg) USER_ARG_REST) eqn:Fr; [|rewrite Eo in H; case_bool_decide as Ho; [done|]]];
    injection H as <-; (split; [|eauto]).
  - exists req, (opt ++ [arg]), []. unfold arg_order, max_args. simpl.
    rewrite app_nil_r, Ea, app_assoc, <- Ea, all_flags_snoc, Ef.
    split; [split; [done|]; split; [done|]; split; [by apply Forall_app; auto|]; auto|].
    split; [symmetry; apply bool_decide_true; by destruct opt|]. split; [done|].
    split; [done|]. split; [|done]. autorewrite with zlen. lia.
  - exists req, opt, [arg]. unfold arg_order. simpl.
    rewrite all_flags_snoc, Ef, Ea, <- app_assoc. unfold is_rest, is_optional. rewrite <- Ea.
    split; [split; [done|]; split; [done|]; split; [done|]; split; [|done]; constructor; [|done];
            by rewrite Fo, Fr|].
    by rewrite Eo.
  - subst opt. exists (req ++ [arg]), [], [].
    rewrite app_nil_r in Ea. unfold arg_order, max_args. simpl.
    rewrite !app_nil_r, Ea, <- Ea, all_flags_snoc, Ef.
    split; [split; [done|]; split; [|split; [constructor|split; [constructor|done]]]|].
    { apply Forall_app. split; [by rewrite Ea|]. constructor; [|done]. unfold is_required, is_optional.
      by rewrite Fo, Fr. }
    split; [done|]. split; [done|]. autorewrite with zlen in *. repeat split; lia.
Qed.
Lemma ApplyArgs_loop_ordered argList : forall st st',
  ordered st -> ApplyArgs_loop st argList = inr st' ->
  ordered st' /\ exists args, as_args st' = as_args st ++ args
    /\ Forall2 (fun a arg => UserFunctionArg_Init a = inr arg) (elements argList) args.
Proof.
  induction argList as [| | | | | | | | | | | | | | | | |a _ d IH src]; intros st st' Hst H;
    try (injection H as <-; split; [done|]; exists []; by rewrite app_nil_r).
  simpl in H. destruct (ApplyArgs_step st a) as [|st1] eqn:E1; [done|].
  destruct (ApplyArgs_step_ordered st a st1 Hst E1) as (H1 & arg & Ha & Ea).
  destruct (IH st1 st' H1 H) as (H2 & args & E' & HF). split; [done|].
  exists (arg :: args). split; [by rewrite E', Ea, <- app_assoc|]. by constructor.
Qed.

Lemma elements_length e : zlen (elements e) = cells e.
Proof. induction e; try done. simpl. autorewrite with zlen. lia. Qed.

Lemma ordered_start : ordered (mkArgState [] 0 0 0 false false).
Proof. exists [], [], []. by repeat split. Qed.

(** C36: an argument list that is accepted consists of required arguments, then
    arguments with default values, then at most one that collects the rest; the
    stored minimum is the number of required arguments, the maximum the number
    of all arguments or 32767 with a rest, and the flags are the union of those
    of the arguments. *)
Theorem ApplyArgs_shape (argList : Expr) (info : ArgInfo) :
  isNull (list_tail argList) = true -> cells argList <= Int16Max ->
  UserFunctionInfo_ApplyArgs argList = inr info ->
  exists required optional rest,
    arg_order (ai_args info) required optional rest
    /\ Forall2 (fun a arg => UserFunctionArg_Init a = inr arg) (elements argList) (ai_args info)
    /\ declared_args info = ai_args info
    /\ ai_minArgs info = zlen required /\ ai_maxArgs info = max_args (ai_args info) rest
    /\ ai_flags info = all_flags (ai_args info).
Proof.
  intros Hn Hc H. unfold UserFunctionInfo_ApplyArgs, SmileList_Length in H. rewrite Hn in H.
  pose proof (elements_length argList) as Hel. pose proof (zlen_nonneg (elements argList)).
  destruct (if _ <=? 0 then _ else _) as [|st] eqn:E1; [done|].
  assert (Hst : ordered st
    /\ Forall2 (fun a arg => UserFunctionArg_Init a = inr arg) (elements argList) (as_args st)).
  { destruct (cells argList <=? 0) eqn:E0.
    - injection E1 as <-. split; [apply ordered_start|]. apply Z.leb_le in E0.
      destruct argList; try constructor. simpl in *.
      pose proof (zlen_nonneg (elements argList2)). autorewrite with zlen in Hel. lia.
    - destruct (ApplyArgs_loop_ordered _ _ _ ordered_start E1) as (? & args & -> & ?). auto. }
  destruct Hst as [(required & optional & rest & Ho & _ & _ & Emin & Emax & Ef) HF].
  pose proof (Forall2_length _ _ _ HF) as Hl. injection H as <-.
  assert (Hz : zlen (as_args st) = cells argList) by (unfold zlen in *; lia).
  destruct Ho as (Ea & Ho). pose proof (zlen_nonneg required). pose proof (zlen_nonneg optional).
  pose proof (zlen_nonneg rest). rewrite Ea in Hz. autorewrite with zlen in Hz.
  assert (Hw : forall x, 0 <= x <= Int16Max -> wrapS 16 x = x).
  { intros x Hx. unfold Int16Max in Hx. apply wrapS_id; [lia|]. unfold inS. simpl. lia. }
  exists required, optional, rest. unfold declared_args. simpl. rewrite Emin, Emax, Ef, !Hw.
  - split; [by split|]. split; [done|]. split; [|done]. apply firstn_all2. unfold zlen in *. lia.
  - unfold max_args. destruct rest; [|unfold Int16Max; lia]. rewrite Ea. autorewrite with zlen. lia.
  - lia.
  - lia.
Qed.
End ExprProps.

(** [a], [b] with a type, [c] with a default, [d] collecting the rest. *)
Definition example_args : Expr :=
  let sym := ESymbol in
  let l2 a b := ECons a (ECons b ENull NoSource) NoSource in
  let l3 a b c := ECons a (l2 b c) NoSource in
  ECons (sym 1) (l3 (l3 (sym 2) (sym 126) (sym 9)) (l3 (sym 3) (sym 127) (EInteger64 1))
                   (l2 (sym 4) (sym 128))) NoSource.

Lemma ApplyArgs_shape_witness :
  exists info, @UserFunctionInfo_ApplyArgs example_symbols example_args = inr info
  /\ ai_minArgs info = 2 /\ ai_maxArgs info = 32767
  /\ exists required optional rest, arg_order (ai_args info) required optional rest
       /\ ai_minArgs info = zlen required.
Proof.
  destruct (@ApplyArgs_shape example_symbols example_args _ eq_refl ltac:(vm_compute; discriminate)
              eq_refl) as (required & optional & rest & Ho & _ & _ & Hmin & _).
  eexists. split; [reflexivity|]. split; [reflexivity|]. split; [reflexivity|].
  exists required, optional, rest. split; [exact Ho|exact Hmin].
Defined.
