(* ===== verification/Closure.v ===== *)
(** * Closure: activation records and their variables

    [include/smile/eval/closure.h] and [src/eval/closure.c].  Closures and their
    shape descriptions live in two arrays and are named by index; pointers into
    [variables] ([locals], [stackTop]) are offsets.  Every access outside the
    array, or through a NULL closure, is [Crash]. *)

From S2P Require Import Prelude Opcode ByteCode Object.
Import Operand.

Inductive ClosureKind := CLOSURE_KIND_GLOBAL | CLOSURE_KIND_LOCAL.

#[export] Instance ClosureKind_eq_dec : EqDecision ClosureKind.
Proof. solve_decision. Defined.

(** [variableDictionary] holds the values of a global closure's variables. *)
Record ClosureInfo := mkClosureInfo {
  info_parent : option nat;
  info_global : option nat;
  info_kind : ClosureKind;
  numVariables : Z;
  numArgs : Z;
  tempSize : Z;
  variableDictionary : gmap Z SmileObject
}.

(** [stateMachine] names the start and body functions of a C state machine. *)
Record Closure := mkClosure {
  parent : option nat;
  global : option nat;
  closureInfo : option nat;
  returnClosure : option nat;
  returnSegment : option nat;
  returnPc : Z;
  locals : Z;
  stackTop : Z;
  variables : list SmileArg;
  stateMachine : option (nat * nat)
}.

Record Store := mkStore { closures : list Closure; infos : list ClosureInfo }.

(** A variable of a zeroed allocation. *)
Definition SmileArg_zero : SmileArg := mkArg NoObject 0.

Definition set_closures (cs : list Closure) (s : Store) : Store := mkStore cs (infos s).
Definition set_infos (l : list ClosureInfo) (s : Store) : Store := mkStore (closures s) l.

Definition update_closure (s : Store) (c : nat) (cl : Closure) : Store :=
  set_closures (<[c := cl]> (closures s)) s.

Definition set_stackTop (t : Z) (cl : Closure) : Closure :=
  mkClosure (parent cl) (global cl) (closureInfo cl) (returnClosure cl) (returnSegment cl)
    (returnPc cl) (locals cl) t (variables cl) (stateMachine cl).
Definition set_variables (v : list SmileArg) (cl : Closure) : Closure :=
  mkClosure (parent cl) (global cl) (closureInfo cl) (returnClosure cl) (returnSegment cl)
    (returnPc cl) (locals cl) (stackTop cl) v (stateMachine cl).
Definition set_variableDictionary (d : gmap Z SmileObject) (i : ClosureInfo) : ClosureInfo :=
  mkClosureInfo (info_parent i) (info_global i) (info_kind i) (numVariables i) (numArgs i)
    (tempSize i) d.

(** ** Creation *)

Definition ClosureInfo_Create (s : Store) (parentInfo : option nat) (kind : ClosureKind)
  : Store * nat :=
  let self := length (infos s) in
  let glob :=
    match kind with
    | CLOSURE_KIND_GLOBAL => Some self
    | CLOSURE_KIND_LOCAL => p ← parentInfo; i ← infos s !! p; info_global i
    end in
  (set_infos (infos s ++ [mkClosureInfo parentInfo glob kind 0 0 0 ∅]) s, self).

Definition Closure_CreateGlobal (s : Store) (info : nat) (parent : option nat) : Store * nat :=
  let self := length (closures s) in
  (set_closures (closures s ++ [mkClosure parent (Some self) (Some info) None None 0 0 0 [] None]) s,
   self).

Definition Closure_CreateLocal (s : Store) (info : nat) (parent : nat)
  (retClosure retSegment : option nat) (retPc : Z) : Result (Store * nat) :=
  let? i := infos s !! info in
  let? p := closures s !! parent in
  let cl := mkClosure (Some parent) (global p) (Some info) retClosure retSegment retPc
              (numArgs i) (numVariables i)
              (replicate (Z.to_nat (numVariables i + tempSize i)) SmileArg_zero) None in
  Ok (set_closures (closures s ++ [cl]) s, length (closures s)).

Definition Closure_CreateStateMachine (s : Store) (start body : nat)
  (retClosure retSegment : option nat) (retPc : Z) : Store * nat :=
  let cl := mkClosure None None None retClosure retSegment retPc 0 0
              (replicate 16 SmileArg_zero) (Some (start, body)) in
  (set_closures (closures s ++ [cl]) s, length (closures s)).

(** ** The temporary stack of one closure *)

Definition Closure_Push (cl : Closure) (arg : SmileArg) : Result Closure :=
  let? v := zset (variables cl) (stackTop cl) arg in
  Ok (set_stackTop (stackTop cl + 1) (set_variables v cl)).

(** The macros that store only the pointer, or the pointer and one member of the
    union, keep the other bits the slot had. *)
Definition Closure_PushBoxed (cl : Closure) (o : SmileObject) : Result Closure :=
  let? old := zget (variables cl) (stackTop cl) in
  Closure_Push cl (mkArg o (unboxed old)).

Definition Closure_PushUnboxed (k : ScalarKind) (cl : Closure) (value : Z) : Result Closure :=
  let? old := zget (variables cl) (stackTop cl) in
  Closure_Push cl (mkArg (UnboxedInstance k) (set_low (scalar_width k) (unboxed old) value)).

Definition Closure_PushUnboxedBool (cl : Closure) (b : bool) : Result Closure :=
  Closure_PushUnboxed KBool cl (if b then 1 else 0).

Definition Closure_UnboxAndPush {E : ObjectEnv} (h : Heap) (cl : Closure) (o : SmileObject)
  : Result Closure :=
  let* arg := SmileArg_Unbox h o in Closure_Push cl arg.

Definition Closure_Pop (cl : Closure) : Result (SmileArg * Closure) :=
  let? arg := zget (variables cl) (stackTop cl - 1) in
  Ok (arg, set_stackTop (stackTop cl - 1) cl).

Definition Closure_GetTop (cl : Closure) : Result SmileArg :=
  orCrash (zget (variables cl) (stackTop cl - 1)).

Definition Closure_SetTop (cl : Closure) (arg : SmileArg) : Result Closure :=
  let? v := zset (variables cl) (stackTop cl - 1) arg in Ok (set_variables v cl).

Definition Closure_GetTemp (cl : Closure) (offset : Z) : Result SmileArg :=
  orCrash (zget (variables cl) (stackTop cl - 1 - offset)).

Definition Closure_SetTemp (cl : Closure) (offset : Z) (arg : SmileArg) : Result Closure :=
  let? v := zset (variables cl) (stackTop cl - 1 - offset) arg in Ok (set_variables v cl).

Definition Closure_PopCount (cl : Closure) (count : Z) : Closure :=
  set_stackTop (stackTop cl - count) cl.

(** ** Arguments and local variables *)

Definition Closure_GetArgument (cl : Closure) (index : Z) : Result SmileArg :=
  orCrash (zget (variables cl) index).
Definition Closure_SetArgument (cl : Closure) (index : Z) (arg : SmileArg) : Result Closure :=
  let? v := zset (variables cl) index arg in Ok (set_variables v cl).
Definition Closure_GetLocalVariable (cl : Closure) (index : Z) : Result SmileArg :=
  orCrash (zget (variables cl) (locals cl + index)).
Definition Closure_SetLocalVariable (cl : Closure) (index : Z) (arg : SmileArg) : Result Closure :=
  let? v := zset (variables cl) (locals cl + index) arg in Ok (set_variables v cl).

Definition get_closure (s : Store) (c : nat) : Result Closure := orCrash (closures s !! c).

(** [closure->parent], any number of times. *)
Definition parent_of (s : Store) (c : nat) : Result nat :=
  let* cl := get_closure s c in orCrash (parent cl).

Fixpoint ancestor (s : Store) (c : nat) (scope : nat) : Result nat :=
  match scope with
  | O => Ok c
  | S scope => let* c := parent_of s c in ancestor s c scope
  end.

(** The four accessors by scope: the unrolled cases of the C switch, and the
    loop [while (scope--)] of its default (a negative scope walks off the end of
    the finite chain of parents). *)
Definition scope_closure (s : Store) (c : nat) (scope : Z) : Result nat :=
  match scope with
  | 0 => Ok c
  | 1 => parent_of s c
  | 2 => let* c := parent_of s c in parent_of s c
  | 3 => let* c := parent_of s c in let* c := parent_of s c in parent_of s c
  | _ => if scope <? 0 then Crash else ancestor s c (Z.to_nat scope)
  end.

Definition Closure_GetArgumentInScope (s : Store) (c : nat) (scope index : Z) : Result SmileArg :=
  let* c := scope_closure s c scope in
  let* cl := get_closure s c in
  Closure_GetArgument cl index.

Definition Closure_SetArgumentInScope (s : Store) (c : nat) (scope index : Z) (arg : SmileArg)
  : Result Store :=
  let* c := scope_closure s c scope in
  let* cl := get_closure s c in
  let* cl := Closure_SetArgument cl index arg in
  Ok (update_closure s c cl).

Definition Closure_GetLocalVariableInScope (s : Store) (c : nat) (scope index : Z)
  : Result SmileArg :=
  let* c := scope_closure s c scope in
  let* cl := get_closure s c in
  Closure_GetLocalVariable cl index.

Definition Closure_SetLocalVariableInScope (s : Store) (c : nat) (scope index : Z) (arg : SmileArg)
  : Result Store :=
  let* c := scope_closure s c scope in
  let* cl := get_closure s c in
  let* cl := Closure_SetLocalVariable cl index arg in
  Ok (update_closure s c cl).

(** ** Global variables *)

(** The loop over [closure->global], [closure->parent->global], ... shared by the
    three operations: the first global closure whose dictionary has [name], or
    the last of the chain ([found = false]). [fuel] bounds the chain. *)
Fixpoint global_search (fuel : nat) (s : Store) (c : nat) (name : Symbol) : Result (nat * bool) :=
  match fuel with
  | O => Crash
  | S fuel =>
      let* cl := get_closure s c in
      let? info := closureInfo cl in
      let? i := infos s !! info in
      match variableDictionary i !! name with
      | Some _ => Ok (info, true)
      | None =>
          match parent cl with
          | None => Ok (info, false)
          | Some p =>
              let* pcl := get_closure s p in
              let? g := global pcl in
              global_search fuel s g name
          end
      end
  end.

Definition global_start (s : Store) (c : nat) : Result nat :=
  let* cl := get_closure s c in orCrash (global cl).

Definition Closure_GetGlobalVariable (fuel : nat) (s : Store) (c : nat) (name : Symbol)
  : Result SmileObject :=
  let* g := global_start s c in
  let* (info, found) := global_search fuel s g name in
  if found then
    let? i := infos s !! info in orCrash (variableDictionary i !! name)
  else Ok NullObject.

Definition Closure_HasGlobalVariable (fuel : nat) (s : Store) (c : nat) (name : Symbol)
  : Result bool :=
  let* g := global_start s c in
  let* (_, found) := global_search fuel s g name in
  Ok found.

Definition set_global (s : Store) (info : nat) (name : Symbol) (value : SmileObject)
  : Result Store :=
  let? i := infos s !! info in
  Ok (set_infos (<[info := set_variableDictionary (<[name := value]> (variableDictionary i)) i]>
                   (infos s)) s).

(** Overwrites the variable where it is found; otherwise adds it to the nearest
    global closure. *)
Definition Closure_SetGlobalVariable (fuel : nat) (s : Store) (c : nat) (name : Symbol)
  (value : SmileObject) : Result Store :=
  let* g := global_start s c in
  let* (info, found) := global_search fuel s g name in
  if found then set_global s info name value
  else
    let* gcl := get_closure s g in
    let? ginfo := closureInfo gcl in
    set_global s ginfo name value.

(** ** Invariant

    [locals] and [stackTop] point into an array whose length never changes;
    parents and globals refer to closures that exist. *)
Definition Closure_wf (s : Store) (cl : Closure) : Prop :=
  0 <= locals cl <= zlen (variables cl) /\ 0 <= stackTop cl <= zlen (variables cl)
  /\ (forall p, parent cl = Some p -> (p < length (closures s))%nat)
  /\ (forall g, global cl = Some g -> (g < length (closures s))%nat)
  /\ (forall r, returnClosure cl = Some r -> (r < length (closures s))%nat)
  /\ (forall i, closureInfo cl = Some i -> (i < length (infos s))%nat).

Definition Store_wf (s : Store) : Prop := forall c cl, closures s !! c = Some cl -> Closure_wf s cl.

(** ** Lemmas *)

(** Take a [Result] computation in a hypothesis apart. *)
Ltac result_inv H :=
  repeat match type of H with
         | Result_bind (orCrash ?m) _ = Ok _ =>
             let x := fresh "x" in let E := fresh "E" in
             destruct m as [x|] eqn:E; [cbn [Result_bind orCrash] in H|discriminate H]
         | Result_bind ?m _ = Ok _ =>
             let x := fresh "x" in let E := fresh "E" in
             destruct m as [x| |] eqn:E; cbn [Result_bind] in H; [|discriminate H..]
         | orCrash ?m = Ok _ =>
             let x := fresh "x" in let E := fresh "E" in
             destruct m as [x|] eqn:E; cbn [orCrash] in H; [|discriminate H]
         | (let (_, _) := ?p in _) = Ok _ => destruct p
         | match ?p with (_, _) => _ end = Ok _ => destruct p
         end.

Lemma ancestor_app (s : Store) (c : nat) (m n : nat) :
  ancestor s c (m + n) = let* c := ancestor s c m in ancestor s c n.
Proof.
  revert c. induction m as [|m IH]; intros c; simpl; [done|].
  destruct (parent_of s c); simpl; auto.
Qed.

Lemma zset_zget {A} (l l' : list A) i x :
  zset l i x = Some l' -> forall j, zget l' j = if j =? i then Some x else zget l j.
Proof.
  intros H j. destruct (Z.eqb_spec j i) as [->|].
  - by apply (zset_get_eq _ _ _ _ H).
  - apply (zset_get_ne _ _ _ _ _ H); lia.
Qed.

Lemma zset_total {A} (l : list A) i x : 0 <= i < zlen l -> exists l', zset l i x = Some l'.
Proof. intros H. by apply zset_is_Some. Qed.

Lemma zget_total {A} (l : list A) i : 0 <= i < zlen l -> exists x, zget l i = Some x.
Proof. intros H. by apply zget_is_Some. Qed.

(** What a push does when there is room. *)
Lemma Push_spec (cl : Closure) (arg : SmileArg) :
  0 <= stackTop cl < zlen (variables cl) ->
  exists v, Closure_Push cl arg = Ok (set_stackTop (stackTop cl + 1) (set_variables v cl))
    /\ zlen v = zlen (variables cl)
    /\ forall j, zget v j = if j =? stackTop cl then Some arg else zget (variables cl) j.
Proof.
  intros H. destruct (zset_total _ _ arg H) as [v E]. exists v.
  unfold Closure_Push. rewrite E. split; [done|]. split; [by apply (zset_zlen _ _ _ _ E)|].
  by apply zset_zget.
Qed.

Lemma Push_inv (cl cl' : Closure) (arg : SmileArg) :
  Closure_Push cl arg = Ok cl' ->
  exists v, zset (variables cl) (stackTop cl) arg = Some v
    /\ cl' = set_stackTop (stackTop cl + 1) (set_variables v cl).
Proof. unfold Closure_Push. intros H. result_inv H. injection H as <-. eauto. Qed.

Lemma scope_closure_loop (s : Store) (c : nat) (scope : Z) :
  0 <= scope -> scope_closure s c scope = ancestor s c (Z.to_nat scope).
Proof.
  intros H. destruct scope as [|p|p]; [done| |lia].
  unfold scope_closure.
  destruct p as [[p|p|]|[p|p|]|]; try done; simpl;
    repeat match goal with |- context [parent_of ?s ?c] => destruct (parent_of s c); simpl; try done end.
Qed.

(** ** Properties *)

(** The unrolled cases of the in-scope accessors agree with the general
    loop: for every non-negative scope count they reach the closure that many
    parents up, and a missing parent is undefined behaviour in both. *)
Theorem scope_closure_ancestor (s : Store) (c : nat) (scope : Z) :
  0 <= scope -> scope_closure s c scope = ancestor s c (Z.to_nat scope).
Proof. apply scope_closure_loop. Qed.

(** Pushing with room and popping again gives back the argument, the stack
    height and every other slot; the closure's links and size never change, and
    without room the push is undefined. *)
Theorem push_pop (cl : Closure) (arg : SmileArg) :
  0 <= stackTop cl ->
  match Closure_Push cl arg with
  | Ok cl1 =>
      stackTop cl < zlen (variables cl)
      /\ exists cl2, Closure_Pop cl1 = Ok (arg, cl2)
         /\ stackTop cl2 = stackTop cl
         /\ zlen (variables cl2) = zlen (variables cl)
         /\ (forall j, j <> stackTop cl -> zget (variables cl2) j = zget (variables cl) j)
         /\ set_variables (variables cl) cl2 = cl
  | _ => zlen (variables cl) <= stackTop cl
  end.
Proof.
  intros H. destruct (decide (stackTop cl < zlen (variables cl))) as [Hlt|Hge].
  - destruct (Push_spec cl arg ltac:(lia)) as (v & -> & Hl & Hv). split; [done|].
    unfold Closure_Pop. simpl. replace (stackTop cl + 1 - 1) with (stackTop cl) by lia.
    rewrite Hv, Z.eqb_refl. simpl. eexists. split; [reflexivity|].
    repeat split; try done.
    + intros j Hj. simpl. rewrite Hv. by destruct (Z.eqb_spec j (stackTop cl)).
    + by destruct cl.
  - unfold Closure_Push.
    assert (E : zset (variables cl) (stackTop cl) arg = None).
    { destruct (zset _ _ _) eqn:E; [|done]. apply zset_Some in E. lia. }
    rewrite E. simpl. lia.
Qed.

(** Storing a local variable of an enclosing closure and loading it through
    the same scope and index gives the stored argument; other indices and other
    closures keep their contents. *)
Theorem set_get_local (s s' : Store) (c : nat) (scope index : Z) (arg : SmileArg) :
  Closure_SetLocalVariableInScope s c scope index arg = Ok s' ->
  Closure_GetLocalVariableInScope s' c scope index = Ok arg
  /\ (forall index', index' <> index ->
      Closure_GetLocalVariableInScope s' c scope index'
      = Closure_GetLocalVariableInScope s c scope index')
  /\ (forall c', scope_closure s c scope <> Ok c' -> closures s' !! c' = closures s !! c').
Proof.
  unfold Closure_SetLocalVariableInScope. intros H. result_inv H.
  rename x into t, x0 into cl, x1 into cl'. injection H as <-.
  unfold Closure_SetLocalVariable in E1. result_inv E1. injection E1 as <-.
  unfold get_closure in E0. result_inv E0. injection E0 as ->.
  assert (Hp : forall c0, parent_of (update_closure s t (set_variables x cl)) c0 = parent_of s c0).
  { intros c0. unfold parent_of, get_closure, update_closure. simpl.
    destruct (decide (c0 = t)) as [->|].
    - rewrite list_lookup_insert_eq by (eapply lookup_lt_Some; eauto). by rewrite E1.
    - by rewrite list_lookup_insert_ne. }
  assert (Hsc : scope_closure (update_closure s t (set_variables x cl)) c scope = Ok t).
  { rewrite <- E. destruct (decide (0 <= scope)).
    - rewrite !scope_closure_loop by done. generalize (Z.to_nat scope) as n. intros n.
      revert c E. clear -Hp. intros c _. revert c.
      induction n as [|n IH]; intros c; simpl; [done|]. rewrite Hp.
      destruct (parent_of s c); simpl; auto.
    - by destruct scope; try lia. }
  assert (Hlt : (t < length (closures s))%nat) by (eapply lookup_lt_Some; eauto).
  unfold Closure_GetLocalVariableInScope. rewrite Hsc, E. simpl. unfold get_closure. simpl.
  rewrite E1, list_lookup_insert_eq by done. simpl. unfold Closure_GetLocalVariable. simpl.
  split; [|split].
  - by rewrite (zset_get_eq _ _ _ _ E2).
  - intros index' Hne. by rewrite (zset_get_ne _ _ _ _ _ E2) by lia.
  - intros c' Hc. apply list_lookup_insert_ne. congruence.
Qed.

Lemma global_search_found (fuel : nat) (s : Store) (c info : nat) (name : Symbol) :
  global_search fuel s c name = Ok (info, true) ->
  exists i v, infos s !! info = Some i /\ variableDictionary i !! name = Some v.
Proof.
  revert c. induction fuel as [|fuel IH]; intros c H; [done|]. simpl in H. result_inv H.
  destruct (variableDictionary x1 !! name) eqn:Ev.
  - injection H as <-. eauto.
  - destruct (parent x); [|done]. result_inv H. eauto.
Qed.

(** Changing variable [name] in one dictionary leaves every other search alone. *)
Lemma global_search_set (fuel : nat) (s s' : Store) (c info : nat) (name name' : Symbol) value :
  set_global s info name value = Ok s' -> name' <> name ->
  global_search fuel s' c name' = global_search fuel s c name'.
Proof.
  unfold set_global. intros H Hne. result_inv H. injection H as <-.
  revert c. induction fuel as [|fuel IH]; intros c; [done|]. simpl.
  unfold get_closure. simpl. destruct (closures s !! c) as [cl|]; simpl; [|done].
  destruct (closureInfo cl) as [ci|]; simpl; [|done].
  assert (Hlt : (info < length (infos s))%nat) by (eapply lookup_lt_Some; eauto).
  destruct (decide (ci = info)) as [->|].
  - rewrite list_lookup_insert_eq by done. rewrite E. simpl. rewrite lookup_insert_ne by done.
    destruct (variableDictionary x !! name'), (parent cl); try done.
    destruct (closures s !! n); simpl; [|done]. destruct (global _); simpl; auto.
  - rewrite list_lookup_insert_ne by done. destruct (infos s !! ci); simpl; [|done].
    destruct (variableDictionary _ !! name'), (parent cl); try done.
    destruct (closures s !! n0); simpl; [|done]. destruct (global _); simpl; auto.
Qed.

(** A search that found [name] in [info] still does after [name] changed there. *)
Lemma global_search_same (fuel : nat) (s s' : Store) (c info : nat) (name : Symbol) value :
  global_search fuel s c name = Ok (info, true) ->
  set_global s info name value = Ok s' ->
  global_search fuel s' c name = Ok (info, true).
Proof.
  intros H Hs. unfold set_global in Hs. result_inv Hs. injection Hs as <-.
  assert (Hlt : (info < length (infos s))%nat) by (eapply lookup_lt_Some; eauto).
  revert c H. induction fuel as [|fuel IH]; intros c H; [done|].
  simpl in H |- *. unfold get_closure in *. simpl.
  destruct (closures s !! c) as [cl|]; simpl in *; [|done].
  destruct (closureInfo cl) as [ci|]; simpl in *; [|done].
  destruct (decide (ci = info)) as [->|].
  - rewrite list_lookup_insert_eq by done. simpl. by rewrite lookup_insert_eq.
  - rewrite list_lookup_insert_ne by done. destruct (infos s !! ci); simpl in *; [|done].
    destruct (variableDictionary _ !! name); [congruence|].
    destruct (parent cl); [|done]. destruct (closures s !! n0); simpl in *; [|done].
    destruct (global _); simpl in *; auto.
Qed.

(** After a global variable is set from a closure, that closure reads the
    new value; every other global variable keeps its value as seen from every
    closure; closures are not touched. *)
Theorem set_get_global (fuel : nat) (s s' : Store) (c : nat) (name : Symbol) (value : SmileObject) :
  Closure_SetGlobalVariable fuel s c name value = Ok s' ->
  Closure_GetGlobalVariable fuel s' c name = Ok value
  /\ closures s' = closures s
  /\ forall fuel' c' name', name' <> name ->
       Closure_GetGlobalVariable fuel' s' c' name' = Closure_GetGlobalVariable fuel' s c' name'.
Proof.
  unfold Closure_SetGlobalVariable. intros H. result_inv H. rename x into g, n into info.
  assert (exists target, set_global s target name value = Ok s'
            /\ global_search fuel s' g name = Ok (target, true)) as (target & Hset & Hfound).
  { destruct b.
    - exists info. split; [done|]. eapply global_search_same; eauto.
    - result_inv H. exists x0. split; [done|]. unfold set_global in H. result_inv H.
      injection H as <-. destruct fuel as [|fuel]; [done|]. simpl. unfold get_closure in *. simpl.
      rewrite E1. simpl. rewrite E2. simpl.
      rewrite list_lookup_insert_eq by (eapply lookup_lt_Some; eauto). simpl.
      by rewrite lookup_insert_eq. }
  assert (Hcl : closures s' = closures s).
  { unfold set_global in Hset. result_inv Hset. by injection Hset as <-. }
  assert (Hstart : forall c', global_start s' c' = global_start s c').
  { intros c'. unfold global_start, get_closure. by rewrite Hcl. }
  split; [|split; [done|]].
  - unfold Closure_GetGlobalVariable. rewrite Hstart, E. simpl. rewrite Hfound. simpl.
    unfold set_global in Hset. result_inv Hset. injection Hset as <-. simpl.
    rewrite list_lookup_insert_eq by (eapply lookup_lt_Some; eauto). simpl.
    by rewrite lookup_insert_eq.
  - intros fuel' c' name' Hne. unfold Closure_GetGlobalVariable. rewrite Hstart.
    destruct (global_start s c') as [g'| |]; simpl; [|done..].
    rewrite (global_search_set fuel' s s' g' target name name' value Hset Hne).
    destruct (global_search fuel' s g' name') as [[info' []]| |]; simpl; try done.
    unfold set_global in Hset. result_inv Hset. injection Hset as <-. simpl.
    destruct (decide (info' = target)) as [->|].
    + rewrite list_lookup_insert_eq by (eapply lookup_lt_Some; eauto). rewrite E1. simpl.
      by rewrite lookup_insert_ne.
    + by rewrite list_lookup_insert_ne.
Qed.

(** A local closure whose shape is sensible keeps the store well-formed: it
    starts with an empty temporary stack above [numVariables] unset variables,
    with room for [tempSize] temporaries; the closures that exist are not
    touched. *)
Lemma CreateLocal_spec (s : Store) (info p : nat) rc rs pc i :
  Store_wf s -> infos s !! info = Some i -> (p < length (closures s))%nat ->
  0 <= numArgs i <= numVariables i -> 0 <= tempSize i ->
  (forall r, rc = Some r -> (r < length (closures s))%nat) ->
  exists s' c cl, Closure_CreateLocal s info p rc rs pc = Ok (s', c)
    /\ c = length (closures s) /\ closures s' !! c = Some cl
    /\ stackTop cl = numVariables i /\ zlen (variables cl) = numVariables i + tempSize i
    /\ parent cl = Some p /\ returnClosure cl = rc /\ returnSegment cl = rs /\ returnPc cl = pc
    /\ locals cl = numArgs i
    /\ (forall c', (c' < length (closures s))%nat -> closures s' !! c' = closures s !! c')
    /\ infos s' = infos s /\ Store_wf s'.
Proof.
  intros Hwf Hi Hp Ha Ht Hr. unfold Closure_CreateLocal. rewrite Hi. simpl.
  destruct (lookup_lt_is_Some_2 _ _ Hp) as [pcl Ep]. rewrite Ep. simpl.
  do 3 eexists. split; [reflexivity|]. split; [done|]. simpl.
  split; [by rewrite lookup_app_r, Nat.sub_diag by lia|]. simpl.
  assert (Hlen : zlen (replicate (Z.to_nat (numVariables i + tempSize i)) SmileArg_zero)
                 = numVariables i + tempSize i) by (rewrite zlen_replicate; lia).
  repeat (split; [first [done | intros; by apply lookup_app_l]|]).
  intros c cl Hc. simpl in Hc. unfold Closure_wf. simpl. rewrite length_app. simpl.
  apply lookup_app_Some in Hc as [Hc|[_ Hc]].
  - destruct (Hwf c cl Hc) as (H1 & H2 & H3 & H4 & H5 & H6).
    split; [done|]. split; [done|].
    repeat split; intros k Hk; (try specialize (H3 k Hk)); (try specialize (H4 k Hk));
      (try specialize (H5 k Hk)); auto; lia.
  - destruct (c - length (closures s))%nat as [|k]; [|done]. injection Hc as <-.
    simpl. rewrite Hlen.
    split; [lia|]. split; [lia|]. repeat split; intros k Hk.
    + injection Hk as <-. lia.
    + destruct (Hwf p pcl Ep) as (_ & _ & _ & H4 & _). specialize (H4 k Hk). lia.
    + specialize (Hr k Hk). lia.
    + injection Hk as <-. eapply lookup_lt_Some; eauto.
Qed.

(** [Closure_CreateLocal] keeps the store well-formed, and so do pushing,
    popping within the frame, and storing a variable at any scope: no operation
    on closures resizes an array, leaves a stack pointer outside it, or changes
    how closures are linked. *)
Theorem closure_ops_wf (s : Store) (c : nat) (cl : Closure) :
  Store_wf s -> closures s !! c = Some cl ->
  (forall arg cl', Closure_Push cl arg = Ok cl' -> Store_wf (update_closure s c cl'))
  /\ (forall arg cl', locals cl < stackTop cl -> Closure_Pop cl = Ok (arg, cl') ->
        Store_wf (update_closure s c cl'))
  /\ (forall offset arg cl', Closure_SetTemp cl offset arg = Ok cl' ->
        Store_wf (update_closure s c cl'))
  /\ (forall scope index arg s', Closure_SetLocalVariableInScope s c scope index arg = Ok s' ->
        Store_wf s')
  /\ (forall scope index arg s', Closure_SetArgumentInScope s c scope index arg = Ok s' ->
        Store_wf s').
Proof.
  intros Hwf Hc.
  assert (Hupd : forall d dcl v t, closures s !! d = Some dcl -> zlen v = zlen (variables dcl) ->
            0 <= t <= zlen v ->
            Store_wf (update_closure s d (set_stackTop t (set_variables v dcl)))).
  { intros d dcl v t Hd Hv Ht e ecl He. unfold Closure_wf, update_closure in *. simpl in *.
    rewrite length_insert. apply list_lookup_insert_Some in He as [(<- & <- & _)|[_ He]].
    - destruct (Hwf d dcl Hd) as (H1 & H2 & H3). simpl. rewrite Hv in *. by split; [|split].
    - exact (Hwf e ecl He). }
  assert (Hsame : forall d dcl v, closures s !! d = Some dcl -> zlen v = zlen (variables dcl) ->
            Store_wf (update_closure s d (set_variables v dcl))).
  { intros d dcl v Hd Hv. destruct (Hwf d dcl Hd) as (_ & H2 & _).
    pose proof (Hupd d dcl v (stackTop dcl) Hd Hv ltac:(lia)) as H.
    by destruct dcl. }
  destruct (Hwf c cl Hc) as (H1 & H2 & _).
  split; [|split; [|split; [|split]]].
  - intros arg cl' H. apply Push_inv in H as (v & Ev & ->).
    pose proof (zset_zlen _ _ _ _ Ev). apply zset_Some in Ev as [? _]. apply Hupd; lia || done.
  - intros arg cl' Hlt H. unfold Closure_Pop in H. result_inv H. injection H as <- <-.
    pose proof (Hupd c cl (variables cl) (stackTop cl - 1) Hc eq_refl ltac:(lia)) as H.
    by destruct cl.
  - intros off arg cl' H. unfold Closure_SetTemp in H. result_inv H. injection H as <-.
    apply Hsame; [done|]. eapply zset_zlen; eauto.
  - intros sc ix arg s' H. unfold Closure_SetLocalVariableInScope in H. result_inv H.
    injection H as <-. unfold get_closure, Closure_SetLocalVariable in *.
    result_inv E0. result_inv E1. injection E0 as ->. injection E1 as <-.
    apply Hsame; [done|]. eapply zset_zlen; eauto.
  - intros sc ix arg s' H. unfold Closure_SetArgumentInScope in H. result_inv H.
    injection H as <-. unfold get_closure, Closure_SetArgument in *.
    result_inv E0. result_inv E1. injection E0 as ->. injection E1 as <-.
    apply Hsame; [done|]. eapply zset_zlen; eauto.
Qed.

(** ** Witnesses *)

(** A global closure and a local one with one argument, one local variable and
    two temporaries. *)
Definition example_store : Store :=
  mkStore
    [mkClosure None (Some 0%nat) (Some 0%nat) None None 0 0 0 [] None;
     mkClosure (Some 0%nat) (Some 0%nat) (Some 1%nat) None None 0 1 2
       (replicate 4 SmileArg_zero) None]
    [mkClosureInfo None (Some 0%nat) CLOSURE_KIND_GLOBAL 0 0 0 ∅;
     mkClosureInfo (Some 0%nat) (Some 0%nat) CLOSURE_KIND_LOCAL 2 1 2 ∅].

Lemma example_store_wf : Store_wf example_store.
Proof.
  intros [|[|c]] cl H; simpl in H; [| |done]; injection H as <-;
    unfold Closure_wf, zlen; simpl; repeat split; try lia; intros k Hk; try discriminate;
    injection Hk as <-; lia.
Qed.

Lemma scope_closure_ancestor_witness :
  scope_closure example_store 1 1 = ancestor example_store 1 1.
Proof. apply scope_closure_ancestor. lia. Defined.

Lemma push_pop_witness :
  let cl := mkClosure None None None None None 0 0 0 (replicate 2 SmileArg_zero) None in
  let arg := mkArg NullObject 3 in
  match Closure_Push cl arg with
  | Ok cl1 =>
      0 < 2
      /\ exists cl2, Closure_Pop cl1 = Ok (arg, cl2)
         /\ stackTop cl2 = 0 /\ zlen (variables cl2) = 2
         /\ (forall j, j <> 0 -> zget (variables cl2) j = zget (replicate 2 SmileArg_zero) j)
         /\ set_variables (replicate 2 SmileArg_zero) cl2 = cl
  | _ => 2 <= 0
  end.
Proof. intros cl arg. apply (push_pop cl arg). simpl. lia. Defined.

Lemma set_get_local_witness :
  exists s', Closure_SetLocalVariableInScope example_store 1 0 0 (mkArg NullObject 0) = Ok s'
    /\ Closure_GetLocalVariableInScope s' 1 0 0 = Ok (mkArg NullObject 0).
Proof.
  eexists. split; [reflexivity|].
  apply (set_get_local example_store _ 1 0 0 (mkArg NullObject 0)). reflexivity.
Defined.

Lemma set_get_global_witness :
  exists s', Closure_SetGlobalVariable 5 example_store 1 77 (BooleanObj true) = Ok s'
    /\ Closure_GetGlobalVariable 5 s' 1 77 = Ok (BooleanObj true).
Proof.
  eexists. split; [reflexivity|].
  apply (set_get_global 5 example_store _ 1 77 (BooleanObj true)). reflexivity.
Defined.

Lemma closure_ops_wf_witness :
  exists cl cl', closures example_store !! 1%nat = Some cl
    /\ Closure_Push cl (mkArg NullObject 0) = Ok cl' /\ Store_wf (update_closure example_store 1 cl').
Proof.
  do 2 eexists. split; [reflexivity|]. split; [reflexivity|].
  refine (proj1 (closure_ops_wf example_store 1 _ example_store_wf _) _ _ _); reflexivity.
Defined.
