(* ===== verification/Machine.v ===== *)
(** * Machine: the registers of the evaluator and how they step

    The global state of [src/eval/eval.c] ([_closure], [_segment], [_byteCode])
    over the store of closures and the heap, the read-only program it runs
    (segments, compiled tables, function descriptions), and the outcomes of one
    instruction.  [_compiledTables] is always the one of [_segment]. *)

From S2P Require Import Prelude Opcode ByteCode Object Closure.
Import Operand.

(** [ARG_*] of [smilefunction.h]. *)
Definition ARG_CHECK_MIN : Z := 1.
Definition ARG_CHECK_MAX : Z := 2.
Definition ARG_CHECK_EXACT : Z := 4.
Definition ARG_CHECK_TYPES : Z := 8.
Definition ARG_STATE_MACHINE : Z := 16.
Definition ARG_MODE_RAW : Z := 32.

(** What the evaluator reads of a [UserFunctionInfo]. *)
Record UserFunctionInfo := mkUserFunctionInfo {
  uf_flags : Z; uf_numArgs : Z; uf_minArgs : Z; uf_maxArgs : Z;
  uf_defaults : list SmileArg;
  uf_closureInfo : nat;
  uf_byteCodeSegment : nat
}.

Record ExternalFunctionInfo := mkExternalFunctionInfo {
  ef_argCheckFlags : Z; ef_numArgsToTypeCheck : Z; ef_minArgs : Z; ef_maxArgs : Z;
  ef_argTypeChecks : list Z
}.

(** The run-time view of the compiled tables. *)
Record CompiledTables := mkTables {
  t_strings : list SmileObject;
  t_objects : list SmileObject;
  t_userFunctions : list nat;
  t_tillInfos : list (list Z)
}.

Record Program := mkProgram {
  segments : list ByteCodeSegment;
  tables : list CompiledTables;
  userFunctionInfos : list UserFunctionInfo;
  externalFunctionInfos : list ExternalFunctionInfo
}.

Record Machine := mkMachine {
  store : Store;
  heap : Heap;
  cur : nat;        (** [_closure] *)
  segment : nat;    (** [_segment] *)
  pc : Z            (** [_byteCode - _segment->byteCodes] *)
}.

(** Work the evaluator hands to C code outside this model, with the machine as
    that code finds it; see [FnCall] and [Eval] for how it continues. *)
Inductive Request :=
  | CallExternal (fn : nat) (argv : list SmileArg)
  | CallRaw (fn : nat) (argc : Z) (argvOffset : Z)
  | CallStateMachine (fn : nat) (argv : list SmileArg)
  | StateMachineStart (start : nat)
  | StateMachineBody (body : nat)
  | Include (module variable : Z).

Inductive Outcome :=
  | Next (m : Machine)
  | Returned (m : Machine)
  | Breakpoint (m : Machine)
  | Exception (errorKind : Symbol)
  | Undefined
  | External (r : Request) (m : Machine).

Definition run (r : Result Machine) : Outcome :=
  match r with Ok m => Next m | Throw k => Exception k | Crash => Undefined end.

Definition lift {A} (r : Result A) (f : A -> Outcome) : Outcome :=
  match r with Ok x => f x | Throw k => Exception k | Crash => Undefined end.

Notation "'let!' x := m 'in' k" := (lift m (fun x => k))
  (at level 200, x pattern, right associativity) : result_scope.

Definition set_store (s : Store) (m : Machine) : Machine :=
  mkMachine s (heap m) (cur m) (segment m) (pc m).
Definition set_heap (h : Heap) (m : Machine) : Machine :=
  mkMachine (store m) h (cur m) (segment m) (pc m).
Definition set_pc (p : Z) (m : Machine) : Machine :=
  mkMachine (store m) (heap m) (cur m) (segment m) p.

(** [byteCode++] *)
Definition advance (m : Machine) : Machine := set_pc (pc m + 1) m.

Definition cur_closure (m : Machine) : Result Closure := get_closure (store m) (cur m).

Definition put_closure (cl : Closure) (m : Machine) : Machine :=
  set_store (update_closure (store m) (cur m) cl) m.

Definition cur_tables (P : Program) (m : Machine) : Result CompiledTables :=
  let? seg := segments P !! segment m in
  orCrash (tables P !! compiledTables seg).

(** Bounds for the walks up parents and bases, which end at a root. *)
Definition closure_fuel (m : Machine) : nat := S (length (closures (store m))).
Definition base_fuel (m : Machine) : nat := length (heap m) + 3.

(** [n] consecutive arguments of the array from [start]. *)
Fixpoint read_args (v : list SmileArg) (start : Z) (n : nat) : option (list SmileArg) :=
  match n with
  | O => Some []
  | S n => x ← zget v start; l ← read_args v (start + 1) n; Some (x :: l)
  end.

(** Store a list of arguments from [start] on. *)
Fixpoint write_args (v : list SmileArg) (start : Z) (args : list SmileArg)
  : option (list SmileArg) :=
  match args with
  | [] => Some v
  | x :: args => v ← zset v start x; write_args v (start + 1) args
  end.

(** ** Lemmas *)

Lemma read_args_spec (v : list SmileArg) (start : Z) (n : nat) :
  0 <= start -> start + Z.of_nat n <= zlen v ->
  read_args v start n = Some (take n (drop (Z.to_nat start) v)).
Proof.
  revert start. induction n as [|n IH]; intros start H0 H; [done|]. simpl.
  destruct (zget_total v start ltac:(lia)) as [x Ex]. rewrite Ex. simpl.
  rewrite IH by lia. simpl. f_equal.
  apply zget_Some in Ex as [_ Ex].
  rewrite (drop_S _ _ _ Ex). simpl. do 3 f_equal. lia.
Qed.

Lemma read_args_length (v : list SmileArg) (start : Z) (n : nat) l :
  read_args v start n = Some l -> length l = n.
Proof.
  revert start l. induction n as [|n IH]; intros start l H; simpl in H; [by injection H as <-|].
  destruct (zget v start); [|done]. simpl in H.
  destruct (read_args v (start + 1) n) eqn:E; [|done]. injection H as <-. simpl.
  f_equal. eauto.
Qed.

Lemma read_args_get (v : list SmileArg) (start : Z) (n : nat) l :
  read_args v start n = Some l ->
  forall k, (k < n)%nat -> l !! k = zget v (start + Z.of_nat k).
Proof.
  revert start l. induction n as [|n IH]; intros start l H k Hk; [lia|]. simpl in H.
  destruct (zget v start) eqn:Ex; [|done]. simpl in H.
  destruct (read_args v (start + 1) n) eqn:E; [|done]. injection H as <-.
  destruct k as [|k]; simpl.
  - by rewrite Z.add_0_r.
  - rewrite (IH _ _ E) by lia. f_equal. lia.
Qed.

Lemma write_args_spec (v : list SmileArg) (start : Z) (args : list SmileArg) :
  0 <= start -> start + zlen args <= zlen v ->
  exists v', write_args v start args = Some v' /\ zlen v' = zlen v
    /\ forall j, zget v' j = if (start <=? j) && (j <? start + zlen args)
                             then args !! Z.to_nat (j - start) else zget v j.
Proof.
  revert v start. induction args as [|x args IH]; intros v start H0 H.
  - exists v. split; [done|]. split; [done|]. intros j. rewrite zlen_nil.
    destruct (Z.leb_spec start j), (Z.ltb_spec j (start + 0)); try done. lia.
  - rewrite zlen_cons in H. pose proof (zlen_nonneg args).
    destruct (zset_total v start x ltac:(lia)) as [v1 E1]. simpl. rewrite E1. simpl.
    pose proof (zset_zlen _ _ _ _ E1) as Hl1.
    destruct (IH v1 (start + 1) ltac:(lia) ltac:(lia)) as (v2 & E2 & Hl2 & Hg).
    exists v2. split; [done|]. split; [congruence|]. intros j. rewrite Hg, zlen_cons.
    rewrite (zset_zget _ _ _ _ E1).
    destruct (Z.leb_spec (start + 1) j), (Z.ltb_spec j (start + 1 + zlen args)),
      (Z.leb_spec start j), (Z.ltb_spec j (start + (zlen args + 1))), (Z.eqb_spec j start);
      simpl; try lia; try done.
    + replace (Z.to_nat (j - start)) with (S (Z.to_nat (j - (start + 1)))) by lia. done.
    + subst. by rewrite Z.sub_diag.
Qed.

Lemma write_args_None_range (v v' : list SmileArg) (start : Z) (args : list SmileArg) :
  write_args v start args = Some v' -> zlen v' = zlen v.
Proof.
  revert v start. induction args as [|x args IH]; intros v start H; simpl in H; [by injection H as <-|].
  destruct (zset v start x) eqn:E; [|done]. simpl in H.
  rewrite (IH _ _ H). by apply (zset_zlen _ _ _ _ E).
Qed.
