(* ===== verification/FnCall.v ===== *)
(** * FnCall: calling user and external functions

    [src/eval/eval_fn_user.generated.c], [src/eval/eval_fn_ext.generated.c], the
    choice of calling convention in [src/smiletypes/smilefunction.c], and
    [SmileUserObject_Call].

    A call finds its [argc] arguments on top of the current closure's stack,
    with [extra] more slots below them to drop (the function object itself for
    [Op_Call], nothing for [Op_Met]).  Calling a user function creates a child
    closure and switches to it; calling an external function is a [Request]. *)

From S2P Require Import Prelude Opcode ByteCode Object Closure Machine.
Import Operand.

Section FnCall.
Context {E : ObjectEnv} (P : Program).

(** ** User functions *)

(** [childClosure = Closure_CreateLocal(...)], common to every convention: the
    continuation is the instruction after the call. *)
Definition create_child (m : Machine) (uf : UserFunctionInfo) (declaringClosure : nat)
  : Result (Store * nat) :=
  Closure_CreateLocal (store m) (uf_closureInfo uf) declaringClosure
    (Some (cur m)) (Some (segment m)) (pc m).

(** Their common end: the registers move to the start of the child. *)
Definition enter_child (m : Machine) (uf : UserFunctionInfo) (child : nat) (s : Store) (h : Heap)
  : Result Machine :=
  let? _ := segments P !! uf_byteCodeSegment uf in
  Ok (mkMachine s h child (uf_byteCodeSegment uf) 0).

(** [childClosure->variables[i] = _closure->stackTop[off]] *)
Definition copy_arg (cl child : Closure) (i off : Z) : Result Closure :=
  let? arg := zget (variables cl) (stackTop cl + off) in
  Closure_SetArgument child i arg.

Fixpoint copy_moves (cl child : Closure) (moves : list (Z * Z)) : Result Closure :=
  match moves with
  | [] => Ok child
  | (i, off) :: moves => let* child := copy_arg cl child i off in copy_moves cl child moves
  end.

(** The fixed-count conventions: one assignment per argument, then the pop. *)
Definition fast_call (n : Z) (moves : list (Z * Z)) (m : Machine) (uf : UserFunctionInfo)
  (declaringClosure : nat) (argc extra : Z) : Result Machine :=
  if negb (argc =? n) then Throw sym_native_method_error
  else
    let* (s, c) := create_child m uf declaringClosure in
    let* child := get_closure s c in
    let* cl := get_closure s (cur m) in
    let* child := copy_moves cl child moves in
    let s := update_closure s c child in
    let s := update_closure s (cur m) (Closure_PopCount cl (extra + n)) in
    enter_child m uf c s (heap m).

Definition SmileUserFunction_NoArgs_Call := fast_call 0 [].
Definition SmileUserFunction_Fast1_Call := fast_call 1 [(0, -1)].
Definition SmileUserFunction_Fast2_Call := fast_call 2 [(0, -2); (1, -1)].
Definition SmileUserFunction_Fast3_Call := fast_call 3 [(0, -3); (1, -2); (2, -1)].
Definition SmileUserFunction_Fast4_Call := fast_call 4 [(0, -4); (1, -3); (2, -2); (3, -1)].
Definition SmileUserFunction_Fast5_Call :=
  fast_call 5 [(0, -5); (1, -4); (2, -3); (3, -2); (4, -1)].
Definition SmileUserFunction_Fast6_Call :=
  fast_call 6 [(0, -6); (1, -5); (2, -4); (3, -3); (4, -2); (5, -1)].
Definition SmileUserFunction_Fast7_Call :=
  fast_call 7 [(0, -7); (1, -6); (2, -5); (3, -4); (4, -3); (5, -2); (6, -1)].
Definition SmileUserFunction_Fast8_Call :=
  fast_call 8 [(0, -8); (1, -7); (2, -6); (3, -5); (4, -4); (5, -3); (6, -2); (7, -1)].

(** [for (i = ...; i < ...; i++) childClosure->variables[i] = _closure->stackTop[-argc + i]],
    [count] times from [i]. *)
Fixpoint copy_loop (cl child : Closure) (argc i : Z) (count : nat) : Result Closure :=
  match count with
  | O => Ok child
  | S count =>
      let* child := copy_arg cl child i (- argc + i) in
      copy_loop cl child argc (i + 1) count
  end.

Definition SmileUserFunction_Slow_Call (m : Machine) (uf : UserFunctionInfo)
  (declaringClosure : nat) (argc extra : Z) : Result Machine :=
  if negb (argc =? uf_numArgs uf) then Throw sym_native_method_error
  else
    let* (s, c) := create_child m uf declaringClosure in
    let* child := get_closure s c in
    let* cl := get_closure s (cur m) in
    let* child := copy_loop cl child argc 0 (Z.to_nat (uf_numArgs uf)) in
    let s := update_closure s c child in
    let s := update_closure s (cur m) (Closure_PopCount cl (extra + argc)) in
    enter_child m uf c s (heap m).

(** [childClosure->variables[i] = argInfo[i].defaultValue], [count] times. *)
Fixpoint default_loop (uf : UserFunctionInfo) (child : Closure) (i : Z) (count : nat)
  : Result Closure :=
  match count with
  | O => Ok child
  | S count =>
      let? arg := zget (uf_defaults uf) i in
      let* child := Closure_SetArgument child i arg in
      default_loop uf child (i + 1) count
  end.

Definition SmileUserFunction_Optional_Call (m : Machine) (uf : UserFunctionInfo)
  (declaringClosure : nat) (argc extra : Z) : Result Machine :=
  if argc <? uf_minArgs uf then Throw sym_native_method_error
  else if argc >? uf_maxArgs uf then Throw sym_native_method_error
  else
    let* (s, c) := create_child m uf declaringClosure in
    let* child := get_closure s c in
    let* cl := get_closure s (cur m) in
    let* child := copy_loop cl child argc 0 (Z.to_nat argc) in
    let s := update_closure s (cur m) (Closure_PopCount cl (extra + argc)) in
    let* child := default_loop uf child argc (Z.to_nat (uf_numArgs uf - argc)) in
    let s := update_closure s c child in
    enter_child m uf c s (heap m).

(** [LIST_APPEND(head, tail, value)] on the heap. *)
Definition LIST_APPEND (h : Heap) (head tail value : SmileObject)
  : Result (Heap * SmileObject * SmileObject) :=
  let? kind := SMILE_KIND h head in
  let (h', cell) := SmileList_Cons h value NullObject in
  if kind =? SMILE_KIND_NULL then Ok (h', cell, cell)
  else
    match tail with
    | Ref r =>
        match h' !! r with
        | Some (HList a _) => Ok (<[r := HList a cell]> h', head, cell)
        | _ => Crash
        end
    | _ => Crash
    end.

(** Collect [count] arguments, boxed, from [i] on. *)
Fixpoint rest_loop (cl : Closure) (argc i : Z) (count : nat) (h : Heap) (head tail : SmileObject)
  : Result (Heap * SmileObject) :=
  match count with
  | O => Ok (h, head)
  | S count =>
      let? arg := zget (variables cl) (stackTop cl - argc + i) in
      let* (h, value) := SmileArg_Box h arg in
      let* (h, head, tail) := LIST_APPEND h head tail value in
      rest_loop cl argc (i + 1) count h head tail
  end.

Definition SmileUserFunction_Rest_Call (m : Machine) (uf : UserFunctionInfo)
  (declaringClosure : nat) (argc extra : Z) : Result Machine :=
  let numArgs := uf_numArgs uf in
  if argc <? uf_minArgs uf then Throw sym_native_method_error
  else
    let* (s, c) := create_child m uf declaringClosure in
    let* child := get_closure s c in
    let* cl := get_closure s (cur m) in
    let* (child, h) :=
      (if argc <? numArgs then
         let* child := copy_loop cl child argc 0 (Z.to_nat argc) in
         let* child := default_loop uf child argc (Z.to_nat (numArgs - 1 - argc)) in
         let* child := Closure_SetArgument child (numArgs - 1) (SmileArg_From NullObject) in
         Ok (child, heap m)
       else
         let* child := copy_loop cl child argc 0 (Z.to_nat (numArgs - 1)) in
         let* (h, rest) := rest_loop cl argc (numArgs - 1) (Z.to_nat (argc - (numArgs - 1)))
                              (heap m) NullObject NullObject in
         let* child := Closure_SetArgument child (numArgs - 1) (SmileArg_From rest) in
         Ok (child, h)) in
    let s := update_closure s c child in
    let s := update_closure s (cur m) (Closure_PopCount cl (extra + argc)) in
    enter_child m uf c s h.

(** There is no type checking yet: the checked conventions are the unchecked
    ones ([Checked] is [Slow] even when there are optional arguments). *)
Definition SmileUserFunction_Checked_Call := SmileUserFunction_Slow_Call.
Definition SmileUserFunction_CheckedRest_Call := SmileUserFunction_Rest_Call.

Definition UserFunctionCall := Machine -> UserFunctionInfo -> nat -> Z -> Z -> Result Machine.

(** [None] for the NULL virtual table. *)
Definition GetUserFunctionVTableByFlags (flags numArgs : Z) : option UserFunctionCall :=
  match flags with
  | 0 =>
      Some (match numArgs with
            | 0 => SmileUserFunction_NoArgs_Call
            | 1 => SmileUserFunction_Fast1_Call
            | 2 => SmileUserFunction_Fast2_Call
            | 3 => SmileUserFunction_Fast3_Call
            | 4 => SmileUserFunction_Fast4_Call
            | 5 => SmileUserFunction_Fast5_Call
            | 6 => SmileUserFunction_Fast6_Call
            | 7 => SmileUserFunction_Fast7_Call
            | 8 => SmileUserFunction_Fast8_Call
            | _ => SmileUserFunction_Slow_Call
            end)
  | 4 => Some SmileUserFunction_Optional_Call
  | 1 | 5 => Some SmileUserFunction_Rest_Call
  | 2 | 6 => Some SmileUserFunction_Checked_Call
  | 3 | 7 => Some SmileUserFunction_CheckedRest_Call
  | _ => None
  end.

(** [SmileFunction_CreateUserFunction] and the virtual call on the result. *)
Definition SmileFunction_CreateUserFunction (h : Heap) (userFunctionInfo declaringClosure : nat)
  : Heap * SmileObject :=
  heap_alloc h (HUserFunction userFunctionInfo declaringClosure).

Definition user_call (m : Machine) (fn declaringClosure : nat) (argc extra : Z) : Result Machine :=
  let? uf := userFunctionInfos P !! fn in
  let? call := GetUserFunctionVTableByFlags (uf_flags uf) (uf_numArgs uf) in
  call m uf declaringClosure argc extra.

(** ** External functions *)

(** One check: [(argv[i].obj->kind & mask) != compare] throws. *)
Definition type_check (h : Heap) (argv : list SmileArg) (typeChecks : list Z) (i j : Z)
  : Result unit :=
  let? arg := zget argv i in
  let? kind := SMILE_KIND h (obj arg) in
  let? mask := zget typeChecks (j * 2) in
  let? compare := zget typeChecks (j * 2 + 1) in
  if negb (Z.land kind mask =? compare) then Throw sym_native_method_error else Ok tt.

(** [count] checks of argument [i] on against entry [i] of the table. *)
Fixpoint type_checks_up (h : Heap) (argv : list SmileArg) (typeChecks : list Z) (i : Z)
  (count : nat) : Result unit :=
  match count with
  | O => Ok tt
  | S count =>
      let* _ := type_check h argv typeChecks i i in
      type_checks_up h argv typeChecks (i + 1) count
  end.

(** The fall-through cases 7 to 1: the last argument first. *)
Fixpoint type_checks_down (h : Heap) (argv : list SmileArg) (typeChecks : list Z) (count : nat)
  : Result unit :=
  match count with
  | O => Ok tt
  | S count =>
      let* _ := type_check h argv typeChecks (Z.of_nat count) (Z.of_nat count) in
      type_checks_down h argv typeChecks count
  end.

(** [count] checks of argument [i] on against the fixed entry [j]. *)
Fixpoint type_checks_last (h : Heap) (argv : list SmileArg) (typeChecks : list Z) (i j : Z)
  (count : nat) : Result unit :=
  match count with
  | O => Ok tt
  | S count =>
      let* _ := type_check h argv typeChecks i j in
      type_checks_last h argv typeChecks (i + 1) j count
  end.

Definition PerformTypeChecks (h : Heap) (argc : Z) (argv : list SmileArg)
  (numTypeChecks : Z) (typeChecks : list Z) : Result unit :=
  if argc >? numTypeChecks then
    let* _ := type_checks_up h argv typeChecks 0 (Z.to_nat numTypeChecks) in
    type_checks_last h argv typeChecks numTypeChecks (numTypeChecks - 1)
      (Z.to_nat (argc - numTypeChecks))
  else if argc <=? 7 then type_checks_down h argv typeChecks (Z.to_nat argc)
  else type_checks_up h argv typeChecks 0 (Z.to_nat argc).

(** Which checks a convention makes, in the order it makes them. *)
Record ExternalConvention := mkConvention {
  checkMin : bool; checkMax : bool; checkExact : bool; checkTypes : bool; isStateMachine : bool
}.

Definition ThrowMinCheckError : Result unit := Throw sym_native_method_error.
Definition ThrowMaxCheckError : Result unit := Throw sym_native_method_error.
Definition ThrowExactCheckError : Result unit := Throw sym_native_method_error.

Definition external_call (k : ExternalConvention) (m : Machine) (fn : nat)
  (ef : ExternalFunctionInfo) (argc extra : Z) : Outcome :=
  let! cl := cur_closure m in
  let argvStart := stackTop cl - argc in
  let! _ := (if checkMin k && (argc <? ef_minArgs ef) then ThrowMinCheckError else Ok tt) in
  let! _ := (if checkMax k && (argc >? ef_maxArgs ef) then ThrowMaxCheckError else Ok tt) in
  let! _ := (if checkExact k && negb (argc =? ef_minArgs ef)
             then ThrowExactCheckError else Ok tt) in
  let! argv := orCrash (read_args (variables cl) argvStart (Z.to_nat argc)) in
  let! _ := (if checkTypes k
             then PerformTypeChecks (heap m) argc argv (ef_numArgsToTypeCheck ef)
                    (ef_argTypeChecks ef)
             else Ok tt) in
  External ((if isStateMachine k then CallStateMachine else CallExternal) fn argv)
    (put_closure (set_stackTop (argvStart - extra) cl) m).

Definition SmileExternalFunction_NoCheck_Call :=
  external_call (mkConvention false false false false false).
Definition SmileExternalFunction_MinCheck_Call :=
  external_call (mkConvention true false false false false).
Definition SmileExternalFunction_MaxCheck_Call :=
  external_call (mkConvention false true false false false).
Definition SmileExternalFunction_MinMaxCheck_Call :=
  external_call (mkConvention true true false false false).
Definition SmileExternalFunction_ExactCheck_Call :=
  external_call (mkConvention false false true false false).
Definition SmileExternalFunction_TypesCheck_Call :=
  external_call (mkConvention false false false true false).
Definition SmileExternalFunction_MinTypesCheck_Call :=
  external_call (mkConvention true false false true false).
Definition SmileExternalFunction_MaxTypesCheck_Call :=
  external_call (mkConvention false true false true false).
Definition SmileExternalFunction_MinMaxTypesCheck_Call :=
  external_call (mkConvention true true false true false).
Definition SmileExternalFunction_ExactTypesCheck_Call :=
  external_call (mkConvention false false true true false).
Definition SmileExternalFunction_StateMachineNoCheck_Call :=
  external_call (mkConvention false false false false true).
Definition SmileExternalFunction_StateMachineMinCheck_Call :=
  external_call (mkConvention true false false false true).
Definition SmileExternalFunction_StateMachineMaxCheck_Call :=
  external_call (mkConvention false true false false true).
Definition SmileExternalFunction_StateMachineMinMaxCheck_Call :=
  external_call (mkConvention true true false false true).
Definition SmileExternalFunction_StateMachineExactCheck_Call :=
  external_call (mkConvention false false true false true).
Definition SmileExternalFunction_StateMachineTypesCheck_Call :=
  external_call (mkConvention false false false true true).
Definition SmileExternalFunction_StateMachineMinTypesCheck_Call :=
  external_call (mkConvention true false false true true).
Definition SmileExternalFunction_StateMachineMaxTypesCheck_Call :=
  external_call (mkConvention false true false true true).
Definition SmileExternalFunction_StateMachineMinMaxTypesCheck_Call :=
  external_call (mkConvention true true false true true).
Definition SmileExternalFunction_StateMachineExactTypesCheck_Call :=
  external_call (mkConvention false false true true true).

Definition SmileExternalFunction_Raw_Call (m : Machine) (fn : nat) (ef : ExternalFunctionInfo)
  (argc extra : Z) : Outcome :=
  let! cl := cur_closure m in
  External (CallRaw fn argc (stackTop cl - argc - extra)) m.

Definition ExternalCall := Machine -> nat -> ExternalFunctionInfo -> Z -> Z -> Outcome.

Definition GetExternalFunctionVTableByFlags (argCheckFlags : Z) : option ExternalCall :=
  if negb (Z.land argCheckFlags ARG_MODE_RAW =? 0) then Some SmileExternalFunction_Raw_Call
  else
    match argCheckFlags with
    | 0 => Some SmileExternalFunction_NoCheck_Call
    | 1 => Some SmileExternalFunction_MinCheck_Call
    | 2 => Some SmileExternalFunction_MaxCheck_Call
    | 3 => Some SmileExternalFunction_MinMaxCheck_Call
    | 4 => Some SmileExternalFunction_ExactCheck_Call
    | 8 => Some SmileExternalFunction_TypesCheck_Call
    | 9 => Some SmileExternalFunction_MinTypesCheck_Call
    | 10 => Some SmileExternalFunction_MaxTypesCheck_Call
    | 11 => Some SmileExternalFunction_MinMaxTypesCheck_Call
    | 12 => Some SmileExternalFunction_ExactTypesCheck_Call
    | 16 => Some SmileExternalFunction_StateMachineNoCheck_Call
    | 17 => Some SmileExternalFunction_StateMachineMinCheck_Call
    | 18 => Some SmileExternalFunction_StateMachineMaxCheck_Call
    | 19 => Some SmileExternalFunction_StateMachineMinMaxCheck_Call
    | 20 => Some SmileExternalFunction_StateMachineExactCheck_Call
    | 24 => Some SmileExternalFunction_StateMachineTypesCheck_Call
    | 25 => Some SmileExternalFunction_StateMachineMinTypesCheck_Call
    | 26 => Some SmileExternalFunction_StateMachineMaxTypesCheck_Call
    | 27 => Some SmileExternalFunction_StateMachineMinMaxTypesCheck_Call
    | 28 => Some SmileExternalFunction_StateMachineExactTypesCheck_Call
    | _ => None
    end.

(** The flags an external function is created with: degenerate checks are
    dropped and a minimum equal to the maximum becomes an exact check. *)
Definition CreateExternalFunction_flags (argCheckFlags minArgs maxArgs numArgsToTypeCheck : Z) : Z :=
  let f := argCheckFlags in
  let f := if minArgs =? 0 then Z.ldiff f ARG_CHECK_MIN else f in
  let f :=
    if (minArgs =? maxArgs)
       && (Z.land f (Z.lor ARG_CHECK_MIN ARG_CHECK_MAX) =? Z.lor ARG_CHECK_MIN ARG_CHECK_MAX)
    then Z.lor (Z.ldiff f (Z.lor ARG_CHECK_MIN ARG_CHECK_MAX)) ARG_CHECK_EXACT
    else f in
  if numArgsToTypeCheck =? 0 then Z.ldiff f ARG_CHECK_TYPES else f.

(** How the evaluator goes on when an external function returns [result] (a
    state-machine function may return no object, having switched closures). *)
Definition external_return (m : Machine) (result : SmileArg) : Outcome :=
  run (let* cl := cur_closure m in
       let* cl := Closure_Push cl result in
       Ok (put_closure cl m)).

Definition state_machine_return (m : Machine) (result : SmileArg) : Outcome :=
  if bool_decide (obj result = NoObject) then Next m else external_return m result.

(** ** The virtual [call] *)

(** User objects delegate to their function property, then to their base;
    everything that is not a function throws. *)
Fixpoint call (fuel : nat) (m : Machine) (target : SmileObject) (argc extra : Z) : Outcome :=
  match target with
  | NoObject => Undefined
  | Ref r =>
      match heap m !! r with
      | Some (HUserFunction fn declaring) => run (user_call m fn declaring argc extra)
      | Some (HExternalFunction fn) =>
          let! ef := orCrash (externalFunctionInfos P !! fn) in
          let! f := orCrash (GetExternalFunctionVTableByFlags (ef_argCheckFlags ef)) in
          f m fn ef argc extra
      | Some (HUserObject base _ _ _ dict) =>
          match fuel with
          | O => Undefined
          | S fuel =>
              match dict !! sym_fn with
              | Some fn =>
                  let! kind := orCrash (SMILE_KIND (heap m) fn) in
                  if kind =? SMILE_KIND_FUNCTION then call fuel m fn argc extra
                  else call fuel m base argc extra
              | None => call fuel m base argc extra
              end
          end
      | Some _ => Exception sym_eval_error
      | None => Undefined
      end
  | _ => Exception sym_eval_error
  end.

End FnCall.

(** ** Lemmas *)
Section FnCallLemmas.
Context {E : ObjectEnv} (P : Program).

(** The copying loop fills the child's first variables from the caller's stack. *)
Lemma copy_loop_spec (cl child : Closure) (argc i : Z) (count : nat) :
  0 <= i -> i + Z.of_nat count <= zlen (variables child) ->
  i + Z.of_nat count <= argc -> argc <= stackTop cl <= zlen (variables cl) ->
  exists v, copy_loop cl child argc i count = Ok (set_variables v child)
    /\ zlen v = zlen (variables child)
    /\ forall j, zget v j = if (i <=? j) && (j <? i + Z.of_nat count)
                            then zget (variables cl) (stackTop cl - argc + j)
                            else zget (variables child) j.
Proof.
  revert child i. induction count as [|count IH]; intros child i H0 H1 H2 H3.
  - exists (variables child). split; [by destruct child|]. split; [done|]. intros j.
    destruct (Z.leb_spec i j), (Z.ltb_spec j (i + Z.of_nat 0)); try done. lia.
  - simpl. unfold copy_arg.
    destruct (zget_total (variables cl) (stackTop cl + (- argc + i)) ltac:(lia)) as [x Ex].
    rewrite Ex. simpl. unfold Closure_SetArgument.
    destruct (zset_total (variables child) i x ltac:(lia)) as [v1 E1]. rewrite E1. simpl.
    pose proof (zset_zlen _ _ _ _ E1) as Hl.
    destruct (IH (set_variables v1 child) (i + 1)) as (v & Ev & Hv & Hg); simpl; try lia.
    exists v. split; [by rewrite Ev|]. simpl in Hv, Hg. split; [congruence|]. intros j. rewrite Hg.
    rewrite (zset_zget _ _ _ _ E1).
    destruct (Z.leb_spec (i + 1) j), (Z.ltb_spec j (i + 1 + Z.of_nat count)),
      (Z.leb_spec i j), (Z.ltb_spec j (i + Z.of_nat (S count))), (Z.eqb_spec j i);
      simpl; try lia; try done.
    subst j. rewrite <- Ex. f_equal. lia.
Qed.

Lemma default_loop_spec (uf : UserFunctionInfo) (child : Closure) (i : Z) (count : nat) :
  0 <= i -> i + Z.of_nat count <= zlen (variables child) ->
  i + Z.of_nat count <= zlen (uf_defaults uf) ->
  exists v, default_loop uf child i count = Ok (set_variables v child)
    /\ zlen v = zlen (variables child)
    /\ forall j, zget v j = if (i <=? j) && (j <? i + Z.of_nat count)
                            then zget (uf_defaults uf) j else zget (variables child) j.
Proof.
  revert child i. induction count as [|count IH]; intros child i H0 H1 H2.
  - exists (variables child). split; [by destruct child|]. split; [done|]. intros j.
    destruct (Z.leb_spec i j), (Z.ltb_spec j (i + Z.of_nat 0)); try done. lia.
  - simpl. destruct (zget_total (uf_defaults uf) i ltac:(lia)) as [x Ex].
    rewrite Ex. simpl. unfold Closure_SetArgument.
    destruct (zset_total (variables child) i x ltac:(lia)) as [v1 E1]. rewrite E1. simpl.
    pose proof (zset_zlen _ _ _ _ E1) as Hl.
    destruct (IH (set_variables v1 child) (i + 1)) as (v & Ev & Hv & Hg); simpl; try lia.
    exists v. split; [by rewrite Ev|]. simpl in Hv, Hg. split; [congruence|]. intros j. rewrite Hg.
    rewrite (zset_zget _ _ _ _ E1).
    destruct (Z.leb_spec (i + 1) j), (Z.ltb_spec j (i + 1 + Z.of_nat count)),
      (Z.leb_spec i j), (Z.ltb_spec j (i + Z.of_nat (S count))), (Z.eqb_spec j i);
      simpl; try lia; try done.
    by subst j.
Qed.

(** What a program and a machine must satisfy for a call of [uf] from [m] with
    [argc] arguments over [extra] more slots to make sense. *)
Record call_ready (m : Machine) (cl : Closure) (uf : UserFunctionInfo) (d : nat)
  (argc extra : Z) : Prop := {
  cr_wf : Store_wf (store m);
  cr_cur : closures (store m) !! cur m = Some cl;
  cr_declaring : (d < length (closures (store m)))%nat;
  cr_info : exists i, infos (store m) !! uf_closureInfo uf = Some i
             /\ numArgs i = uf_numArgs uf /\ 0 <= numArgs i <= numVariables i /\ 0 <= tempSize i;
  cr_segment : exists seg, segments P !! uf_byteCodeSegment uf = Some seg;
  cr_stack : 0 <= argc /\ 0 <= extra /\ argc + extra <= stackTop cl
}.

(** The closure a call creates: [args] in the first slots, everything else
    unset, an empty temporary stack, and the continuation of the caller. *)
Definition child_of (m : Machine) (uf : UserFunctionInfo) (d : nat) (i : ClosureInfo)
  (args : Z -> option SmileArg) (child : Closure) : Prop :=
  parent child = Some d /\ returnClosure child = Some (cur m)
  /\ returnSegment child = Some (segment m) /\ returnPc child = pc m
  /\ locals child = numArgs i /\ stackTop child = numVariables i
  /\ zlen (variables child) = numVariables i + tempSize i
  /\ forall j, 0 <= j < uf_numArgs uf -> zget (variables child) j = args j.

(** The part common to all conventions, once the child's variables [v] are made. *)
Lemma finish_call (m : Machine) (cl : Closure) (uf : UserFunctionInfo) (d : nat)
  (argc extra : Z) s c child v h :
  call_ready m cl uf d argc extra ->
  create_child m uf d = Ok (s, c) -> closures s !! c = Some child ->
  zlen v = zlen (variables child) ->
  exists m' i,
    enter_child P m uf c
      (update_closure (update_closure s c (set_variables v child)) (cur m)
         (Closure_PopCount cl (extra + argc))) h = Ok m'
    /\ infos (store m) !! uf_closureInfo uf = Some i
    /\ closures (store m') !! cur m' = Some (set_variables v child)
    /\ child_of m uf d i (zget v) (set_variables v child)
    /\ closures (store m') !! cur m = Some (set_stackTop (stackTop cl - (extra + argc)) cl)
    /\ (forall c', (c' < length (closures (store m)))%nat -> c' <> cur m ->
          closures (store m') !! c' = closures (store m) !! c')
    /\ segment m' = uf_byteCodeSegment uf /\ pc m' = 0 /\ heap m' = h.
Proof.
  intros [Hwf Hcur Hd (i & Hi & Hn & Ha & Ht) [seg Hseg] Hst] Hc Hch Hv.
  assert (Hlt : (cur m < length (closures (store m)))%nat) by (eapply lookup_lt_Some; eauto).
  destruct (CreateLocal_spec (store m) (uf_closureInfo uf) d (Some (cur m)) (Some (segment m))
              (pc m) i Hwf Hi Hd Ha Ht)
    as (s1 & c1 & cl1 & E1 & -> & H1 & H2 & H3 & H4 & H5 & H6 & H7 & H8 & H9 & H10 & H11).
  { intros r [= <-]. done. }
  unfold create_child in Hc. rewrite E1 in Hc. injection Hc as <- <-.
  rewrite H1 in Hch. injection Hch as ->.
  assert (Hlen : (length (closures (store m)) < length (closures s1))%nat)
    by (eapply lookup_lt_Some; eauto).
  unfold enter_child. rewrite Hseg. simpl. do 2 eexists. split; [reflexivity|]. simpl.
  split; [done|]. split; [|split; [|split; [|split]]].
  - rewrite list_lookup_insert_ne by lia. by rewrite list_lookup_insert_eq.
  - repeat (split; [done|]). simpl. split; [congruence|]. done.
  - by rewrite list_lookup_insert_eq by (rewrite length_insert; lia).
  - intros c' Hc' Hne. rewrite !list_lookup_insert_ne by lia. by apply H9.
  - done.
Qed.

Lemma create_child_ok (m : Machine) (cl : Closure) (uf : UserFunctionInfo) (d : nat)
  (argc extra : Z) :
  call_ready m cl uf d argc extra ->
  exists s c child, create_child m uf d = Ok (s, c) /\ closures s !! c = Some child
    /\ closures s !! cur m = Some cl /\ uf_numArgs uf <= zlen (variables child).
Proof.
  intros [Hwf Hcur Hd (i & Hi & Hn & Ha & Ht) _ _].
  assert (Hlt : (cur m < length (closures (store m)))%nat) by (eapply lookup_lt_Some; eauto).
  destruct (CreateLocal_spec (store m) (uf_closureInfo uf) d (Some (cur m)) (Some (segment m))
              (pc m) i Hwf Hi Hd Ha Ht)
    as (s1 & c1 & cl1 & E1 & -> & H1 & H2 & H3 & H4 & H5 & H6 & H7 & H8 & H9 & H10 & H11).
  { intros r [= <-]. done. }
  exists s1, (length (closures (store m))), cl1. repeat split; try done; [|lia].
  rewrite H9; done.
Qed.

(** *** Lists on the heap *)

(** The proper list with the given elements. *)
Inductive is_list (h : Heap) : SmileObject -> list SmileObject -> Prop :=
  | is_list_nil : is_list h NullObject []
  | is_list_cons r a d l :
      h !! r = Some (HList a d) -> is_list h d l -> is_list h (Ref r) (a :: l).

(** A chain of cells with increasing addresses up to (not including) [t]. *)
Inductive lseg (h : Heap) (t : nat) : SmileObject -> list SmileObject -> Prop :=
  | lseg_nil : lseg h t (Ref t) []
  | lseg_cons r a d l :
      (r < t)%nat -> h !! r = Some (HList a d) -> lseg h t d l -> lseg h t (Ref r) (a :: l).

Lemma lseg_extend (h h' : Heap) (t c : nat) o l a :
  lseg h t o l -> (t < c)%nat -> (forall r, (r < t)%nat -> h' !! r = h !! r) ->
  h' !! t = Some (HList a (Ref c)) -> lseg h' c o (l ++ [a]).
Proof.
  intros Hs Hc Hsame Ht. induction Hs; simpl.
  - econstructor; [done..|]. constructor.
  - econstructor; [lia|by rewrite Hsame|done].
Qed.

Lemma lseg_list (h : Heap) (t : nat) o l a :
  lseg h t o l -> h !! t = Some (HList a NullObject) -> is_list h o (l ++ [a]).
Proof.
  intros Hs Ht. induction Hs; simpl; econstructor; eauto using is_list_nil.
Qed.

(** [val] is what [SmileArg_Box] makes of [arg]. *)
Definition boxes (h : Heap) (arg : SmileArg) (val : SmileObject) : Prop :=
  match obj arg with
  | UnboxedInstance k => scalar_of h val 0 = Some (k, scalar_bits k (unboxed arg))
  | o => val = o
  end.

Definition boxable (arg : SmileArg) : Prop :=
  obj arg <> NoObject /\ (obj arg = UnboxedInstance KBool -> 0 <= get_byte (unboxed arg) <= 1).

(** Boxing only adds cells. *)
Lemma SmileArg_Box_spec (h : Heap) (arg : SmileArg) :
  boxable arg ->
  exists ext o, SmileArg_Box h arg = Ok (h ++ ext, o) /\ boxes (h ++ ext) arg o.
Proof.
  intros [Hn Hb].
  assert (exists h' o, SmileArg_Box h arg = Ok (h', o)) as (h' & o & Eb).
  { unfold SmileArg_Box. destruct (obj arg) as [| | |k| |] eqn:Ho; eauto; [done|].
    destruct k; eauto. specialize (Hb eq_refl).
    destruct (Z.eqb_spec (get_byte (unboxed arg)) 0); eauto.
    destruct (Z.eqb_spec (get_byte (unboxed arg)) 1); eauto. lia. }
  assert (exists ext, h' = h ++ ext) as [ext ->].
  { unfold SmileArg_Box in Eb. destruct (obj arg) as [| | |k| |];
      try (exists []; rewrite app_nil_r; congruence).
    destruct k; cases_in Eb; injection Eb as <- _; eauto; exists []; by rewrite app_nil_r. }
  exists ext, o. split; [done|]. unfold boxes. destruct (obj arg) as [| | |k| |] eqn:Ho;
    try (unfold SmileArg_Box in Eb; rewrite Ho in Eb; congruence).
  by apply (scalar_of_box _ _ _ _ _ Ho Eb).
Qed.

Lemma boxes_stable (h h' : Heap) arg val :
  boxes h arg val ->
  (forall r k v, h !! r = Some (HScalar k v) -> h' !! r = Some (HScalar k v)) ->
  boxes h' arg val.
Proof.
  unfold boxes. intros Hb Hsame. destruct (obj arg); try done.
  destruct val as [| | | | |r]; simpl in *; try done.
  destruct (h !! r) as [[]|] eqn:Er; try done. by rewrite (Hsame _ _ _ Er).
Qed.

(** The head/tail pair that [LIST_APPEND] maintains, over cells from [n0] on. *)
Definition list_state (n0 : nat) (h : Heap) (head tail : SmileObject) (vals : list SmileObject)
  : Prop :=
  (n0 <= length h)%nat
  /\ ((head = NullObject /\ vals = [])
      \/ exists t l a, (n0 <= t)%nat /\ tail = Ref t /\ lseg h t head l
           /\ h !! t = Some (HList a NullObject) /\ vals = l ++ [a]).

Lemma list_state_list n0 h head tail vals : list_state n0 h head tail vals -> is_list h head vals.
Proof.
  intros [_ [[-> ->]|(t & l & a & _ & -> & Hs & Ht & ->)]]; [constructor|by eapply lseg_list].
Qed.

Lemma lseg_mono h h' t o l :
  lseg h t o l -> (forall r, (r < t)%nat -> h' !! r = h !! r) -> lseg h' t o l.
Proof. intros Hs Hsame. induction Hs; econstructor; eauto. by rewrite Hsame. Qed.

Lemma list_state_app n0 h ext head tail vals :
  list_state n0 h head tail vals -> list_state n0 (h ++ ext) head tail vals.
Proof.
  intros [Hn [?|(t & l & a & Hn0 & -> & Hs & Ht & ->)]]; (split; [rewrite length_app; lia|]);
    [by left|right].
  assert (t < length h)%nat by (eapply lookup_lt_Some; eauto).
  exists t, l, a. split; [done|]. split; [done|]. split; [|split; [|done]].
  - eapply lseg_mono; [done|]. intros. apply lookup_app_l. lia.
  - by apply lookup_app_l_Some.
Qed.

Lemma LIST_APPEND_spec (n0 : nat) (h : Heap) (head tail value : SmileObject) vals :
  list_state n0 h head tail vals ->
  exists h' head' tail', LIST_APPEND h head tail value = Ok (h', head', tail')
    /\ list_state n0 h' head' tail' (vals ++ [value])
    /\ (forall r, (r < n0)%nat -> h' !! r = h !! r)
    /\ (forall r k v, h !! r = Some (HScalar k v) -> h' !! r = Some (HScalar k v)).
Proof.
  intros [Hn [[-> ->]|(t & l & a & Hn0 & -> & Hs & Ht & ->)]]; unfold LIST_APPEND.
  - simpl. do 3 eexists. split; [reflexivity|]. split; [|split].
    + split; [rewrite length_app; simpl; lia|]. right. exists (length h), [], value.
      split; [lia|]. split; [done|]. split; [constructor|].
      split; [by rewrite lookup_app_r, Nat.sub_diag by lia|done].
    + intros r Hr. apply lookup_app_l. lia.
    + intros r k v Hx. by apply lookup_app_l_Some.
  - assert (Hlt : (t < length h)%nat) by (eapply lookup_lt_Some; eauto).
    assert (Hk : SMILE_KIND h head = Some SMILE_KIND_LIST).
    { inversion Hs; subst; simpl; [by rewrite Ht|].
      match goal with H : h !! _ = Some (HList _ _) |- _ => by rewrite H end. }
    rewrite Hk. simpl. rewrite lookup_app_l by done. rewrite Ht.
    do 3 eexists. split; [reflexivity|]. split; [|split].
    + split; [rewrite length_insert, length_app; simpl; lia|].
      right. exists (length h), (l ++ [a]), value. split; [lia|]. split; [done|].
      split; [|split; [|done]].
      * eapply lseg_extend; [exact Hs|done| |].
        -- intros r Hr. rewrite list_lookup_insert_ne by lia. apply lookup_app_l. lia.
        -- apply list_lookup_insert_eq. rewrite length_app. simpl. lia.
      * rewrite list_lookup_insert_ne by lia. by rewrite lookup_app_r, Nat.sub_diag by lia.
    + intros r Hr. rewrite list_lookup_insert_ne by lia. apply lookup_app_l. lia.
    + intros r k v Hx. rewrite list_lookup_insert_ne by congruence.
      by apply lookup_app_l_Some.
Qed.

(** The whole collecting loop. *)
Lemma rest_loop_spec (n0 : nat) (cl : Closure) (argc i : Z) (count : nat) args (h : Heap)
  head tail done vals :
  list_state n0 h head tail vals -> Forall2 (boxes h) done vals ->
  read_args (variables cl) (stackTop cl - argc + i) count = Some args -> Forall boxable args ->
  exists h' head' vals', rest_loop cl argc i count h head tail = Ok (h', head')
    /\ is_list h' head' vals' /\ Forall2 (boxes h') (done ++ args) vals'
    /\ (forall r, (r < n0)%nat -> h' !! r = h !! r).
Proof.
  revert i args h head tail done vals.
  induction count as [|count IH]; intros i args h head tail done vals Hst Hf Hr Hb; simpl in *.
  - injection Hr as <-. exists h, head, vals. rewrite app_nil_r.
    split; [done|]. split; [by eapply list_state_list|]. by split.
  - destruct (zget (variables cl) (stackTop cl - argc + i)) as [x|]; [|done]. simpl in *.
    destruct (read_args _ _ count) as [args'|] eqn:Er; [|done]. injection Hr as <-.
    inversion Hb as [|? ? Hbx Hb']; subst.
    destruct (SmileArg_Box_spec h x Hbx) as (ext & o & Eb & Hbo). rewrite Eb. simpl.
    pose proof (proj1 Hst) as Hlen. apply (list_state_app _ _ ext) in Hst.
    destruct (LIST_APPEND_spec n0 (h ++ ext) head tail o vals Hst)
      as (h' & head' & tail' & El & Hst' & Hlow & Hsc).
    rewrite El. simpl.
    destruct (IH (i + 1) args' h' head' tail' (done ++ [x]) (vals ++ [o])) as (h2 & hd & vs & E2 & H2);
      [done| | |done|].
    + apply Forall2_app; [|constructor; [|constructor]].
      * eapply Forall2_impl; [exact Hf|]. intros a v Hav. eapply boxes_stable; [exact Hav|].
        intros r k w Hrk. apply Hsc. by apply lookup_app_l_Some.
      * by eapply boxes_stable.
    + rewrite <- Er. f_equal. lia.
    + exists h2, hd, vs. split; [done|]. destruct H2 as (H2 & H3 & H4). split; [done|].
      rewrite <- app_assoc in H3. split; [done|].
      intros r Hr'. rewrite H4, Hlow by done. apply lookup_app_l. lia.
Qed.

End FnCallLemmas.

(** ** Properties *)
Section FnCallProps.
Context {E : ObjectEnv} (P : Program).

(** C27: the unrolled calling conventions for up to eight plain arguments are
    the general loop: whatever convention the virtual table picks for a
    function without special arguments, the call does exactly what
    [SmileUserFunction_Slow_Call] does, errors and undefined behaviour
    included. *)
Theorem fast_conventions_agree (m : Machine) (uf : UserFunctionInfo) (d : nat) (argc extra : Z)
  (f : UserFunctionCall) :
  GetUserFunctionVTableByFlags P 0 (uf_numArgs uf) = Some f ->
  f m uf d argc extra = SmileUserFunction_Slow_Call P m uf d argc extra.
Proof.
  assert (Hfast : forall n moves,
    uf_numArgs uf = n ->
    (forall cl child, copy_moves cl child moves = copy_loop cl child n 0 (Z.to_nat n)) ->
    fast_call P n moves m uf d argc extra = SmileUserFunction_Slow_Call P m uf d argc extra).
  { intros n moves Hn Hm. unfold fast_call, SmileUserFunction_Slow_Call. rewrite Hn.
    destruct (Z.eqb_spec argc n) as [->|]; [|done]. simpl.
    destruct (create_child m uf d) as [[s c]| |]; simpl; [|done..].
    destruct (get_closure s c) as [child| |]; simpl; [|done..].
    destruct (get_closure s (cur m)) as [cl| |]; simpl; [|done..].
    by rewrite Hm. }
  assert (Hid : forall r : Result Closure, Result_bind r Ok = r) by (by intros []).
  intros Hf. simpl in Hf.
  destruct (uf_numArgs uf) as [|p|p] eqn:En.
  - injection Hf as <-. by apply Hfast.
  - destruct p as [[[[p|p|]|[p|p|]|]|[[p|p|]|[p|p|]|]|]|[[[p|p|]|[p|p|]|]|[[p|p|]|[p|p|]|]|]|];
      injection Hf as <-; try done; apply Hfast; done.
  - by injection Hf as <-.
Qed.

(** C26: calling a plain user function with the right number of arguments
    always succeeds when the caller's stack holds them: the child's first
    variables are the arguments in order, its continuation is the instruction
    after the call, the caller loses the arguments and the extra slots, and no
    other closure nor the heap changes.  With any other count it throws. *)
Theorem Slow_Call_frame (m : Machine) (cl : Closure) (uf : UserFunctionInfo) (d : nat)
  (argc extra : Z) :
  call_ready P m cl uf d argc extra ->
  if argc =? uf_numArgs uf then
    exists m' i child, SmileUserFunction_Slow_Call P m uf d argc extra = Ok m'
      /\ infos (store m) !! uf_closureInfo uf = Some i
      /\ closures (store m') !! cur m' = Some child
      /\ child_of m uf d i (fun j => zget (variables cl) (stackTop cl - argc + j)) child
      /\ closures (store m') !! cur m = Some (set_stackTop (stackTop cl - (extra + argc)) cl)
      /\ (forall c', (c' < length (closures (store m)))%nat -> c' <> cur m ->
            closures (store m') !! c' = closures (store m) !! c')
      /\ segment m' = uf_byteCodeSegment uf /\ pc m' = 0 /\ heap m' = heap m
  else SmileUserFunction_Slow_Call P m uf d argc extra = Throw sym_native_method_error.
Proof.
  intros Hr. unfold SmileUserFunction_Slow_Call.
  destruct (Z.eqb_spec argc (uf_numArgs uf)) as [Hargc|]; [|done]. simpl.
  destruct (create_child_ok P m cl uf d argc extra Hr) as (s & c & child & Ec & Hch & Hcl & Hroom).
  rewrite Ec. simpl. unfold get_closure. rewrite Hch, Hcl. simpl.
  destruct Hr as [Hwf Hcur Hd Hi Hseg Hst] eqn:Er. clear Er.
  destruct (Hwf _ _ Hcur) as (_ & Htop & _).
  destruct (copy_loop_spec cl child argc 0 (Z.to_nat (uf_numArgs uf))) as (v & Ev & Hv & Hg);
    [lia..|].
  rewrite Ev. simpl.
  destruct (finish_call P m cl uf d argc extra s c child v (heap m))
    as (m' & i & Em & Hi' & H1 & H2 & H3 & H4 & H5 & H6 & H7); try done.
  exists m', i, (set_variables v child). split; [done|]. split; [done|]. split; [done|].
  split; [|done].
  destruct H2 as (A1 & A2 & A3 & A4 & A5 & A6 & A7 & A8).
  repeat (split; [done|]). intros j Hj. rewrite A8, Hg by done.
  destruct (Z.leb_spec 0 j), (Z.ltb_spec j (0 + Z.of_nat (Z.to_nat (uf_numArgs uf)))); done || lia.
Qed.

(** C29: a function with optional arguments called with an allowed number of
    arguments gets the arguments given and the declared default of every
    missing one; with fewer than [minArgs] or more than [maxArgs] it throws. *)
Theorem Optional_Call_frame (m : Machine) (cl : Closure) (uf : UserFunctionInfo) (d : nat)
  (argc extra : Z) :
  call_ready P m cl uf d argc extra ->
  uf_maxArgs uf <= uf_numArgs uf -> zlen (uf_defaults uf) = uf_numArgs uf ->
  if (uf_minArgs uf <=? argc) && (argc <=? uf_maxArgs uf) then
    exists m' i child, SmileUserFunction_Optional_Call P m uf d argc extra = Ok m'
      /\ infos (store m) !! uf_closureInfo uf = Some i
      /\ closures (store m') !! cur m' = Some child
      /\ child_of m uf d i (fun j => if j <? argc then zget (variables cl) (stackTop cl - argc + j)
                                     else zget (uf_defaults uf) j) child
      /\ closures (store m') !! cur m = Some (set_stackTop (stackTop cl - (extra + argc)) cl)
      /\ segment m' = uf_byteCodeSegment uf /\ pc m' = 0 /\ heap m' = heap m
  else SmileUserFunction_Optional_Call P m uf d argc extra = Throw sym_native_method_error.
Proof.
  intros Hr Hmax Hdef. unfold SmileUserFunction_Optional_Call. rewrite Z.gtb_ltb.
  destruct (Z.leb_spec (uf_minArgs uf) argc), (Z.ltb_spec argc (uf_minArgs uf)); try done; try lia.
  simpl.
  destruct (Z.leb_spec argc (uf_maxArgs uf)), (Z.ltb_spec (uf_maxArgs uf) argc); try done; try lia.
  destruct (create_child_ok P m cl uf d argc extra Hr) as (s & c & child & Ec & Hch & Hcl & Hroom).
  rewrite Ec. simpl. unfold get_closure. rewrite Hch, Hcl. simpl.
  pose proof Hr as [Hwf Hcur Hd Hi Hseg Hst].
  destruct (Hwf _ _ Hcur) as (_ & Htop & _).
  destruct (copy_loop_spec cl child argc 0 (Z.to_nat argc)) as (v & Ev & Hv & Hg); [lia..|].
  rewrite Ev. simpl.
  destruct (default_loop_spec uf (set_variables v child) argc (Z.to_nat (uf_numArgs uf - argc)))
    as (w & Ew & Hw & Hgw); simpl; [lia..|].
  rewrite Ew. simpl. simpl in Hw, Hgw.
  assert (Hne : c <> cur m).
  { assert (Hlt : (cur m < length (closures (store m)))%nat) by (eapply lookup_lt_Some; eauto).
    unfold create_child, Closure_CreateLocal in Ec. result_inv Ec. injection Ec as <- <-. lia. }
  assert (Hcomm : update_closure (update_closure s (cur m) (Closure_PopCount cl (extra + argc))) c
                    (set_variables w child)
                  = update_closure (update_closure s c (set_variables w child)) (cur m)
                      (Closure_PopCount cl (extra + argc))).
  { unfold update_closure, set_closures. simpl. f_equal. by apply list_insert_insert_ne. }
  change (set_variables w (set_variables v child)) with (set_variables w child).
  rewrite Hcomm.
  destruct (finish_call P m cl uf d argc extra s c child w (heap m))
    as (m' & i & Em & Hi' & B1 & B2 & B3 & B4 & B5 & B6 & B7); try done; [congruence|].
  exists m', i, (set_variables w child). split; [done|]. split; [done|]. split; [done|].
  split; [|done].
  destruct B2 as (A1 & A2 & A3 & A4 & A5 & A6 & A7 & A8).
  repeat (split; [done|]). intros j Hj. rewrite A8, Hgw, Hg by done.
  destruct (Z.leb_spec argc j), (Z.ltb_spec j (argc + Z.of_nat (Z.to_nat (uf_numArgs uf - argc)))),
    (Z.leb_spec 0 j), (Z.ltb_spec j (0 + Z.of_nat (Z.to_nat argc))), (Z.ltb_spec j argc);
    simpl; done || lia.
Qed.

(** C28: a function with a rest argument called with at least as many arguments
    as it declares gets, as its last variable, a proper list of all the
    arguments from that position on, boxed and in order; the fixed arguments
    come first, and no heap cell that existed before the call changes. *)
Theorem Rest_Call_collects (m : Machine) (cl : Closure) (uf : UserFunctionInfo) (d : nat)
  (argc extra : Z) (rest : list SmileArg) :
  call_ready P m cl uf d argc extra ->
  0 < uf_numArgs uf <= argc -> uf_minArgs uf <= argc ->
  read_args (variables cl) (stackTop cl - argc + (uf_numArgs uf - 1))
    (Z.to_nat (argc - (uf_numArgs uf - 1))) = Some rest ->
  Forall boxable rest ->
  exists m' child vals head, SmileUserFunction_Rest_Call P m uf d argc extra = Ok m'
    /\ closures (store m') !! cur m' = Some child
    /\ (forall j, 0 <= j < uf_numArgs uf - 1 ->
          zget (variables child) j = zget (variables cl) (stackTop cl - argc + j))
    /\ zget (variables child) (uf_numArgs uf - 1) = Some (SmileArg_From head)
    /\ is_list (heap m') head vals /\ Forall2 (boxes (heap m')) rest vals
    /\ (forall r, (r < length (heap m))%nat -> heap m' !! r = heap m !! r)
    /\ closures (store m') !! cur m = Some (set_stackTop (stackTop cl - (extra + argc)) cl).
Proof.
  intros Hr Hn Hmin Hread Hbox. unfold SmileUserFunction_Rest_Call.
  destruct (Z.ltb_spec argc (uf_minArgs uf)); [lia|].
  destruct (create_child_ok P m cl uf d argc extra Hr) as (s & c & child & Ec & Hch & Hcl & Hroom).
  rewrite Ec. simpl. unfold get_closure. rewrite Hch, Hcl. simpl.
  destruct (Z.ltb_spec argc (uf_numArgs uf)); [lia|].
  pose proof Hr as [Hwf Hcur Hd Hi Hseg Hst].
  destruct (Hwf _ _ Hcur) as (_ & Htop & _).
  destruct (copy_loop_spec cl child argc 0 (Z.to_nat (uf_numArgs uf - 1))) as (v & Ev & Hv & Hg);
    [lia..|].
  rewrite Ev. simpl.
  destruct (rest_loop_spec (length (heap m)) cl argc (uf_numArgs uf - 1)
              (Z.to_nat (argc - (uf_numArgs uf - 1))) rest (heap m) NullObject NullObject [] [])
    as (h' & head & vals & Erest & Hl & Hf & Hlow); try done.
  { split; [done|by left]. }
  rewrite Erest. simpl. unfold Closure_SetArgument. simpl.
  destruct (zset_total v (uf_numArgs uf - 1) (SmileArg_From head)) as [w Ew]; [lia|].
  rewrite Ew. simpl.
  change (set_variables w (set_variables v child)) with (set_variables w child).
  pose proof (zset_zlen _ _ _ _ Ew) as Hw.
  destruct (finish_call P m cl uf d argc extra s c child w h')
    as (m' & i & Em & Hi' & B1 & B2 & B3 & B4 & B5 & B6 & B7); try done; [congruence|].
  exists m', (set_variables w child), vals, head. split; [done|]. split; [done|].
  destruct B2 as (A1 & A2 & A3 & A4 & A5 & A6 & A7 & A8). rewrite B7.
  split; [|split; [|split; [done|split; [done|split; done]]]].
  - intros j Hj. rewrite A8 by lia. rewrite (zset_get_ne _ _ _ _ _ Ew) by lia. rewrite Hg.
    destruct (Z.leb_spec 0 j), (Z.ltb_spec j (0 + Z.of_nat (Z.to_nat (uf_numArgs uf - 1))));
      done || lia.
  - simpl. by apply (zset_get_eq _ _ _ _ Ew).
Qed.

(** A function that declares a typed argument next to optional ones loses
    its optional arguments: any call with fewer arguments than declared throws,
    even when the count is one its [minArgs] and [maxArgs] allow. *)
Theorem Checked_ignores_optional (m : Machine) (uf : UserFunctionInfo) (d : nat) (argc extra : Z)
  (f : UserFunctionCall) :
  uf_flags uf = USER_ARG_TYPECHECK + USER_ARG_OPTIONAL ->
  GetUserFunctionVTableByFlags P (uf_flags uf) (uf_numArgs uf) = Some f ->
  uf_minArgs uf <= argc < uf_numArgs uf ->
  f m uf d argc extra = Throw sym_native_method_error.
Proof.
  intros Hf Hv Hargc. rewrite Hf in Hv. simpl in Hv. injection Hv as <-.
  unfold SmileUserFunction_Checked_Call, SmileUserFunction_Slow_Call.
  destruct (Z.eqb_spec argc (uf_numArgs uf)); [lia|done].
Qed.

(** Checks that succeed on every argument of a range. *)
Lemma type_checks_up_ok (h : Heap) argv tc (i : Z) (count : nat) :
  type_checks_up h argv tc i count = Ok tt
  <-> forall k, i <= k < i + Z.of_nat count -> type_check h argv tc k k = Ok tt.
Proof.
  revert i. induction count as [|count IH]; intros i; simpl; [split; [lia|done]|].
  split.
  - intros H k Hk. apply Result_bind_Ok in H as ([] & H1 & H2). rewrite IH in H2.
    destruct (decide (k = i)) as [->|]; [done|]. apply H2; lia.
  - intros H. rewrite (H i) by lia. simpl. apply IH. intros k Hk. apply H; lia.
Qed.

Lemma type_checks_down_ok (h : Heap) argv tc (count : nat) :
  type_checks_down h argv tc count = Ok tt
  <-> forall k, 0 <= k < Z.of_nat count -> type_check h argv tc k k = Ok tt.
Proof.
  induction count as [|count IH]; simpl; [split; [lia|done]|]. split.
  - intros H k Hk. apply Result_bind_Ok in H as ([] & H1 & H2).
    destruct (decide (k = Z.of_nat count)) as [->|]; [done|]. rewrite IH in H2. apply H2; lia.
  - intros H. rewrite (H (Z.of_nat count)) by lia. simpl. apply IH. intros k Hk. apply H; lia.
Qed.

Lemma type_checks_last_ok (h : Heap) argv tc (i j : Z) (count : nat) :
  type_checks_last h argv tc i j count = Ok tt
  <-> forall k, i <= k < i + Z.of_nat count -> type_check h argv tc k j = Ok tt.
Proof.
  revert i. induction count as [|count IH]; intros i; simpl; [split; [lia|done]|].
  split.
  - intros H k Hk. apply Result_bind_Ok in H as ([] & H1 & H2). rewrite IH in H2.
    destruct (decide (k = i)) as [->|]; [done|]. apply H2; lia.
  - intros H. rewrite (H i) by lia. simpl. apply IH. intros k Hk. apply H; lia.
Qed.

(** The checks that are made: entry [k] for argument [k], the last entry from there on. *)
Lemma PerformTypeChecks_ok (h : Heap) (argc : Z) (argv : list SmileArg)
  (numTypeChecks : Z) (typeChecks : list Z) :
  0 < numTypeChecks -> 0 <= argc ->
  PerformTypeChecks h argc argv numTypeChecks typeChecks = Ok tt
  <-> forall k, 0 <= k < argc ->
        type_check h argv typeChecks k (Z.min k (numTypeChecks - 1)) = Ok tt.
Proof.
  intros Hn Ha. unfold PerformTypeChecks. rewrite Z.gtb_ltb.
  destruct (Z.ltb_spec numTypeChecks argc).
  - split.
    + intros H0 k Hk. apply Result_bind_Ok in H0 as ([] & H1 & H2).
      rewrite type_checks_up_ok in H1. rewrite type_checks_last_ok in H2.
      destruct (decide (k < numTypeChecks)).
      * rewrite Z.min_l by lia. apply H1. lia.
      * rewrite Z.min_r by lia. apply H2. lia.
    + intros H0. assert (type_checks_up h argv typeChecks 0 (Z.to_nat numTypeChecks) = Ok tt) as ->.
      { apply type_checks_up_ok. intros k Hk. specialize (H0 k ltac:(lia)).
        by rewrite Z.min_l in H0 by lia. }
      simpl. apply type_checks_last_ok. intros k Hk. specialize (H0 k ltac:(lia)).
      by rewrite Z.min_r in H0 by lia.
  - destruct (Z.leb_spec argc 7).
    + rewrite type_checks_down_ok. split; intros H2 k Hk; specialize (H2 k ltac:(lia));
        by rewrite Z.min_l in * by lia.
    + rewrite type_checks_up_ok. split; intros H2 k Hk; specialize (H2 k ltac:(lia));
        by rewrite Z.min_l in * by lia.
Qed.

(** A check that passes or throws. *)
Definition checked (r : Result unit) : Prop := r = Ok tt \/ r = Throw sym_native_method_error.

Lemma checked_bind (r : Result unit) (k : unit -> Result unit) :
  checked r -> checked (k tt) -> checked (Result_bind r k).
Proof. intros [-> | ->] H; [exact H|by right]. Qed.

Lemma type_checks_up_checked (h : Heap) argv tc (i : Z) (count : nat) :
  (forall k, i <= k < i + Z.of_nat count -> checked (type_check h argv tc k k)) ->
  checked (type_checks_up h argv tc i count).
Proof.
  revert i. induction count as [|count IH]; intros i H; simpl; [by left|].
  apply checked_bind; [apply H; lia|]. apply IH. intros k Hk. apply H. lia.
Qed.

Lemma type_checks_down_checked (h : Heap) argv tc (count : nat) :
  (forall k, 0 <= k < Z.of_nat count -> checked (type_check h argv tc k k)) ->
  checked (type_checks_down h argv tc count).
Proof.
  induction count as [|count IH]; intros H; simpl; [by left|].
  apply checked_bind; [apply H; lia|]. apply IH. intros k Hk. apply H. lia.
Qed.

Lemma type_checks_last_checked (h : Heap) argv tc (i j : Z) (count : nat) :
  (forall k, i <= k < i + Z.of_nat count -> checked (type_check h argv tc k j)) ->
  checked (type_checks_last h argv tc i j count).
Proof.
  revert i. induction count as [|count IH]; intros i H; simpl; [by left|].
  apply checked_bind; [apply H; lia|]. apply IH. intros k Hk. apply H. lia.
Qed.

Lemma PerformTypeChecks_checked (h : Heap) (argc : Z) (argv : list SmileArg)
  (numTypeChecks : Z) (typeChecks : list Z) :
  0 < numTypeChecks -> 0 <= argc ->
  (forall k, 0 <= k < argc -> checked (type_check h argv typeChecks k (Z.min k (numTypeChecks - 1)))) ->
  checked (PerformTypeChecks h argc argv numTypeChecks typeChecks).
Proof.
  intros Hn Ha H. unfold PerformTypeChecks. rewrite Z.gtb_ltb.
  assert (Hlow : forall k, 0 <= k < argc -> k < numTypeChecks -> checked (type_check h argv typeChecks k k)).
  { intros k Hk Hlt. specialize (H k Hk). by rewrite Z.min_l in H by lia. }
  destruct (Z.ltb_spec numTypeChecks argc); [|destruct (Z.leb_spec argc 7)].
  - apply checked_bind.
    + apply type_checks_up_checked. intros k Hk. apply Hlow; lia.
    + apply type_checks_last_checked. intros k Hk. specialize (H k ltac:(lia)).
      by rewrite Z.min_r in H by lia.
  - apply type_checks_down_checked. intros k Hk. apply Hlow; lia.
  - apply type_checks_up_checked. intros k Hk. apply Hlow; lia.
Qed.

(** [PerformTypeChecks], with its unrolled switch and its two loops, accepts
    exactly the calls in which every argument passes its own check, the last
    check standing in for all further arguments, and throws on all others whose
    checks can be evaluated. *)
Theorem PerformTypeChecks_spec (h : Heap) (argc : Z) (argv : list SmileArg)
  (numTypeChecks : Z) (typeChecks : list Z) :
  0 < numTypeChecks -> 0 <= argc ->
  let check k := type_check h argv typeChecks k (Z.min k (numTypeChecks - 1)) in
  let checks := PerformTypeChecks h argc argv numTypeChecks typeChecks in
  (checks = Ok tt <-> forall k, 0 <= k < argc -> check k = Ok tt)
  /\ ((forall k, 0 <= k < argc -> checked (check k)) -> checked checks).
Proof. split; [by apply PerformTypeChecks_ok|by apply PerformTypeChecks_checked]. Qed.

(** What a set of flags asks of the argument count. *)
Definition flags_accept (flags minArgs maxArgs argc : Z) : bool :=
  (negb (Z.testbit flags 0) || (minArgs <=? argc))
  && (negb (Z.testbit flags 1) || (argc <=? maxArgs))
  && (negb (Z.testbit flags 2) || (argc =? minArgs)).

(** The flag clean-up of [SmileFunction_CreateExternalFunction] always ends in
    a calling convention the virtual table supports, for every combination of
    minimum, maximum, types and state machine, and that convention accepts the
    same argument counts as the flags that were asked for. *)
Theorem CreateExternalFunction_flags_spec (flags minArgs maxArgs numTypes argc : Z) :
  0 <= flags < 32 -> Z.testbit flags 2 = false -> 0 <= argc ->
  exists f, GetExternalFunctionVTableByFlags
              (CreateExternalFunction_flags flags minArgs maxArgs numTypes) = Some f
    /\ flags_accept (CreateExternalFunction_flags flags minArgs maxArgs numTypes)
         minArgs maxArgs argc
       = flags_accept flags minArgs maxArgs argc.
Proof.
  intros Hf H2 Ha.
  assert (Hcases : In flags (map Z.of_nat (seq 0 32))).
  { apply in_map_iff. exists (Z.to_nat flags). split; [lia|]. apply in_seq. lia. }
  unfold CreateExternalFunction_flags, flags_accept.
  destruct (Z.eqb_spec minArgs 0) as [->|Hmin], (Z.eqb_spec numTypes 0) as [->|Hnt].
  all: destruct (Z.eqb_spec minArgs maxArgs) as [<-|Hmm] || destruct (Z.eqb_spec 0 maxArgs) as [<-|Hmm].
  all: simpl in Hcases; repeat (destruct Hcases as [<-|Hcases]; [|]); try done.
  all: simpl in H2 |- *; try discriminate H2; (eexists; split; [reflexivity|]); simpl; try done.
  all: rewrite ?andb_true_r; try done.
  all: repeat match goal with
              | |- context [?x <=? ?y] => destruct (Z.leb_spec x y)
              | |- context [?x =? ?y] => destruct (Z.eqb_spec x y)
              end; simpl; done || lia.
Qed.

End FnCallProps.

(** ** Witnesses *)
Section Witnesses.
#[local] Existing Instance example_env.

Definition example_segment : ByteCodeSegment :=
  mkSegment 0 [mkByteCode Op_LdArg0 0 0; mkByteCode Op_Ret 0 0] 2 2.

Definition example_program (uf : UserFunctionInfo) : Program :=
  mkProgram [example_segment] [mkTables [] [] [O] []] [uf] [].

(** One argument, closure shape 1, code in segment 0. *)
Definition example_fn (flags minArgs maxArgs : Z) : UserFunctionInfo :=
  mkUserFunctionInfo flags 1 minArgs maxArgs [SmileArg_From NullObject] 1 0.

Definition example_caller : Closure :=
  mkClosure (Some 0%nat) (Some 0%nat) (Some 1%nat) None None 0 1 4
    [SmileArg_zero; SmileArg_zero; mkArg (Ref 0) 0; SmileUnboxed_From KInteger64 7] None.

Definition example_machine : Machine :=
  mkMachine (update_closure example_store 1 example_caller) [HUserFunction 0 1] 1 0 5.

Lemma example_ready (flags minArgs maxArgs : Z) :
  call_ready (example_program (example_fn flags minArgs maxArgs)) example_machine example_caller
    (example_fn flags minArgs maxArgs) 1 1 1.
Proof.
  split; simpl; try done; try lia.
  - intros [|[|c]] cl H; simpl in H; [| |done]; injection H as <-;
      unfold Closure_wf, zlen; simpl; repeat split; try lia; intros k Hk; try discriminate;
      injection Hk as <-; lia.
  - eexists. split; [reflexivity|]. simpl. lia.
  - eauto.
Qed.

Lemma fast_conventions_agree_witness :
  SmileUserFunction_Fast1_Call (example_program (example_fn 0 1 1)) example_machine
    (example_fn 0 1 1) 1 1 1
  = SmileUserFunction_Slow_Call (example_program (example_fn 0 1 1)) example_machine
      (example_fn 0 1 1) 1 1 1.
Proof. apply fast_conventions_agree. reflexivity. Defined.

Lemma Slow_Call_frame_witness :
  exists m' child,
    SmileUserFunction_Slow_Call (example_program (example_fn 0 1 1)) example_machine
      (example_fn 0 1 1) 1 1 1 = Ok m'
    /\ closures (store m') !! cur m' = Some child
    /\ zget (variables child) 0 = Some (SmileUnboxed_From KInteger64 7).
Proof.
  destruct (Slow_Call_frame _ _ _ _ _ _ _ (example_ready 0 1 1))
    as (m' & i & child & H1 & _ & H3 & H4 & _).
  exists m', child. split; [exact H1|]. split; [exact H3|].
  destruct H4 as (_ & _ & _ & _ & _ & _ & _ & H). rewrite H; [reflexivity|simpl; lia].
Defined.

Lemma Optional_Call_frame_witness :
  exists m', SmileUserFunction_Optional_Call (example_program (example_fn 4 0 1)) example_machine
               (example_fn 4 0 1) 1 1 1 = Ok m'.
Proof.
  destruct (Optional_Call_frame _ _ _ _ _ _ _ (example_ready 4 0 1)) as (m' & _ & _ & H & _);
    [simpl; lia|reflexivity|].
  exists m'. exact H.
Defined.

Lemma Rest_Call_collects_witness :
  exists m' child vals head,
    SmileUserFunction_Rest_Call (example_program (example_fn 1 0 32767)) example_machine
      (example_fn 1 0 32767) 1 1 1 = Ok m'
    /\ zget (variables child) 0 = Some (SmileArg_From head)
    /\ is_list (heap m') head vals
    /\ Forall2 (boxes (heap m')) [SmileUnboxed_From KInteger64 7] vals.
Proof.
  destruct (Rest_Call_collects _ _ _ _ _ _ _ [SmileUnboxed_From KInteger64 7]
              (example_ready 1 0 32767)) as (m' & child & vals & head & H1 & _ & _ & H4 & H5 & H6 & _).
  - simpl. lia.
  - simpl. lia.
  - reflexivity.
  - constructor; [|constructor]. split; discriminate.
  - exists m', child, vals, head. auto.
Defined.

Lemma Checked_ignores_optional_witness :
  SmileUserFunction_Checked_Call (example_program (example_fn 6 0 1)) example_machine
    (example_fn 6 0 1) 1 0 1 = Throw sym_native_method_error.
Proof.
  apply (Checked_ignores_optional (example_program (example_fn 6 0 1)) example_machine
           (example_fn 6 0 1) 1 0 1 (SmileUserFunction_Checked_Call (example_program (example_fn 6 0 1))));
    [reflexivity|reflexivity|simpl; lia].
Defined.

Lemma PerformTypeChecks_spec_witness :
  let h := [HString [104]] in
  PerformTypeChecks h 2 [mkArg (Ref 0) 0; mkArg (Ref 0) 0] 1 [0xFF; 0x25] = Ok tt
  <-> forall k, 0 <= k < 2 ->
        type_check h [mkArg (Ref 0) 0; mkArg (Ref 0) 0] [0xFF; 0x25] k (Z.min k 0) = Ok tt.
Proof. intros h. apply (PerformTypeChecks_spec h 2 _ 1 [0xFF; 0x25]); lia. Defined.

Lemma CreateExternalFunction_flags_spec_witness :
  exists f, GetExternalFunctionVTableByFlags (CreateExternalFunction_flags 3 2 2 0) = Some f
    /\ flags_accept (CreateExternalFunction_flags 3 2 2 0) 2 2 2 = flags_accept 3 2 2 2.
Proof. apply CreateExternalFunction_flags_spec; [lia|reflexivity|lia]. Defined.

End Witnesses.
