(* ===== verification/Integer64.v ===== *)
(** * Integer64: the methods of 64-bit integers

    The external functions of
    [src/smiletypes/numeric/smileinteger64_base.generated.c], one definition per
    C function, over the algorithms of [IntMath], and the table
    [SmileInteger64_Setup] registers them by.  A function takes the array of its
    arguments ([argc] is its length) and answers a result, an exception, or
    [Crash] where it reads past its arguments or shifts by the width or more,
    which C leaves undefined.  The bodies of the conversions to text, to the
    decimal and floating kinds, of hashing, ranges, random numbers and parsing
    call other parts of the program and are not modelled; the table holds their
    registrations without a function. *)

From S2P Require Import Prelude IntMath ByteCode Object Machine FnCall.
From Stdlib Require Import String.
Import Operand.

Section Integer64.
Context {E : ObjectEnv}.

(** [argv[i].unboxed.i64], and the same cast to [UInt64]. *)
Definition i64 (a : SmileArg) : Z := get_int64 (unboxed a).
Definition u64 (a : SmileArg) : Z := UInt_ 64 (i64 a).

Definition SmileUnboxedInteger64_From (value : Z) : SmileArg := SmileUnboxed_From KInteger64 value.
Definition SmileUnboxedBool_From (value : bool) : SmileArg :=
  SmileUnboxed_From KBool (if value then 1 else 0).
Definition SmileUnboxedUni_FromSafeInt64 (code : Z) : SmileArg :=
  SmileUnboxed_From KUni (if (code <? 0) || (code >=? 0x110000) then 0xFFFD else code).

(** [SMILE_KIND(arg.obj) == SMILE_KIND_UNBOXED_INTEGER64]: only the singleton has that kind. *)
Definition is_int64 (a : SmileArg) : bool := bool_decide (obj a = UnboxedInstance KInteger64).

Notation Native := (list SmileArg -> Result SmileArg) (only parsing).

(** Functions that read one, two or three arguments. *)
Definition unary (f : SmileArg -> Result SmileArg) : Native :=
  fun argv => match argv with a0 :: _ => f a0 | _ => Crash end.
Definition binary (f : SmileArg -> SmileArg -> Result SmileArg) : Native :=
  fun argv => match argv with a0 :: a1 :: _ => f a0 a1 | _ => Crash end.
Definition ternary (f : SmileArg -> SmileArg -> SmileArg -> Result SmileArg) : Native :=
  fun argv => match argv with a0 :: a1 :: a2 :: _ => f a0 a1 a2 | _ => Crash end.

(** ** The shape of the functions with any number of arguments

    A step combines the accumulator [x] with the next argument: it goes on with
    a new accumulator or returns from the function. *)
Definition Step : Type := Z -> SmileArg -> Z + Result SmileArg.

Definition step_bind (r : Z + Result SmileArg) (k : Z -> Result SmileArg) : Result SmileArg :=
  match r with inl x => k x | inr r => r end.

Fixpoint args_loop (step : Step) (x : Z) (argv : list SmileArg) : Result SmileArg :=
  match argv with
  | [] => Ok (SmileUnboxedInteger64_From x)
  | a :: argv => step_bind (step x a) (fun x => args_loop step x argv)
  end.

(** [switch (argc)]: the case of one argument if the function has one, the
    unrolled cases of two to four, and the loop. *)
Definition switch_argc (one : option (SmileArg -> SmileArg)) (get : SmileArg -> Z) (step : Step)
  : Native :=
  fun argv =>
    match argv, one with
    | [], _ => Crash
    | [a0], Some f => Ok (f a0)
    | [a0; a1], _ =>
        step_bind (step (get a0) a1) (fun x => Ok (SmileUnboxedInteger64_From x))
    | [a0; a1; a2], _ =>
        step_bind (step (get a0) a1) (fun x =>
        step_bind (step x a2) (fun x => Ok (SmileUnboxedInteger64_From x)))
    | [a0; a1; a2; a3], _ =>
        step_bind (step (get a0) a1) (fun x =>
        step_bind (step x a2) (fun x =>
        step_bind (step x a3) (fun x => Ok (SmileUnboxedInteger64_From x))))
    | a0 :: argv, _ => args_loop step (get a0) argv
    end.

(** A step that never returns early, on signed and on unsigned words. *)
Definition signed (op : Z -> Z -> Z) : Step := fun x a => inl (Int_ 64 (op x (i64 a))).
Definition unsigned (op : Z -> Z -> Z) : Step := fun x a => inl (UInt_ 64 (op x (u64 a))).

(** ** Conversions *)

Definition ToBool : Native := unary (fun a =>
  if is_int64 a then Ok (SmileUnboxedBool_From (negb (i64 a =? 0)))
  else Ok (SmileUnboxedBool_From true)).

Definition ToInt : Native := unary (fun a =>
  if is_int64 a then Ok a else Ok (SmileUnboxedInteger64_From 0)).

Definition ToInt64 : Native := unary Ok.
Definition SignExtend64 : Native := unary Ok.
Definition ZeroExtend64 : Native := unary Ok.

Definition ToInt32 : Native := unary (fun a => Ok (SmileUnboxed_From KInteger32 (wrapS 32 (i64 a)))).
Definition SignExtend32 : Native := unary (fun a => Ok (SmileUnboxed_From KInteger32 (wrapS 32 (i64 a)))).
Definition ZeroExtend32 : Native := unary (fun a => Ok (SmileUnboxed_From KInteger32 (wrapS 32 (i64 a)))).
Definition ToInt16 : Native := unary (fun a => Ok (SmileUnboxed_From KInteger16 (wrapS 16 (i64 a)))).
Definition SignExtend16 : Native := unary (fun a => Ok (SmileUnboxed_From KInteger16 (wrapS 16 (i64 a)))).
Definition ZeroExtend16 : Native := unary (fun a => Ok (SmileUnboxed_From KInteger16 (wrapS 16 (i64 a)))).
Definition ToByte : Native := unary (fun a => Ok (SmileUnboxed_From KByte (wrapU 8 (i64 a)))).
Definition SignExtend8 : Native := unary (fun a => Ok (SmileUnboxed_From KByte (wrapU 8 (i64 a)))).
Definition ZeroExtend8 : Native := unary (fun a => Ok (SmileUnboxed_From KByte (wrapU 8 (i64 a)))).
Definition ToChar : Native := unary (fun a => Ok (SmileUnboxed_From KChar (wrapU 8 (i64 a)))).
Definition ToUni : Native := unary (fun a => Ok (SmileUnboxedUni_FromSafeInt64 (i64 a))).

(** ** Arithmetic *)

Definition Plus : Native := switch_argc (Some (fun a => a)) i64 (signed Z.add).
Definition Minus : Native :=
  switch_argc (Some (fun a => SmileUnboxedInteger64_From (Int_ 64 (- i64 a)))) i64 (signed Z.sub).
Definition Star : Native := switch_argc (Some (fun a => a)) i64 (signed Z.mul).
Definition UStar : Native := switch_argc (Some (fun a => a)) u64 (unsigned Z.mul).

Definition FMA : Native := ternary (fun x y z =>
  Ok (SmileUnboxedInteger64_From (Int_ 64 (i64 x + Int_ 64 (i64 y * i64 z))))).
Definition UFMA : Native := ternary (fun x y z =>
  Ok (SmileUnboxedInteger64_From (Int_ 64 (UInt_ 64 (u64 x + UInt_ 64 (u64 y * u64 z)))))).

(** [MathInfo]: what a function does about an undefined operation. *)
Record MathInfo := mkMathInfo { isLoud : bool }.
Definition _loudMath : MathInfo := mkMathInfo true.
Definition _quietMath : MathInfo := mkMathInfo false.

Definition DivideByZero (param : MathInfo) : Result SmileArg :=
  if isLoud param then Throw sym_native_method_error else Ok (SmileUnboxedInteger64_From 0).

(** Test the divisor, then divide. *)
Definition divide (param : MathInfo) (get : SmileArg -> Z) (div : Z -> Z -> Z) : Step :=
  fun x a =>
    let y := get a in
    if y =? 0 then inr (DivideByZero param) else inl (div x y).

Definition Slash (param : MathInfo) : Native :=
  switch_argc None i64 (divide param i64 (MathematiciansDiv 64)).
Definition USlash (param : MathInfo) : Native := switch_argc None u64 (divide param u64 Z.div).
Definition Div (param : MathInfo) : Native := switch_argc None i64 (divide param i64 (CDiv 64)).

Definition Mod (param : MathInfo) : Native := binary (fun x y =>
  if i64 y =? 0 then DivideByZero param
  else Ok (SmileUnboxedInteger64_From (MathematiciansModulus 64 (i64 x) (i64 y)))).
Definition UMod (param : MathInfo) : Native := binary (fun x y =>
  if u64 y =? 0 then DivideByZero param
  else Ok (SmileUnboxedInteger64_From (u64 x mod u64 y))).
Definition Rem (param : MathInfo) : Native := binary (fun x y =>
  if i64 y =? 0 then DivideByZero param
  else Ok (SmileUnboxedInteger64_From (MathematiciansRemainder 64 (i64 x) (i64 y)))).

(** ** Arithmetic extensions *)

Definition Sign : Native := unary (fun a =>
  Ok (if i64 a =? 0 then SmileUnboxedInteger64_From 0
      else if i64 a >? 0 then SmileUnboxedInteger64_From 1 else SmileUnboxedInteger64_From (-1))).

Definition Abs : Native := unary (fun a =>
  Ok (if i64 a <? 0 then SmileUnboxedInteger64_From (Int_ 64 (- i64 a)) else a)).

Definition clip (get : SmileArg -> Z) : Native := ternary (fun a0 a1 a2 =>
  Ok (if get a0 >? get a2 then (if get a2 <? get a1 then a1 else a2)
      else if get a0 <? get a1 then a1 else a0)).
Definition Clip : Native := clip i64.
Definition UClip : Native := clip u64.

Definition Ramp : Native := unary (fun a =>
  Ok (if i64 a >=? 0 then a else SmileUnboxedInteger64_From 0)).
Definition Heaviside : Native := unary (fun a =>
  Ok (if i64 a <=? 0 then SmileUnboxedInteger64_From 0 else SmileUnboxedInteger64_From 1)).
Definition RectTri : Native := unary (fun a =>
  let value := i64 a in
  let value := if value <? 0 then Int_ 64 (- value) else value in
  Ok (if value >? 0 then SmileUnboxedInteger64_From 0 else SmileUnboxedInteger64_From 1)).

(** Keep the argument [y] if it beats the accumulator. *)
Definition choose (get : SmileArg -> Z) (better : Z -> Z -> bool) : Step :=
  fun x a => let y := get a in inl (if better y x then y else x).

Definition Min : Native := switch_argc (Some (fun a => a)) i64 (choose i64 Z.ltb).
Definition UMin : Native := switch_argc (Some (fun a => a)) u64 (choose u64 Z.ltb).
Definition Max : Native := switch_argc (Some (fun a => a)) i64 (choose i64 Z.gtb).
Definition UMax : Native := switch_argc (Some (fun a => a)) u64 (choose u64 Z.gtb).

Definition Power : Native :=
  switch_argc None i64 (fun x a =>
    match IntPower 64 x (i64 a) with Some x => inl x | None => inr Crash end).

Definition Sqrt (param : MathInfo) : Native := unary (fun a =>
  if i64 a <? 0 then
    if isLoud param then Throw sym_native_method_error else Ok (SmileUnboxedInteger64_From 0)
  else
    let? root := IntSqrt 64 (UInt_ 64 (i64 a)) in
    Ok (SmileUnboxedInteger64_From root)).

Definition Sqr : Native := unary (fun a =>
  Ok (SmileUnboxedInteger64_From (Int_ 64 (i64 a * i64 a)))).
Definition Cube : Native := unary (fun a =>
  Ok (SmileUnboxedInteger64_From (Int_ 64 (Int_ 64 (i64 a * i64 a) * i64 a)))).

Definition Pow2Q : Native := unary (fun a =>
  let value := i64 a in
  Ok (SmileUnboxedBool_From ((value >? 0) && (Z.land value (Int_ 64 (value - 1)) =? 0)))).

Definition NextPow2 : Native := unary (fun a =>
  let value := i64 a in
  if value <? 0 then Ok (SmileUnboxedInteger64_From 0)
  else if value =? 0 then Ok (SmileUnboxedInteger64_From 1)
  else Ok (SmileUnboxedInteger64_From (RoundUpPow2 64 (UInt_ 64 value)))).

Definition IntLg (param : MathInfo) : Native := unary (fun a =>
  let value := i64 a in
  if value <=? 0 then
    if isLoud param then Throw sym_native_method_error else Ok (SmileUnboxedInteger64_From 0)
  else Ok (SmileUnboxedInteger64_From (Lg 64 (UInt_ 64 value)))).

Definition Half : Native := unary (fun a => Ok (SmileUnboxedInteger64_From (Z.shiftr (i64 a) 1))).
Definition UHalf : Native := unary (fun a => Ok (SmileUnboxedInteger64_From (Z.shiftr (u64 a) 1))).
Definition Double : Native := unary (fun a =>
  Ok (SmileUnboxedInteger64_From (Int_ 64 (Z.shiftl (i64 a) 1)))).

(** ** Bits *)

Definition BitAnd : Native := switch_argc (Some (fun a => a)) u64 (unsigned Z.land).
Definition BitOr : Native := switch_argc (Some (fun a => a)) u64 (unsigned Z.lor).
Definition BitXor : Native := switch_argc (Some (fun a => a)) u64 (unsigned Z.lxor).
Definition BitNot : Native := unary (fun a => Ok (SmileUnboxedInteger64_From (UNot 64 (u64 a)))).

(** A shift, undefined when the count is negative or not below the width. *)
Definition shift (f : Z -> Z -> Z) (x y : Z) : option Z :=
  if (0 <=? y) && (y <? 64) then Some (f x y) else None.

Definition LogicalShiftLeft : Native := binary (fun a0 a1 =>
  let? r := shift Z.shiftl (u64 a0) (u64 a1) in Ok (SmileUnboxedInteger64_From (UInt_ 64 r))).
Definition LogicalShiftRight : Native := binary (fun a0 a1 =>
  let? r := shift Z.shiftr (u64 a0) (u64 a1) in Ok (SmileUnboxedInteger64_From r)).
Definition ArithmeticShiftLeft : Native := binary (fun a0 a1 =>
  let? r := shift Z.shiftl (i64 a0) (i64 a1) in Ok (SmileUnboxedInteger64_From (Int_ 64 r))).
Definition ArithmeticShiftRight : Native := binary (fun a0 a1 =>
  let? r := shift Z.shiftr (i64 a0) (i64 a1) in Ok (SmileUnboxedInteger64_From r)).

(** [Smile_RotateLeft64], [Smile_RotateRight64]: two shifts, the second by [64 - m]. *)
Definition Smile_RotateLeft64 (n m : Z) : option Z :=
  l ← shift Z.shiftl n m;
  r ← shift Z.shiftr n (UInt_ 64 (64 - m));
  Some (Z.lor (UInt_ 64 l) r).
Definition Smile_RotateRight64 (n m : Z) : option Z :=
  r ← shift Z.shiftr n m;
  l ← shift Z.shiftl n (UInt_ 64 (64 - m));
  Some (Z.lor r (UInt_ 64 l)).

Definition RotateLeft : Native := binary (fun a0 a1 =>
  let? r := Smile_RotateLeft64 (u64 a0) (u64 a1) in Ok (SmileUnboxedInteger64_From r)).
Definition RotateRight : Native := binary (fun a0 a1 =>
  let? r := Smile_RotateRight64 (u64 a0) (u64 a1) in Ok (SmileUnboxedInteger64_From r)).

(** A function of the word as an unsigned number. *)
Definition on_word (f : Z -> Z) : Native := unary (fun a => Ok (SmileUnboxedInteger64_From (f (u64 a)))).

Definition CountOnes : Native := on_word (CountBitsSet 64).
Definition CountZeros : Native := on_word (fun value => CountBitsSet 64 (UNot 64 value)).
Definition Parity : Native := on_word (ParityOf 64).
Definition ReverseBits : Native := on_word (ComputeReverseBits 64).
Definition ReverseBytes : Native := on_word (SwapBytes 64).
Definition CountRightZeros : Native := on_word (ComputeCountOfRightZeros 64).
Definition CountRightOnes : Native :=
  on_word (fun value => ComputeCountOfRightZeros 64 (UNot 64 value)).
Definition CountLeftZeros : Native :=
  on_word (fun value => ComputeCountOfRightZeros 64 (ComputeReverseBits 64 value)).
Definition CountLeftOnes : Native :=
  on_word (fun value => ComputeCountOfRightZeros 64 (UNot 64 (ComputeReverseBits 64 value))).

(** ** Number theory *)

Definition Gcd : Native := binary (fun a0 a1 =>
  if (i64 a0 <=? 0) || (i64 a1 <=? 0) then Ok (SmileUnboxedInteger64_From 0)
  else
    let? gcd := CalculateBinaryGcd 64 (u64 a0) (u64 a1) in
    Ok (SmileUnboxedInteger64_From gcd)).

Definition IsCoprime : Native := binary (fun a0 a1 =>
  if (i64 a0 <=? 0) || (i64 a1 <=? 0) then Ok (SmileUnboxedBool_From false)
  else
    let? gcd := CalculateBinaryGcd 64 (u64 a0) (u64 a1) in
    Ok (SmileUnboxedBool_From (gcd =? 1))).

Definition Lcm : Native := binary (fun a0 a1 =>
  if (i64 a0 <=? 0) || (i64 a1 <=? 0) then Ok (SmileUnboxedInteger64_From 0)
  else
    let? gcd := CalculateBinaryGcd 64 (u64 a0) (u64 a1) in
    Ok (SmileUnboxedInteger64_From (Int_ 64 (UInt_ 64 (u64 a0 / gcd * u64 a1))))).

(** ** Comparisons *)

Definition Eq : Native := binary (fun a0 a1 =>
  Ok (SmileUnboxedBool_From (is_int64 a1 && (i64 a0 =? i64 a1)))).
Definition Ne : Native := binary (fun a0 a1 =>
  Ok (SmileUnboxedBool_From (negb (is_int64 a1) || negb (i64 a0 =? i64 a1)))).

Definition compared (get : SmileArg -> Z) (test : Z -> Z -> bool) : Native := binary (fun a0 a1 =>
  Ok (SmileUnboxedBool_From (test (get a0) (get a1)))).

Definition Lt : Native := compared i64 Z.ltb.
Definition Gt : Native := compared i64 Z.gtb.
Definition Le : Native := compared i64 Z.leb.
Definition Ge : Native := compared i64 Z.geb.
Definition ULt : Native := compared u64 Z.ltb.
Definition UGt : Native := compared u64 Z.gtb.
Definition ULe : Native := compared u64 Z.leb.
Definition UGe : Native := compared u64 Z.geb.

Definition order (get : SmileArg -> Z) : Native := binary (fun a0 a1 =>
  let x := get a0 in
  let y := get a1 in
  Ok (if x =? y then SmileUnboxedInteger64_From 0
      else if x <? y then SmileUnboxedInteger64_From (-1) else SmileUnboxedInteger64_From 1)).
Definition Compare : Native := order i64.
Definition UCompare : Native := order u64.

Inductive Test :=
  | ZERO_TEST | ONE_TEST | NONZERO_TEST | POS_TEST | NONPOS_TEST | NEG_TEST | NONNEG_TEST
  | ODD_TEST | EVEN_TEST | MAX_TEST | MIN_TEST | UMAX_TEST | UMIN_TEST.

Definition ValueTest (param : Test) : Native := unary (fun a =>
  let value := i64 a in
  Ok (SmileUnboxedBool_From
    match param with
    | ZERO_TEST => value =? 0
    | ONE_TEST => value =? 1
    | NONZERO_TEST => negb (value =? 0)
    | POS_TEST => value >? 0
    | NONPOS_TEST => value <=? 0
    | NEG_TEST => value <? 0
    | NONNEG_TEST => value >=? 0
    | ODD_TEST => negb (Z.land value 1 =? 0)
    | EVEN_TEST => Z.land value 1 =? 0
    | MAX_TEST => value =? IntMax 64
    | MIN_TEST => value =? IntMin 64
    | UMAX_TEST => UInt_ 64 value =? 2 ^ 64 - 1
    | UMIN_TEST => value =? 0
    end)).

(** ** Registration *)

(** Pairs of a mask and a kind, one per argument; [_integer64ComparisonChecks]
    lets the second argument be anything. *)
Definition SMILE_KIND_MASK : Z := 0xFF.
Definition _integer64Checks : list Z :=
  List.concat (repeat [SMILE_KIND_MASK; ScalarKind_value KInteger64] 8).
Definition _integer64ComparisonChecks : list Z :=
  [SMILE_KIND_MASK; ScalarKind_value KInteger64; 0; 0].

(** What a method is registered with; no function stands for one whose body is
    not modelled, but whose registration is. *)
Record NativeInfo := mkNative {
  n_name : string;
  n_function : option (list SmileArg -> Result SmileArg);
  n_argCheckFlags : Z; n_minArgs : Z; n_maxArgs : Z; n_numArgsToTypeCheck : Z;
  n_argTypeChecks : list Z
}.

#[local] Notation CHECK_EXACT_TYPES := (Z.lor ARG_CHECK_EXACT ARG_CHECK_TYPES).
#[local] Notation CHECK_MIN_TYPES := (Z.lor ARG_CHECK_MIN ARG_CHECK_TYPES).
#[local] Open Scope string_scope.

(** [SmileInteger64_Setup], its synonyms next to the functions they rename. *)
Definition SmileInteger64_Setup : list NativeInfo :=
  [
   mkNative "bool" (Some ToBool) ARG_CHECK_EXACT 1 1 0 [];
   mkNative "int" (Some ToInt) ARG_CHECK_EXACT 1 1 0 [];
   mkNative "string" None ARG_CHECK_EXACT 1 1 0 [];
   mkNative "hash" None ARG_CHECK_EXACT 1 1 0 [];
   mkNative "int64" (Some ToInt64) CHECK_EXACT_TYPES 1 1 1 _integer64Checks;
   mkNative "int32" (Some ToInt32) CHECK_EXACT_TYPES 1 1 1 _integer64Checks;
   mkNative "int16" (Some ToInt16) CHECK_EXACT_TYPES 1 1 1 _integer64Checks;
   mkNative "byte" (Some ToByte) CHECK_EXACT_TYPES 1 1 1 _integer64Checks;
   mkNative "signx64" (Some SignExtend64) CHECK_EXACT_TYPES 1 1 1 _integer64Checks;
   mkNative "signx32" (Some SignExtend32) CHECK_EXACT_TYPES 1 1 1 _integer64Checks;
   mkNative "signx16" (Some SignExtend16) CHECK_EXACT_TYPES 1 1 1 _integer64Checks;
   mkNative "signx8" (Some SignExtend8) CHECK_EXACT_TYPES 1 1 1 _integer64Checks;
   mkNative "zerox64" (Some ZeroExtend64) CHECK_EXACT_TYPES 1 1 1 _integer64Checks;
   mkNative "zerox32" (Some ZeroExtend32) CHECK_EXACT_TYPES 1 1 1 _integer64Checks;
   mkNative "zerox16" (Some ZeroExtend16) CHECK_EXACT_TYPES 1 1 1 _integer64Checks;
   mkNative "zerox8" (Some ZeroExtend8) CHECK_EXACT_TYPES 1 1 1 _integer64Checks;
   mkNative "float32" None ARG_CHECK_EXACT 1 1 0 [];
   mkNative "float64" None ARG_CHECK_EXACT 1 1 0 [];
   mkNative "float" None ARG_CHECK_EXACT 1 1 0 [];
   mkNative "real32" None ARG_CHECK_EXACT 1 1 0 [];
   mkNative "real64" None ARG_CHECK_EXACT 1 1 0 [];
   mkNative "real" None ARG_CHECK_EXACT 1 1 0 [];
   mkNative "char" (Some ToChar) CHECK_EXACT_TYPES 1 1 1 _integer64Checks;
   mkNative "uni" (Some ToUni) CHECK_EXACT_TYPES 1 1 1 _integer64Checks;
   mkNative "parse" None (Z.lor ARG_CHECK_MIN ARG_CHECK_MAX) 1 3 0 [];
   mkNative "+" (Some Plus) CHECK_MIN_TYPES 1 0 8 _integer64Checks;
   mkNative "+~" (Some Plus) CHECK_MIN_TYPES 1 0 8 _integer64Checks;
   mkNative "-" (Some Minus) CHECK_MIN_TYPES 1 0 8 _integer64Checks;
   mkNative "-~" (Some Minus) CHECK_MIN_TYPES 1 0 8 _integer64Checks;
   mkNative "*" (Some Star) CHECK_MIN_TYPES 2 0 8 _integer64Checks;
   mkNative "*~" (Some UStar) CHECK_MIN_TYPES 2 0 8 _integer64Checks;
   mkNative "+*" (Some FMA) CHECK_EXACT_TYPES 3 3 3 _integer64Checks;
   mkNative "+*~" (Some UFMA) CHECK_EXACT_TYPES 3 3 3 _integer64Checks;
   mkNative "/" (Some (Slash _quietMath)) CHECK_MIN_TYPES 2 0 8 _integer64Checks;
   mkNative "/!" (Some (Slash _loudMath)) CHECK_MIN_TYPES 2 0 8 _integer64Checks;
   mkNative "/~" (Some (USlash _quietMath)) CHECK_MIN_TYPES 2 0 8 _integer64Checks;
   mkNative "/!~" (Some (USlash _loudMath)) CHECK_MIN_TYPES 2 0 8 _integer64Checks;
   mkNative "div" (Some (Div _quietMath)) CHECK_MIN_TYPES 2 0 8 _integer64Checks;
   mkNative "div!" (Some (Div _loudMath)) CHECK_MIN_TYPES 2 0 8 _integer64Checks;
   mkNative "div~" (Some (USlash _quietMath)) CHECK_MIN_TYPES 2 0 8 _integer64Checks;
   mkNative "div!~" (Some (USlash _loudMath)) CHECK_MIN_TYPES 2 0 8 _integer64Checks;
   mkNative "mod" (Some (Mod _quietMath)) CHECK_EXACT_TYPES 2 2 2 _integer64Checks;
   mkNative "mod!" (Some (Mod _loudMath)) CHECK_EXACT_TYPES 2 2 2 _integer64Checks;
   mkNative "mod~" (Some (UMod _quietMath)) CHECK_EXACT_TYPES 2 2 2 _integer64Checks;
   mkNative "mod!~" (Some (UMod _loudMath)) CHECK_EXACT_TYPES 2 2 2 _integer64Checks;
   mkNative "rem" (Some (Rem _quietMath)) CHECK_EXACT_TYPES 2 2 2 _integer64Checks;
   mkNative "rem!" (Some (Rem _loudMath)) CHECK_EXACT_TYPES 2 2 2 _integer64Checks;
   mkNative "rem~" (Some (UMod _quietMath)) CHECK_EXACT_TYPES 2 2 2 _integer64Checks;
   mkNative "rem!~" (Some (UMod _loudMath)) CHECK_EXACT_TYPES 2 2 2 _integer64Checks;
   mkNative "sign" (Some Sign) CHECK_EXACT_TYPES 1 1 1 _integer64Checks;
   mkNative "abs" (Some Abs) CHECK_EXACT_TYPES 1 1 1 _integer64Checks;
   mkNative "clip" (Some Clip) CHECK_EXACT_TYPES 3 3 3 _integer64Checks;
   mkNative "clip~" (Some UClip) CHECK_EXACT_TYPES 3 3 3 _integer64Checks;
   mkNative "ramp" (Some Ramp) CHECK_EXACT_TYPES 1 1 1 _integer64Checks;
   mkNative "heaviside" (Some Heaviside) CHECK_EXACT_TYPES 1 1 1 _integer64Checks;
   mkNative "rect" (Some RectTri) CHECK_EXACT_TYPES 1 1 1 _integer64Checks;
   mkNative "tri" (Some RectTri) CHECK_EXACT_TYPES 1 1 1 _integer64Checks;
   mkNative "min" (Some Min) CHECK_MIN_TYPES 1 0 8 _integer64Checks;
   mkNative "min~" (Some UMin) CHECK_MIN_TYPES 1 0 8 _integer64Checks;
   mkNative "max" (Some Max) CHECK_MIN_TYPES 1 0 8 _integer64Checks;
   mkNative "max~" (Some UMax) CHECK_MIN_TYPES 1 0 8 _integer64Checks;
   mkNative "^" (Some Power) CHECK_MIN_TYPES 1 0 8 _integer64Checks;
   mkNative "sqrt" (Some (Sqrt _quietMath)) CHECK_EXACT_TYPES 1 1 1 _integer64Checks;
   mkNative "sqrt!" (Some (Sqrt _loudMath)) CHECK_EXACT_TYPES 1 1 1 _integer64Checks;
   mkNative "sqr" (Some Sqr) CHECK_EXACT_TYPES 1 1 1 _integer64Checks;
   mkNative "cube" (Some Cube) CHECK_EXACT_TYPES 1 1 1 _integer64Checks;
   mkNative "pow2?" (Some Pow2Q) CHECK_EXACT_TYPES 1 1 1 _integer64Checks;
   mkNative "next-pow2" (Some NextPow2) CHECK_EXACT_TYPES 1 1 1 _integer64Checks;
   mkNative "int-lg" (Some (IntLg _quietMath)) CHECK_EXACT_TYPES 1 1 1 _integer64Checks;
   mkNative "int-lg!" (Some (IntLg _loudMath)) CHECK_EXACT_TYPES 1 1 1 _integer64Checks;
   mkNative "half" (Some Half) CHECK_EXACT_TYPES 1 1 1 _integer64Checks;
   mkNative "half~" (Some UHalf) CHECK_EXACT_TYPES 1 1 1 _integer64Checks;
   mkNative "double" (Some Double) CHECK_EXACT_TYPES 1 1 1 _integer64Checks;
   mkNative "dbl" (Some Double) CHECK_EXACT_TYPES 1 1 1 _integer64Checks;
   mkNative "band" (Some BitAnd) CHECK_MIN_TYPES 1 0 8 _integer64Checks;
   mkNative "bor" (Some BitOr) CHECK_MIN_TYPES 1 0 8 _integer64Checks;
   mkNative "bxor" (Some BitXor) CHECK_MIN_TYPES 1 0 8 _integer64Checks;
   mkNative "~" (Some BitNot) CHECK_EXACT_TYPES 1 1 1 _integer64Checks;
   mkNative "<<<" (Some LogicalShiftLeft) CHECK_EXACT_TYPES 2 2 2 _integer64Checks;
   mkNative ">>>" (Some LogicalShiftRight) CHECK_EXACT_TYPES 2 2 2 _integer64Checks;
   mkNative "<<" (Some ArithmeticShiftLeft) CHECK_EXACT_TYPES 2 2 2 _integer64Checks;
   mkNative ">>" (Some ArithmeticShiftRight) CHECK_EXACT_TYPES 2 2 2 _integer64Checks;
   mkNative "<<+" (Some RotateLeft) CHECK_EXACT_TYPES 2 2 2 _integer64Checks;
   mkNative "+>>" (Some RotateRight) CHECK_EXACT_TYPES 2 2 2 _integer64Checks;
   mkNative "count-ones" (Some CountOnes) CHECK_EXACT_TYPES 1 1 1 _integer64Checks;
   mkNative "count-zeros" (Some CountZeros) CHECK_EXACT_TYPES 1 1 1 _integer64Checks;
   mkNative "parity" (Some Parity) CHECK_EXACT_TYPES 1 1 1 _integer64Checks;
   mkNative "reverse-bits" (Some ReverseBits) CHECK_EXACT_TYPES 1 1 1 _integer64Checks;
   mkNative "reverse-bytes" (Some ReverseBytes) CHECK_EXACT_TYPES 1 1 1 _integer64Checks;
   mkNative "count-right-zeros" (Some CountRightZeros) CHECK_EXACT_TYPES 1 1 1 _integer64Checks;
   mkNative "count-right-ones" (Some CountRightOnes) CHECK_EXACT_TYPES 1 1 1 _integer64Checks;
   mkNative "count-left-zeros" (Some CountLeftZeros) CHECK_EXACT_TYPES 1 1 1 _integer64Checks;
   mkNative "count-left-ones" (Some CountLeftOnes) CHECK_EXACT_TYPES 1 1 1 _integer64Checks;
   mkNative "gcd" (Some Gcd) CHECK_EXACT_TYPES 2 2 2 _integer64Checks;
   mkNative "lcm" (Some Lcm) CHECK_EXACT_TYPES 2 2 2 _integer64Checks;
   mkNative "coprime?" (Some IsCoprime) CHECK_EXACT_TYPES 2 2 2 _integer64Checks;
   mkNative "odd?" (Some (ValueTest ODD_TEST)) CHECK_EXACT_TYPES 1 1 1 _integer64Checks;
   mkNative "even?" (Some (ValueTest EVEN_TEST)) CHECK_EXACT_TYPES 1 1 1 _integer64Checks;
   mkNative "zero?" (Some (ValueTest ZERO_TEST)) CHECK_EXACT_TYPES 1 1 1 _integer64Checks;
   mkNative "one?" (Some (ValueTest ONE_TEST)) CHECK_EXACT_TYPES 1 1 1 _integer64Checks;
   mkNative "nonzero?" (Some (ValueTest NONZERO_TEST)) CHECK_EXACT_TYPES 1 1 1 _integer64Checks;
   mkNative "positive?" (Some (ValueTest POS_TEST)) CHECK_EXACT_TYPES 1 1 1 _integer64Checks;
   mkNative "pos?" (Some (ValueTest POS_TEST)) CHECK_EXACT_TYPES 1 1 1 _integer64Checks;
   mkNative "nonpositive?" (Some (ValueTest NONPOS_TEST)) CHECK_EXACT_TYPES 1 1 1 _integer64Checks;
   mkNative "nonpos?" (Some (ValueTest NONPOS_TEST)) CHECK_EXACT_TYPES 1 1 1 _integer64Checks;
   mkNative "negative?" (Some (ValueTest NEG_TEST)) CHECK_EXACT_TYPES 1 1 1 _integer64Checks;
   mkNative "neg?" (Some (ValueTest NEG_TEST)) CHECK_EXACT_TYPES 1 1 1 _integer64Checks;
   mkNative "nonnegative?" (Some (ValueTest NONNEG_TEST)) CHECK_EXACT_TYPES 1 1 1 _integer64Checks;
   mkNative "nonneg?" (Some (ValueTest NONNEG_TEST)) CHECK_EXACT_TYPES 1 1 1 _integer64Checks;
   mkNative "max?" (Some (ValueTest MAX_TEST)) CHECK_EXACT_TYPES 1 1 1 _integer64Checks;
   mkNative "min?" (Some (ValueTest MIN_TEST)) CHECK_EXACT_TYPES 1 1 1 _integer64Checks;
   mkNative "max~?" (Some (ValueTest UMAX_TEST)) CHECK_EXACT_TYPES 1 1 1 _integer64Checks;
   mkNative "min~?" (Some (ValueTest UMIN_TEST)) CHECK_EXACT_TYPES 1 1 1 _integer64Checks;
   mkNative "==" (Some Eq) CHECK_EXACT_TYPES 2 2 2 _integer64ComparisonChecks;
   mkNative "!=" (Some Ne) CHECK_EXACT_TYPES 2 2 2 _integer64ComparisonChecks;
   mkNative "<" (Some Lt) CHECK_EXACT_TYPES 2 2 2 _integer64Checks;
   mkNative "<~" (Some ULt) CHECK_EXACT_TYPES 2 2 2 _integer64Checks;
   mkNative ">" (Some Gt) CHECK_EXACT_TYPES 2 2 2 _integer64Checks;
   mkNative ">~" (Some UGt) CHECK_EXACT_TYPES 2 2 2 _integer64Checks;
   mkNative "<=" (Some Le) CHECK_EXACT_TYPES 2 2 2 _integer64Checks;
   mkNative "<=~" (Some ULe) CHECK_EXACT_TYPES 2 2 2 _integer64Checks;
   mkNative ">=" (Some Ge) CHECK_EXACT_TYPES 2 2 2 _integer64Checks;
   mkNative ">=~" (Some UGe) CHECK_EXACT_TYPES 2 2 2 _integer64Checks;
   mkNative "compare" (Some Compare) CHECK_EXACT_TYPES 2 2 2 _integer64Checks;
   mkNative "cmp" (Some Compare) CHECK_EXACT_TYPES 2 2 2 _integer64Checks;
   mkNative "compare~" (Some UCompare) CHECK_EXACT_TYPES 2 2 2 _integer64Checks;
   mkNative "cmp~" (Some UCompare) CHECK_EXACT_TYPES 2 2 2 _integer64Checks;
   mkNative "range-to" None CHECK_EXACT_TYPES 2 2 2 _integer64Checks;
   mkNative "random" None 0 1 1 0 []
  ].

(** [SmileUserObject_SetupFunction] through [SmileFunction_CreateExternalFunction]. *)
Definition SetupFunction (n : NativeInfo) : ExternalFunctionInfo :=
  mkExternalFunctionInfo
    (CreateExternalFunction_flags (n_argCheckFlags n) (n_minArgs n) (n_maxArgs n) (n_numArgsToTypeCheck n))
    (n_numArgsToTypeCheck n) (n_minArgs n) (n_maxArgs n) (n_argTypeChecks n).

End Integer64.
