(* ===== verification/Integer64Props.v ===== *)
(** * Integer64Props: what the integer methods compute

    Theorems on [Integer64]: the functions of any number of arguments are folds
    of their binary operation, with the unrolled cases equal to the loop;
    overflow wraps and division by zero is quiet or loud; number theory, roots
    and rotations meet their mathematical definitions; and every registered
    method is type safe behind the calling convention it is registered with. *)

From S2P Require Import Prelude IntMath IntMathProps IntBits.
From S2P Require Import ByteCode Object Closure Machine FnCall Integer64.
From Stdlib Require Import String.
Import Operand.

Section Integer64Props.
Context {E : ObjectEnv}.

(** ** Reading results *)

Lemma i64_range (a : SmileArg) : inS 64 (i64 a).
Proof. apply wrapS_range. lia. Qed.

Lemma u64_range (a : SmileArg) : inU 64 (u64 a).
Proof. apply wrapU_range. lia. Qed.

Lemma i64_From (v : Z) : i64 (SmileUnboxedInteger64_From v) = wrapS 64 v.
Proof. apply wrapS_mod; [lia|]. apply set_low_mod. lia. Qed.

Lemma u64_From (v : Z) : u64 (SmileUnboxedInteger64_From v) = wrapU 64 v.
Proof. unfold u64. rewrite i64_From. by apply wrapU_wrapS. Qed.

Lemma From_wrapS (v : Z) : SmileUnboxedInteger64_From (wrapS 64 v) = SmileUnboxedInteger64_From v.
Proof.
  unfold SmileUnboxedInteger64_From, SmileUnboxed_From, set_low. simpl scalar_width. do 2 f_equal.
  exact (wrapU_wrapS 64 v eq_refl).
Qed.

Lemma From_wrapU (v : Z) : SmileUnboxedInteger64_From (wrapU 64 v) = SmileUnboxedInteger64_From v.
Proof.
  unfold SmileUnboxedInteger64_From, SmileUnboxed_From, set_low. simpl scalar_width. do 2 f_equal.
  by apply Z.mod_mod.
Qed.

(** The integer a function returned. *)
Definition result (r : Result SmileArg) : option Z :=
  match r with Ok a => if is_int64 a then Some (i64 a) else None | _ => None end.

Lemma result_From (v : Z) : result (Ok (SmileUnboxedInteger64_From v)) = Some (wrapS 64 v).
Proof. cbn [result]. unfold is_int64. simpl obj. by rewrite bool_decide_true, i64_From. Qed.

Lemma result_arg (a : SmileArg) : is_int64 a -> result (Ok a) = Some (i64 a).
Proof. cbn [result]. intros H. destruct (is_int64 a); done. Qed.

(** ** The unrolled cases are the loop *)

Lemma switch_argc_loop (one : option (SmileArg -> SmileArg)) (get : SmileArg -> Z) (step : Step)
  (a : SmileArg) (l : list SmileArg) :
  l <> [] \/ one = None -> switch_argc one get step (a :: l) = args_loop step (get a) l.
Proof.
  intros H. destruct l as [|a1 [|a2 [|a3 [|a4 l]]]], one; try done; by destruct H.
Qed.

(** The loop of a step that never returns early. *)
Lemma args_loop_fold (step : Step) (f : Z -> SmileArg -> Z) (x : Z) (l : list SmileArg) :
  (forall x a, step x a = inl (f x a)) ->
  args_loop step x l = Ok (SmileUnboxedInteger64_From (fold_left f l x)).
Proof.
  intros Hf. revert x. induction l as [|a l IH]; intros x; [done|]. simpl. by rewrite Hf, <- IH.
Qed.

(** Wrapping after each of a series of ring operations is wrapping once. *)
Lemma fold_wraps (op : Z -> Z -> Z) (x : Z) (l : list SmileArg) :
  (forall a b, wrapS 64 (op (wrapS 64 a) b) = wrapS 64 (op a b)) ->
  wrapS 64 (fold_left (fun x a => Int_ 64 (op x (i64 a))) l x)
  = wrapS 64 (fold_left op (map i64 l) x).
Proof.
  intros Hop.
  assert (Hc : forall l x, wrapS 64 (fold_left op l (wrapS 64 x)) = wrapS 64 (fold_left op l x)).
  { clear - Hop. intros l. induction l as [|b l IH]; intros x; simpl.
    - apply wrapS_id; [lia|]. by apply wrapS_range.
    - by rewrite <- IH, Hop, IH. }
  revert x. induction l as [|a l IH]; intros x; simpl; [done|]. rewrite IH. apply Hc.
Qed.

Lemma fold_sum (l : list Z) (x : Z) : fold_left Z.add l x = x + foldr Z.add 0 l.
Proof. revert x. induction l as [|y l IH]; intros x; simpl; [lia|]. rewrite IH. lia. Qed.

Lemma fold_difference (l : list Z) (x : Z) : fold_left Z.sub l x = x - foldr Z.add 0 l.
Proof. revert x. induction l as [|y l IH]; intros x; simpl; [lia|]. rewrite IH. lia. Qed.

Lemma fold_product (l : list Z) (x : Z) : fold_left Z.mul l x = x * foldr Z.mul 1 l.
Proof. revert x. induction l as [|y l IH]; intros x; simpl; [lia|]. rewrite IH. lia. Qed.

Lemma result_signed (one : option (SmileArg -> SmileArg)) (op : Z -> Z -> Z) (a b : SmileArg) l :
  (forall a b, wrapS 64 (op (wrapS 64 a) b) = wrapS 64 (op a b)) ->
  result (switch_argc one i64 (signed op) (a :: b :: l))
  = Some (wrapS 64 (fold_left op (map i64 (b :: l)) (i64 a))).
Proof.
  intros Hop. rewrite switch_argc_loop by (by left).
  rewrite (args_loop_fold _ (fun x a => Int_ 64 (op x (i64 a)))) by done.
  by rewrite result_From, fold_wraps.
Qed.

(** The unsigned product has the same bits as the signed one. *)
Lemma unsigned_product (x : Z) (l : list SmileArg) :
  wrapS 64 (fold_left (fun x a => UInt_ 64 (x * u64 a)) l x)
  = wrapS 64 (fold_left (fun x a => Int_ 64 (x * i64 a)) l x).
Proof.
  assert (Hc : forall l x y, wrapS 64 x = wrapS 64 y ->
    wrapS 64 (fold_left (fun x a => UInt_ 64 (x * u64 a)) l x)
    = wrapS 64 (fold_left (fun x a => Int_ 64 (x * i64 a)) l y)); [|by apply Hc].
  clear. intros l. induction l as [|a l IH]; intros x y H; simpl; [done|]. apply IH.
  unfold UInt_, Int_, u64. rewrite wrapS_wrapU by lia.
  rewrite <- (wrapS_mul_r 64 x), wrapS_wrapU, wrapS_mul_r by lia.
  rewrite <- wrapS_mul_l, H, wrapS_mul_l by lia.
  symmetry. apply wrapS_id; [lia|]. by apply wrapS_range.
Qed.

Lemma wrapU_summand (x y : Z) : wrapS 64 (wrapU 64 x + y) = wrapS 64 (x + y).
Proof. rewrite <- wrapS_add_l, wrapS_wrapU, wrapS_add_l by lia. done. Qed.

Lemma wrapU_factor (x y : Z) : wrapS 64 (wrapU 64 x * y) = wrapS 64 (x * y).
Proof. rewrite <- wrapS_mul_l, wrapS_wrapU, wrapS_mul_l by lia. done. Qed.

Lemma fused_operations (a b c : SmileArg) :
  result (FMA [a; b; c]) = Some (wrapS 64 (i64 a + i64 b * i64 c))
  /\ result (UFMA [a; b; c]) = Some (wrapS 64 (i64 a + i64 b * i64 c)).
Proof.
  unfold FMA, UFMA, ternary, u64, Int_, UInt_. rewrite !From_wrapS, !From_wrapU, !result_From.
  split; f_equal.
  - by rewrite Z.add_comm, wrapS_add_l, Z.add_comm by lia.
  - rewrite wrapU_summand, Z.add_comm, wrapU_summand, <- wrapS_add_l by lia.
    by rewrite wrapU_factor, Z.mul_comm, wrapU_factor, wrapS_add_l, Z.mul_comm, Z.add_comm by lia.
Qed.

Lemma ring_folds (a : SmileArg) (l : list SmileArg) :
  is_int64 a ->
  result (Plus (a :: l)) = Some (wrapS 64 (i64 a + foldr Z.add 0 (map i64 l)))
  /\ result (Minus (a :: l))
     = Some (wrapS 64 (if l is [] then - i64 a else i64 a - foldr Z.add 0 (map i64 l)))
  /\ result (Star (a :: l)) = Some (wrapS 64 (i64 a * foldr Z.mul 1 (map i64 l)))
  /\ result (UStar (a :: l)) = result (Star (a :: l)).
Proof.
  intros Ha. pose proof (i64_range a) as Hr.
  destruct l as [|b l].
  - unfold Plus, Minus, Star, UStar. cbn [switch_argc map foldr].
    rewrite !result_arg, i64_From by done. unfold Int_.
    rewrite Z.add_0_r, Z.mul_1_r, (wrapS_id 64 (i64 a)) by done.
    repeat split. f_equal. apply wrapS_id; [lia|]. by apply wrapS_range.
  - unfold Plus, Minus, Star. rewrite !result_signed.
    + rewrite fold_sum, fold_difference, fold_product. repeat split.
      unfold UStar. rewrite switch_argc_loop by (by left).
      rewrite (args_loop_fold _ (fun x a => UInt_ 64 (x * u64 a))), result_From, unsigned_product by done.
      rewrite (fold_wraps Z.mul), fold_product by (intros; by apply wrapS_mul_l).
      f_equal. unfold u64, UInt_. rewrite <- wrapS_mul_l, wrapS_wrapU, wrapS_mul_l by lia. done.
    + intros; by apply wrapS_mul_l.
    + intros x y. rewrite <- !Z.add_opp_r. by apply wrapS_add_l.
    + intros; by apply wrapS_add_l.
Qed.

(** C37: sums, differences and products of any number of integers are the
    mathematical ones wrapped to 64 bits; a single argument is itself, or
    negated for [-]; a fused multiply-add of three integers is theirs wrapped
    to 64 bits; the unsigned product and multiply-add have the same bits. *)
Theorem ring_operations_wrap (a : SmileArg) (l : list SmileArg) :
  is_int64 a ->
  result (Plus (a :: l)) = Some (wrapS 64 (i64 a + foldr Z.add 0 (map i64 l)))
  /\ result (Minus (a :: l))
     = Some (wrapS 64 (if l is [] then - i64 a else i64 a - foldr Z.add 0 (map i64 l)))
  /\ result (Star (a :: l)) = Some (wrapS 64 (i64 a * foldr Z.mul 1 (map i64 l)))
  /\ result (UStar (a :: l)) = result (Star (a :: l))
  /\ forall b c, result (FMA [a; b; c]) = Some (wrapS 64 (i64 a + i64 b * i64 c))
       /\ result (UFMA [a; b; c]) = result (FMA [a; b; c]).
Proof.
  intros Ha. destruct (ring_folds a l Ha) as (H1 & H2 & H3 & H4). repeat (split; [done|]).
  intros b c. by destruct (fused_operations a b c) as [-> ->].
Qed.

(** ** Division *)

(** The quotients of a series of divisions; [None] when a divisor is zero. *)
Fixpoint quotients (div : Z -> Z -> Z) (x : Z) (ys : list Z) : option Z :=
  match ys with
  | [] => Some x
  | y :: ys => if y =? 0 then None else quotients div (div x y) ys
  end.

Lemma divide_loop (param : MathInfo) (get : SmileArg -> Z) (div : Z -> Z -> Z) (x : Z) l :
  args_loop (divide param get div) x l
  = match quotients div x (map get l) with
    | Some q => Ok (SmileUnboxedInteger64_From q)
    | None => DivideByZero param
    end.
Proof.
  revert x. induction l as [|a l IH]; intros x; [done|]. simpl. unfold divide at 1.
  destruct (get a =? 0); [done|]. apply IH.
Qed.

(** Series of divisions agree when the single divisions do on the range of the type. *)
Lemma quotients_ext (P : Z -> Prop) (f g : Z -> Z -> Z) (x : Z) (ys : list Z) :
  (forall x y, P x -> P y -> y <> 0 -> f x y = g x y /\ P (g x y)) ->
  P x -> Forall P ys -> quotients f x ys = quotients g x ys.
Proof.
  intros Hfg Hx Hys. revert x Hx. induction Hys as [|y ys Hy Hys IH]; intros x Hx; [done|]. simpl.
  destruct (Z.eqb_spec y 0); [done|]. destruct (Hfg x y) as [-> Hp]; [done..|]. by apply IH.
Qed.

(** C38: a series of divisions stops at the first zero divisor, with an exception
    from the loud functions and 0 from the quiet ones; otherwise [/] rounds each
    quotient down, [div] rounds it towards zero, both wrapping the one quotient
    that overflows, and the unsigned forms divide the words. *)
Theorem divisions (param : MathInfo) (a : SmileArg) (l : list SmileArg) :
  let answer q := match q with
                  | Some q => Ok (SmileUnboxedInteger64_From q)
                  | None => if isLoud param then Throw sym_native_method_error
                            else Ok (SmileUnboxedInteger64_From 0)
                  end in
  Slash param (a :: l) = answer (quotients (fun x y => wrapS 64 (x / y)) (i64 a) (map i64 l))
  /\ Div param (a :: l) = answer (quotients (fun x y => wrapS 64 (Z.quot x y)) (i64 a) (map i64 l))
  /\ USlash param (a :: l) = answer (quotients Z.div (u64 a) (map u64 l)).
Proof.
  assert (Hl : Forall (inS 64) (map i64 l)).
  { apply Forall_map, Forall_forall. intros x _. apply i64_range. }
  unfold Slash, Div, USlash. rewrite !switch_argc_loop, !divide_loop by (by right).
  split; [|split; [|done]].
  - rewrite (quotients_ext (inS 64) _ (fun x y => wrapS 64 (x / y))); [done| |apply i64_range|done].
    intros x y Hx Hy Hy0. split; [|by apply wrapS_range].
    by apply MathematiciansDiv_floors.
  - rewrite (quotients_ext (inS 64) _ (fun x y => wrapS 64 (Z.quot x y))); [done| |apply i64_range|done].
    intros x y Hx Hy Hy0. split; [|by apply wrapS_range].
    by apply CDiv_truncates.
Qed.

(** ** Non-negative integers as words *)

Lemma u64_positive (a : SmileArg) : 0 <= i64 a -> u64 a = i64 a.
Proof.
  intros H. pose proof (i64_range a) as Ha. unfold inS in Ha. change (64 - 1) with 63 in Ha.
  apply wrapU_id. unfold inU. lia.
Qed.

Lemma gcd_positive (a b : SmileArg) :
  0 < i64 a -> 0 < i64 b -> CalculateBinaryGcd 64 (u64 a) (u64 b) = Some (Z.gcd (i64 a) (i64 b)).
Proof.
  intros Ha Hb. pose proof (i64_range a) as Hra. pose proof (i64_range b) as Hrb. unfold inS in *.
  change (64 - 1) with 63 in *. rewrite !u64_positive by lia.
  apply CalculateBinaryGcd_spec; unfold IntMax; change (64 - 1) with 63; lia.
Qed.

Lemma sqrt_positive (a : SmileArg) : 0 <= i64 a -> IntSqrt 64 (UInt_ 64 (i64 a)) = Some (Z.sqrt (i64 a)).
Proof.
  intros Ha. pose proof (i64_range a) as Hr. unfold inS in Hr. change (64 - 1) with 63 in Hr.
  change (UInt_ 64 (i64 a)) with (u64 a). rewrite u64_positive by done.
  apply IntSqrt_spec; [by right|lia].
Qed.

(** ** Powers, roots and extrema *)

(** C40: [^] of any number of integers is the repeated power modulo the width, a
    negative exponent yielding 0; the square-and-multiply loop always returns. *)
Theorem powers (a : SmileArg) (l : list SmileArg) :
  Power (a :: l)
  = Ok (SmileUnboxedInteger64_From
         (fold_left (fun x e => if e <? 0 then 0 else wrapS 64 (x ^ e)) (map i64 l) (i64 a))).
Proof.
  unfold Power. rewrite switch_argc_loop by (by right). generalize (i64 a). clear a.
  induction l as [|a l IH]; intros x; [done|]. simpl.
  rewrite IntPower_spec by (done || apply i64_range). simpl. apply IH.
Qed.

(** [sqrt], [int-lg] and [next-pow2] on all integers: the integer square root,
    the binary logarithm and the next power of two (wrapped above 2^62), with
    the loud or quiet answer outside their domains. *)
Theorem roots_and_logarithms (param : MathInfo) (a : SmileArg) (l : list SmileArg) :
  let outside := if isLoud param then Throw sym_native_method_error
                 else Ok (SmileUnboxedInteger64_From 0) in
  Sqrt param (a :: l)
  = (if i64 a <? 0 then outside else Ok (SmileUnboxedInteger64_From (Z.sqrt (i64 a))))
  /\ IntLg param (a :: l)
     = (if i64 a <=? 0 then outside else Ok (SmileUnboxedInteger64_From (Z.log2 (i64 a))))
  /\ NextPow2 (a :: l)
     = Ok (SmileUnboxedInteger64_From
             (if i64 a <? 0 then 0 else if i64 a =? 0 then 1 else 2 ^ Z.log2_up (i64 a))).
Proof.
  pose proof (i64_range a) as Hr. unfold inS in Hr. change (64 - 1) with 63 in Hr.
  assert (Hu : 0 <= i64 a -> UInt_ 64 (i64 a) = i64 a)
    by (intros; apply wrapU_id; unfold inU; lia).
  unfold Sqrt, IntLg, NextPow2, unary. split; [|split].
  - destruct (Z.ltb_spec (i64 a) 0); [done|]. by rewrite sqrt_positive.
  - destruct (Z.leb_spec (i64 a) 0); [done|]. rewrite Hu by lia.
    by rewrite Lg_spec by (lia || by right).
  - destruct (Z.ltb_spec (i64 a) 0); [done|]. destruct (Z.eqb_spec (i64 a) 0); [done|].
    rewrite Hu by lia. by rewrite RoundUpPow2_spec by (change (64 - 1) with 63; lia || by right).
Qed.

Lemma choose_loop (get : SmileArg -> Z) (better : Z -> Z -> bool) (best : Z -> Z -> Z) (x : Z) l :
  (forall x y, (if better y x then y else x) = best x y) ->
  args_loop (choose get better) x l
  = Ok (SmileUnboxedInteger64_From (fold_left best (map get l) x)).
Proof.
  intros Hb. revert x. induction l as [|a l IH]; intros x; [done|]. simpl. rewrite Hb. apply IH.
Qed.

Lemma fold_extremum (P : Z -> Prop) (best : Z -> Z -> Z) (x : Z) (l : list Z) :
  (forall x y, best x y = x \/ best x y = y) -> P x -> Forall P l -> P (fold_left best l x).
Proof.
  intros Hb Hx Hl. revert x Hx. induction Hl as [|y l Hy Hl IH]; intros x Hx; [done|]. simpl.
  apply IH. by destruct (Hb x y) as [-> | ->].
Qed.

Lemma min_test (x y : Z) : (if y <? x then y else x) = Z.min x y.
Proof. destruct (Z.ltb_spec y x); lia. Qed.

Lemma max_test (x y : Z) : (if y >? x then y else x) = Z.max x y.
Proof. rewrite Z.gtb_ltb. destruct (Z.ltb_spec x y); lia. Qed.

Lemma choose_signed (better : Z -> Z -> bool) (best : Z -> Z -> Z) (a : SmileArg) l :
  (forall x y, (if better y x then y else x) = best x y) ->
  (forall x y, best x y = x \/ best x y = y) -> is_int64 a ->
  result (switch_argc (Some (fun a => a)) i64 (choose i64 better) (a :: l))
  = Some (fold_left best (map i64 l) (i64 a)).
Proof.
  intros Hb Hbest Ha. destruct l as [|b l]; [by apply result_arg|].
  rewrite switch_argc_loop, (choose_loop _ _ best), result_From by (done || by left). f_equal.
  apply wrapS_id; [lia|]. apply fold_extremum; [done|apply i64_range|].
  apply Forall_map, Forall_forall. intros c _. apply i64_range.
Qed.

Lemma choose_unsigned (better : Z -> Z -> bool) (best : Z -> Z -> Z) (a : SmileArg) l :
  (forall x y, (if better y x then y else x) = best x y) ->
  (forall x y, best x y = x \/ best x y = y) ->
  exists r, switch_argc (Some (fun a => a)) u64 (choose u64 better) (a :: l) = Ok r
    /\ u64 r = fold_left best (map u64 l) (u64 a).
Proof.
  intros Hb Hbest. destruct l as [|b l]; [by exists a|].
  rewrite switch_argc_loop, (choose_loop _ _ best) by (done || by left).
  eexists. split; [done|]. rewrite u64_From.
  apply wrapU_id. apply fold_extremum; [done|apply u64_range|].
  apply Forall_map, Forall_forall. intros c _. apply u64_range.
Qed.

(** [min] and [max] of any number of integers are the least and the greatest of
    them, as signed and as unsigned numbers; [clip] moves a value into its
    bounds, the lower bound winning when they cross. *)
Theorem extrema (a b c : SmileArg) (l : list SmileArg) :
  is_int64 a -> is_int64 b -> is_int64 c ->
  result (Min (a :: l)) = Some (fold_left Z.min (map i64 l) (i64 a))
  /\ result (Max (a :: l)) = Some (fold_left Z.max (map i64 l) (i64 a))
  /\ (exists r, UMin (a :: l) = Ok r /\ u64 r = fold_left Z.min (map u64 l) (u64 a))
  /\ (exists r, UMax (a :: l) = Ok r /\ u64 r = fold_left Z.max (map u64 l) (u64 a))
  /\ result (Clip [a; b; c]) = Some (Z.max (i64 b) (Z.min (i64 c) (i64 a))).
Proof.
  intros Ha Hb Hc.
  assert (Hmin : forall x y, Z.min x y = x \/ Z.min x y = y) by lia.
  assert (Hmax : forall x y, Z.max x y = x \/ Z.max x y = y) by lia.
  split; [by apply choose_signed; [apply min_test|..]|].
  split; [by apply choose_signed; [apply max_test|..]|].
  split; [by apply choose_unsigned; [apply min_test|]|].
  split; [by apply choose_unsigned; [apply max_test|]|].
  unfold Clip, clip, ternary. rewrite Z.gtb_ltb.
  destruct (Z.ltb_spec (i64 c) (i64 a)); [destruct (Z.ltb_spec (i64 c) (i64 b))|
    destruct (Z.ltb_spec (i64 a) (i64 b))]; rewrite result_arg by done; f_equal; lia.
Qed.

(** ** Number theory *)

(** C39: [gcd], [lcm] and [coprime?] of positive integers are the mathematical ones
    (the multiple wrapped to the width), and 0 or false otherwise; the binary
    algorithm always returns. *)
Theorem number_theory (a b : SmileArg) (l : list SmileArg) :
  let positive := (0 <? i64 a) && (0 <? i64 b) in
  Gcd (a :: b :: l)
  = Ok (SmileUnboxedInteger64_From (if positive then Z.gcd (i64 a) (i64 b) else 0))
  /\ Lcm (a :: b :: l)
     = Ok (SmileUnboxedInteger64_From (if positive then Z.lcm (i64 a) (i64 b) else 0))
  /\ IsCoprime (a :: b :: l)
     = Ok (SmileUnboxedBool_From (positive && (Z.gcd (i64 a) (i64 b) =? 1))).
Proof.
  unfold Gcd, Lcm, IsCoprime, binary.
  destruct (Z.leb_spec (i64 a) 0) as [Ha0|Ha0]; destruct (Z.ltb_spec 0 (i64 a)); try lia; [done|].
  destruct (Z.leb_spec (i64 b) 0) as [Hb0|Hb0]; destruct (Z.ltb_spec 0 (i64 b)); try lia; [done|].
  simpl orb. cbv iota. rewrite gcd_positive, !u64_positive by lia.
  split; [done|]. split; [|done]. cbn [orCrash Result_bind]. f_equal.
  unfold Int_, UInt_. rewrite From_wrapS, From_wrapU. simpl. f_equal.
  rewrite Z.lcm_equiv2 by (intros E0; apply Z.gcd_eq_0 in E0; lia).
  unfold Z.lcm. rewrite Z.lcm_equiv1 by (intros E0; apply Z.gcd_eq_0 in E0; lia).
  symmetry. apply Z.abs_eq. apply Z.div_pos; [lia|].
  pose proof (Z.gcd_nonneg (i64 a) (i64 b)).
  assert (Z.gcd (i64 a) (i64 b) <> 0) by (intros E0; apply Z.gcd_eq_0 in E0; lia). lia.
Qed.

(** ** Words *)

Lemma popcount_not (n : nat) (v : Z) :
  0 <= v < 2 ^ Z.of_nat n -> popcount n (2 ^ Z.of_nat n - 1 - v) = Z.of_nat n - popcount n v.
Proof.
  unfold popcount. revert v. induction n as [|n IH]; intros v Hv; [done|].
  rewrite Nat2Z.inj_succ, Z.pow_succ_r in * by lia. cbn [digit_sum]. change (2 ^ 1) with 2.
  pose proof (Z.div_mod v 2 ltac:(lia)). pose proof (Z.mod_pos_bound v 2 ltac:(lia)).
  assert (Hq : (2 * 2 ^ Z.of_nat n - 1 - v) / 2 = 2 ^ Z.of_nat n - 1 - v / 2
               /\ (2 * 2 ^ Z.of_nat n - 1 - v) mod 2 = 1 - v mod 2).
  { split; symmetry.
    - apply Z.div_unique with (1 - v mod 2); lia.
    - apply Z.mod_unique with (2 ^ Z.of_nat n - 1 - v / 2); lia. }
  destruct Hq as [-> ->]. rewrite IH by lia. lia.
Qed.

Lemma UNot_sub (v : Z) : inU 64 v -> UNot 64 v = 2 ^ 64 - 1 - v.
Proof.
  unfold inU. intros. unfold UNot, UInt_, wrapU, Z.lnot. symmetry.
  apply Z.mod_unique with (-1); lia.
Qed.

(** The zeros above the highest bit are the zeros below the lowest bit of the
    reversed word. *)
Lemma leading_zeros (v : Z) :
  inU 64 v ->
  ComputeCountOfRightZeros 64 (ComputeReverseBits 64 v) = if v =? 0 then 64 else 63 - Z.log2 v.
Proof.
  intros Hv. pose proof (ComputeReverseBits_range 64 v (or_intror eq_refl) Hv) as Hr.
  destruct (Z.eqb_spec v 0) as [->|Hv0]; [done|].
  pose proof (ComputeCountOfRightZeros_spec 64 _ (or_intror eq_refl) Hr) as H. cbv zeta in H.
  set (u := ComputeReverseBits 64 v) in *. set (c := ComputeCountOfRightZeros 64 u) in *.
  assert (Hbit : forall i, 0 <= i < 64 -> Z.testbit v i = Z.testbit u (63 - i)).
  { intros i Hi. unfold u.
    rewrite (ComputeReverseBits_spec 64 v (63 - i) (or_intror eq_refl) Hv ltac:(lia)). f_equal. lia. }
  destruct (Z.eqb_spec u 0) as [E0|Hu].
  - exfalso. apply Hv0. apply Z.bits_inj'. intros i Hi. rewrite Z.bits_0.
    destruct (Z.ltb_spec i 64); [by rewrite Hbit, E0, Z.bits_0 by lia|].
    by apply (bits_inU 64).
  - destruct H as (Hc & Hm & Ht). enough (Z.log2 v = 63 - c) by lia.
    apply Z.log2_bits_unique.
    + rewrite Hbit by lia. by replace (63 - (63 - c)) with c by lia.
    + intros i Hi. destruct (Z.ltb_spec i 64).
      * rewrite Hbit by lia. rewrite <- (Z.mod_pow2_bits_low u c) by lia. by rewrite Hm, Z.bits_0.
      * by apply (bits_inU 64).
Qed.

(** The queries on the bits of a word: the numbers of ones and zeros, the parity,
    the zeros above the highest bit and the index of the lowest. *)
Theorem word_queries (a : SmileArg) (l : list SmileArg) :
  let v := u64 a in
  let ones := popcount 64 v in
  CountOnes (a :: l) = Ok (SmileUnboxedInteger64_From ones)
  /\ CountZeros (a :: l) = Ok (SmileUnboxedInteger64_From (64 - ones))
  /\ Parity (a :: l) = Ok (SmileUnboxedInteger64_From (ones mod 2))
  /\ CountLeftZeros (a :: l)
     = Ok (SmileUnboxedInteger64_From (if v =? 0 then 64 else 63 - Z.log2 v))
  /\ (exists c, CountRightZeros (a :: l) = Ok (SmileUnboxedInteger64_From c)
       /\ if v =? 0 then c = 64 else 0 <= c < 64 /\ v mod 2 ^ c = 0 /\ Z.testbit v c = true).
Proof.
  cbv zeta. pose proof (u64_range a) as Hu.
  unfold CountOnes, CountZeros, Parity, CountLeftZeros, CountRightZeros, on_word, unary.
  set (v := u64 a) in *. clearbody v. split; [|split; [|split; [|split]]].
  - rewrite (CountBitsSet_spec 64 v (or_intror eq_refl) Hu). reflexivity.
  - assert (Hn : inU 64 (UNot 64 v)) by (apply wrapU_range; lia).
    rewrite (CountBitsSet_spec 64 _ (or_intror eq_refl) Hn), UNot_sub by done.
    change (Z.to_nat 64) with 64%nat. change 64 with (Z.of_nat 64) at 1.
    rewrite popcount_not by exact Hu. reflexivity.
  - rewrite (ParityOf_spec 64 v (or_intror eq_refl)). reflexivity.
  - rewrite (leading_zeros v Hu). reflexivity.
  - eexists. split; [reflexivity|].
    exact (ComputeCountOfRightZeros_spec 64 v (or_intror eq_refl) Hu).
Qed.

(** [reverse-bits] and [reverse-bytes] put every bit at its mirrored place, and
    reversing twice gives the word back. *)
Theorem reversals (a : SmileArg) (l : list SmileArg) :
  (exists r r', ReverseBits (a :: l) = Ok r /\ ReverseBits [r] = Ok r' /\ u64 r' = u64 a
     /\ forall i, 0 <= i < 64 -> Z.testbit (u64 r) i = Z.testbit (u64 a) (63 - i))
  /\ (exists r, ReverseBytes (a :: l) = Ok r
     /\ forall q j, 0 <= q < 8 -> 0 <= j < 8 ->
          Z.testbit (u64 r) (8 * q + j) = Z.testbit (u64 a) (8 * (7 - q) + j)).
Proof.
  pose proof (u64_range a) as Hu. split.
  - do 2 eexists. split; [done|]. split; [done|]. rewrite !u64_From.
    pose proof (ComputeReverseBits_range 64 (u64 a) (or_intror eq_refl) Hu) as Hr.
    rewrite (wrapU_id 64 (ComputeReverseBits 64 (u64 a))) by done.
    pose proof (ComputeReverseBits_range 64 _ (or_intror eq_refl) Hr) as Hr2.
    rewrite wrapU_id by done.
    pose proof (fun v H i => ComputeReverseBits_spec 64 v i (or_intror eq_refl) H) as Hspec.
    split; [|intros i Hi; rewrite (Hspec _ Hu) by lia; f_equal; lia].
    apply Z.bits_inj'. intros i Hi. destruct (Z.ltb_spec i 64).
    + rewrite (Hspec _ Hr), (Hspec _ Hu) by lia. f_equal. lia.
    + by rewrite !(bits_inU 64) by (done || lia).
  - eexists. split; [done|]. intros q j Hq Hj. rewrite u64_From. unfold wrapU.
    rewrite Z.mod_pow2_bits_low by lia.
    exact (SwapBytes_spec 64 (u64 a) q j (or_intror eq_refl) Hq Hj).
Qed.

Lemma shift_ok (f : Z -> Z -> Z) (x y : Z) : 0 <= y < 64 -> shift f x y = Some (f x y).
Proof. intros. unfold shift. destruct (Z.leb_spec 0 y), (Z.ltb_spec y 64); done || lia. Qed.

Lemma shift_undefined (f : Z -> Z -> Z) (x y : Z) : 64 <= y -> shift f x y = None.
Proof. intros. unfold shift. destruct (Z.leb_spec 0 y), (Z.ltb_spec y 64); done || lia. Qed.

(** A count outside 1 to 63 makes one of the two shifts of a rotation undefined. *)
Lemma rotate_undefined (n m : Z) :
  inU 64 m -> m = 0 \/ 64 <= m -> Smile_RotateLeft64 n m = None /\ Smile_RotateRight64 n m = None.
Proof.
  intros Hm [-> | Hm0]; unfold Smile_RotateLeft64, Smile_RotateRight64; [done|].
  by rewrite !(shift_undefined _ _ m).
Qed.

Lemma rotate_bit (n m i : Z) :
  inU 64 n -> 0 < m < 64 -> 0 <= i < 64 ->
  exists l r, Smile_RotateLeft64 n m = Some l /\ Smile_RotateRight64 n m = Some r
    /\ inU 64 l /\ inU 64 r
    /\ Z.testbit l i = Z.testbit n ((i - m) mod 64) /\ Z.testbit r i = Z.testbit n ((i + m) mod 64).
Proof.
  intros Hn Hm Hi. unfold Smile_RotateLeft64, Smile_RotateRight64.
  assert (UInt_ 64 (64 - m) = 64 - m) as -> by (apply wrapU_id; unfold inU; lia).
  rewrite !shift_ok by lia. cbn [option_bind mbind]. do 2 eexists. do 2 (split; [reflexivity|]).
  assert (Hsr : forall k, 0 <= k -> inU 64 (Z.shiftr n k)).
  { intros k Hk. apply inU_bits; [done|apply Z.shiftr_nonneg, Hn|].
    intros j Hj. rewrite Z.shiftr_spec by lia. apply (bits_inU 64); done || lia. }
  assert (Hsl : forall k, inU 64 (UInt_ 64 k)) by (intros; by apply wrapU_range).
  split; [apply lor_inU; auto with lia|]. split; [apply lor_inU; auto with lia|].
  unfold UInt_, wrapU. rewrite !Z.lor_spec, !Z.mod_pow2_bits_low, !Z.shiftl_spec, !Z.shiftr_spec by lia.
  split.
  - destruct (Z.ltb_spec i m).
    + rewrite (Z.testbit_neg_r n (i - m)) by lia. simpl orb. f_equal.
      apply Z.mod_unique with (-1); lia.
    + rewrite (bits_inU 64 n (i + (64 - m))) by (done || lia). rewrite orb_false_r. f_equal.
      apply Z.mod_unique with 0; lia.
  - destruct (Z.ltb_spec (i + m) 64).
    + rewrite (Z.testbit_neg_r n (i - (64 - m))) by lia. rewrite orb_false_r. f_equal.
      apply Z.mod_unique with 0; lia.
    + rewrite (bits_inU 64 n (i + m)) by (done || lia). simpl orb. f_equal.
      apply Z.mod_unique with 1; lia.
Qed.

(** Rotating by 1 to 63 bits moves bit [i] to [i + m] around the word, and
    rotating back restores it; a rotation by zero or by the width or more shifts
    by an amount C leaves undefined. *)
Theorem rotations (a m : SmileArg) :
  if (0 <? u64 m) && (u64 m <? 64) then
    exists r r', RotateLeft [a; m] = Ok r /\ RotateRight [r; m] = Ok r' /\ u64 r' = u64 a
      /\ forall i, 0 <= i < 64 -> Z.testbit (u64 r) i = Z.testbit (u64 a) ((i - u64 m) mod 64)
  else RotateLeft [a; m] = Crash /\ RotateRight [a; m] = Crash.
Proof.
  pose proof (u64_range a) as Ha. pose proof (u64_range m) as Hm.
  unfold RotateLeft, RotateRight, binary.
  destruct (Z.ltb_spec 0 (u64 m)), (Z.ltb_spec (u64 m) 64); simpl; cycle 1.
  1-3: unfold inU in Hm; destruct (rotate_undefined (u64 a) (u64 m)) as [-> ->]; done || lia.
  destruct (rotate_bit (u64 a) (u64 m) 0) as (l & _ & El & _ & Hl & _); [done|lia..|].
  destruct (rotate_bit l (u64 m) 0) as (_ & r & _ & Er & _ & Hr & _); [done|lia..|].
  rewrite El. do 2 eexists. split; [reflexivity|]. rewrite u64_From, wrapU_id, Er by done.
  split; [reflexivity|]. rewrite u64_From, wrapU_id by done.
  assert (Hbit : forall i, 0 <= i < 64 -> Z.testbit l i = Z.testbit (u64 a) ((i - u64 m) mod 64)).
  { intros i Hi. destruct (rotate_bit (u64 a) (u64 m) i) as (l' & _ & El' & _ & _ & _ & Hb & _);
      [done|lia..|]. congruence. }
  split; [|done]. apply Z.bits_inj'. intros i Hi. destruct (Z.ltb_spec i 64).
  - destruct (rotate_bit l (u64 m) i) as (_ & r' & _ & Er' & _ & _ & _ & Hb); [done|lia..|].
    rewrite Er in Er'. injection Er' as <-. rewrite Hb, Hbit by (apply Z.mod_pos_bound; lia).
    f_equal. rewrite Zminus_mod_idemp_l. replace (i + u64 m - u64 m) with i by lia.
    by apply Z.mod_small.
  - by rewrite !(bits_inU 64) by (done || lia).
Qed.

(** ** Type safety *)

(** The methods C leaves undefined for some counts. *)
Definition shifts : list string :=
  ["<<<"%string; ">>>"%string; "<<"%string; ">>"%string; "<<+"%string; "+>>"%string].

(** What a method may do with arguments it was registered for. *)
Definition safe (name : string) (r : Result SmileArg) : Prop :=
  match r with
  | Ok r => exists k, obj r = UnboxedInstance k
  | Throw e => e = sym_native_method_error
  | Crash => In name shifts
  end.

(** What a method is registered to be checked for. *)
Definition checks (n : NativeInfo) (flag : Z) : bool := negb (Z.land (n_argCheckFlags n) flag =? 0).

(** The argument counts a method is registered for. *)
Definition count_ok (n : NativeInfo) (argc : Z) : Prop :=
  (checks n ARG_CHECK_MIN -> n_minArgs n <= argc)
  /\ (checks n ARG_CHECK_MAX -> argc <= n_maxArgs n)
  /\ (checks n ARG_CHECK_EXACT -> argc = n_minArgs n).

(** The kinds a method is registered for: the last pair of its table holds for
    all arguments from there on. *)
Definition kinds_ok (n : NativeInfo) (argv : list SmileArg) : Prop :=
  forall k a, zget argv k = Some a -> 0 < n_numArgsToTypeCheck n ->
    let pair := Z.min k (n_numArgsToTypeCheck n - 1) * 2 in
    zget (n_argTypeChecks n) pair = Some SMILE_KIND_MASK ->
    zget (n_argTypeChecks n) (pair + 1) = Some (ScalarKind_value KInteger64) -> is_int64 a.

Definition method_safe (n : NativeInfo) : Prop :=
  forall f argv, n_function n = Some f -> count_ok n (zlen argv) -> kinds_ok n argv ->
    safe (n_name n) (f argv).

Lemma zget_integer64Checks (i : Z) :
  0 <= i <= 7 ->
  zget _integer64Checks (i * 2) = Some SMILE_KIND_MASK
  /\ zget _integer64Checks (i * 2 + 1) = Some (ScalarKind_value KInteger64).
Proof.
  intros Hi. assert (Hj : In i [0; 1; 2; 3; 4; 5; 6; 7]) by (simpl; lia).
  simpl in Hj. repeat (destruct Hj as [<-|Hj]; [by split|]). done.
Qed.

(** Methods registered with the integer checks get integers only. *)
Lemma kinds_ok_integers (n : NativeInfo) (argv : list SmileArg) :
  n_argTypeChecks n = _integer64Checks -> 0 < n_numArgsToTypeCheck n <= 8 -> kinds_ok n argv ->
  Forall (fun a => is_int64 a) argv.
Proof.
  intros Hc Hn Hk. apply Forall_lookup. intros i a Hi.
  assert (Hz : zget argv (Z.of_nat i) = Some a) by (apply zget_Some; rewrite Nat2Z.id; split; [lia|done]).
  specialize (Hk _ _ Hz ltac:(lia)). rewrite Hc in Hk.
  destruct (zget_integer64Checks (Z.min (Z.of_nat i) (n_numArgsToTypeCheck n - 1))) as [H1 H2]; [lia|].
  by apply Hk.
Qed.

Lemma is_int64_obj (a : SmileArg) : is_int64 a -> exists k, obj a = UnboxedInstance k.
Proof. unfold is_int64. intros H. apply bool_decide_unpack in H. eauto. Qed.

Lemma From_obj (k : ScalarKind) (v : Z) : exists k', obj (SmileUnboxed_From k v) = UnboxedInstance k'.
Proof. by exists k. Qed.

(** Loops whose steps go on or return safely are safe. *)
Lemma switch_argc_safe (name : string) (one : option (SmileArg -> SmileArg)) (get : SmileArg -> Z)
  (step : Step) (argv : list SmileArg) :
  argv <> [] -> Forall (fun a => is_int64 a) argv ->
  (forall f a, one = Some f -> is_int64 a -> exists k, obj (f a) = UnboxedInstance k) ->
  (forall x a, match step x a with inl _ => True | inr r => safe name r end) ->
  safe name (switch_argc one get step argv).
Proof.
  intros Hne Hint Hone Hstep. destruct Hint as [|a l Ha Hl]; [done|]. clear Hne Hl.
  assert (Hloop : safe name (args_loop step (get a) l)).
  { generalize (get a). induction l as [|b l IH]; intros x; [apply From_obj|]. simpl.
    specialize (Hstep x b). destruct (step x b); [apply IH|done]. }
  destruct l as [|b l]; [|by rewrite switch_argc_loop by (by left)].
  destruct one as [f|] eqn:Ef; [by apply (Hone f)|done].
Qed.

#[local] Notation CHECK_EXACT_TYPES := (Z.lor ARG_CHECK_EXACT ARG_CHECK_TYPES).
#[local] Notation CHECK_MIN_TYPES := (Z.lor ARG_CHECK_MIN ARG_CHECK_TYPES).

(** The shapes of the registrations: typed methods of one to three arguments,
    comparisons with anything, methods on any object, methods of many arguments. *)
Lemma method_1 (name : string) f :
  (forall a, is_int64 a -> safe name (f a)) ->
  method_safe (mkNative name (Some (unary f)) CHECK_EXACT_TYPES 1 1 1 _integer64Checks).
Proof.
  intros Hf g argv [= <-] (_ & _ & Hc) Ht. specialize (Hc I). change (zlen argv = 1) in Hc.
  apply kinds_ok_integers in Ht; [|done..]. destruct Ht as [|a l Ha _]; [done|]. by apply Hf.
Qed.

Lemma method_2 (name : string) f :
  (forall a b, is_int64 a -> is_int64 b -> safe name (f a b)) ->
  method_safe (mkNative name (Some (binary f)) CHECK_EXACT_TYPES 2 2 2 _integer64Checks).
Proof.
  intros Hf g argv [= <-] (_ & _ & Hc) Ht. specialize (Hc I). change (zlen argv = 2) in Hc.
  apply kinds_ok_integers in Ht; [|done..]. destruct Ht as [|a l Ha [|b l' Hb _]]; [done..|].
  by apply Hf.
Qed.

Lemma method_3 (name : string) f :
  (forall a b c, is_int64 a -> is_int64 b -> is_int64 c -> safe name (f a b c)) ->
  method_safe (mkNative name (Some (ternary f)) CHECK_EXACT_TYPES 3 3 3 _integer64Checks).
Proof.
  intros Hf g argv [= <-] (_ & _ & Hc) Ht. specialize (Hc I). change (zlen argv = 3) in Hc.
  apply kinds_ok_integers in Ht; [|done..].
  destruct Ht as [|a l Ha [|b l' Hb [|c l'' Hc' _]]]; [done..|]. by apply Hf.
Qed.

Lemma method_any (name : string) f :
  (forall a, safe name (f a)) ->
  method_safe (mkNative name (Some (unary f)) ARG_CHECK_EXACT 1 1 0 []).
Proof. intros Hf g [|a l] [= <-] (_ & _ & Hc) _; [by specialize (Hc I)|]. apply Hf. Qed.

Lemma method_comparison (name : string) f :
  (forall a b, safe name (f a b)) ->
  method_safe (mkNative name (Some (binary f)) CHECK_EXACT_TYPES 2 2 2 _integer64ComparisonChecks).
Proof. intros Hf g [|a [|b l]] [= <-] (_ & _ & Hc) _; [by specialize (Hc I)..|]. apply Hf. Qed.

Lemma method_many (name : string) one get step (minArgs : Z) :
  0 < minArgs ->
  (forall f a, one = Some f -> is_int64 a -> exists k, obj (f a) = UnboxedInstance k) ->
  (forall x a, match step x a with inl _ => True | inr r => safe name r end) ->
  method_safe
    (mkNative name (Some (switch_argc one get step)) CHECK_MIN_TYPES minArgs 0 8 _integer64Checks).
Proof.
  intros Hmin Hone Hstep g argv [= <-] (Hc & _) Ht. specialize (Hc I). change (minArgs <= zlen argv) in Hc.
  apply switch_argc_safe; [|by apply kinds_ok_integers in Ht|done..].
  intros ->. autorewrite with zlen in Hc. lia.
Qed.

(** Nothing is stated of a function that is not modelled. *)
Lemma method_unmodelled name flags minArgs maxArgs num table :
  method_safe (mkNative name None flags minArgs maxArgs num table).
Proof. intros f argv [=]. Qed.

Lemma safe_int64 (name : string) (a : SmileArg) : is_int64 a -> safe name (Ok a).
Proof. apply is_int64_obj. Qed.

Lemma safe_From (name : string) (k : ScalarKind) (v : Z) : safe name (Ok (SmileUnboxed_From k v)).
Proof. by exists k. Qed.

Lemma DivideByZero_safe (name : string) (param : MathInfo) : safe name (DivideByZero param).
Proof. unfold DivideByZero. destruct (isLoud param); [done|apply safe_From]. Qed.

Lemma divide_safe (name : string) (param : MathInfo) get div (x : Z) (a : SmileArg) :
  match divide param get div x a with inl _ => True | inr r => safe name r end.
Proof. unfold divide. destruct (get a =? 0); [apply DivideByZero_safe|done]. Qed.

(** Follow every branch of a method to its answer. *)
Ltac safe_branches :=
  repeat match goal with
         | |- safe _ (if ?c then _ else _) => destruct c eqn:?
         | |- safe _ (Ok (if ?c then _ else _)) => destruct c
         | |- safe _ (Result_bind (orCrash ?o) _) => destruct o eqn:?; cbn [orCrash Result_bind]
         end;
  try match goal with
      | |- safe _ (Ok (SmileUnboxedInteger64_From _)) => apply safe_From
      | |- safe _ (Ok (SmileUnboxedBool_From _)) => apply safe_From
      | |- safe _ (Ok (SmileUnboxedUni_FromSafeInt64 _)) => apply safe_From
      | |- safe _ (Ok (SmileUnboxed_From _ _)) => apply safe_From
      | H : is_int64 ?a = true |- safe _ (Ok ?a) => apply safe_int64; by rewrite H
      | |- safe _ (Ok ?a) => by apply safe_int64
      | |- safe _ Crash => vm_compute; tauto
      | |- safe _ (DivideByZero _) => apply DivideByZero_safe
      | |- safe _ (Throw _) => reflexivity
      end.

Lemma methods_safe : Forall method_safe SmileInteger64_Setup.
Proof.
  unfold SmileInteger64_Setup.
  repeat (apply Forall_cons; split;
    [first [apply method_unmodelled|apply method_1|apply method_2|apply method_3|apply method_any|apply method_comparison
           |apply method_many; [lia|..]]|]).
  all: intros; cbv beta zeta.
  (* the single argument of the functions of many arguments *)
  all: try match goal with
         H : Some _ = Some _ |- _ => injection H as <-; by first [apply is_int64_obj|apply From_obj] end.
  all: try discriminate.
  (* the steps *)
  all: try apply divide_safe; try exact I.
  all: try (rewrite IntPower_spec by (done || apply i64_range); exact I).
  all: safe_branches.
  all: try by apply Forall_nil.
  (* the algorithms always return *)
  all: zbool; match goal with H : _ = None |- _ => exfalso end.
  1-2: rewrite sqrt_positive in *; done.
  all: rewrite gcd_positive in *; done.
Qed.

(** A method's calling convention, from the flags it is registered with. *)
Definition convention (n : NativeInfo) : ExternalConvention :=
  let f := ef_argCheckFlags (SetupFunction n) in
  mkConvention (Z.testbit f 0) (Z.testbit f 1) (Z.testbit f 2) (Z.testbit f 3) (Z.testbit f 4).

(** The convention makes the registered checks, its table of type checks is long
    enough, and all methods but [random] need an argument. *)
Definition checks_ok (n : NativeInfo) : Prop :=
  GetExternalFunctionVTableByFlags (ef_argCheckFlags (SetupFunction n))
  = Some (external_call (convention n))
  /\ checkMin (convention n) = checks n ARG_CHECK_MIN
  /\ checkMax (convention n) = checks n ARG_CHECK_MAX
  /\ checkExact (convention n) = checks n ARG_CHECK_EXACT
  /\ isStateMachine (convention n) = false
  /\ checkTypes (convention n) = negb (n_numArgsToTypeCheck n =? 0)
  /\ 0 <= n_numArgsToTypeCheck n /\ 2 * n_numArgsToTypeCheck n <= zlen (n_argTypeChecks n)
  /\ (n_name n = "random"%string \/
       0 < n_minArgs n /\ checks n ARG_CHECK_MIN || checks n ARG_CHECK_EXACT).

Lemma Setup_checks_ok : Forall checks_ok SmileInteger64_Setup.
Proof.
  unfold SmileInteger64_Setup. repeat (apply Forall_cons; split); try by apply Forall_nil.
  all: unfold checks_ok; repeat split; try (vm_compute; done).
  all: first [by left|right; vm_compute; done].
Qed.

(** The kinds of heap cells outside the model are not those of unboxed scalars. *)
Definition other_kinds (h : Heap) : Prop :=
  forall r k b, h !! r = Some (HOther k b) -> 0x20 <= k <= SMILE_KIND_MASK.

Lemma integer_kind (h : Heap) (o : SmileObject) (kind : Z) :
  other_kinds h -> SMILE_KIND h o = Some kind ->
  Z.land kind SMILE_KIND_MASK = ScalarKind_value KInteger64 -> o = UnboxedInstance KInteger64.
Proof.
  intros Hh Hk He. unfold SMILE_KIND in Hk.
  repeat case_match; simplify_eq; try done;
    try (match goal with k : ScalarKind |- _ => destruct k; done end).
  exfalso. specialize (Hh _ _ _ H0). unfold SMILE_KIND_MASK in *.
  change 0xFF with (Z.ones 8) in He. rewrite Z.land_ones, Z.mod_small in He by lia.
  vm_compute in He. lia.
Qed.

(** The checks of a registered method can be evaluated on any arguments. *)
Lemma registered_checked (n : NativeInfo) (h : Heap) (argv : list SmileArg) (k : Z) :
  checks_ok n -> 0 <= k < zlen argv -> 0 < n_numArgsToTypeCheck n ->
  Forall (fun a => is_Some (SMILE_KIND h (obj a))) argv ->
  checked (type_check h argv (n_argTypeChecks n) k (Z.min k (n_numArgsToTypeCheck n - 1))).
Proof.
  intros (_ & _ & _ & _ & _ & _ & Hn & Hlen & _) Hk Hpos Hkinds. unfold type_check.
  apply zget_is_Some in Hk as [a Ha]. rewrite Ha. cbn [orCrash Result_bind].
  rewrite Forall_forall in Hkinds. destruct (Hkinds a) as [kind ->].
  { apply zget_Some in Ha as [_ Ha]. by eapply list_elem_of_lookup_2. }
  cbn [orCrash Result_bind]. apply zget_Some in Ha as [Hk0 _].
  assert (Hm : forall i, 0 <= i <= 1 ->
    is_Some (zget (n_argTypeChecks n) (Z.min k (n_numArgsToTypeCheck n - 1) * 2 + i)))
    by (intros i Hi; apply zget_is_Some; lia).
  destruct (Hm 0 ltac:(lia)) as [mask Emask]. destruct (Hm 1 ltac:(lia)) as [compare ->].
  rewrite Z.add_0_r in Emask. rewrite Emask. cbn [orCrash Result_bind].
  destruct (negb _); [by right|by left].
Qed.

(** Arguments that pass the checks have the registered kinds. *)
Lemma checked_kinds (n : NativeInfo) (h : Heap) (argv : list SmileArg) :
  other_kinds h ->
  PerformTypeChecks h (zlen argv) argv (n_numArgsToTypeCheck n) (n_argTypeChecks n) = Ok tt ->
  kinds_ok n argv.
Proof.
  intros Hh Hp k a Hz Hnum pair Hmask Hkind.
  rewrite PerformTypeChecks_ok in Hp by (lia || apply zlen_nonneg).
  assert (Hr : 0 <= k < zlen argv) by (apply zget_is_Some; by rewrite Hz).
  specialize (Hp k Hr). unfold type_check in Hp. fold pair in Hp. rewrite Hz, Hmask, Hkind in Hp.
  cbn [orCrash Result_bind] in Hp.
  destruct (SMILE_KIND h (obj a)) as [kind|] eqn:Ek; [|done]. cbn [orCrash Result_bind] in Hp.
  destruct (Z.eqb_spec (Z.land kind SMILE_KIND_MASK) (ScalarKind_value KInteger64)); [|done].
  unfold is_int64. apply bool_decide_pack. by apply (integer_kind h _ kind).
Qed.

(** C22: every registered method of 64-bit integers is called by the convention its
    flags and limits ask for: a call with any arguments either throws before
    the C function runs, or runs it on an argument count and on argument kinds
    it is registered for, with at least one argument unless it is [random];
    and each of the functions whose body is modelled (all but the eleven that
    convert to text or to the decimal and floating kinds, hash, parse, make a
    range or a random number) then answers an unboxed scalar or throws a
    [native-method-error], only the shifts and rotations having undefined
    counts. *)
Theorem methods_are_type_safe (n : NativeInfo) (m : Machine) (cl : Closure) (fn : nat)
  (argv : list SmileArg) (extra : Z) :
  In n SmileInteger64_Setup -> cur_closure m = Ok cl ->
  read_args (variables cl) (stackTop cl - zlen argv) (Z.to_nat (zlen argv)) = Some argv ->
  Forall (fun a => is_Some (SMILE_KIND (heap m) (obj a))) argv -> other_kinds (heap m) ->
  exists f, GetExternalFunctionVTableByFlags (ef_argCheckFlags (SetupFunction n)) = Some f
    /\ (f m fn (SetupFunction n) (zlen argv) extra = Exception sym_native_method_error
        \/ (f m fn (SetupFunction n) (zlen argv) extra
              = External (CallExternal fn argv)
                  (put_closure (set_stackTop (stackTop cl - zlen argv - extra) cl) m)
            /\ count_ok n (zlen argv) /\ kinds_ok n argv
            /\ (n_name n = "random"%string \/ argv <> [])
            /\ forall g, n_function n = Some g -> safe (n_name n) (g argv))).
Proof.
  intros Hin Hcl Hargs Hkinds Hheap.
  assert (Hc : checks_ok n) by (pose proof Setup_checks_ok as H; rewrite List.Forall_forall in H; by apply H).
  assert (Hs : method_safe n) by (pose proof methods_safe as H; rewrite List.Forall_forall in H; by apply H).
  pose proof Hc as (Hv & Hmin & Hmax & Hexact & Hsm & Htypes & Hn & _ & Hone).
  eexists. split; [exact Hv|]. unfold external_call. rewrite Hcl. cbn [lift].
  rewrite Hmax, Hexact, Hmin, Hsm, Htypes. simpl ef_minArgs. simpl ef_maxArgs.
  simpl ef_numArgsToTypeCheck. simpl ef_argTypeChecks.
  unfold ThrowMinCheckError, ThrowMaxCheckError, ThrowExactCheckError. rewrite Hargs.
  cbn [lift orCrash].
  set (types := if negb (n_numArgsToTypeCheck n =? 0) then _ else Ok tt).
  assert (Ht : checked types /\ (types = Ok tt -> kinds_ok n argv)).
  { subst types. destruct (Z.eqb_spec (n_numArgsToTypeCheck n) 0); simpl.
    - split; [by left|]. intros _ k a _ Hpos. lia.
    - split; [|by apply checked_kinds].
      apply PerformTypeChecks_checked; [lia|apply zlen_nonneg|].
      intros k Hk. apply registered_checked; done || lia. }
  destruct Ht as [Ht Hok]. clearbody types. destruct (checks n ARG_CHECK_MIN && _) eqn:E1; [by left|].
  destruct (checks n ARG_CHECK_MAX && _) eqn:E2; [by left|].
  destruct (checks n ARG_CHECK_EXACT && _) eqn:E3; [by left|]. cbn [lift].
  destruct Ht as [-> | ->]; [right|by left]. split; [done|].
  assert (Hcount : count_ok n (zlen argv)).
  { split; [|split]; intros H; rewrite Is_true_true in H; rewrite H in *; zbool; lia. }
  split; [done|]. split; [by apply Hok|]. split; [|intros g Hg; by apply Hs, Hok].
  destruct Hone as [|[Hpos H]]; [by left|right]. intros ->. destruct Hcount as (H1 & _ & H3).
  autorewrite with zlen in H1, H3. apply orb_True in H as [H|H]; [specialize (H1 H)|specialize (H3 H)]; lia.
Qed.

(** [random] is registered with no checks: it runs, and reads its first
    argument, also when it is called with none. *)
Example random_without_arguments (m : Machine) (cl : Closure) (fn : nat) (extra : Z) :
  cur_closure m = Ok cl ->
  In (mkNative "random" None 0 1 1 0 []) SmileInteger64_Setup
  /\ exists f, GetExternalFunctionVTableByFlags
                 (ef_argCheckFlags (SetupFunction (mkNative "random" None 0 1 1 0 []))) = Some f
     /\ f m fn (SetupFunction (mkNative "random" None 0 1 1 0 [])) 0 extra
        = External (CallExternal fn []) (put_closure (set_stackTop (stackTop cl - 0 - extra) cl) m).
Proof.
  intros Hcl. split; [unfold SmileInteger64_Setup; repeat (first [left; reflexivity|right])|].
  eexists. split; [reflexivity|]. unfold SmileExternalFunction_NoCheck_Call, external_call.
  by rewrite Hcl.
Qed.

End Integer64Props.

(** ** Witnesses *)
Section Witnesses.
#[local] Existing Instance example_env.

#[local] Notation int v := (SmileUnboxedInteger64_From v).

Lemma ring_operations_wrap_witness :
  result (Plus [int (2 ^ 63 - 1); int 2; int 3; int 4; int 5]) = Some (- 2 ^ 63 + 13)
  /\ result (UFMA [int (2 ^ 63 - 1); int 2; int (-3)]) = Some (2 ^ 63 - 7).
Proof.
  destruct (ring_operations_wrap (int (2 ^ 63 - 1)) [int 2; int 3; int 4; int 5] I)
    as (H1 & _ & _ & _ & H5).
  destruct (H5 (int 2) (int (-3))) as [Hf Hu].
  split; [exact H1|]. exact (eq_trans Hu Hf).
Defined.

Lemma extrema_witness : result (Min [int 5; int (-3); int 2]) = Some (-3).
Proof. exact (proj1 (extrema (int 5) (int 0) (int 0) [int (-3); int 2] I I I)). Defined.

Lemma reversals_witness :
  exists r, ReverseBytes [int 0x0102030405060708] = Ok r
    /\ Z.testbit (u64 r) (8 * 0 + 0) = Z.testbit (u64 (int 0x0102030405060708)) (8 * (7 - 0) + 0).
Proof.
  destruct (reversals (int 0x0102030405060708) []) as [_ (r & Hr & Hb)].
  exists r. split; [exact Hr|]. apply (Hb 0 0); lia.
Defined.

Lemma rotations_witness :
  exists r r', RotateLeft [int 1; int 63] = Ok r /\ RotateRight [r; int 63] = Ok r' /\ u64 r' = 1.
Proof.
  destruct (rotations (int 1) (int 63)) as (r & r' & H1 & H2 & H3 & _).
  exists r, r'. split; [exact H1|]. split; [exact H2|exact H3].
Defined.

Lemma methods_are_type_safe_witness :
  exists f, GetExternalFunctionVTableByFlags 12 = Some f
    /\ (f example_machine 0%nat (mkExternalFunctionInfo 12 1 1 1 _integer64Checks) 1 1
          = Exception sym_native_method_error
        \/ (f example_machine 0%nat (mkExternalFunctionInfo 12 1 1 1 _integer64Checks) 1 1
              = External (CallExternal 0 [int 7])
                  (put_closure (set_stackTop 2 example_caller) example_machine)
            /\ safe "abs" (Abs [int 7]))).
Proof.
  destruct (methods_are_type_safe
    (mkNative "abs" (Some Abs) (Z.lor ARG_CHECK_EXACT ARG_CHECK_TYPES) 1 1 1 _integer64Checks)
    example_machine example_caller 0 [int 7] 1) as (f & Hf & Hcall).
  - unfold SmileInteger64_Setup. repeat (first [left; reflexivity|right]).
  - reflexivity.
  - reflexivity.
  - repeat constructor. eexists. reflexivity.
  - intros [|r] k b H; [discriminate|destruct r; discriminate].
  - exists f. split; [exact Hf|]. destruct Hcall as [H|(H & _ & _ & _ & Hs)]; [left; exact H|right].
    split; [exact H|]. apply (Hs Abs). reflexivity.
Defined.

End Witnesses.
