(* ===== verification/Eval.v ===== *)
(** * Eval: the byte-code interpreter

    [Eval_RunCore] of [src/eval/eval.c], one definition per group of opcodes
    (the groups are the comment blocks of the source), [Eval_Run], and the
    continuation of the requests an instruction hands to C code. *)

From S2P Require Import Prelude Opcode ByteCode Object Closure Machine FnCall.
Import Operand.

Definition SMILE_SPECIAL_SYMBOL_GET_MEMBER : Symbol := 92.
Definition SMILE_SPECIAL_SYMBOL_SET_MEMBER : Symbol := 93.

Section Eval.
Context {E : ObjectEnv} (P : Program).

(** An instruction that only changes the current closure, then [byteCode++]. *)
Definition on_closure (m : Machine) (f : Closure -> Result Closure) : Outcome :=
  run (let* cl := cur_closure m in
       let* cl := f cl in
       Ok (advance (put_closure cl m))).

(** ** 00-0F: stack and state management *)

Definition eval_stack (b : ByteCode) (m : Machine) : Outcome :=
  let dup cl (k : Z) :=
    let? arg := zget (variables cl) (stackTop cl - k) in Closure_Push cl arg in
  let rep cl (k : Z) :=
    let? arg := zget (variables cl) (stackTop cl - 1) in
    let? v := zset (variables cl) (stackTop cl - (k + 1)) arg in
    Ok (Closure_PopCount (set_variables v cl) k) in
  match opcode b with
  | Op_Nop => Next (advance m)
  | Op_Dup1 => on_closure m (fun cl => dup cl 1)
  | Op_Dup2 => on_closure m (fun cl => dup cl 2)
  | Op_Dup => on_closure m (fun cl => dup cl (get_index (u b)))
  | Op_Pop1 => on_closure m (fun cl => Ok (Closure_PopCount cl 1))
  | Op_Pop2 => on_closure m (fun cl => Ok (Closure_PopCount cl 2))
  | Op_Pop => on_closure m (fun cl => Ok (Closure_PopCount cl (get_index (u b))))
  | Op_Rep1 => on_closure m (fun cl => rep cl 1)
  | Op_Rep2 => on_closure m (fun cl => rep cl 2)
  | Op_Rep => on_closure m (fun cl => rep cl (get_index (u b)))
  | Op_Brk => Breakpoint m
  | _ => Exception sym_eval_error
  end.

(** ** 10-2F: literals *)

Definition eval_load (b : ByteCode) (m : Machine) : Outcome :=
  let table (f : CompiledTables -> list SmileObject) :=
    let! t := cur_tables P m in
    on_closure m (fun cl =>
      let? o := zget (f t) (get_index (u b)) in Closure_PushBoxed cl o) in
  match opcode b with
  | Op_LdNull => on_closure m (fun cl => Closure_PushBoxed cl NullObject)
  | Op_LdBool => on_closure m (fun cl => Closure_PushUnboxed KBool cl (get_byte (u b)))
  | Op_LdStr => table t_strings
  | Op_LdSym => on_closure m (fun cl => Closure_PushUnboxed KSymbol cl (get_symbol (u b)))
  | Op_LdObj => table t_objects
  | Op_LdClos => Exception sym_eval_error
  | Op_LdChar => on_closure m (fun cl => Closure_PushUnboxed KChar cl (get_ch (u b)))
  | Op_LdUni => on_closure m (fun cl => Closure_PushUnboxed KUni cl (get_uni (u b)))
  | Op_Ld8 => on_closure m (fun cl => Closure_PushUnboxed KByte cl (get_byte (u b)))
  | Op_Ld16 => on_closure m (fun cl => Closure_PushUnboxed KInteger16 cl (get_int16 (u b)))
  | Op_Ld32 => on_closure m (fun cl => Closure_PushUnboxed KInteger32 cl (get_int32 (u b)))
  | Op_Ld64 => on_closure m (fun cl => Closure_PushUnboxed KInteger64 cl (get_int64 (u b)))
  | Op_Ld128 => table t_objects
  | Op_LdR32 => on_closure m (fun cl => Closure_PushUnboxed KReal32 cl (get_bits32 (u b)))
  | Op_LdR64 => on_closure m (fun cl => Closure_PushUnboxed KReal64 cl (get_bits64 (u b)))
  | Op_LdR16 | Op_LdR128 => Exception sym_eval_error
  | Op_LdF32 => on_closure m (fun cl => Closure_PushUnboxed KFloat32 cl (get_bits32 (u b)))
  | Op_LdF64 => on_closure m (fun cl => Closure_PushUnboxed KFloat64 cl (get_bits64 (u b)))
  | Op_LdF16 | Op_LdF128 => Exception sym_eval_error
  | _ => Exception sym_eval_error
  end.

(** ** 30-3F: variables at any scope, globals *)

(** Push what an accessor reads. *)
Definition load_variable (m : Machine) (r : Result SmileArg) : Outcome :=
  let! arg := r in on_closure m (fun cl => Closure_Push cl arg).

(** Store the top of the stack through an accessor, keeping it or popping it
    first; the C code evaluates the popped argument before the store. *)
Definition store_top (m : Machine) (set : Store -> SmileArg -> Result Store) : Outcome :=
  run (let* cl := cur_closure m in
       let* arg := Closure_GetTop cl in
       let* s := set (store m) arg in
       Ok (advance (set_store s m))).

Definition store_pop (m : Machine) (set : Store -> SmileArg -> Result Store) : Outcome :=
  run (let* cl := cur_closure m in
       let* (arg, cl) := Closure_Pop cl in
       let* s := set (store (put_closure cl m)) arg in
       Ok (advance (set_store s m))).

Definition eval_variable (b : ByteCode) (m : Machine) : Outcome :=
  let scope := get_i2_a (u b) in
  let index := get_i2_b (u b) in
  let fuel := closure_fuel m in
  match opcode b with
  | Op_LdLoc => load_variable m (Closure_GetLocalVariableInScope (store m) (cur m) scope index)
  | Op_StLoc => store_top m (fun s => Closure_SetLocalVariableInScope s (cur m) scope index)
  | Op_StpLoc => store_pop m (fun s => Closure_SetLocalVariableInScope s (cur m) scope index)
  | Op_LdArg => load_variable m (Closure_GetArgumentInScope (store m) (cur m) scope index)
  | Op_StArg => store_top m (fun s => Closure_SetArgumentInScope s (cur m) scope index)
  | Op_StpArg => store_pop m (fun s => Closure_SetArgumentInScope s (cur m) scope index)
  | Op_LdX =>
      let! value := Closure_GetGlobalVariable fuel (store m) (cur m) (get_symbol (u b)) in
      on_closure m (fun cl => Closure_UnboxAndPush (heap m) cl value)
  | Op_StX =>
      run (let* cl := cur_closure m in
           let* arg := Closure_GetTop cl in
           let* (h, value) := SmileArg_Box (heap m) arg in
           let* s := Closure_SetGlobalVariable fuel (store m) (cur m) (get_symbol (u b)) value in
           Ok (advance (set_heap h (set_store s m))))
  | Op_StpX =>
      run (let* cl := cur_closure m in
           let* (arg, cl) := Closure_Pop cl in
           let* (h, value) := SmileArg_Box (heap m) arg in
           let* s := Closure_SetGlobalVariable fuel (store (put_closure cl m)) (cur m)
                       (get_symbol (u b)) value in
           Ok (advance (set_heap h (set_store s m))))
  | Op_NullLoc0 =>
      on_closure m (fun cl =>
        Closure_SetLocalVariable cl (get_index (u b)) (SmileArg_From NullObject))
  | Op_NullArg0 =>
      on_closure m (fun cl => Closure_SetArgument cl (get_index (u b)) (SmileArg_From NullObject))
  | Op_NullX =>
      run (let* s := Closure_SetGlobalVariable fuel (store m) (cur m) (get_symbol (u b))
                       NullObject in
           Ok (advance (set_store s m)))
  | _ => Exception sym_eval_error
  end.

(** ** 40-6F: variables at a fixed scope

    The macros spell the parents out and take a 64-bit index. *)

Definition ancestor_get (get : Closure -> Z -> Result SmileArg) (m : Machine) (scope : nat) (index : Z)
  : Result SmileArg :=
  let* c := ancestor (store m) (cur m) scope in
  let* cl := get_closure (store m) c in
  get cl index.

Definition ancestor_set (set : Closure -> Z -> SmileArg -> Result Closure) (m : Machine)
  (scope : nat) (index : Z) (s : Store) (arg : SmileArg) : Result Store :=
  let* c := ancestor s (cur m) scope in
  let* cl := get_closure s c in
  let* cl := set cl index arg in
  Ok (update_closure s c cl).

Definition eval_load_fixed (b : ByteCode) (m : Machine) : Outcome :=
  let arg n := load_variable m (ancestor_get Closure_GetArgument m n (get_index (u b))) in
  let loc n := load_variable m (ancestor_get Closure_GetLocalVariable m n (get_index (u b))) in
  match opcode b with
  | Op_LdArg0 => arg 0%nat | Op_LdArg1 => arg 1%nat | Op_LdArg2 => arg 2%nat
  | Op_LdArg3 => arg 3%nat | Op_LdArg4 => arg 4%nat | Op_LdArg5 => arg 5%nat
  | Op_LdArg6 => arg 6%nat | Op_LdArg7 => arg 7%nat
  | Op_LdLoc0 => loc 0%nat | Op_LdLoc1 => loc 1%nat | Op_LdLoc2 => loc 2%nat
  | Op_LdLoc3 => loc 3%nat | Op_LdLoc4 => loc 4%nat | Op_LdLoc5 => loc 5%nat
  | Op_LdLoc6 => loc 6%nat | Op_LdLoc7 => loc 7%nat
  | _ => Exception sym_eval_error
  end.

Definition eval_store_fixed (b : ByteCode) (m : Machine) : Outcome :=
  let arg n := store_top m (ancestor_set Closure_SetArgument m n (get_index (u b))) in
  let loc n := store_top m (ancestor_set Closure_SetLocalVariable m n (get_index (u b))) in
  match opcode b with
  | Op_StArg0 => arg 0%nat | Op_StArg1 => arg 1%nat | Op_StArg2 => arg 2%nat
  | Op_StArg3 => arg 3%nat | Op_StArg4 => arg 4%nat | Op_StArg5 => arg 5%nat
  | Op_StArg6 => arg 6%nat | Op_StArg7 => arg 7%nat
  | Op_StLoc0 => loc 0%nat | Op_StLoc1 => loc 1%nat | Op_StLoc2 => loc 2%nat
  | Op_StLoc3 => loc 3%nat | Op_StLoc4 => loc 4%nat | Op_StLoc5 => loc 5%nat
  | Op_StLoc6 => loc 6%nat | Op_StLoc7 => loc 7%nat
  | _ => Exception sym_eval_error
  end.

Definition eval_store_pop_fixed (b : ByteCode) (m : Machine) : Outcome :=
  let arg n := store_pop m (ancestor_set Closure_SetArgument m n (get_index (u b))) in
  let loc n := store_pop m (ancestor_set Closure_SetLocalVariable m n (get_index (u b))) in
  match opcode b with
  | Op_StpArg0 => arg 0%nat | Op_StpArg1 => arg 1%nat | Op_StpArg2 => arg 2%nat
  | Op_StpArg3 => arg 3%nat | Op_StpArg4 => arg 4%nat | Op_StpArg5 => arg 5%nat
  | Op_StpArg6 => arg 6%nat | Op_StpArg7 => arg 7%nat
  | Op_StpLoc0 => loc 0%nat | Op_StpLoc1 => loc 1%nat | Op_StpLoc2 => loc 2%nat
  | Op_StpLoc3 => loc 3%nat | Op_StpLoc4 => loc 4%nat | Op_StpLoc5 => loc 5%nat
  | Op_StpLoc6 => loc 6%nat | Op_StpLoc7 => loc 7%nat
  | _ => Exception sym_eval_error
  end.

(** ** 70-7F: properties and members *)

(** [SMILE_CALL_METHOD]: look the method up and call it without an extra slot;
    [m] already has the program counter of the next instruction. *)
Definition call_method (m : Machine) (target : SmileObject) (name : Symbol) (argc : Z) : Outcome :=
  let! (h, method) := getProperty (base_fuel m) (heap m) target name in
  let! kind := orCrash (SMILE_KIND h method) in
  if negb (kind =? SMILE_KIND_FUNCTION) then Exception sym_property_error
  else call P (base_fuel m) (set_heap h m) method argc 0.

(** Fetch the target [offset] below the top, step, and call its method. *)
Definition invoke_method (m : Machine) (offset : Z) (name : Symbol) (argc : Z) : Outcome :=
  let! cl := cur_closure m in
  let! target := Closure_GetTemp cl offset in
  call_method (advance m) (obj target) name argc.

Definition eval_property (b : ByteCode) (m : Machine) : Outcome :=
  let name := get_symbol (u b) in
  match opcode b with
  | Op_LdProp =>
      run (let* cl := cur_closure m in
           let* top := Closure_GetTop cl in
           let* (h, value) := getProperty (base_fuel m) (heap m) (obj top) name in
           let* arg := SmileArg_Unbox h value in
           let* cl := Closure_SetTop cl arg in
           Ok (advance (set_heap h (put_closure cl m))))
  | Op_StProp =>
      run (let* cl := cur_closure m in
           let* target := Closure_GetTemp cl 1 in
           let* arg := Closure_GetTemp cl 0 in
           let* (h, value) := SmileArg_Box (heap m) arg in
           let* h := setProperty h (obj target) name value in
           let* cl := Closure_SetTop (Closure_PopCount cl 1) arg in
           Ok (advance (set_heap h (put_closure cl m))))
  | Op_StpProp =>
      run (let* cl := cur_closure m in
           let* target := Closure_GetTemp cl 1 in
           let* arg := Closure_GetTemp cl 0 in
           let* (h, value) := SmileArg_Box (heap m) arg in
           let* h := setProperty h (obj target) name value in
           Ok (advance (set_heap h (put_closure (Closure_PopCount cl 2) m))))
  | Op_LdMember => invoke_method m 1 SMILE_SPECIAL_SYMBOL_GET_MEMBER 2
  | Op_StMember =>
      let! cl := cur_closure m in
      let! cl := (let* x := Closure_GetTemp cl 1 in Closure_SetTemp cl 0 x) in
      let! cl := (let* x := Closure_GetTemp cl 2 in Closure_SetTemp cl 1 x) in
      let! cl := (let* x := Closure_GetTemp cl 3 in Closure_SetTemp cl 2 x) in
      let! cl := (let* x := Closure_GetTemp cl 0 in Closure_SetTemp cl 3 x) in
      invoke_method (put_closure cl m) 2 SMILE_SPECIAL_SYMBOL_SET_MEMBER 3
  | Op_StpMember => invoke_method m 2 SMILE_SPECIAL_SYMBOL_SET_MEMBER 3
  | Op_LdInclude => External (Include (get_i2_a (u b)) (get_i2_b (u b))) m
  | _ => Exception sym_eval_error
  end.

(** ** 80-8F: specialty types *)

Definition eval_types (b : ByteCode) (m : Machine) : Outcome :=
  let compare (negate : bool) :=
    run (let* cl := cur_closure m in
         let* (arg2, cl) := Closure_Pop cl in
         let* (arg, cl) := Closure_Pop cl in
         let* r := compareEqual (heap m) (obj arg) (unboxed arg) (obj arg2) (unboxed arg2) in
         let* cl := Closure_PushUnboxedBool cl (xorb negate r) in
         Ok (advance (put_closure cl m))) in
  let car :=
    run (let* cl := cur_closure m in
         let* top := Closure_GetTop cl in
         let? kind := SMILE_KIND (heap m) (obj top) in
         let value := match deref (heap m) (obj top) with
                      | Some (HList a _) => a
                      | _ => NullObject
                      end in
         let* arg := SmileArg_Unbox (heap m) value in
         let* cl := Closure_SetTop cl arg in
         Ok (advance (put_closure cl m))) in
  match opcode b with
  | Op_Cons =>
      run (let* cl := cur_closure m in
           let* x := Closure_GetTemp cl 1 in
           let* y := Closure_GetTemp cl 0 in
           let* (h, a) := SmileArg_Box (heap m) x in
           let* (h, d) := SmileArg_Box h y in
           let (h, value) := SmileList_Cons h a d in
           let* cl := Closure_PushBoxed (Closure_PopCount cl 2) value in
           Ok (advance (set_heap h (put_closure cl m))))
  | Op_Car => car
  | Op_Cdr => car
  | Op_NewFn =>
      run (let* t := cur_tables P m in
           let? fn := zget (t_userFunctions t) (get_index (u b)) in
           let (h, value) := SmileFunction_CreateUserFunction (heap m) fn (cur m) in
           let* cl := cur_closure m in
           let* cl := Closure_PushBoxed cl value in
           Ok (advance (set_heap h (put_closure cl m))))
  | Op_NewObj =>
      run (let index := get_index (u b) in
           let* cl := cur_closure m in
           let* base := Closure_GetTemp cl (2 * index) in
           let* (h, base) := SmileArg_Box (heap m) base in
           let? pairs := read_args (variables cl) (stackTop cl - 2 * index) (Z.to_nat (2 * index)) in
           let* (h, value) := SmileUserObject_CreateFromArgPairs h base 0 pairs in
           let* cl := Closure_PushBoxed (Closure_PopCount cl (2 * index + 1)) value in
           Ok (advance (set_heap h (put_closure cl m))))
  | Op_SuperEq => compare false
  | Op_SuperNe => compare true
  | Op_Not =>
      run (let* cl := cur_closure m in
           let* (arg, cl) := Closure_Pop cl in
           let? kind := SMILE_KIND (heap m) (obj arg) in
           let* v := (if kind =? 0x10 + ScalarKind_value KBool
                      then toBool (heap m) (obj arg) (unboxed arg)
                      else Ok (negb (get_byte (unboxed arg) =? 0))) in
           let* cl := Closure_PushUnboxedBool cl (negb v) in
           Ok (advance (put_closure cl m)))
  | Op_Is =>
      run (let* cl := cur_closure m in
           let* (arg2, cl) := Closure_Pop cl in
           let* (arg, cl) := Closure_Pop cl in
           let* r := Is (base_fuel m) (heap m) arg arg2 in
           let* cl := Closure_PushUnboxedBool cl r in
           Ok (advance (put_closure cl m)))
  | Op_TypeOf =>
      run (let* cl := cur_closure m in
           let* top := Closure_GetTop cl in
           let? kind := SMILE_KIND (heap m) (obj top) in
           let* cl := Closure_SetTop cl (SmileUnboxed_From KSymbol (SmileKind_GetTypeOf kind)) in
           Ok (advance (put_closure cl m)))
  | _ => Exception sym_eval_error
  end.

(** ** 90-AF and the general forms: calls *)

(** Fetch the function [argc] below the top, step, and call it; its own slot is
    the one extra. *)
Definition invoke_function (m : Machine) (argc : Z) : Outcome :=
  let! cl := cur_closure m in
  let! target := Closure_GetTemp cl argc in
  call P (base_fuel m) (advance m) (obj target) argc 1.

Definition eval_call (b : ByteCode) (m : Machine) : Outcome :=
  let method n := invoke_method m n (get_symbol (u b)) (n + 1) in
  match opcode b with
  | Op_Call0 => invoke_function m 0 | Op_Call1 => invoke_function m 1
  | Op_Call2 => invoke_function m 2 | Op_Call3 => invoke_function m 3
  | Op_Call4 => invoke_function m 4 | Op_Call5 => invoke_function m 5
  | Op_Call6 => invoke_function m 6 | Op_Call7 => invoke_function m 7
  | Op_Met0 => method 0 | Op_Met1 => method 1 | Op_Met2 => method 2 | Op_Met3 => method 3
  | Op_Met4 => method 4 | Op_Met5 => method 5 | Op_Met6 => method 6 | Op_Met7 => method 7
  | Op_Met => invoke_method m (get_i2_a (u b)) (get_i2_b (u b)) (get_i2_a (u b) + 1)
  | Op_Call => invoke_function m (get_index (u b))
  | Op_TCall0 | Op_TCall1 | Op_TCall2 | Op_TCall3 | Op_TCall4 | Op_TCall5 | Op_TCall6 | Op_TCall7
  | Op_TMet0 | Op_TMet1 | Op_TMet2 | Op_TMet3 | Op_TMet4 | Op_TMet5 | Op_TMet6 | Op_TMet7
  | Op_TMet | Op_TCall => Exception sym_eval_error
  | _ => Exception sym_eval_error
  end.

(** ** B0-BF: flow control *)

(** [byteCode += byteCode->u.index] *)
Definition jump (b : ByteCode) (m : Machine) : Machine := set_pc (pc m + get_index (u b)) m.

(** Pop the condition; unboxed booleans are tested directly. *)
Definition branch (b : ByteCode) (m : Machine) (onTrue : bool) : Outcome :=
  run (let* cl := cur_closure m in
       let* (arg, cl) := Closure_Pop cl in
       let m := put_closure cl m in
       let? kind := SMILE_KIND (heap m) (obj arg) in
       let* v := (if kind =? ScalarKind_value KBool
                  then Ok (negb (get_byte (unboxed arg) =? 0))
                  else toBool (heap m) (obj arg) (unboxed arg)) in
       Ok (if Bool.eqb v onTrue then jump b m else advance m)).

(** [do_return] *)
Definition do_return (m : Machine) : Outcome :=
  let! cl := cur_closure m in
  match returnClosure cl with
  | None => Returned m
  | Some rc =>
      run (let* (arg, cl') := Closure_Pop cl in
           let m := put_closure cl' m in
           let? rs := returnSegment cl in
           let? _ := segments P !! rs in
           let m := mkMachine (store m) (heap m) rc rs (returnPc cl) in
           let* rcl := cur_closure m in
           let* rcl := Closure_Push rcl arg in
           Ok (put_closure rcl m))
  end.

Definition eval_till (b : ByteCode) (m : Machine) : Outcome :=
  match opcode b with
  | Op_NewTill =>
      run (let* t := cur_tables P m in
           let? targets := zget (t_tillInfos t) (get_int32 (u b)) in
           let* cl := cur_closure m in
           let (h, value) := heap_alloc (heap m)
             (HTill (Some (cur m)) (Some (segment m)) (wrapS 32 (stackTop cl)) targets
                    (wrapS 32 (zlen targets))) in
           let* cl := Closure_PushBoxed cl value in
           Ok (advance (set_heap h (put_closure cl m))))
  | Op_EndTill =>
      run (let* cl := cur_closure m in
           let* (arg, cl) := Closure_Pop cl in
           match obj arg with
           | Ref r =>
               match heap m !! r with
               | Some (HTill _ _ top _ _) =>
                   Ok (advance (set_heap (<[r := HTill None None top [] 0]> (heap m))
                                  (put_closure cl m)))
               | _ => Crash
               end
           | _ => Crash
           end)
  | Op_TillEsc =>
      run (let* cl := cur_closure m in
           let* (arg, cl) := Closure_Pop cl in
           let m := put_closure cl m in
           match deref (heap m) (obj arg) with
           | Some (HTill closure segment top targets num) =>
               if get_int32 (u b) >=? num then Throw sym_eval_error
               else
                 let? tc := closure in
                 let? ts := segment in
                 let? _ := segments P !! ts in
                 let? address := zget targets (get_int32 (u b)) in
                 let* tcl := get_closure (store m) tc in
                 Ok (mkMachine (update_closure (store m) tc (set_stackTop top tcl)) (heap m)
                       tc ts address)
           | _ => Crash
           end)
  | _ => Exception sym_eval_error
  end.

Definition eval_flow (b : ByteCode) (m : Machine) : Outcome :=
  match opcode b with
  | Op_Jmp => Next (jump b m)
  | Op_Bt => branch b m true
  | Op_Bf => branch b m false
  | Op_Met | Op_TMet | Op_Call | Op_TCall => eval_call b m
  | Op_NewTill | Op_EndTill | Op_TillEsc => eval_till b m
  | Op_Try | Op_EndTry => Exception sym_eval_error
  | Op_Ret => do_return m
  | _ => Exception sym_eval_error
  end.

(** ** C0-EF: operators, conversions, optimised properties *)

Definition eval_operator (b : ByteCode) (m : Machine) : Outcome :=
  match opcode b with
  | Op_Bool =>
      run (let* cl := cur_closure m in
           let* (arg, cl) := Closure_Pop cl in
           let? kind := SMILE_KIND (heap m) (obj arg) in
           if negb (kind =? ScalarKind_value KBool) then
             let* v := toBool (heap m) (obj arg) (unboxed arg) in
             let* cl := Closure_PushUnboxedBool cl v in
             Ok (advance (put_closure cl m))
           else Ok (advance (put_closure cl m)))
  | _ => Exception sym_eval_error
  end.

(** Replace the popped object by a property of it. *)
Definition property_of_top (m : Machine) (name : Symbol) (special : HeapObject -> option SmileArg)
  : Outcome :=
  run (let* cl := cur_closure m in
       let* (arg, cl) := Closure_Pop cl in
       let? kind := SMILE_KIND (heap m) (obj arg) in
       match deref (heap m) (obj arg) ≫= special with
       | Some v =>
           let* cl := Closure_Push cl v in
           Ok (advance (put_closure cl m))
       | None =>
           let* (h, value) := getProperty (base_fuel m) (heap m) (obj arg) name in
           let* cl := Closure_UnboxAndPush h cl value in
           Ok (advance (set_heap h (put_closure cl m)))
       end).

Definition no_special (o : HeapObject) : option SmileArg := None.

Definition eval_optimized_property (b : ByteCode) (m : Machine) : Outcome :=
  let list_part (f : SmileObject -> SmileObject -> SmileObject) (name : Symbol) :=
    run (let* cl := cur_closure m in
         let* (arg, cl) := Closure_Pop cl in
         let? kind := SMILE_KIND (heap m) (obj arg) in
         let* (h, value) :=
           match deref (heap m) (obj arg) with
           | Some (HList a d) => Ok (heap m, f a d)
           | _ => getProperty (base_fuel m) (heap m) (obj arg) name
           end in
         let* cl := Closure_UnboxAndPush h cl value in
         Ok (advance (set_heap h (put_closure cl m)))) in
  match opcode b with
  | Op_LdA => list_part (fun a d => a) sym_a
  | Op_LdD => list_part (fun a d => d) sym_d
  | Op_LdStart => property_of_top m sym_start no_special
  | Op_LdEnd => property_of_top m sym_end no_special
  | Op_LdCount => property_of_top m sym_count no_special
  | Op_LdLength =>
      property_of_top m sym_length
        (fun o => match o with
                  | HString s => Some (SmileUnboxed_From KInteger64 (zlen s))
                  | _ => None
                  end)
  | _ => Exception sym_eval_error
  end.

(** ** F0-FF: state machines and pseudo-instructions *)

Definition eval_internal (b : ByteCode) (m : Machine) : Outcome :=
  match opcode b with
  | Op_StateMachStart =>
      let! cl := cur_closure m in
      match stateMachine cl with
      | Some (start, _) => External (StateMachineStart start) (advance m)
      | None => Undefined
      end
  | Op_StateMachBody =>
      let! cl := cur_closure m in
      match stateMachine cl with
      | Some (_, body) => External (StateMachineBody body) m
      | None => Undefined
      end
  | Op_Pseudo | Op_EndBlock | Op_Label | Op_Block => Next (advance m)
  | _ => Exception sym_eval_error
  end.

(** What [Op_StateMachStart] and [Op_StateMachBody] do with the count the state
    machine's function answered. *)
Definition state_machine_continue (m : Machine) (argc : Z) : Outcome :=
  if argc >=? 0 then
    let! cl := cur_closure m in
    let! target := Closure_GetTemp cl argc in
    call P (base_fuel m) m (obj target) argc 1
  else do_return m.

(** [Op_LdInclude] once the module is initialised. *)
Definition include_continue (m : Machine) (value : SmileArg) : Outcome :=
  on_closure m (fun cl => Closure_Push cl value).

(** ** The interpreter *)

(** The group an opcode belongs to, by its number. *)
Definition eval_instruction (b : ByteCode) (m : Machine) : Outcome :=
  match opcode b with
  | Op_04 | Op_08 | Op_0C | Op_0D | Op_0E | Op_1D | Op_1E | Op_1F
  | Op_20 | Op_25 | Op_26 | Op_27 | Op_28 | Op_2D | Op_2E | Op_2F
  | Op_33 | Op_37 | Op_3B | Op_3F
  | Op_73 | Op_77 | Op_78 | Op_79 | Op_7A | Op_7B | Op_7C | Op_7D | Op_7E
  | Op_83 | Op_87 | Op_8A | Op_B3 | Op_C6 | Op_D3 | Op_D7
  | Op_F2 | Op_F3 | Op_F4 | Op_F5 | Op_F6 | Op_F7 | Op_F9 | Op_FA | Op_FB | Op_FC =>
      Exception sym_eval_error
  | op =>
      let v := Opcode_value op in
      if v <? 0x10 then eval_stack b m
      else if v <? 0x30 then eval_load b m
      else if v <? 0x40 then eval_variable b m
      else if v <? 0x50 then eval_load_fixed b m
      else if v <? 0x60 then eval_store_fixed b m
      else if v <? 0x70 then eval_store_pop_fixed b m
      else if v <? 0x80 then eval_property b m
      else if v <? 0x90 then eval_types b m
      else if v <? 0xB0 then eval_call b m
      else if v <? 0xC0 then eval_flow b m
      else if v <? 0xE8 then eval_operator b m
      else if v <? 0xF0 then eval_optimized_property b m
      else eval_internal b m
  end.

Definition fetch (m : Machine) : Result ByteCode :=
  let? seg := segments P !! segment m in
  orCrash (zget (byteCodes seg) (pc m)).

Definition step (m : Machine) : Outcome :=
  let! b := fetch m in eval_instruction b m.

(** [Eval_RunCore], [fuel] instructions at most. *)
Fixpoint Eval_RunCore (fuel : nat) (m : Machine) : Outcome :=
  match fuel with
  | O => Next m
  | S fuel => match step m with Next m => Eval_RunCore fuel m | o => o end
  end.

(** [Eval_Run]: a global closure for the tables' global variables, and a local
    one for the function to run. *)
Definition Eval_Run_start (s : Store) (h : Heap) (globalClosureInfo : nat) (fn : UserFunctionInfo)
  : Result Machine :=
  let (s, g) := Closure_CreateGlobal s globalClosureInfo None in
  let* (s, c) := Closure_CreateLocal s (uf_closureInfo fn) g None None 0 in
  Ok (mkMachine s h c (uf_byteCodeSegment fn) 0).

(** The value of a normal end: the top of the last closure, boxed. *)
Definition Eval_Continue_value (o : Outcome) : Result (Heap * SmileObject) :=
  match o with
  | Returned m =>
      let* cl := cur_closure m in
      let* (arg, _) := Closure_Pop cl in
      SmileArg_Box (heap m) arg
  | Exception k => Throw k
  | _ => Crash
  end.

End Eval.
