(* ===== verification/EvalProps.v ===== *)
(** * EvalProps: what the interpreter guarantees

    Stack discipline of the instructions against the table of [opcode.h], the
    optimised variable instructions, calls and returns, till continuations, and
    the instructions whose behaviour differs from their documentation. *)

From S2P Require Import Prelude Opcode ByteCode Object Closure Machine FnCall Eval.
Import Operand.

(** ** Stack effects *)

(** Closure [c] is the same activation in both stores, its stack [d] higher. *)
Definition shifted (s s' : Store) (c : nat) (d : Z) : Prop :=
  forall cl, closures s !! c = Some cl ->
  exists cl', closures s' !! c = Some cl'
    /\ stackTop cl' = stackTop cl + d /\ zlen (variables cl') = zlen (variables cl)
    /\ locals cl' = locals cl /\ parent cl' = parent cl
    /\ returnClosure cl' = returnClosure cl /\ returnSegment cl' = returnSegment cl
    /\ returnPc cl' = returnPc cl.

(** If the instruction goes on, it stays in the same closure and segment, and
    the stack is [d] higher. *)
Definition moves_by (d : Z) (m : Machine) (o : Outcome) : Prop :=
  forall m', o = Next m' ->
  cur m' = cur m /\ segment m' = segment m /\ shifted (store m) (store m') (cur m) d.

(** A change of one closure that shifts its stack by [d] and nothing else that
    matters to its caller. *)
Definition shift_fun (d : Z) (f : Closure -> Result Closure) : Prop :=
  forall cl cl', f cl = Ok cl' ->
  stackTop cl' = stackTop cl + d /\ zlen (variables cl') = zlen (variables cl)
  /\ locals cl' = locals cl /\ parent cl' = parent cl
  /\ returnClosure cl' = returnClosure cl /\ returnSegment cl' = returnSegment cl
  /\ returnPc cl' = returnPc cl.

(** A store operation that leaves every stack pointer alone. *)
Definition keeps_stacks (s s' : Store) : Prop := forall c, shifted s s' c 0.

Section Effects.
Context {E : ObjectEnv} (P : Program).

Lemma run_Next r m' : run r = Next m' -> r = Ok m'.
Proof. destruct r; simpl; congruence. Qed.

Lemma lift_Next {A} (r : Result A) f m' : lift r f = Next m' -> exists x, r = Ok x /\ f x = Next m'.
Proof. destruct r; simpl; [eauto|discriminate..]. Qed.

Lemma shifted_refl (s : Store) (c : nat) : shifted s s c 0.
Proof. intros cl H. exists cl. rewrite Z.add_0_r. by repeat split. Qed.

Lemma shifted_trans (s1 s2 s3 : Store) (c : nat) (d1 d2 : Z) :
  shifted s1 s2 c d1 -> shifted s2 s3 c d2 -> shifted s1 s3 c (d1 + d2).
Proof.
  intros H1 H2 cl H. destruct (H1 cl H) as (cl1 & E1 & A1 & A2 & A3 & A4 & A5 & A6 & A7).
  destruct (H2 cl1 E1) as (cl2 & E2 & B1 & B2 & B3 & B4 & B5 & B6 & B7).
  exists cl2. repeat split; congruence || lia.
Qed.

Lemma shifted_update (s : Store) (c : nat) (cl cl' : Closure) (d : Z) f :
  shift_fun d f -> closures s !! c = Some cl -> f cl = Ok cl' ->
  shifted s (update_closure s c cl') c d.
Proof.
  intros Hf Hc Hcl cl0 H0. rewrite Hc in H0. injection H0 as <-.
  exists cl'. simpl. rewrite list_lookup_insert_eq by (eapply lookup_lt_Some; eauto).
  split; [done|]. by apply Hf.
Qed.

Lemma on_closure_moves (d : Z) (m : Machine) f :
  shift_fun d f -> moves_by d m (on_closure m f).
Proof.
  intros Hf m' H. unfold on_closure in H. apply run_Next in H. result_inv H.
  unfold cur_closure, get_closure in *. result_inv E0. injection E0 as ->. injection H as <-.
  simpl. split; [done|]. split; [done|]. by eapply shifted_update.
Qed.

Lemma shift_push arg : shift_fun 1 (fun cl => Closure_Push cl arg).
Proof.
  intros cl cl' H. apply Push_inv in H as (v & Hv & ->). simpl.
  rewrite (zset_zlen _ _ _ _ Hv). by repeat split.
Qed.

(** Reading something of the closure first does not matter. *)
Lemma shift_bind {A} (d : Z) (g : Closure -> Result A) (f : A -> Closure -> Result Closure) :
  (forall x, shift_fun d (f x)) -> shift_fun d (fun cl => let* x := g cl in f x cl).
Proof. intros Hf cl cl' H. apply Result_bind_Ok in H as (x & _ & H). by apply (Hf x). Qed.

Lemma shift_pushBoxed o : shift_fun 1 (fun cl => Closure_PushBoxed cl o).
Proof.
  apply (shift_bind 1 (fun cl => orCrash (zget (variables cl) (stackTop cl)))
           (fun old cl => Closure_Push cl (mkArg o (unboxed old)))).
  intros. apply shift_push.
Qed.

Lemma shift_pushUnboxed k v : shift_fun 1 (fun cl => Closure_PushUnboxed k cl v).
Proof.
  apply (shift_bind 1 (fun cl => orCrash (zget (variables cl) (stackTop cl)))
           (fun old cl => Closure_Push cl (mkArg (UnboxedInstance k) _))).
  intros. apply shift_push.
Qed.

Lemma shift_unboxPush h o : shift_fun 1 (fun cl => Closure_UnboxAndPush h cl o).
Proof.
  apply (shift_bind 1 (fun _ => SmileArg_Unbox h o) (fun arg cl => Closure_Push cl arg)).
  intros. apply shift_push.
Qed.

Lemma shift_popCount n : shift_fun (- n) (fun cl => Ok (Closure_PopCount cl n)).
Proof. intros cl cl' [= <-]. simpl. repeat split; lia || done. Qed.

Lemma shift_setVariables g :
  (forall cl v, g cl = Ok v -> zlen v = zlen (variables cl)) ->
  shift_fun 0 (fun cl => let* v := g cl in Ok (set_variables v cl)).
Proof.
  intros Hg cl cl' H. apply Result_bind_Ok in H as (v & Hv & [= <-]). simpl.
  rewrite (Hg _ _ Hv). repeat split; lia || done.
Qed.

Lemma shift_setTop arg : shift_fun 0 (fun cl => Closure_SetTop cl arg).
Proof.
  apply (shift_setVariables (fun cl => orCrash (zset (variables cl) (stackTop cl - 1) arg))).
  intros cl v H. result_inv H. injection H as <-. by eapply zset_zlen.
Qed.

Lemma shift_setArgument i arg : shift_fun 0 (fun cl => Closure_SetArgument cl i arg).
Proof.
  apply (shift_setVariables (fun cl => orCrash (zset (variables cl) i arg))).
  intros cl v H. result_inv H. injection H as <-. by eapply zset_zlen.
Qed.

Lemma shift_setLocal i arg : shift_fun 0 (fun cl => Closure_SetLocalVariable cl i arg).
Proof.
  apply (shift_setVariables (fun cl => orCrash (zset (variables cl) (locals cl + i) arg))).
  intros cl v H. result_inv H. injection H as <-. by eapply zset_zlen.
Qed.

Lemma shift_compose (d1 d2 : Z) f g :
  shift_fun d1 f -> shift_fun d2 g -> shift_fun (d1 + d2) (fun cl => let* cl := f cl in g cl).
Proof.
  intros Hf Hg cl cl' H. apply Result_bind_Ok in H as (cl1 & H1 & H2).
  apply Hf in H1 as (A1 & A2 & A3 & A4 & A5 & A6 & A7).
  apply Hg in H2 as (B1 & B2 & B3 & B4 & B5 & B6 & B7).
  repeat split; congruence || lia.
Qed.

Lemma Pop_inv (cl cl' : Closure) arg :
  Closure_Pop cl = Ok (arg, cl') ->
  zget (variables cl) (stackTop cl - 1) = Some arg /\ cl' = set_stackTop (stackTop cl - 1) cl.
Proof. unfold Closure_Pop. intros H. result_inv H. by injection H as <- <-. Qed.

(** ** Store operations *)

Lemma keeps_update (s : Store) (c : nat) (cl cl' : Closure) f :
  shift_fun 0 f -> closures s !! c = Some cl -> f cl = Ok cl' ->
  keeps_stacks s (update_closure s c cl').
Proof.
  intros Hf Hc Hcl c0. destruct (decide (c0 = c)) as [->|Hne].
  - by eapply shifted_update.
  - intros cl0 H0. exists cl0. simpl. rewrite list_lookup_insert_ne by done.
    rewrite Z.add_0_r. by repeat split.
Qed.

Lemma keeps_setLocal s c scope index arg s' :
  Closure_SetLocalVariableInScope s c scope index arg = Ok s' -> keeps_stacks s s'.
Proof.
  unfold Closure_SetLocalVariableInScope. intros H. result_inv H. injection H as <-.
  unfold get_closure in *. result_inv E1. injection E1 as ->.
  eapply keeps_update; [apply (shift_setLocal index arg)|done|done].
Qed.

Lemma keeps_setArgument s c scope index arg s' :
  Closure_SetArgumentInScope s c scope index arg = Ok s' -> keeps_stacks s s'.
Proof.
  unfold Closure_SetArgumentInScope. intros H. result_inv H. injection H as <-.
  unfold get_closure in *. result_inv E1. injection E1 as ->.
  eapply keeps_update; [apply (shift_setArgument index arg)|done|done].
Qed.

Lemma keeps_setGlobal fuel s c name value s' :
  Closure_SetGlobalVariable fuel s c name value = Ok s' -> keeps_stacks s s'.
Proof.
  intros H c0 cl Hc. exists cl.
  assert (closures s' = closures s) as ->.
  { unfold Closure_SetGlobalVariable in H. result_inv H.
    destruct b; [|result_inv H]; unfold set_global in H; result_inv H; by injection H as <-. }
  rewrite Z.add_0_r. by repeat split.
Qed.

Lemma keeps_ancestor_set set m n index s arg s' :
  (forall i x, shift_fun 0 (fun cl => set cl i x)) ->
  ancestor_set set m n index s arg = Ok s' -> keeps_stacks s s'.
Proof.
  intros Hset H. unfold ancestor_set in H. result_inv H. injection H as <-.
  unfold get_closure in *. result_inv E1. injection E1 as ->.
  eapply keeps_update; [apply (Hset index arg)|done|done].
Qed.

Lemma load_variable_moves (m : Machine) r : moves_by 1 m (load_variable m r).
Proof.
  intros m' H. unfold load_variable in H. apply lift_Next in H as (arg & _ & H).
  by apply (on_closure_moves 1 m _ (shift_push arg)).
Qed.

Lemma store_top_moves (m : Machine) set :
  (forall s arg s', set s arg = Ok s' -> keeps_stacks s s') -> moves_by 0 m (store_top m set).
Proof.
  intros Hset m' H. unfold store_top in H. apply run_Next in H. result_inv H.
  injection H as <-. simpl. split; [done|]. split; [done|]. by eapply Hset.
Qed.

Lemma shifted_pop (m : Machine) (cl cl' : Closure) arg :
  cur_closure m = Ok cl -> Closure_Pop cl = Ok (arg, cl') ->
  shifted (store m) (store (put_closure cl' m)) (cur m) (-1).
Proof.
  intros Hc Hp. unfold cur_closure, get_closure in Hc. result_inv Hc. injection Hc as ->.
  apply Pop_inv in Hp as [_ ->].
  apply (shifted_update _ _ cl _ (-1) (fun cl => Ok (Closure_PopCount cl 1))); [|done|done].
  apply shift_popCount.
Qed.

Lemma store_pop_moves (m : Machine) set :
  (forall s arg s', set s arg = Ok s' -> keeps_stacks s s') -> moves_by (-1) m (store_pop m set).
Proof.
  intros Hset m' H. unfold store_pop in H. apply run_Next in H. result_inv H.
  injection H as <-. simpl. split; [done|]. split; [done|].
  change (-1) with (-1 + 0). eapply shifted_trans; [by eapply shifted_pop|by eapply Hset].
Qed.

(** ** Instructions with several steps *)

(** What a caller relies on in a closure, apart from the height of its stack. *)
Definition frame (cl : Closure) :=
  (zlen (variables cl), locals cl, parent cl, returnClosure cl, returnSegment cl, returnPc cl).

Definition shifts (d : Z) (cl cl' : Closure) : Prop :=
  stackTop cl' = stackTop cl + d /\ frame cl' = frame cl.

Lemma shift_fun_shifts d f cl cl' : shift_fun d f -> f cl = Ok cl' -> shifts d cl cl'.
Proof.
  intros Hf H. destruct (Hf _ _ H) as (A1 & A2 & A3 & A4 & A5 & A6 & A7).
  split; [done|]. unfold frame. congruence.
Qed.

Lemma shifts_pop cl cl' arg : Closure_Pop cl = Ok (arg, cl') -> shifts (-1) cl cl'.
Proof. intros [_ ->]%Pop_inv. split; [simpl; lia|done]. Qed.

Lemma shifts_push cl cl' arg : Closure_Push cl arg = Ok cl' -> shifts 1 cl cl'.
Proof. apply (shift_fun_shifts 1 (fun cl => Closure_Push cl arg)), shift_push. Qed.

Lemma shifts_pushBoxed cl cl' o : Closure_PushBoxed cl o = Ok cl' -> shifts 1 cl cl'.
Proof. apply (shift_fun_shifts 1 (fun cl => Closure_PushBoxed cl o)), shift_pushBoxed. Qed.

Lemma shifts_pushBool cl cl' b : Closure_PushUnboxedBool cl b = Ok cl' -> shifts 1 cl cl'.
Proof.
  apply (shift_fun_shifts 1 (fun cl => Closure_PushUnboxedBool cl b)), shift_pushUnboxed.
Qed.

Lemma shifts_unboxPush h cl cl' o : Closure_UnboxAndPush h cl o = Ok cl' -> shifts 1 cl cl'.
Proof. apply (shift_fun_shifts 1 (fun cl => Closure_UnboxAndPush h cl o)), shift_unboxPush. Qed.

Lemma shifts_setTop cl cl' arg : Closure_SetTop cl arg = Ok cl' -> shifts 0 cl cl'.
Proof. apply (shift_fun_shifts 0 (fun cl => Closure_SetTop cl arg)), shift_setTop. Qed.

Lemma shifts_popCount cl n : shifts (- n) cl (Closure_PopCount cl n).
Proof. split; [simpl; lia|done]. Qed.

(** An instruction that ends by putting back a shifted closure. *)
Lemma put_shifted (m : Machine) (cl cl' : Closure) (d : Z) :
  cur_closure m = Ok cl -> shifts d cl cl' ->
  shifted (store m) (store (put_closure cl' m)) (cur m) d.
Proof.
  intros Hc [Ht Hf] cl0 H0. unfold cur_closure, get_closure in Hc. rewrite H0 in Hc.
  injection Hc as <-. exists cl'. simpl.
  rewrite list_lookup_insert_eq by (eapply lookup_lt_Some; eauto).
  unfold frame in Hf. injection Hf as ? ? ? ? ? ?. by repeat split.
Qed.

Ltac shifts_facts :=
  repeat match goal with
         | H : Closure_Pop _ = Ok (_, _) |- _ => apply shifts_pop in H
         | H : Closure_Push _ _ = Ok _ |- _ => apply shifts_push in H
         | H : Closure_PushBoxed _ _ = Ok _ |- _ => apply shifts_pushBoxed in H
         | H : Closure_PushUnboxedBool _ _ = Ok _ |- _ => apply shifts_pushBool in H
         | H : Closure_UnboxAndPush _ _ _ = Ok _ |- _ => apply shifts_unboxPush in H
         | H : Closure_SetTop _ _ = Ok _ |- _ => apply shifts_setTop in H
         end;
  unfold shifts in *;
  repeat match goal with
         | H : stackTop _ = _ /\ frame _ = _ |- _ => destruct H
         end;
  simpl in *; try (split; [lia|congruence]).

(** Take an instruction apart and show where its closure ends up. *)
Ltac instruction_moves :=
  let m' := fresh "m'" in let H := fresh "H" in
  intros m' H; apply run_Next in H; result_inv H;
  try match type of H with Ok _ = Ok _ => injection H as <- end; simpl;
  try (split; [done|]; split; [done|]; eapply put_shifted; [eassumption|]; shifts_facts).

Lemma branch_moves b m onTrue : moves_by (-1) m (branch b m onTrue).
Proof.
  intros m' H. apply run_Next in H. result_inv H. injection H as <-.
  assert (Hs : shifted (store m) (store (put_closure c m)) (cur m) (-1)).
  { eapply put_shifted; [eassumption|by eapply shifts_pop]. }
  by destruct (Bool.eqb _ _).
Qed.

(** The instructions whose effect is local to the current closure, apart from
    [Op_Bool]. *)
Definition simple_op (op : Opcode) : bool :=
  match op with
  | Op_Brk | Op_Bool | Op_LdMember | Op_StMember | Op_StpMember | Op_LdInclude | Op_TillEsc
  | Op_Ret | Op_Call | Op_Met | Op_StateMachStart | Op_StateMachBody => false
  | _ => negb ((0x90 <=? Opcode_value op) && (Opcode_value op <? 0xB0))
  end.

(** The count an instruction with a variable stack effect carries. *)
Definition op_count (b : ByteCode) : Z := get_index (u b).

Lemma eval_stack_moves b m d :
  simple_op (opcode b) = true -> Opcode_stackDelta (opcode b) (op_count b) = Some d ->
  Opcode_value (opcode b) < 0x10 -> moves_by d m (eval_stack b m).
Proof.
  intros Hs Hd Hv. unfold eval_stack, op_count in *.
  assert (Hdup : forall k, shift_fun 1 (fun cl =>
            let? arg := zget (variables cl) (stackTop cl - k) in Closure_Push cl arg)).
  { intros k. apply (shift_bind 1 (fun cl => orCrash (zget (variables cl) (stackTop cl - k)))
                       (fun arg cl => Closure_Push cl arg)). intros. apply shift_push. }
  assert (Hrep : forall k, shift_fun (- k) (fun cl =>
            let? arg := zget (variables cl) (stackTop cl - 1) in
            let? v := zset (variables cl) (stackTop cl - (k + 1)) arg in
            Ok (Closure_PopCount (set_variables v cl) k))).
  { intros k cl cl' H. result_inv H. injection H as <-. simpl.
    match goal with H : zset _ _ _ = Some _ |- _ => rewrite (zset_zlen _ _ _ _ H) end.
    repeat split; lia || done. }
  destruct (opcode b); try discriminate Hs; try (exfalso; simpl in Hv; lia);
    simpl in Hd; try discriminate Hd; injection Hd as <-;
    try (apply on_closure_moves; first [apply Hdup|apply Hrep|apply shift_popCount]).
  all: intros m' [= <-]; simpl; split; [done|]; split; [done|]; apply shifted_refl.
Qed.

Lemma eval_load_moves b m d :
  Opcode_stackDelta (opcode b) (op_count b) = Some d ->
  0x10 <= Opcode_value (opcode b) < 0x30 -> moves_by d m (eval_load P b m).
Proof.
  intros Hd Hv. unfold eval_load.
  assert (Htab : forall f, moves_by 1 m
            (let! t := cur_tables P m in on_closure m (fun cl =>
               let? o := zget (f t) (get_index (u b)) in Closure_PushBoxed cl o))).
  { intros f m' H. apply lift_Next in H as (t & _ & H). revert m' H.
    apply on_closure_moves.
    apply (shift_bind 1 (fun _ => orCrash (zget (f t) (get_index (u b))))
             (fun o cl => Closure_PushBoxed cl o)).
    intros. apply shift_pushBoxed. }
  destruct (opcode b); try (exfalso; simpl in Hv; lia); simpl in Hd; try discriminate Hd;
    injection Hd as <-;
    first [ apply on_closure_moves; first [apply shift_pushBoxed|apply shift_pushUnboxed]
          | apply Htab | intros m' H; discriminate H ].
Qed.

Lemma eval_variable_moves b m d :
  Opcode_stackDelta (opcode b) (op_count b) = Some d ->
  0x30 <= Opcode_value (opcode b) < 0x40 -> moves_by d m (eval_variable b m).
Proof.
  intros Hd Hv. unfold eval_variable.
  destruct (opcode b); try (exfalso; simpl in Hv; lia); simpl in Hd; try discriminate Hd;
    injection Hd as <-;
    first [ apply load_variable_moves
          | apply store_top_moves; intros; first [by eapply keeps_setLocal|by eapply keeps_setArgument]
          | apply store_pop_moves; intros; first [by eapply keeps_setLocal|by eapply keeps_setArgument]
          | apply on_closure_moves; first [apply shift_setLocal|apply shift_setArgument]
          | idtac ].
  - intros m' H. apply lift_Next in H as (v & _ & H). revert m' H.
    apply on_closure_moves, shift_unboxPush.
  - intros m' H. apply run_Next in H. result_inv H. injection H as <-. simpl.
    split; [done|]. split; [done|]. by eapply keeps_setGlobal.
  - intros m' H. apply run_Next in H. result_inv H. injection H as <-. simpl.
    split; [done|]. split; [done|]. change (-1) with (-1 + 0).
    eapply shifted_trans; [by eapply shifted_pop|by eapply keeps_setGlobal].
  - intros m' H. apply run_Next in H. result_inv H. injection H as <-. simpl.
    split; [done|]. split; [done|]. by eapply keeps_setGlobal.
Qed.

Lemma eval_fixed_moves b m d :
  Opcode_stackDelta (opcode b) (op_count b) = Some d ->
  (0x40 <= Opcode_value (opcode b) < 0x50 -> moves_by d m (eval_load_fixed b m))
  /\ (0x50 <= Opcode_value (opcode b) < 0x60 -> moves_by d m (eval_store_fixed b m))
  /\ (0x60 <= Opcode_value (opcode b) < 0x70 -> moves_by d m (eval_store_pop_fixed b m)).
Proof.
  intros Hd. unfold eval_load_fixed, eval_store_fixed, eval_store_pop_fixed.
  split; [|split]; intros Hv;
    destruct (opcode b); try (exfalso; simpl in Hv; lia); simpl in Hd; try discriminate Hd;
    injection Hd as <-;
    first [ apply load_variable_moves | apply store_top_moves | apply store_pop_moves ];
    intros; eapply keeps_ancestor_set; try eassumption; intros;
    first [apply shift_setLocal|apply shift_setArgument].
Qed.

Lemma eval_property_moves b m d :
  simple_op (opcode b) = true -> Opcode_stackDelta (opcode b) (op_count b) = Some d ->
  0x70 <= Opcode_value (opcode b) < 0x80 -> moves_by d m (eval_property P b m).
Proof.
  intros Hs Hd Hv. unfold eval_property.
  destruct (opcode b); try (exfalso; simpl in Hv; lia); try discriminate Hs; simpl in Hd;
    try discriminate Hd; injection Hd as <-.
  - instruction_moves.
  - instruction_moves. pose proof (shifts_popCount x 1). shifts_facts.
  - instruction_moves. exact (shifts_popCount x 2).
Qed.

Lemma eval_types_moves b m d :
  Opcode_stackDelta (opcode b) (op_count b) = Some d ->
  0x80 <= Opcode_value (opcode b) < 0x90 -> moves_by d m (eval_types P b m).
Proof.
  intros Hd Hv. unfold eval_types, op_count in *.
  destruct (opcode b); try (exfalso; simpl in Hv; lia); simpl in Hd;
    try discriminate Hd; injection Hd as <-; try (instruction_moves; fail).
  all: try (instruction_moves; pose proof (shifts_popCount x 2); shifts_facts; fail).
  instruction_moves. pose proof (shifts_popCount x (2 * get_index (u b) + 1)). shifts_facts.
Qed.

Lemma eval_flow_moves b m d :
  simple_op (opcode b) = true -> Opcode_stackDelta (opcode b) (op_count b) = Some d ->
  0xB0 <= Opcode_value (opcode b) < 0xC0 -> moves_by d m (eval_flow P b m).
Proof.
  intros Hs Hd Hv. unfold eval_flow.
  destruct (opcode b) eqn:Hop; try (exfalso; simpl in Hv; lia); try discriminate Hs; simpl in Hd;
    try discriminate Hd; injection Hd as <-; try apply branch_moves.
  all: unfold eval_till; rewrite ?Hop; try (intros m' H; discriminate H).
  - intros m' [= <-]. simpl. split; [done|]. split; [done|]. apply shifted_refl.
  - intros m' H. unfold eval_call in H. by rewrite Hop in H.
  - intros m' H. unfold eval_call in H. by rewrite Hop in H.
  - instruction_moves.
  - instruction_moves. cases_in H. injection H as <-. simpl.
    split; [done|]. split; [done|]. eapply put_shifted; [eassumption|]. shifts_facts.
Qed.

Lemma eval_operator_moves b m d :
  simple_op (opcode b) = true -> moves_by d m (eval_operator b m).
Proof.
  intros Hs m' H. unfold eval_operator in H. by destruct (opcode b).
Qed.

Lemma property_moves m name special : moves_by 0 m (property_of_top m name special).
Proof.
  instruction_moves. destruct (deref _ _ ≫= special) as [v|]; result_inv H; injection H as <-;
    simpl; (split; [done|]; split; [done|]; eapply put_shifted; [eassumption|]; shifts_facts).
Qed.

Lemma eval_optimized_moves b m d :
  Opcode_stackDelta (opcode b) (op_count b) = Some d ->
  0xE8 <= Opcode_value (opcode b) < 0xF0 -> moves_by d m (eval_optimized_property b m).
Proof.
  intros Hd Hv. unfold eval_optimized_property.
  destruct (opcode b); try (exfalso; simpl in Hv; lia); simpl in Hd;
    try discriminate Hd; injection Hd as <-; try apply property_moves; instruction_moves.
Qed.

Lemma eval_internal_moves b m d :
  simple_op (opcode b) = true -> Opcode_stackDelta (opcode b) (op_count b) = Some d ->
  0xF0 <= Opcode_value (opcode b) -> moves_by d m (eval_internal b m).
Proof.
  intros Hs Hd Hv. unfold eval_internal.
  destruct (opcode b); try (exfalso; simpl in Hv; lia); try discriminate Hs; simpl in Hd;
    try discriminate Hd; injection Hd as <-;
    intros m' [= <-]; simpl; (split; [done|]; split; [done|]; apply shifted_refl).
Qed.

(** [Op_Bool] replaces what is not an unboxed boolean and drops what is. *)
Lemma Bool_moves b m cl arg rest kind :
  opcode b = Op_Bool -> cur_closure m = Ok cl -> Closure_Pop cl = Ok (arg, rest) ->
  SMILE_KIND (heap m) (obj arg) = Some kind ->
  moves_by (if kind =? ScalarKind_value KBool then -1 else 0) m (eval_operator b m).
Proof.
  intros Hop Hc Hp Hk m' H. unfold eval_operator in H. rewrite Hop in H. apply run_Next in H.
  rewrite Hc in H. cbn [Result_bind] in H. rewrite Hp in H. cbn [Result_bind] in H.
  rewrite Hk in H. cbn [orCrash Result_bind] in H.
  destruct (kind =? ScalarKind_value KBool); cbn [negb] in H; result_inv H; injection H as <-; simpl;
    (split; [done|]; split; [done|]; eapply put_shifted; [exact Hc|]; shifts_facts).
Qed.

End Effects.

(** ** Properties *)
Section EvalProps.
Context {E : ObjectEnv} (P : Program).

Lemma simple_op_effect (b : ByteCode) (m : Machine) (d : Z) :
  simple_op (opcode b) = true -> Opcode_stackDelta (opcode b) (op_count b) = Some d ->
  moves_by d m (eval_instruction P b m).
Proof.
  intros Hs Hd. unfold eval_instruction.
  assert (Hno : forall k, moves_by d m (Exception k)) by (intros k m' H; discriminate H).
  pose proof (Opcode_value_range (opcode b)) as Hr. unfold inU in Hr.
  destruct (eval_fixed_moves b m d Hd) as (F1 & F2 & F3).
  set (v := Opcode_value (opcode b)).
  assert (Hmain : moves_by d m
    (if v <? 0x10 then eval_stack b m else if v <? 0x30 then eval_load P b m
     else if v <? 0x40 then eval_variable b m else if v <? 0x50 then eval_load_fixed b m
     else if v <? 0x60 then eval_store_fixed b m else if v <? 0x70 then eval_store_pop_fixed b m
     else if v <? 0x80 then eval_property P b m else if v <? 0x90 then eval_types P b m
     else if v <? 0xB0 then eval_call P b m else if v <? 0xC0 then eval_flow P b m
     else if v <? 0xE8 then eval_operator b m else if v <? 0xF0 then eval_optimized_property b m
     else eval_internal b m)).
  { assert (Hcall : ~ (0x90 <= v < 0xB0)).
    { subst v. intros Hv. destruct (opcode b); simpl in Hv; try lia; discriminate Hs. }
    fold v in F1, F2, F3.
    repeat match goal with
           | |- context [if v <? ?k then _ else _] => destruct (Z.ltb_spec v k)
           end;
      first [ by apply eval_stack_moves | by apply eval_load_moves | by apply eval_variable_moves
            | by apply F1 | by apply F2 | by apply F3 | by apply eval_property_moves
            | by apply eval_types_moves | by apply eval_flow_moves | by apply eval_operator_moves
            | by apply eval_optimized_moves | by apply eval_internal_moves | lia ]. }
  subst v. destruct (opcode b); first [exact Hmain | apply Hno].
Qed.

(** C24: the table of stack effects in [opcode.h] is what the interpreter does,
    with one exception.  Every instruction that stays inside its closure and
    goes on, other than [Op_Bool], leaves the stack exactly as many slots
    higher or lower as documented, never resizes the closure and never touches
    its links.  [Op_Bool] is documented to replace the top of the stack: it
    does so for objects of every kind but unboxed booleans, and drops those, so
    that the stack ends one slot lower than documented.  (Calls, returns,
    escapes, members, includes and breakpoints leave the closure.) *)
Theorem documented_stack_effect (b : ByteCode) (m : Machine) :
  (forall d, simple_op (opcode b) = true -> Opcode_stackDelta (opcode b) (op_count b) = Some d ->
     moves_by d m (eval_instruction P b m))
  /\ (forall cl arg rest kind, opcode b = Op_Bool -> cur_closure m = Ok cl ->
       Closure_Pop cl = Ok (arg, rest) -> SMILE_KIND (heap m) (obj arg) = Some kind ->
       Opcode_stackDelta (opcode b) (op_count b) = Some 0
       /\ moves_by (if kind =? ScalarKind_value KBool then -1 else 0) m (eval_instruction P b m)).
Proof.
  split; [intros d; apply simple_op_effect|].
  intros cl arg rest kind Hop Hc Hp Hk. split; [by rewrite Hop|].
  unfold eval_instruction. rewrite Hop. simpl. by eapply Bool_moves.
Qed.

(** The instruction for argument or local [n] scopes up, in its three forms. *)
Definition ld_fixed (local : bool) (n : nat) : Opcode :=
  if local then
    match n with
    | 0 => Op_LdLoc0 | 1 => Op_LdLoc1 | 2 => Op_LdLoc2 | 3 => Op_LdLoc3
    | 4 => Op_LdLoc4 | 5 => Op_LdLoc5 | 6 => Op_LdLoc6 | _ => Op_LdLoc7
    end%nat
  else
    match n with
    | 0 => Op_LdArg0 | 1 => Op_LdArg1 | 2 => Op_LdArg2 | 3 => Op_LdArg3
    | 4 => Op_LdArg4 | 5 => Op_LdArg5 | 6 => Op_LdArg6 | _ => Op_LdArg7
    end%nat.
Definition st_fixed (local : bool) (n : nat) : Opcode :=
  if local then
    match n with
    | 0 => Op_StLoc0 | 1 => Op_StLoc1 | 2 => Op_StLoc2 | 3 => Op_StLoc3
    | 4 => Op_StLoc4 | 5 => Op_StLoc5 | 6 => Op_StLoc6 | _ => Op_StLoc7
    end%nat
  else
    match n with
    | 0 => Op_StArg0 | 1 => Op_StArg1 | 2 => Op_StArg2 | 3 => Op_StArg3
    | 4 => Op_StArg4 | 5 => Op_StArg5 | 6 => Op_StArg6 | _ => Op_StArg7
    end%nat.
Definition stp_fixed (local : bool) (n : nat) : Opcode :=
  if local then
    match n with
    | 0 => Op_StpLoc0 | 1 => Op_StpLoc1 | 2 => Op_StpLoc2 | 3 => Op_StpLoc3
    | 4 => Op_StpLoc4 | 5 => Op_StpLoc5 | 6 => Op_StpLoc6 | _ => Op_StpLoc7
    end%nat
  else
    match n with
    | 0 => Op_StpArg0 | 1 => Op_StpArg1 | 2 => Op_StpArg2 | 3 => Op_StpArg3
    | 4 => Op_StpArg4 | 5 => Op_StpArg5 | 6 => Op_StpArg6 | _ => Op_StpArg7
    end%nat.

Definition i2 (a b : Z) : word := set_i2_b (set_i2_a zero a) b.

Lemma store_top_ext m f g : (forall s x, f s x = g s x) -> store_top m f = store_top m g.
Proof.
  intros H. unfold store_top. destruct (cur_closure m); simpl; [|done..].
  destruct (Closure_GetTop x); simpl; [|done..]. by rewrite H.
Qed.

Lemma store_pop_ext m f g : (forall s x, f s x = g s x) -> store_pop m f = store_pop m g.
Proof.
  intros H. unfold store_pop. destruct (cur_closure m); simpl; [|done..].
  destruct (Closure_Pop x) as [[]| |]; simpl; [|done..]. by rewrite H.
Qed.

(** What the instructions with the scope in the opcode do. *)
Lemma fixed_runs (m : Machine) (local : bool) (n : nat) (index loc : Z) :
  (n < 8)%nat -> inS 64 index ->
  let fixed op := eval_instruction P (mkByteCode op loc (set_index zero index)) m in
  let get := if local then Closure_GetLocalVariable else Closure_GetArgument in
  let set := if local then Closure_SetLocalVariable else Closure_SetArgument in
  fixed (ld_fixed local n) = load_variable m (ancestor_get get m n index)
  /\ fixed (st_fixed local n) = store_top m (ancestor_set set m n index)
  /\ fixed (stp_fixed local n) = store_pop m (ancestor_set set m n index).
Proof.
  intros Hn Hi fixed. subst fixed. cbv zeta.
  assert (Hx : get_index (set_index zero index) = index) by (by apply get_set_index).
  destruct local; do 8 (destruct n as [|n]; [cbn -[get_index]; by rewrite Hx|]); lia.
Qed.

(** The variable of the ancestor closure is the variable in scope. *)
Lemma scope_runs (m : Machine) (local : bool) (n : nat) (index : Z) :
  let get := if local then Closure_GetLocalVariable else Closure_GetArgument in
  let set := if local then Closure_SetLocalVariable else Closure_SetArgument in
  let getIn := if local then Closure_GetLocalVariableInScope else Closure_GetArgumentInScope in
  let setIn := if local then Closure_SetLocalVariableInScope else Closure_SetArgumentInScope in
  ancestor_get get m n index = getIn (store m) (cur m) (Z.of_nat n) index
  /\ forall s x, ancestor_set set m n index s x = setIn s (cur m) (Z.of_nat n) index x.
Proof.
  assert (Hs : forall s, scope_closure s (cur m) (Z.of_nat n) = ancestor s (cur m) n).
  { intros s. rewrite scope_closure_loop by lia. by rewrite Nat2Z.id. }
  destruct local; (split; [|intros]);
    unfold Closure_GetLocalVariableInScope, Closure_SetLocalVariableInScope,
      Closure_GetArgumentInScope, Closure_SetArgumentInScope, ancestor_get, ancestor_set; by rewrite Hs.
Qed.

(** What the instructions with an explicit scope do. *)
Lemma general_runs (m : Machine) (local : bool) (scope index loc : Z) :
  inS 32 scope -> inS 32 index ->
  let general op := eval_instruction P (mkByteCode op loc (i2 scope index)) m in
  let getIn := if local then Closure_GetLocalVariableInScope else Closure_GetArgumentInScope in
  let setIn := if local then Closure_SetLocalVariableInScope else Closure_SetArgumentInScope in
  general (if local then Op_LdLoc else Op_LdArg)
    = load_variable m (getIn (store m) (cur m) scope index)
  /\ general (if local then Op_StLoc else Op_StArg)
    = store_top m (fun s => setIn s (cur m) scope index)
  /\ general (if local then Op_StpLoc else Op_StpArg)
    = store_pop m (fun s => setIn s (cur m) scope index).
Proof.
  intros Hs Hi. destruct (get_set_i2 scope index Hs Hi) as [Ha Hb]. fold (i2 scope index) in Ha, Hb.
  cbv zeta.
  destruct local; unfold eval_instruction; simpl; unfold eval_variable; simpl; by rewrite Ha, Hb.
Qed.

(** The 48 instructions with the scope in the opcode do exactly what the
    general instruction with an explicit scope does, for every index that fits
    the general form, on every machine (undefined cases included). *)
Theorem fixed_scope_agrees (m : Machine) (local : bool) (n : nat) (index loc : Z) :
  (n < 8)%nat -> inS 32 index ->
  let fixed op := eval_instruction P (mkByteCode op loc (set_index zero index)) m in
  let general op := eval_instruction P (mkByteCode op loc (i2 (Z.of_nat n) index)) m in
  fixed (ld_fixed local n) = general (if local then Op_LdLoc else Op_LdArg)
  /\ fixed (st_fixed local n) = general (if local then Op_StLoc else Op_StArg)
  /\ fixed (stp_fixed local n) = general (if local then Op_StpLoc else Op_StpArg).
Proof.
  intros Hn Hi. cbv zeta.
  assert (Hn32 : inS 32 (Z.of_nat n)) by (apply inS32_intro; lia).
  assert (Hi64 : inS 64 index).
  { unfold inS in *. change (64 - 1) with 63. change (32 - 1) with 31 in Hi. lia. }
  destruct (fixed_runs m local n index loc Hn Hi64) as (-> & -> & ->).
  destruct (general_runs m local (Z.of_nat n) index loc Hn32 Hi) as (-> & -> & ->).
  destruct (scope_runs m local n index) as [-> Hset].
  split; [done|]. split; [by apply store_top_ext|by apply store_pop_ext].
Qed.

(** [Op_Cdr] is [Op_Car]: both replace a list cell by its first half, the
    second half is never read. *)
Theorem Cdr_reads_car (m : Machine) (loc1 loc2 : Z) (w1 w2 : word) :
  eval_instruction P (mkByteCode Op_Cdr loc1 w1) m = eval_instruction P (mkByteCode Op_Car loc2 w2) m.
Proof. reflexivity. Qed.

(** [Op_Bool] is documented to replace the top of the stack by its truth
    value; on an unboxed boolean it drops the value instead, and the stack ends
    one slot lower than documented. *)
Theorem Bool_drops_booleans (b : ByteCode) (m : Machine) (cl : Closure) (v : word) :
  opcode b = Op_Bool -> cur_closure m = Ok cl ->
  zget (variables cl) (stackTop cl - 1) = Some (mkArg (UnboxedInstance KBool) v) ->
  exists m', eval_instruction P b m = Next m'
    /\ shifted (store m) (store m') (cur m) (-1)
    /\ Opcode_stackDelta Op_Bool (op_count b) = Some 0.
Proof.
  intros Hop Hc Hv. unfold eval_instruction. rewrite Hop. simpl. unfold eval_operator. rewrite Hop, Hc.
  simpl. unfold Closure_Pop. rewrite Hv. simpl. eexists. split; [reflexivity|]. split; [|done].
  simpl. eapply put_shifted; [exact Hc|]. split; [simpl; lia|done].
Qed.

(** [Op_Not] on an object that is neither kind of boolean ignores the
    object: it negates the byte that happens to lie next to the pointer.  Null,
    which is false, is negated to false whenever that stale byte is not zero. *)
Theorem Not_reads_stale_bits (b : ByteCode) (m : Machine) (cl : Closure) (v : word) :
  opcode b = Op_Not -> cur_closure m = Ok cl -> 0 < stackTop cl ->
  zget (variables cl) (stackTop cl - 1) = Some (mkArg NullObject v) ->
  exists m' cl' top, eval_instruction P b m = Next m' /\ cur_closure m' = Ok cl'
    /\ Closure_GetTop cl' = Ok top /\ obj top = UnboxedInstance KBool
    /\ get_byte (unboxed top) = (if get_byte v =? 0 then 1 else 0)
    /\ toBool (heap m) NullObject v = Ok false.
Proof.
  intros Hop Hc H0 Hv. unfold eval_instruction. rewrite Hop. simpl. unfold eval_types. rewrite Hop, Hc.
  simpl. unfold Closure_Pop. rewrite Hv. simpl.
  unfold Closure_PushUnboxedBool, Closure_PushUnboxed. simpl. rewrite Hv. simpl.
  set (arg := mkArg _ _).
  assert (Hlt : stackTop cl - 1 < zlen (variables cl)).
  { apply (zget_is_Some (variables cl)). by rewrite Hv. }
  destruct (Push_spec (set_stackTop (stackTop cl - 1) cl) arg) as (w & Ew & Hl & Hw);
    [simpl; lia|].
  rewrite Ew. simpl. do 3 eexists. split; [reflexivity|].
  assert (Hcur : closures (store m) !! cur m = Some cl).
  { unfold cur_closure, get_closure in Hc. result_inv Hc. by injection Hc as ->. }
  split; [|split].
  - unfold cur_closure, get_closure. simpl.
    rewrite list_lookup_insert_eq by (eapply lookup_lt_Some; eauto). reflexivity.
  - unfold Closure_GetTop. simpl. rewrite Hw. simpl.
    replace (stackTop cl - 1 + 1 - 1) with (stackTop cl - 1) by lia. by rewrite Z.eqb_refl.
  - split; [done|]. split; [|done]. subst arg. simpl. unfold get_byte, wrapU.
    rewrite set_low_mod by lia. by destruct (v mod 2 ^ 8 =? 0).
Qed.

End EvalProps.

(** ** Witnesses *)
Section Witnesses.
#[local] Existing Instance example_env.

Definition example_P : Program := example_program (example_fn 0 1 1).

(** The machine of [example_machine] with [arg] on top of the stack. *)
Definition example_with_top (arg : SmileArg) : Machine :=
  put_closure (mkClosure (Some 0%nat) (Some 0%nat) (Some 1%nat) None None 0 1 3
    [SmileArg_zero; SmileArg_zero; arg; SmileArg_zero] None) example_machine.

Lemma documented_stack_effect_witness :
  moves_by (-1) (example_with_top (mkArg NullObject 0))
    (eval_instruction example_P (mkByteCode Op_Pop1 0 0) (example_with_top (mkArg NullObject 0)))
  /\ moves_by (-1) (example_with_top (mkArg (UnboxedInstance KBool) 1))
       (eval_instruction example_P (mkByteCode Op_Bool 0 0)
          (example_with_top (mkArg (UnboxedInstance KBool) 1))).
Proof.
  split.
  - apply documented_stack_effect; reflexivity.
  - destruct (documented_stack_effect example_P (mkByteCode Op_Bool 0 0)
                (example_with_top (mkArg (UnboxedInstance KBool) 1))) as [_ H].
    eapply (proj2 (H _ _ _ (ScalarKind_value KBool) eq_refl ltac:(reflexivity) ltac:(reflexivity)
                       ltac:(reflexivity))).
Defined.

Lemma fixed_scope_agrees_witness :
  eval_instruction example_P (mkByteCode Op_LdArg0 0 (set_index zero 0)) example_machine
  = eval_instruction example_P (mkByteCode Op_LdArg 0 (i2 0 0)) example_machine.
Proof. refine (proj1 (fixed_scope_agrees example_P example_machine false 0 0 0 _ _)); [lia|done]. Defined.

Lemma Bool_drops_booleans_witness :
  exists m', eval_instruction example_P (mkByteCode Op_Bool 0 0)
               (example_with_top (mkArg (UnboxedInstance KBool) 1)) = Next m'.
Proof.
  destruct (Bool_drops_booleans example_P (mkByteCode Op_Bool 0 0)
              (example_with_top (mkArg (UnboxedInstance KBool) 1)) _ 1 eq_refl eq_refl eq_refl)
    as (m' & H & _).
  exists m'. exact H.
Defined.

Lemma Not_reads_stale_bits_witness :
  exists m' cl' top, eval_instruction example_P (mkByteCode Op_Not 0 0)
                       (example_with_top (mkArg NullObject 1)) = Next m'
    /\ cur_closure m' = Ok cl' /\ Closure_GetTop cl' = Ok top /\ get_byte (unboxed top) = 0.
Proof.
  destruct (Not_reads_stale_bits example_P (mkByteCode Op_Not 0 0)
              (example_with_top (mkArg NullObject 1)) _ 1 eq_refl eq_refl ltac:(reflexivity) eq_refl)
    as (m' & cl' & top & H1 & H2 & H3 & _ & H4 & _).
  exists m', cl', top. repeat split; assumption.
Defined.
End Witnesses.
