(* ===== verification/CallProps.v ===== *)
(** * CallProps: calls, returns and till continuations across closures

    What the interpreter guarantees about the instructions that change the
    current closure: a call enters a fresh closure that remembers its caller, a
    return resumes the caller with the result, and escaping to a till restores
    the closure, the stack height and the place it was created for. *)

From S2P Require Import Prelude Opcode ByteCode Object Closure Machine FnCall Eval EvalProps.
Import Operand.

Section Calls.
Context {E : ObjectEnv} (P : Program).

Lemma shifts_refl cl : shifts 0 cl cl.
Proof. split; [lia|done]. Qed.

Lemma shifts_trans d1 d2 cl1 cl2 cl3 :
  shifts d1 cl1 cl2 -> shifts d2 cl2 cl3 -> shifts (d1 + d2) cl1 cl3.
Proof. intros [A1 A2] [B1 B2]. split; [lia|congruence]. Qed.

Lemma shifts_setArgument cl cl' i arg : Closure_SetArgument cl i arg = Ok cl' -> shifts 0 cl cl'.
Proof. apply (shift_fun_shifts 0 (fun cl => Closure_SetArgument cl i arg)), shift_setArgument. Qed.

Lemma shifts_setTemp cl cl' i arg : Closure_SetTemp cl i arg = Ok cl' -> shifts 0 cl cl'.
Proof.
  unfold Closure_SetTemp. intros H. result_inv H. injection H as <-.
  split; [simpl; lia|]. unfold frame. simpl.
  match goal with H : zset _ _ _ = Some _ |- _ => by rewrite (zset_zlen _ _ _ _ H) end.
Qed.

Lemma shifts_copy_moves cl child child' moves :
  copy_moves cl child moves = Ok child' -> shifts 0 child child'.
Proof.
  revert child. induction moves as [|[i off] moves IH]; intros child H; simpl in H.
  - injection H as <-. apply shifts_refl.
  - unfold copy_arg in H. result_inv H. change 0 with (0 + 0). eapply shifts_trans; [|by apply IH].
    match goal with H : Result_bind _ _ = Ok _ |- _ => result_inv H end.
    by eapply shifts_setArgument.
Qed.

Lemma shifts_copy_loop cl child child' argc i count :
  copy_loop cl child argc i count = Ok child' -> shifts 0 child child'.
Proof.
  revert child i. induction count as [|count IH]; intros child i H; simpl in H.
  - injection H as <-. apply shifts_refl.
  - unfold copy_arg in H. result_inv H. change 0 with (0 + 0). eapply shifts_trans; [|by eapply IH].
    match goal with H : Result_bind _ _ = Ok _ |- _ => result_inv H end.
    by eapply shifts_setArgument.
Qed.

Lemma shifts_default_loop uf child child' i count :
  default_loop uf child i count = Ok child' -> shifts 0 child child'.
Proof.
  revert child i. induction count as [|count IH]; intros child i H; simpl in H.
  - injection H as <-. apply shifts_refl.
  - result_inv H. change 0 with (0 + 0). eapply shifts_trans; [|by eapply IH].
    by eapply shifts_setArgument.
Qed.

(** [m'] is [m] inside a call: a new closure runs, which knows where to return;
    the caller's stack is [n] lower, the other closures are as before. *)
Record entered (m m' : Machine) (n : Z) : Prop := {
  en_new : cur m' = length (closures (store m));
  en_child : exists child, closures (store m') !! cur m' = Some child
    /\ returnClosure child = Some (cur m) /\ returnSegment child = Some (segment m)
    /\ returnPc child = pc m;
  en_caller : shifted (store m) (store m') (cur m) (- n);
  en_others : forall c, (c < length (closures (store m)))%nat -> c <> cur m ->
    closures (store m') !! c = closures (store m) !! c
}.

Lemma create_child_inv m uf d s c child cl :
  cur_closure m = Ok cl -> create_child m uf d = Ok (s, c) -> get_closure s c = Ok child ->
  c = length (closures (store m)) /\ closures s = closures (store m) ++ [child]
  /\ get_closure s (cur m) = Ok cl /\ (cur m < length (closures (store m)))%nat
  /\ returnClosure child = Some (cur m) /\ returnSegment child = Some (segment m)
  /\ returnPc child = pc m.
Proof.
  intros Hcur Hc Hch. unfold create_child, Closure_CreateLocal in Hc. result_inv Hc.
  injection Hc as <- <-. unfold get_closure in *. simpl in *.
  rewrite lookup_app_r, Nat.sub_diag in Hch by lia. simpl in Hch. injection Hch as <-.
  assert (Hlt : (cur m < length (closures (store m)))%nat).
  { unfold cur_closure, get_closure in Hcur. result_inv Hcur. by eapply lookup_lt_Some. }
  rewrite lookup_app_l by done. by repeat split.
Qed.

(** The common end of the conventions, whichever order they update in. *)
Lemma enter_entered m uf s s' c child child' cl h m' n :
  cur_closure m = Ok cl -> closures s = closures (store m) ++ [child] ->
  c = length (closures (store m)) ->
  returnClosure child = Some (cur m) -> returnSegment child = Some (segment m) ->
  returnPc child = pc m -> shifts 0 child child' ->
  s' = update_closure (update_closure s c child') (cur m) (Closure_PopCount cl n)
  \/ s' = update_closure (update_closure s (cur m) (Closure_PopCount cl n)) c child' ->
  enter_child P m uf c s' h = Ok m' -> entered m m' n.
Proof.
  intros Hcur Hs -> R1 R2 R3 [_ Hf] Hs' He.
  unfold enter_child in He. result_inv He. injection He as <-.
  unfold cur_closure, get_closure in Hcur. result_inv Hcur. injection Hcur as ->.
  assert (Hlt : (cur m < length (closures (store m)))%nat) by (by eapply lookup_lt_Some).
  assert (Hn : closures s' = <[cur m := Closure_PopCount cl n]> (closures (store m)) ++ [child']).
  { destruct Hs' as [-> | ->]; simpl; rewrite Hs.
    - rewrite insert_app_r_alt by lia. rewrite Nat.sub_diag. simpl.
      by rewrite insert_app_l by done.
    - rewrite insert_app_l by done. rewrite insert_app_r_alt by (rewrite length_insert; lia).
      by rewrite length_insert, Nat.sub_diag. }
  split; simpl; rewrite ?Hn.
  - done.
  - exists child'. rewrite lookup_app_r by (rewrite length_insert; lia).
    rewrite length_insert, Nat.sub_diag. split; [done|].
    unfold frame in Hf. injection Hf as ? ? ? ? ? ?. by repeat split; congruence.
  - intros cl0 H0. rewrite H0 in *. simplify_eq. exists (Closure_PopCount cl n).
    rewrite Hn, lookup_app_l by (rewrite length_insert; lia).
    rewrite list_lookup_insert_eq by done. split; [done|]. simpl. repeat split; lia || done.
  - intros c Hc Hne. rewrite lookup_app_l by (rewrite length_insert; lia).
    by rewrite list_lookup_insert_ne by done.
Qed.

Lemma fast_call_entered n moves m uf d argc extra cl m' :
  cur_closure m = Ok cl -> fast_call P n moves m uf d argc extra = Ok m' ->
  entered m m' (extra + argc).
Proof.
  intros Hcur H. unfold fast_call in H. destruct (Z.eqb_spec argc n) as [->|]; [|discriminate].
  simpl in H. result_inv H.
  match goal with H : create_child _ _ _ = _ |- _ =>
    eapply create_child_inv in H as (-> & Hs & Hcl & Hlt & R1 & R2 & R3); [|eassumption..] end.
  assert (x0 = cl) as -> by congruence.
  eapply enter_entered; try eassumption; [done| |by left]. by eapply shifts_copy_moves.
Qed.

Lemma Slow_Call_entered m uf d argc extra cl m' :
  cur_closure m = Ok cl -> SmileUserFunction_Slow_Call P m uf d argc extra = Ok m' ->
  entered m m' (extra + argc).
Proof.
  intros Hcur H. unfold SmileUserFunction_Slow_Call in H.
  destruct (Z.eqb_spec argc (uf_numArgs uf)) as [->|]; [|discriminate].
  simpl in H. result_inv H.
  match goal with H : create_child _ _ _ = _ |- _ =>
    eapply create_child_inv in H as (-> & Hs & Hcl & Hlt & R1 & R2 & R3); [|eassumption..] end.
  assert (x0 = cl) as -> by congruence.
  eapply enter_entered; try eassumption; [done| |by left]. by eapply shifts_copy_loop.
Qed.

Lemma Optional_Call_entered m uf d argc extra cl m' :
  cur_closure m = Ok cl -> SmileUserFunction_Optional_Call P m uf d argc extra = Ok m' ->
  entered m m' (extra + argc).
Proof.
  intros Hcur H. unfold SmileUserFunction_Optional_Call in H.
  destruct (_ <? _); [discriminate|]. destruct (_ >? _); [discriminate|].
  simpl in H. result_inv H.
  match goal with H : create_child _ _ _ = _ |- _ =>
    eapply create_child_inv in H as (-> & Hs & Hcl & Hlt & R1 & R2 & R3); [|eassumption..] end.
  assert (x0 = cl) as -> by congruence.
  eapply enter_entered; try eassumption; [done| |by right].
  change 0 with (0 + 0). eapply shifts_trans;
    [by eapply shifts_copy_loop|by eapply shifts_default_loop].
Qed.

Lemma Rest_Call_entered m uf d argc extra cl m' :
  cur_closure m = Ok cl -> SmileUserFunction_Rest_Call P m uf d argc extra = Ok m' ->
  entered m m' (extra + argc).
Proof.
  intros Hcur H. unfold SmileUserFunction_Rest_Call in H.
  destruct (_ <? _); [discriminate|]. result_inv H.
  match goal with H : create_child _ _ _ = _ |- _ =>
    eapply create_child_inv in H as (-> & Hs & Hcl & Hlt & R1 & R2 & R3); [|eassumption..] end.
  assert (x0 = cl) as -> by congruence.
  eapply enter_entered; try eassumption; [done| |by left].
  match goal with H : (if _ then _ else _) = Ok _ |- _ => rename H into Hc end.
  destruct (argc <? uf_numArgs uf); result_inv Hc; simplify_eq.
  - change 0 with (0 + (0 + 0)).
    repeat (eapply shifts_trans; [first [by eapply shifts_copy_loop|by eapply shifts_default_loop]|]).
    by eapply shifts_setArgument.
  - change 0 with (0 + 0).
    eapply shifts_trans; [by eapply shifts_copy_loop|by eapply shifts_setArgument].
Qed.

Lemma user_call_entered m fn d argc extra cl m' :
  cur_closure m = Ok cl -> user_call P m fn d argc extra = Ok m' -> entered m m' (extra + argc).
Proof.
  intros Hcur H. unfold user_call in H. result_inv H.
  match goal with H : GetUserFunctionVTableByFlags _ _ _ = Some _ |- _ => rename H into Hf end.
  unfold GetUserFunctionVTableByFlags in Hf.
  repeat match type of Hf with
         | context [match ?x with _ => _ end] => destruct x; try discriminate Hf
         end;
    injection Hf as <-;
    first [ by eapply fast_call_entered | by eapply Slow_Call_entered
          | by eapply Optional_Call_entered | by eapply Rest_Call_entered ].
Qed.

(** External functions always hand over to C code, or fail. *)
Lemma external_call_not_Next k m fn ef argc extra m' :
  external_call k m fn ef argc extra <> Next m'.
Proof.
  intros H. unfold external_call in H. repeat (apply lift_Next in H as (? & _ & H)). discriminate H.
Qed.

Lemma external_vtable_not_Next flags f m fn ef argc extra m' :
  GetExternalFunctionVTableByFlags flags = Some f -> f m fn ef argc extra <> Next m'.
Proof.
  unfold GetExternalFunctionVTableByFlags. intros Hf.
  repeat match type of Hf with
         | context [match ?x with _ => _ end] => destruct x; try discriminate Hf
         end;
    injection Hf as <-; try apply external_call_not_Next.
  intros H. apply lift_Next in H as (? & _ & H). discriminate H.
Qed.

(** Only user functions go on with the interpreter at once. *)
Lemma call_entered fuel m target argc extra cl m' :
  cur_closure m = Ok cl -> call P fuel m target argc extra = Next m' -> entered m m' (extra + argc).
Proof.
  intros Hcur. revert target.
  assert (Hext : forall fn, (let! ef := orCrash (externalFunctionInfos P !! fn) in
          let! f := orCrash (GetExternalFunctionVTableByFlags (ef_argCheckFlags ef)) in
          f m fn ef argc extra) = Next m' -> entered m m' (extra + argc)).
  { intros fn H. apply lift_Next in H as (ef & _ & H). apply lift_Next in H as (f & Hf & H).
    destruct (GetExternalFunctionVTableByFlags _) eqn:Ev; [|discriminate]. injection Hf as ->.
    exfalso. by eapply external_vtable_not_Next. }
  induction fuel as [|fuel IH]; intros target H; simpl in H;
    destruct target as [| | | |b|r]; try discriminate H;
    destruct (heap m !! r) as [[]|]; try discriminate H;
    try (apply run_Next in H; by eapply user_call_entered); try (by eapply Hext).
  destruct (_ !! sym_fn); [|by apply (IH _ H)].
  apply lift_Next in H as (kind & _ & H). destruct (_ =? _); by apply (IH _ H).
Qed.

(** The number of stack slots a call instruction takes: the arguments, and the
    function or target object. *)
Definition call_slots (b : ByteCode) : option Z :=
  match opcode b with
  | Op_Call0 | Op_Met0 => Some 1 | Op_Call1 | Op_Met1 => Some 2 | Op_Call2 | Op_Met2 => Some 3
  | Op_Call3 | Op_Met3 => Some 4 | Op_Call4 | Op_Met4 => Some 5 | Op_Call5 | Op_Met5 => Some 6
  | Op_Call6 | Op_Met6 => Some 7 | Op_Call7 | Op_Met7 => Some 8
  | Op_Call => Some (get_index (u b) + 1)
  | Op_Met => Some (get_i2_a (u b) + 1)
  | Op_LdMember => Some 2
  | Op_StMember | Op_StpMember => Some 3
  | _ => None
  end.

Lemma invoke_function_entered m argc m' :
  invoke_function P m argc = Next m' -> entered (advance m) m' (argc + 1).
Proof.
  intros H. unfold invoke_function in H.
  apply lift_Next in H as (cl & Hc & H). apply lift_Next in H as (t & _ & H).
  rewrite Z.add_comm. by eapply call_entered.
Qed.

Lemma entered_store m1 m2 m' n :
  store m1 = store m2 -> cur m1 = cur m2 -> segment m1 = segment m2 -> pc m1 = pc m2 ->
  entered m1 m' n -> entered m2 m' n.
Proof. intros H1 H2 H3 H4 [A B C D]. rewrite H1, ?H2, ?H3, ?H4 in *. by split. Qed.

Lemma invoke_method_entered m offset name argc m' :
  invoke_method P m offset name argc = Next m' -> entered (advance m) m' argc.
Proof.
  intros H. unfold invoke_method, call_method in H.
  apply lift_Next in H as (cl & Hc & H). apply lift_Next in H as (t & _ & H).
  apply lift_Next in H as ([h meth] & _ & H). apply lift_Next in H as (kind & _ & H).
  destruct (negb _); [discriminate|].
  eapply (entered_store (set_heap h (advance m))); try done.
  rewrite <- (Z.add_0_l argc). by eapply call_entered.
Qed.

(** [Op_StMember] first moves the value below the target and the index. *)
Lemma entered_put m cl cl' m' n :
  cur_closure m = Ok cl -> shifts 0 cl cl' ->
  entered (advance (put_closure cl' m)) m' n -> entered (advance m) m' n.
Proof.
  intros Hc Hs [A B C D].
  pose proof (put_shifted m cl cl' 0 Hc Hs) as H0.
  split; simpl in *; rewrite ?length_insert in *; try done.
  - rewrite <- (Z.add_0_l (- n)). by eapply shifted_trans.
  - intros c Hlt Hne. rewrite D by (rewrite ?length_insert; done).
    by rewrite list_lookup_insert_ne by done.
Qed.

Lemma call_instruction_entered b m m' n :
  call_slots b = Some n -> eval_instruction P b m = Next m' -> entered (advance m) m' n.
Proof.
  intros Hn H. unfold eval_instruction in H. unfold call_slots in Hn.
  destruct (opcode b) eqn:Hop; try discriminate Hn; injection Hn as <-; simpl in H;
    unfold eval_flow, eval_call, eval_property in H; rewrite ?Hop in H;
    try (by apply (invoke_function_entered _ _ _ H));
    try (by apply (invoke_method_entered _ _ _ _ _ H)).
  apply lift_Next in H as (cl & Hc & H).
  repeat match type of H with
         | lift (Result_bind _ _) _ = Next _ =>
             let cl' := fresh "cl'" in let Hx := fresh "Hx" in
             apply lift_Next in H as (cl' & Hx & H); result_inv Hx; apply shifts_setTemp in Hx
         end.
  apply invoke_method_entered in H. eapply entered_put; [exact Hc| |exact H].
  change 0 with (0 + (0 + (0 + 0))). repeat (eapply shifts_trans; [eassumption|]). done.
Qed.

(** Returning hands the top of the callee's stack to the caller. *)
Lemma do_return_spec m m' child rc :
  cur_closure m = Ok child -> returnClosure child = Some rc -> rc <> cur m ->
  do_return P m = Next m' ->
  exists arg rs cl cl', Closure_GetTop child = Ok arg
    /\ returnSegment child = Some rs /\ cur m' = rc /\ segment m' = rs /\ pc m' = returnPc child
    /\ closures (store m) !! rc = Some cl /\ closures (store m') !! rc = Some cl'
    /\ Closure_Push cl arg = Ok cl'.
Proof.
  intros Hc Hr Hne H. unfold do_return in H. rewrite Hc in H. simpl in H. rewrite Hr in H.
  apply run_Next in H. result_inv H. injection H as <-.
  unfold Closure_GetTop. unfold Closure_Pop in *.
  match goal with H : Result_bind (orCrash (zget _ _)) _ = Ok (_, _) |- _ =>
    rename H into Hp end.
  result_inv Hp. injection Hp as -> <-.
  match goal with H : cur_closure _ = Ok _ |- _ => rename H into Hrc end.
  unfold cur_closure, get_closure in Hrc. simpl in Hrc.
  rewrite list_lookup_insert_ne in Hrc by done.
  destruct (closures (store m) !! rc) as [cl|] eqn:Ecl; [|discriminate Hrc]. injection Hrc as <-.
  do 4 eexists. repeat (split; [done || reflexivity|]). split; [|eassumption]. simpl.
  rewrite list_lookup_insert_eq; [done|]. rewrite length_insert. by eapply lookup_lt_Some.
Qed.

(** From the call instruction to the return: [m2] is any machine in which the
    callee is about to return, having left the caller's stack as it found it. *)
Lemma call_return_effect b m m1 m2 m3 n d :
  call_slots b = Some n -> eval_instruction P b m = Next m1 ->
  cur m2 = cur m1 -> shifted (store m1) (store m2) (cur m1) d ->
  shifted (store m1) (store m2) (cur m) 0 ->
  (cur m < length (closures (store m)))%nat ->
  do_return P m2 = Next m3 ->
  cur m3 = cur m /\ segment m3 = segment m /\ pc m3 = pc m + 1
  /\ shifted (store m) (store m3) (cur m) (1 - n)
  /\ (let* child := cur_closure m2 in Closure_GetTop child)
     = (let* cl := cur_closure m3 in Closure_GetTop cl).
Proof.
  intros Hn H1 Hcur Hch Hcl Hlt H3.
  destruct (call_instruction_entered _ _ _ _ Hn H1) as [N1 (child & C1 & R1 & R2 & R3) N3 _].
  simpl in *. destruct (Hch _ C1) as (child2 & C2 & _ & _ & _ & _ & Q1 & Q2 & Q3).
  assert (Hc2 : cur_closure m2 = Ok child2).
  { unfold cur_closure, get_closure. by rewrite Hcur, C2. }
  destruct (do_return_spec m2 m3 child2 (cur m) Hc2) as
    (arg & rs & cl & cl' & T1 & T2 & T3 & T4 & T5 & T6 & T7 & T8); [congruence|lia|done|].
  split; [done|]. split; [congruence|]. split; [congruence|]. split.
  - intros cl0 H0. destruct (N3 _ H0) as (cl1 & E1 & A). destruct (Hcl _ E1) as (cl2 & E2 & B).
    assert (cl2 = cl) as -> by congruence. exists cl'.
    split; [done|]. apply shift_push in T8.
    destruct A as (A1 & A2 & A3 & A4 & A5 & A6 & A7), B as (B1 & B2 & B3 & B4 & B5 & B6 & B7),
      T8 as (D1 & D2 & D3 & D4 & D5 & D6 & D7).
    repeat split; congruence || lia.
  - rewrite Hc2. unfold cur_closure at 1, get_closure. rewrite T3, T7. simpl. rewrite T1.
    apply Push_inv in T8 as (v & Hv & ->). unfold Closure_GetTop. simpl.
    replace (stackTop cl + 1 - 1) with (stackTop cl) by lia.
    by rewrite (zset_get_eq _ _ _ _ Hv).
Qed.

(** A lemma for the till instructions: popping a known top. *)
Lemma pop_top cl arg :
  Closure_GetTop cl = Ok arg -> Closure_Pop cl = Ok (arg, set_stackTop (stackTop cl - 1) cl).
Proof. unfold Closure_GetTop, Closure_Pop. intros H. result_inv H. by injection H as ->. Qed.

(** What [Op_NewTill] puts on the heap and on the stack. *)
Lemma NewTill_spec b m m1 cl t targets :
  opcode b = Op_NewTill -> cur_closure m = Ok cl -> cur_tables P m = Ok t ->
  zget (t_tillInfos t) (get_int32 (u b)) = Some targets -> eval_instruction P b m = Next m1 ->
  heap m1 !! length (heap m)
    = Some (HTill (Some (cur m)) (Some (segment m)) (wrapS 32 (stackTop cl)) targets
              (wrapS 32 (zlen targets)))
  /\ shifted (store m) (store m1) (cur m) 1.
Proof.
  intros Hop Hc Ht Htg H.
  unfold eval_instruction in H. rewrite Hop in H. simpl in H. unfold eval_flow in H.
  rewrite Hop in H. unfold eval_till in H. rewrite Hop, Ht, Hc in H. simpl in H. rewrite Htg in H.
  simpl in H. apply run_Next in H. result_inv H. injection H as <-. split.
  - simpl. by rewrite lookup_app_r, Nat.sub_diag by done.
  - eapply put_shifted; [exact Hc|]. by eapply shifts_pushBoxed.
Qed.

(** What [Op_TillEsc] does with the continuation it finds on the stack. *)
Lemma TillEsc_spec b m cl r v c sg top targets address cl' seg :
  opcode b = Op_TillEsc -> cur_closure m = Ok cl -> Closure_GetTop cl = Ok (mkArg (Ref r) v) ->
  heap m !! r = Some (HTill (Some c) (Some sg) top targets (wrapS 32 (zlen targets))) ->
  zlen targets < 2 ^ 31 -> zget targets (get_int32 (u b)) = Some address ->
  segments P !! sg = Some seg -> closures (store m) !! c = Some cl' ->
  exists m' cl'', eval_instruction P b m = Next m' /\ cur m' = c /\ segment m' = sg
    /\ pc m' = address /\ closures (store m') !! c = Some cl''
    /\ stackTop cl'' = top /\ frame cl'' = frame cl'.
Proof.
  intros Hop Hc Htop Hr Hlen Ha Hsg Hcl'.
  unfold eval_instruction. rewrite Hop. simpl. unfold eval_flow. rewrite Hop. unfold eval_till.
  rewrite Hop, Hc. simpl. rewrite (pop_top _ _ Htop). simpl. rewrite Hr.
  assert (Hlt : get_int32 (u b) < zlen targets) by (apply (zget_is_Some targets); by rewrite Ha).
  rewrite (wrapS_id 32 (zlen targets)) by
    (try lia; unfold inS; change (32 - 1) with 31; pose proof (zlen_nonneg targets); lia).
  destruct (Z.geb_spec (get_int32 (u b)) (zlen targets)); [lia|]. simpl.
  rewrite Hsg. simpl. rewrite Ha. simpl. unfold get_closure. simpl.
  assert (Hx : exists cl4, <[cur m := set_stackTop (stackTop cl - 1) cl]> (closures (store m)) !! c
                           = Some cl4 /\ frame cl4 = frame cl').
  { destruct (decide (c = cur m)) as [->|Hne].
    - rewrite list_lookup_insert_eq by (by eapply lookup_lt_Some). eexists. split; [done|].
      unfold cur_closure, get_closure in Hc. rewrite Hcl' in Hc. by injection Hc as <-.
    - rewrite list_lookup_insert_ne by done. eauto. }
  destruct Hx as (cl4 & Hl & Hf). rewrite Hl. simpl. do 2 eexists.
  split; [reflexivity|]. simpl. repeat (split; [done|]).
  rewrite list_lookup_insert_eq; [split; [reflexivity|]; by split|].
  rewrite length_insert. by eapply lookup_lt_Some.
Qed.

End Calls.

(** ** Properties *)
Section CallProps.
Context {E : ObjectEnv} (P : Program).

(** C9: calls and returns match.  When an instruction enters a user function,
    by any calling convention, and that function later returns, execution is
    back in the calling closure and segment at the instruction after the call,
    the caller's stack has lost the call's operands and gained one slot, and
    that slot holds what was on top of the callee's stack. *)
Theorem call_then_return (b : ByteCode) (m m1 m2 m3 : Machine) (n d : Z) :
  call_slots b = Some n -> eval_instruction P b m = Next m1 ->
  cur m2 = cur m1 -> shifted (store m1) (store m2) (cur m1) d ->
  shifted (store m1) (store m2) (cur m) 0 ->
  (cur m < length (closures (store m)))%nat ->
  do_return P m2 = Next m3 ->
  cur m3 = cur m /\ segment m3 = segment m /\ pc m3 = pc m + 1
  /\ shifted (store m) (store m3) (cur m) (1 - n)
  /\ (let* child := cur_closure m2 in Closure_GetTop child)
     = (let* cl := cur_closure m3 in Closure_GetTop cl).
Proof. apply call_return_effect. Qed.

(** C25: over the whole call, every call instruction but [Op_Met] and
    [Op_StpMember] changes the caller's stack by exactly the effect that
    [opcode.h] documents. *)
Theorem documented_call_effect (b : ByteCode) (m m1 m2 m3 : Machine) (n d : Z) :
  call_slots b = Some n -> opcode b <> Op_Met -> opcode b <> Op_StpMember ->
  eval_instruction P b m = Next m1 ->
  cur m2 = cur m1 -> shifted (store m1) (store m2) (cur m1) d ->
  shifted (store m1) (store m2) (cur m) 0 ->
  (cur m < length (closures (store m)))%nat ->
  do_return P m2 = Next m3 ->
  exists effect, Opcode_stackDelta (opcode b) (op_count b) = Some effect
    /\ shifted (store m) (store m3) (cur m) effect.
Proof.
  intros Hn H1 H2 He Hc Hch Hcl Hlt Hr. exists (1 - n).
  split; [|by eapply call_return_effect].
  unfold call_slots, op_count in *. destruct (opcode b); simplify_eq; simpl; f_equal; lia.
Qed.

(** [Op_StpMember] is documented to store and pop, three slots less; the
    result of the [set-member] call it makes stays on the stack, so it ends only
    two slots lower.  [Op_Met] with [n] arguments is documented as [-n + 1] and
    ends [n] lower. *)
Theorem StpMember_leaves_result (b : ByteCode) (m m1 m2 m3 : Machine) (d : Z) :
  opcode b = Op_StpMember \/ opcode b = Op_Met -> eval_instruction P b m = Next m1 ->
  cur m2 = cur m1 -> shifted (store m1) (store m2) (cur m1) d ->
  shifted (store m1) (store m2) (cur m) 0 ->
  (cur m < length (closures (store m)))%nat ->
  do_return P m2 = Next m3 ->
  match opcode b with
  | Op_StpMember =>
      shifted (store m) (store m3) (cur m) (-2)
      /\ Opcode_stackDelta (opcode b) (op_count b) = Some (-3)
  | _ =>
      shifted (store m) (store m3) (cur m) (- get_i2_a (u b))
      /\ Opcode_stackDelta (opcode b) (get_i2_a (u b)) = Some (- get_i2_a (u b) + 1)
  end.
Proof.
  intros [Hop|Hop] H1 Hc Hch Hcl Hlt Hr; rewrite Hop.
  - split; [|done].
    assert (Hn : call_slots b = Some 3) by (unfold call_slots; by rewrite Hop).
    exact (proj1 (proj2 (proj2 (proj2
      (call_return_effect P b m m1 m2 m3 3 d Hn H1 Hc Hch Hcl Hlt Hr))))).
  - split; [|done].
    assert (Hn : call_slots b = Some (get_i2_a (u b) + 1)) by (unfold call_slots; by rewrite Hop).
    replace (- get_i2_a (u b)) with (1 - (get_i2_a (u b) + 1)) by lia.
    exact (proj1 (proj2 (proj2 (proj2
      (call_return_effect P b m m1 m2 m3 _ d Hn H1 Hc Hch Hcl Hlt Hr))))).
Qed.

(** C23: escaping to a till.  The continuation [Op_NewTill] pushes can be used
    by [Op_TillEsc] from any closure, at any depth of calls, as long as it has
    not been invalidated: execution resumes in the closure and segment that
    created it, at the chosen target, with the stack exactly as high as before
    the continuation was pushed. *)
Theorem till_escape_restores (b b2 : ByteCode) (m m1 m2 : Machine) (cl cl2 : Closure)
  (t : CompiledTables) (targets : list Z) (address : Z) (v : word) (d : Z) :
  opcode b = Op_NewTill -> cur_closure m = Ok cl -> inS 32 (stackTop cl) ->
  cur_tables P m = Ok t -> zget (t_tillInfos t) (get_int32 (u b)) = Some targets ->
  zlen targets < 2 ^ 31 -> eval_instruction P b m = Next m1 ->
  let r := length (heap m) in
  opcode b2 = Op_TillEsc -> zget targets (get_int32 (u b2)) = Some address ->
  heap m2 !! r = heap m1 !! r -> shifted (store m1) (store m2) (cur m) d ->
  cur_closure m2 = Ok cl2 -> Closure_GetTop cl2 = Ok (mkArg (Ref r) v) ->
  exists m3, eval_instruction P b2 m2 = Next m3
    /\ cur m3 = cur m /\ segment m3 = segment m /\ pc m3 = address
    /\ shifted (store m) (store m3) (cur m) 0.
Proof.
  intros Hop Hc Hin Ht Htg Hlen H r Hop2 Ha Hh Hsh Hc2 Htop.
  destruct (NewTill_spec P _ _ _ _ _ _ Hop Hc Ht Htg H) as [Hobj Hs1]. fold r in Hobj.
  assert (Hseg : exists seg, segments P !! segment m = Some seg).
  { unfold cur_tables in Ht. result_inv Ht. eauto. }
  destruct Hseg as [seg Hseg].
  assert (Hcl : closures (store m) !! cur m = Some cl).
  { unfold cur_closure, get_closure in Hc. result_inv Hc. by injection Hc as ->. }
  destruct (shifted_trans _ _ _ _ _ _ Hs1 Hsh _ Hcl) as (cl3 & G3 & _ & B2 & B3 & B4 & B5 & B6 & B7).
  rewrite Hobj, (wrapS_id 32 (stackTop cl)) in Hh by (done || lia).
  destruct (TillEsc_spec P _ _ _ _ _ _ _ _ _ _ _ _ Hop2 Hc2 Htop Hh Hlen Ha Hseg G3)
    as (m3 & cl4 & S1 & S2 & S3 & S4 & S5 & S6 & S7).
  exists m3. repeat (split; [done|]). intros cl0 H0. assert (cl0 = cl) as -> by congruence.
  exists cl4. unfold frame in S7. injection S7 as ? ? ? ? ? ?.
  repeat split; congruence || lia.
Qed.

(** [Op_EndTill] invalidates the continuation for good: after it, an escape
    to any of its targets throws instead of jumping into a finished loop. *)
Theorem ended_till_throws (b b2 : ByteCode) (m m1 m2 : Machine) (cl cl2 : Closure) (r : nat)
  (v w : word) :
  opcode b = Op_EndTill -> cur_closure m = Ok cl -> Closure_GetTop cl = Ok (mkArg (Ref r) v) ->
  eval_instruction P b m = Next m1 ->
  opcode b2 = Op_TillEsc -> 0 <= get_int32 (u b2) -> heap m2 !! r = heap m1 !! r ->
  cur_closure m2 = Ok cl2 -> Closure_GetTop cl2 = Ok (mkArg (Ref r) w) ->
  eval_instruction P b2 m2 = Exception sym_eval_error.
Proof.
  intros Hop Hc Htop H Hop2 Hi Hh Hc2 Htop2.
  assert (Hobj : exists top, heap m1 !! r = Some (HTill None None top [] 0)).
  { unfold eval_instruction in H. rewrite Hop in H. simpl in H. unfold eval_flow in H.
    rewrite Hop in H. unfold eval_till in H. rewrite Hop, Hc in H. simpl in H.
    rewrite (pop_top _ _ Htop) in H. simpl in H. apply run_Next in H.
    destruct (heap m !! r) as [[]|] eqn:Er; try discriminate H. injection H as <-. simpl.
    rewrite list_lookup_insert_eq by (by eapply lookup_lt_Some). eauto. }
  destruct Hobj as [top Hobj]. rewrite Hobj in Hh.
  unfold eval_instruction. rewrite Hop2. simpl. unfold eval_flow. rewrite Hop2. unfold eval_till.
  rewrite Hop2, Hc2. simpl. rewrite (pop_top _ _ Htop2). simpl. rewrite Hh.
  destruct (Z.geb_spec (get_int32 (u b2)) 0); [done|lia].
Qed.

End CallProps.

(** ** Witnesses *)
Section Witnesses.
#[local] Existing Instance example_env.

Definition next_or (m : Machine) (o : Outcome) : Machine :=
  match o with Next m' => m' | _ => m end.

Definition example_called : Machine :=
  next_or example_machine (eval_instruction example_P (mkByteCode Op_Call1 0 0) example_machine).
Definition example_returned : Machine :=
  next_or example_machine (do_return example_P example_called).

Lemma call_then_return_witness :
  cur example_called = 2%nat /\ cur example_returned = 1%nat /\ pc example_returned = 6
  /\ shifted (store example_machine) (store example_returned) 1 (-1).
Proof.
  split; [reflexivity|].
  destruct (call_then_return example_P (mkByteCode Op_Call1 0 0) example_machine example_called
              example_called example_returned 2 0 eq_refl eq_refl eq_refl
              (shifted_refl _ _) (shifted_refl _ _) ltac:(simpl; lia) eq_refl)
    as (H1 & _ & H2 & H3 & _).
  split; [exact H1|]. split; [exact H2|]. exact H3.
Defined.

Lemma documented_call_effect_witness :
  exists effect, Opcode_stackDelta Op_Call1 0 = Some effect
    /\ shifted (store example_machine) (store example_returned) 1 effect.
Proof.
  exact (documented_call_effect example_P (mkByteCode Op_Call1 0 0) example_machine example_called
           example_called example_returned 2 0 eq_refl ltac:(discriminate) ltac:(discriminate)
           eq_refl eq_refl (shifted_refl _ _) (shifted_refl _ _) ltac:(simpl; lia) eq_refl).
Defined.

(** A user object that answers [set-member] with a function of three arguments. *)
Definition example_member_fn : UserFunctionInfo := mkUserFunctionInfo 0 3 3 3 [] 2 0.
Definition example_member_store : Store :=
  mkStore
    [mkClosure None (Some 0%nat) (Some 0%nat) None None 0 0 0 [] None;
     mkClosure (Some 0%nat) (Some 0%nat) (Some 1%nat) None None 0 0 3
       [mkArg (Ref 1) 0; SmileUnboxed_From KInteger64 4; SmileUnboxed_From KInteger64 5] None]
    [mkClosureInfo None (Some 0%nat) CLOSURE_KIND_GLOBAL 0 0 0 ∅;
     mkClosureInfo (Some 0%nat) (Some 0%nat) CLOSURE_KIND_LOCAL 0 0 3 ∅;
     mkClosureInfo (Some 0%nat) (Some 0%nat) CLOSURE_KIND_LOCAL 3 3 2 ∅].
Definition example_member_machine : Machine :=
  mkMachine example_member_store
    [HUserFunction 0 0;
     HUserObject PrimitiveObject 0 true true
       (<[SMILE_SPECIAL_SYMBOL_SET_MEMBER := Ref 0]> ∅)] 1 0 5.
Definition example_member_P : Program := example_program example_member_fn.
Definition example_member_called : Machine :=
  next_or example_machine
    (eval_instruction example_member_P (mkByteCode Op_StpMember 0 0) example_member_machine).
Definition example_member_returned : Machine :=
  next_or example_machine (do_return example_member_P example_member_called).

Lemma StpMember_leaves_result_witness :
  shifted (store example_member_machine) (store example_member_returned) 1 (-2)
  /\ Opcode_stackDelta Op_StpMember 0 = Some (-3).
Proof.
  exact (StpMember_leaves_result example_member_P (mkByteCode Op_StpMember 0 0)
           example_member_machine example_member_called example_member_called
           example_member_returned 0 (or_introl eq_refl) eq_refl eq_refl
           (shifted_refl _ _) (shifted_refl _ _) ltac:(simpl; lia) eq_refl).
Defined.

(** One till with a single target, at 9. *)
Definition example_till_P : Program :=
  mkProgram [example_segment] [mkTables [] [] [] [[9]]] [] [].
Definition example_till_machine : Machine := example_with_top (mkArg NullObject 0).
Definition example_till_created : Machine :=
  next_or example_machine
    (eval_instruction example_till_P (mkByteCode Op_NewTill 0 0) example_till_machine).
Definition example_till_ended : Machine :=
  next_or example_machine
    (eval_instruction example_till_P (mkByteCode Op_EndTill 0 0) example_till_created).

Lemma till_escape_restores_witness :
  exists m3, eval_instruction example_till_P (mkByteCode Op_TillEsc 0 0) example_till_created = Next m3
    /\ pc m3 = 9 /\ shifted (store example_till_machine) (store m3) 1 0.
Proof.
  destruct (till_escape_restores example_till_P (mkByteCode Op_NewTill 0 0)
              (mkByteCode Op_TillEsc 0 0) example_till_machine example_till_created
              example_till_created _ _ _ [9] 9 0 0 eq_refl eq_refl ltac:(split; vm_compute; congruence)
              eq_refl eq_refl ltac:(reflexivity) eq_refl eq_refl eq_refl eq_refl
              (shifted_refl _ _) eq_refl eq_refl)
    as (m3 & H1 & _ & _ & H2 & H3).
  exists m3. repeat split; [exact H1|exact H2|exact H3].
Defined.

Lemma ended_till_throws_witness :
  eval_instruction example_till_P (mkByteCode Op_TillEsc 0 0)
    (set_store (store example_till_created) example_till_ended) = Exception sym_eval_error.
Proof.
  exact (ended_till_throws example_till_P (mkByteCode Op_EndTill 0 0) (mkByteCode Op_TillEsc 0 0)
           example_till_created example_till_ended
           (set_store (store example_till_created) example_till_ended) _ _ 1 0 0
           eq_refl eq_refl eq_refl eq_refl eq_refl ltac:(vm_compute; congruence) eq_refl eq_refl eq_refl).
Defined.
End Witnesses.
