(* ===== verification/Compiler.v ===== *)
(** * Compiler: the state of the compiler and its bookkeeping

    [include/smile/eval/compiler.h], [compiler_internal.h] and
    [src/eval/compiler.c]: the tables filled during a compile, the chain of
    functions and scopes, source locations, and the emitting macros.

    Objects the C code allocates and passes by pointer (functions, scopes,
    symbols, closure and function descriptions, till continuations) live in
    stores of the state and are named by position.  A computation is a state
    transformer: [CAbort] is [Smile_Abort_FatalError], [CCrash] undefined
    behaviour (a NULL pointer, an index outside an array), [CFuel] a recursion
    cut short.  Allocation never fails. *)

From S2P Require Import Prelude Opcode ByteCode CompiledBlock Object Closure Expr.
From stdpp Require Import strings.
Import Operand.
#[local] Open Scope Z_scope.

(** ** Data *)

(** A growable array: [zlen entries] is the count in use. *)
Record Table (A : Type) := mkTable { entries : list A; maxEntries : Z }.
Arguments mkTable {A}. Arguments entries {A}. Arguments maxEntries {A}.

Record CompiledSourceLocation := mkSourceLocation {
  sl_filename : option nat; sl_line : Z; sl_column : Z; sl_assignedName : Symbol
}.

(** Zeroed memory. *)
Definition no_location : CompiledSourceLocation := mkSourceLocation None 0 0 0.

(** Pointers are [option]s, [None] for NULL. *)
Record CompiledTables := mkTables {
  ct_globalFunctionInfo : option nat;
  ct_globalClosureInfo : option nat;
  ct_strings : Table (option (list Z));
  ct_stringLookup : gmap (list Z) Z;
  ct_userFunctions : Table (option nat);
  ct_objects : Table (option Expr);
  ct_tillInfos : Table (option nat);
  ct_sourcelocations : Table CompiledSourceLocation
}.

Definition upd_ct_globalFunctionInfo (f : _ -> _) (r : CompiledTables) : CompiledTables :=
  mkTables (f (ct_globalFunctionInfo r)) (ct_globalClosureInfo r) (ct_strings r) (ct_stringLookup
    r) (ct_userFunctions r) (ct_objects r) (ct_tillInfos r) (ct_sourcelocations r).
Definition upd_ct_strings (f : _ -> _) (r : CompiledTables) : CompiledTables :=
  mkTables (ct_globalFunctionInfo r) (ct_globalClosureInfo r) (f (ct_strings r)) (ct_stringLookup
    r) (ct_userFunctions r) (ct_objects r) (ct_tillInfos r) (ct_sourcelocations r).
Definition upd_ct_stringLookup (f : _ -> _) (r : CompiledTables) : CompiledTables :=
  mkTables (ct_globalFunctionInfo r) (ct_globalClosureInfo r) (ct_strings r) (f (ct_stringLookup
    r)) (ct_userFunctions r) (ct_objects r) (ct_tillInfos r) (ct_sourcelocations r).
Definition upd_ct_userFunctions (f : _ -> _) (r : CompiledTables) : CompiledTables :=
  mkTables (ct_globalFunctionInfo r) (ct_globalClosureInfo r) (ct_strings r) (ct_stringLookup r)
    (f (ct_userFunctions r)) (ct_objects r) (ct_tillInfos r) (ct_sourcelocations r).
Definition upd_ct_objects (f : _ -> _) (r : CompiledTables) : CompiledTables :=
  mkTables (ct_globalFunctionInfo r) (ct_globalClosureInfo r) (ct_strings r) (ct_stringLookup r)
    (ct_userFunctions r) (f (ct_objects r)) (ct_tillInfos r) (ct_sourcelocations r).
Definition upd_ct_tillInfos (f : _ -> _) (r : CompiledTables) : CompiledTables :=
  mkTables (ct_globalFunctionInfo r) (ct_globalClosureInfo r) (ct_strings r) (ct_stringLookup r)
    (ct_userFunctions r) (ct_objects r) (f (ct_tillInfos r)) (ct_sourcelocations r).
Definition upd_ct_sourcelocations (f : _ -> _) (r : CompiledTables) : CompiledTables :=
  mkTables (ct_globalFunctionInfo r) (ct_globalClosureInfo r) (ct_strings r) (ct_stringLookup r)
    (ct_userFunctions r) (ct_objects r) (ct_tillInfos r) (f (ct_sourcelocations r)).

Record VarInfo := mkVarInfo { var_kind : Z; var_offset : Z; var_value : SmileObject }.

Definition VAR_KIND_GLOBAL : Z := 0.
Definition VAR_KIND_COMMONGLOBAL : Z := 1.
Definition VAR_KIND_ARG : Z := 2.
Definition VAR_KIND_VAR : Z := 3.
Definition VAR_KIND_CONST : Z := 4.

(** A [ClosureInfo] with the members the evaluator does not read. *)
Record ClosureInfo := mkClosureInfo {
  ci_parent : option nat; ci_global : option nat; ci_kind : ClosureKind;
  ci_numVariables : Z; ci_numArgs : Z; ci_tempSize : Z;
  ci_variableDictionary : gmap Z VarInfo; ci_variableNames : list Symbol
}.

(** [fn_closureInfo] is the copy made when the function is finished. *)
Record UserFunctionInfo := mkUserFunctionInfo {
  fn_parent : option nat; fn_argInfo : ArgInfo; fn_argList : Expr; fn_body : Expr;
  fn_closureInfo : option ClosureInfo; fn_byteCodeSegment : option ByteCodeSegment
}.

Record CompilerFunction := mkCompilerFunction {
  cf_parent : option nat;
  cf_functionDepth : Z;
  cf_numArgs : Z;
  cf_localNames : list Symbol;
  cf_localMax : Z;
  cf_stackSize : Z;
  cf_args : Expr;
  cf_body : Expr;
  cf_closureInfo : nat;
  cf_currentSourceLocation : Z;
  cf_userFunctionInfo : option nat;
  cf_tillInfos : Table (option nat)
}.

Definition upd_cf_numArgs (f : _ -> _) (r : CompilerFunction) : CompilerFunction :=
  mkCompilerFunction (cf_parent r) (cf_functionDepth r) (f (cf_numArgs r)) (cf_localNames r)
    (cf_localMax r) (cf_stackSize r) (cf_args r) (cf_body r) (cf_closureInfo r)
    (cf_currentSourceLocation r) (cf_userFunctionInfo r) (cf_tillInfos r).
Definition upd_cf_localNames (f : _ -> _) (r : CompilerFunction) : CompilerFunction :=
  mkCompilerFunction (cf_parent r) (cf_functionDepth r) (cf_numArgs r) (f (cf_localNames r))
    (cf_localMax r) (cf_stackSize r) (cf_args r) (cf_body r) (cf_closureInfo r)
    (cf_currentSourceLocation r) (cf_userFunctionInfo r) (cf_tillInfos r).
Definition upd_cf_localMax (f : _ -> _) (r : CompilerFunction) : CompilerFunction :=
  mkCompilerFunction (cf_parent r) (cf_functionDepth r) (cf_numArgs r) (cf_localNames r) (f
    (cf_localMax r)) (cf_stackSize r) (cf_args r) (cf_body r) (cf_closureInfo r)
    (cf_currentSourceLocation r) (cf_userFunctionInfo r) (cf_tillInfos r).
Definition upd_cf_stackSize (f : _ -> _) (r : CompilerFunction) : CompilerFunction :=
  mkCompilerFunction (cf_parent r) (cf_functionDepth r) (cf_numArgs r) (cf_localNames r)
    (cf_localMax r) (f (cf_stackSize r)) (cf_args r) (cf_body r) (cf_closureInfo r)
    (cf_currentSourceLocation r) (cf_userFunctionInfo r) (cf_tillInfos r).
Definition upd_cf_currentSourceLocation (f : _ -> _) (r : CompilerFunction) : CompilerFunction :=
  mkCompilerFunction (cf_parent r) (cf_functionDepth r) (cf_numArgs r) (cf_localNames r)
    (cf_localMax r) (cf_stackSize r) (cf_args r) (cf_body r) (cf_closureInfo r) (f
    (cf_currentSourceLocation r)) (cf_userFunctionInfo r) (cf_tillInfos r).
Definition upd_cf_userFunctionInfo (f : _ -> _) (r : CompilerFunction) : CompilerFunction :=
  mkCompilerFunction (cf_parent r) (cf_functionDepth r) (cf_numArgs r) (cf_localNames r)
    (cf_localMax r) (cf_stackSize r) (cf_args r) (cf_body r) (cf_closureInfo r)
    (cf_currentSourceLocation r) (f (cf_userFunctionInfo r)) (cf_tillInfos r).
Definition upd_cf_tillInfos (f : _ -> _) (r : CompilerFunction) : CompilerFunction :=
  mkCompilerFunction (cf_parent r) (cf_functionDepth r) (cf_numArgs r) (cf_localNames r)
    (cf_localMax r) (cf_stackSize r) (cf_args r) (cf_body r) (cf_closureInfo r)
    (cf_currentSourceLocation r) (cf_userFunctionInfo r) (f (cf_tillInfos r)).

Record CompileScope := mkScope {
  sc_parent : option nat;
  sc_symbolDict : gmap Z nat;
  sc_kind : Z;
  sc_function : option nat
}.

(** [CompiledLocalSymbol], and behind it the members of [CompiledTillSymbol]
    (zero and NULL for the other kinds, which never read them). *)
Record CompiledLocalSymbol := mkLocalSymbol {
  ls_symbol : Symbol; ls_kind : Z; ls_index : Z;
  ls_wasRead : bool; ls_wasReadDeep : bool; ls_wasWritten : bool; ls_wasWrittenDeep : bool;
  ls_scope : nat;
  ls_tillIndex : Z; ls_whenLabel : option nat
}.

Definition upd_ls_kind (f : _ -> _) (r : CompiledLocalSymbol) : CompiledLocalSymbol :=
  mkLocalSymbol (ls_symbol r) (f (ls_kind r)) (ls_index r) (ls_wasRead r) (ls_wasReadDeep r)
    (ls_wasWritten r) (ls_wasWrittenDeep r) (ls_scope r) (ls_tillIndex r) (ls_whenLabel r).
Definition upd_ls_wasRead (f : _ -> _) (r : CompiledLocalSymbol) : CompiledLocalSymbol :=
  mkLocalSymbol (ls_symbol r) (ls_kind r) (ls_index r) (f (ls_wasRead r)) (ls_wasReadDeep r)
    (ls_wasWritten r) (ls_wasWrittenDeep r) (ls_scope r) (ls_tillIndex r) (ls_whenLabel r).
Definition upd_ls_wasReadDeep (f : _ -> _) (r : CompiledLocalSymbol) : CompiledLocalSymbol :=
  mkLocalSymbol (ls_symbol r) (ls_kind r) (ls_index r) (ls_wasRead r) (f (ls_wasReadDeep r))
    (ls_wasWritten r) (ls_wasWrittenDeep r) (ls_scope r) (ls_tillIndex r) (ls_whenLabel r).
Definition upd_ls_wasWritten (f : _ -> _) (r : CompiledLocalSymbol) : CompiledLocalSymbol :=
  mkLocalSymbol (ls_symbol r) (ls_kind r) (ls_index r) (ls_wasRead r) (ls_wasReadDeep r) (f
    (ls_wasWritten r)) (ls_wasWrittenDeep r) (ls_scope r) (ls_tillIndex r) (ls_whenLabel r).
Definition upd_ls_wasWrittenDeep (f : _ -> _) (r : CompiledLocalSymbol) : CompiledLocalSymbol :=
  mkLocalSymbol (ls_symbol r) (ls_kind r) (ls_index r) (ls_wasRead r) (ls_wasReadDeep r)
    (ls_wasWritten r) (f (ls_wasWrittenDeep r)) (ls_scope r) (ls_tillIndex r) (ls_whenLabel r).
Definition upd_ls_tillIndex (f : _ -> _) (r : CompiledLocalSymbol) : CompiledLocalSymbol :=
  mkLocalSymbol (ls_symbol r) (ls_kind r) (ls_index r) (ls_wasRead r) (ls_wasReadDeep r)
    (ls_wasWritten r) (ls_wasWrittenDeep r) (ls_scope r) (f (ls_tillIndex r)) (ls_whenLabel r).
Definition upd_ls_whenLabel (f : _ -> _) (r : CompiledLocalSymbol) : CompiledLocalSymbol :=
  mkLocalSymbol (ls_symbol r) (ls_kind r) (ls_index r) (ls_wasRead r) (ls_wasReadDeep r)
    (ls_wasWritten r) (ls_wasWrittenDeep r) (ls_scope r) (ls_tillIndex r) (f (ls_whenLabel r)).

(** The two arrays of branch targets can be NULL. *)
Record TillContinuationInfo := mkTillInfo {
  ti_tillIndex : Z;
  ti_userFunctionInfo : option nat;
  ti_realContinuationNeeded : bool;
  ti_numSymbols : Z;
  ti_symbols : option (list (option nat));
  ti_branchTargetAddresses : option (list Z);
  ti_branchTargetInstructions : option (list (option nat))
}.

Definition upd_ti_realContinuationNeeded (f : _ -> _) (r : TillContinuationInfo) :
    TillContinuationInfo :=
  mkTillInfo (ti_tillIndex r) (ti_userFunctionInfo r) (f (ti_realContinuationNeeded r))
    (ti_numSymbols r) (ti_symbols r) (ti_branchTargetAddresses r) (ti_branchTargetInstructions r).
Definition upd_ti_numSymbols (f : _ -> _) (r : TillContinuationInfo) : TillContinuationInfo :=
  mkTillInfo (ti_tillIndex r) (ti_userFunctionInfo r) (ti_realContinuationNeeded r) (f
    (ti_numSymbols r)) (ti_symbols r) (ti_branchTargetAddresses r) (ti_branchTargetInstructions
    r).
Definition upd_ti_symbols (f : _ -> _) (r : TillContinuationInfo) : TillContinuationInfo :=
  mkTillInfo (ti_tillIndex r) (ti_userFunctionInfo r) (ti_realContinuationNeeded r) (ti_numSymbols
    r) (f (ti_symbols r)) (ti_branchTargetAddresses r) (ti_branchTargetInstructions r).
Definition upd_ti_branchTargetAddresses (f : _ -> _) (r : TillContinuationInfo) :
    TillContinuationInfo :=
  mkTillInfo (ti_tillIndex r) (ti_userFunctionInfo r) (ti_realContinuationNeeded r) (ti_numSymbols
    r) (ti_symbols r) (f (ti_branchTargetAddresses r)) (ti_branchTargetInstructions r).
Definition upd_ti_branchTargetInstructions (f : _ -> _) (r : TillContinuationInfo) :
    TillContinuationInfo :=
  mkTillInfo (ti_tillIndex r) (ti_userFunctionInfo r) (ti_realContinuationNeeded r) (ti_numSymbols
    r) (ti_symbols r) (ti_branchTargetAddresses r) (f (ti_branchTargetInstructions r)).

(** What [env/modules.c] keeps of a module: its expression, the declarations of
    its outermost parse scope, and the cache of its exports. *)
Record ModuleInfo := mkModuleInfo {
  mi_expr : Expr; mi_declarations : gmap Z Z; mi_exportDict : option (gmap Z VarInfo)
}.

(** [Compiler], the stores, and the module registry ([c_modules], the first
    [_moduleId] entries of [ModuleArray]). *)
Record Compiler := mkCompiler {
  c_tables : CompiledTables;
  c_functions : list CompilerFunction;
  c_currentFunction : option nat;
  c_scopes : list CompileScope;
  c_currentScope : option nat;
  c_localSymbols : list CompiledLocalSymbol;
  c_messages : list string;
  c_closureInfos : list ClosureInfo;
  c_userFunctionInfos : list UserFunctionInfo;
  c_tillInfos : list TillContinuationInfo;
  c_modules : list (option ModuleInfo);
  c_nextId : nat
}.

Definition upd_c_tables (f : _ -> _) (r : Compiler) : Compiler :=
  mkCompiler (f (c_tables r)) (c_functions r) (c_currentFunction r) (c_scopes r) (c_currentScope
    r) (c_localSymbols r) (c_messages r) (c_closureInfos r) (c_userFunctionInfos r) (c_tillInfos
    r) (c_modules r) (c_nextId r).
Definition upd_c_functions (f : _ -> _) (r : Compiler) : Compiler :=
  mkCompiler (c_tables r) (f (c_functions r)) (c_currentFunction r) (c_scopes r) (c_currentScope
    r) (c_localSymbols r) (c_messages r) (c_closureInfos r) (c_userFunctionInfos r) (c_tillInfos
    r) (c_modules r) (c_nextId r).
Definition upd_c_currentFunction (f : _ -> _) (r : Compiler) : Compiler :=
  mkCompiler (c_tables r) (c_functions r) (f (c_currentFunction r)) (c_scopes r) (c_currentScope
    r) (c_localSymbols r) (c_messages r) (c_closureInfos r) (c_userFunctionInfos r) (c_tillInfos
    r) (c_modules r) (c_nextId r).
Definition upd_c_scopes (f : _ -> _) (r : Compiler) : Compiler :=
  mkCompiler (c_tables r) (c_functions r) (c_currentFunction r) (f (c_scopes r)) (c_currentScope
    r) (c_localSymbols r) (c_messages r) (c_closureInfos r) (c_userFunctionInfos r) (c_tillInfos
    r) (c_modules r) (c_nextId r).
Definition upd_c_currentScope (f : _ -> _) (r : Compiler) : Compiler :=
  mkCompiler (c_tables r) (c_functions r) (c_currentFunction r) (c_scopes r) (f (c_currentScope
    r)) (c_localSymbols r) (c_messages r) (c_closureInfos r) (c_userFunctionInfos r) (c_tillInfos
    r) (c_modules r) (c_nextId r).
Definition upd_c_localSymbols (f : _ -> _) (r : Compiler) : Compiler :=
  mkCompiler (c_tables r) (c_functions r) (c_currentFunction r) (c_scopes r) (c_currentScope r) (f
    (c_localSymbols r)) (c_messages r) (c_closureInfos r) (c_userFunctionInfos r) (c_tillInfos r)
    (c_modules r) (c_nextId r).
Definition upd_c_messages (f : _ -> _) (r : Compiler) : Compiler :=
  mkCompiler (c_tables r) (c_functions r) (c_currentFunction r) (c_scopes r) (c_currentScope r)
    (c_localSymbols r) (f (c_messages r)) (c_closureInfos r) (c_userFunctionInfos r) (c_tillInfos
    r) (c_modules r) (c_nextId r).
Definition upd_c_closureInfos (f : _ -> _) (r : Compiler) : Compiler :=
  mkCompiler (c_tables r) (c_functions r) (c_currentFunction r) (c_scopes r) (c_currentScope r)
    (c_localSymbols r) (c_messages r) (f (c_closureInfos r)) (c_userFunctionInfos r) (c_tillInfos
    r) (c_modules r) (c_nextId r).
Definition upd_c_userFunctionInfos (f : _ -> _) (r : Compiler) : Compiler :=
  mkCompiler (c_tables r) (c_functions r) (c_currentFunction r) (c_scopes r) (c_currentScope r)
    (c_localSymbols r) (c_messages r) (c_closureInfos r) (f (c_userFunctionInfos r)) (c_tillInfos
    r) (c_modules r) (c_nextId r).
Definition upd_c_tillInfos (f : _ -> _) (r : Compiler) : Compiler :=
  mkCompiler (c_tables r) (c_functions r) (c_currentFunction r) (c_scopes r) (c_currentScope r)
    (c_localSymbols r) (c_messages r) (c_closureInfos r) (c_userFunctionInfos r) (f (c_tillInfos
    r)) (c_modules r) (c_nextId r).
Definition upd_c_modules (f : _ -> _) (r : Compiler) : Compiler :=
  mkCompiler (c_tables r) (c_functions r) (c_currentFunction r) (c_scopes r) (c_currentScope r)
    (c_localSymbols r) (c_messages r) (c_closureInfos r) (c_userFunctionInfos r) (c_tillInfos r)
    (f (c_modules r)) (c_nextId r).
Definition upd_c_nextId (f : _ -> _) (r : Compiler) : Compiler :=
  mkCompiler (c_tables r) (c_functions r) (c_currentFunction r) (c_scopes r) (c_currentScope r)
    (c_localSymbols r) (c_messages r) (c_closureInfos r) (c_userFunctionInfos r) (c_tillInfos r)
    (c_modules r) (f (c_nextId r)).

(** ** Computations *)

Inductive CResult (A : Type) :=
  | COk (x : A) (c : Compiler)
  | CAbort (message : string)
  | CCrash
  | CFuel.
Arguments COk {A}. Arguments CAbort {A}. Arguments CCrash {A}. Arguments CFuel {A}.

Definition M (A : Type) : Type := Compiler -> CResult A.

#[export] Instance M_ret : MRet M := fun A x c => COk x c.
#[export] Instance M_bind : MBind M := fun A B f m c =>
  match m c with
  | COk x c => f x c
  | CAbort s => CAbort s
  | CCrash => CCrash
  | CFuel => CFuel
  end.

Definition get {A} (f : Compiler -> A) : M A := fun c => COk (f c) c.
Definition modify (f : Compiler -> Compiler) : M unit := fun c => COk tt (f c).
Definition abort {A} (message : string) : M A := fun _ => CAbort message.
Definition need {A} (o : option A) : M A :=
  fun c => match o with Some x => COk x c | None => CCrash end.
Definition assert (b : bool) : M unit := fun c => if b then COk tt c else CCrash.

(** Reading and updating an object of a store. *)
Definition load {A} (store : Compiler -> list A) (p : nat) : M A :=
  l ← get store; need (l !! p).
Definition update {A} (upd : (list A -> list A) -> Compiler -> Compiler) (p : nat) (f : A -> A)
  : M unit := modify (upd (alter f p)).
Definition allocate {A} (store : Compiler -> list A)
  (upd : (list A -> list A) -> Compiler -> Compiler) (x : A) : M nat :=
  p ← get (fun c => length (store c));
  modify (upd (fun l => l ++ [x])) ;;
  mret p.

(** [compiler->currentFunction], which must not be NULL. *)
Definition currentFunction : M nat := p ← get c_currentFunction; need p.
Definition current : M CompilerFunction := p ← currentFunction; load c_functions p.
Definition update_current (f : CompilerFunction -> CompilerFunction) : M unit :=
  p ← currentFunction; update upd_c_functions p f.

Definition Compiler_AddMessage (message : string) : M unit :=
  modify (upd_c_messages (fun l => l ++ [message])).

(** ** Tables *)

(** [MemCpy(new, old, num)] copies [num] bytes, not [num] elements, into zeroed
    memory.  Of an array of 8-byte pointers the first [num / 8] survive (the
    capacities are multiples of 8, so no pointer is cut). *)
Definition copy_pointer {A} (num k : Z) (x : option A) : option A :=
  if 8 * (k + 1) <=? num then x else None.

(** Of an array of 24-byte source locations (the pointer, three 32-bit members
    and padding) the members that lie in the first [num] bytes survive. *)
Definition copy_location (num k : Z) (x : CompiledSourceLocation) : CompiledSourceLocation :=
  mkSourceLocation
    (if 24 * k + 8 <=? num then sl_filename x else None)
    (if 24 * k + 12 <=? num then sl_line x else 0)
    (if 24 * k + 16 <=? num then sl_column x else 0)
    (if 24 * k + 20 <=? num then sl_assignedName x else 0).

(** [num >= max]: double the capacity, at least 8. *)
Definition Table_grow {A} (copy : Z -> Z -> A -> A) (t : Table A) : Table A :=
  if zlen (entries t) >=? maxEntries t then
    let newMax := maxEntries t * 2 in
    let newMax := if newMax <? 8 then 8 else newMax in
    mkTable (imap (fun k x => copy (zlen (entries t)) (Z.of_nat k) x) (entries t)) newMax
  else t.

(** Make room, then [index = num++; array[index] = x]. *)
Definition Table_add {A} (copy : Z -> Z -> A -> A) (t : Table A) (x : A) : Z * Table A :=
  let t := Table_grow copy t in
  (zlen (entries t), mkTable (entries t ++ [x]) (maxEntries t)).

Definition CompiledTables_Create (globalClosureInfo : option nat) : CompiledTables :=
  mkTables None globalClosureInfo (mkTable [] 16) ∅ (mkTable [] 16) (mkTable [] 0) (mkTable [] 0)
    (mkTable [no_location] 256).

(** [Compiler_Create] followed by [Compiler_SetGlobalClosureInfo], for the
    given closure descriptions and modules. *)
Definition Compiler_Create (infos : list ClosureInfo) (globalClosureInfo : option nat)
  (modules : list (option ModuleInfo)) : Compiler :=
  mkCompiler (CompiledTables_Create globalClosureInfo) [] None [] None [] [] infos [] [] modules 0.

Definition Compiler_AddUserFunctionInfo (userFunctionInfo : nat) : M Z :=
  t ← get (fun c => ct_userFunctions (c_tables c));
  let '(index, t) := Table_add copy_pointer t (Some userFunctionInfo) in
  modify (upd_c_tables (upd_ct_userFunctions (fun _ => t))) ;;
  mret index.

Definition Compiler_AddObject (obj : Expr) : M Z :=
  t ← get (fun c => ct_objects (c_tables c));
  let '(index, t) := Table_add copy_pointer t (Some obj) in
  modify (upd_c_tables (upd_ct_objects (fun _ => t))) ;;
  mret index.

Definition Compiler_AddString (string : list Z) : M Z :=
  lookup ← get (fun c => ct_stringLookup (c_tables c));
  match lookup !! string with
  | Some index => mret index
  | None =>
      t ← get (fun c => ct_strings (c_tables c));
      let '(index, t) := Table_add copy_pointer t (Some string) in
      modify (upd_c_tables (fun ct =>
        upd_ct_stringLookup <[string := index]> (upd_ct_strings (fun _ => t) ct))) ;;
      mret index
  end.

(** The global table and the table of the function both get the new object. *)
Definition Compiler_AddTillContinuationInfo (userFunctionInfo : option nat) : M nat :=
  t ← get (fun c => ct_tillInfos (c_tables c));
  f ← current;
  tillInfo ← allocate c_tillInfos upd_c_tillInfos
    (mkTillInfo (zlen (entries t)) userFunctionInfo false 0 None None None);
  modify (upd_c_tables (upd_ct_tillInfos (fun _ => snd (Table_add copy_pointer t (Some tillInfo))))) ;;
  update_current (upd_cf_tillInfos (fun _ =>
    snd (Table_add copy_pointer (cf_tillInfos f) (Some tillInfo)))) ;;
  mret tillInfo.

(** ** Source locations *)

Definition Compiler_AddNewSourceLocation (filename : option nat) (line column : Z)
  (assignedName : Symbol) : M Z :=
  t ← get (fun c => ct_sourcelocations (c_tables c));
  last ← need (zget (entries t) (zlen (entries t) - 1));
  if bool_decide (filename = sl_filename last) && (line =? sl_line last)
     && (column =? sl_column last) && (assignedName =? sl_assignedName last)
  then mret (zlen (entries t) - 1)
  else
    let '(index, t) :=
      Table_add copy_location t
        (mkSourceLocation filename (wrapS 32 line) (wrapS 32 column) assignedName) in
    modify (upd_c_tables (upd_ct_sourcelocations (fun _ => t))) ;;
    mret index.

Definition currentSourceLocation : M Z := f ← current; mret (cf_currentSourceLocation f).

Definition Compiler_RevertSourceLocation (oldSourceLocation : Z) : M unit :=
  update_current (upd_cf_currentSourceLocation (fun _ => oldSourceLocation)).

Definition Compiler_SetSourceLocation (lexerPosition : option LexerPosition) : M Z :=
  oldSourceLocation ← currentSourceLocation;
  match lexerPosition with
  | None => Compiler_RevertSourceLocation 0
  | Some p =>
      t ← get (fun c => ct_sourcelocations (c_tables c));
      sourceLocation ← need (zget (entries t) oldSourceLocation);
      new ← Compiler_AddNewSourceLocation (pos_filename p) (pos_line p) (pos_column p)
              (sl_assignedName sourceLocation);
      Compiler_RevertSourceLocation new
  end ;;
  mret oldSourceLocation.

Definition Compiler_SetAssignedSymbol (symbol : Symbol) : M Z :=
  oldSourceLocation ← currentSourceLocation;
  t ← get (fun c => ct_sourcelocations (c_tables c));
  sourceLocation ← need (zget (entries t) oldSourceLocation);
  new ← Compiler_AddNewSourceLocation (sl_filename sourceLocation) (sl_line sourceLocation)
          (sl_column sourceLocation) symbol;
  Compiler_RevertSourceLocation new ;;
  mret oldSourceLocation.

Definition Compiler_SetSourceLocationFromList (list : Expr) : M Z :=
  match list with
  | ECons _ _ (WithSource position) => Compiler_SetSourceLocation position
  | _ => currentSourceLocation
  end.

(** ** Functions *)

(** The array is twice as large, or 8, when it is full; the names in use are
    copied. *)
Definition CompilerFunction_AddLocal (local : Symbol) : M Z :=
  f ← current;
  let localSize := zlen (cf_localNames f) in
  let localMax :=
    if localSize >=? cf_localMax f
    then (if cf_localMax f * 2 <? 8 then 8 else cf_localMax f * 2)
    else cf_localMax f in
  update_current (fun f => upd_cf_localMax (fun _ => wrapS 32 localMax)
                             (upd_cf_localNames (fun l => l ++ [local]) f)) ;;
  mret localSize.

Definition Compiler_BeginFunction (args body : Expr) : M nat :=
  parent ← get c_currentFunction;
  globalClosureInfo ← get (fun c => ct_globalClosureInfo (c_tables c));
  parentFunction ← match parent with
                   | Some p => f ← load c_functions p; mret (Some f)
                   | None => mret None
                   end;
  let infoParent :=
    match parentFunction with Some f => Some (cf_closureInfo f) | None => globalClosureInfo end in
  infoGlobal ← match infoParent with
               | Some i => info ← load c_closureInfos i; mret (ci_global info)
               | None => mret globalClosureInfo
               end;
  info ← allocate c_closureInfos upd_c_closureInfos
           (mkClosureInfo infoParent infoGlobal CLOSURE_KIND_LOCAL 0 0 0 ∅ []);
  newFunction ← allocate c_functions upd_c_functions
    (mkCompilerFunction parent
       (match parentFunction with Some f => cf_functionDepth f + 1 | None => 0 end)
       0 [] 16 0 args body info 0 None (mkTable [] 0));
  modify (upd_c_currentFunction (fun _ => Some newFunction)) ;;
  mret newFunction.

(** [UserFunctionInfo_Create]; the caller handles the error message. *)
Definition UserFunctionInfo_Create {E : CompilerEnv} (parent : option nat) (args body : Expr)
  : M (string + nat) :=
  match UserFunctionInfo_ApplyArgs args with
  | inl errorMessage => mret (inl errorMessage)
  | inr info =>
      p ← allocate c_userFunctionInfos upd_c_userFunctionInfos
            (mkUserFunctionInfo parent info args body None None);
      mret (inr p)
  end.

(** Enter the variables, arguments first, from offset [dest] on. *)
Fixpoint enter_variables (kind dest : Z) (names : list Symbol) (dict : gmap Z VarInfo)
  : gmap Z VarInfo :=
  match names with
  | [] => dict
  | symbol :: names =>
      enter_variables kind (dest + 1) names
        (<[symbol := mkVarInfo kind dest NullObject]> dict)
  end.

(** The stores into [variableNames], an array of [numVariables] names, must
    stay inside it. *)
Definition Compiler_SetupClosureInfoForCompilerFunction (compilerFunction : nat) : M nat :=
  f ← load c_functions compilerFunction;
  let localSize := zlen (cf_localNames f) in
  (if cf_numArgs f >? Int16Max / 2
   then abort "Function cannot be compiled because it has too many arguments (> 16383)."
   else mret tt) ;;
  (if localSize >? Int16Max / 2
   then abort "Function cannot be compiled because it has too many local variables (> 16383)."
   else mret tt) ;;
  (if cf_stackSize f >? Int16Max
   then abort "Function cannot be compiled because it is too complex (calls nested more than 32767 levels deep)."
   else mret tt) ;;
  let numVariables := cf_numArgs f + localSize in
  argNames ← (if (0 <? numVariables) && (0 <? cf_numArgs f) then
                p ← need (cf_userFunctionInfo f);
                info ← load c_userFunctionInfos p;
                mret (arg_name <$> declared_args (fn_argInfo info))
              else mret []);
  let names := if 0 <? numVariables then argNames ++ cf_localNames f else [] in
  assert (zlen names <=? Z.max 0 numVariables) ;;
  update upd_c_closureInfos (cf_closureInfo f) (fun info =>
    mkClosureInfo (ci_parent info) (ci_global info) (ci_kind info)
      (wrapS 16 numVariables) (wrapS 16 (cf_numArgs f)) (wrapS 16 (cf_stackSize f))
      (enter_variables VAR_KIND_VAR (zlen argNames) (drop (length argNames) names)
         (enter_variables VAR_KIND_ARG 0 argNames (ci_variableDictionary info)))
      names) ;;
  mret (cf_closureInfo f).

(** One round of the inner loop of [Compiler_ResolveTillBranchTargets]; [env]
    gives the [instructionAddress] of the instructions. *)
Definition ResolveTillBranchTarget (env : list (nat * Z)) (tillInfo : TillContinuationInfo)
  (j : Z) : option TillContinuationInfo :=
  addresses ← (if ti_realContinuationNeeded tillInfo then
                 instrs ← ti_branchTargetInstructions tillInfo;
                 instr ← zget instrs j;
                 instr ← instr;
                 addresses ← ti_branchTargetAddresses tillInfo;
                 addresses ← zset addresses j (address_of env instr);
                 Some (Some addresses)
               else Some (ti_branchTargetAddresses tillInfo));
  instrs ← ti_branchTargetInstructions tillInfo;
  instrs ← zset instrs j None;
  symbols ← ti_symbols tillInfo;
  symbols ← zset symbols j None;
  Some (upd_ti_branchTargetAddresses (fun _ => addresses)
          (upd_ti_branchTargetInstructions (fun _ => Some instrs)
             (upd_ti_symbols (fun _ => Some symbols) tillInfo))).

Fixpoint foldM_option {A B} (f : A -> B -> option A) (x : A) (l : list B) : option A :=
  match l with [] => Some x | y :: l => x ← f x y; foldM_option f x l end.

Definition ResolveTillInfo (env : list (nat * Z)) (tillInfo : TillContinuationInfo)
  : option TillContinuationInfo :=
  t ← foldM_option (ResolveTillBranchTarget env) tillInfo
        (Z.of_nat <$> seq 0 (Z.to_nat (ti_numSymbols tillInfo)));
  Some (upd_ti_branchTargetInstructions (fun _ => None)
          (upd_ti_symbols (fun _ => None)
             (if ti_realContinuationNeeded t then t
              else upd_ti_branchTargetAddresses (fun _ => None) t))).

Fixpoint Compiler_ResolveTillBranchTargets (env : list (nat * Z)) (tillInfos : list (option nat))
  : M unit :=
  match tillInfos with
  | [] => mret tt
  | p :: tillInfos =>
      p ← need p;
      tillInfo ← load c_tillInfos p;
      tillInfo ← need (ResolveTillInfo env tillInfo);
      update upd_c_tillInfos p (fun _ => tillInfo) ;;
      Compiler_ResolveTillBranchTargets env tillInfos
  end.

Definition Compiler_EndFunction (env : list (nat * Z)) : M unit :=
  p ← currentFunction;
  f ← load c_functions p;
  Compiler_ResolveTillBranchTargets env (entries (cf_tillInfos f)) ;;
  Compiler_SetupClosureInfoForCompilerFunction p ;;
  modify (upd_c_currentFunction (fun _ => cf_parent f)).

(** ** Scopes *)

Definition Compiler_BeginScope (kind : Z) : M nat :=
  parent ← get c_currentScope;
  function ← get c_currentFunction;
  newScope ← allocate c_scopes upd_c_scopes (mkScope parent ∅ kind function);
  modify (upd_c_currentScope (fun _ => Some newScope)) ;;
  mret newScope.

Definition Compiler_EndScope : M unit :=
  p ← get c_currentScope;
  p ← need p;
  scope ← load c_scopes p;
  modify (upd_c_currentScope (fun _ => sc_parent scope)).

Definition CompileScope_DefineSymbol (scope : nat) (symbol : Symbol) (kind index : Z) : M nat :=
  localSymbol ← allocate c_localSymbols upd_c_localSymbols
    (mkLocalSymbol symbol kind index false false false false scope 0 None);
  update upd_c_scopes scope (fun s =>
    mkScope (sc_parent s) (<[symbol := localSymbol]> (sc_symbolDict s)) (sc_kind s)
      (sc_function s)) ;;
  mret localSymbol.

(** The walk to the outer scopes; [None] answers NULL.  Scopes are older than
    their children, so [length scopes] rounds are enough. *)
Fixpoint FindSymbol_loop (fuel : nat) (scopes : list CompileScope) (scope : option nat)
  (symbol : Symbol) : option nat :=
  match fuel, scope with
  | S fuel, Some p =>
      s ← scopes !! p;
      match sc_symbolDict s !! symbol with
      | Some localSymbol => Some localSymbol
      | None => FindSymbol_loop fuel scopes (sc_parent s) symbol
      end
  | _, _ => None
  end.

Definition CompileScope_FindSymbol (scope : option nat) (symbol : Symbol) : M (option nat) :=
  scopes ← get c_scopes;
  mret (FindSymbol_loop (length scopes) scopes scope symbol).

Definition CompileScope_FindSymbolHere (scope : nat) (symbol : Symbol) : M (option nat) :=
  s ← load c_scopes scope;
  mret (sc_symbolDict s !! symbol).

(** ** Emitting *)

Definition freshId : M nat := id ← get c_nextId; modify (upd_c_nextId S) ;; mret id.

(** A [compileFlags] argument is the bit [COMPILE_FLAG_NORESULT]. *)
Notation CompileFlags := bool (only parsing).

(** [instr->u] and [instr->p.branchTarget] are stored right after the emission;
    an instruction that later code refers to is numbered beforehand. *)
Definition EMIT_id (id : nat) (compiledBlock : CompiledBlock) (op : Opcode) (stackDelta : Z)
  (u : word) (branchTarget : option nat) : M CompiledBlock :=
  loc ← currentSourceLocation;
  mret (CompiledBlock_Emit compiledBlock id op stackDelta loc u branchTarget).

Definition EMIT1 (compiledBlock : CompiledBlock) (op : Opcode) (stackDelta : Z) (u : word)
  : M CompiledBlock :=
  id ← freshId; EMIT_id id compiledBlock op stackDelta u None.

Definition EMIT0 (compiledBlock : CompiledBlock) (op : Opcode) (stackDelta : Z)
  : M CompiledBlock :=
  EMIT1 compiledBlock op stackDelta zero.

(** The two halves of [i2]. *)
Definition EMIT2 (compiledBlock : CompiledBlock) (op : Opcode) (stackDelta a b : Z)
  : M CompiledBlock :=
  EMIT1 compiledBlock op stackDelta (set_i2_b (set_i2_a zero a) b).

Definition EMIT_branch (compiledBlock : CompiledBlock) (op : Opcode) (stackDelta : Z)
  (branchTarget : nat) : M CompiledBlock :=
  id ← freshId; EMIT_id id compiledBlock op stackDelta zero (Some branchTarget).

(** [CompiledBlock_AppendChild(parent, child)] *)
Definition AppendChild (parent child : CompiledBlock) : M CompiledBlock :=
  id ← freshId; mret (fst (CompiledBlock_AppendChild parent id child)).

(** [CompiledBlock_AttachInstruction] of a created instruction; one that is
    attached twice would corrupt the list and never is. *)
Definition AttachInstruction (compiledBlock : CompiledBlock) (insertAfterThis : option nat)
  (id : nat) (op : Opcode) : M CompiledBlock :=
  need (CompiledBlock_AttachInstruction compiledBlock insertAfterThis
          (IntermediateInstruction_Create id op)).

(** ... after [compiledBlock->last]. *)
Definition AttachLast (compiledBlock : CompiledBlock) (id : nat) (op : Opcode) : CompiledBlock :=
  CompiledBlock_AttachLast compiledBlock (IntermediateInstruction_Create id op).

Definition Compiler_PopIfNecessary (compiledBlock : CompiledBlock) (noResult : CompileFlags)
  : M CompiledBlock :=
  if noResult then EMIT0 compiledBlock Op_Pop1 (-1) else mret compiledBlock.

Definition Compiler_EmitNoResult (compiledBlock : CompiledBlock) : M CompiledBlock :=
  if flagEscape compiledBlock then mret compiledBlock
  else if negb (finalStackDelta compiledBlock =? 0) then EMIT0 compiledBlock Op_Pop1 (-1)
  else mret compiledBlock.

Definition Compiler_EmitRequireResult (compiledBlock : CompiledBlock) : M CompiledBlock :=
  if flagEscape compiledBlock then mret compiledBlock
  else if finalStackDelta compiledBlock =? 0 then EMIT0 compiledBlock Op_LdNull 1
  else mret compiledBlock.

Definition Compiler_MakeStackMatchCompileFlags (compiledBlock : CompiledBlock)
  (noResult : CompileFlags) : M CompiledBlock :=
  if noResult then Compiler_EmitNoResult compiledBlock
  else Compiler_EmitRequireResult compiledBlock.
