(* ===== verification/CompileForms.v ===== *)
(** * CompileForms: the compiler proper

    [src/eval/compiler/compile_*.c] and [Compiler_CompileGlobal]: one definition
    per C function, in the order of their dependencies.  The functions are
    mutually recursive through [Compiler_CompileExpr]; in the section below it is
    a variable, and the recursion is closed at the end, on fuel.

    Error messages are format strings whose arguments are not filled in, and
    their source positions are left out. *)

From S2P Require Import Prelude Opcode ByteCode CompiledBlock Object Closure KnownSymbols Expr Compiler.
From stdpp Require Import strings.
Import Operand.
#[local] Open Scope Z_scope.

(** Report an error and answer [CompiledBlock_CreateError()]. *)
Definition fail_with (message : string) : M CompiledBlock :=
  Compiler_AddMessage message ;; mret CompiledBlock_CreateError.

(** ** Variables (compile_variable.c) *)

Section Variable_.
Context {E : CompilerEnv}.

Definition mark (localSymbol : nat) (f : CompiledLocalSymbol -> CompiledLocalSymbol) : M unit :=
  update upd_c_localSymbols localSymbol f.

Definition wasRead := upd_ls_wasRead (fun _ => true).
Definition wasReadDeep := upd_ls_wasReadDeep (fun _ => true).
Definition wasWritten := upd_ls_wasWritten (fun _ => true).
Definition wasWrittenDeep := upd_ls_wasWrittenDeep (fun _ => true).

(** [compiler->currentFunction->functionDepth - localSymbol->scope->function->functionDepth] *)
Definition relativeDepth (ls : CompiledLocalSymbol) : M Z :=
  f ← current;
  scope ← load c_scopes (ls_scope ls);
  g ← need (sc_function scope);
  g ← load c_functions g;
  mret (cf_functionDepth f - cf_functionDepth g).

Definition Compiler_CompileLoadGlobalVariable (symbol : Symbol) (localSymbol : option nat)
  (noResult : bool) : M CompiledBlock :=
  let compiledBlock := CompiledBlock_Create in
  if noResult then mret compiledBlock
  else
    compiledBlock ←
      (if symbol =? sym_true then EMIT1 compiledBlock Op_LdBool 1 (set_boolean zero true)
       else if symbol =? sym_false then EMIT1 compiledBlock Op_LdBool 1 (set_boolean zero false)
       else if symbol =? sym_null then EMIT0 compiledBlock Op_LdNull 1
       else EMIT1 compiledBlock Op_LdX 1 (set_symbol zero symbol));
    (match localSymbol with Some p => mark p wasReadDeep | None => mret tt end) ;;
    mret compiledBlock.

(** The stores answer the block they append to. *)
Definition Compiler_CompileStoreGlobalVariable (symbol : Symbol) (localSymbol : option nat)
  (noResult : bool) (compiledBlock : CompiledBlock) : M CompiledBlock :=
  if (symbol =? sym_true) || (symbol =? sym_false) || (symbol =? sym_null) then
    Compiler_AddMessage "{0} is a constant, read-only global and cannot be assigned to." ;;
    mret compiledBlock
  else
    compiledBlock ← (if noResult then EMIT1 compiledBlock Op_StpX (-1) (set_symbol zero symbol)
                     else EMIT1 compiledBlock Op_StX 0 (set_symbol zero symbol));
    (match localSymbol with Some p => mark p wasWrittenDeep | None => mret tt end) ;;
    mret compiledBlock.

(** The two pairs below differ in their opcodes only, as in the source. *)
Definition CompileLoad (op0 op : Opcode) (localSymbol : nat) (noResult : bool)
  : M CompiledBlock :=
  ls ← load c_localSymbols localSymbol;
  functionDepth ← relativeDepth ls;
  let compiledBlock := CompiledBlock_Create in
  if noResult then mret compiledBlock
  else if functionDepth <=? 7 then
    mark localSymbol wasReadDeep ;;
    EMIT1 compiledBlock (Opcode_add op0 functionDepth) 1 (set_index zero (ls_index ls))
  else
    mark localSymbol (if functionDepth =? 0 then wasRead else wasReadDeep) ;;
    EMIT2 compiledBlock op 1 functionDepth (ls_index ls).

Definition CompileStore (stp0 stp st0 st : Opcode) (localSymbol : nat) (noResult : bool)
  (compiledBlock : CompiledBlock) : M CompiledBlock :=
  ls ← load c_localSymbols localSymbol;
  functionDepth ← relativeDepth ls;
  if functionDepth <=? 7 then
    mark localSymbol (if functionDepth =? 0 then wasWritten else wasWrittenDeep) ;;
    if noResult
    then EMIT1 compiledBlock (Opcode_add stp0 functionDepth) (-1) (set_index zero (ls_index ls))
    else EMIT1 compiledBlock (Opcode_add st0 functionDepth) 0 (set_index zero (ls_index ls))
  else
    mark localSymbol wasWrittenDeep ;;
    if noResult then EMIT2 compiledBlock stp (-1) functionDepth (ls_index ls)
    else EMIT2 compiledBlock st 0 functionDepth (ls_index ls).

Definition Compiler_CompileLoadArgument := CompileLoad Op_LdArg0 Op_LdArg.
Definition Compiler_CompileStoreArgument := CompileStore Op_StpArg0 Op_StpArg Op_StArg0 Op_StArg.
Definition Compiler_CompileLoadLocalVariable := CompileLoad Op_LdLoc0 Op_LdLoc.
Definition Compiler_CompileStoreLocalVariable :=
  CompileStore Op_StpLoc0 Op_StpLoc Op_StLoc0 Op_StLoc.

Definition Compiler_CompileTillFlag (localSymbol : nat) : M CompiledBlock :=
  ls ← load c_localSymbols localSymbol;
  functionDepth ← relativeDepth ls;
  let compiledBlock := CompiledBlock_Create in
  compiledBlock ←
    (if functionDepth =? 0 then
       id ← freshId;
       compiledBlock ← EMIT_id id compiledBlock Op_Jmp 0 zero (ls_whenLabel ls);
       mark localSymbol wasRead ;;
       mret compiledBlock
     else
       compiledBlock ←
         (if functionDepth <=? 7
          then EMIT1 compiledBlock (Opcode_add Op_LdLoc0 functionDepth) 1
                 (set_int32 zero (wrapS 32 (ls_index ls)))
          else EMIT2 compiledBlock Op_LdLoc 1 functionDepth (ls_index ls));
       mark localSymbol wasReadDeep ;;
       EMIT1 compiledBlock Op_TillEsc (-1) (set_index zero (ls_tillIndex ls)));
  mret (set_flagEscape true compiledBlock).

Definition Compiler_CompileLoadVariable (symbol : Symbol) (noResult : bool) : M CompiledBlock :=
  scope ← get c_currentScope;
  localSymbol ← CompileScope_FindSymbol scope symbol;
  match localSymbol with
  | None => Compiler_CompileLoadGlobalVariable symbol None noResult
  | Some p =>
      ls ← load c_localSymbols p;
      let kind := ls_kind ls in
      if (kind =? PARSEDECL_GLOBAL) || (kind =? PARSEDECL_PRIMITIVE) then
        Compiler_CompileLoadGlobalVariable symbol (Some p) noResult
      else if kind =? PARSEDECL_ARGUMENT then Compiler_CompileLoadArgument p noResult
      else if (kind =? PARSEDECL_VARIABLE) || (kind =? PARSEDECL_CONST)
              || (kind =? PARSEDECL_AUTO) then
        Compiler_CompileLoadLocalVariable p noResult
      else if kind =? PARSEDECL_TILL then Compiler_CompileTillFlag p
      else if kind =? PARSEDECL_SETONCECONST then
        fail_with "Cannot read a value from unassigned const variable '%S'."
      else if kind =? PARSEDECL_SETONCEAUTO then
        fail_with "Cannot read a value from unassigned auto variable '%S'."
      else fail_with "Cannot compile symbol:  Fatal internal error."
  end.

Definition Compiler_CompileStoreVariable (symbol : Symbol) (noResult : bool)
  (compiledBlock : CompiledBlock) : M CompiledBlock :=
  scope ← get c_currentScope;
  localSymbol ← CompileScope_FindSymbol scope symbol;
  let error_in message :=
    (Compiler_AddMessage message ;; mret (set_flagError true compiledBlock)) : M _ in
  match localSymbol with
  | None => Compiler_CompileStoreGlobalVariable symbol None noResult compiledBlock
  | Some p =>
      ls ← load c_localSymbols p;
      let kind := ls_kind ls in
      if (kind =? PARSEDECL_GLOBAL) || (kind =? PARSEDECL_PRIMITIVE) then
        Compiler_CompileStoreGlobalVariable symbol (Some p) noResult compiledBlock
      else if kind =? PARSEDECL_ARGUMENT then
        Compiler_CompileStoreArgument p noResult compiledBlock
      else if kind =? PARSEDECL_VARIABLE then
        Compiler_CompileStoreLocalVariable p noResult compiledBlock
      else if kind =? PARSEDECL_SETONCECONST then
        compiledBlock ← Compiler_CompileStoreLocalVariable p noResult compiledBlock;
        mark p (upd_ls_kind (fun _ => PARSEDECL_CONST)) ;;
        mret compiledBlock
      else if kind =? PARSEDECL_SETONCEAUTO then
        compiledBlock ← Compiler_CompileStoreLocalVariable p noResult compiledBlock;
        mark p (upd_ls_kind (fun _ => PARSEDECL_AUTO)) ;;
        mret compiledBlock
      else if kind =? PARSEDECL_TILL then
        Compiler_AddMessage "Cannot assign a value to till-flag '%S'." ;; mret compiledBlock
      else if kind =? PARSEDECL_CONST then
        error_in "Cannot assign a new value to const variable '%S'."%string
      else if kind =? PARSEDECL_AUTO then
        error_in "Cannot assign a new value to auto variable '%S'."%string
      else error_in "Cannot compile symbol:  Fatal internal error."%string
  end.
End Variable_.

(** ** The forms, given the compiler of expressions *)

Section Forms.
Context {OE : ObjectEnv} {E : CompilerEnv}.
Variable Compiler_CompileExpr : Expr -> bool -> M CompiledBlock.

(** The steps most forms are built from: compile a child, make it leave what the
    parent wants, and append it. *)
Definition AppendRequired (compiledBlock : CompiledBlock) (e : Expr) : M CompiledBlock :=
  childBlock ← Compiler_CompileExpr e false;
  childBlock ← Compiler_EmitRequireResult childBlock;
  AppendChild compiledBlock childBlock.

Definition AppendMatching (compiledBlock : CompiledBlock) (e : Expr) (noResult : bool)
  : M CompiledBlock :=
  childBlock ← Compiler_CompileExpr e noResult;
  childBlock ← Compiler_MakeStackMatchCompileFlags childBlock noResult;
  AppendChild compiledBlock childBlock.

(** *** compile_progn.c, compile_prog1.c *)

Fixpoint ProgN_loop (named nameless : Z) (compiledBlock : CompiledBlock) (args : Expr)
  (noResult : bool) : M CompiledBlock :=
  match args with
  | ECons a next _ =>
      let isLast := negb (isList next) in
      Compiler_RevertSourceLocation (if isLast then named else nameless) ;;
      Compiler_SetSourceLocationFromList args ;;
      childBlock ← Compiler_CompileExpr a (if isLast then noResult else true);
      childBlock ← (if isLast then Compiler_MakeStackMatchCompileFlags childBlock noResult
                    else Compiler_EmitNoResult childBlock);
      compiledBlock ← AppendChild compiledBlock childBlock;
      if isLast then mret compiledBlock
      else
        Compiler_SetSourceLocationFromList args ;;
        ProgN_loop named nameless compiledBlock next noResult
  | _ => mret compiledBlock
  end.

Definition Compiler_CompileProgN (args : Expr) (noResult : bool) : M CompiledBlock :=
  if negb (isList args) then mret CompiledBlock_Create
  else
    named ← Compiler_SetAssignedSymbol 0;
    nameless ← currentSourceLocation;
    Compiler_RevertSourceLocation named ;;
    compiledBlock ← ProgN_loop named nameless CompiledBlock_Create args noResult;
    Compiler_RevertSourceLocation named ;;
    mret compiledBlock.

Fixpoint Prog1_loop (old : Z) (compiledBlock : CompiledBlock) (args : Expr) : M CompiledBlock :=
  match args with
  | ECons a next _ =>
      Compiler_RevertSourceLocation old ;;
      Compiler_SetSourceLocationFromList args ;;
      childBlock ← Compiler_CompileExpr a false;
      childBlock ← Compiler_EmitNoResult childBlock;
      compiledBlock ← AppendChild compiledBlock childBlock;
      Compiler_SetSourceLocationFromList args ;;
      Prog1_loop old compiledBlock next
  | _ => mret compiledBlock
  end.

Definition Compiler_CompileProg1 (args : Expr) (noResult : bool) : M CompiledBlock :=
  match args with
  | ECons a rest _ =>
      old ← Compiler_SetAssignedSymbol 0;
      compiledBlock ← AppendMatching CompiledBlock_Create a noResult;
      Compiler_RevertSourceLocation old ;;
      compiledBlock ← Prog1_loop old compiledBlock rest;
      Compiler_RevertSourceLocation old ;;
      mret compiledBlock
  | _ => mret CompiledBlock_Create
  end.

(** *** compile_if.c *)

(** The branches, once the three parts are compiled. *)
Definition If_emit (condition : Expr) (noResult : bool)
  (condBlock trueBlock falseBlock : CompiledBlock) : M CompiledBlock :=
  match instrs trueBlock, instrs falseBlock with
  | _ :: _, _ :: _ =>
      compiledBlock ← AppendChild CompiledBlock_Create condBlock;
      bf ← freshId;
      bfLabel ← freshId;
      compiledBlock ← EMIT_id bf compiledBlock Op_Bf (-1) zero (Some bfLabel);
      let baselineStackDelta := finalStackDelta compiledBlock in
      compiledBlock ← AppendChild compiledBlock trueBlock;
      let compiledBlock := set_finalStackDelta baselineStackDelta compiledBlock in
      jmp ← freshId;
      jmpLabel ← freshId;
      compiledBlock ← (if flagEscape trueBlock then mret compiledBlock
                       else EMIT_id jmp compiledBlock Op_Jmp 0 zero (Some jmpLabel));
      compiledBlock ← EMIT_id bfLabel compiledBlock Op_Label 0 zero (Some bf);
      compiledBlock ← AppendChild compiledBlock falseBlock;
      if flagEscape trueBlock then mret compiledBlock
      else EMIT_id jmpLabel compiledBlock Op_Label 0 zero (Some jmp)
  | [], [] =>
      condBlock ← Compiler_CompileExpr condition noResult;
      Compiler_EmitNoResult condBlock
  | _, _ =>
      let '(op, clause) :=
        match instrs trueBlock with
        | _ :: _ => (Op_Bf, trueBlock)
        | [] => (Op_Bt, falseBlock)
        end in
      compiledBlock ← AppendChild CompiledBlock_Create condBlock;
      bf ← freshId;
      bfLabel ← freshId;
      compiledBlock ← EMIT_id bf compiledBlock op (-1) zero (Some bfLabel);
      compiledBlock ← AppendChild compiledBlock clause;
      EMIT_id bfLabel compiledBlock Op_Label 0 zero (Some bf)
  end.

(** The else-clause, null when there is none. *)
Definition If_else (rest : Expr) : option Expr :=
  match rest with
  | ECons elseClause ENull _ => Some elseClause
  | ENull => Some ENull
  | _ => None
  end.

Definition If_error : M CompiledBlock :=
  Compiler_AddMessage "Cannot compile [if]: Expression is not well-formed." ;;
  mret CompiledBlock_Create.

Definition Compiler_CompileIf (args : Expr) (noResult : bool) : M CompiledBlock :=
  match args with
  | ECons condition (ECons thenClause rest _) _ =>
      match If_else rest with
      | None => If_error
      | Some elseClause =>
          let '(condition, not) := Compiler_StripNots condition in
          let '(thenClause, elseClause) :=
            if not then (elseClause, thenClause) else (thenClause, elseClause) in
          condBlock ← Compiler_CompileExpr condition false;
          condBlock ← Compiler_EmitRequireResult condBlock;
          trueBlock ← Compiler_CompileExpr thenClause noResult;
          trueBlock ← Compiler_MakeStackMatchCompileFlags trueBlock noResult;
          falseBlock ← Compiler_CompileExpr elseClause noResult;
          falseBlock ← Compiler_MakeStackMatchCompileFlags falseBlock noResult;
          If_emit condition noResult condBlock trueBlock falseBlock
      end
  | _ => If_error
  end.

(** *** compile_and.c, compile_or.c *)

(** The conditionals: leave for [branchLabel] on [op], or on [opNot] below an
    odd number of [not]s. *)
Fixpoint AndOr_loop (op opNot : Opcode) (branchLabel : nat) (compiledBlock : CompiledBlock)
  (temp : Expr) : M CompiledBlock :=
  match temp with
  | ECons a d _ =>
      let '(condition, not) := Compiler_StripNots a in
      compiledBlock ← AppendRequired compiledBlock condition;
      compiledBlock ← EMIT_branch compiledBlock (if not then opNot else op) (-1) branchLabel;
      AndOr_loop op opNot branchLabel compiledBlock d
  | _ => mret compiledBlock
  end.

(** The two functions differ in the polarity of the branches and in the two
    results. *)
Definition CompileAndOr (op opNot : Opcode) (passed : bool) (args : Expr) (message : string)
  : M CompiledBlock :=
  if SmileList_Length args <=? 0 then fail_with message
  else
    branchLabel ← freshId;
    jmpLabel ← freshId;
    compiledBlock ← AndOr_loop op opNot branchLabel CompiledBlock_Create args;
    compiledBlock ← EMIT1 compiledBlock Op_LdBool 1 (set_boolean zero passed);
    compiledBlock ← EMIT_branch compiledBlock Op_Jmp 0 jmpLabel;
    let compiledBlock := AttachLast compiledBlock branchLabel Op_Label in
    compiledBlock ← EMIT1 compiledBlock Op_LdBool 1 (set_boolean zero (negb passed));
    let compiledBlock := AttachLast compiledBlock jmpLabel Op_Label in
    mret (set_finalStackDelta (finalStackDelta compiledBlock - 1) compiledBlock).

Definition Compiler_CompileAnd (args : Expr) (noResult : bool) : M CompiledBlock :=
  CompileAndOr Op_Bf Op_Bt true args "Cannot compile [$and]: Expression is not well-formed.".

Definition Compiler_CompileOr (args : Expr) (noResult : bool) : M CompiledBlock :=
  CompileAndOr Op_Bt Op_Bf false args "Cannot compile [$or]: Expression is not well-formed.".

(** *** compile_return.c, compile_brk.c, compile_quote.c *)

(** The block of the returned expression is dropped. *)
Definition Compiler_CompileReturn (args : Expr) (noResult : bool) : M CompiledBlock :=
  old ← Compiler_SetAssignedSymbol 0;
  Compiler_SetSourceLocationFromList args ;;
  compiledBlock ←
    match args with
    | ENull =>
        compiledBlock ← EMIT0 CompiledBlock_Create Op_LdNull 1;
        compiledBlock ← EMIT0 compiledBlock Op_Ret (-1);
        mret (set_flagEscape true compiledBlock)
    | ECons a ENull _ =>
        childBlock ← Compiler_CompileExpr a false;
        compiledBlock ← EMIT0 CompiledBlock_Create Op_Ret (-1);
        mret (set_flagEscape true compiledBlock)
    | _ => fail_with "Cannot compile [$return]: Expression is not well-formed."
    end;
  Compiler_RevertSourceLocation old ;;
  mret compiledBlock.

Definition Compiler_CompileBrk (args : Expr) (noResult : bool) : M CompiledBlock :=
  compiledBlock ← EMIT0 CompiledBlock_Create Op_Brk 0;
  Compiler_MakeStackMatchCompileFlags compiledBlock noResult.

Definition Compiler_CompileQuote (args : Expr) (noResult : bool) : M CompiledBlock :=
  if noResult then mret CompiledBlock_Create
  else
    match args with
    | ECons (ESymbol symbol) ENull _ =>
        EMIT1 CompiledBlock_Create Op_LdSym 1 (set_symbol zero symbol)
    | ECons (ECons _ _ _ as a) ENull _ =>
        objectIndex ← Compiler_AddObject a;
        EMIT1 CompiledBlock_Create Op_LdObj 1 (set_index zero objectIndex)
    | ECons a ENull _ =>
        compiledBlock ← Compiler_CompileExpr a noResult;
        Compiler_MakeStackMatchCompileFlags compiledBlock noResult
    | _ => fail_with "Cannot compile [$quote]: Expression is not well-formed."
    end.

(** *** compile_while.c *)

(** [if (!(compileFlags & COMPILE_FLAG_NORESULT)) compiledBlock->finalStackDelta++] *)
Definition adjust_delta (noResult : bool) (n : Z) (compiledBlock : CompiledBlock) : CompiledBlock :=
  if noResult then compiledBlock
  else set_finalStackDelta (finalStackDelta compiledBlock + n) compiledBlock.

(** The child is appended as it is, and the parent made to match the flags. *)
Definition AppendThenMatch (compiledBlock : CompiledBlock) (e : Expr) (noResult : bool)
  : M CompiledBlock :=
  childBlock ← Compiler_CompileExpr e noResult;
  compiledBlock ← AppendChild compiledBlock childBlock;
  Compiler_MakeStackMatchCompileFlags compiledBlock noResult.

(** [Op_Pop1] goes right after the label [bLabel]. *)
Definition insert_pop (noResult : bool) (bLabel : nat) (compiledBlock : CompiledBlock)
  : M CompiledBlock :=
  if noResult then mret compiledBlock
  else id ← freshId; AttachInstruction compiledBlock (Some bLabel) id Op_Pop1.

Definition CompileWhileWithPreAndPost (not : bool) (condition preClause postClause : Expr)
  (noResult : bool) : M CompiledBlock :=
  jmpLabel ← freshId;
  bLabel ← freshId;
  compiledBlock ← AttachInstruction CompiledBlock_Create None jmpLabel Op_Label;
  compiledBlock ← AppendThenMatch compiledBlock preClause noResult;
  compiledBlock ← AppendRequired compiledBlock condition;
  compiledBlock ← EMIT_branch compiledBlock (if not then Op_Bf else Op_Bt) (-1) bLabel;
  compiledBlock ← (if noResult then mret compiledBlock else EMIT0 compiledBlock Op_Pop1 (-1));
  postBlock ← Compiler_CompileExpr postClause true;
  postBlock ← Compiler_EmitNoResult postBlock;
  compiledBlock ← AppendChild compiledBlock postBlock;
  compiledBlock ← EMIT_branch compiledBlock Op_Jmp 0 jmpLabel;
  mret (adjust_delta noResult 1 (AttachLast compiledBlock bLabel Op_Label)).

Definition CompileWhileWithPre (not : bool) (condition preClause : Expr) (noResult : bool)
  : M CompiledBlock :=
  jmpLabel ← freshId;
  bLabel ← freshId;
  compiledBlock ← EMIT_branch CompiledBlock_Create Op_Jmp 0 jmpLabel;
  let compiledBlock := AttachLast compiledBlock bLabel Op_Label in
  let compiledBlock := AttachLast compiledBlock jmpLabel Op_Label in
  compiledBlock ← AppendThenMatch compiledBlock preClause noResult;
  compiledBlock ← insert_pop noResult bLabel compiledBlock;
  let compiledBlock := adjust_delta noResult (-1) compiledBlock in
  compiledBlock ← AppendRequired compiledBlock condition;
  compiledBlock ← EMIT_branch compiledBlock (if not then Op_Bf else Op_Bt) (-1) bLabel;
  mret (adjust_delta noResult 1 compiledBlock).

Definition CompileWhileWithPost (not : bool) (condition postClause : Expr) (noResult : bool)
  : M CompiledBlock :=
  jmpLabel ← freshId;
  bLabel ← freshId;
  compiledBlock ← (if noResult then mret CompiledBlock_Create
                   else EMIT0 CompiledBlock_Create Op_LdNull 1);
  let compiledBlock := adjust_delta noResult (-1) compiledBlock in
  compiledBlock ← EMIT_branch compiledBlock Op_Jmp 0 jmpLabel;
  let compiledBlock := AttachLast compiledBlock bLabel Op_Label in
  compiledBlock ← AppendThenMatch compiledBlock postClause noResult;
  let compiledBlock := adjust_delta noResult (-1) compiledBlock in
  compiledBlock ← insert_pop noResult bLabel compiledBlock;
  let compiledBlock := AttachLast compiledBlock jmpLabel Op_Label in
  condBlock ← Compiler_CompileExpr condition false;
  compiledBlock ← AppendChild compiledBlock condBlock;
  compiledBlock ← Compiler_EmitRequireResult compiledBlock;
  compiledBlock ← EMIT_branch compiledBlock (if not then Op_Bf else Op_Bt) (-1) bLabel;
  mret (adjust_delta noResult 1 compiledBlock).

Definition CompileWhileWithNoBody (not : bool) (condition : Expr) (noResult : bool)
  : M CompiledBlock :=
  bLabel ← freshId;
  compiledBlock ← EMIT_id bLabel CompiledBlock_Create Op_Label 0 zero None;
  compiledBlock ← AppendRequired compiledBlock condition;
  compiledBlock ← EMIT_branch compiledBlock (if not then Op_Bf else Op_Bt) (-1) bLabel;
  if noResult then mret compiledBlock else EMIT0 compiledBlock Op_LdNull 1.

(** The parts of [[$while cond post]] and [[$while pre cond post]]. *)
Definition While_parts (args : Expr) : option (Expr * Expr * Expr) :=
  match args with
  | ECons condition (ECons postClause ENull _) _ => Some (ENull, condition, postClause)
  | ECons preClause (ECons condition (ECons postClause ENull _) _) _ =>
      Some (preClause, condition, postClause)
  | _ => None
  end.

Definition Compiler_CompileWhile (args : Expr) (noResult : bool) : M CompiledBlock :=
  match args with
  | ECons _ (ECons _ _ _) _ =>
      match While_parts args with
      | None => fail_with "Cannot compile [$while]: Expression is not well-formed."
      | Some (preClause, condition, postClause) =>
          let '(condition, not) := Compiler_StripNots condition in
          match negb (isNull preClause), negb (isNull postClause) with
          | true, true =>
              CompileWhileWithPreAndPost not condition preClause postClause noResult
          | true, false => CompileWhileWithPre not condition preClause noResult
          | false, true => CompileWhileWithPost not condition postClause noResult
          | false, false => CompileWhileWithNoBody not condition noResult
          end
      end
  | _ => fail_with "Cannot compile [if]: Expression is not well-formed."
  end.

(** *** compile_property.c, compile_dot.c, compile_methodcall.c *)

(** A failed validation answers the message. *)
Definition ValidateArgs (few many : string) (args : Expr) : option (string + unit) :=
  numArgs ← SmileList_SafeLength args;
  Some (if numArgs <? 2 then inl few else if 2 <? numArgs then inl many else inr tt).

Definition Compiler_ValidateIndexArgs (indexArgs : Expr) : M bool :=
  v ← need (ValidateArgs
        "Cannot compile $index expression; it has fewer than the required two arguments."
        "Cannot compile $index expression; it has more than the required two arguments."
        indexArgs);
  match v with
  | inl message => Compiler_AddMessage message ;; mret false
  | inr _ => mret true
  end.

Definition Compiler_ValidateDotArgs (dotArgs : Expr) : M bool :=
  v ← need (ValidateArgs
        "Cannot compile $dot expression; it has fewer than the required two arguments."
        "Cannot compile $dot expression; it has more than the required two arguments."
        dotArgs);
  match v with
  | inl message => Compiler_AddMessage message ;; mret false
  | inr _ =>
      second ← need (LIST_SECOND dotArgs);
      if isSymbol second then mret true
      else
        Compiler_AddMessage "Cannot compile $dot: second argument must be a symbol." ;;
        mret false
  end.

(** The child is appended as it is, and a null pushed when the parent is empty. *)
Definition AppendThenRequire (compiledBlock : CompiledBlock) (e : Expr) : M CompiledBlock :=
  childBlock ← Compiler_CompileExpr e false;
  compiledBlock ← AppendChild compiledBlock childBlock;
  Compiler_EmitRequireResult compiledBlock.

(** The instruction that loads the property [symbol]. *)
Definition LoadProperty_op (symbol : Symbol) : Opcode * word :=
  if symbol =? sym_a then (Op_LdA, zero)
  else if symbol =? sym_d then (Op_LdD, zero)
  else if symbol =? sym_start then (Op_LdStart, zero)
  else if symbol =? sym_end then (Op_LdEnd, zero)
  else if symbol =? sym_count then (Op_LdCount, zero)
  else if symbol =? sym_length then (Op_LdLength, zero)
  else (Op_LdProp, set_symbol zero symbol).

Definition Compiler_CompileLoadProperty (dotArgs : Expr) (noResult : bool) : M CompiledBlock :=
  valid ← Compiler_ValidateDotArgs dotArgs;
  if negb valid then mret CompiledBlock_CreateError
  else
    first ← need (LIST_FIRST dotArgs);
    compiledBlock ← AppendThenRequire CompiledBlock_Create first;
    symbol ← need (LIST_SECOND dotArgs ≫= the_symbol);
    if noResult then EMIT0 compiledBlock Op_Pop1 (-1)
    else
      let '(op, u) := LoadProperty_op symbol in
      EMIT1 compiledBlock op (-1 + 1) u.

Definition Compiler_CompileLoadMember (indexArgs : Expr) (noResult : bool) : M CompiledBlock :=
  valid ← Compiler_ValidateIndexArgs indexArgs;
  if negb valid then mret CompiledBlock_CreateError
  else
    first ← need (LIST_FIRST indexArgs);
    compiledBlock ← AppendThenRequire CompiledBlock_Create first;
    second ← need (LIST_SECOND indexArgs);
    compiledBlock ← AppendThenRequire compiledBlock second;
    compiledBlock ← EMIT0 compiledBlock Op_LdMember (-1);
    if noResult then EMIT0 compiledBlock Op_Pop1 (-1) else mret compiledBlock.

Definition Compiler_CompileDot (args : Expr) (noResult : bool) : M CompiledBlock :=
  old ← currentSourceLocation;
  Compiler_SetSourceLocationFromList args ;;
  compiledBlock ← Compiler_CompileLoadProperty args noResult;
  Compiler_RevertSourceLocation old ;;
  mret compiledBlock.

Definition Compiler_CompileIndex (args : Expr) (noResult : bool) : M CompiledBlock :=
  old ← currentSourceLocation;
  Compiler_SetSourceLocationFromList args ;;
  compiledBlock ← Compiler_CompileLoadMember args noResult;
  Compiler_RevertSourceLocation old ;;
  mret compiledBlock.

Fixpoint MethodCall_args (compiledBlock : CompiledBlock) (temp : Expr) : M CompiledBlock :=
  match temp with
  | ECons a d _ =>
      Compiler_SetSourceLocationFromList temp ;;
      compiledBlock ← AppendThenRequire compiledBlock a;
      MethodCall_args compiledBlock d
  | _ => mret compiledBlock
  end.

Definition Compiler_CompileMethodCall (dotArgs args : Expr) (noResult : bool) : M CompiledBlock :=
  old ← currentSourceLocation;
  let length := SmileList_Length args in
  valid ← Compiler_ValidateDotArgs dotArgs;
  if negb valid then mret CompiledBlock_CreateError
  else if length <? 0 then
    fail_with "Cannot compile method call: Argument list is not well-formed."
  else
    Compiler_SetSourceLocationFromList dotArgs ;;
    first ← need (LIST_FIRST dotArgs);
    compiledBlock ← AppendThenRequire CompiledBlock_Create first;
    symbol ← need (LIST_SECOND dotArgs ≫= the_symbol);
    compiledBlock ← MethodCall_args compiledBlock args;
    Compiler_RevertSourceLocation old ;;
    compiledBlock ←
      (if length <=? 7 then
         if (length =? 1) && (symbol =? sym_get_member) then EMIT0 compiledBlock Op_LdMember (-2 + 1)
         else EMIT1 compiledBlock (Opcode_add Op_Met0 length) (- (length + 1) + 1)
                (set_symbol zero symbol)
       else EMIT2 compiledBlock Op_Met (- (length + 1) + 1) length symbol);
    Compiler_PopIfNecessary compiledBlock noResult.

(** *** compile_setf.c, compile_opequals.c *)

Definition Compiler_CompileSetSymbol (args : Expr) (symbol : Symbol) (value : Expr)
  (noResult : bool) : M CompiledBlock :=
  old ← Compiler_SetAssignedSymbol symbol;
  rest ← need (list_d args);
  Compiler_SetSourceLocationFromList rest ;;
  compiledBlock ← AppendRequired CompiledBlock_Create value;
  Compiler_SetSourceLocationFromList args ;;
  compiledBlock ← Compiler_CompileStoreVariable symbol noResult compiledBlock;
  Compiler_RevertSourceLocation old ;;
  mret compiledBlock.

Definition EmitStoreProperty (compiledBlock : CompiledBlock) (symbol : Symbol) (noResult : bool)
  : M CompiledBlock :=
  if noResult then EMIT1 compiledBlock Op_StpProp (-2) (set_symbol zero symbol)
  else EMIT1 compiledBlock Op_StProp (-1) (set_symbol zero symbol).

Definition EmitStoreMember (compiledBlock : CompiledBlock) (noResult : bool) : M CompiledBlock :=
  if noResult then EMIT0 compiledBlock Op_StpMember (-3)
  else
    compiledBlock ← EMIT0 compiledBlock Op_LdNull 1;
    EMIT0 compiledBlock Op_StMember (-2).

Definition Compiler_CompileSetProperty (args dotArgs value : Expr) (noResult : bool)
  : M CompiledBlock :=
  old ← currentSourceLocation;
  symbol ← need (LIST_SECOND dotArgs ≫= the_symbol);
  rest ← need (list_d args);
  Compiler_SetSourceLocationFromList rest ;;
  first ← need (LIST_FIRST dotArgs);
  compiledBlock ← AppendRequired CompiledBlock_Create first;
  Compiler_SetAssignedSymbol symbol ;;
  Compiler_SetSourceLocationFromList args ;;
  compiledBlock ← AppendRequired compiledBlock value;
  compiledBlock ← EmitStoreProperty compiledBlock symbol noResult;
  Compiler_RevertSourceLocation old ;;
  mret compiledBlock.

Definition Compiler_CompileSetMember (args dest dotArgs value : Expr) (noResult : bool)
  : M CompiledBlock :=
  obj ← need (LIST_FIRST dotArgs);
  index ← need (LIST_SECOND dotArgs);
  Compiler_SetSourceLocationFromList dotArgs ;;
  compiledBlock ← AppendRequired CompiledBlock_Create obj;
  destRest ← need (list_d dest);
  Compiler_SetSourceLocationFromList destRest ;;
  compiledBlock ← AppendRequired compiledBlock index;
  rest ← need (list_d args);
  Compiler_SetSourceLocationFromList rest ;;
  compiledBlock ← AppendRequired compiledBlock value;
  Compiler_SetSourceLocationFromList args ;;
  EmitStoreMember compiledBlock noResult.

(** [list->a] is the symbol [symbol]. *)
Definition starts_with (symbol : Symbol) (e : Expr) : bool :=
  match e with ECons (ESymbol s) _ _ => s =? symbol | _ => false end.

Definition Compiler_CompileSetf (args : Expr) (noResult : bool) : M CompiledBlock :=
  let error := fail_with "Cannot compile [$set]: Expression is not well-formed." in
  match args with
  | ECons dest (ECons value ENull _) _ =>
      match dest with
      | ESymbol symbol => Compiler_CompileSetSymbol args symbol value noResult
      | ECons _ _ _ =>
          dotArgs ← need (LIST_REST dest);
          if starts_with SYMBOL__DOT dest then
            valid ← Compiler_ValidateDotArgs dotArgs;
            if negb valid then mret CompiledBlock_CreateError
            else Compiler_CompileSetProperty args dotArgs value noResult
          else if starts_with SYMBOL__INDEX dest then
            valid ← Compiler_ValidateIndexArgs dotArgs;
            if negb valid then mret CompiledBlock_CreateError
            else Compiler_CompileSetMember args dest dotArgs value noResult
          else error
      | _ => error
      end
  | _ => error
  end.

Definition Compiler_CompileOpEqualsSymbol (op symbol : Symbol) (value : Expr) (noResult : bool)
  : M CompiledBlock :=
  childBlock ← Compiler_CompileLoadVariable symbol false;
  childBlock ← Compiler_EmitRequireResult childBlock;
  compiledBlock ← AppendChild CompiledBlock_Create childBlock;
  old ← Compiler_SetAssignedSymbol symbol;
  compiledBlock ← AppendRequired compiledBlock value;
  compiledBlock ← EMIT1 compiledBlock Op_Met1 (-2 + 1) (set_symbol zero op);
  compiledBlock ← Compiler_CompileStoreVariable symbol noResult compiledBlock;
  Compiler_RevertSourceLocation old ;;
  mret compiledBlock.

Definition Compiler_CompileOpEqualsProperty (args : Expr) (op : Symbol) (dotArgs value : Expr)
  (noResult : bool) : M CompiledBlock :=
  symbol ← need (LIST_SECOND dotArgs ≫= the_symbol);
  old ← currentSourceLocation;
  rest ← need (list_d args);
  Compiler_SetSourceLocationFromList rest ;;
  first ← need (LIST_FIRST dotArgs);
  compiledBlock ← AppendRequired CompiledBlock_Create first;
  compiledBlock ← EMIT0 compiledBlock Op_Dup1 1;
  compiledBlock ← EMIT1 compiledBlock Op_LdProp 0 (set_symbol zero symbol);
  compiledBlock ← AppendRequired compiledBlock value;
  compiledBlock ← EMIT1 compiledBlock Op_Met1 (-2 + 1) (set_symbol zero op);
  compiledBlock ← EmitStoreProperty compiledBlock symbol noResult;
  Compiler_RevertSourceLocation old ;;
  mret compiledBlock.

Definition Compiler_CompileOpEqualsMember (op : Symbol) (dotArgs value : Expr) (noResult : bool)
  : M CompiledBlock :=
  obj ← need (LIST_FIRST dotArgs);
  index ← need (LIST_SECOND dotArgs);
  compiledBlock ← AppendRequired CompiledBlock_Create obj;
  compiledBlock ← AppendRequired compiledBlock index;
  compiledBlock ← EMIT0 compiledBlock Op_Dup2 1;
  compiledBlock ← EMIT0 compiledBlock Op_Dup2 1;
  compiledBlock ← EMIT0 compiledBlock Op_LdMember (-2 + 1);
  compiledBlock ← AppendRequired compiledBlock value;
  compiledBlock ← EMIT1 compiledBlock Op_Met1 (-2 + 1) (set_symbol zero op);
  EmitStoreMember compiledBlock noResult.

Definition Compiler_CompileOpEquals (args : Expr) (noResult : bool) : M CompiledBlock :=
  let error := fail_with "Cannot compile [$opset]: Expression is not well-formed." in
  match args with
  | ECons (ESymbol op) (ECons dest (ECons value ENull _) _ as args) _ =>
      match dest with
      | ESymbol symbol => Compiler_CompileOpEqualsSymbol op symbol value noResult
      | ECons _ _ _ =>
          dotArgs ← need (LIST_REST dest);
          if starts_with SYMBOL__DOT dest then
            valid ← Compiler_ValidateDotArgs dotArgs;
            if negb valid then mret CompiledBlock_CreateError
            else Compiler_CompileOpEqualsProperty args op dotArgs value noResult
          else if starts_with SYMBOL__INDEX dest then
            valid ← Compiler_ValidateIndexArgs dotArgs;
            if negb valid then mret CompiledBlock_CreateError
            else Compiler_CompileOpEqualsMember op dotArgs value noResult
          else error
      | _ => error
      end
  | ECons _ (ECons _ (ECons _ ENull _) _) _ =>
      fail_with "Cannot compile [$opset]: First argument must be an operator (method) name."
  | _ => error
  end.

(** *** compile_standardform.c: one and two arguments *)

Definition Compiler_CompileOneArgument (args : Expr) (noResult : bool) (message : string)
  (op : Opcode) : M CompiledBlock :=
  match args with
  | ECons a ENull _ =>
      old ← Compiler_SetAssignedSymbol 0;
      Compiler_SetSourceLocationFromList args ;;
      compiledBlock ← AppendMatching CompiledBlock_Create a noResult;
      Compiler_RevertSourceLocation old ;;
      Compiler_SetSourceLocationFromList args ;;
      compiledBlock ← (if noResult then mret compiledBlock else EMIT0 compiledBlock op (-1 + 1));
      Compiler_RevertSourceLocation old ;;
      mret compiledBlock
  | _ => fail_with message
  end.

(** Here the child is appended before it is made to match the flags: the
    parent's block instruction refers to the changed child, but an instruction
    added to an empty child, which has no block instruction, is lost, and the
    parent's counters are those of the unchanged child. *)
Definition AppendBeforeMatch (compiledBlock : CompiledBlock) (e : Expr) (noResult : bool)
  : M CompiledBlock :=
  childBlock ← Compiler_CompileExpr e noResult;
  id ← freshId;
  let '(compiledBlock, appended) := CompiledBlock_AppendChild compiledBlock id childBlock in
  childBlock ← Compiler_MakeStackMatchCompileFlags childBlock noResult;
  mret (if appended
        then set_instrs
               (removelast (instrs compiledBlock) ++ [BlockInstr id 0 zero childBlock 0])
               compiledBlock
        else compiledBlock).

Definition Compiler_CompileTwoArguments (args : Expr) (noResult : bool) (message : string)
  (op : Opcode) : M CompiledBlock :=
  match args with
  | ECons a (ECons b ENull _ as rest) _ =>
      old ← Compiler_SetAssignedSymbol 0;
      Compiler_SetSourceLocationFromList args ;;
      compiledBlock ← AppendBeforeMatch CompiledBlock_Create a noResult;
      Compiler_SetSourceLocationFromList rest ;;
      compiledBlock ← AppendBeforeMatch compiledBlock b noResult;
      Compiler_RevertSourceLocation old ;;
      Compiler_SetSourceLocationFromList args ;;
      compiledBlock ← (if noResult then mret compiledBlock else EMIT0 compiledBlock op (-2 + 1));
      Compiler_RevertSourceLocation old ;;
      mret compiledBlock
  | _ => fail_with message
  end.

(** *** compile_new.c *)

(** The pairs; answers their number, or [None] after an error. *)
Fixpoint New_pairs (compiledBlock : CompiledBlock) (numPairs : Z) (pairs : Expr)
  : M (option (CompiledBlock * Z)) :=
  let error := (Compiler_AddMessage "Cannot compile [$new]: Expression is not well-formed." ;;
                mret None) : M (option (CompiledBlock * Z)) in
  match pairs with
  | ECons entry d _ =>
      match entry with
      | ECons (ESymbol symbol) (ECons value ENull _) _ =>
          old ← Compiler_SetAssignedSymbol symbol;
          Compiler_SetSourceLocationFromList entry ;;
          compiledBlock ← EMIT1 compiledBlock Op_LdSym 1 (set_symbol zero symbol);
          compiledBlock ← AppendRequired compiledBlock value;
          Compiler_RevertSourceLocation old ;;
          New_pairs compiledBlock (numPairs + 1) d
      | _ => error
      end
  | ENull => mret (Some (compiledBlock, numPairs))
  | _ => error
  end.

Definition Compiler_CompileNew (args : Expr) (noResult : bool) : M CompiledBlock :=
  match args with
  | ECons base (ECons pairs ENull _) _ =>
      old ← Compiler_SetAssignedSymbol 0;
      Compiler_SetSourceLocationFromList args ;;
      compiledBlock ← AppendRequired CompiledBlock_Create base;
      Compiler_RevertSourceLocation old ;;
      result ← New_pairs compiledBlock 0 pairs;
      match result with
      | None => mret CompiledBlock_CreateError
      | Some (compiledBlock, numPairs) =>
          EMIT1 compiledBlock Op_NewObj (1 - (numPairs * 2 + 1))
            (set_int32 zero (wrapS 32 numPairs))
      end
  | _ => fail_with "Cannot compile [$new]: Expression is not well-formed."
  end.

(** *** compile_include.c, and the exports of a module *)

(** [Compiler_PrecomputeModuleClosureLayout]: the loop over the variables, and
    the form of the expression; [None] answers NULL. *)
Fixpoint ModuleLayout_loop (declarations : gmap Z Z) (varDict : gmap Z VarInfo) (offset : Z)
  (temp : Expr) : option (gmap Z VarInfo) :=
  match temp with
  | ECons a d _ =>
      match Compiler_DecodeScopeVariable a with
      | (true, Some symbol, _) =>
          let declKind := default PARSEDECL_INCLUDE (declarations !! symbol) in
          let kind :=
            if declKind =? PARSEDECL_ARGUMENT then VAR_KIND_ARG
            else if declKind =? PARSEDECL_VARIABLE then VAR_KIND_VAR
            else if (declKind =? PARSEDECL_AUTO) || (declKind =? PARSEDECL_SETONCEAUTO)
                    || (declKind =? PARSEDECL_CONST) || (declKind =? PARSEDECL_SETONCECONST)
            then VAR_KIND_CONST
            else VAR_KIND_GLOBAL in
          let varDict :=
            match varDict !! symbol with
            | Some _ => varDict
            | None => <[symbol := mkVarInfo kind offset NullObject]> varDict
            end in
          ModuleLayout_loop declarations varDict (offset + 1) d
      | _ => ModuleLayout_loop declarations varDict offset d
      end
  | ENull => Some varDict
  | _ => None
  end.

Definition Compiler_PrecomputeModuleClosureLayout (scope : Expr) (declarations : gmap Z Z)
  : option (gmap Z VarInfo) :=
  match scope with
  | ECons (ESymbol s) (ECons (ECons _ _ _ as scopeVars) rest _) _ =>
      if (s =? SYMBOL__SCOPE) && (isList rest || isNull rest)
      then ModuleLayout_loop declarations ∅ 0 scopeVars
      else None
  | _ => None
  end.

(** The argument is converted to an unsigned 32-bit number. *)
Definition ModuleInfo_GetModuleById (id : Z) : M (option ModuleInfo) :=
  modules ← get c_modules;
  mret (m ← modules !! Z.to_nat (wrapU 32 id); m).

(** Looking a symbol up in a NULL dictionary is undefined. *)
Definition ModuleInfo_GetExposedValueClosureOffset (id : Z) (moduleInfo : ModuleInfo)
  (symbol : Symbol) : M Z :=
  let exportDict :=
    match mi_exportDict moduleInfo with
    | Some d => Some d
    | None => Compiler_PrecomputeModuleClosureLayout (mi_expr moduleInfo)
                (mi_declarations moduleInfo)
    end in
  modify (upd_c_modules (<[Z.to_nat (wrapU 32 id) :=
    Some (mkModuleInfo (mi_expr moduleInfo) (mi_declarations moduleInfo) exportDict)]>)) ;;
  exportDict ← need exportDict;
  mret (match exportDict !! symbol with
        | Some v =>
            if (var_kind v =? VAR_KIND_VAR) || (var_kind v =? VAR_KIND_CONST)
            then var_offset v else -1
        | None => -1
        end).

Definition Int32Max : Z := 2147483647.

Definition Compiler_CompileInclude (args : Expr) (noResult : bool) : M CompiledBlock :=
  let length := SmileList_Length args in
  if (length <? 2) || (length >? 3) then
    fail_with "Cannot compile [$include]: Expression is not well-formed."
  else
    moduleInfo ← match args with
                 | ECons (EInteger64 moduleId) _ _ =>
                     if moduleId >=? Int32Max then mret None
                     else
                       m ← ModuleInfo_GetModuleById moduleId;
                       mret (m ← m; Some (moduleId, m))
                 | _ => mret None
                 end;
    match moduleInfo, args with
    | Some (moduleId, moduleInfo), ECons _ (ECons (ESymbol memberName) rest _) _ =>
        memberOffset ← ModuleInfo_GetExposedValueClosureOffset moduleId moduleInfo memberName;
        if memberOffset <? 0 then
          fail_with "Cannot compile [$include]: Module '%S' does not expose anything named '%S'."
        else
          match (match rest with
                 | ECons (ESymbol s) _ _ => Some s
                 | ECons _ _ _ => None
                 | _ => Some memberName
                 end) with
          | None => fail_with "Cannot compile [$include]: Module member name is not a symbol."
          | Some localName =>
              old ← Compiler_SetAssignedSymbol localName;
              Compiler_SetSourceLocationFromList rest ;;
              compiledBlock ← EMIT2 CompiledBlock_Create Op_LdInclude 1 moduleId memberOffset;
              compiledBlock ← Compiler_CompileStoreVariable localName noResult compiledBlock;
              Compiler_RevertSourceLocation old ;;
              mret compiledBlock
          end
    | Some _, _ => fail_with "Cannot compile [$include]: Module member name is not a symbol."
    | None, _ => fail_with "Cannot compile [$include]: Module is not a valid ID."
    end.

(** *** compile_scope.c *)

(** The declarations; [symbol] is the C local, unset before the first valid
    name. Answers the block of initialisations and what ends the list. *)
Fixpoint Scope_vars (scope : nat) (symbol : option Symbol) (initBlock : CompiledBlock)
  (temp : Expr) : M (CompiledBlock * Expr) :=
  match temp with
  | ECons a d _ =>
      let '(ok, decoded, declKind) := Compiler_DecodeScopeVariable a in
      let symbol := match decoded with Some s => Some s | None => symbol end in
      let message :=
        "Cannot compile [$scope]: Variable #%d is not a valid local variable declaration."%string in
      (if ok : bool then mret tt
       else Compiler_AddMessage message ;; Compiler_AddMessage message) ;;
      s ← need symbol;
      localIndex ← CompilerFunction_AddLocal s;
      CompileScope_DefineSymbol scope s declKind localIndex ;;
      Compiler_SetSourceLocationFromList temp ;;
      initBlock ← EMIT1 initBlock Op_NullLoc0 0 (set_index zero localIndex);
      Scope_vars scope symbol initBlock d
  | _ => mret (initBlock, temp)
  end.

Definition Compiler_CompileScope (args : Expr) (noResult : bool) : M CompiledBlock :=
  match args with
  | ECons (ECons _ _ _ as scopeVars) rest _ =>
      if isList rest || isNull rest then
        scope ← Compiler_BeginScope PARSESCOPE_SCOPEDECL;
        '(initBlock, temp) ← Scope_vars scope None CompiledBlock_Create scopeVars;
        if negb (isNull temp) then
          fail_with "Cannot compile [$scope]: Local-variable list is not well-formed."
        else
          Compiler_SetSourceLocationFromList args ;;
          compiledBlock ← Compiler_CompileProgN rest noResult;
          Compiler_EndScope ;;
          mret (CompiledBlock_Combine initBlock compiledBlock)
      else fail_with "Cannot compile [$scope]: Expression is not well-formed."
  | _ => fail_with "Cannot compile [$scope]: Expression is not well-formed."
  end.

(** *** compile_fn.c *)

(** [CompiledBlock_Finish], and the addresses it leaves in the instructions. *)
Definition Finish (compiledBlock : CompiledBlock) : M (ByteCodeSegment * list (nat * Z)) :=
  '(segment, b) ← need (CompiledBlock_Finish compiledBlock 0 false);
  mret (segment, addresses b).

(** The declarations of the arguments. *)
Fixpoint define_arguments (scope : nat) (i : Z) (args : list UserFunctionArg) : M unit :=
  match args with
  | [] => mret tt
  | arg :: args =>
      CompileScope_DefineSymbol scope (arg_name arg) PARSEDECL_ARGUMENT i ;;
      define_arguments scope (i + 1) args
  end.

Definition set_finished (segment : ByteCodeSegment) (closureInfo : ClosureInfo)
  (u : UserFunctionInfo) : UserFunctionInfo :=
  mkUserFunctionInfo (fn_parent u) (fn_argInfo u) (fn_argList u) (fn_body u) (Some closureInfo)
    (Some segment).

Definition Fn_error : M CompiledBlock :=
  fail_with "Cannot compile [$fn]: Expression is not well-formed.".

(** The function itself, down to the finished description. *)
Definition Fn_function (args functionArgs functionBody rest : Expr) (userFunctionInfo : nat)
  : M unit :=
  info ← load c_userFunctionInfos userFunctionInfo;
  compilerFunction ← Compiler_BeginFunction functionArgs functionBody;
  update upd_c_functions compilerFunction (fun f =>
    upd_cf_userFunctionInfo (fun _ => Some userFunctionInfo)
      (upd_cf_numArgs (fun _ => ai_numArgs (fn_argInfo info)) f)) ;;
  scope ← Compiler_BeginScope PARSESCOPE_FUNCTION;
  define_arguments scope 0 (declared_args (fn_argInfo info)) ;;
  Compiler_SetSourceLocationFromList rest ;;
  compiledBlock ← AppendRequired CompiledBlock_Create functionBody;
  Compiler_SetSourceLocationFromList args ;;
  compiledBlock ← EMIT0 compiledBlock Op_Ret (-1);
  Compiler_EndScope ;;
  '(byteCodeSegment, env) ← Finish compiledBlock;
  Compiler_EndFunction env ;;
  update upd_c_functions compilerFunction
    (upd_cf_stackSize (fun _ => maxStackDepth compiledBlock)) ;;
  closureInfo ← Compiler_SetupClosureInfoForCompilerFunction compilerFunction;
  closureInfo ← load c_closureInfos closureInfo;
  update upd_c_userFunctionInfos userFunctionInfo (set_finished byteCodeSegment closureInfo).

Definition Compiler_CompileFn (args : Expr) (noResult : bool) : M CompiledBlock :=
  old ← Compiler_SetAssignedSymbol 0;
  match args with
  | ECons functionArgs (ECons functionBody ENull _ as rest) _ =>
      if isList functionArgs || isNull functionArgs then
        f ← current;
        created ← UserFunctionInfo_Create (cf_userFunctionInfo f) functionArgs functionBody;
        match created with
        | inl errorMessage => fail_with errorMessage
        | inr userFunctionInfo =>
            functionIndex ← Compiler_AddUserFunctionInfo userFunctionInfo;
            Fn_function args functionArgs functionBody rest userFunctionInfo ;;
            Compiler_RevertSourceLocation old ;;
            EMIT1 CompiledBlock_Create Op_NewFn 1 (set_index zero functionIndex)
        end
      else Fn_error
  | _ => Fn_error
  end.

(** *** compile_till.c *)

Definition Till_error : M (option (Expr * Expr * Expr)) :=
  Compiler_AddMessage "Cannot compile [$till]: Expression is not well-formed." ;; mret None.

(** The flags, the body and the whens. *)
Definition ValidateTill (args : Expr) : M (option (Expr * Expr * Expr)) :=
  match args with
  | ECons flags (ECons body rest _) _ =>
      if isList flags || isNull flags then
        match rest with
        | ENull => mret (Some (flags, body, ENull))
        | ECons whens ENull _ => mret (Some (flags, body, whens))
        | _ => Till_error
        end
      else Till_error
  | _ => Till_error
  end.

Definition CountFlags (flags : Expr) : M Z :=
  numFlags ← need (SmileList_SafeLength flags);
  (if numFlags =? 0
   then Compiler_AddMessage "Cannot compile [$till]: List of terminating flags must not be empty."
   else mret tt) ;;
  mret numFlags.

(** The loop over the flags, and what ends the list.  A flag that is no symbol
    is read as one after the message. *)
Fixpoint DefineVariables_loop (tillScope tillInfo : nat) (variableIndex : Z) (nullLabel : nat)
  (index : Z) (temp : Expr) : M Expr :=
  match temp with
  | ECons a d _ =>
      (if isSymbol a then mret tt
       else Compiler_AddMessage "Cannot compile [$till]: List of flags must contain only symbols.") ;;
      symbol ← need (the_symbol a);
      p ← CompileScope_DefineSymbol tillScope symbol PARSEDECL_TILL variableIndex;
      mark p (fun ls => upd_ls_tillIndex (fun _ => index)
                          (upd_ls_whenLabel (fun _ => Some nullLabel) ls)) ;;
      ti ← load c_tillInfos tillInfo;
      symbols ← need (ti_symbols ti);
      symbols ← need (zset symbols index (Some p));
      update upd_c_tillInfos tillInfo (upd_ti_symbols (fun _ => Some symbols)) ;;
      DefineVariables_loop tillScope tillInfo variableIndex nullLabel (index + 1) d
  | _ => mret temp
  end.

Definition DefineVariablesForFlags (flags : Expr) (numFlags : Z) (tillScope tillInfo : nat)
  (variableIndex : Z) (nullLabel : nat) : M unit :=
  let n := Z.to_nat numFlags in
  update upd_c_tillInfos tillInfo (fun ti =>
    mkTillInfo (ti_tillIndex ti) (ti_userFunctionInfo ti) (ti_realContinuationNeeded ti) numFlags
      (Some (replicate n None)) (Some (replicate n 0)) (Some (replicate n None))) ;;
  temp ← DefineVariables_loop tillScope tillInfo variableIndex nullLabel 0 flags;
  if isNull temp then mret tt
  else Compiler_AddMessage "Cannot compile [$till]: List of flags must contain only symbols.".

Definition GenerateNewTillBlock (variableIndex : Z) : M (CompiledBlock * nat) :=
  f ← current;
  tillInfo ← Compiler_AddTillContinuationInfo (cf_userFunctionInfo f);
  ti ← load c_tillInfos tillInfo;
  compiledBlock ← EMIT1 CompiledBlock_Create Op_NewTill 1 (set_index zero (ti_tillIndex ti));
  compiledBlock ← EMIT1 compiledBlock Op_StpLoc0 (-1) (set_index zero variableIndex);
  mret (compiledBlock, tillInfo).

Definition GenerateEndTillBlock (variableIndex : Z) : M CompiledBlock :=
  compiledBlock ← EMIT1 CompiledBlock_Create Op_LdLoc0 1 (set_index zero variableIndex);
  EMIT0 compiledBlock Op_EndTill (-1).

(** The body of one [when], after its checks. *)
Definition CompileWhen (when : Expr) (localSymbol : nat) (body : Expr) (isLast : bool)
  (exitTarget : nat) (variableIndex : Z) (noResult : bool) (parentBlock : CompiledBlock)
  : M CompiledBlock :=
  old ← Compiler_SetSourceLocationFromList when;
  whenLabel ← freshId;
  compiledBlock ← EMIT_id whenLabel CompiledBlock_Create Op_Label 0 zero None;
  mark localSymbol (upd_ls_whenLabel (fun _ => Some whenLabel)) ;;
  endTill ← GenerateEndTillBlock variableIndex;
  compiledBlock ← AppendChild compiledBlock endTill;
  compiledBlock ← AppendMatching compiledBlock body noResult;
  compiledBlock ← (if isLast then mret compiledBlock
                   else EMIT_branch compiledBlock Op_Jmp 0 exitTarget);
  parentBlock ← AppendChild parentBlock compiledBlock;
  Compiler_RevertSourceLocation old ;;
  mret parentBlock.

Fixpoint Whens_loop (nullLabel : nat) (numFlags numWhens : Z) (tillScope : nat)
  (exitTarget : nat) (variableIndex : Z) (noResult : bool) (parentBlock : CompiledBlock)
  (whens : Expr) : M CompiledBlock :=
  match whens with
  | ECons when d _ =>
      parentBlock ←
        match when with
        | ECons (ESymbol symbol) (ECons body ENull _) _ =>
            localSymbol ← CompileScope_FindSymbolHere tillScope symbol;
            match localSymbol with
            | None =>
                Compiler_AddMessage "Cannot compile [$till]: When clause '%S' does not match any of the loop's flags." ;;
                mret parentBlock
            | Some p =>
                ls ← load c_localSymbols p;
                if negb (bool_decide (ls_whenLabel ls = Some nullLabel)) then
                  Compiler_AddMessage "Cannot compile [$till]: When clause '%S' is defined multiple times." ;;
                  mret parentBlock
                else
                  CompileWhen when p body ((numWhens =? numFlags) && isNull d) exitTarget
                    variableIndex noResult parentBlock
            end
        | _ =>
            Compiler_AddMessage "Cannot compile [$till]: Whens must be sub-lists of the form [symbol body]." ;;
            mret parentBlock
        end;
      Whens_loop nullLabel numFlags numWhens tillScope exitTarget variableIndex noResult
        parentBlock d
  | _ => mret parentBlock
  end.

(** Answers the number of clauses, malformed ones included, and the block. *)
Definition CompileWhens (nullLabel : nat) (numFlags : Z) (tillScope : nat) (whens : Expr)
  (exitTarget : nat) (variableIndex : Z) (noResult : bool) (parentBlock : CompiledBlock)
  : M (Z * CompiledBlock) :=
  numWhens ← need (SmileList_SafeLength whens);
  parentBlock ← Whens_loop nullLabel numFlags numWhens tillScope exitTarget variableIndex noResult
                  parentBlock whens;
  mret (numWhens, parentBlock).

Definition CompileNullCase (nullLabel : nat) (numFlags numWhens : Z) (variableIndex : Z)
  (noResult : bool) : M (option CompiledBlock) :=
  if numWhens >=? numFlags then mret None
  else
    let compiledBlock := AttachLast CompiledBlock_Create nullLabel Op_Label in
    endTill ← GenerateEndTillBlock variableIndex;
    compiledBlock ← AppendChild compiledBlock endTill;
    compiledBlock ← (if noResult then mret compiledBlock else EMIT0 compiledBlock Op_LdNull 1);
    mret (Some compiledBlock).

(** [CompileScope_FindSymbolHere] of a flag, dereferenced. *)
Definition flag_symbol (tillScope : nat) (a : Expr) : M CompiledLocalSymbol :=
  symbol ← need (the_symbol a);
  p ← CompileScope_FindSymbolHere tillScope symbol;
  p ← need p;
  load c_localSymbols p.

Fixpoint IsRealContinuationNeeded (tillScope : nat) (flags : Expr) : M bool :=
  match flags with
  | ECons a d _ =>
      ls ← flag_symbol tillScope a;
      rest ← IsRealContinuationNeeded tillScope d;
      mret (ls_wasReadDeep ls || ls_wasWrittenDeep ls || rest)
  | _ => mret false
  end.

Fixpoint PopulateTillBranchTargets (tillScope tillInfo : nat) (index : Z) (flags : Expr)
  : M unit :=
  match flags with
  | ECons a d _ =>
      ls ← flag_symbol tillScope a;
      ti ← load c_tillInfos tillInfo;
      targets ← need (ti_branchTargetInstructions ti);
      targets ← need (zset targets index (ls_whenLabel ls));
      update upd_c_tillInfos tillInfo (upd_ti_branchTargetInstructions (fun _ => Some targets)) ;;
      PopulateTillBranchTargets tillScope tillInfo (index + 1) d
  | _ => mret tt
  end.

(** The search for [whenLabel->next] in the finished tree: the label is not in
    it, the label is last, the instruction is no end-till block, or the block is
    cleared. *)
Inductive Removal (A : Type) := NotHere | NextNull | Invalid | Removed (x : A).
#[global] Arguments NotHere {A}.
#[global] Arguments NextNull {A}.
#[global] Arguments Invalid {A}.
#[global] Arguments Removed {A}.

Definition Removal_map {A B} (f : A -> B) (r : Removal A) : Removal B :=
  match r with
  | NotHere => NotHere | NextNull => NextNull | Invalid => Invalid | Removed x => Removed (f x)
  end.

(** The safety check of [RemoveTillContinuation]. *)
Definition isEndTillBlock (b : CompiledBlock) : bool :=
  match instrs b with
  | [] => numInstructions b =? 0
  | _ :: Instr _ Op_EndTill _ _ _ _ :: _ => numInstructions b =? 2
  | _ => false
  end.

Fixpoint RemoveEndTill (label : nat) (b : CompiledBlock) : Removal CompiledBlock :=
  match b with
  | Block l n m d e r =>
      let fix go (l : list IntermediateInstruction) : Removal (list IntermediateInstruction) :=
        match l with
        | [] => NotHere
        | i :: l' =>
            if Nat.eqb (instr_id i) label then
              match l' with
              | [] => NextNull
              | BlockInstr id loc o child a :: l'' =>
                  if isEndTillBlock child
                  then Removed (i :: BlockInstr id loc o (CompiledBlock_Clear child) a :: l'')
                  else Invalid
              | _ => Invalid
              end
            else
              let later := Removal_map (cons i) (go l') in
              match i with
              | Instr _ _ _ _ _ _ => later
              | BlockInstr id loc o child a =>
                  match RemoveEndTill label child with
                  | NotHere => later
                  | other => Removal_map (fun child => BlockInstr id loc o child a :: l') other
                  end
              end
        end in
      Removal_map (fun l => Block l n m d e r) (go l)
  end.

Fixpoint RemoveEndTills (tillScope : nat) (compiledBlock : CompiledBlock) (flags : Expr)
  : M CompiledBlock :=
  match flags with
  | ECons a d _ =>
      ls ← flag_symbol tillScope a;
      label ← need (ls_whenLabel ls);
      match RemoveEndTill label compiledBlock with
      | NotHere | NextNull => need None
      | Invalid => abort "Compiler generated an invalid EndTill block."
      | Removed compiledBlock => RemoveEndTills tillScope compiledBlock d
      end
  | _ => mret compiledBlock
  end.

Definition RemoveTillContinuation (compiledBlock : CompiledBlock) (tillBlockInstr : nat)
  (tillScope : nat) (flags : Expr) : M CompiledBlock :=
  compiledBlock ← need (CompiledBlock_DetachInstruction compiledBlock tillBlockInstr);
  RemoveEndTills tillScope compiledBlock flags.

(** Phase 4 and the attachment of the terminating cases of phase 5. *)
Definition Till_loop (tillBlock whensBlock : CompiledBlock) (body : Expr)
  (tillBlockInstr exitLabel : nat) : M CompiledBlock :=
  let '(compiledBlock, _) :=
    CompiledBlock_AppendChild CompiledBlock_Create tillBlockInstr tillBlock in
  loopLabel ← freshId;
  compiledBlock ← EMIT_id loopLabel compiledBlock Op_Label 0 zero None;
  childBlock ← Compiler_CompileExpr body true;
  childBlock ← Compiler_EmitNoResult childBlock;
  compiledBlock ← AppendChild compiledBlock childBlock;
  compiledBlock ← EMIT_branch compiledBlock Op_Jmp 0 loopLabel;
  Compiler_EndScope ;;
  compiledBlock ← AppendChild compiledBlock whensBlock;
  mret (AttachLast compiledBlock exitLabel Op_Label).

Definition Compiler_CompileTill (args : Expr) (noResult : bool) : M CompiledBlock :=
  valid ← ValidateTill args;
  match valid with
  | None => mret CompiledBlock_CreateError
  | Some (flags, body, whens) =>
      tillScope ← Compiler_BeginScope PARSESCOPE_TILLDO;
      variableIndex ← CompilerFunction_AddLocal 0;
      numFlags ← CountFlags flags;
      '(tillBlock, tillInfo) ← GenerateNewTillBlock variableIndex;
      nullLabel ← freshId;
      exitLabel ← freshId;
      DefineVariablesForFlags flags numFlags tillScope tillInfo variableIndex nullLabel ;;
      '(numWhens, whensBlock) ← CompileWhens nullLabel numFlags tillScope whens exitLabel
                                   variableIndex noResult CompiledBlock_Create;
      nullBlock ← CompileNullCase nullLabel numFlags numWhens variableIndex noResult;
      whensBlock ← match nullBlock with
                   | Some nullBlock => AppendChild whensBlock nullBlock
                   | None => mret whensBlock
                   end;
      tillBlockInstr ← freshId;
      compiledBlock ← Till_loop tillBlock whensBlock body tillBlockInstr exitLabel;
      realContinuationNeeded ← IsRealContinuationNeeded tillScope flags;
      update upd_c_tillInfos tillInfo
        (upd_ti_realContinuationNeeded (fun _ => realContinuationNeeded)) ;;
      if (realContinuationNeeded : bool) then
        PopulateTillBranchTargets tillScope tillInfo 0 flags ;;
        mret compiledBlock
      else RemoveTillContinuation compiledBlock tillBlockInstr tillScope flags
  end.

(** *** compile_standardform.c, compile_expr.c *)

(** [None] is NULL: the form is not a known one. *)
Definition Compiler_CompileStandardForm (symbol : Symbol) (args : Expr) (noResult : bool)
  : option (M CompiledBlock) :=
  if symbol =? SYMBOL__SET then Some (Compiler_CompileSetf args noResult)
  else if symbol =? SYMBOL__OPSET then Some (Compiler_CompileOpEquals args noResult)
  else if symbol =? SYMBOL__INCLUDE then Some (Compiler_CompileInclude args noResult)
  else if symbol =? SYMBOL__IF then Some (Compiler_CompileIf args noResult)
  else if symbol =? SYMBOL__WHILE then Some (Compiler_CompileWhile args noResult)
  else if symbol =? SYMBOL__TILL then Some (Compiler_CompileTill args noResult)
  else if symbol =? SYMBOL__CATCH then None
  else if symbol =? SYMBOL__RETURN then Some (Compiler_CompileReturn args noResult)
  else if symbol =? SYMBOL__BRK then Some (Compiler_CompileBrk args noResult)
  else if symbol =? SYMBOL__FN then Some (Compiler_CompileFn args noResult)
  else if symbol =? SYMBOL__QUOTE then Some (Compiler_CompileQuote args noResult)
  else if symbol =? SYMBOL__PROG1 then Some (Compiler_CompileProg1 args noResult)
  else if symbol =? SYMBOL__PROGN then Some (Compiler_CompileProgN args noResult)
  else if symbol =? SYMBOL__SCOPE then Some (Compiler_CompileScope args noResult)
  else if symbol =? SYMBOL__NEW then Some (Compiler_CompileNew args noResult)
  else if symbol =? SYMBOL__DOT then Some (Compiler_CompileDot args noResult)
  else if symbol =? SYMBOL__INDEX then Some (Compiler_CompileIndex args noResult)
  else if symbol =? SYMBOL__IS then
    Some (Compiler_CompileTwoArguments args noResult
            "Cannot compile [$is]: Expression is not well-formed." Op_Is)
  else if symbol =? SYMBOL__TYPEOF then
    Some (Compiler_CompileOneArgument args noResult
            "Cannot compile [$typeof]: Expression is not well-formed." Op_TypeOf)
  else if symbol =? SYMBOL__EQ then
    Some (Compiler_CompileTwoArguments args noResult
            "Cannot compile [===]: Expression is not well-formed." Op_SuperEq)
  else if symbol =? SYMBOL__NE then
    Some (Compiler_CompileTwoArguments args noResult
            "Cannot compile [!==]: Expression is not well-formed." Op_SuperNe)
  else if symbol =? SYMBOL__AND then Some (Compiler_CompileAnd args noResult)
  else if symbol =? SYMBOL__OR then Some (Compiler_CompileOr args noResult)
  else if symbol =? SYMBOL__NOT then
    Some (Compiler_CompileOneArgument args noResult
            "Cannot compile [$not]: Expression is not well-formed." Op_Not)
  else None.

(** The function and the arguments of a call, in order; counts them. *)
Fixpoint Call_elements (compiledBlock : CompiledBlock) (argCount : Z) (list : Expr)
  : M (CompiledBlock * Z) :=
  match list with
  | ECons a d _ =>
      Compiler_SetSourceLocationFromList list ;;
      compiledBlock ← AppendRequired compiledBlock a;
      Call_elements compiledBlock (argCount + 1) d
  | _ => mret (compiledBlock, argCount)
  end.

(** The default list form; a list has at least one element. *)
Definition CompileCall (list : Expr) (old : Z) (noResult : bool) : M CompiledBlock :=
  '(compiledBlock, argCount) ← Call_elements CompiledBlock_Create 0 list;
  Compiler_RevertSourceLocation old ;;
  compiledBlock ← EMIT1 compiledBlock Op_Call (1 - argCount) (set_index zero (argCount - 1));
  Compiler_PopIfNecessary compiledBlock noResult.

Definition CompileList (list a d : Expr) (noResult : bool) : M CompiledBlock :=
  old ← Compiler_SetSourceLocationFromList list;
  let revert m := (compiledBlock ← m;
                   Compiler_RevertSourceLocation old ;;
                   mret compiledBlock) : M CompiledBlock in
  match a with
  | ECons (ESymbol s) dotArgs _ =>
      if s =? SYMBOL__DOT then revert (Compiler_CompileMethodCall dotArgs d noResult)
      else CompileCall list old noResult
  | ESymbol symbol =>
      if negb (isList d || isNull d) then
        fail_with "Cannot compile list: List is not well-formed."
      else
        match Compiler_CompileStandardForm symbol d noResult with
        | Some m => revert m
        | None => CompileCall list old noResult
        end
  | _ => CompileCall list old noResult
  end.

(** [COMPILE_PRIMITIVE_EXPR]: the operand is only computed when the value is
    wanted. *)
Definition COMPILE_PRIMITIVE_EXPR (op : Opcode) (u : M word) (noResult : bool)
  : M CompiledBlock :=
  if noResult then mret CompiledBlock_Create
  else u ← u; EMIT1 CompiledBlock_Create op 1 u.

Definition CompileExpr_body (expr : Expr) (noResult : bool) : M CompiledBlock :=
  let const op u := COMPILE_PRIMITIVE_EXPR op (mret u) noResult in
  match expr with
  | ENull => const Op_LdNull zero
  | EBool b => const Op_LdBool (set_boolean zero b)
  | EString s =>
      COMPILE_PRIMITIVE_EXPR Op_LdStr (i ← Compiler_AddString s; mret (set_index zero i)) noResult
  | EPrimitive | EUserData _ =>
      COMPILE_PRIMITIVE_EXPR Op_LdObj (i ← Compiler_AddObject expr; mret (set_index zero i))
        noResult
  | EChar ch => const Op_LdChar (set_ch zero ch)
  | EUni code => const Op_LdUni (set_uni zero code)
  | EByte v => const Op_Ld8 (set_byte zero v)
  | EInteger16 v => const Op_Ld16 (set_int16 zero v)
  | EInteger32 v => const Op_Ld32 (set_int32 zero v)
  | EInteger64 v => const Op_Ld64 (set_int64 zero v)
  | EReal32 bits => const Op_LdR32 (set_bits32 zero bits)
  | EReal64 bits => const Op_LdR64 (set_bits64 zero bits)
  | EFloat32 bits => const Op_LdF32 (set_bits32 zero bits)
  | EFloat64 bits => const Op_LdF64 (set_bits64 zero bits)
  | ESymbol symbol => Compiler_CompileLoadVariable symbol noResult
  | EUnsupported _ => abort "The kind of object is not supported."
  | ECons a d _ => CompileList expr a d noResult
  end.
End Forms.

(** ** The recursion *)

Section Compile.
Context {OE : ObjectEnv} {E : CompilerEnv}.

Fixpoint Compiler_CompileExpr (fuel : nat) (expr : Expr) (noResult : bool) : M CompiledBlock :=
  match fuel with
  | O => fun _ => CFuel
  | S fuel => CompileExpr_body (Compiler_CompileExpr fuel) expr noResult
  end.

(** The height of an expression: enough fuel for it. *)
Fixpoint height (e : Expr) : nat :=
  match e with ECons a d _ => S (Nat.max (height a) (height d)) | _ => O end.

(** [Compiler_CompileGlobal]: answers the description of the global function. *)
Definition Compiler_CompileGlobal (expr : Expr) : M nat :=
  created ← UserFunctionInfo_Create None ENull expr;
  userFunctionInfo ← need (match created with inr p => Some p | inl _ => None end);
  compilerFunction ← Compiler_BeginFunction ENull expr;
  update upd_c_functions compilerFunction (upd_cf_userFunctionInfo (fun _ => Some userFunctionInfo)) ;;
  modify (upd_c_tables (upd_ct_globalFunctionInfo (fun _ => Some userFunctionInfo))) ;;
  compiledBlock ← Compiler_CompileExpr (S (height expr)) expr false;
  compiledBlock ← Compiler_EmitRequireResult compiledBlock;
  Compiler_RevertSourceLocation 0 ;;
  compiledBlock ← EMIT0 compiledBlock Op_Ret (-1);
  '(byteCodeSegment, env) ← Finish compiledBlock;
  update upd_c_functions compilerFunction
    (upd_cf_stackSize (fun _ => maxStackDepth compiledBlock)) ;;
  Compiler_EndFunction env ;;
  closureInfo ← Compiler_SetupClosureInfoForCompilerFunction compilerFunction;
  closureInfo ← load c_closureInfos closureInfo;
  update upd_c_userFunctionInfos userFunctionInfo (set_finished byteCodeSegment closureInfo) ;;
  mret userFunctionInfo.
End Compile.
