(* ===== verification/CompilerTests.v ===== *)
(** * CompilerTests: the listings of src/smilelibtests/eval/compiler_tests.c

    The compiler of [CompileForms] run on the expressions of the repository's own
    compiler tests, against the byte code those tests expect. An operand is shown
    the way [ByteCode_ToString] does: the index, symbol or integer, and a branch
    as the address it goes to. *)

From S2P Require Import Prelude Opcode ByteCode CompiledBlock.
From S2P Require Import Object Closure Expr Compiler KnownSymbols CompileForms.
Import Operand.

(** The names of the tests start at 200. *)
#[local] Existing Instance example_env.
#[local] Existing Instance example_symbols.

(** Expressions. *)
Definition sym := ESymbol.
Definition int := EInteger64.
Fixpoint form (l : list Expr) : Expr :=
  match l with [] => ENull | e :: l => ECons e (form l) NoSource end.
Definition quote (e : Expr) := form [sym SYMBOL__QUOTE; e].
Definition set_ (v : Z) (e : Expr) := form [sym SYMBOL__SET; sym v; e].
Definition opset (op v : Z) (e : Expr) := form [sym SYMBOL__OPSET; sym op; sym v; e].
Definition method (f : Expr) (method : Z) (args : list Expr) :=
  form (form [sym SYMBOL__DOT; f; sym method] :: args).
Definition progn (l : list Expr) := form (sym SYMBOL__PROGN :: l).
Definition scope (vars : list Z) (l : list Expr) :=
  form (sym SYMBOL__SCOPE :: form (sym <$> vars) :: l).
Definition if_ (l : list Expr) := form (sym SYMBOL__IF :: l).
Definition while (l : list Expr) := form (sym SYMBOL__WHILE :: l).
Definition till (flags : list Z) (l : list Expr) :=
  form (sym SYMBOL__TILL :: form (sym <$> flags) :: l).
Definition fn (args : list Z) (body : Expr) :=
  form [sym SYMBOL__FN; form (sym <$> args); body].

Definition show_operand (pc : Z) (c : ByteCode) : Z :=
  match opcode c with
  | Op_Jmp | Op_Bt | Op_Bf => pc + get_index (u c)
  | op => get_index (u c)
  end.

Definition listing (s : ByteCodeSegment) : list (Opcode * Z) :=
  imap (fun pc c => (opcode c, show_operand (Z.of_nat pc) c)) (ByteCodeSegment_code s).

(** The code of the global function and of the functions inside it. *)
Definition compile (e : Expr) : option (list (option (list (Opcode * Z)))) :=
  match Compiler_CompileGlobal e (Compiler_Create [] None []) with
  | COk _ c =>
      if bool_decide (c_messages c = [])
      then Some ((fun f => listing <$> fn_byteCodeSegment f) <$> c_userFunctionInfos c)
      else None
  | _ => None
  end.

(** Names of the tests. *)
#[local] Notation x := 200.
#[local] Notation y := 201.
#[local] Notation plus := 210.
#[local] Notation lt := 211.
#[local] Notation gt := 212.
#[local] Notation shl := 213.
#[local] Notation minus := 214.
#[local] Notation each := 215.
#[local] Notation even := 216.
#[local] Notation done_ := 217.
#[local] Notation bar := 218.
#[local] Notation f1 := 220.
#[local] Notation f2 := 221.
#[local] Notation f3 := 222.
#[local] Notation then_side := 223.
#[local] Notation else_side := 224.

(** CanCompileNull *)
Example CanCompileNull : compile ENull = Some [Some [(Op_LdNull, 0); (Op_Ret, 0)]].
Proof. vm_compute. reflexivity. Qed.

(** CanCompileSimpleConditionals *)
Example CanCompileSimpleConditionals :
  compile (if_ [method (int 1) lt [int 10]; quote (sym then_side); quote (sym else_side)])
  = Some [Some [(Op_Ld64, 1); (Op_Ld64, 10); (Op_Met1, lt); (Op_Bf, 6); (Op_LdSym, then_side);
                (Op_Jmp, 7); (Op_LdSym, else_side); (Op_Ret, 0)]].
Proof. vm_compute. reflexivity. Qed.

(** CanCompileConditionalsWithAMeaninglessThenSide *)
Example CanCompileConditionalsWithAMeaninglessThenSide :
  compile (scope [x; y] [if_ [method (int 10) lt [int 1]; quote (sym bar); set_ x (int 20)];
                         quote (sym done_)])
  = Some [Some [(Op_NullLoc0, 0); (Op_NullLoc0, 1); (Op_Ld64, 10); (Op_Ld64, 1); (Op_Met1, lt);
                (Op_Bt, 8); (Op_Ld64, 20); (Op_StpLoc0, 0); (Op_LdSym, done_); (Op_Ret, 0)]].
Proof. vm_compute. reflexivity. Qed.

(** CanCompileAPreCondPostWhileLoop *)
Example CanCompileAPreCondPostWhileLoop :
  compile (scope [x; y] [set_ x (int 0); set_ y (int 0);
    while [opset plus x (int 1); method (sym x) lt [int 10]; opset minus y (int 1)]])
  = Some [Some [(Op_NullLoc0, 0); (Op_NullLoc0, 1); (Op_Ld64, 0); (Op_StpLoc0, 0); (Op_Ld64, 0);
                (Op_StpLoc0, 1); (Op_LdLoc0, 0); (Op_Ld64, 1); (Op_Met1, plus); (Op_StLoc0, 0);
                (Op_LdLoc0, 0); (Op_Ld64, 10); (Op_Met1, lt); (Op_Bt, 20); (Op_Pop1, 0);
                (Op_LdLoc0, 1); (Op_Ld64, 1); (Op_Met1, minus); (Op_StpLoc0, 1); (Op_Jmp, 6);
                (Op_Ret, 0)]].
Proof. vm_compute. reflexivity. Qed.

(** CanCompileAPreCondWhileLoop *)
Example CanCompileAPreCondWhileLoop :
  compile (scope [x] [set_ x (int 0);
    while [opset plus x (int 1); method (sym x) lt [int 10]; ENull]])
  = Some [Some [(Op_NullLoc0, 0); (Op_Ld64, 0); (Op_StpLoc0, 0); (Op_Jmp, 5); (Op_Pop1, 0);
                (Op_LdLoc0, 0); (Op_Ld64, 1); (Op_Met1, plus); (Op_StLoc0, 0); (Op_LdLoc0, 0);
                (Op_Ld64, 10); (Op_Met1, lt); (Op_Bt, 4); (Op_Ret, 0)]].
Proof. vm_compute. reflexivity. Qed.

(** CanCompileACondPostWhileLoop *)
Example CanCompileACondPostWhileLoop :
  compile (scope [x] [set_ x (int 0);
    while [method (sym x) lt [int 10]; opset plus x (int 1)]])
  = Some [Some [(Op_NullLoc0, 0); (Op_Ld64, 0); (Op_StpLoc0, 0); (Op_LdNull, 0); (Op_Jmp, 10);
                (Op_Pop1, 0); (Op_LdLoc0, 0); (Op_Ld64, 1); (Op_Met1, plus); (Op_StLoc0, 0);
                (Op_LdLoc0, 0); (Op_Ld64, 10); (Op_Met1, lt); (Op_Bt, 5); (Op_Ret, 0)]].
Proof. vm_compute. reflexivity. Qed.

(** CanCompileACondOnlyWhileLoop *)
Example CanCompileACondOnlyWhileLoop :
  compile (scope [x] [set_ x (int 0);
    while [method (opset plus x (int 1)) lt [int 10]; ENull]])
  = Some [Some [(Op_NullLoc0, 0); (Op_Ld64, 0); (Op_StpLoc0, 0); (Op_LdLoc0, 0); (Op_Ld64, 1);
                (Op_Met1, plus); (Op_StLoc0, 0); (Op_Ld64, 10); (Op_Met1, lt); (Op_Bt, 3);
                (Op_LdNull, 0); (Op_Ret, 0)]].
Proof. vm_compute. reflexivity. Qed.

(** CanCompileASimpleTillLoop *)
Example CanCompileASimpleTillLoop :
  compile (till [f1; f2] [progn [if_ [int 1; sym f1]; if_ [int 2; sym f2]]])
  = Some [Some [(Op_Ld64, 1); (Op_Bf, 3); (Op_Jmp, 7); (Op_Ld64, 2); (Op_Bf, 6); (Op_Jmp, 7);
                (Op_Jmp, 0); (Op_LdNull, 0); (Op_Ret, 0)]].
Proof. vm_compute. reflexivity. Qed.

(** CanCompileATillLoopWithWhenClauses *)
Example CanCompileATillLoopWithWhenClauses :
  compile (scope [x; y] [set_ x (int 1);
    till [f1; f2]
      [progn [if_ [method (sym x) gt [int 255]; sym f1; if_ [method (sym x) gt [int 511]; sym f2]];
              opset shl x (int 1)];
       form [form [sym f1; set_ y (int 1)]; form [sym f2; set_ y (int 2)]]]])
  = Some [Some [(Op_NullLoc0, 0); (Op_NullLoc0, 1); (Op_Ld64, 1); (Op_StpLoc0, 0); (Op_LdLoc0, 0);
                (Op_Ld64, 255); (Op_Met1, gt); (Op_Bf, 9); (Op_Jmp, 19); (Op_LdLoc0, 0);
                (Op_Ld64, 511); (Op_Met1, gt); (Op_Bf, 14); (Op_Jmp, 22); (Op_LdLoc0, 0);
                (Op_Ld64, 1); (Op_Met1, shl); (Op_StpLoc0, 0); (Op_Jmp, 4); (Op_Ld64, 1);
                (Op_StLoc0, 1); (Op_Jmp, 24); (Op_Ld64, 2); (Op_StLoc0, 1); (Op_Ret, 0)]].
Proof. vm_compute. reflexivity. Qed.

(** CanCompileATillLoopToEscapeNestedFunctions *)
Example CanCompileATillLoopToEscapeNestedFunctions :
  compile (scope [x] [set_ x (quote (form [int 1; int 2; int 3; int 4; int 5]));
    till [f1; f2; f3]
      [method (sym x) each [fn [y] (if_ [method (sym y) even []; sym f2])]]])
  = Some [Some [(Op_NullLoc0, 0); (Op_LdObj, 0); (Op_StpLoc0, 0); (Op_NewTill, 0); (Op_StpLoc0, 1);
                (Op_LdLoc0, 0); (Op_NewFn, 0); (Op_Met1, each); (Op_Pop1, 0); (Op_Jmp, 5);
                (Op_LdLoc0, 1); (Op_EndTill, 0); (Op_LdNull, 0); (Op_Ret, 0)];
          Some [(Op_LdArg0, 0); (Op_Met0, even); (Op_Bf, 5); (Op_LdLoc1, 1); (Op_TillEsc, 1);
                (Op_LdNull, 0); (Op_Ret, 0)]].
Proof. vm_compute. reflexivity. Qed.
