(* ===== verification/CompilerInvariant.v ===== *)
(** * CompilerInvariant: the discipline of the compiler

    The invariant of the compiler's state, how the state may evolve, and the
    proof rules for computations that keep to both; the primitives of
    [Compiler] and the variable accesses of [CompileForms] do. *)

From S2P Require Import Prelude Opcode ByteCode CompiledBlock.
From S2P Require Import Object Closure Expr Compiler KnownSymbols CompileForms.
From stdpp Require Import strings.
Import Operand.
#[local] Open Scope Z_scope.

(** ** How the state evolves *)

(** The objects of a store stay, with the same immutable part. *)
Definition keeps {A B} (static : A -> B) (l l' : list A) : Prop :=
  forall p x, l !! p = Some x -> exists x', l' !! p = Some x' /\ static x' = static x.

Record grows (c c' : Compiler) : Prop := {
  g_messages : exists l, c_messages c' = c_messages c ++ l;
  g_functions : keeps (fun f => (cf_parent f, cf_functionDepth f, cf_closureInfo f))
                  (c_functions c) (c_functions c');
  g_scopes : keeps (fun s => (sc_parent s, sc_kind s, sc_function s)) (c_scopes c) (c_scopes c');
  g_localSymbols : keeps (fun s => (ls_symbol s, ls_index s, ls_scope s))
                     (c_localSymbols c) (c_localSymbols c');
  g_userFunctionInfos : keeps (fun u => (fn_parent u, fn_argInfo u, fn_argList u, fn_body u))
                          (c_userFunctionInfos c) (c_userFunctionInfos c');
  g_nextId : (c_nextId c <= c_nextId c')%nat
}.

(** Bracketing: same function, and the same scope if no message was added. *)
Record ext (c c' : Compiler) : Prop := {
  e_grows : grows c c';
  e_currentFunction : c_currentFunction c' = c_currentFunction c;
  e_currentScope : c_messages c' = c_messages c -> c_currentScope c' = c_currentScope c
}.

(** A segment the assembler made from a block of real instructions. *)
Definition assembled (segment : ByteCodeSegment) : Prop :=
  exists b b', block_wf b = true /\ CompiledBlock_Finish b 0 false = Some (segment, b').

(** The depth of the function a scope is declared in, at most [d]. *)
Definition scope_depth_le (c : Compiler) (s : CompileScope) (d : Z) : Prop :=
  forall p f, sc_function s = Some p -> c_functions c !! p = Some f -> cf_functionDepth f <= d.

(** The scopes from [scope] outwards. *)
Inductive reaches (scopes : list CompileScope) : option nat -> CompileScope -> Prop :=
  | reaches_here p s : scopes !! p = Some s -> reaches scopes (Some p) s
  | reaches_outer p s t :
      scopes !! p = Some s -> reaches scopes (sc_parent s) t -> reaches scopes (Some p) t.

(** The last two clauses are about error-free compiles: an error in the
    variables of a [$scope] leaves that scope open. *)
Record wf (c : Compiler) : Prop := {
  w_functions : forall p f, c_functions c !! p = Some f ->
    match cf_parent f with
    | None => cf_functionDepth f = 0
    | Some q => (q < p)%nat /\ exists g, c_functions c !! q = Some g
                                  /\ cf_functionDepth f = cf_functionDepth g + 1
    end;
  w_scopes : forall p s q, c_scopes c !! p = Some s -> sc_parent s = Some q -> (q < p)%nat;
  w_currentScope : forall p, c_currentScope c = Some p -> (p < length (c_scopes c))%nat;
  w_symbols : forall q s x p, c_scopes c !! q = Some s -> sc_symbolDict s !! x = Some p ->
    exists ls, c_localSymbols c !! p = Some ls /\ ls_scope ls = q;
  w_scope_functions : forall p s q, c_scopes c !! p = Some s -> sc_function s = Some q ->
    (q < length (c_functions c))%nat;
  w_currentFunction : forall p, c_currentFunction c = Some p -> (p < length (c_functions c))%nat;
  w_depth : c_messages c = [] -> forall s, reaches (c_scopes c) (c_currentScope c) s ->
    match c_currentFunction c with
    | Some p => forall f, c_functions c !! p = Some f -> scope_depth_le c s (cf_functionDepth f)
    | None => sc_function s = None
    end;
  w_segments : c_messages c = [] -> forall p u segment, c_userFunctionInfos c !! p = Some u ->
    fn_byteCodeSegment u = Some segment -> assembled segment
}.

(** [m] keeps the invariant, evolves as described, is never cut short, and
    answers something satisfying [Q] unless an error was reported. *)
Definition sound {A} (m : M A) (Q : A -> Prop) : Prop :=
  forall c, wf c ->
  match m c with
  | COk x c' => wf c' /\ ext c c' /\ (c_messages c' = [] -> Q x)
  | CFuel => False
  | _ => True
  end.

(** *** The relations are preorders *)

Lemma keeps_refl {A B} (st : A -> B) l : keeps st l l.
Proof. intros p x H. eauto. Qed.

Lemma keeps_trans {A B} (st : A -> B) l1 l2 l3 : keeps st l1 l2 -> keeps st l2 l3 -> keeps st l1 l3.
Proof.
  intros H12 H23 p x H. destruct (H12 p x H) as (y & Hy & E).
  destruct (H23 p y Hy) as (z & Hz & E'). exists z. split; [done|]. congruence.
Qed.

Lemma keeps_app {A B} (st : A -> B) l k : keeps st l (l ++ k).
Proof. intros p x H. exists x. split; [|done]. by apply lookup_app_l_Some. Qed.

Lemma keeps_alter {A B} (st : A -> B) f p l :
  (forall x, st (f x) = st x) -> keeps st l (alter f p l).
Proof.
  intros Hf q x H. destruct (decide (p = q)) as [->|].
  - exists (f x). by rewrite list_lookup_alter_eq, H.
  - exists x. by rewrite list_lookup_alter_ne.
Qed.

Lemma keeps_length {A B} (st : A -> B) l l' : keeps st l l' -> (length l <= length l')%nat.
Proof.
  intros H. destruct (decide (length l' < length l)%nat) as [Hlt|]; [|lia].
  apply lookup_lt_is_Some in Hlt as [x Hx]. destruct (H _ _ Hx) as (y & Hy & _).
  apply lookup_lt_Some in Hy. lia.
Qed.

#[local] Hint Resolve keeps_refl keeps_app : frame.

Lemma grows_refl c : grows c c.
Proof. split; auto with frame. exists []. by rewrite app_nil_r. Qed.

Lemma grows_trans c1 c2 c3 : grows c1 c2 -> grows c2 c3 -> grows c1 c3.
Proof.
  intros [[l1 M1] F1 S1 L1 U1 N1] [[l2 M2] F2 S2 L2 U2 N2].
  split; try (eapply keeps_trans; eassumption); [|lia].
  exists (l1 ++ l2). by rewrite M2, M1, app_assoc.
Qed.

Lemma ext_refl c : ext c c.
Proof. split; [apply grows_refl|done..]. Qed.

(** Messages are never taken back. *)
Lemma grows_no_messages c c' : grows c c' -> c_messages c' = [] -> c_messages c = [].
Proof. intros [[l E] _ _ _ _ _] H. rewrite H in E. by apply eq_sym, app_eq_nil in E as [-> _]. Qed.

Lemma grows_same_messages c1 c2 c3 :
  grows c1 c2 -> grows c2 c3 -> c_messages c3 = c_messages c1 ->
  c_messages c2 = c_messages c1 /\ c_messages c3 = c_messages c2.
Proof.
  intros [[l1 M1] _ _ _ _ _] [[l2 M2] _ _ _ _ _] H.
  rewrite M2, M1, <- app_assoc in H.
  assert (l1 ++ l2 = []) as E.
  { apply (app_inv_head (c_messages c1)). by rewrite app_nil_r. }
  apply app_eq_nil in E as [-> ->]. rewrite app_nil_r in *. by rewrite M2.
Qed.

Lemma ext_trans c1 c2 c3 : ext c1 c2 -> ext c2 c3 -> ext c1 c3.
Proof.
  intros [G1 F1 S1] [G2 F2 S2]. split; [by eapply grows_trans|congruence|].
  intros H. destruct (grows_same_messages _ _ _ G1 G2 H) as [H1 H2].
  rewrite S2, S1; done.
Qed.

(** *** Sound computations compose *)

Lemma sound_weaken {A} (m : M A) (Q Q' : A -> Prop) :
  sound m Q -> (forall x, Q x -> Q' x) -> sound m Q'.
Proof.
  intros Hm HQ c W. specialize (Hm c W). destruct (m c); try done.
  destruct Hm as (? & ? & ?). auto.
Qed.

Lemma sound_ret {A} (x : A) (Q : A -> Prop) : Q x -> sound (mret x) Q.
Proof. intros HQ c W. simpl. auto using ext_refl. Qed.

Lemma sound_bind {A B} (m : M A) (f : A -> M B) (Q1 : A -> Prop) (Q2 : B -> Prop) :
  sound m Q1 -> (forall x, sound (f x) (fun y => Q1 x -> Q2 y)) -> sound (m ≫= f) Q2.
Proof.
  intros Hm Hf c W. specialize (Hm c W). unfold mbind, M_bind.
  destruct (m c) as [x c1| | |]; try done. destruct Hm as (W1 & X1 & H1).
  specialize (Hf x c1 W1). destruct (f x c1) as [y c2| | |]; try done.
  destruct Hf as (W2 & X2 & H2). split; [done|]. split; [by eapply ext_trans|].
  intros H. apply H2; [done|]. apply H1. exact (grows_no_messages _ _ (e_grows _ _ X2) H).
Qed.

Lemma sound_get {A} (f : Compiler -> A) (Q : A -> Prop) : (forall x, Q x) -> sound (get f) Q.
Proof. intros HQ c W. simpl. auto using ext_refl. Qed.

Lemma sound_need {A} (o : option A) (Q : A -> Prop) :
  (forall x, o = Some x -> Q x) -> sound (need o) Q.
Proof. intros HQ c W. destruct o; simpl; auto using ext_refl. Qed.

Lemma sound_need_bind {A B} (o : option A) (f : A -> M B) (Q : B -> Prop) :
  (forall x, o = Some x -> sound (f x) Q) -> sound (need o ≫= f) Q.
Proof. intros H c W. unfold mbind, M_bind. destruct o; simpl; [by apply H|done]. Qed.

Lemma sound_abort {A} s (Q : A -> Prop) : sound (abort s) Q.
Proof. done. Qed.

Lemma sound_assert b (Q : unit -> Prop) : Q tt -> sound (assert b) Q.
Proof. intros HQ c W. destruct b; simpl; auto using ext_refl. Qed.

(** A state change that keeps the invariant and is an extension. *)
Definition inert (u : Compiler -> Compiler) : Prop := forall c, wf c -> wf (u c) /\ ext c (u c).

Lemma sound_modify u (Q : unit -> Prop) : inert u -> Q tt -> sound (modify u) Q.
Proof. intros Hu HQ c W. simpl. destruct (Hu c W). auto. Qed.

(** *** Primitive state changes *)

(** The parts of the state the invariant does not read. *)
Ltac solve_inert :=
  intros c [? ? ? ? ? ? ? ?]; split; [by split|];
  split; [split; simpl; auto with frame; try lia; exists []; by rewrite app_nil_r|done..].

Lemma inert_tables f : inert (upd_c_tables f).
Proof. solve_inert. Qed.
Lemma inert_closureInfos f : inert (upd_c_closureInfos f).
Proof. solve_inert. Qed.
Lemma inert_tillInfos f : inert (upd_c_tillInfos f).
Proof. solve_inert. Qed.
Lemma inert_modules f : inert (upd_c_modules f).
Proof. solve_inert. Qed.
Lemma inert_nextId : inert (upd_c_nextId S).
Proof. solve_inert. Qed.

#[local] Hint Resolve inert_tables inert_closureInfos inert_tillInfos inert_modules inert_nextId
  : frame.

(** Changing the mutable part of a symbol. *)
Definition symbol_update (f : CompiledLocalSymbol -> CompiledLocalSymbol) : Prop :=
  forall s, (ls_symbol (f s), ls_index (f s), ls_scope (f s)) = (ls_symbol s, ls_index s, ls_scope s).

Lemma inert_symbol f p : symbol_update f -> inert (upd_c_localSymbols (alter f p)).
Proof.
  intros Hf c [? ? ? Wy ? ? ? ?]. split.
  - split; try done. intros q s x r Hq Hx. destruct (Wy q s x r Hq Hx) as (ls & Hls & E).
    destruct (keeps_alter _ f p _ Hf r ls Hls) as (ls' & Hls' & [= ? ? E']).
    exists ls'. split; [done|congruence].
  - split; [split; simpl; auto with frame|done..].
    + exists []; by rewrite app_nil_r.
    + by apply keeps_alter.
Qed.

Lemma inert_message m : inert (upd_c_messages (fun l => l ++ [m])).
Proof.
  intros c [? ? ? ? ? ? ? ?]. split.
  - split; simpl; try done; intros H; by apply app_eq_nil in H as [_ H].
  - split; [split; simpl; auto with frame; eauto|done..].
Qed.
#[local] Hint Resolve inert_message : frame.

(** What the invariant reads of a function and of a scope is immutable. *)
Definition function_update (f : CompilerFunction -> CompilerFunction) : Prop :=
  forall g, (cf_parent (f g), cf_functionDepth (f g), cf_closureInfo (f g))
            = (cf_parent g, cf_functionDepth g, cf_closureInfo g).

Lemma lookup_alter_inv {A B} (st : A -> B) (f : A -> A) (p : nat) (l : list A) (q : nat) y :
  (forall x, st (f x) = st x) -> alter f p l !! q = Some y ->
  exists x, l !! q = Some x /\ st y = st x.
Proof.
  intros Hf H. destruct (decide (p = q)) as [->|].
  - rewrite list_lookup_alter_eq in H. destruct (l !! q) as [x|]; [|done].
    injection H as <-. eauto.
  - rewrite list_lookup_alter_ne in H by done. eauto.
Qed.

Lemma inert_function f p : function_update f -> inert (upd_c_functions (alter f p)).
Proof.
  intros Hf c [W1 W2 W3 Wy W4 W5 W6 W7]. split.
  - split; simpl; try done.
    + intros q g H. destruct (lookup_alter_inv _ _ _ _ _ _ Hf H) as (x & Hx & [= E1 E2 E3]).
      specialize (W1 q x Hx). rewrite E1, E2. destruct (cf_parent x) as [r|]; [|done].
      destruct W1 as (? & h & Hh & ?). split; [done|].
      destruct (keeps_alter _ f p _ Hf r h Hh) as (h' & Hh' & [= ? E ?]). exists h'.
      split; [done|]. by rewrite E.
    + intros q s r Hq Hr. rewrite length_alter. eauto.
    + intros q Hq. rewrite length_alter. eauto.
    + intros Hm s Hs. specialize (W6 Hm s Hs). destruct (c_currentFunction c); [|done].
      intros g Hg r h Hr Hh.
      destruct (lookup_alter_inv _ _ _ _ _ _ Hf Hg) as (x & Hx & [= ? E ?]).
      destruct (lookup_alter_inv _ _ _ _ _ _ Hf Hh) as (y & Hy & [= ? E' ?]).
      rewrite E, E'. exact (W6 x Hx r y Hr Hy).
  - split; [split; simpl; auto with frame|done..].
    + exists []; by rewrite app_nil_r.
    + by apply keeps_alter.
Qed.

Definition scope_update (f : CompileScope -> CompileScope) : Prop :=
  forall s, (sc_parent (f s), sc_kind (f s), sc_function (f s))
            = (sc_parent s, sc_kind s, sc_function s).

Lemma reaches_alter f p scopes o s :
  scope_update f -> reaches (alter f p scopes) o s ->
  exists t, reaches scopes o t /\ sc_function s = sc_function t.
Proof.
  intros Hf H. induction H as [q s H|q s t H Hr IH].
  - destruct (lookup_alter_inv _ _ _ _ _ _ Hf H) as (x & Hx & [= ? ? ?]).
    exists x. split; [by apply reaches_here|done].
  - destruct (lookup_alter_inv _ _ _ _ _ _ Hf H) as (x & Hx & [= E ? ?]).
    destruct IH as (u & Hu & ?). rewrite E in Hu.
    exists u. split; [by apply (reaches_outer _ _ x)|done].
Qed.

(** Declaring a symbol: the new object, and the entry of the scope. *)
Definition define (scope : nat) (symbol : Symbol) (ls : CompiledLocalSymbol) (c : Compiler)
  : Compiler :=
  upd_c_scopes (alter (fun s =>
    mkScope (sc_parent s) (<[symbol := length (c_localSymbols c)]> (sc_symbolDict s)) (sc_kind s)
      (sc_function s)) scope) (upd_c_localSymbols (fun l => l ++ [ls]) c).

Lemma inert_define scope symbol ls : ls_scope ls = scope -> inert (define scope symbol ls).
Proof.
  intros Hls c [W1 W2 W3 Wy W4 W5 W6 W7]. unfold define.
  set (f := fun s => mkScope _ _ _ _). assert (Hf : scope_update f) by done.
  split.
  - split; simpl; try done.
    + intros q s r H Hr. destruct (lookup_alter_inv _ _ _ _ _ _ Hf H) as (x & Hx & [= E ? ?]).
      rewrite E in Hr. eauto.
    + intros q Hq. rewrite length_alter. eauto.
    + intros q s x r H Hr. destruct (decide (scope = q)) as [->|Hne].
      * rewrite list_lookup_alter_eq in H. destruct (c_scopes c !! q) as [t|] eqn:Et; [|done].
        injection H as <-. simpl in Hr.
        apply lookup_insert_Some in Hr as [[<- <-]|[_ Hr]].
        -- exists ls. split; [by apply list_lookup_middle|done].
        -- destruct (Wy q t x r Et Hr) as (ls' & ? & ?). exists ls'.
           split; [by apply lookup_app_l_Some|done].
      * rewrite list_lookup_alter_ne in H by done.
        destruct (Wy q s x r H Hr) as (ls' & ? & ?). exists ls'.
        split; [by apply lookup_app_l_Some|done].
    + intros q s r H Hr. destruct (lookup_alter_inv _ _ _ _ _ _ Hf H) as (x & Hx & [= ? ? E]).
      rewrite E in Hr. eauto.
    + intros Hm s Hs. destruct (reaches_alter _ _ _ _ _ Hf Hs) as (t & Ht & E).
      specialize (W6 Hm t Ht). unfold scope_depth_le in *. by rewrite E.
  - split; [split; simpl; auto with frame|done..].
    + exists []; by rewrite app_nil_r.
    + by apply keeps_alter.
Qed.

(** A new description has no segment yet; finishing one stores an assembled
    segment. *)
Lemma inert_new_info u :
  fn_byteCodeSegment u = None -> inert (upd_c_userFunctionInfos (fun l => l ++ [u])).
Proof.
  intros Hu c [W1 W2 W3 Wy W4 W5 W6 W7]. split.
  - split; simpl; try done. intros Hm p v seg Hv Hs.
    apply lookup_app_Some in Hv as [Hv|[_ Hv]]; [eauto|].
    apply list_lookup_singleton_Some in Hv as [_ <-]. congruence.
  - split; [split; simpl; auto with frame; exists []; by rewrite app_nil_r|done..].
Qed.

Lemma finished_ok segment info p c :
  wf c -> (c_messages c = [] -> assembled segment) ->
  let c' := upd_c_userFunctionInfos (alter (set_finished segment info) p) c in wf c' /\ ext c c'.
Proof.
  intros [W1 W2 W3 Wy W4 W5 W6 W7] Hu. split.
  - split; simpl; try done. intros Hm q v seg Hv Hs.
    destruct (decide (p = q)) as [->|].
    + rewrite list_lookup_alter_eq in Hv. destruct (_ !! q); [|done]. injection Hv as <-.
      injection Hs as <-. auto.
    + rewrite list_lookup_alter_ne in Hv by done. eauto.
  - split; [split; simpl; auto with frame|done..].
    + exists []; by rewrite app_nil_r.
    + by apply keeps_alter.
Qed.

(** ** Blocks of real instructions *)

(** What a block may contain: machine instructions and labels. *)
Definition real (op : Opcode) : bool := negb (isPseudo op) || isLabel op.

Lemma block_wf_any l n m d e r n' m' d' e' r' :
  block_wf (Block l n m d e r) = block_wf (Block l n' m' d' e' r').
Proof. done. Qed.

Lemma block_wf_leaves b : block_wf b = block_wf (leaves (instrs b)).
Proof. by destruct b. Qed.

Lemma block_wf_instrs b b' : instrs b = instrs b' -> block_wf b' = true -> block_wf b = true.
Proof. intros H Hb. by rewrite (block_wf_leaves b), H, <- block_wf_leaves. Qed.

Lemma AttachLast_instrs b i : instrs (CompiledBlock_AttachLast b i) = instrs b ++ [i].
Proof. by destruct b. Qed.

Lemma block_wf_snoc b i :
  block_wf b = true -> block_wf (leaves [i]) = true -> block_wf (CompiledBlock_AttachLast b i) = true.
Proof.
  intros Hb Hi. rewrite block_wf_leaves, AttachLast_instrs, block_wf_app, Hi.
  by rewrite <- block_wf_leaves, Hb.
Qed.

Lemma block_wf_Emit b id op delta loc u t :
  block_wf b = true -> real op = true ->
  block_wf (CompiledBlock_Emit b id op delta loc u t) = true.
Proof.
  intros Hb Hop. apply (block_wf_instrs _ (CompiledBlock_AttachLast b (Instr id op (wrapU 32 loc) u t 0))).
  - unfold CompiledBlock_Emit. destruct b. simpl. by case_match.
  - apply block_wf_snoc; [done|]. simpl. unfold real in Hop. by rewrite Hop.
Qed.

Lemma block_wf_AttachLast b id op :
  block_wf b = true -> real op = true -> block_wf (AttachLast b id op) = true.
Proof. intros. apply block_wf_snoc; [done|]. simpl. unfold real in *. by rewrite H0. Qed.

Lemma AppendChild_instrs b id c :
  instrs (fst (CompiledBlock_AppendChild b id c))
  = match instrs c with [] => instrs b | _ => instrs b ++ [BlockInstr id 0 zero c 0] end.
Proof.
  unfold CompiledBlock_AppendChild. destruct b, c as [[|i l]]; simpl; [done|]. by repeat case_match.
Qed.

Lemma block_wf_AppendChild b id c :
  block_wf b = true -> block_wf c = true ->
  block_wf (fst (CompiledBlock_AppendChild b id c)) = true.
Proof.
  intros Hb Hc. rewrite block_wf_leaves, AppendChild_instrs.
  rewrite block_wf_leaves in Hb. destruct (instrs c); [done|].
  rewrite block_wf_app, Hb. simpl. by rewrite Hc.
Qed.

Lemma block_wf_Combine b b' :
  block_wf b = true -> block_wf b' = true -> block_wf (CompiledBlock_Combine b b') = true.
Proof.
  intros Hb Hb'. unfold CompiledBlock_Combine.
  assert (H : block_wf (leaves (instrs b ++ instrs b')) = true)
    by (rewrite block_wf_app, <- !block_wf_leaves, Hb, Hb'; done).
  destruct (instrs b') eqn:E'; [done|]. destruct (instrs b) eqn:E; [done|]. exact H.
Qed.

Lemma block_wf_take_drop b k i :
  block_wf b = true -> block_wf (leaves i) = true ->
  block_wf (leaves (take k (instrs b) ++ i ++ drop k (instrs b))) = true.
Proof.
  intros Hb Hi. rewrite block_wf_leaves, <- (take_drop k (instrs b)), block_wf_app in Hb.
  apply andb_prop in Hb as [H1 H2]. by rewrite !block_wf_app, H1, H2, Hi.
Qed.

Lemma block_wf_Attach b p i b' :
  block_wf b = true -> block_wf (leaves [i]) = true ->
  CompiledBlock_AttachInstruction b p i = Some b' -> block_wf b' = true.
Proof.
  intros Hb Hi H. unfold CompiledBlock_AttachInstruction in H.
  apply bind_Some in H as (k & _ & [= <-]).
  rewrite block_wf_leaves. destruct b as [l n m d e r].
  exact (block_wf_take_drop (Block l n m d e r) k [i] Hb Hi).
Qed.

Lemma block_wf_Detach b id b' :
  block_wf b = true -> CompiledBlock_DetachInstruction b id = Some b' -> block_wf b' = true.
Proof.
  intros Hb H. unfold CompiledBlock_DetachInstruction in H.
  apply bind_Some in H as (k & _ & [= <-]).
  rewrite block_wf_leaves in *. destruct b as [l n m d e r]. cbn [instrs set_instrs set_numInstructions] in *.
  rewrite <- (take_drop k l), block_wf_app in Hb. apply andb_prop in Hb as [H1 H2].
  rewrite block_wf_app, H1.
  destruct (drop k l) as [|i l'] eqn:E; [apply skipn_all_iff in E; rewrite drop_ge; [done|lia]|].
  replace (drop (S k) l) with l'; [|by rewrite <- Nat.add_1_r, <- drop_drop, E].
  change (i :: l') with ([i] ++ l') in H2. rewrite block_wf_app in H2.
  by apply andb_prop in H2 as [_ H2].
Qed.

(** The answers a form can give. *)
Class Post (A : Type) := post : A -> Prop.
#[export] Instance Post_default A : Post A | 100 := fun _ => True.
#[export] Instance Post_block : Post CompiledBlock := fun b => block_wf b = true.
#[export] Instance Post_segment : Post ByteCodeSegment := assembled.
#[export] Instance Post_prod A B `{Post A, Post B} : Post (A * B) :=
  fun p => post (fst p) /\ post (snd p).
#[export] Instance Post_option : Post (option CompiledBlock) :=
  fun o => match o with Some b => post b | None => True end.
#[export] Instance Post_pairs : Post (option (CompiledBlock * Z)) :=
  fun o => match o with Some p => post p | None => True end.

(** [m] is sound, and its answer is as above if [G] holds: the facts known of
    the answers before it. *)
Definition good {A} `{Post A} (G : Prop) (m : M A) : Prop := sound m (fun x => G -> post x).

Lemma good_bind {A B} `{Post A, Post B} (G : Prop) (m : M A) (f : A -> M B) :
  good G m -> (forall x, good (G /\ post x) (f x)) -> good G (m ≫= f).
Proof.
  intros Hm Hf. eapply sound_bind; [exact Hm|]. intros x.
  eapply sound_weaken; [apply Hf|]. simpl. tauto.
Qed.

Lemma good_need_bind {A B} `{Post B} (G : Prop) (o : option A) (f : A -> M B) :
  (forall x, o = Some x -> good G (f x)) -> good G (need o ≫= f).
Proof. apply sound_need_bind. Qed.

Lemma good_ret {A} `{Post A} (G : Prop) (x : A) : (G -> post x) -> good G (mret x).
Proof. exact (sound_ret x (fun x => G -> post x)). Qed.

Lemma good_mono {A} `{Post A} (G G' : Prop) (m : M A) : (G' -> G) -> good G m -> good G' m.
Proof. intros HG Hm. eapply sound_weaken; [exact Hm|]. simpl. auto. Qed.

(** Lemmas are found by the head of the computation, nothing is unfolded. *)
Create HintDb good discriminated.
#[export] Hint Constants Opaque : good.
#[export] Hint Variables Opaque : good.

Lemma good_trivial {A} (G : Prop) (m : M A) : sound m (fun _ => True) -> @good A (Post_default A) G m.
Proof. intros Hm. eapply sound_weaken; [exact Hm|done]. Qed.

Lemma good_get {A} (G : Prop) (f : Compiler -> A) : good G (get f).
Proof. by apply good_trivial, sound_get. Qed.

Lemma good_modify (G : Prop) u : inert u -> good G (modify u).
Proof. intros. by apply good_trivial, sound_modify. Qed.

Lemma good_abort {A} `{Post A} (G : Prop) s : good G (abort s : M A).
Proof. done. Qed.

Lemma good_need {A} `{Post A} (G : Prop) (o : option A) :
  (forall x, G -> o = Some x -> post x) -> good G (need o).
Proof. intros Ho. apply sound_need. eauto. Qed.

(** Computations whose answer nothing depends on. *)
Lemma good_assert (G : Prop) b : good G (assert b).
Proof. by apply good_trivial, sound_assert. Qed.

#[export] Hint Resolve good_get good_modify good_abort good_assert : good.

(** Facts about blocks. *)
Create HintDb bwf.
#[export] Hint Resolve block_wf_Emit block_wf_AttachLast block_wf_AppendChild block_wf_Combine : bwf.

Lemma block_wf_set_delta b d : block_wf b = true -> block_wf (set_finalStackDelta d b) = true.
Proof. by destruct b. Qed.
Lemma block_wf_set_escape b e : block_wf b = true -> block_wf (set_flagEscape e b) = true.
Proof. by destruct b. Qed.
Lemma block_wf_set_error b e : block_wf b = true -> block_wf (set_flagError e b) = true.
Proof. by destruct b. Qed.
Lemma block_wf_adjust b r n : block_wf b = true -> block_wf (adjust_delta r n b) = true.
Proof. destruct r; [done|]. apply block_wf_set_delta. Qed.
Lemma block_wf_Create : block_wf CompiledBlock_Create = true.
Proof. done. Qed.
Lemma block_wf_CreateError : block_wf CompiledBlock_CreateError = true.
Proof. done. Qed.
Lemma block_wf_If (c : bool) b b' :
  block_wf b = true -> block_wf b' = true -> block_wf (if c then b else b') = true.
Proof. by destruct c. Qed.
#[export] Hint Resolve block_wf_set_delta block_wf_set_escape block_wf_set_error block_wf_adjust
  block_wf_Create block_wf_CreateError block_wf_If : bwf.

(** Discharge a claim about an answer from the answers before it. *)
Ltac good_post :=
  intros;
  repeat progress
    unfold post, Post_default, Post_block, Post_segment, Post_prod, Post_option, Post_pairs in *;
  repeat match goal with H : _ /\ _ |- _ => destruct H end; simpl fst in *; simpl snd in *;
  repeat match goal with |- _ /\ _ => split end;
  try done; try (solve [eauto with bwf nocore]); try (solve [eauto 10 with bwf]).

(** One step into a computation. *)
Ltac good_step :=
  match goal with
  | |- good _ (let '_ := ?p in _) => destruct p eqn:?
  | |- good _ (need _ ≫= _) => apply good_need_bind; intros ? ?
  | |- good _ (_ ≫= _) => apply good_bind; [|intros ?]
  | |- good _ (mret _) => apply good_ret; good_post
  | |- good _ (match ?x with _ => _ end) => destruct x eqn:?
  | |- good _ _ => solve [eauto 4 with good nocore]
  end.
Ltac good := repeat good_step.

Section Primitives.
Context {E : CompilerEnv}.

Lemma good_load {A} `{Post A} (G : Prop) (st : Compiler -> list A) p :
  (forall x, post x) -> good G (load st p).
Proof.
  intros Hp. unfold load. apply (good_bind (H := Post_default _)); [apply good_get|].
  intros. by apply good_need.
Qed.

Lemma good_load_trivial {A} (G : Prop) (st : Compiler -> list A) p :
  @good A (Post_default A) G (load st p).
Proof. by apply good_load. Qed.
#[local] Hint Resolve good_load_trivial : good.

Lemma good_update {A} (G : Prop) upd p (f : A -> A) : inert (upd (alter f p)) -> good G (update upd p f).
Proof. intros. by apply good_modify. Qed.

Lemma good_allocate {A} (G : Prop) st upd (x : A) :
  inert (upd (fun l => l ++ [x])) -> good G (allocate st upd x).
Proof. intros. unfold allocate. good. Qed.

Lemma good_currentFunction (G : Prop) : good G currentFunction.
Proof. unfold currentFunction. good. by apply good_need. Qed.
#[local] Hint Resolve good_currentFunction : good.

Lemma good_current (G : Prop) : good G current.
Proof. unfold current. good. Qed.

Lemma good_update_current (G : Prop) f : function_update f -> good G (update_current f).
Proof. intros. unfold update_current. good. apply good_update. by apply inert_function. Qed.

Lemma good_message (G : Prop) m : good G (Compiler_AddMessage m).
Proof. apply good_modify. apply inert_message. Qed.

Lemma good_mark (G : Prop) p f : symbol_update f -> good G (mark p f).
Proof. intros. by apply good_update, inert_symbol. Qed.
End Primitives.

#[export] Hint Resolve good_load_trivial good_currentFunction good_current good_message
  good_update_current good_mark good_update good_allocate : good.
#[export] Hint Resolve inert_tables inert_closureInfos inert_tillInfos inert_modules inert_nextId
  inert_message inert_symbol inert_function inert_new_info : good.
#[export] Hint Extern 1 (fn_byteCodeSegment _ = None) => reflexivity : good.
#[export] Hint Extern 1 (function_update _) => intros ?; reflexivity : good.
#[export] Hint Extern 1 (symbol_update _) => intros ?; by repeat case_match : good.
#[export] Hint Extern 1 (real _ = true) => reflexivity : good bwf.

(** *** compiler.c *)

Section Bookkeeping.
Context {E : CompilerEnv}.
Implicit Types (G : Prop).

Lemma good_AddUserFunctionInfo G p : good G (Compiler_AddUserFunctionInfo p).
Proof. unfold Compiler_AddUserFunctionInfo. good. Qed.
Lemma good_AddObject G e : good G (Compiler_AddObject e).
Proof. unfold Compiler_AddObject. good. Qed.
Lemma good_AddString G s : good G (Compiler_AddString s).
Proof. unfold Compiler_AddString. good. Qed.
Lemma good_AddTill G p : good G (Compiler_AddTillContinuationInfo p).
Proof. unfold Compiler_AddTillContinuationInfo. good. Qed.
Lemma good_AddNewSourceLocation G f l c a : good G (Compiler_AddNewSourceLocation f l c a).
Proof. unfold Compiler_AddNewSourceLocation. good. Qed.
Lemma good_currentSourceLocation G : good G currentSourceLocation.
Proof. unfold currentSourceLocation. good. Qed.
Lemma good_Revert G n : good G (Compiler_RevertSourceLocation n).
Proof. unfold Compiler_RevertSourceLocation. good. Qed.
#[local] Hint Resolve good_AddNewSourceLocation good_currentSourceLocation good_Revert : good.
Lemma good_SetSourceLocation G p : good G (Compiler_SetSourceLocation p).
Proof. unfold Compiler_SetSourceLocation. good. Qed.
#[local] Hint Resolve good_SetSourceLocation : good.
Lemma good_SetAssignedSymbol G s : good G (Compiler_SetAssignedSymbol s).
Proof. unfold Compiler_SetAssignedSymbol. good. Qed.
Lemma good_SetSourceLocationFromList G e : good G (Compiler_SetSourceLocationFromList e).
Proof. unfold Compiler_SetSourceLocationFromList. good. Qed.
Lemma good_AddLocal G s : good G (CompilerFunction_AddLocal s).
Proof. unfold CompilerFunction_AddLocal. good. Qed.
Lemma good_UserFunctionInfo_Create G p a b : good G (UserFunctionInfo_Create p a b).
Proof. unfold UserFunctionInfo_Create. good. Qed.
Lemma good_SetupClosureInfo G p : good G (Compiler_SetupClosureInfoForCompilerFunction p).
Proof. unfold Compiler_SetupClosureInfoForCompilerFunction. good. Qed.
Lemma good_ResolveTills G env l : good G (Compiler_ResolveTillBranchTargets env l).
Proof. revert G. induction l as [|o l IH]; intros G; simpl; good. Qed.
Lemma good_DefineSymbol G s x k i : good G (CompileScope_DefineSymbol s x k i).
Proof.
  intros c W. destruct (inert_define s x (mkLocalSymbol x k i false false false false s 0 None) eq_refl c W)
    as [W' X']. simpl. split; [exact W'|]. split; [exact X'|done].
Qed.
Lemma good_FindSymbol G s x : good G (CompileScope_FindSymbol s x).
Proof. unfold CompileScope_FindSymbol. good. Qed.
Lemma good_FindSymbolHere G s x : good G (CompileScope_FindSymbolHere s x).
Proof. unfold CompileScope_FindSymbolHere. good. Qed.

Lemma good_freshId G : good G freshId.
Proof. unfold freshId. good. Qed.
#[local] Hint Resolve good_freshId : good.

Lemma good_EMIT_id G id b op d u t :
  (G -> block_wf b = true) -> (G -> real op = true) -> good G (EMIT_id id b op d u t).
Proof. intros. unfold EMIT_id. good. Qed.
Lemma good_EMIT1 G b op d u :
  (G -> block_wf b = true) -> (G -> real op = true) -> good G (EMIT1 b op d u).
Proof. intros. unfold EMIT1. good. apply good_EMIT_id; tauto. Qed.
Lemma good_EMIT0 G b op d :
  (G -> block_wf b = true) -> (G -> real op = true) -> good G (EMIT0 b op d).
Proof. apply good_EMIT1. Qed.
Lemma good_EMIT2 G b op d x y :
  (G -> block_wf b = true) -> (G -> real op = true) -> good G (EMIT2 b op d x y).
Proof. apply good_EMIT1. Qed.
Lemma good_EMIT_branch G b op d t :
  (G -> block_wf b = true) -> (G -> real op = true) -> good G (EMIT_branch b op d t).
Proof. intros. unfold EMIT_branch. good. apply good_EMIT_id; tauto. Qed.

Lemma good_AppendChild G b c :
  (G -> block_wf b = true) -> (G -> block_wf c = true) -> good G (AppendChild b c).
Proof. intros. unfold AppendChild. good. Qed.

Lemma good_AttachInstruction G b p id op :
  (G -> block_wf b = true) -> real op = true -> good G (AttachInstruction b p id op).
Proof.
  intros Hb Hop. apply good_need. intros x HG Hx.
  refine (block_wf_Attach _ _ _ _ (Hb HG) _ Hx). simpl. unfold real in Hop. by rewrite Hop.
Qed.
#[local] Hint Resolve good_EMIT0 : good.

Lemma good_PopIfNecessary G b r : (G -> block_wf b = true) -> good G (Compiler_PopIfNecessary b r).
Proof. intros. unfold Compiler_PopIfNecessary. good. Qed.
Lemma good_EmitNoResult G b : (G -> block_wf b = true) -> good G (Compiler_EmitNoResult b).
Proof. intros. unfold Compiler_EmitNoResult. good. Qed.
Lemma good_EmitRequireResult G b :
  (G -> block_wf b = true) -> good G (Compiler_EmitRequireResult b).
Proof. intros. unfold Compiler_EmitRequireResult. good. Qed.
Lemma good_MakeStackMatch G b r :
  (G -> block_wf b = true) -> good G (Compiler_MakeStackMatchCompileFlags b r).
Proof.
  intros. unfold Compiler_MakeStackMatchCompileFlags.
  destruct r; auto using good_EmitNoResult, good_EmitRequireResult.
Qed.
End Bookkeeping.

#[export] Hint Resolve good_AddUserFunctionInfo good_AddObject good_AddString good_AddTill
  good_currentSourceLocation good_Revert good_SetSourceLocation good_SetAssignedSymbol
  good_SetSourceLocationFromList good_AddLocal good_UserFunctionInfo_Create good_SetupClosureInfo
  good_ResolveTills good_DefineSymbol good_FindSymbol good_FindSymbolHere good_freshId : good.
#[export] Hint Resolve good_EMIT_id good_EMIT0 good_EMIT1 good_EMIT2 good_EMIT_branch
  good_AppendChild good_AttachInstruction good_PopIfNecessary good_EmitNoResult
  good_EmitRequireResult good_MakeStackMatch : good.
#[export] Hint Extern 3 (_ -> block_wf _ = true) => solve [good_post] : good.
#[export] Hint Extern 3 (_ -> real _ = true) => solve [intros; by repeat case_match] : good.

(** *** compile_variable.c *)

(** A symbol that was found is declared in a scope around the current point. *)
Lemma FindSymbol_reaches fuel scopes o x p :
  FindSymbol_loop fuel scopes o x = Some p ->
  exists q s, scopes !! q = Some s /\ sc_symbolDict s !! x = Some p /\ reaches scopes o s.
Proof.
  revert o. induction fuel as [|fuel IH]; intros [q|] H; try done. simpl in H.
  apply bind_Some in H as (s & Hs & H). destruct (sc_symbolDict s !! x) as [p'|] eqn:E.
  - injection H as ->. exists q, s. auto using reaches_here.
  - destruct (IH _ H) as (q' & s' & ? & ? & ?). exists q', s'. eauto using reaches_outer.
Qed.

Definition in_scope (c : Compiler) (p : nat) : Prop :=
  forall ls, c_localSymbols c !! p = Some ls ->
  exists s, c_scopes c !! ls_scope ls = Some s /\ reaches (c_scopes c) (c_currentScope c) s.

Lemma FindSymbol_in_scope c x p :
  wf c -> FindSymbol_loop (length (c_scopes c)) (c_scopes c) (c_currentScope c) x = Some p ->
  in_scope c p.
Proof.
  intros W H ls Hls. apply FindSymbol_reaches in H as (q & s & Hs & Hx & Hr).
  destruct (w_symbols c W q s x p Hs Hx) as (ls' & Hls' & <-). exists s. by simplify_eq.
Qed.

(** Inside its scope a symbol is never deeper than the function that uses it. *)
Lemma relativeDepth_nonneg c ls s d c' :
  wf c -> c_messages c = [] -> c_scopes c !! ls_scope ls = Some s ->
  reaches (c_scopes c) (c_currentScope c) s ->
  relativeDepth ls c = COk d c' -> c' = c /\ 0 <= d.
Proof.
  intros W Hm Hs Hr H. unfold relativeDepth, current, currentFunction, load, need, get in H.
  unfold mbind, M_bind in H. cbn in H.
  destruct (c_currentFunction c) as [p|] eqn:Ep; [|done].
  destruct (c_functions c !! p) as [f|] eqn:Ef; [|done]. rewrite Hs in H.
  destruct (sc_function s) as [q|] eqn:Eq; [|done].
  destruct (c_functions c !! q) as [g|] eqn:Eg; [|done].
  injection H as <- <-. split; [done|].
  pose proof (w_depth c W Hm s Hr) as Hd. rewrite Ep in Hd. specialize (Hd f Ef q g Eq Eg). lia.
Qed.

Lemma relativeDepth_state ls c d c' : relativeDepth ls c = COk d c' -> c' = c.
Proof.
  unfold relativeDepth, current, currentFunction, load, need, get, mbind, M_bind, mret, M_ret. cbn.
  intros H. repeat (case_match; simplify_eq; try done).
Qed.

Lemma relativeDepth_fuel ls c : relativeDepth ls c <> CFuel.
Proof.
  unfold relativeDepth, current, currentFunction, load, need, get, mbind, M_bind, mret, M_ret. cbn.
  by repeat case_match.
Qed.

(** [good] from one state. *)
Definition good_at {A} `{Post A} (G : Prop) (c : Compiler) (m : M A) : Prop :=
  match m c with
  | COk x c' => wf c' /\ ext c c' /\ (c_messages c' = [] -> G -> post x)
  | CFuel => False
  | _ => True
  end.

(** A fact [D] that holds in an error-free state can be assumed. *)
Lemma good_good_at {A} `{Post A} (G D : Prop) c (m : M A) :
  wf c -> (c_messages c = [] -> D) -> good (G /\ D) m -> good_at G c m.
Proof.
  intros W HD Hm. specialize (Hm c W). unfold good_at. destruct (m c) as [x c'| | |]; try done.
  destruct Hm as (W' & X' & Hp). split; [done|]. split; [done|]. intros Hmsg HG.
  apply Hp; [done|]. split; [done|]. apply HD.
  exact (grows_no_messages _ _ (e_grows _ _ X') Hmsg).
Qed.

Lemma good_at_good {A} `{Post A} (G : Prop) c (m : M A) : wf c -> good G m -> good_at G c m.
Proof. intros W Hm. exact (Hm c W). Qed.

Lemma good_at_bind {A B} `{Post A, Post B} (G : Prop) c (m : M A) (f : A -> M B) :
  good_at G c m -> (forall x, good (G /\ post x) (f x)) -> good_at G c (m ≫= f).
Proof.
  unfold good_at, mbind, M_bind. intros Hm Hf. destruct (m c) as [x c1| | |]; try done.
  destruct Hm as (W1 & X1 & P1). specialize (Hf x c1 W1).
  destruct (f x c1) as [y c2| | |]; try done. destruct Hf as (W2 & X2 & P2).
  split; [done|]. split; [by eapply ext_trans|]. intros Hmsg HG. apply P2; [done|].
  split; [done|]. apply P1; [|done]. exact (grows_no_messages _ _ (e_grows _ _ X2) Hmsg).
Qed.

Lemma with_depth {A} `{Post A} (G : Prop) c p (k : CompiledLocalSymbol -> Z -> M A) :
  wf c -> in_scope c p -> (forall ls d, good (G /\ 0 <= d) (k ls d)) ->
  good_at G c (ls ← load c_localSymbols p; d ← relativeDepth ls; k ls d).
Proof.
  intros W Hp Hk. unfold good_at, mbind, M_bind, load, get, need. simpl.
  unfold mbind, M_bind. destruct (c_localSymbols c !! p) as [ls|] eqn:El; [|done].
  pose proof (relativeDepth_fuel ls c) as Hf.
  destruct (relativeDepth ls c) as [d c'| | |] eqn:Ed; try done.
  pose proof (relativeDepth_state _ _ _ _ Ed) as ->.
  apply (good_good_at G (0 <= d)); [done| |apply Hk].
  intros Hm. destruct (Hp ls El) as (s & Hs & Hr).
  by destruct (relativeDepth_nonneg c ls s d c W Hm Hs Hr Ed).
Qed.

(** The short forms of the eight families of variable instructions. *)
Definition short_form (op0 : Opcode) : Prop :=
  forall d, 0 <= d <= 7 -> real (Opcode_add op0 d) = true.

Ltac short_form :=
  intros d Hd;
  assert (d = 0 \/ d = 1 \/ d = 2 \/ d = 3 \/ d = 4 \/ d = 5 \/ d = 6 \/ d = 7) as Hcases by lia;
  repeat (destruct Hcases as [->|Hcases]; [reflexivity|]); subst; reflexivity.

Lemma short_form_all :
  short_form Op_LdArg0 /\ short_form Op_LdLoc0 /\ short_form Op_StArg0 /\ short_form Op_StLoc0
  /\ short_form Op_StpArg0 /\ short_form Op_StpLoc0.
Proof. repeat split; short_form. Qed.

Section Variable_good.
Context {E : CompilerEnv}.
Implicit Types (G : Prop).

Lemma short_emit G op0 b delta u d :
  short_form op0 -> (G -> block_wf b = true) -> (G -> 0 <= d) -> d <= 7 ->
  good G (EMIT1 b (Opcode_add op0 d) delta u).
Proof. intros Hs Hb Hd H7. apply good_EMIT1; [done|]. intros HG. apply Hs. auto. Qed.

Lemma good_LoadGlobal G x p r : good G (Compiler_CompileLoadGlobalVariable x p r).
Proof. unfold Compiler_CompileLoadGlobalVariable. good. Qed.

Lemma good_StoreGlobal G x p r b :
  (G -> block_wf b = true) -> good G (Compiler_CompileStoreGlobalVariable x p r b).
Proof. intros Hb. unfold Compiler_CompileStoreGlobalVariable. good. Qed.

Lemma CompileLoad_ok G c op0 op p r :
  wf c -> in_scope c p -> short_form op0 -> real op = true ->
  good_at G c (CompileLoad op0 op p r).
Proof.
  intros W Hp Hs Hop. unfold CompileLoad. apply with_depth; [done..|].
  intros ls d. good. apply short_emit; good_post. by apply Z.leb_le.
Qed.

Lemma CompileStore_ok G c stp0 stp st0 st p r b :
  wf c -> in_scope c p -> (G -> block_wf b = true) ->
  short_form stp0 -> short_form st0 -> real stp = true -> real st = true ->
  good_at G c (CompileStore stp0 stp st0 st p r b).
Proof.
  intros W Hp Hb Hs1 Hs2 H1 H2. unfold CompileStore. apply with_depth; [done..|].
  intros ls d. good; apply short_emit; good_post; by apply Z.leb_le.
Qed.

Lemma CompileTillFlag_ok G c p : wf c -> in_scope c p -> good_at G c (Compiler_CompileTillFlag p).
Proof.
  intros W Hp. unfold Compiler_CompileTillFlag. apply with_depth; [done..|].
  intros ls d. good. apply short_emit; [apply short_form_all|good_post..]. by apply Z.leb_le.
Qed.

Lemma good_fail_with G s : good G (fail_with s).
Proof. unfold fail_with. good. Qed.
#[local] Hint Resolve good_fail_with good_LoadGlobal good_StoreGlobal : good.

(** Looking a symbol up, and going on from the state it was found in. *)
Lemma with_symbol {A} `{Post A} G x (k : option nat -> M A) :
  (forall c o, wf c -> (forall p, o = Some p -> in_scope c p) -> good_at G c (k o)) ->
  good G (scope ← get c_currentScope; o ← CompileScope_FindSymbol scope x; k o).
Proof.
  intros Hk c W. apply (Hk c); [done|]. intros p Hp. exact (FindSymbol_in_scope c x p W Hp).
Qed.

(** ... and reading it. *)
Lemma with_load {A B} `{Post B} G (st : Compiler -> list A) c p (k : A -> M B) :
  wf c -> (forall x, good_at G c (k x)) -> good_at G c (x ← load st p; k x).
Proof.
  intros W Hk. unfold good_at, mbind, M_bind, load, get, need, mbind, M_bind.
  destruct (st c !! p); [apply Hk|done].
Qed.

Lemma good_LoadVariable G x r : good G (Compiler_CompileLoadVariable x r).
Proof.
  apply with_symbol. intros c [p|] W Hp; [|apply good_at_good; [done|good]].
  apply with_load; [done|]. intros ls. destruct short_form_all as (? & ? & _).
  repeat case_match; try (solve [apply good_at_good; [done|good]]); auto using CompileTillFlag_ok;
    apply CompileLoad_ok; auto.
Qed.

Lemma good_StoreVariable G x r b :
  (G -> block_wf b = true) -> good G (Compiler_CompileStoreVariable x r b).
Proof.
  intros Hb. apply with_symbol. intros c [p|] W Hp; [|apply good_at_good; [done|good]].
  apply with_load; [done|]. intros ls.
  destruct short_form_all as (? & ? & ? & ? & ? & ?).
  assert (Hstore : forall stp0 stp st0 st, short_form stp0 -> short_form st0 ->
    real stp = true -> real st = true -> good_at G c (CompileStore stp0 stp st0 st p r b)).
  { intros. apply CompileStore_ok; auto. }
  repeat case_match; try (solve [apply good_at_good; [done|good]]); try by apply Hstore.
  all: apply good_at_bind; [by apply Hstore|]; intros; good.
Qed.
End Variable_good.

#[export] Hint Resolve good_fail_with good_LoadVariable good_StoreVariable : good.

(** ** Bracketing *)

(** [m] leads from states with [R] to states with [R'], [G] being known in an
    error-free state. *)
Definition from {A} `{Post A} (R R' : Compiler -> Prop) (G : Prop) (m : M A) : Prop :=
  forall c, wf c -> R c -> (c_messages c = [] -> G) ->
  match m c with
  | COk x c' => wf c' /\ R' c' /\ grows c c' /\ (c_messages c' = [] -> post x)
  | CFuel => False
  | _ => True
  end.

Definition stable (R : Compiler -> Prop) : Prop := forall c c', R c -> ext c c' -> R c'.

Lemma ext_no_messages c c' : ext c c' -> c_messages c' = [] -> c_messages c = [].
Proof. intros X. exact (grows_no_messages c c' (e_grows _ _ X)). Qed.

Lemma from_good {A} `{Post A} R G (m : M A) : stable R -> good G m -> from R R G m.
Proof.
  intros HR Hm c W Hc HG. specialize (Hm c W). destruct (m c) as [x c'| | |]; try done.
  destruct Hm as (W' & X' & Hp). split; [done|]. split; [by apply (HR c)|].
  split; [exact (e_grows _ _ X')|].
  intros Hmsg. apply Hp; [done|]. exact (HG (ext_no_messages _ _ X' Hmsg)).
Qed.

(** The converse, for a computation that ends where it began. *)
Lemma good_from {A} `{Post A} (G : Prop) (m : M A) :
  (forall c, wf c -> from (fun d => d = c) (ext c) True m) -> good G m.
Proof.
  intros Hm c W. specialize (Hm c W c W eq_refl ltac:(done)).
  destruct (m c); try done. destruct Hm as (? & ? & ? & ?). auto.
Qed.

(** ... and may be followed from any state that extends it. *)
Lemma good_from_ext {A} `{Post A} (G : Prop) (m : M A) :
  (forall c, wf c -> from (ext c) (ext c) True m) -> good G m.
Proof.
  intros Hm. apply good_from. intros c W d Wd -> HG. exact (Hm c W c W (ext_refl c) HG).
Qed.

Lemma from_post {A} `{Post A} R R' (G G' : Prop) (m : M A) :
  (G' -> G) -> from R R' G m -> from R R' G' m.
Proof. intros HG Hm c W Hc Hg. apply Hm; auto. Qed.

(** A read that answers nothing about blocks leaves the state alone. *)
Lemma from_load {A B} `{Post B} R R' G (st : Compiler -> list A) p (k : A -> M B) :
  (forall x, from R R' G (k x)) -> from R R' G (x ← load st p; k x).
Proof.
  intros Hk c W Hc HG. unfold mbind, M_bind, load, get, need, mbind, M_bind.
  destruct (st c !! p) as [x|]; [by apply Hk|done].
Qed.

Lemma from_bind {A B} `{Post A, Post B} R R1 R2 (G : Prop) (m : M A) (f : A -> M B) :
  from R R1 G m -> (forall x, from R1 R2 (G /\ post x) (f x)) -> from R R2 G (m ≫= f).
Proof.
  intros Hm Hf c W Hc HG. specialize (Hm c W Hc HG). unfold mbind, M_bind.
  destruct (m c) as [x c1| | |]; try done. destruct Hm as (W1 & Hc1 & G1 & Hp).
  assert (HG1 : c_messages c1 = [] -> G /\ post x).
  { intros Hmsg. split; [|auto]. apply HG. exact (grows_no_messages _ _ G1 Hmsg). }
  specialize (Hf x c1 W1 Hc1 HG1). destruct (f x c1) as [y c2| | |]; try done.
  destruct Hf as (W2 & Hc2 & G2 & Hq).
  split; [done|]. split; [done|]. split; [by eapply grows_trans|done].
Qed.

(** The contexts of computations that begin in [c0]: they survive extensions,
    grow from [c0], and once there is a new message do not look at the current
    scope. *)
Record context (c0 : Compiler) (R : Compiler -> Prop) : Prop := {
  cx_stable : stable R;
  cx_grows : forall c, R c -> grows c0 c;
  cx_scope : forall c x, c_messages c <> c_messages c0 -> R c ->
    R (upd_c_currentScope (fun _ => x) c)
}.

Lemma grows_scope c0 c x : grows c0 c -> grows c0 (upd_c_currentScope (fun _ => x) c).
Proof. intros [? ? ? ? ? ?]. by split. Qed.

Lemma grows_scope_inv c0 c x : grows c0 (upd_c_currentScope (fun _ => x) c) -> grows c0 c.
Proof. intros [? ? ? ? ? ?]. by split. Qed.

Lemma context_ext c0 : context c0 (ext c0).
Proof.
  split.
  - intros c c' H X. by eapply ext_trans.
  - intros c X. exact (e_grows _ _ X).
  - intros c x Hm [Hg Hf Hs]. split; [by apply grows_scope|done|done].
Qed.

(** Inside scope [s], opened in a state of [R]. *)
Definition in_new_scope (c0 : Compiler) (R : Compiler -> Prop) (s : nat) (c : Compiler) : Prop :=
  (exists t, c_scopes c !! s = Some t /\ R (upd_c_currentScope (fun _ => sc_parent t) c))
  /\ (c_messages c = c_messages c0 -> c_currentScope c = Some s).

Lemma context_scope c0 R s : context c0 R -> context c0 (in_new_scope c0 R s).
Proof.
  intros [HR Hg Hs]. split.
  - intros c c' [(t & Ht & Hc) Hcur] [G F S].
    destruct (g_scopes _ _ G s t Ht) as (t' & Ht' & [= Ep Ek Ef]). split.
    + exists t'. split; [done|]. rewrite Ep. refine (HR _ _ Hc _). by destruct G.
    + intros Hm. assert (G0 : grows c0 c) by exact (grows_scope_inv _ _ _ (Hg _ Hc)).
      destruct (grows_same_messages _ _ _ G0 G Hm) as [H1 H2]. rewrite S; auto.
  - intros c [(t & Ht & Hc) _]. exact (grows_scope_inv _ _ _ (Hg _ Hc)).
  - intros c x Hm [(t & Ht & Hc) _]. split; [by exists t|done].
Qed.

(** Older scopes keep their parents and functions. *)
Lemma reaches_keeps c c' o s :
  wf c -> keeps (fun s => (sc_parent s, sc_kind s, sc_function s)) (c_scopes c) (c_scopes c') ->
  (forall p, o = Some p -> (p < length (c_scopes c))%nat) ->
  reaches (c_scopes c') o s ->
  exists t, reaches (c_scopes c) o t /\ sc_function s = sc_function t.
Proof.
  intros W K Ho H. induction H as [p s H|p s t H Hr IH];
    destruct (lookup_lt_is_Some_2 (c_scopes c) p (Ho p eq_refl)) as [x Hx];
    destruct (K p x Hx) as (x' & Hx' & [= E1 E2 E3]); simplify_eq.
  - exists x. split; [by apply reaches_here|done].
  - destruct IH as (u & Hu & E).
    { intros q Hq. rewrite E1 in Hq. pose proof (w_scopes c W p x q Hx Hq).
      specialize (Ho p eq_refl). lia. }
    exists u. rewrite E1 in Hu. split; [by apply (reaches_outer _ _ x)|done].
Qed.
(** Scopes that are no deeper than a function in [c] are not in [c'] either. *)
Lemma depth_keeps c c' s :
  wf c -> grows c c' -> c_currentFunction c' = c_currentFunction c ->
  reaches (c_scopes c') (c_currentScope c) s -> c_messages c = [] ->
  match c_currentFunction c' with
  | Some p => forall f, c_functions c' !! p = Some f -> scope_depth_le c' s (cf_functionDepth f)
  | None => sc_function s = None
  end.
Proof.
  intros W G F Hr Hm. rewrite F.
  destruct (reaches_keeps c c' _ s W (g_scopes _ _ G) (w_currentScope c W) Hr) as (t & Ht & E).
  pose proof (w_depth c W Hm t Ht) as Hd.
  destruct (c_currentFunction c) as [p|] eqn:Ep; [|congruence].
  intros f Hf q g Hq Hg. rewrite E in Hq.
  destruct (lookup_lt_is_Some_2 _ _ (w_currentFunction c W p Ep)) as [f0 Hf0].
  assert (exists u, c_scopes c !! u = Some t) as [u Hu] by (clear -Ht; induction Ht; eauto).
  destruct (lookup_lt_is_Some_2 _ _ (w_scope_functions c W u t q Hu Hq)) as [g0 Hg0].
  destruct (g_functions _ _ G p f0 Hf0) as (f' & Hf' & [= ? Ef ?]).
  destruct (g_functions _ _ G q g0 Hg0) as (g' & Hg' & [= ? Eg ?]). simplify_eq.
  rewrite Ef, Eg. exact (Hd f0 Hf0 q g0 Hq Hg0).
Qed.

(** The state in which a scope was opened. *)
Definition begin_scope (kind : Z) (c : Compiler) : Compiler :=
  upd_c_currentScope (fun _ => Some (length (c_scopes c)))
    (upd_c_scopes (fun l => l ++ [mkScope (c_currentScope c) ∅ kind (c_currentFunction c)]) c).

Lemma BeginScope_eq kind c :
  Compiler_BeginScope kind c = COk (length (c_scopes c)) (begin_scope kind c).
Proof. done. Qed.

Lemma grows_begin_scope kind c : grows c (begin_scope kind c).
Proof. split; simpl; auto with frame. exists []. by rewrite app_nil_r. Qed.

Lemma wf_begin_scope kind c : wf c -> wf (begin_scope kind c).
Proof.
  intros W. pose proof W as [W1 W2 W3 Wy W4 W5 W6 W7]. split; simpl; try done.
  - intros p s q H' Hq. apply lookup_app_Some in H' as [H'|[Hle H']]; [eauto|].
    apply list_lookup_singleton_Some in H' as [E <-]. apply W3 in Hq. lia.
  - intros p [= <-]. rewrite length_app. simpl. lia.
  - intros q s x p H' Hx. apply lookup_app_Some in H' as [H'|[_ H']]; [eauto|].
    apply list_lookup_singleton_Some in H' as [_ <-]. done.
  - intros p s q H' Hq. apply lookup_app_Some in H' as [H'|[_ H']]; [eauto|].
    apply list_lookup_singleton_Some in H' as [_ <-]. auto.
  - intros Hm s Hr. inversion Hr as [p s' Hp|p s' t Hp Ht]; subst;
      rewrite list_lookup_middle in Hp by done; injection Hp as <-; simpl in *.
    + destruct (c_currentFunction c); [|done]. intros f Hf q g [= <-] Hq.
      unfold begin_scope in Hq. simpl in Hq. simplify_eq. lia.
    + exact (depth_keeps c (begin_scope kind c) s W (grows_begin_scope kind c) eq_refl Ht Hm).
Qed.

Lemma from_begin_scope {A} `{Post A} c0 R R2 G kind (k : nat -> M A) :
  context c0 R -> (forall s, from (in_new_scope c0 R s) R2 G (k s)) ->
  from R R2 G (s ← Compiler_BeginScope kind; k s).
Proof.
  intros [HR Hg Hs] Hk c W Hc HG. unfold mbind, M_bind. rewrite BeginScope_eq.
  assert (Hin : in_new_scope c0 R (length (c_scopes c)) (begin_scope kind c)).
  { split; [|done]. eexists. split; [by apply list_lookup_middle|].
    apply (HR c); [done|]. split; [apply grows_scope, grows_begin_scope|done..]. }
  specialize (Hk _ _ (wf_begin_scope kind c W) Hin HG).
  destruct (k _ _) as [x c2| | |]; try done. destruct Hk as (W2 & Hc2 & G2 & Hp).
  split; [done|]. split; [done|]. split; [|done].
  eapply grows_trans; [apply grows_begin_scope|exact G2].
Qed.

(** Closing the innermost scope keeps the invariant. *)
Lemma wf_end_scope c p t :
  wf c -> c_currentScope c = Some p -> c_scopes c !! p = Some t ->
  wf (upd_c_currentScope (fun _ => sc_parent t) c).
Proof.
  intros [W1 W2 W3 Wy W4 W5 W6 W7] Hp Ht. split; simpl; try done.
  - intros q Hq. specialize (W2 p t q Ht Hq). specialize (W3 p Hp). lia.
  - intros Hm s Hr. apply W6; [done|]. rewrite Hp. by apply (reaches_outer _ _ t).
Qed.

Lemma EndScope_eq c p t :
  c_currentScope c = Some p -> c_scopes c !! p = Some t ->
  Compiler_EndScope c = COk tt (upd_c_currentScope (fun _ => sc_parent t) c).
Proof.
  intros Hp Ht. unfold Compiler_EndScope, mbind, M_bind, load, get, need, modify, mbind, M_bind.
  by rewrite Hp, Ht.
Qed.

Lemma EndScope_cases c :
  (exists p t, c_currentScope c = Some p /\ c_scopes c !! p = Some t) \/ Compiler_EndScope c = CCrash.
Proof.
  unfold Compiler_EndScope, mbind, M_bind, load, get, need, modify, mbind, M_bind.
  destruct (c_currentScope c) as [p|]; [|by right].
  destruct (c_scopes c !! p) as [t|] eqn:Ht; [left; eauto|by right].
Qed.

Lemma from_end_scope {A} `{Post A} c0 R R2 G s (k : M A) :
  context c0 R -> from R R2 G k -> from (in_new_scope c0 R s) R2 G (Compiler_EndScope ;; k).
Proof.
  intros [HR Hg Hs] Hk c W [(t & Ht & Hc) Hcur] HG. unfold mbind, M_bind.
  destruct (EndScope_cases c) as [(p & t' & Ep & Et)|E]; [|by rewrite E].
  rewrite (EndScope_eq c p t') by done.
  pose proof (wf_end_scope c p t' W Ep Et) as W'.
  assert (Hc' : R (upd_c_currentScope (fun _ => sc_parent t') c)).
  { destruct (decide (c_messages c = c_messages c0)) as [Hm|Hm].
    - specialize (Hcur Hm). by simplify_eq.
    - exact (Hs (upd_c_currentScope (fun _ => sc_parent t) c) (sc_parent t') Hm Hc). }
  specialize (Hk _ W' Hc' HG).
  destruct (k _) as [x c2| | |]; try done.
  destruct Hk as (W2 & Hc2 & G2 & Hp). split; [done|]. split; [done|]. split; [|done].
  eapply grows_trans; [|exact G2]. apply grows_scope, grows_refl.
Qed.

(** Giving up inside a scope. *)
Lemma ext_message m c : ext c (upd_c_messages (fun l => l ++ [m]) c).
Proof. split; [split; simpl; auto with frame; eauto|done..]. Qed.

Lemma from_fail_with c0 R G s m :
  context c0 R -> from (in_new_scope c0 R s) R G (fail_with m).
Proof.
  intros [HR Hg Hs] c W [(t & Ht & Hc) Hcur] HG. cbn.
  destruct (inert_message m c W) as [W' X']. split; [done|].
  split; [|split; [exact (e_grows _ _ X')|done]].
  pose proof (HR _ _ Hc (ext_message m _)) as Hc'.
  refine (Hs (upd_c_messages _ (upd_c_currentScope _ c)) (c_currentScope c) _ Hc').
  intros E. simpl in E. destruct (g_messages _ _ (Hg _ Hc)) as [l El]. simpl in El.
  rewrite El, <- app_assoc in E. rewrite <- (app_nil_r (c_messages c0)) in E at 2.
  apply app_inv_head in E. by apply app_eq_nil in E as [_ E].
Qed.

(** Inside function [fn], begun in [c0]. *)
Definition in_new_function (c0 : Compiler) (fn : nat) (c : Compiler) : Prop :=
  grows c0 c /\ (c_messages c = c_messages c0 -> c_currentScope c = c_currentScope c0)
  /\ c_currentFunction c = Some fn
  /\ exists f, c_functions c !! fn = Some f /\ cf_parent f = c_currentFunction c0.

Lemma context_function c0 fn : context c0 (in_new_function c0 fn).
Proof.
  split.
  - intros c c' (G0 & S0 & F0 & f & Hf & Ef) [G F S].
    destruct (g_functions _ _ G fn f Hf) as (f' & Hf' & [= Ep ? ?]).
    split; [by eapply grows_trans|]. split; [|split; [congruence|]].
    + intros Hm. destruct (grows_same_messages _ _ _ G0 G Hm) as [E1 E2]. rewrite S; auto.
    + exists f'. split; [done|congruence].
  - by intros c (? & _).
  - intros c x Hm (G0 & S0 & F0 & Hf). split; [by apply grows_scope|]. by split.
Qed.

(** The state in which a function was begun. *)
Definition begin_function (args body : Expr) (depth : Z) (info : ClosureInfo) (c : Compiler)
  : Compiler :=
  upd_c_currentFunction (fun _ => Some (length (c_functions c)))
    (upd_c_functions (fun l => l ++
       [mkCompilerFunction (c_currentFunction c) depth 0 [] 16 0 args body
          (length (c_closureInfos c)) 0 None (mkTable [] 0)])
       (upd_c_closureInfos (fun l => l ++ [info]) c)).

(** A new function is one deeper than the current one. *)
Definition next_depth (c : Compiler) (depth : Z) : Prop :=
  match c_currentFunction c with
  | None => depth = 0
  | Some p => exists f, c_functions c !! p = Some f /\ depth = cf_functionDepth f + 1
  end.

Lemma BeginFunction_cases args body c :
  (exists depth info, next_depth c depth /\ Compiler_BeginFunction args body c
     = COk (length (c_functions c)) (begin_function args body depth info c))
  \/ Compiler_BeginFunction args body c = CCrash.
Proof.
  unfold Compiler_BeginFunction, next_depth, allocate, mbind, M_bind, load, get, need, modify,
    mbind, M_bind, mret, M_ret.
  destruct (c_currentFunction c) as [p|] eqn:Ep.
  - destruct (c_functions c !! p) as [f|] eqn:Ef; [|by right].
    destruct (c_closureInfos c !! cf_closureInfo f) as [i|]; [left|by right].
    eexists _, _. split; [eauto|]. unfold begin_function. by rewrite Ep.
  - destruct (ct_globalClosureInfo (c_tables c)) as [g|];
      [destruct (c_closureInfos c !! g) as [i|]; [|by right]|].
    all: left; eexists _, _; split; [done|]; unfold begin_function; by rewrite Ep.
Qed.

Lemma grows_begin_function args body depth info c : grows c (begin_function args body depth info c).
Proof. split; simpl; auto with frame. exists []. by rewrite app_nil_r. Qed.

Lemma reaches_lookup scopes o s : reaches scopes o s -> exists p, scopes !! p = Some s.
Proof. induction 1; eauto. Qed.

Lemma wf_begin_function args body depth info c :
  wf c -> next_depth c depth -> wf (begin_function args body depth info c).
Proof.
  intros W Hd. pose proof W as [W1 W2 W3 Wy W4 W5 W6 W7]. unfold next_depth in Hd.
  split; simpl; try done.
  - intros p f H. apply lookup_app_Some in H as [H|[Hle H]].
    + specialize (W1 p f H). destruct (cf_parent f); [|done]. destruct W1 as (? & g & Hg & ?).
      split; [done|]. exists g. split; [by apply lookup_app_l_Some|done].
    + apply list_lookup_singleton_Some in H as [Hz <-]. simpl.
      destruct (c_currentFunction c) as [q|]; [|done]. destruct Hd as (g & Hg & ->).
      specialize (W5 q eq_refl). split; [simpl in *; lia|].
      exists g. split; [by apply lookup_app_l_Some|done].
  - intros p s q H Hq. rewrite length_app. specialize (W4 p s q H Hq). simpl. lia.
  - intros p [= <-]. rewrite length_app. simpl. lia.
  - intros Hm s Hs f Hf q g Hq Hg. simpl in *. rewrite list_lookup_middle in Hf by done.
    injection Hf as <-. simpl. specialize (W6 Hm s Hs).
    destruct (reaches_lookup _ _ _ Hs) as [u Hu]. pose proof (W4 u s q Hu Hq) as Hlt.
    rewrite lookup_app_l in Hg by done.
    destruct (c_currentFunction c) as [p|]; [|congruence].
    destruct Hd as (f & Hf & ->). specialize (W6 f Hf q g Hq Hg). lia.
Qed.

Lemma from_begin_function {A} `{Post A} c0 R2 G args body (k : nat -> M A) :
  (forall fn, from (in_new_function c0 fn) R2 G (k fn)) ->
  from (fun d => d = c0) R2 G (fn ← Compiler_BeginFunction args body; k fn).
Proof.
  intros Hk c W -> HG. unfold mbind, M_bind.
  destruct (BeginFunction_cases args body c0) as [(depth & info & Hd & ->)| ->]; [|done].
  assert (Hin : in_new_function c0 (length (c_functions c0)) (begin_function args body depth info c0)).
  { split; [apply grows_begin_function|]. split; [done|]. split; [done|].
    eexists. split; [by apply list_lookup_middle|done]. }
  specialize (Hk _ _ (wf_begin_function args body depth info c0 W Hd) Hin HG).
  destruct (k _ _) as [x c2| | |]; try done. destruct Hk as (W2 & Hc2 & G2 & Hp).
  split; [done|]. split; [done|]. split; [|done].
  eapply grows_trans; [apply grows_begin_function|exact G2].
Qed.

(** Leaving a function goes back to the one it was begun in. *)
Lemma from_leave_function c0 fn f G :
  wf c0 -> cf_parent f = c_currentFunction c0 ->
  from (in_new_function c0 fn) (ext c0) G (modify (upd_c_currentFunction (fun _ => cf_parent f))).
Proof.
  intros W0 Hf c W (G0 & S0 & F0 & _) HG. simpl.
  assert (G1 : grows c0 (upd_c_currentFunction (fun _ => cf_parent f) c)) by (by destruct G0).
  split; [|split; [by split|split; [split; simpl; auto with frame; exists []; by rewrite app_nil_r|done]]].
  pose proof W as [W1 W2 W3 Wy W4 W5 W6 W7]. split; simpl; try done.
  - intros p Hp. rewrite Hf in Hp. pose proof (w_currentFunction c0 W0 p Hp).
    pose proof (keeps_length _ _ _ (g_functions _ _ G0)). lia.
  - intros Hm s Hs. pose proof (grows_no_messages _ _ G0 Hm) as Hm0.
    rewrite S0 in Hs by congruence.
    exact (depth_keeps c0 _ s W0 G1 Hf Hs Hm0).
Qed.

Lemma from_end_function c0 fn G env :
  wf c0 -> from (in_new_function c0 fn) (ext c0) G (Compiler_EndFunction env).
Proof.
  intros W0 c W Hc HG. destruct (Hc) as (_ & _ & F & f & Hf & Ef).
  unfold Compiler_EndFunction, currentFunction, load, get, need, mbind, M_bind.
  rewrite F, Hf. revert c W Hc HG F Hf.
  enough (from (in_new_function c0 fn) (ext c0) G
            (Compiler_ResolveTillBranchTargets env (entries (cf_tillInfos f)) ;;
             Compiler_SetupClosureInfoForCompilerFunction fn ;;
             modify (upd_c_currentFunction (fun _ => cf_parent f)))) as H.
  { intros c W Hc HG _ _. exact (H c W Hc HG). }
  pose proof (cx_stable _ _ (context_function c0 fn)) as HS.
  eapply from_bind; [apply from_good; [done|auto with good]|intros ?].
  eapply from_bind; [apply from_good; [done|auto with good]|intros ?].
  by apply from_leave_function.
Qed.

(** Storing a finished segment. *)
Lemma from_finished c0 (G : Prop) segment info p :
  (G -> assembled segment) ->
  from (ext c0) (ext c0) G (update upd_c_userFunctionInfos p (set_finished segment info)).
Proof.
  intros Hs c W Hc HG. destruct (finished_ok segment info p c W) as [W' X']; [auto|].
  simpl. split; [exact W'|]. split; [by eapply ext_trans|]. split; [exact (e_grows _ _ X')|done].
Qed.

(** A step that ends in the scope and function it began in. *)
Ltac inside := eapply from_bind; [apply from_good; [eassumption|good]|intros ?].
