(* ===== verification/CompilerProps.v ===== *)
(** * CompilerProps: the compiler

    For every expression the compiler terminates, only ever adds to its stores,
    returns to the function and (unless it reports an error) the scope it
    started in, and builds blocks the assembler accepts. *)

From S2P Require Import Prelude Opcode ByteCode CompiledBlock Object.
From S2P Require Import Closure Expr Compiler KnownSymbols CompileForms CompilerInvariant.
From stdpp Require Import strings.
Import Operand.
#[local] Open Scope Z_scope.

(** ** The forms *)

Lemma height_first e x : LIST_FIRST e = Some x -> (height x <= height e)%nat.
Proof. unfold LIST_FIRST. destruct e; intros [= <-]; simpl; lia. Qed.

Lemma height_list_d e x : list_d e = Some x -> (height x <= height e)%nat.
Proof. destruct e; intros [= <-]; simpl; lia. Qed.

Lemma height_rest e x : LIST_REST e = Some x -> (height x <= height e)%nat.
Proof.
  unfold LIST_REST. intros H. apply bind_Some in H as (d & Hd & [= <-]).
  apply height_list_d in Hd. destruct d; simpl in *; lia.
Qed.

Lemma height_second e x : LIST_SECOND e = Some x -> (height x <= height e)%nat.
Proof.
  unfold LIST_SECOND. intros H. apply bind_Some in H as (d & Hd & Hx).
  apply height_rest in Hd. apply height_first in Hx. lia.
Qed.

(** Induction along the cells of a list. *)
Lemma spine_ind (P : Expr -> Prop) :
  (forall e, isList e = false -> P e) -> (forall a d s, P d -> P (ECons a d s)) -> forall e, P e.
Proof. intros Hn Hc e. induction e; auto. Qed.

Lemma height_If_else e x : If_else e = Some x -> (height x <= height e)%nat.
Proof.
  destruct e as [| | | | | | | | | | | | | | | | |a d s]; try (by intros [= <-]); simpl.
  destruct d; intros [= <-]; lia.
Qed.

Lemma height_While e a b c :
  While_parts e = Some (a, b, c) ->
  (height a < height e)%nat /\ (height b < height e)%nat /\ (height c < height e)%nat.
Proof.
  unfold While_parts. intros H. repeat (case_match; try done); simplify_eq; simpl; lia.
Qed.

Section Forms_good.
Context {OE : ObjectEnv} {E : CompilerEnv}.
Implicit Types (G : Prop).

Lemma StripNots_height e x b :
  Compiler_StripNots e = (x, b) -> (height x <= height e)%nat.
Proof.
  remember (height e) as k eqn:Ek. revert e x b Ek. induction k as [k IH] using lt_wf_ind.
  intros e x b -> H. destruct e as [| | | | | | | | | | | | | | | | |a d src]; simpl in H;
    try (by injection H as <- <-).
  destruct a as [| | | | | | | | | | | | | | s| | |a1 d1 src1], d as [| | | | | | | | | | | | | | | | |y d2 src2];
    try (by injection H as <- <-).
  destruct d2; try (by injection H as <- <-). destruct (s =? sym_not); [|by injection H as <- <-].
  destruct (Compiler_StripNots y) as [z nz] eqn:Ey. injection H as <- <-.
  specialize (IH (height y) ltac:(simpl; lia) y z nz eq_refl Ey). simpl. lia.
Qed.

Variable CE : Expr -> bool -> M CompiledBlock.
Variable n : nat.
Hypothesis HCE : forall G e r, (height e < n)%nat -> good G (CE e r).

(** Subexpressions are lower. *)
Ltac lower :=
  repeat match goal with
         | H : LIST_FIRST _ = Some _ |- _ => apply height_first in H
         | H : LIST_SECOND _ = Some _ |- _ => apply height_second in H
         | H : LIST_REST _ = Some _ |- _ => apply height_rest in H
         | H : Compiler_StripNots _ = _ |- _ => apply StripNots_height in H
         | H : If_else _ = Some _ |- _ => apply height_If_else in H
         | H : While_parts _ = Some _ |- _ => apply height_While in H
         | H : (if ?b then (_, _) else (_, _)) = (_, _) |- _ => destruct b; injection H as <- <-
         end; simpl in *; lia.
#[local] Hint Extern 1 (_ < n)%nat => lower : good.
#[local] Hint Extern 1 (_ <= n)%nat => lower : good.
#[local] Hint Resolve HCE : good.

Lemma good_AppendRequired G b e :
  (G -> block_wf b = true) -> (height e < n)%nat -> good G (AppendRequired CE b e).
Proof. intros. unfold AppendRequired. good. Qed.

Lemma good_AppendMatching G b e r :
  (G -> block_wf b = true) -> (height e < n)%nat -> good G (AppendMatching CE b e r).
Proof. intros. unfold AppendMatching. good. Qed.

Lemma good_AppendThenMatch G b e r :
  (G -> block_wf b = true) -> (height e < n)%nat -> good G (AppendThenMatch CE b e r).
Proof. intros. unfold AppendThenMatch. good. Qed.

Lemma good_AppendThenRequire G b e :
  (G -> block_wf b = true) -> (height e < n)%nat -> good G (AppendThenRequire CE b e).
Proof. intros. unfold AppendThenRequire. good. Qed.
#[local] Hint Resolve good_AppendRequired good_AppendMatching good_AppendThenMatch
  good_AppendThenRequire : good.

Lemma good_ProgN_loop G named nameless b args r :
  (G -> block_wf b = true) -> (height args < n)%nat ->
  good G (ProgN_loop CE named nameless b args r).
Proof.
  revert G b. induction args as [e He|a d src IH] using spine_ind; intros G b Hb Hh.
  - destruct e; try done; by apply good_ret.
  - simpl. good.
Qed.

(** The other loops go the same way. *)
Ltac spine args :=
  let e := fresh "e" in let He := fresh "He" in
  induction args as [e He|? ? ? IH] using spine_ind;
  intros;
  [destruct e; simpl; try done; good|simpl; good].

Lemma good_ProgN G args r : (height args < n)%nat -> good G (Compiler_CompileProgN CE args r).
Proof.
  intros Hh. unfold Compiler_CompileProgN. good. apply good_ProgN_loop; [good_post|done].
Qed.

Lemma good_Prog1_loop G old b args :
  (G -> block_wf b = true) -> (height args < n)%nat -> good G (Prog1_loop CE old b args).
Proof. revert G b. spine args. Qed.

Lemma good_Prog1 G args r : (height args < n)%nat -> good G (Compiler_CompileProg1 CE args r).
Proof.
  intros Hh. unfold Compiler_CompileProg1. good. apply good_Prog1_loop; [good_post|lower].
Qed.

Lemma good_If_emit G e r b1 b2 b3 :
  (G -> block_wf b1 = true) -> (G -> block_wf b2 = true) -> (G -> block_wf b3 = true) ->
  (height e < n)%nat -> good G (If_emit CE e r b1 b2 b3).
Proof. intros. unfold If_emit. good. Qed.

Lemma good_If G args r : (height args < n)%nat -> good G (Compiler_CompileIf CE args r).
Proof.
  intros Hh. unfold Compiler_CompileIf, If_error. good. all: apply good_If_emit; first [lower|good_post].
Qed.

Lemma good_AndOr_loop G op opNot l b args :
  real op = true -> real opNot = true ->
  (G -> block_wf b = true) -> (height args < n)%nat ->
  good G (AndOr_loop CE op opNot l b args).
Proof. intros Ho Hn. revert G b. spine args. Qed.

Lemma good_AndOr G op opNot p args m :
  real op = true -> real opNot = true -> (height args < n)%nat ->
  good G (CompileAndOr CE op opNot p args m).
Proof.
  intros Ho Hn Hh. unfold CompileAndOr. good. apply good_AndOr_loop; first [done|lower|good_post].
Qed.

Lemma good_Return G args r : (height args < n)%nat -> good G (Compiler_CompileReturn CE args r).
Proof. intros Hh. unfold Compiler_CompileReturn. good. Qed.

Lemma good_Brk G args r : good G (Compiler_CompileBrk args r).
Proof. unfold Compiler_CompileBrk. good. Qed.

Lemma good_Quote G args r : (height args < n)%nat -> good G (Compiler_CompileQuote CE args r).
Proof. intros Hh. unfold Compiler_CompileQuote. good. Qed.

Lemma good_insert_pop G r l b : (G -> block_wf b = true) -> good G (insert_pop r l b).
Proof. intros. unfold insert_pop. good. Qed.
#[local] Hint Resolve good_insert_pop : good.

Lemma good_WhilePrePost G nots a b c r :
  (height a < n)%nat -> (height b < n)%nat -> (height c < n)%nat ->
  good G (CompileWhileWithPreAndPost CE nots a b c r).
Proof. intros. unfold CompileWhileWithPreAndPost. good. Qed.
Lemma good_WhilePre G nots a b r :
  (height a < n)%nat -> (height b < n)%nat -> good G (CompileWhileWithPre CE nots a b r).
Proof. intros. unfold CompileWhileWithPre. good. Qed.
Lemma good_WhilePost G nots a b r :
  (height a < n)%nat -> (height b < n)%nat -> good G (CompileWhileWithPost CE nots a b r).
Proof. intros. unfold CompileWhileWithPost. good. Qed.
Lemma good_WhileNoBody G nots a r :
  (height a < n)%nat -> good G (CompileWhileWithNoBody CE nots a r).
Proof. intros. unfold CompileWhileWithNoBody. good. Qed.
#[local] Hint Resolve good_WhilePrePost good_WhilePre good_WhilePost good_WhileNoBody : good.

Lemma good_While G args r : (height args < n)%nat -> good G (Compiler_CompileWhile CE args r).
Proof. intros Hh. unfold Compiler_CompileWhile. good. Qed.

Lemma good_ValidateIndexArgs G e : good G (Compiler_ValidateIndexArgs e).
Proof. unfold Compiler_ValidateIndexArgs. good. Qed.
Lemma good_ValidateDotArgs G e : good G (Compiler_ValidateDotArgs e).
Proof. unfold Compiler_ValidateDotArgs. good. Qed.
#[local] Hint Resolve good_ValidateIndexArgs good_ValidateDotArgs : good.

Lemma LoadProperty_op_real x op u : LoadProperty_op x = (op, u) -> real op = true.
Proof. unfold LoadProperty_op. intros H. repeat case_match; by injection H as <- <-. Qed.
#[local] Hint Extern 3 (_ -> real _ = true) =>
  solve [intros; eapply LoadProperty_op_real; eassumption] : good.

Lemma good_LoadProperty G args r :
  (height args < n)%nat -> good G (Compiler_CompileLoadProperty CE args r).
Proof.
  intros Hh. unfold Compiler_CompileLoadProperty. good.
Qed.

Lemma good_LoadMember G args r :
  (height args < n)%nat -> good G (Compiler_CompileLoadMember CE args r).
Proof. intros Hh. unfold Compiler_CompileLoadMember. good. Qed.
#[local] Hint Resolve good_LoadProperty good_LoadMember : good.

Lemma good_Dot G args r : (height args < n)%nat -> good G (Compiler_CompileDot CE args r).
Proof. intros Hh. unfold Compiler_CompileDot. good. Qed.
Lemma good_Index G args r : (height args < n)%nat -> good G (Compiler_CompileIndex CE args r).
Proof. intros Hh. unfold Compiler_CompileIndex. good. Qed.

Lemma good_MethodCall_args G b args :
  (G -> block_wf b = true) -> (height args < n)%nat -> good G (MethodCall_args CE b args).
Proof. revert G b. spine args. Qed.
#[local] Hint Resolve good_MethodCall_args : good.

Lemma good_MethodCall G dotArgs args r :
  (height dotArgs < n)%nat -> (height args < n)%nat ->
  good G (Compiler_CompileMethodCall CE dotArgs args r).
Proof.
  intros. unfold Compiler_CompileMethodCall. good.
  apply short_emit; [short_form|good_post|..]; intros; first [by apply Z.leb_le|by apply Z.ltb_ge].
Qed.

Lemma good_EmitStoreProperty G b x r :
  (G -> block_wf b = true) -> good G (EmitStoreProperty b x r).
Proof. intros. unfold EmitStoreProperty. good. Qed.
Lemma good_EmitStoreMember G b r : (G -> block_wf b = true) -> good G (EmitStoreMember b r).
Proof. intros. unfold EmitStoreMember. good. Qed.
#[local] Hint Resolve good_EmitStoreProperty good_EmitStoreMember : good.

Lemma good_SetSymbol G args x value r :
  (height args < n)%nat -> (height value < n)%nat ->
  good G (Compiler_CompileSetSymbol CE args x value r).
Proof. intros. unfold Compiler_CompileSetSymbol. good. Qed.
Lemma good_SetProperty G args dotArgs value r :
  (height dotArgs < n)%nat -> (height value < n)%nat ->
  good G (Compiler_CompileSetProperty CE args dotArgs value r).
Proof. intros. unfold Compiler_CompileSetProperty. good. Qed.
Lemma good_SetMember G args dest dotArgs value r :
  (height dotArgs < n)%nat -> (height value < n)%nat ->
  good G (Compiler_CompileSetMember CE args dest dotArgs value r).
Proof. intros. unfold Compiler_CompileSetMember. good. Qed.
#[local] Hint Resolve good_SetSymbol good_SetProperty good_SetMember : good.

Lemma good_Setf G args r : (height args < n)%nat -> good G (Compiler_CompileSetf CE args r).
Proof. intros Hh. unfold Compiler_CompileSetf. good. Qed.

Lemma good_OpSymbol G op x value r :
  (height value < n)%nat -> good G (Compiler_CompileOpEqualsSymbol CE op x value r).
Proof. intros. unfold Compiler_CompileOpEqualsSymbol. good. Qed.
Lemma good_OpProperty G args op dotArgs value r :
  (height dotArgs < n)%nat -> (height value < n)%nat ->
  good G (Compiler_CompileOpEqualsProperty CE args op dotArgs value r).
Proof. intros. unfold Compiler_CompileOpEqualsProperty. good. Qed.
Lemma good_OpMember G op dotArgs value r :
  (height dotArgs < n)%nat -> (height value < n)%nat ->
  good G (Compiler_CompileOpEqualsMember CE op dotArgs value r).
Proof. intros. unfold Compiler_CompileOpEqualsMember. good. Qed.
#[local] Hint Resolve good_OpSymbol good_OpProperty good_OpMember : good.

Lemma good_OpEquals G args r : (height args < n)%nat -> good G (Compiler_CompileOpEquals CE args r).
Proof. intros Hh. unfold Compiler_CompileOpEquals. good. Qed.

Lemma good_OneArgument G args r m op :
  real op = true -> (height args < n)%nat -> good G (Compiler_CompileOneArgument CE args r m op).
Proof. intros Hop Hh. unfold Compiler_CompileOneArgument. good. Qed.

(** The appended child is replaced by the block it became. *)
Lemma block_wf_replace b id c c' :
  block_wf b = true -> block_wf c' = true ->
  snd (CompiledBlock_AppendChild b id c) = true ->
  let b' := fst (CompiledBlock_AppendChild b id c) in
  block_wf (set_instrs (removelast (instrs b') ++ [BlockInstr id 0 zero c' 0]) b') = true.
Proof.
  intros Hb Hc' Hn b'. subst b'. rewrite AppendChild_instrs.
  assert (instrs c <> []) as Hne.
  { unfold CompiledBlock_AppendChild in Hn. by destruct (instrs c). }
  destruct (instrs c) as [|i l]; [done|]. rewrite removelast_last.
  rewrite block_wf_leaves. destruct (fst _) as [l1 n1 m1 d1 e1 r1]. cbn [instrs set_instrs].
  rewrite block_wf_app, <- block_wf_leaves, Hb. simpl. by rewrite Hc'.
Qed.

Lemma good_AppendBeforeMatch G b e r :
  (G -> block_wf b = true) -> (height e < n)%nat -> good G (AppendBeforeMatch CE b e r).
Proof.
  intros Hb He. unfold AppendBeforeMatch.
  apply good_bind; [auto with good|intros c]. apply good_bind; [auto with good|intros id].
  destruct (CompiledBlock_AppendChild b id c) as [b' appended] eqn:E'.
  apply good_bind; [apply good_MakeStackMatch; good_post|intros c'].
  apply good_ret. intros [[[HG Hc] _] Hc'].
  pose proof (block_wf_replace b id c c' (Hb HG) Hc') as H1.
  pose proof (block_wf_AppendChild b id c (Hb HG) Hc) as H2.
  rewrite E' in H1, H2. destruct appended; [by apply H1|done].
Qed.
#[local] Hint Resolve good_AppendBeforeMatch : good.

Lemma good_TwoArguments G args r m op :
  real op = true -> (height args < n)%nat -> good G (Compiler_CompileTwoArguments CE args r m op).
Proof. intros Hop Hh. unfold Compiler_CompileTwoArguments. good. Qed.

Lemma good_New_pairs G b k pairs :
  (G -> block_wf b = true) -> (height pairs < n)%nat -> good G (New_pairs CE b k pairs).
Proof.
  revert G b k. spine pairs.
Qed.
#[local] Hint Resolve good_New_pairs : good.

Lemma good_New G args r : (height args < n)%nat -> good G (Compiler_CompileNew CE args r).
Proof. intros Hh. unfold Compiler_CompileNew. good. Qed.

Lemma good_ModuleById G i : good G (ModuleInfo_GetModuleById i).
Proof. unfold ModuleInfo_GetModuleById. good. Qed.
Lemma good_ExposedOffset G i m x : good G (ModuleInfo_GetExposedValueClosureOffset i m x).
Proof. unfold ModuleInfo_GetExposedValueClosureOffset. good. Qed.
#[local] Hint Resolve good_ModuleById good_ExposedOffset : good.

Lemma good_Include G args r : good G (Compiler_CompileInclude args r).
Proof. unfold Compiler_CompileInclude. good. Qed.
#[local] Hint Resolve good_ProgN : good.

Lemma good_Scope_vars G s symbol b vars :
  (G -> block_wf b = true) -> good G (Scope_vars s symbol b vars).
Proof. revert G symbol b. spine vars. Qed.
#[local] Hint Resolve good_Scope_vars : good.

Lemma good_Scope G args r : (height args < n)%nat -> good G (Compiler_CompileScope CE args r).
Proof.
  intros Hh. unfold Compiler_CompileScope.
  destruct args as [| | | | | | | | | | | | | | | | |vars rest src]; try solve [good].
  destruct vars; try solve [good]. destruct (_ || _); [|solve [good]].
  apply good_from_ext. intros c0 W0. apply (from_begin_scope c0); [apply context_ext|]. intros s.
  pose proof (context_scope c0 _ s (context_ext c0)) as HC. pose proof (cx_stable _ _ HC) as HS.
  inside. destruct x as [b temp]. destruct (negb _); [by apply from_fail_with, context_ext|].
  pose proof (cx_stable _ _ (context_ext c0)) as HS0.
  inside. inside. apply (from_end_scope c0); [apply context_ext|].
  apply from_good; [done|good].
Qed.

Lemma good_Finish G b : (G -> block_wf b = true) -> good G (Finish b).
Proof.
  intros Hb. unfold Finish. apply good_need_bind. intros [segment b'] Hs. apply good_ret.
  intros HG. split; [|done]. exists b, b'. auto.
Qed.

Lemma good_define_arguments G s i args : good G (define_arguments s i args).
Proof. revert G i. induction args as [|a args IH]; intros; simpl; good. Qed.
#[local] Hint Resolve good_Finish good_define_arguments : good.

Lemma good_Fn_function G args functionArgs body rest p :
  (height body < n)%nat -> good G (Fn_function CE args functionArgs body rest p).
Proof.
  intros Hh. apply good_from. intros c0 W0. unfold Fn_function. apply from_load. intros info.
  apply from_begin_function. intros fn. pose proof (context_function c0 fn) as HF.
  pose proof (cx_stable _ _ HF) as HSF. inside.
  apply (from_begin_scope c0); [done|]. intros s.
  pose proof (cx_stable _ _ (context_scope c0 _ s HF)) as HS.
  do 5 inside. apply (from_end_scope c0); [done|].
  inside. destruct x5 as [segment env].
  eapply from_bind; [by apply from_end_function|intros ?].
  pose proof (cx_stable _ _ (context_ext c0)) as HS0.
  do 3 inside. apply from_finished. good_post.
Qed.
#[local] Hint Resolve good_Fn_function : good.

Lemma good_Fn G args r : (height args < n)%nat -> good G (Compiler_CompileFn CE args r).
Proof. intros Hh. unfold Compiler_CompileFn, Fn_error. good. Qed.

(** *** compile_till.c *)

Lemma ValidateTill_cases args :
  (exists flags body whens, ValidateTill args = mret (Some (flags, body, whens))
     /\ (height body < height args)%nat /\ (height whens < height args)%nat)
  \/ ValidateTill args = Till_error.
Proof.
  unfold ValidateTill. repeat case_match; try (by right); left;
    eexists _, _, _; (split; [reflexivity|]); simpl; lia.
Qed.

Lemma good_CountFlags G flags : good G (CountFlags flags).
Proof. unfold CountFlags. good. Qed.

Lemma good_DefineVariables_loop G s ti v l i flags :
  good G (DefineVariables_loop s ti v l i flags).
Proof. revert G i. spine flags. Qed.
#[local] Hint Resolve good_DefineVariables_loop : good.

Lemma good_DefineVariables G flags k s ti v l :
  good G (DefineVariablesForFlags flags k s ti v l).
Proof. unfold DefineVariablesForFlags. good. Qed.

Lemma good_NewTill G v : good G (GenerateNewTillBlock v).
Proof. unfold GenerateNewTillBlock. good. Qed.
Lemma good_EndTill G v : good G (GenerateEndTillBlock v).
Proof. unfold GenerateEndTillBlock. good. Qed.
#[local] Hint Resolve good_CountFlags good_DefineVariables good_NewTill good_EndTill : good.

Lemma good_When G when p body last target v r b :
  (G -> block_wf b = true) -> (height body < n)%nat ->
  good G (CompileWhen CE when p body last target v r b).
Proof. intros. unfold CompileWhen. good. Qed.
#[local] Hint Resolve good_When : good.

Lemma good_Whens_loop G l k m s target v r b whens :
  (G -> block_wf b = true) -> (height whens < n)%nat ->
  good G (Whens_loop CE l k m s target v r b whens).
Proof. revert G b. spine whens. Qed.
#[local] Hint Resolve good_Whens_loop : good.

Lemma good_Whens G l k s whens target v r b :
  (G -> block_wf b = true) -> (height whens < n)%nat ->
  good G (CompileWhens CE l k s whens target v r b).
Proof. intros. unfold CompileWhens. good. Qed.

Lemma good_NullCase G l k m v r : good G (CompileNullCase l k m v r).
Proof. unfold CompileNullCase. good. Qed.

Lemma good_flag_symbol G s a : good G (flag_symbol s a).
Proof. unfold flag_symbol. good. Qed.
#[local] Hint Resolve good_Whens good_NullCase good_flag_symbol : good.

Lemma good_IsReal G s flags : good G (IsRealContinuationNeeded s flags).
Proof. revert G. spine flags. Qed.
Lemma good_Populate G s ti i flags : good G (PopulateTillBranchTargets s ti i flags).
Proof. revert G i. spine flags. Qed.
#[local] Hint Resolve good_IsReal good_Populate : good.

Lemma block_wf_Clear b : block_wf (CompiledBlock_Clear b) = true.
Proof. by destruct b. Qed.

(** Clearing an end-till block leaves real instructions. *)
Lemma block_wf_RemoveEndTill label b :
  block_wf b = true ->
  match RemoveEndTill label b with Removed b' => block_wf b' = true | _ => True end.
Proof.
  block_induction b; intros Hb; simpl in *.
  - specialize (IHany Hb). by destruct (_ l).
  - done.
  - apply andb_prop in Hb as [Ho Hl]. specialize (IH Hl).
    destruct (Nat.eqb id label).
    + destruct l as [|[]]; try done. destruct (isEndTillBlock _); [|done]. simpl in *.
      apply andb_prop in Hl as [_ ->]. by rewrite Ho, block_wf_Clear.
    + destruct (_ l); try done. simpl in *. by rewrite Ho.
  - apply andb_prop in Hb as [Hc Hl]. specialize (IH Hl). specialize (IHc Hc).
    destruct (Nat.eqb id label).
    + destruct l as [|[]]; try done. destruct (isEndTillBlock _); [|done]. simpl in *.
      apply andb_prop in Hl as [_ ->]. by rewrite Hc, block_wf_Clear.
    + destruct (RemoveEndTill label c); simpl; try done.
      * destruct (_ l); try done. simpl in *. by rewrite Hc.
      * by rewrite IHc.
Qed.

Lemma good_RemoveEndTills G s b flags :
  (G -> block_wf b = true) -> good G (RemoveEndTills s b flags).
Proof.
  revert G b. induction flags as [e He|a d src IH] using spine_ind; intros G b Hb;
    [destruct e; try done; by apply good_ret|simpl].
  apply good_bind; [good|intros ls]. apply good_need_bind. intros label _.
  pose proof (block_wf_RemoveEndTill label b) as Hr.
  destruct (RemoveEndTill label b); try done. apply IH. tauto.
Qed.

Lemma good_RemoveTill G b id s flags :
  (G -> block_wf b = true) -> good G (RemoveTillContinuation b id s flags).
Proof.
  intros Hb. unfold RemoveTillContinuation. apply good_need_bind. intros b' Hb'.
  apply good_RemoveEndTills. intros HG. exact (block_wf_Detach b id b' (Hb HG) Hb').
Qed.
#[local] Hint Resolve good_RemoveTill : good.

Lemma from_Till_loop c0 s G tillBlock whensBlock body id exitLabel :
  (G -> block_wf tillBlock = true) -> (G -> block_wf whensBlock = true) -> (height body < n)%nat ->
  from (in_new_scope c0 (ext c0) s) (ext c0) G (Till_loop CE tillBlock whensBlock body id exitLabel).
Proof.
  intros Ht Hw Hh. unfold Till_loop.
  pose proof (block_wf_AppendChild CompiledBlock_Create id tillBlock eq_refl) as Ha.
  destruct (CompiledBlock_AppendChild _ _ _) as [b appended]. simpl in Ha.
  pose proof (cx_stable _ _ (context_scope c0 _ s (context_ext c0))) as HS.
  pose proof (cx_stable _ _ (context_ext c0)) as HS0.
  inside. eapply from_bind; [apply from_good; [done|apply good_EMIT_id; tauto]|intros ?].
  do 4 inside. apply (from_end_scope c0); [apply context_ext|].
  inside. apply from_good; [done|]. good.
Qed.

Lemma good_Till G args r : (height args < n)%nat -> good G (Compiler_CompileTill CE args r).
Proof.
  intros Hh. unfold Compiler_CompileTill.
  destruct (ValidateTill_cases args) as [(flags & body & whens & -> & Hb & Hw)| ->];
    [|exact (good_fail_with G "Cannot compile [$till]: Expression is not well-formed.")].
  change (mret ?x ≫= ?f) with (f x). cbv beta iota.
  apply good_from_ext. intros c0 W0. apply (from_begin_scope c0); [apply context_ext|]. intros s.
  pose proof (cx_stable _ _ (context_scope c0 _ s (context_ext c0))) as HS.
  do 3 inside. destruct x1 as [tillBlock tillInfo].
  do 4 inside. destruct x4 as [numWhens whensBlock]. do 3 inside.
  eapply from_bind; [apply from_Till_loop; [good_post|good_post|lia]|intros b].
  pose proof (cx_stable _ _ (context_ext c0)) as HS0.
  do 2 inside. destruct x7; [inside|]; (apply from_good; [done|good]).
Qed.

(** *** compile_standardform.c, compile_expr.c *)
#[local] Hint Resolve good_Setf good_OpEquals good_Include good_If good_While good_Till good_Return
  good_Brk good_Fn good_Quote good_Prog1 good_Scope good_New good_Dot good_Index good_MethodCall
  good_TwoArguments good_OneArgument : good.

Lemma good_And G args r : (height args < n)%nat -> good G (Compiler_CompileAnd CE args r).
Proof. by apply good_AndOr. Qed.
Lemma good_Or G args r : (height args < n)%nat -> good G (Compiler_CompileOr CE args r).
Proof. by apply good_AndOr. Qed.
#[local] Hint Resolve good_And good_Or : good.

Lemma good_StandardForm G symbol args r m :
  (height args < n)%nat -> Compiler_CompileStandardForm CE symbol args r = Some m -> good G m.
Proof.
  intros Hh H. unfold Compiler_CompileStandardForm in H.
  repeat case_match; try done; injection H as <-; solve [good].
Qed.

Lemma good_Call_elements G b k list :
  (G -> block_wf b = true) -> (height list <= n)%nat -> good G (Call_elements CE b k list).
Proof. revert G b k. spine list. Qed.
#[local] Hint Resolve good_Call_elements : good.

Lemma good_Call G list old r : (height list <= n)%nat -> good G (CompileCall CE list old r).
Proof. intros Hh. unfold CompileCall. good. Qed.
#[local] Hint Resolve good_Call : good.

Lemma good_List G a d src r :
  (height (ECons a d src) <= n)%nat -> good G (CompileList CE (ECons a d src) a d r).
Proof.
  intros Hh. unfold CompileList. cbv zeta.
  apply good_bind; [good|intros old].
  assert (Hd : (height d < n)%nat) by (simpl in Hh; lia).
  destruct a; try solve [good].
  destruct (negb _); [good|].
  destruct (Compiler_CompileStandardForm _ _ _ _) as [m|] eqn:Em; [|good].
  apply good_bind; [by eapply good_StandardForm|intros]. good.
Qed.

Lemma good_body G e r : (height e <= n)%nat -> good G (CompileExpr_body CE e r).
Proof.
  intros Hh. unfold CompileExpr_body, COMPILE_PRIMITIVE_EXPR. cbv zeta.
  destruct e; try solve [good]. by apply good_List.
Qed.
End Forms_good.

(** ** Every expression *)

Section Compile_good.
Context {OE : ObjectEnv} {E : CompilerEnv}.

Lemma good_CompileExpr fuel : forall G e r,
  (height e < fuel)%nat -> good G (Compiler_CompileExpr fuel e r).
Proof.
  induction fuel as [|fuel IH]; intros G e r Hh; [lia|].
  apply good_body with fuel; [exact IH|lia].
Qed.
#[local] Hint Resolve good_Finish : good.
#[local] Hint Extern 1 (good _ (Compiler_CompileExpr _ _ _)) =>
  apply good_CompileExpr; apply Nat.lt_succ_diag_r : good.

Lemma bind_COk {A B} (m : M A) (f : A -> M B) c y c2 :
  (m ≫= f) c = COk y c2 -> exists x c1, m c = COk x c1 /\ f x c1 = COk y c2.
Proof. unfold mbind, M_bind. destruct (m c) as [x c1| | |]; try done. eauto. Qed.

(** [Compiler_CompileGlobal] after the creation of the description. *)
Lemma CompileGlobal_rest e :
  exists rest,
    Compiler_CompileGlobal e
    = (created ← UserFunctionInfo_Create None ENull e;
       p ← need (match created with inr p => Some p | inl _ => None end); rest p)
    /\ (forall p, good True (rest p))
    /\ forall p c q c', rest p c = COk q c' -> q = p /\ exists segment info c2,
         c' = upd_c_userFunctionInfos (alter (set_finished segment info) p) c2.
Proof.
  eexists (fun p => _). split; [reflexivity|]. split.
  - intros p. apply good_from. intros c0 W0. apply from_begin_function. intros fn.
    pose proof (cx_stable _ _ (context_function c0 fn)) as HSF. do 7 inside.
    destruct x5 as [segment env]. inside.
    eapply from_bind; [by apply from_end_function|intros ?].
    pose proof (cx_stable _ _ (context_ext c0)) as HS0. do 2 inside.
    eapply from_bind; [apply from_finished; good_post|intros ?]. apply from_good; [done|good].
  - intros p c q c' H. do 7 (apply bind_COk in H as (? & ? & _ & H)).
    apply bind_COk in H as ([segment env] & ? & _ & H).
    do 4 (apply bind_COk in H as (? & ? & _ & H)).
    apply bind_COk in H as (? & ? & [= <- <-] & [= <- <-]). eauto.
Qed.

Lemma Create_COk a b c x c' :
  UserFunctionInfo_Create None a b c = COk x c' ->
  match x with inr p => exists u, c_userFunctionInfos c' !! p = Some u | inl _ => True end.
Proof.
  unfold UserFunctionInfo_Create. destruct (UserFunctionInfo_ApplyArgs a); intros [= <- <-]; [done|].
  eexists. by apply list_lookup_middle.
Qed.
End Compile_good.

(** ** Scopes *)

Definition older_parents (scopes : list CompileScope) : Prop :=
  forall p s q, scopes !! p = Some s -> sc_parent s = Some q -> (q < p)%nat.

(** The walk ends, with any fuel above the scope it starts in. *)
Lemma FindSymbol_fuel scopes x : older_parents scopes ->
  forall fuel fuel' o, (forall p, o = Some p -> (p < fuel)%nat /\ (p < fuel')%nat) ->
  FindSymbol_loop fuel scopes o x = FindSymbol_loop fuel' scopes o x.
Proof.
  intros Hold fuel. induction fuel as [|fuel IH]; intros fuel' [p|] Ho;
    try (by destruct fuel'); [destruct (Ho p eq_refl); lia|].
  destruct (Ho p eq_refl) as [H1 H2]. destruct fuel' as [|fuel']; [lia|]. simpl.
  destruct (scopes !! p) as [s|] eqn:Hs; [|done]. simpl. destruct (sc_symbolDict s !! x); [done|].
  apply IH. intros q Hq. specialize (Hold p s q Hs Hq). lia.
Qed.

(** Newer scopes are not looked at. *)
Lemma FindSymbol_app scopes new x : older_parents scopes ->
  forall fuel o, (forall p, o = Some p -> (p < length scopes)%nat) ->
  FindSymbol_loop fuel (scopes ++ new) o x = FindSymbol_loop fuel scopes o x.
Proof.
  intros Hold fuel. induction fuel as [|fuel IH]; intros [p|] Ho; try done. simpl.
  specialize (Ho p eq_refl). rewrite lookup_app_l by done.
  destruct (scopes !! p) as [s|] eqn:Hs; [|done]. simpl. destruct (sc_symbolDict s !! x); [done|].
  apply IH. intros q Hq. specialize (Hold p s q Hs Hq). lia.
Qed.

(** What a symbol means at the current point. *)
Definition meaning (c : Compiler) (x : Symbol) : option nat :=
  FindSymbol_loop (length (c_scopes c)) (c_scopes c) (c_currentScope c) x.

(** ... in terms of the scopes before the newest one. *)
Lemma meaning_older c c' s x :
  wf c -> c_scopes c' = c_scopes c ++ [s] -> c_currentScope c' = c_currentScope c ->
  meaning c' x = meaning c x.
Proof.
  intros W Es Ec. unfold meaning. rewrite Es, Ec.
  rewrite FindSymbol_app by exact (w_scopes c W) || exact (w_currentScope c W). rewrite length_app.
  apply FindSymbol_fuel; [exact (w_scopes c W)|]. intros p Hp. pose proof (w_currentScope c W p Hp). simpl. lia.
Qed.

(** ** Properties *)

Section CompilerProps.
Context {OE : ObjectEnv} {E : CompilerEnv}.

(** C5: compiling any expression takes no more than its height in recursive
    calls; it keeps the compiler's data structures well-formed, adds to the stores without
    changing what is there, goes back to the function it started in and,
    unless it reports an error, to the scope; and without errors the block it
    answers contains only instructions the assembler accepts. *)
Theorem CompileExpr_disciplined (fuel : nat) (e : Expr) (noResult : bool) (c : Compiler) :
  (height e < fuel)%nat -> wf c ->
  match Compiler_CompileExpr fuel e noResult c with
  | COk b c' => wf c' /\ ext c c' /\ (c_messages c' = [] -> block_wf b = true)
  | CFuel => False
  | CAbort _ | CCrash => True
  end.
Proof.
  intros Hh W. pose proof (good_CompileExpr fuel True e noResult Hh c W) as H.
  destruct (Compiler_CompileExpr _ _ _ _); try done.
  destruct H as (? & ? & H). split; [done|]. split; [done|]. intros Hm. by apply H.
Qed.

Lemma wf_Create infos g modules : wf (Compiler_Create infos g modules).
Proof. split; simpl; try done. intros _ s H. inversion H. Qed.

(** C6: compiling a program never runs forever; without errors it ends outside of
    every function and scope, the program's function has its byte code, and the
    byte code of it and of every function inside it is what the assembler makes
    of a tree of real instructions. *)
Theorem CompileGlobal_assembles (infos : list ClosureInfo) (g : option nat)
  (modules : list (option ModuleInfo)) (e : Expr) :
  match Compiler_CompileGlobal e (Compiler_Create infos g modules) with
  | COk p c' =>
      c_messages c' = [] ->
      c_currentFunction c' = None /\ c_currentScope c' = None
      /\ (exists u segment, c_userFunctionInfos c' !! p = Some u
            /\ fn_byteCodeSegment u = Some segment)
      /\ (forall q u segment, c_userFunctionInfos c' !! q = Some u ->
            fn_byteCodeSegment u = Some segment -> assembled segment)
  | CFuel => False
  | CAbort _ | CCrash => True
  end.
Proof.
  destruct (CompileGlobal_rest e) as (rest & -> & Hgood & Hlast).
  pose proof (wf_Create infos g modules) as W. set (c0 := Compiler_Create _ _ _) in *.
  unfold mbind, M_bind, need. pose proof (good_UserFunctionInfo_Create True None ENull e c0 W) as Hc.
  destruct (UserFunctionInfo_Create _ _ _ c0) as [x c1| | |] eqn:E1; try done.
  apply Create_COk in E1. destruct Hc as (W1 & X1 & _). destruct x as [|p]; [done|].
  specialize (Hgood p c1 W1). destruct (rest p c1) as [q c'| | |] eqn:E2; try done.
  destruct Hgood as (W' & X' & _). destruct (Hlast p c1 q c' E2) as (-> & segment & info & c2 & E').
  intros Hm. pose proof (ext_trans _ _ _ X1 X') as [G F S].
  split; [by rewrite F|]. split; [by rewrite S by (by rewrite Hm)|].
  split; [|exact (w_segments c' W' Hm)].
  destruct E1 as [u Hu]. destruct (g_userFunctionInfos _ _ (e_grows _ _ X') p u Hu) as (u' & Hu' & _).
  exists u', segment. split; [done|]. rewrite E' in Hu'. simpl in Hu'.
  rewrite list_lookup_alter_eq in Hu'. by apply fmap_Some in Hu' as (v & _ & ->).
Qed.

(** C35: declaring a symbol in a new scope hides the symbol's outer meaning and
    no other's, and closing the scope brings every meaning back. *)
Theorem scopes_nest (c : Compiler) (kind : Z) (x : Symbol) (k i : Z) :
  wf c ->
  exists s c1 p c2 c3,
    Compiler_BeginScope kind c = COk s c1
    /\ CompileScope_DefineSymbol s x k i c1 = COk p c2
    /\ Compiler_EndScope c2 = COk tt c3
    /\ (forall y, CompileScope_FindSymbol (c_currentScope c2) y c2
                  = COk (if decide (y = x) then Some p else meaning c y) c2)
    /\ (forall y, CompileScope_FindSymbol (c_currentScope c3) y c3 = COk (meaning c y) c3).
Proof.
  intros W. set (s := length (c_scopes c)). set (c1 := begin_scope kind c).
  set (ls := mkLocalSymbol x k i false false false false s 0 None). set (c2 := define s x ls c1).
  assert (Hs : exists t, c_scopes c2 = c_scopes c ++ [t] /\ sc_parent t = c_currentScope c
                 /\ sc_symbolDict t = {[x := length (c_localSymbols c)]}).
  { unfold c2, c1, s. simpl. eexists. rewrite alter_app_r_alt by done. rewrite Nat.sub_diag. simpl.
    split; [reflexivity|]. split; [done|]. simpl. by rewrite insert_empty. }
  destruct Hs as (t & Hs & Hp & Hd).
  assert (Ht : c_scopes c2 !! s = Some t) by (rewrite Hs; by apply list_lookup_middle).
  assert (Hcur : c_currentScope c2 = Some s) by done.
  exists s, c1, (length (c_localSymbols c)), c2, (upd_c_currentScope (fun _ => sc_parent t) c2).
  split; [done|]. split; [done|]. split; [by apply (EndScope_eq c2 s t)|].
  clearbody c2. split; intros y; unfold CompileScope_FindSymbol, mbind, M_bind, get, mret, M_ret; f_equal.
  - rewrite Hcur. assert (Hl : length (c_scopes c2) = S (length (c_scopes c))).
    { rewrite Hs, length_app. simpl. lia. }
    rewrite Hl. simpl. rewrite Ht. simpl. rewrite Hd.
    destruct (decide (y = x)) as [->|Hne]; [by rewrite lookup_singleton_eq|].
    rewrite lookup_singleton_ne by done. rewrite Hs, Hp, FindSymbol_app by exact (w_scopes c W) || exact (w_currentScope c W).
    apply FindSymbol_fuel; [exact (w_scopes c W)|]. intros p Hq. pose proof (w_currentScope c W p Hq). lia.
  - rewrite <- (meaning_older c (upd_c_currentScope (fun _ => sc_parent t) c2) t y); done.
Qed.

(** A table that is full is copied by bytes rather than by entries: a new
    entry is found at the index that is answered, but of [i] older ones only the
    first [i / 8] survive, the others are NULL from then on. *)
Theorem Table_add_keeps {A} (t : Table (option A)) (x : A) :
  zlen (entries t) <= maxEntries t ->
  let '(i, t') := Table_add copy_pointer t (Some x) in
  i = zlen (entries t)
  /\ zlen (entries t') = i + 1 /\ i + 1 <= maxEntries t'
  /\ zget (entries t') i = Some (Some x)
  /\ forall j, 0 <= j < i ->
       zget (entries t') j
       = if (i <? maxEntries t) || (j <? i / 8) then zget (entries t) j else Some None.
Proof.
  intros Hmax. unfold Table_add, Table_grow. pose proof (zlen_nonneg (entries t)) as H0.
  assert (Hlen : forall f : nat -> option A -> option A, zlen (imap f (entries t)) = zlen (entries t)).
  { intros f. unfold zlen. by rewrite length_imap. }
  destruct (zlen (entries t) >=? maxEntries t) eqn:Efull; simpl; rewrite ?Hlen;
    (split; [done|]); autorewrite with zlen; rewrite ?Hlen.
  - apply Z.geb_le in Efull. split; [lia|]. split; [destruct (_ <? 8) eqn:E8; lia|].
    split; [rewrite zget_app_r by (rewrite Hlen; lia); by rewrite Hlen, Z.sub_diag|].
    intros j Hj. rewrite zget_app_l by (rewrite Hlen; lia).
    assert (Hb : (zlen (entries t) <? maxEntries t) = false) by (apply Z.ltb_ge; lia). rewrite Hb. simpl.
    unfold zget. destruct (Z.ltb_spec j 0); [lia|].
    rewrite list_lookup_imap. destruct (lookup_lt_is_Some_2 (entries t) (Z.to_nat j)) as [y Hy];
      [unfold zlen in *; lia|]. rewrite Hy. simpl. unfold copy_pointer. rewrite Z2Nat.id by lia.
    pose proof (Z.div_mod (zlen (entries t)) 8 ltac:(lia)).
    pose proof (Z.mod_pos_bound (zlen (entries t)) 8 ltac:(lia)).
    destruct (Z.leb_spec (8 * (j + 1)) (zlen (entries t))), (Z.ltb_spec j (zlen (entries t) / 8));
      first [done|lia].
  - rewrite Z.geb_leb in Efull. apply Z.leb_gt in Efull. split; [lia|]. split; [lia|].
    split; [rewrite zget_app_r by lia; by rewrite Z.sub_diag|].
    intros j Hj. rewrite zget_app_l by lia. by apply Z.ltb_lt in Efull as ->.
Qed.

(** a return with a value compiles the value and drops its code: whatever the value, the block is a
    single return instruction. *)
Theorem CompileReturn_drops_value CE (value : Expr) (src : Source) (noResult : bool)
  (c c' : Compiler) (b : CompiledBlock) :
  Compiler_CompileReturn CE (ECons value ENull src) noResult c = COk b c' ->
  exists id loc, instrs b = [Instr id Op_Ret loc zero None 0].
Proof.
  unfold Compiler_CompileReturn. intros H.
  apply bind_COk in H as (old & c1 & _ & H). apply bind_COk in H as (loc & c2 & _ & H).
  apply bind_COk in H as (b' & c3 & Hb & H).
  apply bind_COk in H as ([] & c4 & _ & [= <- <-]).
  apply bind_COk in Hb as (child & c5 & _ & Hb). apply bind_COk in Hb as (b2 & c6 & He & [= <- <-]).
  apply bind_COk in He as (id & c7 & _ & He). apply bind_COk in He as (l & c8 & _ & [= <- <-]).
  simpl. eauto.
Qed.
End CompilerProps.

(** ** Witnesses *)
Section Witnesses.
#[local] Existing Instance example_env.
#[local] Existing Instance example_symbols.

Definition example_start : Compiler := Compiler_Create [] None [].

Lemma CompileExpr_disciplined_witness :
  let e := ECons (ESymbol SYMBOL__PROGN) (ECons (EInteger64 1) ENull NoSource) NoSource in
  exists c1, wf c1 /\ match Compiler_CompileExpr 3 e false c1 with
  | COk b c' => wf c' /\ ext c1 c' /\ (c_messages c' = [] -> block_wf b = true)
  | CFuel => False
  | CAbort _ | CCrash => True
  end.
Proof.
  intros e. exists (begin_function ENull ENull 0
    (mkClosureInfo None None CLOSURE_KIND_LOCAL 0 0 0 ∅ []) example_start).
  assert (W : wf (begin_function ENull ENull 0
    (mkClosureInfo None None CLOSURE_KIND_LOCAL 0 0 0 ∅ []) example_start))
    by (apply wf_begin_function; [apply wf_Create|done]).
  split; [exact W|]. apply (CompileExpr_disciplined 3 e false); [unfold e; simpl; lia|exact W].
Defined.

Lemma scopes_nest_witness :
  exists s c1 p c2 c3,
    Compiler_BeginScope PARSESCOPE_SCOPEDECL example_start = COk s c1
    /\ CompileScope_DefineSymbol s 200 PARSEDECL_VARIABLE 0 c1 = COk p c2
    /\ Compiler_EndScope c2 = COk tt c3
    /\ CompileScope_FindSymbol (c_currentScope c2) 200 c2 = COk (Some p) c2.
Proof.
  destruct (scopes_nest example_start PARSESCOPE_SCOPEDECL 200 PARSEDECL_VARIABLE 0 (wf_Create _ _ _))
    as (s & c1 & p & c2 & c3 & H1 & H2 & H3 & H4 & _).
  exists s, c1, p, c2, c3. split; [exact H1|]. split; [exact H2|]. split; [exact H3|].
  exact (H4 200).
Defined.

(** A table of nine entries and no room: only the first one survives. *)
Definition example_table : Table (option Z) := mkTable (Some <$> [10; 11; 12; 13; 14; 15; 16; 17; 18]%Z) 9.

Lemma Table_add_keeps_witness :
  let t' := snd (Table_add copy_pointer example_table (Some 19%Z)) in
  zget (entries t') 9 = Some (Some 19%Z) /\ zget (entries t') 0 = Some (Some 10%Z)
  /\ zget (entries t') 1 = Some None.
Proof.
  destruct (Table_add_keeps example_table 19%Z ltac:(vm_compute; discriminate))
    as (_ & _ & _ & H & Hj).
  split; [exact H|]. split; [exact (Hj 0 ltac:(vm_compute; split; [discriminate|reflexivity]))|].
  exact (Hj 1 ltac:(vm_compute; split; [discriminate|reflexivity])).
Defined.

Lemma CompileReturn_drops_value_witness :
  exists b c' id loc,
    Compiler_CompileReturn (Compiler_CompileExpr 1) (ECons (EInteger64 7) ENull NoSource) false
      (begin_function ENull ENull 0 (mkClosureInfo None None CLOSURE_KIND_LOCAL 0 0 0 ∅ []) example_start)
    = COk b c' /\ instrs b = [Instr id Op_Ret loc zero None 0].
Proof.
  edestruct (CompileReturn_drops_value (Compiler_CompileExpr 1) (EInteger64 7) NoSource false
    (begin_function ENull ENull 0 (mkClosureInfo None None CLOSURE_KIND_LOCAL 0 0 0 ∅ []) example_start))
    as (id & loc & H); [reflexivity|].
  eexists _, _, id, loc. split; [reflexivity|exact H].
Defined.
End Witnesses.
