(* ===== verification/CompileRun.v ===== *)
(** * CompileRun: compiled code on the virtual machine

    The scope analysis of the compiler against the closures of the machine: the
    instruction emitted for a variable reaches, from the closure of the function
    that is being compiled, the variable of the function that declares it. *)

From S2P Require Import Prelude Opcode ByteCode CompiledBlock Object Expr Closure.
From S2P Require Import Machine FnCall Eval EvalProps Compiler KnownSymbols CompileForms CompilerInvariant CompilerProps.
Import Operand.

(** ** Emission *)

Lemma EMIT1_eq c p f b op delta u :
  c_currentFunction c = Some p -> c_functions c !! p = Some f ->
  EMIT1 b op delta u c
  = COk (CompiledBlock_Emit b (c_nextId c) op delta (cf_currentSourceLocation f) u None)
        (upd_c_nextId S c).
Proof.
  intros Hp Hf. unfold EMIT1, EMIT_id, freshId, currentSourceLocation, current, currentFunction, load,
    get, need, modify, mbind, M_bind, mret, M_ret. simpl. rewrite Hp. simpl. by rewrite Hf.
Qed.

Lemma Emit_instrs b id op delta loc u :
  instrs (CompiledBlock_Emit b id op delta loc u None)
  = instrs b ++ [Instr id op (wrapU 32 loc) u None 0].
Proof. destruct b. unfold CompiledBlock_Emit. simpl. by case_match. Qed.

Lemma relativeDepth_current ls c d c' :
  relativeDepth ls c = COk d c' ->
  exists p f, c_currentFunction c = Some p /\ c_functions c !! p = Some f.
Proof.
  unfold relativeDepth, current, currentFunction, load, need, get, mbind, M_bind. simpl.
  destruct (c_currentFunction c) as [p|]; [simpl|done].
  destruct (c_functions c !! p) as [f|] eqn:Hf; [eauto|done].
Qed.

(** ** Variables *)

(** The symbol [x] means the local symbol [ls], an argument or a variable of a
    function [d] levels out from the one being compiled. *)
Definition resolves (c : Compiler) (x : Symbol) (p : nat) (ls : CompiledLocalSymbol) (d : Z) : Prop :=
  meaning c x = Some p /\ c_localSymbols c !! p = Some ls /\ relativeDepth ls c = COk d c.

(** The kinds of declarations that can be read as a variable of the closure
    ([local]) or as an argument, and those that can be assigned to. *)
Definition readable (local : bool) (kind : Z) : bool :=
  if local then (kind =? PARSEDECL_VARIABLE) || (kind =? PARSEDECL_CONST) || (kind =? PARSEDECL_AUTO)
  else kind =? PARSEDECL_ARGUMENT.
Definition writable (local : bool) (kind : Z) : bool :=
  if local then (kind =? PARSEDECL_VARIABLE) || (kind =? PARSEDECL_SETONCECONST)
                || (kind =? PARSEDECL_SETONCEAUTO)
  else kind =? PARSEDECL_ARGUMENT.

Lemma resolves_depth c x p ls d :
  wf c -> c_messages c = [] -> resolves c x p ls d -> 0 <= d.
Proof.
  intros W Hm (Hx & Hls & Hd). destruct (FindSymbol_in_scope c x p W Hx ls Hls) as (s & Hs & Hr).
  by destruct (relativeDepth_nonneg c ls s d c W Hm Hs Hr Hd).
Qed.

Lemma Opcode_add_fixed (local : bool) d : 0 <= d <= 7 ->
  Opcode_add (if local then Op_LdLoc0 else Op_LdArg0) d = ld_fixed local (Z.to_nat d)
  /\ Opcode_add (if local then Op_StLoc0 else Op_StArg0) d = st_fixed local (Z.to_nat d)
  /\ Opcode_add (if local then Op_StpLoc0 else Op_StpArg0) d = stp_fixed local (Z.to_nat d).
Proof.
  intros Hd.
  assert (d = 0 \/ d = 1 \/ d = 2 \/ d = 3 \/ d = 4 \/ d = 5 \/ d = 6 \/ d = 7) as Hcases by lia.
  destruct local; repeat (destruct Hcases as [->|Hcases]; [by split|]); subst; by split.
Qed.

(** The instruction that a load or store of [CompileForms] emits, and what it does. *)
Section Runs.
Context {OE : ObjectEnv} (P : Program).

Lemma load_runs (local : bool) (d index loc : Z) (m : Machine) :
  0 <= d -> inS 32 d -> inS 32 index ->
  eval_instruction P
    (if d <=? 7
     then mkByteCode (Opcode_add (if local then Op_LdLoc0 else Op_LdArg0) d) loc (set_index zero index)
     else mkByteCode (if local then Op_LdLoc else Op_LdArg) loc (i2 d index)) m
  = load_variable m ((if local then Closure_GetLocalVariableInScope else Closure_GetArgumentInScope)
                       (store m) (cur m) d index).
Proof.
  intros Hd Hd32 Hi. destruct (Z.leb_spec d 7).
  - destruct (Opcode_add_fixed local d ltac:(lia)) as (-> & _).
    destruct (fixed_runs P m local (Z.to_nat d) index loc) as (-> & _); [lia|by apply inS_32_64|].
    destruct (scope_runs m local (Z.to_nat d) index) as [-> _]. by rewrite Z2Nat.id.
  - by destruct (general_runs P m local d index loc Hd32 Hi) as (-> & _).
Qed.

Lemma store_runs (local noResult : bool) (d index loc : Z) (m : Machine) :
  0 <= d -> inS 32 d -> inS 32 index ->
  eval_instruction P
    (if d <=? 7
     then mkByteCode
       (Opcode_add (if noResult then if local then Op_StpLoc0 else Op_StpArg0
                    else if local then Op_StLoc0 else Op_StArg0) d) loc (set_index zero index)
     else mkByteCode (if noResult then if local then Op_StpLoc else Op_StpArg
                      else if local then Op_StLoc else Op_StArg) loc (i2 d index)) m
  = (if noResult then store_pop else store_top) m
      (fun s => (if local then Closure_SetLocalVariableInScope else Closure_SetArgumentInScope)
                  s (cur m) d index).
Proof.
  intros Hd Hd32 Hi. destruct (Z.leb_spec d 7).
  - destruct (Opcode_add_fixed local d ltac:(lia)) as (_ & Es & Ep).
    destruct (fixed_runs P m local (Z.to_nat d) index loc) as (_ & Fs & Fp); [lia|by apply inS_32_64|].
    destruct (scope_runs m local (Z.to_nat d) index) as [_ Hset]. rewrite Z2Nat.id in Hset by lia.
    destruct noResult; [rewrite Ep, Fp; by apply store_pop_ext|rewrite Es, Fs; by apply store_top_ext].
  - destruct (general_runs P m local d index loc Hd32 Hi) as (_ & Gs & Gp).
    by destruct noResult.
Qed.
End Runs.

(** ** Properties *)

Section CompileRunProps.
Context {OE : ObjectEnv} {E : CompilerEnv}.

(** The state a load or store leaves: one instruction more, and the symbol marked. *)
Lemma CompileLoad_eq c x p ls d (local : bool) :
  resolves c x p ls d ->
  exists b c' id op loc u,
    CompileLoad (if local then Op_LdLoc0 else Op_LdArg0) (if local then Op_LdLoc else Op_LdArg) p false c
      = COk b c'
    /\ instrs b = [Instr id op loc u None 0] /\ finalStackDelta b = 1
    /\ mkByteCode op loc u
       = (if d <=? 7
          then mkByteCode (Opcode_add (if local then Op_LdLoc0 else Op_LdArg0) d) loc
                 (set_index zero (ls_index ls))
          else mkByteCode (if local then Op_LdLoc else Op_LdArg) loc (i2 d (ls_index ls))).
Proof.
  intros (_ & Hls & Hd). destruct (relativeDepth_current ls c d c Hd) as (q & f & Hq & Hf).
  unfold CompileLoad, mark, update, modify, mbind, M_bind, load, get, need, mbind, M_bind.
  rewrite Hls, Hd. destruct (d <=? 7); unfold EMIT2; erewrite EMIT1_eq by eassumption;
    do 6 eexists; by repeat split.
Qed.

Lemma CompileStore_eq c x p ls d b0 (local noResult : bool) :
  resolves c x p ls d ->
  exists b c' id op loc u,
    CompileStore (if local then Op_StpLoc0 else Op_StpArg0) (if local then Op_StpLoc else Op_StpArg)
      (if local then Op_StLoc0 else Op_StArg0) (if local then Op_StLoc else Op_StArg) p noResult b0 c
      = COk b c'
    /\ instrs b = instrs b0 ++ [Instr id op loc u None 0]
    /\ mkByteCode op loc u
       = (if d <=? 7
          then mkByteCode
            (Opcode_add (if noResult then if local then Op_StpLoc0 else Op_StpArg0
                         else if local then Op_StLoc0 else Op_StArg0) d) loc
            (set_index zero (ls_index ls))
          else mkByteCode (if noResult then if local then Op_StpLoc else Op_StpArg
                           else if local then Op_StLoc else Op_StArg) loc (i2 d (ls_index ls))).
Proof.
  intros (_ & Hls & Hd). destruct (relativeDepth_current ls c d c Hd) as (q & f & Hq & Hf).
  unfold CompileStore, mark, update, modify, mbind, M_bind, load, get, need, mbind, M_bind.
  rewrite Hls, Hd. destruct (d <=? 7), noResult; unfold EMIT2; erewrite EMIT1_eq by eassumption;
    do 6 eexists; (split; [reflexivity|]); (split; [apply Emit_instrs|done]).
Qed.

(** C7: reading a variable. In an error-free compile, the single instruction emitted for a symbol
    that means an argument or a local variable pushes, on every machine, exactly
    that variable of the closure as many levels out as there are functions between the
    use and the declaration, whichever of the two encodings was chosen. *)
Theorem LoadVariable_runs (c : Compiler) (x : Symbol) (p : nat) (ls : CompiledLocalSymbol) (d : Z)
  (local : bool) :
  wf c -> c_messages c = [] -> resolves c x p ls d -> readable local (ls_kind ls) = true ->
  inS 32 d -> inS 32 (ls_index ls) ->
  exists b c' id op loc u,
    Compiler_CompileLoadVariable x false c = COk b c'
    /\ instrs b = [Instr id op loc u None 0] /\ finalStackDelta b = 1
    /\ forall (P : Program) (m : Machine),
         eval_instruction P (mkByteCode op loc u) m
         = load_variable m
             ((if local then Closure_GetLocalVariableInScope else Closure_GetArgumentInScope)
                (store m) (cur m) d (ls_index ls)).
Proof.
  intros W Hm Hr Hk Hd Hi. pose proof (resolves_depth c x p ls d W Hm Hr) as H0.
  destruct (CompileLoad_eq c x p ls d local Hr) as (b & c' & id & op & loc & u & Eb & Hb & Hdelta & Eu).
  exists b, c', id, op, loc, u. split.
  - destruct Hr as (Hx & Hls & _). unfold meaning in Hx.
    unfold Compiler_CompileLoadVariable, CompileScope_FindSymbol, mbind, M_bind, load, get, need, mbind,
      M_bind, mret, M_ret. rewrite Hx, Hls. rewrite <- Eb. unfold readable in Hk.
    destruct local; [|apply Z.eqb_eq in Hk as ->; reflexivity].
    apply orb_prop in Hk as [Hk|Hk]; [apply orb_prop in Hk as [Hk|Hk]|];
      apply Z.eqb_eq in Hk as ->; reflexivity.
  - split; [done|]. split; [done|]. intros P m. rewrite Eu. by apply load_runs.
Qed.

(** C8: assigning to a variable. The single instruction emitted after the code of the
    value stores the top of the stack, on every machine, into exactly the variable
    of the closure that declares it, popping the value if no result is wanted. *)
Theorem StoreVariable_runs (c : Compiler) (x : Symbol) (p : nat) (ls : CompiledLocalSymbol) (d : Z)
  (b0 : CompiledBlock) (local noResult : bool) :
  wf c -> c_messages c = [] -> resolves c x p ls d -> writable local (ls_kind ls) = true ->
  inS 32 d -> inS 32 (ls_index ls) ->
  exists b c' id op loc u,
    Compiler_CompileStoreVariable x noResult b0 c = COk b c'
    /\ instrs b = instrs b0 ++ [Instr id op loc u None 0]
    /\ forall (P : Program) (m : Machine),
         eval_instruction P (mkByteCode op loc u) m
         = (if noResult then store_pop else store_top) m
             (fun s => (if local then Closure_SetLocalVariableInScope else Closure_SetArgumentInScope)
                         s (cur m) d (ls_index ls)).
Proof.
  intros W Hm Hr Hk Hd Hi. pose proof (resolves_depth c x p ls d W Hm Hr) as H0.
  destruct (CompileStore_eq c x p ls d b0 local noResult Hr)
    as (b & c' & id & op & loc & u & Eb & Hb & Eu).
  assert (exists c'', Compiler_CompileStoreVariable x noResult b0 c = COk b c'') as [c'' Ec].
  { destruct Hr as (Hx & Hls & _). unfold meaning in Hx.
    unfold Compiler_CompileStoreVariable, CompileScope_FindSymbol, mbind, M_bind, load, get, need, mbind,
      M_bind, mret, M_ret. rewrite Hx, Hls. unfold writable in Hk.
    destruct local; [|apply Z.eqb_eq in Hk as ->; simpl; eauto].
    apply orb_prop in Hk as [Hk|Hk]; [apply orb_prop in Hk as [Hk|Hk]|];
      apply Z.eqb_eq in Hk as ->; simpl; unfold Compiler_CompileStoreLocalVariable; rewrite Eb; eauto. }
  exists b, c'', id, op, loc, u. split; [done|]. split; [done|]. intros P m. rewrite Eu.
  by apply store_runs.
Qed.
End CompileRunProps.

(** ** Witnesses *)
Section Witnesses.
#[local] Existing Instance example_env.
#[local] Existing Instance example_symbols.

(** Inside a function and a scope that declares the variable 200, next to an
    argument 201. *)
Definition example_setup : M nat :=
  fn ← Compiler_BeginFunction ENull ENull;
  s ← Compiler_BeginScope PARSESCOPE_SCOPEDECL;
  i ← CompilerFunction_AddLocal 200;
  CompileScope_DefineSymbol s 201 PARSEDECL_ARGUMENT 3 ;;
  CompileScope_DefineSymbol s 200 PARSEDECL_VARIABLE i.

Definition example_compiler : Compiler :=
  match example_setup (Compiler_Create [] None []) with
  | COk _ c => c
  | _ => Compiler_Create [] None []
  end.

Lemma wf_example_compiler : wf example_compiler.
Proof.
  set (c1 := begin_function ENull ENull 0
               (mkClosureInfo None None CLOSURE_KIND_LOCAL 0 0 0 ∅ []) (Compiler_Create [] None [])).
  assert (W1 : wf c1) by (apply wf_begin_function; [apply wf_Create|done]).
  set (c2 := begin_scope PARSESCOPE_SCOPEDECL c1).
  assert (W2 : wf c2) by (by apply wf_begin_scope).
  assert (Hadd : good True (CompilerFunction_AddLocal 200)) by apply good_AddLocal.
  specialize (Hadd c2 W2). destruct (CompilerFunction_AddLocal 200 c2) as [i c3| | |] eqn:E3; try done.
  destruct Hadd as (W3 & _). vm_compute in E3. injection E3 as <- E3.
  destruct (inert_define 0 201 (mkLocalSymbol 201 PARSEDECL_ARGUMENT 3 false false false false 0 0 None)
              eq_refl c3 W3) as [W4 _].
  destruct (inert_define 0 200 (mkLocalSymbol 200 PARSEDECL_VARIABLE 0 false false false false 0 0 None)
              eq_refl _ W4) as [W5 _].
  replace example_compiler with
    (define 0 200 (mkLocalSymbol 200 PARSEDECL_VARIABLE 0 false false false false 0 0 None)
       (define 0 201 (mkLocalSymbol 201 PARSEDECL_ARGUMENT 3 false false false false 0 0 None) c3)).
  - exact W5.
  - rewrite <- E3. vm_compute. reflexivity.
Qed.

Lemma LoadVariable_runs_witness :
  exists b c' id op loc u,
    Compiler_CompileLoadVariable 200 false example_compiler = COk b c'
    /\ instrs b = [Instr id op loc u None 0] /\ finalStackDelta b = 1
    /\ forall (P : Program) (m : Machine),
         eval_instruction P (mkByteCode op loc u) m
         = load_variable m (Closure_GetLocalVariableInScope (store m) (cur m) 0 0).
Proof.
  apply (LoadVariable_runs example_compiler 200 1
           (mkLocalSymbol 200 PARSEDECL_VARIABLE 0 false false false false 0 0 None) 0 true);
    first [exact wf_example_compiler|done|by repeat split|by vm_compute].
Defined.

Lemma StoreVariable_runs_witness :
  exists b c' id op loc u,
    Compiler_CompileStoreVariable 201 true CompiledBlock_Create example_compiler = COk b c'
    /\ instrs b = [] ++ [Instr id op loc u None 0]
    /\ forall (P : Program) (m : Machine),
         eval_instruction P (mkByteCode op loc u) m
         = store_pop m (fun s => Closure_SetArgumentInScope s (cur m) 0 3).
Proof.
  apply (StoreVariable_runs example_compiler 201 0
           (mkLocalSymbol 201 PARSEDECL_ARGUMENT 3 false false false false 0 0 None) 0
           CompiledBlock_Create false true);
    first [exact wf_example_compiler|done|by repeat split|by vm_compute].
Defined.
End Witnesses.
