(* ===== verification/Reference.v ===== *)
(** * Reference: the meaning of a core of the language

    A definitional interpreter for the expressions without calls, functions and
    tills: literals, variables, assignments, sequences, conditionals, loops and
    local scopes. It knows nothing of the compiler or the machine; variables are
    a list of bindings, innermost first. [ProgramCorrect] proves that the
    compiled code computes the same on the machine.

    The special forms mean what src/smilelib's compiler documents in the comments
    above each form, with three restrictions ([supported]): a loop is a
    statement, since the stack space of a loop that yields a value is miscounted;
    [===] and [!==] are not statements and their operands always leave a value,
    since their counters are those of the operands before they are adjusted; and
    [$not] is about booleans, since [Op_Not] looks at stale bits of the others. *)

From S2P Require Import Prelude Opcode ByteCode Object Expr Compiler KnownSymbols CompileForms.
Import Operand.

(** ** Values and bindings *)

(** Null, and the scalars with the bits of their width. *)
Inductive Value := VNull | VScalar (k : ScalarKind) (bits : Z).

Notation Env := (list (Symbol * Value)).

Definition VBool (b : bool) : Value := VScalar KBool (if b then 1 else 0).

Section Reference.
Context {OE : ObjectEnv} {E : CompilerEnv}.

Definition truth (v : Value) : bool :=
  match v with VNull => false | VScalar k u => unboxed_toBool k u end.

Definition super_equal (v w : Value) : bool :=
  match v, w with
  | VNull, VNull => true
  | VScalar k a, VScalar k' b => bool_decide (k = k') && scalar_eq k a b
  | _, _ => false
  end.

(** The negation of a boolean. *)
Definition negation (v : Value) : option Value :=
  match v with VScalar KBool u => Some (VBool (u =? 0)) | _ => None end.

(** The innermost binding of a name. *)
Fixpoint index_of (x : Symbol) (xs : list Symbol) : option nat :=
  match xs with
  | [] => None
  | y :: xs => if y =? x then Some O else S <$> index_of x xs
  end.

Definition env_get (env : Env) (x : Symbol) : option Value :=
  k ← index_of x env.*1; snd <$> env !! k.

Definition env_set (env : Env) (x : Symbol) (v : Value) : option Env :=
  k ← index_of x env.*1; Some (<[k := (x, v)]> env).

(** ** Literals *)

Definition scalar (k : ScalarKind) (v : Z) : option Value := Some (VScalar k (scalar_bits k v)).

Definition literal (e : Expr) : option Value :=
  match e with
  | ENull => Some VNull
  | EBool b => Some (VBool b)
  | EChar ch => scalar KChar ch
  | EUni code => scalar KUni code
  | EByte v => scalar KByte v
  | EInteger16 v => scalar KInteger16 v
  | EInteger32 v => scalar KInteger32 v
  | EInteger64 v => scalar KInteger64 v
  | EReal32 bits => scalar KReal32 bits
  | EReal64 bits => scalar KReal64 bits
  | EFloat32 bits => scalar KFloat32 bits
  | EFloat64 bits => scalar KFloat64 bits
  | _ => None
  end.

(** [[$quote a]]: a symbol is a value, a literal itself. *)
Definition quoted (a : Expr) : option Value :=
  match a with ESymbol s => scalar KSymbol s | _ => literal a end.

(** ** Forms *)

Section Forms.
Variable eval : Env -> Expr -> option (Value * Env).

(** A condition, below any number of [not]s. *)
Definition eval_condition (env : Env) (condition : Expr) : option (bool * Env) :=
  let '(condition, not) := Compiler_StripNots condition in
  '(v, env) ← eval env condition;
  Some (xorb not (truth v), env).

(** All of the list, for the value of the last. *)
Fixpoint eval_sequence (env : Env) (args : Expr) : option (Value * Env) :=
  match args with
  | ECons a next _ =>
      '(v, env) ← eval env a;
      if isList next then eval_sequence env next else Some (v, env)
  | _ => Some (VNull, env)
  end.

(** All of the list, for its effects. *)
Fixpoint eval_each (env : Env) (args : Expr) : option Env :=
  match args with
  | ECons a next _ => '(_, env) ← eval env a; eval_each env next
  | _ => Some env
  end.

(** [$and] and [$or]: the conditions up to the first that is [stop]. *)
Fixpoint eval_until (stop : bool) (env : Env) (args : Expr) : option (Value * Env) :=
  match args with
  | ECons a d _ =>
      '(b, env) ← eval_condition env a;
      if Bool.eqb b stop then Some (VBool stop, env) else eval_until stop env d
  | _ => Some (VBool (negb stop), env)
  end.

(** A clause that is left out keeps the value it is given. *)
Definition eval_clause (env : Env) (v : Value) (clause : Expr) : option (Value * Env) :=
  if isNull clause then Some (v, env) else eval env clause.

(** A loop of a first clause, a condition and a second clause; with both clauses
    it ends when the condition is true ([until]), otherwise when it is false.
    The value is that of the clause, the first if there are both. *)
Fixpoint eval_loop (fuel : nat) (until : bool) (preClause condition postClause : Expr)
  (env : Env) (v : Value) : option (Value * Env) :=
  match fuel with
  | O => None
  | S fuel =>
      '(v, env) ← eval_clause env v preClause;
      '(b, env) ← eval_condition env condition;
      if xorb until b then
        '(w, env) ← eval_clause env v postClause;
        eval_loop fuel until preClause condition postClause env (if isNull preClause then w else v)
      else Some (v, env)
  end.

Definition eval_while (fuel : nat) (env : Env) (args : Expr) : option (Value * Env) :=
  '(preClause, condition, postClause) ← While_parts args;
  eval_loop fuel (negb (isNull preClause) && negb (isNull postClause)) preClause condition postClause
    env VNull.

(** The names declared by a [$scope]. *)
Fixpoint scope_names (vars : Expr) : option (list Symbol) :=
  match vars with
  | ENull => Some []
  | ECons (ESymbol x) d _ => cons x <$> scope_names d
  | _ => None
  end.

Definition eval_scope (env : Env) (vars body : Expr) : option (Value * Env) :=
  names ← scope_names vars;
  '(v, env) ← eval_sequence (((fun x => (x, VNull)) <$> reverse names) ++ env) body;
  Some (v, drop (length names) env).

Definition eval_form (fuel : nat) (env : Env) (s : Symbol) (args : Expr) : option (Value * Env) :=
  if s =? SYMBOL__SET then
    match args with
    | ECons (ESymbol x) (ECons value ENull _) _ =>
        '(v, env) ← eval env value; env ← env_set env x v; Some (v, env)
    | _ => None
    end
  else if s =? SYMBOL__IF then
    match args with
    | ECons condition (ECons thenClause rest _) _ =>
        elseClause ← If_else rest;
        '(b, env) ← eval_condition env condition;
        eval env (if b : bool then thenClause else elseClause)
    | _ => None
    end
  else if s =? SYMBOL__WHILE then eval_while fuel env args
  else if s =? SYMBOL__QUOTE then
    match args with ECons a ENull _ => v ← quoted a; Some (v, env) | _ => None end
  else if s =? SYMBOL__PROG1 then
    match args with
    | ECons a rest _ => '(v, env) ← eval env a; env ← eval_each env rest; Some (v, env)
    | _ => None
    end
  else if s =? SYMBOL__PROGN then eval_sequence env args
  else if s =? SYMBOL__SCOPE then
    match args with ECons vars rest _ => eval_scope env vars rest | _ => None end
  else if (s =? SYMBOL__EQ) || (s =? SYMBOL__NE) then
    match args with
    | ECons a (ECons b ENull _) _ =>
        '(v, env) ← eval env a;
        '(w, env) ← eval env b;
        Some (VBool (xorb (s =? SYMBOL__NE) (super_equal v w)), env)
    | _ => None
    end
  else if s =? SYMBOL__AND then eval_until false env args
  else if s =? SYMBOL__OR then eval_until true env args
  else if s =? SYMBOL__NOT then
    match args with
    | ECons a ENull _ => '(v, env) ← eval env a; v ← negation v; Some (v, env)
    | _ => None
    end
  else None.
End Forms.

(** The fuel bounds the height of the expression and the rounds of each loop. *)
Fixpoint eval (fuel : nat) (env : Env) (e : Expr) : option (Value * Env) :=
  match fuel with
  | O => None
  | S fuel =>
      match e with
      | ESymbol x => v ← env_get env x; Some (v, env)
      | ECons (ESymbol s) args _ => eval_form (eval fuel) fuel env s args
      | _ => v ← literal e; Some (v, env)
      end
  end.

(** ** The core

    The expressions the compiler is proved correct for, given the names in scope
    and whether the result is dropped ([noResult]). *)

(** The code of the expression leaves a value of its own when one is wanted; an
    empty sequence does not, its user supplies the null. *)
Definition leaves_value (e : Expr) : bool :=
  match e with
  | ECons (ESymbol s) args _ =>
      if s =? SYMBOL__PROGN then isList args
      else if s =? SYMBOL__SCOPE then match args with ECons _ rest _ => isList rest | _ => false end
      else true
  | _ => true
  end.

Definition is_sequence (args : Expr) : bool := isList args || isNull args.

(** [supported_seq] is about the body of a sequence, [supported_each] about
    expressions that are all evaluated with or without result, [supported_tests]
    about the operands of [$and] and [$or]. *)
Inductive supported : list Symbol -> bool -> Expr -> Prop :=
  | sup_literal xs noResult e v : literal e = Some v -> supported xs noResult e
  | sup_variable xs noResult x : x ∈ xs -> supported xs noResult (ESymbol x)
  | sup_quote xs noResult a v s1 s2 :
      quoted a = Some v ->
      supported xs noResult (ECons (ESymbol SYMBOL__QUOTE) (ECons a ENull s2) s1)
  | sup_set xs noResult x e s1 s2 s3 :
      x ∈ xs -> supported xs false e ->
      supported xs noResult
        (ECons (ESymbol SYMBOL__SET) (ECons (ESymbol x) (ECons e ENull s3) s2) s1)
  | sup_progn xs noResult args s1 :
      is_sequence args = true -> supported_seq xs noResult args ->
      supported xs noResult (ECons (ESymbol SYMBOL__PROGN) args s1)
  | sup_prog1 xs noResult a rest s1 s2 :
      supported xs noResult a -> supported_each xs false rest ->
      supported xs noResult (ECons (ESymbol SYMBOL__PROG1) (ECons a rest s2) s1)
  | sup_if xs noResult condition thenClause elseClause rest s1 s2 s3 :
      If_else rest = Some elseClause ->
      supported xs false (fst (Compiler_StripNots condition)) ->
      supported xs noResult (fst (Compiler_StripNots condition)) ->
      supported xs noResult thenClause -> supported xs noResult elseClause ->
      supported xs noResult
        (ECons (ESymbol SYMBOL__IF) (ECons condition (ECons thenClause rest s3) s2) s1)
  | sup_and xs noResult args s1 :
      0 < SmileList_Length args -> supported_tests xs args ->
      supported xs noResult (ECons (ESymbol SYMBOL__AND) args s1)
  | sup_or xs noResult args s1 :
      0 < SmileList_Length args -> supported_tests xs args ->
      supported xs noResult (ECons (ESymbol SYMBOL__OR) args s1)
  | sup_not xs noResult a s1 s2 :
      supported xs noResult a ->
      supported xs noResult (ECons (ESymbol SYMBOL__NOT) (ECons a ENull s2) s1)
  | sup_equal xs s a b s1 s2 s3 :
      s = SYMBOL__EQ \/ s = SYMBOL__NE ->
      supported xs false a -> supported xs false b ->
      leaves_value a = true -> leaves_value b = true ->
      supported xs false (ECons (ESymbol s) (ECons a (ECons b ENull s3) s2) s1)
  | sup_while xs args preClause condition postClause s1 :
      While_parts args = Some (preClause, condition, postClause) ->
      supported xs true preClause ->
      supported xs false (fst (Compiler_StripNots condition)) ->
      supported xs true postClause ->
      supported xs true (ECons (ESymbol SYMBOL__WHILE) args s1)
  | sup_scope xs noResult vars names rest s1 s2 :
      scope_names vars = Some names -> isList vars = true -> is_sequence rest = true ->
      supported_seq (reverse names ++ xs) noResult rest ->
      supported xs noResult (ECons (ESymbol SYMBOL__SCOPE) (ECons vars rest s2) s1)
with supported_seq : list Symbol -> bool -> Expr -> Prop :=
  | seq_end xs noResult args : isList args = false -> supported_seq xs noResult args
  | seq_last xs noResult a next s :
      isList next = false -> supported xs noResult a -> supported_seq xs noResult (ECons a next s)
  | seq_cons xs noResult a next s :
      isList next = true -> supported xs true a -> supported_seq xs noResult next ->
      supported_seq xs noResult (ECons a next s)
with supported_each : list Symbol -> bool -> Expr -> Prop :=
  | each_end xs noResult args : isList args = false -> supported_each xs noResult args
  | each_cons xs noResult a next s :
      supported xs noResult a -> supported_each xs noResult next ->
      supported_each xs noResult (ECons a next s)
with supported_tests : list Symbol -> Expr -> Prop :=
  | tests_end xs args : isList args = false -> supported_tests xs args
  | tests_cons xs a next s :
      supported xs false (fst (Compiler_StripNots a)) -> supported_tests xs next ->
      supported_tests xs (ECons a next s).

End Reference.
