(* ===== verification/RunBlock.v ===== *)
(** * RunBlock: running the code of a block

    The code of a tree of blocks inside a byte-code segment, runs of the machine
    through it, and frames: closures that hold given bindings in given slots and
    given values on their stack. *)

From S2P Require Import Prelude Opcode ByteCode CompiledBlock Object Expr Closure.
From S2P Require Import Machine FnCall Eval EvalProps Compiler KnownSymbols CompileForms CompilerInvariant Reference.
Import Operand.

(** ** Code and labels of lists of instructions *)

Definition size (l : list IntermediateInstruction) : Z := block_size (leaves l).

(** The names of the instructions of a block, its children included. *)
Definition ids (l : list IntermediateInstruction) : list nat := (addresses (leaves l)).*1.

Lemma size_nil : size [] = 0.
Proof. done. Qed.
Lemma size_app l k : size (l ++ k) = size l + size k.
Proof. apply block_size_app. Qed.
Lemma size_instr id op loc o t a : size [Instr id op loc o t a] = if isLabel op then 0 else 1.
Proof. unfold size. rewrite block_size_instr. by destruct (isLabel op). Qed.
Lemma size_block id loc o c a : size [BlockInstr id loc o c a] = size (instrs c).
Proof. unfold size. rewrite block_size_block, block_size_leaves. change (block_size (leaves [])) with 0. lia. Qed.
Lemma size_nonneg l : 0 <= size l.
Proof. apply block_size_nonneg. Qed.

Lemma labels_ids pc b : (block_labels pc b).*1 = (addresses b).*1.
Proof.
  revert pc. block_induction b; intros pc; simpl in *; [apply IHany|done| |].
  - f_equal. apply IH.
  - f_equal. rewrite !fmap_app. f_equal; [apply IHc|apply IH].
Qed.

Lemma addresses_app l k : addresses (leaves (l ++ k)) = addresses (leaves l) ++ addresses (leaves k).
Proof.
  induction l as [|[id op loc o t a|id loc o c a] l IH]; unfold leaves in *; simpl in *; [done|..];
    rewrite IH; [done|]. by rewrite <- app_assoc.
Qed.

Lemma ids_app l k : ids (l ++ k) = ids l ++ ids k.
Proof. unfold ids. by rewrite addresses_app, fmap_app. Qed.
Lemma ids_instr id op loc o t a : ids [Instr id op loc o t a] = [id].
Proof. done. Qed.
Lemma ids_block id loc o c a : ids [BlockInstr id loc o c a] = id :: ids (instrs c).
Proof. unfold ids. destruct c as [l n m d e r]. simpl. by rewrite app_nil_r. Qed.

Create Rewrite HintDb size.
Hint Rewrite size_nil size_app size_instr size_block : size.

(** A name occurs once, so looking a label up finds its address. *)
Lemma address_of_label (env : list (nat * Z)) id a :
  NoDup env.*1 -> (id, a) ∈ env -> address_of env id = a.
Proof.
  intros Hnd Hin. unfold address_of.
  destruct (list_find (fun p => p.1 = id) env) as [[k [id' a']]|] eqn:E.
  - apply list_find_Some in E as (Hk & Hid & _). simpl in Hid. subst id'.
    apply list_elem_of_lookup in Hin as [j Hj].
    assert (j = k) as ->.
    { eapply NoDup_lookup; [exact Hnd|..]; rewrite list_lookup_fmap; [by rewrite Hj|by rewrite Hk]. }
    congruence.
  - apply list_find_None in E. rewrite Forall_forall in E. by destruct (E _ Hin).
Qed.

(** Labels lie inside the block, or at its end. *)
Lemma labels_range pc b :
  Forall (fun p => pc <= p.2 <= pc + block_size b) (block_labels pc b).
Proof.
  revert pc. unfold block_size. block_induction b; intros pc; simpl in *; [apply IHany|constructor|..].
  - pose proof (block_size_nonneg false (Block l 0 0 0 false false)) as Hn. simpl in Hn.
    constructor; [simpl; destruct (negb (isLabel op) || false); lia|].
    eapply Forall_impl; [apply IH|]. intros [i a']. simpl. destruct (isLabel op); simpl; lia.
  - pose proof (block_size_nonneg false (Block l 0 0 0 false false)) as Hn. simpl in Hn.
    pose proof (block_size_nonneg false c) as Hc.
    constructor; [simpl; lia|]. apply Forall_app. split.
    + eapply Forall_impl; [apply IHc|]. intros [i a']. simpl. lia.
    + eapply Forall_impl; [apply IH|]. intros [i a']. unfold block_size. simpl. lia.
Qed.

Lemma address_range env n id : 0 <= n -> Forall (fun p => 0 <= p.2 <= n) env -> 0 <= address_of env id <= n.
Proof.
  intros Hn H. unfold address_of. destruct (list_find _ env) as [[k [i a]]|] eqn:E; [|lia].
  apply list_find_Some in E as (Hk & _). rewrite Forall_lookup in H. exact (H k _ Hk).
Qed.

(** ** What a run depends on

    The program and the segment the code lies in, the machine but for the running
    closure's contents, that closure, the number of its variables (arguments
    included), and the addresses of the labels. *)
Class Run := {
  run_program : Program;
  run_segment : nat;
  run_code : ByteCodeSegment;
  run_code_ok : segments run_program !! run_segment = Some run_code;
  run_store : Store;
  run_heap : list HeapObject;
  run_cur : nat;
  run_closure : Closure;
  run_closure_ok : closures run_store !! run_cur = Some run_closure;
  run_locals_ok : 0 <= locals run_closure;
  run_variables : Z;
  run_variables_ok : 0 <= run_variables;
  run_label : nat -> Z;
  run_label_ok : forall id, 0 <= run_label id < 2 ^ 62;
  run_code_size : zlen (byteCodes run_code) < 2 ^ 62
}.

#[local] Notation P := run_program.
#[local] Notation sg := run_segment.
#[local] Notation seg := run_code.
#[local] Notation s0 := run_store.
#[local] Notation h0 := run_heap.
#[local] Notation c0 := run_cur.
#[local] Notation cl0 := run_closure.
#[local] Notation nvars := run_variables.
#[local] Notation lab := run_label.
#[local] Notation Hseg := run_code_ok.
#[local] Notation Hc0 := run_closure_ok.
#[local] Notation Hnvars := run_variables_ok.
#[local] Notation Hlab := run_label_ok.
#[local] Notation Hlen := run_code_size.

(** ** Values and arguments *)

Section RunBlock.
Context {OE : ObjectEnv} {E : CompilerEnv}.

(** A boolean is 0 or 1. *)
Definition bool_bits (k : ScalarKind) (u : Z) : Prop := k = KBool -> u = 0 \/ u = 1.

(** An argument stands for a value: for a scalar only the bits of its width
    count, the others are left over from what the slot held before. *)
Definition represents (arg : SmileArg) (v : Value) : Prop :=
  match v with
  | VNull => obj arg = NullObject
  | VScalar k u => obj arg = UnboxedInstance k /\ scalar_bits k (unboxed arg) = u /\ bool_bits k u
  end.

Lemma bool_bits_if (b : bool) : bool_bits KBool (scalar_bits KBool (if b then 1 else 0)).
Proof. intros _. destruct b; [by right|by left]. Qed.

Lemma truth_bits (k : ScalarKind) (u : word) :
  unboxed_toBool k (scalar_bits k u) = unboxed_toBool k u.
Proof. destruct k; unfold unboxed_toBool; rewrite ?scalar_bits_idemp, ?float_isZero_bits; done. Qed.

Lemma represents_kind h arg v : represents arg v -> is_Some (SMILE_KIND h (obj arg)).
Proof. destruct v; [intros ->|intros (-> & _)]; by eexists. Qed.

Lemma represents_truth h arg v :
  represents arg v ->
  exists kind, SMILE_KIND h (obj arg) = Some kind
    /\ (if kind =? ScalarKind_value KBool then Ok (negb (get_byte (unboxed arg) =? 0))
        else toBool h (obj arg) (unboxed arg)) = Ok (truth v).
Proof.
  destruct v as [|k u]; [intros ->; by eexists|]. intros (-> & <- & _). eexists. split; [done|].
  simpl truth. rewrite truth_bits. by destruct k.
Qed.

Lemma scalar_eq_bits_both k a b : scalar_eq k (scalar_bits k a) (scalar_bits k b) = scalar_eq k a b.
Proof.
  assert (Hf : k = KFloat32 \/ k = KFloat64 ->
    float_eq (scalar_width k) (scalar_bits k a) (scalar_bits k b) = float_eq (scalar_width k) a b).
  { intros Hk. unfold float_eq. rewrite !float_isNaN_bits, !float_isZero_bits by done.
    change (wrapU (scalar_width k)) with (scalar_bits k). by rewrite !scalar_bits_idemp. }
  destruct k; simpl; rewrite ?scalar_bits_idemp; try done; apply Hf; auto.
Qed.

Lemma represents_equal h a b v w :
  represents a v -> represents b w ->
  compareEqual h (obj a) (unboxed a) (obj b) (unboxed b) = Ok (super_equal v w).
Proof.
  destruct v as [|k x], w as [|k' y].
  - by intros -> ->.
  - intros -> (-> & _). unfold compareEqual. simpl. by destruct k'.
  - intros (-> & _) ->. done.
  - intros (-> & <- & _) (-> & <- & _). unfold compareEqual. simpl. f_equal.
    destruct (decide (k = k')) as [->|Hne]; [by rewrite scalar_eq_bits_both|].
    by rewrite (bool_decide_eq_false_2 _ Hne).
Qed.

(** ** Runs inside one segment *)

Context {X : Run}.

(** The machine with the closure [cl] in place of the running one, at [p]. *)
Definition at_ (cl : Closure) (p : Z) : Machine :=
  mkMachine (update_closure s0 c0 cl) h0 c0 sg p.

Definition goes (cl : Closure) (p : Z) (cl' : Closure) (p' : Z) : Prop :=
  exists n, forall k, Eval_RunCore P (n + k) (at_ cl p) = Eval_RunCore P k (at_ cl' p').

Lemma goes_refl cl p : goes cl p cl p.
Proof. by exists O. Qed.

Lemma goes_trans cl1 p1 cl2 p2 cl3 p3 : goes cl1 p1 cl2 p2 -> goes cl2 p2 cl3 p3 -> goes cl1 p1 cl3 p3.
Proof.
  intros [n Hn] [m Hm]. exists (n + m)%nat. intros k. rewrite <- Nat.add_assoc, Hn. apply Hm.
Qed.

Definition code_at (p : Z) (b : ByteCode) : Prop := zget (byteCodes seg) p = Some b.

Lemma goes_step cl p cl' p' b :
  code_at p b -> eval_instruction P b (at_ cl p) = Next (at_ cl' p') -> goes cl p cl' p'.
Proof.
  intros Hb He. exists 1%nat. intros k. simpl. unfold step, fetch. simpl. rewrite Hseg. simpl.
  rewrite Hb. simpl. by rewrite He.
Qed.

Lemma code_at_range p b : code_at p b -> 0 <= p < 2 ^ 62.
Proof.
  intros Hb. assert (0 <= p < zlen (byteCodes seg)) by (apply zget_is_Some; by eexists).
  pose proof Hlen. lia.
Qed.

Lemma cur_at cl p : cur_closure (at_ cl p) = Ok cl.
Proof.
  unfold cur_closure, get_closure. simpl.
  by rewrite list_lookup_insert_eq by (eapply lookup_lt_Some, Hc0).
Qed.

(** The same, with the two components of the machine spelled out. *)
Lemma get_at cl : get_closure (update_closure s0 c0 cl) c0 = Ok cl.
Proof. exact (cur_at cl 0). Qed.

Lemma put_at cl cl' p : put_closure cl' (at_ cl p) = at_ cl' p.
Proof.
  unfold put_closure, set_store, at_, update_closure, set_closures. simpl. by rewrite list_insert_insert_eq.
Qed.

Lemma set_store_at cl cl' p : set_store (update_closure (update_closure s0 c0 cl) c0 cl') (at_ cl p) = at_ cl' p.
Proof.
  unfold set_store, at_, update_closure, set_closures. simpl. by rewrite list_insert_insert_eq.
Qed.

(** The code of the list, with its labels, lies at [p]. *)
Definition placed (p : Z) (l : list IntermediateInstruction) : Prop :=
  (forall k x, assemble lab p (leaves l) !! k = Some x -> code_at (p + Z.of_nat k) x)
  /\ (forall id a, (id, a) ∈ block_labels p (leaves l) -> lab id = a).

Lemma placed_app p l k : placed p (l ++ k) -> placed p l /\ placed (p + size l) k.
Proof.
  unfold placed. rewrite assemble_app, block_labels_app. intros [Hc Hl].
  pose proof (assemble_size lab p (leaves l)) as Hs. fold (size l) in *.
  split; (split; [|intros id a Hin; apply Hl, elem_of_app; by auto]).
  - intros j x Hj. apply Hc. by apply lookup_app_l_Some.
  - intros j x Hj. rewrite <- Z.add_assoc. unfold zlen in Hs. fold (size l) in Hs.
    replace (size l + Z.of_nat j) with (Z.of_nat (length (assemble lab p (leaves l)) + j))
      by (unfold size in *; lia).
    apply Hc. rewrite lookup_app_r by lia. rewrite <- Hj. f_equal. lia.
Qed.

Lemma placed_block p id loc o c a : placed p [BlockInstr id loc o c a] -> placed p (instrs c).
Proof.
  unfold placed. rewrite <- (assemble_leaves lab p c), <- (block_labels_leaves p c).
  unfold leaves. cbn [assemble block_labels]. rewrite !app_nil_r. intros [Hc Hl].
  split; [done|]. intros j x Hj. apply Hl. by right.
Qed.

Lemma placed_instr p id op loc o t a :
  placed p [Instr id op loc o t a] -> isLabel op = false ->
  code_at p (mkByteCode op (wrapS 32 loc)
    (if isBranch op then set_index o (match t with Some tgt => lab tgt - p | None => 0 end) else o)).
Proof.
  intros [Hc _] Hop. simpl in Hc. rewrite Hop in Hc. rewrite <- (Z.add_0_r p) at 1.
  by apply (Hc O).
Qed.

Lemma placed_label p id loc o t a : placed p [Instr id Op_Label loc o t a] -> lab id = p.
Proof. intros [_ Hl]. apply Hl. left. Qed.

(** ** Frames *)

(** The closure [cl] is the running one with other contents: its variables hold
    the bindings, and above them lie the values of the stack, the last on top. *)
Record frame (slots : list Z) (env : Env) (stack : list Value) (cl : Closure) : Prop := {
  f_static : cl = set_stackTop (stackTop cl) (set_variables (variables cl) cl0);
  f_length : zlen (variables cl) = zlen (variables cl0);
  f_top : stackTop cl = nvars + zlen stack;
  f_stack : forall k v, stack !! k = Some v ->
    exists arg, zget (variables cl) (nvars + Z.of_nat k) = Some arg /\ represents arg v;
  f_env : Forall2 (fun i xv => 0 <= i < nvars
    /\ exists arg, zget (variables cl) i = Some arg /\ represents arg xv.2) slots env
}.

Lemma frame_top slots env stack cl : frame slots env stack cl -> 0 <= stackTop cl.
Proof. intros []. pose proof (zlen_nonneg stack). pose proof Hnvars. lia. Qed.

(** What a change of the slots from [zlen stack] on keeps. *)
Lemma frame_above slots env stack stack' cl v :
  frame slots env stack cl -> zlen v = zlen (variables cl) ->
  (forall j, 0 <= j < nvars -> zget v j = zget (variables cl) j) ->
  (forall k x, stack' !! k = Some x ->
     exists arg, zget v (nvars + Z.of_nat k) = Some arg /\ represents arg x) ->
  frame slots env stack' (set_stackTop (nvars + zlen stack') (set_variables v cl)).
Proof.
  intros [Hs Hl Ht Hst He] Hv Hlow Hhigh. split; simpl; [|congruence|done|done|].
  - rewrite Hs. by destruct cl0.
  - eapply Forall2_impl; [exact He|]. simpl. intros i xv (Hi & arg & Ha & Hr).
    split; [done|]. exists arg. by rewrite Hlow.
Qed.

Lemma zlen_snoc {A} (l : list A) x : zlen (l ++ [x]) = zlen l + 1.
Proof. by rewrite zlen_app. Qed.

Lemma frame_push slots env stack cl arg v :
  frame slots env stack cl -> represents arg v -> nvars + zlen stack < zlen (variables cl0) ->
  exists cl', Closure_Push cl arg = Ok cl' /\ frame slots env (stack ++ [v]) cl'.
Proof.
  intros F Hr Hroom. pose proof F as [Hs Hl Ht Hst He]. pose proof (zlen_nonneg stack). pose proof Hnvars.
  destruct (Push_spec cl arg ltac:(lia)) as (v' & E' & Hl' & Hg).
  eexists. split; [exact E'|]. rewrite Ht, <- Z.add_assoc, <- (zlen_snoc stack v).
  apply (frame_above _ _ stack); [done|done|..].
  - intros j Hj. rewrite Hg. destruct (Z.eqb_spec j (stackTop cl)); [lia|done].
  - intros k x Hk. rewrite Hg. apply lookup_snoc_Some in Hk as [[Hk Hx]|[-> ->]].
    + destruct (Z.eqb_spec (nvars + Z.of_nat k) (stackTop cl)); [unfold zlen in *; lia|eauto].
    + rewrite Ht. unfold zlen. rewrite Z.eqb_refl. eauto.
Qed.

Lemma frame_pop slots env stack cl v :
  frame slots env (stack ++ [v]) cl ->
  exists arg cl', Closure_Pop cl = Ok (arg, cl') /\ represents arg v /\ frame slots env stack cl'.
Proof.
  intros F. pose proof F as [Hs Hl Ht Hst He]. rewrite zlen_snoc in Ht.
  destruct (Hst (length stack) v ltac:(by apply list_lookup_middle)) as (arg & Ha & Hr).
  unfold Closure_Pop. replace (stackTop cl - 1) with (nvars + zlen stack) by lia.
  unfold zlen. rewrite Ha. simpl. do 2 eexists. split; [reflexivity|]. split; [done|].
  fold (zlen stack).
  replace (set_stackTop _ cl) with (set_stackTop (nvars + zlen stack) (set_variables (variables cl) cl))
    by (by destruct cl).
  apply (frame_above _ _ (stack ++ [v])); [done..|].
  intros k x Hk. apply Hst. by apply lookup_app_l_Some.
Qed.

Lemma frame_get slots env stack cl k i x v :
  frame slots env stack cl -> slots !! k = Some i -> env !! k = Some (x, v) ->
  exists arg, zget (variables cl) i = Some arg /\ represents arg v.
Proof.
  intros [_ _ _ _ He] Hk Hv. by destruct (Forall2_lookup_lr _ _ _ _ _ _ He Hk Hv) as (_ & ?).
Qed.

Lemma frame_set slots env stack cl k i x v arg :
  NoDup slots -> frame slots env stack cl -> slots !! k = Some i -> represents arg v ->
  exists v', zset (variables cl) i arg = Some v'
    /\ frame slots (<[k := (x, v)]> env) stack (set_variables v' cl).
Proof.
  intros Hnd F Hk Hr. pose proof F as [Hs Hl Ht Hst He]. pose proof (zlen_nonneg stack). pose proof Hnvars.
  assert (Hi : 0 <= i < nvars /\ i < zlen (variables cl)).
  { destruct (Forall2_lookup_l _ _ _ _ _ He Hk) as (xv & _ & ? & arg' & Ha & _).
    split; [done|]. apply zget_is_Some. by eexists. }
  destruct (zset_total (variables cl) i arg ltac:(lia)) as [v' E']. exists v'. split; [done|].
  pose proof (zset_zget _ _ _ _ E') as Hg. pose proof (zset_zlen _ _ _ _ E') as Hl'.
  split; simpl.
  - rewrite Hs. by destruct cl0.
  - congruence.
  - done.
  - intros j y Hj. rewrite Hg. destruct (Z.eqb_spec (nvars + Z.of_nat j) i); [lia|by apply Hst].
  - rewrite <- (list_insert_id slots k i Hk). apply Forall2_same_length_lookup. split.
    { rewrite !length_insert. by eapply Forall2_length. }
    intros j i' y Hj Hy. rewrite list_insert_id in Hj by done.
    destruct (decide (k = j)) as [<-|Hne].
    + rewrite Hk in Hj. injection Hj as <-. apply list_lookup_insert_Some in Hy as [(_ & <- & _)|[]]; [|done].
      split; [lia|]. exists arg. by rewrite Hg, Z.eqb_refl.
    + rewrite list_lookup_insert_ne in Hy by done.
      destruct (Forall2_lookup_lr _ _ _ _ _ _ He Hj Hy) as (Hr' & arg' & Ha & ?).
      split; [done|]. exists arg'. rewrite Hg. destruct (Z.eqb_spec i' i) as [->|]; [|done].
      by destruct Hne; eapply NoDup_lookup.
Qed.

(** ** Instructions on frames *)

(** The instruction at [p] turns one frame into another and goes to [p']. *)
Definition moves (p : Z) (slots : list Z) (env : Env) (stack : list Value)
  (p' : Z) (slots' : list Z) (env' : Env) (stack' : list Value) : Prop :=
  forall cl, frame slots env stack cl ->
  exists cl', goes cl p cl' p' /\ frame slots' env' stack' cl'.

Lemma moves_trans p1 l1 e1 s1 p2 l2 e2 s2 p3 l3 e3 s3 :
  moves p1 l1 e1 s1 p2 l2 e2 s2 -> moves p2 l2 e2 s2 p3 l3 e3 s3 ->
  moves p1 l1 e1 s1 p3 l3 e3 s3.
Proof.
  intros H1 H2 cl F. destruct (H1 cl F) as (cl1 & G1 & F1). destruct (H2 cl1 F1) as (cl2 & G2 & F2).
  exists cl2. split; [by eapply goes_trans|done].
Qed.

Lemma moves_refl p l e s : moves p l e s p l e s.
Proof. intros cl F. exists cl. split; [apply goes_refl|done]. Qed.

Definition room (stack : list Value) (n : Z) : Prop := nvars + zlen stack + n <= zlen (variables cl0).

Lemma on_closure_at cl cl' p f : f cl = Ok cl' -> on_closure (at_ cl p) f = Next (at_ cl' (p + 1)).
Proof. intros Hf. unfold on_closure. rewrite cur_at. simpl. rewrite Hf. simpl. by rewrite put_at. Qed.

Lemma moves_on_closure p b slots env stack slots' env' stack' f :
  code_at p b -> (forall cl, eval_instruction P b (at_ cl p) = on_closure (at_ cl p) f) ->
  (forall cl, frame slots env stack cl -> exists cl', f cl = Ok cl' /\ frame slots' env' stack' cl') ->
  moves p slots env stack (p + 1) slots' env' stack'.
Proof.
  intros Hb He Hf cl F. destruct (Hf cl F) as (cl' & Ef & F'). exists cl'. split; [|done].
  eapply goes_step; [exact Hb|]. rewrite He. by apply on_closure_at.
Qed.

(** *** Literals *)

Lemma frame_slot slots env stack cl :
  frame slots env stack cl -> room stack 1 -> exists old, zget (variables cl) (stackTop cl) = Some old.
Proof.
  intros [Hs Hl Ht Hst He] Hroom. unfold room in Hroom. pose proof (zlen_nonneg stack). pose proof Hnvars.
  apply zget_total. lia.
Qed.

Lemma frame_push_null slots env stack cl :
  frame slots env stack cl -> room stack 1 ->
  exists cl', Closure_PushBoxed cl NullObject = Ok cl' /\ frame slots env (stack ++ [VNull]) cl'.
Proof.
  intros F Hroom. destruct (frame_slot _ _ _ _ F Hroom) as [old Eo].
  unfold Closure_PushBoxed. rewrite Eo. simpl. apply frame_push; [done..|]. unfold room in Hroom. lia.
Qed.

Lemma frame_push_scalar slots env stack cl k (v : Z) :
  frame slots env stack cl -> room stack 1 -> bool_bits k (scalar_bits k v) ->
  exists cl', Closure_PushUnboxed k cl v = Ok cl'
    /\ frame slots env (stack ++ [VScalar k (scalar_bits k v)]) cl'.
Proof.
  intros F Hroom Hb. destruct (frame_slot _ _ _ _ F Hroom) as [old Eo].
  unfold Closure_PushUnboxed. rewrite Eo. simpl. apply frame_push; [done| |unfold room in Hroom; lia].
  split; [done|]. split; [|done]. unfold scalar_bits, wrapU. simpl. apply set_low_mod.
  pose proof (scalar_width_pos k). lia.
Qed.

(** The instruction [op] with operand [u] pushes [v]. *)
Definition loads (op : Opcode) (u : word) (v : Value) : Prop :=
  forall p loc slots env stack, code_at p (mkByteCode op loc u) -> room stack 1 ->
  moves p slots env stack (p + 1) slots env (stack ++ [v]).

Lemma loads_null : loads Op_LdNull zero VNull.
Proof.
  intros p loc slots env stack Hb Hroom.
  eapply moves_on_closure; [exact Hb|by intros cl|]. intros cl F. by apply frame_push_null.
Qed.

Lemma loads_scalar op u k v :
  (forall loc m, eval_instruction P (mkByteCode op loc u) m
                 = on_closure m (fun cl => Closure_PushUnboxed k cl v)) ->
  bool_bits k (scalar_bits k v) -> loads op u (VScalar k (scalar_bits k v)).
Proof.
  intros He Hv p loc slots env stack Hb Hroom.
  eapply moves_on_closure; [exact Hb|intros cl; apply He|]. intros cl F. by apply frame_push_scalar.
Qed.

(** An operand of [w] bits, written and read back, signed or not. *)
Lemma operand_signed w v : 0 < w -> wrapU w (wrapS w (set_low w zero v)) = wrapU w v.
Proof. intros. rewrite wrapU_wrapS by done. unfold wrapU. apply set_low_mod. lia. Qed.

Lemma operand_unsigned w v : 0 < w -> wrapU w (wrapU w (set_low w zero v)) = wrapU w v.
Proof.
  intros. unfold wrapU. rewrite set_low_mod by lia. apply Z.mod_mod. pose proof (pow2_pos w). lia.
Qed.

Ltac loads_scalar k :=
  match goal with
  | |- loads ?op ?u (VScalar _ (scalar_bits _ ?v)) =>
      replace (scalar_bits k v) with (scalar_bits k (match k with
        | KInteger16 => get_int16 u | KInteger32 => get_int32 u | KInteger64 => get_int64 u
        | KSymbol => get_symbol u
        | KBool | KByte => get_byte u | KChar => get_ch u | KUni => get_uni u
        | KReal32 | KFloat32 => get_bits32 u | KReal64 | KFloat64 => get_bits64 u end));
      [apply loads_scalar; [done|first [by intros ?|match goal with b : bool |- _ => intros _; destruct b; [by right|by left] end]]
      |first [apply operand_signed|apply operand_unsigned]; done]
  end.

Lemma loads_bool b : loads Op_LdBool (set_boolean zero b) (VBool b).
Proof.
  unfold VBool. replace (if b then 1 else 0) with (scalar_bits KBool (if b then 1 else 0)) by by destruct b.
  loads_scalar KBool.
Qed.

Lemma loads_symbol s : loads Op_LdSym (set_symbol zero s) (VScalar KSymbol (scalar_bits KSymbol s)).
Proof. loads_scalar KSymbol. Qed.

(** A literal compiles to the one instruction that pushes its value. *)
Lemma literal_loads (CE : Expr -> bool -> M CompiledBlock) e v :
  literal e = Some v ->
  exists op u, (forall noResult, CompileExpr_body CE e noResult = COMPILE_PRIMITIVE_EXPR op (mret u) noResult)
    /\ isLabel op = false /\ isBranch op = false /\ loads op u v.
Proof.
  destruct e; simpl; try discriminate; intros [= <-]; do 2 eexists;
    (split; [reflexivity|]); (split; [reflexivity|]); (split; [reflexivity|]).
  - apply loads_null.
  - apply loads_bool.
  - loads_scalar KChar.
  - loads_scalar KUni.
  - loads_scalar KByte.
  - loads_scalar KInteger16.
  - loads_scalar KInteger32.
  - loads_scalar KInteger64.
  - loads_scalar KReal32.
  - loads_scalar KReal64.
  - loads_scalar KFloat32.
  - loads_scalar KFloat64.
Qed.


(** *** Variables of the running closure *)

Definition slot_of (local : bool) (index : Z) : Z := if local then locals cl0 + index else index.

Lemma frame_locals slots env stack cl : frame slots env stack cl -> locals cl = locals cl0.
Proof. intros [-> _ _ _ _]. done. Qed.

Lemma get_slot cl index (local : bool) :
  locals cl = locals cl0 ->
  (if local then Closure_GetLocalVariable else Closure_GetArgument) cl index
  = orCrash (zget (variables cl) (slot_of local index)).
Proof. intros Hl. unfold slot_of. destruct local; [|done]. unfold Closure_GetLocalVariable. by rewrite Hl. Qed.

Lemma set_slot cl index arg (local : bool) :
  locals cl = locals cl0 ->
  (if local then Closure_SetLocalVariable else Closure_SetArgument) cl index arg
  = (let? v := zset (variables cl) (slot_of local index) arg in Ok (set_variables v cl)).
Proof. intros Hl. unfold slot_of. destruct local; [|done]. unfold Closure_SetLocalVariable. by rewrite Hl. Qed.

Lemma moves_load p (local : bool) index loc slots env stack k x v :
  code_at p (mkByteCode (ld_fixed local 0) loc (set_index zero index)) -> inS 64 index ->
  slots !! k = Some (slot_of local index) -> env !! k = Some (x, v) -> room stack 1 ->
  moves p slots env stack (p + 1) slots env (stack ++ [v]).
Proof.
  intros Hb Hi Hk Hv Hroom cl F.
  destruct (frame_get _ _ _ _ _ _ _ _ F Hk Hv) as (arg & Ha & Hr).
  destruct (frame_push _ _ _ _ arg v F Hr) as (cl' & Ep & F'); [unfold room in Hroom; lia|].
  exists cl'. split; [|done]. eapply goes_step; [exact Hb|].
  destruct (fixed_runs P (at_ cl p) local 0 index loc) as (-> & _); [lia|done|].
  unfold ancestor_get. simpl ancestor. cbn [Result_bind].
  cbn [at_ store cur]. rewrite get_at. cbn [Result_bind]. rewrite get_slot, Ha by by eapply frame_locals.
  unfold load_variable. cbn [orCrash lift]. by apply on_closure_at.
Qed.

Lemma moves_store p (local : bool) index loc slots env stack k x v :
  code_at p (mkByteCode (st_fixed local 0) loc (set_index zero index)) -> inS 64 index ->
  NoDup slots -> slots !! k = Some (slot_of local index) ->
  moves p slots env (stack ++ [v]) (p + 1) slots (<[k := (x, v)]> env) (stack ++ [v]).
Proof.
  intros Hb Hi Hnd Hk cl F.
  destruct (frame_pop _ _ _ _ _ F) as (arg & cl1 & Ep & Hr & _).
  destruct (frame_set _ _ _ _ _ _ x v arg Hnd F Hk Hr) as (v' & Ev & F').
  eexists. split; [|exact F']. eapply goes_step; [exact Hb|].
  destruct (fixed_runs P (at_ cl p) local 0 index loc) as (_ & -> & _); [lia|done|].
  unfold store_top. rewrite cur_at. cbn [Result_bind].
  unfold Closure_GetTop, Closure_Pop in *. destruct (zget (variables cl) (stackTop cl - 1)) as [a|]; [|done].
  cbn [orCrash Result_bind] in *. injection Ep as -> <-.
  unfold ancestor_set. simpl ancestor. cbn [Result_bind].
  cbn [at_ store cur]. rewrite get_at. cbn [Result_bind]. rewrite set_slot, Ev by by eapply frame_locals.
  cbn [orCrash Result_bind run]. change (cur (at_ cl p)) with c0. change (store (at_ cl p)) with (update_closure s0 c0 cl).
  rewrite set_store_at. done.
Qed.

Lemma moves_store_pop p (local : bool) index loc slots env stack k x v :
  code_at p (mkByteCode (stp_fixed local 0) loc (set_index zero index)) -> inS 64 index ->
  NoDup slots -> slots !! k = Some (slot_of local index) ->
  moves p slots env (stack ++ [v]) (p + 1) slots (<[k := (x, v)]> env) stack.
Proof.
  intros Hb Hi Hnd Hk cl F.
  destruct (frame_pop _ _ _ _ _ F) as (arg & cl1 & Ep & Hr & F1).
  destruct (frame_set _ _ _ _ _ _ x v arg Hnd F1 Hk Hr) as (v' & Ev & F').
  eexists. split; [|exact F']. eapply goes_step; [exact Hb|].
  destruct (fixed_runs P (at_ cl p) local 0 index loc) as (_ & _ & ->); [lia|done|].
  unfold store_pop. rewrite cur_at. cbn [Result_bind]. rewrite Ep. cbn [Result_bind].
  rewrite put_at. unfold ancestor_set. change (cur (at_ cl p)) with (cur (at_ cl1 p)). simpl ancestor.
  cbn [Result_bind].
  cbn [at_ store cur]. rewrite get_at. cbn [Result_bind]. rewrite set_slot, Ev by by eapply frame_locals.
  cbn [orCrash Result_bind run]. change (cur (at_ cl1 p)) with c0.
  change (store (at_ cl1 p)) with (update_closure s0 c0 cl1).
  unfold set_store, at_, update_closure, set_closures, advance, set_pc. simpl.
  by rewrite list_insert_insert_eq.
Qed.

(** Entering a scope: a variable nobody uses becomes null and gets a name. *)
Lemma moves_declare p index loc slots env stack x :
  code_at p (mkByteCode Op_NullLoc0 loc (set_index zero index)) -> inS 64 index ->
  0 <= slot_of true index < nvars -> slot_of true index ∉ slots -> nvars <= zlen (variables cl0) ->
  moves p slots env stack (p + 1) (slot_of true index :: slots) ((x, VNull) :: env) stack.
Proof.
  intros Hb Hi Hs Hnew Hn cl F. pose proof F as [Hst Hl Ht Hstk He]. pose proof (zlen_nonneg stack). pose proof Hnvars.
  destruct (zset_total (variables cl) (slot_of true index) (SmileArg_From NullObject) ltac:(lia)) as [v' E'].
  pose proof (zset_zget _ _ _ _ E') as Hg. pose proof (zset_zlen _ _ _ _ E') as Hl'.
  exists (set_variables v' cl). split.
  - eapply goes_step; [exact Hb|].
    replace (eval_instruction P _ (at_ cl p)) with
      (on_closure (at_ cl p) (fun cl => Closure_SetLocalVariable cl (get_index (set_index zero index))
         (SmileArg_From NullObject))) by done.
    apply on_closure_at. rewrite get_set_index by done. unfold Closure_SetLocalVariable.
    rewrite (frame_locals _ _ _ _ F). unfold slot_of in E'. by rewrite E'.
  - split; simpl; [rewrite Hst; by destruct cl0|congruence|done|..].
    + intros k y Hk. rewrite Hg. destruct (Z.eqb_spec (nvars + Z.of_nat k) (slot_of true index)); [lia|].
      by apply Hstk.
    + constructor.
      * split; [done|]. exists (SmileArg_From NullObject). by rewrite Hg, Z.eqb_refl.
      * apply Forall2_same_length_lookup. split; [by eapply Forall2_length|].
        intros j i y Hj Hy. destruct (Forall2_lookup_lr _ _ _ _ _ _ He Hj Hy) as (? & arg & Ha & ?).
        split; [done|]. exists arg. rewrite Hg. destruct (Z.eqb_spec i (slot_of true index)) as [->|]; [|done].
        destruct Hnew. by eapply list_elem_of_lookup_2.
Qed.

(** Leaving a scope: names are forgotten. *)
Lemma frame_forget slots slots' env env' stack cl :
  length slots = length env -> frame (slots ++ slots') (env ++ env') stack cl -> frame slots' env' stack cl.
Proof.
  intros Hn [? ? ? ? He]. split; try done.
  by apply Forall2_app_inv in He as [_ ?].
Qed.

(** *** The rest *)

Lemma moves_pop p loc slots env stack v :
  code_at p (mkByteCode Op_Pop1 loc zero) -> moves p slots env (stack ++ [v]) (p + 1) slots env stack.
Proof.
  intros Hb. eapply moves_on_closure; [exact Hb|by intros cl|]. intros cl F.
  destruct (frame_pop _ _ _ _ _ F) as (arg & cl' & Ep & _ & F'). exists cl'. split; [|done].
  unfold Closure_Pop in Ep. result_inv Ep. by injection Ep as _ <-.
Qed.

Lemma offset_inS tgt p : 0 <= tgt < 2 ^ 62 -> 0 <= p < 2 ^ 62 -> inS 64 (tgt - p).
Proof. unfold inS. change (64 - 1) with 63. lia. Qed.

Lemma moves_jump p loc tgt slots env stack :
  code_at p (mkByteCode Op_Jmp loc (set_index zero (lab tgt - p))) ->
  moves p slots env stack (lab tgt) slots env stack.
Proof.
  intros Hb cl F. exists cl. split; [|done]. eapply goes_step; [exact Hb|].
  change (eval_instruction P _ (at_ cl p))
    with (Next (set_pc (p + get_index (set_index zero (lab tgt - p))) (at_ cl p))).
  rewrite get_set_index by (apply offset_inS; [apply Hlab|by eapply code_at_range]).
  rewrite Zplus_minus. done.
Qed.

Lemma moves_branch p (onTrue : bool) loc tgt slots env stack v :
  code_at p (mkByteCode (if onTrue then Op_Bt else Op_Bf) loc (set_index zero (lab tgt - p))) ->
  moves p slots env (stack ++ [v]) (if Bool.eqb (truth v) onTrue then lab tgt else p + 1) slots env stack.
Proof.
  intros Hb cl F. destruct (frame_pop _ _ _ _ _ F) as (arg & cl' & Ep & Hr & F').
  exists cl'. split; [|done]. eapply goes_step; [exact Hb|].
  set (b := mkByteCode _ _ _) in *.
  assert (He : eval_instruction P b (at_ cl p) = branch b (at_ cl p) onTrue) by by destruct onTrue.
  rewrite He. unfold branch. rewrite cur_at. cbn [Result_bind]. rewrite Ep. cbn [Result_bind].
  rewrite put_at. destruct (represents_truth h0 arg v Hr) as (kind & Hk & Ht).
  change (heap (at_ cl' p)) with h0. rewrite Hk. cbn [orCrash Result_bind]. rewrite Ht.
  cbn [Result_bind run]. destruct (Bool.eqb (truth v) onTrue); [|done].
  unfold jump, b. simpl. rewrite get_set_index by (apply offset_inS; [apply Hlab|by eapply code_at_range]).
  rewrite Zplus_minus. done.
Qed.

Lemma moves_equal p (negate : bool) loc slots env stack v w :
  code_at p (mkByteCode (if negate then Op_SuperNe else Op_SuperEq) loc zero) -> room stack 1 ->
  moves p slots env (stack ++ [v] ++ [w]) (p + 1) slots env
    (stack ++ [VBool (xorb negate (super_equal v w))]).
Proof.
  intros Hb Hroom cl F. rewrite app_assoc in F.
  destruct (frame_pop _ _ _ _ _ F) as (b & cl1 & Eb & Hrb & F1).
  destruct (frame_pop _ _ _ _ _ F1) as (a & cl2 & Ea & Hra & F2).
  destruct (frame_push_scalar _ _ _ _ KBool (if xorb negate (super_equal v w) then 1 else 0) F2 Hroom)
    as (cl3 & Ep & F3); [apply bool_bits_if|].
  exists cl3. split.
  - eapply goes_step; [exact Hb|].
    set (m := at_ cl p). transitivity (run (let* cl := cur_closure m in
      let* (arg2, cl) := Closure_Pop cl in
      let* (arg, cl) := Closure_Pop cl in
      let* r := compareEqual h0 (obj arg) (unboxed arg) (obj arg2) (unboxed arg2) in
      let* cl := Closure_PushUnboxed KBool cl (if xorb negate r then 1 else 0) in
      Ok (advance (put_closure cl m)))); [by destruct negate|].
    subst m. rewrite cur_at. cbn [Result_bind]. rewrite Eb. cbn [Result_bind]. rewrite Ea. cbn [Result_bind].
    rewrite (represents_equal h0 a b v w Hra Hrb). cbn [Result_bind].
    rewrite Ep.
    cbn [Result_bind run]. by rewrite put_at.
  - unfold VBool. by destruct (xorb negate (super_equal v w)).
Qed.

Lemma moves_not p loc slots env stack v w :
  code_at p (mkByteCode Op_Not loc zero) -> negation v = Some w -> room stack 1 ->
  moves p slots env (stack ++ [v]) (p + 1) slots env (stack ++ [w]).
Proof.
  intros Hb Hn Hroom cl F.
  destruct v as [|[] u]; try discriminate Hn. injection Hn as <-.
  destruct (frame_pop _ _ _ _ _ F) as (a & cl1 & Ea & (Ho & Hu & _) & F1).
  destruct (frame_push_scalar _ _ _ _ KBool (if u =? 0 then 1 else 0) F1 Hroom) as (cl2 & Ep & F2);
    [apply bool_bits_if|].
  exists cl2. split.
  - eapply goes_step; [exact Hb|]. cbn -[at_ Closure_Pop Closure_PushUnboxed].
    rewrite cur_at. cbn [Result_bind]. rewrite Ea. cbn [Result_bind]. rewrite Ho. cbn -[at_ Closure_PushUnboxedBool].
    change (get_byte (unboxed a)) with (scalar_bits KBool (unboxed a)). rewrite Hu.
    change (16 + 4) with 20. cbn [Result_bind Pos.eqb]. unfold Closure_PushUnboxedBool.
    rewrite negb_involutive, Ep. cbn [Result_bind run]. by rewrite put_at.
  - unfold VBool. by destruct (u =? 0).
Qed.

End RunBlock.
