(* ===== verification/CompileSteps.v ===== *)
(** * CompileSteps: what the steps of the compiler produce

    Total correctness of compiler computations: weakest preconditions over the
    compiler's monad, the part of the state that the compiler of a core
    expression keeps, and the blocks the emitting operations build, down to
    their instructions, counters and fresh names. *)

From S2P Require Import Prelude Opcode ByteCode CompiledBlock Object Expr Closure.
From S2P Require Import Compiler KnownSymbols CompileForms CompilerInvariant CompilerProps Reference RunBlock.
Import Operand.

(** ** Weakest preconditions *)

Definition wp {A} (m : M A) (c : Compiler) (Q : A -> Compiler -> Prop) : Prop :=
  match m c with COk x c' => Q x c' | _ => False end.

Lemma wp_bind {A B} (m : M A) (f : A -> M B) c Q :
  wp m c (fun x c' => wp (f x) c' Q) -> wp (m ≫= f) c Q.
Proof. unfold wp, mbind, M_bind. by destruct (m c). Qed.

Lemma wp_ret {A} (x : A) c (Q : A -> Compiler -> Prop) : Q x c -> wp (mret x) c Q.
Proof. done. Qed.

Lemma wp_mono {A} (m : M A) c (Q Q' : A -> Compiler -> Prop) :
  wp m c Q -> (forall x c', Q x c' -> Q' x c') -> wp m c Q'.
Proof. unfold wp. destruct (m c); auto. Qed.

Lemma wp_bind3 {A B C D} (m : M A) (f : A -> M B) (g : B -> M C) (k : C -> M D) c Q :
  wp (x ← m; y ← f x; g y) c (fun z c' => wp (k z) c' Q) -> wp (x ← m; y ← f x; z ← g y; k z) c Q.
Proof.
  unfold wp, mbind, M_bind. destruct (m c) as [x c1| | |]; try done. destruct (f x c1) as [y c2| | |]; try done. by destruct (g y c2).
Qed.

Lemma wp_get {A} (f : Compiler -> A) c (Q : A -> Compiler -> Prop) : Q (f c) c -> wp (get f) c Q.
Proof. done. Qed.

Lemma wp_modify u c (Q : unit -> Compiler -> Prop) : Q tt (u c) -> wp (modify u) c Q.
Proof. done. Qed.

Lemma wp_need {A} (o : option A) x c (Q : A -> Compiler -> Prop) : o = Some x -> Q x c -> wp (need o) c Q.
Proof. by intros ->. Qed.

Lemma wp_load {A} (st : Compiler -> list A) p x c (Q : A -> Compiler -> Prop) :
  st c !! p = Some x -> Q x c -> wp (load st p) c Q.
Proof. intros Hx HQ. unfold load. apply wp_bind, wp_get. by eapply wp_need. Qed.

(** The outcome of a computation that is known to succeed. *)
Lemma wp_COk {A} (m : M A) c Q x c' : wp m c Q -> m c = COk x c' -> Q x c'.
Proof. unfold wp. intros H E. by rewrite E in H. Qed.

(** ** The state a core expression keeps *)

Definition locations (c : Compiler) : list CompiledSourceLocation :=
  entries (ct_sourcelocations (c_tables c)).

(** There is a function being compiled, source locations are in range, and
    scopes are older than their children. *)
Record ready (c : Compiler) : Prop := {
  r_function : exists q f, c_currentFunction c = Some q /\ c_functions c !! q = Some f
    /\ 0 <= cf_currentSourceLocation f < zlen (locations c);
  r_parents : older_parents (c_scopes c);
  r_scope : forall p, c_currentScope c = Some p -> (p < length (c_scopes c))%nat
}.

(** Functions stay, and only gain local variables. *)
Definition functions_grow (l l' : list CompilerFunction) : Prop :=
  forall p f, l !! p = Some f -> exists f', l' !! p = Some f'
    /\ cf_functionDepth f' = cf_functionDepth f /\ cf_numArgs f' = cf_numArgs f
    /\ cf_closureInfo f' = cf_closureInfo f /\ cf_parent f' = cf_parent f
    /\ cf_userFunctionInfo f' = cf_userFunctionInfo f /\ cf_tillInfos f' = cf_tillInfos f
    /\ cf_localNames f `prefix_of` cf_localNames f'.

(** Nothing that was there changes, but for marks on symbols; [steady_scope]
    leaves the current scope out. *)
Record steady_scope (c c' : Compiler) : Prop := {
  s_messages : c_messages c' = c_messages c;
  s_nextId : (c_nextId c <= c_nextId c')%nat;
  s_currentFunction : c_currentFunction c' = c_currentFunction c;
  s_scopes : c_scopes c `prefix_of` c_scopes c';
  s_symbols : keeps (fun s => (ls_kind s, ls_index s, ls_scope s)) (c_localSymbols c) (c_localSymbols c');
  s_functions : functions_grow (c_functions c) (c_functions c');
  s_locations : zlen (locations c) <= zlen (locations c');
  s_userFunctionInfos : c_userFunctionInfos c' = c_userFunctionInfos c;
  s_closureInfos : c_closureInfos c' = c_closureInfos c
}.

Record after (c c' : Compiler) : Prop := {
  a_steady : steady_scope c c';
  a_scope : c_currentScope c' = c_currentScope c;
  a_ready : ready c'
}.

Lemma functions_grow_refl l : functions_grow l l.
Proof. intros p f H. exists f. by repeat split. Qed.

Lemma functions_grow_trans l1 l2 l3 :
  functions_grow l1 l2 -> functions_grow l2 l3 -> functions_grow l1 l3.
Proof.
  intros H1 H2 p f H. destruct (H1 p f H) as (f2 & E2 & ? & ? & ? & ? & ? & ? & ?).
  destruct (H2 p f2 E2) as (f3 & E3 & ? & ? & ? & ? & ? & ? & ?). exists f3.
  repeat split; try congruence. by etrans.
Qed.

Lemma steady_scope_refl c : steady_scope c c.
Proof. split; auto using keeps_refl, functions_grow_refl; reflexivity. Qed.

Lemma steady_scope_trans c1 c2 c3 : steady_scope c1 c2 -> steady_scope c2 c3 -> steady_scope c1 c3.
Proof.
  intros [? ? ? ? ? ? ? ? ?] [? ? ? ? ? ? ? ? ?].
  split; try congruence; try lia; [by etrans|by eapply keeps_trans|by eapply functions_grow_trans].
Qed.

Lemma after_refl c : ready c -> after c c.
Proof. split; [apply steady_scope_refl|done|done]. Qed.

Lemma after_trans c1 c2 c3 : after c1 c2 -> after c2 c3 -> after c1 c3.
Proof. intros [? ? ?] [? ? ?]. split; [by eapply steady_scope_trans|congruence|done]. Qed.

Lemma after_nextId c c' : after c c' -> (c_nextId c <= c_nextId c')%nat.
Proof. intros [[] _ _]. done. Qed.

(** A valid source location, to go back to. *)
Definition valid (n : Z) (c : Compiler) : Prop := 0 <= n < zlen (locations c).

Lemma after_valid n c c' : after c c' -> valid n c -> valid n c'.
Proof. intros [[] _ _] ?. unfold valid in *. lia. Qed.

(** *** Bookkeeping *)

Lemma wp_current c (Q : CompilerFunction -> Compiler -> Prop) :
  ready c -> (forall q f, c_currentFunction c = Some q -> c_functions c !! q = Some f ->
    valid (cf_currentSourceLocation f) c -> Q f c) -> wp current c Q.
Proof.
  intros [(q & f & Hq & Hf & Hl) _ _] HQ. unfold current, currentFunction.
  apply wp_bind, wp_bind, wp_get. apply (wp_need _ q); [done|]. apply (wp_load _ _ f); [done|]. by eapply HQ.
Qed.

(** Changing the location of the current function. *)
Lemma wp_Revert n c (Q : unit -> Compiler -> Prop) :
  ready c -> valid n c -> (forall c', after c c' -> Q tt c') -> wp (Compiler_RevertSourceLocation n) c Q.
Proof.
  intros R Hn HQ. pose proof R as [(q & f & Hq & Hf & Hl) Hp Hs].
  unfold Compiler_RevertSourceLocation, update_current, currentFunction.
  apply wp_bind, wp_bind, wp_get. apply (wp_need _ q); [done|]. unfold update. apply wp_modify, HQ.
  split; [|done|].
  - split; simpl; try done; [apply keeps_refl|].
    intros p g Hg. destruct (decide (q = p)) as [<-|].
    + rewrite list_lookup_alter_eq, Hg. eexists. by repeat split.
    + rewrite list_lookup_alter_ne by done. exists g. by repeat split.
  - split; simpl; [|done|done]. exists q. eexists. split; [done|].
    by rewrite list_lookup_alter_eq, Hf.
Qed.

Lemma zlen_imap {A B} (f : nat -> A -> B) l : zlen (imap f l) = zlen l.
Proof. unfold zlen. by rewrite length_imap. Qed.

Lemma Table_add_entries {A} (copy : Z -> Z -> A -> A) t x :
  let '(i, t') := Table_add copy t x in
  i = zlen (entries t) /\ zlen (entries t') = zlen (entries t) + 1.
Proof.
  unfold Table_add, Table_grow. destruct (_ >=? _); simpl; by rewrite ?zlen_app, ?zlen_imap.
Qed.

Lemma wp_AddNewSourceLocation p line col name c (Q : Z -> Compiler -> Prop) :
  ready c -> (forall n c', after c c' -> valid n c' -> Q n c') ->
  wp (Compiler_AddNewSourceLocation p line col name) c Q.
Proof.
  intros R HQ. pose proof R as [(q & f & Hq & Hf & Hl) Hp Hs].
  unfold Compiler_AddNewSourceLocation. apply wp_bind, wp_get. fold (locations c).
  destruct (zget_total (locations c) (zlen (locations c) - 1) ltac:(lia)) as [last El].
  apply wp_bind. apply (wp_need _ last); [done|].
  destruct (_ && _).
  - apply wp_ret, HQ; [by apply after_refl|unfold valid; lia].
  - match goal with |- wp (let '(_, _) := Table_add ?cp ?t ?x in _) _ _ =>
      pose proof (Table_add_entries cp t x) as Ht; destruct (Table_add cp t x) as [i t'] end.
    destruct Ht as [-> Ht]. fold (locations c) in Ht. apply wp_bind, wp_modify, wp_ret, HQ.
    + split; [|done|split; simpl; try done; exists q, f; unfold locations; simpl; rewrite Ht; repeat split; done || lia].
      split; simpl; try done; [apply keeps_refl|apply functions_grow_refl|].
      unfold locations. simpl. rewrite Ht. unfold locations. lia.
    + unfold valid, locations. simpl. rewrite Ht. unfold locations in *. lia.
Qed.

Lemma wp_currentSourceLocation c (Q : Z -> Compiler -> Prop) :
  ready c -> (forall n, valid n c -> Q n c) -> wp currentSourceLocation c Q.
Proof.
  intros R HQ. unfold currentSourceLocation. apply wp_bind, wp_current; [done|]. intros. by apply wp_ret, HQ.
Qed.

Lemma wp_SetAssignedSymbol s c (Q : Z -> Compiler -> Prop) :
  ready c -> (forall n c', after c c' -> valid n c' -> Q n c') -> wp (Compiler_SetAssignedSymbol s) c Q.
Proof.
  intros R HQ. unfold Compiler_SetAssignedSymbol. apply wp_bind, wp_currentSourceLocation; [done|].
  intros old Hold. apply wp_bind, wp_get. fold (locations c).
  destruct (zget_total (locations c) old Hold) as [loc El]. apply wp_bind.
  apply (wp_need _ loc); [done|]. apply wp_bind, wp_AddNewSourceLocation; [done|].
  intros new c1 A1 Hnew. apply wp_bind, wp_Revert; [apply A1|done|].
  intros c2 A2. apply wp_ret, HQ; [by eapply after_trans|by eapply after_valid, after_valid].
Qed.

Lemma wp_SetSourceLocationFromList e c (Q : Z -> Compiler -> Prop) :
  ready c -> (forall n c', after c c' -> valid n c' -> Q n c') ->
  wp (Compiler_SetSourceLocationFromList e) c Q.
Proof.
  intros R HQ.
  assert (Hcur : wp currentSourceLocation c Q).
  { apply wp_currentSourceLocation; [done|]. intros n Hn. by apply HQ; [apply after_refl|]. }
  destruct e as [| | | | | | | | | | | | | | | | |a d [|pos]]; try exact Hcur.
  unfold Compiler_SetSourceLocationFromList, Compiler_SetSourceLocation.
  apply wp_bind, wp_currentSourceLocation; [done|]. intros old Hold. apply wp_bind.
  assert (H0 : valid 0 c) by (unfold valid in *; lia).
  destruct pos as [pos|].
  - apply wp_bind, wp_get. fold (locations c).
    destruct (zget_total (locations c) old Hold) as [loc El]. apply wp_bind.
    apply (wp_need _ loc); [done|]. apply wp_bind, wp_AddNewSourceLocation; [done|].
    intros new c1 A1 Hnew. apply wp_Revert; [apply A1|done|].
    intros c2 A2. apply wp_ret, HQ; [by eapply after_trans|by eapply after_valid, after_valid].
  - apply wp_Revert; [done..|]. intros c1 A1. apply wp_ret, HQ; [done|by eapply after_valid].
Qed.

(** ** Blocks under construction *)

(** The instructions and counters of a block that has not been left early. *)
Definition built (l : list IntermediateInstruction) (delta depth : Z) (b : CompiledBlock) : Prop :=
  instrs b = l /\ finalStackDelta b = delta /\ maxStackDepth b = depth /\ flagEscape b = false.

Lemma built_Create : built [] 0 0 CompiledBlock_Create.
Proof. done. Qed.

Lemma built_Emit l delta depth b id op d loc u t :
  built l delta depth b ->
  built (l ++ [Instr id op (wrapU 32 loc) u t 0]) (delta + d) (Z.max depth (delta + d))
    (CompiledBlock_Emit b id op d loc u t).
Proof.
  intros (<- & <- & <- & He). destruct b as [l0 n m d0 e r]. simpl in He. subst e.
  unfold CompiledBlock_Emit, built. simpl. rewrite Z.gtb_ltb.
  destruct (Z.ltb_spec m (d0 + d)); simpl; repeat split; lia.
Qed.

Lemma built_AttachLast l delta depth b id op :
  built l delta depth b -> built (l ++ [Instr id op 0 zero None 0]) delta depth (AttachLast b id op).
Proof. intros (<- & <- & <- & He). by destruct b. Qed.

Lemma built_set_delta l delta depth b d : built l delta depth b -> built l d depth (set_finalStackDelta d b).
Proof. intros (<- & <- & <- & He). by destruct b. Qed.

(** A child block, and what appending it adds. *)
Definition child_instrs (id : nat) (c : CompiledBlock) : list IntermediateInstruction :=
  match instrs c with [] => [] | _ => [BlockInstr id 0 zero c 0] end.

(** A finished block: nothing without instructions, at most one value. *)
Record sane (b : CompiledBlock) : Prop := {
  sn_escape : flagEscape b = false;
  sn_delta : finalStackDelta b = 0 \/ finalStackDelta b = 1;
  sn_depth : 0 <= maxStackDepth b;
  sn_le : finalStackDelta b <= maxStackDepth b;
  sn_empty : instrs b = [] -> finalStackDelta b = 0 /\ maxStackDepth b = 0
}.

Lemma built_AppendChild l delta depth b id c :
  built l delta depth b -> delta <= depth -> sane c ->
  built (l ++ child_instrs id c) (delta + finalStackDelta c) (Z.max depth (delta + maxStackDepth c))
    (fst (CompiledBlock_AppendChild b id c)).
Proof.
  intros (<- & <- & <- & He) Hd Hc. destruct b as [l0 n m d0 e r]. simpl in He. subst e. simpl in Hd.
  unfold CompiledBlock_AppendChild, child_instrs.
  destruct c as [lc nc mc dc ec rc]. simpl. destruct lc as [|i lc].
  - destruct (sn_empty _ Hc eq_refl) as [Hd' Hm']. simpl in Hd', Hm'. subst.
    simpl. rewrite app_nil_r. unfold built. simpl. repeat split; lia.
  - simpl. rewrite Z.gtb_ltb. destruct (Z.ltb_spec m (d0 + mc)), rc; simpl;
      unfold built; simpl; repeat split; lia.
Qed.

(** ** Fresh names *)

Definition fresh (lo hi : nat) (l : list nat) : Prop :=
  NoDup l /\ forall i, i ∈ l -> (lo <= i < hi)%nat.

(** Names allocated after one another differ. *)
Ltac fresh_solve :=
  repeat match goal with
  | H : fresh _ _ _ |- _ => let N := fresh "N" in let R := fresh "R" in destruct H as [N R]
  end;
  split;
  [ repeat first
      [ apply NoDup_nil_2
      | apply NoDup_app; split; [|split]
      | apply NoDup_cons; split
      | assumption ];
    try (let x := fresh "x" in let Hx := fresh "Hx" in intros x Hx);
    rewrite ?not_elem_of_app, ?not_elem_of_cons;
    repeat match goal with
           | H : _ ∈ _ ++ _ |- _ => apply elem_of_app in H as [H|H]
           | H : _ ∈ _ :: _ |- _ => apply elem_of_cons in H as [H|H]
           | H : _ ∈ [] |- _ => by apply elem_of_nil in H
           end;
    repeat split;
    try (let y := fresh "Hy" in intros y);
    repeat match goal with
           | R : forall i, i ∈ ?l -> _, H : _ ∈ ?l |- _ => apply R in H
           | H : _ ∈ [] |- _ => by apply elem_of_nil in H
           end; subst; try lia
  | let x := fresh "x" in let Hx := fresh "Hx" in intros x Hx;
    repeat match goal with
           | H : _ ∈ _ ++ _ |- _ => apply elem_of_app in H as [H|H]
           | H : _ ∈ _ :: _ |- _ => apply elem_of_cons in H as [H|H]
           | H : _ ∈ [] |- _ => by apply elem_of_nil in H
           end;
    repeat match goal with
           | R : forall i, i ∈ ?l -> _, H : _ ∈ ?l |- _ => apply R in H
           end; subst; try lia ].

Lemma ids_child id c : ids (child_instrs id c) = match instrs c with [] => [] | _ => id :: ids (instrs c) end.
Proof. unfold child_instrs. destruct (instrs c) eqn:E; [done|]. by rewrite ids_block, E. Qed.

Lemma fresh_child lo hi id c :
  fresh lo hi (ids (instrs c)) -> (lo <= hi <= id)%nat -> fresh lo (S id) (ids (child_instrs id c)).
Proof.
  intros [N R] Hid. rewrite ids_child. destruct (instrs c) as [|first rest].
  - split; [apply NoDup_nil_2|]. intros i Hi. by apply elem_of_nil in Hi.
  - split.
    + apply NoDup_cons. split; [|done]. intros Hi. apply R in Hi. lia.
    + intros i Hi. apply elem_of_cons in Hi as [->|Hi]; [|apply R in Hi; lia].
      lia.
Qed.

Lemma size_child id c : size (child_instrs id c) = size (instrs c).
Proof. unfold child_instrs. destruct (instrs c) eqn:E; [done|]. by rewrite size_block, E. Qed.

(** *** Emitting *)

Lemma wp_freshId c (Q : nat -> Compiler -> Prop) :
  ready c -> (forall c', after c c' -> c_nextId c' = S (c_nextId c) -> Q (c_nextId c) c') ->
  wp freshId c Q.
Proof.
  intros R HQ. unfold freshId. apply wp_bind, wp_get, wp_bind, wp_modify, wp_ret, HQ; [|done].
  destruct R as [(q & f & Hq & Hf & Hl) Hp Hs].
  split; [|done|split; simpl; try done; by exists q, f].
  split; simpl; try done; [lia|apply keeps_refl|apply functions_grow_refl].
Qed.

Lemma wp_EMIT_id id b op d u t c l delta depth (Q : CompiledBlock -> Compiler -> Prop) :
  ready c -> built l delta depth b ->
  (forall loc b', built (l ++ [Instr id op loc u t 0]) (delta + d) (Z.max depth (delta + d)) b' -> Q b' c) ->
  wp (EMIT_id id b op d u t) c Q.
Proof.
  intros R B HQ. unfold EMIT_id. apply wp_bind, wp_currentSourceLocation; [done|].
  intros loc _. apply wp_ret. by eapply HQ, built_Emit.
Qed.

Lemma wp_EMIT1 b op d u c l delta depth (Q : CompiledBlock -> Compiler -> Prop) :
  ready c -> built l delta depth b ->
  (forall loc b' c', after c c' -> c_nextId c' = S (c_nextId c) ->
     built (l ++ [Instr (c_nextId c) op loc u None 0]) (delta + d) (Z.max depth (delta + d)) b' -> Q b' c') ->
  wp (EMIT1 b op d u) c Q.
Proof.
  intros R B HQ. unfold EMIT1. apply wp_bind, wp_freshId; [done|]. intros c1 A1 N1.
  eapply wp_EMIT_id; [apply A1|done|]. intros loc b' B'. by eapply HQ.
Qed.

Lemma wp_EMIT_branch b op d tgt c l delta depth (Q : CompiledBlock -> Compiler -> Prop) :
  ready c -> built l delta depth b ->
  (forall loc b' c', after c c' -> c_nextId c' = S (c_nextId c) ->
     built (l ++ [Instr (c_nextId c) op loc zero (Some tgt) 0]) (delta + d) (Z.max depth (delta + d)) b' ->
     Q b' c') ->
  wp (EMIT_branch b op d tgt) c Q.
Proof.
  intros R B HQ. unfold EMIT_branch. apply wp_bind, wp_freshId; [done|]. intros c1 A1 N1.
  eapply wp_EMIT_id; [apply A1|done|]. intros loc b' B'. by eapply HQ.
Qed.

Lemma wp_AppendChild b child c l delta depth (Q : CompiledBlock -> Compiler -> Prop) :
  ready c -> built l delta depth b -> delta <= depth -> sane child ->
  (forall b' c', after c c' -> c_nextId c' = S (c_nextId c) ->
     built (l ++ child_instrs (c_nextId c) child) (delta + finalStackDelta child)
       (Z.max depth (delta + maxStackDepth child)) b' -> Q b' c') ->
  wp (AppendChild b child) c Q.
Proof.
  intros R B Hd Hs HQ. unfold AppendChild. apply wp_bind, wp_freshId; [done|]. intros c1 A1 N1.
  apply wp_ret, HQ; [done..|]. by apply built_AppendChild.
Qed.

(** A block that leaves [delta] values is made to leave none, or one. *)
Lemma wp_EmitNoResult b c l delta depth (Q : CompiledBlock -> Compiler -> Prop) :
  ready c -> built l delta depth b -> 0 <= delta <= 1 -> delta <= depth ->
  (forall loc b' c', after c c' ->
     built (l ++ if delta =? 0 then [] else [Instr (c_nextId c) Op_Pop1 loc zero None 0]) 0 depth b' ->
     (delta <> 0 -> c_nextId c' = S (c_nextId c)) -> (delta = 0 -> b' = b) -> Q b' c') ->
  wp (Compiler_EmitNoResult b) c Q.
Proof.
  intros R B Hd Hdepth HQ. pose proof B as (_ & Hb & _ & He). unfold Compiler_EmitNoResult. rewrite He, Hb.
  destruct (Z.eqb_spec delta 0) as [->|]; simpl.
  - apply wp_ret, (HQ 0); [by apply after_refl|by rewrite app_nil_r|done|done].
  - eapply wp_EMIT1; [done..|]. intros loc b' c' A N B'. apply (HQ loc); [done| |done|done].
    replace (delta + -1) with 0 in B' by lia. by rewrite Z.max_l in B' by lia.
Qed.

Lemma wp_EmitRequireResult b c l delta depth (Q : CompiledBlock -> Compiler -> Prop) :
  ready c -> built l delta depth b -> 0 <= delta <= 1 ->
  (forall loc b' c', after c c' ->
     built (l ++ if delta =? 0 then [Instr (c_nextId c) Op_LdNull loc zero None 0] else []) 1
       (if delta =? 0 then Z.max depth 1 else depth) b' ->
     (delta = 0 -> c_nextId c' = S (c_nextId c)) -> Q b' c') ->
  wp (Compiler_EmitRequireResult b) c Q.
Proof.
  intros R B Hd HQ. pose proof B as (_ & Hb & _ & He). unfold Compiler_EmitRequireResult. rewrite He, Hb.
  destruct (Z.eqb_spec delta 0) as [->|].
  - eapply wp_EMIT1; [done..|]. intros loc b' c' A N B'. by apply (HQ loc).
  - apply wp_ret, (HQ 0); [by apply after_refl|rewrite app_nil_r; by replace 1 with delta by lia|lia].
Qed.
