(* ===== verification/CompileCorrect.v ===== *)
(** * CompileCorrect: the compiler is right about the core of the language

    For every expression of the core of [Reference], the compiler succeeds, and
    its code, wherever it is placed, computes on the machine what the reference
    interpreter says: it binds the same variables, leaves the same value, and
    stays within the stack space the compiler has counted. *)

From S2P Require Import Prelude Opcode ByteCode CompiledBlock Object Expr Closure.
From S2P Require Import Machine FnCall Eval EvalProps.
From S2P Require Import Compiler KnownSymbols CompileForms CompilerInvariant CompilerProps Reference RunBlock CompileSteps.
Import Operand.

Section CompileCorrect.
Context {OE : ObjectEnv} {E : CompilerEnv} {X : Run}.
#[local] Notation na := (locals run_closure).

(** ** Runs of lists of instructions *)

(** From the values [inp] on top of any stack the code leaves [out] there; it
    needs [need] slots above that stack. *)
Definition runs (slots : list Z) (l : list IntermediateInstruction) (need : Z)
  (env : Env) (inp : list Value) (env' : Env) (out : list Value) : Prop :=
  forall p stack, placed p l -> room stack need ->
  moves p slots env (stack ++ inp) (p + size l) slots env' (stack ++ out).

Lemma room_weaken stack n n' : room stack n -> n' <= n -> room stack n'.
Proof. unfold room. lia. Qed.

Lemma room_snoc stack v n : room stack n -> room (stack ++ [v]) (n - 1).
Proof. unfold room. rewrite zlen_snoc. lia. Qed.

Lemma runs_nil slots env inp : runs slots [] 0 env inp env inp.
Proof. intros p stack _ _. rewrite size_nil, Z.add_0_r. apply moves_refl. Qed.

Lemma runs_weaken slots l n n' env inp env' out :
  runs slots l n env inp env' out -> n <= n' -> runs slots l n' env inp env' out.
Proof. intros H Hn p stack Hp Hr. apply H; [done|]. by eapply room_weaken. Qed.

Lemma runs_app slots l1 l2 n1 n2 env1 env2 env3 s1 s2 s3 :
  runs slots l1 n1 env1 s1 env2 s2 -> runs slots l2 n2 env2 s2 env3 s3 ->
  runs slots (l1 ++ l2) (Z.max n1 n2) env1 s1 env3 s3.
Proof.
  intros H1 H2 p stack Hp Hr. apply placed_app in Hp as [Hp1 Hp2].
  eapply moves_trans; [apply H1; [done|eapply room_weaken; [done|lia]]|].
  rewrite size_app, Z.add_assoc. apply H2; [done|eapply room_weaken; [done|lia]].
Qed.

(** The same above more values. *)
Lemma runs_frame slots l n env inp env' out pre :
  runs slots l n env inp env' out -> runs slots l (zlen pre + n) env (pre ++ inp) env' (pre ++ out).
Proof.
  intros H p stack Hp Hr. rewrite !app_assoc. apply H; [done|].
  unfold room in *. rewrite zlen_app. lia.
Qed.

Lemma runs_child slots id b n env inp env' out :
  runs slots (instrs b) n env inp env' out -> runs slots (child_instrs id b) n env inp env' out.
Proof.
  intros H p stack Hp Hr. rewrite size_child. apply H; [|done].
  unfold child_instrs in Hp. destruct (instrs b) eqn:Eb; [done|].
  rewrite <- Eb. by eapply placed_block.
Qed.

Lemma runs_loads slots id op loc u v env :
  isLabel op = false -> isBranch op = false -> loads op u v ->
  runs slots [Instr id op loc u None 0] 1 env [] env [v].
Proof.
  intros Hl Hb Hloads p stack Hp Hr. rewrite size_instr, Hl, app_nil_r.
  pose proof (placed_instr _ _ _ _ _ _ _ Hp Hl) as Hc. rewrite Hb in Hc.
  eapply Hloads; [exact Hc|done].
Qed.

Lemma runs_pop slots id loc v env : runs slots [Instr id Op_Pop1 loc zero None 0] 0 env [v] env [].
Proof.
  intros p stack Hp _. rewrite size_instr, app_nil_r. eapply moves_pop.
  exact (placed_instr _ _ _ _ _ _ _ Hp eq_refl).
Qed.

(** ** Names in scope *)

(** The symbol is a variable of the function being compiled, in slot [i]. *)
Definition denotes (c : Compiler) (x : Symbol) (i : Z) : Prop :=
  exists p ls s q local,
    meaning c x = Some p /\ c_localSymbols c !! p = Some ls
    /\ c_scopes c !! ls_scope ls = Some s /\ sc_function s = Some q /\ c_currentFunction c = Some q
    /\ ls_kind ls = (if local : bool then PARSEDECL_VARIABLE else PARSEDECL_ARGUMENT)
    /\ 0 <= ls_index ls /\ i = slot_of local (ls_index ls).

Definition local_count (c : Compiler) : Z :=
  match q ← c_currentFunction c; c_functions c !! q with
  | Some f => zlen (cf_localNames f)
  | None => 0
  end.

Record scoped (c : Compiler) (xs : list Symbol) (slots : list Z) : Prop := {
  sc_length : length slots = length xs;
  sc_distinct : NoDup slots;
  sc_below : Forall (fun i => 0 <= i < na + local_count c) slots;
  sc_names : forall x k, index_of x xs = Some k -> exists i, slots !! k = Some i /\ denotes c x i
}.

(** The variables the function has got so far are among those of the closure. *)
Definition space (c : Compiler) : Prop :=
  na < 2 ^ 31 /\ na + local_count c <= run_variables /\ local_count c < 2 ^ 31
  /\ run_variables <= zlen (variables run_closure).

Lemma local_count_after c c' : ready c -> steady_scope c c' -> local_count c <= local_count c'.
Proof.
  intros [(q & f & Hq & Hf & _) _ _] [? ? Hc ? ? Hfn ? ? ?]. unfold local_count. rewrite Hc, Hq. simpl.
  destruct (Hfn q f Hf) as (f' & Ef & _ & _ & _ & _ & _ & _ & l & Hl). rewrite Hf, Ef, Hl, zlen_app.
  pose proof (zlen_nonneg l). lia.
Qed.

Lemma space_after c c' : ready c -> after c c' -> space c' -> space c.
Proof.
  intros R A (? & ? & ? & ?). pose proof (local_count_after c c' R (a_steady _ _ A)). unfold space. lia.
Qed.

Lemma meaning_after c c' x :
  ready c -> steady_scope c c' -> c_currentScope c' = c_currentScope c -> meaning c' x = meaning c x.
Proof.
  intros [_ Hp Hs] [_ _ _ [new Hn] _ _ _ _ _] Hc. unfold meaning. rewrite Hn, Hc.
  rewrite FindSymbol_app by done. apply FindSymbol_fuel; [done|].
  intros p E'. specialize (Hs p E'). rewrite length_app. lia.
Qed.

Lemma denotes_after c c' x i : ready c -> after c c' -> denotes c x i -> denotes c' x i.
Proof.
  intros R [S Hc R'] (p & ls & s & q & local & Hm & Hls & Hs & Hf & Hq & Hk & Hi & ->).
  destruct (s_symbols _ _ S p ls Hls) as (ls' & Hls' & [= Ek Ei Es]).
  exists p, ls', s, q, local. rewrite (meaning_after c c'), (s_currentFunction _ _ S), Ek, Ei, Es by done.
  repeat split; try done; [|lia..].
  destruct (s_scopes _ _ S) as [new ->]. by apply lookup_app_l_Some.
Qed.

Lemma scoped_after c c' xs slots : ready c -> after c c' -> scoped c xs slots -> scoped c' xs slots.
Proof.
  intros R A [Hl Hd Hb Hn]. split; try done.
  - eapply Forall_impl; [exact Hb|]. intros i Hi. simpl in *.
    pose proof (local_count_after c c' R (a_steady _ _ A)). lia.
  - intros x k Hk. destruct (Hn x k Hk) as (i & Hi & Hden). exists i. split; [done|].
    by eapply denotes_after.
Qed.

(** The operand of an instruction for a variable in scope is a small number. *)
Lemma scoped_index c xs slots k local index :
  scoped c xs slots -> space c -> slots !! k = Some (slot_of local index) -> 0 <= index -> inS 64 index.
Proof.
  intros [_ _ Hb _] Hsp Hk Hi. rewrite Forall_lookup in Hb. specialize (Hb k _ Hk). simpl in Hb.
  unfold space, slot_of in *. unfold inS. change (64 - 1) with 63. destruct local; lia.
Qed.

Lemma index_of_Some x xs k : index_of x xs = Some k -> xs !! k = Some x.
Proof.
  revert k. induction xs as [|y xs IH]; intros k H; simpl in H; [done|].
  destruct (Z.eqb_spec y x) as [->|]; [by injection H as <-|].
  destruct (index_of x xs) as [j|]; [|done]. injection H as <-. by apply IH.
Qed.

Lemma index_of_elem x xs : x ∈ xs -> exists k, index_of x xs = Some k.
Proof.
  induction xs as [|y xs IH]; intros H; [by apply elem_of_nil in H|]. simpl.
  destruct (Z.eqb_spec y x) as [->|]; [by eexists|]. apply elem_of_cons in H as [->|H]; [done|].
  destruct (IH H) as [k ->]. by eexists.
Qed.

(** ** What compiling an expression achieves *)

(** An expression's meaning: the bindings before, the value, those after. *)
Notation Meaning := (Env -> Value -> Env -> Prop).

Definition evals (e : Expr) : Meaning := fun env v env' => exists n, eval n env e = Some (v, env').

(** The values a block leaves. *)
Definition result (b : CompiledBlock) (v : Value) : list Value :=
  if finalStackDelta b =? 0 then [] else [v].

Record compiled (c c' : Compiler) (xs : list Symbol) (slots : list Z) (ev : Meaning) (b : CompiledBlock)
  : Prop := {
  k_after : after c c';
  k_sane : sane b;
  k_fresh : fresh (c_nextId c) (c_nextId c') (ids (instrs b));
  k_runs : space c' -> forall env v env', ev env v env' -> env.*1 = xs ->
    env'.*1 = xs /\ runs slots (instrs b) (maxStackDepth b) env [] env' (result b v)
}.

(** A block that leaves nothing where a value is wanted stands for null. *)
Definition null_if_empty (noResult : bool) (ev : Meaning) (b : CompiledBlock) : Prop :=
  noResult = false -> finalStackDelta b = 0 -> forall env v env', ev env v env' -> v = VNull.

Lemma built_self b : sane b -> built (instrs b) (finalStackDelta b) (maxStackDepth b) b.
Proof. intros []. by repeat split. Qed.

Lemma sane_built l delta depth b :
  built l delta depth b -> delta = 0 \/ delta = 1 -> delta <= depth -> 0 <= depth ->
  (l = [] -> delta = 0 /\ depth = 0) -> sane b.
Proof. intros (<- & <- & <- & ?) ? ? ? ?. by split. Qed.

Lemma delta_bounds b : sane b -> 0 <= finalStackDelta b <= 1.
Proof. intros [_ [-> | ->] _ _ _]; lia. Qed.

(** Dropping the value, or supplying the null. *)
Lemma drop_value b c c1 xs slots ev (Q : CompiledBlock -> Compiler -> Prop) :
  compiled c c1 xs slots ev b ->
  (forall b' c2, compiled c c2 xs slots ev b' -> finalStackDelta b' = 0 -> Q b' c2) ->
  wp (Compiler_EmitNoResult b) c1 Q.
Proof.
  intros [A Hs Hf Hr] HQ. pose proof (delta_bounds b Hs) as Hd. pose proof (after_nextId _ _ A).
  eapply wp_EmitNoResult; [apply A|by apply built_self|done|apply Hs|].
  intros loc b' c2 A2 B N Hsame.
  destruct (Z.eqb_spec (finalStackDelta b) 0) as [E0|E0].
  - rewrite Hsame by done. apply HQ; [|done]. pose proof (after_nextId _ _ A2). split; try done.
    + by eapply after_trans.
    + fresh_solve.
    + intros Hsp. apply Hr. by eapply space_after; [apply A|..].
  - specialize (N E0). pose proof B as (Bi & Bd & Bm & _). apply HQ; [|done]. split.
    + by eapply after_trans.
    + eapply sane_built; [exact B|auto|apply Hs|apply Hs|]. intros Hnil. by apply app_eq_nil in Hnil as [_ ?].
    + rewrite Bi, ids_app, ids_instr, N. fresh_solve.
    + intros Hsp env v env' Hev Hxs. destruct (Hr ltac:(by eapply space_after; [apply A|..]) env v env' Hev Hxs) as [Hxs' Hruns].
      split; [done|]. unfold result in *. rewrite Bd, Bi, Bm. simpl.
      destruct (Z.eqb_spec (finalStackDelta b) 0); [done|].
      eapply runs_weaken; [eapply runs_app; [exact Hruns|apply runs_pop]|]. pose proof (sn_depth _ Hs). lia.
Qed.

Lemma require_value b c c1 xs slots noResult ev (Q : CompiledBlock -> Compiler -> Prop) :
  compiled c c1 xs slots ev b -> null_if_empty noResult ev b -> noResult = false ->
  (forall b' c2, compiled c c2 xs slots ev b' -> finalStackDelta b' = 1 -> Q b' c2) ->
  wp (Compiler_EmitRequireResult b) c1 Q.
Proof.
  intros [A Hs Hf Hr] Hnull Hno HQ. pose proof (delta_bounds b Hs) as Hd. pose proof (after_nextId _ _ A).
  eapply wp_EmitRequireResult; [apply A|by apply built_self|done|].
  intros loc b' c2 A2 B N. pose proof B as (Bi & Bd & Bm & _). pose proof (after_nextId _ _ A2).
  pose proof (sn_depth _ Hs).
  apply HQ; [|done]. split.
  - by eapply after_trans.
  - eapply sane_built; [exact B|auto|..].
    + destruct (Z.eqb_spec (finalStackDelta b) 0); [lia|]. destruct Hs as [_ [|] _ ? _]; lia.
    + destruct (Z.eqb_spec (finalStackDelta b) 0); lia.
    + destruct (Z.eqb_spec (finalStackDelta b) 0) as [|Hn]; [intros Hnil; by apply app_eq_nil in Hnil as [_ ?]|].
      rewrite app_nil_r. intros Hnil. by destruct (sn_empty _ Hs Hnil).
  - rewrite Bi, ids_app. destruct (Z.eqb_spec (finalStackDelta b) 0) as [E0|].
    + rewrite ids_instr, (N E0). fresh_solve.
    + change (ids []) with (@nil nat). fresh_solve.
  - intros Hsp env v env' Hev Hxs. destruct (Hr ltac:(by eapply space_after; [apply A|..]) env v env' Hev Hxs) as [Hxs' Hruns].
    split; [done|]. unfold result in *. rewrite Bd, Bi, Bm. simpl.
    destruct (Z.eqb_spec (finalStackDelta b) 0) as [E0|]; [|by rewrite app_nil_r].
    rewrite (Hnull Hno E0 env v env' Hev).
    eapply runs_weaken; [eapply runs_app; [exact Hruns|apply runs_loads; [done..|apply loads_null]]|]. lia.
Qed.

Lemma match_flags b c c1 xs slots noResult ev (Q : CompiledBlock -> Compiler -> Prop) :
  compiled c c1 xs slots ev b -> null_if_empty noResult ev b ->
  (forall b' c2, compiled c c2 xs slots ev b' -> finalStackDelta b' = (if noResult then 0 else 1) -> Q b' c2) ->
  wp (Compiler_MakeStackMatchCompileFlags b noResult) c1 Q.
Proof.
  intros Hc Hn HQ. destruct noResult; [by eapply drop_value|by eapply require_value].
Qed.

(** ** Parts of a form *)

(** A list of instructions that computes [ev], in whatever type, and leaves [out]
    of the answer. *)
Record part {A} (c c' : Compiler) (xs : list Symbol) (slots : list Z) (ev : Env -> A -> Env -> Prop)
  (out : A -> list Value) (l : list IntermediateInstruction) (need : Z) : Prop := {
  p_after : after c c';
  p_fresh : fresh (c_nextId c) (c_nextId c') (ids l);
  p_need : 0 <= need;
  p_empty : l = [] -> need = 0;
  p_runs : space c' -> forall env v env', ev env v env' -> env.*1 = xs ->
    env'.*1 = xs /\ runs slots l need env [] env' (out v)
}.

#[global] Arguments p_after {A c c' xs slots ev out l need}.
#[global] Arguments p_fresh {A c c' xs slots ev out l need}.
#[global] Arguments p_need {A c c' xs slots ev out l need}.
#[global] Arguments p_empty {A c c' xs slots ev out l need}.
#[global] Arguments p_runs {A c c' xs slots ev out l need}.

Lemma append_child b0 l d depth c c1 xs slots ev b (Q : CompiledBlock -> Compiler -> Prop) :
  compiled c c1 xs slots ev b -> built l d depth b0 -> d <= depth ->
  (forall l' b' c2, part c c2 xs slots ev (result b) l' (maxStackDepth b) ->
     built (l ++ l') (d + finalStackDelta b) (Z.max depth (d + maxStackDepth b)) b' -> Q b' c2) ->
  wp (AppendChild b0 b) c1 Q.
Proof.
  intros [A Hs Hf Hr] B Hd HQ. eapply wp_AppendChild; [apply A|done..|].
  intros b' c2 A2 N B'. eapply HQ; [|exact B']. pose proof (after_nextId _ _ A). split.
  - by eapply after_trans.
  - rewrite N. eapply fresh_child; [exact Hf|lia].
  - apply Hs.
  - unfold child_instrs. destruct (instrs b) eqn:Eb; [|done]. intros _. by apply (sn_empty _ Hs Eb).
  - intros Hsp env v env' Hev Hxs.
    destruct (Hr ltac:(by eapply space_after; [apply A|..]) env v env' Hev Hxs) as [? Hruns].
    split; [done|]. by apply runs_child.
Qed.

(** What compiling gives, whatever the context. *)
Definition correct (xs : list Symbol) (noResult : bool) (ev : Meaning) (leaves : bool)
  (m : M CompiledBlock) : Prop :=
  forall c slots, ready c -> scoped c xs slots ->
  wp m c (fun b c' => compiled c c' xs slots ev b /\ null_if_empty noResult ev b
    /\ (noResult = false -> leaves = true -> finalStackDelta b = 1)).

Definition all (v : Value) : list Value := [v].
Definition none (v : Value) : list Value := [].
Definition unless (noResult : bool) : Value -> list Value := if noResult then none else all.

Lemma result_1 b : finalStackDelta b = 1 -> result b = all.
Proof. unfold result. by intros ->. Qed.
Lemma result_0 b : finalStackDelta b = 0 -> result b = none.
Proof. unfold result. by intros ->. Qed.

Lemma result_unless b (noResult : bool) :
  finalStackDelta b = (if noResult then 0 else 1) -> result b = unless noResult.
Proof. destruct noResult; [apply result_0|apply result_1]. Qed.

Section Children.
Context (CE : Expr -> bool -> M CompiledBlock).

Lemma wp_matching b0 l d depth e (noResult : bool) c xs slots leaves (Q : CompiledBlock -> Compiler -> Prop) :
  correct xs noResult (evals e) leaves (CE e noResult) -> ready c -> scoped c xs slots ->
  built l d depth b0 -> d <= depth ->
  (forall l' need b' c', part c c' xs slots (evals e) (unless noResult) l' need ->
     built (l ++ l') (d + (if noResult then 0 else 1)) (Z.max depth (d + need)) b' ->
     (noResult = false -> 1 <= need) -> Q b' c') ->
  wp (AppendMatching CE b0 e noResult) c Q.
Proof.
  intros IH R Hsc B Hd HQ. unfold AppendMatching. apply wp_bind. eapply wp_mono; [by apply IH|].
  intros child c1 (Hc & Hnull & _). apply wp_bind. eapply match_flags; [exact Hc|exact Hnull|].
  intros child' c2 Hc2 Hdelta. eapply append_child; [exact Hc2|exact B|done|].
  intros l' b' c3 Hp B'. rewrite Hdelta in B'. rewrite (result_unless _ _ Hdelta) in Hp.
  eapply HQ; [exact Hp|exact B'|]. intros ->. pose proof (sn_le _ (k_sane _ _ _ _ _ _ Hc2)). lia.
Qed.

Lemma wp_required b0 l d depth e c xs slots leaves (Q : CompiledBlock -> Compiler -> Prop) :
  correct xs false (evals e) leaves (CE e false) -> ready c -> scoped c xs slots ->
  built l d depth b0 -> d <= depth ->
  (forall l' need b' c', part c c' xs slots (evals e) all l' need ->
     built (l ++ l') (d + 1) (Z.max depth (d + need)) b' -> 1 <= need -> Q b' c') ->
  wp (AppendRequired CE b0 e) c Q.
Proof.
  intros IH R Hsc B Hd HQ. apply (wp_matching b0 l d depth e false c xs slots leaves Q); auto.
  intros. eapply HQ; eauto.
Qed.

(** Compiled with or without result, and the result dropped. *)
Lemma wp_dropped b0 l d depth e noResult c xs slots leaves (Q : CompiledBlock -> Compiler -> Prop) :
  correct xs noResult (evals e) leaves (CE e noResult) -> ready c -> scoped c xs slots ->
  built l d depth b0 -> d <= depth ->
  (forall l' need b' c', part c c' xs slots (evals e) none l' need ->
     built (l ++ l') d (Z.max depth (d + need)) b' -> Q b' c') ->
  wp (childBlock ← CE e noResult; childBlock ← Compiler_EmitNoResult childBlock; AppendChild b0 childBlock) c Q.
Proof.
  intros IH R Hsc B Hd HQ. apply wp_bind. eapply wp_mono; [by apply IH|].
  intros child c1 (Hc & _ & _). apply wp_bind. eapply drop_value; [exact Hc|].
  intros child' c2 Hc2 Hdelta. eapply append_child; [exact Hc2|exact B|done|].
  intros l' b' c3 Hp B'. rewrite Hdelta, Z.add_0_r in B'. rewrite (result_0 _ Hdelta) in Hp. by eapply HQ.
Qed.
End Children.

(** *** Variables *)

Lemma wp_mark p f c (Q : unit -> Compiler -> Prop) :
  ready c -> (forall s, (ls_kind (f s), ls_index (f s), ls_scope (f s)) = (ls_kind s, ls_index s, ls_scope s)) ->
  (forall c', after c c' -> c_nextId c' = c_nextId c -> Q tt c') -> wp (mark p f) c Q.
Proof.
  intros [(q & g & Hq & Hg & Hl) Hp Hs] Hf HQ. unfold mark, update. apply wp_modify, HQ; [|done].
  split; [|done|split; simpl; try done; by exists q, g].
  split; simpl; try done; [by apply keeps_alter|apply functions_grow_refl].
Qed.

Lemma wp_relativeDepth ls c s q (Q : Z -> Compiler -> Prop) :
  ready c -> c_scopes c !! ls_scope ls = Some s -> sc_function s = Some q ->
  c_currentFunction c = Some q -> Q 0 c -> wp (relativeDepth ls) c Q.
Proof.
  intros R Hs Hf Hq HQ. unfold relativeDepth. apply wp_bind, wp_current; [done|].
  intros q' f Hq' Hf' _. rewrite Hq in Hq'. injection Hq' as <-.
  apply wp_bind. eapply wp_load; [exact Hs|]. apply wp_bind. eapply wp_need; [exact Hf|].
  apply wp_bind. eapply wp_load; [exact Hf'|]. apply wp_ret. by rewrite Z.sub_diag.
Qed.

(** The instruction for a variable: its operand is the index, wherever the slot is. *)
Lemma wp_LoadVariable x noResult c i (Q : CompiledBlock -> Compiler -> Prop) :
  ready c -> denotes c x i ->
  (forall local index loc b c', after c c' -> i = slot_of local index -> 0 <= index ->
     (noResult = true -> b = CompiledBlock_Create) ->
     (noResult = false -> exists id, c_nextId c' = S id /\ (c_nextId c <= id)%nat /\
        built [Instr id (ld_fixed local 0) loc (set_index zero index) None 0] 1 1 b) -> Q b c') ->
  wp (Compiler_CompileLoadVariable x noResult) c Q.
Proof.
  intros R (p & ls & s & q & local & Hm & Hls & Hs & Hf & Hq & Hk & Hi & ->) HQ.
  unfold Compiler_CompileLoadVariable, CompileScope_FindSymbol.
  apply wp_bind, wp_get, wp_bind, wp_bind, wp_get, wp_ret. unfold meaning in Hm. rewrite Hm.
  apply wp_bind. eapply wp_load; [exact Hls|].
  assert (Hload : wp (CompileLoad (if local then Op_LdLoc0 else Op_LdArg0)
                        (if local then Op_LdLoc else Op_LdArg) p noResult) c Q).
  { unfold CompileLoad. apply wp_bind. eapply wp_load; [exact Hls|]. apply wp_bind.
    eapply wp_relativeDepth; [done..|]. destruct noResult.
    - apply wp_ret. by apply (HQ local (ls_index ls) 0); [apply after_refl|..].
    - apply wp_bind. apply wp_mark; [done|done|]. intros c1 A1 N1.
      eapply wp_EMIT1; [apply A1|apply built_Create|]. intros loc b c2 A2 N2 B.
      apply (HQ local (ls_index ls) loc); try done; [by eapply after_trans|]. intros _. exists (c_nextId c1).
      split; [done|]. split; [lia|]. by destruct local. }
  rewrite Hk. destruct local; exact Hload.
Qed.

Lemma wp_StoreVariable x (noResult : bool) b0 l d depth c i (Q : CompiledBlock -> Compiler -> Prop) :
  ready c -> denotes c x i -> built l d depth b0 -> d <= depth ->
  (forall local index loc id b c', after c c' -> i = slot_of local index -> 0 <= index ->
     c_nextId c' = S id -> (c_nextId c <= id)%nat ->
     built (l ++ [Instr id ((if noResult then stp_fixed else st_fixed) local 0%nat) loc (set_index zero index) None 0])
       (d + if noResult then -1 else 0) depth b -> Q b c') ->
  wp (Compiler_CompileStoreVariable x noResult b0) c Q.
Proof.
  intros R (p & ls & s & q & local & Hm & Hls & Hs & Hf & Hq & Hk & Hi & ->) B Hd HQ.
  unfold Compiler_CompileStoreVariable, CompileScope_FindSymbol.
  apply wp_bind, wp_get, wp_bind, wp_bind, wp_get, wp_ret. unfold meaning in Hm. rewrite Hm.
  apply wp_bind. eapply wp_load; [exact Hls|].
  assert (Hstore : wp (CompileStore (if local then Op_StpLoc0 else Op_StpArg0) (if local then Op_StpLoc else Op_StpArg)
      (if local then Op_StLoc0 else Op_StArg0) (if local then Op_StLoc else Op_StArg) p noResult b0) c Q).
  { unfold CompileStore. apply wp_bind. eapply wp_load; [exact Hls|]. apply wp_bind.
    eapply wp_relativeDepth; [done..|]. simpl (_ <=? _). cbv iota. apply wp_bind. apply wp_mark; [done|done|].
    intros c1 A1 N1. destruct noResult; (eapply wp_EMIT1; [apply A1|exact B|]); intros loc b c2 A2 N2 B';
      apply (HQ local (ls_index ls) loc (c_nextId c1)); try done;
      try (by eapply after_trans); try lia;
      (rewrite Z.max_l in B' by lia); by destruct local. }
  rewrite Hk. destruct local; exact Hstore.
Qed.

(** ** Composition *)

Lemma fresh_widen lo lo' hi hi' l : fresh lo hi l -> (lo' <= lo)%nat -> (hi <= hi')%nat -> fresh lo' hi' l.
Proof. intros [N R] H1 H2. split; [done|]. intros i Hi. apply R in Hi. lia. Qed.

Lemma compiled_widen c0 c c1 c2 xs slots ev b :
  after c0 c -> compiled c c1 xs slots ev b -> after c1 c2 -> compiled c0 c2 xs slots ev b.
Proof.
  intros A0 [A Hs Hf Hr] A2. split; [|done| |].
  - eapply after_trans; [exact A0|]. by eapply after_trans.
  - eapply fresh_widen; [exact Hf|by apply after_nextId|by apply after_nextId].
  - intros Hsp. apply Hr. eapply space_after; [apply A|exact A2|done].
Qed.

Lemma part_widen {A} c0 c c1 c2 xs slots (ev : Env -> A -> Env -> Prop) out l need :
  after c0 c -> part c c1 xs slots ev out l need -> after c1 c2 -> part c0 c2 xs slots ev out l need.
Proof.
  intros A0 [A1 Hf Hn Hnil Hr] A2. split; [| |done|done|].
  - eapply after_trans; [exact A0|]. by eapply after_trans.
  - eapply fresh_widen; [exact Hf|by apply after_nextId|by apply after_nextId].
  - intros Hsp. apply Hr. eapply space_after; [apply A1|exact A2|done].
Qed.

(** A part followed by more code. *)
Lemma part_then {A B} c c1 c2 xs slots (ev : Env -> A -> Env -> Prop) (ev' : Env -> B -> Env -> Prop)
  (out : A -> list Value) (out' : B -> list Value) l l2 need n2 :
  part c c1 xs slots ev out l need -> after c1 c2 -> fresh (c_nextId c1) (c_nextId c2) (ids l2) ->
  0 <= n2 -> l2 <> [] ->
  (space c2 -> forall env v env', ev' env v env' -> exists w env1, ev env w env1
     /\ (env.*1 = xs -> env1.*1 = xs ->
         env'.*1 = xs /\ runs slots l2 n2 env1 (out w) env' (out' v))) ->
  part c c2 xs slots ev' out' (l ++ l2) (Z.max need n2).
Proof.
  intros [A1 Hf Hn Hnil Hr] A2 Hf2 Hn2 Hne Hr2.
  pose proof (after_nextId _ _ A1). pose proof (after_nextId _ _ A2). split.
  - by eapply after_trans.
  - rewrite ids_app. fresh_solve.
  - lia.
  - intros H'. by apply app_eq_nil in H' as [_ ?].
  - intros Hsp env v env' He Hxs. destruct (Hr2 Hsp env v env' He) as (w & env1 & He1 & Hr1).
    destruct (Hr ltac:(eapply space_after; [apply A1|exact A2|done]) env w env1 He1 Hxs) as [Hxs1 Hruns].
    destruct (Hr1 Hxs Hxs1) as [Hxs' Hruns']. split; [done|]. by eapply runs_app.
Qed.

Lemma part_mono {A B} c c' xs slots (ev : Env -> A -> Env -> Prop) (ev' : Env -> B -> Env -> Prop)
  (out : A -> list Value) (out' : B -> list Value) l need :
  part c c' xs slots ev out l need ->
  (forall env v env', ev' env v env' -> exists w, ev env w env' /\ out w = out' v) ->
  part c c' xs slots ev' out' l need.
Proof.
  intros [A1 Hf Hn Hnil Hr] Hev. split; [done..|]. intros Hsp env v env' He Hxs.
  destruct (Hev env v env' He) as (w & Hw & <-). by apply Hr.
Qed.

(** Two parts, the values of the second on top of those of the first. *)
Lemma part_join {A B C} c c1 c2 xs slots (ev1 : Env -> A -> Env -> Prop) (ev2 : Env -> B -> Env -> Prop)
  (ev : Env -> C -> Env -> Prop) (out1 : A -> list Value) (out2 : B -> list Value)
  (out : C -> list Value) l1 l2 n1 n2 k :
  part c c1 xs slots ev1 out1 l1 n1 -> part c1 c2 xs slots ev2 out2 l2 n2 ->
  0 <= k <= n1 -> (forall w, zlen (out1 w) = k) ->
  (forall env v env', ev env v env' ->
     exists w1 env1 w2, ev1 env w1 env1 /\ ev2 env1 w2 env' /\ out1 w1 ++ out2 w2 = out v) ->
  part c c2 xs slots ev out (l1 ++ l2) (Z.max n1 (k + n2)).
Proof.
  intros [A1 Hf1 Hn1 Hnil1 Hr1] [A2 Hf2 Hn2 Hnil2 Hr2] Hk Hlen Hev.
  pose proof (after_nextId _ _ A1). pose proof (after_nextId _ _ A2). split.
  - by eapply after_trans.
  - rewrite ids_app. fresh_solve.
  - lia.
  - intros H'. apply app_eq_nil in H' as [H1 H2]. rewrite (Hnil1 H1) in *. rewrite (Hnil2 H2). lia.
  - intros Hsp env v env' He Hxs. destruct (Hev env v env' He) as (w1 & env1 & w2 & He1 & He2 & <-).
    destruct (Hr1 ltac:(eapply space_after; [apply A1|exact A2|done]) _ _ _ He1 Hxs) as [Hxs1 R1].
    destruct (Hr2 Hsp _ _ _ He2 Hxs1) as [Hxs2 R2]. split; [done|].
    pose proof (runs_frame _ _ _ _ _ _ _ (out1 w1) R2) as R3. rewrite app_nil_r, Hlen in R3.
    by eapply runs_app.
Qed.

(** Nothing at all. *)
Lemma part_nil c xs slots : ready c ->
  part c c xs slots (fun env (_ : unit) env' => env' = env) (fun _ => []) [] 0.
Proof.
  intros R. split; [by apply after_refl| |done|done|].
  - split; [apply NoDup_nil_2|]. intros i Hi. by apply elem_of_nil in Hi.
  - intros _ env [] env' -> Hxs. split; [done|]. apply runs_nil.
Qed.

(** A finished block. *)
Lemma compiled_part c c' xs slots ev out l need delta depth b :
  part c c' xs slots ev out l need -> built l delta depth b -> delta = 0 \/ delta = 1 ->
  (forall v, out v = if delta =? 0 then [] else [v]) -> need <= depth -> delta <= depth ->
  (l = [] -> delta = 0 /\ depth = 0) ->
  compiled c c' xs slots ev b.
Proof.
  intros [A Hf Hn Hnil Hr] B Hd Hout Hneed Hle Hempty. pose proof B as (Bi & Bd & Bm & _). split.
  - done.
  - eapply sane_built; [exact B|done|done|lia|done].
  - by rewrite Bi.
  - intros Hsp env v env' He Hxs. destruct (Hr Hsp env v env' He Hxs) as [? Hruns]. split; [done|].
    unfold result. rewrite Bi, Bd, Bm, <- Hout. by eapply runs_weaken.
Qed.

(** The answer of a form that leaves what its flags say. *)
Lemma correct_flags c c' xs slots ev l need depth b (noResult leaves : bool) :
  part c c' xs slots ev (unless noResult) l need ->
  built l (if noResult then 0 else 1) depth b -> need <= depth -> (if noResult then 0 else 1) <= depth ->
  (l = [] -> depth = 0) ->
  compiled c c' xs slots ev b /\ null_if_empty noResult ev b
  /\ (noResult = false -> leaves = true -> finalStackDelta b = 1).
Proof.
  intros Hp B Hneed Hle Hempty. pose proof B as (_ & Bd & _). split; [|split].
  - eapply compiled_part; [exact Hp|exact B|destruct noResult; auto|by destruct noResult|done|done|].
    intros Hl. specialize (Hempty Hl). destruct noResult; lia.
  - intros -> Hd. by rewrite Bd in Hd.
  - intros ->. by rewrite Bd.
Qed.

(** Weaker meanings. *)
Lemma correct_mono xs noResult (ev ev' : Meaning) (leaves leaves' : bool) m :
  correct xs noResult ev leaves m -> (forall env v env', ev' env v env' -> ev env v env') ->
  (leaves' = true -> leaves = true) -> correct xs noResult ev' leaves' m.
Proof.
  intros H Hev Hl c slots R Hsc. eapply wp_mono; [by apply H|].
  intros b c' ([A Hs Hf Hr] & Hn & Hv). split; [|split].
  - split; [done..|]. intros Hsp env v env' He. apply Hr; auto.
  - intros Hno Hd env v env' He. eapply Hn; eauto.
  - auto.
Qed.

(** Source locations are set before and set back afterwards. *)
Lemma correct_located xs noResult ev leaves m l :
  correct xs noResult ev leaves m ->
  correct xs noResult ev leaves
    (old ← Compiler_SetSourceLocationFromList l;
     compiledBlock ← m; Compiler_RevertSourceLocation old ;; mret compiledBlock).
Proof.
  intros H c slots R Hsc. apply wp_bind, wp_SetSourceLocationFromList; [done|].
  intros old c1 A1 Hold. apply wp_bind. eapply wp_mono; [apply H; [apply A1|by eapply scoped_after]|].
  intros b c2 (Hc & Hn & Hv). apply wp_bind, wp_Revert; [apply Hc|eapply after_valid; [apply Hc|done]|].
  intros c3 A3. apply wp_ret. split; [by eapply compiled_widen|]. by split.
Qed.
End CompileCorrect.

Ltac chain := repeat first [assumption | apply after_refl; assumption | eapply after_trans; [eassumption|]].
