(* ===== verification/CompileCore.v ===== *)
(** * CompileCore: the forms of the core, one by one

    Each special form of the core compiles to code that does what [Reference]
    says of it, given that its parts do; the induction over [supported]
    expressions at the end puts them together. *)

From S2P Require Import Prelude Opcode ByteCode CompiledBlock Object Expr Closure.
From S2P Require Import Machine FnCall Eval EvalProps.
From S2P Require Import Compiler KnownSymbols CompileForms CompilerInvariant CompilerProps Reference RunBlock CompileSteps.
From S2P Require Import CompileCorrect.
Import Operand.

Section CompileCore.
Context {OE : ObjectEnv} {E : CompilerEnv} {X : Run}.
#[local] Notation na := (locals run_closure).
#[local] Notation Meaning := (Env -> Value -> Env -> Prop).

(** ** Literals and variables *)

Lemma compiled_empty c xs slots (ev : Meaning) :
  ready c -> (forall env v env', ev env v env' -> env' = env) ->
  compiled c c xs slots ev CompiledBlock_Create.
Proof.
  intros R Hev. split; [by apply after_refl|by repeat split; auto| |].
  - split; [apply NoDup_nil_2|]. intros i Hi. by apply elem_of_nil in Hi.
  - intros _ env v env' He <-. rewrite (Hev env v env' He). split; [done|]. apply runs_nil.
Qed.

(** A block of one instruction that pushes the value. *)
Lemma compiled_push c c' xs slots (ev : Meaning) id op loc u b :
  after c c' -> built [Instr id op loc u None 0] 1 1 b -> c_nextId c' = S id -> (c_nextId c <= id)%nat ->
  (space c' -> forall env v env', ev env v env' -> env.*1 = xs -> env' = env /\
     runs slots [Instr id op loc u None 0] 1 env [] env [v]) ->
  compiled c c' xs slots ev b.
Proof.
  intros A B N Hid Hr. pose proof B as (Bi & Bd & Bm & _). split; [done| | |].
  - eapply sane_built; [exact B|by right|lia..|done].
  - rewrite Bi, N, ids_instr. split; [apply NoDup_singleton|]. intros i Hi.
    apply list_elem_of_singleton in Hi as ->. lia.
  - intros Hsp env v env' He Hxs. destruct (Hr Hsp env v env' He Hxs) as [-> Hruns]. split; [done|].
    unfold result. by rewrite Bi, Bd, Bm.
Qed.

Lemma correct_primitive op u v xs noResult (ev : Meaning) :
  isLabel op = false -> isBranch op = false -> loads op u v ->
  (forall env w env', ev env w env' -> w = v /\ env' = env) ->
  correct xs noResult ev true (COMPILE_PRIMITIVE_EXPR op (mret u) noResult).
Proof.
  intros Hl Hb Hloads Hev c slots R Hsc. unfold COMPILE_PRIMITIVE_EXPR. destruct noResult.
  - apply wp_ret. split; [|done]. apply compiled_empty; [done|]. intros env w env' He. by apply Hev in He as [].
  - apply wp_bind, wp_ret. eapply wp_EMIT1; [done|apply built_Create|]. intros loc b c' A N B.
    split; [|split; [|by intros; apply B]].
    + eapply compiled_push; [done|exact B|done|lia|]. intros _ env w env' He _.
      apply Hev in He as [-> ->]. split; [done|]. by apply runs_loads.
    + intros _ Hd. destruct B as (_ & B & _). by rewrite B in Hd.
Qed.

Lemma correct_literal CE e v xs noResult :
  literal e = Some v -> correct xs noResult (evals e) true (CompileExpr_body CE e noResult).
Proof.
  intros He. destruct (literal_loads CE e v He) as (op & u & Hc & Hl & Hb & Hloads). rewrite Hc.
  apply (correct_primitive _ _ v); [done..|]. intros env w env' [[|n] Hev]; [done|].
  destruct e; try discriminate He; simpl in Hev, He; injection He as <-; by injection Hev as <- <-.
Qed.

Lemma evals_variable x env v env' :
  evals (ESymbol x) env v env' ->
  env' = env /\ exists k, index_of x env.*1 = Some k /\ env !! k = Some (x, v).
Proof.
  intros [[|n] H]; [done|]. simpl in H. unfold env_get in H.
  destruct (index_of x env.*1) as [k|] eqn:Ek; [|done]. simpl in H.
  destruct (env !! k) as [[y w]|] eqn:Ey; [|done]. simpl in H. injection H as <- <-.
  split; [done|]. exists k. split; [done|]. apply index_of_Some in Ek.
  rewrite list_lookup_fmap, Ey in Ek. by injection Ek as ->.
Qed.

Lemma correct_variable x xs noResult :
  x ∈ xs -> correct xs noResult (evals (ESymbol x)) true (Compiler_CompileLoadVariable x noResult).
Proof.
  intros Hx c slots R Hsc. destruct (index_of_elem x xs Hx) as [k Hk].
  destruct (sc_names _ _ _ Hsc x k Hk) as (i & Hi & Hden).
  eapply wp_LoadVariable; [done|exact Hden|]. intros local index loc b c' A Hslot Hindex Hempty Hload.
  destruct noResult.
  - rewrite Hempty by done. split; [|done].
    eapply compiled_widen; [by apply after_refl| |exact A].
    apply compiled_empty; [done|]. intros env v env' He. by apply evals_variable in He as [-> _].
  - destruct (Hload eq_refl) as (id & N & Hid & B). split; [|split; [|by intros; apply B]].
    + eapply compiled_push; [done|exact B|done|done|]. intros Hsp env v env' He Hxs.
      apply evals_variable in He as (-> & k' & Hk' & Hv). split; [done|].
      rewrite Hxs, Hk in Hk'. injection Hk' as <-.
      intros p stack Hp Hroom. rewrite size_instr, app_nil_r.
      replace (isLabel (ld_fixed local 0)) with false by by destruct local.
      apply (moves_load p local index (wrapS 32 loc) _ _ _ k x).
      * pose proof (placed_instr _ _ _ _ _ _ _ Hp) as Hc. destruct local; by apply Hc.
      * eapply (scoped_index c'); [by eapply scoped_after|done|by rewrite <- Hslot|done].
      * by rewrite <- Hslot.
      * done.
      * done.
    + intros _ Hd. destruct B as (_ & B & _). by rewrite B in Hd.
Qed.

(** ** Assignment *)

Lemma runs_store slots id (noResult local : bool) index loc env k x v :
  NoDup slots -> slots !! k = Some (slot_of local index) -> inS 64 index ->
  runs slots
    [Instr id ((if noResult then stp_fixed else st_fixed) local 0%nat) loc (set_index zero index) None 0]
    0 env [v] (<[k := (x, v)]> env) (unless noResult v).
Proof.
  intros Hnd Hk Hi p stack Hp _.
  set (op := (if noResult then stp_fixed else st_fixed) local 0%nat) in *.
  assert (Hop : isLabel op = false /\ isBranch op = false) by (by destruct noResult, local).
  destruct Hop as [Hl Hb]. pose proof (placed_instr _ _ _ _ _ _ _ Hp Hl) as Hc.
  rewrite Hb in Hc. rewrite size_instr, Hl.
  destruct noResult; simpl unless; unfold none, all; rewrite ?app_nil_r.
  - by eapply moves_store_pop.
  - by eapply moves_store.
Qed.

Lemma env_set_names env x v env' k :
  env_set env x v = Some env' -> index_of x env.*1 = Some k ->
  env' = <[k := (x, v)]> env /\ env'.*1 = env.*1.
Proof.
  unfold env_set. intros H Hk. rewrite Hk in H. simpl in H. injection H as <-. split; [done|].
  rewrite list_fmap_insert. apply list_insert_id. by apply index_of_Some in Hk.
Qed.

Lemma evals_set x e s1 s2 s3 env v env' :
  evals (ECons (ESymbol SYMBOL__SET) (ECons (ESymbol x) (ECons e ENull s3) s2) s1) env v env' ->
  exists env1, evals e env v env1 /\ env_set env1 x v = Some env'.
Proof.
  intros [[|n] H]; [done|]. simpl in H. unfold eval_form in H. simpl in H.
  destruct (eval n env e) as [[w env1]|] eqn:Ee; [|done]. simpl in H.
  destruct (env_set env1 x w) as [env2|] eqn:Es; [|done]. injection H as <- <-.
  exists env1. split; [by exists n|done].
Qed.

Lemma correct_set CE x e xs noResult leaves s1 s2 s3 :
  x ∈ xs -> correct xs false (evals e) leaves (CE e false) ->
  correct xs noResult (evals (ECons (ESymbol SYMBOL__SET) (ECons (ESymbol x) (ECons e ENull s3) s2) s1)) true
    (Compiler_CompileSetf CE (ECons (ESymbol x) (ECons e ENull s3) s2) noResult).
Proof.
  intros Hx IH c slots R Hsc. destruct (index_of_elem x xs Hx) as [k Hk].
  unfold Compiler_CompileSetf, Compiler_CompileSetSymbol.
  apply wp_bind, wp_SetAssignedSymbol; [done|]. intros old c1 A1 Hold.
  apply wp_bind. eapply wp_need; [reflexivity|].
  apply wp_bind, wp_SetSourceLocationFromList; [apply A1|]. intros o2 c2 A2 _.
  assert (A02 : after c c2) by chain.
  apply wp_bind. eapply wp_required; [exact IH|apply A2|by eapply scoped_after|apply built_Create|done|].
  intros l' need b c3 Hp B Hneed. pose proof (p_after Hp) as A3.
  apply wp_bind, wp_SetSourceLocationFromList; [apply A3|]. intros o4 c4 A4 _.
  assert (A04 : after c c4) by chain.
  destruct (sc_names _ _ _ (scoped_after _ _ _ _ R A04 Hsc) x k Hk) as (i & Hi & Hden).
  apply wp_bind. eapply wp_StoreVariable; [apply A4|exact Hden|exact B|lia|].
  intros local index loc id b' c5 A5 -> Hindex N5 Hid B'.
  assert (A05 : after c c5) by chain.
  apply wp_bind, wp_Revert; [apply A5|eapply after_valid; [|exact Hold]; chain|].
  intros c6 A6. apply wp_ret. pose proof (after_nextId _ _ A4).
  eapply correct_flags; [|replace (if noResult then 0 else 1) with (0 + 1 + if noResult then -1 else 0)
    by (by destruct noResult); exact B'|apply Z.le_refl|destruct noResult; lia|intros Hl; by apply app_eq_nil in Hl as [_ ?]].
  rewrite <- (Z.max_l (Z.max 0 (0 + need)) 0) by lia.
  replace (Z.max 0 (0 + need)) with need by lia.
  eapply part_widen; [exact A02| |exact A6].
  eapply part_then; [exact Hp|chain|rewrite ids_instr, N5; fresh_solve|done|done|].
  intros Hsp env v env' He. apply evals_set in He as (env1 & He & Hset). exists v, env1. split; [done|].
  intros _ Hxs1. rewrite <- Hxs1 in Hk. destruct (env_set_names _ _ _ _ _ Hset Hk) as [-> Hn].
  split; [by rewrite Hn|]. apply runs_store; [apply Hsc|done|].
  eapply (scoped_index c5); [exact (scoped_after _ _ _ _ R A05 Hsc)|done..].
Qed.

(** ** Operators *)

Lemma correct_quote CE a v xs noResult s1 s2 :
  quoted a = Some v -> (forall r, CE a r = CompileExpr_body CE a r) ->
  correct xs noResult (evals (ECons (ESymbol SYMBOL__QUOTE) (ECons a ENull s2) s1)) true
    (Compiler_CompileQuote CE (ECons a ENull s2) noResult).
Proof.
  intros Hq HCE.
  assert (Hev : forall env w env',
    evals (ECons (ESymbol SYMBOL__QUOTE) (ECons a ENull s2) s1) env w env' -> w = v /\ env' = env).
  { intros env w env' [[|n] H]; [done|]. simpl in H. unfold eval_form in H. simpl in H.
    rewrite Hq in H. by injection H as <- <-. }
  destruct (isSymbol a) eqn:Es.
  - destruct a; try discriminate Es. injection Hq as <-.
    apply (correct_primitive Op_LdSym (set_symbol zero symbol) (VScalar KSymbol (scalar_bits KSymbol symbol)));
      [done|done|apply loads_symbol|done].
  - assert (Hlit : literal a = Some v) by (by destruct a).
    destruct (literal_loads CE a v Hlit) as (op & u & Hc & Hl & Hb & Hloads).
    intros c slots R Hsc. unfold Compiler_CompileQuote. destruct noResult.
    { apply wp_ret. split; [|done]. apply compiled_empty; [done|]. intros env w env' He. by apply Hev in He as []. }
    assert (Hm : wp (compiledBlock ← CE a false; Compiler_MakeStackMatchCompileFlags compiledBlock false) c
      (fun b c' => compiled c c' xs slots (evals (ECons (ESymbol SYMBOL__QUOTE) (ECons a ENull s2) s1)) b
        /\ null_if_empty false (evals (ECons (ESymbol SYMBOL__QUOTE) (ECons a ENull s2) s1)) b
        /\ (false = false -> true = true -> finalStackDelta b = 1))).
    { rewrite HCE, Hc. apply wp_bind. eapply wp_mono; [eapply correct_primitive; [done|done|exact Hloads|exact Hev|done|done]|].
      intros b c1 (Hcomp & Hnull & Hone). eapply (match_flags _ _ _ _ _ false); [exact Hcomp|exact Hnull|].
      intros b' c2 Hcomp' Hd. split; [done|]. split; [intros _ Hd'; by rewrite Hd in Hd'|done]. }
    destruct a; try exact Hm; discriminate.
Qed.

Lemma evals_not a s1 s2 env v env' :
  evals (ECons (ESymbol SYMBOL__NOT) (ECons a ENull s2) s1) env v env' ->
  exists w, evals a env w env' /\ negation w = Some v.
Proof.
  intros [[|n] H]; [done|]. simpl in H. unfold eval_form in H. simpl in H.
  destruct (eval n env a) as [[w env1]|] eqn:Ee; [|done]. simpl in H.
  destruct (negation w) as [w'|] eqn:En; [|done]. injection H as <- <-.
  exists w. split; [by exists n|done].
Qed.

Lemma runs_not slots id loc env v w :
  negation v = Some w -> runs slots [Instr id Op_Not loc zero None 0] 1 env [v] env [w].
Proof.
  intros Hn p stack Hp Hr. rewrite size_instr.
  eapply moves_not; [exact (placed_instr _ _ _ _ _ _ _ Hp eq_refl)|done|done].
Qed.

Lemma correct_not CE a xs noResult leaves message s1 s2 :
  correct xs noResult (evals a) leaves (CE a noResult) ->
  correct xs noResult (evals (ECons (ESymbol SYMBOL__NOT) (ECons a ENull s2) s1)) true
    (Compiler_CompileOneArgument CE (ECons a ENull s2) noResult message Op_Not).
Proof.
  intros IH c slots R Hsc. unfold Compiler_CompileOneArgument.
  apply wp_bind, wp_SetAssignedSymbol; [done|]. intros old c1 A1 Hold.
  apply wp_bind, wp_SetSourceLocationFromList; [apply A1|]. intros o2 c2 A2 _.
  assert (A02 : after c c2) by chain.
  apply wp_bind. eapply wp_matching; [exact IH|apply A2|by eapply scoped_after|apply built_Create|done|].
  intros l' need b c3 Hp B Hneed. pose proof (p_after Hp) as A3.
  assert (A03 : after c c3) by chain.
  apply wp_bind, wp_Revert; [apply A3|eapply after_valid; [|exact Hold]; chain|]. intros c4 A4.
  apply wp_bind, wp_SetSourceLocationFromList; [apply A4|]. intros o5 c5 A5 _.
  pose proof (p_need Hp) as Hneed0.
  assert (A05 : after c c5) by chain.
  apply wp_bind. destruct noResult.
  - apply wp_ret. apply wp_bind, wp_Revert; [apply A5|eapply after_valid; [|exact Hold]; chain|].
    intros c6 A6. apply wp_ret.
    eapply correct_flags; [|exact B|apply Z.le_refl|lia|intros Hl; rewrite (p_empty Hp Hl); lia].
    replace (Z.max 0 (0 + need)) with need by lia. eapply part_mono.
    + eapply part_widen; [exact A02|exact Hp|chain].
    + intros env v env' He. apply evals_not in He as (w & He & _). by exists w.
  - eapply wp_EMIT1; [apply A5|exact B|]. intros loc b' c6 A6 N6 B'.
    apply wp_bind, wp_Revert; [apply A6|eapply after_valid; [|exact Hold]; chain|].
    intros c7 A7. apply wp_ret. specialize (Hneed eq_refl). pose proof (after_nextId _ _ A4). pose proof (after_nextId _ _ A5).
    eapply correct_flags; [|exact B'|apply Z.le_refl|lia|intros Hl; by apply app_eq_nil in Hl as [_ ?]].
    replace (Z.max _ _) with (Z.max need 1) by lia.
    eapply part_widen; [exact A02| |exact A7].
    eapply part_then; [exact Hp|chain|rewrite ids_instr, N6; fresh_solve|done|done|].
    intros Hsp env v env' He. apply evals_not in He as (w & He & Hn). exists w, env'. split; [done|].
    intros _ Hxs1. split; [done|]. by apply runs_not.
Qed.

(** [===] and [!==], whose operands are appended before they are adjusted; an
    operand that leaves a value needs no adjustment. *)
Lemma wp_before CE b0 l d depth e c xs slots (Q : CompiledBlock -> Compiler -> Prop) :
  correct xs false (evals e) true (CE e false) -> ready c -> scoped c xs slots ->
  built l d depth b0 -> d <= depth ->
  (forall l' need b' c', part c c' xs slots (evals e) all l' need ->
     built (l ++ l') (d + 1) (Z.max depth (d + need)) b' -> 1 <= need -> Q b' c') ->
  wp (AppendBeforeMatch CE b0 e false) c Q.
Proof.
  intros IH R Hsc B Hd HQ. unfold AppendBeforeMatch. apply wp_bind. eapply wp_mono; [by apply IH|].
  intros b c1 (Hc & _ & Hone). specialize (Hone eq_refl eq_refl). pose proof (k_sane _ _ _ _ _ _ Hc) as Hs.
  assert (Happ : wp (AppendChild b0 b) c1 Q).
  { eapply append_child; [exact Hc|exact B|done|]. intros l' b' c2 Hp B'.
    rewrite (result_1 _ Hone) in Hp. rewrite Hone in B'. eapply HQ; [exact Hp|exact B'|].
    pose proof (sn_le _ Hs). lia. }
  set (parent := fst (CompiledBlock_AppendChild b0 (c_nextId c1) b)).
  assert (HQp : Q parent (upd_c_nextId S c1)) by exact Happ.
  apply wp_bind. change (wp freshId c1 ?K) with (K (c_nextId c1) (upd_c_nextId S c1)). cbv beta.
  assert (Hne : instrs b <> []).
  { intros Eb. destruct (sn_empty _ Hs Eb) as [Hz _]. by rewrite Hz in Hone. }
  destruct (CompiledBlock_AppendChild b0 (c_nextId c1) b) as [p appended] eqn:Ep.
  assert (appended = true) as ->.
  { unfold CompiledBlock_AppendChild in Ep. destruct (instrs b); [done|]. by injection Ep as _ <-. }
  assert (Hp : instrs p = instrs b0 ++ [BlockInstr (c_nextId c1) 0 zero b 0]).
  { change p with (fst (p, true)). rewrite <- Ep, AppendChild_instrs. by destruct (instrs b). }
  unfold Compiler_MakeStackMatchCompileFlags, Compiler_EmitRequireResult.
  rewrite (sn_escape _ Hs), Hone. apply wp_bind, wp_ret, wp_ret.
  rewrite Hp, removelast_last, <- Hp. replace (set_instrs (instrs p) p) with p by (by destruct p). exact HQp.
Qed.

Lemma evals_equal s a b s1 s2 s3 env v env' :
  s = SYMBOL__EQ \/ s = SYMBOL__NE ->
  evals (ECons (ESymbol s) (ECons a (ECons b ENull s3) s2) s1) env v env' ->
  exists w1 env1 w2, evals a env w1 env1 /\ evals b env1 w2 env'
    /\ v = VBool (xorb (s =? SYMBOL__NE) (super_equal w1 w2)).
Proof.
  intros Hs [[|n] H]; [done|].
  assert (Hf : eval_form (eval n) n env s (ECons a (ECons b ENull s3) s2)
    = '(v, env) ← eval n env a; '(w, env) ← eval n env b;
      Some (VBool (xorb (s =? SYMBOL__NE) (super_equal v w)), env)) by (by destruct Hs as [-> | ->]).
  simpl in H. rewrite Hf in H.
  destruct (eval n env a) as [[w1 env1]|] eqn:Ea; [|done]. simpl in H.
  destruct (eval n env1 b) as [[w2 env2]|] eqn:Eb; [|done]. simpl in H. injection H as <- <-.
  exists w1, env1, w2. split; [by exists n|]. split; [by exists n|done].
Qed.

Lemma runs_equal slots id loc env (negate : bool) v w :
  runs slots [Instr id (if negate then Op_SuperNe else Op_SuperEq) loc zero None 0] 2
    env [v; w] env [VBool (xorb negate (super_equal v w))].
Proof.
  intros p stack Hp Hr. rewrite size_instr.
  replace (isLabel (if negate then Op_SuperNe else Op_SuperEq)) with false by by destruct negate.
  eapply moves_equal; [|eapply room_weaken; [exact Hr|lia]].
  pose proof (placed_instr _ _ _ _ _ _ _ Hp) as Hc. destruct negate; by apply Hc.
Qed.

Lemma correct_equal CE s a b xs message s1 s2 s3 :
  s = SYMBOL__EQ \/ s = SYMBOL__NE ->
  correct xs false (evals a) true (CE a false) -> correct xs false (evals b) true (CE b false) ->
  correct xs false (evals (ECons (ESymbol s) (ECons a (ECons b ENull s3) s2) s1)) true
    (Compiler_CompileTwoArguments CE (ECons a (ECons b ENull s3) s2) false message
       (if s =? SYMBOL__NE then Op_SuperNe else Op_SuperEq)).
Proof.
  intros Hs IHa IHb c slots R Hsc. unfold Compiler_CompileTwoArguments.
  apply wp_bind, wp_SetAssignedSymbol; [done|]. intros old c1 A1 Hold.
  apply wp_bind, wp_SetSourceLocationFromList; [apply A1|]. intros o2 c2 A2 _.
  assert (A02 : after c c2) by chain. pose proof (scoped_after _ _ _ _ R A02 Hsc) as Hsc2.
  apply wp_bind. eapply wp_before; [exact IHa|apply A2|done|apply built_Create|done|].
  intros l1 n1 b1 c3 Hp1 B1 H1. pose proof (p_after Hp1) as A3.
  apply wp_bind, wp_SetSourceLocationFromList; [apply A3|]. intros o4 c4 A4 _.
  assert (A24 : after c2 c4) by chain.
  apply wp_bind. eapply wp_before; [exact IHb|apply A4|by eapply scoped_after; [apply A2|..]|exact B1|lia|].
  intros l2 n2 b2 c5 Hp2 B2 H2. pose proof (p_after Hp2) as A5.
  assert (A05 : after c c5) by chain.
  apply wp_bind, wp_Revert; [apply A5|eapply after_valid; [|exact Hold]; chain|]. intros c6 A6.
  apply wp_bind, wp_SetSourceLocationFromList; [apply A6|]. intros o7 c7 A7 _.
  apply wp_bind. eapply wp_EMIT1; [apply A7|exact B2|]. intros loc b' c8 A8 N8 B'.
  assert (A08 : after c c8) by chain.
  apply wp_bind, wp_Revert; [apply A8|eapply after_valid; [|exact Hold]; chain|].
  intros c9 A9. apply wp_ret. pose proof (after_nextId _ _ A6). pose proof (after_nextId _ _ A7).
  eapply correct_flags; [|exact B'|apply Z.le_refl|lia|intros Hl; by apply app_eq_nil in Hl as [_ ?]].
  replace (Z.max _ _) with (Z.max (Z.max n1 (1 + n2)) 2) by lia.
  eapply part_widen; [exact A02| |exact A9]. simpl app.
  eapply (part_then _ c5); [|chain|rewrite ids_instr, N8; fresh_solve|lia|done|].
  - eapply (part_join (C := Value * Value) _ c3 _ _ _ _ (evals b)
      (fun env vw env' => exists env1, evals a env vw.1 env1 /\ evals b env1 vw.2 env')
      all all (fun vw => [vw.1; vw.2])); [exact Hp1| |lia|done|].
    + eapply part_widen; [exact A4|exact Hp2|by apply after_refl; apply A5].
    + intros env [v w] env' (env1 & Ha & Hb). by exists v, env1, w.
  - intros Hsp env v env' He. apply evals_equal in He as (w1 & env1 & w2 & Ha & Hb & ->); [|done].
    exists (w1, w2), env'. split; [by exists env1|]. intros _ Hxs. split; [done|]. apply runs_equal.
Qed.

(** ** Sequences *)

Definition evals_seq (env : Env) (args : Expr) (v : Value) (env' : Env) : Prop :=
  exists n, eval_sequence (eval n) env args = Some (v, env').

Lemma evals_seq_last env a next s v env' :
  isList next = false -> evals_seq env (ECons a next s) v env' -> evals a env v env'.
Proof.
  intros Hn [n H]. simpl in H. rewrite Hn in H.
  destruct (eval n env a) as [[w env1]|] eqn:Ea; [|done]. simpl in H. injection H as <- <-. by exists n.
Qed.

Lemma evals_seq_cons env a next s v env' :
  isList next = true -> evals_seq env (ECons a next s) v env' ->
  exists w env1, evals a env w env1 /\ evals_seq env1 next v env'.
Proof.
  intros Hn [n H]. simpl in H. rewrite Hn in H.
  destruct (eval n env a) as [[w env1]|] eqn:Ea; [|done]. simpl in H.
  exists w, env1. by split; exists n.
Qed.

Lemma zlen_unless (noResult : bool) v : zlen (unless noResult v) = if noResult then 0 else 1.
Proof. by destruct noResult. Qed.

(** The rest of a sequence, after a block [b0] that leaves nothing. *)
Definition sequence_ok (CE : Expr -> bool -> M CompiledBlock) (xs : list Symbol) (noResult : bool)
  (args : Expr) : Prop :=
  isList args = true ->
  forall slots named nameless c0 c (ev0 : Env -> unit -> Env -> Prop) b0 l need,
  ready c -> scoped c xs slots -> valid named c -> valid nameless c ->
  part c0 c xs slots ev0 (fun _ => []) l need -> built l 0 need b0 ->
  wp (ProgN_loop CE named nameless b0 args noResult) c (fun b c' => exists l' need',
    part c0 c' xs slots (fun env v env' => exists env1, ev0 env tt env1 /\ evals_seq env1 args v env')
      (unless noResult) l' need'
    /\ built l' (if noResult then 0 else 1) need' b /\ (if noResult then 0 else 1) <= need').

Lemma sequence_last CE xs (noResult : bool) a next s leaves :
  isList next = false -> correct xs noResult (evals a) leaves (CE a noResult) ->
  sequence_ok CE xs noResult (ECons a next s).
Proof.
  intros Hn IH _ slots named nameless c0 c ev0 b0 l need R Hsc Hv1 Hv2 Hp B. cbn [ProgN_loop].
  rewrite Hn. simpl negb. cbv iota zeta.
  apply wp_bind, wp_Revert; [done..|]. intros c1 A1.
  apply wp_bind, wp_SetSourceLocationFromList; [apply A1|]. intros o2 c2 A2 _.
  assert (A02 : after c c2) by chain. pose proof (p_need Hp).
  apply wp_bind3. eapply wp_matching; [exact IH|apply A2|by eapply scoped_after|exact B|lia|].
  intros l' need' b c3 Hp' B' Hneed. apply wp_ret. exists (l ++ l'), (Z.max need (0 + need')).
  split; [|split; [exact B'|destruct noResult; [lia|specialize (Hneed eq_refl); lia]]].
  eapply part_join; [exact Hp|eapply part_widen; [exact A02|exact Hp'|apply after_refl, (p_after Hp')]|lia|done|].
  intros env v env' (env1 & H0 & H1). exists tt, env1, v. split; [done|]. split; [|done].
  by eapply evals_seq_last.
Qed.

Lemma sequence_cons CE xs (noResult : bool) a next s leaves :
  isList next = true -> correct xs true (evals a) leaves (CE a true) -> sequence_ok CE xs noResult next ->
  sequence_ok CE xs noResult (ECons a next s).
Proof.
  intros Hn IH IHnext _ slots named nameless c0 c ev0 b0 l need R Hsc Hv1 Hv2 Hp B. cbn [ProgN_loop].
  rewrite Hn. simpl negb. cbv iota zeta.
  apply wp_bind, wp_Revert; [done..|]. intros c1 A1.
  apply wp_bind, wp_SetSourceLocationFromList; [apply A1|]. intros o2 c2 A2 _.
  assert (A02 : after c c2) by chain. pose proof (p_need Hp). pose proof (scoped_after _ _ _ _ R A02 Hsc) as Hsc2.
  apply wp_bind3. eapply wp_dropped; [exact IH|apply A2|done|exact B|lia|].
  intros l' need' b c3 Hp' B'. pose proof (p_after Hp') as A3.
  apply wp_bind, wp_SetSourceLocationFromList; [apply A3|]. intros o4 c4 A4 _.
  assert (A04 : after c c4) by chain.
  eapply wp_mono; [eapply (IHnext Hn) with (ev0 := fun env (_ : unit) env' =>
    exists env1 w, ev0 env tt env1 /\ evals a env1 w env');
    [apply A4|exact (scoped_after _ _ _ _ R A04 Hsc)|exact (after_valid _ _ _ A04 Hv1)
    |exact (after_valid _ _ _ A04 Hv2)| |exact B']|].
  - eapply part_join; [exact Hp|eapply part_widen; [exact A02|exact Hp'|exact A4]|lia|done|].
    intros env [] env' (env1 & w & H0 & H1). by exists tt, env1, w.
  - intros b' c5 (l'' & need'' & Hp'' & B'' & Hle). exists l'', need''. split; [|done].
    eapply part_mono; [exact Hp''|]. intros env v env' (env1 & H0 & H1). exists v. split; [|done].
    apply evals_seq_cons in H1 as (w & env2 & H1 & H2); [|done]. exists env2. split; [by exists env1, w|done].
Qed.

Lemma correct_sequence CE xs noResult args :
  sequence_ok CE xs noResult args ->
  correct xs noResult (fun env v env' => evals_seq env args v env') (isList args)
    (Compiler_CompileProgN CE args noResult).
Proof.
  intros IH c slots R Hsc. unfold Compiler_CompileProgN. destruct (isList args) eqn:El; simpl negb; cbv iota.
  - apply wp_bind, wp_SetAssignedSymbol; [done|]. intros named c1 A1 Hnamed.
    apply wp_bind, wp_currentSourceLocation; [apply A1|]. intros nameless Hnameless.
    apply wp_bind, wp_Revert; [apply A1|done|]. intros c2 A2.
    assert (A02 : after c c2) by chain.
    apply wp_bind. eapply wp_mono; [eapply (IH El slots named nameless c2 c2);
      [apply A2|exact (scoped_after _ _ _ _ R A02 Hsc)|exact (after_valid _ _ _ A2 Hnamed)
      |exact (after_valid _ _ _ A2 Hnameless)|by apply part_nil, A2|apply built_Create]|].
    intros b c3 (l & need & Hp & B & Hle). pose proof (p_after Hp) as A3.
    apply wp_bind, wp_Revert; [apply A3|eapply after_valid; [|exact Hnamed]; chain|].
    intros c4 A4. apply wp_ret.
    eapply correct_flags; [|exact B|apply Z.le_refl|exact Hle|apply (p_empty Hp)].
    eapply part_mono; [eapply part_widen; [exact A02|exact Hp|exact A4]|].
    intros env v env' He. exists v. split; [|done]. by exists env.
  - assert (Hev : forall env v env', evals_seq env args v env' -> env' = env /\ v = VNull).
    { intros env v env' [n H]. destruct args; try discriminate El; simpl in H; by injection H as <- <-. }
    apply wp_ret. split; [|split; [|done]].
    + apply compiled_empty; [done|]. intros env v env' He. by apply Hev in He as [].
    + intros _ _ env v env' He. by apply Hev in He as [].
Qed.
End CompileCore.
