(* ===== verification/CompileControl.v ===== *)
(** * CompileControl: conditionals of the core

    [$prog1] and the forms whose code branches forward: [$if], [$and] and [$or],
    each correct given that its parts are. *)

From S2P Require Import Prelude Opcode ByteCode CompiledBlock Object Expr Closure.
From S2P Require Import Machine FnCall Eval EvalProps.
From S2P Require Import Compiler KnownSymbols CompileForms CompilerInvariant CompilerProps Reference RunBlock CompileSteps.
From S2P Require Import CompileCorrect CompileCore.
Import Operand.

Section CompileControl.
Context {OE : ObjectEnv} {E : CompilerEnv} {X : Run}.
#[local] Notation Meaning := (Env -> Value -> Env -> Prop).

(** ** [$prog1] *)

Definition evals_each (env : Env) (args : Expr) (env' : Env) : Prop :=
  exists n, eval_each (eval n) env args = Some env'.

Lemma evals_each_cons env a next s env' :
  evals_each env (ECons a next s) env' ->
  exists w env1, evals a env w env1 /\ evals_each env1 next env'.
Proof.
  intros [n H]. simpl in H. destruct (eval n env a) as [[w env1]|] eqn:Ea; [|done]. simpl in H.
  exists w, env1. by split; exists n.
Qed.

(** The rest, after a block that leaves the first value. *)
Definition each_ok (CE : Expr -> bool -> M CompiledBlock) (xs : list Symbol) (args : Expr) : Prop :=
  forall (noResult : bool) slots old c0 c (ev0 : Meaning) b0 l need,
  ready c -> scoped c xs slots -> valid old c -> part c0 c xs slots ev0 (unless noResult) l need ->
  built l (if noResult then 0 else 1) need b0 -> (if noResult then 0 else 1) <= need ->
  wp (Prog1_loop CE old b0 args) c (fun b c' => exists l' need',
    part c0 c' xs slots (fun env v env' => exists env1, ev0 env v env1 /\ evals_each env1 args env')
      (unless noResult) l' need'
    /\ built l' (if noResult then 0 else 1) need' b /\ (if noResult then 0 else 1) <= need').

Lemma each_nil CE xs args : isList args = false -> each_ok CE xs args.
Proof.
  intros Hn noResult slots old c0 c ev0 b0 l need R Hsc Hv Hp B Hle.
  assert (HQ : wp (mret b0 : M CompiledBlock) c (fun b c' => exists l' need',
    part c0 c' xs slots (fun env v env' => exists env1, ev0 env v env1 /\ evals_each env1 args env')
      (unless noResult) l' need'
    /\ built l' (if noResult then 0 else 1) need' b /\ (if noResult then 0 else 1) <= need')).
  { apply wp_ret. exists l, need. split; [|done]. eapply part_mono; [exact Hp|].
    intros env v env' (env1 & H0 & n & H1). exists v. split; [|done].
    destruct args; try discriminate Hn; simpl in H1; by injection H1 as <-. }
  by destruct args.
Qed.

Lemma each_app CE xs a next s leaves :
  correct xs false (evals a) leaves (CE a false) -> each_ok CE xs next -> each_ok CE xs (ECons a next s).
Proof.
  intros IH IHnext noResult slots old c0 c ev0 b0 l need R Hsc Hv Hp B Hle. cbn [Prog1_loop].
  apply wp_bind, wp_Revert; [done..|]. intros c1 A1.
  apply wp_bind, wp_SetSourceLocationFromList; [apply A1|]. intros o2 c2 A2 _.
  assert (A02 : after c c2) by chain. pose proof (scoped_after _ _ _ _ R A02 Hsc) as Hsc2.
  apply wp_bind3. eapply wp_dropped; [exact IH|apply A2|done|exact B|done|].
  intros l' need' b c3 Hp' B'. pose proof (p_after Hp') as A3.
  apply wp_bind, wp_SetSourceLocationFromList; [apply A3|]. intros o4 c4 A4 _.
  assert (A04 : after c c4) by chain.
  eapply wp_mono; [eapply (IHnext noResult slots old c0 c4
    (fun env v env' => exists env1 w, ev0 env v env1 /\ evals a env1 w env'));
    [apply A4|exact (scoped_after _ _ _ _ R A04 Hsc)|exact (after_valid _ _ _ A04 Hv)| |exact B'|lia]|].
  - eapply part_join; [exact Hp|eapply part_widen; [exact A02|exact Hp'|exact A4]| |apply zlen_unless|].
    + destruct noResult; lia.
    + intros env v env' (env1 & w & H0 & H1). exists v, env1, w. by rewrite app_nil_r.
  - intros b' c5 (l'' & need'' & Hp'' & B'' & Hle'). exists l'', need''. split; [|done].
    eapply part_mono; [exact Hp''|]. intros env v env' (env1 & H0 & H1). exists v. split; [|done].
    apply evals_each_cons in H1 as (w & env2 & H1 & H2). exists env2. split; [by exists env1, w|done].
Qed.

Lemma evals_prog1 a rest s1 s2 env v env' :
  evals (ECons (ESymbol SYMBOL__PROG1) (ECons a rest s2) s1) env v env' ->
  exists env1, evals a env v env1 /\ evals_each env1 rest env'.
Proof.
  intros [[|n] H]; [done|]. simpl in H. unfold eval_form in H. simpl in H.
  destruct (eval n env a) as [[w env1]|] eqn:Ea; [|done]. simpl in H.
  destruct (eval_each (eval n) env1 rest) as [env2|] eqn:Er; [|done]. injection H as <- <-.
  exists env1. by split; exists n.
Qed.

Lemma correct_prog1 CE a rest xs noResult leaves s1 s2 :
  correct xs noResult (evals a) leaves (CE a noResult) -> each_ok CE xs rest ->
  correct xs noResult (evals (ECons (ESymbol SYMBOL__PROG1) (ECons a rest s2) s1)) true
    (Compiler_CompileProg1 CE (ECons a rest s2) noResult).
Proof.
  intros IH IHrest c slots R Hsc. unfold Compiler_CompileProg1.
  apply wp_bind, wp_SetAssignedSymbol; [done|]. intros old c1 A1 Hold.
  apply wp_bind. eapply wp_matching; [exact IH|apply A1|by eapply scoped_after|apply built_Create|done|].
  intros l need b c2 Hp B Hneed. pose proof (p_after Hp) as A2. pose proof (p_need Hp) as Hneed0.
  assert (A02 : after c c2) by chain.
  apply wp_bind, wp_Revert; [apply A2|exact (after_valid _ _ _ A2 Hold)|]. intros c3 A3.
  assert (A03 : after c c3) by chain. assert (A13 : after c1 c3) by chain.
  replace (Z.max 0 (0 + need)) with need in B by lia.
  apply wp_bind. eapply wp_mono; [eapply (IHrest noResult slots old c1 c3 (evals a));
    [apply A3|exact (scoped_after _ _ _ _ R A03 Hsc)|exact (after_valid _ _ _ A13 Hold)
    |eapply part_widen; [by apply after_refl, A1|exact Hp|exact A3]|by destruct noResult|]|].
  - destruct noResult; [done|]. specialize (Hneed eq_refl). lia.
  - intros b' c4 (l' & need' & Hp' & B' & Hle). pose proof (p_after Hp') as A4.
    apply wp_bind, wp_Revert; [apply A4|exact (after_valid _ _ _ A4 Hold)|]. intros c5 A5.
    apply wp_ret. eapply correct_flags; [|exact B'|apply Z.le_refl|exact Hle|apply (p_empty Hp')].
    eapply part_mono; [eapply part_widen; [exact A1|exact Hp'|exact A5]|].
    intros env v env' He. exists v. split; [|done]. by apply evals_prog1 in He.
Qed.

(** ** Branches *)

Lemma moves_to p l e s q q' l' e' s' : moves p l e s q l' e' s' -> q = q' -> moves p l e s q' l' e' s'.
Proof. by intros H <-. Qed.

Lemma moves_label p id loc o t l e s : placed p [Instr id Op_Label loc o t 0] ->
  moves p l e s (run_label id) l e s.
Proof. intros Hp. eapply moves_to; [apply moves_refl|]. symmetry. by eapply placed_label. Qed.

Lemma placed_branch p id (onTrue : bool) loc L slots env stack v :
  placed p [Instr id (if onTrue then Op_Bt else Op_Bf) loc zero (Some L) 0] ->
  moves p slots env (stack ++ [v]) (if Bool.eqb (truth v) onTrue then run_label L else p + 1) slots env stack.
Proof.
  intros Hp. eapply moves_branch.
  destruct onTrue; exact (placed_instr _ _ _ _ _ _ _ Hp eq_refl).
Qed.

Lemma placed_jump p id loc L slots env stack :
  placed p [Instr id Op_Jmp loc zero (Some L) 0] -> moves p slots env stack (run_label L) slots env stack.
Proof. intros Hp. eapply moves_jump. exact (placed_instr _ _ _ _ _ _ _ Hp eq_refl). Qed.

Lemma size_branch id (onTrue : bool) loc L :
  size [Instr id (if onTrue then Op_Bt else Op_Bf) loc zero (Some L) 0] = 1.
Proof. rewrite size_instr. by destruct onTrue. Qed.

Ltac sizes := rewrite ?size_app, ?size_branch; autorewrite with size; simpl isLabel; cbv iota; try lia.

(** Code that is skipped when the condition is [onTrue]. *)
Lemma runs_skip slots id (onTrue : bool) loc L locL o t l n env v env' out :
  (truth v = onTrue -> runs slots [] n env [] env' out) ->
  (truth v <> onTrue -> runs slots l n env [] env' out) ->
  runs slots ([Instr id (if onTrue then Op_Bt else Op_Bf) loc zero (Some L) 0] ++ l
    ++ [Instr L Op_Label locL o t 0]) n env [v] env' out.
Proof.
  intros Hskip Hrun p stack Hp Hr.
  apply placed_app in Hp as [Hb Hp]. apply placed_app in Hp as [Hl HL]. rewrite (size_branch id onTrue loc L) in Hl, HL.
  pose proof (placed_label _ _ _ _ _ _ HL) as EL.
  eapply moves_trans; [eapply placed_branch; exact Hb|].
  destruct (Bool.eqb_spec (truth v) onTrue) as [Ht|Ht].
  - specialize (Hskip Ht (run_label L) stack). rewrite app_nil_r in Hskip.
    eapply moves_to; [apply Hskip; [|done]|rewrite EL; sizes].
    split; [by intros|]. intros i a Hi. by apply elem_of_nil in Hi.
  - specialize (Hrun Ht (p + 1) stack Hl Hr). rewrite app_nil_r in Hrun.
    eapply moves_to; [exact Hrun|sizes].
Qed.

(** Code for each outcome of the condition. *)
Lemma runs_else slots id loc L locL o t id' loc' J locJ o' t' lt lf n env v env' out :
  (truth v = true -> runs slots lt n env [] env' out) ->
  (truth v = false -> runs slots lf n env [] env' out) ->
  runs slots ([Instr id Op_Bf loc zero (Some L) 0] ++ lt
    ++ [Instr id' Op_Jmp loc' zero (Some J) 0] ++ [Instr L Op_Label locL o t 0] ++ lf
    ++ [Instr J Op_Label locJ o' t' 0]) n env [v] env' out.
Proof.
  intros Htrue Hfalse p stack Hp Hr.
  apply placed_app in Hp as [Hb Hp]. apply placed_app in Hp as [Hlt Hp].
  apply placed_app in Hp as [Hj Hp]. apply placed_app in Hp as [HL Hp]. apply placed_app in Hp as [Hlf HJ].
  pose proof (placed_label _ _ _ _ _ _ HL) as EL. pose proof (placed_label _ _ _ _ _ _ HJ) as EJ.
  eapply moves_trans; [eapply (placed_branch p id false); exact Hb|]. rewrite size_instr in *.
  destruct (truth v); cbn [Bool.eqb].
  - specialize (Htrue eq_refl (p + 1) stack Hlt Hr). rewrite app_nil_r in Htrue.
    eapply moves_trans; [exact Htrue|]. eapply moves_to; [eapply placed_jump; exact Hj|]. rewrite EJ. sizes.
  - specialize (Hfalse eq_refl (run_label L) stack). rewrite app_nil_r in Hfalse. rewrite EL in *.
    eapply moves_to; [apply Hfalse; [|done]|sizes].
    by rewrite size_instr, Z.add_0_r in Hlf.
Qed.

(** ** [$if] *)

Lemma ids_child_some id b : instrs b <> [] -> ids (child_instrs id b) = id :: ids (instrs b).
Proof. rewrite ids_child. by destruct (instrs b). Qed.

Lemma child_instrs_some id b : instrs b <> [] -> child_instrs id b <> [].
Proof. unfold child_instrs. by destruct (instrs b). Qed.

Lemma sane_value b : sane b -> finalStackDelta b = 1 -> instrs b <> [] /\ 1 <= maxStackDepth b.
Proof.
  intros S Hd. split; [|pose proof (sn_le _ S); lia].
  intros Hi. destruct (sn_empty _ S Hi). lia.
Qed.

(** The meaning of a conditional, from those of its parts. *)
Definition evals_if (evC evT evF : Meaning) : Meaning := fun env v env' =>
  exists w env1, evC env w env1 /\ (if truth w then evT else evF) env1 v env'.

Section If.
Variables (noResult : bool) (c c1 c2 c3 : Compiler) (xs : list Symbol) (slots : list Z).
Variables (evC evT evF : Meaning) (b1 b2 b3 : CompiledBlock).
Hypothesis C1 : compiled c c1 xs slots evC b1.
Hypothesis C2 : compiled c1 c2 xs slots evT b2.
Hypothesis C3 : compiled c2 c3 xs slots evF b3.
Hypothesis D1 : finalStackDelta b1 = 1.
Hypothesis D2 : finalStackDelta b2 = if noResult then 0 else 1.
Hypothesis D3 : finalStackDelta b3 = if noResult then 0 else 1.

(** What the branches do, once the condition has been evaluated. *)
Lemma if_branches c4 env v env' : after c3 c4 -> space c4 -> evals_if evC evT evF env v env' -> env.*1 = xs ->
  exists w env1, evC env w env1 /\ env'.*1 = xs
  /\ runs slots (instrs b1) (maxStackDepth b1) env [] env1 [w]
  /\ (truth w = true -> runs slots (instrs b2) (maxStackDepth b2) env1 [] env' (unless noResult v))
  /\ (truth w = false -> runs slots (instrs b3) (maxStackDepth b3) env1 [] env' (unless noResult v)).
Proof.
  destruct C1 as [A1 S1 F1 R1], C2 as [A2 S2 F2 R2], C3 as [A3 S3 F3 R3].
  intros A4 Hsp (w & env1 & HC & HB) Hxs.
  assert (Hsp3 : space c3) by (eapply space_after; [apply A3|exact A4|done]).
  assert (Hsp2 : space c2) by (eapply space_after; [apply A2|exact A3|done]).
  assert (Hsp1 : space c1) by (eapply space_after; [apply A1|exact A2|done]).
  destruct (R1 Hsp1 _ _ _ HC Hxs) as [Hxs1 Hruns]. rewrite (result_1 _ D1) in Hruns.
  exists w, env1. destruct (truth w).
  - destruct (R2 Hsp2 _ _ _ HB Hxs1) as [Hxs2 Hruns2]. by rewrite (result_unless _ _ D2) in Hruns2.
  - destruct (R3 Hsp3 _ _ _ HB Hxs1) as [Hxs2 Hruns2]. by rewrite (result_unless _ _ D3) in Hruns2.
Qed.

Lemma wp_if_both CE condition (Q : CompiledBlock -> Compiler -> Prop) :
  instrs b2 <> [] -> instrs b3 <> [] ->
  (forall b c', compiled c c' xs slots (evals_if evC evT evF) b ->
     finalStackDelta b = (if noResult then 0 else 1) -> Q b c') ->
  wp (If_emit CE condition noResult b1 b2 b3) c3 Q.
Proof.
  intros Hi2 Hi3 HQ. pose proof if_branches as Hruns.
  destruct C1 as [A1 S1 F1 _], C2 as [A2 S2 F2 _], C3 as [A3 S3 F3 _].
  destruct (sane_value _ S1 D1) as [Hi1 Hm1]. pose proof (sn_depth _ S2). pose proof (sn_depth _ S3).
  pose proof (sn_le _ S2). pose proof (sn_le _ S3).
  unfold If_emit. destruct (instrs b2) as [|i2 l2] eqn:El2; [done|]. destruct (instrs b3) as [|i3 l3] eqn:El3; [done|].
  rewrite <- El2 in *. rewrite <- El3 in *. rewrite (sn_escape _ S2).
  apply wp_bind. eapply wp_AppendChild; [apply A3|apply built_Create|done|done|]. intros p4 c4 A4 N4 B4.
  apply wp_bind, wp_freshId; [apply A4|]. intros c5 A5 N5.
  apply wp_bind, wp_freshId; [apply A5|]. intros c6 A6 N6.
  apply wp_bind. eapply wp_EMIT_id; [apply A6|exact B4|]. intros loc p5 B5.
  apply wp_bind. eapply wp_AppendChild; [apply A6|exact B5|lia|done|]. intros p7 c7 A7 N7 B7.
  apply wp_bind, wp_freshId; [apply A7|]. intros c8 A8 N8.
  apply wp_bind, wp_freshId; [apply A8|]. intros c9 A9 N9.
  apply wp_bind. eapply wp_EMIT_id; [apply A9|by eapply built_set_delta|]. intros loc2 p8 B8.
  apply wp_bind. eapply wp_EMIT_id; [apply A9|exact B8|]. intros loc3 p9 B9.
  destruct B5 as (_ & D5 & _). rewrite D5, D1, D2 in *. apply wp_bind.
  eapply wp_AppendChild; [apply A9|exact B9|lia|done|]. intros p10 c10 A10 N10 B10.
  eapply wp_EMIT_id; [apply A10|exact B10|]. intros loc4 b B. rewrite D3 in B.
  rewrite <- !app_assoc, app_nil_l in B. pose proof B as (Bi & Bd & Bm & _).
  assert (A34 : after c3 c10) by chain.
  apply HQ; [|rewrite Bd; by destruct noResult]. split.
  - chain.
  - eapply sane_built; [exact B|destruct noResult; auto|destruct noResult; lia|lia|].
    intros Hnil. apply app_eq_nil in Hnil as [Hnil _]. by destruct (child_instrs_some _ _ Hi1 Hnil).
  - rewrite Bi, !ids_app, !ids_child_some by done. rewrite !ids_instr.
    pose proof (after_nextId _ _ A1). pose proof (after_nextId _ _ A2). pose proof (after_nextId _ _ A3).
    fresh_solve.
  - intros Hsp env v env' He Hxs. destruct (Hruns c10 env v env' A34 Hsp He Hxs) as (w & env1 & _ & Hxs' & HR1 & HR2 & HR3).
    split; [done|]. rewrite (result_unless b noResult) by (rewrite Bd; by destruct noResult). rewrite Bi, Bm.
    eapply runs_weaken; [eapply runs_app; [by apply runs_child|]|].
    + eapply (runs_else _ _ _ _ _ _ _ _ _ _ _ _ _ _ _ (Z.max (maxStackDepth b2) (maxStackDepth b3))).
      * intros Hw. eapply runs_weaken; [apply runs_child, HR2, Hw|lia].
      * intros Hw. eapply runs_weaken; [apply runs_child, HR3, Hw|lia].
    + lia.
Qed.

(** One of the clauses has no code: it is the one where the branch leads. *)
Lemma wp_if_one (onTrue : bool) (Q : CompiledBlock -> Compiler -> Prop) :
  noResult = true -> instrs (if onTrue then b2 else b3) = [] -> instrs (if onTrue then b3 else b2) <> [] ->
  (forall b c', compiled c c' xs slots (evals_if evC evT evF) b ->
     finalStackDelta b = (if noResult then 0 else 1) -> Q b c') ->
  wp (compiledBlock ← AppendChild CompiledBlock_Create b1;
      bf ← freshId;
      bfLabel ← freshId;
      compiledBlock ← EMIT_id bf compiledBlock (if onTrue then Op_Bt else Op_Bf) (-1) zero (Some bfLabel);
      compiledBlock ← AppendChild compiledBlock (if onTrue then b3 else b2);
      EMIT_id bfLabel compiledBlock Op_Label 0 zero (Some bf)) c3 Q.
Proof.
  intros Hno He Hne HQ. pose proof if_branches as Hruns. rewrite Hno in Hruns, HQ.
  destruct C1 as [A1 S1 F1 _], C2 as [A2 S2 F2 _], C3 as [A3 S3 F3 _].
  destruct (sane_value _ S1 D1) as [Hi1 Hm1].
  set (clause := if onTrue then b3 else b2) in *.
  assert (Sc : sane clause) by by destruct onTrue. pose proof (sn_depth _ Sc).
  assert (Dc : finalStackDelta clause = 0) by (rewrite Hno in D2, D3; by destruct onTrue).
  apply wp_bind. eapply wp_AppendChild; [apply A3|apply built_Create|done|done|]. intros p4 c4 A4 N4 B4.
  apply wp_bind, wp_freshId; [apply A4|]. intros c5 A5 N5.
  apply wp_bind, wp_freshId; [apply A5|]. intros c6 A6 N6.
  apply wp_bind. eapply wp_EMIT_id; [apply A6|exact B4|]. intros loc p5 B5. rewrite D1 in B5.
  apply wp_bind. eapply wp_AppendChild; [apply A6|exact B5|lia|done|]. intros p7 c7 A7 N7 B7.
  eapply wp_EMIT_id; [apply A7|exact B7|]. intros loc4 b B. rewrite Dc in B.
  rewrite <- !app_assoc, app_nil_l in B. pose proof B as (Bi & Bd & Bm & _).
  assert (A34 : after c3 c7) by chain. apply HQ; [|by rewrite Bd]. split.
  - chain.
  - eapply sane_built; [exact B|auto|lia|lia|].
    intros Hnil. apply app_eq_nil in Hnil as [Hnil _]. by destruct (child_instrs_some _ _ Hi1 Hnil).
  - rewrite Bi, !ids_app, !ids_child_some by done. rewrite !ids_instr.
    pose proof (after_nextId _ _ A1). pose proof (after_nextId _ _ A2). pose proof (after_nextId _ _ A3).
    destruct onTrue; unfold clause; fresh_solve.
  - intros Hsp env v env' Hev Hxs. destruct (Hruns c7 env v env' A34 Hsp Hev Hxs) as (w & env1 & _ & Hxs' & HR1 & HR2 & HR3).
    split; [done|]. rewrite (result_unless b true) by by rewrite Bd. rewrite Bi, Bm.
    eapply runs_weaken; [eapply runs_app; [by apply runs_child|]|].
    + eapply (runs_skip _ _ onTrue _ _ _ _ _ _ (maxStackDepth clause)).
      * intros Hw. destruct onTrue; rewrite He in *; eapply runs_weaken; try (by apply HR2 || by apply HR3).
        -- destruct (sn_empty _ S2 He). lia.
        -- destruct (sn_empty _ S3 He). lia.
      * intros Hw. apply runs_child. destruct onTrue, (truth w); try done; [by apply HR3|by apply HR2].
    + lia.
Qed.

(** Neither clause has code: the condition is compiled again, for its effects. *)
Lemma wp_if_none (CE : Expr -> bool -> M CompiledBlock) condition leaves (Q : CompiledBlock -> Compiler -> Prop) :
  noResult = true -> instrs b2 = [] -> instrs b3 = [] -> scoped c xs slots -> ready c ->
  correct xs true evC leaves (CE condition true) ->
  (forall b c', compiled c c' xs slots (evals_if evC evT evF) b ->
     finalStackDelta b = (if noResult then 0 else 1) -> Q b c') ->
  wp (condBlock ← CE condition true; Compiler_EmitNoResult condBlock) c3 Q.
Proof.
  intros Hno E2 E3 Hsc R IH HQ. pose proof if_branches as Hruns. rewrite Hno in Hruns, HQ.
  destruct C1 as [A1 S1 F1 _], C2 as [A2 S2 F2 _], C3 as [A3 S3 F3 _].
  assert (A03 : after c c3) by chain.
  apply wp_bind. eapply wp_mono; [apply IH; [apply A3|exact (scoped_after _ _ _ _ R A03 Hsc)]|].
  intros b4 c4 (C4 & _ & _). eapply drop_value; [exact C4|]. intros b c5 C5 D5. apply HQ; [|done].
  pose proof C5 as [A5 S5 F5 R5]. split; [chain|done| |].
  - eapply fresh_widen; [exact F5|by apply after_nextId|done].
  - intros Hsp env v env' Hev Hxs.
    destruct (Hruns c5 env v env' A5 Hsp Hev Hxs) as (w & env1 & HC & Hxs' & _ & HR2 & HR3).
    split; [done|]. destruct (R5 Hsp env w env1 HC Hxs) as [_ HR5].
    rewrite (result_0 _ D5) in *. rewrite <- (app_nil_r (instrs b)), <- (Z.max_l (maxStackDepth b) 0) by apply S5.
    eapply runs_app; [exact HR5|]. rewrite E2 in HR2. rewrite E3 in HR3.
    destruct (sn_empty _ S2 E2) as [_ <-].
    destruct (truth w); [by apply HR2|]. eapply runs_weaken; [by apply HR3|].
    destruct (sn_empty _ S3 E3) as [_ ->]. apply S2.
Qed.

End If.

Lemma wp_matched CE e (noResult : bool) c xs slots leaves {B} (k : CompiledBlock -> M B) Q :
  correct xs noResult (evals e) leaves (CE e noResult) -> ready c -> scoped c xs slots ->
  (forall b c', compiled c c' xs slots (evals e) b -> finalStackDelta b = (if noResult then 0 else 1) ->
     wp (k b) c' Q) ->
  wp (b ← CE e noResult; b ← Compiler_MakeStackMatchCompileFlags b noResult; k b) c Q.
Proof.
  intros IH R Hsc HQ. apply wp_bind. eapply wp_mono; [by apply IH|].
  intros b c1 (Hc & Hnull & _). apply wp_bind. by eapply match_flags.
Qed.

Lemma evals_If condition thenClause elseClause rest s1 s2 s3 env v env' :
  If_else rest = Some elseClause ->
  evals (ECons (ESymbol SYMBOL__IF) (ECons condition (ECons thenClause rest s3) s2) s1) env v env' ->
  evals_if (evals (fst (Compiler_StripNots condition)))
    (evals (if snd (Compiler_StripNots condition) then elseClause else thenClause))
    (evals (if snd (Compiler_StripNots condition) then thenClause else elseClause)) env v env'.
Proof.
  intros Hel [[|n] H]; [done|]. simpl in H. unfold eval_form in H. simpl in H. rewrite Hel in H. simpl in H.
  unfold eval_condition in H. destruct (Compiler_StripNots condition) as [cond not]. simpl.
  destruct (eval n env cond) as [[w env1]|] eqn:Ec; [|done]. simpl in H.
  exists w, env1. split; [by exists n|]. destruct not, (truth w); by exists n.
Qed.

Lemma correct_if CE condition thenClause elseClause rest xs (noResult : bool) l1 l2 l3 l4 s1 s2 s3 :
  If_else rest = Some elseClause ->
  let cond := fst (Compiler_StripNots condition) in
  correct xs false (evals cond) l1 (CE cond false) -> correct xs noResult (evals cond) l2 (CE cond noResult) ->
  correct xs noResult (evals thenClause) l3 (CE thenClause noResult) ->
  correct xs noResult (evals elseClause) l4 (CE elseClause noResult) ->
  correct xs noResult
    (evals (ECons (ESymbol SYMBOL__IF) (ECons condition (ECons thenClause rest s3) s2) s1)) true
    (Compiler_CompileIf CE (ECons condition (ECons thenClause rest s3) s2) noResult).
Proof.
  intros Hel cond IHc IHc' IHt IHe c slots R Hsc.
  pose proof (fun env v env' => evals_If condition thenClause elseClause rest s1 s2 s3 env v env' Hel) as Hev.
  unfold Compiler_CompileIf. rewrite Hel. subst cond.
  destruct (Compiler_StripNots condition) as [cond not]. simpl fst in *. simpl snd in *.
  set (T := if not then elseClause else thenClause) in *. set (F := if not then thenClause else elseClause) in *.
  assert (HT : exists l, correct xs noResult (evals T) l (CE T noResult)) by (subst T; destruct not; by eexists).
  assert (HF : exists l, correct xs noResult (evals F) l (CE F noResult)) by (subst F; destruct not; by eexists).
  destruct HT as [lT HT], HF as [lF HF].
  replace (if not then (elseClause, thenClause) else (thenClause, elseClause)) with (T, F) by (by destruct not).
  apply (wp_matched CE cond false _ _ _ _ _ _ IHc R Hsc). intros b1 c1 C1 D1. pose proof C1 as [A1 S1 _ _].
  eapply (wp_matched CE T noResult); [exact HT|apply A1|exact (scoped_after _ _ _ _ R A1 Hsc)|].
  intros b2 c2 C2 D2. pose proof C2 as [A2 S2 _ _]. assert (A02 : after c c2) by chain.
  eapply (wp_matched CE F noResult); [exact HF|apply A2|exact (scoped_after _ _ _ _ R A02 Hsc)|].
  intros b3 c3 C3 D3. pose proof C3 as [A3 S3 _ _].
  assert (HQ : forall b c', compiled c c' xs slots (evals_if (evals cond) (evals T) (evals F)) b ->
    finalStackDelta b = (if noResult then 0 else 1) ->
    compiled c c' xs slots (evals (ECons (ESymbol SYMBOL__IF) (ECons condition (ECons thenClause rest s3) s2) s1)) b
    /\ null_if_empty noResult (evals (ECons (ESymbol SYMBOL__IF) (ECons condition (ECons thenClause rest s3) s2) s1)) b
    /\ (noResult = false -> true = true -> finalStackDelta b = 1)).
  { intros b c' [? ? ? Hr] D. split; [|split].
    - split; try done. intros Hsp env v env' He. apply Hr; [done|]. by apply Hev.
    - intros -> D'. by rewrite D in D'.
    - by intros ->. }
  assert (Hempty : instrs b2 = [] \/ instrs b3 = [] -> noResult = true).
  { intros [Hi|Hi]; [destruct (sn_empty _ S2 Hi)|destruct (sn_empty _ S3 Hi)]; by destruct noResult; [|lia]. }
  destruct (instrs b2) as [|i2 k2] eqn:E2, (instrs b3) as [|i3 k3] eqn:E3.
  - unfold If_emit. rewrite E2, E3. rewrite Hempty in * by auto.
    by eapply (wp_if_none true c c1 c2 c3 xs slots (evals cond) (evals T) (evals F) b1 b2 b3 C1 C2 C3 D1 D2 D3 CE cond l2).
  - unfold If_emit. rewrite E2, E3.
    eapply (wp_if_one noResult c c1 c2 c3 xs slots (evals cond) (evals T) (evals F) b1 b2 b3 C1 C2 C3 D1 D2 D3 true); auto.
    by rewrite E3.
  - unfold If_emit. rewrite E2, E3.
    eapply (wp_if_one noResult c c1 c2 c3 xs slots (evals cond) (evals T) (evals F) b1 b2 b3 C1 C2 C3 D1 D2 D3 false); auto.
    by rewrite E2.
  - eapply wp_if_both; try done; by rewrite ?E2, ?E3.
Qed.


(** ** [$and], [$or] *)

Definition evals_tests (stop : bool) (env : Env) (args : Expr) (b : bool) (env' : Env) : Prop :=
  exists n, eval_until (eval n) stop env args = Some (VBool b, env').

Definition evals_condition (env : Env) (condition : Expr) (b : bool) (env' : Env) : Prop :=
  exists w, evals (fst (Compiler_StripNots condition)) env w env'
    /\ b = xorb (snd (Compiler_StripNots condition)) (truth w).

(** Code that leaves for the label [L] when the outcome is [stop]. *)
Definition exits (slots : list Z) (l : list IntermediateInstruction) (need : Z) (L : nat) (stop : bool)
  (env : Env) (b : bool) (env' : Env) : Prop :=
  forall p stack, placed p l -> room stack need ->
  moves p slots env stack (if Bool.eqb b stop then run_label L else p + size l) slots env' stack.

Record tests (c c' : Compiler) (xs : list Symbol) (slots : list Z) (L : nat) (stop : bool)
  (ev : Env -> bool -> Env -> Prop) (l : list IntermediateInstruction) (need : Z) : Prop := {
  t_after : after c c';
  t_fresh : fresh (c_nextId c) (c_nextId c') (ids l);
  t_need : 0 <= need;
  t_exits : space c' -> forall env b env', ev env b env' -> env.*1 = xs ->
    env'.*1 = xs /\ exits slots l need L stop env b env'
}.

(** One more test. *)
Definition and_then (stop : bool) (ev0 ev1 : Env -> bool -> Env -> Prop) : Env -> bool -> Env -> Prop :=
  fun env b env' => (b = stop /\ ev0 env b env') \/ exists env1, ev0 env (negb stop) env1 /\ ev1 env1 b env'.

Lemma exits_step slots l n l' n' id loc L (stop not : bool) env b env' ev0 condition :
  and_then stop ev0 (fun env => evals_condition env condition) env b env' ->
  not = snd (Compiler_StripNots condition) ->
  (forall env b env', ev0 env b env' -> exits slots l n L stop env b env') ->
  (forall env1 w, ev0 env (negb stop) env1 -> evals (fst (Compiler_StripNots condition)) env1 w env' ->
     runs slots l' n' env1 [] env' [w]) ->
  exits slots (l ++ l' ++ [Instr id (if xorb not stop then Op_Bt else Op_Bf) loc zero (Some L) 0])
    (Z.max n n') L stop env b env'.
Proof.
  intros Hev -> H0 H1 p stack Hp Hr.
  apply placed_app in Hp as [Hl Hp]. apply placed_app in Hp as [Hl' Hb].
  destruct Hev as [[-> Hev]|(env1 & Hev & w & He & ->)].
  - specialize (H0 _ _ _ Hev p stack Hl ltac:(eapply room_weaken; [exact Hr|lia])).
    by rewrite eqb_reflx in *.
  - specialize (H1 _ _ Hev He (p + size l) stack Hl' ltac:(eapply room_weaken; [exact Hr|lia])).
    specialize (H0 _ _ _ Hev p stack Hl ltac:(eapply room_weaken; [exact Hr|lia])).
    rewrite app_nil_r in H1. eapply moves_trans; [|eapply moves_trans; [exact H1|]].
    + eapply moves_to; [exact H0|]. by destruct stop.
    + eapply moves_to; [eapply placed_branch; exact Hb|].
      destruct (snd (Compiler_StripNots condition)), stop, (truth w); cbn [xorb Bool.eqb]; sizes.
Qed.

Lemma tests_step c0 c c1 c2 xs slots L (stop : bool) ev0 condition l n l' n' loc not :
  tests c0 c xs slots L stop ev0 l n ->
  part c c1 xs slots (evals (fst (Compiler_StripNots condition))) all l' n' ->
  not = snd (Compiler_StripNots condition) ->
  after c1 c2 -> c_nextId c2 = S (c_nextId c1) ->
  tests c0 c2 xs slots L stop (and_then stop ev0 (fun env => evals_condition env condition))
    (l ++ l' ++ [Instr (c_nextId c1) (if xorb not stop then Op_Bt else Op_Bf) loc zero (Some L) 0])
    (Z.max n n').
Proof.
  intros [A0 F0 N0 H0] [A1 F1 N1 _ H1] Hnot A2 N2.
  pose proof (after_nextId _ _ A0). pose proof (after_nextId _ _ A1). split; [chain| |lia|].
  - rewrite !ids_app, ids_instr, N2. fresh_solve.
  - intros Hsp env b env' Hev Hxs.
    assert (Hsp1 : space c1) by (eapply space_after; [apply A1|exact A2|done]).
    assert (Hsp0 : space c) by (eapply space_after; [apply A0|exact A1|done]).
    split.
    + destruct Hev as [[-> Hev]|(env1 & Hev & w & He & ->)].
      * by apply (H0 Hsp0 _ _ _ Hev).
      * destruct (H0 Hsp0 _ _ _ Hev Hxs) as [Hxs1 _]. by apply (H1 Hsp1 _ _ _ He).
    + apply (exits_step _ _ _ _ _ _ _ _ _ _ _ _ _ (fun e b e' => ev0 e b e' /\ e.*1 = xs) condition); [|done|..].
      * destruct Hev as [[-> Hev]|(env1 & Hev & Hc)]; [by left|right; by exists env1].
      * intros e b' e' [Hev' Hxs']. by apply (H0 Hsp0 _ _ _ Hev' Hxs').
      * intros env1 w [Hev' Hxs'] He. destruct (H0 Hsp0 _ _ _ Hev' Hxs) as [Hxs1 _].
        by apply (H1 Hsp1 _ _ _ He Hxs1).
Qed.

Definition tests_ok (CE : Expr -> bool -> M CompiledBlock) (xs : list Symbol) (args : Expr) : Prop :=
  forall (stop : bool) slots L c0 c ev0 b0 l need,
  ready c -> scoped c xs slots -> tests c0 c xs slots L stop ev0 l need -> built l 0 need b0 ->
  wp (AndOr_loop CE (if stop then Op_Bt else Op_Bf) (if stop then Op_Bf else Op_Bt) L b0 args) c
    (fun b c' => exists l' need',
       tests c0 c' xs slots L stop (and_then stop ev0 (fun env => evals_tests stop env args)) l' need'
       /\ built l' 0 need' b).

Lemma tests_mono c c' xs slots L stop (ev ev' : Env -> bool -> Env -> Prop) l need :
  tests c c' xs slots L stop ev l need -> (forall env b env', ev' env b env' -> ev env b env') ->
  tests c c' xs slots L stop ev' l need.
Proof. intros [A F N H] Hev. split; try done. intros Hsp env b env' He. apply H; auto. Qed.

Lemma evals_tests_cons stop env a d s b env' :
  evals_tests stop env (ECons a d s) b env' ->
  and_then stop (fun env => evals_condition env a) (fun env => evals_tests stop env d) env b env'.
Proof.
  intros [n H]. simpl in H. unfold eval_condition in H. unfold and_then, evals_condition, evals_tests, evals.
  destruct (Compiler_StripNots a) as [cond not]. simpl.
  destruct (eval n env cond) as [[w env1]|] eqn:Ec; [|done]. simpl in H.
  destruct (Bool.eqb_spec (xorb not (truth w)) stop) as [Hs|Hs].
  - left. injection H as Hb <-. split; [by destruct b, stop|]. exists w. split; [by exists n|].
    by destruct b, stop.
  - right. exists env1. split; [|by exists n]. exists w. split; [by exists n|].
    by destruct (xorb not (truth w)), stop.
Qed.

Lemma tests_nil CE xs args : isList args = false -> tests_ok CE xs args.
Proof.
  intros Hn stop slots L c0 c ev0 b0 l need R Hsc Ht B.
  assert (HQ : wp (mret b0 : M CompiledBlock) c (fun b c' => exists l' need',
       tests c0 c' xs slots L stop (and_then stop ev0 (fun env => evals_tests stop env args)) l' need'
       /\ built l' 0 need' b)).
  { apply wp_ret. exists l, need. split; [|done]. eapply tests_mono; [exact Ht|].
    intros env b env' [[-> H]|(env1 & H & n & Hn')]; [done|].
    assert (Hb : VBool (negb stop) = VBool b /\ env1 = env')
      by (destruct args; try discriminate Hn; simpl in Hn'; split; congruence).
    destruct Hb as [Hb <-]. by destruct b, stop. }
  by destruct args.
Qed.

Lemma tests_cons CE xs a d s leaves :
  correct xs false (evals (fst (Compiler_StripNots a))) leaves (CE (fst (Compiler_StripNots a)) false) ->
  tests_ok CE xs d -> tests_ok CE xs (ECons a d s).
Proof.
  intros IH IHd stop slots L c0 c ev0 b0 l need R Hsc Ht B. cbn [AndOr_loop].
  destruct (Compiler_StripNots a) as [cond not] eqn:Ea. simpl fst in IH. pose proof (t_need _ _ _ _ _ _ _ _ _ Ht).
  apply wp_bind. eapply wp_required; [exact IH|done|done|exact B|done|].
  intros l' n' b1 c1 Hp B1 Hn1. pose proof (p_after Hp) as A1. apply wp_bind.
  eapply wp_EMIT_branch; [apply A1|exact B1|]. intros loc b2 c2 A2 N2 B2.
  assert (A02 : after c c2) by chain.
  eapply wp_mono.
  - eapply (IHd stop slots L c0 c2); [apply A2|exact (scoped_after _ _ _ _ R A02 Hsc)| |].
    + eapply (tests_step c0 c c1 c2 _ _ _ stop ev0 a l need l' n' loc not); [done|by rewrite Ea|by rewrite Ea|done|done].
    + replace (if not then if stop then Op_Bf else Op_Bt else if stop then Op_Bt else Op_Bf)
        with (if xorb not stop then Op_Bt else Op_Bf) in B2 by by destruct not, stop.
      rewrite <- app_assoc in B2. replace (Z.max need n') with (Z.max (Z.max need (0 + n')) (0 + 1 + -1)) by lia.
      exact B2.
  - intros b c' (l'' & need'' & Ht' & B'). exists l'', need''. split; [|done].
    eapply tests_mono; [exact Ht'|]. intros env v env' [[-> H0]|(env1 & H0 & H1)]; [by left; split; [|left]|].
    apply evals_tests_cons in H1 as [[-> H1]|(env2 & H1 & H2)].
    + left. split; [done|]. right. by exists env1.
    + right. exists env2. split; [|done]. right. by exists env1.
Qed.

(** The two results behind the tests. *)
Lemma runs_results slots l n idT locT idJ locJ L idF locF J (stop : bool) env b env' :
  exits slots l n L stop env b env' ->
  runs slots (l ++ [Instr idT Op_LdBool locT (set_boolean zero (negb stop)) None 0]
    ++ [Instr idJ Op_Jmp locJ zero (Some J) 0] ++ [Instr L Op_Label 0 zero None 0]
    ++ [Instr idF Op_LdBool locF (set_boolean zero stop) None 0] ++ [Instr J Op_Label 0 zero None 0])
    (Z.max n 1) env [] env' [VBool b].
Proof.
  intros He p stack Hp Hr.
  apply placed_app in Hp as [Hl Hp]. apply placed_app in Hp as [HT Hp]. apply placed_app in Hp as [Hj Hp].
  apply placed_app in Hp as [HL Hp]. apply placed_app in Hp as [HF HJ].
  pose proof (placed_label _ _ _ _ _ _ HL) as EL. pose proof (placed_label _ _ _ _ _ _ HJ) as EJ.
  assert (Hload : forall p id loc v, placed p [Instr id Op_LdBool loc (set_boolean zero v) None 0] ->
    moves p slots env' stack (p + 1) slots env' (stack ++ [VBool v])).
  { intros q id loc v Hq. pose proof (runs_loads slots id Op_LdBool loc _ _ env' eq_refl eq_refl (loads_bool v) q stack
      Hq ltac:(eapply room_weaken; [exact Hr|lia])) as Hm. by rewrite app_nil_r, size_instr in Hm. }
  specialize (He p stack Hl ltac:(eapply room_weaken; [exact Hr|lia])). rewrite app_nil_r.
  eapply moves_trans; [exact He|]. rewrite !size_instr in *. destruct (Bool.eqb_spec b stop) as [->|Hb].
  - rewrite EL. rewrite Z.add_0_r in HF. eapply moves_to; [by eapply Hload|sizes].
  - eapply moves_trans; [by eapply Hload|]. replace (negb stop) with b by by destruct b, stop.
    eapply moves_to; [eapply placed_jump; exact Hj|]. rewrite EJ. sizes.
Qed.

Lemma correct_and_or CE (stop : bool) args message xs noResult (ev : Meaning) :
  0 < SmileList_Length args -> tests_ok CE xs args ->
  (forall env v env', ev env v env' -> exists b, v = VBool b /\ evals_tests stop env args b env') ->
  correct xs noResult ev true
    (CompileAndOr CE (if stop then Op_Bt else Op_Bf) (if stop then Op_Bf else Op_Bt) (negb stop) args message).
Proof.
  intros Hlen IH Hev c slots R Hsc. unfold CompileAndOr.
  destruct (Z.leb_spec (SmileList_Length args) 0); [lia|].
  apply wp_bind, wp_freshId; [done|]. intros c1 A1 N1.
  apply wp_bind, wp_freshId; [apply A1|]. intros c2 A2 N2. assert (A02 : after c c2) by chain.
  apply wp_bind. eapply wp_mono.
  - eapply (IH stop slots (c_nextId c) c2 c2 (fun env b env' => b = negb stop /\ env' = env));
      [apply A2|exact (scoped_after _ _ _ _ R A02 Hsc)| |apply built_Create].
    split; [by apply after_refl, A2| |done|].
    + split; [apply NoDup_nil_2|]. intros i Hi. by apply elem_of_nil in Hi.
    + intros _ env b env' [-> ->] Hxs. split; [done|]. intros p stack _ _. rewrite size_nil, Z.add_0_r.
      destruct stop; apply moves_refl.
  - intros b0 c3 (l & need & Ht & B). pose proof (t_after _ _ _ _ _ _ _ _ _ Ht) as A3.
    pose proof (t_need _ _ _ _ _ _ _ _ _ Ht) as Hneed. destruct Ht as [_ Hf _ Hex].
    apply wp_bind. eapply wp_EMIT1; [apply A3|exact B|]. intros loc4 b4 c4 A4 N4 B4.
    apply wp_bind. eapply wp_EMIT_branch; [apply A4|exact B4|]. intros loc5 b5 c5 A5 N5 B5. apply wp_bind.
    eapply wp_EMIT1; [apply A5|by eapply built_AttachLast|]. intros loc6 b6 c6 A6 N6 B6.
    apply wp_ret. apply (built_AttachLast _ _ _ _ (c_nextId c1) Op_Label) in B6. pose proof B6 as (_ & D6 & _).
    rewrite D6. eapply (built_set_delta _ _ _ _ (0 + 1 + 0 + 1 - 1)) in B6.
    rewrite negb_involutive in B6. rewrite <- !app_assoc in B6.
    match type of B6 with built ?x _ _ ?y => set (code := x) in *; set (blk := y) in * end.
    assert (A06 : after c c6) by chain.
    assert (Hc : compiled c c6 xs slots ev blk).
    { pose proof B6 as (Bi & Bd & Bm & _). split; [done| | |].
      - eapply sane_built; [exact B6|auto|lia|lia|]. intros Hnil. by apply app_eq_nil in Hnil as [_ ?].
      - rewrite Bi. subst code. rewrite !ids_app, !ids_instr.
        pose proof (after_nextId _ _ A3). fresh_solve.
      - intros Hsp env v env' He Hxs. destruct (Hev _ _ _ He) as (b & -> & Hb).
        assert (Hsp3 : space c3) by (eapply (space_after c3 c6); [apply A3|chain|done]).
        destruct (Hex Hsp3 env b env') as [Hxs' Hexits]; [right; exists env|done|].
        { by split. }
        split; [done|]. rewrite (result_1 blk Bd), Bi, Bm. unfold all.
        eapply runs_weaken; [by apply runs_results|lia]. }
    destruct B6 as (_ & Bd & _). split; [done|]. split; [intros _ Hd; by rewrite Bd in Hd|by intros].
Qed.

Lemma eval_until_bool ev stop env args v env' :
  eval_until ev stop env args = Some (v, env') -> exists b, v = VBool b.
Proof.
  revert env. induction args as [| | | | | | | | | | | | | | | | |a _ d IH s]; intros env H; simpl in H;
    try by (injection H as <- _; eexists).
  destruct (eval_condition ev env a) as [[b env1]|]; [|done]. simpl in H.
  destruct (Bool.eqb b stop); [injection H as <- _; by eexists|by eapply IH].
Qed.

Lemma evals_and_or (stop : bool) args s1 env v env' :
  evals (ECons (ESymbol (if stop then SYMBOL__OR else SYMBOL__AND)) args s1) env v env' ->
  exists b, v = VBool b /\ evals_tests stop env args b env'.
Proof.
  intros [[|n] H]; [done|].
  assert (Hf : eval_until (eval n) stop env args = Some (v, env')) by by destruct stop.
  destruct (eval_until_bool _ _ _ _ _ _ Hf) as [b ->]. exists b. split; [done|]. by exists n.
Qed.

End CompileControl.
