(* ===== verification/CompileLoops.v ===== *)
(** * CompileLoops: loops and scopes of the core

    The four shapes of [$while] as a statement, whose code branches backwards,
    and [$scope], which adds variables to the frame. *)

From S2P Require Import Prelude Opcode ByteCode CompiledBlock Object Expr Closure.
From S2P Require Import Machine FnCall Eval EvalProps.
From S2P Require Import Compiler KnownSymbols CompileForms CompilerInvariant CompilerProps Reference RunBlock CompileSteps.
From S2P Require Import CompileCorrect CompileCore CompileControl.
Import Operand.

Section CompileLoops.
Context {OE : ObjectEnv} {E : CompilerEnv} {X : Run}.
#[local] Notation Meaning := (Env -> Value -> Env -> Prop).

Ltac sizes := rewrite ?size_app, ?size_branch; autorewrite with size; simpl isLabel; cbv iota; try lia.

(** ** [$while], as a statement *)

(** A clause of the loop, which may be left out. *)
Definition evals_stmt (e : Expr) (env env' : Env) : Prop :=
  if isNull e then env' = env else exists v, evals e env v env'.

(** From [p] to [q] the code evaluates the clause. *)
Definition stmt_runs (slots : list Z) (xs : list Symbol) (stack : list Value) (p q : Z) (e : Expr) : Prop :=
  forall env env', evals_stmt e env env' -> env.*1 = xs ->
  env'.*1 = xs /\ moves p slots env stack q slots env' stack.

(** ... evaluates the condition onto the stack. *)
Definition cond_runs (slots : list Z) (xs : list Symbol) (stack : list Value) (p q : Z) (cond : Expr) : Prop :=
  forall env w env', evals cond env w env' -> env.*1 = xs ->
  env'.*1 = xs /\ moves p slots env stack q slots env' (stack ++ [w]).

Lemma eval_clause_stmt n env v e w env' :
  eval_clause (eval n) env v e = Some (w, env') -> evals_stmt e env env'.
Proof.
  unfold eval_clause, evals_stmt. destruct (isNull e); intros H; [by injection H as _ <-|]. exists w. by exists n.
Qed.

(** One round, and all of them: the branch behind the condition leads to the
    label when the condition is true. *)
Lemma loop_moves slots xs stack (until : bool) pre condition post pJ p1 p2 id loc L :
  let '(cond, not) := Compiler_StripNots condition in
  stmt_runs slots xs stack pJ p1 pre -> cond_runs slots xs stack p1 p2 cond ->
  placed p2 [Instr id (if not : bool then Op_Bf else Op_Bt) loc zero (Some L) 0] ->
  stmt_runs slots xs stack (if until then p2 + 1 else run_label L) pJ post ->
  forall m n env v v' env', eval_loop (eval m) n until pre condition post env v = Some (v', env') ->
  env.*1 = xs -> env'.*1 = xs
  /\ moves pJ slots env stack (if until then run_label L else p2 + 1) slots env' stack.
Proof.
  destruct (Compiler_StripNots condition) as [cond not] eqn:Ec. intros Hpre Hcond Hb Hpost m n.
  replace (if not then Op_Bf else Op_Bt) with (if negb not then Op_Bt else Op_Bf) in Hb by by destruct not.
  induction n as [|n IH]; intros env v v' env' H Hxs; [done|]. simpl in H.
  destruct (eval_clause (eval m) env v pre) as [[u env1]|] eqn:Epre; [|done]. simpl in H.
  unfold eval_condition in H. rewrite Ec in H.
  destruct (eval m env1 cond) as [[w env2]|] eqn:Econd; [|done]. simpl in H.
  apply eval_clause_stmt in Epre. destruct (Hpre _ _ Epre Hxs) as [Hxs1 M1].
  destruct (Hcond env1 w env2 ltac:(by exists m) Hxs1) as [Hxs2 M2].
  pose proof (placed_branch _ _ _ _ _ slots env2 stack w Hb) as M3.
  pose proof (moves_trans _ _ _ _ _ _ _ _ _ _ _ _ M1 (moves_trans _ _ _ _ _ _ _ _ _ _ _ _ M2 M3)) as M.
  destruct (xorb until (xorb not (truth w))) eqn:Eb.
  - destruct (eval_clause (eval m) env2 u post) as [[u' env3]|] eqn:Epost; [|done]. simpl in H.
    apply eval_clause_stmt in Epost. destruct (Hpost _ _ Epost Hxs2) as [Hxs3 M4].
    destruct (IH _ _ _ _ H Hxs3) as [Hxs' M5]. split; [done|].
    eapply moves_trans; [exact M|]. eapply moves_trans; [|exact M5].
    by destruct until, not, (truth w).
  - injection H as _ <-. split; [done|]. eapply moves_to; [exact M|].
    by destruct until, not, (truth w).
Qed.

Lemma part_stmt c c' xs slots e l need p stack :
  part c c' xs slots (evals e) none l need -> isNull e = false -> space c' -> placed p l -> room stack need ->
  stmt_runs slots xs stack p (p + size l) e.
Proof.
  intros Hp Hn Hsp Hl Hr env env' He Hxs. unfold evals_stmt in He. rewrite Hn in He. destruct He as [v He].
  destruct (p_runs Hp Hsp env v env' He Hxs) as [Hxs' Hruns]. split; [done|].
  specialize (Hruns p stack Hl Hr). unfold none in Hruns. by rewrite app_nil_r in Hruns.
Qed.

Lemma stmt_null slots xs stack p e : isNull e = true -> stmt_runs slots xs stack p p e.
Proof. intros Hn env env' He Hxs. unfold evals_stmt in He. rewrite Hn in He. subst. split; [done|apply moves_refl]. Qed.

Lemma part_cond c c' xs slots e l need p stack :
  part c c' xs slots (evals e) all l need -> space c' -> placed p l -> room stack need ->
  cond_runs slots xs stack p (p + size l) e.
Proof.
  intros Hp Hsp Hl Hr env w env' He Hxs.
  destruct (p_runs Hp Hsp env w env' He Hxs) as [Hxs' Hruns]. split; [done|].
  specialize (Hruns p stack Hl Hr). by rewrite app_nil_r in Hruns.
Qed.

(** The child is appended first, and its value dropped or supplied behind it. *)
Lemma wp_then_match CE b0 l depth e c xs slots leaves (Q : CompiledBlock -> Compiler -> Prop) :
  correct xs true (evals e) leaves (CE e true) -> ready c -> scoped c xs slots ->
  built l 0 depth b0 -> 0 <= depth ->
  (forall l' need b' c', part c c' xs slots (evals e) none l' need ->
     built (l ++ l') 0 (Z.max depth need) b' -> Q b' c') ->
  wp (AppendThenMatch CE b0 e true) c Q.
Proof.
  intros IH R Hsc B Hd HQ. unfold AppendThenMatch. apply wp_bind. eapply wp_mono; [by apply IH|].
  intros child c1 (Hc & _ & _). pose proof (k_sane _ _ _ _ _ _ Hc) as S. pose proof (delta_bounds _ S).
  pose proof (sn_le _ S). apply wp_bind. eapply append_child; [exact Hc|exact B|done|].
  intros l' b' c2 Hp B'. eapply wp_EmitNoResult; [apply (p_after Hp)|exact B'|lia|lia|].
  intros loc b'' c3 A3 B'' N _. rewrite !Z.add_0_l in *. rewrite <- app_assoc in B''.
  destruct (Z.eqb_spec (finalStackDelta child) 0) as [E0|E0].
  - eapply (HQ _ (maxStackDepth child)); [|exact B'']. rewrite app_nil_r. rewrite (result_0 _ E0) in Hp.
    eapply part_widen; [by apply after_refl|exact Hp|exact A3].
  - specialize (N E0). eapply (HQ _ (Z.max (maxStackDepth child) 0)).
    2: { rewrite (Z.max_l (maxStackDepth child) 0) by apply S. exact B''. }
    eapply part_then; [exact Hp|exact A3|rewrite ids_instr, N; fresh_solve|done|done|].
    intros Hsp env v env' He. exists v, env'. split; [done|]. intros _ Hxs. split; [done|].
    rewrite (result_1 child) by lia. apply runs_pop.
Qed.

Lemma wp_then_require CE b0 l depth e c xs slots leaves {B} (k : CompiledBlock -> M B) Q :
  correct xs false (evals e) leaves (CE e false) -> ready c -> scoped c xs slots ->
  built l 0 depth b0 -> 0 <= depth ->
  (forall l' need b' c', part c c' xs slots (evals e) all l' need -> 1 <= need ->
     built (l ++ l') 1 (Z.max depth need) b' -> wp (k b') c' Q) ->
  wp (condBlock ← CE e false; compiledBlock ← AppendChild b0 condBlock;
      compiledBlock ← Compiler_EmitRequireResult compiledBlock; k compiledBlock) c Q.
Proof.
  intros IH R Hsc B0 Hd HQ. apply wp_bind. eapply wp_mono; [by apply IH|].
  intros child c1 (Hc & Hnull & _). pose proof (k_sane _ _ _ _ _ _ Hc) as S. pose proof (delta_bounds _ S).
  pose proof (sn_le _ S). apply wp_bind. eapply append_child; [exact Hc|exact B0|done|].
  intros l' b' c2 Hp B'. apply wp_bind. eapply wp_EmitRequireResult; [apply (p_after Hp)|exact B'|lia|].
  intros loc b'' c3 A3 B'' N. rewrite !Z.add_0_l in *. rewrite <- app_assoc in B''.
  destruct (Z.eqb_spec (finalStackDelta child) 0) as [E0|E0].
  - specialize (N E0). eapply (HQ _ (Z.max (maxStackDepth child) 1)); [|lia|].
    2: { replace (Z.max depth (Z.max (maxStackDepth child) 1)) with (Z.max (Z.max depth (maxStackDepth child)) 1) by lia. exact B''. }
    eapply part_then; [exact Hp|exact A3|rewrite ids_instr, N; fresh_solve|done|done|].
    intros Hsp env v env' He. exists v, env'. split; [done|]. intros _ Hxs. split; [done|].
    rewrite (result_0 _ E0), (Hnull eq_refl E0 _ _ _ He). apply runs_loads; [done..|apply loads_null].
  - eapply (HQ _ (maxStackDepth child)); [|lia|exact B'']. rewrite app_nil_r. rewrite (result_1 child) in Hp by lia.
    eapply part_widen; [by apply after_refl|exact Hp|exact A3].
Qed.

(** A clause that has code, or none at all. *)
Definition code_stmt (slots : list Z) (xs : list Symbol) (l : list IntermediateInstruction) (need : Z)
  (e : Expr) : Prop :=
  (forall env env', evals_stmt e env env' -> env.*1 = xs -> env'.*1 = xs)
  /\ forall p stack, placed p l -> room stack need -> stmt_runs slots xs stack p (p + size l) e.

Lemma code_stmt_part c c' xs slots e l need :
  part c c' xs slots (evals e) none l need -> isNull e = false -> space c' -> code_stmt slots xs l need e.
Proof.
  intros Hp Hn Hsp. split; [|intros p stack Hl Hr; by eapply part_stmt].
  intros env env' He Hxs. unfold evals_stmt in He. rewrite Hn in He. destruct He as [v He].
  by apply (p_runs Hp Hsp env v env').
Qed.

Lemma code_stmt_null slots xs e : isNull e = true -> code_stmt slots xs [] 0 e.
Proof.
  intros Hn. split.
  - intros env env' He. unfold evals_stmt in He. rewrite Hn in He. by subst.
  - intros p stack _ _. rewrite size_nil, Z.add_0_r. by apply stmt_null.
Qed.

Definition code_cond (slots : list Z) (xs : list Symbol) (l : list IntermediateInstruction) (need : Z)
  (e : Expr) : Prop :=
  (forall env w env', evals e env w env' -> env.*1 = xs -> env'.*1 = xs)
  /\ forall p stack, placed p l -> room stack need -> cond_runs slots xs stack p (p + size l) e.

Lemma code_cond_part c c' xs slots e l need :
  part c c' xs slots (evals e) all l need -> space c' -> code_cond slots xs l need e.
Proof.
  intros Hp Hsp. split; [|intros p stack Hl Hr; by eapply part_cond].
  intros env w env' He Hxs. by apply (p_runs Hp Hsp env w env').
Qed.

Definition evals_loop (until : bool) (pre condition post : Expr) : Meaning := fun env v env' =>
  exists m n v0, eval_loop (eval m) n until pre condition post env v0 = Some (v, env').

Lemma loop_names xs until pre condition post env v env' :
  (forall env env', evals_stmt pre env env' -> env.*1 = xs -> env'.*1 = xs) ->
  (forall env w env', evals (fst (Compiler_StripNots condition)) env w env' -> env.*1 = xs -> env'.*1 = xs) ->
  (forall env env', evals_stmt post env env' -> env.*1 = xs -> env'.*1 = xs) ->
  evals_loop until pre condition post env v env' -> env.*1 = xs -> env'.*1 = xs.
Proof.
  intros Npre Ncond Npost (m & n & v0 & H). revert env v0 H.
  induction n as [|n IH]; intros env v0 H Hxs; [done|]. simpl in H.
  destruct (eval_clause (eval m) env v0 pre) as [[u env1]|] eqn:Epre; [|done]. simpl in H.
  unfold eval_condition in H. destruct (Compiler_StripNots condition) as [cond not]. simpl in Ncond.
  destruct (eval m env1 cond) as [[w env2]|] eqn:Ec; [|done]. simpl in H.
  apply eval_clause_stmt, Npre in Epre; [|done]. specialize (Ncond env1 w env2 ltac:(by exists m) Epre).
  destruct (xorb until (xorb not (truth w))); [|by injection H as _ <-].
  destruct (eval_clause (eval m) env2 u post) as [[u' env3]|] eqn:Epost; [|done]. simpl in H.
  apply eval_clause_stmt, Npost in Epost; [|done]. by eapply IH.
Qed.

Lemma stmt_then slots xs stack p q r e :
  stmt_runs slots xs stack p q e -> (forall env, moves q slots env stack r slots env stack) ->
  stmt_runs slots xs stack p r e.
Proof. intros H M env env' He Hxs. destruct (H _ _ He Hxs). split; [done|]. by eapply moves_trans. Qed.

Lemma stmt_to slots xs stack p p' q q' e :
  stmt_runs slots xs stack p q e -> p = p' -> q = q' -> stmt_runs slots xs stack p' q' e.
Proof. by intros ? <- <-. Qed.

Lemma runs_none slots l need env env' :
  (forall p stack, placed p l -> room stack need -> moves p slots env stack (p + size l) slots env' stack) ->
  runs slots l need env [] env' [].
Proof. intros H p stack Hp Hr. rewrite app_nil_r. by apply H. Qed.

Section Code.
Variables (slots : list Z) (xs : list Symbol) (pre condition post : Expr).
Variables (lpre lcond lpost : list IntermediateInstruction) (n1 n2 n3 : Z).
#[local] Notation cond := (fst (Compiler_StripNots condition)).
#[local] Notation op := (if snd (Compiler_StripNots condition) then Op_Bf else Op_Bt).
Hypothesis Hpre : code_stmt slots xs lpre n1 pre.
Hypothesis Hcond : code_cond slots xs lcond n2 cond.
Hypothesis Hpost : code_stmt slots xs lpost n3 post.
#[local] Notation need := (Z.max n1 (Z.max n2 n3)).

Lemma size_op id loc L : size [Instr id op loc zero (Some L) 0] = 1.
Proof. rewrite size_instr. by destruct (snd _). Qed.

Lemma code_moves stack (until : bool) pJ p1 p2 id loc L env v env' :
  stmt_runs slots xs stack pJ p1 pre -> cond_runs slots xs stack p1 p2 cond ->
  placed p2 [Instr id op loc zero (Some L) 0] ->
  stmt_runs slots xs stack (if until then p2 + 1 else run_label L) pJ post ->
  evals_loop until pre condition post env v env' -> env.*1 = xs ->
  moves pJ slots env stack (if until then run_label L else p2 + 1) slots env' stack.
Proof.
  intros H1 H2 Hb H3 (m & n & v0 & H) Hxs.
  pose proof (loop_moves slots xs stack until pre condition post pJ p1 p2 id loc L) as Hm.
  destruct (Compiler_StripNots condition) as [co not]. by apply (Hm H1 H2 Hb H3 m n env v0 v env' H Hxs).
Qed.

(** The loop that the branch leaves. *)
Lemma runs_until J L b loc j locJ env v env' :
  evals_loop true pre condition post env v env' -> env.*1 = xs ->
  runs slots ([Instr J Op_Label 0 zero None 0] ++ lpre ++ lcond ++ [Instr b op loc zero (Some L) 0] ++ lpost
    ++ [Instr j Op_Jmp locJ zero (Some J) 0] ++ [Instr L Op_Label 0 zero None 0]) need env [] env' [].
Proof.
  intros H Hxs. apply runs_none. intros p stack Hp Hr.
  apply placed_app in Hp as [HJ Hp]. apply placed_app in Hp as [H1 Hp]. apply placed_app in Hp as [H2 Hp].
  apply placed_app in Hp as [Hb Hp]. apply placed_app in Hp as [H3 Hp]. apply placed_app in Hp as [Hj HL].
  pose proof (placed_label _ _ _ _ _ _ HJ) as EJ. pose proof (placed_label _ _ _ _ _ _ HL) as EL.
  rewrite !size_app, !size_op, !size_instr, !Z.add_0_r in *. simpl isLabel in *. cbv iota in *.
  eapply moves_to; [eapply (code_moves stack true); [..|exact H|exact Hxs]|].
  - apply Hpre; [done|eapply room_weaken; [exact Hr|lia]].
  - apply Hcond; [done|eapply room_weaken; [exact Hr|lia]].
  - exact Hb.
  - eapply stmt_then; [apply Hpost; [done|eapply room_weaken; [exact Hr|lia]]|].
    intros e. eapply moves_to; [eapply placed_jump; exact Hj|exact EJ].
  - simpl. rewrite EL. lia.
Qed.

(** The loop that the branch repeats. *)
Lemma runs_repeat J L b loc j locJ env v env' :
  evals_loop false pre condition post env v env' -> env.*1 = xs ->
  runs slots ([Instr j Op_Jmp locJ zero (Some J) 0] ++ [Instr L Op_Label 0 zero None 0] ++ lpost
    ++ [Instr J Op_Label 0 zero None 0] ++ lpre ++ lcond ++ [Instr b op loc zero (Some L) 0]) need env [] env' [].
Proof.
  intros H Hxs. apply runs_none. intros p stack Hp Hr.
  apply placed_app in Hp as [Hj Hp]. apply placed_app in Hp as [HL Hp]. apply placed_app in Hp as [H3 Hp].
  apply placed_app in Hp as [HJ Hp]. apply placed_app in Hp as [H1 Hp]. apply placed_app in Hp as [H2 Hb].
  pose proof (placed_label _ _ _ _ _ _ HJ) as EJ. pose proof (placed_label _ _ _ _ _ _ HL) as EL.
  rewrite !size_app, !size_op, !size_instr, !Z.add_0_r in *. simpl isLabel in *. cbv iota in *.
  eapply moves_trans; [eapply moves_to; [eapply placed_jump; exact Hj|exact EJ]|].
  eapply moves_to; [eapply (code_moves stack false); [..|exact H|exact Hxs]|].
  - apply Hpre; [done|eapply room_weaken; [exact Hr|lia]].
  - apply Hcond; [done|eapply room_weaken; [exact Hr|lia]].
  - exact Hb.
  - rewrite EL. apply Hpost; [done|eapply room_weaken; [exact Hr|lia]].
  - simpl. lia.
Qed.

(** The loop without clauses. *)
Lemma runs_no_body L locL t b loc env v env' :
  isNull pre = true -> isNull post = true ->
  evals_loop false pre condition post env v env' -> env.*1 = xs ->
  runs slots ([Instr L Op_Label locL zero t 0] ++ lcond ++ [Instr b op loc zero (Some L) 0]) n2 env [] env' [].
Proof.
  intros N1 N3 H Hxs. apply runs_none. intros p stack Hp Hr.
  apply placed_app in Hp as [HL Hp]. apply placed_app in Hp as [H2 Hb].
  pose proof (placed_label _ _ _ _ _ _ HL) as EL.
  rewrite !size_app, !size_op, !size_instr, !Z.add_0_r in *. simpl isLabel in *. cbv iota in *.
  eapply moves_to; [eapply (code_moves stack false); [..|exact H|exact Hxs]|].
  - by apply stmt_null.
  - by apply Hcond.
  - exact Hb.
  - rewrite EL. by apply stmt_null.
  - simpl. lia.
Qed.
End Code.

(** *** The four forms *)

(** What a loop answers; its value is dropped. *)
Definition loop_answer (c c' : Compiler) (xs : list Symbol) (slots : list Z) (ev : Meaning) (b : CompiledBlock)
  : Prop := compiled c c' xs slots ev b /\ finalStackDelta b = 0.

Lemma loop_block c c' xs slots (ev : Meaning) l depth need b :
  after c c' -> built l 0 depth b -> l <> [] -> 0 <= need <= depth ->
  fresh (c_nextId c) (c_nextId c') (ids l) ->
  (space c' -> forall env v env', ev env v env' -> env.*1 = xs ->
    env'.*1 = xs /\ runs slots l need env [] env' []) ->
  loop_answer c c' xs slots ev b.
Proof.
  intros A B Hne Hneed F Hr. pose proof B as (Bi & Bd & Bm & _). split; [|done]. split; [done| |by rewrite Bi|].
  - eapply sane_built; [exact B|auto|lia|lia|done].
  - intros Hsp env v env' He Hxs. destruct (Hr Hsp env v env' He Hxs) as [? Hruns]. split; [done|].
    rewrite Bi, Bm, (result_0 _ Bd). eapply runs_weaken; [exact Hruns|lia].
Qed.

Section Forms.
Variables (CE : Expr -> bool -> M CompiledBlock) (pre condition post : Expr) (xs : list Symbol).
Variables (lpre lcond lpost : bool).
#[local] Notation cond := (fst (Compiler_StripNots condition)).
#[local] Notation isNot := (snd (Compiler_StripNots condition)).
Hypothesis IHpre : correct xs true (evals pre) lpre (CE pre true).
Hypothesis IHcond : correct xs false (evals cond) lcond (CE cond false).
Hypothesis IHpost : correct xs true (evals post) lpost (CE post true).

Lemma pre_and_post c slots : isNull pre = false -> isNull post = false -> ready c -> scoped c xs slots ->
  wp (CompileWhileWithPreAndPost CE isNot cond pre post true) c
    (fun b c' => loop_answer c c' xs slots (evals_loop true pre condition post) b).
Proof.
  intros Npre Npost R Hsc. unfold CompileWhileWithPreAndPost.
  apply wp_bind, wp_freshId; [done|]. intros c1 A1 N1.
  apply wp_bind, wp_freshId; [apply A1|]. intros c2 A2 N2. assert (A02 : after c c2) by chain.
  apply wp_bind. eapply wp_need; [reflexivity|]. set (b0 := set_numInstructions _ _).
  assert (B0 : built [Instr (c_nextId c) Op_Label 0 zero None 0] 0 0 b0) by done.
  apply wp_bind. eapply wp_then_match; [exact IHpre|apply A2|exact (scoped_after _ _ _ _ R A02 Hsc)|exact B0|done|].
  intros l1 n1 b1 c3 P1 B1. pose proof (p_after P1) as A3. assert (A03 : after c c3) by chain.
  pose proof (p_need P1).
  apply wp_bind. eapply wp_required; [exact IHcond|apply A3|exact (scoped_after _ _ _ _ R A03 Hsc)|exact B1|lia|].
  intros l2 n2 b2 c4 P2 B2 _. pose proof (p_after P2) as A4. pose proof (p_need P2).
  apply wp_bind. eapply wp_EMIT_branch; [apply A4|exact B2|]. intros loc b3 c5 A5 N5 B3.
  assert (A05 : after c c5) by chain. apply wp_bind, wp_ret.
  apply wp_bind3. eapply wp_dropped; [exact IHpost|apply A5|exact (scoped_after _ _ _ _ R A05 Hsc)|exact B3|lia|].
  intros l3 n3 b4 c6 P3 B4. pose proof (p_after P3) as A6. pose proof (p_need P3).
  apply wp_bind. eapply wp_EMIT_branch; [apply A6|exact B4|]. intros loc2 b5 c7 A7 N7 B5. apply wp_ret.
  apply (built_AttachLast _ _ _ _ (c_nextId c1) Op_Label) in B5. rewrite <- !app_assoc in B5.
  replace (0 + 1 + -1 + 0) with 0 in B5 by lia.
  eapply (loop_block _ _ _ _ _ _ _ (Z.max n1 (Z.max n2 n3))); [chain|exact B5|done|lia| |].
  - rewrite !ids_app, !ids_instr. pose proof (after_nextId _ _ A3). pose proof (after_nextId _ _ A4).
    pose proof (after_nextId _ _ A6). destruct P1, P2, P3. fresh_solve.
  - intros Hsp env v env' He Hxs.
    assert (Hsp6 : space c6) by (eapply space_after; [apply A6|exact A7|done]).
    assert (Hsp4 : space c4) by (eapply (space_after c4 c6); [apply A4|chain|done]).
    assert (Hsp3 : space c3) by (eapply (space_after c3 c4); [apply A3|chain|done]).
    pose proof (code_stmt_part _ _ _ _ _ _ _ P1 Npre Hsp3) as HR1. pose proof (code_cond_part _ _ _ _ _ _ _ P2 Hsp4) as HR2.
    pose proof (code_stmt_part _ _ _ _ _ _ _ P3 Npost Hsp6) as HR3. split.
    + eapply loop_names; [apply HR1|apply HR2|apply HR3|exact He|done].
    + by eapply runs_until.
Qed.

Lemma pre_only c slots : isNull pre = false -> isNull post = true -> ready c -> scoped c xs slots ->
  wp (CompileWhileWithPre CE isNot cond pre true) c
    (fun b c' => loop_answer c c' xs slots (evals_loop false pre condition post) b).
Proof.
  intros Npre Npost R Hsc. unfold CompileWhileWithPre.
  apply wp_bind, wp_freshId; [done|]. intros c1 A1 N1.
  apply wp_bind, wp_freshId; [apply A1|]. intros c2 A2 N2.
  apply wp_bind. eapply wp_EMIT_branch; [apply A2|apply built_Create|]. intros loc b0 c3 A3 N3 B0.
  apply (built_AttachLast _ _ _ _ (c_nextId c1) Op_Label), (built_AttachLast _ _ _ _ (c_nextId c) Op_Label) in B0.
  assert (A03 : after c c3) by chain.
  apply wp_bind. eapply wp_then_match; [exact IHpre|apply A3|exact (scoped_after _ _ _ _ R A03 Hsc)|exact B0|done|].
  intros l1 n1 b1 c4 P1 B1. pose proof (p_after P1) as A4. assert (A04 : after c c4) by chain.
  pose proof (p_need P1). apply wp_bind, wp_ret. unfold adjust_delta.
  apply wp_bind. eapply wp_required; [exact IHcond|apply A4|exact (scoped_after _ _ _ _ R A04 Hsc)|exact B1|lia|].
  intros l2 n2 b2 c5 P2 B2 _. pose proof (p_after P2) as A5. pose proof (p_need P2).
  apply wp_bind. eapply wp_EMIT_branch; [apply A5|exact B2|]. intros loc2 b3 c6 A6 N6 B3. apply wp_ret.
  rewrite <- !app_assoc, app_nil_l in B3.
  eapply (loop_block _ _ _ _ _ _ _ (Z.max n1 (Z.max n2 0))); [chain|exact B3|done|lia| |].
  - rewrite !ids_app, !ids_instr. pose proof (after_nextId _ _ A4). pose proof (after_nextId _ _ A5).
    destruct P1, P2. fresh_solve.
  - intros Hsp env v env' He Hxs.
    assert (Hsp5 : space c5) by (eapply space_after; [apply A5|exact A6|done]).
    assert (Hsp4 : space c4) by (eapply (space_after c4 c5); [apply A4|chain|done]).
    pose proof (code_stmt_part _ _ _ _ _ _ _ P1 Npre Hsp4) as HR1. pose proof (code_cond_part _ _ _ _ _ _ _ P2 Hsp5) as HR2.
    pose proof (code_stmt_null slots xs post Npost) as HR3. split.
    + eapply loop_names; [apply HR1|apply HR2|apply HR3|exact He|done].
    + by eapply (runs_repeat slots xs pre condition post l1 l2 []).
Qed.

Lemma post_only c slots : isNull pre = true -> isNull post = false -> ready c -> scoped c xs slots ->
  wp (CompileWhileWithPost CE isNot cond post true) c
    (fun b c' => loop_answer c c' xs slots (evals_loop false pre condition post) b).
Proof.
  intros Npre Npost R Hsc. unfold CompileWhileWithPost.
  apply wp_bind, wp_freshId; [done|]. intros c1 A1 N1.
  apply wp_bind, wp_freshId; [apply A1|]. intros c2 A2 N2. apply wp_bind, wp_ret. unfold adjust_delta.
  apply wp_bind. eapply wp_EMIT_branch; [apply A2|apply built_Create|]. intros loc b0 c3 A3 N3 B0.
  apply (built_AttachLast _ _ _ _ (c_nextId c1) Op_Label) in B0.
  assert (A03 : after c c3) by chain.
  apply wp_bind. eapply wp_then_match; [exact IHpost|apply A3|exact (scoped_after _ _ _ _ R A03 Hsc)|exact B0|done|].
  intros l1 n1 b1 c4 P1 B1. pose proof (p_after P1) as A4. assert (A04 : after c c4) by chain.
  pose proof (p_need P1). apply wp_bind, wp_ret.
  apply (built_AttachLast _ _ _ _ (c_nextId c) Op_Label) in B1.
  eapply wp_then_require; [exact IHcond|apply A4|exact (scoped_after _ _ _ _ R A04 Hsc)|exact B1|lia|].
  intros l2 n2 b2 c5 P2 _ B2. pose proof (p_after P2) as A5. pose proof (p_need P2).
  apply wp_bind. eapply wp_EMIT_branch; [apply A5|exact B2|]. intros loc2 b3 c6 A6 N6 B3. apply wp_ret.
  rewrite <- !app_assoc, app_nil_l in B3.
  eapply (loop_block _ _ _ _ _ _ _ (Z.max 0 (Z.max n2 n1))); [chain|exact B3|done|lia| |].
  - rewrite !ids_app, !ids_instr. pose proof (after_nextId _ _ A4). pose proof (after_nextId _ _ A5).
    destruct P1, P2. fresh_solve.
  - intros Hsp env v env' He Hxs.
    assert (Hsp5 : space c5) by (eapply space_after; [apply A5|exact A6|done]).
    assert (Hsp4 : space c4) by (eapply (space_after c4 c5); [apply A4|chain|done]).
    pose proof (code_stmt_part _ _ _ _ _ _ _ P1 Npost Hsp4) as HR3. pose proof (code_cond_part _ _ _ _ _ _ _ P2 Hsp5) as HR2.
    pose proof (code_stmt_null slots xs pre Npre) as HR1. split.
    + eapply loop_names; [apply HR1|apply HR2|apply HR3|exact He|done].
    + by eapply (runs_repeat slots xs pre condition post [] l2 l1).
Qed.

Lemma no_body c slots : isNull pre = true -> isNull post = true -> ready c -> scoped c xs slots ->
  wp (CompileWhileWithNoBody CE isNot cond true) c
    (fun b c' => loop_answer c c' xs slots (evals_loop false pre condition post) b).
Proof.
  intros Npre Npost R Hsc. unfold CompileWhileWithNoBody.
  apply wp_bind, wp_freshId; [done|]. intros c1 A1 N1.
  apply wp_bind. eapply wp_EMIT_id; [apply A1|apply built_Create|]. intros loc b0 B0.
  apply wp_bind. eapply wp_required; [exact IHcond|apply A1|exact (scoped_after _ _ _ _ R A1 Hsc)|exact B0|lia|].
  intros l2 n2 b2 c2 P2 B2 _. pose proof (p_after P2) as A2. pose proof (p_need P2).
  apply wp_bind. eapply wp_EMIT_branch; [apply A2|exact B2|]. intros loc2 b3 c3 A3 N3 B3. apply wp_ret.
  rewrite <- !app_assoc, app_nil_l in B3.
  eapply (loop_block _ _ _ _ _ _ _ n2); [chain|exact B3|done|lia| |].
  - rewrite !ids_app, !ids_instr. pose proof (after_nextId _ _ A2). destruct P2. fresh_solve.
  - intros Hsp env v env' He Hxs.
    assert (Hsp2 : space c2) by (eapply space_after; [apply A2|exact A3|done]).
    pose proof (code_cond_part _ _ _ _ _ _ _ P2 Hsp2) as HR2.
    pose proof (code_stmt_null slots xs pre Npre) as HR1. pose proof (code_stmt_null slots xs post Npost) as HR3. split.
    + eapply loop_names; [apply HR1|apply HR2|apply HR3|exact He|done].
    + by eapply (runs_no_body slots xs pre condition post l2).
Qed.
End Forms.

Lemma evals_while args pre condition post s1 env v env' :
  While_parts args = Some (pre, condition, post) ->
  evals (ECons (ESymbol SYMBOL__WHILE) args s1) env v env' ->
  evals_loop (negb (isNull pre) && negb (isNull post)) pre condition post env v env'.
Proof.
  intros Hparts [[|n] H]; [done|]. simpl in H. unfold eval_form in H. simpl in H.
  unfold eval_while in H. rewrite Hparts in H. by exists n, n, VNull.
Qed.

Lemma correct_while CE args pre condition post xs l1 l2 l3 leaves s1 :
  While_parts args = Some (pre, condition, post) ->
  let cond := fst (Compiler_StripNots condition) in
  correct xs true (evals pre) l1 (CE pre true) -> correct xs false (evals cond) l2 (CE cond false) ->
  correct xs true (evals post) l3 (CE post true) ->
  correct xs true (evals (ECons (ESymbol SYMBOL__WHILE) args s1)) leaves
    (Compiler_CompileWhile CE args true).
Proof.
  intros Hparts cond IH1 IH2 IH3 c slots R Hsc.
  pose proof (fun env v env' => evals_while args pre condition post s1 env v env' Hparts) as Hev.
  assert (Hform : Compiler_CompileWhile CE args true
    = let '(condition, not) := Compiler_StripNots condition in
      match negb (isNull pre), negb (isNull post) with
      | true, true => CompileWhileWithPreAndPost CE not condition pre post true
      | true, false => CompileWhileWithPre CE not condition pre true
      | false, true => CompileWhileWithPost CE not condition post true
      | false, false => CompileWhileWithNoBody CE not condition true
      end).
  { unfold Compiler_CompileWhile. rewrite Hparts. unfold While_parts in Hparts.
    by destruct args as [| | | | | | | | | | | | | | | | |a [] s]. }
  rewrite Hform. clear Hform.
  assert (Hwp : wp (let '(condition, not) := Compiler_StripNots condition in
      match negb (isNull pre), negb (isNull post) with
      | true, true => CompileWhileWithPreAndPost CE not condition pre post true
      | true, false => CompileWhileWithPre CE not condition pre true
      | false, true => CompileWhileWithPost CE not condition post true
      | false, false => CompileWhileWithNoBody CE not condition true
      end) c (fun b c' => loop_answer c c' xs slots
        (evals_loop (negb (isNull pre) && negb (isNull post)) pre condition post) b)).
  { rewrite (surjective_pairing (Compiler_StripNots condition)). subst cond.
    destruct (isNull pre) eqn:N1, (isNull post) eqn:N3; simpl negb; simpl andb; cbv iota.
    - by eapply no_body.
    - by eapply post_only.
    - by eapply pre_only.
    - by eapply pre_and_post. }
  eapply wp_mono; [exact Hwp|]. intros b c' [[A S F Hr] D]. split; [|done].
  split; try done. intros Hsp env v env' He. apply Hr; [done|]. by apply Hev.
Qed.

(** ** [$scope] *)

(** The state [c] inside a scope [p] that was opened in the state [c0]. *)
Record inner (c0 c : Compiler) (p : nat) : Prop := {
  i_ready : ready c;
  i_steady : steady_scope c0 c;
  i_scope : c_currentScope c = Some p;
  i_new : (length (c_scopes c0) <= p)%nat;
  i_entry : exists s, c_scopes c !! p = Some s /\ sc_function s = c_currentFunction c
    /\ sc_parent s = c_currentScope c0
}.

Lemma inner_after c0 c c' p : inner c0 c p -> after c c' -> inner c0 c' p.
Proof.
  intros [R S Hp Hn (s & Hs & Hf & Hpar)] [S' Hc R']. split; [done|by eapply steady_scope_trans|congruence|done|].
  exists s. destruct (s_scopes _ _ S') as [l ->]. rewrite (s_currentFunction _ _ S').
  split; [by apply lookup_app_l_Some|done].
Qed.

Lemma inner_begin kind c : ready c -> inner c (begin_scope kind c) (length (c_scopes c)).
Proof.
  intros R. pose proof R as [(q & f & Hq & Hf & Hl) Hold Hcur]. split; [|split|done|done|]; simpl; try done.
  - split; simpl; [by exists q, f| |].
    + intros p s r Hs Hr. apply lookup_snoc_Some in Hs as [[Hlt Hs]|[-> <-]]; [by eapply Hold|].
      by apply Hcur.
    + intros p [= <-]. rewrite length_app. simpl. lia.
  - apply prefix_app_r. done.
  - apply keeps_refl.
  - apply functions_grow_refl.
  - eexists. split; [by apply list_lookup_middle|done].
Qed.

Lemma denotes_as c c' x y i :
  (forall p, meaning c x = Some p -> meaning c' y = Some p) -> c_currentFunction c' = c_currentFunction c ->
  keeps (fun s => (ls_kind s, ls_index s, ls_scope s)) (c_localSymbols c) (c_localSymbols c') ->
  keeps sc_function (c_scopes c) (c_scopes c') -> denotes c x i -> denotes c' y i.
Proof.
  intros Hm Hq Hs Hc (p & ls & s & q & local & H1 & H2 & H3 & H4 & H5 & H6 & H7 & ->).
  destruct (Hs p ls H2) as (ls' & H2' & [= Ek Ei Es]). destruct (Hc _ s H3) as (s' & H3' & Ef).
  exists p, ls', s', q, local. rewrite Hq, Ek, Ei, Es, Ef. repeat split; auto.
Qed.

Lemma begin_meaning kind c x : ready c -> meaning (begin_scope kind c) x = meaning c x.
Proof.
  intros [_ Hold Hcur]. unfold meaning, begin_scope. simpl. rewrite length_app. simpl.
  replace (length (c_scopes c) + 1)%nat with (S (length (c_scopes c))) by lia. simpl.
  rewrite list_lookup_middle by done. simpl. rewrite lookup_empty, FindSymbol_app by done. done.
Qed.

Lemma begin_scoped kind c xs slots : ready c -> scoped c xs slots -> scoped (begin_scope kind c) xs slots.
Proof.
  intros R [Hl Hd Hb Hn]. split; try done. intros x k Hk. destruct (Hn x k Hk) as (i & Hi & Hden).
  exists i. split; [done|]. apply (denotes_as c _ x); [|done|apply keeps_refl|apply keeps_app|done].
  intros p. by rewrite begin_meaning.
Qed.

(** A declared name is found in its scope; other names mean what they did. *)
Lemma FindSymbol_alter scopes p x n y : y <> x ->
  forall fuel o, FindSymbol_loop fuel (alter (fun s =>
    mkScope (sc_parent s) (<[x := n]> (sc_symbolDict s)) (sc_kind s) (sc_function s)) p scopes) o y
  = FindSymbol_loop fuel scopes o y.
Proof.
  intros Hne fuel. induction fuel as [|fuel IH]; intros [q|]; try done. simpl.
  destruct (decide (p = q)) as [->|Hpq].
  - rewrite list_lookup_alter_eq. destruct (scopes !! q) as [s|]; [|done]. simpl.
    rewrite lookup_insert_ne by done. destruct (sc_symbolDict s !! y); [done|apply IH].
  - rewrite list_lookup_alter_ne by done. destruct (scopes !! q) as [s|]; [|done]. simpl.
    destruct (sc_symbolDict s !! y); [done|apply IH].
Qed.

Lemma keeps_function p f scopes :
  (forall s, sc_function (f s) = sc_function s) -> keeps sc_function scopes (alter f p scopes).
Proof. apply keeps_alter. Qed.

(** The state after a declaration. *)
Definition add_local (x : Symbol) (q : nat) (max : Z) (c : Compiler) : Compiler :=
  upd_c_functions (alter (fun f => upd_cf_localMax (fun _ => max) (upd_cf_localNames (fun l => l ++ [x]) f)) q) c.

Lemma wp_AddLocal x c (Q : Z -> Compiler -> Prop) :
  ready c -> (forall q max, c_currentFunction c = Some q -> Q (local_count c) (add_local x q max c)) ->
  wp (CompilerFunction_AddLocal x) c Q.
Proof.
  intros R HQ. unfold CompilerFunction_AddLocal. apply wp_bind, wp_current; [done|].
  intros q f Hq Hf _. apply wp_bind. unfold update_current, currentFunction.
  apply wp_bind, wp_bind, wp_get, (wp_need _ q); [done|]. unfold update. apply wp_modify, wp_ret.
  specialize (HQ q (wrapS 32 (if zlen (cf_localNames f) >=? cf_localMax f
    then (if cf_localMax f * 2 <? 8 then 8 else cf_localMax f * 2) else cf_localMax f)) Hq).
  unfold local_count in HQ. rewrite Hq in HQ. simpl in HQ. by rewrite Hf in HQ.
Qed.

Section Declare.
Variables (c0 c : Compiler) (p q : nat) (x : Symbol) (max : Z) (xs : list Symbol) (slots : list Z).
Hypothesis I : inner c0 c p.
Hypothesis Hq : c_currentFunction c = Some q.
#[local] Notation c1 := (add_local x q max c).
#[local] Notation ls := (mkLocalSymbol x PARSEDECL_VARIABLE (local_count c) false false false false p 0 None).
#[local] Notation c2 := (define p x ls c1).

Lemma declare_count : local_count c2 = local_count c + 1.
Proof.
  destruct I as [[(q' & f & Hq' & Hf & _) _ _] _ _ _ _]. rewrite Hq in Hq'. injection Hq' as <-.
  unfold local_count, define, add_local. simpl. rewrite Hq. simpl. rewrite list_lookup_alter_eq, Hf. simpl.
  by rewrite zlen_app.
Qed.

Lemma declare_functions : functions_grow (c_functions c) (c_functions c2).
Proof.
  intros r f Hf. unfold define, add_local. simpl. destruct (decide (q = r)) as [<-|].
  - rewrite list_lookup_alter_eq, Hf. eexists. repeat split. simpl. by apply prefix_app_r.
  - rewrite list_lookup_alter_ne by done. exists f. by repeat split.
Qed.

Lemma declare_inner : inner c0 c2 p.
Proof.
  pose proof declare_functions as Hfn. destruct I as [[(q' & f & Hq' & Hf & Hl) Hold Hcur] S Hp Hn (s & Hs & Hsf & Hpar)].
  assert (Hlen : length (c_scopes c2) = length (c_scopes c)) by (simpl; apply length_alter).
  split; [split| |done|done|].
  - destruct (Hfn q' f Hf) as (f' & Hf' & _). exists q'.
    rewrite Hq in Hq'. injection Hq' as <-. simpl. rewrite list_lookup_alter_eq, Hf. by eexists.
  - intros r t u Hr Hu. simpl in Hr. destruct (decide (p = r)) as [<-|].
    + rewrite list_lookup_alter_eq, Hs in Hr. injection Hr as <-. by apply (Hold p s).
    + rewrite list_lookup_alter_ne in Hr by done. by apply (Hold r t).
  - intros r Hr. rewrite Hlen. by apply Hcur.
  - destruct S as [S1 S2 S3 [new S4] S5 S6 S7 S8 S9]. split; simpl; try done.
    + rewrite S4, alter_app_r_alt by done. by apply prefix_app_r.
    + eapply keeps_trans; [exact S5|apply keeps_app].
    + by eapply functions_grow_trans.
  - eexists. simpl. rewrite list_lookup_alter_eq, Hs. split; [reflexivity|done].
Qed.

Lemma declare_scoped : scoped c xs slots ->
  scoped c2 (x :: xs) (slot_of true (local_count c) :: slots).
Proof.
  intros [Hl Hd Hb Hn]. pose proof declare_count as Hcount. pose proof run_locals_ok.
  destruct I as [[(q' & f & Hq' & Hf & _) _ _] S Hp Hnew (s & Hs & Hsf & Hpar)].
  assert (Hcnt : 0 <= local_count c) by (unfold local_count; rewrite Hq'; simpl; rewrite Hf; apply zlen_nonneg).
  assert (Hlen : length (c_scopes c) <> O) by (apply lookup_lt_Some in Hs; lia).
  split.
  - simpl. by rewrite Hl.
  - apply NoDup_cons. split; [|done]. intros Hin. rewrite Forall_forall in Hb. specialize (Hb _ Hin).
    simpl in Hb. unfold slot_of in Hb. lia.
  - rewrite Hcount. constructor; [unfold slot_of; lia|].
    eapply Forall_impl; [exact Hb|]. intros i Hi. simpl in *. lia.
  - intros y k Hk. simpl in Hk. destruct (Z.eqb_spec x y) as [<-|Hne].
    + injection Hk as <-. exists (slot_of true (local_count c)). split; [done|].
      exists (length (c_localSymbols c)), ls. eexists. exists q, true.
      split; [|split; [by apply list_lookup_middle|]].
      * unfold meaning, define. simpl. rewrite length_alter. destruct (length (c_scopes c)); [done|].
        simpl. rewrite Hp, list_lookup_alter_eq, Hs. simpl. by rewrite lookup_insert_eq.
      * simpl. rewrite list_lookup_alter_eq, Hs. simpl. split; [done|]. rewrite Hsf. by repeat split.
    + destruct (index_of y xs) as [j|] eqn:Ej; [|done]. injection Hk as <-.
      destruct (Hn y j Ej) as (i & Hi & Hden). exists i. split; [done|].
      apply (denotes_as c _ y); [|done|apply keeps_app|apply keeps_function; done|done].
      intros r. unfold meaning, define. simpl. rewrite length_alter, FindSymbol_alter by done. done.
Qed.
End Declare.

Lemma inner_end c0 c p (Q : unit -> Compiler -> Prop) : ready c0 -> inner c0 c p ->
  (forall c', after c0 c' -> c_nextId c' = c_nextId c -> (space c' -> space c) -> Q tt c') ->
  wp Compiler_EndScope c Q.
Proof.
  intros R0 [R S Hp Hn (s & Hs & Hf & Hpar)] HQ. unfold wp. rewrite (EndScope_eq c p s Hp Hs).
  apply HQ; [|done|done]. destruct R as [Hfn Hold Hcur], R0 as [_ _ Hcur0], S as [S1 S2 S3 S4 S5 S6 S7 S8 S9].
  split; [by split|done|split; simpl; [done|done|]].
  intros r Hr. rewrite Hpar in Hr. apply Hcur0 in Hr. apply prefix_length in S4. lia.
Qed.

(** ** The declarations *)

Definition nulls (xs : list Symbol) : Env := (fun x => (x, VNull)) <$> xs.

(** The code [l] adds the names [new], as null, to the frame. *)
Record enters (lo : nat) (c : Compiler) (xs : list Symbol) (slots : list Z) (new : list Symbol)
  (slots' : list Z) (l : list IntermediateInstruction) : Prop := {
  e_fresh : fresh lo (c_nextId c) (ids l);
  e_lo : (lo <= c_nextId c)%nat;
  e_slots : exists added, slots' = added ++ slots /\ length added = length new;
  e_moves : space c -> forall env p stack, env.*1 = xs -> placed p l ->
    moves p slots env stack (p + size l) slots' (nulls new ++ env) stack
}.

Lemma enters_nil c xs slots : enters (c_nextId c) c xs slots [] slots [].
Proof.
  split; [|done|by exists []|].
  - split; [apply NoDup_nil_2|]. intros i Hi. by apply elem_of_nil in Hi.
  - intros _ env p stack _ _. rewrite size_nil, Z.add_0_r. apply moves_refl.
Qed.

Lemma enters_step lo c c' xs slots new slots' l x loc p0 q max :
  enters lo c xs slots new slots' l -> inner p0 c q -> scoped c (new ++ xs) slots' ->
  c_nextId c' = S max -> (c_nextId c <= max)%nat ->
  (space c' -> space c /\ local_count c < local_count c') -> 
  enters lo c' xs slots (x :: new) (slot_of true (local_count c) :: slots')
    (l ++ [Instr max Op_NullLoc0 loc (set_index zero (local_count c)) None 0]).
Proof.
  intros [F Hlo (added & -> & Hadd) Hm] I Hsc N Hmax Hsp. split; [|lia| |].
  - rewrite ids_app, ids_instr, N. fresh_solve.
  - exists (slot_of true (local_count c) :: added). split; [done|]. simpl. by rewrite Hadd.
  - intros Hs env p stack Hxs Hp. destruct (Hsp Hs) as [Hs0 Hlt]. apply placed_app in Hp as [Hl Hi].
    eapply moves_trans; [by apply Hm|]. rewrite size_app, size_instr, Z.add_assoc.
    destruct Hs as (Hna & Hv & Hlc & Hvar), Hsc as [_ Hd Hb _]. pose proof run_locals_ok.
    assert (Hcnt : 0 <= local_count c).
    { destruct (i_ready _ _ _ I) as [(r & f & Hr & Hf & _) _ _].
      unfold local_count. rewrite Hr. simpl. rewrite Hf. apply zlen_nonneg. }
    eapply moves_declare; [exact (placed_instr _ _ _ _ _ _ _ Hi eq_refl)| | | |done].
    + unfold inS. change (64 - 1) with 63. lia.
    + unfold slot_of. lia.
    + intros Hin. rewrite Forall_forall in Hb. specialize (Hb _ Hin). simpl in Hb. unfold slot_of in Hb. lia.
Qed.

Lemma wp_Scope_vars c0 p xs slots lo vars : forall names, scope_names vars = Some names ->
  forall symbol c new slots' l b0 (Q : CompiledBlock * Expr -> Compiler -> Prop),
  inner c0 c p -> scoped c (new ++ xs) slots' -> built l 0 0 b0 -> enters lo c xs slots new slots' l ->
  (forall b c' slots'' l', inner c0 c' p -> scoped c' ((reverse names ++ new) ++ xs) slots'' ->
     built l' 0 0 b -> enters lo c' xs slots (reverse names ++ new) slots'' l' ->
     (l' = [] -> l = [] /\ isList vars = false) -> Q (b, ENull) c') ->
  wp (Scope_vars p symbol b0 vars) c Q.
Proof.
  induction vars as [| | | | | | | | | | | | | | | | |a _ d IH s]; intros names Hn osym c new slots' l b0 Q I Hsc B He HQ;
    try discriminate Hn.
  - injection Hn as <-. simpl. apply wp_ret. by eapply HQ.
  - destruct a as [| | | | | | | | | | | | | |x| | |]; try discriminate Hn. simpl in Hn.
    destruct (scope_names d) as [ns|] eqn:Ed; [|done]. injection Hn as <-. cbn [Scope_vars Compiler_DecodeScopeVariable].
    apply wp_bind, wp_ret, wp_bind, (wp_need _ x); [done|].
    apply wp_bind, wp_AddLocal; [apply I|]. intros q max Hq. apply wp_bind.
    change (wp (CompileScope_DefineSymbol ?a ?b ?k ?i) ?st ?K) with
      (K (length (c_localSymbols st)) (define a b (mkLocalSymbol b k i false false false false a 0 None) st)).
    pose proof (declare_inner c0 c p q x max I Hq) as I1. pose proof (declare_scoped c0 c p q x max _ _ I Hq Hsc) as Hsc1.
    pose proof (declare_count c0 c p q x max I Hq) as Hcount.
    set (c1 := define _ _ _ _) in *. assert (N1 : c_nextId c1 = c_nextId c) by done. clearbody c1.
    apply wp_bind, wp_SetSourceLocationFromList; [apply I1|]. intros o c2 A2 _.
    apply wp_bind. eapply wp_EMIT1; [apply A2|exact B|]. intros loc b c3 A3 N3 B3.
    assert (A13 : after c1 c3) by (by eapply after_trans). pose proof (after_nextId _ _ A2).
    eapply (IH ns eq_refl _ c3 (x :: new)); [by eapply inner_after|eapply scoped_after; [apply I1|done..]|exact B3| |].
    + eapply enters_step; [exact He|exact I|exact Hsc|exact N3|lia|].
      intros Hsp. pose proof (space_after c1 c3 (i_ready _ _ _ I1) A13 Hsp) as (? & ? & ? & ?).
      pose proof (local_count_after c1 c3 (i_ready _ _ _ I1) (a_steady _ _ A13)).
      split; [unfold space|]; lia.
    + intros b' c' slots'' l' I' Hsc' B' He' Hne.
      rewrite reverse_cons, <- (app_assoc (reverse ns) [x] new) in HQ.
      eapply HQ; [exact I'|exact Hsc'|exact B'|exact He'|].
      intros Hnil. destruct (Hne Hnil) as [Hnil' _]. by apply app_eq_nil in Hnil' as [_ ?].
Qed.

(** ** The scope *)

Lemma built_Combine l1 b1 b : built l1 0 0 b1 -> l1 <> [] -> sane b ->
  built (l1 ++ instrs b) (finalStackDelta b) (maxStackDepth b) (CompiledBlock_Combine b1 b).
Proof.
  intros (Bi & Bd & Bm & Be) Hne S. unfold CompiledBlock_Combine. destruct (instrs b) as [|i li] eqn:Ei.
  - rewrite app_nil_r. destruct (sn_empty _ S Ei) as [-> ->]. done.
  - rewrite Bi. destruct l1 as [|i1 l1]; [done|]. unfold built. simpl. rewrite Bd, Bm, Be.
    repeat split. rewrite Z.gtb_ltb. destruct (Z.ltb_spec 0 (maxStackDepth b)); [done|].
    pose proof (sn_depth _ S). lia.
Qed.

Lemma nulls_names xs env : (nulls xs ++ env).*1 = xs ++ env.*1.
Proof. unfold nulls. rewrite fmap_app, <- list_fmap_compose. f_equal. by rewrite list_fmap_id. Qed.

Lemma evals_scope vars names rest s1 s2 env v env' :
  scope_names vars = Some names ->
  evals (ECons (ESymbol SYMBOL__SCOPE) (ECons vars rest s2) s1) env v env' ->
  exists env1, evals_seq (nulls (reverse names) ++ env) rest v env1 /\ env' = drop (length names) env1.
Proof.
  intros Hn [[|n] H]; [done|]. simpl in H. unfold eval_form in H. simpl in H.
  unfold eval_scope in H. rewrite Hn in H. simpl in H. fold (nulls (reverse names)) in H.
  destruct (eval_sequence (eval n) (nulls (reverse names) ++ env) rest) as [[w env1]|] eqn:Es; [|done].
  injection H as <- <-. exists env1. split; [by exists n|done].
Qed.

(** The body runs in the larger frame, whose names are forgotten afterwards. *)
Lemma runs_scope slots slots' l1 l2 need xs names env env1 (out : list Value) :
  env1.*1 = reverse names ++ xs ->
  (exists added, slots' = added ++ slots /\ length added = length (reverse names)) ->
  (forall p stack, placed p l1 ->
     moves p slots env stack (p + size l1) slots' (nulls (reverse names) ++ env) stack) ->
  runs slots' l2 need (nulls (reverse names) ++ env) [] env1 out ->
  (drop (length names) env1).*1 = xs
  /\ runs slots (l1 ++ l2) need env [] (drop (length names) env1) out.
Proof.
  intros Hn1 (added & -> & Hadd) Henter Hbody. rewrite length_reverse in Hadd. split.
  { rewrite fmap_drop, Hn1. rewrite <- (length_reverse names). apply drop_app_length. }
  intros p stack Hp Hr. apply placed_app in Hp as [Hp1 Hp2].
  pose proof (moves_trans _ _ _ _ _ _ _ _ _ _ _ _ (Henter p (stack ++ []) Hp1)
    (Hbody _ stack Hp2 Hr)) as Hm.
  rewrite size_app, Z.add_assoc. intros cl F. destruct (Hm cl F) as (cl' & G & F'). exists cl'. split; [done|].
  rewrite <- (take_drop (length names) env1) in F'. eapply frame_forget; [|exact F'].
  rewrite Hadd, length_take. apply (f_equal length) in Hn1.
  rewrite length_fmap, length_app, length_reverse in Hn1. lia.
Qed.

Lemma correct_scope CE vars names rest xs noResult s1 s2 :
  scope_names vars = Some names -> isList vars = true -> is_sequence rest = true ->
  sequence_ok CE (reverse names ++ xs) noResult rest ->
  correct xs noResult (evals (ECons (ESymbol SYMBOL__SCOPE) (ECons vars rest s2) s1)) (isList rest)
    (Compiler_CompileScope CE (ECons vars rest s2) noResult).
Proof.
  intros Hnames Hlist Hrest IH c slots R Hsc.
  pose proof (fun env v env' => evals_scope vars names rest s1 s2 env v env' Hnames) as Hev.
  unfold Compiler_CompileScope.
  destruct vars as [| | | | | | | | | | | | | | | | |a d s]; try discriminate Hlist.
  unfold is_sequence in Hrest. rewrite Hrest.
  set (p := length (c_scopes c)). set (c1 := begin_scope PARSESCOPE_SCOPEDECL c).
  apply wp_bind. change (wp (Compiler_BeginScope ?k) ?st ?K) with (K (length (c_scopes st)) (begin_scope k st)).
  cbv beta. fold p c1. pose proof (inner_begin PARSESCOPE_SCOPEDECL c R) as I1.
  pose proof (begin_scoped PARSESCOPE_SCOPEDECL c xs slots R Hsc) as Hsc1. fold p c1 in I1, Hsc1.
  assert (N1 : c_nextId c1 = c_nextId c) by done. clearbody c1 p.
  apply wp_bind.
  eapply (wp_Scope_vars c p xs slots _ _ _ Hnames _ _ []); [exact I1|exact Hsc1|apply built_Create|apply enters_nil|].
  intros b0 c2 slots' l I2 Hsc2 B0 [Hf Hlo Hslots Hm] Hne. rewrite app_nil_r in *.
  assert (Hl : l <> []) by (intros Hl; by destruct (Hne Hl)).
  apply wp_bind, wp_SetSourceLocationFromList; [apply I2|]. intros o c3 A3 _.
  pose proof (inner_after _ _ _ _ I2 A3) as I3.
  apply wp_bind. eapply wp_mono;
    [apply (correct_sequence CE (reverse names ++ xs) noResult rest IH); [apply A3|exact (scoped_after _ _ _ _ (i_ready _ _ _ I2) A3 Hsc2)]|].
  intros b c4 (C4 & Hnull & Hone). pose proof C4 as [A4 S4 F4 R4]. pose proof (inner_after _ _ _ _ I3 A4) as I4.
  apply wp_bind. eapply inner_end; [exact R|exact I4|]. intros c5 A5 N5 Hsp5. apply wp_ret.
  pose proof (built_Combine _ _ b B0 Hl S4) as B. pose proof B as (Bi & Bd & Bm & _).
  pose proof (after_nextId _ _ A3). pose proof (after_nextId _ _ A4). split; [|split].
  - split; [done| | |].
    + eapply sane_built; [exact B|apply S4..|]. intros Hnil. by apply app_eq_nil in Hnil as [? _].
    + rewrite Bi, N5, ids_app. fresh_solve.
    + intros Hsp env v env' He Hxs. destruct (Hev env v env' He) as (env1 & Hseq & ->).
      pose proof (Hsp5 Hsp) as Hsp4.
      assert (Hsp2 : space c2) by (eapply (space_after c2 c4); [apply I2|by eapply after_trans|done]).
      destruct (R4 Hsp4 _ v env1 Hseq) as [Hxs1 Hruns]; [by rewrite nulls_names, Hxs|].
      rewrite Bi, Bm. unfold result in *. rewrite Bd.
      eapply runs_scope; [done|done|intros q stack Hq; by apply Hm|exact Hruns].
  - intros Hno Hd env v env' He. destruct (Hev env v env' He) as (env1 & Hseq & ->).
    rewrite Bd in Hd. by eapply Hnull.
  - intros Hno Hlr. rewrite Bd. auto.
Qed.

End CompileLoops.
