(* ===== verification/ProgramCorrect.v ===== *)
(** * ProgramCorrect: the compiler and the machine, end to end

    Every supported expression compiles to code that computes what [Reference]
    says; and a whole program that is compiled by [Compiler_CompileGlobal] and run
    by [Eval_Run] returns the value of its expression. *)

From S2P Require Import Prelude Opcode ByteCode CompiledBlock Object Expr Closure.
From S2P Require Import Machine FnCall Eval EvalProps.
From S2P Require Import Compiler KnownSymbols CompileForms CompilerInvariant CompilerProps Reference RunBlock CompileSteps.
From S2P Require Import CompileCorrect CompileCore CompileControl CompileLoops.
Import Operand.

Scheme supported_mind := Minimality for supported Sort Prop
  with supported_seq_mind := Minimality for supported_seq Sort Prop
  with supported_each_mind := Minimality for supported_each Sort Prop
  with supported_tests_mind := Minimality for supported_tests Sort Prop.

Section Expressions.
Context {OE : ObjectEnv} {E : CompilerEnv} {X : Run}.
#[local] Notation Meaning := (Env -> Value -> Env -> Prop).

(** A standard form, between the changes of the source location. *)
Lemma correct_form CE s args s1 xs noResult (ev : Meaning) leaves m :
  is_sequence args = true -> Compiler_CompileStandardForm CE s args noResult = Some m ->
  correct xs noResult ev leaves m ->
  correct xs noResult ev leaves (CompileExpr_body CE (ECons (ESymbol s) args s1) noResult).
Proof.
  intros Hargs Hm H. unfold is_sequence in Hargs. simpl. unfold CompileList. rewrite Hargs, Hm. simpl.
  by apply (correct_located xs noResult ev leaves m (ECons (ESymbol s) args s1)).
Qed.

Lemma height_StripNots c : (height (fst (Compiler_StripNots c)) <= height c)%nat.
Proof.
  enough (H : forall n c, (height c <= n)%nat -> (height (fst (Compiler_StripNots c)) <= height c)%nat) by (by eapply H).
  clear c. intros n. induction n as [|n IH]; intros c Hn.
  - by destruct c; simpl in *; try lia.
  - destruct c as [| | | | | | | | | | | | | | | | |a d s]; try done.
    destruct a as [| | | | | | | | | | | | | |x| | |]; try done.
    destruct d as [| | | | | | | | | | | | | | | | |e d s']; try done. destruct d; try done.
    cbn [Compiler_StripNots]. destruct (x =? sym_not); [|done].
    cbn [height] in *. specialize (IH e ltac:(lia)). destruct (Compiler_StripNots e) as [y k]. simpl in *. lia.
Qed.

Lemma literal_body CE CE' e v noResult :
  literal e = Some v -> CompileExpr_body CE e noResult = CompileExpr_body CE' e noResult.
Proof. by destruct e. Qed.

Ltac fuel f :=
  destruct f as [|f]; [lia|]; cbn [height Compiler_CompileExpr] in *.

#[local] Notation Compile := Compiler_CompileExpr.

(** The compiler is right about every supported expression. *)
Lemma CompileExpr_correct xs noResult e : supported xs noResult e ->
  forall f, (height e < f)%nat -> correct xs noResult (evals e) (leaves_value e) (Compile f e noResult).
Proof.
  revert xs noResult e.
  apply (supported_mind _
    (fun xs noResult e => forall f, (height e < f)%nat ->
       correct xs noResult (evals e) (leaves_value e) (Compile f e noResult))
    (fun xs noResult args => forall f, (height args < f)%nat -> sequence_ok (Compile f) xs noResult args)
    (fun xs noResult args => noResult = false -> forall f, (height args < f)%nat -> each_ok (Compile f) xs args)
    (fun xs args => forall f, (height args < f)%nat -> tests_ok (Compile f) xs args)).
  - intros xs noResult e v He f Hf. fuel f. replace (leaves_value e) with true by by destruct e.
    by eapply correct_literal.
  - intros xs noResult x Hx f Hf. fuel f. by apply correct_variable.
  - intros xs noResult a v s1 s2 Hq f Hf. fuel f. fuel f. eapply correct_form; [done|reflexivity|].
    eapply correct_quote; [exact Hq|]. intros r. destruct (isSymbol a) eqn:Es; [by destruct a|].
    cbn [Compile]. eapply (literal_body _ _ _ v). by destruct a.
  - intros xs noResult x e s1 s2 s3 Hx He IH f Hf. fuel f. eapply correct_form; [done|reflexivity|].
    eapply correct_set; [done|]. apply IH. lia.
  - intros xs noResult args s1 Hseq _ IH f Hf. fuel f. eapply correct_form; [done|reflexivity|].
    eapply correct_mono; [apply correct_sequence, IH; lia| |done].
    intros env v env' [[|n] H]; [done|]. by exists n.
  - intros xs noResult a rest s1 s2 Ha IH Hrest IHrest f Hf. fuel f. eapply correct_form; [done|reflexivity|].
    eapply correct_prog1; [apply IH; lia|apply IHrest; [done|lia]].
  - intros xs noResult condition thenClause elseClause rest s1 s2 s3 Hel Hc IHc Hc' IHc' Ht IHt He IHe f Hf.
    fuel f. pose proof (height_StripNots condition). eapply correct_form; [done|reflexivity|].
    assert (Hh : (height elseClause <= height rest)%nat).
    { unfold If_else in Hel. destruct rest as [| | | | | | | | | | | | | | | | |x d s]; try done; [by injection Hel as <-|].
      destruct d; try done. injection Hel as <-. simpl. lia. }
    eapply correct_if; [done|apply IHc; lia|apply IHc'; lia|apply IHt; lia|apply IHe; lia].
  - intros xs noResult args s1 Hlen Ht IH f Hf. fuel f.
    assert (Ha : is_sequence args = true) by by destruct args.
    eapply correct_form; [done|reflexivity|].
    apply (correct_and_or _ false); [done|apply IH; lia|]. intros env v env' He. by eapply (evals_and_or false).
  - intros xs noResult args s1 Hlen Ht IH f Hf. fuel f.
    assert (Ha : is_sequence args = true) by by destruct args.
    eapply correct_form; [done|reflexivity|].
    apply (correct_and_or _ true); [done|apply IH; lia|]. intros env v env' He. by eapply (evals_and_or true).
  - intros xs noResult a s1 s2 Ha IH f Hf. fuel f. eapply correct_form; [done|reflexivity|].
    eapply correct_not. apply IH. lia.
  - intros xs s a b s1 s2 s3 Hs Ha IHa Hb IHb Hla Hlb f Hf. fuel f.
    specialize (IHa f ltac:(lia)). specialize (IHb f ltac:(lia)). rewrite Hla in IHa. rewrite Hlb in IHb.
    destruct Hs as [-> | ->]; (eapply correct_form; [done|reflexivity|]).
    + eapply (correct_equal _ SYMBOL__EQ); [by left|done|done].
    + eapply (correct_equal _ SYMBOL__NE); [by right|done|done].
  - intros xs args preClause condition postClause s1 Hparts Hp IHp Hc IHc Hq IHq f Hf. fuel f.
    pose proof (height_StripNots condition).
    assert (Hh : is_sequence args = true /\ (height preClause < height args)%nat
      /\ (height condition < height args)%nat /\ (height postClause < height args)%nat).
    { unfold While_parts in Hparts. destruct args as [| | | | | | | | | | | | | | | | |x d s]; try done.
      destruct d as [| | | | | | | | | | | | | | | | |y d' s']; try done.
      destruct d' as [| | | | | | | | | | | | | | | | |z d'' s'']; try done.
      - injection Hparts as <- <- <-. simpl. repeat split; lia.
      - destruct d''; try done. injection Hparts as <- <- <-. simpl. repeat split; lia. }
    destruct Hh as (Hseq & ? & ? & ?). eapply correct_form; [done|reflexivity|].
    eapply correct_while; [exact Hparts|apply IHp; lia|apply IHc; lia|apply IHq; lia].
  - intros xs noResult vars names rest s1 s2 Hn Hl Hr _ IH f Hf. fuel f. eapply correct_form; [done|reflexivity|].
    eapply correct_scope; [done..|]. apply IH. lia.
  - intros xs noResult args Hn f Hf Hl. congruence.
  - intros xs noResult a next s Hn Ha IH f Hf. cbn [height] in Hf. eapply sequence_last; [done|]. apply IH. lia.
  - intros xs noResult a next s Hn Ha IH _ IHn f Hf. cbn [height] in Hf.
    eapply sequence_cons; [done|apply IH; lia|apply IHn; lia].
  - intros xs noResult args Hn _ f Hf. by apply each_nil.
  - intros xs noResult a next s Ha IH _ IHn -> f Hf. cbn [height] in Hf.
    eapply each_app; [apply IH; lia|apply IHn; [done|lia]].
  - intros xs args Hn f Hf. by apply tests_nil.
  - intros xs a next s Ha IH _ IHn f Hf. cbn [height] in Hf. pose proof (height_StripNots a).
    eapply tests_cons; [apply IH; lia|apply IHn; lia].
Qed.

(** ** The code of a program *)

(** The block of the global function, as [Compiler_CompileGlobal] finishes it. *)
Definition global_block (e : Expr) : M CompiledBlock :=
  compiledBlock ← Compile (S (height e)) e false;
  compiledBlock ← Compiler_EmitRequireResult compiledBlock;
  Compiler_RevertSourceLocation 0 ;;
  EMIT0 compiledBlock Op_Ret (-1).

Lemma wp_global_block e c : supported [] false e -> ready c ->
  wp (global_block e) c (fun b c' => after c c' /\ exists l id loc,
    instrs b = l ++ [Instr id Op_Ret loc zero None 0] /\ fresh (c_nextId c) (c_nextId c') (ids (instrs b))
    /\ 0 <= maxStackDepth b
    /\ (space c' -> forall v env', evals e [] v env' -> runs [] l (maxStackDepth b) [] [] env' [v])).
Proof.
  intros Hs R. unfold global_block.
  assert (Hsc : scoped c [] []) by (by split; [|constructor|constructor|]).
  assert (H0 : valid 0 c) by (destruct R as [(q & f & _ & _ & Hl) _ _]; unfold valid; lia).
  pose proof (CompileExpr_correct [] false e Hs (S (height e)) ltac:(lia)) as IH.
  apply (wp_matched (Compile (S (height e))) e false c [] [] _ _ _ IH R Hsc).
  intros b c1 C1 D1. pose proof C1 as [A1 S1 F1 R1].
  apply wp_bind, wp_Revert; [apply A1|exact (after_valid _ _ _ A1 H0)|]. intros c2 A2.
  eapply wp_EMIT1; [apply A2|by apply built_self|]. intros loc b' c3 A3 N3 (Bi & Bd & Bm & _).
  split; [chain|]. exists (instrs b), (c_nextId c2), loc. split; [done|].
  pose proof (after_nextId _ _ A1). pose proof (after_nextId _ _ A2). split; [|split].
  - rewrite Bi, ids_app, ids_instr, N3. fresh_solve.
  - rewrite Bm. pose proof (sn_depth _ S1). lia.
  - intros Hsp v env' He.
    assert (Hsp1 : space c1) by (eapply (space_after c1 c3); [apply A1|by eapply after_trans|done]).
    destruct (R1 Hsp1 [] v env' He eq_refl) as [_ Hruns]. rewrite (result_1 _ D1) in Hruns.
    eapply runs_weaken; [exact Hruns|]. rewrite Bm. lia.
Qed.

End Expressions.

(** ** The machine it runs on *)

(** The object a value is boxed as. *)
Definition boxed (h : Heap) (v : Value) : Heap * SmileObject :=
  match v with
  | VNull => (h, NullObject)
  | VScalar KBool u => (h, BooleanObj (negb (u =? 0)))
  | VScalar k u => heap_alloc h (HScalar k u)
  end.

Lemma represents_boxed {OE : ObjectEnv} h arg v : represents arg v -> SmileArg_Box h arg = Ok (boxed h v).
Proof.
  destruct v as [|k u]; [by unfold SmileArg_Box; intros ->|]. intros (Ho & Hu & Hb). unfold SmileArg_Box.
  rewrite Ho. destruct k; rewrite ?Hu; try done.
  change (get_byte (unboxed arg)) with (scalar_bits KBool (unboxed arg)). rewrite Hu.
  by destruct (Hb eq_refl) as [-> | ->].
Qed.

Section Running.
Context {OE : ObjectEnv} {E : CompilerEnv}.
Variables (P : Program) (seg : ByteCodeSegment) (s : Store) (h : Heap) (gci : nat)
  (fn : Machine.UserFunctionInfo) (i : Closure.ClosureInfo) (b : CompiledBlock).
Hypothesis Hseg : segments P !! uf_byteCodeSegment fn = Some seg.
Hypothesis Hinfo : infos s !! uf_closureInfo fn = Some i.
Hypothesis Hargs : numArgs i = 0.
Hypothesis Hvars : 0 <= numVariables i.
Hypothesis Htemp : 0 <= tempSize i.
Hypothesis Hcode : ByteCodeSegment_code seg = assemble (address_of (block_labels 0 b)) 0 b.
Hypothesis Hlen : zlen (byteCodes seg) = block_size b.
Hypothesis Hnum : numByteCodes seg = block_size b.
Hypothesis Hsize : block_size b < 2 ^ 24.

#[local] Notation g := (length (closures s)).

Definition program_closure : Closure :=
  mkClosure (Some g) (Some g) (Some (uf_closureInfo fn)) None None 0 (numArgs i) (numVariables i)
    (replicate (Z.to_nat (numVariables i + tempSize i)) SmileArg_zero) None.

Definition program_store : Store :=
  set_closures (closures (fst (Closure_CreateGlobal s gci None)) ++ [program_closure]) s.

Lemma program_start :
  Eval_Run_start s h gci fn
  = Ok (mkMachine program_store h (S g) (uf_byteCodeSegment fn) 0).
Proof.
  unfold Eval_Run_start. simpl. unfold Closure_CreateLocal. simpl. rewrite Hinfo. simpl.
  rewrite list_lookup_middle by done. simpl. rewrite length_app. simpl.
  rewrite Nat.add_1_r. done.
Qed.

Lemma program_closure_at : closures program_store !! S g = Some program_closure.
Proof. simpl. apply list_lookup_middle. rewrite length_app. simpl. lia. Qed.

Lemma program_label id : 0 <= address_of (block_labels 0 b) id < 2 ^ 62.
Proof.
  pose proof (block_size_nonneg false b). fold (block_size b) in *.
  pose proof (address_range (block_labels 0 b) (block_size b) id ltac:(done) (labels_range 0 b)). lia.
Qed.

Lemma program_size : zlen (byteCodes seg) < 2 ^ 62.
Proof. rewrite Hlen. lia. Qed.

Lemma program_locals : 0 <= locals program_closure.
Proof. simpl. lia. Qed.

Definition program_run : Run := {|
  run_program := P; run_segment := uf_byteCodeSegment fn; run_code := seg; run_code_ok := Hseg;
  run_store := program_store; run_heap := h; run_cur := S g; run_closure := program_closure;
  run_closure_ok := program_closure_at; run_locals_ok := program_locals;
  run_variables := numVariables i; run_variables_ok := Hvars;
  run_label := address_of (block_labels 0 b); run_label_ok := program_label; run_code_size := program_size |}.

#[local] Existing Instance program_run.

Lemma program_placed : NoDup (ids (instrs b)) -> placed 0 (instrs b).
Proof.
  intros Hnd. split.
  - intros k x Hk. rewrite <- assemble_leaves in Hk. change run_label with (address_of (block_labels 0 b)) in Hk.
    rewrite <- Hcode in Hk. unfold code_at, zget. rewrite Z.add_0_l.
    destruct (Z.ltb_spec (Z.of_nat k) 0); [lia|]. rewrite Nat2Z.id.
    unfold ByteCodeSegment_code in Hk. by apply lookup_take_Some in Hk as [Hk _].
  - intros id a Hin. simpl. rewrite <- block_labels_leaves in Hin.
    apply address_of_label; [|done]. rewrite labels_ids. destruct b. exact Hnd.
Qed.

Lemma program_frame : frame [] [] [] program_closure.
Proof. split; try done. simpl. by rewrite Z.add_0_r. Qed.

Lemma program_returns l id loc need v env' :
  instrs b = l ++ [Instr id Op_Ret loc zero None 0] -> NoDup (ids (instrs b)) -> need <= tempSize i ->
  runs [] l need [] [] env' [v] ->
  exists fuel m, Eval_RunCore P fuel (mkMachine program_store h (S g) (uf_byteCodeSegment fn) 0) = Returned m
    /\ Eval_Continue_value (Returned m) = Ok (boxed h v).
Proof.
  intros Hb Hnd Hneed Hruns. pose proof (program_placed Hnd) as Hp. rewrite Hb in Hp.
  apply placed_app in Hp as [Hl Hret].
  destruct (Hruns 0 [] Hl) with (cl := program_closure) as (cl & [n G] & F).
  { unfold room. cbn [run_variables run_closure program_run program_closure variables].
    rewrite zlen_replicate. change (zlen (@nil Value)) with 0. lia. }
  { exact program_frame. }
  apply (placed_instr _ _ _ _ _ _ _) in Hret; [|done].
  assert (Hat : at_ program_closure 0 = mkMachine program_store h (S g) (uf_byteCodeSegment fn) 0).
  { unfold at_. cbn [run_store run_cur run_closure run_heap run_segment program_run]. unfold update_closure.
    by rewrite (list_insert_id _ _ _ program_closure_at). }
  assert (Hstep : step P (at_ cl (0 + size l)) = Returned (at_ cl (0 + size l))).
  { unfold step, fetch. cbn [at_ segment]. change run_segment with (uf_byteCodeSegment fn). rewrite Hseg. simpl.
    unfold code_at in Hret. change run_code with seg in Hret. rewrite Hret. simpl.
    match goal with |- ?x = _ => change x with (do_return P (at_ cl (0 + size l))) end.
    unfold do_return. rewrite cur_at. cbn [mbind]. rewrite (f_static _ _ _ _ F). done. }
  exists (n + 1)%nat, (at_ cl (0 + size l)). split.
  - rewrite <- Hat. change P with run_program. rewrite G. simpl. change run_program with P. by rewrite Hstep.
  - unfold Eval_Continue_value. rewrite cur_at. cbn [Result_bind].
    destruct (frame_pop [] env' [] cl v F) as (arg & cl' & Epop & Hr & _). rewrite Epop. cbn [Result_bind].
    by apply represents_boxed.
Qed.
End Running.

(** ** What the compiler leaves *)

Section Compiling.
Context {OE : ObjectEnv} {E : CompilerEnv}.

(** A function without arguments, described. *)
Lemma SetupClosureInfo_COk q c r c' f :
  Compiler_SetupClosureInfoForCompilerFunction q c = COk r c' -> c_functions c !! q = Some f ->
  cf_numArgs f = 0 -> 0 <= cf_stackSize f ->
  r = cf_closureInfo f /\ zlen (cf_localNames f) <= 16383
  /\ exists k, c' = upd_c_closureInfos k c
  /\ forall info, c_closureInfos c' !! r = Some info ->
       ci_numArgs info = 0 /\ ci_numVariables info = zlen (cf_localNames f)
       /\ ci_tempSize info = cf_stackSize f.
Proof.
  intros H Hf Hn Hst. unfold Compiler_SetupClosureInfoForCompilerFunction in H.
  apply bind_COk in H as (f' & c1 & H1 & H). unfold load, mbind, M_bind, get, need in H1. rewrite Hf in H1.
  injection H1 as <- <-. rewrite Hn in H. cbv zeta in H.
  apply bind_COk in H as ([] & c2 & [= <-] & H).
  apply bind_COk in H as ([] & c2 & H2 & H). rewrite Z.gtb_ltb in H2.
  destruct (Z.ltb_spec (Int16Max / 2) (zlen (cf_localNames f))) as [|Hl]; [done|]. injection H2 as <-.
  apply bind_COk in H as ([] & c2 & H2 & H). rewrite Z.gtb_ltb in H2.
  destruct (Z.ltb_spec Int16Max (cf_stackSize f)) as [|Hs]; [done|]. injection H2 as <-.
  rewrite andb_false_r in H.
  apply bind_COk in H as (? & c2 & [= <- <-] & H).
  apply bind_COk in H as ([] & c2 & H2 & H). unfold assert in H2. destruct (_ <=? _); [|done]. injection H2 as <-.
  apply bind_COk in H as ([] & c2 & [= <-] & [= <- <-]).
  change (Int16Max / 2) with 16383 in Hl. change Int16Max with 32767 in Hs.
  split; [done|]. split; [done|]. eexists. split; [reflexivity|].
  intros info Hi. simpl in Hi. rewrite list_lookup_alter_eq in Hi. apply fmap_Some in Hi as (old & _ & ->).
  pose proof (zlen_nonneg (cf_localNames f)). simpl. rewrite !wrapS_id; try done; unfold inS; lia.
Qed.

(** The end of a function without tills. *)
Lemma EndFunction_COk env q c c' f :
  Compiler_EndFunction env c = COk tt c' -> c_currentFunction c = Some q -> c_functions c !! q = Some f ->
  entries (cf_tillInfos f) = [] -> cf_numArgs f = 0 -> 0 <= cf_stackSize f ->
  c_functions c' = c_functions c /\ c_userFunctionInfos c' = c_userFunctionInfos c
  /\ c_messages c' = c_messages c.
Proof.
  intros H Hq Hf Ht Hn Hs. unfold Compiler_EndFunction in H.
  apply bind_COk in H as (q' & c1 & H1 & H). unfold currentFunction, mbind, M_bind, get, need in H1.
  rewrite Hq in H1. injection H1 as <- <-.
  apply bind_COk in H as (f' & c1 & H1 & H). unfold load, mbind, M_bind, get, need in H1.
  rewrite Hf in H1. injection H1 as <- <-. rewrite Ht in H.
  apply bind_COk in H as ([] & c1 & [= <-] & H).
  apply bind_COk in H as (r & c2 & H2 & [= <-]).
  destruct (SetupClosureInfo_COk q c r c2 f H2 Hf Hn Hs) as (_ & _ & k & -> & _). done.
Qed.

(** The state in which the expression of a program is compiled. *)
Record started (infos : list ClosureInfo) (c : Compiler) (f : CompilerFunction) : Prop := {
  st_ready : ready c;
  st_wf : wf c;
  st_messages : c_messages c = [];
  st_current : c_currentFunction c = Some O;
  st_function : c_functions c !! O = Some f;
  st_numArgs : cf_numArgs f = 0;
  st_locals : cf_localNames f = [];
  st_tills : entries (cf_tillInfos f) = [];
  st_info : (cf_closureInfo f < length (c_closureInfos c))%nat;
  st_user : is_Some (c_userFunctionInfos c !! O)
}.

Lemma global_block_bind {B} e (k : CompiledBlock -> M B) c :
  (b ← global_block e; k b) c
  = (compiledBlock ← Compiler_CompileExpr (S (height e)) e false;
     compiledBlock ← Compiler_EmitRequireResult compiledBlock;
     Compiler_RevertSourceLocation 0 ;;
     compiledBlock ← EMIT0 compiledBlock Op_Ret (-1); k compiledBlock) c.
Proof.
  unfold global_block, mbind, M_bind. destruct (Compiler_CompileExpr _ _ _ c) as [b1 c1| | |]; try done.
  destruct (Compiler_EmitRequireResult b1 c1) as [b2 c2| | |]; try done.
  by destruct (Compiler_RevertSourceLocation 0 c2) as [[] c3| | |].
Qed.

Lemma CompileGlobal_start infos g modules e p c' :
  Compiler_CompileGlobal e (Compiler_Create infos g modules) = COk p c' ->
  exists c f, started infos c f /\
  (compiledBlock ← global_block e;
   '(byteCodeSegment, env) ← Finish compiledBlock;
   update upd_c_functions O (upd_cf_stackSize (fun _ => maxStackDepth compiledBlock)) ;;
   Compiler_EndFunction env ;;
   closureInfo ← Compiler_SetupClosureInfoForCompilerFunction O;
   closureInfo ← load c_closureInfos closureInfo;
   update upd_c_userFunctionInfos O (set_finished byteCodeSegment closureInfo) ;;
   mret O) c = COk p c'.
Proof.
  intros H. unfold Compiler_CompileGlobal in H.
  apply bind_COk in H as (created & c1 & [= <- <-] & H).
  apply bind_COk in H as (? & ? & [= <- <-] & H).
  apply bind_COk in H as (q & c2 & H2 & H).
  apply bind_COk in H as ([] & c3 & [= <-] & H).
  apply bind_COk in H as ([] & c4 & [= <-] & H).
  set (c4 := upd_c_tables _ _) in H.
  assert (Hst : exists f, started infos c4 f /\ q = O).
  { unfold Compiler_BeginFunction in H2.
    do 3 (apply bind_COk in H2 as (? & ? & [= <- <-] & H2)).
    apply bind_COk in H2 as (ig & c5 & H5 & H2).
    match type of H5 with _ ?st = _ => assert (c5 = st) as -> end.
    { simpl in H5. destruct g as [i|]; [|by injection H5].
      apply bind_COk in H5 as (info & c6 & H6 & [= _ <-]). unfold load, mbind, M_bind, get, need in H6.
      simpl in H6. destruct (infos !! i); [by injection H6|done]. }
    injection H2 as <- <-.
    eexists. split; [|done]. split; try reflexivity.
    - split; simpl; [do 2 eexists; by split| |done]. by intros ? ? ?.
    - split; simpl; try done.
      + intros [|p'] f Hf; [by injection Hf as <-|done].
      + intros p' [= <-]. simpl. lia.
      + intros _ s' Hs. by inversion Hs.
      + intros _ [|p'] u segment Hu; [by injection Hu as <-|done].
    - simpl. rewrite length_app. simpl. lia.
    - simpl. by eexists. }
  destruct Hst as (f & Hst & ->). exists c4, f. split; [exact Hst|]. clearbody c4.
  rewrite global_block_bind. exact H.
Qed.

(** Any run will do to see what compiling keeps. *)
Definition idle_closure : Closure := mkClosure None None None None None 0 0 0 [] None.

Program Definition idle_run : Run := {|
  run_program := mkProgram [mkSegment 0 [] 0 0] [] [] []; run_segment := 0; run_code := mkSegment 0 [] 0 0;
  run_store := mkStore [idle_closure] []; run_heap := []; run_cur := 0; run_closure := idle_closure;
  run_variables := 0; run_label := fun _ => 0 |}.
Solve Obligations with try done.

Lemma global_block_after e c b c' : supported [] false e -> ready c -> global_block e c = COk b c' ->
  after c c' /\ 0 <= maxStackDepth b.
Proof.
  intros Hs R H. pose proof (wp_COk _ _ _ _ _ (wp_global_block (X := idle_run) e c Hs R) H) as Hw.
  destruct Hw as (A & l & id & loc & _ & _ & Hm & _). by split.
Qed.

Lemma global_block_wf e c b c' :
  wf c -> global_block e c = COk b c' -> c_messages c' = [] -> block_wf b = true.
Proof.
  intros W H Hm.
  assert (Hg : good True (global_block e)).
  { unfold global_block. eapply good_bind; [apply good_CompileExpr; lia|intros b0].
    eapply good_bind; [apply good_EmitRequireResult; tauto|intros b1].
    eapply good_bind; [apply good_Revert|intros []]. apply good_EMIT0; [tauto|done]. }
  specialize (Hg c W). rewrite H in Hg. destruct Hg as (_ & _ & Hg). by apply Hg.
Qed.

(** What a successful compile leaves, in terms of the block. *)
Record finished (c c' : Compiler) (b : CompiledBlock) (c2 : Compiler) (p : nat) : Prop := {
  fi_after : after c c2;
  fi_wf : block_wf b = true;
  fi_messages : c_messages c' = [];
  fi_result : exists seg b' u ci, CompiledBlock_Finish b 0 false = Some (seg, b')
    /\ c_userFunctionInfos c' !! p = Some u /\ fn_byteCodeSegment u = Some seg
    /\ fn_closureInfo u = Some ci /\ ci_numArgs ci = 0 /\ ci_numVariables ci = local_count c2
    /\ ci_tempSize ci = maxStackDepth b /\ local_count c2 <= 16383
}.

Lemma CompileGlobal_parts infos g modules e p c' :
  supported [] false e -> Compiler_CompileGlobal e (Compiler_Create infos g modules) = COk p c' ->
  exists c b c2, ready c /\ local_count c = 0 /\ global_block e c = COk b c2 /\ finished c c' b c2 p.
Proof.
  intros Hs H. destruct (CompileGlobal_start _ _ _ _ _ _ H) as (c & f & [R W Hm Hcur Hf Hna Hl Ht Hi [u0 Hu]] & H').
  clear H. apply bind_COk in H' as (b & c2 & Hb & H).
  destruct (global_block_after e c b c2 Hs R Hb) as [A Hdepth]. pose proof (a_steady _ _ A) as S.
  assert (Hm2 : c_messages c2 = []) by (rewrite (s_messages _ _ S); exact Hm).
  exists c, b, c2. split; [done|].
  split; [by unfold local_count; rewrite Hcur; simpl; rewrite Hf, Hl|]. split; [done|].
  destruct (s_functions _ _ S O f Hf) as (f2 & Hf2 & _ & Hna2 & Hi2 & _ & _ & Ht2 & _).
  assert (Hcount : local_count c2 = zlen (cf_localNames f2)).
  { unfold local_count. rewrite (s_currentFunction _ _ S), Hcur. simpl. by rewrite Hf2. }
  assert (Hu2 : c_userFunctionInfos c2 !! O = Some u0) by by rewrite (s_userFunctionInfos _ _ S).
  apply bind_COk in H as ([seg env] & c3 & H3 & H).
  unfold Finish in H3. apply bind_COk in H3 as ([seg' b'] & c4 & H4 & [= <- <- <-]).
  unfold need in H4. destruct (CompiledBlock_Finish b 0 false) as [[x y]|] eqn:Efin; [|done].
  injection H4 as -> -> <-.
  apply bind_COk in H as ([] & c5 & [= <-] & H). set (c6 := upd_c_functions _ c2) in H.
  set (f6 := upd_cf_stackSize (fun _ => maxStackDepth b) f2).
  assert (Hf6 : c_functions c6 !! O = Some f6) by (simpl; by rewrite list_lookup_alter_eq, Hf2).
  assert (Hcur6 : c_currentFunction c6 = Some O) by (simpl; by rewrite (s_currentFunction _ _ S)).
  assert (Hu6 : c_userFunctionInfos c6 !! O = Some u0) by done.
  assert (Hm6 : c_messages c6 = []) by done. clearbody c6.
  assert (Hn6 : cf_numArgs f6 = 0) by (simpl; by rewrite Hna2).
  apply bind_COk in H as ([] & c7 & H7 & H).
  destruct (EndFunction_COk _ O c6 c7 f6 H7 Hcur6 Hf6) as (Ef7 & Eu7 & Em7);
    [simpl; by rewrite Ht2|done|done|].
  apply bind_COk in H as (r & c8 & H8 & H).
  destruct (SetupClosureInfo_COk O c7 r c8 f6 H8) as (-> & Hlim & k & E8 & Hci); [by rewrite Ef7|done..|].
  apply bind_COk in H as (ci & c9 & H9 & H). unfold load, mbind, M_bind, get, need in H9.
  destruct (c_closureInfos c8 !! _) as [info|] eqn:Ei; [|done]. injection H9 as <- <-.
  apply bind_COk in H as ([] & c9 & [= <-] & [= <- <-]). destruct (Hci info eq_refl) as (Hc1 & Hc2 & Hc3).
  split; [done|by eapply global_block_wf|by rewrite E8; simpl; rewrite Em7|].
  exists seg', b', (set_finished seg' info u0), info. split; [done|].
  split; [simpl; rewrite list_lookup_alter_eq, E8; simpl; by rewrite Eu7, Hu6|].
  rewrite Hcount. simpl in Hc2, Hlim. by repeat split.
Qed.
End Compiling.

(** ** Properties *)

(** The description of the closures as the machine sees it. *)
Definition same_layout (ci : Compiler.ClosureInfo) (i : Closure.ClosureInfo) : Prop :=
  numArgs i = ci_numArgs ci /\ numVariables i = ci_numVariables ci /\ tempSize i = ci_tempSize ci.

Section ProgramProps.
Context {OE : ObjectEnv} {E : CompilerEnv}.

(** A compiled program, run on the machine. *)
Lemma program_runs (infos : list Compiler.ClosureInfo) (g : option nat)
  (modules : list (option ModuleInfo)) (e : Expr) (p : nat) (c' : Compiler)
  (n : nat) (v : Value) (env' : Env) :
  supported [] false e -> eval n [] e = Some (v, env') ->
  Compiler_CompileGlobal e (Compiler_Create infos g modules) = COk p c' ->
  c_messages c' = []
  /\ exists u seg ci, c_userFunctionInfos c' !! p = Some u /\ fn_byteCodeSegment u = Some seg
    /\ fn_closureInfo u = Some ci
    /\ (numByteCodes seg < 2 ^ 24 ->
        forall P s h gci fn i,
        segments P !! uf_byteCodeSegment fn = Some seg ->
        Closure.infos s !! uf_closureInfo fn = Some i -> same_layout ci i ->
        exists m0 fuel m, Eval_Run_start s h gci fn = Ok m0 /\ Eval_RunCore P fuel m0 = Returned m
          /\ Eval_Continue_value (Returned m) = Ok (boxed h v)).
Proof.
  intros Hs He Hc. destruct (CompileGlobal_parts _ _ _ _ _ _ Hs Hc) as (c & b & c2 & R & Hc0 & Hb & [A W Hm Hres]).
  split; [done|]. destruct Hres as (seg & b' & u & ci & Hfin & Hu & Hseg & Hci & Ha & Hv & Ht & Hlim).
  exists u, seg, ci. split; [done|]. split; [done|]. split; [done|].
  intros Hnum P s h gci fn i HP Hi (Ia & Iv & It).
  destruct (Finish_count b 0 false) as (seg1 & b1 & E1 & N1 & _ & _). rewrite E1 in Hfin. injection Hfin as <- <-.
  fold (block_size b) in N1. rewrite N1 in Hnum.
  destruct (Finish_layout b 0 W Hnum) as (seg2 & b2 & E2 & Hcode & _ & _ & _ & Hlen).
  rewrite E1 in E2. injection E2 as <- <-.
  pose proof (local_count_after c c2 R (a_steady _ _ A)) as Hgrow. rewrite Hc0 in Hgrow.
  destruct (global_block_after e c b c2 Hs R Hb) as [_ Hdepth].
  assert (HV : 0 <= numVariables i) by lia. assert (HT : 0 <= tempSize i) by lia.
  assert (HA : numArgs i = 0) by lia.
  pose proof (wp_COk _ _ _ _ _ (wp_global_block (X := program_run P seg1 s h gci fn i b HP HA HV Hlen Hnum) e c Hs R) Hb)
    as (_ & l & id & loc & Hinstrs & [Hnd _] & _ & Hruns).
  destruct (program_returns P seg1 s h gci fn i b HP HA HV Hcode Hlen N1 Hnum l id loc
    (maxStackDepth b) v env' Hinstrs Hnd ltac:(lia)) as (fuel & m & Hret & Hval).
  { apply Hruns; [|by exists n]. unfold space. simpl. rewrite zlen_replicate. lia. }
  exists (mkMachine (program_store s gci fn i) h (S (length (closures s))) (uf_byteCodeSegment fn) 0), fuel, m.
  split; [by apply program_start|done].
Qed.

(** C1: a program of the core language that compiles does so without messages,
    and its code, run from [Eval_Run] in any program and store that hold it, ends
    normally with the value that the reference interpreter gives its expression:
    the compiler is correct, and its counts of variables and stack space are enough. *)
Theorem program_correct (infos : list Compiler.ClosureInfo) (g : option nat)
  (modules : list (option ModuleInfo)) (e : Expr) (p : nat) (c' : Compiler)
  (n : nat) (v : Value) (env' : Env) :
  supported [] false e -> eval n [] e = Some (v, env') ->
  Compiler_CompileGlobal e (Compiler_Create infos g modules) = COk p c' ->
  c_messages c' = []
  /\ exists u seg ci, c_userFunctionInfos c' !! p = Some u /\ fn_byteCodeSegment u = Some seg
    /\ fn_closureInfo u = Some ci
    /\ (numByteCodes seg < 2 ^ 24 ->
        forall P s h gci fn i,
        segments P !! uf_byteCodeSegment fn = Some seg ->
        Closure.infos s !! uf_closureInfo fn = Some i -> same_layout ci i ->
        exists m0 fuel m, Eval_Run_start s h gci fn = Ok m0 /\ Eval_RunCore P fuel m0 = Returned m
          /\ Eval_Continue_value (Returned m) = Ok (boxed h v)).
Proof. apply program_runs. Qed.
End ProgramProps.

(** ** Examples *)

Definition example_form (l : list Expr) : Expr := foldr (fun e l => ECons e l NoSource) ENull l.

(** The machine about to run a compiled program that is all there is, and the
    stack space the program asks for. *)
Definition example_start {OE : ObjectEnv} {E : CompilerEnv} (e : Expr) : option (Program * Machine * Z) :=
  match Compiler_CompileGlobal e (Compiler_Create [] None []) with
  | COk p c =>
      u ← c_userFunctionInfos c !! p;
      seg ← fn_byteCodeSegment u;
      ci ← fn_closureInfo u;
      let i := Closure.mkClosureInfo None None CLOSURE_KIND_LOCAL (ci_numVariables ci) (ci_numArgs ci)
                 (ci_tempSize ci) ∅ in
      match Eval_Run_start (mkStore [] [i]) [] 0 (Machine.mkUserFunctionInfo 0 0 0 0 [] 0 0) with
      | Ok m => Some (mkProgram [seg] [] [] [], m, ci_tempSize ci)
      | _ => None
      end
  | _ => None
  end.

(** [var x = true, y = 5; while x then { y = 7; x = $not x }; if y === 7 then y] *)
Definition example_program : Expr :=
  let x := 200 in
  let y := 201 in
  let set x e := example_form [ESymbol SYMBOL__SET; ESymbol x; e] in
  example_form [ESymbol SYMBOL__SCOPE; example_form [ESymbol x; ESymbol y];
    set x (EBool true); set y (EInteger64 5);
    example_form [ESymbol SYMBOL__WHILE; ESymbol x;
      example_form [ESymbol SYMBOL__PROGN; set y (EInteger64 7);
        set x (example_form [ESymbol SYMBOL__NOT; ESymbol x])]];
    example_form [ESymbol SYMBOL__IF; example_form [ESymbol SYMBOL__EQ; ESymbol y; EInteger64 7]; ESymbol y]].

(** [var x = true; while x then x = $not x], with the loop's value wanted. *)
Definition example_loop : Expr :=
  let x := 200 in
  let set x e := example_form [ESymbol SYMBOL__SET; ESymbol x; e] in
  example_form [ESymbol SYMBOL__SCOPE; example_form [ESymbol x]; set x (EBool true);
    example_form [ESymbol SYMBOL__WHILE; ESymbol x; set x (example_form [ESymbol SYMBOL__NOT; ESymbol x])]].

Section Examples.
#[local] Existing Instance example_env.
#[local] Existing Instance example_symbols.

Ltac supported :=
  repeat first
    [ by eapply sup_literal
    | apply sup_variable; set_solver
    | eapply sup_scope; [reflexivity|reflexivity|reflexivity|]
    | eapply sup_while; [reflexivity|..]
    | eapply sup_if; [reflexivity|..]
    | eapply sup_set; [set_solver|]
    | eapply sup_progn; [reflexivity|]
    | eapply sup_equal; [by (left + right)|..|reflexivity|reflexivity]
    | apply sup_not
    | apply seq_last; [reflexivity|]
    | apply seq_cons; [reflexivity|..] ].

Lemma example_supported : supported [] false example_program.
Proof. supported. Qed.

Lemma program_correct_witness :
  exists (p : nat) (c' : Compiler),
    Compiler_CompileGlobal example_program (Compiler_Create [] None []) = COk p c' /\ c_messages c' = []
    /\ exists seg ci, numByteCodes seg = 22 /\ ci_tempSize ci = 2
    /\ exists m0 fuel m,
         Eval_Run_start (mkStore [] [Closure.mkClosureInfo None None CLOSURE_KIND_LOCAL (ci_numVariables ci)
           (ci_numArgs ci) (ci_tempSize ci) ∅]) [] 0 (Machine.mkUserFunctionInfo 0 0 0 0 [] 0 0) = Ok m0
         /\ Eval_RunCore (mkProgram [seg] [] [] []) fuel m0 = Returned m
         /\ Eval_Continue_value (Returned m) = Ok ([HScalar KInteger64 7], Ref 0).
Proof.
  destruct (Compiler_CompileGlobal example_program (Compiler_Create [] None [])) as [p c'| | |] eqn:Hc;
    [|vm_compute in Hc; discriminate..].
  exists p, c'. split; [done|].
  destruct (program_correct [] None [] example_program p c' 20 (VScalar KInteger64 7) [])
    as (Hm & u & seg & ci & Hu & Hseg & Hci & Hrun);
    [exact example_supported|vm_compute; reflexivity|exact Hc|].
  split; [exact Hm|]. exists seg, ci.
  assert (Hfacts : numByteCodes seg = 22 /\ ci_tempSize ci = 2).
  { vm_compute in Hc. injection Hc as <- <-. vm_compute in Hu. injection Hu as <-.
    vm_compute in Hseg, Hci. injection Hseg as <-. by injection Hci as <-. }
  split; [apply Hfacts|]. split; [apply Hfacts|].
  assert (Hn : numByteCodes seg < 2 ^ 24) by (destruct Hfacts as [-> _]; reflexivity).
  clear Hc Hu Hseg Hci Hfacts Hm.
  exact (Hrun Hn (mkProgram [seg] [] [] [])
    (mkStore [] [Closure.mkClosureInfo None None CLOSURE_KIND_LOCAL (ci_numVariables ci)
       (ci_numArgs ci) (ci_tempSize ci) ∅]) [] O (Machine.mkUserFunctionInfo 0 0 0 0 [] 0 0)
    _ eq_refl eq_refl (conj eq_refl (conj eq_refl eq_refl))).
Defined.

(** A loop whose value is wanted needs one value more than the compiler has
    counted: the value of the last round lies below the condition. *)
Example while_value_overflows :
  match example_start example_loop with
  | Some (P, m, tempSize) =>
      tempSize = 1
      /\ (match Eval_RunCore P 5 m with
          | Next m =>
              opcode <$> (segments P !! O ≫= fun s => zget (byteCodes s) (pc m)) = Some Op_LdLoc0
              /\ (stackTop <$> closures (store m) !! cur m) = Some 2
              /\ ((fun cl => zlen (variables cl)) <$> closures (store m) !! cur m) = Some 2
          | _ => False
          end)
      /\ Eval_RunCore P 6 m = Undefined
  | None => False
  end.
Proof. vm_compute. by repeat split. Qed.
End Examples.
