(* ===== verification/PositionFree.v ===== *)
(** * PositionFree: positions mean nothing

    The reference interpreter and the core of the language do not look at the
    positions of an expression's cells. *)

From S2P Require Import Prelude Opcode ByteCode Object Expr Compiler KnownSymbols CompileForms Reference ProgramCorrect.
Import Operand.

(** The shapes an expression can have where only some matter. *)
Ltac shape e := destruct e; try reflexivity.

Lemma isList_erase e : isList (erase e) = isList e.
Proof. by destruct e. Qed.
Lemma isNull_erase e : isNull (erase e) = isNull e.
Proof. by destruct e. Qed.

#[export] Hint Rewrite isList_erase isNull_erase : erase.

Section Meaning.
Context {OE : ObjectEnv} {E : CompilerEnv}.

Lemma StripNots_erase : forall e,
  Compiler_StripNots (erase e) = (erase (fst (Compiler_StripNots e)), snd (Compiler_StripNots e)).
Proof.
  fix IH 1. intros e. shape e. shape e1. shape e2. shape e2_2. simpl. case_match; [|done].
  rewrite (IH e2_1). by destruct (Compiler_StripNots e2_1).
Qed.

Lemma literal_erase e : literal (erase e) = literal e.
Proof. by destruct e. Qed.

Lemma quoted_erase e : quoted (erase e) = quoted e.
Proof. by destruct e. Qed.

Lemma If_else_erase rest : If_else (erase rest) = erase <$> If_else rest.
Proof. shape rest. by shape rest2. Qed.

Lemma While_parts_erase args :
  While_parts (erase args) = (fun '(a, b, c) => (erase a, erase b, erase c)) <$> While_parts args.
Proof. shape args. shape args2. shape args2_2. by shape args2_2_2. Qed.

Lemma scope_names_erase vars : scope_names (erase vars) = scope_names vars.
Proof. induction vars; try done. simpl. destruct vars1; try done. by rewrite IHvars2. Qed.

Lemma Length_erase e : SmileList_Length (erase e) = SmileList_Length e.
Proof.
  assert (H : list_tail (erase e) = list_tail e /\ cells (erase e) = cells e).
  { induction e; try done. simpl. by destruct IHe2 as [-> ->]. }
  unfold SmileList_Length. by destruct H as [-> ->].
Qed.

Section Forms.
Variable ev : Env -> Expr -> option (Value * Env).
Hypothesis ev_erase : forall env e, ev env (erase e) = ev env e.

Lemma condition_erase env e : eval_condition ev env (erase e) = eval_condition ev env e.
Proof. unfold eval_condition. rewrite StripNots_erase. destruct (Compiler_StripNots e) as [a b]. simpl. by rewrite ev_erase. Qed.

Lemma sequence_erase env args : eval_sequence ev env (erase args) = eval_sequence ev env args.
Proof.
  revert env. induction args; intros env; try done. simpl. rewrite ev_erase. destruct (ev env args1) as [[v env']|]; [|done]. simpl.
  by rewrite isList_erase, IHargs2.
Qed.

Lemma each_erase env args : eval_each ev env (erase args) = eval_each ev env args.
Proof. revert env. induction args; intros env; try done. simpl. rewrite ev_erase. by destruct (ev env args1) as [[v env']|]; simpl. Qed.

Lemma until_erase stop env args : eval_until ev stop env (erase args) = eval_until ev stop env args.
Proof.
  revert env. induction args; intros env; try done. simpl. rewrite condition_erase.
  destruct (eval_condition ev env args1) as [[b env']|]; [|done]. simpl. by rewrite IHargs2.
Qed.

Lemma clause_erase env v e : eval_clause ev env v (erase e) = eval_clause ev env v e.
Proof. unfold eval_clause. by rewrite isNull_erase, ev_erase. Qed.

Lemma loop_erase fuel until a b c env v :
  eval_loop ev fuel until (erase a) (erase b) (erase c) env v = eval_loop ev fuel until a b c env v.
Proof.
  revert env v. induction fuel as [|fuel IH]; intros env v; [done|]. cbn [eval_loop]. rewrite clause_erase.
  destruct (eval_clause ev env v a) as [[v1 env1]|]; [|done]. cbn [mbind option_bind]. rewrite condition_erase.
  destruct (eval_condition ev env1 b) as [[b1 env2]|]; [|done]. cbn [mbind option_bind]. case_match; [|done]. rewrite clause_erase.
  destruct (eval_clause ev env2 v1 c) as [[w env3]|]; [|done]. cbn [mbind option_bind]. by rewrite isNull_erase, IH.
Qed.

Lemma form_erase fuel env s args : eval_form ev fuel env s (erase args) = eval_form ev fuel env s args.
Proof.
  unfold eval_form.
  destruct (s =? SYMBOL__SET); [shape args; shape args1; shape args2; shape args2_2; simpl; by rewrite ev_erase|].
  destruct (s =? SYMBOL__IF).
  { shape args. shape args2. simpl. rewrite If_else_erase. destruct (If_else args2_2); [|done]. simpl. rewrite condition_erase.
    destruct (eval_condition ev env args1) as [[b env']|]; [|done]. simpl. by case_match; rewrite ev_erase. }
  destruct (s =? SYMBOL__WHILE).
  { unfold eval_while. rewrite While_parts_erase. destruct (While_parts args) as [[[a b] c]|]; [|done]. simpl.
    by rewrite !isNull_erase, loop_erase. }
  destruct (s =? SYMBOL__QUOTE); [shape args; shape args2; simpl; by rewrite quoted_erase|].
  destruct (s =? SYMBOL__PROG1).
  { shape args. simpl. rewrite ev_erase. destruct (ev env args1) as [[v env']|]; [|done]. simpl. by rewrite each_erase. }
  destruct (s =? SYMBOL__PROGN); [apply sequence_erase|].
  destruct (s =? SYMBOL__SCOPE).
  { shape args. simpl. unfold eval_scope. rewrite scope_names_erase. destruct (scope_names args1); [|done]. simpl. by rewrite sequence_erase. }
  destruct ((s =? SYMBOL__EQ) || (s =? SYMBOL__NE)).
  { shape args. shape args2. shape args2_2. simpl. rewrite ev_erase. destruct (ev env args1) as [[v env']|]; [|done]. simpl. by rewrite ev_erase. }
  destruct (s =? SYMBOL__AND); [apply until_erase|]. destruct (s =? SYMBOL__OR); [apply until_erase|].
  destruct (s =? SYMBOL__NOT); [|done]. shape args. shape args2. simpl. by rewrite ev_erase.
Qed.
End Forms.

Lemma eval_erase n : forall env e, eval n env (erase e) = eval n env e.
Proof.
  induction n as [|n IH]; intros env e; [done|]. destruct e as [| | | | | | | | | | | | | | | | |a d s]; try done.
  destruct a; try done. cbn [erase eval]. by apply form_erase.
Qed.

Lemma eval_same_tree n env e e' : same_tree e e' -> eval n env e' = eval n env e.
Proof. intros H. by rewrite <- eval_erase, H, eval_erase. Qed.

(** ** The core *)

Lemma erase_cons a d e : erase e = ECons a d NoSource -> exists a' d' s, e = ECons a' d' s /\ erase a' = a /\ erase d' = d.
Proof. destruct e; try discriminate. intros [= <- <-]. by do 3 eexists. Qed.

Lemma erase_symbol s e : erase e = ESymbol s -> e = ESymbol s.
Proof. by destruct e. Qed.

Lemma erase_null e : erase e = ENull -> e = ENull.
Proof. by destruct e. Qed.

Ltac unerase :=
  repeat match goal with
  | H : erase ?e = erase (ECons _ _ _) |- _ => cbn [erase] in H
  | H : erase ?e = erase (ESymbol _) |- _ => cbn [erase] in H
  | H : erase ?e = erase ENull |- _ => cbn [erase] in H
  | H : erase ?e = ECons _ _ NoSource |- _ => apply erase_cons in H as (? & ? & ? & -> & ? & ?)
  | H : erase ?e = ESymbol _ |- _ => apply erase_symbol in H as ->
  | H : erase ?e = ENull |- _ => apply erase_null in H as ->
  end.

(** What does not change under [erase] is the same for the same tree. *)
Lemma by_erasing {A} (f : Expr -> A) : (forall e, f (erase e) = f e) -> forall e e', erase e' = erase e -> f e' = f e.
Proof. intros Hf e e' H. by rewrite <- Hf, H, Hf. Qed.

Lemma isList_same e e' : erase e' = erase e -> isList e' = isList e.
Proof. apply by_erasing, isList_erase. Qed.
Lemma isNull_same e e' : erase e' = erase e -> isNull e' = isNull e.
Proof. apply by_erasing, isNull_erase. Qed.
Lemma sequence_same e e' : erase e' = erase e -> is_sequence e' = is_sequence e.
Proof. intros H. unfold is_sequence. by rewrite (isList_same _ _ H), (isNull_same _ _ H). Qed.

Lemma condition_same e e' : erase e' = erase e -> erase (fst (Compiler_StripNots e')) = erase (fst (Compiler_StripNots e)).
Proof.
  intros H. pose proof (StripNots_erase e) as H1. pose proof (StripNots_erase e') as H2. rewrite H, H1 in H2. by injection H2.
Qed.

Lemma leaves_same e e' : erase e' = erase e -> leaves_value e' = leaves_value e.
Proof.
  assert (Herase : forall e, leaves_value (erase e) = leaves_value e).
  { intros x. shape x. shape x1. simpl. rewrite isList_erase. shape x2. simpl. by rewrite isList_erase. }
  by apply by_erasing.
Qed.

Lemma literal_same e e' : erase e' = erase e -> literal e' = literal e.
Proof. apply by_erasing, literal_erase. Qed.
Lemma quoted_same e e' : erase e' = erase e -> quoted e' = quoted e.
Proof. apply by_erasing, quoted_erase. Qed.
Lemma scope_names_same e e' : erase e' = erase e -> scope_names e' = scope_names e.
Proof. apply by_erasing, scope_names_erase. Qed.
Lemma Length_same e e' : erase e' = erase e -> SmileList_Length e' = SmileList_Length e.
Proof. apply by_erasing, Length_erase. Qed.

Lemma If_else_same e e' x : erase e' = erase e -> If_else e = Some x -> exists y, If_else e' = Some y /\ erase y = erase x.
Proof.
  intros H Hx. pose proof (If_else_erase e) as H1. rewrite <- H, If_else_erase, Hx in H1.
  destruct (If_else e') as [y|]; [|discriminate]. injection H1 as H1. by exists y.
Qed.

Lemma While_parts_same e e' a b c : erase e' = erase e -> While_parts e = Some (a, b, c) ->
  exists a' b' c', While_parts e' = Some (a', b', c') /\ erase a' = erase a /\ erase b' = erase b /\ erase c' = erase c.
Proof.
  intros H Hx. pose proof (While_parts_erase e) as H1. rewrite <- H, While_parts_erase, Hx in H1.
  destruct (While_parts e') as [[[a' b'] c']|]; [|discriminate]. injection H1 as Ha Hb Hc. by exists a', b', c'.
Qed.

Ltac same_as lemma := erewrite lemma by eassumption; eassumption.

(** The core does not depend on positions. *)
Lemma supported_same xs noResult e : supported xs noResult e -> forall e', same_tree e e' -> supported xs noResult e'.
Proof.
  unfold same_tree. revert xs noResult e.
  apply (supported_mind _
    (fun xs noResult e => forall e', erase e' = erase e -> supported xs noResult e')
    (fun xs noResult e => forall e', erase e' = erase e -> supported_seq xs noResult e')
    (fun xs noResult e => forall e', erase e' = erase e -> supported_each xs noResult e')
    (fun xs e => forall e', erase e' = erase e -> supported_tests xs e')); intros; unerase.
  - eapply sup_literal. same_as literal_same.
  - by apply sup_variable.
  - eapply sup_quote. same_as quoted_same.
  - apply sup_set; auto.
  - apply sup_progn; [same_as sequence_same|auto].
  - apply sup_prog1; auto.
  - edestruct If_else_same as (y & Hy & Hsame); [eassumption..|]. eapply sup_if; eauto using condition_same.
  - apply sup_and; [same_as Length_same|auto].
  - apply sup_or; [same_as Length_same|auto].
  - apply sup_not; auto.
  - apply sup_equal; auto; same_as leaves_same.
  - edestruct While_parts_same as (x & y & z & Hparts & Hx & Hy & Hz); [eassumption..|].
    eapply sup_while; eauto using condition_same.
  - eapply sup_scope; [same_as scope_names_same| | |]; [same_as isList_same|same_as sequence_same|auto].
  - apply seq_end. same_as isList_same.
  - apply seq_last; [same_as isList_same|auto].
  - apply seq_cons; [same_as isList_same|auto..].
  - apply each_end. same_as isList_same.
  - apply each_cons; auto.
  - apply tests_end. same_as isList_same.
  - apply tests_cons; auto using condition_same.
Qed.
End Meaning.
