(* ===== verification/ParseScope.v ===== *)
(** * ParseScope: messages, declarations and scopes of the parser

    [include/smile/parsing/parsemessage.h], [internal/parsedecl.h],
    [internal/parsescope.h] and the declaring part of
    [src/parsing/parser/parsescope.c].

    A scope points to its parent; the scopes the parser is in are a list, the
    innermost first.  Lookups and declarations answer [None] where the C code would
    read outside an array or follow a NULL pointer. *)

From Stdlib Require Import String.
From S2P Require Import Prelude Text StringBuilder Lexer Object Expr KnownSymbols.

(** ** Messages (parsemessage.h) *)

Inductive MessageKind := PARSEMESSAGE_INFO | PARSEMESSAGE_WARNING | PARSEMESSAGE_ERROR | PARSEMESSAGE_FATAL.

#[export] Instance MessageKind_eq_dec : EqDecision MessageKind.
Proof. solve_decision. Defined.

(** The arguments of a format: numbers, texts, and symbols for their names. *)
Inductive Detail := Line (n : Z) | Words (s : Str) | NameOf (symbol : Symbol).

(** The text of a token, or a format with its arguments. *)
Inductive Wording := TheText (t : TokenText) | Formatted (format : Str) (details : list Detail).

Record ParseMessage := ParseMessage_Create {
  messageKind : MessageKind; m_position : option LexerPosition; message : Wording
}.

Notation ParseError := ParseMessage.

(** A text in which a back-quote stands for the double quote. *)
Definition quoting (s : string) : Str := map (fun c => if c =? "`"%code then QUOTE else c) (bytes s).

(** [ParseMessage_Create(PARSEMESSAGE_ERROR, position, String_Format(format, ...))] *)
Definition an_error (position : option LexerPosition) (format : string) (details : list Detail) : ParseError :=
  ParseMessage_Create PARSEMESSAGE_ERROR position (Formatted (quoting format) details).

(** ** Declarations (parsedecl.h) *)

Definition ParseDecl_Names : list Str := map bytes [
  "an undeclared variable"; "a primitive"; "a global variable"; "a function argument"; "a local variable";
  "a const value"; "an unassigned const value"; "an auto variable"; "an unassigned auto variable"; "a keyword";
  "a postcondition result"; "a till-loop name"; "an included-module value"]%string.

Record ParseDecl := ParseDecl_Create {
  pd_symbol : Symbol; declKind : Z; scopeIndex : Z; pd_position : option LexerPosition;
  initialAssignment : option Expr
}.

(** ** Scopes (parsescope.h) *)

(** [numDecls] is the number of [decls]; [syntaxTable] is the syntax classes that have
    rules, and a scope without any shares the table of its parent. *)
Record ParseScope := mkParseScope {
  scopeKind : Z; symbolDict : gmap Symbol Z; decls : list ParseDecl; maxDecls : Z; syntaxTable : list Symbol
}.

Definition set_scopeKind (kind : Z) (s : ParseScope) : ParseScope :=
  mkParseScope kind (symbolDict s) (decls s) (maxDecls s) (syntaxTable s).
Definition set_decls (l : list ParseDecl) (s : ParseScope) : ParseScope :=
  mkParseScope (scopeKind s) (symbolDict s) l (maxDecls s) (syntaxTable s).

(** The answer may be NULL. *)
Definition ParseScope_FindDeclarationHere (scope : ParseScope) (symbol : Symbol) : option (option ParseDecl) :=
  match symbolDict scope !! symbol with
  | None => Some None
  | Some index => decl ← zget (decls scope) index; Some (Some decl)
  end.

Definition ParseScope_IsDeclaredHere (scope : ParseScope) (symbol : Symbol) : bool :=
  bool_decide (is_Some (symbolDict scope !! symbol)).

Fixpoint ParseScope_IsDeclared (scopes : list ParseScope) (symbol : Symbol) : bool :=
  match scopes with
  | [] => false
  | scope :: parents => if ParseScope_IsDeclaredHere scope symbol then true else ParseScope_IsDeclared parents symbol
  end.

Fixpoint ParseScope_FindDeclaration (scopes : list ParseScope) (symbol : Symbol) : option (option ParseDecl) :=
  match scopes with
  | [] => Some None
  | scope :: parents =>
      match symbolDict scope !! symbol with
      | Some index => decl ← zget (decls scope) index; Some (Some decl)
      | None => ParseScope_FindDeclaration parents symbol
      end
  end.

Definition ParseScope_GetDeclarationCount (scope : ParseScope) : Z := Z.of_nat (size (symbolDict scope)).

Definition ParseScope_IsPseudoScope (scope : ParseScope) : bool :=
  (scopeKind scope =? PARSESCOPE_FUNCTION) || (scopeKind scope =? PARSESCOPE_POSTCONDITION)
  || (scopeKind scope =? PARSESCOPE_TILLDO).

(** A declaration is refused with an error, or made. *)
Inductive Declared := Refused (error : ParseError) | Made (scopes : list ParseScope) (decl : ParseDecl).

(** A name that is declared can be declared again when it is declared as the same
    kind of thing, in this scope or in one around it. *)
Definition redeclarable (previous : ParseDecl) (kind : Z) : bool :=
  negb (negb (declKind previous =? kind) && (declKind previous >=? PARSEDECL_UNDECLARED)
        || (declKind previous >=? PARSEDECL_CONST)).

Definition cannot_redeclare (symbol : Symbol) (kind : Z) (position : option LexerPosition) (previous : ParseDecl)
  : option ParseError :=
  this ← zget ParseDecl_Names kind;
  that ← zget ParseDecl_Names (declKind previous);
  Some (an_error position "Cannot redeclare `%S` as %s; it is already declared as %s, on line `%d`."
    [NameOf symbol; Words this; Words that;
     Line (match pd_position previous with Some p => pos_line p | None => 0 end)]).

(** The scope with one more declaration. *)
Definition add_declaration (scope : ParseScope) (symbol : Symbol) (kind : Z) (position : option LexerPosition)
  : ParseScope * ParseDecl :=
  let decl := ParseDecl_Create symbol kind (zlen (decls scope)) position None in
  let newMax := if zlen (decls scope) >=? maxDecls scope then wrapS 32 (wrapS 32 (maxDecls scope) * 2) else maxDecls scope in
  (mkParseScope (scopeKind scope) (<[symbol := wrapS 32 (zlen (decls scope))]> (symbolDict scope)) (decls scope ++ [decl])
     newMax (syntaxTable scope), decl).

Definition ParseScope_DeclareHere (scopes : list ParseScope) (symbol : Symbol) (kind : Z)
    (position : option LexerPosition) : option Declared :=
  previousDecl ← ParseScope_FindDeclaration scopes symbol;
  match previousDecl with
  | Some previous => if redeclarable previous kind then Some None else error ← cannot_redeclare symbol kind position previous; Some (Some error)
  | None => Some None
  end ≫= fun refused =>
  match refused with
  | Some error => Some (Refused error)
  | None =>
      match scopes with
      | [] => None
      | scope :: parents =>
          if scopeKind scope =? PARSESCOPE_EXPLICIT then
            Some (Refused (an_error position "Cannot add `%S` to the current scope, which explicitly lists its variables."
                             [NameOf symbol]))
          else
            let '(scope, decl) := add_declaration scope symbol kind position in
            Some (Made (scope :: parents) decl)
      end
  end.

(** In the innermost scope that has variables of its own. *)
Fixpoint ParseScope_Declare (scopes : list ParseScope) (symbol : Symbol) (kind : Z)
    (position : option LexerPosition) : option Declared :=
  match scopes with
  | [] => None
  | scope :: parents =>
      if ParseScope_IsPseudoScope scope then
        d ← ParseScope_Declare parents symbol kind position;
        Some (match d with Refused error => Refused error | Made parents decl => Made (scope :: parents) decl end)
      else ParseScope_DeclareHere scopes symbol kind position
  end.

Definition ParseScope_CreateChild (parents : list ParseScope) (kind : Z) : option (list ParseScope) :=
  match parents with
  | [] => None
  | parent :: _ => Some (mkParseScope kind ∅ [] 16 (syntaxTable parent) :: parents)
  end.

(** What [ParseScope_DeclareGlobalOperators] declares, in its order. *)
Definition global_operators : list (Symbol * Z) :=
  map (fun symbol => (symbol, PARSEDECL_PRIMITIVE))
    [SYMBOL__SET; SYMBOL__OPSET; SYMBOL__IF; SYMBOL__WHILE; SYMBOL__TILL; SYMBOL__FN; SYMBOL__QUOTE; SYMBOL__SCOPE;
     SYMBOL__PROG1; SYMBOL__PROGN; SYMBOL__RETURN; SYMBOL__CATCH; SYMBOL__NOT; SYMBOL__OR; SYMBOL__AND; SYMBOL__EQ;
     SYMBOL__NE; SYMBOL__NEW; SYMBOL__IS; SYMBOL__TYPEOF]
  ++ map (fun symbol => (symbol, PARSEDECL_KEYWORD))
    [SYMBOL_VAR; SYMBOL_AUTO; SYMBOL_CONST; SYMBOL_IF; SYMBOL_UNLESS; SYMBOL_THEN; SYMBOL_ELSE; SYMBOL_DO; SYMBOL_WHILE;
     SYMBOL_UNTIL; SYMBOL_TRY; SYMBOL_CATCH; SYMBOL_TILL; SYMBOL_WHEN; SYMBOL_AND; SYMBOL_OR; SYMBOL_NOT; SYMBOL_IS;
     SYMBOL_TYPEOF].

(** Declare several names; the first error ends it. *)
Fixpoint declare_all (scopes : list ParseScope) (names : list (Symbol * Z)) : option (ParseError + list ParseScope) :=
  match names with
  | [] => Some (inr scopes)
  | (symbol, kind) :: names =>
      d ← ParseScope_Declare scopes symbol kind None;
      match d with
      | Refused error => Some (inl error)
      | Made scopes _ => declare_all scopes names
      end
  end.

Definition ParseScope_DeclareGlobalOperators (scopes : list ParseScope) : option (ParseError + list ParseScope) :=
  declare_all scopes global_operators.

(** An error ends the process. *)
Definition ParseScope_CreateRoot : option (list ParseScope) :=
  r ← ParseScope_DeclareGlobalOperators [mkParseScope PARSESCOPE_OUTERMOST ∅ [] 16 []];
  match r with inl _ => None | inr scopes => Some scopes end.

(** The variables of a closure and of those around it, the innermost first, each in
    the order of its dictionary: the outermost are declared first. *)
Fixpoint AddVariablesToScope (scopes : list ParseScope) (variables : list (Symbol * bool))
  : option (ParseError + list ParseScope) :=
  match variables with
  | [] => Some (inr scopes)
  | (symbol, commonGlobal) :: variables =>
      d ← ParseScope_DeclareHere scopes symbol (if (commonGlobal : bool) then PARSEDECL_INCLUDE else PARSEDECL_GLOBAL) None;
      match d with
      | Refused error => Some (inl error)
      | Made scopes _ => AddVariablesToScope scopes variables
      end
  end.

Fixpoint ParseScope_DeclareVariablesFromClosureInfo (scopes : list ParseScope) (infos : list (list (Symbol * bool)))
  : option (ParseError + list ParseScope) :=
  match infos with
  | [] => Some (inr scopes)
  | variables :: parents =>
      r ← ParseScope_DeclareVariablesFromClosureInfo scopes parents;
      match r with
      | inl error => Some (inl error)
      | inr scopes => AddVariablesToScope scopes variables
      end
  end.
