(* ===== verification/ScopeProps.v ===== *)
(** * ScopeProps: declaring and finding names

    The well-formedness of the scopes of [ParseScope], what declaring a name does to
    the answers of a lookup, and the root scope. *)

From Stdlib Require Import String.
From S2P Require Import Prelude Text StringBuilder Lexer Object Expr KnownSymbols ParseScope.

(** ** Well-formed scopes *)

Definition decl_kind (kind : Z) : Prop := PARSEDECL_UNDECLARED <= kind <= PARSEDECL_INCLUDE.

(** The dictionary leads each declared name to a declaration of that name, and the
    array has a name the messages know for every declaration's kind. *)
Record scope_wf (s : ParseScope) : Prop := {
  sw_dict : forall symbol index, symbolDict s !! symbol = Some index ->
    exists decl, zget (decls s) index = Some decl /\ pd_symbol decl = symbol;
  sw_kinds : Forall (fun decl => decl_kind (declKind decl)) (decls s)
}.

(** There is an index for one more declaration. *)
Definition has_room (s : ParseScope) : Prop := zlen (decls s) < 2 ^ 31 - 1.

Lemma kind_named kind : decl_kind kind -> is_Some (zget ParseDecl_Names kind).
Proof. unfold decl_kind, PARSEDECL_UNDECLARED, PARSEDECL_INCLUDE. intros H. apply zget_is_Some. change (zlen ParseDecl_Names) with 13. lia. Qed.

(** A lookup in well-formed scopes reads inside their arrays. *)
Lemma Find_safe scopes symbol : Forall scope_wf scopes ->
  exists answer, ParseScope_FindDeclaration scopes symbol = Some answer
    /\ (forall decl, answer = Some decl -> pd_symbol decl = symbol /\ decl_kind (declKind decl))
    /\ (is_Some answer <-> ParseScope_IsDeclared scopes symbol = true).
Proof.
  induction 1 as [|s scopes Hs _ IH]; simpl.
  - exists None. split; [done|]. split; [done|]. split; [by intros []|done].
  - unfold ParseScope_IsDeclaredHere. destruct (symbolDict s !! symbol) as [index|] eqn:E; rewrite ?E; [|exact IH].
    destruct (sw_dict s Hs symbol index E) as (decl & Hg & Hd). rewrite Hg. simpl. exists (Some decl). split; [done|]. split.
    + intros ? [= <-]. split; [done|]. apply zget_Some in Hg as [_ Hg].
      exact (Forall_lookup_1 _ _ _ _ (sw_kinds s Hs) Hg).
    + by split.
Qed.

(** ** One more declaration *)

Lemma add_wf s symbol kind position : scope_wf s -> has_room s -> decl_kind kind ->
  scope_wf (add_declaration s symbol kind position).1.
Proof.
  unfold has_room. intros [Hd Hk] Hz Hkind. pose proof (zlen_nonneg (decls s)). split; simpl.
  - rewrite wrapS_id by (unfold inS; lia). intros symbol' index H'.
    destruct (decide (symbol' = symbol)) as [->|Hne].
    + rewrite lookup_insert_eq in H'. injection H' as <-. eexists. by rewrite zget_app_r, Z.sub_diag by lia.
    + rewrite lookup_insert_ne in H' by done. destruct (Hd _ _ H') as (decl & Hg & Hs). exists decl.
      split; [|done]. rewrite zget_app_l; [done|]. assert (0 <= index < zlen (decls s)) by (apply zget_is_Some; by exists decl). lia.
  - apply Forall_app. split; [done|]. by apply Forall_singleton.
Qed.

Lemma add_finds s parents symbol kind position other : has_room s ->
  ParseScope_FindDeclaration ((add_declaration s symbol kind position).1 :: parents) other
  = if decide (other = symbol) then Some (Some (add_declaration s symbol kind position).2)
    else
      match symbolDict s !! other with
      | Some index => decl ← zget (decls s ++ [(add_declaration s symbol kind position).2]) index; Some (Some decl)
      | None => ParseScope_FindDeclaration parents other
      end.
Proof.
  unfold has_room. intros Hz. pose proof (zlen_nonneg (decls s)). simpl. rewrite wrapS_id by (unfold inS; lia).
  destruct (decide (other = symbol)) as [->|Hne].
  - rewrite lookup_insert_eq. by rewrite zget_app_r, Z.sub_diag by lia.
  - by rewrite lookup_insert_ne by done.
Qed.

Lemma add_keeps s parents symbol kind position other : scope_wf s -> has_room s -> other <> symbol ->
  ParseScope_FindDeclaration ((add_declaration s symbol kind position).1 :: parents) other
  = ParseScope_FindDeclaration (s :: parents) other.
Proof.
  intros Hs Hz Hne. rewrite add_finds by done. rewrite decide_False by done. simpl.
  destruct (symbolDict s !! other) as [index|] eqn:E; [|done]. destruct (sw_dict s Hs _ _ E) as (decl & Hg & _).
  rewrite zget_app_l; [done|]. assert (0 <= index < zlen (decls s)) by (apply zget_is_Some; by exists decl). lia.
Qed.

(** ** Declaring *)

(** The scopes from the innermost on that has variables of its own. *)
Fixpoint own_scopes (scopes : list ParseScope) : list ParseScope :=
  match scopes with
  | [] => []
  | scope :: parents => if ParseScope_IsPseudoScope scope then own_scopes parents else scopes
  end.

(** The classes of declarations of [parsedecl.h]: the fixed forms, and those
    documented as redeclarable, an undeclared name first among them. *)
Definition fixed_form (kind : Z) : Prop :=
  kind ∈ [PARSEDECL_CONST; PARSEDECL_SETONCECONST; PARSEDECL_AUTO; PARSEDECL_SETONCEAUTO; PARSEDECL_KEYWORD;
          PARSEDECL_POSTCONDITION; PARSEDECL_TILL; PARSEDECL_INCLUDE].
Definition redeclarable_form (kind : Z) : Prop :=
  kind ∈ [PARSEDECL_UNDECLARED; PARSEDECL_PRIMITIVE; PARSEDECL_GLOBAL; PARSEDECL_ARGUMENT; PARSEDECL_VARIABLE].

Lemma forms kind : decl_kind kind -> fixed_form kind /\ ~ redeclarable_form kind \/ redeclarable_form kind /\ ~ fixed_form kind.
Proof.
  unfold decl_kind, PARSEDECL_UNDECLARED, PARSEDECL_INCLUDE. intros H.
  assert (Hk : kind ∈ (Z.of_nat <$> seq 0 13)).
  { apply list_elem_of_fmap. exists (Z.to_nat kind). split; [lia|]. apply elem_of_seq. lia. }
  clear H; revert kind Hk. apply Forall_forall. apply (bool_decide_unpack (Forall _ _)). by vm_compute.
Qed.

(** The test of the code: nothing fixed, and nothing of another kind. *)
Lemma redeclarable_forms previous kind : decl_kind (declKind previous) ->
  redeclarable previous kind = true <-> redeclarable_form (declKind previous) /\ declKind previous = kind.
Proof.
  unfold redeclarable, decl_kind, redeclarable_form. rewrite !Z.geb_leb.
  unfold PARSEDECL_UNDECLARED, PARSEDECL_INCLUDE, PARSEDECL_CONST, PARSEDECL_PRIMITIVE, PARSEDECL_GLOBAL,
    PARSEDECL_ARGUMENT, PARSEDECL_VARIABLE. rewrite !elem_of_cons, elem_of_nil.
  set (p := declKind previous). intros Hp.
  destruct (Z.eqb_spec p kind), (Z.leb_spec 0 p), (Z.leb_spec 5 p); simpl; split; try done; lia.
Qed.

(** What keeps a name from being declared: the scope lists its names; the name is
    visible as a fixed form, in this scope or in one around; or, which the
    documentation does not provide for, it is visible as something redeclarable of
    another kind. *)
Inductive forbids (scopes : list ParseScope) (symbol : Symbol) (kind : Z) : Prop :=
  | listed scope parents : scopes = scope :: parents -> scopeKind scope = PARSESCOPE_EXPLICIT -> forbids scopes symbol kind
  | fixed previous : ParseScope_FindDeclaration scopes symbol = Some (Some previous) -> fixed_form (declKind previous) ->
      forbids scopes symbol kind
  | of_another_kind previous : ParseScope_FindDeclaration scopes symbol = Some (Some previous) ->
      redeclarable_form (declKind previous) -> declKind previous <> kind -> forbids scopes symbol kind.

(** What a declaration in these scopes answers, in all of its cases. *)
Definition declares (scopes : list ParseScope) (symbol : Symbol) (kind : Z) (position : option LexerPosition)
    (d : Declared) : Prop :=
  match d with
  | Refused error => messageKind error = PARSEMESSAGE_ERROR /\ m_position error = position /\ forbids scopes symbol kind
  | Made scopes' decl =>
      ~ forbids scopes symbol kind
      /\ pd_symbol decl = symbol /\ declKind decl = kind /\ pd_position decl = position
      /\ ParseScope_FindDeclaration scopes' symbol = Some (Some decl)
      /\ (forall other, other <> symbol -> ParseScope_FindDeclaration scopes' other = ParseScope_FindDeclaration scopes other)
      /\ map scopeKind scopes' = map scopeKind scopes
      /\ Forall scope_wf scopes'
  end.

Lemma DeclareHere_law scope parents symbol kind position :
  Forall scope_wf (scope :: parents) -> has_room scope -> decl_kind kind ->
  exists d, ParseScope_DeclareHere (scope :: parents) symbol kind position = Some d
    /\ declares (scope :: parents) symbol kind position d.
Proof.
  intros Hwf Hz Hkind. unfold ParseScope_DeclareHere.
  destruct (Find_safe (scope :: parents) symbol Hwf) as (answer & Ha & Hd & _). rewrite Ha. cbn [mbind option_bind].
  assert (Hnew : (forall previous, answer = Some previous -> redeclarable previous kind = true) ->
    exists d, (if scopeKind scope =? PARSESCOPE_EXPLICIT then
                 Some (Refused (an_error position "Cannot add `%S` to the current scope, which explicitly lists its variables."
                                  [NameOf symbol]))
               else let '(scope, decl) := add_declaration scope symbol kind position in Some (Made (scope :: parents) decl))
              = Some d /\ declares (scope :: parents) symbol kind position d).
  { intros Hprev. destruct (Z.eqb_spec (scopeKind scope) PARSESCOPE_EXPLICIT) as [He|He].
    - eexists. split; [reflexivity|]. split; [done|]. split; [done|]. by apply (listed _ _ _ scope parents).
    - destruct (add_declaration scope symbol kind position) as [scope' decl] eqn:E. eexists. split; [reflexivity|].
      apply Forall_cons in Hwf as [Hs Hp].
      assert (E1 : (add_declaration scope symbol kind position).1 = scope') by (by rewrite E).
      assert (E2 : (add_declaration scope symbol kind position).2 = decl) by (by rewrite E).
      split_and!; rewrite <- ?E1, <- ?E2; try done.
      + intros [s' p' [= <- <-] Hx|previous Hf Hx|previous Hf Hx Hne]; [done|..];
          rewrite Ha in Hf; injection Hf as Hf; destruct (Hd _ Hf) as [_ Hk];
          apply Hprev, (redeclarable_forms _ _ Hk) in Hf as [Hr Hsame]; [|done].
        by destruct (forms _ Hk) as [[_ ?]|[_ ?]].
      + rewrite add_finds by done. by rewrite decide_True.
      + intros other Hne. by apply add_keeps.
      + constructor; [by apply add_wf|done]. }
  destruct answer as [previous|]; [|by apply Hnew].
  destruct (redeclarable previous kind) eqn:Er; [apply Hnew; by intros ? [= <-]|].
  destruct (Hd previous eq_refl) as [_ Hpk]. unfold cannot_redeclare.
  destruct (kind_named kind Hkind) as [this ->], (kind_named _ Hpk) as [that ->]. cbn [mbind option_bind].
  eexists. split; [reflexivity|]. split; [done|]. split; [done|].
  destruct (forms _ Hpk) as [[Hf _]|[Hr _]]; [by apply (fixed _ _ _ previous)|].
  apply (of_another_kind _ _ _ previous); [done|done|]. intros Hsame.
  by rewrite (proj2 (redeclarable_forms previous kind Hpk) (conj Hr Hsame)) in Er.
Qed.

(** What the pseudo-scopes around a declaration see of it. *)
Lemma behind_pseudo scope parents parents' other :
  ParseScope_FindDeclaration parents' other = ParseScope_FindDeclaration parents other ->
  ParseScope_FindDeclaration (scope :: parents') other = ParseScope_FindDeclaration (scope :: parents) other.
Proof. simpl. by destruct (symbolDict scope !! other). Qed.

(** C19: declaring a name in a chain of well-formed scopes, one of which has variables
    of its own, never reads outside an array or follows a NULL pointer, and always
    answers.  As documented, it is refused when the innermost such scope lists its
    names, and a fixed form is never declared again in its scope, while a new
    name, or one of the same redeclarable kind, is.  The code is stricter than the
    documentation in two ways: it refuses a name whose fixed form is visible from
    a scope around, and one that is visible as something of another kind, even of
    a kind documented as redeclarable; these are all the refusals there are.  A
    refused declaration is an error at its position.  One that is made is found in
    that scope under its name with its kind and position; every other name is found
    as before from the whole chain; the kinds of the scopes stay the same, and the
    scopes well-formed. *)
Theorem Declare_law scopes symbol kind position :
  Forall scope_wf scopes -> Forall has_room scopes -> own_scopes scopes <> [] -> decl_kind kind ->
  exists d, ParseScope_Declare scopes symbol kind position = Some d
    /\ match d with
       | Refused error => declares (own_scopes scopes) symbol kind position d
       | Made scopes' decl =>
           declares (own_scopes scopes) symbol kind position (Made (own_scopes scopes') decl)
           /\ (forall other, other <> symbol ->
                 ParseScope_FindDeclaration scopes' other = ParseScope_FindDeclaration scopes other)
           /\ map scopeKind scopes' = map scopeKind scopes
           /\ Forall scope_wf scopes'
       end.
Proof.
  intros Hwf Hroom Hown Hkind. induction scopes as [|scope parents IH]; [done|].
  apply Forall_cons in Hroom as [Hz Hroom]. cbn [own_scopes ParseScope_Declare] in *.
  destruct (ParseScope_IsPseudoScope scope) eqn:Ep.
  - pose proof Hwf as Hwf'. apply Forall_cons in Hwf as [Hs Hwf].
    destruct (IH Hwf Hroom Hown) as (d & -> & H). cbn [mbind option_bind]. eexists. split; [reflexivity|].
    destruct d as [error|parents' decl]; [exact H|]. destruct H as (H1 & H2 & H3 & H4). cbn [own_scopes]. rewrite Ep.
    split; [exact H1|]. split; [|split].
    + intros other Hne. by apply behind_pseudo, H2.
    + simpl. by rewrite H3.
    + by constructor.
  - destruct (DeclareHere_law scope parents symbol kind position Hwf Hz Hkind) as (d & E & H). exists d. split; [exact E|].
    destruct d as [error|scopes' decl]; [exact H|].
    assert (Hp : own_scopes scopes' = scopes').
    { destruct H as (_ & _ & _ & _ & _ & _ & Hk & _). destruct scopes' as [|s' parents']; [done|]. simpl in *.
      injection Hk as Hk _. unfold ParseScope_IsPseudoScope in *. by rewrite Hk, Ep. }
    rewrite Hp. split; [exact H|]. by destruct H as (_ & _ & _ & _ & _ & H5 & H6 & H7).
Qed.

(** ** New scopes *)

Lemma empty_wf kind maxDecls syntax : scope_wf (mkParseScope kind ∅ [] maxDecls syntax).
Proof. split; simpl; [intros ? ? H; by rewrite lookup_empty in H|constructor]. Qed.

Lemma CreateChild_wf parents kind scopes : Forall scope_wf parents -> ParseScope_CreateChild parents kind = Some scopes ->
  Forall scope_wf scopes /\ forall symbol, ParseScope_FindDeclaration scopes symbol = ParseScope_FindDeclaration parents symbol.
Proof.
  destruct parents as [|parent parents]; [done|]. intros Hp [= <-]. split; [constructor; [apply empty_wf|done]|].
  intros symbol. unfold ParseScope_FindDeclaration at 1. simpl. by rewrite lookup_empty.
Qed.

(** ** Witness *)

(** The body of a function at the outermost level. *)
Definition function_scopes : list ParseScope :=
  [mkParseScope PARSESCOPE_FUNCTION ∅ [] 16 []; mkParseScope PARSESCOPE_OUTERMOST ∅ [] 16 []].

Lemma function_scopes_ready : Forall scope_wf function_scopes /\ Forall has_room function_scopes
  /\ own_scopes function_scopes <> [] /\ decl_kind PARSEDECL_VARIABLE.
Proof.
  split_and!; try done; [|by repeat constructor].
  repeat (apply Forall_cons; split; [apply empty_wf|]). constructor.
Qed.

Lemma Declare_law_witness : exists d,
  ParseScope_Declare function_scopes 200 PARSEDECL_VARIABLE None = Some d
  /\ match d with
     | Refused error => declares (own_scopes function_scopes) 200 PARSEDECL_VARIABLE None d
     | Made scopes' decl =>
         declares (own_scopes function_scopes) 200 PARSEDECL_VARIABLE None (Made (own_scopes scopes') decl)
         /\ (forall other, other <> 200 ->
               ParseScope_FindDeclaration scopes' other = ParseScope_FindDeclaration function_scopes other)
         /\ map scopeKind scopes' = map scopeKind function_scopes
         /\ Forall scope_wf scopes'
     end.
Proof.
  destruct function_scopes_ready as (H1 & H2 & H3 & H4).
  exact (Declare_law function_scopes 200 PARSEDECL_VARIABLE None H1 H2 H3 H4).
Defined.
