(* ===== verification/Parser.v ===== *)
(** * Parser: the state of the parser

    [include/smile/parsing/parser.h], [internal/parserinternal.h], and
    [src/parsing/parser/parserhelpers.c] and [parsererrors.c]: the state, tokens
    with the declarations of their names, scopes, messages, lookahead and recovery.

    A computation is a state transformer; [Trouble] says how it can leave the
    defined behaviour of C or of the model: in the lexer, through a NULL pointer,
    outside an array, through a variable that was not set, by writing into the
    empty list, which all lists share; [TooDeep] is a loop or a recursion cut
    short, [NotModelled] a construct the model leaves out. *)

From Stdlib Require Import String.
From S2P Require Import Prelude FiniteMap Text StringBuilder IdentTable SymbolTable Lexer LexNames LexNumbers LexStrings LexerNext.
From S2P Require Import Object Expr KnownSymbols ParseScope.

Inductive Trouble :=
  | InLexer (why : Fault) | NullPointer | OutsideArray | NotSet | NullListWritten | TooDeep
  | NotModelled (what : string).

(** [file_number]: which string a filename is, for the positions of expressions;
    the other members are symbols of [Smile_KnownSymbols]; [past_symbol] is what a
    symbol object is followed by in memory, [unset] what a local that was never
    set holds. *)
Class ParserEnv := {
  file_number : Str -> nat;
  sym_Object : Symbol; sym_List : Symbol; sym_of : Symbol; sym_combine : Symbol; sym_cons : Symbol;
  sym_join : Symbol; sym_range_to : Symbol;
  past_symbol : option LexerPosition; unset : Expr
}.

(** ** Building lists (smilelist.h) *)

Section Lists.

Definition SmileList_Cons (a d : Expr) : Expr := ECons a d NoSource.
Definition SmileList_ConsWithSource (a d : Expr) (position : LexerPosition) : Expr := ECons a d (WithSource (Some position)).

(** [SmileList_CreateOneWithSource], [...TwoWithSource], [...ThreeWithSource], [...FourWithSource] *)
Definition list_at (position : LexerPosition) (l : list Expr) : Expr :=
  fold_right (fun a d => SmileList_ConsWithSource a d position) ENull l.

Definition plain_list (l : list Expr) : Expr := fold_right SmileList_Cons ENull l.

(** A list under construction: its elements with the positions of their cells. *)
Definition linked (l : list (Expr * Source)) : Expr := fold_right (fun '(a, s) d => ECons a d s) ENull l.

Definition SmileList_CreateDotWithSource (left right : Expr) (position : LexerPosition) : Expr :=
  list_at position [ESymbol SYMBOL__DOT; left; right].
Definition SmileList_CreateIndexWithSource (left right : Expr) (position : LexerPosition) : Expr :=
  list_at position [ESymbol SYMBOL__INDEX; left; right].
Definition SmileList_CreateDot (left right : Expr) : Expr := plain_list [ESymbol SYMBOL__DOT; left; right].

Definition SmileObject_IsCallToSymbol (symbol : Symbol) (obj : Expr) : bool :=
  match obj with ECons (ESymbol s) _ _ => s =? symbol | _ => false end.

(** The object of constructs that leave nothing behind: an object of kind 0. *)
Definition Parser_IgnorableObject : Expr := EUnsupported 0.

Definition is_ignorable (e : Expr) : bool := match e with EUnsupported 0 => true | _ => false end.

(** [if (e == Parser_IgnorableObject) e = NullObject;] *)
Definition null_if_ignorable (e : Expr) : Expr := if is_ignorable e then ENull else e.

End Lists.

(** ** Modes (parserinternal.h) *)

Definition BINARYLINEBREAKS_DISALLOWED : Z := 0.
Definition BINARYLINEBREAKS_ALLOWED : Z := 1.
Definition BINARYLINEBREAKS_MASK : Z := 1.
Definition COMMAMODE_NORMAL : Z := 0.
Definition COMMAMODE_VARIABLEDECLARATION : Z := 2.
Definition COMMAMODE_MASK : Z := 2.
Definition COLONMODE_MEMBERACCESS : Z := 0.
Definition COLONMODE_MEMBERDECL : Z := 4.
Definition COLONMODE_MASK : Z := 4.

(** [(modeFlags & ~mask) | mode] *)
Definition with_mode (modeFlags mask mode : Z) : Z := Z.lor (Z.land modeFlags (Z.lnot mask)) mode.
Definition has_mode (modeFlags mask mode : Z) : bool := Z.land modeFlags mask =? mode.

(** [BINARYLINEBREAKS_DISALLOWED | COMMAMODE_NORMAL | COLONMODE_MEMBERACCESS] *)
Definition default_mode : Z :=
  Z.lor (Z.lor BINARYLINEBREAKS_DISALLOWED COMMAMODE_NORMAL) COLONMODE_MEMBERACCESS.
(** ... and with line breaks allowed. *)
Definition loose_mode : Z := Z.lor (Z.lor BINARYLINEBREAKS_ALLOWED COMMAMODE_NORMAL) COLONMODE_MEMBERACCESS.

(** ** Tokens *)

(** [token->data.symbol]: a narrower member than the symbol is read with the bytes
    around it, taken to be zero. *)
Definition data_value (d : TokenData) : Z :=
  match d with
  | NoData => 0
  | DataSymbol z | DataByte z | DataInt16 z | DataInt32 z | DataInt64 z | DataReal32 z | DataReal64 z
  | DataReal128 z | DataFloat32 z | DataFloat64 z | DataChar z | DataUni z => z
  end.
Definition data_symbol (t : Token) : Symbol := wrapS 32 (data_value (data t)).

(** [token->text] where it is a string. *)
Definition text_of (t : Token) : Str := match token_text t with Text s => s | _ => [] end.

Definition is_kind (t : Token) (ks : list TokenKind) : bool := bool_decide (kind t ∈ ks).

Definition alpha_kinds : list TokenKind := [TOKEN_ALPHANAME; TOKEN_UNKNOWNALPHANAME].
Definition punct_kinds : list TokenKind := [TOKEN_PUNCTNAME; TOKEN_UNKNOWNPUNCTNAME].
Definition name_kinds : list TokenKind := alpha_kinds ++ punct_kinds.
Definition right_kinds : list TokenKind := [TOKEN_RIGHTBRACE; TOKEN_RIGHTBRACKET; TOKEN_RIGHTPARENTHESIS].

(** A name that is the given keyword. *)
Definition is_word (t : Token) (symbol : Symbol) : bool := is_kind t alpha_kinds && (data_symbol t =? symbol).

(** An operator continues an expression on the same line, or where line breaks are allowed. *)
Definition continues (modeFlags : Z) (t : Token) : bool :=
  has_mode modeFlags BINARYLINEBREAKS_MASK BINARYLINEBREAKS_ALLOWED || negb (isFirstContentOnLine t).

Section Parser.
Context {D : Type} {Ops : MapOps Str Z D} {Real : RealParsers} {Env : ParserEnv}.
#[local] Notation Lexer := (Lexer D).

Definition of_position (p : Position) : LexerPosition :=
  Expr.mkPosition (file_number <$> Lexer.pos_filename p) (Lexer.pos_line p) (Lexer.pos_column p).

Definition Token_GetPosition (t : Token) : LexerPosition := of_position (position t).

(** ** The state *)

(** [currentScope] is the chain of scopes; [symbols] is [Smile_SymbolTable], which
    the lexer of a source file shares; [parseMessages] is the messages that its
    text joins. *)
Record Parser := mkParser {
  lexer : option Lexer; symbols : SymbolTableInt D; currentScope : list ParseScope;
  customFollowSet : option (gset Symbol); messages : list ParseMessage; parseMessages : list ParseMessage;
  externalVars : list (Symbol * Expr)
}.

Definition set_lexer (l : option Lexer) (p : Parser) : Parser :=
  mkParser l (symbols p) (currentScope p) (customFollowSet p) (messages p) (parseMessages p) (externalVars p).
Definition set_tables (l : option Lexer) (table : SymbolTableInt D) (p : Parser) : Parser :=
  mkParser l table (currentScope p) (customFollowSet p) (messages p) (parseMessages p) (externalVars p).
Definition set_scopes (scopes : list ParseScope) (p : Parser) : Parser :=
  mkParser (lexer p) (symbols p) scopes (customFollowSet p) (messages p) (parseMessages p) (externalVars p).
Definition set_messages (l : list ParseMessage) (p : Parser) : Parser :=
  mkParser (lexer p) (symbols p) (currentScope p) (customFollowSet p) l (parseMessages p) (externalVars p).
Definition set_parseMessages (l : list ParseMessage) (p : Parser) : Parser :=
  mkParser (lexer p) (symbols p) (currentScope p) (customFollowSet p) (messages p) l (externalVars p).
Definition set_externalVars (l : list (Symbol * Expr)) (p : Parser) : Parser :=
  mkParser (lexer p) (symbols p) (currentScope p) (customFollowSet p) (messages p) (parseMessages p) l.

Definition Parser_Create (table : SymbolTableInt D) : Parser := mkParser None table [] None [] [] [].

Definition P (A : Type) : Type := Parser -> Trouble + (A * Parser).

#[export] Instance P_ret : MRet P := fun A x p => inr (x, p).
#[export] Instance P_bind : MBind P := fun A B f m p =>
  match m p with inl why => inl why | inr (x, p) => f x p end.

Definition trouble {A} (why : Trouble) : P A := fun _ => inl why.
Definition ask {A} (f : Parser -> A) : P A := fun p => inr (f p, p).
Definition modify (f : Parser -> Parser) : P unit := fun p => inr (tt, f p).
Definition demand {A} (why : Trouble) (o : option A) : P A := match o with Some x => mret x | None => trouble why end.

(** ** The lexer *)

Definition get_lexer : P Lexer := l ← ask lexer; demand NullPointer l.

(** An operation of the lexer on the symbol table it shares, if it has one. *)
Definition with_lexer {A} (f : Lexer -> Outcome (Lexer * A)) : P A :=
  l ← get_lexer;
  table ← ask symbols;
  let l := match lx_symbolTable l with Some _ => set_symbols (Some table) l | None => l end in
  match f l with
  | Wrong why => trouble (InLexer why)
  | Done (l, x) =>
      let table := match lx_symbolTable l with Some table => table | None => table end in
      _ ← modify (set_tables (Some l) table); mret x
  end.

Definition lexer_next : P TokenKind := with_lexer Lexer_Next.
Definition lexer_peek : P TokenKind := with_lexer Lexer_Peek.
Definition unget : P unit := l ← get_lexer; modify (set_lexer (Some (Lexer_Unget l))).

(** [parser->lexer->token], and [Lexer_GetPosition]. *)
Definition the_token : P Token := l ← get_lexer; mret (Lexer_Token l).
Definition lexer_position : P LexerPosition := l ← get_lexer; mret (of_position (Lexer_GetPosition l)).

(** A pointer to a token is its place in the ring of the lexer, which later tokens
    overwrite. *)
Definition token_pointer : P nat := l ← get_lexer; mret (ring_slot (lx_tokenIndex l)).
Definition token_at (pointer : nat) : P Token := l ← get_lexer; mret (default no_token (lx_tokenBuffer l !! pointer)).

Definition change_token (f : Token -> Token) : P unit := l ← get_lexer; modify (set_lexer (Some (on_token f l))).

(** The symbol of a name, which the lexer may not have looked up. *)
Definition name_symbol : P Symbol :=
  t ← the_token;
  if data_symbol t =? 0 then
    table ← ask symbols;
    '(table, symbol) ← demand (InLexer SymbolFault) (SymbolTable_GetSymbol table (text_of t));
    _ ← modify (fun p => set_tables (lexer p) table p);
    _ ← change_token (set_data (DataSymbol symbol));
    mret symbol
  else mret (data_symbol t).

(** The kinds of a name that is declared and of one that is not. *)
Definition kinds_of_name (k : TokenKind) : option (TokenKind * TokenKind) :=
  match k with
  | TOKEN_ALPHANAME | TOKEN_UNKNOWNALPHANAME => Some (TOKEN_ALPHANAME, TOKEN_UNKNOWNALPHANAME)
  | TOKEN_PUNCTNAME | TOKEN_UNKNOWNPUNCTNAME => Some (TOKEN_PUNCTNAME, TOKEN_UNKNOWNPUNCTNAME)
  | _ => None
  end.

Definition Parser_NextToken : P Token :=
  tokenKind ← lexer_next;
  match kinds_of_name tokenKind with
  | Some (known, unknown) =>
      symbol ← name_symbol;
      scopes ← ask currentScope;
      _ ← change_token (set_kind (if ParseScope_IsDeclared scopes symbol then known else unknown));
      the_token
  | None => the_token
  end.

Definition Parser_NextTokenWithDeclaration : P (Token * option ParseDecl) :=
  tokenKind ← lexer_next;
  match kinds_of_name tokenKind with
  | Some (known, unknown) =>
      symbol ← name_symbol;
      scopes ← ask currentScope;
      decl ← demand OutsideArray (ParseScope_FindDeclaration scopes symbol);
      _ ← change_token (set_kind (match decl with Some _ => known | None => unknown end));
      t ← the_token; mret (t, decl)
  | None => t ← the_token; mret (t, None)
  end.

(** ** Messages (parsererrors.c) *)

Definition Parser_AddMessage (message : ParseMessage) : P unit :=
  modify (fun p => set_messages (messages p ++ [message]) p).

Definition Parser_AddError (position : option LexerPosition) (format : string) (details : list Detail) : P unit :=
  Parser_AddMessage (an_error position format details).

Definition Parser_AddFatalError (position : option LexerPosition) (format : string) (details : list Detail) : P unit :=
  Parser_AddMessage (ParseMessage_Create PARSEMESSAGE_FATAL position (Formatted (quoting format) details)).

Definition Parser_AddWarning (position : option LexerPosition) (format : string) (details : list Detail) : P unit :=
  Parser_AddMessage (ParseMessage_Create PARSEMESSAGE_WARNING position (Formatted (quoting format) details)).

Definition Parser_AddInfo (position : option LexerPosition) (format : string) (details : list Detail) : P unit :=
  Parser_AddMessage (ParseMessage_Create PARSEMESSAGE_INFO position (Formatted (quoting format) details)).

Definition count_messages (ks : list MessageKind) (p : Parser) : Z :=
  zlen (filter (fun m => messageKind m ∈ ks) (messages p)).

Definition Parser_GetWarningCount : Parser -> Z := count_messages [PARSEMESSAGE_WARNING].
Definition Parser_GetErrorCount : Parser -> Z := count_messages [PARSEMESSAGE_ERROR].
Definition Parser_GetFatalErrorCount : Parser -> Z := count_messages [PARSEMESSAGE_FATAL].
Definition Parser_GetErrorOrWarningCount : Parser -> Z :=
  count_messages [PARSEMESSAGE_WARNING; PARSEMESSAGE_ERROR; PARSEMESSAGE_FATAL].

(** ** Scopes *)

Definition Parser_BeginScope (parseScopeKind : Z) : P unit :=
  scopes ← ask currentScope;
  scopes ← demand NullPointer (ParseScope_CreateChild scopes parseScopeKind);
  modify (set_scopes scopes).

(** The innermost scope, which its parent replaces. *)
Definition Parser_EndScope : P ParseScope :=
  scopes ← ask currentScope;
  match scopes with
  | [] => trouble NullPointer
  | scope :: parents => _ ← modify (set_scopes parents); mret scope
  end.

(** A declaration in the current scope: the error, or the declaration. *)
Definition declare (how : list ParseScope -> Symbol -> Z -> option LexerPosition -> option Declared)
    (symbol : Symbol) (kind : Z) (position : option LexerPosition) : P (ParseError + ParseDecl) :=
  scopes ← ask currentScope;
  d ← demand OutsideArray (how scopes symbol kind position);
  match d with
  | Refused error => mret (inl error)
  | Made scopes decl => _ ← modify (set_scopes scopes); mret (inr decl)
  end.

(** ** Lookahead and recovery (parserhelpers.c) *)

(** [count] elements of an array; no answer when they are more than it has and none
    of them is the needle. *)
Fixpoint IntArrayContains (needle : TokenKind) (haystack : list TokenKind) (count : nat) : option bool :=
  match count with
  | O => Some false
  | S count =>
      match haystack with
      | [] => None
      | k :: haystack => if decide (k = needle) then Some true else IntArrayContains needle haystack count
      end
  end.

Definition BracesBracketsParenthesesBar : list TokenKind :=
  [TOKEN_LEFTBRACE; TOKEN_LEFTBRACKET; TOKEN_LEFTPARENTHESIS; TOKEN_RIGHTBRACE; TOKEN_RIGHTBRACKET;
   TOKEN_RIGHTPARENTHESIS; TOKEN_BAR].
Definition BracesBracketsParenthesesBarName : list TokenKind :=
  BracesBracketsParenthesesBar ++ [TOKEN_ALPHANAME; TOKEN_UNKNOWNALPHANAME].
Definition RightBracesBracketsParentheses : list TokenKind :=
  [TOKEN_RIGHTBRACE; TOKEN_RIGHTBRACKET; TOKEN_RIGHTPARENTHESIS].

(** The size of a pointer, not of the array, divided by the size of an [Int]. *)
Definition sizeof_Int : Z := 8.
Definition sizeof_pointer : Z := 8.
Definition Recovery_Count : nat := Z.to_nat (sizeof_pointer / sizeof_Int).

Fixpoint Parser_Recover (fuel : nat) (tokenKinds : list TokenKind) (numTokenKinds : nat) : P Token :=
  match fuel with
  | O => trouble TooDeep
  | S fuel =>
      t ← Parser_NextToken;
      if decide (kind t = TOKEN_EOI) then _ ← unget; mret t
      else
        found ← demand OutsideArray (IntArrayContains (kind t) tokenKinds numTokenKinds);
        if (found : bool) then _ ← unget; mret t else Parser_Recover fuel tokenKinds numTokenKinds
  end.

(** The length is read as [SmileList_SafeLength] does. *)
Definition Parser_IsLValue (obj : Expr) : P bool :=
  if isSymbol obj then mret true
  else if SmileObject_IsCallToSymbol SYMBOL__DOT obj || SmileObject_IsCallToSymbol SYMBOL__INDEX obj then
    length ← demand NullPointer (SmileList_SafeLength obj); mret (length =? 3)
  else mret false.

Definition Parser_HasLookaheadOf (ks : list TokenKind) : P bool :=
  t ← Parser_NextToken; _ ← unget; mret (is_kind t ks).

Definition Parser_HasEqualLookahead : P bool := Parser_HasLookaheadOf [TOKEN_EQUAL; TOKEN_EQUALWITHOUTWHITESPACE].
Definition Parser_HasEqualOrColonLookahead : P bool :=
  Parser_HasLookaheadOf [TOKEN_EQUAL; TOKEN_EQUALWITHOUTWHITESPACE; TOKEN_COLON].
Definition Parser_HasLookahead (tokenKind : TokenKind) : P bool := Parser_HasLookaheadOf [tokenKind].

Definition Parser_Has2Lookahead (tokenKind1 tokenKind2 : TokenKind) : P bool :=
  t1 ← Parser_NextToken;
  t2 ← Parser_NextToken;
  _ ← unget;
  _ ← unget;
  mret (bool_decide (kind t1 = tokenKind1) && bool_decide (kind t2 = tokenKind2)).

Definition Parser_Peek2 : P (option (Token * Token)) :=
  t1 ← Parser_NextToken;
  if is_kind t1 [TOKEN_EOI; TOKEN_ERROR] then _ ← unget; mret None
  else
    t2 ← Parser_NextToken;
    _ ← unget;
    _ ← unget;
    mret (if is_kind t2 [TOKEN_EOI; TOKEN_ERROR] then None else Some (t1, t2)).

(** Custom syntax rules: no scope of the model has any, since the construct that adds
    them is left out; without a class of rules, nothing is matched. *)
Definition GetSyntaxClass (syntaxClassSymbol : Symbol) : P bool :=
  scopes ← ask currentScope;
  match scopes with
  | [] => trouble NullPointer
  | scope :: _ => mret (bool_decide (syntaxClassSymbol ∈ syntaxTable scope))
  end.

Definition Parser_ApplyCustomSyntax (syntaxClassSymbol : Symbol) : P unit :=
  present ← GetSyntaxClass syntaxClassSymbol;
  if (present : bool) then trouble (NotModelled "custom syntax rules") else mret tt.

End Parser.

#[global] Arguments Parser : clear implicits.
#[global] Arguments P : clear implicits.
