(* ===== verification/ParseForms.v ===== *)
(** * ParseForms: expressions in a row, scopes and brackets of the parser

    [src/parsing/parser/parsercore.c] but for its entry points, the [$scope] form of
    [parsescope.c], and [Parser_ParseParentheses] and the expected brackets of
    [parseterm.c].

    One definition per C function.  The functions are mutually recursive through the
    members of [Recur], and their loops are bounded by [loops]; both are closed in
    [ParseExprs].  After an error the out parameter is not read, except where [unset]
    says so. *)

From Stdlib Require Import String.
From S2P Require Import Prelude FiniteMap Text StringBuilder IdentTable SymbolTable Lexer LexNames LexNumbers LexStrings LexerNext.
From S2P Require Import Object Expr KnownSymbols ParseScope Parser.

Notation Parsed := (ParseError + Expr)%type.

(** [if ((error = m) != NULL) return error;] *)
Notation "'let+' x := m 'in' k" :=
  (mbind (fun r => match r with inl error => mret (inl error) | inr x => k end) m)
  (at level 200, x pattern, right associativity).

Inductive TemplateKind := TemplateKind_None | TemplateKind_Template | TemplateKind_TemplateWithSplicing.

Definition template_rank (k : TemplateKind) : Z :=
  match k with TemplateKind_None => 0 | TemplateKind_Template => 1 | TemplateKind_TemplateWithSplicing => 2 end.

(** The functions the others call recursively. *)
Record Recur (D : Type) := mkRecur {
  r_Expr : Z -> P D Parsed;
  r_OpEquals : Z -> P D Parsed;
  r_Equals : Z -> P D Parsed;
  r_OrExpr : Z -> P D Parsed;
  r_Term : Z -> option Token -> P D Parsed;
  r_RawListTerm : Z -> P D (ParseError + Expr * TemplateKind)
}.
Arguments r_Expr {D}. Arguments r_OpEquals {D}. Arguments r_Equals {D}. Arguments r_OrExpr {D}. Arguments r_Term {D}.
Arguments r_RawListTerm {D}.

(** The position of a cell, NULL for one without. *)
Definition getSourceLocation (list : Expr) : option LexerPosition :=
  match list with ECons _ _ (WithSource position) => position | _ => None end.

Section Forms.
Context {D : Type} {Ops : MapOps Str Z D} {Real : RealParsers} {Env : ParserEnv} {CE : CompilerEnv}.
#[local] Notation P := (P D).

Variables (loops : nat) (K : Recur D).

#[local] Notation positioned t := (Some (Token_GetPosition t)).
#[local] Notation sourced p := (WithSource (Some p)).

Definition fail {A} (position : option LexerPosition) (format : string) (details : list Detail) : P (ParseError + A) :=
  mret (inl (an_error position format details)).

Definition recover (tokenKinds : list TokenKind) : P Token := Parser_Recover loops tokenKinds Recovery_Count.

(** ** Expressions in a row (parsercore.c) *)

(** The loop of [Parser_ParseExprsOpt] and of [Parser_ParseCallArgsOpt], which differ
    in the function they call; the list so far is the argument. *)
Fixpoint expressions (fuel : nat) (parse : Z -> P Parsed) (modeFlags : Z) (l : list (Expr * Source))
  : P (list (Expr * Source)) :=
  match fuel with
  | O => trouble TooDeep
  | S fuel =>
      t ← Parser_NextToken;
      if is_kind t (TOKEN_EOI :: right_kinds) then _ ← unget; mret l
      else
        let lexerPosition := Token_GetPosition t in
        _ ← unget;
        r ← parse modeFlags;
        match r with
        | inr expr => expressions fuel parse modeFlags (if is_ignorable expr then l else l ++ [(expr, sourced lexerPosition)])
        | inl error =>
            _ ← Parser_AddMessage error;
            t ← recover BracesBracketsParenthesesBar;
            if is_kind t right_kinds then mret l else expressions fuel parse modeFlags l
        end
  end.

Definition Parser_ParseExprsOpt (modeFlags : Z) (head : list (Expr * Source)) : P (list (Expr * Source)) :=
  expressions loops (r_Expr K) modeFlags head.
Definition Parser_ParseCallArgsOpt (modeFlags : Z) (head : list (Expr * Source)) : P (list (Expr * Source)) :=
  expressions loops (r_OrExpr K) modeFlags head.

Fixpoint import_vars (vars : list (Symbol * Expr)) (head : list (Expr * Source)) : P (list (Expr * Source)) :=
  match vars with
  | [] => mret head
  | (symbol, obj) :: vars =>
      _ ← declare ParseScope_DeclareHere symbol PARSEDECL_CONST None;
      import_vars vars (head ++ [(plain_list [ESymbol SYMBOL__SET; ESymbol symbol; obj], NoSource)])
  end.

Definition Parser_ImportExternalVars (head : list (Expr * Source)) : P (list (Expr * Source)) :=
  vars ← ask externalVars;
  match vars with
  | [] => mret head
  | _ => _ ← modify (set_externalVars []); import_vars vars head
  end.

(** What a declaration is among the variables of a scope. *)
Definition scope_variable (d : ParseDecl) : option Expr :=
  if declKind d =? PARSEDECL_AUTO then Some (plain_list [ESymbol (pd_symbol d); ESymbol sym_auto])
  else if (declKind d =? PARSEDECL_CONST) || (declKind d =? PARSEDECL_INCLUDE) then
    Some (plain_list [ESymbol (pd_symbol d); ESymbol sym_set_once])
  else if declKind d =? PARSEDECL_VARIABLE then Some (ESymbol (pd_symbol d))
  else None.

(** The expression of a scope with these declarations and this body. *)
Definition scope_form (l : list ParseDecl) (head : list (Expr * Source)) (startPosition : LexerPosition) : Expr :=
  match omap scope_variable l with
  | [] =>
      match head with
      | [] => ENull
      | [(expr, _)] => expr
      | _ => SmileList_ConsWithSource (ESymbol SYMBOL__PROGN) (linked head) startPosition
      end
  | variables =>
      SmileList_ConsWithSource (ESymbol SYMBOL__SCOPE)
        (SmileList_ConsWithSource (plain_list variables) (linked head) startPosition) startPosition
  end.

(** The expression, and the scope of the body. *)
Definition Parser_ParseScopeBody : P (Expr * ParseScope) :=
  startPosition ← lexer_position;
  _ ← Parser_BeginScope PARSESCOPE_SCOPEDECL;
  head ← Parser_ImportExternalVars [];
  head ← Parser_ParseExprsOpt default_mode head;
  scope ← Parser_EndScope;
  mret (scope_form (decls scope) head startPosition, scope).

Definition Parser_ParseScope : P Parsed :=
  startToken ← Parser_NextToken;
  if negb (is_kind startToken [TOKEN_LEFTBRACE]) then fail (positioned startToken) "Expected { ... to begin a scope" []
  else
    '(expr, _) ← Parser_ParseScopeBody;
    endToken ← Parser_NextToken;
    if negb (is_kind endToken [TOKEN_RIGHTBRACE]) then
      fail (positioned endToken) "Expected ... } to end the scope starting on line %d"
        [Line (Lexer.pos_line (position startToken))]
    else mret (inr expr).

Definition Parser_ParseParentheses : P Parsed :=
  k ← lexer_next;
  t ← the_token;
  if negb (bool_decide (k = TOKEN_LEFTPARENTHESIS)) then
    _ ← Parser_AddFatalError (positioned t) "Expected '(' as first token in Parser_ParseParentheses()." [];
    mret (inr ENull)
  else
    r ← r_Expr K loose_mode;
    match r with
    | inl error =>
        _ ← Parser_AddMessage error;
        _ ← recover RightBracesBracketsParentheses;
        mret (inr ENull)
    | inr result =>
        close ← Parser_HasLookahead TOKEN_RIGHTPARENTHESIS;
        if negb close then
          fail (positioned t) "Missing ')' after expression starting on line %d." [Line (Lexer.pos_line (position t))]
        else _ ← Parser_NextToken; mret (inr (null_if_ignorable result))
    end.

(** ** Brackets (parseterm.c) *)

Definition Parser_ExpectLeftBracket (firstUnaryToken : option Token) (name : string) (startPosition : LexerPosition)
  : P (ParseError + unit) :=
  here ← Parser_HasLookahead TOKEN_LEFTBRACKET;
  if negb here then
    _ ← recover RightBracesBracketsParentheses;
    fail (Some (match firstUnaryToken with Some t => Token_GetPosition t | None => startPosition end))
      "Missing '[' in %s starting on line %d." [Words (bytes name); Line (pos_line startPosition)]
  else _ ← Parser_NextToken; mret (inr tt).

Definition Parser_ExpectRightBracket (name : string) (startPosition : LexerPosition) : P (ParseError + unit) :=
  here ← Parser_HasLookahead TOKEN_RIGHTBRACKET;
  if negb here then
    t ← the_token;
    _ ← recover RightBracesBracketsParentheses;
    fail (positioned t) "Missing ']' in %s starting on line %d." [Words (bytes name); Line (pos_line startPosition)]
  else _ ← Parser_NextToken; mret (inr tt).

(** ** The [$scope] form (parsescope.c) *)

Fixpoint name_sublist (fuel : nat) (l : list (Expr * Source)) : P (list (Expr * Source)) :=
  match fuel with
  | O => trouble TooDeep
  | S fuel =>
      t ← Parser_NextToken;
      if is_kind t BracesBracketsParenthesesBar then _ ← unget; mret l
      else if is_kind t name_kinds then name_sublist fuel (l ++ [(ESymbol (data_symbol t), sourced (Token_GetPosition t))])
      else _ ← Parser_AddMessage (an_error (positioned t) "Missing name for [$scope] variable." []); name_sublist fuel l
  end.

Definition Parser_ParseNameSublist : P (list (Expr * Source)) := name_sublist loops [].

(** The kinds that end the names of a scope: all but a left bracket. *)
Definition scope_names_end : list TokenKind :=
  [TOKEN_BAR; TOKEN_LEFTBRACE; TOKEN_LEFTPARENTHESIS; TOKEN_RIGHTBRACE; TOKEN_RIGHTBRACKET; TOKEN_RIGHTPARENTHESIS].

(** The message of a missing name is about the current token, which [token] points to. *)
Definition missing_scope_name (pointer : nat) : P unit :=
  t ← token_at pointer; Parser_AddMessage (an_error (positioned t) "Missing name for [$scope] variable." []).

Fixpoint scope_names_loop (fuel : nat) (l : list (Expr * Source)) : P (ParseError + list (Expr * Source)) :=
  match fuel with
  | O => trouble TooDeep
  | S fuel =>
      t ← Parser_NextToken;
      pointer ← token_pointer;
      if is_kind t scope_names_end then _ ← unget; mret (inr l)
      else if is_kind t [TOKEN_LEFTBRACKET] then
        let lexerPosition := Token_GetPosition t in
        sublist ← Parser_ParseNameSublist;
        let+ _ := Parser_ExpectRightBracket "$scope names" lexerPosition in
        match sublist with
        | [] => _ ← missing_scope_name pointer; scope_names_loop fuel l
        | _ => scope_names_loop fuel (l ++ [(linked sublist, sourced lexerPosition)])
        end
      else if is_kind t name_kinds then scope_names_loop fuel (l ++ [(ESymbol (data_symbol t), sourced (Token_GetPosition t))])
      else _ ← missing_scope_name pointer; scope_names_loop fuel l
  end.

Definition Parser_ParseClassicScopeVariableNames : P (ParseError + list (Expr * Source)) := scope_names_loop loops [].

(** The modifiers of a variable, from the second cell of its list on. *)
Fixpoint scope_modifiers (sublist : Expr) (parseDeclKind : Z) : P Z :=
  match sublist with
  | ECons (ESymbol modifier) d _ =>
      if modifier =? sym_auto then scope_modifiers d PARSEDECL_AUTO
      else if modifier =? sym_set_once then scope_modifiers d PARSEDECL_CONST
      else
        _ ← Parser_AddMessage (an_error (getSourceLocation sublist) "Unknown modifier for [$scope] variable." []);
        scope_modifiers d parseDeclKind
  | ECons _ _ _ => trouble NullPointer
  | _ => mret parseDeclKind
  end.

Fixpoint declare_scope_names (l : list (Expr * Source)) : P unit :=
  match l with
  | [] => mret tt
  | (name, source) :: l =>
      let position := match source with WithSource position => position | NoSource => None end in
      _ ← match name with
          | ESymbol symbol => declare ParseScope_DeclareHere symbol PARSEDECL_VARIABLE position
          | ECons (ESymbol symbol) d _ =>
              kind ← scope_modifiers d PARSEDECL_VARIABLE; declare ParseScope_DeclareHere symbol kind position
          | _ => trouble NullPointer
          end;
      declare_scope_names l
  end.

(** [parser->currentScope->kind = PARSESCOPE_EXPLICIT;] *)
Definition make_explicit : P unit :=
  scopes ← ask currentScope;
  match scopes with
  | [] => trouble NullPointer
  | scope :: parents => modify (set_scopes (set_scopeKind PARSESCOPE_EXPLICIT scope :: parents))
  end.

Definition Parser_ParseClassicScope (startPosition : LexerPosition) : P Parsed :=
  let+ _ := Parser_ExpectLeftBracket None "$scope" startPosition in
  _ ← Parser_BeginScope PARSESCOPE_SCOPEDECL;
  r ← Parser_ParseClassicScopeVariableNames;
  variableNames ← match r with inl error => _ ← Parser_AddMessage error; mret [] | inr l => mret l end;
  r ← Parser_ExpectRightBracket "$scope variables" startPosition;
  match r with
  | inl error => _ ← Parser_EndScope; mret (inl error)
  | inr _ =>
      _ ← declare_scope_names variableNames;
      _ ← make_explicit;
      head ← Parser_ParseExprsOpt default_mode [];
      _ ← Parser_EndScope;
      let+ _ := Parser_ExpectRightBracket "$scope" startPosition in
      mret (inr (SmileList_ConsWithSource (ESymbol SYMBOL__SCOPE)
        (SmileList_ConsWithSource (linked variableNames) (linked head) startPosition) startPosition))
  end.
End Forms.
