(* ===== verification/ParseLists.v ===== *)
(** * ParseLists: dynamic strings and quoted lists of the parser

    [src/parsing/parser/parserdynstrings.c], [parsequote.c] and
    [Parser_ParseOneExpressionFromText] of [parsercore.c]. *)

From Stdlib Require Import String.
From S2P Require Import Prelude FiniteMap Text StringBuilder IdentTable SymbolTable Lexer LexNames LexNumbers LexStrings LexerNext.
From S2P Require Import Object Expr KnownSymbols ParseScope Parser ParseForms.

Section Lists.
Context {D : Type} {Ops : MapOps Str Z D} {Real : RealParsers} {Env : ParserEnv} {CE : CompilerEnv}.
#[local] Notation P := (P D).

Variables (loops : nat) (K : Recur D).

#[local] Notation positioned t := (Some (Token_GetPosition t)).
#[local] Notation sourced p := (WithSource (Some p)).
#[local] Notation recover := (recover loops).
#[local] Notation Parser_ExpectLeftBracket := (Parser_ExpectLeftBracket loops).
#[local] Notation Parser_ExpectRightBracket := (Parser_ExpectRightBracket loops).
#[local] Notation Parser_ParseScope := (Parser_ParseScope loops K).
#[local] Notation Parser_ParseParentheses := (Parser_ParseParentheses loops K).

(** ** Dynamic strings (parserdynstrings.c) *)

Record DynamicStringPiece := DynamicStringPiece_Create { piece_text : Str; firstLine : Position; isExpression : bool }.

(** The state of the loop: the index and the line it is in, the text collected, where
    it belongs, and the pieces. *)
Record Split := mkSplit {
  s_src : Z; s_line : Z; s_lineStart : Z; s_text : Str; s_inParsedContent : bool; s_pieces : list DynamicStringPiece
}.

Definition MAKE_POSITION (filename : option Str) (src : Z) (s : Split) : Position :=
  Lexer.mkPosition filename (wrapS 32 (s_line s)) (wrapS 32 (src - s_lineStart s)) (wrapS 32 (s_lineStart s)) 0.

Definition push (src : Z) (inParsedContent : bool) (piece : DynamicStringPiece) (s : Split) : Split :=
  mkSplit src (s_line s) (s_lineStart s) [] inParsedContent (s_pieces s ++ [piece]).
Definition append (src : Z) (text : Str) (s : Split) : Split :=
  mkSplit src (s_line s) (s_lineStart s) (s_text s ++ text) (s_inParsedContent s) (s_pieces s).

(** A line break of one character or of two, the second of which is appended as
    the first once more. *)
Definition split_newline (ch second next src : Z) (s : Split) : Split :=
  let (src, text) := if next =? second then (src + 2, [ch; ch]) else (src + 1, [ch]) in
  mkSplit src (s_line s + 1) src (s_text s ++ text) (s_inParsedContent s) (s_pieces s).

(** In the plain text. *)
Definition split_text (input : list Z) (end_ : Z) (filename : option Str) (ch : Z) (s : Split)
  : Outcome (ParseError + Split) :=
  let src := s_src s in
  next ← need ReadFault (zget input (src + 1));
  let failed := fun (src : Z) (text : string) =>
    Done (inl (an_error (Some (of_position (MAKE_POSITION filename src s))) text [])) in
  if ch =? "{"%code then
    if next =? "{"%code then Done (inr (append (src + 2) [ch] s))
    else if 0 <? zlen (s_text s) then
      Done (inr (push (src + 1) true (DynamicStringPiece_Create (s_text s) (MAKE_POSITION filename (src + 1) s) false) s))
    else Done (inr (mkSplit (src + 1) (s_line s) (s_lineStart s) (s_text s) true (s_pieces s)))
  else if ch =? "}"%code then
    if next =? "}"%code then Done (inr (append (src + 2) [ch] s))
    else failed (src + 1) "Unmatched } in dynamic string"%string
  else if ch =? "\"%code then
    if (next =? "{"%code) || (next =? "}"%code) then Done (inr (append (src + 2) [next] s))
    else
      '(src, decoded) ← Lexer_DecodeEscapeCode input (src + 1) end_ false;
      if decoded <? 0 then failed src "Bad backslash-escape code in dynamic string"%string
      else Done (inr (append src (unicode_bytes (wrapU 32 decoded)) s))
  else Done (inr (append (src + 1) [ch] s)).

(** Inside executable code. *)
Definition split_code (filename : option Str) (ch : Z) (s : Split) : ParseError + Split :=
  let src := s_src s in
  if ch =? "{"%code then
    inl (an_error (Some (of_position (MAKE_POSITION filename src s))) "Disallowed { inside parsed content in dynamic string" [])
  else if ch =? "}"%code then
    inr (push (src + 1) false (DynamicStringPiece_Create (s_text s) (MAKE_POSITION filename (src + 1) s) true) s)
  else inr (append (src + 1) [ch] s).

Fixpoint split_loop (fuel : nat) (input : list Z) (end_ : Z) (filename : option Str) (s : Split)
  : Outcome (ParseError + Split) :=
  if s_src s <? end_ then
    match fuel with
    | O => Wrong OutOfFuel
    | S fuel =>
        ch ← need ReadFault (zget input (s_src s));
        r ← (if ch =? 10 then
               next ← need ReadFault (zget input (s_src s + 1)); Done (inr (split_newline ch 13 next (s_src s) s))
             else if ch =? 13 then
               next ← need ReadFault (zget input (s_src s + 1)); Done (inr (split_newline ch 10 next (s_src s) s))
             else if s_inParsedContent s then Done (split_code filename ch s)
             else split_text input end_ filename ch s);
        match r with inl error => Done (inl error) | inr s => split_loop fuel input end_ filename s end
    end
  else Done (inr s).

Definition Parser_SplitDynamicString (l : Lexer D) : Outcome (ParseError + list DynamicStringPiece) :=
  r ← split_loop (Z.to_nat (lx_end l - lx_src l)) (lx_input l) (lx_end l) (lx_filename l)
        (mkSplit (lx_src l) (lx_line l) (lx_lineStart l) [] false []);
  match r with
  | inl error => Done (inl error)
  | inr s =>
      let position := MAKE_POSITION (lx_filename l) (s_src s) s in
      if s_inParsedContent s then
        Done (inl (an_error (Some (of_position position)) "Missing final } for expression in dynamic string" []))
      else
        Done (inr (s_pieces s ++
          (if 0 <? zlen (s_text s) then [DynamicStringPiece_Create (s_text s) position false] else [])))
  end.

(** A lexer over a text at a position of another, without a symbol table. *)
Definition lexer_at (text : Str) (startPosition : Position) : P (Lexer D) :=
  demand NullPointer
    (Lexer_Create text 0 (zlen text) (Lexer.pos_filename startPosition) (Lexer.pos_line startPosition)
       (Lexer.pos_column startPosition)).

Definition Parser_ParseOneExpressionFromText (text : Str) (startPosition : Position) : P Parsed :=
  oldLexer ← ask lexer;
  l ← lexer_at text startPosition;
  _ ← modify (set_lexer (Some l));
  r ← r_Expr K default_mode;
  match r with
  | inl error => _ ← modify (set_lexer oldLexer); mret (inl error)
  | inr expr =>
      t ← Parser_NextToken;
      _ ← modify (set_lexer oldLexer);
      if negb (is_kind t [TOKEN_EOI]) then
        fail (positioned t) "Unexpected `%S` at end of dynamic string expression." [Words (TokenKind_ToString (kind t))]
      else mret (inr (null_if_ignorable expr))
  end.

(** The pieces as the elements of the list they are joined from. *)
Fixpoint parse_pieces (pieces : list DynamicStringPiece) (l : list (Expr * Source)) : P (ParseError + list (Expr * Source)) :=
  match pieces with
  | [] => mret (inr l)
  | piece :: pieces =>
      let source := sourced (of_position (firstLine piece)) in
      if isExpression piece then
        let+ parsedContent := Parser_ParseOneExpressionFromText (piece_text piece) (firstLine piece) in
        parse_pieces pieces (l ++ [(parsedContent, source)])
      else parse_pieces pieces (l ++ [(EString (piece_text piece), source)])
  end.

Definition Parser_ParseDynamicString (text : Str) (startPosition : Position) : P Parsed :=
  if zlen text =? 0 then mret (inr (EString text))
  else
    stringLexer ← lexer_at text startPosition;
    r ← match Parser_SplitDynamicString stringLexer with
        | Wrong why => trouble (InLexer why)
        | Done (inl error) => mret (inl error)
        | Done (inr pieces) => mret (inr pieces)
        end;
    let start := of_position startPosition in
    match r with
    | inl error => mret (inl error)
    | inr [] => trouble OutsideArray
    | inr [DynamicStringPiece_Create text _ false] => mret (inr (EString text))
    | inr pieces =>
        let+ l := parse_pieces pieces
          [(SmileList_CreateDotWithSource (ESymbol sym_List) (ESymbol sym_of) start, sourced start)] in
        mret (inr (list_at start [SmileList_CreateDotWithSource (linked l) (ESymbol sym_join) start]))
    end.

(** ** Quoted lists (parsequote.c) *)

#[local] Notation Quoted := (ParseError + Expr * TemplateKind)%type.

Definition Parser_WrapTemplateForSplicing (obj : Expr) : Expr :=
  plain_list [SmileList_CreateDot (ESymbol sym_List) (ESymbol sym_cons); obj].

Definition quote_form (e : Expr) (position : LexerPosition) : Expr := list_at position [ESymbol SYMBOL__QUOTE; e].

(** The first cell of a template that calls a method of [List]. *)
Definition template_head (method : Symbol) (startPosition : LexerPosition) : Expr * LexerPosition :=
  (SmileList_CreateDotWithSource (ESymbol sym_List) (ESymbol method) startPosition, startPosition).

(** The elements of the list so far, with the positions of their cells. *)
Definition Parser_TransformListIntoTemplate (l : list (Expr * LexerPosition)) (startPosition : LexerPosition)
  : list (Expr * LexerPosition) :=
  template_head sym_of startPosition :: map (fun '(e, p) => (quote_form e p, p)) l.

Definition Parser_TransformListIntoSplicedTemplate (l : list (Expr * LexerPosition)) (startPosition : LexerPosition)
  : list (Expr * LexerPosition) :=
  template_head sym_combine startPosition :: map (fun '(e, p) => (quote_form (list_at p [e]) p, p)) l.

(** [$quote x] becomes [$quote [x]], anything else is wrapped; the first cell is the
    call of [List.of]. *)
Definition respliced (e : Expr) (p : LexerPosition) : Expr :=
  match e with
  | ECons (ESymbol s) (ECons x d _) _ =>
      if (s =? SYMBOL__QUOTE) && negb (isList d) then quote_form (list_at p [x]) p else Parser_WrapTemplateForSplicing e
  | _ => Parser_WrapTemplateForSplicing e
  end.

Definition Parser_TransformTemplateIntoSplicedTemplate (l : list (Expr * LexerPosition)) (startPosition : LexerPosition)
  : list (Expr * LexerPosition) :=
  template_head sym_combine startPosition :: map (fun '(e, p) => (respliced e p, p)) (drop 1 l).

(** An item of a list: the list is made a template of the item's kind, or the item is
    wrapped as the list's kind asks. *)
Definition join_template (l : list (Expr * LexerPosition)) (listKind itemKind : TemplateKind) (expr : Expr)
    (startPosition lexerPosition : LexerPosition) : list (Expr * LexerPosition) * TemplateKind :=
  if template_rank itemKind >? template_rank listKind then
    let l :=
      match itemKind, listKind with
      | TemplateKind_Template, _ => Parser_TransformListIntoTemplate l startPosition
      | TemplateKind_TemplateWithSplicing, TemplateKind_None => Parser_TransformListIntoSplicedTemplate l startPosition
      | TemplateKind_TemplateWithSplicing, TemplateKind_Template => Parser_TransformTemplateIntoSplicedTemplate l startPosition
      | _, _ => l
      end in
    (l ++ [(expr, lexerPosition)], itemKind)
  else
    let expr :=
      match listKind, itemKind with
      | TemplateKind_Template, TemplateKind_None => quote_form expr lexerPosition
      | TemplateKind_TemplateWithSplicing, TemplateKind_None => quote_form (list_at lexerPosition [expr]) lexerPosition
      | TemplateKind_TemplateWithSplicing, TemplateKind_Template => Parser_WrapTemplateForSplicing expr
      | _, _ => expr
      end in
    (l ++ [(expr, lexerPosition)], listKind).

(** The names after a dot. *)
Fixpoint raw_dots (fuel : nat) (result : Expr) (templateKind : TemplateKind) : P (ParseError + Expr) :=
  match fuel with
  | O => trouble TooDeep
  | S fuel =>
      t ← Parser_NextToken;
      if is_kind t [TOKEN_DOT] then
        tokenKind ← lexer_next;
        t ← the_token;
        if bool_decide (tokenKind ∈ name_kinds) then
          let symbol := data_symbol t in
          let lexerPosition := Token_GetPosition t in
          raw_dots fuel
            (match templateKind with
             | TemplateKind_None => SmileList_CreateDotWithSource result (ESymbol symbol) lexerPosition
             | _ =>
                 list_at lexerPosition
                   [list_at lexerPosition [ESymbol SYMBOL__DOT; ESymbol sym_List; ESymbol sym_of];
                    quote_form (ESymbol SYMBOL__DOT) lexerPosition; result; quote_form (ESymbol symbol) lexerPosition]
             end) templateKind
        else fail (positioned t) "Expected a property name after '.', not '%S.'" [Words (TokenKind_ToString tokenKind)]
      else _ ← unget; mret (inr result)
  end.

Definition Parser_ParseRawListDotExpr (modeFlags : Z) : P Quoted :=
  let+ (result, templateKind) := r_RawListTerm K modeFlags in
  let+ result := raw_dots loops result templateKind in
  mret (inr (result, templateKind)).

(** The items; the position of the first is the position of the template. *)
Fixpoint raw_items (fuel : nat) (modeFlags : Z) (l : list (Expr * LexerPosition)) (listKind : TemplateKind)
    (startPosition : option LexerPosition) : P (list (Expr * LexerPosition) * TemplateKind) :=
  match fuel with
  | O => trouble TooDeep
  | S fuel =>
      t ← Parser_NextToken;
      if is_kind t (TOKEN_EOI :: right_kinds) then _ ← unget; mret (l, listKind)
      else
        let lexerPosition := Token_GetPosition t in
        _ ← unget;
        let start := default lexerPosition startPosition in
        r ← Parser_ParseRawListDotExpr modeFlags;
        match r with
        | inr (expr, itemKind) =>
            if isNull expr then raw_items fuel modeFlags l listKind (Some start)
            else
              let '(l, listKind) := join_template l listKind itemKind expr start lexerPosition in
              raw_items fuel modeFlags l listKind (Some start)
        | inl error =>
            _ ← Parser_AddMessage error;
            t ← recover BracesBracketsParenthesesBar;
            if is_kind t right_kinds then trouble NotSet else raw_items fuel modeFlags l listKind (Some start)
        end
  end.

Definition Parser_ParseRawListItemsOpt (modeFlags : Z) : P (list (Expr * LexerPosition) * TemplateKind) :=
  raw_items loops modeFlags [] TemplateKind_None None.

Definition at_least_template (k : TemplateKind) : TemplateKind :=
  match k with TemplateKind_None => TemplateKind_None | _ => TemplateKind_Template end.

(** The objects of the tokens that stand for themselves. *)
Definition literal_of (t : Token) : option Expr :=
  let z := data_value (data t) in
  match kind t with
  | TOKEN_RAWSTRING => Some (EString (text_of t))
  | TOKEN_CHAR => Some (EChar z)
  | TOKEN_UNI => Some (EUni z)
  | TOKEN_BYTE => Some (EByte z)
  | TOKEN_INTEGER16 => Some (EInteger16 z)
  | TOKEN_INTEGER32 => Some (EInteger32 z)
  | TOKEN_INTEGER64 => Some (EInteger64 z)
  | TOKEN_REAL32 => Some (EReal32 z)
  | TOKEN_REAL64 => Some (EReal64 z)
  | TOKEN_FLOAT32 => Some (EFloat32 z)
  | TOKEN_FLOAT64 => Some (EFloat64 z)
  | _ => None
  end.

(** What is said about a token that starts no term. *)
Definition unexpected_token (t : Token) : ParseError :=
  let position := positioned t in
  match kind t with
  | TOKEN_SEMICOLON => an_error position "Expected a variable or number or other legal expression term, not a semicolon (remember, semicolons don't terminate statements in Smile!)" []
  | TOKEN_COMMA => an_error position "Expected a variable or number or other legal expression term, not a comma (did you mistakenly put commas in a list?)" []
  | TOKEN_ERROR => ParseMessage_Create PARSEMESSAGE_ERROR position (TheText (token_text t))
  | k => an_error position "Expected a variable or number or other legal expression term, not `%S`." [Words (TokenKind_ToString k)]
  end.

(** After an at sign, and after two. *)
Definition raw_at (t : Token) : P Quoted :=
  nextToken ← lexer_next;
  if bool_decide (nextToken = TOKEN_LEFTPARENTHESIS) then
    _ ← unget;
    let+ result := Parser_ParseParentheses in mret (inr (result, TemplateKind_TemplateWithSplicing))
  else if bool_decide (nextToken ∈ name_kinds) then
    name ← the_token; mret (inr (ESymbol (data_symbol name), TemplateKind_Template))
  else _ ← unget; fail (positioned t) "A symbol or a left parenthesis must follow an '@' in a template." [].

Definition raw_at_at (t : Token) : P Quoted :=
  nextToken ← lexer_next;
  if bool_decide (nextToken ∈ name_kinds) then
    name ← the_token; mret (inr (ESymbol (data_symbol name), TemplateKind_TemplateWithSplicing))
  else _ ← unget; fail (positioned t) "A symbol must follow an '@@' in a template." [].

Definition raw_list (t : Token) : P Quoted :=
  '(l, childTemplateKind) ← Parser_ParseRawListItemsOpt default_mode;
  close ← Parser_HasLookahead TOKEN_RIGHTBRACKET;
  if negb close then
    fail (positioned t) "Missing ']' in raw list starting on line %d." [Line (Lexer.pos_line (position t))]
  else
    _ ← Parser_NextToken;
    mret (inr (linked (map (fun '(e, p) => (e, sourced p)) l), at_least_template childTemplateKind)).

Definition raw_backtick (t : Token) (modeFlags : Z) : P Quoted :=
  tokenKind ← lexer_peek;
  if bool_decide (tokenKind ∈ [TOKEN_LEFTPARENTHESIS; TOKEN_LEFTBRACE]) then
    let+ result := r_Term K modeFlags (Some t) in mret (inr (result, TemplateKind_None))
  else
    let+ (result, childTemplateKind) := r_RawListTerm K modeFlags in
    mret (inr (result, at_least_template childTemplateKind)).

Definition Parser_ParseRawListTerm (modeFlags : Z) : P Quoted :=
  t ← Parser_NextToken;
  match kind t with
  | TOKEN_LEFTPARENTHESIS =>
      _ ← unget; let+ result := Parser_ParseParentheses in mret (inr (result, TemplateKind_Template))
  | TOKEN_LEFTBRACE => _ ← unget; let+ result := Parser_ParseScope in mret (inr (result, TemplateKind_Template))
  | TOKEN_DYNSTRING =>
      let+ result := Parser_ParseDynamicString (text_of t) (position t) in
      mret (inr (result, match result with EString _ => TemplateKind_None | _ => TemplateKind_Template end))
  | TOKEN_LEFTBRACKET => raw_list t
  | TOKEN_BACKTICK => raw_backtick t modeFlags
  | TOKEN_AT => raw_at t
  | TOKEN_ATAT => raw_at_at t
  | TOKEN_ALPHANAME | TOKEN_PUNCTNAME | TOKEN_UNKNOWNALPHANAME | TOKEN_UNKNOWNPUNCTNAME =>
      mret (inr (ESymbol (data_symbol t), TemplateKind_None))
  | _ =>
      match literal_of t with
      | Some e => mret (inr (e, TemplateKind_None))
      | None => mret (inl (unexpected_token t))
      end
  end.

Definition Parser_ParseQuotedTerm (modeFlags : Z) (position : LexerPosition) : P Parsed :=
  let+ (result, templateKind) := Parser_ParseRawListTerm modeFlags in
  mret (inr (match templateKind with TemplateKind_None => quote_form result position | _ => result end)).

Definition Parser_ParseQuoteBody (modeFlags : Z) (startPosition : LexerPosition) : P Parsed :=
  tokenKind ← lexer_peek;
  if bool_decide (tokenKind = TOKEN_LEFTPARENTHESIS) then
    let+ result := Parser_ParseParentheses in mret (inr (quote_form result startPosition))
  else Parser_ParseQuotedTerm modeFlags startPosition.

Definition Parser_ParseClassicQuote (startPosition : LexerPosition) : P Parsed :=
  r ← Parser_ParseQuoteBody default_mode startPosition;
  match r with
  | inl error => _ ← recover RightBracesBracketsParentheses; mret (inl error)
  | inr result => let+ _ := Parser_ExpectRightBracket "[$quote] form" startPosition in mret (inr result)
  end.
End Lists.
