(* ===== verification/ParseBlocks.v ===== *)
(** * ParseBlocks: functions, objects and till loops of the parser

    [src/parsing/parser/parsefunc.c], the members and the [$new] form of
    [parsenew.c], and [parsetill.c]. *)

From Stdlib Require Import String.
From S2P Require Import Prelude FiniteMap Text StringBuilder IdentTable SymbolTable Lexer LexNames LexNumbers LexStrings LexerNext.
From S2P Require Import Object Expr KnownSymbols ParseScope Parser ParseForms ParseLists.

Section Blocks.
Context {D : Type} {Ops : MapOps Str Z D} {Real : RealParsers} {Env : ParserEnv} {CE : CompilerEnv}.
#[local] Notation P := (P D).

Variables (loops : nat) (K : Recur D).

#[local] Notation positioned t := (Some (Token_GetPosition t)).
#[local] Notation sourced p := (WithSource (Some p)).
#[local] Notation recover := (recover loops).
#[local] Notation Parser_ExpectLeftBracket := (Parser_ExpectLeftBracket loops).
#[local] Notation Parser_ExpectRightBracket := (Parser_ExpectRightBracket loops).
#[local] Notation Parser_ParseRawListTerm := (Parser_ParseRawListTerm loops K).

(** ** Functions (parsefunc.c) *)

Definition Parser_ParseParamType : P Parsed :=
  t ← Parser_NextToken;
  if negb (is_kind t [TOKEN_ALPHANAME; TOKEN_PUNCTNAME]) then
    if is_kind t [TOKEN_UNKNOWNALPHANAME; TOKEN_UNKNOWNPUNCTNAME] then
      fail (positioned t) "The function argument type name `{0}` does not exist." [NameOf (data_symbol t)]
    else fail (positioned t) "Illegal function argument type name" []
  else _ ← unget; mret (inr (ESymbol (data_symbol t))).

(** One more cell at the end of a list. *)
Fixpoint append_cell (e x : Expr) (position : LexerPosition) : Expr :=
  match e with
  | ECons a d s => ECons a (append_cell d x position) s
  | _ => list_at position [x]
  end.

(** A parameter with one more annotation, [tail->d = [key value]]: the plain name
    becomes a list first; with a list left from the parameter before, [tail] is the
    empty list. *)
Definition annotate (param : Expr) (nameSymbol key : Symbol) (value : Expr) (paramPosition position : LexerPosition)
    (fresh : bool) : P Expr :=
  match param with
  | ECons _ _ _ =>
      if fresh then mret (append_cell (append_cell param (ESymbol key) position) value position)
      else trouble NullListWritten
  | _ => mret (SmileList_ConsWithSource (ESymbol nameSymbol) (list_at position [ESymbol key; value]) paramPosition)
  end.

(** The name and its type; [previous] is the parameter before. *)
Definition param_name (previous : Expr) (t : Token) : P (ParseError + (Expr * Symbol * LexerPosition)) :=
  nextTokenKind ← lexer_next;
  if negb (bool_decide (nextTokenKind = TOKEN_COLON)) then
    _ ← unget;
    let nameSymbol := data_symbol t in
    _ ← declare ParseScope_DeclareHere nameSymbol PARSEDECL_ARGUMENT (positioned t);
    mret (inr (ESymbol nameSymbol, nameSymbol, Token_GetPosition t))
  else
    _ ← unget;
    _ ← unget;
    let+ type := Parser_ParseParamType in
    typeToken ← the_token;
    tokenKind ← lexer_next;
    t ← the_token;
    if negb (bool_decide (tokenKind = TOKEN_COLON)) then
      fail (positioned t) "Expected a ':' after function argument type" []
    else
      tokenKind ← lexer_next;
      t ← the_token;
      if negb (bool_decide (tokenKind ∈ name_kinds)) then
        fail (positioned t) "Invalid function argument name after function argument type" []
      else
        let nameSymbol := data_symbol t in
        _ ← declare ParseScope_DeclareHere nameSymbol PARSEDECL_ARGUMENT (positioned t);
        param ← annotate previous nameSymbol sym_type_modifier type (Token_GetPosition t) (Token_GetPosition typeToken) false;
        mret (inr (param, nameSymbol, Token_GetPosition t)).

(** The parameter and its position. *)
Definition Parser_ParseParam (previous : Expr) : P (ParseError + (Expr * LexerPosition)) :=
  tokenKind ← lexer_next;
  t ← the_token;
  let firstPosition := Token_GetPosition t in
  if negb (bool_decide (tokenKind ∈ name_kinds)) then fail (positioned t) "Invalid function argument name" []
  else
    let+ (param, nameSymbol, paramPosition) := param_name previous t in
    tokenKind ← lexer_next;
    if bool_decide (tokenKind ∈ [TOKEN_EQUAL; TOKEN_EQUALWITHOUTWHITESPACE]) then
      defaultPosition ← lexer_position;
      let+ (defaultValue, templateKind) := Parser_ParseRawListTerm 0 in
      match templateKind with
      | TemplateKind_None =>
          param ← annotate param nameSymbol sym_default defaultValue paramPosition defaultPosition true;
          mret (inr (param, firstPosition))
      | _ =>
          t ← the_token;
          fail (positioned t) "Default value for argument '%S' is not a constant value." [NameOf nameSymbol]
      end
    else _ ← unget; mret (inr (param, firstPosition)).

(** The name of a parameter, and whether it has a default value. *)
Definition name_of_param (param : Expr) : option Symbol :=
  match param with ESymbol s => Some s | ECons (ESymbol s) _ _ => Some s | _ => None end.

Fixpoint has_default (annotations : Expr) : bool :=
  match annotations with
  | ECons (ESymbol key) d _ =>
      (key =? sym_default) || match d with ECons _ d _ => has_default d | _ => false end
  | _ => false
  end.

(** The error so far is reported when another takes its place. *)
Definition replace_error (error : option ParseError) (newer : ParseError) : P (option ParseError) :=
  _ ← match error with Some error => Parser_AddMessage error | None => mret tt end; mret (Some newer).

(** The last parameter, which takes the rest of the arguments. *)
Definition rest_param (param : Expr) (paramPosition : LexerPosition) (error : option ParseError)
  : P (Expr * option ParseError) :=
  paramName ← demand NullPointer (name_of_param param);
  t ← the_token;
  error ← (if match param with ECons _ d _ => has_default d | _ => false end
           then replace_error error (an_error (positioned t) "Rest argument '%S' cannot have a default value assigned to it." [NameOf paramName])
           else mret error);
  next ← lexer_peek;
  error ← (if negb (bool_decide (next = TOKEN_BAR))
           then
             t ← the_token;
             replace_error error (an_error (positioned t) "Rest argument '%S' must be the last argument in the function declaration." [NameOf paramName])
           else mret error);
  let param := match param with ECons _ _ _ => param | _ => list_at paramPosition [param] end in
  mret (append_cell param (ESymbol sym_rest) paramPosition, error).

(** The parameters with the error, if there was one. *)
Fixpoint params_loop (fuel : nat) (isFirst : bool) (previous : Expr) (error : option ParseError) (l : list (Expr * Source))
  : P (list (Expr * Source) * option ParseError) :=
  match fuel with
  | O => trouble TooDeep
  | S fuel =>
      tokenKind ← lexer_next;
      if bool_decide (tokenKind = TOKEN_BAR) then _ ← unget; mret (l, error)
      else
        t ← the_token;
        error ← (if bool_decide (tokenKind = TOKEN_COMMA) then
                   if isFirst then replace_error error (an_error (positioned t) "Illegal comma found in function parameter list" [])
                   else mret error
                 else _ ← unget; mret error);
        r ← Parser_ParseParam previous;
        match r with
        | inl paramError => error ← replace_error error paramError; mret (l, error)
        | inr (param, paramPosition) =>
            tokenKind ← lexer_next;
            '(param, error) ← (if bool_decide (tokenKind = TOKEN_DOTDOTDOT) then rest_param param paramPosition error
                               else _ ← unget; mret (param, error));
            params_loop fuel false param error (l ++ [(param, sourced paramPosition)])
        end
  end.

Definition Parser_ParseParamsOpt : P (list (Expr * Source) * option ParseError) := params_loop loops true ENull None [].

(** The array of the recovery, and its size in bytes, which is passed as its length. *)
Definition barRecoveryTokens : list TokenKind := BracesBracketsParenthesesBar ++ [TOKEN_SEMICOLON].
Definition barRecovery_size : nat := Z.to_nat (zlen barRecoveryTokens * sizeof_Int).

(** The body of a function, after its parameters. *)
Definition func_body (modeFlags : Z) (paramList : list (Expr * Source)) (funcToken : Token) : P Parsed :=
  let funcPosition := Token_GetPosition funcToken in
  tokenKind ← lexer_next;
  if negb (bool_decide (tokenKind = TOKEN_BAR)) then
    _ ← unget;
    t ← the_token;
    _ ← Parser_EndScope;
    fail (positioned t) "Expected |...| to end function parameters starting on line %d"
      [Line (Lexer.pos_lineStart (position funcToken))]
  else
    r ← r_Expr K modeFlags;
    match r with
    | inl error => _ ← Parser_EndScope; mret (inl error)
    | inr body =>
        tokenKind ← lexer_next;
        _ ← (if negb (bool_decide (tokenKind = TOKEN_SEMICOLON)) then unget else mret tt);
        _ ← Parser_EndScope;
        mret (inr (list_at funcPosition [ESymbol SYMBOL__FN; linked paramList; null_if_ignorable body]))
    end.

Definition Parser_ParseFunc (modeFlags : Z) : P Parsed :=
  funcToken ← the_token;
  _ ← Parser_BeginScope PARSESCOPE_FUNCTION;
  '(paramList, parseError) ← Parser_ParseParamsOpt;
  match parseError with
  | None => func_body modeFlags paramList funcToken
  | Some error =>
      _ ← Parser_AddMessage error;
      t ← Parser_Recover loops barRecoveryTokens barRecovery_size;
      if negb (is_kind t [TOKEN_BAR]) then _ ← Parser_EndScope; mret (inr ENull)
      else func_body modeFlags paramList funcToken
  end.

Definition DeclareClassicFnArg (arg : Expr) (argPosition : option LexerPosition) : P (ParseError + ParseDecl) :=
  match arg with
  | ESymbol symbol => declare ParseScope_DeclareHere symbol PARSEDECL_ARGUMENT argPosition
  | ECons (ESymbol symbol) _ _ => declare ParseScope_DeclareHere symbol PARSEDECL_ARGUMENT argPosition
  | _ => fail argPosition "Invalid function argument name." []
  end.

Fixpoint declare_fn_args (temp : Expr) : P (ParseError + unit) :=
  match temp with
  | ECons a d _ => let+ _ := DeclareClassicFnArg a (getSourceLocation temp) in declare_fn_args d
  | _ => mret (inr tt)
  end.

(** The arguments and the body, in the scope of the function. *)
Definition classic_fn_parts (startPosition : LexerPosition) : P (ParseError + (Expr * Expr)) :=
  let+ (args, argsTemplateKind) := Parser_ParseRawListTerm default_mode in
  if negb (isList args || isNull args) || negb (template_rank argsTemplateKind =? 0) then
    fail (Some startPosition) "First argument to [$fn] must be a list of symbols." []
  else
    let+ _ := declare_fn_args args in
    let+ body := r_Expr K default_mode in
    mret (inr (args, null_if_ignorable body)).

Definition Parser_ParseClassicFn (startPosition : LexerPosition) : P Parsed :=
  _ ← Parser_BeginScope PARSESCOPE_FUNCTION;
  r ← classic_fn_parts startPosition;
  _ ← Parser_EndScope;
  match r with
  | inl error => mret (inl error)
  | inr (args, body) =>
      let+ _ := Parser_ExpectRightBracket "[$fn] form" startPosition in
      mret (inr (list_at startPosition [ESymbol SYMBOL__FN; args; body]))
  end.

(** ** Objects (parsenew.c) *)

Definition RightBracesColons : list TokenKind := [TOKEN_RIGHTBRACE; TOKEN_COLON].

Definition member_form (symbol : Symbol) (value : Expr) (position : LexerPosition) : Expr :=
  list_at position [ESymbol symbol; value].

(** The members, and whether there were errors; a missing colon that is not followed
    by one ends the object, which is null then, without an error. *)
Fixpoint members_loop (fuel : nat) (l : list (Expr * Source)) (hasErrors : bool) : P (Expr * bool) :=
  match fuel with
  | O => trouble TooDeep
  | S fuel =>
      t ← Parser_NextToken;
      if negb (is_kind t name_kinds) then _ ← unget; mret (linked l, hasErrors)
      else
        let lexerPosition := Token_GetPosition t in
        tokenKind ← lexer_next;
        colon ← (if bool_decide (tokenKind = TOKEN_COLON) then mret true
                 else
                   here ← the_token;
                   _ ← Parser_AddMessage (an_error (positioned here) "Missing ':' after '%S' member." [NameOf (data_symbol t)]);
                   found ← Parser_Recover loops RightBracesColons (length RightBracesColons);
                   mret (is_kind found [TOKEN_COLON]));
        if negb colon then _ ← unget; mret (ENull, false)
        else
          r ← r_OrExpr K (Z.lor (Z.lor BINARYLINEBREAKS_DISALLOWED COMMAMODE_NORMAL) COLONMODE_MEMBERDECL);
          '(value, hasErrors) ← match r with
                               | inl error => _ ← Parser_AddMessage error; mret (unset, true)
                               | inr value => mret (value, hasErrors)
                               end;
          members_loop fuel (l ++ [(member_form (data_symbol t) value lexerPosition, sourced lexerPosition)]) hasErrors
  end.

Definition Parser_ParseMembers : P (Expr * bool) := members_loop loops [] false.

(** An item in brackets: a name and an expression. *)
Definition Parser_ParseClassicNewMember : P Parsed :=
  open ← Parser_NextToken;
  let position := Token_GetPosition open in
  t ← Parser_NextToken;
  if negb (is_kind t name_kinds) then fail (Some position) "Missing name for member of [$new] form." []
  else
    let+ body := r_Expr K default_mode in
    let+ _ := Parser_ExpectRightBracket "$new member" position in
    mret (inr (member_form (data_symbol t) (null_if_ignorable body) position)).

(** Items while there are left brackets; the loop of the members of [$new] and of the
    when-clauses of [$till]. *)
Fixpoint bracketed_items (fuel : nat) (item : P Parsed) (l : list (Expr * Source)) : P (list (Expr * Source)) :=
  match fuel with
  | O => trouble TooDeep
  | S fuel =>
      here ← Parser_HasLookahead TOKEN_LEFTBRACKET;
      if negb here then mret l
      else
        position ← lexer_position;
        r ← item;
        match r with
        | inl error =>
            _ ← Parser_AddMessage error;
            _ ← recover BracesBracketsParenthesesBar;
            bracketed_items fuel item l
        | inr member => bracketed_items fuel item (l ++ [(member, sourced position)])
        end
  end.

Definition Parser_ParseClassicNewMembers : P (list (Expr * Source)) :=
  bracketed_items loops Parser_ParseClassicNewMember [].

(** An expression whose error is reported and that is null then. *)
Definition expression_or_null : P Expr :=
  r ← r_Expr K default_mode;
  match r with
  | inl error => _ ← Parser_AddMessage error; mret ENull
  | inr e => mret (null_if_ignorable e)
  end.

Definition Parser_ParseClassicNew (startPosition : LexerPosition) : P Parsed :=
  base ← expression_or_null;
  let+ _ := Parser_ExpectLeftBracket None "$new member list" startPosition in
  members ← Parser_ParseClassicNewMembers;
  let+ _ := Parser_ExpectRightBracket "$new member list" startPosition in
  mret (inr (list_at startPosition [ESymbol SYMBOL__NEW; base; linked members])).

(** ** Till loops (parsetill.c) *)

Definition Parser_ParseTillName : P (ParseError + Symbol) :=
  t ← Parser_NextToken;
  if negb (is_kind t name_kinds) then fail (positioned t) "Missing flag name after 'till'." []
  else
    let+ _ := declare ParseScope_DeclareHere (data_symbol t) PARSEDECL_TILL (positioned t) in
    mret (inr (data_symbol t)).

(** The cell of a name is positioned by what follows the symbol in memory. *)
Fixpoint till_names (fuel : nat) (l : list (Expr * Source)) : P (ParseError + list (Expr * Source)) :=
  match fuel with
  | O => trouble TooDeep
  | S fuel =>
      let+ symbol := Parser_ParseTillName in
      let l := l ++ [(ESymbol symbol, WithSource past_symbol)] in
      t ← Parser_NextToken;
      if is_kind t [TOKEN_COMMA] then till_names fuel l else _ ← unget; mret (inr l)
  end.

Definition Parser_ParseTillNames : P (ParseError + list (Expr * Source)) := till_names loops [].

(** Recovery to a keyword: the error is reported when it is there, and returned
    when it is not. *)
Definition recover_to (words : list Symbol) (error : ParseError) : P (ParseError + unit) :=
  t ← recover BracesBracketsParenthesesBarName;
  if existsb (is_word t) words then _ ← Parser_NextToken; _ ← Parser_AddMessage error; mret (inr tt)
  else mret (inl error).

(** A keyword that is assumed when it is missing; the token is the answer. *)
Definition keyword (words : list Symbol) (format : string) (details : list Detail) : P Token :=
  t ← Parser_NextToken;
  if existsb (is_word t) words then mret t
  else _ ← Parser_AddError (positioned t) format details; _ ← unget; mret t.

(** The flag a when-clause is for; 0 for none. *)
Definition when_flag (tillFlags : gmap Symbol Z) (usedSymbols : gset Symbol) : P (Symbol * gset Symbol) :=
  t ← Parser_NextToken;
  if negb (is_kind t name_kinds) then
    _ ← Parser_AddError (positioned t) "Missing till-flag name after 'when'." [];
    _ ← unget;
    mret (0, usedSymbols)
  else
    let flagName := data_symbol t in
    if bool_decide (tillFlags !! flagName = None) then
      _ ← Parser_AddError (positioned t) "'%S' is not a name declared in this 'till' loop." [NameOf flagName];
      mret (flagName, usedSymbols)
    else if bool_decide (flagName ∈ usedSymbols) then
      _ ← Parser_AddError (positioned t) "'when %S' was used multiple times for the same 'till' loop." [NameOf flagName];
      mret (flagName, usedSymbols)
    else mret (flagName, {[flagName]} ∪ usedSymbols).

Fixpoint whens_loop (fuel : nat) (tillFlags : gmap Symbol Z) (usedSymbols : gset Symbol) (modeFlags : Z) (l : list (Expr * Source))
  : P (list (Expr * Source)) :=
  match fuel with
  | O => trouble TooDeep
  | S fuel =>
      t ← Parser_NextToken;
      if negb (is_word t SYMBOL_WHEN) then _ ← unget; mret l
      else
        let position := Token_GetPosition t in
        '(flagName, usedSymbols) ← when_flag tillFlags usedSymbols;
        r ← r_Expr K modeFlags;
        whenBody ← match r with inl error => _ ← Parser_AddMessage error; mret unset | inr e => mret e end;
        let whenClause := list_at position [if flagName =? 0 then ENull else ESymbol flagName; whenBody] in
        whens_loop fuel tillFlags usedSymbols modeFlags (l ++ [(whenClause, sourced position)])
  end.

Definition Parser_ParseWhens (tillFlags : gmap Symbol Z) (modeFlags : Z) : P (list (Expr * Source)) :=
  whens_loop loops tillFlags ∅ modeFlags [].

(** The names and the body, in the scope of the names. *)
Definition till_parts (modeFlags : Z) : P (ParseError + (list (Expr * Source) * Expr)) :=
  r ← Parser_ParseTillNames;
  r ← match r with
      | inl error => let+ _ := recover_to [SYMBOL_DO] error in mret (inr [])
      | inr names => mret (inr names)
      end;
  match r with
  | inl error => mret (inl error)
  | inr names =>
      _ ← keyword [SYMBOL_DO] "Missing 'do' keyword after 'till'." [];
      r ← r_Expr K modeFlags;
      match r with
      | inl error => let+ _ := recover_to [SYMBOL_WHEN] error in mret (inr ([], unset))
      | inr body => mret (inr (names, body))
      end
  end.

Definition Parser_ParseTill (modeFlags : Z) (lexerPosition : LexerPosition) : P Parsed :=
  _ ← Parser_BeginScope PARSESCOPE_TILLDO;
  r ← till_parts modeFlags;
  scope ← Parser_EndScope;
  match r with
  | inl error => mret (inl error)
  | inr (names, body) =>
      whens ← Parser_ParseWhens (symbolDict scope) modeFlags;
      mret (inr (list_at lexerPosition
        ([ESymbol SYMBOL__TILL; linked names; body] ++ match whens with [] => [] | _ => [linked whens] end)))
  end.

(** [flag->scopeIndex = -1;], and what the index was, for a name declared here. *)
Definition use_flag (name : Symbol) : P (option Z) :=
  scopes ← ask currentScope;
  match scopes with
  | [] => trouble NullPointer
  | scope :: parents =>
      flag ← demand OutsideArray (ParseScope_FindDeclarationHere scope name);
      match flag, symbolDict scope !! name with
      | Some flag, Some index =>
          let used := ParseDecl_Create (pd_symbol flag) (declKind flag) (-1) (pd_position flag) (initialAssignment flag) in
          l ← demand OutsideArray (zset (decls scope) index used);
          _ ← modify (set_scopes (set_decls l scope :: parents));
          mret (Some (scopeIndex flag))
      | _, _ => mret None
      end
  end.

(** The flags are looked for in the current scope, which is the scope around the
    loop by now. *)
Definition Parser_ParseClassicTillWhen : P Parsed :=
  open ← Parser_NextToken;
  let position := Token_GetPosition open in
  t ← Parser_NextToken;
  if negb (is_kind t name_kinds) then fail (Some position) "Missing flag name for when-clause in [$till] form." []
  else
    let name := data_symbol t in
    index ← use_flag name;
    _ ← match index with
        | None => Parser_AddMessage (an_error (Some position) "Unknown flag name `{0}` for when-clause in [$till] form." [NameOf name])
        | Some index =>
            if index <? 0 then
              Parser_AddMessage (an_error (Some position)
                "Flag name for `{0}` cannot be used for multiple when-clauses in the same [$till] form." [NameOf name])
            else mret tt
        end;
    let+ body := r_Expr K default_mode in
    let+ _ := Parser_ExpectRightBracket "$till when-clause" position in
    mret (inr (member_form name (null_if_ignorable body) position)).

Definition Parser_ParseClassicTillWhens : P (list (Expr * Source)) :=
  bracketed_items loops Parser_ParseClassicTillWhen [].

Fixpoint till_flag_names (fuel : nat) (l : list (Expr * Source)) : P (list (Expr * Source)) :=
  match fuel with
  | O => trouble TooDeep
  | S fuel =>
      t ← Parser_NextToken;
      if is_kind t BracesBracketsParenthesesBar then _ ← unget; mret l
      else if is_kind t name_kinds then till_flag_names fuel (l ++ [(ESymbol (data_symbol t), sourced (Token_GetPosition t))])
      else _ ← Parser_AddMessage (an_error (positioned t) "Missing name for [$till] flag." []); till_flag_names fuel l
  end.

Definition Parser_ParseClassicTillFlagNames : P (list (Expr * Source)) := till_flag_names loops [].

Fixpoint declare_flags (l : list (Expr * Source)) : P unit :=
  match l with
  | (ESymbol symbol, source) :: l =>
      _ ← declare ParseScope_DeclareHere symbol PARSEDECL_TILL (match source with WithSource p => p | NoSource => None end);
      declare_flags l
  | _ :: _ => trouble NullPointer
  | [] => mret tt
  end.

(** The when-clauses, if there are any. *)
Definition classic_till_whens (startPosition : LexerPosition) : P (ParseError + list (Expr * Source)) :=
  here ← Parser_HasLookahead TOKEN_LEFTBRACKET;
  if negb here then mret (inr [])
  else
    _ ← Parser_NextToken;
    whens ← Parser_ParseClassicTillWhens;
    let+ _ := Parser_ExpectRightBracket "$till whens" startPosition in
    mret (inr whens).

Definition Parser_ParseClassicTill (startPosition : LexerPosition) : P Parsed :=
  let+ _ := Parser_ExpectLeftBracket None "$till" startPosition in
  _ ← Parser_BeginScope PARSESCOPE_TILLDO;
  flags ← Parser_ParseClassicTillFlagNames;
  r ← Parser_ExpectRightBracket "$till flags" startPosition;
  match r with
  | inl error => _ ← Parser_EndScope; mret (inl error)
  | inr _ =>
      _ ← match flags with
          | [] => Parser_AddMessage (an_error (Some startPosition) "A [$till] form must start with a list of flags." [])
          | _ => declare_flags flags
          end;
      body ← expression_or_null;
      _ ← Parser_EndScope;
      let+ whens := classic_till_whens startPosition in
      let+ _ := Parser_ExpectRightBracket "$till" startPosition in
      mret (inr (list_at startPosition
        ([ESymbol SYMBOL__TILL; linked flags; body] ++ match whens with [] => [] | _ => [linked whens] end)))
  end.
End Blocks.
