(* ===== verification/ParseExprs.v ===== *)
(** * ParseExprs: terms, operators, assignments and statements of the parser

    [src/parsing/parser/parseterm.c], [parseassign.c], [parseexpr.c],
    [Parser_ParseNewExpr] of [parsenew.c] and the entry points of [parsercore.c]:
    one definition per C function, from the innermost level of the grammar to the
    outermost.  A loop on the operators of a level is a function of its own. *)

From Stdlib Require Import String.
From S2P Require Import Prelude FiniteMap Text StringBuilder IdentTable SymbolTable Lexer LexNames LexNumbers LexStrings LexerNext.
From S2P Require Import Object Expr KnownSymbols ParseScope Parser ParseForms ParseLists ParseBlocks.

Section Exprs.
Context {D : Type} {Ops : MapOps Str Z D} {Real : RealParsers} {Env : ParserEnv} {CE : CompilerEnv}.
#[local] Notation P := (P D).

Section Levels.
Variables (loops : nat) (K : Recur D).

#[local] Notation positioned t := (Some (Token_GetPosition t)).
#[local] Notation recover := (recover loops).
#[local] Notation Parser_ExpectRightBracket := (Parser_ExpectRightBracket loops).

(** ** Assignable expressions (parseassign.c) *)

(** The error that an lvalue cannot be assigned to, if it cannot. *)
Definition EnsureLValueIsAssignable (lvalue : Expr) (startPosition : LexerPosition) : P (ParseError + unit) :=
  match lvalue with
  | ESymbol symbol =>
      scopes ← ask currentScope;
      decl ← demand OutsideArray (ParseScope_FindDeclaration scopes symbol);
      match decl with
      | None =>
          mret (inl (ParseMessage_Create PARSEMESSAGE_FATAL (Some startPosition)
            (Formatted (quoting "Lvalue in [$set] starting on line %d is a known symbol, but its scope declaration cannot be found (this is probably a bug!).")
               [Line (pos_line startPosition)])))
      | Some decl =>
          if existsb (Z.eqb (declKind decl)) [PARSEDECL_VARIABLE; PARSEDECL_ARGUMENT; PARSEDECL_GLOBAL] then mret (inr tt)
          else if declKind decl =? PARSEDECL_CONST then
            fail (Some startPosition) "`%S` is a const variable and already has a value." [NameOf symbol]
          else if declKind decl =? PARSEDECL_AUTO then
            fail (Some startPosition) "`%S` is a auto variable and already has a value." [NameOf symbol]
          else fail (Some startPosition) "`%S` is not an assignable variable." [NameOf symbol]
      end
  | _ => mret (inr tt)
  end.

(** What is assigned to: a new name is declared on the spot. *)
Definition classic_lvalue : P Parsed :=
  t ← Parser_NextToken;
  if is_kind t [TOKEN_UNKNOWNALPHANAME; TOKEN_UNKNOWNPUNCTNAME] then
    let+ _ := declare ParseScope_Declare (data_symbol t) PARSEDECL_VARIABLE (positioned t) in
    mret (inr (ESymbol (data_symbol t)))
  else _ ← unget; r_OrExpr K default_mode.

Definition Parser_ParseClassicSet (startPosition : LexerPosition) : P Parsed :=
  let+ lvalue := classic_lvalue in
  r ← r_Expr K default_mode;
  match r with
  | inl error => _ ← recover RightBracesBracketsParentheses; mret (inl error)
  | inr rvalue =>
      let+ _ := Parser_ExpectRightBracket "[$set] form" startPosition in
      assignable ← Parser_IsLValue lvalue;
      if negb assignable then
        fail (Some startPosition) "Invalid lvalue in [$set] starting on line %d." [Line (pos_line startPosition)]
      else
        let+ _ := EnsureLValueIsAssignable lvalue startPosition in
        mret (inr (list_at startPosition [ESymbol SYMBOL__SET; lvalue; null_if_ignorable rvalue]))
  end.

(** ** Terms (parseterm.c) *)

(** The special forms; no answer, and no token read, for anything else. *)
Definition Parser_TryParseSpecialForm (startPosition : LexerPosition) : P (option Parsed) :=
  t ← Parser_NextToken;
  let symbol := data_symbol t in
  let form :=
    if negb (is_kind t [TOKEN_ALPHANAME]) then None
    else if symbol =? SYMBOL__QUOTE then Some (Parser_ParseClassicQuote loops K startPosition)
    else if symbol =? SYMBOL__SCOPE then Some (Parser_ParseClassicScope loops K startPosition)
    else if symbol =? SYMBOL__FN then Some (Parser_ParseClassicFn loops K startPosition)
    else if symbol =? SYMBOL__TILL then Some (Parser_ParseClassicTill loops K startPosition)
    else if symbol =? SYMBOL__NEW then Some (Parser_ParseClassicNew loops K startPosition)
    else if symbol =? SYMBOL__SET then Some (Parser_ParseClassicSet startPosition)
    else None in
  match form with
  | Some parse => r ← parse; mret (Some r)
  | None => _ ← unget; mret None
  end.

(** A list, after its left bracket. *)
Definition list_term (t : Token) : P Parsed :=
  let startPosition := Token_GetPosition t in
  form ← Parser_TryParseSpecialForm startPosition;
  match form with
  | Some r => mret r
  | None =>
      head ← Parser_ParseCallArgsOpt loops K default_mode [];
      let+ _ := Parser_ExpectRightBracket "list" startPosition in
      mret (inr (linked head))
  end.

Definition Parser_ParseTerm (modeFlags : Z) (firstUnaryToken : option Token) : P Parsed :=
  '(t, parseDecl) ← Parser_NextTokenWithDeclaration;
  let blamed := match firstUnaryToken with Some first => positioned first | None => positioned t end in
  match kind t with
  | TOKEN_LEFTPARENTHESIS => _ ← unget; Parser_ParseParentheses loops K
  | TOKEN_LEFTBRACKET => list_term t
  | TOKEN_BAR => Parser_ParseFunc loops K modeFlags
  | TOKEN_BACKTICK => Parser_ParseQuoteBody loops K modeFlags (Token_GetPosition t)
  | TOKEN_LEFTBRACE => _ ← unget; Parser_ParseScope loops K
  | TOKEN_ALPHANAME | TOKEN_PUNCTNAME =>
      decl ← demand NullPointer parseDecl;
      if declKind decl =? PARSEDECL_KEYWORD then
        fail blamed "`%S` is a keyword and cannot be used as a variable or operator" [Words (text_of t)]
      else mret (inr (ESymbol (data_symbol t)))
  | TOKEN_DYNSTRING => Parser_ParseDynamicString K (text_of t) (position t)
  | TOKEN_UNKNOWNALPHANAME | TOKEN_UNKNOWNPUNCTNAME =>
      fail blamed "`%S` is not a known variable name" [Words (text_of t)]
  | TOKEN_LOANWORD_SYNTAX => trouble (NotModelled "#syntax")
  | _ =>
      match literal_of t, firstUnaryToken with
      | Some e, _ => mret (inr e)
      | None, Some first => fail (positioned first) "`%S` is not a known variable name" [Words (text_of first)]
      | None, None => mret (inl (unexpected_token t))
      end
  end.

Definition Parser_ParseAnyName : P Parsed :=
  t ← Parser_NextToken;
  if is_kind t name_kinds then mret (inr (ESymbol (data_symbol t)))
  else fail (positioned t) "Expected a name, not `%S`." [Words (TokenKind_ToString (kind t))].

(** ** Dots, pairs and prefixes (parseexpr.c, parsenew.c) *)

Fixpoint dots (fuel : nat) (expr : Expr) : P Parsed :=
  match fuel with
  | O => trouble TooDeep
  | S fuel =>
      t ← Parser_NextToken;
      if is_kind t [TOKEN_DOT] then
        t ← Parser_NextToken;
        if is_kind t name_kinds then
          dots fuel (SmileList_CreateDotWithSource expr (ESymbol (data_symbol t)) (Token_GetPosition t))
        else
          _ ← unget;
          fail (positioned t) "Expected a property name after '.', not '%S.'" [Words (TokenKind_ToString (kind t))]
      else _ ← unget; mret (inr expr)
  end.

Definition Parser_ParseDotExpr (modeFlags : Z) (firstUnaryToken : option Token) : P Parsed :=
  let+ expr := Parser_ParseTerm modeFlags firstUnaryToken in dots loops expr.

(** The operands after the first; the last of them ends the list. *)
Fixpoint conses (fuel : nat) (modeFlags : Z) (firstUnaryToken : option Token) : P (ParseError + list Expr) :=
  match fuel with
  | O => trouble TooDeep
  | S fuel =>
      let+ expr := Parser_ParseDotExpr modeFlags firstUnaryToken in
      tokenKind ← lexer_next;
      if bool_decide (tokenKind = TOKEN_DOUBLEHASH) then
        let+ l := conses fuel modeFlags firstUnaryToken in mret (inr (expr :: l))
      else _ ← unget; mret (inr [expr])
  end.

(** [a ## b ## c] is the chain of [a] and [b] that ends in [c]. *)
Fixpoint cons_chain (first : Expr) (l : list Expr) (position : LexerPosition) : Expr :=
  match l with
  | [] => first
  | next :: l => SmileList_ConsWithSource first (cons_chain next l position) position
  end.

Definition Parser_ParseConsExpr (modeFlags : Z) (firstUnaryToken : option Token) : P Parsed :=
  let+ expr := Parser_ParseDotExpr modeFlags firstUnaryToken in
  tokenKind ← lexer_next;
  if bool_decide (tokenKind = TOKEN_DOUBLEHASH) then
    t ← the_token;
    let+ l := conses loops modeFlags firstUnaryToken in
    mret (inr (cons_chain expr l (Token_GetPosition t)))
  else _ ← unget; mret (inr expr).

Definition Parser_ParsePostfixExpr (modeFlags : Z) (firstUnaryToken : option Token) : P Parsed :=
  _ ← Parser_ApplyCustomSyntax SYMBOL_POSTFIXEXPR;
  Parser_ParseConsExpr modeFlags firstUnaryToken.

(** The members of an object, after the left brace. *)
Definition new_body (base : Expr) (newToken : Token) : P Parsed :=
  '(body, membersHaveErrors) ← Parser_ParseMembers loops K;
  close ← (if (membersHaveErrors : bool) then mret false
           else next ← lexer_peek; mret (bool_decide (next = TOKEN_RIGHTBRACE)));
  if negb close then
    _ ← recover RightBracesBracketsParentheses;
    if negb membersHaveErrors then
      t ← the_token;
      fail (positioned t) "Missing a '}' to end the members in the 'new' block starting on line %d."
        [Line (Lexer.pos_line (position newToken))]
    else mret (inr ENull)
  else
    _ ← lexer_next;
    mret (inr (list_at (Token_GetPosition newToken) [ESymbol SYMBOL__NEW; base; body])).

(** What an object is made from, after [new]. *)
Definition new_base (modeFlags : Z) (newToken : Token) : P Parsed :=
  here ← Parser_HasLookahead TOKEN_LEFTBRACE;
  if (here : bool) then mret (inr (ESymbol sym_Object))
  else
    r ← Parser_ParseDotExpr modeFlags (Some newToken);
    match r with
    | inr base => mret (inr base)
    | inl error =>
        t ← recover RightBracesBracketsParentheses;
        if negb (is_kind t [TOKEN_LEFTBRACE]) then mret (inl error)
        else _ ← Parser_AddMessage error; mret (inr unset)
    end.

Definition Parser_ParseNewExpr (modeFlags : Z) (firstUnaryToken : option Token) : P Parsed :=
  t ← Parser_NextToken;
  if is_kind t [TOKEN_LEFTBRACE] then new_body (ESymbol sym_Object) t
  else if negb (is_word t SYMBOL_NEW) then _ ← unget; Parser_ParsePostfixExpr modeFlags firstUnaryToken
  else
    let+ base := new_base modeFlags t in
    tokenKind ← lexer_next;
    if negb (bool_decide (tokenKind = TOKEN_LEFTBRACE)) then
      here ← the_token; fail (positioned here) "Missing a '{' after 'new'." []
    else new_body base t.

Definition Parser_IsAcceptableArbitraryPrefixOperator (symbol : Symbol) : bool :=
  negb (bool_decide (symbol ∈ [SYMBOL_VAR; SYMBOL_CONST; SYMBOL_AUTO; SYMBOL_NOT; SYMBOL_NEW; SYMBOL_TYPEOF;
                               SYMBOL_SUPEREQ; SYMBOL_SUPERNE])).

Definition is_typeof (t : Token) : bool := is_kind t [TOKEN_ALPHANAME] && (data_symbol t =? SYMBOL_TYPEOF).

(** The operators after the first, and the token after them. *)
Fixpoint prefixes (fuel : nat) (modeFlags : Z) (l : list Token) : P (list Token * Token) :=
  match fuel with
  | O => trouble TooDeep
  | S fuel =>
      t ← Parser_NextToken;
      if (is_kind t [TOKEN_UNKNOWNALPHANAME; TOKEN_UNKNOWNPUNCTNAME] || is_typeof t) && continues modeFlags t
      then prefixes fuel modeFlags (l ++ [t]) else mret (l, t)
  end.

(** A prefix operator applied. *)
Definition apply_prefix (operator : Token) (expr : Expr) : Expr :=
  let position := Token_GetPosition operator in
  let symbol := data_symbol operator in
  if symbol =? SYMBOL_TYPEOF then list_at position [ESymbol SYMBOL__TYPEOF; expr]
  else list_at position [SmileList_CreateDotWithSource expr (ESymbol symbol) position].

Definition Parser_ParsePrefixExpr (modeFlags : Z) : P Parsed :=
  t ← Parser_NextToken;
  if is_kind t [TOKEN_UNKNOWNALPHANAME; TOKEN_UNKNOWNPUNCTNAME]
       && Parser_IsAcceptableArbitraryPrefixOperator (data_symbol t)
     || is_typeof t then
    '(unaryOperators, next) ← prefixes loops modeFlags [t];
    if negb (continues modeFlags next) then
      here ← the_token;
      fail (positioned here) "Expected an expression term on the same line after unary operator '%S'"
        [NameOf (data_symbol (default t (last unaryOperators)))]
    else
      _ ← unget;
      let+ expr := Parser_ParseNewExpr modeFlags (Some t) in
      mret (inr (foldr apply_prefix expr unaryOperators))
  else _ ← unget; Parser_ParseNewExpr modeFlags None.

(** ** Binary operators (parseexpr.c) *)

Definition Parser_ParseRangeExpr (modeFlags : Z) : P Parsed :=
  let+ expr := Parser_ParsePrefixExpr modeFlags in
  t ← Parser_NextToken;
  if is_kind t [TOKEN_DOTDOT] && continues modeFlags t then
    let lexerPosition := Token_GetPosition t in
    let+ rvalue := Parser_ParsePrefixExpr modeFlags in
    mret (inr (list_at lexerPosition [SmileList_CreateDotWithSource expr (ESymbol sym_range_to) lexerPosition; rvalue]))
  else _ ← unget; mret (inr expr).

Fixpoint colons (fuel : nat) (modeFlags : Z) (expr : Expr) : P Parsed :=
  match fuel with
  | O => trouble TooDeep
  | S fuel =>
      t ← Parser_NextToken;
      if is_kind t [TOKEN_COLON] && continues modeFlags t then
        let+ rvalue := Parser_ParseRangeExpr modeFlags in
        colons fuel modeFlags (SmileList_CreateIndexWithSource expr rvalue (Token_GetPosition t))
      else _ ← unget; mret (inr expr)
  end.

Definition Parser_ParseColonExpr (modeFlags : Z) : P Parsed :=
  let+ expr := Parser_ParseRangeExpr modeFlags in
  if has_mode modeFlags COLONMODE_MASK COLONMODE_MEMBERDECL then mret (inr expr) else colons loops modeFlags expr.

Definition Parser_IsAcceptableArbitraryBinaryOperator (symbol : Symbol) : P bool :=
  follow ← ask customFollowSet;
  mret (negb (bool_decide (symbol ∈ [SYMBOL_VAR; SYMBOL_CONST; SYMBOL_AUTO; SYMBOL_NOT; SYMBOL_OR; SYMBOL_AND; SYMBOL_NEW;
          SYMBOL_IS; SYMBOL_TYPEOF; SYMBOL_SUPEREQ; SYMBOL_SUPERNE; SYMBOL_EQ; SYMBOL_NE; SYMBOL_LT; SYMBOL_GT; SYMBOL_LE;
          SYMBOL_GE; SYMBOL_PLUS; SYMBOL_MINUS; SYMBOL_STAR; SYMBOL_SLASH]))
        && match follow with Some set => negb (bool_decide (symbol ∈ set)) | None => true end).

(** The operands after commas, with the positions of the commas. *)
Fixpoint comma_operands (fuel : nat) (modeFlags : Z) (l : list (Expr * Source)) : P (ParseError + list (Expr * Source)) :=
  match fuel with
  | O => trouble TooDeep
  | S fuel =>
      next ← lexer_peek;
      if bool_decide (next = TOKEN_COMMA) then
        _ ← lexer_next;
        t ← the_token;
        let+ rvalue := Parser_ParseColonExpr modeFlags in
        comma_operands fuel modeFlags (l ++ [(rvalue, WithSource (positioned t))])
      else mret (inr l)
  end.

(** Something like [+=] is not a binary operator. *)
Definition opequals_ahead : P bool := Parser_Has2Lookahead TOKEN_UNKNOWNPUNCTNAME TOKEN_EQUALWITHOUTWHITESPACE.

(** The operands of an arbitrary operator. *)
Definition binary_operands (t : Token) (modeFlags : Z) (expr : Expr) : P Parsed :=
  let lexerPosition := Token_GetPosition t in
  let source := WithSource (Some lexerPosition) in
  let+ rvalue := Parser_ParseColonExpr modeFlags in
  let operands :=
    [(SmileList_CreateDotWithSource expr (ESymbol (data_symbol t)) lexerPosition, source); (rvalue, source)] in
  let+ operands := if has_mode modeFlags COMMAMODE_MASK COMMAMODE_NORMAL then comma_operands loops modeFlags operands
                   else mret (inr operands) in
  mret (inr (linked operands)).

(** Whether a token is an arbitrary operator of this level. *)
Definition is_binary_operator (modeFlags : Z) (t : Token) : P bool :=
  if is_kind t [TOKEN_UNKNOWNALPHANAME; TOKEN_UNKNOWNPUNCTNAME] && continues modeFlags t
  then Parser_IsAcceptableArbitraryBinaryOperator (data_symbol t) else mret false.

Fixpoint binaries (fuel : nat) (modeFlags : Z) (expr : Expr) : P Parsed :=
  match fuel with
  | O => trouble TooDeep
  | S fuel =>
      stop ← opequals_ahead;
      if (stop : bool) then mret (inr expr)
      else
        _ ← Parser_ApplyCustomSyntax SYMBOL_BINARYEXPR;
        t ← Parser_NextToken;
        binary ← is_binary_operator modeFlags t;
        if (binary : bool) then
          declares ← (if has_mode modeFlags COLONMODE_MASK COLONMODE_MEMBERDECL then Parser_HasLookahead TOKEN_COLON
                      else mret false);
          if (declares : bool) then _ ← unget; mret (inr expr)
          else
            let+ expr := binary_operands t modeFlags expr in
            binaries fuel modeFlags expr
        else _ ← unget; mret (inr expr)
  end.

Definition Parser_ParseBinaryExpr (modeFlags : Z) : P Parsed :=
  _ ← Parser_ApplyCustomSyntax SYMBOL_BINARYEXPR;
  let+ expr := Parser_ParseColonExpr modeFlags in
  binaries loops modeFlags expr.

(** [(x.op y)] as a list. *)
Definition binary_call (expr : Expr) (operator : Symbol) (rvalue : Expr) (position : LexerPosition) : Expr :=
  list_at position [SmileList_CreateDotWithSource expr (ESymbol operator) position; rvalue].

(** A level of left-associative operators: what comes next, unless it is [op=], is an
    operator of the level, followed by an operand, or belongs to someone else.  The
    loops of [Parser_ParseMulExpr], [Parser_ParseAddExpr] and [Parser_ParseCmpExpr]. *)
Fixpoint operators (fuel : nat) (syntaxClass : Symbol) (is_operator : Token -> bool) (operand : Z -> P Parsed)
    (build : Token -> Expr -> Expr -> Expr) (modeFlags : Z) (expr : Expr) : P Parsed :=
  match fuel with
  | O => trouble TooDeep
  | S fuel =>
      stop ← opequals_ahead;
      if (stop : bool) then mret (inr expr)
      else
        _ ← Parser_ApplyCustomSyntax syntaxClass;
        t ← Parser_NextToken;
        if is_operator t && continues modeFlags t then
          let+ rvalue := operand modeFlags in
          operators fuel syntaxClass is_operator operand build modeFlags (build t expr rvalue)
        else _ ← unget; mret (inr expr)
  end.

Definition is_punct_of (symbols : list Symbol) (t : Token) : bool :=
  is_kind t punct_kinds && bool_decide (data_symbol t ∈ symbols).

Definition call_of (t : Token) (expr rvalue : Expr) : Expr :=
  binary_call expr (data_symbol t) rvalue (Token_GetPosition t).

Definition mul_operators : Z -> Expr -> P Parsed :=
  operators loops SYMBOL_MULEXPR (is_punct_of [SYMBOL_STAR; SYMBOL_SLASH]) Parser_ParseBinaryExpr call_of.

Definition Parser_ParseMulExpr (modeFlags : Z) : P Parsed :=
  _ ← Parser_ApplyCustomSyntax SYMBOL_MULEXPR;
  let+ expr := Parser_ParseBinaryExpr modeFlags in
  mul_operators modeFlags expr.

Definition add_operators : Z -> Expr -> P Parsed :=
  operators loops SYMBOL_ADDEXPR (is_punct_of [SYMBOL_PLUS; SYMBOL_MINUS]) Parser_ParseMulExpr call_of.

Definition Parser_ParseAddExpr (modeFlags : Z) : P Parsed :=
  _ ← Parser_ApplyCustomSyntax SYMBOL_ADDEXPR;
  let+ expr := Parser_ParseMulExpr modeFlags in
  add_operators modeFlags expr.

(** The symbol of a comparison's form or method. *)
Definition Parser_GetSymbolObjectForCmpOperator (symbol : Symbol) : option Symbol :=
  if symbol =? SYMBOL_EQ then Some SYMBOL_EQ
  else if symbol =? SYMBOL_NE then Some SYMBOL_NE
  else if symbol =? SYMBOL_LT then Some SYMBOL_LT
  else if symbol =? SYMBOL_GT then Some SYMBOL_GT
  else if symbol =? SYMBOL_LE then Some SYMBOL_LE
  else if symbol =? SYMBOL_GE then Some SYMBOL_GE
  else if symbol =? SYMBOL_SUPEREQ then Some SYMBOL__EQ
  else if symbol =? SYMBOL_SUPERNE then Some SYMBOL__NE
  else if symbol =? SYMBOL_IS then Some SYMBOL__IS
  else None.

Definition is_comparison (t : Token) : bool :=
  is_kind t name_kinds && bool_decide (is_Some (Parser_GetSymbolObjectForCmpOperator (data_symbol t))).

(** [[$eq x y]] and its like, or a method call. *)
Definition comparison_of (t : Token) (expr rvalue : Expr) : Expr :=
  let symbol := data_symbol t in
  let symbolObject := default 0 (Parser_GetSymbolObjectForCmpOperator symbol) in
  if bool_decide (symbol ∈ [SYMBOL_SUPEREQ; SYMBOL_SUPERNE; SYMBOL_IS]) then
    list_at (Token_GetPosition t) [ESymbol symbolObject; expr; rvalue]
  else binary_call expr symbolObject rvalue (Token_GetPosition t).

Definition cmp_operators : Z -> Expr -> P Parsed :=
  operators loops SYMBOL_CMPEXPR is_comparison Parser_ParseAddExpr comparison_of.

Definition Parser_ParseCmpExpr (modeFlags : Z) : P Parsed :=
  _ ← Parser_ApplyCustomSyntax SYMBOL_CMPEXPR;
  let+ expr := Parser_ParseAddExpr modeFlags in
  cmp_operators modeFlags expr.

(** ** Logic (parseexpr.c) *)

Fixpoint nots (fuel : nat) (l : list Token) : P (list Token) :=
  match fuel with
  | O => trouble TooDeep
  | S fuel =>
      t ← Parser_NextToken;
      if is_word t SYMBOL_NOT then nots fuel (l ++ [t]) else _ ← unget; mret l
  end.

Definition not_of (expr : Expr) (position : LexerPosition) : Expr := list_at position [ESymbol SYMBOL__NOT; expr].

Definition Parser_ParseNotExpr (modeFlags : Z) : P Parsed :=
  unaryOperators ← nots loops [];
  let+ expr := Parser_ParseCmpExpr modeFlags in
  mret (inr (foldr (fun t expr => not_of expr (Token_GetPosition t)) expr unaryOperators)).

(** The operands after the first operator; the [tail] of the list is not set by the
    first, so that the second writes into the empty list. *)
Fixpoint junctions (fuel : nat) (word form : Symbol) (operand : Z -> P Parsed) (modeFlags : Z) (isFirst : bool) (expr : Expr)
  : P Parsed :=
  match fuel with
  | O => trouble TooDeep
  | S fuel =>
      t ← Parser_NextToken;
      if is_word t word && continues modeFlags t then
        let+ rvalue := operand modeFlags in
        if isFirst then
          junctions fuel word form operand modeFlags false (list_at (Token_GetPosition t) [ESymbol form; expr; rvalue])
        else trouble NullListWritten
      else _ ← unget; mret (inr expr)
  end.

Definition Parser_ParseAndExpr (modeFlags : Z) : P Parsed :=
  let+ expr := Parser_ParseNotExpr modeFlags in
  junctions loops SYMBOL_AND SYMBOL__AND Parser_ParseNotExpr modeFlags true expr.

Definition Parser_ParseOrExpr (modeFlags : Z) : P Parsed :=
  _ ← Parser_ApplyCustomSyntax SYMBOL_EXPR;
  let+ expr := Parser_ParseAndExpr modeFlags in
  junctions loops SYMBOL_OR SYMBOL__OR Parser_ParseAndExpr modeFlags true expr.

(** ** Assignments (parseassign.c) *)

Definition set_form (lvalue rvalue : Expr) (position : LexerPosition) : Expr :=
  list_at position [ESymbol SYMBOL__SET; lvalue; rvalue].

(** A name that is not declared, before an equal sign. *)
Definition implicit_declaration (peeked : option (Token * Token)) : option (Token * Token) :=
  match peeked with
  | Some (t, t2) =>
      if is_kind t [TOKEN_UNKNOWNALPHANAME; TOKEN_UNKNOWNPUNCTNAME] && is_kind t2 [TOKEN_EQUALWITHOUTWHITESPACE; TOKEN_EQUAL]
      then Some (t, t2) else None
  | None => None
  end.

Definition Parser_ParseEquals (modeFlags : Z) : P Parsed :=
  peeked ← Parser_Peek2;
  match implicit_declaration peeked with
  | Some (t, t2) =>
      _ ← Parser_NextToken;
      _ ← Parser_NextToken;
      let+ _ := declare ParseScope_Declare (data_symbol t) PARSEDECL_VARIABLE (positioned t) in
      let+ rvalue := r_Equals K modeFlags in
      mret (inr (set_form (ESymbol (data_symbol t)) rvalue (Token_GetPosition t2)))
  | None =>
      let+ lvalue := Parser_ParseOrExpr modeFlags in
      assignable ← Parser_IsLValue lvalue;
      equal ← (if (assignable : bool) then Parser_HasEqualLookahead else mret false);
      if negb equal then mret (inr lvalue)
      else
        t2 ← Parser_NextToken;
        let+ rvalue := r_Equals K modeFlags in
        let+ _ := EnsureLValueIsAssignable lvalue (Token_GetPosition t2) in
        mret (inr (set_form lvalue rvalue (Token_GetPosition t2)))
  end.

Definition opequals_lookahead : P bool :=
  alpha ← Parser_Has2Lookahead TOKEN_UNKNOWNALPHANAME TOKEN_EQUALWITHOUTWHITESPACE;
  if (alpha : bool) then mret true else opequals_ahead.

(** The operator is read from its place in the ring after the right-hand side. *)
Definition Parser_ParseOpEquals (modeFlags : Z) : P Parsed :=
  let+ lvalue := Parser_ParseEquals modeFlags in
  assignable ← Parser_IsLValue lvalue;
  operator ← (if (assignable : bool) then opequals_lookahead else mret false);
  if negb operator then mret (inr lvalue)
  else
    t ← Parser_NextToken;
    opToken ← token_pointer;
    let lexerPosition := Token_GetPosition t in
    _ ← Parser_NextToken;
    let+ rvalue := r_OpEquals K modeFlags in
    t ← token_at opToken;
    mret (inr (list_at lexerPosition [ESymbol SYMBOL__OPSET; ESymbol (data_symbol t); lvalue; rvalue])).

Definition missing_name_text (kind : Z) : string :=
  if kind =? PARSEDECL_AUTO then "Expected a auto-cleanup variable name after 'auto'"
  else if kind =? PARSEDECL_CONST then "Expected a constant name after 'const'"
  else if kind =? PARSEDECL_VARIABLE then "Expected a variable name after 'var'"
  else "Internal error while parsing variable declarations".

(** The assignment of a declaration, null without one.  The equal sign is read from
    its place in the ring after the value. *)
Definition Parser_ParseDecl (modeFlags kind : Z) : P Parsed :=
  t ← Parser_NextToken;
  if negb (is_kind t name_kinds) then fail (positioned t) (missing_name_text kind) []
  else
    let symbol := data_symbol t in
    t ← Parser_NextToken;
    token ← token_pointer;
    if is_kind t [TOKEN_EQUAL; TOKEN_EQUALWITHOUTWHITESPACE] then
      let+ rvalue := r_OpEquals K (with_mode modeFlags COMMAMODE_MASK COMMAMODE_VARIABLEDECLARATION) in
      t ← token_at token;
      let+ _ := declare ParseScope_Declare symbol kind (positioned t) in
      mret (inr (set_form (ESymbol symbol) rvalue (Token_GetPosition t)))
    else if (kind =? PARSEDECL_AUTO) || (kind =? PARSEDECL_CONST) then
      _ ← unget;
      fail (positioned t) (if kind =? PARSEDECL_AUTO then "Expected an auto-value assignment after 'auto'"
                           else "Expected a constant-value assignment after 'const'") []
    else
      let+ _ := declare ParseScope_Declare symbol kind (positioned t) in
      _ ← unget;
      mret (inr ENull).

(** An assignment with the position of its own cell. *)
Definition keep_assignment (decl : Expr) (l : list (Expr * Source)) : list (Expr * Source) :=
  match decl with
  | ENull => l
  | ECons _ _ s => l ++ [(decl, s)]
  | _ => l ++ [(decl, WithSource past_symbol)]
  end.

Fixpoint var_decls (fuel : nat) (modeFlags kind : Z) (l : list (Expr * Source)) : P (ParseError + list (Expr * Source)) :=
  match fuel with
  | O => trouble TooDeep
  | S fuel =>
      let+ decl := Parser_ParseDecl modeFlags kind in
      let l := keep_assignment decl l in
      t ← Parser_NextToken;
      if is_kind t [TOKEN_COMMA] then var_decls fuel modeFlags kind l else _ ← unget; mret (inr l)
  end.

Definition Parser_ParseVarDecls (modeFlags kind : Z) : P Parsed :=
  let+ l := var_decls loops modeFlags kind [] in
  mret (inr (match l with
             | [] => Parser_IgnorableObject
             | (_, source) :: _ => ECons (ESymbol SYMBOL__PROGN) (linked l) source
             end)).

Fixpoint keyword_list (fuel : nat) : P (ParseError + unit) :=
  match fuel with
  | O => trouble TooDeep
  | S fuel =>
      t ← Parser_NextToken;
      if negb (is_kind t name_kinds) then fail (positioned t) "Expected a keyword name after 'keyword'" []
      else
        let+ _ := declare ParseScope_DeclareHere (data_symbol t) PARSEDECL_KEYWORD (positioned t) in
        tokenKind ← lexer_next;
        if bool_decide (tokenKind = TOKEN_COMMA) then keyword_list fuel else _ ← unget; mret (inr tt)
  end.

Definition Parser_ParseKeywordList : P Parsed :=
  let+ _ := keyword_list loops in mret (inr Parser_IgnorableObject).

(** ** Statements (parseexpr.c) *)

(** A condition may go on over line breaks. *)
Definition with_breaks (modeFlags : Z) : Z := with_mode modeFlags BINARYLINEBREAKS_MASK BINARYLINEBREAKS_ALLOWED.

(** An expression after whose error the parse can go on at a keyword; [None] when it
    does, with what the C code has then. *)
Definition or_recover (words : list Symbol) (m : P Parsed) : P (ParseError + option Expr) :=
  r ← m;
  match r with
  | inr e => mret (inr (Some e))
  | inl error => let+ _ := recover_to loops words error in mret (inr None)
  end.

Definition negated (invert : bool) (condition : Expr) (lexerPosition : LexerPosition) : Expr :=
  if invert then not_of condition lexerPosition else condition.

(** The else-part, null without one. *)
Definition else_part (modeFlags : Z) : P Parsed :=
  t ← Parser_NextToken;
  if is_word t SYMBOL_ELSE then r_Expr K modeFlags else _ ← unget; mret (inr ENull).

(** After an error in the then-part, the condition is replaced, and the then-part not set. *)
Definition Parser_ParseIfUnless (modeFlags : Z) (invert : bool) (lexerPosition : LexerPosition) : P Parsed :=
  let+ condition := or_recover [SYMBOL_THEN] (Parser_ParseOpEquals (with_breaks modeFlags)) in
  let condition := default ENull condition in
  _ ← keyword [SYMBOL_THEN] "Missing 'then' keyword after '%s'." [Words (bytes (if invert then "unless" else "if"))];
  let+ thenBody := or_recover [SYMBOL_ELSE] (r_Expr K modeFlags) in
  let (condition, thenBody) := match thenBody with Some e => (condition, e) | None => (ENull, unset) end in
  let+ elseBody := else_part modeFlags in
  let condition := negated invert condition lexerPosition in
  mret (inr (list_at lexerPosition
    ([ESymbol SYMBOL__IF; condition; thenBody] ++ (if isNull elseBody then [] else [elseBody])))).

Definition Parser_ParseDo (modeFlags : Z) (lexerPosition : LexerPosition) : P Parsed :=
  let+ body := or_recover [SYMBOL_WHILE; SYMBOL_UNTIL] (r_Expr K modeFlags) in
  t ← keyword [SYMBOL_WHILE; SYMBOL_UNTIL] "Missing 'while' or 'until' keyword after 'do'." [];
  let invert := data_symbol t =? SYMBOL_UNTIL in
  let+ condition := Parser_ParseOpEquals (with_breaks modeFlags) in
  mret (inr (list_at lexerPosition
    [ESymbol SYMBOL__WHILE; default unset body; negated invert condition lexerPosition; ENull])).

Definition Parser_ParseWhileUntil (modeFlags : Z) (invert : bool) (lexerPosition : LexerPosition) : P Parsed :=
  let+ condition := or_recover [SYMBOL_DO] (Parser_ParseOpEquals (with_breaks modeFlags)) in
  let condition := default ENull condition in
  _ ← keyword [SYMBOL_DO] "Missing 'do' keyword after '%s'." [Words (bytes (if invert then "until" else "while"))];
  let+ body := r_Expr K modeFlags in
  mret (inr (list_at lexerPosition [ESymbol SYMBOL__WHILE; negated invert condition lexerPosition; body])).

Definition Parser_ParseReturn (modeFlags : Z) (lexerPosition : LexerPosition) : P Parsed :=
  let+ result := Parser_ParseOpEquals (with_breaks modeFlags) in
  mret (inr (list_at lexerPosition [ESymbol SYMBOL__RETURN; result])).

(** The handler of [try]; [pointer] is the place of the token that was taken for 'catch'. *)
Definition catch_handler (modeFlags : Z) (pointer : nat) : P Parsed :=
  let no_function := (_ ← unget; t ← token_at pointer; fail (positioned t) "'catch' handler must be a function." []) in
  tokenKind ← lexer_next;
  if bool_decide (tokenKind = TOKEN_BAR) then Parser_ParseFunc loops K modeFlags
  else if bool_decide (tokenKind = TOKEN_LEFTBRACKET) then
    _ ← unget;
    let+ handler := Parser_ParseTerm modeFlags None in
    if SmileObject_IsCallToSymbol SYMBOL__FN handler then mret (inr handler) else no_function
  else no_function.

Definition Parser_ParseTry (modeFlags : Z) (lexerPosition : LexerPosition) : P Parsed :=
  let+ body := or_recover [SYMBOL_CATCH] (r_Expr K (with_breaks modeFlags)) in
  t ← Parser_NextToken;
  pointer ← token_pointer;
  _ ← (if is_word t SYMBOL_CATCH then mret tt
       else _ ← Parser_AddError (positioned t) "Missing 'catch' keyword after 'try'." []; unget);
  let+ handler := catch_handler modeFlags pointer in
  mret (inr (list_at lexerPosition [ESymbol SYMBOL__CATCH; default ENull body; handler])).

(** The statement a keyword starts. *)
Definition keyword_statement (symbol : Symbol) (modeFlags : Z) (position : LexerPosition) : option (P Parsed) :=
  if symbol =? SYMBOL_VAR then Some (Parser_ParseVarDecls modeFlags PARSEDECL_VARIABLE)
  else if symbol =? SYMBOL_CONST then Some (Parser_ParseVarDecls modeFlags PARSEDECL_CONST)
  else if symbol =? SYMBOL_AUTO then Some (Parser_ParseVarDecls modeFlags PARSEDECL_AUTO)
  else if symbol =? SYMBOL_KEYWORD then Some Parser_ParseKeywordList
  else if symbol =? SYMBOL_IF then Some (Parser_ParseIfUnless modeFlags false position)
  else if symbol =? SYMBOL_UNLESS then Some (Parser_ParseIfUnless modeFlags true position)
  else if symbol =? SYMBOL_DO then Some (Parser_ParseDo modeFlags position)
  else if symbol =? SYMBOL_WHILE then Some (Parser_ParseWhileUntil modeFlags false position)
  else if symbol =? SYMBOL_UNTIL then Some (Parser_ParseWhileUntil modeFlags true position)
  else if symbol =? SYMBOL_RETURN then Some (Parser_ParseReturn modeFlags position)
  else if symbol =? SYMBOL_TILL then Some (Parser_ParseTill loops K modeFlags position)
  else if symbol =? SYMBOL_TRY then Some (Parser_ParseTry modeFlags position)
  else None.

(** An expression that no keyword starts. *)
Definition plain_statement (modeFlags : Z) : P Parsed :=
  _ ← unget;
  _ ← Parser_ApplyCustomSyntax SYMBOL_STMT;
  Parser_ParseOpEquals (with_mode modeFlags COMMAMODE_MASK COMMAMODE_NORMAL).

Definition Parser_ParseStmt (modeFlags : Z) : P Parsed :=
  t ← Parser_NextToken;
  match kind t with
  | TOKEN_LEFTBRACE => _ ← unget; Parser_ParseScope loops K
  | TOKEN_LOANWORD_INCLUDE => trouble (NotModelled "#include")
  | TOKEN_LOANWORD_BRK =>
      mret (inr (SmileList_ConsWithSource (ESymbol SYMBOL__BRK) ENull (Token_GetPosition t)))
  | TOKEN_ALPHANAME | TOKEN_UNKNOWNALPHANAME =>
      match keyword_statement (data_symbol t) modeFlags (Token_GetPosition t) with
      | Some parse => parse
      | None => plain_statement modeFlags
      end
  | _ => plain_statement modeFlags
  end.

Definition Parser_ParseExpr (modeFlags : Z) : P Parsed := Parser_ParseStmt modeFlags.
End Levels.

(** ** The recursion *)

(** [fuel] bounds the depth of the recursion and the length of every loop. *)
Fixpoint parsers (fuel : nat) : Recur D :=
  match fuel with
  | O =>
      mkRecur D (fun _ => trouble TooDeep) (fun _ => trouble TooDeep) (fun _ => trouble TooDeep) (fun _ => trouble TooDeep)
        (fun _ _ => trouble TooDeep) (fun _ => trouble TooDeep)
  | S n =>
      let K := parsers n in
      mkRecur D (Parser_ParseExpr fuel K) (Parser_ParseOpEquals fuel K) (Parser_ParseEquals fuel K)
        (Parser_ParseOrExpr fuel K) (Parser_ParseTerm fuel K) (Parser_ParseRawListTerm fuel K)
  end.

(** ** Entry points (parsercore.c) *)

(** The expression of a source, and the scope of its content. *)
Definition Parser_ParseWithDetails (fuel : nat) (l : Lexer D) (outerScope : list ParseScope) : P (Expr * ParseScope) :=
  parentScope ← ask currentScope;
  oldLexer ← ask lexer;
  lastMessage ← ask messages;
  _ ← modify (set_scopes outerScope);
  _ ← modify (set_lexer (Some l));
  result ← Parser_ParseScopeBody fuel (parsers fuel);
  _ ← modify (set_scopes parentScope);
  _ ← modify (set_lexer oldLexer);
  _ ← modify (fun p =>
        set_parseMessages
          (if zlen (messages p) =? zlen lastMessage then []
           else if zlen lastMessage =? 0 then messages p
           else drop (length lastMessage - 1) (messages p)) p);
  mret result.

Definition Parser_Parse (fuel : nat) (l : Lexer D) (scope : list ParseScope) : P Expr :=
  '(result, _) ← Parser_ParseWithDetails fuel l scope; mret result.

(** A text as a source file, with the symbol table of the program. *)
Definition Parser_ParseString (fuel : nat) (scope : list ParseScope) (text : Str) : P Expr :=
  l ← demand NullPointer (Lexer_Create text 0 (zlen text) (Some []) 1 1);
  table ← ask symbols;
  Parser_Parse fuel (Lexer_SetSymbolTable l table) scope.

Definition Parser_ParseConstant (fuel : nat) (l : Lexer D) (scope : list ParseScope) : P Expr :=
  parentScope ← ask currentScope;
  oldLexer ← ask lexer;
  _ ← modify (set_scopes scope);
  _ ← modify (set_lexer (Some l));
  r ← Parser_ParseRawListTerm fuel (parsers fuel) 0;
  result ← match r with
           | inl error => _ ← Parser_AddMessage error; mret ENull
           | inr (result, TemplateKind_None) => mret result
           | inr _ =>
               t ← the_token;
               _ ← Parser_AddError (Some (Token_GetPosition t)) "Template and variable data is not allowed in constant values." [];
               mret ENull
           end;
  _ ← modify (set_scopes parentScope);
  _ ← modify (set_lexer oldLexer);
  mret result.
End Exprs.
