(* ===== verification/ParserInvariant.v ===== *)
(** * ParserInvariant: what parsing keeps

    The scopes, the messages and the settings of the parser while anything is
    parsed: a relation between the state before and after, which every function of
    the parser stays in. *)

From Stdlib Require Import String.
From S2P Require Import Prelude FiniteMap Text StringBuilder IdentTable SymbolTable Lexer LexNames LexNumbers LexStrings LexerNext.
From S2P Require Import Object Expr KnownSymbols ParseScope ScopeProps Parser ParseForms ParseLists ParseBlocks ParseExprs.

(** ** Scopes that get declarations *)

(** Names stay declared, and a scope that had variables of its own keeps having them. *)
Record grown (s s' : ParseScope) : Prop := {
  gr_names : forall symbol, is_Some (symbolDict s !! symbol) -> is_Some (symbolDict s' !! symbol);
  gr_decls : zlen (decls s) <= zlen (decls s');
  gr_own : ParseScope_IsPseudoScope s = false -> ParseScope_IsPseudoScope s' = false;
  gr_wf : has_room s' -> scope_wf s -> scope_wf s'
}.

#[export] Instance grown_preorder : PreOrder grown.
Proof.
  split.
  - intros s. by split.
  - intros s1 s2 s3 [A1 B1 C1 D1] [A2 B2 C2 D2]. split; [by eauto|lia|by eauto|].
    intros H3 H1. apply D2; [done|]. apply D1; [|done]. unfold has_room in *. lia.
Qed.

(** The scopes up to the first that has variables of its own may get declarations;
    those around it are the same. *)
Fixpoint evolves (l l' : list ParseScope) : Prop :=
  match l, l' with
  | [], [] => True
  | s :: l, s' :: l' => grown s s' /\ (if ParseScope_IsPseudoScope s then evolves l l' else l = l')
  | _, _ => False
  end.

Lemma evolves_refl l : evolves l l.
Proof. induction l as [|s l IH]; simpl; [done|]. split; [done|]. by destruct (ParseScope_IsPseudoScope s). Qed.

Lemma evolves_trans l1 l2 l3 : evolves l1 l2 -> evolves l2 l3 -> evolves l1 l3.
Proof.
  revert l2 l3. induction l1 as [|s1 l1 IH]; intros [|s2 l2] [|s3 l3]; simpl; try done.
  intros [H1 T1] [H2 T2]. split; [by etrans|]. destruct (ParseScope_IsPseudoScope s1) eqn:E1.
  - destruct (ParseScope_IsPseudoScope s2); [by eapply IH|]. by subst.
  - rewrite (gr_own _ _ H1 E1) in T2. by subst.
Qed.

Lemma evolves_drop n l l' : evolves l l' -> evolves (drop n l) (drop n l').
Proof.
  revert n l'. induction l as [|s l IH]; intros n [|s' l']; simpl; try done; [by destruct n|].
  intros [H T]. destruct n as [|n]; simpl; [done|]. destruct (ParseScope_IsPseudoScope s); [by apply IH|].
  subst. apply evolves_refl.
Qed.

Lemma evolves_declared l l' symbol : evolves l l' -> ParseScope_IsDeclared l symbol = true -> ParseScope_IsDeclared l' symbol = true.
Proof.
  revert l'. induction l as [|s l IH]; intros [|s' l']; simpl; try done. intros [H T].
  unfold ParseScope_IsDeclaredHere. case_bool_decide as E.
  - intros _. apply (gr_names _ _ H) in E. by rewrite bool_decide_true.
  - intros Hd. case_bool_decide; [done|]. destruct (ParseScope_IsPseudoScope s); [by apply IH|by subst].
Qed.

Section Keeps.
Context {D : Type} {Ops : MapOps Str Z D} {Real : RealParsers} {Env : ParserEnv} {CE : CompilerEnv}.
#[local] Notation P := (P D).

(** The state after something that opens [d] scopes, or closes [- d]. *)
Record later (d : Z) (p p' : Parser D) : Prop := {
  lt_scopes : evolves (drop (Z.to_nat (- d)) (currentScope p)) (drop (Z.to_nat d) (currentScope p'));
  lt_depth : zlen (currentScope p') = zlen (currentScope p) + d;
  lt_messages : messages p `prefix_of` messages p';
  lt_follow : customFollowSet p' = customFollowSet p;
  lt_text : parseMessages p' = parseMessages p
}.

Definition moves {A} (d : Z) (m : P A) : Prop := forall p x p', m p = inr (x, p') -> later d p p'.

Lemma later_same p p' : currentScope p' = currentScope p -> messages p' = messages p ->
  customFollowSet p' = customFollowSet p -> parseMessages p' = parseMessages p -> later 0 p p'.
Proof. intros H1 H2 H3 H4. split; try done; rewrite ?H1, ?H2; simpl; [apply evolves_refl|lia|done]. Qed.

Lemma later_trans d1 d2 p1 p2 p3 : 0 <= d1 \/ d2 <= 0 -> later d1 p1 p2 -> later d2 p2 p3 -> later (d1 + d2) p1 p3.
Proof.
  intros Hd [A1 B1 C1 D1 E1] [A2 B2 C2 D2 E2]. split; [|lia|by etrans|congruence|congruence].
  assert (Hx : forall n m, evolves (drop n (drop (Z.to_nat (- d1)) (currentScope p1))) (drop m (drop (Z.to_nat d2) (currentScope p3)))
     -> (n + Z.to_nat (- d1) = Z.to_nat (- (d1 + d2)))%nat -> (m + Z.to_nat d2 = Z.to_nat (d1 + d2))%nat ->
     evolves (drop (Z.to_nat (- (d1 + d2))) (currentScope p1)) (drop (Z.to_nat (d1 + d2)) (currentScope p3))).
  { intros n m H <- <-. rewrite !drop_drop in H. by rewrite (Nat.add_comm n), (Nat.add_comm m). }
  pose proof (fun n => evolves_drop n _ _ A1) as X1. pose proof (fun n => evolves_drop n _ _ A2) as X2.
  apply (Hx (Z.to_nat (- (d1 + d2)) - Z.to_nat (- d1))%nat (Z.to_nat (d1 + d2) - Z.to_nat d2)%nat); [|lia|lia].
  eapply evolves_trans; [apply X1|]. rewrite drop_drop.
  replace (Z.to_nat d1 + (Z.to_nat (- (d1 + d2)) - Z.to_nat (- d1)))%nat with (Z.to_nat (- d2) + (Z.to_nat (d1 + d2) - Z.to_nat d2))%nat by lia.
  rewrite <- drop_drop. apply X2.
Qed.

(** ** The calculus *)

Lemma moves_ret {A} (x : A) : moves 0 (mret x).
Proof. intros p y p' [= <- <-]. by apply later_same. Qed.

Lemma moves_trouble {A} d why : moves d (trouble why : P A).
Proof. by intros p x p' H. Qed.

Lemma moves_bind {A B} d1 d2 (m : P A) (f : A -> P B) : 0 <= d1 \/ d2 <= 0 ->
  moves d1 m -> (forall x, moves d2 (f x)) -> moves (d1 + d2) (m ≫= f).
Proof.
  intros Hd Hm Hf p y p' H. unfold mbind, P_bind in H. destruct (m p) as [|[x p1]] eqn:E; [done|].
  exact (later_trans _ _ _ _ _ Hd (Hm _ _ _ E) (Hf x _ _ _ H)).
Qed.

Lemma moves_then {A B} d (m : P A) (f : A -> P B) : moves 0 m -> (forall x, moves d (f x)) -> moves d (m ≫= f).
Proof. intros Hm Hf. apply (moves_bind 0 d); [lia|done|done]. Qed.

Lemma moves_ask {A} (f : Parser D -> A) : moves 0 (ask f).
Proof. intros p x p' [= <- <-]. by apply later_same. Qed.

Lemma moves_demand {A} why (o : option A) : moves 0 (demand why o : P A).
Proof. destruct o; [apply moves_ret|apply moves_trouble]. Qed.

Lemma moves_modify (f : Parser D -> Parser D) : (forall p, later 0 p (f p)) -> moves 0 (modify f).
Proof. intros Hf p x p' [= <- <-]. apply Hf. Qed.

(** Cases of a value, and the parts of a sequence. *)
Ltac moves_step :=
  lazymatch goal with
  | |- forall _, _ => intros ?
  | |- moves _ (mret _) => exact (moves_ret _)
  | |- moves _ (trouble _) => apply moves_trouble
  | |- moves _ (ask _) => apply moves_ask
  | |- moves _ (demand _ _) => apply moves_demand
  | |- moves _ (let x := _ in _) => cbv zeta
  | |- moves _ (match ?x with _ => _ end) => destruct x
  | |- moves _ (_ ≫= _) => apply moves_then
  | |- moves _ (modify _) => apply moves_modify; intros ?; by apply later_same
  end.
Ltac moves := repeat first [solve [eauto with moves] | moves_step].

(** ** The lexer and the messages *)

Lemma moves_with_lexer {A} f : moves 0 (with_lexer f : P A).
Proof. unfold with_lexer, get_lexer. moves. Qed.
Lemma moves_next : moves 0 lexer_next.
Proof. apply moves_with_lexer. Qed.
Lemma moves_peek : moves 0 lexer_peek.
Proof. apply moves_with_lexer. Qed.
Lemma moves_unget : moves 0 unget.
Proof. unfold unget, get_lexer. moves. Qed.
Lemma moves_token : moves 0 the_token.
Proof. unfold the_token, get_lexer. moves. Qed.
Lemma moves_position : moves 0 lexer_position.
Proof. unfold lexer_position, get_lexer. moves. Qed.
Lemma moves_pointer : moves 0 token_pointer.
Proof. unfold token_pointer, get_lexer. moves. Qed.
Lemma moves_at n : moves 0 (token_at n).
Proof. unfold token_at, get_lexer. moves. Qed.
Lemma moves_change f : moves 0 (change_token f).
Proof. unfold change_token, get_lexer. moves. Qed.
#[local] Hint Resolve moves_with_lexer moves_next moves_peek moves_unget moves_token moves_position moves_pointer moves_at moves_change : moves.

Lemma moves_symbol : moves 0 name_symbol.
Proof. unfold name_symbol. moves. Qed.
#[local] Hint Resolve moves_symbol : moves.
Lemma moves_NextToken : moves 0 Parser_NextToken.
Proof. unfold Parser_NextToken. moves. Qed.
Lemma moves_NextTokenWithDeclaration : moves 0 Parser_NextTokenWithDeclaration.
Proof. unfold Parser_NextTokenWithDeclaration. moves. Qed.

Lemma moves_message m : moves 0 (Parser_AddMessage m).
Proof.
  apply moves_modify. intros p. split; simpl; [apply evolves_refl|lia|by apply prefix_app_r|done|done].
Qed.
#[local] Hint Resolve moves_NextToken moves_NextTokenWithDeclaration moves_message : moves.
Lemma moves_error position format details : moves 0 (Parser_AddError position format details).
Proof. apply moves_message. Qed.
Lemma moves_fatal position format details : moves 0 (Parser_AddFatalError position format details).
Proof. apply moves_message. Qed.
Lemma moves_fail {A} position format details : moves 0 (fail (D := D) (A := A) position format details).
Proof. apply moves_ret. Qed.
#[local] Hint Resolve moves_error moves_fatal moves_fail : moves.

(** ** Scopes *)

Lemma evolves_head s s' l : grown s s' -> evolves (s :: l) (s' :: l).
Proof. intros H. split; [done|]. destruct (ParseScope_IsPseudoScope s); [apply evolves_refl|done]. Qed.

Lemma later_scopes p l : evolves (currentScope p) l -> zlen l = zlen (currentScope p) -> later 0 p (set_scopes l p).
Proof. intros H Hl. split; simpl; [done|lia|done|done|done]. Qed.

Lemma evolves_zlen l l' : evolves l l' -> zlen l' = zlen l.
Proof.
  revert l'. induction l as [|s l IH]; intros [|s' l']; simpl; try done. intros [_ T]. rewrite !zlen_cons.
  destruct (ParseScope_IsPseudoScope s); [by rewrite (IH l')|by subst].
Qed.

Lemma add_grown s symbol kind position : decl_kind kind -> grown s (add_declaration s symbol kind position).1.
Proof.
  intros Hk. split; simpl.
  - intros other H. destruct (decide (other = symbol)) as [->|]; [rewrite lookup_insert_eq; by eexists|by rewrite lookup_insert_ne].
  - rewrite zlen_app. pose proof (zlen_nonneg [snd (add_declaration s symbol kind position)]). simpl in *. lia.
  - done.
  - unfold has_room. simpl. rewrite zlen_app. change (zlen [_]) with 1. intros Hr Hs.
    apply (add_wf s symbol kind position); [done|unfold has_room; lia|done].
Qed.

Lemma DeclareHere_evolves l symbol kind position l' decl : decl_kind kind ->
  ParseScope_DeclareHere l symbol kind position = Some (Made l' decl) -> evolves l l'.
Proof.
  intros Hk. unfold ParseScope_DeclareHere. destruct (ParseScope_FindDeclaration l symbol) as [[previous|]|]; [| |done]; simpl.
  1: destruct (redeclarable previous kind); [|by destruct (cannot_redeclare _ _ _ _)]; simpl.
  all: destruct l as [|s l]; [done|]; destruct (_ =? _); [done|]; intros [= <- _].
  all: exact (evolves_head s _ l (add_grown s symbol kind position Hk)).
Qed.

Lemma Declare_evolves l symbol kind position l' decl : decl_kind kind ->
  ParseScope_Declare l symbol kind position = Some (Made l' decl) -> evolves l l'.
Proof.
  intros Hk. revert l'. induction l as [|s l IH]; [done|]. intros l'. cbn [ParseScope_Declare].
  destruct (ParseScope_IsPseudoScope s) eqn:Ep; [|by apply DeclareHere_evolves].
  destruct (ParseScope_Declare l symbol kind position) as [[error|parents d]|] eqn:E; [done| |done]. intros [= <- <-].
  split; [done|]. rewrite Ep. by apply IH.
Qed.

Definition evolving (how : list ParseScope -> Symbol -> Z -> option LexerPosition -> option Declared) : Prop :=
  forall l symbol kind position l' decl, decl_kind kind -> how l symbol kind position = Some (Made l' decl) -> evolves l l'.

Lemma moves_declared_name how symbol kind position : evolving how -> decl_kind kind -> moves 0 (declare (D := D) how symbol kind position).
Proof.
  intros Hhow Hk p x p' H. unfold declare, ask, mbind, P_bind in H.
  destruct (how (currentScope p) symbol kind position) as [[error|l decl]|] eqn:E; [| |done].
  - injection H as <- <-. by apply later_same.
  - injection H as <- <-. apply later_scopes; [by eapply Hhow|]. apply evolves_zlen. by eapply Hhow.
Qed.

Lemma moves_declare_here symbol kind position : decl_kind kind -> moves 0 (declare (D := D) ParseScope_DeclareHere symbol kind position).
Proof. apply moves_declared_name. unfold evolving. eauto using DeclareHere_evolves. Qed.
Lemma moves_declare_own symbol kind position : decl_kind kind -> moves 0 (declare (D := D) ParseScope_Declare symbol kind position).
Proof. apply moves_declared_name. unfold evolving. eauto using Declare_evolves. Qed.

Lemma decl_kinds : decl_kind PARSEDECL_ARGUMENT /\ decl_kind PARSEDECL_VARIABLE /\ decl_kind PARSEDECL_CONST
  /\ decl_kind PARSEDECL_AUTO /\ decl_kind PARSEDECL_KEYWORD /\ decl_kind PARSEDECL_TILL.
Proof. by split_and!. Qed.
#[local] Hint Extern 1 (decl_kind _) => apply decl_kinds : moves.
#[local] Hint Resolve moves_declare_here moves_declare_own : moves.

Lemma moves_begin kind : moves 1 (Parser_BeginScope (D := D) kind).
Proof.
  intros p x p' H. unfold Parser_BeginScope, ask, modify, mbind, P_bind in H.
  destruct (currentScope p) as [|parent parents] eqn:E; [done|]. injection H as _ <-.
  split; simpl; rewrite ?E; [apply evolves_refl|rewrite !zlen_cons; lia|done|done|done].
Qed.

Lemma moves_end : moves (-1) (Parser_EndScope (D := D)).
Proof.
  intros p x p' H. unfold Parser_EndScope, ask, modify, mbind, P_bind in H.
  destruct (currentScope p) as [|scope parents] eqn:E; [done|]. injection H as _ <-.
  split; simpl; rewrite ?E; [apply evolves_refl|rewrite !zlen_cons; lia|done|done|done].
Qed.

Lemma moves_begin_then {A} kind (f : unit -> P A) : (forall x, moves (-1) (f x)) -> moves 0 (Parser_BeginScope kind ≫= f).
Proof. intros Hf. apply (moves_bind 1 (-1)); [lia|apply moves_begin|done]. Qed.

Lemma moves_end_then {A} (f : ParseScope -> P A) : (forall x, moves 0 (f x)) -> moves (-1) (Parser_EndScope ≫= f).
Proof. intros Hf. apply (moves_bind (-1) 0); [lia|apply moves_end|done]. Qed.

Lemma moves_explicit : moves 0 (make_explicit (D := D)).
Proof.
  intros p x p' H. unfold make_explicit, ask, modify, mbind, P_bind in H.
  destruct (currentScope p) as [|s l] eqn:E; [done|]. injection H as _ <-. apply later_scopes; rewrite E; [|by rewrite !zlen_cons].
  apply evolves_head. split; [done|done|done|]. intros _ [H1 H2]. by split.
Qed.

Lemma moves_use_flag name : moves 0 (use_flag (D := D) name).
Proof.
  intros p x p' H. unfold use_flag, ask, modify, mbind, P_bind in H.
  destruct (currentScope p) as [|s l] eqn:E; [done|]. unfold ParseScope_FindDeclarationHere in H.
  destruct (symbolDict s !! name) as [index|] eqn:En; [|injection H as _ <-; by apply later_same].
  destruct (zget (decls s) index) as [flag|] eqn:Eg; [|done]. simpl in H.
  destruct (zset (decls s) index _) as [l'|] eqn:Es; [|done]. injection H as _ <-.
  apply later_scopes; rewrite E; [|by rewrite !zlen_cons]. apply evolves_head. split; [done| |done|].
  - simpl. rewrite (zset_zlen _ _ _ _ Es). done.
  - intros _ [Hd Hk]. split; simpl.
    + intros symbol i Hi. destruct (Hd symbol i Hi) as (decl & Hg & Hs). destruct (decide (i = index)) as [->|Hne].
      * rewrite (zset_get_eq _ _ _ _ Es). eexists. split; [done|]. simpl. congruence.
      * rewrite (zset_get_ne _ _ _ _ _ Es) by done. by exists decl.
    + apply zset_Some in Es as (_ & ->). apply Forall_insert; [done|]. simpl.
      apply zget_Some in Eg as [_ Eg]. exact (Forall_lookup_1 _ _ _ _ Hk Eg).
Qed.
#[local] Hint Resolve moves_begin_then moves_end_then moves_explicit moves_use_flag : moves.

(** ** Lookahead and recovery *)

Lemma moves_Recover fuel kinds n : moves 0 (Parser_Recover (D := D) fuel kinds n).
Proof. induction fuel as [|fuel IH]; simpl; moves. Qed.
#[local] Hint Resolve moves_Recover : moves.
Lemma moves_recover fuel kinds : moves 0 (recover (D := D) fuel kinds).
Proof. apply moves_Recover. Qed.
Lemma moves_lookahead kinds : moves 0 (Parser_HasLookaheadOf (D := D) kinds).
Proof. unfold Parser_HasLookaheadOf. moves. Qed.
#[local] Hint Resolve moves_recover moves_lookahead : moves.
Lemma moves_HasLookahead k : moves 0 (Parser_HasLookahead (D := D) k).
Proof. apply moves_lookahead. Qed.
Lemma moves_HasEqual : moves 0 (Parser_HasEqualLookahead (D := D)).
Proof. apply moves_lookahead. Qed.
Lemma moves_Has2 k1 k2 : moves 0 (Parser_Has2Lookahead (D := D) k1 k2).
Proof. unfold Parser_Has2Lookahead. moves. Qed.
Lemma moves_Peek2 : moves 0 (Parser_Peek2 (D := D)).
Proof. unfold Parser_Peek2. moves. Qed.
Lemma moves_IsLValue e : moves 0 (Parser_IsLValue (D := D) e).
Proof. unfold Parser_IsLValue. moves. Qed.
Lemma moves_custom symbol : moves 0 (Parser_ApplyCustomSyntax (D := D) symbol).
Proof. unfold Parser_ApplyCustomSyntax, GetSyntaxClass. moves. Qed.
#[local] Hint Resolve moves_HasLookahead moves_HasEqual moves_Has2 moves_Peek2 moves_IsLValue moves_custom : moves.

Ltac moves_step ::=
  lazymatch goal with
  | |- forall _, _ => intros ?
  | |- moves _ (mret _) => exact (moves_ret _)
  | |- moves _ (trouble _) => apply moves_trouble
  | |- moves _ (ask _) => apply moves_ask
  | |- moves _ (demand _ _) => apply moves_demand
  | |- moves _ (let x := _ in _) => cbv zeta
  | |- moves _ (match ?x with _ => _ end) => destruct x
  | |- moves _ (Parser_BeginScope _ ≫= _) => apply moves_begin_then
  | |- moves _ (Parser_EndScope ≫= _) => apply moves_end_then
  | |- moves _ (_ ≫= _) => apply moves_then
  | |- moves _ (modify _) => apply moves_modify; intros ?; by apply later_same
  end.

(** ** The forms *)

Section Levels.
Variables (loops : nat) (K : Recur D).

(** What holds of the functions that are called recursively. *)
Record recursion_moves : Prop := {
  km_Expr : forall m, moves 0 (r_Expr K m);
  km_OpEquals : forall m, moves 0 (r_OpEquals K m);
  km_Equals : forall m, moves 0 (r_Equals K m);
  km_OrExpr : forall m, moves 0 (r_OrExpr K m);
  km_Term : forall m t, moves 0 (r_Term K m t);
  km_RawListTerm : forall m, moves 0 (r_RawListTerm K m)
}.
Hypothesis HK : recursion_moves.

Lemma K_Expr m : moves 0 (r_Expr K m).
Proof. apply HK. Qed.
Lemma K_OpEquals m : moves 0 (r_OpEquals K m).
Proof. apply HK. Qed.
Lemma K_Equals m : moves 0 (r_Equals K m).
Proof. apply HK. Qed.
Lemma K_OrExpr m : moves 0 (r_OrExpr K m).
Proof. apply HK. Qed.
Lemma K_Term m t : moves 0 (r_Term K m t).
Proof. apply HK. Qed.
Lemma K_RawListTerm m : moves 0 (r_RawListTerm K m).
Proof. apply HK. Qed.
#[local] Hint Resolve K_Expr K_OpEquals K_Equals K_OrExpr K_Term K_RawListTerm : moves.

Lemma moves_expressions fuel parse m l : (forall m, moves 0 (parse m)) -> moves 0 (expressions (D := D) loops fuel parse m l).
Proof. intros Hp. revert l. induction fuel as [|fuel IH]; intros l; simpl; moves. Qed.
Lemma moves_ExprsOpt m l : moves 0 (Parser_ParseExprsOpt loops K m l).
Proof. apply moves_expressions. moves. Qed.
Lemma moves_CallArgsOpt m l : moves 0 (Parser_ParseCallArgsOpt loops K m l).
Proof. apply moves_expressions. moves. Qed.
#[local] Hint Resolve moves_ExprsOpt moves_CallArgsOpt : moves.

Lemma moves_import vars l : moves 0 (import_vars (D := D) vars l).
Proof. revert l. induction vars as [|[symbol obj] vars IH]; intros l; simpl; moves. Qed.
#[local] Hint Resolve moves_import : moves.
Lemma moves_ImportExternalVars l : moves 0 (Parser_ImportExternalVars (D := D) l).
Proof. unfold Parser_ImportExternalVars. moves. Qed.
#[local] Hint Resolve moves_ImportExternalVars : moves.

Lemma moves_ScopeBody : moves 0 (Parser_ParseScopeBody loops K).
Proof. unfold Parser_ParseScopeBody. moves. Qed.
#[local] Hint Resolve moves_ScopeBody : moves.
Lemma moves_Scope : moves 0 (Parser_ParseScope loops K).
Proof. unfold Parser_ParseScope. moves. Qed.
Lemma moves_Parentheses : moves 0 (Parser_ParseParentheses loops K).
Proof. unfold Parser_ParseParentheses. moves. Qed.
Lemma moves_LeftBracket t name position : moves 0 (Parser_ExpectLeftBracket (D := D) loops t name position).
Proof. unfold Parser_ExpectLeftBracket. moves. Qed.
Lemma moves_RightBracket name position : moves 0 (Parser_ExpectRightBracket (D := D) loops name position).
Proof. unfold Parser_ExpectRightBracket. moves. Qed.
#[local] Hint Resolve moves_Scope moves_Parentheses moves_LeftBracket moves_RightBracket : moves.

(** *** [$scope] *)

Lemma moves_name_sublist fuel l : moves 0 (name_sublist (D := D) fuel l).
Proof. revert l. induction fuel as [|fuel IH]; intros l; simpl; moves. Qed.
#[local] Hint Resolve moves_name_sublist : moves.
Lemma moves_missing n : moves 0 (missing_scope_name (D := D) n).
Proof. unfold missing_scope_name. moves. Qed.
#[local] Hint Resolve moves_missing : moves.
Lemma moves_scope_names fuel l : moves 0 (scope_names_loop (D := D) loops fuel l).
Proof. revert l. induction fuel as [|fuel IH]; intros l; simpl; unfold Parser_ParseNameSublist; moves. Qed.
#[local] Hint Resolve moves_scope_names : moves.

Lemma scope_modifiers_kind e before p after p' : decl_kind before ->
  scope_modifiers (D := D) e before p = inr (after, p') -> decl_kind after /\ later 0 p p'.
Proof.
  revert before p. induction e as [| | | | | | | | | | | | | | | | |a _ d IH source] using Expr_ind; intros before p Hk H;
    try (injection H as <- <-; split; [done|by apply later_same]).
  simpl in H. destruct a; try done.
  destruct (_ =? sym_auto); [by apply (IH PARSEDECL_AUTO)|].
  destruct (_ =? sym_set_once); [by apply (IH PARSEDECL_CONST)|].
  unfold mbind, P_bind in H. destruct (Parser_AddMessage _ p) as [|[[] p1]] eqn:E; [done|].
  destruct (IH _ _ Hk H) as [H1 H2]. split; [done|].
  exact (later_trans 0 0 _ _ _ (or_introl (Z.le_refl 0)) (moves_message _ _ _ _ E) H2).
Qed.

Lemma moves_declare_scope_names l : moves 0 (declare_scope_names (D := D) l).
Proof.
  induction l as [|[name source] l IH]; simpl; [moves|]. cbv zeta. apply moves_then; [|done].
  destruct name as [| | | | | | | | | | | | | | | | |a d s]; try solve [moves]. destruct a; try solve [moves].
  intros p x p' H. unfold mbind, P_bind in H. destruct (scope_modifiers d _ p) as [|[kind p1]] eqn:E; [done|].
  apply scope_modifiers_kind in E as [Hk E]; [|by apply decl_kinds].
  exact (later_trans 0 0 _ _ _ (or_introl (Z.le_refl 0)) E (moves_declare_here _ _ _ Hk _ _ _ H)).
Qed.
#[local] Hint Resolve moves_declare_scope_names : moves.

Lemma moves_ClassicScope position : moves 0 (Parser_ParseClassicScope loops K position).
Proof. unfold Parser_ParseClassicScope, Parser_ParseClassicScopeVariableNames. moves. Qed.
#[local] Hint Resolve moves_ClassicScope : moves.
(** *** Strings and quoted lists *)

Lemma moves_lexer_at text position : moves 0 (lexer_at (D := D) text position).
Proof. unfold lexer_at. moves. Qed.
#[local] Hint Resolve moves_lexer_at : moves.
Lemma moves_OneExpression text position : moves 0 (Parser_ParseOneExpressionFromText K text position).
Proof. unfold Parser_ParseOneExpressionFromText. moves. Qed.
#[local] Hint Resolve moves_OneExpression : moves.
Lemma moves_pieces pieces l : moves 0 (parse_pieces K pieces l).
Proof. revert l. induction pieces as [|piece pieces IH]; intros l; simpl; moves. Qed.
#[local] Hint Resolve moves_pieces : moves.
Lemma moves_DynamicString text position : moves 0 (Parser_ParseDynamicString K text position).
Proof. unfold Parser_ParseDynamicString. moves. Qed.
#[local] Hint Resolve moves_DynamicString : moves.

Lemma moves_raw_dots fuel e k : moves 0 (raw_dots (D := D) fuel e k).
Proof. revert e. induction fuel as [|fuel IH]; intros e; simpl; moves. Qed.
#[local] Hint Resolve moves_raw_dots : moves.
Lemma moves_RawListDotExpr m : moves 0 (Parser_ParseRawListDotExpr loops K m).
Proof. unfold Parser_ParseRawListDotExpr. moves. Qed.
#[local] Hint Resolve moves_RawListDotExpr : moves.
Lemma moves_raw_items fuel m l k start : moves 0 (raw_items loops K fuel m l k start).
Proof. revert l k start. induction fuel as [|fuel IH]; intros l k start; simpl; moves. Qed.
Lemma moves_raw_at t : moves 0 (raw_at loops K t).
Proof. unfold raw_at. moves. Qed.
Lemma moves_raw_at_at t : moves 0 (raw_at_at (D := D) t).
Proof. unfold raw_at_at. moves. Qed.
#[local] Hint Resolve moves_raw_items moves_raw_at moves_raw_at_at : moves.
Lemma moves_raw_list t : moves 0 (raw_list loops K t).
Proof. unfold raw_list, Parser_ParseRawListItemsOpt. moves. Qed.
Lemma moves_raw_backtick t m : moves 0 (raw_backtick K t m).
Proof. unfold raw_backtick. moves. Qed.
#[local] Hint Resolve moves_raw_list moves_raw_backtick : moves.
Lemma moves_RawListTerm m : moves 0 (Parser_ParseRawListTerm loops K m).
Proof. unfold Parser_ParseRawListTerm. moves. Qed.
#[local] Hint Resolve moves_RawListTerm : moves.
Lemma moves_QuoteBody m position : moves 0 (Parser_ParseQuoteBody loops K m position).
Proof. unfold Parser_ParseQuoteBody, Parser_ParseQuotedTerm. moves. Qed.
#[local] Hint Resolve moves_QuoteBody : moves.
Lemma moves_ClassicQuote position : moves 0 (Parser_ParseClassicQuote loops K position).
Proof. unfold Parser_ParseClassicQuote. moves. Qed.
#[local] Hint Resolve moves_ClassicQuote : moves.

(** *** Functions *)

Lemma moves_ParamType : moves 0 (Parser_ParseParamType (D := D)).
Proof. unfold Parser_ParseParamType. moves. Qed.
Lemma moves_annotate param name key value p1 p2 fresh : moves 0 (annotate (D := D) param name key value p1 p2 fresh).
Proof. unfold annotate. moves. Qed.
#[local] Hint Resolve moves_ParamType moves_annotate : moves.
Lemma moves_param_name previous t : moves 0 (param_name (D := D) previous t).
Proof. unfold param_name. moves. Qed.
#[local] Hint Resolve moves_param_name : moves.
Lemma moves_Param previous : moves 0 (Parser_ParseParam loops K previous).
Proof. unfold Parser_ParseParam. moves. Qed.
Lemma moves_replace_error error newer : moves 0 (replace_error (D := D) error newer).
Proof. unfold replace_error. moves. Qed.
#[local] Hint Resolve moves_Param moves_replace_error : moves.
Lemma moves_rest_param param position error : moves 0 (rest_param (D := D) param position error).
Proof. unfold rest_param. moves. Qed.
#[local] Hint Resolve moves_rest_param : moves.
Lemma moves_params fuel isFirst previous error l : moves 0 (params_loop loops K fuel isFirst previous error l).
Proof. revert isFirst previous error l. induction fuel as [|fuel IH]; intros isFirst previous error l; simpl; moves. Qed.
#[local] Hint Resolve moves_params : moves.
Lemma moves_func_body m params t : moves (-1) (func_body K m params t).
Proof. unfold func_body. moves. Qed.
#[local] Hint Resolve moves_func_body : moves.
Lemma moves_Func m : moves 0 (Parser_ParseFunc loops K m).
Proof. unfold Parser_ParseFunc, Parser_ParseParamsOpt. moves. Qed.
Lemma moves_fn_arg e position : moves 0 (DeclareClassicFnArg (D := D) e position).
Proof. unfold DeclareClassicFnArg. moves. Qed.
#[local] Hint Resolve moves_Func moves_fn_arg : moves.
Lemma moves_fn_args e : moves 0 (declare_fn_args (D := D) e).
Proof. induction e; simpl; moves. Qed.
#[local] Hint Resolve moves_fn_args : moves.
Lemma moves_fn_parts position : moves 0 (classic_fn_parts loops K position).
Proof. unfold classic_fn_parts. moves. Qed.
#[local] Hint Resolve moves_fn_parts : moves.
Lemma moves_ClassicFn position : moves 0 (Parser_ParseClassicFn loops K position).
Proof. unfold Parser_ParseClassicFn. moves. Qed.
#[local] Hint Resolve moves_ClassicFn : moves.

(** *** Objects and till loops *)

Lemma moves_members fuel l errors : moves 0 (members_loop loops K fuel l errors).
Proof. revert l errors. induction fuel as [|fuel IH]; intros l errors; simpl; moves. Qed.
Lemma moves_bracketed fuel item l : moves 0 item -> moves 0 (bracketed_items (D := D) loops fuel item l).
Proof. intros Hi. revert l. induction fuel as [|fuel IH]; intros l; simpl; moves. Qed.
Lemma moves_expression_or_null : moves 0 (expression_or_null K).
Proof. unfold expression_or_null. moves. Qed.
Lemma moves_NewMember : moves 0 (Parser_ParseClassicNewMember loops K).
Proof. unfold Parser_ParseClassicNewMember. moves. Qed.
#[local] Hint Resolve moves_members moves_bracketed moves_expression_or_null moves_NewMember : moves.
Lemma moves_ClassicNew position : moves 0 (Parser_ParseClassicNew loops K position).
Proof. unfold Parser_ParseClassicNew, Parser_ParseClassicNewMembers. moves. Qed.
#[local] Hint Resolve moves_ClassicNew : moves.

Lemma moves_TillName : moves 0 (Parser_ParseTillName (D := D)).
Proof. unfold Parser_ParseTillName. moves. Qed.
#[local] Hint Resolve moves_TillName : moves.
Lemma moves_till_names fuel l : moves 0 (till_names (D := D) fuel l).
Proof. revert l. induction fuel as [|fuel IH]; intros l; simpl; moves. Qed.
Lemma moves_recover_to words error : moves 0 (recover_to (D := D) loops words error).
Proof. unfold recover_to. moves. Qed.
Lemma moves_keyword words format details : moves 0 (keyword (D := D) words format details).
Proof. unfold keyword. moves. Qed.
Lemma moves_when_flag flags used : moves 0 (when_flag (D := D) flags used).
Proof. unfold when_flag. moves. Qed.
#[local] Hint Resolve moves_till_names moves_recover_to moves_keyword moves_when_flag : moves.
Lemma moves_whens fuel flags used m l : moves 0 (whens_loop K fuel flags used m l).
Proof. revert used l. induction fuel as [|fuel IH]; intros used l; simpl; moves. Qed.
Lemma moves_till_parts m : moves 0 (till_parts loops K m).
Proof. unfold till_parts, Parser_ParseTillNames. moves. Qed.
#[local] Hint Resolve moves_whens moves_till_parts : moves.
Lemma moves_Till m position : moves 0 (Parser_ParseTill loops K m position).
Proof. unfold Parser_ParseTill, Parser_ParseWhens. moves. Qed.
Lemma moves_TillWhen : moves 0 (Parser_ParseClassicTillWhen loops K).
Proof. unfold Parser_ParseClassicTillWhen. moves. Qed.
Lemma moves_till_flags fuel l : moves 0 (till_flag_names (D := D) fuel l).
Proof. revert l. induction fuel as [|fuel IH]; intros l; simpl; moves. Qed.
Lemma moves_declare_flags l : moves 0 (declare_flags (D := D) l).
Proof. induction l as [|[[] source] l IH]; simpl; moves. Qed.
#[local] Hint Resolve moves_Till moves_TillWhen moves_till_flags moves_declare_flags : moves.
Lemma moves_till_whens position : moves 0 (classic_till_whens loops K position).
Proof. unfold classic_till_whens, Parser_ParseClassicTillWhens. moves. Qed.
#[local] Hint Resolve moves_till_whens : moves.
Lemma moves_ClassicTill position : moves 0 (Parser_ParseClassicTill loops K position).
Proof. unfold Parser_ParseClassicTill, Parser_ParseClassicTillFlagNames. moves. Qed.
#[local] Hint Resolve moves_ClassicTill : moves.
(** *** Terms and operators *)

Lemma moves_assignable e position : moves 0 (EnsureLValueIsAssignable (D := D) e position).
Proof. unfold EnsureLValueIsAssignable. moves. Qed.
Lemma moves_classic_lvalue : moves 0 (classic_lvalue K).
Proof. unfold classic_lvalue. moves. Qed.
#[local] Hint Resolve moves_assignable moves_classic_lvalue : moves.
Lemma moves_ClassicSet position : moves 0 (Parser_ParseClassicSet loops K position).
Proof. unfold Parser_ParseClassicSet. moves. Qed.
#[local] Hint Resolve moves_ClassicSet : moves.
Lemma moves_SpecialForm position : moves 0 (Parser_TryParseSpecialForm loops K position).
Proof.
  unfold Parser_TryParseSpecialForm. apply moves_then; [moves|]. intros t. cbv zeta.
  repeat match goal with |- context [if ?b then _ else _] => destruct b end; moves.
Qed.
#[local] Hint Resolve moves_SpecialForm : moves.
Lemma moves_list_term t : moves 0 (list_term loops K t).
Proof. unfold list_term. moves. Qed.
#[local] Hint Resolve moves_list_term : moves.
Lemma moves_Term m t : moves 0 (Parser_ParseTerm loops K m t).
Proof. unfold Parser_ParseTerm. moves. Qed.
#[local] Hint Resolve moves_Term : moves.
Lemma moves_dots fuel e : moves 0 (dots (D := D) fuel e).
Proof. revert e. induction fuel as [|fuel IH]; intros e; simpl; moves. Qed.
#[local] Hint Resolve moves_dots : moves.
Lemma moves_DotExpr m t : moves 0 (Parser_ParseDotExpr loops K m t).
Proof. unfold Parser_ParseDotExpr. moves. Qed.
#[local] Hint Resolve moves_DotExpr : moves.
Lemma moves_conses fuel m t : moves 0 (conses loops K fuel m t).
Proof. induction fuel as [|fuel IH]; simpl; moves. Qed.
#[local] Hint Resolve moves_conses : moves.
Lemma moves_PostfixExpr m t : moves 0 (Parser_ParsePostfixExpr loops K m t).
Proof. unfold Parser_ParsePostfixExpr, Parser_ParseConsExpr. moves. Qed.
Lemma moves_new_body e t : moves 0 (new_body loops K e t).
Proof. unfold new_body, Parser_ParseMembers. moves. Qed.
Lemma moves_new_base m t : moves 0 (new_base loops K m t).
Proof. unfold new_base. moves. Qed.
#[local] Hint Resolve moves_PostfixExpr moves_new_body moves_new_base : moves.
Lemma moves_NewExpr m t : moves 0 (Parser_ParseNewExpr loops K m t).
Proof. unfold Parser_ParseNewExpr. moves. Qed.
Lemma moves_prefixes fuel m l : moves 0 (prefixes (D := D) fuel m l).
Proof. revert l. induction fuel as [|fuel IH]; intros l; simpl; moves. Qed.
#[local] Hint Resolve moves_NewExpr moves_prefixes : moves.
Lemma moves_PrefixExpr m : moves 0 (Parser_ParsePrefixExpr loops K m).
Proof. unfold Parser_ParsePrefixExpr. moves. Qed.
#[local] Hint Resolve moves_PrefixExpr : moves.
Lemma moves_RangeExpr m : moves 0 (Parser_ParseRangeExpr loops K m).
Proof. unfold Parser_ParseRangeExpr. moves. Qed.
#[local] Hint Resolve moves_RangeExpr : moves.
Lemma moves_colons fuel m e : moves 0 (colons loops K fuel m e).
Proof. revert e. induction fuel as [|fuel IH]; intros e; simpl; moves. Qed.
#[local] Hint Resolve moves_colons : moves.
Lemma moves_ColonExpr m : moves 0 (Parser_ParseColonExpr loops K m).
Proof. unfold Parser_ParseColonExpr. moves. Qed.
#[local] Hint Resolve moves_ColonExpr : moves.
Lemma moves_comma_operands fuel m l : moves 0 (comma_operands loops K fuel m l).
Proof. revert l. induction fuel as [|fuel IH]; intros l; simpl; moves. Qed.
Lemma moves_opequals_ahead : moves 0 (opequals_ahead (D := D)).
Proof. apply moves_Has2. Qed.
#[local] Hint Resolve moves_comma_operands moves_opequals_ahead : moves.
Lemma moves_binary_operands t m e : moves 0 (binary_operands loops K t m e).
Proof. unfold binary_operands. moves. Qed.
Lemma moves_is_binary m t : moves 0 (is_binary_operator (D := D) m t).
Proof. unfold is_binary_operator, Parser_IsAcceptableArbitraryBinaryOperator. moves. Qed.
#[local] Hint Resolve moves_binary_operands moves_is_binary : moves.
Lemma moves_binaries fuel m e : moves 0 (binaries loops K fuel m e).
Proof. revert e. induction fuel as [|fuel IH]; intros e; simpl; moves. Qed.
#[local] Hint Resolve moves_binaries : moves.
Lemma moves_BinaryExpr m : moves 0 (Parser_ParseBinaryExpr loops K m).
Proof. unfold Parser_ParseBinaryExpr. moves. Qed.
#[local] Hint Resolve moves_BinaryExpr : moves.

(** A level of operators, given its operand. *)
Lemma moves_operators fuel class is_operator operand build m e : (forall m, moves 0 (operand m)) ->
  moves 0 (operators (D := D) fuel class is_operator operand build m e).
Proof. intros Ho. revert e. induction fuel as [|fuel IH]; intros e; simpl; moves. Qed.
#[local] Hint Resolve moves_operators : moves.
Lemma moves_MulExpr m : moves 0 (Parser_ParseMulExpr loops K m).
Proof. unfold Parser_ParseMulExpr, mul_operators. moves. Qed.
#[local] Hint Resolve moves_MulExpr : moves.
Lemma moves_AddExpr m : moves 0 (Parser_ParseAddExpr loops K m).
Proof. unfold Parser_ParseAddExpr, add_operators. moves. Qed.
#[local] Hint Resolve moves_AddExpr : moves.
Lemma moves_CmpExpr m : moves 0 (Parser_ParseCmpExpr loops K m).
Proof. unfold Parser_ParseCmpExpr, cmp_operators. moves. Qed.
Lemma moves_nots fuel l : moves 0 (nots (D := D) fuel l).
Proof. revert l. induction fuel as [|fuel IH]; intros l; simpl; moves. Qed.
#[local] Hint Resolve moves_CmpExpr moves_nots : moves.
Lemma moves_NotExpr m : moves 0 (Parser_ParseNotExpr loops K m).
Proof. unfold Parser_ParseNotExpr. moves. Qed.
Lemma moves_junctions fuel word form operand m isFirst e : (forall m, moves 0 (operand m)) ->
  moves 0 (junctions (D := D) fuel word form operand m isFirst e).
Proof. intros Ho. revert isFirst e. induction fuel as [|fuel IH]; intros isFirst e; simpl; moves. Qed.
#[local] Hint Resolve moves_NotExpr moves_junctions : moves.
Lemma moves_AndExpr m : moves 0 (Parser_ParseAndExpr loops K m).
Proof. unfold Parser_ParseAndExpr. moves. Qed.
#[local] Hint Resolve moves_AndExpr : moves.
Lemma moves_OrExpr m : moves 0 (Parser_ParseOrExpr loops K m).
Proof. unfold Parser_ParseOrExpr. moves. Qed.
#[local] Hint Resolve moves_OrExpr : moves.

(** *** Assignments and statements *)

Lemma moves_Equals m : moves 0 (Parser_ParseEquals loops K m).
Proof. unfold Parser_ParseEquals. moves. Qed.
Lemma moves_opequals_lookahead : moves 0 (opequals_lookahead (D := D)).
Proof. unfold opequals_lookahead. moves. Qed.
#[local] Hint Resolve moves_Equals moves_opequals_lookahead : moves.
Lemma moves_OpEquals m : moves 0 (Parser_ParseOpEquals loops K m).
Proof. unfold Parser_ParseOpEquals. moves. Qed.
#[local] Hint Resolve moves_OpEquals : moves.
Lemma moves_Decl m kind : decl_kind kind -> moves 0 (Parser_ParseDecl K m kind).
Proof. intros Hk. unfold Parser_ParseDecl. moves. Qed.
#[local] Hint Resolve moves_Decl : moves.
Lemma moves_var_decls fuel m kind l : decl_kind kind -> moves 0 (var_decls K fuel m kind l).
Proof. intros Hk. revert l. induction fuel as [|fuel IH]; intros l; simpl; moves. Qed.
#[local] Hint Resolve moves_var_decls : moves.
Lemma moves_VarDecls m kind : decl_kind kind -> moves 0 (Parser_ParseVarDecls loops K m kind).
Proof. intros Hk. unfold Parser_ParseVarDecls. moves. Qed.
Lemma moves_keyword_list fuel : moves 0 (keyword_list (D := D) fuel).
Proof. induction fuel as [|fuel IH]; simpl; moves. Qed.
Lemma moves_or_recover words m : moves 0 m -> moves 0 (or_recover (D := D) loops words m).
Proof. intros Hm. unfold or_recover. moves. Qed.
Lemma moves_else m : moves 0 (else_part K m).
Proof. unfold else_part. moves. Qed.
Lemma moves_catch_handler m n : moves 0 (catch_handler loops K m n).
Proof. unfold catch_handler. moves. Qed.
#[local] Hint Resolve moves_VarDecls moves_keyword_list moves_or_recover moves_else moves_catch_handler : moves.

Lemma moves_statement symbol m position parse :
  keyword_statement loops K symbol m position = Some parse -> moves 0 parse.
Proof.
  unfold keyword_statement.
  repeat match goal with |- context [if ?b then _ else _] => destruct b end; intros [= <-];
    unfold Parser_ParseKeywordList, Parser_ParseIfUnless, Parser_ParseDo, Parser_ParseWhileUntil, Parser_ParseReturn, Parser_ParseTry;
    moves.
Qed.

Lemma moves_plain m : moves 0 (plain_statement loops K m).
Proof. unfold plain_statement. moves. Qed.
#[local] Hint Resolve moves_plain : moves.

Lemma moves_Expr m : moves 0 (Parser_ParseExpr loops K m).
Proof.
  unfold Parser_ParseExpr, Parser_ParseStmt. apply moves_then; [moves|]. intros t.
  assert (Hw : moves 0 (match keyword_statement loops K (data_symbol t) m (Token_GetPosition t) with
                        | Some parse => parse | None => plain_statement loops K m end)).
  { destruct (keyword_statement _ _ _ _ _) eqn:E; [by eapply moves_statement|moves]. }
  destruct (kind t); moves.
Qed.
End Levels.

(** ** The recursion *)

Lemma parsers_move fuel : recursion_moves (parsers fuel).
Proof.
  induction fuel as [|fuel IH]; [split; intros; apply moves_trouble|].
  cbn [parsers]. set (loops := S fuel). clearbody loops.
  split; intros; cbn [r_Expr r_OpEquals r_Equals r_OrExpr r_Term r_RawListTerm];
    [apply moves_Expr|apply moves_OpEquals|apply moves_Equals|apply moves_OrExpr|apply moves_Term|apply moves_RawListTerm]; exact IH.
Qed.

(** The scope of a body gets its declarations, and the scopes around it none. *)
Lemma ScopeBody_closed loops K p e scope p' : recursion_moves K ->
  Parser_ParseScopeBody loops K p = inr ((e, scope), p') ->
  currentScope p' = currentScope p /\ (has_room scope -> scope_wf scope).
Proof.
  intros HK H. unfold Parser_ParseScopeBody in H. unfold mbind, P_bind in H.
  destruct (lexer_position p) as [|[start p1]] eqn:E1; [done|].
  destruct (Parser_BeginScope PARSESCOPE_SCOPEDECL p1) as [|[[] p2]] eqn:E2; [done|].
  destruct (Parser_ImportExternalVars [] p2) as [|[head p3]] eqn:E3; [done|].
  destruct (Parser_ParseExprsOpt loops K default_mode head p3) as [|[head' p4]] eqn:E4; [done|].
  pose proof (later_trans 0 0 _ _ _ (or_introl (Z.le_refl 0)) (moves_ImportExternalVars _ _ _ _ E3) (moves_ExprsOpt _ _ HK _ _ _ _ _ E4)) as [Hev _ _ _ _].
  unfold Parser_BeginScope, ask, modify, mbind, P_bind in E2.
  assert (Ep : currentScope p1 = currentScope p).
  { unfold lexer_position, get_lexer, ask, mbind, P_bind in E1. destruct (lexer p); [|done]. by injection E1 as _ <-. }
  destruct (currentScope p1) as [|parent parents] eqn:Es; [done|]. injection E2 as <-. simpl in Hev.
  unfold Parser_EndScope, ask, modify, mbind, P_bind in H. destruct (currentScope p4) as [|s l] eqn:E5; [done|].
  injection H as _ <- <-. simpl in *. destruct Hev as [Hg Hl]. split; [by rewrite <- Hl, <- Ep|].
  intros Hr. apply (gr_wf _ _ Hg); [done|apply empty_wf].
Qed.
End Keeps.
