(* ===== verification/ParserTests.v ===== *)
(** * ParserTests: the parser on texts

    The parser on the text of programs, with the symbols the program starts with.  An expression is shown in the syntax of lists, a call of [$dot] as such. *)

From Stdlib Require Import String DecimalString.
From S2P Require Import Prelude FiniteMap Text StringDict StringDictProps SymbolTable Lexer LexNames LexNumbers LexStrings LexerNext.
From S2P Require Import Object Expr KnownSymbols ParseScope Parser ParseForms ParseLists ParseBlocks ParseExprs.

#[export] Instance parser_reals : RealParsers := {
  Real32_TryParse := fun _ => Some 0; Real64_TryParse := fun _ => Some 0; Real128_TryParse := fun _ => Some 0;
  strtod := fun _ => 0; float32_of := fun z => z
}.
Definition sum_hash (s : Str) : Z := fold_left (fun h c => (h * 31 + c) mod 2 ^ 31) s 0.
#[export] Instance parser_dict : MapOps Str Z (StringDictInt Z) := StringDict_ops sum_hash 0.

Definition parser_table : option (SymbolTableInt (StringDictInt Z)) :=
  table ← SymbolTable_Create;
  '(table, _) ← KnownSymbols_PreloadSymbolTable sum_hash table; Some table.

Definition symbol_named (name : string) : Symbol :=
  default (-1) (table ← parser_table; SymbolTable_GetSymbolNoCreate table (bytes name)).

#[export] Instance parser_env : ParserEnv := {
  file_number := fun s => length s;
  sym_Object := 114; sym_List := 109; sym_of := 382; sym_combine := 244; sym_cons := 249; sym_join := 351;
  sym_range_to := 418; past_symbol := None; unset := EUnsupported (-1)
}.
#[export] Instance parser_symbols : CompilerEnv := {
  sym_true := 486; sym_false := 288; sym_null := 375; sym_not := 41; sym_get_member := 92; sym_auto := 27;
  sym_set_once := 448; sym_type_modifier := 487; sym_default := 270; sym_rest := 436
}.

Example environment_named :
  map symbol_named ["Object"; "List"; "of"; "combine"; "cons"; "join"; "range-to"; "auto"; "set-once"; "type"; "default"; "rest"]%string
  = [sym_Object; sym_List; sym_of; sym_combine; sym_cons; sym_join; sym_range_to; sym_auto; sym_set_once;
     sym_type_modifier; sym_default; sym_rest].
Proof. by vm_compute. Qed.

Definition digits_of (z : Z) : string := NilZero.string_of_int (Z.to_int z).

Definition text_string (s : Str) : string := fold_right (fun c => String (Ascii.ascii_of_nat (Z.to_nat c))) EmptyString s.

(** An expression as text. *)
Fixpoint show (name : Symbol -> string) (e : Expr) : string :=
  match e with
  | ENull => "[]"
  | ESymbol s => name s
  | EInteger64 z => digits_of z
  | EString s => "'" ++ text_string s ++ "'"
  | EUnsupported 0 => "<ignorable>"
  | EUnsupported _ => "<unset>"
  | ECons a d _ => "[" ++ show name a ++ show_tail name d
  | _ => "<other>"
  end%string
with show_tail (name : Symbol -> string) (d : Expr) : string :=
  match d with
  | ENull => "]"
  | ECons a d _ => " " ++ show name a ++ show_tail name d
  | EInteger64 z => " ## " ++ digits_of z ++ "]"
  | ESymbol s => " ## " ++ name s ++ "]"
  | _ => " ## <other>]"
  end%string.

(** The expression of a text, in a scope with the given variables, and how many
    messages there were. *)
Definition declare_variables (table : SymbolTableInt (StringDictInt Z)) (variables : list string)
  : option (SymbolTableInt (StringDictInt Z) * list (Symbol * bool)) :=
  foldl (fun r v =>
           '(table, names) ← r; '(table, s) ← SymbolTable_GetSymbol table (bytes v); Some (table, names ++ [(s, false)]))
    (Some (table, [])) variables.

Definition name_of (table : SymbolTableInt (StringDictInt Z)) (s : Symbol) : string :=
  match SymbolTable_GetName table s with Some (Some name) => text_string name | _ => "?"%string end.

Definition parse_text (fuel : nat) (variables : list string) (text : string) : Trouble + (string * nat) :=
  match
    table ← parser_table;
    root ← ParseScope_CreateRoot;
    '(table, names) ← declare_variables table variables;
    r ← ParseScope_DeclareVariablesFromClosureInfo root [names];
    match r with inl _ => None | inr scopes => Some (table, scopes) end
  with
  | None => inl NullPointer
  | Some (table, scopes) =>
      match Parser_ParseString fuel scopes (bytes text) (Parser_Create table) with
      | inl why => inl why
      | inr (e, p) => inr (show (name_of (symbols p)) e, length (messages p))
      end
  end.

#[local] Notation parse text := (parse_text 60 ["x"; "y"]%string text%string).
#[local] Notation shown s := (inr (s%string, 0%nat)).

(** ** Forms *)

Example parse_precedence : parse "x + 1 * y - x" = shown "[[$dot [[$dot x +] [[$dot 1 *] y]] -] x]".
Proof. by vm_compute. Qed.

Example parse_comparisons : parse "x < y == x is y" = shown "[$is [[$dot [[$dot x <] y] ==] x] y]".
Proof. by vm_compute. Qed.

Example parse_program : parse "var z = 3
z = x * 2
if z < 3 then x else y" = shown "[$scope [z] [$progn [$set z 3]] [$set z [[$dot x *] 2]] [$if [[$dot z <] 3] x y]]".
Proof. by vm_compute. Qed.

Example parse_function : parse "|a, b = 5, c...| a + b" = shown "[$fn [a [b default 5] [c rest]] [[$dot a +] b]]".
Proof. by vm_compute. Qed.

Example parse_junction : parse "x and y or not x" = shown "[$or [$and x y] [$not x]]".
Proof. by vm_compute. Qed.

Example parse_lists : parse "[$set x 3] [x.foo 1 2] x:y `[a @x [5]]" = shown "[$progn [$set x 3] [[$dot x foo] 1 2] [$index x y] [[$dot List of] [$quote a] x [$quote [5]]]]".
Proof. by vm_compute. Qed.

(** What is not spliced becomes the only argument of [List.cons]. *)
Example parse_splice : parse "`[a @x @@x]" = shown "[[$dot List combine] [$quote [a]] [[$dot List cons] x] x]".
Proof. by vm_compute. Qed.

Example parse_pairs : parse "x ## y ## 5" = shown "[x y ## 5]".
Proof. by vm_compute. Qed.

Example parse_loops : parse "do x while y  until x do y" = shown "[$progn [$while x y []] [$while [$not x] y]]".
Proof. by vm_compute. Qed.

Example parse_till : parse "till a, b do x when a y when b x" = shown "[$till [a b] x [[a y] [b x]]]".
Proof. by vm_compute. Qed.

Example parse_new : parse "new { a: 1 b: 2 }" = shown "[$new Object [[a 1] [b 2]]]".
Proof. by vm_compute. Qed.

Example parse_try : parse "try x catch |e| y" = shown "[$catch x [$fn [e] y]]".
Proof. by vm_compute. Qed.

Example parse_operator : parse "x in y, x, 3" = shown "[[$dot x in] y x 3]".
Proof. by vm_compute. Qed.

Example parse_opset : parse "x += 1" = shown "[$opset + x 1]".
Proof. by vm_compute. Qed.

Example parse_assignments : parse "x = y = 3  x.foo = x:3 = 1" = shown "[$progn [$set x [$set y 3]] [$set [$dot x foo] [$set [$index x 3] 1]]]".
Proof. by vm_compute. Qed.

Example parse_prefixes : parse "- - x 1..y typeof x" = shown "[$progn [[$dot [[$dot x -]] -]] [[$dot 1 range-to] y] [$typeof x]]".
Proof. by vm_compute. Qed.

(** ** Where the code and its intent differ *)

(** The third operand of a junction is written into the empty list. *)
Example third_junction : parse "x and y and x" = inl NullListWritten.
Proof. by vm_compute. Qed.

(** After a long right-hand side the operator is another token. *)
Example operator_overwritten : parse "x += [y y y y y y y y y y y y y y y y y y y]" = shown "[$opset y x [y y y y y y y y y y y y y y y y y y y]]".
Proof. by vm_compute. Qed.

Example short_operand : parse "x += [y y y y y y y y]" = shown "[$opset + x [y y y y y y y y]]".
Proof. by vm_compute. Qed.

(** A stray bracket ends the program, and nothing is said. *)
Example stray_bracket : parse "x ) y" = shown "x".
Proof. by vm_compute. Qed.

(** The names of a scope go on after the end of the text. *)
Example scope_names_endless : parse "[$scope [x" = inl TooDeep.
Proof. by vm_compute. Qed.

Example till_names_endless : parse "[$till [x" = inl TooDeep.
Proof. by vm_compute. Qed.

(** A parameter with a type is refused, and the recovery reads past its array. *)
Example param_type : parse "|x:a| a" = inl OutsideArray.
Proof. by vm_compute. Qed.

(** An empty list in a quoted list is dropped. *)
Example null_item : parse "`[a [] b]" = shown "[$quote [a b]]".
Proof. by vm_compute. Qed.

(** The placeholder of a declaration is left in the branch of a condition. *)
Example declaration_in_branch : parse "var q
if x then var w" = shown "[$scope [q w] [$if x <ignorable>]]".
Proof. by vm_compute. Qed.

(** The flags of a loop are unknown to its own clauses. *)
Example till_flag_unknown : parse "[$till [a b] x [[a y]]]" = inr ("[$till [a b] x [[a y]]]"%string, 1%nat).
Proof. by vm_compute. Qed.

(** A parameter named like a constant around it is taken for the constant. *)
Example parameter_is_constant : parse "const c = 1
|c| c = 2" = inr ("[$scope [[c set-once]] [$progn [$set c 1]]]"%string, 1%nat).
Proof. by vm_compute. Qed.

(** What was parsed is the result in spite of errors. *)
Example result_with_errors : parse "if x then (" = inr ("[$if x []]"%string, 1%nat).
Proof. by vm_compute. Qed.

(** A variable named like a parameter is declared around the function. *)
Example variable_behind_parameter : parse "|q| var q = 1" = shown "[$scope [q] [$fn [q] [$progn [$set q 1]]]]".
Proof. by vm_compute. Qed.
