(* ===== verification/ParserProps.v ===== *)
(** * ParserProps: theorems on the parser as a whole *)

From Stdlib Require Import String.
From S2P Require Import Prelude FiniteMap Text StringDict StringDictProps SymbolTable Lexer LexNames LexNumbers LexStrings LexerNext.
From S2P Require Import Object Expr KnownSymbols ParseScope ScopeProps Parser ParseForms ParseLists ParseBlocks ParseExprs ParserTests ParserInvariant.

Section Props.
Context {D : Type} {Ops : MapOps Str Z D} {Real : RealParsers} {Env : ParserEnv} {CE : CompilerEnv}.

End Props.

(** ** Witnesses *)

Definition parser_at (text : string) : option (Parser (StringDictInt Z)) :=
  table ← parser_table;
  root ← ParseScope_CreateRoot;
  l ← Lexer_Create (bytes text) 0 (zlen (bytes text)) (Some []) 1 1;
  Some (mkParser (Some (Lexer_SetSymbolTable l table)) table root None [] [] []).

Definition body_of (p : Parser (StringDictInt Z)) := Parser_ParseScopeBody 30 (parsers 30) p.

(** A body parsed with one message. *)
Definition body_with_error (start : option (Parser (StringDictInt Z))) : option (Parser (StringDictInt Z) * (Expr * ParseScope * Parser (StringDictInt Z))) :=
  match start with
  | Some p =>
      match body_of p with
      | inr r => match messages r.2 with [_] => Some (p, r) | _ => None end
      | inl _ => None
      end
  | None => None
  end.

Lemma body_with_error_inv start p e scope p' : body_with_error start = Some (p, ((e, scope), p')) ->
  body_of p = inr ((e, scope), p') /\ length (messages p') = 1%nat.
Proof.
  unfold body_with_error. destruct start as [q|]; [|done]. destruct (body_of q) as [|r] eqn:E; [done|].
  destruct (messages r.2) as [|m [|]] eqn:Em; [done| |done]. intros [= -> ->]. split; [exact E|]. simpl in Em. by rewrite Em.
Qed.

Lemma body_parses : exists p e scope p', body_of p = inr ((e, scope), p') /\ length (messages p') = 1%nat.
Proof.
  pose proof (body_with_error_inv (parser_at "x = 1 then y")) as Hinv.
  assert (H : match body_with_error (parser_at "x = 1 then y") with Some _ => true | None => false end = true) by (vm_compute; reflexivity).
  destruct (body_with_error (parser_at "x = 1 then y")) as [[p [[e scope] p']]|]; [|discriminate H].
  exists p, e, scope, p'. by apply Hinv.
Qed.

