(* ===== verification/ParserFeed.v ===== *)
(** * ParserFeed: the parser on known tokens

    What the tokens ahead of the parser are, whether they are still to be lexed or
    were put back, and the rules by which its steps read them. *)

From Stdlib Require Import String.
From S2P Require Import Prelude IntMath FiniteMap Text TextProps StringBuilder IdentTable StringDict StringDictProps SymbolTable Lexer LexNames LexNumbers LexStrings LexerNext LexerScan LexerSafety LexerWords LexerRing.
From S2P Require Import Object Expr KnownSymbols ParseScope ScopeProps Parser.

(** A token to come: a name by its symbol, a number, a mark, the end of the input. *)
Inductive item := IName (symbol : Symbol) | INumber (n : Z) | IMark (k : TokenKind) | IEnd.

(** The token in the ring; whether a name is declared is found out when it is read. *)
Definition carries (it : item) (t : Token) : Prop :=
  match it with
  | IName s => kind t ∈ alpha_kinds /\ data_symbol t = s /\ s <> 0
  | INumber n => kind t = TOKEN_INTEGER64 /\ data t = DataInt64 n
  | IMark k => kind t = k /\ kinds_of_name k = None
  | IEnd => kind t = TOKEN_EOI
  end.

(** The token as the parser gets it. *)
Definition shown (scopes : list ParseScope) (it : item) (t : Token) : Prop :=
  carries it t
  /\ match it with
     | IName s => kind t = if ParseScope_IsDeclared scopes s then TOKEN_ALPHANAME else TOKEN_UNKNOWNALPHANAME
     | _ => True
     end.

(** A written word is the token; [names] are those of the symbol table. *)
Definition says (names : list Str) (w : lexeme) (it : item) : Prop :=
  match w, it with
  | Name s, IName symbol => 0 < symbol /\ zget names (symbol - 1) = Some s
  | Number n, INumber m => m = wrapS 64 n
  | Mark c, IMark k => single_token c = Some k
  | _, _ => False
  end.

Lemma single_token_kind c k : single_token c = Some k -> kinds_of_name k = None.
Proof. unfold single_token. intros H. repeat case_match; by simplify_eq. Qed.

Lemma content_carries names names' w it t : NoDup names' -> zlen names' < 2 ^ 30 ->
  (exists more, names' = names ++ more) -> says names w it -> content names' w t -> carries it t.
Proof.
  intros Hnd Hz [more ->] Hs Hc. destruct w as [s|n|c], it as [symbol|m|k|]; simpl in *; try done.
  - destruct Hs as [Hpos Hg], Hc as (Hk & _ & symbol' & Hd & Hpos' & Hg').
    apply (zget_app_Some _ more) in Hg.
    assert (symbol' = symbol) as ->.
    { apply zget_Some in Hg as [_ Hg], Hg' as [_ Hg']. pose proof (NoDup_lookup _ _ _ _ Hnd Hg Hg'). lia. }
    assert (0 <= symbol - 1 < zlen (names ++ more)) by (apply zget_is_Some; by eexists).
    rewrite Hk. split; [by apply list_elem_of_In; left|]. split; [|lia].
    unfold data_symbol. rewrite Hd. simpl. apply wrapS_id; [lia|]. unfold inS. lia.
  - destruct Hc as (Hk & _ & Hd). by subst.
  - rewrite Hs in Hc. injection Hc as Hc. rewrite Hc. split; [done|]. by eapply single_token_kind.
Qed.

Section Feed.
Context {D : Type} {Ops : MapOps Str Z D} {Laws : MapLaws Str Z D} {Real : RealParsers} {Env : ParserEnv}.
Context (zero_is_absent : NULL_value = 0) (large : 2 ^ 30 <= capacity).

#[local] Notation Lexer := (Lexer D).
#[local] Notation P := (P D).
#[local] Notation Parser := (Parser D).

Variable base : list Str.

(** ** The lexer *)

(** The lexer, with nothing put back, will read these; the end of the input is
    there as often as it is looked at. *)
Definition supplies (l : Lexer) (ws : list item) : Prop :=
  exists names sep words its n, stands l names sep words /\ ws = its ++ replicate n IEnd
    /\ Forall2 (fun w it => says base w.1 it) words its
    /\ (exists more, names = base ++ more) /\ zlen names + zlen words < 2 ^ 30 - 1.

(** A place of the ring, relative to the current token. *)
Definition nearby (l : Lexer) (d : Z) : Token := default no_token (lx_tokenBuffer l !! ring_slot (lx_tokenIndex l + d)).

(** The tokens [back] were read, the last first, and [ws] are to come, the first of
    them put back. *)
Record window (l : Lexer) (back ws : list item) : Prop := {
  wd_back : forall i it, back !! i = Some it -> carries it (nearby l (- Z.of_nat i));
  wd_ahead : forall i it, ws !! i = Some it -> Z.of_nat i < lx_ungetCount l -> carries it (nearby l (1 + Z.of_nat i));
  wd_room : zlen back + lx_ungetCount l <= 16;
  wd_unget : 0 <= lx_ungetCount l <= zlen ws;
  wd_source : supplies (set_ring (lx_tokenIndex l + lx_ungetCount l) 0 l) (drop (Z.to_nat (lx_ungetCount l)) ws)
}.

(** Only the size of the ring matters to what is to be lexed. *)
Lemma supplies_ring (l l' : Lexer) ws : supplies l ws ->
  lx_input l' = lx_input l -> lx_src l' = lx_src l -> lx_end l' = lx_end l -> lx_ungetCount l' = 0 ->
  lx_symbolTable l' = lx_symbolTable l -> length (lx_tokenBuffer l') = length (lx_tokenBuffer l) -> supplies l' ws.
Proof.
  intros (names & sep & words & its & n & [[R1 R2 R3 R4 R5 R6] Ht Hu Hsrc He Hs Hv] & H) E1 E2 E3 E4 E5 E6.
  exists names, sep, words, its, n. split; [|exact H].
  split; rewrite ?E1, ?E2, ?E3, ?E5; try done. split; rewrite ?E1, ?E3; try done; [by rewrite E6|].
  unfold symbols_ok in *. by rewrite E5.
Qed.

Lemma supplies_next (l : Lexer) it ws : supplies l (it :: ws) ->
  exists l', Lexer_Next l = Done (l', kind (Lexer_Token l')) /\ carries it (Lexer_Token l')
    /\ supplies l' ws /\ same (set_ring (lx_tokenIndex l + 1) 0 l) l' /\ is_Some (lx_symbolTable l').
Proof.
  intros (names & sep & words & its & n & Hst & Hws & Hsays & [more Hmore] & Hz).
  pose proof (safe_Next zero_is_absent large l names (st_ready _ _ _ _ Hst)) as Hsafe.
  pose proof (st_src _ _ _ _ Hst). pose proof (st_end _ _ _ _ Hst). pose proof (zlen_nonneg (behind sep ++ spelled_words words)).
  specialize (Hsafe ltac:(lia) (st_unget _ _ _ _ Hst)).
  destruct words as [|[w newline] words].
  - apply Forall2_nil_inv_l in Hsays as ->. destruct n as [|n]; [done|]. injection Hws as -> ->.
    destruct (Next_end l names sep Hst) as (l' & E & Ht & Hk & _ & Hst').
    rewrite E in Hsafe. destruct Hsafe as [Hs _]. exists l'. rewrite Hk. split; [done|]. split; [done|]. split; [|split; [done|]].
    + exists names, None, [], [], n. split; [done|]. split; [done|]. split; [done|]. split; [by exists more|done].
    + destruct (st_table _ _ _ _ Hst') as (table & -> & _). done.
  - apply Forall2_cons_inv_l in Hsays as (it' & its' & Hw & Hsays & ->). injection Hws as -> ->.
    rewrite zlen_cons in Hz. pose proof (zlen_nonneg words).
    destruct (Next_word zero_is_absent large l names sep w newline words Hst)
      as (l' & k & names' & E & Hk & Hc & (more' & -> & Hm) & _ & _ & _ & _ & _ & Hst').
    rewrite zlen_app in Hst'. specialize (Hst' ltac:(lia)).
    rewrite E in Hsafe. destruct Hsafe as (Hs & _ & _ & Hkind & _). simpl in Hkind.
    exists l'. rewrite Hkind by apply Hk. split; [done|].
    destruct (st_table _ _ _ _ Hst') as (table & Et & Hi). split; [|split; [|split; [done|by rewrite Et]]].
    + eapply content_carries; [by eapply interned_unique| |by exists (more ++ more'); rewrite app_assoc, Hmore|exact Hw|exact Hc].
      rewrite zlen_app. lia.
    + exists (names ++ more'), (Some newline), words, its', n. split; [done|]. split; [done|]. split; [done|].
      split; [by exists (more ++ more'); rewrite app_assoc, Hmore|]. rewrite zlen_app. lia.
Qed.

(** ** The window *)

Lemma supplies_ring_size (l : Lexer) ws : supplies l ws -> length (lx_tokenBuffer l) = 16%nat.
Proof. intros (names & sep & words & its & n & Hst & _). apply (rd_ring _ _ (st_ready _ _ _ _ Hst)). Qed.

Lemma window_ring (l : Lexer) back ws : window l back ws -> length (lx_tokenBuffer l) = 16%nat.
Proof. intros [_ _ _ _ H]. apply supplies_ring_size in H. exact H. Qed.

Lemma nearby_Token (l : Lexer) : nearby l 0 = Lexer_Token l.
Proof. unfold nearby, Lexer_Token. by rewrite Z.add_0_r. Qed.

Lemma nearby_ring (l : Lexer) i u d : nearby (set_ring (lx_tokenIndex l + i) u l) d = nearby l (i + d).
Proof. unfold nearby. simpl. do 2 f_equal. by rewrite Z.add_assoc. Qed.

Lemma zlen_take_most {A} (n : nat) (l : list A) : zlen (take n l) <= Z.of_nat n.
Proof. unfold zlen. rewrite length_take. lia. Qed.

Lemma zlen_take_le {A} (n : nat) (l : list A) : zlen (take n l) <= zlen l.
Proof. unfold zlen. rewrite length_take. lia. Qed.

Lemma window_take (l : Lexer) n back ws : window l back ws -> window l (take n back) ws.
Proof.
  intros [H1 H2 H3 H4 H5]. split; try done.
  - intros i it [Hi _]%lookup_take_Some. by apply H1.
  - pose proof (zlen_take_le n back). lia.
Qed.

(** A token is read: one that was put back, or from the text. *)
Lemma window_next (l : Lexer) back it ws : window l back (it :: ws) ->
  exists l', Lexer_Next l = Done (l', kind (Lexer_Token l')) /\ carries it (Lexer_Token l')
    /\ window l' (it :: take 2 back) ws /\ (is_Some (lx_symbolTable l) -> is_Some (lx_symbolTable l')).
Proof.
  intros Hw. pose proof (window_ring _ _ _ Hw) as Hring. apply (window_take l 2) in Hw. set (hist := take 2 back) in *.
  assert (Hh : zlen hist <= 2) by apply zlen_take_most. clearbody hist. destruct Hw as [H1 H2 H3 H4 H5].
  rewrite zlen_cons in H4. unfold Lexer_Next. rewrite Z.gtb_ltb. destruct (Z.ltb_spec 0 (lx_ungetCount l)) as [Hu|Hu].
  - exists (set_ring (lx_tokenIndex l + 1) (lx_ungetCount l - 1) l). split; [done|].
    rewrite <- nearby_Token, nearby_ring, Z.add_0_r. split; [by apply (H2 O)|]. split; [|done]. split; simpl.
    + intros [|i] it' Hi; simpl in Hi.
      * injection Hi as <-. rewrite nearby_ring. by apply (H2 O).
      * rewrite nearby_ring. replace (1 + - Z.of_nat (S i)) with (- Z.of_nat i) by lia. by apply H1.
    + intros i it' Hi Hlt. rewrite nearby_ring. replace (1 + (1 + Z.of_nat i)) with (1 + Z.of_nat (S i)) by lia.
      apply H2; [done|lia].
    + rewrite zlen_cons. lia.
    + lia.
    + replace (lx_tokenIndex l + 1 + (lx_ungetCount l - 1)) with (lx_tokenIndex l + lx_ungetCount l) by lia.
      by replace (Z.to_nat (lx_ungetCount l)) with (S (Z.to_nat (lx_ungetCount l - 1))) in H5 by lia.
  - assert (Hu0 : lx_ungetCount l = 0) by lia. rewrite Hu0 in *. rewrite Z.add_0_r in H5. simpl in H5.
    destruct (supplies_next _ _ _ H5) as (l' & E & Hc & Hs & [S1 S2 S3 S4 S5 S6] & Ht). simpl in *.
    exists l'. split; [exact E|]. split; [done|]. split; [|done]. unfold Lexer_Next in E. simpl in E. split.
    + intros [|i] it' Hi; simpl in Hi.
      * injection Hi as <-. by rewrite nearby_Token.
      * specialize (H1 i it' Hi). unfold nearby in *. rewrite S4, S6.
        -- by replace (lx_tokenIndex l + 1 + - Z.of_nat (S i)) with (lx_tokenIndex l + - Z.of_nat i) by lia.
        -- apply lookup_lt_Some in Hi. unfold zlen in *. apply not_eq_sym, ring_slot_ne. lia.
    + intros i it' _ Hlt. lia.
    + rewrite zlen_cons. lia.
    + pose proof (zlen_nonneg ws). lia.
    + rewrite S5. eapply supplies_ring; [exact Hs|done..].
Qed.

Lemma window_unget (l : Lexer) it back ws : window l (it :: back) ws -> window (Lexer_Unget l) back (it :: ws).
Proof.
  intros [H1 H2 H3 H4 H5]. rewrite zlen_cons in H3. unfold Lexer_Unget. split; simpl; rewrite ?zlen_cons; try lia.
  - intros i it' Hi. unfold Z.sub. rewrite nearby_ring. replace (- (1) + - Z.of_nat i) with (- Z.of_nat (S i)) by lia. by apply H1.
  - intros [|i] it' Hi Hlt; simpl in Hi; unfold Z.sub; rewrite nearby_ring.
    + injection Hi as <-. by apply (H1 O).
    + replace (- (1) + (1 + Z.of_nat (S i))) with (1 + Z.of_nat i) by lia. apply H2; [done|lia].
  - replace (lx_tokenIndex l - 1 + (lx_ungetCount l + 1)) with (lx_tokenIndex l + lx_ungetCount l) by lia.
    by replace (Z.to_nat (lx_ungetCount l + 1)) with (S (Z.to_nat (lx_ungetCount l))) by lia.
Qed.

(** The current token is changed to another that stands for the same. *)
Lemma window_change (l : Lexer) it back ws f : window l (it :: back) ws ->
  carries it (f (Lexer_Token l)) -> window (on_token f l) (it :: back) ws.
Proof.
  intros Hw Hf. pose proof (window_ring _ _ _ Hw) as Hring. destruct Hw as [H1 H2 H3 H4 H5]. rewrite zlen_cons in H3.
  pose proof (zlen_nonneg back).
  assert (Hother : forall d, d <> 0 -> -16 < d < 16 -> nearby (on_token f l) d = nearby l d).
  { intros d Hd Hr. unfold nearby. simpl. rewrite list_lookup_alter_ne; [done|].
    destruct (decide (0 < d)); [apply not_eq_sym, ring_slot_ne; lia|apply ring_slot_ne; lia]. }
  split; simpl; rewrite ?zlen_cons; try done.
  - intros [|i] it' Hi; simpl in Hi.
    + injection Hi as <-. rewrite nearby_Token. by rewrite Token_on_token.
    + rewrite Hother; [by apply (H1 (S i))|lia|]. apply lookup_lt_Some in Hi. unfold zlen in *. lia.
  - intros i it' Hi Hlt. rewrite Hother by lia. by apply H2.
  - eapply supplies_ring; [exact H5|done..|]. simpl. by rewrite length_alter.
Qed.

(** ** The parser *)

(** The parser [p0], but for its lexer and the symbol table, with these tokens behind
    and ahead. *)
Definition on (p0 : Parser) (back ws : list item) (p : Parser) : Prop :=
  exists l table, p = set_tables (Some l) table p0 /\ lx_symbolTable l = Some table /\ window l back ws.

(** The computation returns, and the result, the parser and the tokens are as [Q] says. *)
Definition does {A} (p0 : Parser) (back ws : list item) (m : P A)
    (Q : A -> Parser -> list item -> list item -> Prop) : Prop :=
  forall p, on p0 back ws p ->
  exists x p', m p = inr (x, p') /\ exists p1 back' ws', on p1 back' ws' p' /\ Q x p1 back' ws'.

Lemma does_mono {A} p0 back ws (m : P A) (Q Q' : A -> Parser -> list item -> list item -> Prop) :
  does p0 back ws m Q -> (forall x p1 back' ws', Q x p1 back' ws' -> Q' x p1 back' ws') -> does p0 back ws m Q'.
Proof. intros H HQ p Hp. destruct (H p Hp) as (x & p' & E & p1 & back' & ws' & H1 & H2). eauto 10. Qed.

Lemma does_ret {A} p0 back ws (x : A) (Q : A -> Parser -> list item -> list item -> Prop) :
  Q x p0 back ws -> does p0 back ws (mret x) Q.
Proof. intros HQ p Hp. exists x, p. split; [done|]. eauto 10. Qed.

Lemma does_bind {A B} p0 back ws (m : P A) (f : A -> P B) (Q : B -> Parser -> list item -> list item -> Prop) :
  does p0 back ws m (fun x p1 back' ws' => does p1 back' ws' (f x) Q) -> does p0 back ws (m ≫= f) Q.
Proof.
  intros H p Hp. destruct (H p Hp) as (x & p' & E & p1 & back' & ws' & H1 & H2).
  destruct (H2 p' H1) as (y & p'' & E' & H3). exists y, p''. split; [|exact H3].
  unfold mbind, P_bind. by rewrite E.
Qed.

Lemma does_ask {A} p0 back ws (f : Parser -> A) (Q : A -> Parser -> list item -> list item -> Prop) :
  (forall l table, f (set_tables l table p0) = f p0) -> Q (f p0) p0 back ws -> does p0 back ws (ask f) Q.
Proof. intros Hf HQ p (l & table & -> & H1 & H2). unfold ask. rewrite Hf. do 2 eexists. split; [reflexivity|]. exists p0, back, ws. split; [by exists l, table|done]. Qed.

Lemma does_modify p0 p1 back ws (f : Parser -> Parser) (Q : unit -> Parser -> list item -> list item -> Prop) :
  (forall l table, f (set_tables l table p0) = set_tables l table p1) -> Q tt p1 back ws -> does p0 back ws (modify f) Q.
Proof. intros Hf HQ p (l & table & -> & H1 & H2). unfold modify. rewrite Hf. do 2 eexists. split; [reflexivity|]. exists p1, back, ws. split; [by exists l, table|done]. Qed.

Lemma does_demand {A} p0 back ws why (o : option A) x (Q : A -> Parser -> list item -> list item -> Prop) :
  o = Some x -> Q x p0 back ws -> does p0 back ws (demand why o) Q.
Proof. intros ->. apply does_ret. Qed.

(** Reading a token, in any of the ways there are. *)
Lemma lexer_next_reads p0 back it ws p : on p0 back (it :: ws) p ->
  exists l table, lexer_next p = inr (kind (Lexer_Token l), set_tables (Some l) table p0)
    /\ carries it (Lexer_Token l) /\ lx_symbolTable l = Some table /\ window l (it :: take 2 back) ws.
Proof.
  intros (l & table & -> & H1 & H2). destruct (window_next _ _ _ _ H2) as (l' & E & Hc & Hw & Ht).
  destruct (Ht ltac:(by eexists)) as [table' Et]. exists l', table'. split; [|done].
  unfold lexer_next, with_lexer, get_lexer, ask, demand, mbind, P_bind, mret, P_ret. simpl. rewrite H1.
  replace (set_symbols (Some table) l) with l by (destruct l; simpl in *; by subst). rewrite E. unfold modify. by rewrite Et.
Qed.

(** The next token, by its kind. *)
Lemma does_lexer_next p0 back it ws (Q : TokenKind -> Parser -> list item -> list item -> Prop) :
  (forall t, carries it t -> Q (kind t) p0 (it :: take 2 back) ws) -> does p0 back (it :: ws) lexer_next Q.
Proof.
  intros HQ p Hp. destruct (lexer_next_reads _ _ _ _ _ Hp) as (l & table & -> & Hc & Ht & Hw).
  do 2 eexists. split; [reflexivity|]. exists p0, (it :: take 2 back), ws. split; [by exists l, table|by apply HQ].
Qed.

(** A look at it. *)
Lemma does_lexer_peek p0 back it ws (Q : TokenKind -> Parser -> list item -> list item -> Prop) :
  (forall t, carries it t -> Q (kind t) p0 (take 2 back) (it :: ws)) -> does p0 back (it :: ws) lexer_peek Q.
Proof.
  intros HQ p (l & table & -> & H1 & H2). destruct (window_next _ _ _ _ H2) as (l' & E & Hc & Hw & Ht).
  destruct (Ht ltac:(by eexists)) as [table' Et].
  exists (kind (Lexer_Token l')), (set_tables (Some (Lexer_Unget l')) table' p0). split.
  - unfold lexer_peek, Lexer_Peek, with_lexer, get_lexer, ask, demand, mbind, P_bind, mret, P_ret. simpl. rewrite H1.
    replace (set_symbols (Some table) l) with l by (destruct l; simpl in *; by subst). rewrite E. cbn [mbind Outcome_bind].
    unfold modify, Lexer_Unget. cbn [set_ring lx_symbolTable]. by rewrite Et.
  - exists p0, (take 2 back), (it :: ws). split; [|by apply HQ]. exists (Lexer_Unget l'), table'. split; [done|]. split; [done|].
    by apply window_unget.
Qed.

Lemma does_unget p0 it back ws (Q : unit -> Parser -> list item -> list item -> Prop) :
  Q tt p0 back (it :: ws) -> does p0 (it :: back) ws unget Q.
Proof.
  intros HQ p (l & table & -> & H1 & H2). eexists tt, (set_tables (Some (Lexer_Unget l)) table p0). split; [done|].
  exists p0, back, (it :: ws). split; [|done]. exists (Lexer_Unget l), table. split; [done|]. split; [done|].
  by apply window_unget.
Qed.

(** The current token is some token. *)
Lemma does_the_token p0 back ws (Q : Token -> Parser -> list item -> list item -> Prop) :
  (forall t, Q t p0 back ws) -> does p0 back ws the_token Q.
Proof.
  intros HQ p (l & table & -> & H1 & H2). exists (Lexer_Token l), (set_tables (Some l) table p0). split; [done|].
  exists p0, back, ws. split; [by exists l, table|done].
Qed.

Lemma does_token_pointer p0 back ws (Q : nat -> Parser -> list item -> list item -> Prop) :
  (forall n, Q n p0 back ws) -> does p0 back ws token_pointer Q.
Proof.
  intros HQ p (l & table & -> & H1 & H2). eexists _, (set_tables (Some l) table p0). split; [reflexivity|].
  exists p0, back, ws. split; [by exists l, table|done].
Qed.

Lemma does_lexer_position p0 back ws (Q : LexerPosition -> Parser -> list item -> list item -> Prop) :
  (forall n, Q n p0 back ws) -> does p0 back ws lexer_position Q.
Proof.
  intros HQ p (l & table & -> & H1 & H2). eexists _, (set_tables (Some l) table p0). split; [reflexivity|].
  exists p0, back, ws. split; [by exists l, table|done].
Qed.

(** The token of a name gets the kind of a name that is declared, or of one that is not. *)
Lemma name_of_token scopes s t known unknown : carries (IName s) t -> kinds_of_name (kind t) = Some (known, unknown) ->
  shown scopes (IName s) (set_kind (if ParseScope_IsDeclared scopes s then known else unknown) t).
Proof.
  intros (Hk & Hd & Hs) Hn. assert (Hkn : known = TOKEN_ALPHANAME /\ unknown = TOKEN_UNKNOWNALPHANAME).
  { unfold alpha_kinds in Hk. rewrite !list.elem_of_cons in Hk. destruct Hk as [Hk|[Hk|Hk]]; [..|by apply elem_of_nil in Hk];
      rewrite Hk in Hn; by injection Hn as <- <-. }
  destruct Hkn as [-> ->]. split; [|by destruct (ParseScope_IsDeclared scopes s)]. split_and!; [|done..].
  simpl. unfold alpha_kinds. rewrite !list.elem_of_cons. destruct (ParseScope_IsDeclared scopes s); auto.
Qed.

Lemma not_a_name it t : carries it t -> kinds_of_name (kind t) = None -> forall scopes, shown scopes it t.
Proof.
  intros Hc Hn scopes. split; [done|]. destruct it; try done. destruct Hc as (Hk & _).
  unfold alpha_kinds in Hk. rewrite !list.elem_of_cons in Hk. destruct Hk as [Hk|[Hk|Hk]]; [..|by apply elem_of_nil in Hk];
    by rewrite Hk in Hn.
Qed.

Lemma a_name it t : carries it t -> is_Some (kinds_of_name (kind t)) -> exists s, it = IName s.
Proof.
  intros Hc [? Hn]. destruct it as [s|n|k|]; [by exists s|..]; simpl in Hc.
  - destruct Hc as [Hc _]. by rewrite Hc in Hn.
  - destruct Hc as [<- Hk]. by rewrite Hk in Hn.
  - by rewrite Hc in Hn.
Qed.

Lemma name_symbol_known (l : Lexer) table p0 s : data_symbol (Lexer_Token l) = s -> s <> 0 ->
  name_symbol (set_tables (Some l) table p0) = inr (s, set_tables (Some l) table p0).
Proof.
  intros E Hs. unfold name_symbol, the_token, get_lexer, ask, demand, mbind, P_bind, mret, P_ret. simpl. rewrite E.
  by destruct (Z.eqb_spec s 0).
Qed.

Lemma does_NextToken p0 back it ws (Q : Token -> Parser -> list item -> list item -> Prop) :
  (forall t, shown (currentScope p0) it t -> Q t p0 (it :: take 2 back) ws) -> does p0 back (it :: ws) Parser_NextToken Q.
Proof.
  intros HQ p Hp. destruct (lexer_next_reads _ _ _ _ _ Hp) as (l & table & E & Hc & Ht & Hw).
  unfold Parser_NextToken. unfold mbind at 1, P_bind at 1. rewrite E.
  destruct (kinds_of_name (kind (Lexer_Token l))) as [[known unknown]|] eqn:Ek.
  - destruct (a_name _ _ Hc ltac:(by eexists)) as [s ->].
    pose proof (name_of_token (currentScope p0) s _ _ _ Hc Ek) as Hsh. set (f := set_kind _) in Hsh.
    destruct Hc as (Hkind & Hdata & Hs0). unfold mbind, P_bind. rewrite (name_symbol_known l table p0 s) by done.
    exists (f (Lexer_Token l)), (set_tables (Some (on_token f l)) table p0).
    split; [rewrite <- (Token_on_token f l) by (by eapply window_ring); done|].
    exists p0, (IName s :: take 2 back), ws. split; [|by apply HQ]. exists (on_token f l), table. split; [done|]. split; [done|].
    by apply window_change; [|apply Hsh].
  - exists (Lexer_Token l), (set_tables (Some l) table p0). split; [done|].
    exists p0, (it :: take 2 back), ws. split; [by exists l, table|]. apply HQ. by apply not_a_name.
Qed.

Lemma does_NextTokenWithDeclaration p0 back it ws (Q : Token * option ParseDecl -> Parser -> list item -> list item -> Prop) :
  Forall scope_wf (currentScope p0) ->
  (forall t decl, shown (currentScope p0) it t ->
     match it with IName s => ParseScope_FindDeclaration (currentScope p0) s = Some decl | _ => True end ->
     Q (t, decl) p0 (it :: take 2 back) ws) ->
  does p0 back (it :: ws) Parser_NextTokenWithDeclaration Q.
Proof.
  intros Hwf HQ p Hp. destruct (lexer_next_reads _ _ _ _ _ Hp) as (l & table & E & Hc & Ht & Hw).
  unfold Parser_NextTokenWithDeclaration. unfold mbind at 1, P_bind at 1. rewrite E.
  destruct (kinds_of_name (kind (Lexer_Token l))) as [[known unknown]|] eqn:Ek.
  - destruct (a_name _ _ Hc ltac:(by eexists)) as [s ->].
    pose proof (name_of_token (currentScope p0) s _ _ _ Hc Ek) as Hsh.
    destruct Hc as (Hkind & Hdata & Hs0). destruct (Find_safe (currentScope p0) s Hwf) as (decl & Hf & _ & Hdecl).
    assert (Hknown : (match decl with Some _ => known | None => unknown end)
      = if ParseScope_IsDeclared (currentScope p0) s then known else unknown).
    { destruct decl as [d|]; [by rewrite (proj1 Hdecl ltac:(by eexists))|].
      destruct (ParseScope_IsDeclared (currentScope p0) s); [|done]. by destruct (proj2 Hdecl eq_refl). }
    set (f := set_kind _) in Hsh. unfold mbind, P_bind. rewrite (name_symbol_known l table p0 s) by done.
    exists (f (Lexer_Token l), decl), (set_tables (Some (on_token f l)) table p0).
    split.
    { rewrite <- (Token_on_token f l) by (by eapply window_ring). unfold ask, demand. cbn [currentScope set_tables]. rewrite Hf.
      unfold f. rewrite <- Hknown. done. }
    exists p0, (IName s :: take 2 back), ws. split; [|by apply HQ]. exists (on_token f l), table. split; [done|]. split; [done|].
    by apply window_change; [|apply Hsh].
  - exists (Lexer_Token l, None), (set_tables (Some l) table p0). split; [done|].
    exists p0, (it :: take 2 back), ws. split; [by exists l, table|]. apply HQ; [by apply not_a_name|].
    destruct it as [s|n|k|]; try done. destruct (not_a_name _ _ Hc Ek []) as [_ Hbad]. simpl in Hbad. by rewrite Hbad in Ek.
Qed.
End Feed.
