(* ===== verification/ParserLevels.v ===== *)
(** * ParserLevels: terms between the levels of operators

    The levels of the grammar, from the pairs to the statements, pass a term on
    when neither it nor what follows it starts with an operator of theirs. *)

From Stdlib Require Import String.
From S2P Require Import Prelude IntMath FiniteMap Text TextProps StringBuilder IdentTable StringDict StringDictProps SymbolTable Lexer LexNames LexNumbers LexStrings LexerNext LexerScan LexerSafety LexerWords LexerRing.
From S2P Require Import Object Expr KnownSymbols ParseScope ScopeProps Parser ParseForms ParseLists ParseBlocks ParseExprs ParserFeed.

(** ** Tokens that are no operators *)

(** The names that some level takes for an operator, or a statement for its keyword. *)
Definition reserved : list Symbol :=
  [SYMBOL_VAR; SYMBOL_CONST; SYMBOL_AUTO; SYMBOL_KEYWORD; SYMBOL_IF; SYMBOL_UNLESS; SYMBOL_DO; SYMBOL_WHILE; SYMBOL_UNTIL;
   SYMBOL_RETURN; SYMBOL_TILL; SYMBOL_TRY; SYMBOL_NOT; SYMBOL_OR; SYMBOL_AND; SYMBOL_NEW; SYMBOL_IS; SYMBOL_TYPEOF;
   SYMBOL_SUPEREQ; SYMBOL_SUPERNE; SYMBOL_EQ; SYMBOL_NE; SYMBOL_LT; SYMBOL_GT; SYMBOL_LE; SYMBOL_GE].

Definition plain (symbol : Symbol) : bool := negb (bool_decide (symbol ∈ reserved)).

Definition calm_kinds : list TokenKind := [TOKEN_ALPHANAME; TOKEN_INTEGER64; TOKEN_LEFTBRACKET; TOKEN_RIGHTBRACKET; TOKEN_EOI].

(** A token to come that no level takes for an operator. *)
Definition calm (scopes : list ParseScope) (it : item) : Prop :=
  match it with
  | IName s => ParseScope_IsDeclared scopes s = true /\ plain s = true
  | INumber _ | IEnd => True
  | IMark k => k = TOKEN_LEFTBRACKET \/ k = TOKEN_RIGHTBRACKET
  end.

(** ... and as a token. *)
Definition quiet (t : Token) : Prop := kind t ∈ calm_kinds /\ (kind t = TOKEN_ALPHANAME -> plain (data_symbol t) = true).

Lemma calm_quiet scopes it t : calm scopes it -> shown scopes it t -> quiet t.
Proof.
  assert (Hin : forall k, bool_decide (k ∈ calm_kinds) = true -> kind t = k -> kind t ∈ calm_kinds)
    by (intros k Hk ->; by apply (bool_decide_eq_true_1 _ Hk)).
  intros Hc [Ht Hk]. destruct it as [s|n|k|]; simpl in *.
  - destruct Hc as [Hd Hp], Ht as (_ & Hs & _). rewrite Hd in Hk. split; [by eapply Hin, Hk|]. by rewrite Hs.
  - destruct Ht as [Ht _]. split; [by eapply Hin, Ht|]. by rewrite Ht.
  - destruct Ht as [Ht _]. destruct Hc as [-> | ->]; (split; [by eapply Hin, Ht|by rewrite Ht]).
  - split; [by eapply Hin, Ht|]. by rewrite Ht.
Qed.

Lemma quiet_kind t ks : quiet t -> forallb (fun k => negb (bool_decide (k ∈ calm_kinds))) ks = true -> is_kind t ks = false.
Proof.
  intros [Hk _] H. unfold is_kind. apply bool_decide_eq_false_2. intros Hin.
  rewrite forallb_forall in H. specialize (H (kind t) ltac:(by apply list_elem_of_In)).
  apply negb_true_iff, bool_decide_eq_false_1 in H. done.
Qed.

Lemma quiet_names t ks : quiet t -> forallb (fun k => bool_decide (k = TOKEN_ALPHANAME) || negb (bool_decide (k ∈ calm_kinds))) ks = true ->
  is_kind t ks = true -> plain (data_symbol t) = true.
Proof.
  intros [Hk Hp] H Hin%bool_decide_eq_true_1. rewrite forallb_forall in H.
  specialize (H (kind t) ltac:(by apply list_elem_of_In)). apply orb_prop in H as [H|H].
  - by apply Hp, (bool_decide_eq_true_1 _ H).
  - apply negb_true_iff, bool_decide_eq_false_1 in H. done.
Qed.

Lemma quiet_symbol t ks (found : Symbol -> bool) : quiet t ->
  forallb (fun k => bool_decide (k = TOKEN_ALPHANAME) || negb (bool_decide (k ∈ calm_kinds))) ks = true ->
  (forall s, found s = true -> plain s = false) -> is_kind t ks && found (data_symbol t) = false.
Proof.
  intros Hq Hks Hf. destruct (is_kind t ks) eqn:E; [|done]. pose proof (quiet_names t ks Hq Hks E) as Hp.
  destruct (found (data_symbol t)) eqn:E'; [|done]. apply Hf in E'. congruence.
Qed.

Lemma reserved_not_plain s : s ∈ reserved -> plain s = false.
Proof. intros H. unfold plain. by rewrite bool_decide_eq_true_2. Qed.

Lemma word_quiet t s : quiet t -> bool_decide (s ∈ reserved) = true -> is_word t s = false.
Proof.
  intros Hq Hs%bool_decide_eq_true_1. apply (quiet_symbol t alpha_kinds (fun x => x =? s)); [done|by vm_compute|].
  intros x ->%Z.eqb_eq. by apply reserved_not_plain.
Qed.

Lemma typeof_quiet t : quiet t -> is_typeof t = false.
Proof.
  intros Hq. apply (quiet_symbol t [TOKEN_ALPHANAME] (fun x => x =? SYMBOL_TYPEOF)); [done|by vm_compute|].
  intros x ->%Z.eqb_eq. by vm_compute.
Qed.

Lemma comparison_quiet t : quiet t -> is_comparison t = false.
Proof.
  intros Hq. pose (found := fun x : Symbol => bool_decide (is_Some (Parser_GetSymbolObjectForCmpOperator x))).
  apply (quiet_symbol t name_kinds found); [done|by vm_compute|]. unfold found.
  intros x [s Hx]%bool_decide_eq_true_1. unfold Parser_GetSymbolObjectForCmpOperator in Hx.
  repeat case_match; try done; match goal with H : (x =? _) = true |- _ => apply Z.eqb_eq in H as -> end; by vm_compute.
Qed.

Lemma punct_quiet t symbols : quiet t -> is_punct_of symbols t = false.
Proof. intros Hq. unfold is_punct_of. rewrite quiet_kind by (done || by vm_compute). done. Qed.

Lemma prefix_quiet t : quiet t -> is_kind t [TOKEN_UNKNOWNALPHANAME; TOKEN_UNKNOWNPUNCTNAME] = false.
Proof. intros Hq. by apply quiet_kind; [|vm_compute]. Qed.

(** ** Levels *)

Section Levels.
Context {D : Type} {Ops : MapOps Str Z D} {Laws : MapLaws Str Z D} {Real : RealParsers} {Env : ParserEnv} {CE : CompilerEnv}.
Context (zero_is_absent : NULL_value = 0) (large : 2 ^ 30 <= capacity).
Variable base : list Str.
#[local] Notation P := (P D).
#[local] Notation Parser := (Parser D).
#[local] Notation does := (does base).

(** This result, with everything as it was but for the tokens. *)
Definition gives {A} (r : A) (p0 : Parser) (ws : list item) : A -> Parser -> list item -> list item -> Prop :=
  fun r' p1 _ ws' => r' = r /\ p1 = p0 /\ ws' = ws.

Definition no_rules (p0 : Parser) : Prop := exists s scopes, currentScope p0 = s :: scopes /\ syntaxTable s = [].

Lemma does_rules p0 back ws c (Q : unit -> Parser -> list item -> list item -> Prop) :
  no_rules p0 -> Q tt p0 back ws -> does p0 back ws (Parser_ApplyCustomSyntax c) Q.
Proof.
  intros (s & scopes & Es & Ht) HQ. unfold Parser_ApplyCustomSyntax, GetSyntaxClass.
  repeat apply does_bind. apply does_ask; [done|]. rewrite Es. apply does_ret. rewrite Ht, bool_decide_eq_false_2 by (by intros ?%elem_of_nil).
  by apply does_ret.
Qed.
End Levels.

(** The steps of a computation on known tokens. *)
Ltac dstep :=
  match goal with
  | |- does _ _ _ _ (mbind _ _) _ => apply does_bind
  | |- does _ _ _ _ (mret _) _ => apply does_ret
  | |- does _ _ _ (_ :: _) Parser_NextToken _ => apply does_NextToken; [done|done|]; let t := fresh "t" in let H := fresh "Ht" in intros t H
  | |- does _ _ _ (_ :: _) lexer_next _ => apply does_lexer_next; [done|done|]; let t := fresh "t" in let H := fresh "Ht" in intros t H
  | |- does _ _ _ (_ :: _) lexer_peek _ => apply does_lexer_peek; [done|done|]; let t := fresh "t" in let H := fresh "Ht" in intros t H
  | |- does _ _ (_ :: _) _ unget _ => apply does_unget
  | |- does _ _ (take 2 (_ :: _)) _ unget _ => cbn [firstn]; apply does_unget
  | |- does _ _ _ _ the_token _ => apply does_the_token; let t := fresh "here" in intros t
  | |- does _ _ _ _ token_pointer _ => apply does_token_pointer; let t := fresh "pointer" in intros t
  | |- does _ _ _ _ lexer_position _ => apply does_lexer_position; let t := fresh "place" in intros t
  | |- does _ _ _ _ (Parser_ApplyCustomSyntax _) _ => apply does_rules; [done|]
  | |- does _ _ _ _ (if _ then _ else _) _ => progress cbn [andb orb negb]
  end.

Section Operators.
Context {D : Type} {Ops : MapOps Str Z D} {Laws : MapLaws Str Z D} {Real : RealParsers} {Env : ParserEnv} {CE : CompilerEnv}.
Context (zero_is_absent : NULL_value = 0) (large : 2 ^ 30 <= capacity).
Variables (base : list Str) (n : nat) (K : Recur D).
#[local] Notation P := (P D).
#[local] Notation Parser := (Parser D).
#[local] Notation does := (does base).

(** An expression with the property [T], and then these tokens. *)
Definition yields (T : Expr -> Prop) (p0 : Parser) (ws : list item) : Parsed -> Parser -> list item -> list item -> Prop :=
  fun r p1 _ ws' => exists e, r = inr e /\ T e /\ p1 = p0 /\ ws' = ws.

Lemma yields_bind {T p0 back ws ws'} (m : P Parsed) (next : Expr -> P Parsed) :
  does p0 back ws m (yields T p0 ws') ->
  (forall e back', T e -> does p0 back' ws' (next e) (gives (inr e) p0 ws')) ->
  does p0 back ws (let+ e := m in next e) (yields T p0 ws').
Proof.
  intros Hm Hn. apply does_bind. eapply does_mono; [exact Hm|]. intros r p1 back' ws1 (e & -> & He & -> & ->).
  eapply does_mono; [by apply Hn|]. intros r' p2 back2 ws2 (-> & -> & ->). by exists e.
Qed.

Section Follow.
Variables (p0 : Parser) (f1 f2 : item) (rest : list item) (Hf : calm (currentScope p0) f1) (Hrules : no_rules p0).
#[local] Notation after := (f1 :: f2 :: rest).

(** The loops of the levels end at such a token. *)
Ltac quiet_token :=
  match goal with
  | H : shown (currentScope p0) f1 ?t |- _ => pose proof (calm_quiet _ _ _ Hf H)
  end.

Lemma dots_end back e : does p0 back after (dots (S n) e) (gives (inr e) p0 after).
Proof. cbn [dots]. do 2 dstep. quiet_token. rewrite quiet_kind by (done || by vm_compute). by repeat dstep. Qed.

Lemma colons_end back m e : does p0 back after (colons (S n) K (S n) m e) (gives (inr e) p0 after).
Proof. cbn [colons]. do 2 dstep. quiet_token. rewrite quiet_kind by (done || by vm_compute). by repeat dstep. Qed.

Lemma opequals_end back : does p0 back after opequals_ahead (gives false p0 after).
Proof.
  unfold opequals_ahead, Parser_Has2Lookahead. repeat dstep. quiet_token. split; [|done].
  rewrite bool_decide_eq_false_2; [done|]. intros E. destruct H as [H _]. rewrite E in H. by apply (bool_decide_eq_false_1 (TOKEN_UNKNOWNPUNCTNAME ∈ calm_kinds)).
Qed.

Lemma binaries_end back m e : does p0 back after (binaries (S n) K (S n) m e) (gives (inr e) p0 after).
Proof.
  cbn [binaries]. apply does_bind. eapply does_mono; [apply opequals_end|]. intros ? ? back' ? (-> & -> & ->).
  do 4 dstep. quiet_token. unfold is_binary_operator. dstep. rewrite prefix_quiet by done. by repeat dstep.
Qed.

Lemma operators_end back c is_operator operand build m e : (forall t, quiet t -> is_operator t = false) ->
  does p0 back after (operators (S n) c is_operator operand build m e) (gives (inr e) p0 after).
Proof.
  intros Hop. cbn [operators]. apply does_bind. eapply does_mono; [apply opequals_end|]. intros ? ? back' ? (-> & -> & ->).
  do 4 dstep. quiet_token. rewrite Hop by done. by repeat dstep.
Qed.

Lemma junctions_end back word form operand m b e : bool_decide (word ∈ reserved) = true ->
  does p0 back after (junctions (S n) word form operand m b e) (gives (inr e) p0 after).
Proof. intros Hw. cbn [junctions]. do 2 dstep. quiet_token. rewrite word_quiet by done. by repeat dstep. Qed.

Lemma nots_end back : does p0 back after (nots (S n) []) (gives [] p0 after).
Proof. cbn [nots]. do 2 dstep. quiet_token. rewrite word_quiet by (done || by vm_compute). by repeat dstep. Qed.
End Follow.

(** ** From a term to a statement *)

Section Pass.
Variables (p0 : Parser) (i j f1 f2 : item) (ws rest : list item) (T : Expr -> Prop) (m : Z).
#[local] Notation start := (i :: j :: ws).
#[local] Notation after := (f1 :: f2 :: rest).
Hypotheses (Hi : calm (currentScope p0) i) (Hf : calm (currentScope p0) f1) (Hrules : no_rules p0).

(** What can be said of a term's level. *)
#[local] Notation passes parse := (forall back, does p0 back start parse (yields T p0 after)).

Hypothesis term : passes (Parser_ParseTerm (S n) K m None).

Ltac quiet_start :=
  match goal with
  | H : shown (currentScope p0) i ?t |- _ => pose proof (calm_quiet _ _ _ Hi H)
  | H : shown (currentScope p0) f1 ?t |- _ => pose proof (calm_quiet _ _ _ Hf H)
  end.

Lemma pass_Dot : passes (Parser_ParseDotExpr (S n) K m None).
Proof. intros back. unfold Parser_ParseDotExpr. apply yields_bind; [apply term|]. intros e back' _. by apply dots_end. Qed.

Lemma pass_Cons : passes (Parser_ParseConsExpr (S n) K m None).
Proof.
  intros back. unfold Parser_ParseConsExpr. apply yields_bind; [apply pass_Dot|]. intros e back' _.
  do 2 dstep. rewrite bool_decide_eq_false_2.
  - by repeat dstep.
  - intros E. destruct f1 as [s|x|k|]; simpl in Ht, Hf.
    + destruct Ht as [Hk _]. rewrite E in Hk. by apply (bool_decide_eq_false_1 (TOKEN_DOUBLEHASH ∈ alpha_kinds)).
    + destruct Ht. congruence.
    + destruct Ht, Hf; congruence.
    + congruence.
Qed.

Lemma pass_Postfix : passes (Parser_ParsePostfixExpr (S n) K m None).
Proof. intros back. unfold Parser_ParsePostfixExpr. do 2 dstep. apply pass_Cons. Qed.

Lemma pass_New : passes (Parser_ParseNewExpr (S n) K m None).
Proof.
  intros back. unfold Parser_ParseNewExpr. do 2 dstep. quiet_start.
  rewrite quiet_kind, word_quiet by (done || by vm_compute). cbn [negb]. do 2 dstep. apply pass_Postfix.
Qed.

Lemma pass_Prefix : passes (Parser_ParsePrefixExpr (S n) K m).
Proof.
  intros back. unfold Parser_ParsePrefixExpr. do 2 dstep. quiet_start.
  rewrite prefix_quiet, typeof_quiet by done. cbn [andb orb]. do 2 dstep. apply pass_New.
Qed.

Lemma pass_Range : passes (Parser_ParseRangeExpr (S n) K m).
Proof.
  intros back. unfold Parser_ParseRangeExpr. apply yields_bind; [apply pass_Prefix|]. intros e back' _.
  do 2 dstep. quiet_start. rewrite quiet_kind by (done || by vm_compute). by repeat dstep.
Qed.

Lemma pass_Colon : passes (Parser_ParseColonExpr (S n) K m).
Proof.
  intros back. unfold Parser_ParseColonExpr. apply yields_bind; [apply pass_Range|]. intros e back' _.
  case_match; [by apply does_ret|]. by apply colons_end.
Qed.

Lemma pass_Binary : passes (Parser_ParseBinaryExpr (S n) K m).
Proof.
  intros back. unfold Parser_ParseBinaryExpr. do 2 dstep. apply yields_bind; [apply pass_Colon|]. intros e back' _.
  by apply binaries_end.
Qed.

Lemma pass_Mul : passes (Parser_ParseMulExpr (S n) K m).
Proof.
  intros back. unfold Parser_ParseMulExpr. do 2 dstep. apply yields_bind; [apply pass_Binary|]. intros e back' _.
  apply operators_end; [done..|]. intros t Hq. by apply punct_quiet.
Qed.

Lemma pass_Add : passes (Parser_ParseAddExpr (S n) K m).
Proof.
  intros back. unfold Parser_ParseAddExpr. do 2 dstep. apply yields_bind; [apply pass_Mul|]. intros e back' _.
  apply operators_end; [done..|]. intros t Hq. by apply punct_quiet.
Qed.

Lemma pass_Cmp : passes (Parser_ParseCmpExpr (S n) K m).
Proof.
  intros back. unfold Parser_ParseCmpExpr. do 2 dstep. apply yields_bind; [apply pass_Add|]. intros e back' _.
  apply operators_end; [done..|]. intros t Hq. by apply comparison_quiet.
Qed.

Lemma pass_Not : passes (Parser_ParseNotExpr (S n) K m).
Proof.
  intros back. unfold Parser_ParseNotExpr. dstep. cbn [nots]. do 2 dstep. quiet_start.
  rewrite word_quiet by (done || by vm_compute). do 3 dstep.
  apply yields_bind; [apply pass_Cmp|]. intros e back' _. by apply does_ret.
Qed.

Lemma pass_And : passes (Parser_ParseAndExpr (S n) K m).
Proof.
  intros back. unfold Parser_ParseAndExpr. apply yields_bind; [apply pass_Not|]. intros e back' _.
  by apply junctions_end; [..|vm_compute].
Qed.

(** An expression between brackets or commas. *)
Lemma pass_Or : passes (Parser_ParseOrExpr (S n) K m).
Proof.
  intros back. unfold Parser_ParseOrExpr. do 2 dstep. apply yields_bind; [apply pass_And|]. intros e back' _.
  by apply junctions_end; [..|vm_compute].
Qed.

(** The expression is not an assignable one whose length the code cannot find out. *)
Hypothesis measured : forall e, T e -> is_Some (SmileList_SafeLength e).

Lemma does_IsLValue e back ws' (Q : bool -> Parser -> list item -> list item -> Prop) : T e ->
  (forall b, Q b p0 back ws') -> does p0 back ws' (Parser_IsLValue e) Q.
Proof.
  intros HT HQ. unfold Parser_IsLValue. destruct (isSymbol e); [by apply does_ret|].
  destruct (_ || _); [|by apply does_ret]. destruct (measured e HT) as [x Hx]. dstep.
  eapply does_demand; [exact Hx|]. by apply does_ret.
Qed.

Lemma pass_Equals : passes (Parser_ParseEquals (S n) K m).
Proof.
  intros back. unfold Parser_ParseEquals. dstep.
  apply (does_mono _ _ _ _ _ (fun r p1 back' ws' => implicit_declaration r = None /\ p1 = p0 /\ ws' = start)).
  - unfold Parser_Peek2. do 2 dstep. quiet_start. destruct (is_kind t [TOKEN_EOI; TOKEN_ERROR]); [by repeat dstep|].
    repeat dstep. split; [|done]. case_match; [done|]. unfold implicit_declaration. by rewrite prefix_quiet.
  - intros r p1 back' ws' (-> & -> & ->). apply yields_bind; [apply pass_Or|]. intros e back2 HT.
    dstep. apply does_IsLValue; [done|]. intros b. dstep.
    apply (does_mono _ _ _ _ _ (gives false p0 after)).
    + destruct b; [|by apply does_ret]. unfold Parser_HasEqualLookahead, Parser_HasLookaheadOf. repeat dstep. quiet_start.
      by rewrite quiet_kind by (done || by vm_compute).
    + intros ? ? back3 ? (-> & -> & ->). by apply does_ret.
Qed.

Lemma pass_OpEquals : passes (Parser_ParseOpEquals (S n) K m).
Proof.
  intros back. unfold Parser_ParseOpEquals. apply yields_bind; [apply pass_Equals|]. intros e back2 HT.
  dstep. apply does_IsLValue; [done|]. intros b. dstep. apply (does_mono _ _ _ _ _ (gives false p0 after)).
  - destruct b; [|by apply does_ret]. unfold opequals_lookahead. dstep. unfold Parser_Has2Lookahead. repeat dstep. quiet_start.
    rewrite bool_decide_eq_false_2; [cbn [andb]; by apply opequals_end|]. intros E. destruct H as [H _]. rewrite E in H.
    by apply (bool_decide_eq_false_1 (TOKEN_UNKNOWNALPHANAME ∈ calm_kinds)).
  - intros ? ? back3 ? (-> & -> & ->). by apply does_ret.
Qed.

Lemma keyword_plain symbol m' position : plain symbol = true -> keyword_statement (S n) K symbol m' position = None.
Proof.
  unfold plain, keyword_statement. intros Hp%negb_true_iff%bool_decide_eq_false_1.
  repeat (case_match; [match goal with H : (symbol =? _) = true |- _ => apply Z.eqb_eq in H as -> end;
    exfalso; apply Hp, (bool_decide_eq_true_1 (_ ∈ reserved)); by vm_compute|]). done.
Qed.

Lemma pass_Expr : with_mode m COMMAMODE_MASK COMMAMODE_NORMAL = m -> passes (Parser_ParseExpr (S n) K m).
Proof.
  intros Hm back. unfold Parser_ParseExpr, Parser_ParseStmt. do 2 dstep. quiet_start.
  assert (Hplain : does p0 (i :: take 2 back) (j :: ws) (plain_statement (S n) K m) (yields T p0 after)).
  { unfold plain_statement. repeat dstep. rewrite Hm. apply pass_OpEquals. }
  destruct H as [Hk Hp]. unfold calm_kinds in Hk. rewrite !list.elem_of_cons in Hk.
  destruct Hk as [Hk|[Hk|[Hk|[Hk|[Hk|Hk]]]]]; [..|by apply elem_of_nil in Hk]; rewrite Hk in *; try exact Hplain.
  rewrite keyword_plain by auto. exact Hplain.
Qed.
End Pass.
End Operators.
