(* ===== verification/ParserTrees.v ===== *)
(** * ParserTrees: expressions as the parser reads them

    Expressions written in the syntax of lists, and which of them the parser reads
    back as the same tree: in which scope every name can be used where it is. *)

From Stdlib Require Import String.
From S2P Require Import Prelude IntMath FiniteMap Text TextProps StringBuilder IdentTable StringDict StringDictProps SymbolTable Lexer LexNames LexNumbers LexStrings LexerNext LexerScan LexerSafety LexerWords LexerRing.
From S2P Require Import Object Expr KnownSymbols ParseScope ScopeProps Parser ParseForms ParseLists ParseBlocks ParseExprs ParserFeed ParserLevels.

(** ** Tokens of an expression *)

#[local] Notation opening := (IMark TOKEN_LEFTBRACKET).
#[local] Notation closing := (IMark TOKEN_RIGHTBRACKET).

(** The tokens of an expression, and of what follows in a list. *)
Fixpoint items (e : Expr) : list item :=
  match e with
  | ESymbol s => [IName s]
  | EInteger64 n => [INumber n]
  | ENull => [opening; closing]
  | ECons a d _ => opening :: items a ++ tail_items d
  | _ => []
  end
with tail_items (d : Expr) : list item :=
  match d with
  | ECons a d _ => items a ++ tail_items d
  | _ => [closing]
  end.

(** ** What can be read back *)

(** What the names are declared as. *)
Notation Kinds := (Symbol -> option Z).

(** A name that stands for itself as a term. *)
Definition usable (kinds : Kinds) (s : Symbol) : bool :=
  plain s && match kinds s with Some k => negb (k =? PARSEDECL_KEYWORD) | None => false end.

Definition assignable (kinds : Kinds) (s : Symbol) : bool :=
  match kinds s with Some k => existsb (Z.eqb k) [PARSEDECL_VARIABLE; PARSEDECL_ARGUMENT; PARSEDECL_GLOBAL] | None => false end.

(** A name that a [$scope] can declare. *)
Definition declarable (kinds : Kinds) (s : Symbol) : bool :=
  match kinds s with Some k => k =? PARSEDECL_VARIABLE | None => true end.

Fixpoint with_variables (xs : list Symbol) (kinds : Kinds) : Kinds :=
  match xs with
  | [] => kinds
  | x :: xs => with_variables xs (fun y => if y =? x then Some PARSEDECL_VARIABLE else kinds y)
  end.

Fixpoint all_declarable (xs : list Symbol) (kinds : Kinds) : bool :=
  match xs with [] => true | x :: xs => declarable kinds x && all_declarable xs (with_variables [x] kinds) end.

Fixpoint variable_names (vars : Expr) : option (list Symbol) :=
  match vars with
  | ENull => Some []
  | ECons (ESymbol x) d _ => cons x <$> variable_names d
  | _ => None
  end.

Definition written_number (n : Z) : bool := (0 <=? n) && (n <? 2 ^ 63).

Definition quotable (e : Expr) : bool :=
  match e with ESymbol _ => true | EInteger64 n => written_number n | _ => false end.

(** The forms that are parsed in a way of their own; of these, [$set], [$quote] of an
    atom, and [$scope] of plain variables are written as the lists they are. *)
Definition special_forms : list Symbol := [SYMBOL__QUOTE; SYMBOL__SCOPE; SYMBOL__FN; SYMBOL__TILL; SYMBOL__NEW; SYMBOL__SET].

Fixpoint readable (kinds : Kinds) (e : Expr) : bool :=
  match e with
  | ENull => true
  | EInteger64 n => written_number n
  | ESymbol s => usable kinds s
  | ECons (ESymbol s) d _ =>
      usable kinds s
      && (if s =? SYMBOL__SET then
            match d with
            | ECons (ESymbol x) (ECons v ENull _) _ => usable kinds x && assignable kinds x && readable kinds v
            | _ => false
            end
          else if s =? SYMBOL__QUOTE then
            match d with ECons a ENull _ => quotable a | _ => false end
          else if s =? SYMBOL__SCOPE then
            match d with
            | ECons vars body _ =>
                match variable_names vars with
                | Some xs => all_declarable xs kinds && readable_items (with_variables xs kinds) body
                | None => false
                end
            | _ => false
            end
          else negb (bool_decide (s ∈ special_forms)) && readable_items kinds d)
  | ECons a d _ => readable kinds a && readable_items kinds d
  | _ => false
  end
with readable_items (kinds : Kinds) (d : Expr) : bool :=
  match d with
  | ENull => true
  | ECons a d _ => readable kinds a && readable_items kinds d
  | _ => false
  end.

(** ** Programs: expressions in a row *)

Definition program_items (d : Expr) : list item := removelast (tail_items d).

(** The expression of a program: none, the only one, or all in order. *)
Definition program_tree (d : Expr) : Expr :=
  match d with
  | ECons e ENull _ => e
  | ECons _ _ _ => ECons (ESymbol SYMBOL__PROGN) d NoSource
  | _ => d
  end.

Lemma items_nonempty kinds e : readable kinds e = true -> (1 <= length (items e))%nat.
Proof. destruct e; simpl; try discriminate; lia. Qed.

Lemma tail_nonempty d : (1 <= length (tail_items d))%nat.
Proof. induction d; simpl; rewrite ?length_app; lia. Qed.

Lemma readable_items_list kinds d : readable_items kinds d = true -> isList d || isNull d = true.
Proof. by destruct d. Qed.

Lemma readable_list kinds a d s : readable kinds (ECons a d s) = true -> isList d || isNull d = true.
Proof.
  intros Hr. destruct (isList d || isNull d) eqn:E; [done|]. exfalso.
  assert (Hd : readable_items kinds d = false) by (destruct (readable_items kinds d) eqn:E'; [apply readable_items_list in E'; congruence|done]).
  cbn [readable] in Hr. rewrite Hd, !andb_false_r in Hr.
  destruct a; try discriminate Hr. destruct d; try discriminate E; repeat (case_match; [by rewrite andb_false_r in Hr|]); by rewrite !andb_false_r in Hr.
Qed.

Lemma readable_measured kinds e e' : readable kinds e = true -> same_tree e e' -> is_Some (SmileList_SafeLength e').
Proof.
  unfold same_tree. destruct e' as [| | | | | | | | | | | | | | | | |a' d' s']; try (intros; by eexists).
  intros Hr E. destruct e as [| | | | | | | | | | | | | | | | |a d s]; try discriminate E. injection E as Ea Ed.
  apply readable_list in Hr. destruct d', d; try discriminate; by eexists.
Qed.

Lemma readable_not_ignorable kinds e e' : readable kinds e = true -> same_tree e e' -> is_ignorable e' = false.
Proof. unfold same_tree. intros Hr E. destruct e'; try done. destruct e; discriminate. Qed.

Lemma same_tree_symbol s e' : same_tree (ESymbol s) e' -> e' = ESymbol s.
Proof. unfold same_tree. destruct e'; simpl; congruence. Qed.

Lemma tail_last d : tail_items d = program_items d ++ [IMark TOKEN_RIGHTBRACKET].
Proof.
  unfold program_items. induction d as [| | | | | | | | | | | | | | | | |a _ d IH s]; try done. cbn [tail_items].
  pose proof (tail_nonempty d). rewrite removelast_app by (destruct (tail_items d); [simpl in *; lia|done]). by rewrite IH, app_assoc at 1.
Qed.

Lemma program_cons a d s : program_items (ECons a d s) = items a ++ program_items d.
Proof. unfold program_items. cbn [tail_items]. pose proof (tail_nonempty d). by rewrite removelast_app by (destruct (tail_items d); [simpl in *; lia|done]). Qed.

Lemma variable_items vars xs : variable_names vars = Some xs ->
  items vars = opening :: map IName xs ++ [closing].
Proof.
  assert (H : forall d ys, variable_names d = Some ys -> tail_items d = map IName ys ++ [closing]).
  { induction d; intros ys H; simpl in H; try discriminate; [by injection H as <-|].
    destruct d1; try discriminate. destruct (variable_names d2) eqn:E; [|discriminate]. injection H as <-. simpl. by rewrite (IHd2 _ eq_refl). }
  destruct vars; simpl; try discriminate; [by intros [= <-]|]. destruct vars1; try discriminate.
  destruct (variable_names vars2) eqn:E; [|discriminate]. intros [= <-]. simpl. by rewrite (H _ _ E).
Qed.

Lemma variable_tree vars xs (l : list (Expr * Source)) : variable_names vars = Some xs -> map fst l = map ESymbol xs ->
  erase (linked l) = erase vars.
Proof.
  revert xs l. induction vars; intros xs l H Hl; simpl in H; try discriminate.
  - injection H as <-. by destruct l.
  - destruct vars1; try discriminate. destruct (variable_names vars2) eqn:E; [|discriminate]. injection H as <-.
    destruct l as [|[a sa] l]; simpl in *; [done|]. injection Hl as -> Hl. simpl. f_equal. by apply (IHvars2 l0).
Qed.

(** ** Scopes *)

Definition decl_of (scopes : list ParseScope) (s : Symbol) : option Z :=
  match ParseScope_FindDeclaration scopes s with Some (Some d) => Some (declKind d) | _ => None end.

Section Scopes.
Context {D : Type} {Ops : MapOps Str Z D}.
#[local] Notation Parser := (Parser D).

(** The parser is where names are declared like this. *)
Record in_scope (kinds : Kinds) (p0 : Parser) : Prop := {
  is_wf : Forall scope_wf (currentScope p0);
  is_kinds : forall s, decl_of (currentScope p0) s = kinds s;
  is_rules : no_rules p0
}.

Lemma kind_declared kinds p0 s k : in_scope kinds p0 -> kinds s = Some k ->
  ParseScope_IsDeclared (currentScope p0) s = true
  /\ exists d, ParseScope_FindDeclaration (currentScope p0) s = Some (Some d) /\ declKind d = k.
Proof.
  intros [Hwf Hk _] Hs. destruct (Find_safe (currentScope p0) s Hwf) as (answer & E & _ & Hdecl).
  rewrite <- Hk in Hs. unfold decl_of in Hs. rewrite E in Hs. destruct answer as [d|]; [|discriminate].
  injection Hs as Hs. split; [by apply Hdecl|]. rewrite E. by exists d.
Qed.

Lemma usable_calm kinds p0 s : in_scope kinds p0 -> usable kinds s = true -> calm (currentScope p0) (IName s).
Proof.
  unfold usable. intros Hs [Hp Hk]%andb_prop. destruct (kinds s) as [k|] eqn:E; [|discriminate].
  split; [|done]. by eapply kind_declared.
Qed.

(** A token that is neither the end of a list nor of the input. *)
Definition begins (it : item) : bool := match it with IMark k => bool_decide (k = TOKEN_LEFTBRACKET) | IEnd => false | _ => true end.

Lemma begins_kind scopes it t : begins it = true -> shown scopes it t -> is_kind t (TOKEN_EOI :: right_kinds) = false.
Proof.
  intros Hb [Ht _]. unfold is_kind. apply bool_decide_eq_false_2. destruct it as [s|n|k|]; simpl in *.
  - destruct Ht as [Hk _]. unfold alpha_kinds in Hk. rewrite !list.elem_of_cons in Hk.
    destruct Hk as [-> |[-> |Hk]]; [..|by apply elem_of_nil in Hk]; by apply (bool_decide_eq_false_1 (_ ∈ _)); vm_compute.
  - destruct Ht as [-> _]. by apply (bool_decide_eq_false_1 (_ ∈ _)); vm_compute.
  - apply bool_decide_eq_true_1 in Hb as ->. destruct Ht as [-> _]. by apply (bool_decide_eq_false_1 (_ ∈ _)); vm_compute.
  - done.
Qed.

(** A readable expression starts with a token no level stops at. *)
Lemma readable_calm kinds p0 e : in_scope kinds p0 -> readable kinds e = true ->
  exists i ws, items e = i :: ws /\ calm (currentScope p0) i /\ begins i = true.
Proof.
  intros Hs Hr. destruct e; simpl in Hr; try discriminate; simpl; do 2 eexists; (split; [reflexivity|]); split; try done; try (by left).
  by eapply usable_calm.
Qed.

(** One more variable in the innermost scope. *)
Lemma declare_variable s parents x position kinds :
  Forall scope_wf (s :: parents) -> (forall y, decl_of (s :: parents) y = kinds y) -> has_room s ->
  scopeKind s <> PARSESCOPE_EXPLICIT -> declarable kinds x = true ->
  exists s', ParseScope_DeclareHere (s :: parents) x PARSEDECL_VARIABLE position
      = Some (Made (s' :: parents) (add_declaration s x PARSEDECL_VARIABLE position).2)
    /\ s' = (add_declaration s x PARSEDECL_VARIABLE position).1
    /\ Forall scope_wf (s' :: parents) /\ forall y, decl_of (s' :: parents) y = with_variables [x] kinds y.
Proof.
  intros Hwf Hk Hroom Hkind Hx. exists (add_declaration s x PARSEDECL_VARIABLE position).1. pose proof (Hk x) as Hkx.
  unfold declarable in Hx. unfold decl_of in Hkx. destruct (Find_safe (s :: parents) x Hwf) as (answer & E & _).
  split; [|split; [done|split]].
  - unfold ParseScope_DeclareHere. rewrite E in *. cbn [mbind option_bind].
    assert (Hre : forall d, answer = Some d -> redeclarable d PARSEDECL_VARIABLE = true).
    { intros d ->. rewrite <- Hkx in Hx. apply Z.eqb_eq in Hx. unfold redeclarable. by rewrite Hx. }
    destruct (Z.eqb_spec (scopeKind s) PARSESCOPE_EXPLICIT); [done|].
    destruct answer as [d|]; [rewrite Hre by done|]; by destruct (add_declaration s x PARSEDECL_VARIABLE position).
  - apply Forall_cons in Hwf as [Hw Hp]. constructor; [|done]. by apply add_wf.
  - intros y. cbn [with_variables]. apply Forall_cons in Hwf as [Hw Hp]. unfold decl_of.
    destruct (Z.eqb_spec y x) as [->|Hne].
    + rewrite add_finds by done. by rewrite decide_True.
    + rewrite add_keeps by done. apply Hk.
Qed.
End Scopes.
