(* ===== verification/ParserRoundtrip.v ===== *)
(** * ParserRoundtrip: reading back the tree that was written *)

From Stdlib Require Import String.
From S2P Require Import Prelude IntMath FiniteMap Text TextProps StringBuilder IdentTable StringDict StringDictProps SymbolTable Lexer LexNames LexNumbers LexStrings LexerNext LexerScan LexerSafety LexerWords LexerRing.
From S2P Require Import Object Expr KnownSymbols ParseScope ScopeProps Parser ParseForms ParseLists ParseBlocks ParseExprs ParserFeed ParserLevels ParserTrees.

#[local] Notation opening := (IMark TOKEN_LEFTBRACKET).
#[local] Notation closing := (IMark TOKEN_RIGHTBRACKET).

Lemma name_bytes s : name_tail s = true -> Forall is_byte s.
Proof.
  induction s as [|c s IH]; [constructor|]. cbn [name_tail]. intros [H Hs]%andb_prop. constructor; [|auto].
  unfold is_byte, inU, is_letter, is_name_extra, is_lower, is_upper, is_digit, within, QUOTE in *. change (2 ^ 8) with 256.
  apply orb_prop in H as [H|H%andb_prop]; [|lia]. lia.
Qed.

(** Words are written in bytes. *)
Lemma words_bytes ws : Forall (fun w => valid_word w.1) ws -> Forall is_byte (spelled_words ws).
Proof.
  induction 1 as [|[w newline] ws Hw _ IH]; [constructor|]. simpl. apply Forall_app. split; [|constructor; [|exact IH]].
  - destruct w as [s|n|c]; simpl in *.
    + destruct Hw as [Hv _]. apply name_bytes. destruct s; [done|]. by apply andb_prop in Hv as [_ ?].
    + destruct (decimal_spec n Hw) as (Hd & _). eapply Forall_impl; [exact Hd|]. intros c Hc. apply digit_is in Hc as (_ & _ & Hc).
      unfold is_byte, inU. change (2 ^ 8) with 256. simpl in Hc. lia.
    + constructor; [|constructor]. destruct Hw as [k Hk]. unfold single_token in Hk.
      repeat (case_match; [match goal with H : (c =? _) = true |- _ => apply Z.eqb_eq in H as -> end; by split; vm_compute|]). done.
  - unfold is_byte, inU. by destruct newline.
Qed.

Section Reading.
Context {D : Type} {Ops : MapOps Str Z D} {Laws : MapLaws Str Z D} {Real : RealParsers} {Env : ParserEnv} {CE : CompilerEnv}.
Context (zero_is_absent : NULL_value = 0) (large : 2 ^ 30 <= capacity).
Variables (base : list Str).
#[local] Notation P := (P D).
#[local] Notation Parser := (Parser D).
#[local] Notation does := (does base).

(** ** Brackets and the tokens in front of forms *)

Lemma close_calm scopes : calm scopes closing.
Proof. by right. Qed.

Lemma ExpectRightBracket_closes loops name position p0 back ws :
  does p0 back (closing :: ws) (Parser_ExpectRightBracket loops name position) (gives (inr tt) p0 ws).
Proof.
  unfold Parser_ExpectRightBracket, Parser_HasLookahead, Parser_HasLookaheadOf. repeat dstep. destruct Ht as [[Hk _] _].
  unfold is_kind. rewrite Hk. rewrite bool_decide_eq_true_2 by (by apply list_elem_of_singleton). cbn [negb].
  by repeat dstep.
Qed.

Lemma ExpectLeftBracket_opens loops first name position p0 back ws :
  does p0 back (opening :: ws) (Parser_ExpectLeftBracket loops first name position) (gives (inr tt) p0 ws).
Proof.
  unfold Parser_ExpectLeftBracket, Parser_HasLookahead, Parser_HasLookaheadOf. repeat dstep. destruct Ht as [[Hk _] _].
  unfold is_kind. rewrite Hk. rewrite bool_decide_eq_true_2 by (by apply list_elem_of_singleton). cbn [negb].
  by repeat dstep.
Qed.

(** Nothing special in front of a list. *)
Lemma no_form loops K position (p0 : Parser) back i ws : calm (currentScope p0) i ->
  (forall s, i = IName s -> s ∉ special_forms) ->
  does p0 back (i :: ws) (Parser_TryParseSpecialForm loops K position) (gives None p0 (i :: ws)).
Proof.
  intros Hi Hs. unfold Parser_TryParseSpecialForm. do 2 dstep.
  destruct (is_kind t [TOKEN_ALPHANAME]) eqn:Ek; [|cbn [negb]; by repeat dstep].
  apply bool_decide_eq_true_1, list_elem_of_singleton in Ek. destruct Ht as [Ht _].
  assert (Hin : data_symbol t ∉ special_forms).
  { destruct i as [s|x|k|]; simpl in *.
    - destruct Ht as (_ & -> & _). by apply Hs.
    - destruct Ht. congruence.
    - destruct Ht, Hi; congruence.
    - congruence. }
  unfold special_forms in Hin. rewrite !not_elem_of_cons in Hin. destruct Hin as (H1 & H2 & H3 & H4 & H5 & H6 & _).
  cbn [negb].
  repeat match goal with H : data_symbol t <> ?x |- context [data_symbol t =? ?x] => rewrite (proj2 (Z.eqb_neq _ _) H) end.
  by repeat dstep.
Qed.

(** The name of a special form. *)
Lemma form_name kinds (p0 : Parser) s t : in_scope kinds p0 -> usable kinds s = true -> shown (currentScope p0) (IName s) t ->
  is_kind t [TOKEN_ALPHANAME] = true /\ data_symbol t = s /\ kind t = TOKEN_ALPHANAME.
Proof.
  intros Hs Hu [(_ & Hd & _) Hk]. destruct (usable_calm _ _ _ Hs Hu) as [Hdecl _]. rewrite Hdecl in Hk.
  split; [|done]. unfold is_kind. rewrite Hk. apply bool_decide_eq_true_2. by apply list_elem_of_singleton.
Qed.

(** ** Expressions in a row *)

Section Lists.
Variables (n : nat) (parse : Z -> P Parsed) (size : nat).

(** Expressions of at most [size] tokens are read back. *)
Definition reads_back : Prop := forall e kinds p0 back f1 f2 rest,
  in_scope kinds p0 -> readable kinds e = true -> calm (currentScope p0) f1 -> (length (items e) <= size)%nat ->
  zlen (items e) < 2 ^ 30 ->
  does p0 back (items e ++ f1 :: f2 :: rest) (parse default_mode) (yields (same_tree e) p0 (f1 :: f2 :: rest)).

Hypothesis parse_back : reads_back.

(** The elements of a list up to its bracket; or up to the end of the input. *)
Lemma row_reads d : forall kinds p0 back l fuel last x rest, in_scope kinds p0 -> readable_items kinds d = true ->
  last = closing \/ last = IEnd ->
  (length (tail_items d) <= size + 1)%nat -> (length (tail_items d) <= fuel)%nat -> zlen (tail_items d) < 2 ^ 30 ->
  does p0 back (program_items d ++ last :: x :: rest) (expressions n fuel parse default_mode l)
    (fun r p1 _ ws' => exists l', r = l ++ l' /\ erase (linked l') = erase d /\ p1 = p0 /\ ws' = last :: x :: rest).
Proof.
  induction d as [| | | | | | | | | | | | | | | | |a _ d IH s]; intros kinds p0 back l fuel last x rest Hs Hr Hlast Hsize Hfuel Hz;
    try discriminate Hr; (destruct fuel as [|fuel]; [match type of Hfuel with (length (tail_items ?e) <= _)%nat => pose proof (tail_nonempty e); lia end|]).
  - cbn [program_items tail_items removelast app expressions]. do 2 dstep.
    assert (Hk : is_kind t (TOKEN_EOI :: right_kinds) = true).
    { apply bool_decide_eq_true_2. destruct Ht as [Ht _]. destruct Hlast as [-> | ->]; simpl in Ht;
        [destruct Ht as [-> _]|rewrite Ht]; by apply (bool_decide_eq_true_1 (_ ∈ _)); vm_compute. }
    rewrite Hk. repeat dstep. exists []. by rewrite app_nil_r.
  - cbn [readable_items] in Hr. apply andb_prop in Hr as [Ha Hd]. cbn [tail_items] in *. rewrite length_app in *.
    rewrite zlen_app in Hz. pose proof (zlen_nonneg (items a)). pose proof (zlen_nonneg (tail_items d)).
    pose proof (items_nonempty _ _ Ha). pose proof (tail_nonempty d). rewrite program_cons, <- app_assoc.
    destruct (readable_calm _ _ _ Hs Ha) as (i & ws & Ei & Hi & Hb).
    assert (Hnext : exists f1 f2 rest', program_items d ++ last :: x :: rest = f1 :: f2 :: rest' /\ calm (currentScope p0) f1).
    { destruct d as [| | | | | | | | | | | | | | | | |b d' s']; try discriminate Hd.
      - exists last, x, rest. split; [done|]. destruct Hlast as [-> | ->]; [by right|done].
      - cbn [readable_items] in Hd. apply andb_prop in Hd as [Hr2 _]. destruct (readable_calm _ _ _ Hs Hr2) as (f1 & ws1 & E1 & H1' & _).
        rewrite program_cons, E1, <- app_assoc. simpl.
        destruct (ws1 ++ program_items d' ++ last :: x :: rest) as [|f2 rest'] eqn:E2; [|by exists f1, f2, rest'].
        by apply app_eq_nil in E2 as [_ [_ ?]%app_eq_nil]. }
    destruct Hnext as (f1 & f2 & rest' & Enext & Hf1). cbn [expressions]. rewrite Ei. cbn [app]. do 2 dstep.
    rewrite (begins_kind _ _ _ Hb Ht). do 2 dstep. rewrite app_comm_cons, <- Ei, Enext. dstep.
    eapply does_mono; [exact (parse_back a kinds p0 _ f1 f2 rest' Hs Ha Hf1 ltac:(lia) ltac:(lia))|].
    intros r p1 back' ws' (e' & -> & He & -> & ->). rewrite (readable_not_ignorable _ _ _ Ha He). rewrite <- Enext.
    eapply does_mono; [apply (IH kinds); [exact Hs|exact Hd|exact Hlast|lia|lia|lia]|].
    intros r p1 back2 ws2 (l' & -> & Hl & -> & ->). exists ((e', WithSource (Some (Token_GetPosition t))) :: l').
    split; [by rewrite <- app_assoc|]. split; [|done]. simpl. unfold same_tree in He. by rewrite He, Hl.
Qed.
End Lists.

(** ** Terms *)

Section Terms.
Variables (n : nat) (K : Recur D).
Hypotheses (or_back : reads_back (r_OrExpr K) n) (expr_back : reads_back (r_Expr K) n).

(** A list that is no special form, after its left bracket. *)
Lemma list_reads d kinds p0 back t f1 rest : in_scope kinds p0 -> readable_items kinds d = true ->
  (forall s a d', d = ECons a d' s -> forall x, a = ESymbol x -> x ∉ special_forms) ->
  (length (tail_items d) <= n + 1)%nat -> zlen (tail_items d) < 2 ^ 30 ->
  does p0 back (tail_items d ++ f1 :: rest) (list_term (S n) K t) (yields (same_tree d) p0 (f1 :: rest)).
Proof.
  intros Hs Hr Hform Hsize Hz. unfold list_term. dstep.
  apply (does_mono _ _ _ _ _ (gives None p0 (tail_items d ++ f1 :: rest))).
  - destruct d as [| | | | | | | | | | | | | | | | |a d s]; try discriminate Hr.
    + apply no_form; [by right|done].
    + cbn [readable_items] in Hr. apply andb_prop in Hr as [Ha _].
      destruct (readable_calm _ _ _ Hs Ha) as (i & ws & Ei & Hi & _). cbn [tail_items]. rewrite Ei. cbn [app].
      apply no_form; [done|]. intros x ->. eapply (Hform s a d eq_refl).
      destruct a; try discriminate Ei. by injection Ei as ->.
  - intros ? ? back1 ? (-> & -> & ->). rewrite tail_last, <- app_assoc. cbn [app]. dstep.
    eapply does_mono; [apply (row_reads (S n) _ _ or_back d kinds); [done|done|by left|done|lia|done]|].
    intros ? ? back2 ? (l & -> & Hl & -> & ->). dstep.
    eapply does_mono; [apply ExpectRightBracket_closes|]. intros ? ? back3 ? (-> & -> & ->).
    apply does_ret. by exists (linked l).
Qed.

(** The first token of an atom, quoted or not. *)
Lemma atom_reads a back (p0 : Parser) rest : quotable a = true ->
  does p0 back (items a ++ rest) (Parser_ParseRawListTerm (S n) K default_mode) (gives (inr (a, TemplateKind_None)) p0 rest).
Proof.
  intros Ha. unfold Parser_ParseRawListTerm. destruct a; try discriminate Ha; cbn [items app]; do 2 dstep; destruct Ht as [Ht Hname].
  - destruct Ht as [Hk Hd]. rewrite Hk. unfold literal_of. rewrite Hk, Hd. by apply does_ret.
  - destruct Ht as (_ & Hd & _). rewrite Hd. destruct (ParseScope_IsDeclared _ _); rewrite Hname; by apply does_ret.
Qed.

(** [[$quote x]] *)
Lemma quote_reads a (p0 : Parser) back position f1 rest : quotable a = true ->
  does p0 back (items a ++ closing :: f1 :: rest) (Parser_ParseClassicQuote (S n) K position)
    (gives (inr (list_at position [ESymbol SYMBOL__QUOTE; a])) p0 (f1 :: rest)).
Proof.
  intros Ha. unfold Parser_ParseClassicQuote. dstep.
  apply (does_mono _ _ _ _ _ (gives (inr (quote_form a position)) p0 (closing :: f1 :: rest))).
  - unfold Parser_ParseQuoteBody, Parser_ParseQuotedTerm. dstep.
    assert (Hpeek : exists i ws, items a = i :: ws /\ forall t, carries i t -> kind t <> TOKEN_LEFTPARENTHESIS).
    { destruct a; try discriminate Ha; do 2 eexists; (split; [reflexivity|]); intros t; [by intros [-> _]|].
      intros [Hk _] E. rewrite E in Hk. by apply (bool_decide_eq_false_1 (TOKEN_LEFTPARENTHESIS ∈ alpha_kinds)). }
    destruct Hpeek as (i & ws & Ei & Hi). rewrite Ei. cbn [app]. dstep. rewrite bool_decide_eq_false_2 by auto.
    rewrite app_comm_cons, <- Ei. dstep. eapply does_mono; [by apply atom_reads|]. intros ? ? back1 ? (-> & -> & ->).
    by apply does_ret.
  - intros ? ? back1 ? (-> & -> & ->). dstep. eapply does_mono; [apply ExpectRightBracket_closes|].
    intros ? ? back2 ? (-> & -> & ->). by apply does_ret.
Qed.

(** [[$set x v]] *)
Lemma set_reads x v kinds (p0 : Parser) back position f1 rest : in_scope kinds p0 ->
  usable kinds x = true -> assignable kinds x = true -> readable kinds v = true ->
  (S (length (items v)) <= n)%nat -> zlen (items v) < 2 ^ 30 ->
  does p0 back (IName x :: items v ++ closing :: f1 :: rest) (Parser_ParseClassicSet (S n) K position)
    (yields (same_tree (list_at position [ESymbol SYMBOL__SET; ESymbol x; v])) p0 (f1 :: rest)).
Proof.
  intros Hs Hx Hassign Hv Hsize Hz. unfold Parser_ParseClassicSet. dstep.
  destruct (readable_calm _ _ _ Hs Hv) as (i & ws & Ei & Hi & _).
  apply (does_mono _ _ _ _ _ (gives (inr (ESymbol x)) p0 (items v ++ closing :: f1 :: rest))).
  - unfold classic_lvalue. do 2 dstep. destruct (form_name _ _ _ _ Hs Hx Ht) as (_ & _ & Hk).
    unfold is_kind. rewrite Hk, bool_decide_eq_false_2 by (by apply (bool_decide_eq_false_1 (_ ∈ _)); vm_compute).
    do 2 dstep. rewrite Ei. cbn [app].
    assert (Hnext : exists f2 rest', ws ++ closing :: f1 :: rest = f2 :: rest') by (destruct ws; do 2 eexists; reflexivity).
    destruct Hnext as (f2 & rest' & ->).
    eapply does_mono; [apply (or_back (ESymbol x) kinds p0 _ i f2 rest' Hs Hx Hi); simpl; [lia|done]|].
    intros ? ? back1 ? (e' & -> & He & -> & ->). by apply same_tree_symbol in He as ->.
  - intros ? ? back1 ? (-> & -> & ->). dstep.
    eapply does_mono; [apply (expr_back v kinds p0 _ closing f1 rest Hs Hv); [by right|lia|done]|].
    intros ? ? back2 ? (e' & -> & He & -> & ->). dstep.
    eapply does_mono; [apply ExpectRightBracket_closes|]. intros ? ? back3 ? (-> & -> & ->).
    unfold Parser_IsLValue. cbn [isSymbol]. do 2 dstep. cbn [negb]. unfold EnsureLValueIsAssignable. do 2 dstep.
    unfold assignable in Hassign. destruct (kinds x) as [k|] eqn:Ek; [|discriminate].
    destruct (kind_declared _ _ _ _ Hs Ek) as (_ & d & Hfind & Hkind).
    apply does_ask; [done|]. dstep. eapply does_demand; [exact Hfind|]. cbv beta iota. rewrite Hkind, Hassign. do 2 dstep.
    exists (list_at position [ESymbol SYMBOL__SET; ESymbol x; null_if_ignorable e']). split; [done|]. split; [|done].
    unfold null_if_ignorable. rewrite (readable_not_ignorable _ _ _ Hv He). unfold same_tree in *. simpl. by rewrite He.
Qed.

(** ** [[$scope [x ...] ...]] *)

Lemma names_read xs : forall (p0 : Parser) back fuel l x rest, (length xs < fuel)%nat ->
  does p0 back (map IName xs ++ closing :: x :: rest) (scope_names_loop (S n) fuel l)
    (fun r p1 _ ws' => exists l', r = inr (l ++ l') /\ map fst l' = map ESymbol xs /\ p1 = p0 /\ ws' = closing :: x :: rest).
Proof.
  induction xs as [|y xs IH]; intros p0 back fuel l x rest Hf; (destruct fuel as [|fuel]; [simpl in Hf; lia|]);
    cbn [scope_names_loop map app]; do 2 dstep; destruct Ht as [Ht _]; do 2 dstep.
  - destruct Ht as [Hk _]. unfold is_kind at 1. rewrite Hk, bool_decide_eq_true_2
      by (by apply (bool_decide_eq_true_1 (_ ∈ _)); vm_compute).
    repeat dstep. exists []. by rewrite app_nil_r.
  - destruct Ht as (Hk & Hd & _). unfold alpha_kinds in Hk. rewrite !list.elem_of_cons in Hk.
    assert (Hkinds : is_kind t scope_names_end = false /\ is_kind t [TOKEN_LEFTBRACKET] = false /\ is_kind t name_kinds = true).
    { unfold is_kind. destruct Hk as [-> |[-> |Hk]]; [..|by apply elem_of_nil in Hk]; by vm_compute. }
    destruct Hkinds as (-> & -> & ->). simpl in Hf. eapply does_mono; [apply IH; lia|].
    intros r p1 back' ws' (l' & -> & Hl & -> & ->). eexists (_ :: l'). split; [by rewrite <- app_assoc|].
    simpl. by rewrite Hl, Hd.
Qed.

Lemma in_scope_child kinds (p0 : Parser) k scopes : in_scope kinds p0 -> ParseScope_CreateChild (currentScope p0) k = Some scopes ->
  in_scope kinds (set_scopes scopes p0).
Proof.
  intros [Hwf Hk (s & parents & Es & Ht)] Hc. destruct (CreateChild_wf _ _ _ Hwf Hc) as [Hwf' Hfind].
  split; simpl; [done| |].
  - intros y. unfold decl_of. rewrite Hfind. apply Hk.
  - rewrite Es in Hc. injection Hc as <-. by do 2 eexists.
Qed.

Lemma declares_read xs : forall kinds (p0 : Parser) back ws l s parents, in_scope kinds p0 -> currentScope p0 = s :: parents ->
  map fst l = map ESymbol xs -> all_declarable xs kinds = true -> zlen (decls s) + zlen xs < 2 ^ 31 - 1 ->
  scopeKind s <> PARSESCOPE_EXPLICIT ->
  does p0 back ws (declare_scope_names l)
    (fun _ p1 _ ws' => exists s', p1 = set_scopes (s' :: parents) p0 /\ in_scope (with_variables xs kinds) p1 /\ ws' = ws).
Proof.
  induction xs as [|x xs IH]; intros kinds p0 back ws l s parents Hs Es Hl Hx Hz Hkind;
    (destruct l as [|[e source] l]; try discriminate Hl).
  - apply does_ret. exists s. split; [|done]. rewrite <- Es. by destruct p0.
  - injection Hl as -> Hl. cbn [all_declarable] in Hx. apply andb_prop in Hx as [Hx Hxs]. rewrite zlen_cons in Hz.
    pose proof (zlen_nonneg xs). pose proof Hs as [Hwf Hk (s0 & parents0 & Es0 & Ht)].
    rewrite Es in *. injection Es0 as <- <-. cbn [declare_scope_names]. dstep. set (position := match source with WithSource p => p | NoSource => None end).
    destruct (declare_variable s parents x position kinds Hwf Hk) as (s' & E & Es' & Hwf' & Hk'); [unfold has_room; lia|done|done|].
    unfold declare. dstep. apply does_ask; [done|]. rewrite Es. dstep. eapply does_demand; [exact E|]. cbv beta iota. dstep.
    apply (does_modify _ _ (set_scopes (s' :: parents) p0)); [done|]. dstep.
    eapply does_mono; [apply (IH (with_variables [x] kinds) _ _ _ _ s' parents); [|done|exact Hl|exact Hxs| |]|].
    + split; simpl; [done|done|]. exists s', parents. split; [done|]. by rewrite Es'.
    + rewrite Es'. simpl. rewrite zlen_app. change (zlen [_]) with 1. lia.
    + by rewrite Es'.
    + intros ? p1 back' ws' (s2 & -> & Hin & ->). by exists s2.
Qed.

Lemma explicit_in_scope kinds (p0 : Parser) s parents : in_scope kinds (set_scopes (s :: parents) p0) ->
  in_scope kinds (set_scopes (set_scopeKind PARSESCOPE_EXPLICIT s :: parents) p0).
Proof.
  intros [Hwf Hk (s0 & parents0 & Es & Ht)]. simpl in *. injection Es as <- <-. split; simpl.
  - apply Forall_cons in Hwf as [[H1 H2] Hp]. constructor; [by split|done].
  - exact Hk.
  - by do 2 eexists.
Qed.

Lemma scope_reads vars body xs kinds (p0 : Parser) back position f1 rest : in_scope kinds p0 ->
  variable_names vars = Some xs -> all_declarable xs kinds = true -> readable_items (with_variables xs kinds) body = true ->
  (length (items vars ++ tail_items body) <= n + 1)%nat -> zlen (items vars ++ tail_items body) < 2 ^ 30 ->
  does p0 back (items vars ++ tail_items body ++ f1 :: rest) (Parser_ParseClassicScope (S n) K position)
    (yields (same_tree (ECons (ESymbol SYMBOL__SCOPE) (ECons vars body NoSource) NoSource)) p0 (f1 :: rest)).
Proof.
  intros Hs Hvars Hxs Hbody Hsize Hz. rewrite (variable_items _ _ Hvars) in *. cbn [app] in *. rewrite <- app_assoc in *. cbn [app] in *.
  rewrite zlen_cons, zlen_app, zlen_cons in Hz. simpl in Hsize. rewrite length_app, length_map in Hsize. simpl in Hsize.
  assert (Hlen : zlen (map IName xs) = zlen xs) by (unfold zlen; by rewrite length_map). pose proof (zlen_nonneg (tail_items body)).
  pose proof (zlen_nonneg xs). unfold Parser_ParseClassicScope. dstep.
  eapply does_mono; [apply ExpectLeftBracket_opens|]. intros ? ? back1 ? (-> & -> & ->). dstep.
  pose proof Hs as [_ _ (s0 & parents & Es & Hsyntax)].
  set (child := mkParseScope PARSESCOPE_SCOPEDECL ∅ [] 16 (syntaxTable s0)).
  assert (Hc : ParseScope_CreateChild (currentScope p0) PARSESCOPE_SCOPEDECL = Some (child :: currentScope p0)) by (by rewrite Es).
  apply (does_mono _ _ _ _ _ (gives tt (set_scopes (child :: currentScope p0) p0) (map IName xs ++ closing :: tail_items body ++ f1 :: rest))).
  { unfold Parser_BeginScope. dstep. apply does_ask; [done|]. dstep. eapply does_demand; [exact Hc|].
    by apply (does_modify _ _ (set_scopes (child :: currentScope p0) p0)). }
  intros ? ? back2 ? (-> & -> & ->). pose proof (in_scope_child _ _ _ _ Hs Hc) as Hs1.
  set (p1 := set_scopes (child :: currentScope p0) p0) in *. dstep.
  assert (Hnext : exists i ws, tail_items body ++ f1 :: rest = i :: ws) by (destruct (tail_items body); do 2 eexists; reflexivity).
  destruct Hnext as (i & ws & Enext). rewrite Enext.
  eapply does_mono; [apply names_read; lia|]. intros r ? back3 ? (l & -> & Hl & -> & ->). cbn [app]. do 3 dstep.
  eapply does_mono; [apply ExpectRightBracket_closes|]. intros ? ? back4 ? (-> & -> & ->). dstep.
  eapply does_mono; [apply (declares_read xs kinds p1 _ _ l child (currentScope p0) Hs1 eq_refl Hl Hxs);
    [change (zlen (decls child)) with 0; lia|done]|].
  intros ? ? back5 ? (s1 & -> & Hs2 & ->). dstep. unfold make_explicit. dstep. apply does_ask; [done|].
  apply (does_modify _ _ (set_scopes (set_scopeKind PARSESCOPE_EXPLICIT s1 :: currentScope p0) p1)); [done|].
  apply explicit_in_scope in Hs2. set (p2 := set_scopes _ p1) in *. dstep.
  rewrite <- Enext, tail_last, <- app_assoc. cbn [app].
  eapply does_mono; [apply (row_reads (S n) _ n expr_back body _ p2 _ _ _ closing f1 rest Hs2 Hbody); [by left|lia|lia|lia]|].
  intros ? ? back6 ? (head & -> & Hhead & -> & ->). dstep.
  apply (does_mono _ _ _ _ _ (fun _ p3 _ ws' => p3 = p0 /\ ws' = closing :: f1 :: rest)).
  { unfold Parser_EndScope. dstep. apply does_ask; [done|]. simpl. dstep.
    apply (does_modify _ _ p0); [by intros; destruct p0|]. by dstep. }
  intros ? ? back7 ? (-> & ->). dstep. eapply does_mono; [apply ExpectRightBracket_closes|].
  intros ? ? back8 ? (-> & -> & ->). dstep. eexists. split; [reflexivity|]. split; [|done].
  unfold same_tree. simpl. by rewrite Hhead, (variable_tree _ _ _ Hvars Hl).
Qed.

(** ** All terms *)

(** After its left bracket and its name, a special form. *)
Lemma special_reads s kinds (p0 : Parser) back t ws f1 rest T : in_scope kinds p0 -> usable kinds s = true ->
  (s = SYMBOL__QUOTE -> forall back', does p0 back' ws (Parser_ParseClassicQuote (S n) K (Token_GetPosition t)) (yields T p0 (f1 :: rest))) ->
  (s = SYMBOL__SCOPE -> forall back', does p0 back' ws (Parser_ParseClassicScope (S n) K (Token_GetPosition t)) (yields T p0 (f1 :: rest))) ->
  (s = SYMBOL__SET -> forall back', does p0 back' ws (Parser_ParseClassicSet (S n) K (Token_GetPosition t)) (yields T p0 (f1 :: rest))) ->
  s = SYMBOL__QUOTE \/ s = SYMBOL__SCOPE \/ s = SYMBOL__SET ->
  does p0 back (IName s :: ws) (list_term (S n) K t) (yields T p0 (f1 :: rest)).
Proof.
  intros Hs Hu Hquote Hscope Hset Hform. unfold list_term, Parser_TryParseSpecialForm. do 3 dstep.
  destruct (form_name _ _ _ _ Hs Hu Ht) as (-> & -> & _). cbn [negb].
  assert (Hgo : forall parse : P Parsed, (forall back', does p0 back' ws parse (yields T p0 (f1 :: rest))) ->
    does p0 (IName s :: take 2 back) ws (r ← parse; mret (Some r)) (fun form p1 back' ws' =>
      does p1 back' ws' (match form with Some r => mret r | None =>
          head ← Parser_ParseCallArgsOpt (S n) K default_mode [];
          let+ _ := Parser_ExpectRightBracket (S n) "list" (Token_GetPosition t) in mret (inr (linked head)) end)
        (yields T p0 (f1 :: rest)))).
  { intros parse Hp. dstep. eapply does_mono; [apply Hp|]. intros r p1 back' ws' (e & -> & He & -> & ->).
    do 2 dstep. by exists e. }
  destruct Hform as [E|[E|E]]; subst s; cbn; apply Hgo; auto.
Qed.

(** A readable list, after its left bracket. *)
Lemma cells_read a d s kinds (p0 : Parser) back t f1 rest : in_scope kinds p0 -> readable kinds (ECons a d s) = true ->
  (length (items a ++ tail_items d) <= n)%nat -> zlen (items a ++ tail_items d) < 2 ^ 30 ->
  does p0 back ((items a ++ tail_items d) ++ f1 :: rest) (list_term (S n) K t) (yields (same_tree (ECons a d s)) p0 (f1 :: rest)).
Proof.
  intros Hs Hr Hsize Hz.
  assert (Hplain : readable_items kinds (ECons a d s) = true -> (forall x, a = ESymbol x -> x ∉ special_forms) ->
    does p0 back ((items a ++ tail_items d) ++ f1 :: rest) (list_term (S n) K t) (yields (same_tree (ECons a d s)) p0 (f1 :: rest))).
  { intros Hitems Hform. apply (list_reads (ECons a d s) kinds p0 _ t f1 rest Hs Hitems);
      [by intros ? ? ? [= -> -> ->]|cbn [tail_items]; lia|done]. }
  destruct a as [| | | | | | | | | | | | | |x| | |a1 a2 s1]; try (by apply Hplain). clear Hplain.
  assert (Hplain : readable_items kinds (ECons (ESymbol x) d s) = true -> x ∉ special_forms ->
    does p0 back ((items (ESymbol x) ++ tail_items d) ++ f1 :: rest) (list_term (S n) K t)
      (yields (same_tree (ECons (ESymbol x) d s)) p0 (f1 :: rest))).
  { intros Hitems Hform. apply (list_reads (ECons (ESymbol x) d s) kinds p0 _ t f1 rest Hs Hitems);
      [by intros ? ? ? [= <- <- <-] ? [= <-]|cbn [tail_items]; lia|done]. }
  cbn [readable] in Hr. apply andb_prop in Hr as [Hx Hr]. cbn [items app] in *. rewrite zlen_cons in Hz. simpl in Hsize.
  destruct (Z.eqb_spec x SYMBOL__SET) as [->|Hset]; [|destruct (Z.eqb_spec x SYMBOL__QUOTE) as [->|Hquote];
    [|destruct (Z.eqb_spec x SYMBOL__SCOPE) as [->|Hscope]]].
  - destruct d as [| | | | | | | | | | | | | | | | |y d sy]; try discriminate. destruct y; try discriminate.
    destruct d as [| | | | | | | | | | | | | | | | |v d sv]; try discriminate. destruct d; try discriminate.
    apply andb_prop in Hr as [[Hy Hassign]%andb_prop Hv]. cbn [tail_items items app] in *. rewrite <- app_assoc. cbn [app].
    rewrite zlen_cons, zlen_app in Hz. pose proof (zlen_nonneg [closing]). simpl in Hsize. rewrite length_app in Hsize. simpl in Hsize.
    apply (special_reads _ kinds); [done|done|by intros|by intros| |auto]. intros _ back'.
    eapply does_mono; [apply (set_reads symbol v kinds); [done|done|done|done|lia|lia]|]. auto.
  - destruct d as [| | | | | | | | | | | | | | | | |y d sy]; try discriminate. destruct d; try discriminate.
    cbn [tail_items]. rewrite <- app_assoc. cbn [app].
    apply (special_reads _ kinds); [done|done| |by intros|by intros|auto]. intros _ back'.
    eapply does_mono; [by apply quote_reads|]. intros ? ? ? ? (-> & -> & ->). by eexists.
  - destruct d as [| | | | | | | | | | | | | | | | |vars body sy]; try discriminate.
    destruct (variable_names vars) as [xs|] eqn:Ev; [|discriminate]. apply andb_prop in Hr as [Hxs Hbody].
    cbn [tail_items] in *. rewrite <- app_assoc.
    apply (special_reads _ kinds); [done|done|by intros| |by intros|auto]. intros _ back'.
    eapply does_mono; [apply (scope_reads vars body xs kinds); [done|done|done|done|lia|lia]|]. auto.
  - apply andb_prop in Hr as [Hform%negb_true_iff%bool_decide_eq_false_1 Hd]. apply Hplain; [|done].
    cbn [readable_items readable]. by rewrite Hx.
Qed.

Lemma term_reads e kinds (p0 : Parser) back f1 rest : in_scope kinds p0 -> readable kinds e = true ->
  (length (items e) <= S n)%nat -> zlen (items e) < 2 ^ 30 ->
  does p0 back (items e ++ f1 :: rest) (Parser_ParseTerm (S n) K default_mode None) (yields (same_tree e) p0 (f1 :: rest)).
Proof.
  intros Hs Hr Hsize Hz. unfold Parser_ParseTerm. dstep.
  destruct e as [| | | | | | | | |z| | | | |x| | |a d s]; try discriminate Hr; cbn [items app];
    (apply does_NextTokenWithDeclaration; [done|done|apply Hs|]); intros t decl Ht Hdecl; destruct Ht as [Ht Hname].
  - destruct Ht as [-> _]. cbn [readable] in Hr.
    apply (list_reads ENull kinds p0 _ t f1 rest Hs eq_refl); [done|simpl; lia|done].
  - destruct Ht as [Hk Hd]. rewrite Hk. unfold literal_of. rewrite Hk, Hd. dstep. by eexists.
  - destruct Ht as (_ & Hd & _). destruct (usable_calm _ _ _ Hs Hr) as [Hdeclared _]. rewrite Hdeclared in Hname. rewrite Hname.
    cbn [readable] in Hr. unfold usable in Hr. apply andb_prop in Hr as [_ Hk]. destruct (kinds x) as [k|] eqn:Ek; [|discriminate].
    destruct (kind_declared _ _ _ _ Hs Ek) as (_ & d & Hfind & <-). rewrite Hfind in Hdecl. injection Hdecl as <-.
    dstep. eapply does_demand; [reflexivity|]. apply negb_true_iff in Hk. rewrite Hk, Hd. dstep. by eexists.
  - destruct Ht as [-> _]. cbn [items] in *. rewrite zlen_cons in Hz. simpl in Hsize.
    apply (cells_read a d s kinds); [done|done|lia|lia].
Qed.
End Terms.

(** ** All expressions *)

Lemma parsers_read fuel : reads_back (r_OrExpr (parsers fuel)) fuel /\ reads_back (r_Expr (parsers fuel)) fuel.
Proof.
  induction fuel as [|n [IHor IHexpr]].
  - split; intros e kinds p0 back f1 f2 rest Hs Hr Hf Hsize Hz; pose proof (items_nonempty _ _ Hr); lia.
  - assert (Hterm : forall e kinds (p0 : Parser) f1 f2 rest, in_scope kinds p0 -> readable kinds e = true ->
      (length (items e) <= S n)%nat -> zlen (items e) < 2 ^ 30 ->
      forall back, does p0 back (items e ++ f1 :: f2 :: rest) (Parser_ParseTerm (S n) (parsers n) default_mode None)
        (yields (same_tree e) p0 (f1 :: f2 :: rest))) by (intros; by apply (term_reads n _ IHor IHexpr e kinds)).
    assert (Hstart : forall e kinds (p0 : Parser) f1 f2 rest, in_scope kinds p0 -> readable kinds e = true ->
      exists i j ws, items e ++ f1 :: f2 :: rest = i :: j :: ws /\ calm (currentScope p0) i).
    { intros e kinds p0 f1 f2 rest Hs Hr. destruct (readable_calm _ _ _ Hs Hr) as (i & [|j ws] & -> & Hi & _); by do 3 eexists. }
    split; intros e kinds p0 back f1 f2 rest Hs Hr Hf Hsize Hz;
      pose proof (Hterm e kinds p0 f1 f2 rest Hs Hr Hsize Hz) as Ht;
      destruct (Hstart e kinds p0 f1 f2 rest Hs Hr) as (i & j & ws & Ei & Hi); rewrite Ei in *; cbn [parsers r_OrExpr r_Expr].
    + apply pass_Or; [done|done|done|done|apply Hs|done].
    + apply pass_Expr; [done|done|done|done|apply Hs|done| |done]. intros e' He. by eapply readable_measured.
Qed.

(** ** Programs *)

(** The lexer over the text of words. *)
Lemma text_supplies ws its table : Forall (fun w => valid_word w.1) ws ->
  interned table base -> zlen base + zlen (spelled_words ws) < 2 ^ 30 - 2 ->
  Forall2 (fun w it => says base w.1 it) ws its ->
  exists l, Lexer_Create (spelled_words ws) 0 (zlen (spelled_words ws)) (Some []) 1 1 = Some l
    /\ lx_symbolTable (Lexer_SetSymbolTable l table) = Some table
    /\ window base (Lexer_SetSymbolTable l table) [] (its ++ [IEnd; IEnd]).
Proof.
  intros Hv Ht Hz Hsays. pose proof (words_bytes ws Hv) as Hb. pose proof (zlen_nonneg base). pose proof (zlen_nonneg (spelled_words ws)). pose proof (spelled_words_length ws).
  destruct (Lexer_Create (spelled_words ws) 0 (zlen (spelled_words ws)) (Some []) 1 1) as [l|] eqn:El.
  2: { unfold Lexer_Create in El. cbv zeta in El. rewrite !Z.gtb_ltb in El.
       destruct (_ || _) eqn:E in El; [|done]. repeat (apply orb_prop in E as [E|E]); zbool; lia. }
  destruct (Create_ready (W := True) _ _ _ _ _ _ _ table base Hb (fun _ => I) ltac:(lia) Ht Hz El) as (Hr & Hs & He & Hu & _ & _ & _ & Hin).
  exists l. split; [done|]. split; [done|]. set (l1 := Lexer_SetSymbolTable l table) in *.
  assert (Hu1 : lx_ungetCount l1 = 0) by exact Hu.
  split; rewrite ?Hu1; [done|intros; lia|done|pose proof (zlen_nonneg (its ++ [IEnd; IEnd])); lia|].
  exists base, None, ws, its, 2%nat. rewrite Z.add_0_r. split; [|split; [done|split; [done|split; [by exists []; rewrite app_nil_r|lia]]]].
  split; try done; simpl; rewrite ?Hs, ?Hin; try lia.
  - destruct Hr. by split.
  - by exists table.
  - pose proof (spelled_within [] (spelled_words ws) [0]) as Hsp. exact Hsp.
Qed.

(** The body of a program, in any scope. *)
Lemma body_reads fuel d kinds (p0 : Parser) back : in_scope kinds p0 -> readable_items kinds d = true ->
  externalVars p0 = [] -> (length (program_items d) < fuel)%nat -> zlen (program_items d) < 2 ^ 30 - 1 ->
  does p0 back (program_items d ++ [IEnd; IEnd]) (Parser_ParseScopeBody fuel (parsers fuel))
    (fun r p1 _ _ => same_tree (program_tree d) r.1 /\ p1 = p0).
Proof.
  intros Hs Hd Hvars Hfuel Hz. unfold Parser_ParseScopeBody. do 3 dstep. pose proof Hs as [_ _ (s0 & parents & Es & Hsyntax)].
  set (child := mkParseScope PARSESCOPE_SCOPEDECL ∅ [] 16 (syntaxTable s0)).
  assert (Hc : ParseScope_CreateChild (currentScope p0) PARSESCOPE_SCOPEDECL = Some (child :: currentScope p0)) by (by rewrite Es).
  unfold Parser_BeginScope. dstep. apply does_ask; [done|]. dstep. eapply does_demand; [exact Hc|].
  apply (does_modify _ _ (set_scopes (child :: currentScope p0) p0)); [done|].
  pose proof (in_scope_child _ _ _ _ Hs Hc) as Hs1. set (p1 := set_scopes _ p0) in *. dstep.
  unfold Parser_ImportExternalVars. dstep. apply does_ask; [done|]. change (externalVars p1) with (externalVars p0). rewrite Hvars. do 2 dstep.
  assert (Hlen : length (tail_items d) = S (length (program_items d))) by (rewrite tail_last, length_app; simpl; lia).
  assert (Hzlen : zlen (tail_items d) = zlen (program_items d) + 1) by (unfold zlen; rewrite Hlen; lia).
  eapply does_mono; [apply (row_reads fuel _ fuel (proj2 (parsers_read fuel)) d kinds p1 _ _ _ IEnd IEnd [] Hs1 Hd); [by right|lia|lia|lia]|].
  intros head ? back2 ? (l & -> & Hl & -> & ->). dstep. unfold Parser_EndScope. dstep. apply does_ask; [done|]. cbn [p1 set_scopes currentScope].
  dstep. apply (does_modify _ _ p0); [by intros; destruct p0|]. do 2 dstep. split; [|done].
  cbn [app fst]. unfold scope_form. cbn [decls child omap list_omap]. unfold same_tree.
  destruct d as [| | | | | | | | | | | | | | | | |a d s]; try discriminate Hd; (destruct l as [|[e1 s1] l]; [|]); try discriminate Hl; [done|].
  simpl in Hl. injection Hl as He Hl. destruct d as [| | | | | | | | | | | | | | | | |b d s2];
    try (cbn in Hd; rewrite andb_false_r in Hd; discriminate Hd); (destruct l as [|[e2 s3] l]; try discriminate Hl).
  - exact He.
  - simpl in *. by rewrite He, Hl.
Qed.

(** The text of a program, in any scope. *)
Lemma ParseString_reads fuel scopes kinds d ws (p : Parser) :
  interned (symbols p) base -> externalVars p = [] -> in_scope kinds (set_scopes scopes p) -> readable_items kinds d = true ->
  Forall2 (fun w it => says base w.1 it) ws (program_items d) ->
  Forall (fun w => valid_word w.1) ws ->
  zlen base + zlen (spelled_words ws) < 2 ^ 30 - 2 -> (length ws < fuel)%nat ->
  exists e p', Parser_ParseString fuel scopes (spelled_words ws) p = inr (e, p')
    /\ same_tree (program_tree d) e /\ messages p' = messages p /\ currentScope p' = currentScope p /\ parseMessages p' = [].
Proof.
  intros Ht Hvars [Hwf Hkinds Hrules] Hd Hsays Hv Hz Hfuel. pose proof (zlen_nonneg base). pose proof (spelled_words_length ws).
  destruct (text_supplies ws _ _ Hv Ht Hz Hsays) as (l & El & Etable & Hw).
  unfold Parser_ParseString, ask, demand, mbind, P_bind, mret, P_ret. rewrite El.
  unfold Parser_Parse, Parser_ParseWithDetails, ask, modify, mbind, P_bind, mret, P_ret.
  set (p1 := set_lexer _ (set_scopes scopes p)).
  assert (Hs : in_scope kinds p1) by done.
  pose proof (Forall2_length _ _ _ Hsays) as Hlen.
  destruct (body_reads fuel d kinds p1 [] Hs Hd Hvars ltac:(lia)) with p1 as ([e scope] & p2 & E & p3 & back & ws' & Hp & He & ->).
  - unfold zlen in *. lia.
  - eexists _, _. split; [|split; [exact Etable|exact Hw]]. by destruct p.
  - unfold ask, modify, mbind, P_bind, mret, P_ret in E. rewrite E. eexists e, _. split; [reflexivity|]. split; [exact He|].
    destruct Hp as (l' & table' & -> & _). destruct p. cbn. by rewrite Z.eqb_refl.
Qed.

End Reading.
