(* ===== verification/ParserText.v ===== *)
(** * ParserText: the parser on the text of a program

    What is written is read back; and a program as an example. *)

From Stdlib Require Import String.
From S2P Require Import Prelude FiniteMap Text TextProps StringDict StringDictProps SymbolTable Lexer LexNumbers LexerNext LexerWords.
From S2P Require Import Object Expr KnownSymbols ParseScope ScopeProps Parser ParseForms ParseExprs ParserTests ParserFeed ParserLevels ParserTrees ParserRoundtrip.

Section ParserText.
Context {D : Type} {Ops : MapOps Str Z D} {Laws : MapLaws Str Z D} {Real : RealParsers} {Env : ParserEnv} {CE : CompilerEnv}.
Context (zero_is_absent : NULL_value = 0) (large : 2 ^ 30 <= capacity).
Variables (base : list Str).
#[local] Notation Parser := (Parser D).

(** C3: what is written is read back: a program of names, numbers below 2^63, lists,
    assignments, scopes and quoted atoms, each name declared where it is used and none
    of them a keyword or an operator, written token by token with spaces and newlines
    anywhere between, is parsed from its text, with fuel for its tokens, to the tree it
    was written for but for positions, without a message, and leaves the parser's scopes
    as they were. *)
Theorem parser_roundtrip (fuel : nat) (scopes : list ParseScope) (d : Expr) (ws : list (lexeme * bool)) (p : Parser) :
  interned (symbols p) base -> externalVars p = [] ->
  Forall scope_wf scopes -> head (syntaxTable <$> scopes) = Some [] -> readable_items (decl_of scopes) d = true ->
  Forall2 (fun w it => says base w.1 it) ws (program_items d) ->
  Forall (fun w => valid_word w.1) ws ->
  zlen base + zlen (spelled_words ws) < 2 ^ 30 - 2 -> (length ws < fuel)%nat ->
  exists e p', Parser_ParseString fuel scopes (spelled_words ws) p = inr (e, p')
    /\ erase e = erase (program_tree d)
    /\ messages p' = messages p /\ parseMessages p' = [] /\ currentScope p' = currentScope p.
Proof.
  intros Ht Hvars Hwf Hhead Hd Hsays Hv Hz Hfuel.
  destruct (ParseString_reads zero_is_absent large base fuel scopes (decl_of scopes) d ws p Ht Hvars) as (e & p' & E & He & Hm & Hc & Hpm); try done.
  - split; [done|done|]. destruct scopes as [|s parents]; [done|]. injection Hhead as Hs. by exists s, parents.
  - by exists e, p'.
Qed.
End ParserText.

(** ** Witness: a program as text *)

#[export] Instance text_laws : MapLaws Str Z (StringDictInt Z) := StringDict_laws sum_hash 0.

(** The symbol table at startup with the name [x], and the outermost scope. *)
Definition text_names : list Str := special_names ++ [bytes "x"].

Definition text_start : option (Parser.Parser (StringDictInt Z) * list ParseScope) :=
  table ← SymbolTable_Create;
  table ← AddSpecialSymbols sum_hash table special_symbols;
  '(table, _) ← SymbolTableInt_AddSymbol table (bytes "x");
  root ← ParseScope_CreateRoot; Some (Parser_Create table, root).

Definition text_program : Expr :=
  let x := ESymbol 95 in
  let form := plain_list in
  form [form [ESymbol SYMBOL__SCOPE; form [x]; form [ESymbol SYMBOL__SET; x; EInteger64 5];
    form [ESymbol SYMBOL__IF; form [ESymbol SYMBOL__EQ; x; EInteger64 5]; EInteger64 7; x]]].

Definition text_words : list (lexeme * bool) :=
  let open := (Mark "["%code, false) in
  let close := (Mark "]"%code, false) in
  let name s := (Name (bytes s), false) in
  [open; name "$scope"; open; name "x"; (Mark "]"%code, true);
   open; name "$set"; name "x"; (Number 5, false); (Mark "]"%code, true);
   open; name "$if"; open; name "$eq"; name "x"; (Number 5, false); (Mark "]"%code, true);
   (Number 7, false); name "x"; close; close]%string.

Example text_spelled : spelled_words text_words
  = bytes "[ $scope [ x ]" ++ [10] ++ bytes "[ $set x 5 ]" ++ [10] ++ bytes "[ $if [ $eq x 5 ]" ++ [10]
    ++ bytes "7 x ] ] ".
Proof. by vm_compute. Qed.

(** A check that implies well-formedness. *)
Definition scope_ok (s : ParseScope) : bool :=
  bool_decide (map_Forall (fun symbol index => pd_symbol <$> zget (decls s) index = Some symbol) (symbolDict s))
  && bool_decide (Forall (fun d => PARSEDECL_UNDECLARED <= declKind d /\ declKind d <= PARSEDECL_INCLUDE) (decls s)).

Lemma scope_ok_wf s : scope_ok s = true -> scope_wf s.
Proof.
  unfold scope_ok. intros [H1%bool_decide_eq_true_1 H2%bool_decide_eq_true_1]%andb_prop. split; [|exact H2].
  intros symbol index Hi. specialize (H1 symbol index Hi). simpl in H1.
  destruct (zget (decls s) index) as [d|]; [|done]. injection H1 as H1. by exists d.
Qed.

Definition scopes_ok (scopes : list ParseScope) : bool :=
  forallb scope_ok scopes && bool_decide (head (syntaxTable <$> scopes) = Some [])
  && readable_items (decl_of scopes) text_program.

Lemma bound {A B} (o : option A) x (f : A -> option B) r : o = Some x -> f x = r -> (o ≫= f) = r.
Proof. by intros ->. Qed.

Lemma text_table : exists table0 table table', SymbolTable_Create = Some table0
  /\ AddSpecialSymbols sum_hash table0 special_symbols = Some table
  /\ SymbolTableInt_AddSymbol table (bytes "x") = Some (table', zlen special_names + 1) /\ interned table' text_names.
Proof.
  destruct (Create_interned (O := parser_dict) (L := text_laws)) as (table0 & E0 & H0).
  pose proof (created_max sum_hash table0 E0) as Hm.
  destruct (AddSpecialSymbols_interned sum_hash special_symbols table0 [] H0 special_in_order Hm) as (table & E & Hi & _);
    [rewrite zlen_nil, (proj1 special_count); lia|].
  destruct (AddSymbol_interned (O := parser_dict) (L := text_laws) eq_refl (large_dict sum_hash) table special_names (bytes "x") Hi)
    as (table' & E' & Hi').
  { apply (bool_decide_eq_false_1 (bytes "x" ∈ special_names)). by vm_compute. }
  { rewrite (proj2 special_count). lia. }
  exists table0, table, table'. split; [exact E0|]. split; [exact E|]. split; [exact E'|exact Hi'].
Qed.

Lemma text_root : exists scopes, ParseScope_CreateRoot = Some scopes /\ scopes_ok scopes = true.
Proof.
  assert (Hroot : match ParseScope_CreateRoot with Some scopes => scopes_ok scopes | None => false end = true) by (vm_compute; reflexivity).
  destruct ParseScope_CreateRoot as [scopes|]; [|discriminate Hroot]. by exists scopes.
Qed.

Lemma text_starts : exists p scopes, text_start = Some (p, scopes)
  /\ interned (symbols p) text_names /\ externalVars p = [] /\ messages p = []
  /\ Forall scope_wf scopes /\ head (syntaxTable <$> scopes) = Some [] /\ readable_items (decl_of scopes) text_program = true.
Proof.
  destruct text_table as (table0 & table & table' & E0 & E & E' & Hi'), text_root as (scopes & Er & Hroot).
  unfold scopes_ok in Hroot. apply andb_prop in Hroot as [[H1 H2%bool_decide_eq_true_1]%andb_prop H3].
  exists (Parser_Create table'), scopes. split.
  - unfold text_start. eapply bound; [exact E0|]. cbv beta. eapply bound; [exact E|]. cbv beta.
    eapply bound; [exact E'|]. cbv beta iota. by eapply bound; [exact Er|].
  - split; [exact Hi'|]. split; [reflexivity|]. split; [reflexivity|]. split; [|split; [exact H2|exact H3]].
    apply Forall_forall. intros s Hs. rewrite forallb_forall in H1. apply scope_ok_wf, H1. by apply list_elem_of_In.
Qed.

Lemma text_says : Forall2 (fun w it => says text_names w.1 it) text_words (program_items text_program)
  /\ Forall (fun w => valid_word w.1) text_words
  /\ zlen text_names + zlen (spelled_words text_words) < 2 ^ 30 - 2 /\ (length text_words < 60)%nat.
Proof.
  split; [|split; [|split]].
  - let its := eval vm_compute in (program_items text_program) in change (program_items text_program) with its.
    unfold text_words. repeat (apply Forall2_cons_2; [by vm_compute|]). apply Forall2_nil_2.
  - unfold text_words. repeat (constructor; [first [done|by vm_compute|split; by vm_compute|by eexists]|]). constructor.
  - by vm_compute.
  - apply Nat.ltb_lt. reflexivity.
Qed.


(** The tree of the text, with the positions the parser found. *)
Lemma parser_roundtrip_witness : exists p scopes e p', text_start = Some (p, scopes)
  /\ Parser_ParseString 60 scopes (spelled_words text_words) p = inr (e, p')
  /\ erase e = erase (program_tree text_program)
  /\ messages p' = messages p /\ parseMessages p' = [] /\ currentScope p' = currentScope p.
Proof.
  destruct text_starts as (p & scopes & Estart & Hi & Hvars & _ & Hwf & Hhead & Hread).
  destruct text_says as (Hsays & Hv & Hz & Hf).
  destruct (parser_roundtrip (D := StringDictInt Z) (Ops := parser_dict) (Laws := text_laws) eq_refl (large_dict sum_hash) text_names
    60 scopes text_program text_words p Hi Hvars Hwf Hhead Hread Hsays Hv Hz Hf) as (e & p' & H).
  exists p, scopes, e, p'. split; [exact Estart|exact H].
Defined.
