(* ===== verification/TextProgram.v ===== *)
(** * TextProgram: from the text of a program to its value

    The lexer, the parser, the compiler, the assembler and the machine together: the
    text of a program of the core language runs to the value that the reference
    interpreter gives the tree it was written for. *)

From Stdlib Require Import String.
From S2P Require Import Prelude FiniteMap Text TextProps StringDict StringDictProps SymbolTable Lexer LexNumbers LexerWords.
From S2P Require Import Opcode ByteCode Object Expr Closure Machine FnCall Eval.
From S2P Require Import Compiler KnownSymbols CompileForms CompilerProps Reference ProgramCorrect PositionFree.
From S2P Require Import ParseScope ScopeProps Parser ParseForms ParseExprs ParserTests ParserFeed ParserTrees ParserRoundtrip ParserText.

Section TextProgram.
Context {D : Type} {Ops : MapOps Str Z D} {Laws : MapLaws Str Z D} {Real : RealParsers} {PE : ParserEnv}.
Context {OE : ObjectEnv} {E : CompilerEnv}.

(** C2: a program of the core language, written token by token, is parsed from its text
    without a message; and if the tree compiles, it does so without a message either,
    and its byte code, run from [Eval_Run] in any program and store that hold it, ends
    normally with the value that the reference interpreter gives the tree the text was
    written for. *)
Theorem text_to_value (names : list Str) (fuel : nat) (scopes : list ParseScope) (d : Expr) (ws : list (lexeme * bool))
  (p : Parser.Parser D) (infos : list Compiler.ClosureInfo) (g : option nat) (modules : list (option ModuleInfo))
  (n : nat) (v : Value) (env' : Env) :
  NULL_value = 0 -> 2 ^ 30 <= capacity ->
  interned (symbols p) names -> externalVars p = [] ->
  Forall scope_wf scopes -> head (syntaxTable <$> scopes) = Some [] -> readable_items (decl_of scopes) d = true ->
  Forall2 (fun w it => says names w.1 it) ws (program_items d) ->
  Forall (fun w => valid_word w.1) ws ->
  zlen names + zlen (spelled_words ws) < 2 ^ 30 - 2 -> (length ws < fuel)%nat ->
  supported [] false (program_tree d) -> eval n [] (program_tree d) = Some (v, env') ->
  exists e p', Parser_ParseString fuel scopes (spelled_words ws) p = inr (e, p') /\ messages p' = messages p
    /\ forall q c', Compiler_CompileGlobal e (Compiler_Create infos g modules) = COk q c' ->
       c_messages c' = []
       /\ exists u seg ci, c_userFunctionInfos c' !! q = Some u /\ fn_byteCodeSegment u = Some seg
         /\ fn_closureInfo u = Some ci
         /\ (numByteCodes seg < 2 ^ 24 ->
             forall P s h gci fn i,
             segments P !! uf_byteCodeSegment fn = Some seg ->
             Closure.infos s !! uf_closureInfo fn = Some i -> same_layout ci i ->
             exists m0 steps m, Eval_Run_start s h gci fn = Ok m0 /\ Eval_RunCore P steps m0 = Returned m
               /\ Eval_Continue_value (Returned m) = Ok (boxed h v)).
Proof.
  intros Hzero Hlarge Ht Hvars Hwf Hhead Hd Hsays Hv Hz Hfuel Hsup Hval.
  destruct (ParseString_reads Hzero Hlarge names fuel scopes (decl_of scopes) d ws p Ht Hvars)
    as (e & p' & Hp & He & Hm & _); try done.
  - split; [done|done|]. destruct scopes as [|s parents]; [done|]. injection Hhead as Hs. by exists s, parents.
  - exists e, p'. split; [exact Hp|]. split; [exact Hm|]. intros q c' Hc.
    apply (program_runs infos g modules e q c' n v env'); [by eapply supported_same| |exact Hc].
    by rewrite (eval_same_tree _ _ (program_tree d)).
Qed.
End TextProgram.

(** ** Witness: a program, from its text to its value *)

#[local] Existing Instance example_env.
(** What the text compiles to, from a parser and its scopes. *)
Definition compiled_of (start : option (Parser.Parser (StringDictInt Z) * list ParseScope)) : option (nat * Compiler) :=
  '(p, scopes) ← start;
  match Parser_ParseString 60 scopes (spelled_words text_words) p with
  | inr (e, _) => match Compiler_CompileGlobal e (Compiler_Create [] None []) with COk q c => Some (q, c) | _ => None end
  | inl _ => None
  end.

(** The size of its byte code, and what its closure needs. *)
Definition sizes_of (compiled : option (nat * Compiler)) : option (Z * (Z * Z * Z)) :=
  '(q, c) ← compiled;
  u ← c_userFunctionInfos c !! q; seg ← fn_byteCodeSegment u; ci ← fn_closureInfo u;
  Some (numByteCodes seg, (ci_numArgs ci, ci_numVariables ci, ci_tempSize ci)).

Example text_size : sizes_of (compiled_of text_start) = Some (11, (0, 1, 2)).
Proof. by vm_compute. Qed.

Lemma sizes_of_inv compiled sizes : sizes_of compiled = Some sizes ->
  exists q c, compiled = Some (q, c)
    /\ forall u seg ci, c_userFunctionInfos c !! q = Some u -> fn_byteCodeSegment u = Some seg -> fn_closureInfo u = Some ci ->
       sizes = (numByteCodes seg, (ci_numArgs ci, ci_numVariables ci, ci_tempSize ci)).
Proof.
  unfold sizes_of. destruct compiled as [[q c]|]; [|done]. simpl. intros Hs. exists q, c. split; [done|].
  intros u seg ci Hu Hseg Hci. rewrite Hu in Hs. simpl in Hs. rewrite Hseg in Hs. simpl in Hs. rewrite Hci in Hs. by injection Hs as <-.
Qed.

Lemma compiled_of_inv p scopes e p' q c : Parser_ParseString 60 scopes (spelled_words text_words) p = inr (e, p') ->
  compiled_of (Some (p, scopes)) = Some (q, c) -> Compiler_CompileGlobal e (Compiler_Create [] None []) = COk q c.
Proof.
  unfold compiled_of. intros Ep. change (Some (p, scopes) ≫= ?f) with (f (p, scopes)). cbv beta iota. rewrite Ep.
  destruct (Compiler_CompileGlobal _ _) as [? ?| | |]; intros [= -> ->]; reflexivity.
Qed.

Lemma text_supported : supported [] false (program_tree text_program).
Proof.
  eapply sup_scope; [reflexivity|reflexivity|reflexivity|].
  apply seq_cons; [reflexivity|apply sup_set; [set_solver|by eapply sup_literal]|].
  apply seq_last; [reflexivity|].
  assert (Heq : supported [95] false (plain_list [ESymbol SYMBOL__EQ; ESymbol 95; EInteger64 5])).
  { eapply sup_equal; [by left|apply sup_variable; set_solver|by eapply sup_literal|reflexivity|reflexivity]. }
  eapply sup_if; [reflexivity|exact Heq|exact Heq|by eapply sup_literal|apply sup_variable; set_solver].
Qed.

(** A machine that holds a program of one variable and the given stack space. *)
Definition text_store (tempSize : Z) : Store :=
  mkStore [] [Closure.mkClosureInfo None None CLOSURE_KIND_LOCAL 1 0 tempSize ∅].
Definition text_function : Machine.UserFunctionInfo := Machine.mkUserFunctionInfo 0 0 0 0 [] 0 0.

Lemma text_to_value_witness :
  exists p scopes e p' q c' seg, text_start = Some (p, scopes)
    /\ Parser_ParseString 60 scopes (spelled_words text_words) p = inr (e, p') /\ messages p' = []
    /\ Compiler_CompileGlobal e (Compiler_Create [] None []) = COk q c' /\ c_messages c' = []
    /\ numByteCodes seg = 11
    /\ exists m0 steps m, Eval_Run_start (text_store 2) [] 0 text_function = Ok m0
         /\ Eval_RunCore (mkProgram [seg] [] [] []) steps m0 = Returned m
         /\ Eval_Continue_value (Returned m) = Ok ([HScalar KInteger64 7], Ref 0).
Proof.
  destruct text_starts as (p & scopes & Estart & Hi & Hvars & Hm & Hwf & Hhead & Hread).
  destruct text_says as (Hsays & Hv & Hz & Hf).
  destruct (text_to_value (D := StringDictInt Z) (Ops := parser_dict) (Laws := text_laws) text_names 60 scopes text_program text_words p
    [] None [] 20 (VScalar KInteger64 7) [] eq_refl (large_dict sum_hash) Hi Hvars Hwf Hhead Hread Hsays Hv Hz Hf
    text_supported ltac:(vm_compute; reflexivity)) as (e & p' & Hp & Hm' & Hrun).
  destruct (sizes_of_inv _ _ text_size) as (q & c' & Hcomp & Hsizes).
  rewrite Estart in Hcomp. pose proof (compiled_of_inv p scopes e p' q c' Hp Hcomp) as Hc.
  destruct (Hrun q c' Hc) as (Hmsg & u & seg & ci & Hu & Hseg & Hci & Hexec).
  injection (Hsizes u seg ci Hu Hseg Hci) as H1 H2 H3 H4.
  exists p, scopes, e, p', q, c', seg. split; [exact Estart|]. split; [exact Hp|]. split; [by rewrite Hm', Hm|].
  split; [exact Hc|]. split; [exact Hmsg|]. split; [done|].
  assert (Hn : numByteCodes seg < 2 ^ 24) by (rewrite <- H1; reflexivity).
  exact (Hexec Hn (mkProgram [seg] [] [] []) (text_store 2) [] O text_function _ eq_refl eq_refl (conj H2 (conj H3 H4))).
Defined.
